(* ===== verification/_CoqProject ===== *)
-Q . S2P
Prelude.v
Machine.v
BTree.v
Ident.v
Digest.v
Merkle.v
AuthLog.v
Claim.v
Temporal.v
KeyCodec.v
Text.v
RuntimeTypes.v
RuntimeSchema.v
RuntimeData.v
RuntimeBytes.v
RuntimeLog.v
RuntimeRead.v
RuntimeGraph.v
RuntimeSnapshot.v
ReasoningTree.v
LsmError.v
Batch.v
RecoveryBudget.v
Wal.v
Filesystem.v
Reclamation.v
Memtable.v
MutableMemory.v
Transaction.v
Versions.v
SegmentFormat.v
Segment.v
SegmentFile.v
SegmentWrite.v
SegmentOpen.v
PointIndex.v
Database.v
Compaction.v
Manifest.v
Reader.v
Cursors.v
Merge.v
ReadBatches.v
ReadViews.v
ProjectedRead.v
ManifestStore.v
GarbageCollection.v
History.v
SegmentStore.v
