(* ===== verification/Prelude.v ===== *)
(** A verification library for RRFlow's kernel and persistence core.

    RRFlow keeps claims (who said what, valid when, recorded when) in rrflowKV, a store that
    is written from scratch in this repository: an ordered key codec over a log-structured
    merge engine with snapshots, transactions, crash recovery and compaction, and an
    authenticated append-only log over the whole.  The kernel's contract says what a commit may
    hold: records, relations, events, claims and typed values under a schema, the changes they
    become, the snapshots read back from them, and the reasoning trees a cursor walks.  The
    library models that core, every
    definition translated from the Rust function its comment names, and proves what makes it
    correct.

    ** The program and the files that model it

    The crates are [src/crates/kernel/rrd-core] (written [core/] in the comments),
    [src/crates/persistence/rrd-store] ([store/]) and [src/crates/persistence/rrd-lsm]
    ([lsm/]).  A comment [lsm/wal.rs:10-20 f] before a definition says that the
    definition translates lines 10 to 20 of that file.

    Foundations:
    - Prelude: Rust's [Result] with its [?] notation, loops that stop at an error, ordered
      types as the classes [Ord] and [OrdLaws], list slices; Machine: integers as [Z] with
      their width, checked, wrapping and saturating arithmetic, byte orders, UTF-8; BTree:
      [BTreeMap] and [BTreeSet] as ordered association lists.
    Kernel:
    - Ident, Digest, Claim, Temporal: validated identifiers (ident.rs), SHA-256 identity
      (digest.rs), claims and supersession (claim.rs), the [ClaimSource] contract, [as_of]
      and the reference store (temporal.rs, reference.rs).
    - Merkle, AuthLog: RFC 9162 trees, and the accumulator, stored nodes, inclusion proofs
      and verification of authenticated_log.rs.
    - Text, RuntimeTypes: text checks, and the identities, values and mutations of runtime.rs;
      RuntimeSchema: the registry of schema.rs, its authoring, its own validation and the
      admission of the values of a commit; RuntimeData: validation of mutations and commits and
      the typed values of data.rs (numbers, geometry, time series, vectors, objects).
    - RuntimeBytes: the canonical bytes of changes and schemas and that they determine what
      they encode; RuntimeLog: commits as changes of the authenticated log.
    - RuntimeRead: read stamps, leased snapshots, pins, transactions over a stamp, projections
      and audit envelopes; RuntimeGraph: graph snapshots, traversal, diff and the preview of a
      transaction; RuntimeSnapshot: snapshots of every family under a catalogue (runtime.rs).
    - ReasoningTree: trees, decisions and cursor advances (reasoning_tree.rs).
    Keys:
    - KeyCodec: the order-preserving physical keys of key_codec.rs.
    The engine, from the log upwards:
    - LsmError, RecoveryBudget, Batch: errors, admission of recovery work and atomic batches.
    - Wal: the write-ahead log (wal.rs) over a file whose unsynced suffix a crash may cut
      anywhere, on a device that may interrupt, shorten or refuse each call.
    - Memtable: version chains, reads, scans, seeks, limits and replay (memtable.rs,
      mutable.rs); MutableMemory: the generations of the active memtable that reads share, and
      the pool their memory is reserved from (mutable_memory.rs).
    - Versions: which version of a key a read at a sequence sees, over any list of versions;
      the specification the segment, database and compaction theorems share.
    - SegmentFormat, SegmentFile, SegmentWrite, SegmentOpen: the columnar file of
      segment/format.rs.  SegmentFormat has the pages, the row-group builder and the Bloom
      filter; SegmentFile the encoder, the parser and the ways of opening a file; SegmentWrite
      the invariant of the encoder; SegmentOpen the acceptance of what was written and the
      soundness of what is accepted.
    - Segment: reads, the record cursor and full validation of an opened segment
      (segment/mod.rs).
    - PointIndex: the interval tree over the live segments (database/point_index.rs).
    - Transaction: the snapshot registry, the write set, reads through it, the bounded merge
      scan and the conflict check (transaction.rs, transaction/scan.rs), over the interface
      [Store] that stands for the database.
    - Database: point, many-key, range and multi-range reads over memtable and segments
      (database.rs).
    - Compaction: selection, admission, merge, pruning and installation (database.rs), over
      the interface [SegmentWriter], which SegmentOpen's [table_writer] discharges with the
      encoder.
    - Reader, Cursors, Merge, ReadBatches, ReadViews, ProjectedRead: bounded streaming reads
      (segment/reader.rs, segment/output.rs).  Reader has the definitions; Cursors the laws of
      a run as the record [Run], discharged for segments and memtables; Merge the heap of runs
      against those laws; ReadBatches the columns of a batch and what a call gives; ReadViews
      the registry of leases; ProjectedRead whole sessions.
    - Filesystem: the calls that publish a file (filesystem.rs), over a disk on which a power
      loss may bring back whatever a directory held since its last sync; Reclamation: the
      budget of scans (reclamation.rs); Manifest: manifests, pointers and checkpoints and their
      validation; ManifestStore: their publication (manifest.rs); GarbageCollection: the
      deletion of files nothing refers to (database.rs); History: every sequence of openings,
      publications, checkpoints, collections, failures, deaths and power losses; SegmentStore:
      segment files written under their digests (segment/mod.rs) and compaction's merge down to
      the files it writes (database.rs).

    ** How code becomes definitions

    Pure functions are functions; methods that change state return the new state beside their
    result, also on the error path where the code leaves a change behind (a poisoned writer, a
    pending reclamation).  Errors are values of [result]; a panic is [None] around the result
    where one can happen.  Integers are [Z] with the wrap-around, saturation or overflow check
    of the code written out.  Loops that are not structural take fuel, and each such function
    has a theorem that the fuel its caller passes is enough: the depth bound 65 of the 64-bit
    log in AuthLog, the length of the file in Wal, the number of rows for the merge scan, the
    segment cursor and the compaction merge, one step per relation and one for the start in
    [traverse], one per edge and one for the root in [tree_validate], and [stream_passes], which
    counts the rows left in every run, for the projected reader.  Where the operating system takes part, its replies
    are an input: a list that says of each call whether it is carried out, fails with part of
    its effect done, or is the last the process makes.

    Code outside the repository is a class with its documented behaviour as laws: [Sha2] and
    [Ring] for SHA-256, [Lz4] for the block codec, the CRC of the log, [Serde] for the JSON of
    the control records, [Layout] for the sizes of Rust types that the accounting uses, [Powi] for
    the floating-point square in the norm of a vector, of which no law is needed.  No law is assumed of them globally: they are
    arguments, and each theorem that has one has a witness with a concrete function.

    ** What the theorems show

    - Durability: from any crash, recovery returns a contiguous run of the submitted batches
      with every acknowledged one; it accepts exactly the well-formed files; repair removes
      exactly the torn tail; replay rebuilds the memtable.
    - Snapshots: the memtable refines a history of mutations; reads, scans and seeks at a
      sequence answer from the history and later writes do not change them; the pool of
      generations is exact, within its limits, and a generation a read holds never changes.
    - Segments: what is encoded is accepted and holds the rows of its table; any file that is
      accepted holds ordered rows within its bounds; reads of such a segment are exact.
    - Database and compaction: every read path answers the newest version at or below its
      sequence over all runs; compaction changes no read that must stay readable, and the
      segments it merges are whole on disk through any power loss.
    - Projected reads: whatever is taken, dropped, cancelled or done by other readers, the
      batches of a stream read back as a prefix of what point reads give, as all of it once it
      completes, and it completes unless its budget stops it; what is read, emitted, reserved
      and pinned stays within its limits, and the registry of leases is exact.
    - Control records: a manifest validates exactly when it keeps its contract, and its digest
      binds it; publishing a file is atomic; through failures, deaths and power losses every
      acknowledged manifest stays in a chain whose newest one [CURRENT] selects, publication is
      a compare-and-swap of that chain, and checkpoints are kept until released with the
      manifests they name.  A collection deletes only files that nothing refers to, whatever
      fails, and reports exactly what it did.
    - Transactions: the registry is exact under every interleaving; scans overlay the write
      set on the snapshot; the write set always commits as one batch; the conflict check
      decides exactly.  [compaction_forgets_conflicting_deletion] shows the one place where
      the composition breaks: a pruning compaction may drop the deletion that a live
      transaction would conflict with.
    - Keys, claims and log: the key codec is an order isomorphism onto its image and its
      prefix ranges isolate tenants, scopes and families; [as_of] returns the claim in force;
      the accumulator has the RFC root and a proof that verifies proves its leaf up to an
      explicit collision.
    - Commits and schemas: a commit validates exactly when it keeps its contract; its values are
      admitted exactly when every one fits its table, unique properties and the limits of
      relations hold at every instant; authoring keeps the catalogue coherent and never moves a
      table to another family.  [undeclared_grandparent_panics] shows where validation of a
      registry panics instead of answering.
    - The log of changes: every change of an accepted log has a proof that verifies, a change
      that verifies is the one logged, commits, read stamps and audit trails with one digest are
      the same, each up to an explicit collision.
    - Snapshots of the runtime: graph and data snapshots hold exactly what the last change of
      every identity leaves, the preview of a transaction is the snapshot after its commit, a
      diff patches one snapshot into another, and traversal returns exactly what is in reach.
    - Reasoning: validation always answers and accepts exactly the trees; an accepted advance is
      justified by the tree, its conditions and its verifications; a run is the path from the
      root to its cursor.

    ** Not modelled

    Failure injection, tracing, statistics and deadline checks; the file system below the calls
    the code makes (paths are names in five directories, and the operating system's lock is
    an input); the page cache, which is the map it caches; threads, since
    each method takes the database by exclusive or shared reference.  JSON forms of the runtime's types are left to serde.  Of the
    engine: opening and flushing a database and creating its namespace, the inspection and tail
    repair tools and snapshot bundles.  Of the kernel: trace.rs and
    telemetry.rs, the wire forms of traces and counters with their field checks, and
    result_identity.rs, digests over serde_json values.  Of the
    repository: the adapters and backups of the store crate, and the compute, authority,
    operations, transport and adapter crates, which call the store. *)

From stdpp Require Export base sets list strings option pretty gmap.
From Stdlib Require Export ZArith Lia Sorting.Sorted.

(** * Results *)

(** Rust's [Result<T, E>]: every fallible function of the model returns one. *)
Inductive result (E T : Type) : Type :=
| Ok (t : T)
| Err (e : E).
Arguments Ok {E T} _.
Arguments Err {E T} _.

Declare Scope rust_scope.
Delimit Scope rust_scope with rust.

(** The [?] operator: bind the success value, return the error at once. *)
Notation "'let?' x ':=' e 'in' k" :=
  (match e with Ok x => k | Err err => Err err end)
  (at level 10, x pattern, e at level 100, k at level 200)
  : rust_scope.

(** [e?; k] for a call whose value is unit. *)
Notation "'do?' e 'in' k" :=
  (match e with Ok _ => k | Err err => Err err end)
  (at level 10, e at level 100, k at level 200)
  : rust_scope.

Open Scope rust_scope.

(** [Option::ok_or]. *)
Definition ok_or {E T} (o : option T) (e : E) : result E T :=
  match o with Some t => Ok t | None => Err e end.

Definition is_ok {E T} (r : result E T) : bool :=
  match r with Ok _ => true | Err _ => false end.

Lemma is_ok_spec {E T} (r : result E T) : is_ok r = true ↔ ∃ t, r = Ok t.
Proof. destruct r; naive_solver. Qed.

(** A loop [for x in l { acc = f(acc, x)?; }]. *)
Fixpoint try_fold {E A B} (f : B → A → result E B) (acc : B) (l : list A) : result E B :=
  match l with
  | [] => Ok acc
  | x :: l => let? acc' := f acc x in try_fold f acc' l
  end.

(** A loop that only validates: [for x in l { f(x)?; }]. *)
Fixpoint try_each {E A} (f : A → result E unit) (l : list A) : result E unit :=
  match l with
  | [] => Ok tt
  | x :: l => do? f x in try_each f l
  end.

Lemma try_each_ok {E A} (f : A → result E unit) l :
  try_each f l = Ok tt ↔ Forall (λ x, f x = Ok tt) l.
Proof.
  induction l as [|x l IH]; simpl; [by split|].
  rewrite Forall_cons. destruct (f x) as [[]|]; naive_solver.
Qed.

Lemma try_fold_app {E A B} (f : B → A → result E B) acc l k :
  try_fold f acc (l ++ k) = let? acc' := try_fold f acc l in try_fold f acc' k.
Proof. revert acc; induction l as [|x l IH]; intros acc; simpl; [done|]. destruct (f acc x); naive_solver. Qed.

(** Invariant rule for a fallible loop: an invariant the body keeps holds at the exit. *)
Lemma try_fold_inv {E A B} (I : B → Prop) (f : B → A → result E B) l acc acc' :
  I acc →
  (∀ b x b', x ∈ l → I b → f b x = Ok b' → I b') →
  try_fold f acc l = Ok acc' → I acc'.
Proof.
  revert acc; induction l as [|x l IH]; simpl; intros acc HI Hstep Hf; [naive_solver|].
  destruct (f acc x) as [b|] eqn:Hx; [|done].
  apply (IH b); [|intros; eapply Hstep; eauto; set_solver|done].
  eapply Hstep; eauto. set_solver.
Qed.

(** * Automation *)

(** Case analysis on the scrutinee of every match of a hypothesis, discarding the
    branches that an equation refutes: the shape of every proof about [?]-style code. *)
Ltac destruct_matches_in H :=
  repeat (simplify_eq/=;
    match type of H with
    | context [match ?x with _ => _ end] =>
        let E := fresh "E" in destruct x eqn:E
    end); simplify_eq/=.

Ltac destruct_matches :=
  repeat (simplify_eq/=;
    match goal with
    | |- context [match ?x with _ => _ end] =>
        let E := fresh "E" in destruct x eqn:E
    end); simplify_eq/=.

(** Turn the boolean tests of the code into propositions [lia] reads. *)
Ltac bools :=
  repeat match goal with
  | H : (_ && _)%bool = true |- _ => apply andb_true_iff in H as [? ?]
  | H : (_ && _)%bool = false |- _ => apply andb_false_iff in H
  | H : (_ || _)%bool = false |- _ => apply orb_false_iff in H as [? ?]
  | H : (_ || _)%bool = true |- _ => apply orb_true_iff in H
  | H : negb _ = true |- _ => apply negb_true_iff in H
  | H : negb _ = false |- _ => apply negb_false_iff in H
  | H : (_ =? _)%Z = true |- _ => apply Z.eqb_eq in H
  | H : (_ =? _)%Z = false |- _ => apply Z.eqb_neq in H
  | H : (_ <? _)%Z = true |- _ => apply Z.ltb_lt in H
  | H : (_ <? _)%Z = false |- _ => apply Z.ltb_ge in H
  | H : (_ <=? _)%Z = true |- _ => apply Z.leb_le in H
  | H : (_ <=? _)%Z = false |- _ => apply Z.leb_gt in H
  end.

Create HintDb rust.
Create Rewrite HintDb rust.

(** * Total orders: Rust's [Ord] *)

Class Ord (A : Type) := cmp : A → A → comparison.

Class OrdLaws (A : Type) `{Ord A} : Prop := {
  cmp_eq : ∀ a b, cmp a b = Eq ↔ a = b;
  cmp_antisym : ∀ a b, cmp b a = CompOpp (cmp a b);
  cmp_trans : ∀ a b c, cmp a b = Lt → cmp b c = Lt → cmp a c = Lt
}.

Definition ltb {A} `{Ord A} (a b : A) : bool :=
  match cmp a b with Lt => true | _ => false end.
Definition leb {A} `{Ord A} (a b : A) : bool :=
  match cmp a b with Gt => false | _ => true end.

Section OrdFacts.
Context {A : Type} `{OrdLaws A}.

Lemma cmp_refl a : cmp a a = Eq.
Proof. by apply cmp_eq. Qed.

Lemma cmp_gt_lt a b : cmp a b = Gt ↔ cmp b a = Lt.
Proof. rewrite (cmp_antisym a b). destruct (cmp a b); naive_solver. Qed.

Lemma ltb_lt a b : ltb a b = true ↔ cmp a b = Lt.
Proof. unfold ltb. destruct (cmp a b); naive_solver. Qed.

Lemma ltb_irrefl a : ltb a a = false.
Proof. unfold ltb. by rewrite cmp_refl. Qed.

Lemma ltb_trans a b c : ltb a b = true → ltb b c = true → ltb a c = true.
Proof. rewrite !ltb_lt. apply cmp_trans. Qed.

Lemma leb_ltb a b : leb a b = negb (ltb b a).
Proof. unfold leb, ltb. rewrite (cmp_antisym a b). by destruct (cmp a b). Qed.

Lemma leb_ltb_trans a b c : leb a b = true → ltb b c = true → ltb a c = true.
Proof.
  unfold leb. rewrite !ltb_lt. destruct (cmp a b) eqn:E; [|by eauto using cmp_trans|done].
  apply cmp_eq in E as ->. done.
Qed.

Lemma ltb_leb_trans a b c : ltb a b = true → leb b c = true → ltb a c = true.
Proof.
  unfold leb. rewrite !ltb_lt. destruct (cmp b c) eqn:E; [|by eauto using cmp_trans|done].
  apply cmp_eq in E as ->. done.
Qed.

Lemma leb_refl a : leb a a = true.
Proof. unfold leb. by rewrite cmp_refl. Qed.

Lemma leb_trans a b c : leb a b = true → leb b c = true → leb a c = true.
Proof.
  intros Hab Hbc. rewrite leb_ltb, negb_true_iff. apply not_true_is_false. intros Hca.
  assert (ltb c b = true) as Hcb by (eapply ltb_leb_trans; eauto).
  rewrite leb_ltb, Hcb in Hbc. done.
Qed.

Lemma ltb_leb a b : ltb a b = true → leb a b = true.
Proof. unfold ltb, leb. by destruct (cmp a b). Qed.

Lemma ltb_ne a b : ltb a b = true → a ≠ b.
Proof. intros Hl ->. by rewrite ltb_irrefl in Hl. Qed.

Lemma leb_antisym a b : leb a b = true → leb b a = true → a = b.
Proof.
  unfold leb. rewrite (cmp_antisym a b). destruct (cmp a b) eqn:E; simpl; try done.
  by apply cmp_eq in E.
Qed.
End OrdFacts.

#[export] Instance Z_ord : Ord Z := Z.compare.
#[export] Instance Z_ord_laws : OrdLaws Z.
Proof.
  split; unfold cmp, Z_ord; intros.
  - apply Z.compare_eq_iff.
  - apply Z.compare_antisym.
  - rewrite !Z.compare_lt_iff in *. lia.
Qed.

(** Lexicographic order on sequences, the order of [Vec<T>], [&[T]] and [str]. *)
Fixpoint lex_cmp {A} `{Ord A} (l k : list A) : comparison :=
  match l, k with
  | [], [] => Eq
  | [], _ :: _ => Lt
  | _ :: _, [] => Gt
  | x :: l, y :: k => match cmp x y with Eq => lex_cmp l k | c => c end
  end.

#[export] Instance list_ord {A} `{Ord A} : Ord (list A) := lex_cmp.
#[export] Instance list_ord_laws {A} `{OrdLaws A} : OrdLaws (list A).
Proof.
  split; unfold cmp, list_ord.
  - induction a as [|x a IH]; destruct b as [|y b]; simpl; try done.
    destruct (cmp x y) eqn:E.
    + apply cmp_eq in E as ->. rewrite IH. naive_solver.
    + split; [done|]. intros [=-> ->]. by rewrite cmp_refl in E.
    + split; [done|]. intros [=-> ->]. by rewrite cmp_refl in E.
  - induction a as [|x a IH]; destruct b as [|y b]; simpl; try done.
    rewrite (cmp_antisym x y). destruct (cmp x y); simpl; auto.
  - induction a as [|x a IH]; destruct b as [|y b]; destruct c as [|z c]; simpl; try done.
    destruct (cmp x y) eqn:E; [|intros _|done].
    + apply cmp_eq in E as ->. destruct (cmp y z); [apply IH|done|done].
    + destruct (cmp y z) eqn:E2; [intros _|intros _|done].
      * apply cmp_eq in E2 as ->. by rewrite E.
      * by rewrite (cmp_trans _ _ _ E E2).
Qed.

Lemma lex_cmp_antisym {A} `{OrdLaws A} (l k : list A) : lex_cmp k l = CompOpp (lex_cmp l k).
Proof. exact (cmp_antisym (A := list A) l k). Qed.
Lemma lex_cmp_gt {A} `{OrdLaws A} (l k : list A) : lex_cmp l k = Gt ↔ lex_cmp k l = Lt.
Proof. exact (cmp_gt_lt (A := list A) l k). Qed.
Lemma lex_cmp_eq {A} `{OrdLaws A} (l k : list A) : lex_cmp l k = Eq ↔ l = k.
Proof. exact (cmp_eq (A := list A) l k). Qed.
Lemma lex_cmp_refl {A} `{OrdLaws A} (l : list A) : lex_cmp l l = Eq.
Proof. by apply lex_cmp_eq. Qed.

(** The derived order of a struct or tuple: field by field. *)
#[export] Instance prod_ord {A B} `{Ord A, Ord B} : Ord (A * B) := λ p q,
  match cmp p.1 q.1 with Eq => cmp p.2 q.2 | c => c end.
#[export] Instance prod_ord_laws {A B} `{OrdLaws A, OrdLaws B} : OrdLaws (A * B).
Proof.
  split; unfold cmp, prod_ord.
  - intros [a b] [c d]; simpl. destruct (cmp a c) eqn:E.
    + apply cmp_eq in E as ->. rewrite cmp_eq. naive_solver.
    + split; [done|]. intros [=-> ->]. by rewrite cmp_refl in E.
    + split; [done|]. intros [=-> ->]. by rewrite cmp_refl in E.
  - intros [a b] [c d]; simpl. rewrite (cmp_antisym a c), (cmp_antisym b d).
    by destruct (cmp a c).
  - intros [a b] [c d] [e f]; simpl. destruct (cmp a c) eqn:E; [|intros _|done].
    + apply cmp_eq in E as ->. destruct (cmp c e); [apply cmp_trans|done|done].
    + destruct (cmp c e) eqn:E2; [intros _|intros _|done].
      * apply cmp_eq in E2 as ->. by rewrite E.
      * by rewrite (cmp_trans _ _ _ E E2).
Qed.

(** The order a newtype derives from what it wraps. *)
Definition ord_by {A B} `{Ord B} (f : A → B) : Ord A := λ a b, cmp (f a) (f b).
Lemma ord_by_laws {A B} `{OrdLaws B} (f : A → B) : Inj (=) (=) f → @OrdLaws A (ord_by f).
Proof.
  intros Hf. split; unfold cmp, ord_by.
  - intros a b. rewrite cmp_eq. naive_solver.
  - intros a b. apply (cmp_antisym (f a)).
  - intros a b c. apply (cmp_trans (f a)).
Qed.

(** [std::cmp::Reverse]. *)
Record reverse (A : Type) := Reverse { unreverse : A }.
Arguments Reverse {A} _.
Arguments unreverse {A} _.
#[export] Instance reverse_ord {A} `{Ord A} : Ord (reverse A) := λ a b, cmp (unreverse b) (unreverse a).
#[export] Instance reverse_ord_laws {A} `{OrdLaws A} : OrdLaws (reverse A).
Proof.
  split; unfold cmp, reverse_ord.
  - intros [a] [b]; simpl. rewrite cmp_eq. naive_solver.
  - intros [a] [b]; simpl. apply cmp_antisym.
  - intros [a] [b] [c]; simpl. eauto using cmp_trans.
Qed.

Lemma cmp_pair {A B} `{Ord A, Ord B} (a c : A) (b d : B) :
  cmp (a, b) (c, d) = match cmp a c with Eq => cmp b d | o => o end.
Proof. done. Qed.
Lemma cmp_reverse {A} `{Ord A} (a b : A) : cmp (Reverse a) (Reverse b) = cmp b a.
Proof. done. Qed.
Lemma cmp_Z (a b : Z) : cmp a b = (a ?= b)%Z.
Proof. done. Qed.

(** ** Prefixes in the lexicographic order *)

Lemma lex_cmp_app_same {A} `{OrdLaws A} (p l k : list A) :
  lex_cmp (p ++ l) (p ++ k) = lex_cmp l k.
Proof. induction p as [|x p IH]; simpl; [done|]. by rewrite cmp_refl. Qed.

(** Sequences of one length compare before what follows them is looked at. *)
Lemma lex_cmp_app_length {A} `{OrdLaws A} (p q l k : list A) :
  length p = length q →
  lex_cmp (p ++ l) (q ++ k) = match lex_cmp p q with Eq => lex_cmp l k | c => c end.
Proof.
  revert q; induction p as [|x p IH]; intros [|y q] Hl; simpl in *; try done; try lia.
  destruct (cmp x y); auto.
Qed.

(** * Lists *)

Lemma fold_left_inv {A B} (P : A → Prop) (f : A → B → A) l a :
  P a → (∀ a b, P a → P (f a b)) → P (fold_left f l a).
Proof. intros Ha Hf. revert a Ha; induction l as [|b l IH]; intros a Ha; simpl; auto. Qed.

Definition len {A} (l : list A) : Z := Z.of_nat (length l).

Lemma len_nonneg {A} (l : list A) : (0 ≤ len l)%Z.
Proof. unfold len. lia. Qed.
Lemma len_app {A} (l k : list A) : len (l ++ k) = (len l + len k)%Z.
Proof. unfold len. rewrite length_app. lia. Qed.
Lemma len_cons {A} (x : A) l : len (x :: l) = (1 + len l)%Z.
Proof. unfold len. simpl. lia. Qed.
Lemma len_nil {A} : len (@nil A) = 0%Z.
Proof. done. Qed.
#[export] Hint Rewrite @len_app @len_cons @len_nil : rust.
Lemma len_map {A B} (f : A → B) l : len (map f l) = len l.
Proof. unfold len. by rewrite length_map. Qed.
#[export] Hint Resolve len_nonneg : rust.

(** ** Sorting *)

(** [sort_by], which keeps equal elements in their order, and [sort_unstable_by] on a slice whose
    comparison never answers that two elements are equal. *)
Fixpoint insert_by {A} (c : A → A → comparison) (x : A) (l : list A) : list A :=
  match l with
  | [] => [x]
  | y :: l' => match c x y with Gt => y :: insert_by c x l' | _ => x :: l end
  end.
Definition sort_by {A} (c : A → A → comparison) (l : list A) : list A := foldr (insert_by c) [] l.

Lemma insert_by_perm {A} (c : A → A → comparison) x l : insert_by c x l ≡ₚ x :: l.
Proof.
  induction l as [|y l IH]; cbn; [done|]. destruct (c x y); [done..|].
  rewrite IH. by constructor.
Qed.
Lemma sort_by_perm {A} (c : A → A → comparison) l : sort_by c l ≡ₚ l.
Proof. induction l as [|x l IH]; cbn; [done|]. rewrite insert_by_perm. by constructor. Qed.

Lemma sort_by_sorted {A} (c : A → A → comparison) (R : A → A → Prop) l :
  (∀ a b, c a b ≠ Gt → R a b) → (∀ a b, c a b = Gt → R b a) → Transitive R → StronglySorted R (sort_by c l).
Proof.
  intros Hle Hgt Htrans. induction l as [|x l IH]; cbn; [constructor|].
  assert (∀ l, StronglySorted R l → StronglySorted R (insert_by c x l)) as Hins; [|by apply Hins].
  clear IH. induction 1 as [|y l' Hs IHs Hall]; cbn; [by repeat constructor|].
  assert (c x y ≠ Gt → StronglySorted R (x :: y :: l')) as Hbefore.
  { intros Hc. constructor; [by constructor|]. apply Forall_cons. split; [by apply Hle|].
    eapply Forall_impl; [exact Hall|]. intros z Hz. eapply Htrans; [by apply Hle|done]. }
  destruct (c x y) eqn:E; [by apply Hbefore..|]. constructor; [done|]. rewrite insert_by_perm.
  apply Forall_cons. split; [by apply Hgt|done].
Qed.

(** ** Slices *)

(** [slice.get(i..j)]: [None] when the range leaves the slice. *)
Definition slice_get {A} (l : list A) (i j : Z) : option (list A) :=
  if ((i <=? j) && (j <=? len l))%Z
  then Some (take (Z.to_nat (j - i)) (drop (Z.to_nat i) l)) else None.

(** [&slice[i..j]] where the code has checked the range. *)
Definition slice {A} (l : list A) (i j : nat) : list A := take (j - i) (drop i l).

Lemma slice_get_app {A} (p m s : list A) i j :
  i = len p → j = (len p + len m)%Z → slice_get (p ++ m ++ s) i j = Some m.
Proof.
  intros -> ->. unfold slice_get. autorewrite with rust.
  pose proof (len_nonneg p). pose proof (len_nonneg m). pose proof (len_nonneg s).
  rewrite (proj2 (Z.leb_le _ _)), (proj2 (Z.leb_le _ _)) by lia. simpl. f_equal.
  unfold len. replace (Z.to_nat (Z.of_nat (length p))) with (length p) by lia.
  rewrite drop_app_length. replace (Z.to_nat _) with (length m) by lia.
  apply take_app_length.
Qed.
