(* ===== verification/Machine.v ===== *)
(** Machine integers, byte encodings and UTF-8: what the sources use of [u8], [u16],
    [u32], [u64], [usize] and [str].  Integers are [Z] with their width written out. *)

From S2P Require Import Prelude.
From Stdlib Require Export Init.Byte.
From Stdlib Require Strings.Byte Strings.String Strings.Ascii.
Open Scope Z_scope.

(** * Bytes *)

Definition u8_val (b : byte) : Z := Z.of_N (Byte.to_N b).
Definition u8_of (z : Z) : byte :=
  match Byte.of_N (Z.to_N (z mod 256)) with Some b => b | None => x00 end.

Lemma u8_val_bound b : 0 ≤ u8_val b < 256.
Proof. unfold u8_val. pose proof (Byte.to_N_bounded b). lia. Qed.

Lemma u8_of_val b : u8_of (u8_val b) = b.
Proof. by destruct b. Qed.

Lemma u8_val_of z : u8_val (u8_of z) = z mod 256.
Proof.
  unfold u8_of, u8_val. pose proof (Z.mod_pos_bound z 256 ltac:(lia)).
  destruct (Byte.of_N (Z.to_N (z mod 256))) eqn:E.
  - apply Byte.to_of_N in E. rewrite E. lia.
  - apply Byte.of_N_None_iff in E. lia.
Qed.

Lemma u8_val_inj a b : u8_val a = u8_val b → a = b.
Proof. intros Hab. by rewrite <-(u8_of_val a), Hab, u8_of_val. Qed.
#[export] Hint Resolve u8_val_bound : rust.

#[export] Instance byte_eq_dec : EqDecision byte := Byte.byte_eq_dec.
#[export] Instance byte_ord : Ord byte := λ a b, Z.compare (u8_val a) (u8_val b).
#[export] Instance byte_ord_laws : OrdLaws byte.
Proof.
  split; unfold cmp, byte_ord; intros.
  - rewrite Z.compare_eq_iff. split; [apply u8_val_inj|by intros ->].
  - apply Z.compare_antisym.
  - rewrite !Z.compare_lt_iff in *. lia.
Qed.

Definition byte_eqb (a b : byte) : bool := bool_decide (a = b).

(** * Checked and saturating arithmetic on [w]-bit unsigned integers *)

Definition in_width (w : Z) (z : Z) : Prop := 0 ≤ z < 2 ^ w.
Abbreviation is_u16 := (in_width 16).
Abbreviation is_u32 := (in_width 32).
Abbreviation is_u64 := (in_width 64).

Definition u64_max : Z := 2 ^ 64 - 1.

Definition checked_add (w a b : Z) : option Z :=
  if a + b <? 2 ^ w then Some (a + b) else None.
Definition checked_sub (a b : Z) : option Z :=
  if b <=? a then Some (a - b) else None.
Definition checked_mul (w a b : Z) : option Z :=
  if a * b <? 2 ^ w then Some (a * b) else None.
Definition wrapping_add (w a b : Z) : Z := (a + b) mod 2 ^ w.
Definition wrapping_mul (w a b : Z) : Z := (a * b) mod 2 ^ w.
Definition saturating_add (w a b : Z) : Z := Z.min (a + b) (2 ^ w - 1).
Definition saturating_sub (a b : Z) : Z := Z.max 0 (a - b).
Definition saturating_mul (w a b : Z) : Z := Z.min (a * b) (2 ^ w - 1).

(** [u as i64]. *)
Definition as_i64 (u : Z) : Z := if u <? 2 ^ 63 then u else u - 2 ^ 64.

Lemma checked_add_Some w a b c : checked_add w a b = Some c ↔ c = a + b ∧ a + b < 2 ^ w.
Proof. unfold checked_add. destruct (Z.ltb_spec (a + b) (2 ^ w)); naive_solver lia. Qed.
Lemma ok_or_checked_add {E} w a b (e : E) c :
  ok_or (checked_add w a b) e = Ok c → c = a + b ∧ a + b < 2 ^ w.
Proof.
  destruct (checked_add w a b) eqn:E1; [|done]. cbn. intros [= <-]. by apply checked_add_Some.
Qed.
Lemma checked_sub_Some a b c : checked_sub a b = Some c ↔ c = a - b ∧ b ≤ a.
Proof. unfold checked_sub. destruct (Z.leb_spec b a); naive_solver lia. Qed.

(** * Big-endian encoding *)

Fixpoint be_bytes (n : nat) (z : Z) : list byte :=
  match n with
  | O => []
  | S n => u8_of (z / 2 ^ (8 * Z.of_nat n)) :: be_bytes n z
  end.

Fixpoint from_be (l : list byte) : Z :=
  match l with
  | [] => 0
  | b :: l => u8_val b * 2 ^ (8 * len l) + from_be l
  end.

Lemma length_be_bytes n z : length (be_bytes n z) = n.
Proof. induction n; simpl; auto. Qed.
Lemma len_be_bytes n z : len (be_bytes n z) = Z.of_nat n.
Proof. unfold len. by rewrite length_be_bytes. Qed.
#[export] Hint Rewrite length_be_bytes len_be_bytes : rust.

Lemma from_be_bound l : 0 ≤ from_be l < 2 ^ (8 * len l).
Proof.
  induction l as [|b l IH]; cbn [from_be]; [done|].
  rewrite len_cons. pose proof (u8_val_bound b). pose proof (len_nonneg l).
  replace (8 * (1 + len l)) with (8 + 8 * len l) by lia.
  rewrite Z.pow_add_r by lia. change (2 ^ 8) with 256. nia.
Qed.

Lemma from_be_bytes n z : from_be (be_bytes n z) = z mod 2 ^ (8 * Z.of_nat n).
Proof.
  induction n as [|n IH]; cbn [be_bytes from_be]; [by rewrite Z.mod_1_r|].
  rewrite u8_val_of, len_be_bytes, IH.
  replace (8 * Z.of_nat (S n)) with (8 * Z.of_nat n + 8) by lia.
  rewrite Z.pow_add_r by lia. change (2 ^ 8) with 256.
  rewrite (Z.rem_mul_r z (2 ^ (8 * Z.of_nat n)) 256) by lia. lia.
Qed.

Lemma from_be_bytes_small n z :
  0 ≤ z < 2 ^ (8 * Z.of_nat n) → from_be (be_bytes n z) = z.
Proof. intros. rewrite from_be_bytes. by apply Z.mod_small. Qed.

Lemma be_bytes_from l n : length l = n → be_bytes n (from_be l) = l.
Proof.
  intros <-. induction l as [|b l IH]; cbn [be_bytes from_be length]; [done|].
  fold (len l). pose proof (from_be_bound l) as Hl.
  f_equal.
  - rewrite Z.div_add_l, (Z.div_small (from_be l)) by lia.
    rewrite Z.add_0_r. apply u8_of_val.
  - transitivity (be_bytes (length l) (from_be l)); [|exact IH].
    clear IH Hl. generalize (from_be l). intros z.
    assert (∀ n (k : Z), Z.of_nat n ≤ len l →
      be_bytes n (u8_val b * 2 ^ (8 * len l) + k) = be_bytes n k) as Hgen; [|by apply Hgen].
    induction n as [|n IHn]; intros k Hn; cbn [be_bytes]; [done|].
    f_equal; [|apply IHn; lia]. apply u8_val_inj. rewrite !u8_val_of.
    replace (8 * len l) with ((8 * (len l - Z.of_nat n - 1)) + 8 + 8 * Z.of_nat n) by lia.
    rewrite 2!Z.pow_add_r by lia. rewrite !Z.mul_assoc, Z.div_add_l by lia.
    change (2 ^ 8) with 256. rewrite Z.add_comm. by rewrite Z.mod_add.
Qed.

(** [to_le_bytes] and [from_le_bytes]. *)
Definition le_bytes (n : nat) (z : Z) : list byte := rev (be_bytes n z).
Definition from_le (l : list byte) : Z := from_be (rev l).

Lemma length_le_bytes n z : length (le_bytes n z) = n.
Proof. unfold le_bytes. by rewrite length_rev, length_be_bytes. Qed.
Lemma from_le_bytes_small n z :
  0 ≤ z < 2 ^ (8 * Z.of_nat n) → from_le (le_bytes n z) = z.
Proof. intros Hz. unfold from_le, le_bytes. rewrite rev_involutive. by apply from_be_bytes_small. Qed.

Lemma be_bytes_inj n a b :
  0 ≤ a < 2 ^ (8 * Z.of_nat n) → 0 ≤ b < 2 ^ (8 * Z.of_nat n) →
  be_bytes n a = be_bytes n b → a = b.
Proof.
  intros Ha Hb Hab. rewrite <-(from_be_bytes_small n a), <-(from_be_bytes_small n b) by done.
  by rewrite Hab.
Qed.

(** Fixed-width big-endian encoding preserves the numeric order. *)
Lemma lex_cmp_from_be l k :
  length l = length k → lex_cmp l k = Z.compare (from_be l) (from_be k).
Proof.
  revert k; induction l as [|a l IH]; intros [|b k] Hl; cbn [lex_cmp from_be length] in *; try lia; [done|].
  injection Hl as Hl. rewrite (IH k Hl).
  assert (len l = len k) as Hlen by (unfold len; lia). rewrite <-Hlen.
  pose proof (from_be_bound l). pose proof (from_be_bound k) as Hk. rewrite <-Hlen in Hk.
  unfold cmp, byte_ord. symmetry.
  destruct (Z.compare_spec (u8_val a) (u8_val b)).
  - destruct (Z.compare_spec (from_be l) (from_be k)); [apply Z.compare_eq_iff|apply Z.compare_lt_iff|apply Z.compare_gt_iff]; nia.
  - apply Z.compare_lt_iff; nia.
  - apply Z.compare_gt_iff; nia.
Qed.

Lemma lex_cmp_be_bytes n a b :
  0 ≤ a < 2 ^ (8 * Z.of_nat n) → 0 ≤ b < 2 ^ (8 * Z.of_nat n) →
  lex_cmp (be_bytes n a) (be_bytes n b) = Z.compare a b.
Proof.
  intros Ha Hb. rewrite lex_cmp_from_be by (by rewrite !length_be_bytes).
  by rewrite !from_be_bytes_small.
Qed.

(** * Strings as UTF-8 byte sequences *)

Definition str_bytes (s : string) : list byte := String.list_byte_of_string s.
Definition bytes_str (l : list byte) : string := String.string_of_list_byte l.
Definition str_len (s : string) : Z := len (str_bytes s).

Lemma bytes_str_bytes s : bytes_str (str_bytes s) = s.
Proof. apply String.string_of_list_byte_of_string. Qed.
Lemma str_bytes_str l : str_bytes (bytes_str l) = l.
Proof. apply String.list_byte_of_string_of_list_byte. Qed.
Lemma str_bytes_inj s t : str_bytes s = str_bytes t → s = t.
Proof. intros H. by rewrite <-(bytes_str_bytes s), H, bytes_str_bytes. Qed.

#[export] Instance string_ord : Ord string := λ s t, cmp (str_bytes s) (str_bytes t).
#[export] Instance string_ord_laws : OrdLaws string.
Proof.
  split.
  - intros s t. unfold cmp, string_ord. rewrite cmp_eq.
    split; [apply str_bytes_inj|by intros ->].
  - intros s t. apply (cmp_antisym (str_bytes s)).
  - intros s t u. apply (cmp_trans (str_bytes s)).
Qed.

(** [String::from_utf8]: the well-formed byte sequences of Unicode table 3-7. *)
Definition in_range (lo hi : Z) (b : byte) : bool := ((lo <=? u8_val b) && (u8_val b <=? hi))%bool.

Fixpoint utf8_valid (l : list byte) : bool :=
  match l with
  | [] => true
  | a :: l =>
    if in_range 0 127 a then utf8_valid l
    else match l with
    | [] => false
    | b :: l =>
      if in_range 194 223 a then (in_range 128 191 b && utf8_valid l)%bool
      else match l with
      | [] => false
      | c :: l =>
        let second3 :=
          if u8_val a =? 224 then in_range 160 191 b
          else if u8_val a =? 237 then in_range 128 159 b
          else in_range 128 191 b in
        if in_range 224 239 a then (second3 && in_range 128 191 c && utf8_valid l)%bool
        else match l with
        | [] => false
        | d :: l =>
          let second4 :=
            if u8_val a =? 240 then in_range 144 191 b
            else if u8_val a =? 244 then in_range 128 143 b
            else in_range 128 191 b in
          (in_range 240 244 a && second4 && in_range 128 191 c && in_range 128 191 d
           && utf8_valid l)%bool
        end
      end
    end
  end.

Definition from_utf8 (l : list byte) : option string :=
  if utf8_valid l then Some (bytes_str l) else None.

(** The invariant of Rust's [str]: its bytes are UTF-8. *)
Definition is_str (s : string) : Prop := utf8_valid (str_bytes s) = true.

Lemma from_utf8_str s : is_str s → from_utf8 (str_bytes s) = Some s.
Proof. unfold from_utf8, is_str. intros ->. by rewrite bytes_str_bytes. Qed.

Lemma from_utf8_Some l s : from_utf8 l = Some s ↔ str_bytes s = l ∧ is_str s.
Proof.
  unfold from_utf8, is_str. destruct (utf8_valid l) eqn:E; split.
  - intros [=<-]. by rewrite str_bytes_str.
  - intros [<- _]. by rewrite bytes_str_bytes.
  - done.
  - intros [<- ?]. congruence.
Qed.

(** * Self-delimiting encodings

    An encoder is self-delimiting on [P] when a reader that knows the format can tell where
    the encoding of a value ends: what follows it never changes how it is read. *)

Definition self_delim {A} (P : A → Prop) (enc : A → list byte) : Prop :=
  ∀ a b r s, P a → P b → enc a ++ r = enc b ++ s → a = b ∧ r = s.

Lemma self_delim_be n : self_delim (λ z, 0 ≤ z < 2 ^ (8 * Z.of_nat n)) (be_bytes n).
Proof.
  intros a b r s Ha Hb Heq. apply app_inj_1 in Heq as [Heq ->]; [|by rewrite !length_be_bytes].
  split; [|done]. by eapply be_bytes_inj.
Qed.

(** A byte string behind its 64-bit length. *)
Lemma self_delim_text :
  self_delim (λ s, str_len s < 2 ^ 64) (λ s, be_bytes 8 (str_len s) ++ str_bytes s).
Proof.
  intros s t r q Hs Ht Heq. rewrite <-!app_assoc in Heq.
  apply self_delim_be in Heq as [Hlen Heq];
    [|pose proof (len_nonneg (str_bytes s))|pose proof (len_nonneg (str_bytes t))]; [|unfold str_len in *; simpl; lia..].
  apply app_inj_1 in Heq as [Heq ->]; [|unfold str_len, len in Hlen; lia].
  split; [by apply str_bytes_inj|done].
Qed.

(** A presence byte, then the value. *)
Definition enc_option {A} (enc : A → list byte) (o : option A) : list byte :=
  match o with None => [x00] | Some a => x01 :: enc a end.

Definition option_all {A} (P : A → Prop) (o : option A) : Prop :=
  match o with Some a => P a | None => True end.

Lemma self_delim_option {A} P (enc : A → list byte) :
  self_delim P enc → self_delim (option_all P) (enc_option enc).
Proof.
  intros Henc [a|] [b|] r s Ha Hb Heq; simpl in *; simplify_eq; [|done].
  apply Henc in Heq as [-> ->]; done.
Qed.

(** One byte that an injective table assigns to the value. *)
Lemma self_delim_tag {A} (tag : A → byte) :
  Inj (=) (=) tag → self_delim (λ _, True) (λ a, [tag a]).
Proof. intros Hinj a b r s _ _ Heq. simpl in Heq. simplify_eq. done. Qed.
