(* ===== verification/BTree.v ===== *)
(** [std::collections::BTreeMap] and [BTreeSet]: the ordered containers the sources keep
    their state in.  A map is the list of its entries in ascending key order, so iteration
    order is the list order; the lookup lemmas hold of every such list, the ones about
    removal and extensionality under the ordering invariant [bt_sorted]. *)

From S2P Require Import Prelude.
From Stdlib Require Export Sorting.Sorted.

Section BTreeMap.
Context {K V : Type} `{OrdLaws K}.
Implicit Types (m : list (K * V)) (k : K) (v : V).

Fixpoint bt_get (k : K) (m : list (K * V)) : option V :=
  match m with
  | [] => None
  | (k', v') :: m' => match cmp k k' with Eq => Some v' | _ => bt_get k m' end
  end.

Fixpoint bt_insert (k : K) (v : V) (m : list (K * V)) : list (K * V) :=
  match m with
  | [] => [(k, v)]
  | (k', v') :: m' =>
    match cmp k k' with
    | Lt => (k, v) :: (k', v') :: m'
    | Eq => (k, v) :: m'
    | Gt => (k', v') :: bt_insert k v m'
    end
  end.

Fixpoint bt_remove (k : K) (m : list (K * V)) : list (K * V) :=
  match m with
  | [] => []
  | (k', v') :: m' => match cmp k k' with Eq => m' | _ => (k', v') :: bt_remove k m' end
  end.

Definition bt_mem (k : K) (m : list (K * V)) : bool :=
  match bt_get k m with Some _ => true | None => false end.

Definition bt_lt (p q : K * V) : Prop := ltb p.1 q.1 = true.
Definition bt_sorted (m : list (K * V)) : Prop := StronglySorted bt_lt m.

Lemma bt_get_insert_eq k v m : bt_get k (bt_insert k v m) = Some v.
Proof.
  induction m as [|[k' v'] m IH]; simpl; [by rewrite cmp_refl|].
  destruct (cmp k k') eqn:E; simpl; rewrite ?cmp_refl, ?E; auto.
Qed.

Lemma bt_get_insert_ne k k' v m : k ≠ k' → bt_get k' (bt_insert k v m) = bt_get k' m.
Proof.
  intros Hne. assert (∀ c, cmp k' k = c → c ≠ Eq) as Hk.
  { intros c Hc ->. apply cmp_eq in Hc. congruence. }
  induction m as [|[k2 v2] m IH]; simpl.
  - destruct (cmp k' k) eqn:E; naive_solver.
  - destruct (cmp k k2) eqn:E; simpl.
    + apply cmp_eq in E as <-. destruct (cmp k' k) eqn:E2; naive_solver.
    + destruct (cmp k' k) eqn:E2; [naive_solver|done|done].
    + by rewrite IH.
Qed.

Lemma bt_get_insert `{EqDecision K} k k' v m :
  bt_get k' (bt_insert k v m) = if decide (k = k') then Some v else bt_get k' m.
Proof.
  case_decide; [subst; apply bt_get_insert_eq|by apply bt_get_insert_ne].
Qed.

Lemma bt_insert_elem k v m p : p ∈ bt_insert k v m → p = (k, v) ∨ p ∈ m.
Proof.
  induction m as [|[k' v'] m IH]; simpl; [set_solver|].
  destruct (cmp k k'); set_solver.
Qed.

Lemma bt_insert_sorted k v m : bt_sorted m → bt_sorted (bt_insert k v m).
Proof.
  unfold bt_sorted. induction 1 as [|[k' v'] m Hs IH Hall]; simpl.
  { repeat constructor. }
  destruct (cmp k k') eqn:E.
  - apply cmp_eq in E as ->. constructor; [done|]. done.
  - constructor; [by constructor|]. constructor; [by apply ltb_lt|].
    eapply Forall_impl; [exact Hall|]. intros [k2 v2] Hlt. unfold bt_lt in *; simpl in *.
    eapply ltb_trans; eauto. by apply ltb_lt.
  - constructor; [done|]. apply Forall_forall. intros p Hp.
    apply bt_insert_elem in Hp as [->|Hp].
    + apply ltb_lt. by apply cmp_gt_lt.
    + by eapply Forall_forall in Hall.
Qed.

Lemma bt_get_elem k v m : bt_get k m = Some v → (k, v) ∈ m.
Proof.
  induction m as [|[k' v'] m IH]; simpl; [done|].
  destruct (cmp k k') eqn:E; intros; simplify_eq; try set_solver.
  apply cmp_eq in E as ->. set_solver.
Qed.

Lemma bt_elem_get k v m : bt_sorted m → (k, v) ∈ m → bt_get k m = Some v.
Proof.
  unfold bt_sorted. induction 1 as [|[k' v'] m Hs IH Hall]; simpl; [set_solver|].
  rewrite elem_of_cons. intros [[=-> ->]|Hin]; [by rewrite cmp_refl|].
  destruct (cmp k k') eqn:E; auto. apply cmp_eq in E as ->.
  eapply Forall_forall in Hall; [|exact Hin]. unfold bt_lt in Hall; simpl in Hall.
  by rewrite ltb_irrefl in Hall.
Qed.

Lemma bt_get_Some k v m : bt_sorted m → bt_get k m = Some v ↔ (k, v) ∈ m.
Proof. split; [apply bt_get_elem|by apply bt_elem_get]. Qed.

Lemma bt_get_below k m : Forall (λ p, ltb k p.1 = true) m → bt_get k m = None.
Proof.
  induction 1 as [|[k' v'] m Hlt _ IH]; simpl in *; [done|].
  apply ltb_lt in Hlt. by rewrite Hlt.
Qed.

Lemma bt_get_remove_eq k m : bt_sorted m → bt_get k (bt_remove k m) = None.
Proof.
  unfold bt_sorted. induction 1 as [|[k' v'] m Hs IH Hall]; simpl; [done|].
  destruct (cmp k k') eqn:E; simpl; rewrite ?E; auto.
  apply cmp_eq in E as ->. apply bt_get_below. exact Hall.
Qed.

Lemma bt_get_remove_ne k k' m : k ≠ k' → bt_get k' (bt_remove k m) = bt_get k' m.
Proof.
  intros Hne. induction m as [|[k2 v2] m IH]; simpl; [done|].
  destruct (cmp k k2) eqn:E; simpl; [|by rewrite IH..].
  apply cmp_eq in E as ->. destruct (cmp k' k2) eqn:E2; try done.
  apply cmp_eq in E2. congruence.
Qed.

Lemma bt_remove_elem k m p : p ∈ bt_remove k m → p ∈ m.
Proof.
  induction m as [|[k' v'] m IH]; simpl; [set_solver|].
  destruct (cmp k k'); set_solver.
Qed.

Lemma bt_remove_sorted k m : bt_sorted m → bt_sorted (bt_remove k m).
Proof.
  unfold bt_sorted. induction 1 as [|[k' v'] m Hs IH Hall]; simpl; [constructor|].
  destruct (cmp k k'); [done|..]; (constructor; [done|]; apply Forall_forall;
    intros p Hp%bt_remove_elem; by eapply Forall_forall in Hall).
Qed.

Lemma bt_filter_sorted (P : K * V → bool) m :
  bt_sorted m → bt_sorted (List.filter P m).
Proof.
  unfold bt_sorted. induction 1 as [|p m Hs IH Hall]; simpl; [constructor|].
  destruct (P p); [|done]. constructor; [done|]. apply Forall_forall.
  intros q Hq%list_elem_of_In%filter_In. destruct Hq as [Hq%list_elem_of_In _].
  by eapply Forall_forall in Hall.
Qed.

(** A key occurs at one position. *)
Lemma bt_sorted_inj m i j p q : bt_sorted m → m !! i = Some p → m !! j = Some q → p.1 = q.1 → i = j.
Proof.
  unfold bt_sorted. intros Hs. revert i j. induction Hs as [|r m Hs IH Hall]; intros i j Hi Hj E; [done|].
  rewrite Forall_forall in Hall. destruct i as [|i], j as [|j]; cbn in Hi, Hj; simplify_eq; [done| | |f_equal; by apply IH].
  - specialize (Hall q (list_elem_of_lookup_2 _ _ _ Hj)). unfold bt_lt in Hall. by rewrite E, ltb_irrefl in Hall.
  - specialize (Hall p (list_elem_of_lookup_2 _ _ _ Hi)). unfold bt_lt in Hall. by rewrite E, ltb_irrefl in Hall.
Qed.

(** Two ordered maps with the same lookups are the same map. *)
Lemma bt_ext m1 m2 :
  bt_sorted m1 → bt_sorted m2 → (∀ k, bt_get k m1 = bt_get k m2) → m1 = m2.
Proof.
  unfold bt_sorted. intros Hs1. revert m2.
  induction Hs1 as [|[k1 v1] m1 Hs1 IH Hall1]; intros m2 Hs2 Hget.
  { destruct m2 as [|[k2 v2] m2]; [done|]. specialize (Hget k2); simpl in Hget.
    by rewrite cmp_refl in Hget. }
  destruct Hs2 as [|[k2 v2] m2 Hs2 Hall2].
  { specialize (Hget k1); simpl in Hget. by rewrite cmp_refl in Hget. }
  assert (cmp k1 k2 = Eq) as E%cmp_eq.
  { destruct (cmp k1 k2) eqn:E; [done|exfalso..].
    - specialize (Hget k1); simpl in Hget. rewrite cmp_refl, E in Hget.
      rewrite bt_get_below in Hget; [done|]. eapply Forall_impl; [exact Hall2|].
      intros [k v] Hlt. eapply ltb_trans; [by apply ltb_lt|exact Hlt].
    - apply cmp_gt_lt in E. specialize (Hget k2); simpl in Hget. rewrite cmp_refl, E in Hget.
      rewrite bt_get_below in Hget; [done|]. eapply Forall_impl; [exact Hall1|].
      intros [k v] Hlt. eapply ltb_trans; [by apply ltb_lt|exact Hlt]. }
  subst k2. pose proof (Hget k1) as Hv; simpl in Hv. rewrite cmp_refl in Hv. simplify_eq.
  f_equal. apply IH; [done|]. intros k. specialize (Hget k); simpl in Hget.
  destruct (cmp k k1) eqn:E; try done. apply cmp_eq in E as ->.
  rewrite !bt_get_below; [done|exact Hall2|exact Hall1].
Qed.

(** Inserting an absent key adds one entry, inserting a present one adds none. *)
Lemma bt_insert_length_fresh k v m :
  bt_get k m = None → length (bt_insert k v m) = S (length m).
Proof.
  induction m as [|[k' v'] m IH]; simpl; [done|].
  destruct (cmp k k'); simpl; naive_solver.
Qed.

(** ** Sums over the entries *)

Lemma bt_insert_last k v m : (∀ p, p ∈ m → ltb p.1 k = true) → bt_insert k v m = m ++ [(k, v)].
Proof.
  induction m as [|[k' v'] m IH]; intros Hm; [done|]. cbn [bt_insert app].
  pose proof (Hm (k', v') ltac:(left)) as Hlt. apply ltb_lt, cmp_gt_lt in Hlt. cbn in Hlt. rewrite Hlt. f_equal.
  apply IH. intros p Hp. apply Hm. by right.
Qed.

Lemma bt_sorted_app m1 m2 :
  bt_sorted (m1 ++ m2) ↔ bt_sorted m1 ∧ bt_sorted m2 ∧ ∀ p q, p ∈ m1 → q ∈ m2 → ltb p.1 q.1 = true.
Proof.
  unfold bt_sorted. induction m1 as [|r m1 IH]; cbn.
  - split; [intros Hs; split_and!; [constructor|done|by intros p q ?%not_elem_of_nil]|by intros (_ & Hs & _)].
  - split.
    + intros [H1 H2]%StronglySorted_inv. apply IH in H1 as (H1 & H3 & H4). apply Forall_app in H2 as [H2 H5].
      rewrite Forall_forall in H5. split_and!; [by constructor|done|]. intros p q [->|Hp]%elem_of_cons Hq; [by apply H5|by apply H4].
    + intros (H1 & H2 & H3). apply StronglySorted_inv in H1 as [H1 H4]. constructor.
      * apply IH. split_and!; [done..|]. intros p q Hp. apply H3. by right.
      * apply Forall_app. split; [done|]. apply Forall_forall. intros q Hq. apply H3; [left|done].
Qed.

Definition bt_sum (f : K * V → Z) (m : list (K * V)) : Z :=
  fold_right (λ row acc, (f row + acc)%Z) 0%Z m.

Lemma bt_sum_cons f row m : bt_sum f (row :: m) = (f row + bt_sum f m)%Z.
Proof. done. Qed.

Lemma bt_sum_nonneg f m : Forall (λ row, 0 ≤ f row)%Z m → (0 ≤ bt_sum f m)%Z.
Proof. induction 1; rewrite ?bt_sum_cons; [done|lia]. Qed.

Lemma bt_sum_insert f k v m :
  bt_sorted m →
  bt_sum f (bt_insert k v m)
  = (bt_sum f m + f (k, v) - match bt_get k m with Some v' => f (k, v') | None => 0 end)%Z.
Proof.
  unfold bt_sorted. induction 1 as [|[k' v'] m Hs IH Hall]; cbn [bt_insert bt_get].
  { rewrite bt_sum_cons. cbn [bt_sum fold_right]. lia. }
  destruct (cmp k k') eqn:E.
  - apply cmp_eq in E as ->. rewrite !bt_sum_cons. lia.
  - rewrite !bt_sum_cons. rewrite bt_get_below; [lia|].
    eapply Forall_impl; [exact Hall|]. intros row Hrow. eapply ltb_trans; [by apply ltb_lt|exact Hrow].
  - rewrite !bt_sum_cons, IH. lia.
Qed.

Lemma bt_sum_remove f k m :
  bt_sorted m → bt_sum f (bt_remove k m) = (bt_sum f m - match bt_get k m with Some v => f (k, v) | None => 0 end)%Z.
Proof.
  induction 1 as [|[k' v'] m Hs IH Hall]; [done|]. cbn [bt_remove bt_get]. destruct (cmp k k') eqn:E.
  - apply cmp_eq in E as ->. rewrite bt_sum_cons. lia.
  - rewrite bt_sum_cons, IH. rewrite bt_sum_cons. lia.
  - rewrite !bt_sum_cons, IH. lia.
Qed.

Lemma bt_sum_ge f k v m : (∀ row, row ∈ m → 0 ≤ f row)%Z → bt_get k m = Some v → (f (k, v) ≤ bt_sum f m)%Z.
Proof.
  induction m as [|[k' v'] m IH]; intros Hf Hk; [done|]. rewrite bt_sum_cons. cbn [bt_get] in Hk.
  assert (0 ≤ bt_sum f m)%Z as Hm by (apply bt_sum_nonneg, Forall_forall; intros; apply Hf; set_solver).
  pose proof (Hf (k', v') ltac:(set_solver)).
  assert (bt_get k m = Some v → f (k, v) ≤ bt_sum f m)%Z as Hrec by (intros; apply IH; [set_solver|done]).
  destruct (cmp k k') eqn:E; [|specialize (Hrec Hk); lia..].
  apply cmp_eq in E as ->. simplify_eq. lia.
Qed.
End BTreeMap.

(** * Range queries *)

(** [std::ops::Bound]. *)
Inductive bound (K : Type) := Included (k : K) | Excluded (k : K) | Unbounded.
Arguments Included {K} _.
Arguments Excluded {K} _.
Arguments Unbounded {K}.

Section Range.
Context {K V : Type} `{OrdLaws K}.

Definition above (lo : bound K) (k : K) : bool :=
  match lo with Included a => leb a k | Excluded a => ltb a k | Unbounded => true end.
Definition below (hi : bound K) (k : K) : bool :=
  match hi with Included b => leb k b | Excluded b => ltb k b | Unbounded => true end.

(** [BTreeMap::range] panics when the start exceeds the end, and when both bounds
    exclude the same key. *)
Definition range_panics (lo hi : bound K) : bool :=
  match lo, hi with
  | Excluded a, Excluded b => negb (ltb a b)
  | Included a, Included b | Included a, Excluded b | Excluded a, Included b => ltb b a
  | _, _ => false
  end.

Definition bt_select (lo hi : bound K) (m : list (K * V)) : list (K * V) :=
  List.filter (λ p, above lo p.1 && below hi p.1) m.

(** [None] is the panic. *)
Definition bt_range (lo hi : bound K) (m : list (K * V)) : option (list (K * V)) :=
  if range_panics lo hi then None else Some (bt_select lo hi m).

Lemma bt_select_elem lo hi m p :
  p ∈ bt_select lo hi m ↔ p ∈ m ∧ above lo p.1 = true ∧ below hi p.1 = true.
Proof.
  unfold bt_select. rewrite list_elem_of_In, filter_In, <-list_elem_of_In, andb_true_iff. done.
Qed.

Lemma bt_select_sorted lo hi (m : list (K * V)) : bt_sorted m → bt_sorted (bt_select lo hi m).
Proof. apply bt_filter_sorted. Qed.

Lemma bt_get_select lo hi m k :
  bt_sorted m →
  bt_get k (bt_select lo hi m) = if above lo k && below hi k then bt_get k m else None.
Proof.
  intros Hs. destruct (bt_get k (bt_select lo hi m)) as [v|] eqn:E.
  - apply bt_get_elem, bt_select_elem in E as (E & Hlo & Hhi); simpl in *.
    rewrite Hlo, Hhi. symmetry. by apply bt_elem_get.
  - destruct (above lo k && below hi k) eqn:Hb; [|done]. symmetry.
    apply andb_true_iff in Hb as [Hlo Hhi].
    destruct (bt_get k m) as [v|] eqn:E2; [|done].
    apply bt_get_elem in E2. assert ((k, v) ∈ bt_select lo hi m) as Hin.
    { by apply bt_select_elem. }
    apply bt_elem_get in Hin; [congruence|by apply bt_select_sorted].
Qed.

(** Keeping the entries a function of the value maps somewhere: [filter_map] on a range. *)
Lemma bt_omap_spec {W} (f : V → option W) (g : K * V → option (K * W)) m :
  (∀ k c, g (k, c) = (λ w, (k, w)) <$> f c) → bt_sorted m →
  bt_sorted (omap g m) ∧ ∀ k, bt_get k (omap g m) = bt_get k m ≫= f.
Proof.
  intros Hg Hs. unfold bt_sorted in *. induction Hs as [|[k c] m Hs [IHs IHg] Hall]; [by split; [constructor|]|].
  assert (∀ k' w, (k', w) ∈ omap g m → ltb k k' = true) as Hbelow.
  { intros k' w ((k1 & c1) & Hin & E)%list_elem_of_omap. rewrite Hg in E.
    eapply Forall_forall in Hall; [|exact Hin]. unfold bt_lt in Hall. simpl in Hall.
    destruct (f c1); simpl in E; by simplify_eq. }
  cbn [omap list_omap]. rewrite Hg. destruct (f c) as [w|] eqn:Hf; cbn.
  - split.
    + constructor; [exact IHs|]. apply Forall_forall. intros [k' w'] Hin. by eapply Hbelow.
    + intros k'. destruct (cmp k' k) eqn:E; [|exact (IHg k')..].
      transitivity (Some w); [done|]. symmetry. exact Hf.
  - split; [exact IHs|]. intros k'. destruct (cmp k' k) eqn:E; [|exact (IHg k')..].
    apply cmp_eq in E as ->. transitivity (@None W); [|symmetry; exact Hf].
    change (bt_get k (omap g m) = None). destruct (bt_get k (omap g m)) as [w|] eqn:E; [|done].
    apply bt_get_elem, Hbelow in E. by rewrite ltb_irrefl in E.
Qed.

Lemma bt_range_omap {W} (f : V → option W) (g : K * V → option (K * W)) lo hi m :
  (∀ k c, g (k, c) = (λ w, (k, w)) <$> f c) → bt_sorted m →
  bt_sorted (omap g (bt_select lo hi m))
  ∧ ∀ k, bt_get k (omap g (bt_select lo hi m))
         = if above lo k && below hi k then bt_get k m ≫= f else None.
Proof.
  intros Hg Hs. destruct (bt_omap_spec f g (bt_select lo hi m) Hg) as [Hs' Hget]; [by apply bt_select_sorted|].
  split; [done|]. intros k. rewrite Hget, bt_get_select by done. by destruct (above lo k && below hi k).
Qed.
End Range.

(** * [BTreeSet]: a map to unit *)

Section BTreeSet.
Context {K : Type} `{OrdLaws K}.

Definition bs_mem (k : K) (s : list (K * unit)) : bool := bt_mem k s.
Definition bs_insert (k : K) (s : list (K * unit)) : list (K * unit) := bt_insert k tt s.

Lemma bs_mem_insert `{EqDecision K} k k' s :
  bs_mem k' (bs_insert k s) = (bool_decide (k = k') || bs_mem k' s)%bool.
Proof.
  unfold bs_mem, bs_insert, bt_mem. rewrite bt_get_insert.
  case_decide; case_bool_decide; naive_solver.
Qed.

Lemma bs_insert_length k s :
  bs_mem k s = false → length (bs_insert k s) = S (length s).
Proof.
  unfold bs_mem, bt_mem, bs_insert. intros Hk. apply bt_insert_length_fresh.
  by destruct (bt_get k s).
Qed.
End BTreeSet.

(** * Collecting and grouping *)

Section Collect.
Context {K V : Type} `{OrdLaws K}.

(** [iter.map(|v| (f(v), v)).collect::<BTreeMap<_, _>>()]: the last value of a key stays. *)
Definition bt_collect (f : V → K) (l : list V) : list (K * V) := foldl (λ m v, bt_insert (f v) v m) [] l.
(** [groups.entry(f(v)).or_insert_with(Vec::new).push(v)] for every value *)
Definition bt_group (f : V → K) (l : list V) : list (K * list V) :=
  foldl (λ m v, bt_insert (f v) (default [] (bt_get (f v) m) ++ [v]) m) [] l.

Lemma bt_foldl_sorted {W} (f : W → K) (g : list (K * V) → W → V) l m :
  bt_sorted m → bt_sorted (foldl (λ m w, bt_insert (f w) (g m w) m) m l).
Proof. revert m; induction l as [|w l IH]; intros m Hm; cbn [foldl]; [done|]. by apply IH, bt_insert_sorted. Qed.
Lemma bt_collect_sorted f l : bt_sorted (bt_collect f l).
Proof. apply (bt_foldl_sorted f (λ _ v, v)). constructor. Qed.

Context `{EqDecision K}.
Lemma bt_get_collect f l k : bt_get k (bt_collect f l) = last (filter (λ v, f v = k) l).
Proof.
  unfold bt_collect. assert (∀ m, bt_get k (foldl (λ m v, bt_insert (f v) v m) m l) = match last (filter (λ v, f v = k) l) with Some v => Some v | None => bt_get k m end) as Hgen.
  { induction l as [|v l IH]; intros m; cbn [foldl]; [done|]. rewrite IH, filter_cons. destruct (decide (f v = k)) as [<-|Hne].
    - rewrite last_cons. destruct (last (filter _ l)); [done|]. by rewrite bt_get_insert_eq.
    - destruct (last (filter _ l)); [done|]. by rewrite bt_get_insert_ne. }
  rewrite Hgen. by destruct (last _).
Qed.
Lemma bt_get_group f l k : bt_get k (bt_group f l) = match filter (λ v, f v = k) l with [] => None | g => Some g end.
Proof.
  unfold bt_group. induction l as [|v l IH] using rev_ind; [done|]. rewrite foldl_snoc, filter_app, filter_cons. destruct (decide (f v = k)) as [<-|Hne].
  - rewrite bt_get_insert_eq, IH. cbn. by destruct (filter _ l).
  - rewrite bt_get_insert_ne, IH by done. cbn. by rewrite app_nil_r.
Qed.
Lemma bt_group_elem f l k g : (k, g) ∈ bt_group f l → g = filter (λ v, f v = k) l ∧ g ≠ [].
Proof.
  intros Hin. assert (bt_sorted (bt_group f l)) as Hs.
  { clear Hin. unfold bt_group. generalize (SSorted_nil (@bt_lt K (list V) _)). generalize (@nil (K * list V)). induction l as [|v l IH]; intros m Hm; cbn [foldl]; [done|]. by apply IH, bt_insert_sorted. }
  apply (bt_elem_get _ _ _ Hs) in Hin. rewrite bt_get_group in Hin. by destruct (filter _ l); simplify_eq.
Qed.
End Collect.
