(* ===== verification/Ident.v ===== *)
(** Kernel errors and validated identifiers ([rrd-core]: error.rs, ident.rs).

    An identifier that reaches a public projection holds the canonical grammar in its type:
    the only constructors are [new] and [try_from], and both run the check.  The theorems
    say exactly which strings each constructor accepts and what it reports otherwise. *)

From S2P Require Import Prelude Machine.
Open Scope Z_scope.

(** core/error.rs:8-37 Error *)
Inductive Error : Type :=
| EmptyIdentifier (kind : string)
| SeparatorInIdentifier (kind value : string)
| NonCanonicalIdentifier (kind value problem : string)
| InvalidValidityWindow (valid_from valid_to : Z)
| SupersessionPairMismatch
| InvalidSupersessionOrder
| SequenceOverflow
| InvalidRuntime (reason : string).

(** core/ident.rs:10-10 FORBIDDEN_NUL *)
Definition FORBIDDEN_NUL : byte := x00.
(** core/ident.rs:13-13 MAX_CANONICAL_ID_BYTES *)
Definition MAX_CANONICAL_ID_BYTES : Z := 128.

Definition is_ascii_lowercase (b : byte) : bool := in_range 97 122 b.
Definition is_ascii_digit (b : byte) : bool := in_range 48 57 b.

Definition length_problem : string := "canonical id length must be in 1..=128 bytes".
Definition grammar_problem : string :=
  "canonical id must start with lowercase ASCII or a digit and contain only lowercase ASCII, digits, '-', '_', or '.'".

(** [value.bytes().enumerate().all(..)], the index starting at [index]. *)
(** core/ident.rs:25-32 canonical_id_problem, the scan *)
Fixpoint canonical_bytes_from (index : nat) (l : list byte) : bool :=
  match l with
  | [] => true
  | b :: l =>
    ((is_ascii_lowercase b || is_ascii_digit b
      || ((0 <? index)%nat && (byte_eqb b "-" || byte_eqb b "_" || byte_eqb b ".")))
     && canonical_bytes_from (S index) l)%bool
  end.

(** core/ident.rs:21-33 canonical_id_problem *)
Definition canonical_id_problem (value : string) : option string :=
  if (bool_decide (str_bytes value = []) || (MAX_CANONICAL_ID_BYTES <? str_len value))%bool
  then Some length_problem
  else if canonical_bytes_from 0 (str_bytes value) then None else Some grammar_problem.

(** core/ident.rs:36-47 check_text *)
Definition check_text (kind value : string) : result Error unit :=
  if bool_decide (str_bytes value = []) then Err (EmptyIdentifier kind)
  else if bool_decide (FORBIDDEN_NUL ∈ str_bytes value)
  then Err (SeparatorInIdentifier kind value)
  else Ok tt.

(** core/ident.rs:50-62 check_canonical *)
Definition check_canonical (kind value : string) : result Error unit :=
  if bool_decide (str_bytes value = []) then Err (EmptyIdentifier kind)
  else match canonical_id_problem value with
       | Some problem => Err (NonCanonicalIdentifier kind value problem)
       | None => Ok tt
       end.

(** core/ident.rs:85-90 text_ident!(@type): the wrapped string, read by [as_str]. *)
Record Subject := MkSubject { subject_str : string }.
(** core/ident.rs:120-120 Predicate *)
Record Predicate := MkPredicate { predicate_str : string }.
(** core/ident.rs:122-122 Reader *)
Record Reader := MkReader { reader_str : string }.

(** core/ident.rs:69-75 text_ident!::new for Subject *)
Definition Subject_new (value : string) : result Error Subject :=
  do? check_canonical "subject" value in Ok (MkSubject value).
(** core/ident.rs:69-75 text_ident!::new for Predicate *)
Definition Predicate_new (value : string) : result Error Predicate :=
  do? check_canonical "predicate" value in Ok (MkPredicate value).
(** core/ident.rs:69-75 text_ident!::new for Reader *)
Definition Reader_new (value : string) : result Error Reader :=
  do? check_text "reader" value in Ok (MkReader value).

(** core/ident.rs:77-83 TryFrom<String>, the deserialization path *)
Definition Subject_try_from (value : string) : result Error Subject := Subject_new value.

#[export] Instance subject_eq_dec : EqDecision Subject.
Proof. solve_decision. Defined.
#[export] Instance predicate_eq_dec : EqDecision Predicate.
Proof. solve_decision. Defined.

(** The derived orders compare the strings. *)
#[export] Instance subject_ord : Ord Subject := λ a b, cmp (subject_str a) (subject_str b).
#[export] Instance subject_ord_laws : OrdLaws Subject.
Proof.
  split.
  - intros [a] [b]. unfold cmp, subject_ord. simpl. rewrite cmp_eq. naive_solver.
  - intros [a] [b]. apply (cmp_antisym a).
  - intros [a] [b] [c]. apply (cmp_trans a).
Qed.
#[export] Instance predicate_ord : Ord Predicate := λ a b, cmp (predicate_str a) (predicate_str b).
#[export] Instance predicate_ord_laws : OrdLaws Predicate.
Proof.
  split.
  - intros [a] [b]. unfold cmp, predicate_ord. simpl. rewrite cmp_eq. naive_solver.
  - intros [a] [b]. apply (cmp_antisym a).
  - intros [a] [b] [c]. apply (cmp_trans a).
Qed.

(** * The canonical grammar as a specification *)

Definition head_byte (b : byte) : Prop :=
  97 ≤ u8_val b ≤ 122 ∨ 48 ≤ u8_val b ≤ 57.
Definition tail_byte (b : byte) : Prop :=
  head_byte b ∨ b = "-"%byte ∨ b = "_"%byte ∨ b = "."%byte.

(** [a-z0-9][a-z0-9_.-]{0,127} *)
Definition canonical (s : string) : Prop :=
  match str_bytes s with
  | [] => False
  | b :: l => head_byte b ∧ Forall tail_byte l ∧ len (b :: l) ≤ 128
  end.

Lemma in_range_spec lo hi b : in_range lo hi b = true ↔ lo ≤ u8_val b ≤ hi.
Proof. unfold in_range. rewrite andb_true_iff, !Z.leb_le. done. Qed.

Lemma head_byte_spec b : (is_ascii_lowercase b || is_ascii_digit b)%bool = true ↔ head_byte b.
Proof.
  unfold is_ascii_lowercase, is_ascii_digit, head_byte. by rewrite orb_true_iff, !in_range_spec.
Qed.

Lemma canonical_tail_spec n l :
  canonical_bytes_from (S n) l = true ↔ Forall tail_byte l.
Proof.
  revert n; induction l as [|b l IH]; intros n; cbn [canonical_bytes_from]; [by split|].
  rewrite andb_true_iff, IH, Forall_cons, orb_true_iff, head_byte_spec. simpl.
  unfold byte_eqb, tail_byte. rewrite !orb_true_iff, !bool_decide_eq_true. tauto.
Qed.

Lemma canonical_id_problem_None s : canonical_id_problem s = None ↔ canonical s.
Proof.
  unfold canonical_id_problem, canonical, str_len, MAX_CANONICAL_ID_BYTES.
  destruct (str_bytes s) as [|b l] eqn:E; cbn [canonical_bytes_from]; [by split|].
  rewrite bool_decide_eq_false_2 by done.
  destruct (Z.ltb_spec 128 (len (b :: l))); simpl; [split; [done|lia]|].
  rewrite orb_false_r. destruct (is_ascii_lowercase b || is_ascii_digit b)%bool eqn:Hb; simpl.
  - apply head_byte_spec in Hb. destruct (canonical_bytes_from 1 l) eqn:Ht.
    + apply canonical_tail_spec in Ht. split; auto with lia.
    + split; [done|]. intros (_ & Ht' & _). apply (canonical_tail_spec 0) in Ht'. congruence.
  - split; [done|]. intros (Hb' & _). apply head_byte_spec in Hb'. congruence.
Qed.

Lemma canonical_no_nul s : canonical s → FORBIDDEN_NUL ∉ str_bytes s.
Proof.
  unfold canonical, FORBIDDEN_NUL. destruct (str_bytes s) as [|b l]; [done|].
  intros (Hb & Hl & _) [<-|Hin]%elem_of_cons.
  - unfold head_byte in Hb. vm_compute in Hb. naive_solver.
  - eapply Forall_forall in Hl; [|exact Hin]. unfold tail_byte, head_byte in Hl.
    destruct Hl as [Hl|[Hl|[Hl|Hl]]]; [vm_compute in Hl; naive_solver|done..].
Qed.

(** A canonical identifier is at most 128 bytes of valid UTF-8. *)
Lemma canonical_str_len s : canonical s → 1 ≤ str_len s ≤ 128.
Proof.
  unfold canonical, str_len. destruct (str_bytes s) as [|b l]; [done|].
  rewrite len_cons. pose proof (len_nonneg l). intros (_ & _ & ?). lia.
Qed.

(** [Subject::new] accepts exactly the strings of the canonical grammar
    [a-z0-9][a-z0-9_.-]{0,127} and wraps them unchanged; it reports [EmptyIdentifier] exactly
    for the empty string and [NonCanonicalIdentifier] with the violated rule otherwise. *)
Theorem subject_new_spec (s : string) :
  (∀ x, Subject_new s = Ok x ↔ canonical s ∧ x = MkSubject s)
  ∧ (Subject_new s = Err (EmptyIdentifier "subject") ↔ str_bytes s = [])
  ∧ (Subject_new s = Err (NonCanonicalIdentifier "subject" s length_problem) ↔ 128 < str_len s)
  ∧ (Subject_new s = Err (NonCanonicalIdentifier "subject" s grammar_problem)
       ↔ str_bytes s ≠ [] ∧ str_len s ≤ 128 ∧ ¬ canonical s).
Proof.
  unfold Subject_new, check_canonical. pose proof (canonical_id_problem_None s) as Hc.
  case_bool_decide as Hnil.
  { assert (¬ canonical s) by (unfold canonical; rewrite Hnil; tauto).
    assert (str_len s = 0) as -> by (unfold str_len; by rewrite Hnil).
    split_and!; [naive_solver|done|by split|naive_solver]. }
  unfold canonical_id_problem in *. rewrite bool_decide_eq_false_2 in * by done. simpl in *.
  unfold MAX_CANONICAL_ID_BYTES in *. pose proof (canonical_str_len s).
  assert (length_problem ≠ grammar_problem) by done.
  destruct (Z.ltb_spec 128 (str_len s)) as [Hlen|Hlen];
    [|destruct (canonical_bytes_from 0 (str_bytes s))];
    split_and!; intros; split; intros; destruct_and?; simplify_eq; try done; try lia;
    try tauto; intuition (try congruence; try lia).
Qed.

(** Every canonical identifier also passes the weaker text check, whatever the label: a
    subject can always be used where a reader label is expected. *)
Theorem canonical_passes_text_check (kind kind' value : string) :
  check_canonical kind value = Ok tt → check_text kind' value = Ok tt.
Proof.
  unfold check_canonical, check_text. case_bool_decide; [done|].
  destruct (canonical_id_problem value) eqn:E; [done|]. intros _.
  apply canonical_id_problem_None, canonical_no_nul in E.
  by rewrite bool_decide_eq_false_2.
Qed.

Example canonical_passes_text_check_witness :
  check_canonical "subject" "wp3.status" = Ok tt ∧ check_text "reader" "wp3.status" = Ok tt.
Proof.
  split; [by vm_compute|].
  apply (canonical_passes_text_check "subject"). by vm_compute.
Defined.
