(* ===== verification/Digest.v ===== *)
(** SHA-256 identity ([rrd-core]: digest.rs).

    The RustCrypto compression function is not part of this repository: it is the class
    [Sha2], with the streaming behaviour that crate documents as [Sha2Laws].  The wrapper
    around it and the lowercase hexadecimal codec are modelled from the source. *)

From S2P Require Import Prelude Machine Ident.
Open Scope Z_scope.

(** The third-party [sha2::Sha256]: its state, [Default], [update] and [finalize]. *)
Class Sha2 := {
  sha2_state : Type;
  sha2_default : sha2_state;
  sha2_update : sha2_state → list byte → sha2_state;
  sha2_finalize : sha2_state → list byte
}.

(** Documented behaviour: a digest has 32 bytes, and feeding a message in pieces is feeding
    their concatenation. *)
Class Sha2Laws `{Sha2} : Prop := {
  sha2_length : ∀ s, length (sha2_finalize s) = 32%nat;
  sha2_update_nil : ∀ s, sha2_finalize (sha2_update s []) = sha2_finalize s;
  sha2_update_app : ∀ s a b,
    sha2_finalize (sha2_update (sha2_update s a) b) = sha2_finalize (sha2_update s (a ++ b))
}.

Section Sha256.
Context `{Sha2}.

(** core/digest.rs:14-17 Sha256 *)
Record Sha256 := MkSha256 { state : option sha2_state; length_fed : Z }.

(** core/digest.rs:26-31 Sha256::new *)
Definition Sha256_new : Sha256 := {| state := None; length_fed := 0 |}.

(** core/digest.rs:33-39 Sha256::update; [None] is the panic of [expect]. *)
Definition update (self : Sha256) (input : list byte) : option Sha256 :=
  match checked_add 64 (length_fed self) (len input) with
  | None => None
  | Some length =>
    Some {| state := Some (sha2_update (default sha2_default (state self)) input);
            length_fed := length |}
  end.

(** core/digest.rs:41-43 Sha256::finalize *)
Definition finalize (self : Sha256) : list byte :=
  sha2_finalize (default sha2_default (state self)).

(** core/digest.rs:51-55 sha256; the input of one slice is shorter than 2^63 bytes, so the
    length check of [update] passes. *)
Definition sha256 (input : list byte) : list byte :=
  match update Sha256_new input with
  | Some digest => finalize digest
  | None => finalize Sha256_new
  end.

(** Feeding a message in chunks, as the readers of bounded I/O do. *)
Fixpoint update_all (self : Sha256) (chunks : list (list byte)) : option Sha256 :=
  match chunks with
  | [] => Some self
  | c :: chunks =>
    match update self c with Some self' => update_all self' chunks | None => None end
  end.
End Sha256.

(** * Lowercase hexadecimal *)

(** core/digest.rs:64-64 DIGITS *)
Definition DIGITS : list byte := str_bytes "0123456789abcdef".

Definition hex_digit (n : Z) : byte := nth (Z.to_nat n) DIGITS x00.

(** core/digest.rs:66-69 hex, one byte *)
Definition hex_byte (b : byte) : list byte :=
  [hex_digit (Z.shiftr (u8_val b) 4); hex_digit (Z.land (u8_val b) 15)].

(** core/digest.rs:63-71 hex *)
Definition hex (digest : list byte) : string := bytes_str (flat_map hex_byte digest).

(** core/digest.rs:76-82 from_hex::digit *)
Definition from_hex_digit (b : byte) : option Z :=
  if in_range 48 57 b then Some (u8_val b - 48)
  else if in_range 97 102 b then Some (u8_val b - 97 + 10)
  else None.

(** core/digest.rs:87-91 from_hex, the loop over pairs *)
Fixpoint from_hex_pairs (l : list byte) : option (list byte) :=
  match l with
  | high :: low :: l =>
    match from_hex_digit high, from_hex_digit low with
    | Some h, Some w =>
      match from_hex_pairs l with
      | Some rest => Some (u8_of (Z.lor (Z.shiftl h 4) w) :: rest)
      | None => None
      end
    | _, _ => None
    end
  | _ => Some []
  end.

(** core/digest.rs:75-92 from_hex *)
Definition from_hex (value : string) : option (list byte) :=
  let text := str_bytes value in
  if negb (length text =? 64)%nat then None else from_hex_pairs text.

(** core/digest.rs:57-59 sha256_hex *)
Definition sha256_hex `{Sha2} (input : list byte) : string := hex (sha256 input).

Lemma from_hex_digit_hex b :
  from_hex_digit (hex_digit (Z.shiftr (u8_val b) 4)) = Some (Z.shiftr (u8_val b) 4)
  ∧ from_hex_digit (hex_digit (Z.land (u8_val b) 15)) = Some (Z.land (u8_val b) 15)
  ∧ u8_of (Z.lor (Z.shiftl (Z.shiftr (u8_val b) 4) 4) (Z.land (u8_val b) 15)) = b.
Proof. by destruct b. Qed.

Lemma from_hex_digit_Some b z :
  from_hex_digit b = Some z → 0 ≤ z < 16 ∧ hex_digit z = b.
Proof. destruct b; intros H; vm_compute in H; simplify_eq; (split; [lia|done]). Qed.

Lemma hex_byte_join h w :
  0 ≤ h < 16 → 0 ≤ w < 16 →
  hex_byte (u8_of (Z.lor (Z.shiftl h 4) w)) = [hex_digit h; hex_digit w].
Proof.
  intros Hh Hw.
  assert (h ∈ seqZ 0 16 ∧ w ∈ seqZ 0 16) as [Hh' Hw'] by (rewrite !elem_of_seqZ; lia).
  assert (forallb (λ h, forallb (λ w, bool_decide
    (hex_byte (u8_of (Z.lor (Z.shiftl h 4) w)) = [hex_digit h; hex_digit w])) (seqZ 0 16)) (seqZ 0 16)
    = true) as Hall by (by vm_compute).
  rewrite forallb_forall in Hall. apply list_elem_of_In in Hh', Hw'. specialize (Hall _ Hh').
  rewrite forallb_forall in Hall. specialize (Hall _ Hw'). by apply bool_decide_eq_true in Hall.
Qed.

Lemma from_hex_pairs_hex d : from_hex_pairs (flat_map hex_byte d) = Some d.
Proof.
  induction d as [|b d IH]; [done|]. cbn [flat_map hex_byte app from_hex_pairs].
  destruct (from_hex_digit_hex b) as (-> & -> & Hb). by rewrite IH, Hb.
Qed.

Lemma length_flat_map_hex d : length (flat_map hex_byte d) = (2 * length d)%nat.
Proof. induction d; simpl; lia. Qed.

Lemma from_hex_pairs_Some n l d :
  length l = (2 * n)%nat → from_hex_pairs l = Some d → length d = n ∧ flat_map hex_byte d = l.
Proof.
  revert l d; induction n as [|n IH]; intros l d Hl.
  { destruct l; [|done]. by intros [=<-]. }
  destruct l as [|h [|w l]]; cbn [length] in Hl; try lia. cbn [from_hex_pairs].
  destruct (from_hex_digit h) as [zh|] eqn:Hh; [|done].
  destruct (from_hex_digit w) as [zw|] eqn:Hw; [|done].
  destruct (from_hex_pairs l) as [rest|] eqn:Hr; [|done]. intros [=<-].
  apply from_hex_digit_Some in Hh as [? Hh], Hw as [? Hw].
  apply IH in Hr as [<- Hr]; [|lia]. cbn [flat_map length]. split; [done|].
  rewrite hex_byte_join, Hh, Hw, Hr by done. done.
Qed.

Lemma from_hex_hex d : length d = 32%nat → from_hex (hex d) = Some d.
Proof.
  intros Hd. unfold from_hex, hex. rewrite str_bytes_str, length_flat_map_hex, Hd. simpl.
  apply from_hex_pairs_hex.
Qed.

Lemma from_hex_Some value digest : from_hex value = Some digest → length digest = 32%nat ∧ value = hex digest.
Proof.
  unfold from_hex, hex. destruct (Nat.eqb_spec (length (str_bytes value)) 64) as [Hl|Hl]; [|done]. cbn [negb].
  intros Hd. apply (from_hex_pairs_Some 32) in Hd as [? Hd]; [|done]. by rewrite Hd, bytes_str_bytes.
Qed.

(** [from_hex] accepts exactly the 64-character texts [hex] writes: it returns the digest
    that [hex] encodes to the given text, and no other text decodes. *)
Theorem from_hex_iff_hex (value : string) (digest : list byte) :
  from_hex value = Some digest ↔ length digest = 32%nat ∧ value = hex digest.
Proof. split; [apply from_hex_Some|]. intros [Hd ->]. by apply from_hex_hex. Qed.

(** What [hex] writes is ASCII, so the [expect] on its UTF-8 check cannot fire. *)
Lemma hex_is_str d : is_str (hex d).
Proof.
  unfold is_str, hex. rewrite str_bytes_str. induction d as [|b d IH]; [done|].
  cbn [flat_map hex_byte app utf8_valid].
  assert (in_range 0 127 (hex_digit (Z.shiftr (u8_val b) 4)) = true) as -> by (by destruct b).
  assert (in_range 0 127 (hex_digit (Z.land (u8_val b) 15)) = true) as -> by (by destruct b).
  exact IH.
Qed.

Lemma str_len_hex d : str_len (hex d) = 2 * len d.
Proof. unfold str_len, hex, len. rewrite str_bytes_str, length_flat_map_hex. lia. Qed.

Section Streaming.
Context `{Sha2Laws}.

Lemma update_all_finalize chunks self :
  length_fed self + len (concat chunks) < 2 ^ 64 →
  ∃ self', update_all self chunks = Some self'
    ∧ length_fed self' = length_fed self + len (concat chunks)
    ∧ finalize self' = sha2_finalize (sha2_update (default sha2_default (state self)) (concat chunks)).
Proof.
  revert self; induction chunks as [|c chunks IH]; intros self Hlen.
  { exists self. cbn [concat len update_all] in *. rewrite len_nil, Z.add_0_r.
    split_and!; [done|done|]. unfold finalize. by rewrite sha2_update_nil. }
  cbn [concat] in *. rewrite len_app in *. cbn [update_all]. unfold update at 1, checked_add.
  pose proof (len_nonneg (concat chunks)).
  rewrite (proj2 (Z.ltb_lt _ _)) by lia. edestruct IH as (self' & Hu & Hl & Hf);
    [|exists self'; split; [exact Hu|]]; cbn [length_fed state default] in *; [lia|].
  split; [lia|]. rewrite Hf. cbn. apply sha2_update_app.
Qed.

(** The incremental digest does not depend on how the input is cut: for every sequence
    of chunks of fewer than 2^64 bytes in total no call panics, and the final digest is the
    one-shot [sha256] of the concatenation. *)
Theorem incremental_digest_is_one_shot (chunks : list (list byte)) :
  len (concat chunks) < 2 ^ 64 →
  ∃ digest, update_all Sha256_new chunks = Some digest
    ∧ finalize digest = sha256 (concat chunks).
Proof.
  intros Hlen. destruct (update_all_finalize chunks Sha256_new) as (d & Hd & _ & Hf); [done|].
  exists d. split; [done|]. rewrite Hf. unfold sha256, update, checked_add. cbn [length_fed Sha256_new].
  rewrite Z.add_0_l, (proj2 (Z.ltb_lt _ _)) by done. done.
Qed.

Lemma length_sha256 input : length (sha256 input) = 32%nat.
Proof. unfold sha256. destruct (update _ _); apply sha2_length. Qed.

Lemma from_hex_sha256 input : from_hex (sha256_hex input) = Some (sha256 input).
Proof. apply from_hex_hex, length_sha256. Qed.

(** Two different messages with the same SHA-256. *)
Definition collide (x y : list byte) : Prop := x ≠ y ∧ sha256 x = sha256 y.

Lemma sha256_hex_binds x y : sha256_hex x = sha256_hex y → x = y ∨ collide x y.
Proof.
  intros E. destruct (decide (x = y)) as [|Hne]; [by left|]. right. split; [done|].
  pose proof (from_hex_sha256 x) as Hx. rewrite E, from_hex_sha256 in Hx. congruence.
Qed.
End Streaming.

(** * A concrete instance, so that the streaming laws are seen to be satisfiable: a toy
    digest whose state is the bytes fed so far and whose value repeats their sum. *)
Definition toy_sum (l : list byte) : Z := fold_right (λ b acc, u8_val b + acc) 0 l.
Definition toy_sha2 : Sha2 := {|
  sha2_state := list byte;
  sha2_default := [];
  sha2_update s l := s ++ l;
  sha2_finalize s := be_bytes 32 (toy_sum s + 257 * len s)
|}.
Lemma toy_sha2_laws : @Sha2Laws toy_sha2.
Proof.
  split.
  - intros. apply length_be_bytes.
  - intros s. unfold sha2_update, toy_sha2. by rewrite app_nil_r.
  - intros s a b. unfold sha2_update, toy_sha2. by rewrite app_assoc.
Qed.

Example incremental_digest_is_one_shot_witness :
  ∃ digest, @update_all toy_sha2 Sha256_new [[x01; x02]; []; [x03]] = Some digest
    ∧ finalize digest = @sha256 toy_sha2 [x01; x02; x03].
Proof.
  apply (@incremental_digest_is_one_shot toy_sha2 toy_sha2_laws [[x01; x02]; []; [x03]]).
  by vm_compute.
Defined.
