(* ===== verification/Merkle.v ===== *)
(** The Merkle tree hash of RFC 9162, over any set of digests with a hash of pairs.

    The RFC splits a list at the largest power of two below its length.  The code that appends
    and verifies works level by level instead.  This file relates the two: pairing up
    neighbours, an odd last one promoted, keeps the tree hash and takes one step off every
    inclusion path. *)

From S2P Require Import Prelude.
From Stdlib Require Import PeanoNat.
Open Scope nat_scope.

(** The largest power of two less than [n]. *)
Definition split_at (n : nat) : nat := 2 ^ Nat.log2 (n - 1).

Lemma split_at_spec n : 2 ≤ n → 1 ≤ split_at n < n ∧ n ≤ 2 * split_at n.
Proof.
  intros Hn. unfold split_at. pose proof (Nat.log2_spec (n - 1) ltac:(lia)) as [Hlo Hhi].
  rewrite Nat.pow_succ_r' in Hhi. pose proof (Nat.pow_nonzero 2 (Nat.log2 (n - 1)) ltac:(lia)). lia.
Qed.

Lemma split_at_unique n j : 2 ^ j < n → n ≤ 2 * 2 ^ j → split_at n = 2 ^ j.
Proof.
  intros Hlo Hhi. unfold split_at. f_equal. apply Nat.log2_unique; [lia|].
  rewrite Nat.pow_succ_r'. lia.
Qed.

Lemma div2_bounds n : 2 * Nat.div2 n ≤ n ≤ S (2 * Nat.div2 n).
Proof. pose proof (Nat.div2_odd n). destruct (Nat.odd n); cbn [Nat.b2n] in *; lia. Qed.

(** Halving a list halves its split. *)
Lemma split_at_half n : 3 ≤ n → split_at n = 2 * split_at (Nat.div2 (S n)).
Proof.
  intros Hn. set (c := Nat.div2 (S n)).
  assert (n ≤ 2 * c ≤ S n) as Hc.
  { subst c. pose proof (div2_bounds (S n)). lia. }
  destruct (split_at_spec c ltac:(lia)) as [[_ Hlo] Hhi]. unfold split_at in *.
  rewrite <-Nat.pow_succ_r'. apply (split_at_unique n (S (Nat.log2 (c - 1)))); rewrite Nat.pow_succ_r'; lia.
Qed.

Lemma list_pair_ind {A} (P : list A → Prop) :
  P [] → (∀ a, P [a]) → (∀ a b l, P l → P (a :: b :: l)) → ∀ l, P l.
Proof.
  intros H0 H1 H2. fix IH 1. intros [|a [|b l]]; [exact H0|apply H1|apply H2, IH].
Qed.

Section Merkle.
Context {A : Type} (H : A → A → A) (dflt : A).

(** One level up: neighbours are hashed, an odd last one is promoted. *)
Fixpoint pair_up (l : list A) : list A :=
  match l with
  | a :: b :: l => H a b :: pair_up l
  | l => l
  end.

(** One level up, complete subtrees only. *)
Fixpoint pair_full (l : list A) : list A :=
  match l with
  | a :: b :: l => H a b :: pair_full l
  | _ => []
  end.

Lemma length_pair_up l : length (pair_up l) = Nat.div2 (S (length l)).
Proof. induction l as [|a|a b l IH] using list_pair_ind; [done|done|]. cbn [pair_up length]. rewrite IH. done. Qed.
Lemma length_pair_full l : length (pair_full l) = Nat.div2 (length l).
Proof. induction l as [|a|a b l IH] using list_pair_ind; [done|done|]. cbn [pair_full length]. rewrite IH. done. Qed.

Lemma pair_up_take k l : pair_up (take (2 * k) l) = take k (pair_up l).
Proof.
  revert k; induction l as [|a|a b l IH] using list_pair_ind; intros [|k]; try done.
  - cbn. by rewrite !take_nil.
  - replace (2 * S k) with (S (S (2 * k))) by lia. cbn [take pair_up]. by rewrite IH.
Qed.
Lemma pair_up_drop k l : pair_up (drop (2 * k) l) = drop k (pair_up l).
Proof.
  revert k; induction l as [|a|a b l IH] using list_pair_ind; intros [|k]; try done.
  - replace (2 * S k) with (S (S (2 * k))) by lia. cbn [drop pair_up]. by rewrite ?drop_nil.
  - replace (2 * S k) with (S (S (2 * k))) by lia. cbn [drop pair_up]. by rewrite IH.
Qed.
Lemma pair_full_take k l : pair_full (take (2 * k) l) = take k (pair_full l).
Proof.
  revert k; induction l as [|a|a b l IH] using list_pair_ind; intros [|k]; try done.
  - cbn. by rewrite !take_nil.
  - replace (2 * S k) with (S (S (2 * k))) by lia. cbn [take pair_full]. by rewrite IH.
Qed.
Lemma pair_full_drop k l : pair_full (drop (2 * k) l) = drop k (pair_full l).
Proof.
  revert k; induction l as [|a|a b l IH] using list_pair_ind; intros [|k]; try done.
  - replace (2 * S k) with (S (S (2 * k))) by lia. cbn [drop pair_full]. by rewrite ?drop_nil.
  - replace (2 * S k) with (S (S (2 * k))) by lia. cbn [drop pair_full]. by rewrite IH.
Qed.

(** ** The tree hash *)

(** RFC 9162, section 2.1.1; [fuel] is the length of the list. *)
Fixpoint mth (fuel : nat) (l : list A) : A :=
  match l with
  | [] => dflt
  | [a] => a
  | _ => match fuel with
         | O => dflt
         | S fuel => H (mth fuel (take (split_at (length l)) l)) (mth fuel (drop (split_at (length l)) l))
         end
  end.
Definition tree_hash (l : list A) : A := mth (length l) l.

Lemma mth_fuel f f' l : length l ≤ f → length l ≤ f' → mth f l = mth f' l.
Proof.
  revert f' l; induction f as [|f IH]; intros f' l Hf Hf'.
  { destruct l; cbn in *; [by destruct f'|lia]. }
  destruct l as [|a [|b l]]; [by destruct f'|by destruct f'|]. destruct f' as [|f']; [cbn in Hf'; lia|].
  cbn [mth]. set (m := a :: b :: l) in *. destruct (split_at_spec (length m)) as [? ?]; [subst m; cbn; lia|].
  f_equal; apply IH; rewrite ?length_take, ?length_drop; lia.
Qed.

Lemma tree_hash_single a : tree_hash [a] = a.
Proof. done. Qed.

Lemma tree_hash_split l :
  2 ≤ length l →
  tree_hash l = H (tree_hash (take (split_at (length l)) l)) (tree_hash (drop (split_at (length l)) l)).
Proof.
  intros Hl. unfold tree_hash at 1. destruct l as [|a [|b l]]; [cbn in Hl; lia..|].
  set (m := a :: b :: l) in *. destruct (split_at_spec (length m) Hl) as [? ?].
  change (mth (length m) m) with
    (H (mth (S (length l)) (take (split_at (length m)) m)) (mth (S (length l)) (drop (split_at (length m)) m))).
  assert (length m = S (S (length l))) by done.
  unfold tree_hash. f_equal; apply mth_fuel; rewrite ?length_take, ?length_drop; lia.
Qed.

(** Hashing one level does not change the tree hash. *)
Lemma tree_hash_pair_up l : l ≠ [] → tree_hash (pair_up l) = tree_hash l.
Proof.
  induction l as [l IH] using (well_founded_induction (well_founded_ltof _ (@length A))). unfold ltof in IH.
  intros Hne. destruct l as [|a [|b [|c l]]]; [done|done|done|].
  set (m := a :: b :: c :: l) in *. assert (3 ≤ length m) as Hm by (subst m; cbn; lia).
  pose proof (split_at_half _ Hm) as Hhalf. pose proof (length_pair_up m) as Hlen.
  destruct (split_at_spec (length m)) as [[Hk1 Hk2] Hk3]; [lia|].
  assert (2 ≤ length (pair_up m)) as Hp by (rewrite Hlen; pose proof (div2_bounds (S (length m))); lia).
  rewrite tree_hash_split by done. rewrite (tree_hash_split m) by lia. rewrite Hlen, Hhalf.
  rewrite <-pair_up_take, <-pair_up_drop. f_equal; apply IH; rewrite ?length_take, ?length_drop.
  - lia.
  - intros Hn%(f_equal length). rewrite length_take in Hn. change (length (@nil A)) with 0 in Hn. lia.
  - lia.
  - intros Hn%(f_equal length). rewrite length_drop in Hn. change (length (@nil A)) with 0 in Hn. lia.
Qed.
(** ** Inclusion paths *)

(** RFC 9162, section 2.1.3.1: the siblings of a leaf, the lowest first. *)
Fixpoint mth_path (fuel : nat) (l : list A) (m : nat) : list A :=
  match fuel with
  | O => []
  | S fuel =>
    if length l <=? 1 then []
    else
      let k := split_at (length l) in
      if m <? k then mth_path fuel (take k l) m ++ [tree_hash (drop k l)]
      else mth_path fuel (drop k l) (m - k) ++ [tree_hash (take k l)]
  end.
Definition tree_path (l : list A) (m : nat) : list A := mth_path (length l) l m.

Lemma mth_path_fuel f f' l m : length l ≤ f → length l ≤ f' → mth_path f l m = mth_path f' l m.
Proof.
  revert f' l m; induction f as [|f IH]; intros f' l m Hf Hf'.
  { destruct f' as [|f']; [done|]. cbn [mth_path]. by rewrite (proj2 (Nat.leb_le _ _)) by lia. }
  destruct f' as [|f']; cbn [mth_path]; [by rewrite (proj2 (Nat.leb_le _ _)) by lia|].
  destruct (Nat.leb_spec (length l) 1); [done|]. destruct (split_at_spec (length l)) as [? ?]; [lia|].
  destruct (m <? split_at (length l)); f_equal; apply IH; rewrite ?length_take, ?length_drop; lia.
Qed.

Lemma tree_path_short l m : length l ≤ 1 → tree_path l m = [].
Proof. intros Hl. unfold tree_path. destruct l as [|a [|b l]]; cbn in *; [done|done|lia]. Qed.

Lemma tree_path_split l m :
  2 ≤ length l →
  tree_path l m
  = if m <? split_at (length l)
    then tree_path (take (split_at (length l)) l) m ++ [tree_hash (drop (split_at (length l)) l)]
    else tree_path (drop (split_at (length l)) l) (m - split_at (length l)) ++ [tree_hash (take (split_at (length l)) l)].
Proof.
  intros Hl. destruct (split_at_spec (length l) Hl) as [? ?]. unfold tree_path at 1.
  rewrite (mth_path_fuel _ (S (length l))) by lia. cbn [mth_path].
  rewrite (proj2 (Nat.leb_gt _ _)) by lia. unfold tree_path.
  destruct (m <? split_at (length l)); f_equal; apply mth_path_fuel; rewrite ?length_take, ?length_drop; lia.
Qed.

(** The sibling of a node on its level, if it has one. *)
Definition sibling (l : list A) (m : nat) : list A :=
  option_list (if Nat.odd m then l !! (m - 1) else l !! (m + 1)).

Lemma even_parts m k : Nat.odd (2 * k + m) = Nat.odd m ∧ Nat.div2 (2 * k + m) = k + Nat.div2 m.
Proof.
  split.
  - rewrite Nat.odd_add, Nat.odd_mul. by destruct (Nat.odd m).
  - rewrite !Nat.div2_div, (Nat.mul_comm 2), Nat.div_add_l by lia. done.
Qed.

Lemma div2_lt m k : m < 2 * k ↔ Nat.div2 m < k.
Proof. pose proof (div2_bounds m). lia. Qed.

(** Every inclusion path starts with the sibling on the lowest level, if there is one, and
    continues with the path one level up. *)
Lemma tree_path_pair_up l m :
  m < length l → tree_path l m = sibling l m ++ tree_path (pair_up l) (Nat.div2 m).
Proof.
  revert m; induction l as [l IH] using (well_founded_induction (well_founded_ltof _ (@length A))).
  unfold ltof in IH. intros m Hm. destruct l as [|a [|b [|c l]]]; [cbn in Hm; lia|..].
  - assert (m = 0) as -> by (cbn in Hm; lia). done.
  - destruct m as [|[|m]]; [done|done|cbn in Hm; lia].
  - set (t := a :: b :: c :: l) in *. assert (3 ≤ length t) as Ht by (subst t; cbn; lia). clearbody t.
    pose proof (split_at_half _ Ht) as Hhalf. pose proof (length_pair_up t) as Hlen.
    destruct (split_at_spec (length t)) as [[Hk1 Hk2] Hk3]; [lia|].
    assert (2 ≤ length (pair_up t)) as Hp by (rewrite Hlen; pose proof (div2_bounds (S (length t))); lia).
    rewrite tree_path_split by lia. rewrite (tree_path_split (pair_up t)) by done.
    rewrite Hlen, Hhalf in *. set (k := split_at (Nat.div2 (S (length t)))) in *.
    rewrite <-pair_up_take, <-pair_up_drop, !tree_hash_pair_up; cycle 1.
    { intros Hn%(f_equal length). rewrite ?length_take, ?length_drop in Hn. change (length (@nil A)) with 0 in Hn. lia. }
    { intros Hn%(f_equal length). rewrite ?length_take, ?length_drop in Hn. change (length (@nil A)) with 0 in Hn. lia. }
    destruct (Nat.ltb_spec m (2 * k)) as [Hlt|Hge].
    + rewrite (proj2 (Nat.ltb_lt _ _)) by (by apply div2_lt). rewrite IH by (rewrite length_take; lia).
      rewrite <-app_assoc. f_equal. unfold sibling. f_equal. destruct (Nat.odd m) eqn:Hodd.
      * by rewrite lookup_take_lt by lia.
      * rewrite lookup_take_lt; [done|]. pose proof (Nat.div2_odd m) as Hd. rewrite Hodd in Hd. cbn [Nat.b2n] in Hd. lia.
    + destruct (even_parts (m - 2 * k) k) as [Hodd Hdiv].
      replace (2 * k + (m - 2 * k)) with m in Hodd, Hdiv by lia. rewrite Hdiv.
      assert ((k + Nat.div2 (m - 2 * k) <? k) = false) as -> by (apply Nat.ltb_ge, Nat.le_add_r).
      rewrite IH by (rewrite length_drop; lia). rewrite <-app_assoc.
      assert (∀ d, k + d - k = d) as -> by (intros; lia). f_equal.
      unfold sibling. rewrite Hodd, !lookup_drop. f_equal. destruct (Nat.odd (m - 2 * k)) eqn:Ho; f_equal; [|lia].
      assert (m - 2 * k ≠ 0) by (intros E; by rewrite E in Ho). lia.
Qed.
(** ** Verification, level by level *)

(** Fold a path into the digest [c] of node [m] of a level whose last node is [last]. *)
Fixpoint climb (fuel m last : nat) (c : A) (p : list A) : option A :=
  match last, fuel with
  | O, _ => match p with [] => Some c | _ => None end
  | _, O => None
  | _, S fuel =>
    if Nat.odd m then
      match p with s :: p => climb fuel (Nat.div2 m) (Nat.div2 last) (H s c) p | [] => None end
    else if m =? last then climb fuel (Nat.div2 m) (Nat.div2 last) c p
    else match p with s :: p => climb fuel (Nat.div2 m) (Nat.div2 last) (H c s) p | [] => None end
  end.

(** The pairs that folding hashes. *)
Fixpoint climb_pairs (fuel m last : nat) (c : A) (p : list A) : list (A * A) :=
  match last, fuel with
  | O, _ | _, O => []
  | _, S fuel =>
    if Nat.odd m then
      match p with s :: p => (s, c) :: climb_pairs fuel (Nat.div2 m) (Nat.div2 last) (H s c) p | [] => [] end
    else if m =? last then climb_pairs fuel (Nat.div2 m) (Nat.div2 last) c p
    else match p with s :: p => (c, s) :: climb_pairs fuel (Nat.div2 m) (Nat.div2 last) (H c s) p | [] => [] end
  end.

(** The pairs the tree of a list hashes. *)
Fixpoint level_pairs (l : list A) : list (A * A) :=
  match l with a :: b :: l => (a, b) :: level_pairs l | _ => [] end.
Fixpoint tree_pairs (fuel : nat) (l : list A) : list (A * A) :=
  match fuel with O => [] | S fuel => level_pairs l ++ tree_pairs fuel (pair_up l) end.

Lemma climb_step fuel m last c p :
  last ≠ 0 →
  climb (S fuel) m last c p
  = if Nat.odd m then
      match p with s :: p => climb fuel (Nat.div2 m) (Nat.div2 last) (H s c) p | [] => None end
    else if m =? last then climb fuel (Nat.div2 m) (Nat.div2 last) c p
    else match p with s :: p => climb fuel (Nat.div2 m) (Nat.div2 last) (H c s) p | [] => None end.
Proof. by destruct last. Qed.

Lemma climb_pairs_step fuel m last c p :
  last ≠ 0 →
  climb_pairs (S fuel) m last c p
  = if Nat.odd m then
      match p with s :: p => (s, c) :: climb_pairs fuel (Nat.div2 m) (Nat.div2 last) (H s c) p | [] => [] end
    else if m =? last then climb_pairs fuel (Nat.div2 m) (Nat.div2 last) c p
    else match p with s :: p => (c, s) :: climb_pairs fuel (Nat.div2 m) (Nat.div2 last) (H c s) p | [] => [] end.
Proof. by destruct last. Qed.

(** A node one level up, by its position. *)
Lemma pair_up_lookup l m :
  m < length l →
  pair_up l !! Nat.div2 m
  = if Nat.odd m then a ← l !! (m - 1); b ← l !! m; Some (H a b)
    else match l !! (m + 1) with Some b => a ← l !! m; Some (H a b) | None => l !! m end.
Proof.
  revert m; induction l as [|a|a b l IH] using list_pair_ind; intros m Hm; [cbn in Hm; lia|..].
  - destruct m; [done|cbn in Hm; lia].
  - destruct m as [|[|m]]; [done|done|]. change (Nat.div2 (S (S m))) with (S (Nat.div2 m)). cbn [pair_up].
    rewrite lookup_cons_ne_0 by done. cbn [pred]. rewrite IH by (cbn in Hm; lia).
    change (Nat.odd (S (S m))) with (Nat.odd m). destruct (Nat.odd m) eqn:Ho.
    + destruct m as [|m]; [done|]. cbn. by rewrite Nat.sub_0_r.
    + done.
Qed.

Lemma level_pairs_elem l m a b :
  l !! m = Some a → l !! (m + 1) = Some b → Nat.odd m = false → (a, b) ∈ level_pairs l.
Proof.
  revert m; induction l as [|x|x y l IH] using list_pair_ind; intros m Ha Hb Ho.
  - done.
  - destruct m; cbn in *; [done|]. by destruct m.
  - cbn [level_pairs]. destruct m as [|[|m]]; [|done|].
    + cbn in Ha, Hb. injection Ha as ->. injection Hb as ->. by left.
    + right. by apply (IH m).
Qed.

Lemma last_half n : 1 ≤ n → Nat.div2 (S n) - 1 = Nat.div2 (n - 1).
Proof. destruct n as [|n]; [lia|]. intros _. cbn. by rewrite !Nat.sub_0_r. Qed.

(** The path of a leaf folds to the tree hash. *)
Lemma climb_complete fuel l m c :
  l !! m = Some c → length l ≤ 2 ^ fuel →
  climb fuel m (length l - 1) c (tree_path l m) = Some (tree_hash l).
Proof.
  revert l m c; induction fuel as [|fuel IH]; intros l m c Hc Hfuel; pose proof (lookup_lt_Some _ _ _ Hc) as Hm.
  - cbn in Hfuel. destruct l as [|a [|b l]]; cbn in Hfuel, Hm; try lia.
    destruct m; [|cbn in Hc; done]. by injection Hc as ->.
  - destruct l as [|a [|b l]]; [done|destruct m; [by injection Hc as ->|cbn in Hm; lia]|].
    set (t := a :: b :: l) in *. assert (2 ≤ length t) as Ht by (subst t; cbn; lia).
    assert (t ≠ []) as Hne by done. clearbody t.
    rewrite tree_path_pair_up by done. pose proof (pair_up_lookup t m Hm) as Hup.
    assert (length (pair_up t) ≤ 2 ^ fuel) as Hlen.
    { rewrite length_pair_up. pose proof (div2_bounds (S (length t))). rewrite Nat.pow_succ_r' in Hfuel. lia. }
    assert (∀ c', pair_up t !! Nat.div2 m = Some c' →
      climb fuel (Nat.div2 m) (Nat.div2 (length t - 1)) c' (tree_path (pair_up t) (Nat.div2 m)) = Some (tree_hash t)) as Hnext.
    { intros c' Hc'. rewrite <-last_half, <-(tree_hash_pair_up t), <-length_pair_up by (done || lia). by apply IH. }
    rewrite climb_step by lia.
    unfold sibling. destruct (Nat.odd m) eqn:Ho.
    + destruct m as [|m]; [done|]. replace (S m - 1) with m in * by lia.
      destruct (lookup_lt_is_Some_2 t m ltac:(lia)) as [s Hs]. rewrite Hs, Hc in Hup. rewrite Hs. by apply Hnext.
    + destruct (Nat.eqb_spec m (length t - 1)) as [->|Hne'].
      * rewrite (lookup_ge_None_2 t) in Hup |- * by lia. apply Hnext. by rewrite Hup.
      * destruct (lookup_lt_is_Some_2 t (m + 1) ltac:(lia)) as [s Hs]. rewrite Hs, Hc in Hup. rewrite Hs. by apply Hnext.
Qed.
(** A pair of the tree and a different pair of the verification with the same hash. *)
Definition pair_collision (tree proof : list (A * A)) : Prop :=
  ∃ x y, x ∈ tree ∧ y ∈ proof ∧ x ≠ y ∧ H x.1 x.2 = H y.1 y.2.

Lemma pair_collision_mono t t' q q' :
  t ⊆ t' → q ⊆ q' → pair_collision t q → pair_collision t' q'.
Proof. intros Ht Hq (x & y & Hx & Hy & Hxy). exists x, y. split; [by apply Ht|]. split; [by apply Hq|done]. Qed.

(** A path that folds to the tree hash starts at the leaf it names, unless two different pairs
    have one hash. *)
Lemma climb_sound `{EqDecision A} fuel l m c p :
  m < length l → length l ≤ 2 ^ fuel →
  climb fuel m (length l - 1) c p = Some (tree_hash l) →
  l !! m = Some c ∨ pair_collision (tree_pairs fuel l) (climb_pairs fuel m (length l - 1) c p).
Proof.
  revert l m c p; induction fuel as [|fuel IH]; intros l m c p Hm Hfuel Hclimb.
  { cbn in Hfuel. destruct l as [|a [|b l]]; cbn in Hfuel, Hm; try lia. assert (m = 0) as -> by lia.
    cbn in Hclimb. destruct p; [|done]. left. cbn. congruence. }
  destruct l as [|a [|b l]]; [cbn in Hm; lia|..].
  { assert (m = 0) as -> by (cbn in Hm; lia). cbn in Hclimb. destruct p; [|done]. left. cbn. congruence. }
  set (t := a :: b :: l) in *. assert (2 ≤ length t) as Ht by (subst t; cbn; lia).
  assert (t ≠ []) as Hne by done. clearbody t.
  assert (length (pair_up t) ≤ 2 ^ fuel) as Hlen.
  { rewrite length_pair_up. pose proof (div2_bounds (S (length t))). rewrite Nat.pow_succ_r' in Hfuel. lia. }
  assert (Nat.div2 m < length (pair_up t)) as Hm'.
  { rewrite length_pair_up. pose proof (div2_bounds (S (length t))). apply div2_lt. lia. }
  assert (∀ c' p', climb fuel (Nat.div2 m) (Nat.div2 (length t - 1)) c' p' = Some (tree_hash t) →
    pair_up t !! Nat.div2 m = Some c'
    ∨ pair_collision (tree_pairs (S fuel) t) (climb_pairs fuel (Nat.div2 m) (Nat.div2 (length t - 1)) c' p')) as Hup.
  { intros c' p' Hc'. rewrite <-last_half, <-length_pair_up in Hc' |- * by lia.
    rewrite <-(tree_hash_pair_up t) in Hc' by done. destruct (IH _ _ _ _ Hm' Hlen Hc') as [|Hcol]; [by left|right].
    eapply pair_collision_mono; [|done|exact Hcol]. cbn [tree_pairs]. apply list_subseteq_app_r. done. }
  assert (∀ x y x' y' q, (x, y) ∈ level_pairs t → (x', y') ∈ q → H x y = H x' y' →
    (x, y) = (x', y') ∨ pair_collision (tree_pairs (S fuel) t) q) as Hpair.
  { intros x y x' y' q Hin Hin' Heq. destruct (decide ((x, y) = (x', y'))) as [|Hd]; [by left|right].
    exists (x, y), (x', y'). cbn [tree_pairs]. split; [apply elem_of_app; by left|]. done. }
  rewrite climb_step in Hclimb by lia. rewrite climb_pairs_step by lia.
  pose proof (pair_up_lookup t m Hm) as Hlook. destruct (Nat.odd m) eqn:Ho.
  - destruct p as [|s p]; [done|]. destruct m as [|m]; [done|]. replace (S m - 1) with m in Hlook by lia.
    destruct (lookup_lt_is_Some_2 t m ltac:(lia)) as [x Hx]. destruct (lookup_lt_is_Some_2 t (S m) Hm) as [y Hy].
    rewrite Hx, Hy in Hlook. cbn [mbind option_bind] in Hlook. destruct (Hup _ _ Hclimb) as [Hc|Hcol].
    + rewrite Hlook in Hc. injection Hc as Hc. rewrite Hy.
      destruct (Hpair x y s c ((s, c) :: climb_pairs fuel (Nat.div2 (S m)) (Nat.div2 (length t - 1)) (H s c) p))
        as [[= -> ->]|Hcol]; [|by left|done|by left|by right].
      apply level_pairs_elem with m; [done|by rewrite Nat.add_1_r|]. rewrite Nat.odd_succ in Ho.
      by rewrite <-Nat.negb_even, Ho.
    + right. eapply pair_collision_mono; [done| |exact Hcol]. by apply list_subseteq_cons.
  - destruct (Nat.eqb_spec m (length t - 1)) as [Hlast|Hnlast].
    + rewrite (lookup_ge_None_2 t (m + 1)) in Hlook by lia. rewrite <-Hlook. by apply Hup.
    + destruct p as [|s p]; [done|].
      destruct (lookup_lt_is_Some_2 t (m + 1) ltac:(lia)) as [y Hy]. destruct (lookup_lt_is_Some_2 t m Hm) as [x Hx].
      rewrite Hx, Hy in Hlook. cbn [mbind option_bind] in Hlook. destruct (Hup _ _ Hclimb) as [Hc|Hcol].
      * rewrite Hlook in Hc. injection Hc as Hc. rewrite Hx.
        destruct (Hpair x y c s ((c, s) :: climb_pairs fuel (Nat.div2 m) (Nat.div2 (length t - 1)) (H c s) p))
          as [[= -> ->]|Hcol]; [by apply level_pairs_elem with m|by left|done|by left|by right].
      * right. eapply pair_collision_mono; [done| |exact Hcol]. by apply list_subseteq_cons.
Qed.
(** ** The frontier: the complete subtrees of a list, the smallest first *)

Fixpoint peaks_of (fuel : nat) (l : list A) : list (option A) :=
  match l, fuel with
  | [], _ | _, O => []
  | _, S fuel => (if Nat.odd (length l) then last l else None) :: peaks_of fuel (pair_full l)
  end.
Definition peaks (l : list A) : list (option A) := peaks_of (length l) l.

Lemma div2_below n : n ≠ 0 → Nat.div2 n < n.
Proof. intros. apply Nat.lt_div2. lia. Qed.

Lemma peaks_of_fuel f f' l : length l ≤ f → length l ≤ f' → peaks_of f l = peaks_of f' l.
Proof.
  revert f' l; induction f as [|f IH]; intros f' l Hf Hf'; destruct l as [|a l]; [by destruct f'|cbn in Hf; lia|by destruct f'|].
  destruct f' as [|f']; [cbn in Hf'; lia|]. cbn [peaks_of].
  assert (length (pair_full (a :: l)) ≤ length l) as Hle.
  { rewrite length_pair_full. pose proof (div2_below (length (a :: l)) ltac:(done)). cbn [length] in *. lia. }
  cbn [length] in Hf, Hf'. f_equal. apply IH; lia.
Qed.

Lemma peaks_cons l :
  l ≠ [] → peaks l = (if Nat.odd (length l) then last l else None) :: peaks (pair_full l).
Proof.
  intros Hne. unfold peaks. assert (length (pair_full l) < length l) as Hlt.
  { rewrite length_pair_full. apply div2_below. by destruct l. }
  destruct (length l) as [|n] eqn:Hn; [by destruct l|]. destruct l as [|a l]; [done|].
  cbn [peaks_of]. rewrite Hn. f_equal. apply peaks_of_fuel; lia.
Qed.

Lemma odd_last (l : list A) : Nat.odd (length l) = true → ∃ l' a, l = l' ++ [a] ∧ last l = Some a ∧ Nat.odd (length l') = false.
Proof.
  destruct l as [|a l' _] using rev_ind; [done|]. intros Ho. exists l', a. split; [done|]. split; [by rewrite last_snoc|].
  rewrite length_app, Nat.add_1_r, Nat.odd_succ in Ho. by rewrite <-Nat.negb_even, Ho.
Qed.

Lemma pair_snoc l r :
  pair_up (l ++ [r])
  = (if Nat.odd (length l) then pair_full (l ++ [r]) else pair_full l ++ [r])
  ∧ pair_full (l ++ [r])
  = (if Nat.odd (length l) then pair_full l ++ [match last l with Some a => H a r | None => r end] else pair_full l).
Proof.
  induction l as [|a|a b l [IH1 IH2]] using list_pair_ind; [done|done|]. cbn [app pair_up pair_full].
  rewrite IH1, IH2. change (Nat.odd (length (a :: b :: l))) with (Nat.odd (length l)).
  destruct (Nat.odd (length l)) eqn:Ho; [|done].
  destruct (odd_last l Ho) as (l' & x & -> & Hx & _). rewrite Hx. change (a :: b :: l' ++ [x]) with ((a :: b :: l') ++ [x]).
  by rewrite last_snoc.
Qed.

Lemma pair_up_full l : Nat.odd (length l) = false → pair_up l = pair_full l.
Proof. induction l as [|a|a b l IH] using list_pair_ind; intros Ho; [done|done|]. cbn. by rewrite IH. Qed.

(** The carry of an append. *)
Fixpoint carry_up (x : A) (f : list (option A)) : list (option A) :=
  match f with
  | [] => [Some x]
  | None :: f => Some x :: f
  | Some a :: f => None :: carry_up (H a x) f
  end.

Lemma length_ind {B} (P : list B → Prop) :
  (∀ l, (∀ k, length k < length l → P k) → P l) → ∀ l, P l.
Proof. intros Hstep l. induction l using (well_founded_induction (well_founded_ltof _ (@length B))). auto. Qed.

Lemma pair_full_shorter l : l ≠ [] → length (pair_full l) < length l.
Proof. intros. rewrite length_pair_full. apply div2_below. by destruct l. Qed.

Lemma peaks_snoc l x : peaks (l ++ [x]) = carry_up x (peaks l).
Proof.
  revert x; induction l as [l IH] using length_ind; intros x. destruct (decide (l = [])) as [->|Hne]; [done|].
  rewrite (peaks_cons (l ++ [x])), (peaks_cons l) by (done || by destruct l).
  destruct (pair_snoc l x) as [_ ->]. rewrite last_snoc, length_app, Nat.add_1_r, Nat.odd_succ, <-Nat.negb_odd.
  destruct (Nat.odd (length l)) eqn:Ho; [|done]. destruct (odd_last l Ho) as (l' & a & _ & -> & _).
  cbn [negb carry_up]. f_equal. by apply IH, pair_full_shorter.
Qed.

(** The hash of a frontier, folded from the smallest subtree to the largest. *)
Definition fold_peaks (acc : option A) (f : list (option A)) : option A :=
  fold_left (λ acc v, match v with
                      | None => acc
                      | Some next => Some (match acc with None => next | Some r => H next r end)
                      end) f acc.

Lemma fold_peaks_hash l :
  (l ≠ [] → fold_peaks None (peaks l) = Some (tree_hash l))
  ∧ ∀ r, fold_peaks (Some r) (peaks l) = Some (tree_hash (l ++ [r])).
Proof.
  induction l as [l IH] using length_ind. destruct (decide (l = [])) as [->|Hne]; [done|].
  rewrite peaks_cons by done. destruct (IH (pair_full l) (pair_full_shorter l Hne)) as [IH1 IH2].
  unfold fold_peaks in *. cbn [fold_left]. destruct (Nat.odd (length l)) eqn:Ho.
  - destruct (odd_last l Ho) as (l' & a & El & Hlast & Hl'). rewrite Hlast. split.
    + intros _. rewrite IH2. f_equal. rewrite <-(tree_hash_pair_up l) by done.
      destruct (pair_snoc l' a) as [Hup Hfull]. rewrite El, Hup, Hfull, Hl'. done.
    + intros r. rewrite IH2. f_equal. rewrite <-(tree_hash_pair_up (l ++ [r])) by (by destruct l).
      destruct (pair_snoc l r) as [Hup Hfull]. by rewrite Hup, Ho, Hfull, Ho, Hlast.
  - split.
    + intros _. rewrite IH1.
      * f_equal. by rewrite <-(tree_hash_pair_up l), (pair_up_full l) by done.
      * intros Hn%(f_equal length). rewrite length_pair_full in Hn. cbn in Hn.
        destruct l as [|a [|b l]]; [done|done|discriminate].
    + intros r. rewrite IH2. f_equal. rewrite <-(tree_hash_pair_up (l ++ [r])) by (by destruct l).
      destruct (pair_snoc l r) as [Hup _]. by rewrite Hup, Ho.
Qed.
(** ** Stored nodes: the complete subtrees of every level *)

Fixpoint nodes_at (lvl : nat) (l : list A) : list A :=
  match lvl with O => l | S lvl => nodes_at lvl (pair_full l) end.

Lemma length_nodes_at lvl l : length (nodes_at lvl l) = length l / 2 ^ lvl.
Proof.
  revert l; induction lvl as [|lvl IH]; intros l; cbn [nodes_at]; [by rewrite Nat.pow_0_r, Nat.div_1_r|].
  rewrite IH, length_pair_full, Nat.div2_div, Nat.pow_succ_r', Nat.Div0.div_div. done.
Qed.

(** A stored node is the hash of its range. *)
Lemma nodes_at_hash lvl l i d :
  nodes_at lvl l !! i = Some d → d = tree_hash (take (2 ^ lvl) (drop (i * 2 ^ lvl) l)).
Proof.
  revert l d; induction lvl as [|lvl IH]; intros l d Hd.
  - cbn [nodes_at] in Hd. rewrite Nat.pow_0_r, Nat.mul_1_r, (drop_S _ _ _ Hd). done.
  - pose proof (lookup_lt_Some _ _ _ Hd) as Hi. rewrite length_nodes_at in Hi.
    cbn [nodes_at] in Hd. rewrite (IH _ _ Hd).
    rewrite Nat.pow_succ_r'. replace (i * (2 * 2 ^ lvl)) with (2 * (i * 2 ^ lvl)) by lia.
    rewrite <-pair_full_drop, <-pair_full_take. pose proof (Nat.pow_nonzero 2 lvl ltac:(lia)).
    set (r := take (2 * 2 ^ lvl) (drop (2 * (i * 2 ^ lvl)) l)).
    assert (length r = 2 * 2 ^ lvl) as Hr.
    { subst r. rewrite length_take, length_drop.
      assert ((i + 1) * 2 ^ S lvl ≤ length l) as Hle.
      { rewrite Nat.mul_comm. etransitivity; [|apply (Nat.Div0.mul_div_le _ (2 ^ S lvl))].
        apply Nat.mul_le_mono_l. lia. }
      rewrite Nat.pow_succ_r' in Hle. lia. }
    rewrite <-pair_up_full, tree_hash_pair_up; [done| |].
    + intros Hn. rewrite Hn in Hr. cbn [length] in Hr. lia.
    + rewrite Hr, Nat.odd_mul. done.
Qed.

(** The nodes an append completes, the leaf first. *)
Fixpoint carry_nodes (lvl i : nat) (x : A) (f : list (option A)) : list (nat * nat * A) :=
  (lvl, i, x) :: match f with Some a :: f => carry_nodes (S lvl) (Nat.div2 i) (H a x) f | _ => [] end.

Lemma carry_nodes_level lvl i x f k j d : (k, j, d) ∈ carry_nodes lvl i x f → lvl ≤ k.
Proof.
  revert lvl i x; induction f as [|[a|] f IH]; intros lvl i x; cbn [carry_nodes];
    intros [[= -> -> ->]|Hin]%elem_of_cons; try done; try (by apply not_elem_of_nil in Hin). apply IH in Hin. lia.
Qed.

(** An append adds exactly the nodes it completes. *)
Lemma nodes_at_snoc b lvl l x i d :
  nodes_at lvl (l ++ [x]) !! i = Some d ↔
  nodes_at lvl l !! i = Some d ∨ (b + lvl, i, d) ∈ carry_nodes b (length l) x (peaks l).
Proof.
  revert b lvl x i d; induction l as [l IH] using length_ind; intros b lvl x i d.
  assert (∀ rest, (∀ k j d, (k, j, d) ∈ rest → S b ≤ k) →
    (l ++ [x]) !! i = Some d ↔ l !! i = Some d ∨ (b + 0, i, d) ∈ (b, length l, x) :: rest) as Hleaf.
  { intros rest Hrest. rewrite Nat.add_0_r, elem_of_cons, lookup_snoc_Some. split.
    - intros [[_ Hd]|[-> ->]]; [by left|right; by left].
    - intros [Hd|[[= -> ->]|Hin]]; [left|by right|apply Hrest in Hin; lia].
      split; [|done]. by eapply lookup_lt_Some. }
  destruct (Nat.odd (length l)) eqn:Ho.
  - assert (l ≠ []) as Hne by (by intros ->). rewrite peaks_cons, Ho by done.
    destruct (odd_last l Ho) as (l' & a & _ & Hlast & _). rewrite Hlast. cbn [carry_nodes].
    destruct lvl as [|lvl]; cbn [nodes_at].
    + apply Hleaf. intros k j d'. apply carry_nodes_level.
    + destruct (pair_snoc l x) as [_ ->]. rewrite Ho, Hlast.
      rewrite (IH (pair_full l) (pair_full_shorter l Hne) (S b)), elem_of_cons, length_pair_full.
      replace (S b + lvl) with (b + S lvl) by lia. split; [naive_solver|].
      intros [Hl|[[= Hb _ _]|Hin]]; [by left|lia|by right].
  - assert (carry_nodes b (length l) x (peaks l) = [(b, length l, x)]) as ->.
    { destruct (decide (l = [])) as [->|Hne]; [done|]. by rewrite peaks_cons, Ho. }
    destruct lvl as [|lvl]; cbn [nodes_at]; [apply Hleaf; by intros ??? ?%not_elem_of_nil|].
    destruct (pair_snoc l x) as [_ ->]. rewrite Ho, list_elem_of_singleton. split; [by left|].
    intros [Hl|[= Hb _ _]]; [done|lia].
Qed.

(** The frontier entry of a level is its last node, when their number is odd. *)
Lemma peaks_lookup l k :
  peaks l !! k = if decide (length (nodes_at k l) = 0) then None
                 else Some (if Nat.odd (length (nodes_at k l)) then last (nodes_at k l) else None).
Proof.
  revert l; induction k as [|k IH]; intros l.
  - destruct (decide (l = [])) as [->|Hne]; [done|]. rewrite peaks_cons by done. cbn [nodes_at].
    rewrite decide_False by (by destruct l). done.
  - destruct (decide (l = [])) as [->|Hne].
    + assert (nodes_at (S k) [] = []) as ->; [|done]. clear. cbn. induction k; done.
    + rewrite peaks_cons by done. cbn [nodes_at]. rewrite lookup_cons_ne_0 by done. cbn [pred]. apply IH.
Qed.
(** ** Digests closed under the hash *)

Section Closed.
Context (P : A → Prop) (P_dflt : P dflt) (P_hash : ∀ a b, P (H a b)).

Lemma pair_up_closed l : Forall P l → Forall P (pair_up l).
Proof.
  induction l as [|a|a b l IH] using list_pair_ind; intros Hl; [done|done|].
  apply Forall_cons in Hl as [_ Hl]. apply Forall_cons in Hl as [_ Hl]. constructor; auto.
Qed.
Lemma pair_full_closed l : Forall P l → Forall P (pair_full l).
Proof.
  induction l as [|a|a b l IH] using list_pair_ind; intros Hl; [done|constructor|].
  apply Forall_cons in Hl as [_ Hl]. apply Forall_cons in Hl as [_ Hl]. constructor; auto.
Qed.
Lemma nodes_at_closed lvl l : Forall P l → Forall P (nodes_at lvl l).
Proof. revert l; induction lvl as [|lvl IH]; intros l Hl; [done|]. by apply IH, pair_full_closed. Qed.

Lemma tree_hash_closed l : Forall P l → P (tree_hash l).
Proof.
  intros Hl. destruct l as [|a [|b l]]; [done|by apply Forall_cons in Hl as [? _]|].
  rewrite tree_hash_split by (cbn; lia). apply P_hash.
Qed.

Lemma peaks_closed l : Forall P l → Forall (λ v, match v with Some d => P d | None => True end) (peaks l).
Proof.
  intros Hl. apply Forall_lookup. intros k v. rewrite peaks_lookup. case_decide; [done|]. intros [= <-].
  destruct (Nat.odd (length (nodes_at k l))); [|done]. destruct (last (nodes_at k l)) as [d|] eqn:Hd; [|done].
  pose proof (nodes_at_closed k l Hl) as Hn. rewrite Forall_forall in Hn. apply Hn. by apply last_Some_elem_of in Hd.
Qed.

Lemma tree_path_closed l m : Forall P l → Forall P (tree_path l m).
Proof.
  revert m; induction l as [l IH] using length_ind; intros m Hl.
  destruct (Nat.le_gt_cases (length l) 1) as [Hs|Hs]; [by rewrite tree_path_short|].
  rewrite tree_path_split by lia. destruct (split_at_spec (length l)) as [? ?]; [lia|].
  destruct (m <? split_at (length l)); apply Forall_app; split.
  - apply IH; [rewrite length_take; lia|by apply Forall_take].
  - constructor; [|done]. by apply tree_hash_closed, Forall_drop.
  - apply IH; [rewrite length_drop; lia|by apply Forall_drop].
  - constructor; [|done]. by apply tree_hash_closed, Forall_take.
Qed.

Definition pair_closed (x : A * A) : Prop := P x.1 ∧ P x.2.

Lemma tree_pairs_closed fuel l : Forall P l → Forall pair_closed (tree_pairs fuel l).
Proof.
  revert l; induction fuel as [|fuel IH]; intros l Hl; [constructor|]. cbn [tree_pairs]. apply Forall_app; split.
  - clear IH. induction l as [|a|a b l IH] using list_pair_ind; [constructor|constructor|].
    apply Forall_cons in Hl as [Ha Hl]. apply Forall_cons in Hl as [Hb Hl]. constructor; [by split|auto].
  - by apply IH, pair_up_closed.
Qed.

Lemma climb_pairs_closed fuel m last c p : P c → Forall P p → Forall pair_closed (climb_pairs fuel m last c p).
Proof.
  revert m last c p; induction fuel as [|fuel IH]; intros m last c p Hc Hp; [by destruct last; constructor|].
  destruct last as [|last]; [constructor|]. rewrite climb_pairs_step by done.
  destruct (Nat.odd m); [|destruct (m =? S last)]; [|auto|].
  - destruct p as [|s p]; [constructor|]. apply Forall_cons in Hp as [Hs Hp]. constructor; [by split|auto].
  - destruct p as [|s p]; [constructor|]. apply Forall_cons in Hp as [Hs Hp]. constructor; [by split|auto].
Qed.
End Closed.
End Merkle.
