(* ===== verification/AuthLog.v ===== *)
(** The authenticated append-only log ([rrd-core]: authenticated_log.rs).

    A compact accumulator of an RFC 9162 Merkle tree: appending a leaf carries complete
    subtrees up a frontier, and a reader authenticates one leaf against the root with an
    inclusion path built from stored complete-subtree nodes.

    The reference is the recursive Merkle tree hash of the RFC.  The theorems: the accumulator
    of any sequence of appends has the RFC root and its own validation accepts it; the nodes
    the appends return are exactly the complete subtrees; every leaf has an inclusion proof
    that verifies; a proof that verifies proves its leaf, up to an explicit SHA-256 collision;
    the frontier of a retained prefix is rebuilt from the stored nodes. *)

From S2P Require Import Prelude Machine Ident Digest Merkle.
Open Scope Z_scope.

(** core/authenticated_log.rs:363-367 invalid *)
Definition invalid {T} (reason : string) : result Error T := Err (InvalidRuntime reason).

(** core/authenticated_log.rs:12-12 RUNTIME_LOG_ACCUMULATOR_VERSION *)
Definition RUNTIME_LOG_ACCUMULATOR_VERSION : Z := 1.

(** core/authenticated_log.rs:15-19 RuntimeMerkleNode *)
Record RuntimeMerkleNode := { level : Z; index : Z; node_digest : string }.

(** core/authenticated_log.rs:22-27 RuntimeInclusionProof *)
Record RuntimeInclusionProof := {
  proof_version : Z; proof_tree_size : Z; proof_leaf_index : Z; proof_path : list string
}.

(** core/authenticated_log.rs:82-87 RuntimeLogAccumulator *)
Record RuntimeLogAccumulator := {
  version : Z; tree_size : Z; frontier : list (option string); root : string
}.

(** [u64::leading_zeros]. *)
Definition leading_zeros (v : Z) : Z := if v =? 0 then 64 else 63 - Z.log2 v.

(** core/authenticated_log.rs:326-329 largest_power_of_two_less_than *)
Definition largest_power_of_two_less_than (value : Z) : Z := Z.shiftl 1 (63 - leading_zeros (value - 1)).

(** [u64::is_power_of_two] and [u64::trailing_zeros] of a power of two. *)
Definition is_power_of_two (v : Z) : bool := (0 <? v) && (2 ^ Z.log2 v =? v).
Definition trailing_zeros_pow2 (v : Z) : Z := Z.log2 v.

(** core/authenticated_log.rs:350-352 encode_digest *)
Definition encode_digest (value : list byte) : string := hex value.

(** core/authenticated_log.rs:354-361 parse_digest *)
Definition parse_digest (label value : string) : result Error (list byte) :=
  if negb (str_len value =? 64) then invalid (label +:+ " must be a 64-character SHA-256 digest")
  else ok_or (from_hex value) (InvalidRuntime (label +:+ " must contain lowercase hexadecimal")).

Section AuthLog.
Context `{Sha2}.

(** core/authenticated_log.rs:331-333 empty_root *)
Definition empty_root : list byte := sha256 [].
(** core/authenticated_log.rs:335-340 leaf_hash *)
Definition leaf_hash (input : list byte) : list byte := sha256 (x00 :: input).
(** core/authenticated_log.rs:342-348 node_hash *)
Definition node_hash (left right : list byte) : list byte := sha256 (x01 :: left ++ right).

(** core/authenticated_log.rs:52-55 RuntimeInclusionProof::verify, the inner loop: [fuel]
    bounds the halvings of a 64-bit index. *)
Fixpoint skip_even (fuel : nat) (leaf last : Z) : Z * Z :=
  match fuel with
  | O => (leaf, last)
  | S fuel =>
    if (negb (leaf =? 0) && (Z.land leaf 1 =? 0))%bool
    then skip_even fuel (Z.shiftr leaf 1) (Z.shiftr last 1) else (leaf, last)
  end.

(** core/authenticated_log.rs:44-62 RuntimeInclusionProof::verify, the loop over the path *)
Fixpoint verify_path (path : list string) (computed : list byte) (leaf last : Z)
    : result Error (list byte * Z) :=
  match path with
  | [] => Ok (computed, last)
  | sibling :: path =>
    if last =? 0 then invalid "runtime inclusion proof contains excess path nodes"
    else
      let? sibling := parse_digest "runtime inclusion-proof node" sibling in
      let '(computed, leaf, last) :=
        if ((Z.land leaf 1 =? 1) || (leaf =? last))%bool
        then
          let computed := node_hash sibling computed in
          if Z.land leaf 1 =? 0
          then let '(leaf, last) := skip_even 64 leaf last in (computed, leaf, last)
          else (computed, leaf, last)
        else (node_hash computed sibling, leaf, last) in
      verify_path path computed (Z.shiftr leaf 1) (Z.shiftr last 1)
  end.

(** core/authenticated_log.rs:30-67 RuntimeInclusionProof::verify *)
Definition verify (self : RuntimeInclusionProof) (leaf_input : list byte) (expected_root : string)
    : result Error unit :=
  if negb (proof_version self =? RUNTIME_LOG_ACCUMULATOR_VERSION)
  then invalid ("unsupported runtime inclusion-proof version " +:+ pretty (proof_version self))
  else if ((proof_tree_size self =? 0) || (proof_tree_size self <=? proof_leaf_index self))%bool
  then invalid "runtime inclusion proof names a leaf outside its tree"
  else
    let? expected := parse_digest "runtime accumulator root" expected_root in
    let? (computed, last) := verify_path (proof_path self) (leaf_hash leaf_input)
      (proof_leaf_index self) (proof_tree_size self - 1) in
    if (negb (last =? 0) || negb (bool_decide (computed = expected)))%bool
    then invalid "runtime inclusion proof does not match its accumulator root"
    else Ok tt.

(** core/authenticated_log.rs:96-103 RuntimeLogAccumulator::new *)
Definition RuntimeLogAccumulator_new : RuntimeLogAccumulator :=
  {| version := RUNTIME_LOG_ACCUMULATOR_VERSION; tree_size := 0; frontier := [];
     root := encode_digest empty_root |}.

(** core/authenticated_log.rs:264-274 RuntimeLogAccumulator::frontier_root *)
Definition frontier_root (self : RuntimeLogAccumulator) : result Error (list byte) :=
  let? root := try_fold (λ root value,
      match value with
      | None => Ok root
      | Some value =>
        let? next := parse_digest "runtime accumulator frontier node" value in
        Ok (Some (match root with None => next | Some above => node_hash next above end))
      end) None (frontier self) in
  Ok (match root with Some root => root | None => empty_root end).

Definition is_some {A} (o : option A) : bool := match o with Some _ => true | None => false end.

(** core/authenticated_log.rs:157-168 RuntimeLogAccumulator::validate, the loop over the levels *)
Fixpoint validate_levels (tree_size : Z) (level : nat) (frontier : list (option string)) : result Error unit :=
  match frontier with
  | [] => Ok tt
  | value :: frontier =>
    let expected := negb (Z.land tree_size (Z.shiftl 1 (Z.of_nat level)) =? 0) in
    if negb (Bool.eqb (is_some value) expected)
    then invalid ("runtime accumulator frontier level " +:+ pretty (Z.of_nat level)
                  +:+ " disagrees with tree size " +:+ pretty tree_size)
    else
      do? (match value with
           | Some value => let? _ := parse_digest "runtime accumulator frontier node" value in Ok tt
           | None => Ok tt
           end) in
      validate_levels tree_size (S level) frontier
  end.

(** core/authenticated_log.rs:147-185 RuntimeLogAccumulator::validate *)
Definition validate (self : RuntimeLogAccumulator) : result Error unit :=
  if negb (version self =? RUNTIME_LOG_ACCUMULATOR_VERSION)
  then invalid ("unsupported runtime accumulator version " +:+ pretty (version self))
  else if 64 <? len (frontier self)
  then invalid "runtime accumulator frontier exceeds u64 tree depth"
  else
    do? validate_levels (tree_size self) 0 (frontier self) in
    let required := if tree_size self =? 0 then 0 else 64 - leading_zeros (tree_size self) in
    if negb (len (frontier self) =? required)
    then invalid ("runtime accumulator frontier has " +:+ pretty (len (frontier self))
                  +:+ " levels, expected " +:+ pretty required)
    else
      let? root := parse_digest "runtime accumulator root" (root self) in
      let? expected := frontier_root self in
      if negb (bool_decide (root = expected))
      then invalid "runtime accumulator root disagrees with its frontier" else Ok tt.

(** core/authenticated_log.rs:204-223 RuntimeLogAccumulator::append, the binary carry; [fuel]
    bounds the halvings of a 64-bit index.  The frontier keeps the levels taken so far. *)
Fixpoint carry (fuel : nat) (frontier : list (option string)) (node : list byte) (node_index : Z)
    (lvl : nat) (created : list RuntimeMerkleNode)
    : result Error (list (option string) * list byte * nat * list RuntimeMerkleNode) :=
  match fuel with
  | O => Ok (frontier, node, lvl, created)
  | S fuel =>
    if Z.land node_index 1 =? 1 then
      let? left_text := ok_or (mjoin (frontier !! lvl))
        (InvalidRuntime ("runtime accumulator is missing frontier level " +:+ pretty (Z.of_nat lvl))) in
      let? left_digest := parse_digest "runtime accumulator frontier node" left_text in
      let node := node_hash left_digest node in
      let node_index := Z.shiftr node_index 1 in
      carry fuel (<[lvl := None]> frontier) node node_index (S lvl)
        (created ++ [{| level := Z.of_nat (S lvl); index := node_index; node_digest := encode_digest node |}])
    else Ok (frontier, node, lvl, created)
  end.

(** [Vec::resize] to a larger length. *)
Definition vec_resize {A} (l : list (option A)) (n : nat) : list (option A) :=
  if (length l <? n)%nat then l ++ replicate (n - length l) None else l.

(** core/authenticated_log.rs:189-232 RuntimeLogAccumulator::append; the model returns
    the accumulator only when the append succeeds. *)
Definition append (self : RuntimeLogAccumulator) (leaf_input : list byte)
    : result Error (RuntimeLogAccumulator * list RuntimeMerkleNode) :=
  do? validate self in
  if tree_size self =? u64_max then invalid "runtime accumulator tree size overflow"
  else
    let leaf_index := tree_size self in
    let node := leaf_hash leaf_input in
    let? (taken, node, lvl, created) := carry 65 (frontier self) node leaf_index 0
      [{| level := 0; index := leaf_index; node_digest := encode_digest node |}] in
    let grown := {| version := version self; tree_size := tree_size self + 1;
                    frontier := <[lvl := Some (encode_digest node)]> (vec_resize taken (S lvl));
                    root := root self |} in
    let? new_root := frontier_root grown in
    let next := {| version := version grown; tree_size := tree_size grown; frontier := frontier grown;
                   root := encode_digest new_root |} in
    do? validate next in
    Ok (next, created).

(** Where the stored nodes are read from: the closure [node_at] of the callers. *)
Definition node_source : Type := Z → Z → result Error (option string).

(** core/authenticated_log.rs:301-324 range_hash; [fuel] bounds the recursion, whose range at
    least halves. *)
Fixpoint range_hash (fuel : nat) (start size : Z) (node_at : node_source) : result Error string :=
  if is_power_of_two size then
    let level := trailing_zeros_pow2 size in
    let index := start / size in
    let? found := node_at level index in
    let? value := ok_or found (InvalidRuntime ("runtime accumulator is missing node at level "
      +:+ pretty level +:+ ", index " +:+ pretty index)) in
    do? parse_digest "runtime accumulator node" value in
    Ok value
  else
    match fuel with
    | O => invalid "unreachable"
    | S fuel =>
      let split := largest_power_of_two_less_than size in
      let? left_text := range_hash fuel start split node_at in
      let? left_digest := parse_digest "runtime accumulator node" left_text in
      let? right_text := range_hash fuel (start + split) (size - split) node_at in
      let? right_digest := parse_digest "runtime accumulator node" right_text in
      Ok (encode_digest (node_hash left_digest right_digest))
    end.

(** core/authenticated_log.rs:277-299 build_path; the path is returned in the order it is
    pushed. *)
Fixpoint build_path (fuel : nat) (start size leaf_index : Z) (node_at : node_source)
    : result Error (list string) :=
  if size =? 1 then Ok []
  else
    match fuel with
    | O => invalid "unreachable"
    | S fuel =>
      let split := largest_power_of_two_less_than size in
      if leaf_index <? start + split then
        let? path := build_path fuel start split leaf_index node_at in
        let? sibling := range_hash 65 (start + split) (size - split) node_at in
        Ok (path ++ [sibling])
      else
        let? path := build_path fuel (start + split) (size - split) leaf_index node_at in
        let? sibling := range_hash 65 start split node_at in
        Ok (path ++ [sibling])
    end.

(** core/authenticated_log.rs:242-262 RuntimeLogAccumulator::inclusion_proof *)
Definition inclusion_proof (self : RuntimeLogAccumulator) (leaf_index : Z) (node_at : node_source)
    : result Error RuntimeInclusionProof :=
  do? validate self in
  if tree_size self <=? leaf_index then invalid "runtime inclusion proof names a leaf outside its tree"
  else
    let? path := build_path 65 0 (tree_size self) leaf_index node_at in
    Ok {| proof_version := RUNTIME_LOG_ACCUMULATOR_VERSION; proof_tree_size := tree_size self;
          proof_leaf_index := leaf_index; proof_path := path |}.

(** core/authenticated_log.rs:123-136 RuntimeLogAccumulator::from_nodes, the loop over the
    levels, highest first; [n] levels remain *)
Fixpoint collect_frontier (n : nat) (tree_size start : Z) (node_at : node_source)
    (frontier : list (option string)) : result Error (list (option string)) :=
  match n with
  | O => Ok frontier
  | S lvl =>
    if Z.land tree_size (Z.shiftl 1 (Z.of_nat lvl)) =? 0
    then collect_frontier lvl tree_size start node_at frontier
    else
      let index := Z.shiftr start (Z.of_nat lvl) in
      let? found := node_at (Z.of_nat lvl) index in
      let? value := ok_or found (InvalidRuntime ("runtime accumulator is missing frontier node at level "
        +:+ pretty (Z.of_nat lvl) +:+ ", index " +:+ pretty index)) in
      do? parse_digest "runtime accumulator frontier node" value in
      collect_frontier lvl tree_size (start + Z.shiftl 1 (Z.of_nat lvl)) node_at (<[lvl := Some value]> frontier)
  end.

(** core/authenticated_log.rs:108-145 RuntimeLogAccumulator::from_nodes *)
Definition from_nodes (size : Z) (expected_root : string) (node_at : node_source)
    : result Error RuntimeLogAccumulator :=
  do? parse_digest "runtime accumulator root" expected_root in
  if size =? 0 then
    if negb (bool_decide (root RuntimeLogAccumulator_new = expected_root))
    then invalid "empty runtime accumulator root does not match" else Ok RuntimeLogAccumulator_new
  else
    let levels := Z.to_nat (64 - leading_zeros size) in
    let? collected := collect_frontier levels size 0 node_at (replicate levels None) in
    let accumulator := {| version := RUNTIME_LOG_ACCUMULATOR_VERSION; tree_size := size;
                          frontier := collected; root := expected_root |} in
    do? validate accumulator in
    Ok accumulator.
End AuthLog.

(** * The accumulator of a log *)

Section Accumulator.
Context `{Sha2Laws}.

(** The RFC 9162 root of a list of leaf inputs. *)
Definition leaves (log : list (list byte)) : list (list byte) := map leaf_hash log.
Definition log_root (log : list (list byte)) : list byte := tree_hash node_hash empty_root (leaves log).

Definition is_digest (d : list byte) : Prop := length d = 32%nat.

Lemma node_hash_digest a b : is_digest (node_hash a b).
Proof. apply length_sha256. Qed.
Lemma empty_root_digest : is_digest empty_root.
Proof. apply length_sha256. Qed.
Lemma leaves_digest log : Forall is_digest (leaves log).
Proof. apply Forall_map, Forall_true. intros. apply length_sha256. Qed.
Lemma log_root_digest log : is_digest (log_root log).
Proof.
  unfold log_root. apply (tree_hash_closed node_hash empty_root is_digest empty_root_digest node_hash_digest), leaves_digest.
Qed.

Lemma parse_hex label d : is_digest d → parse_digest label (hex d) = Ok d.
Proof.
  intros Hd. unfold parse_digest. rewrite str_len_hex. unfold len. rewrite Hd. cbn [negb].
  change (2 * Z.of_nat 32 =? 64) with true. cbn [negb]. by rewrite from_hex_hex.
Qed.

Lemma parse_inv label s d : parse_digest label s = Ok d → is_digest d ∧ s = hex d.
Proof.
  unfold parse_digest. destruct (negb _); [done|]. destruct (from_hex s) eqn:E; [|done]. intros [= <-].
  by apply from_hex_Some in E.
Qed.

Definition hex_peaks (f : list (option (list byte))) : list (option string) := map (fmap hex) f.
Definition peak_ok (v : option (list byte)) : Prop := match v with Some d => is_digest d | None => True end.
Definition log_peaks (log : list (list byte)) := peaks node_hash (leaves log).

Lemma log_peaks_ok log : Forall peak_ok (log_peaks log).
Proof. exact (peaks_closed node_hash is_digest node_hash_digest _ (leaves_digest log)). Qed.

(** The accumulator the code keeps for a log. *)
Definition acc_of (log : list (list byte)) : RuntimeLogAccumulator :=
  {| version := RUNTIME_LOG_ACCUMULATOR_VERSION; tree_size := len log;
     frontier := hex_peaks (log_peaks log); root := hex (log_root log) |}.

Lemma frontier_root_peaks acc f :
  frontier acc = hex_peaks f → Forall peak_ok f →
  frontier_root acc = Ok (default empty_root (fold_peaks node_hash None f)).
Proof.
  intros Hacc Hf. unfold frontier_root. rewrite Hacc. clear Hacc. set (step := λ _ _, _).
  enough (∀ o, try_fold step o (hex_peaks f) = Ok (fold_peaks node_hash o f)) as ->; [by destruct (fold_peaks _ _ _)|].
  unfold fold_peaks, hex_peaks. induction Hf as [|v f Hv _ IH]; intros o; [done|]. cbn [map try_fold fold_left].
  destruct v as [d|]; cbn [fmap option_fmap option_map step]; [|apply IH]. subst step. cbv beta. rewrite parse_hex by done. apply IH.
Qed.

Lemma log_root_peaks log : default empty_root (fold_peaks node_hash None (log_peaks log)) = log_root log.
Proof.
  unfold log_peaks, log_root. destruct (decide (leaves log = [])) as [->|Hne]; [done|].
  by rewrite (proj1 (fold_peaks_hash node_hash empty_root (leaves log)) Hne).
Qed.

Lemma length_leaves log : length (leaves log) = length log.
Proof. apply length_map. Qed.

(** A level of the frontier is populated exactly when its bit of the size is set. *)
Lemma log_peaks_bits log k :
  log_peaks log !! k = (if decide (Z.shiftr (len log) (Z.of_nat k) = 0) then None
    else Some (if Z.testbit (len log) (Z.of_nat k) then last (nodes_at node_hash k (leaves log)) else None))
  ∧ (Z.testbit (len log) (Z.of_nat k) = true → is_Some (last (nodes_at node_hash k (leaves log)))).
Proof.
  assert (Z.of_nat (length (nodes_at node_hash k (leaves log))) = Z.shiftr (len log) (Z.of_nat k)) as Hlen.
  { rewrite length_nodes_at, length_leaves, Nat2Z.inj_div, Z.shiftr_div_pow2, Nat2Z.inj_pow by lia. done. }
  assert (Z.testbit (len log) (Z.of_nat k) = Nat.odd (length (nodes_at node_hash k (leaves log)))) as Hbit.
  { rewrite Z.testbit_odd, <-Hlen. clear. induction (length _) as [|n IH]; [done|].
    rewrite Nat2Z.inj_succ, Z.odd_succ, Nat.odd_succ, <-Z.negb_odd, <-Nat.negb_odd, IH. done. }
  split.
  - unfold log_peaks. rewrite peaks_lookup, Hbit. repeat case_decide; try done; lia.
  - rewrite Hbit. intros (l' & a & _ & -> & _)%odd_last. by eexists.
Qed.

Lemma land_bit n k : 0 ≤ n → 0 ≤ k → negb (Z.land n (Z.shiftl 1 k) =? 0) = Z.testbit n k.
Proof.
  intros Hn Hk. rewrite Z.shiftl_mul_pow2, Z.mul_1_l by done.
  assert (Z.land n (2 ^ k) = if Z.testbit n k then 2 ^ k else 0) as ->.
  { apply Z.bits_inj'. intros i Hi. rewrite Z.land_spec, Z.pow2_bits_eqb by done.
    destruct (Z.eqb_spec k i) as [->|Hne].
    - rewrite andb_true_r. destruct (Z.testbit n i) eqn:E; [by rewrite Z.pow2_bits_true|by rewrite Z.bits_0].
    - rewrite andb_false_r. destruct (Z.testbit n k); [by rewrite Z.pow2_bits_false by lia|by rewrite Z.bits_0]. }
  destruct (Z.testbit n k); [|done]. pose proof (Z.pow_pos_nonneg 2 k ltac:(lia) Hk).
  by rewrite (proj2 (Z.eqb_neq _ _)) by lia.
Qed.

Lemma validate_levels_ok log f k :
  drop k (log_peaks log) = f → Forall peak_ok f → validate_levels (len log) k (hex_peaks f) = Ok tt.
Proof.
  intros Hdrop Hf. revert k Hdrop; induction Hf as [|v f Hv _ IH]; intros k Hdrop; [done|].
  assert (log_peaks log !! k = Some v) as Hk by (rewrite <-(Nat.add_0_r k), <-lookup_drop, Hdrop; done).
  assert (drop (S k) (log_peaks log) = f) as Hdrop'.
  { apply (f_equal (drop 1)) in Hdrop. rewrite drop_drop in Hdrop. rewrite Nat.add_1_r in Hdrop. done. }
  destruct (log_peaks_bits log k) as [Hbits Hsome]. rewrite Hbits in Hk. case_decide; [done|]. injection Hk as Hk.
  cbn [hex_peaks map validate_levels]. fold (hex_peaks f). rewrite land_bit by (unfold len; lia).
  assert (is_some (hex <$> v) = Z.testbit (len log) (Z.of_nat k)) as ->.
  { subst v. destruct (Z.testbit (len log) (Z.of_nat k)); [|done]. by destruct (Hsome eq_refl) as [d ->]. }
  rewrite Bool.eqb_reflx. cbn [negb]. destruct v as [d|]; cbn [fmap option_fmap option_map]; [|by apply IH].
  rewrite parse_hex by done. by apply IH.
Qed.

Lemma length_log_peaks log : len (log_peaks log) = if len log =? 0 then 0 else 1 + Z.log2 (len log).
Proof.
  assert (∀ k, log_peaks log !! k = None ↔ Z.shiftr (len log) (Z.of_nat k) = 0) as Hnone.
  { intros k. destruct (log_peaks_bits log k) as [-> _]. case_decide; naive_solver. }
  pose proof (len_nonneg log) as Hn. unfold len at 1. destruct (Z.eqb_spec (len log) 0) as [Hz|Hz].
  - assert (log_peaks log !! 0%nat = None) as Hl by (apply Hnone; by rewrite Hz). apply lookup_ge_None in Hl. lia.
  - pose proof (Z.log2_nonneg (len log)).
    assert (log_peaks log !! Z.to_nat (1 + Z.log2 (len log)) = None) as Hhi.
    { apply Hnone. rewrite Z2Nat.id, Z.shiftr_eq_0_iff by lia. right. lia. }
    assert (log_peaks log !! Z.to_nat (Z.log2 (len log)) ≠ None) as Hlo.
    { intros Hl%Hnone. rewrite Z2Nat.id, Z.shiftr_eq_0_iff in Hl by lia. lia. }
    apply lookup_ge_None in Hhi. rewrite lookup_ge_None in Hlo. lia.
Qed.

Lemma validate_acc log : len log < 2 ^ 64 → validate (acc_of log) = Ok tt.
Proof.
  intros Hn. pose proof (len_nonneg log). pose proof (length_log_peaks log) as Hlen.
  assert (len (hex_peaks (log_peaks log)) = len (log_peaks log)) as Hmap by (unfold len, hex_peaks; by rewrite length_map).
  unfold validate, acc_of; cbn [version frontier tree_size root]. rewrite Hmap, Hlen. cbn [negb].
  change (RUNTIME_LOG_ACCUMULATOR_VERSION =? RUNTIME_LOG_ACCUMULATOR_VERSION) with true. cbn [negb].
  assert ((64 <? if len log =? 0 then 0 else 1 + Z.log2 (len log)) = false) as ->.
  { apply Z.ltb_ge. destruct (Z.eqb_spec (len log) 0); [lia|]. enough (Z.log2 (len log) < 64) by lia.
    apply Z.log2_lt_pow2; lia. }
  rewrite (validate_levels_ok log (log_peaks log) 0); [|done|apply log_peaks_ok].
  assert ((if len log =? 0 then 0 else 64 - leading_zeros (len log)) = if len log =? 0 then 0 else 1 + Z.log2 (len log)) as ->.
  { unfold leading_zeros. destruct (len log =? 0); lia. }
  rewrite Z.eqb_refl. cbn [negb]. rewrite parse_hex by apply log_root_digest.
  rewrite (frontier_root_peaks _ (log_peaks log)); [|done|apply log_peaks_ok]. rewrite log_root_peaks.
  by rewrite bool_decide_eq_true_2.
Qed.
(** ** Appending *)

Lemma land_1 n : Z.land (Z.of_nat n) 1 = if Nat.odd n then 1 else 0.
Proof.
  change 1 with (Z.ones 1) at 1. rewrite Z.land_ones by lia. change (2 ^ 1) with 2.
  rewrite Zmod_odd. assert (Z.odd (Z.of_nat n) = Nat.odd n) as ->; [|done].
  induction n as [|n IH]; [done|]. by rewrite Nat2Z.inj_succ, Z.odd_succ, Nat.odd_succ, <-Z.negb_odd, <-Nat.negb_odd, IH.
Qed.
Lemma shiftr_1 n : Z.shiftr (Z.of_nat n) 1 = Z.of_nat (Nat.div2 n).
Proof. rewrite Z.shiftr_div_pow2 by lia. change (2 ^ 1) with (Z.of_nat 2). by rewrite Nat.div2_div, Nat2Z.inj_div. Qed.

Definition stored_node (n : nat * nat * list byte) : RuntimeMerkleNode :=
  let '(lvl, i, d) := n in {| level := Z.of_nat lvl; index := Z.of_nat i; node_digest := hex d |}.

Lemma resize_set (pre : list (option string)) v : <[length pre := Some v]> (vec_resize pre (S (length pre))) = pre ++ [Some v].
Proof.
  unfold vec_resize. rewrite (proj2 (Nat.ltb_lt _ _)) by lia. replace (S (length pre) - length pre)%nat with 1%nat by lia.
  by rewrite insert_app_r_alt, Nat.sub_diag by lia.
Qed.

(** The loop of [append] is the binary carry on the frontier. *)
Lemma carry_spec fuel pre l x created :
  Forall is_digest l → is_digest x → (length l < 2 ^ fuel)%nat →
  ∃ taken node lvl,
    carry fuel (pre ++ hex_peaks (peaks node_hash l)) x (Z.of_nat (length l)) (length pre) created
    = Ok (taken, node, lvl,
          created ++ map stored_node (tail (carry_nodes node_hash (length pre) (length l) x (peaks node_hash l))))
    ∧ <[lvl := Some (hex node)]> (vec_resize taken (S lvl))
      = pre ++ hex_peaks (carry_up node_hash x (peaks node_hash l)).
Proof.
  revert pre l x created; induction fuel as [|fuel IH]; intros pre l x created Hl Hx Hfuel.
  { destruct l; [|cbn in Hfuel; lia]. exists (pre ++ []), x, (length pre). split; [cbn; by rewrite !app_nil_r|].
    rewrite app_nil_r. apply resize_set. }
  cbn [carry]. rewrite land_1. destruct (Nat.odd (length l)) eqn:Ho.
  - assert (l ≠ []) as Hne by (by intros ->). destruct (odd_last l Ho) as (l' & a & El & Hlast & _).
    rewrite (peaks_cons node_hash l Hne), Ho, Hlast. cbn [hex_peaks map fmap option_fmap option_map]. fold (hex_peaks (peaks node_hash (pair_full node_hash l))).
    assert (is_digest a) as Ha by (subst l; by apply Forall_app in Hl as [_ [? _]%Forall_cons]).
    change (1 =? 1) with true. cbv iota. rewrite list_lookup_middle by done. cbn [mjoin option_join ok_or].
    rewrite parse_hex, shiftr_1 by done.
    replace (<[length pre := None]> (pre ++ Some (hex a) :: hex_peaks (peaks node_hash (pair_full node_hash l))))
      with ((pre ++ [None]) ++ hex_peaks (peaks node_hash (pair_full node_hash l)))
      by (rewrite insert_app_r_alt, Nat.sub_diag, <-app_assoc by lia; done).
    rewrite <-(length_pair_full node_hash l). set (f := peaks node_hash (pair_full node_hash l)).
    replace (S (length pre)) with (length (pre ++ [None : option string])) by (rewrite length_app; cbn; lia).
    destruct (IH (pre ++ [None]) (pair_full node_hash l) (node_hash a x)
      (created ++ [{| level := Z.of_nat (length (pre ++ [None : option string]));
                      index := Z.of_nat (length (pair_full node_hash l)); node_digest := encode_digest (node_hash a x) |}]))
      as (taken & node & lvl & Hcarry & Hins).
    { apply pair_full_closed; [exact node_hash_digest|done]. }
    { apply node_hash_digest. }
    { rewrite length_pair_full. rewrite Nat.pow_succ_r' in Hfuel. pose proof (div2_bounds (length l)). lia. }
    exists taken, node, lvl. fold f in Hcarry, Hins. rewrite Hcarry, Hins. cbn [carry_nodes tail carry_up].
    rewrite <-(length_pair_full node_hash l). split.
    + f_equal. f_equal. rewrite <-app_assoc. f_equal. cbn [app].
      replace (S (length pre)) with (length (pre ++ [None : option string])) by (rewrite length_app; cbn; lia).
      destruct f as [|[b|] f']; reflexivity.
    + rewrite <-app_assoc. reflexivity.
  - change (0 =? 1) with false. cbv iota. eexists _, _, _. split.
    + f_equal. f_equal. rewrite <-(app_nil_r created) at 1. f_equal.
      destruct (decide (l = [])) as [->|Hne]; [done|]. by rewrite peaks_cons, Ho by done.
    + destruct (decide (l = [])) as [->|Hne].
      * change (hex_peaks (peaks node_hash [])) with (@nil (option string)). rewrite app_nil_r. apply resize_set.
      * unfold vec_resize. rewrite peaks_cons, Ho by done. rewrite (proj2 (Nat.ltb_ge _ _)) by (rewrite length_app; cbn; lia).
        by rewrite insert_app_r_alt, Nat.sub_diag.
Qed.

Lemma log_snoc log x : leaves (log ++ [x]) = leaves log ++ [leaf_hash x].
Proof. apply map_app. Qed.

Lemma append_acc log x :
  len log < u64_max →
  append (acc_of log) x
  = Ok (acc_of (log ++ [x]),
        map stored_node (carry_nodes node_hash 0 (length log) (leaf_hash x) (log_peaks log))).
Proof.
  intros Hn. unfold u64_max in Hn. unfold append. rewrite validate_acc by lia.
  cbn [tree_size acc_of frontier version root]. rewrite (proj2 (Z.eqb_neq _ _)) by (unfold u64_max; lia).
  destruct (carry_spec 65 [] (leaves log) (leaf_hash x)
    [{| level := 0; index := len log; node_digest := encode_digest (leaf_hash x) |}])
    as (taken & node & lvl & Hcarry & Hins).
  { apply leaves_digest. }
  { apply length_sha256. }
  { rewrite length_leaves. apply Nat2Z.inj_lt. rewrite Nat2Z.inj_pow. unfold len in Hn.
    change (Z.of_nat 2 ^ Z.of_nat 65) with (2 ^ 65). lia. }
  rewrite length_leaves in Hcarry. cbn [app length] in Hcarry. fold (log_peaks log) in Hcarry, Hins.
  change (Z.of_nat (length log)) with (len log) in Hcarry. rewrite Hcarry. unfold encode_digest. rewrite Hins. cbn [app].
  assert (carry_up node_hash (leaf_hash x) (log_peaks log) = log_peaks (log ++ [x])) as ->.
  { unfold log_peaks. rewrite log_snoc. symmetry. apply peaks_snoc. }
  rewrite (frontier_root_peaks _ (log_peaks (log ++ [x]))); [|done|apply log_peaks_ok]. rewrite log_root_peaks.
  cbn [version tree_size frontier].
  assert (len log + 1 = len (log ++ [x])) as -> by (rewrite len_app; done).
  fold (acc_of (log ++ [x])). change {| version := _; tree_size := len (log ++ [x]); frontier := _; root := _ |} with (acc_of (log ++ [x])).
  rewrite validate_acc by (rewrite len_app; change (len [x]) with 1; lia). f_equal. f_equal.
  destruct (log_peaks log) as [|[b|] f]; reflexivity.
Qed.
(** ** Inclusion proofs *)

Lemma log2_nat k : (k ≠ 0)%nat → Z.log2 (Z.of_nat k) = Z.of_nat (Nat.log2 k).
Proof.
  intros Hk. pose proof (Nat.log2_spec k ltac:(lia)) as [Hlo Hhi]. apply Z.log2_unique; [lia|].
  apply Nat2Z.inj_le in Hlo. apply Nat2Z.inj_lt in Hhi. rewrite Nat2Z.inj_pow in Hlo, Hhi.
  rewrite (Nat2Z.inj_succ (Nat.log2 k)) in Hhi. split; [exact Hlo|exact Hhi].
Qed.

Lemma split_nat n : (2 ≤ n)%nat → largest_power_of_two_less_than (Z.of_nat n) = Z.of_nat (split_at n).
Proof.
  intros Hn. unfold largest_power_of_two_less_than, leading_zeros. rewrite (proj2 (Z.eqb_neq _ _)) by lia.
  replace (Z.of_nat n - 1) with (Z.of_nat (n - 1)) by lia. rewrite log2_nat by lia.
  replace (63 - (63 - Z.of_nat (Nat.log2 (n - 1)))) with (Z.of_nat (Nat.log2 (n - 1))) by lia.
  rewrite Z.shiftl_mul_pow2, Z.mul_1_l by lia. unfold split_at. by rewrite Nat2Z.inj_pow.
Qed.

Lemma power_of_two_nat n :
  (n ≠ 0)%nat → is_power_of_two (Z.of_nat n) = true ∧ n = (2 ^ Nat.log2 n)%nat
    ∧ trailing_zeros_pow2 (Z.of_nat n) = Z.of_nat (Nat.log2 n)
  ∨ is_power_of_two (Z.of_nat n) = false ∧ (3 ≤ n)%nat.
Proof.
  intros Hn. unfold is_power_of_two, trailing_zeros_pow2. rewrite log2_nat by done.
  rewrite (proj2 (Z.ltb_lt _ _)) by lia. cbn [andb].
  change 2 with (Z.of_nat 2) at 1 2. rewrite <-Nat2Z.inj_pow.
  destruct (Z.eqb_spec (Z.of_nat (2 ^ Nat.log2 n)) (Z.of_nat n)) as [He|He].
  - left. apply Nat2Z.inj in He. done.
  - right. split; [done|]. destruct n as [|[|[|n]]]; [done|done|done|lia].
Qed.

(** The stored nodes a proof reads: every complete subtree of the log. *)
Definition serves (node_at : node_source) (L : list (list byte)) : Prop :=
  ∀ lvl i d, nodes_at node_hash lvl L !! i = Some d →
    node_at (Z.of_nat lvl) (Z.of_nat i) = Ok (Some (hex d)).

Lemma nodes_at_Some lvl i L :
  ((i + 1) * 2 ^ lvl ≤ length L)%nat → is_Some (nodes_at node_hash lvl L !! i).
Proof.
  intros Hle. apply lookup_lt_is_Some. rewrite length_nodes_at. pose proof (Nat.pow_nonzero 2 lvl ltac:(lia)).
  enough (i + 1 ≤ length L / 2 ^ lvl)%nat by lia. apply Nat.div_le_lower_bound; [done|]. by rewrite Nat.mul_comm.
Qed.

(** The hash of an aligned range is found or computed. *)
Lemma range_hash_spec fuel e s n node_at L :
  serves node_at L → Forall is_digest L →
  (1 ≤ n ≤ 2 ^ e)%nat → (2 ^ e | s)%nat → (s + n ≤ length L)%nat → (e ≤ fuel)%nat →
  range_hash fuel (Z.of_nat s) (Z.of_nat n) node_at
  = Ok (hex (tree_hash node_hash empty_root (take n (drop s L)))).
Proof.
  intros Hserve HL. revert e s n; induction fuel as [|fuel IH]; intros e s n Hn Halign Hin Hfuel.
  all: destruct (power_of_two_nat n ltac:(lia)) as [(Hpow & Hexp & Htz)|[Hpow Hbig]].
  2: { assert (e = 0)%nat as -> by lia. cbn in Hn. lia. }
  3: { cbn [range_hash]. rewrite Hpow, split_nat by lia.
       destruct (split_at_spec n) as [[Hk1 Hk2] Hk3]; [lia|].
       assert (∃ j, split_at n = 2 ^ j ∧ j < e)%nat as (j & Hj & Hje).
       { exists (Nat.log2 (n - 1)). split; [done|]. apply (Nat.pow_lt_mono_r_iff 2); [lia|]. fold (split_at n). lia. }
       assert (2 ^ j | s)%nat as Hs.
       { etransitivity; [|exact Halign]. exists (2 ^ (e - j))%nat. rewrite <-Nat.pow_add_r. f_equal. lia. }
       rewrite (IH j s (split_at n)) by (try done; lia).
       rewrite parse_hex by (apply (tree_hash_closed node_hash empty_root is_digest empty_root_digest node_hash_digest), Forall_take, Forall_drop, HL).
       replace (Z.of_nat s + Z.of_nat (split_at n)) with (Z.of_nat (s + split_at n)) by lia.
       replace (Z.of_nat n - Z.of_nat (split_at n)) with (Z.of_nat (n - split_at n)) by lia.
       rewrite (IH j (s + split_at n)%nat (n - split_at n)%nat); [|lia|rewrite Hj; apply Nat.divide_add_r; [done|reflexivity]|lia|lia].
       rewrite parse_hex by (apply (tree_hash_closed node_hash empty_root is_digest empty_root_digest node_hash_digest), Forall_take, Forall_drop, HL).
       f_equal. unfold encode_digest. f_equal.
       rewrite (tree_hash_split node_hash empty_root (take n (drop s L))) by (rewrite length_take, length_drop; lia).
       rewrite length_take, length_drop. replace (n `min` (length L - s))%nat with n by lia.
       f_equal; f_equal; [rewrite take_take; f_equal; lia|].
       by rewrite <-drop_drop, skipn_firstn_comm. }
  all: cbn [range_hash]; rewrite Hpow, Htz.
  all: set (j := Nat.log2 n) in *.
  all: assert (2 ^ j | s)%nat as Hs by (etransitivity; [|exact Halign]; exists (2 ^ (e - j))%nat; rewrite <-Nat.pow_add_r;
         f_equal; enough (j ≤ e)%nat by lia; apply (Nat.pow_le_mono_r_iff 2); lia).
  all: destruct Hs as [i Hi].
  all: replace (Z.of_nat s / Z.of_nat n) with (Z.of_nat i)
         by (rewrite <-Nat2Z.inj_div, Hi, Hexp, Nat.div_mul; [done|apply Nat.pow_nonzero; lia]).
  all: destruct (nodes_at_Some j i L) as [d Hd]; [lia|].
  all: rewrite (Hserve _ _ _ Hd); cbn [ok_or].
  all: pose proof (nodes_at_closed node_hash is_digest node_hash_digest j L HL) as Hclosed.
  all: rewrite parse_hex by (rewrite Forall_forall in Hclosed; apply Hclosed; by eapply list_elem_of_lookup_2).
  all: f_equal; f_equal; rewrite (nodes_at_hash node_hash empty_root _ _ _ _ Hd); by rewrite <-Hi, <-Hexp.
Qed.
Lemma range_split n s e (L : list (list byte)) :
  (2 ≤ n ≤ 2 ^ e)%nat → (2 ^ e | s)%nat →
  ∃ j, split_at n = (2 ^ j)%nat ∧ (j < e)%nat ∧ (2 ^ j | s)%nat ∧ (2 ^ j | s + split_at n)%nat
    ∧ take (split_at n) (take n (drop s L)) = take (split_at n) (drop s L)
    ∧ drop (split_at n) (take n (drop s L)) = take (n - split_at n) (drop (s + split_at n) L).
Proof.
  intros Hn Halign. destruct (split_at_spec n) as [[Hk1 Hk2] Hk3]; [lia|]. exists (Nat.log2 (n - 1)).
  fold (split_at n). assert (Nat.log2 (n - 1) < e)%nat as Hje by (apply (Nat.pow_lt_mono_r_iff 2); [lia|]; fold (split_at n); lia).
  assert (split_at n | s)%nat as Hs.
  { etransitivity; [|exact Halign]. exists (2 ^ (e - Nat.log2 (n - 1)))%nat. unfold split_at. rewrite <-Nat.pow_add_r. f_equal. lia. }
  split; [done|]. split; [done|]. split; [done|]. split; [apply Nat.divide_add_r; [done|reflexivity]|].
  split; [rewrite take_take; f_equal; lia|]. by rewrite <-drop_drop, skipn_firstn_comm.
Qed.

Lemma build_path_spec fuel e s n m node_at L :
  serves node_at L → Forall is_digest L →
  (1 ≤ n ≤ 2 ^ e)%nat → (2 ^ e | s)%nat → (s + n ≤ length L)%nat → (e ≤ fuel)%nat → (e ≤ 65)%nat → (s ≤ m < s + n)%nat →
  build_path fuel (Z.of_nat s) (Z.of_nat n) (Z.of_nat m) node_at
  = Ok (map hex (tree_path node_hash empty_root (take n (drop s L)) (m - s))).
Proof.
  intros Hserve HL. revert e s n m; induction fuel as [|fuel IH]; intros e s n m Hn Halign Hin Hfuel He Hm.
  { assert (e = 0)%nat as -> by lia. cbn in Hn. assert (n = 1)%nat as -> by lia. cbn [build_path].
    change (Z.of_nat 1 =? 1) with true. cbv iota. by rewrite tree_path_short by (rewrite length_take; lia). }
  cbn [build_path]. destruct (Z.eqb_spec (Z.of_nat n) 1) as [H1|H1].
  { by rewrite tree_path_short by (rewrite length_take; lia). }
  rewrite split_nat by lia. destruct (split_at_spec n) as [[Hk1 Hk2] Hk3]; [lia|].
  destruct (range_split n s e L) as (j & Hj & Hje & Hs & Hs' & Htake & Hdrop); [lia|done|].
  assert (length (take n (drop s L)) = n) as Hlen by (rewrite length_take, length_drop; lia).
  rewrite tree_path_split by lia. rewrite Hlen, Htake, Hdrop.
  replace (Z.of_nat s + Z.of_nat (split_at n)) with (Z.of_nat (s + split_at n)) by lia.
  replace (Z.of_nat n - Z.of_nat (split_at n)) with (Z.of_nat (n - split_at n)) by lia.
  destruct (Nat.ltb_spec (m - s) (split_at n)) as [Hlt|Hge].
  - rewrite (proj2 (Z.ltb_lt _ _)) by lia. rewrite (IH j) by (try done; lia).
    rewrite (range_hash_spec 65 j _ _ _ L) by (try done; lia). by rewrite map_app.
  - rewrite (proj2 (Z.ltb_ge _ _)) by lia. rewrite (IH j) by (try done; lia).
    rewrite (range_hash_spec 65 j _ _ _ L) by (try done; lia). rewrite map_app.
    by replace (m - (s + split_at n))%nat with (m - s - split_at n)%nat by lia.
Qed.

(** ** Verification *)

Lemma skip_even_fuel m k fuel :
  (0 < m < 2 ^ fuel)%nat → (fuel ≤ k)%nat → skip_even k (Z.of_nat m) (Z.of_nat m) = skip_even fuel (Z.of_nat m) (Z.of_nat m).
Proof.
  revert m k; induction fuel as [|fuel IH]; intros m k Hm Hk; [cbn in Hm; lia|]. destruct k as [|k]; [lia|].
  cbn [skip_even]. rewrite land_1. destruct (Nat.odd m) eqn:Ho.
  - change (1 =? 0) with false. by rewrite andb_false_r.
  - rewrite (proj2 (Z.eqb_neq _ _)) by lia. change (0 =? 0) with true. cbn [negb andb]. rewrite shiftr_1.
    pose proof (Nat.div2_odd m) as Hd. rewrite Ho in Hd. cbn [Nat.b2n] in Hd. rewrite Nat.pow_succ_r' in Hm.
    apply IH; lia.
Qed.

(** A promoted last node climbs without taking a sibling. *)
Lemma verify_path_promote s path c m :
  Z.of_nat m < 2 ^ 64 → m ≠ 0%nat → Nat.odd m = false →
  verify_path (s :: path) c (Z.of_nat m) (Z.of_nat m)
  = verify_path (s :: path) c (Z.of_nat (Nat.div2 m)) (Z.of_nat (Nat.div2 m)).
Proof.
  intros Hm Hne Ho. pose proof (Nat.div2_odd m) as Hd. rewrite Ho in Hd. cbn [Nat.b2n] in Hd.
  cbn [verify_path]. rewrite (proj2 (Z.eqb_neq (Z.of_nat m) 0)), (proj2 (Z.eqb_neq (Z.of_nat (Nat.div2 m)) 0)) by lia.
  destruct (parse_digest _ s) as [d|]; [|done].
  rewrite !Z.eqb_refl, !orb_true_r, !land_1, Ho. change (0 =? 0) with true. cbv iota.
  assert (skip_even 64 (Z.of_nat m) (Z.of_nat m) = skip_even 63 (Z.of_nat (Nat.div2 m)) (Z.of_nat (Nat.div2 m))) as ->.
  { cbn [skip_even]. rewrite land_1, Ho, (proj2 (Z.eqb_neq _ 0)) by lia. cbn [negb andb]. by rewrite shiftr_1. }
  destruct (Nat.odd (Nat.div2 m)) eqn:Ho2.
  - change (1 =? 0) with false. cbv iota. cbn [skip_even]. rewrite land_1, Ho2. change (1 =? 0) with false.
    by rewrite andb_false_r.
  - change (0 =? 0) with true. cbv iota. rewrite (skip_even_fuel (Nat.div2 m) 64 63); [done| |lia].
    split; [lia|]. apply Nat2Z.inj_lt. rewrite Nat2Z.inj_pow. change (Z.of_nat 2 ^ Z.of_nat 63) with (2 ^ 63). lia.
Qed.
(** The loop of [verify] folds the path level by level. *)
Lemma verify_climb fuel m last c p r :
  (m ≤ last)%nat → (last < 2 ^ fuel)%nat → Z.of_nat last < 2 ^ 64 → Forall is_digest p →
  climb node_hash fuel m last c p = Some r ↔ verify_path (map hex p) c (Z.of_nat m) (Z.of_nat last) = Ok (r, 0).
Proof.
  assert (∀ fuel c p, climb node_hash fuel 0 0 c p = Some r ↔ verify_path (map hex p) c 0 0 = Ok (r, 0)) as Hzero.
  { intros fuel' c' [|s p']; destruct fuel'; cbn; unfold invalid; split; congruence. }
  revert m last c p; induction fuel as [|fuel IH]; intros m last c p Hle Hfuel H64 Hp.
  { cbn in Hfuel. assert (last = 0 ∧ m = 0)%nat as [-> ->] by lia. apply Hzero. }
  destruct (decide (last = 0)%nat) as [->|Hlast]; [assert (m = 0)%nat as -> by lia; apply Hzero|].
  rewrite climb_step by done. pose proof (div2_bounds last) as Hb. pose proof (div2_bounds m) as Hbm.
  rewrite Nat.pow_succ_r' in Hfuel.
  assert (∀ c' p', Forall is_digest p' →
    climb node_hash fuel (Nat.div2 m) (Nat.div2 last) c' p' = Some r ↔
    verify_path (map hex p') c' (Z.of_nat (Nat.div2 m)) (Z.of_nat (Nat.div2 last)) = Ok (r, 0)) as Hnext.
  { intros c' p' Hp'. apply IH; try done; lia. }
  assert (verify_path (map hex []) c (Z.of_nat m) (Z.of_nat last) ≠ Ok (r, 0)) as Hnil by (cbn; intros [= _ E]; lia).
  destruct (Nat.odd m) eqn:Ho.
  - destruct Hp as [|s p Hs Hp]; [done|]. cbn [map verify_path]. rewrite (proj2 (Z.eqb_neq _ 0)) by lia.
    rewrite parse_hex, land_1, Ho by done. change (1 =? 1) with true. change (1 =? 0) with false. cbn [orb].
    rewrite !shiftr_1. by apply Hnext.
  - destruct (Nat.eqb_spec m last) as [->|Hne].
    + rewrite Hnext by done. destruct Hp as [|s p Hs Hp]; [|cbn [map]; by rewrite (verify_path_promote _ _ _ last)].
      cbn [map verify_path]. pose proof (Nat.div2_odd last) as Hd. rewrite Ho in Hd. cbn [Nat.b2n] in Hd.
      split; intros [= _ E]; lia.
    + destruct Hp as [|s p Hs Hp]; [done|]. cbn [map verify_path]. rewrite (proj2 (Z.eqb_neq _ 0)) by lia.
      rewrite parse_hex, land_1, Ho by done. rewrite (proj2 (Z.eqb_neq _ (Z.of_nat last))) by lia.
      change (0 =? 1) with false. cbn [orb]. rewrite !shiftr_1. by apply Hnext.
Qed.

(** A path that is folded without an error consists of digests. *)
Lemma verify_path_parsed path c m last x :
  verify_path path c m last = Ok x → ∃ p, path = map hex p ∧ Forall is_digest p ∧ omap from_hex path = p.
Proof.
  revert c m last; induction path as [|s path IH]; intros c m last; [intros _; by exists []|].
  cbn [verify_path]. destruct (last =? 0); [done|]. destruct (parse_digest _ s) as [d|] eqn:Hs; [|done].
  apply parse_inv in Hs as [Hd ->]. intros Hrest.
  assert (∃ p, path = map hex p ∧ Forall is_digest p ∧ omap from_hex path = p) as (p & -> & Hp & Ho).
  { match type of Hrest with match ?x with _ => _ end = _ => destruct x as [[c' m'] last'] end. by eapply IH. }
  exists (d :: p). split; [done|]. split; [by constructor|]. cbn [map omap list_omap]. rewrite from_hex_hex by done.
  f_equal. exact Ho.
Qed.

Lemma verify_ok proof leaf_input d :
  is_digest d → 0 ≤ proof_leaf_index proof →
  verify proof leaf_input (hex d) = Ok tt ↔
    proof_version proof = RUNTIME_LOG_ACCUMULATOR_VERSION
    ∧ proof_leaf_index proof < proof_tree_size proof
    ∧ verify_path (proof_path proof) (leaf_hash leaf_input) (proof_leaf_index proof) (proof_tree_size proof - 1) = Ok (d, 0).
Proof.
  intros Hd Hpos. unfold verify. destruct (Z.eqb_spec (proof_version proof) RUNTIME_LOG_ACCUMULATOR_VERSION) as [Hv|Hv]; cbn [negb].
  2: { split; [done|]. by intros (? & _). }
  destruct (Z.eqb_spec (proof_tree_size proof) 0) as [Hz|Hz]; cbn [orb].
  { split; [done|]. intros (_ & ? & _). lia. }
  destruct (Z.leb_spec (proof_tree_size proof) (proof_leaf_index proof)) as [Hle|Hlt].
  { split; [done|]. intros (_ & ? & _). lia. }
  rewrite parse_hex by done. destruct (verify_path _ _ _ _) as [[c last]|e]; [|split; [done|by intros (_ & _ & ?)]].
  destruct (Z.eqb_spec last 0) as [->|Hl]; cbn [negb orb].
  - case_bool_decide as Hc; cbn [negb]; split; try done; [by subst|]. intros (_ & _ & [= ->]). done.
  - split; [done|]. intros (_ & _ & [= _ ->]). done.
Qed.
(** ** A log and its stored nodes *)

(** The nodes of the appends, persisted by level and index. *)
Definition store_nodes (stored : gmap (Z * Z) string) (created : list RuntimeMerkleNode) : gmap (Z * Z) string :=
  fold_left (λ stored n, <[(level n, index n) := node_digest n]> stored) created stored.
Definition log_run (log : list (list byte)) : result Error (RuntimeLogAccumulator * gmap (Z * Z) string) :=
  try_fold (λ '(acc, stored) x, let? (acc, created) := append acc x in Ok (acc, store_nodes stored created))
    (RuntimeLogAccumulator_new, ∅) log.
Definition node_of (stored : gmap (Z * Z) string) : node_source := λ lvl i, Ok (stored !! (lvl, i)).

Lemma store_nodes_lookup ns stored lvl i s :
  (∀ lvl i d d', (lvl, i, d) ∈ ns → (lvl, i, d') ∈ ns → d = d') →
  store_nodes stored (map stored_node ns) !! (Z.of_nat lvl, Z.of_nat i) = Some s ↔
    (∃ d, (lvl, i, d) ∈ ns ∧ s = hex d)
    ∨ (∀ d, (lvl, i, d) ∉ ns) ∧ stored !! (Z.of_nat lvl, Z.of_nat i) = Some s.
Proof.
  induction ns as [|[[l j] d] ns IH] using rev_ind; intros Hfun.
  { cbn. split; [right; split; [intros ? ?%not_elem_of_nil; done|done]|].
    intros [(d & ?%not_elem_of_nil & _)|[_ ?]]; done. }
  unfold store_nodes in *. rewrite map_app, fold_left_app. cbn [map fold_left stored_node level index node_digest].
  destruct (decide (l = lvl ∧ j = i)) as [[-> ->]|Hne].
  - rewrite lookup_insert_eq. split.
    + intros [= <-]. left. exists d. split; [apply elem_of_app; right; by left|done].
    + intros [(d' & Hin & ->)|[Hno _]].
      * assert (d = d') as -> by (eapply Hfun; [apply elem_of_app; right; by left|exact Hin]). done.
      * exfalso. apply (Hno d), elem_of_app. right. by left.
  - rewrite lookup_insert_ne by (intros [= ? ?]; apply Hne; split; lia).
    rewrite IH by (intros l1 i1 d1 d2 H1 H2; eapply Hfun; apply elem_of_app; eauto).
    assert (∀ d', (lvl, i, d') ∈ ns ++ [(l, j, d)] ↔ (lvl, i, d') ∈ ns) as Happ.
    { intros d'. rewrite elem_of_app, list_elem_of_singleton. split; [|by left].
      intros [?|[= -> -> ->]]; [done|]. exfalso. by apply Hne. }
    setoid_rewrite Happ. done.
Qed.

Lemma log_run_spec log :
  len log < 2 ^ 64 →
  ∃ stored, log_run log = Ok (acc_of log, stored)
    ∧ ∀ lvl i s, stored !! (Z.of_nat lvl, Z.of_nat i) = Some s ↔
        ∃ d, nodes_at node_hash lvl (leaves log) !! i = Some d ∧ s = hex d.
Proof.
  induction log as [|x log IH] using rev_ind; intros Hlen.
  { exists ∅. split; [done|]. intros lvl i s. rewrite lookup_empty. split; [done|]. intros (d & Hd & _).
    assert (∀ k, nodes_at node_hash k [] = []) as Hnil by (induction k; done). cbn in Hd. by rewrite Hnil in Hd. }
  rewrite len_app in Hlen. change (len [x]) with 1 in Hlen. destruct IH as (stored & Hrun & Hst); [lia|].
  unfold log_run in *. rewrite try_fold_app, Hrun. cbn [try_fold]. rewrite append_acc by (unfold u64_max; lia).
  eexists. split; [reflexivity|]. intros lvl i s.
  assert (∀ lvl i d, nodes_at node_hash lvl (leaves (log ++ [x])) !! i = Some d ↔
    nodes_at node_hash lvl (leaves log) !! i = Some d
    ∨ (lvl, i, d) ∈ carry_nodes node_hash 0 (length log) (leaf_hash x) (log_peaks log)) as Hnodes.
  { intros l j d. rewrite log_snoc, (nodes_at_snoc node_hash 0), length_leaves. done. }
  rewrite store_nodes_lookup.
  2: { intros l j d d' Hd Hd'. assert (Some d = Some d') as [= ->]; [|done].
       rewrite <-(proj2 (Hnodes l j d) (or_intror Hd)). by rewrite <-(proj2 (Hnodes l j d') (or_intror Hd')). }
  rewrite Hst. setoid_rewrite Hnodes. split.
  - intros [(d & Hin & ->)|[_ (d & Hd & ->)]]; exists d; auto.
  - intros (d & [Hd|Hin] & ->); [|left; eauto].
    destruct (decide ((lvl, i, d) ∈ carry_nodes node_hash 0 (length log) (leaf_hash x) (log_peaks log))) as [Hin|Hno];
      [left; eauto|right]. split; [|eauto]. intros d' Hin'.
    assert (Some d = Some d') as [= ->]; [|done].
    rewrite <-(proj2 (Hnodes lvl i d) (or_introl Hd)). by rewrite <-(proj2 (Hnodes lvl i d') (or_intror Hin')).
Qed.
Lemma nat_below_64 n : Z.of_nat n < 2 ^ 64 → (n < 2 ^ 64)%nat.
Proof.
  intros Hn. apply Nat2Z.inj_lt. rewrite Nat2Z.inj_pow. change (Z.of_nat 2 ^ Z.of_nat 64) with (2 ^ 64). exact Hn.
Qed.

(** C23: appending never fails before the 64-bit size is full, and the accumulator it leaves is
    exactly that of the whole log: its root is the RFC 9162 tree hash of the leaves, its own
    validation accepts it, and the nodes it returned are exactly the complete subtrees. *)
Theorem append_accumulates_rfc9162 log :
  len log < 2 ^ 64 →
  ∃ acc stored, log_run log = Ok (acc, stored)
    ∧ tree_size acc = len log ∧ root acc = hex (log_root log) ∧ validate acc = Ok tt
    ∧ ∀ lvl i s, stored !! (Z.of_nat lvl, Z.of_nat i) = Some s ↔
        ((i + 1) * 2 ^ lvl ≤ length log)%nat
        ∧ s = hex (log_root (take (2 ^ lvl) (drop (i * 2 ^ lvl) log))).
Proof.
  intros Hlen. destruct (log_run_spec log Hlen) as (stored & Hrun & Hst). exists (acc_of log), stored.
  split; [done|]. split; [done|]. split; [done|]. split; [by apply validate_acc|]. intros lvl i s. rewrite Hst.
  assert (∀ d, nodes_at node_hash lvl (leaves log) !! i = Some d → d = log_root (take (2 ^ lvl) (drop (i * 2 ^ lvl) log))) as Hd.
  { intros d Hd. rewrite (nodes_at_hash node_hash empty_root _ _ _ _ Hd). unfold log_root, leaves.
    by rewrite skipn_map, firstn_map. }
  split.
  - intros (d & Hn & ->). split; [|by rewrite <-(Hd d Hn)]. pose proof (lookup_lt_Some _ _ _ Hn) as Hlt.
    rewrite length_nodes_at, length_leaves in Hlt. rewrite Nat.mul_comm.
    etransitivity; [|apply (Nat.Div0.mul_div_le _ (2 ^ lvl))]. apply Nat.mul_le_mono_l. lia.
  - intros [Hle ->]. destruct (nodes_at_Some lvl i (leaves log)) as [d Hn]; [by rewrite length_leaves|].
    exists d. split; [done|]. by rewrite <-(Hd d Hn).
Qed.

Lemma inclusion_proof_path log i node_at :
  len log < 2 ^ 64 → serves node_at (leaves log) → (i < length log)%nat →
  inclusion_proof (acc_of log) (Z.of_nat i) node_at
  = Ok {| proof_version := RUNTIME_LOG_ACCUMULATOR_VERSION; proof_tree_size := len log;
          proof_leaf_index := Z.of_nat i;
          proof_path := map hex (tree_path node_hash empty_root (leaves log) i) |}.
Proof.
  intros Hlen Hserve Hi. unfold inclusion_proof. rewrite validate_acc by done. cbn [tree_size acc_of].
  rewrite (proj2 (Z.leb_gt _ _)) by (unfold len; lia). pose proof (nat_below_64 _ Hlen) as Hnat.
  pose proof (length_leaves log) as HL.
  assert (build_path 65 (Z.of_nat 0) (Z.of_nat (length log)) (Z.of_nat i) node_at
    = Ok (map hex (tree_path node_hash empty_root (take (length log) (drop 0 (leaves log))) (i - 0)))) as Hpath.
  { apply (build_path_spec 65 64); [done|apply leaves_digest|lia|apply Nat.divide_0_r|lia|lia|lia|lia]. }
  change (Z.of_nat 0) with 0 in Hpath. fold (len log) in Hpath.
  rewrite Hpath, drop_0, Nat.sub_0_r, take_ge by lia. done.
Qed.

(** Completeness: every leaf of a log has an inclusion proof built from the stored nodes,
    and verifying it against the accumulator's root accepts that leaf. *)
Theorem every_leaf_has_a_verified_proof log acc stored i x :
  len log < 2 ^ 64 → log_run log = Ok (acc, stored) → log !! i = Some x →
  ∃ proof, inclusion_proof acc (Z.of_nat i) (node_of stored) = Ok proof ∧ verify proof x (root acc) = Ok tt.
Proof.
  intros Hlen Hrun Hx. destruct (log_run_spec log Hlen) as (stored' & Hrun' & Hst).
  rewrite Hrun' in Hrun. injection Hrun as <- <-. pose proof (lookup_lt_Some _ _ _ Hx) as Hi.
  assert (serves (node_of stored') (leaves log)) as Hserve.
  { intros lvl j d Hd. unfold node_of. f_equal. apply Hst. eauto. }
  eexists. split; [by apply inclusion_proof_path|]. cbn [root acc_of]. pose proof (length_leaves log) as HL.
  apply verify_ok; [apply log_root_digest|cbn; lia|]. cbn [proof_version proof_leaf_index proof_tree_size proof_path].
  split; [done|]. split; [unfold len; lia|].
  replace (len log - 1) with (Z.of_nat (length (leaves log) - 1)) by (unfold len; lia).
  pose proof (nat_below_64 _ Hlen). unfold len in Hlen. apply (verify_climb 64); [lia|lia|lia| |].
  - apply (tree_path_closed node_hash empty_root is_digest empty_root_digest node_hash_digest), leaves_digest.
  - apply climb_complete; [|lia]. unfold leaves. by rewrite list_lookup_fmap, Hx.
Qed.

(** ** Soundness *)

Definition pair_input (x : list byte * list byte) : list byte := x01 :: x.1 ++ x.2.
(** What is hashed to build the tree of a log, and what a verification hashes; [fuel] levels
    are enough for [2 ^ fuel] leaves. *)
Definition tree_inputs (fuel : nat) (log : list (list byte)) : list (list byte) :=
  map (cons x00) log ++ map pair_input (tree_pairs node_hash fuel (leaves log)).
Definition fold_inputs (fuel i last : nat) (leaf_input : list byte) (p : list (list byte)) : list (list byte) :=
  (x00 :: leaf_input) :: map pair_input (climb_pairs node_hash fuel i last (leaf_hash leaf_input) p).
Definition log_inputs (log : list (list byte)) : list (list byte) := tree_inputs 64 log.
Definition proof_inputs (proof : RuntimeInclusionProof) (leaf_input : list byte) : list (list byte) :=
  fold_inputs 64 (Z.to_nat (proof_leaf_index proof)) (Z.to_nat (proof_tree_size proof - 1)) leaf_input
    (omap from_hex (proof_path proof)).

Lemma pair_input_inj x y : pair_closed is_digest x → pair_closed is_digest y → pair_input x = pair_input y → x = y.
Proof.
  destruct x as [a b], y as [c d]. intros [Ha _] [Hc _] [= Heq]. cbn in *. unfold is_digest in *.
  apply app_inj_1 in Heq as [-> ->]; [done|congruence].
Qed.

Lemma fold_sound fuel log i x p :
  (i < length log)%nat → (length log ≤ 2 ^ fuel)%nat → Forall is_digest p →
  climb node_hash fuel i (length log - 1) (leaf_hash x) p = Some (log_root log) →
  log !! i = Some x
  ∨ ∃ a b, a ∈ tree_inputs fuel log ∧ b ∈ fold_inputs fuel i (length log - 1) x p ∧ a ≠ b ∧ sha256 a = sha256 b.
Proof.
  intros Hi Hmax Hp Hclimb. pose proof (length_leaves log) as HL. rewrite <-HL in Hi, Hmax, Hclimb |- *.
  destruct (climb_sound node_hash empty_root fuel _ _ _ _ Hi Hmax Hclimb) as [Hleaf|(y & z & Hy & Hz & Hyz & Heq)]; [|right].
  - unfold leaves in Hleaf. rewrite list_lookup_fmap in Hleaf. destruct (log !! i) as [x'|] eqn:Hx; [|done].
    cbn in Hleaf. injection Hleaf as Hleaf. destruct (decide (x' = x)) as [->|Hne]; [by left|right].
    exists (x00 :: x'), (x00 :: x). split; [|split; [by left|split; [congruence|done]]].
    apply elem_of_app. left. apply list_elem_of_fmap_2. by eapply list_elem_of_lookup_2.
  - exists (pair_input y), (pair_input z). split; [apply elem_of_app; right; by apply list_elem_of_fmap_2|].
    split; [right; by apply list_elem_of_fmap_2|]. split; [|exact Heq]. intros Hsame. apply Hyz.
    apply pair_input_inj; [| |done].
    + pose proof (tree_pairs_closed node_hash is_digest node_hash_digest fuel _ (leaves_digest log)) as Hc.
      rewrite Forall_forall in Hc. by apply Hc.
    + assert (Forall (pair_closed is_digest) (climb_pairs node_hash fuel i (length (leaves log) - 1) (leaf_hash x) p)) as Hc.
      { apply climb_pairs_closed; [exact node_hash_digest|apply length_sha256|done]. }
      rewrite Forall_forall in Hc. by apply Hc.
Qed.

(** Soundness: a proof for a tree of the log's size that verifies against the log's root
    proves its leaf: the input is the log's leaf at that index, or two different inputs, one
    hashed by the log and one by the verification, have the same SHA-256 digest. *)
Theorem verified_proof_is_sound log proof x :
  len log < 2 ^ 64 → proof_tree_size proof = len log → 0 ≤ proof_leaf_index proof →
  verify proof x (hex (log_root log)) = Ok tt →
  log !! Z.to_nat (proof_leaf_index proof) = Some x
  ∨ ∃ a b, a ∈ log_inputs log ∧ b ∈ proof_inputs proof x ∧ a ≠ b ∧ sha256 a = sha256 b.
Proof.
  intros Hlen Hsize Hpos Hverify. apply verify_ok in Hverify as (_ & Hidx & Hpath); [|apply log_root_digest|done].
  destruct (verify_path_parsed _ _ _ _ _ Hpath) as (p & Hp & Hdig & Homap).
  unfold log_inputs, proof_inputs. rewrite Homap. set (i := Z.to_nat (proof_leaf_index proof)) in *.
  assert (proof_leaf_index proof = Z.of_nat i) as Hi by lia. unfold len in Hlen, Hsize.
  assert (Z.to_nat (proof_tree_size proof - 1) = length log - 1 ∧ i < length log)%nat as [Hlast Hlt] by lia.
  pose proof (nat_below_64 _ Hlen) as Hbound. rewrite Hlast. apply fold_sound; [exact Hlt|by apply Nat.lt_le_incl|exact Hdig|].
  rewrite Hp, Hi in Hpath. replace (proof_tree_size proof - 1) with (Z.of_nat (length log - 1)) in Hpath by lia.
  apply verify_climb; [lia| |lia|exact Hdig|exact Hpath].
  eapply Nat.le_lt_trans; [|exact Hbound]. apply Nat.le_sub_l.
Qed.
(** ** Retained prefixes *)

Lemma nodes_at_prefix lvl l k i d : nodes_at node_hash lvl l !! i = Some d → nodes_at node_hash lvl (l ++ k) !! i = Some d.
Proof.
  revert l; induction k as [|x k IH]; intros l Hd; [by rewrite app_nil_r|].
  replace (l ++ x :: k) with ((l ++ [x]) ++ k) by (by rewrite <-app_assoc). apply IH, (nodes_at_snoc node_hash 0). by left.
Qed.

Lemma shift_parts N n :
  0 ≤ N → 0 ≤ n → let q := Z.shiftr N n in
  Z.shiftr N (Z.succ n) = q / 2 ∧ Z.testbit N n = Z.odd q ∧ q = 2 * (q / 2) + Z.b2z (Z.odd q).
Proof.
  intros HN Hn q. split; [|split].
  - subst q. rewrite <-Z.add_1_r, <-Z.shiftr_shiftr, (Z.shiftr_div_pow2 _ 1) by lia. done.
  - apply Z.testbit_odd.
  - pose proof (Z.div_mod q 2 ltac:(lia)) as Hd. rewrite Zmod_odd in Hd. destruct (Z.odd q); cbn [Z.b2z]; lia.
Qed.

Lemma collect_spec n log node_at :
  serves node_at (leaves log) → (n ≤ length (log_peaks log))%nat →
  collect_frontier n (len log) (Z.shiftl (Z.shiftr (len log) (Z.of_nat n)) (Z.of_nat n)) node_at
    (replicate n None ++ drop n (hex_peaks (log_peaks log)))
  = Ok (hex_peaks (log_peaks log)).
Proof.
  intros Hserve. induction n as [|n IH]; intros Hn; [done|]. specialize (IH ltac:(lia)). cbn [collect_frontier].
  pose proof (len_nonneg log) as Hpos. destruct (shift_parts (len log) (Z.of_nat n)) as (Hsh & Hbit & Hq); [lia..|].
  destruct (log_peaks_bits log n) as [Hlook Hsome].
  destruct (lookup_lt_is_Some_2 (log_peaks log) n ltac:(lia)) as [v Hv]. rewrite Hlook in Hv. case_decide as Hz; [done|].
  injection Hv as Hv.
  assert (drop n (hex_peaks (log_peaks log)) = (hex <$> v) :: drop (S n) (hex_peaks (log_peaks log))) as Hdrop.
  { apply drop_S. unfold hex_peaks. rewrite list_lookup_fmap, Hlook. by rewrite Hv. }
  rewrite Hdrop in IH. rewrite Nat2Z.inj_succ, Hsh.
  set (q := Z.shiftr (len log) (Z.of_nat n)) in *. rewrite !Z.shiftl_mul_pow2 in * by lia.
  rewrite Z.pow_succ_r by lia. rewrite replicate_S_end, <-app_assoc. cbn [app].
  pose proof (land_bit (len log) (Z.of_nat n) Hpos ltac:(lia)) as Hland. rewrite Z.shiftl_mul_pow2 in Hland by lia.
  pose proof (Z.pow_pos_nonneg 2 (Z.of_nat n) ltac:(lia) ltac:(lia)) as Hpow.
  destruct (Z.testbit (len log) (Z.of_nat n)) eqn:Ht.
  - apply negb_true_iff in Hland. rewrite Hland. destruct (Hsome eq_refl) as [d Hd]. rewrite Hd in Hv. subst v.
    rewrite <-Hbit in Hq. cbn [Z.b2z] in Hq.
    assert (Z.shiftr (q / 2 * (2 * 2 ^ Z.of_nat n)) (Z.of_nat n)
            = Z.of_nat (length (nodes_at node_hash n (leaves log)) - 1)) as ->.
    { rewrite Z.shiftr_div_pow2, Z.mul_assoc, Z.div_mul, length_nodes_at, length_leaves by lia.
      rewrite Nat2Z.inj_sub_max, Nat2Z.inj_div, Nat2Z.inj_pow. fold (len log).
      change (Z.of_nat 2) with 2. rewrite <-Z.shiftr_div_pow2 by lia. fold q. assert (0 ≤ q) by (by apply Z.shiftr_nonneg). lia. }
    rewrite last_lookup in Hd. rewrite <-Nat.sub_1_r in Hd. rewrite (Hserve _ _ _ Hd). cbn [ok_or].
    rewrite parse_hex.
    2: { pose proof (nodes_at_closed node_hash is_digest node_hash_digest n _ (leaves_digest log)) as Hc.
         rewrite Forall_forall in Hc. apply Hc. by eapply list_elem_of_lookup_2. }
    replace (q / 2 * (2 * 2 ^ Z.of_nat n) + 1 * 2 ^ Z.of_nat n) with (q * 2 ^ Z.of_nat n) by lia.
    replace (<[n := Some (hex d)]> (replicate n None ++ None :: drop (S n) (hex_peaks (log_peaks log))))
      with (replicate n None ++ Some (hex d) :: drop (S n) (hex_peaks (log_peaks log))); [exact IH|].
    rewrite insert_app_r_alt; rewrite length_replicate; [|lia]. by rewrite Nat.sub_diag.
  - apply negb_false_iff in Hland. rewrite Hland. subst v. rewrite <-Hbit in Hq. cbn [Z.b2z] in Hq.
    replace (q / 2 * (2 * 2 ^ Z.of_nat n)) with (q * 2 ^ Z.of_nat n) by lia. exact IH.
Qed.

(** A retained prefix of a longer log is rebuilt from the nodes the whole log stored: the
    accumulator [from_nodes] returns is exactly the one the prefix had when it was appended. *)
Theorem from_nodes_rebuilds_prefix log post acc stored acc' stored' :
  len (log ++ post) < 2 ^ 64 → log_run log = Ok (acc, stored) → log_run (log ++ post) = Ok (acc', stored') →
  from_nodes (tree_size acc) (root acc) (node_of stored') = Ok acc.
Proof.
  intros Hlen Hrun Hrun'. pose proof Hlen as Hlen'. rewrite len_app in Hlen'. pose proof (len_nonneg post).
  destruct (log_run_spec log ltac:(lia)) as (s1 & Hr1 & _). rewrite Hr1 in Hrun. injection Hrun as <- <-.
  destruct (log_run_spec (log ++ post) Hlen) as (s2 & Hr2 & Hst). rewrite Hr2 in Hrun'. injection Hrun' as <- <-.
  assert (serves (node_of s2) (leaves log)) as Hserve.
  { intros lvl i d Hd. unfold node_of. f_equal. apply Hst. exists d. split; [|done].
    unfold leaves. rewrite map_app. by apply nodes_at_prefix. }
  unfold from_nodes. cbn [tree_size root acc_of]. rewrite parse_hex by apply log_root_digest.
  pose proof (length_log_peaks log) as Hpk. destruct (Z.eqb_spec (len log) 0) as [Hz|Hz].
  - apply (f_equal Z.to_nat) in Hz. unfold len in Hz. rewrite Nat2Z.id in Hz. destruct log; [|done].
    by rewrite bool_decide_eq_true_2.
  - pose proof (len_nonneg log). assert (Z.to_nat (64 - leading_zeros (len log)) = length (log_peaks log)) as ->.
    { unfold leading_zeros. rewrite (proj2 (Z.eqb_neq _ _)) by done. unfold len at 1 in Hpk. lia. }
    pose proof (collect_spec (length (log_peaks log)) log (node_of s2) Hserve ltac:(lia)) as Hcollect.
    rewrite drop_ge, app_nil_r in Hcollect by (unfold hex_peaks; rewrite length_map; lia).
    assert (Z.shiftr (len log) (Z.of_nat (length (log_peaks log))) = 0) as Hshift.
    { apply Z.shiftr_eq_0_iff. right. unfold len at 1 in Hpk. lia. }
    rewrite Hshift, Z.shiftl_0_l in Hcollect. rewrite Hcollect. fold (acc_of log). by rewrite validate_acc by lia.
Qed.
End Accumulator.

(** * A concrete log, over the toy digest *)

#[local] Existing Instance toy_sha2.
#[local] Existing Instance toy_sha2_laws.

Definition sample_log : list (list byte) :=
  map str_bytes ["zero"; "one"; "two"; "three"; "four"]%string.
Definition sample_run : RuntimeLogAccumulator * gmap (Z * Z) string :=
  match log_run sample_log with Ok r => r | Err _ => (RuntimeLogAccumulator_new, ∅) end.
Definition sample_proof : RuntimeInclusionProof :=
  match inclusion_proof sample_run.1 3 (node_of sample_run.2) with
  | Ok p => p
  | Err _ => {| proof_version := 0; proof_tree_size := 0; proof_leaf_index := 0; proof_path := [] |}
  end.

Lemma sample_run_eq : log_run sample_log = Ok (sample_run.1, sample_run.2).
Proof. vm_compute. reflexivity. Qed.

Lemma append_accumulates_rfc9162_witness :
  ∃ acc stored, log_run sample_log = Ok (acc, stored) ∧ tree_size acc = 5 ∧ validate acc = Ok tt
    ∧ is_Some (stored !! (1, 1)).
Proof.
  destruct (append_accumulates_rfc9162 sample_log ltac:(vm_compute; reflexivity)) as (acc & stored & Hrun & Hs & _ & Hv & Hst).
  exists acc, stored. split; [exact Hrun|]. split; [exact Hs|]. split; [exact Hv|].
  eexists. apply (Hst 1%nat 1%nat). split; [vm_compute; lia|reflexivity].
Defined.

Lemma every_leaf_has_a_verified_proof_witness :
  length (proof_path sample_proof) = 3%nat
  ∧ ∃ proof, inclusion_proof sample_run.1 3 (node_of sample_run.2) = Ok proof
      ∧ verify proof (str_bytes "three") (root sample_run.1) = Ok tt.
Proof.
  split; [vm_compute; reflexivity|].
  exact (every_leaf_has_a_verified_proof sample_log sample_run.1 sample_run.2 3 (str_bytes "three")
    ltac:(vm_compute; reflexivity) sample_run_eq eq_refl).
Defined.

Lemma verified_proof_is_sound_witness :
  verify sample_proof (str_bytes "three") (hex (log_root sample_log)) = Ok tt
  ∧ (sample_log !! 3%nat = Some (str_bytes "three")
     ∨ ∃ a b, a ∈ log_inputs sample_log ∧ b ∈ proof_inputs sample_proof (str_bytes "three")
         ∧ a ≠ b ∧ sha256 a = sha256 b).
Proof.
  assert (verify sample_proof (str_bytes "three") (hex (log_root sample_log)) = Ok tt) as Hv by (vm_compute; reflexivity).
  split; [exact Hv|].
  exact (verified_proof_is_sound sample_log sample_proof (str_bytes "three") ltac:(vm_compute; reflexivity)
    ltac:(vm_compute; reflexivity) ltac:(vm_compute; discriminate) Hv).
Defined.

Definition short_run : RuntimeLogAccumulator * gmap (Z * Z) string :=
  match log_run (take 3 sample_log) with Ok r => r | Err _ => (RuntimeLogAccumulator_new, ∅) end.

Lemma short_run_eq : log_run (take 3 sample_log) = Ok (short_run.1, short_run.2).
Proof. vm_compute. reflexivity. Qed.

Lemma from_nodes_rebuilds_prefix_witness :
  from_nodes (tree_size short_run.1) (root short_run.1) (node_of sample_run.2) = Ok short_run.1.
Proof.
  exact (from_nodes_rebuilds_prefix (take 3 sample_log) (drop 3 sample_log) short_run.1 short_run.2
    sample_run.1 sample_run.2 ltac:(vm_compute; reflexivity) short_run_eq sample_run_eq).
Defined.
