(* ===== verification/Claim.v ===== *)
(** Bi-temporal claims ([rrd-core]: claim.rs).

    A claim holds on the half-open valid-time window [valid_from, valid_to) and was recorded
    at [tx_time].  The theorems: the window predicate, retirement and validation on every
    branch; injectivity of the canonical bytes over every field; and what supersession emits. *)

From S2P Require Import Prelude Machine Ident Digest.
Open Scope Z_scope.

(** [Millis] of core/claim.rs line 10. *)
Abbreviation Millis := Z (only parsing).

(** core/claim.rs:19-24 Tier *)
Inductive Tier := Local | Primary | Tenant.
(** core/claim.rs:28-34 PromotionState *)
Inductive PromotionState := Unpromoted | Pending | Promoted | Denied.

(** core/claim.rs:43-52 Producer *)
Record Producer := {
  actor : string;
  on_behalf_of : option string;
  session : option string
}.

(** core/claim.rs:55-83 Claim; [confidence] is the bit pattern of the [f32]. *)
Record Claim := {
  subject : Subject;
  predicate : Predicate;
  object : string;
  valid_from : Z;
  valid_to : option Z;
  tx_time : Z;
  producer : Producer;
  confidence : option Z;
  supersedes : option string;
  signature : option string;
  tier : Tier;
  promotion_state : PromotionState
}.

(** core/claim.rs:86-108 Claim::new *)
Definition Claim_new (s : Subject) (p : Predicate) (o : string) (vf tx : Z) (pr : Producer) : Claim := {|
  subject := s; predicate := p; object := o;
  valid_from := vf; valid_to := None; tx_time := tx;
  producer := pr; confidence := None; supersedes := None; signature := None;
  tier := Local; promotion_state := Unpromoted
|}.

Definition set_valid_to (c : Claim) (v : option Z) : Claim := {|
  subject := subject c; predicate := predicate c; object := object c;
  valid_from := valid_from c; valid_to := v; tx_time := tx_time c;
  producer := producer c; confidence := confidence c; supersedes := supersedes c;
  signature := signature c; tier := tier c; promotion_state := promotion_state c
|}.
Definition set_tx_time (c : Claim) (v : Z) : Claim := {|
  subject := subject c; predicate := predicate c; object := object c;
  valid_from := valid_from c; valid_to := valid_to c; tx_time := v;
  producer := producer c; confidence := confidence c; supersedes := supersedes c;
  signature := signature c; tier := tier c; promotion_state := promotion_state c
|}.
Definition set_supersedes (c : Claim) (v : option string) : Claim := {|
  subject := subject c; predicate := predicate c; object := object c;
  valid_from := valid_from c; valid_to := valid_to c; tx_time := tx_time c;
  producer := producer c; confidence := confidence c; supersedes := v;
  signature := signature c; tier := tier c; promotion_state := promotion_state c
|}.

(** core/claim.rs:112-121 Claim::retire *)
Definition retire (self : Claim) (at_ : Z) : result Error Claim :=
  if at_ <=? valid_from self
  then Err (InvalidValidityWindow (valid_from self) at_)
  else Ok (set_valid_to self (Some at_)).

(** core/claim.rs:128-139 Claim::valid_at *)
Definition valid_at (self : Claim) (as_of : Z) : bool :=
  if as_of <? valid_from self then false
  else match valid_to self with
       | Some to => as_of <? to
       | None => true
       end.

(** core/claim.rs:141-151 Claim::validate *)
Definition validate (self : Claim) : result Error unit :=
  match valid_to self with
  | Some to =>
    if to <=? valid_from self
    then Err (InvalidValidityWindow (valid_from self) to) else Ok tt
  | None => Ok tt
  end.

(** core/claim.rs:156-159 Claim::canonical_bytes::text *)
Definition text (value : string) : list byte :=
  be_bytes 8 (str_len value) ++ str_bytes value.
(** core/claim.rs:160-165 Claim::canonical_bytes::optional_text *)
Definition optional_text (value : option string) : list byte := enc_option text value.

(** core/claim.rs:185-189 Claim::canonical_bytes, the tier *)
Definition tier_byte (t : Tier) : byte :=
  match t with Local => x00 | Primary => x01 | Tenant => x02 end.
(** core/claim.rs:190-195 Claim::canonical_bytes, the promotion state *)
Definition promotion_byte (p : PromotionState) : byte :=
  match p with Unpromoted => x00 | Pending => x01 | Promoted => x02 | Denied => x03 end.

Definition CLAIM_MAGIC : list byte := str_bytes "rrflow-claim-v1" ++ [x00].

(** core/claim.rs:155-197 Claim::canonical_bytes *)
Definition canonical_bytes (self : Claim) : list byte :=
  CLAIM_MAGIC
  ++ text (subject_str (subject self))
  ++ text (predicate_str (predicate self))
  ++ text (object self)
  ++ be_bytes 8 (valid_from self)
  ++ enc_option (be_bytes 8) (valid_to self)
  ++ be_bytes 8 (tx_time self)
  ++ text (actor (producer self))
  ++ optional_text (on_behalf_of (producer self))
  ++ optional_text (session (producer self))
  ++ enc_option (be_bytes 4) (confidence self)
  ++ optional_text (supersedes self)
  ++ optional_text (signature self)
  ++ [tier_byte (tier self)]
  ++ [promotion_byte (promotion_state self)].

Section Identity.
Context `{Sha2}.

(** core/claim.rs:200-202 Claim::digest *)
Definition digest (self : Claim) : string := sha256_hex (canonical_bytes self).

(** core/claim.rs:207-223 supersede *)
Definition supersede (previous successor : Claim) : result Error (Claim * Claim) :=
  if (negb (bool_decide (subject previous = subject successor))
      || negb (bool_decide (predicate previous = predicate successor)))%bool
  then Err SupersessionPairMismatch
  else if ((valid_from successor <=? valid_from previous)
           || (tx_time successor <=? tx_time previous))%bool
  then Err InvalidSupersessionOrder
  else
    let previous_id := digest previous in
    let retirement := set_valid_to previous (Some (valid_from successor)) in
    let retirement := set_tx_time retirement (tx_time successor) in
    let retirement := set_supersedes retirement (Some previous_id) in
    let successor := set_supersedes successor (Some previous_id) in
    do? validate retirement in
    do? validate successor in
    Ok (retirement, successor).
End Identity.

(** * The type invariant: integers at their width, strings of addressable length *)

Record wf_claim (c : Claim) : Prop := {
  wf_subject : str_len (subject_str (subject c)) < 2 ^ 64;
  wf_predicate : str_len (predicate_str (predicate c)) < 2 ^ 64;
  wf_object : str_len (object c) < 2 ^ 64;
  wf_valid_from : is_u64 (valid_from c);
  wf_valid_to : option_all is_u64 (valid_to c);
  wf_tx_time : is_u64 (tx_time c);
  wf_actor : str_len (actor (producer c)) < 2 ^ 64;
  wf_on_behalf_of : option_all (λ s, str_len s < 2 ^ 64) (on_behalf_of (producer c));
  wf_session : option_all (λ s, str_len s < 2 ^ 64) (session (producer c));
  wf_confidence : option_all is_u32 (confidence c);
  wf_supersedes : option_all (λ s, str_len s < 2 ^ 64) (supersedes c);
  wf_signature : option_all (λ s, str_len s < 2 ^ 64) (signature c)
}.

#[export] Instance tier_byte_inj : Inj (=) (=) tier_byte.
Proof. by intros [] []. Qed.
#[export] Instance promotion_byte_inj : Inj (=) (=) promotion_byte.
Proof. by intros [] []. Qed.

(** Peel one field off an equation between two concatenations of encodings. *)
Ltac peel H lem :=
  let E := fresh "F" in
  apply lem in H as [E H]; [|by eauto|by eauto].

(** The canonical bytes determine the claim: two well-formed claims with the same
    canonical bytes agree on every semantic and provenance field. *)
Theorem canonical_bytes_inj (c d : Claim) :
  wf_claim c → wf_claim d → canonical_bytes c = canonical_bytes d → c = d.
Proof.
  destruct c as [[s] [p] o vf vt tx [a ob se] cf su si ti pr],
    d as [[s'] [p'] o' vf' vt' tx' [a' ob' se'] cf' su' si' ti' pr'].
  intros [] [] Heq. unfold canonical_bytes in Heq; cbn [subject predicate object valid_from valid_to
    tx_time producer confidence supersedes signature tier promotion_state subject_str predicate_str
    actor on_behalf_of session] in *.
  apply app_inv_head in Heq. unfold optional_text, text in Heq.
  assert (self_delim (option_all is_u64) (enc_option (be_bytes 8))) as Hu
    by apply self_delim_option, (self_delim_be 8).
  assert (self_delim (option_all is_u32) (enc_option (be_bytes 4))) as Hf
    by apply self_delim_option, (self_delim_be 4).
  pose proof (self_delim_option _ _ self_delim_text) as Ht.
  do 3 peel Heq self_delim_text. peel Heq (self_delim_be 8). peel Heq Hu.
  peel Heq (self_delim_be 8). peel Heq self_delim_text. do 2 peel Heq Ht. peel Heq Hf.
  do 2 peel Heq Ht. peel Heq (self_delim_tag tier_byte _). peel Heq (self_delim_tag promotion_byte _).
  by subst.
Qed.

Lemma valid_at_spec c t :
  valid_at c t = true ↔ valid_from c ≤ t ∧ option_all (λ to, t < to) (valid_to c).
Proof.
  unfold valid_at. destruct (Z.ltb_spec t (valid_from c)) as [?|?]; [split; [done|lia]|].
  destruct (valid_to c); simpl; [rewrite Z.ltb_lt|]; intuition lia.
Qed.

Lemma validate_ok c :
  validate c = Ok tt ↔ option_all (λ to, valid_from c < to) (valid_to c).
Proof.
  unfold validate. destruct (valid_to c) as [to|]; simpl; [|done].
  destruct (Z.leb_spec to (valid_from c)); split; try done; lia.
Qed.

(** A validated claim holds at its own start. *)
Lemma validate_valid_at_start c : validate c = Ok tt → valid_at c (valid_from c) = true.
Proof. rewrite validate_ok, valid_at_spec. by split. Qed.

(** Retirement succeeds exactly after the start of the claim, changes nothing but the end
    of the window, yields a claim that validates, and the retired claim holds exactly on
    [valid_from, at); otherwise the inverted window is reported. *)
Theorem retire_spec (c : Claim) (at_ : Z) :
  (valid_from c < at_ →
     retire c at_ = Ok (set_valid_to c (Some at_))
     ∧ validate (set_valid_to c (Some at_)) = Ok tt
     ∧ ∀ t, valid_at (set_valid_to c (Some at_)) t = true ↔ valid_from c ≤ t < at_)
  ∧ (at_ ≤ valid_from c → retire c at_ = Err (InvalidValidityWindow (valid_from c) at_)).
Proof.
  unfold retire. split; intros Hat.
  - rewrite (proj2 (Z.leb_gt _ _)) by done. split_and!; [done|by apply validate_ok|].
    intros t. by rewrite valid_at_spec.
  - by rewrite (proj2 (Z.leb_le _ _)).
Qed.

(** A concrete claim for the witnesses. *)
Definition sample_claim (o : string) (vf tx : Z) : Claim :=
  Claim_new (MkSubject "wp3") (MkPredicate "status") o vf tx
    {| actor := "agent:clyffy"; on_behalf_of := None; session := Some "s-1" |}.

Example retire_spec_witness :
  retire (sample_claim "done" 100 100) 200 = Ok (set_valid_to (sample_claim "done" 100 100) (Some 200))
  ∧ retire (sample_claim "done" 100 100) 100 = Err (InvalidValidityWindow 100 100).
Proof.
  split.
  - apply (proj1 (retire_spec (sample_claim "done" 100 100) 200)). by vm_compute.
  - apply (proj2 (retire_spec (sample_claim "done" 100 100) 100)). by vm_compute.
Defined.

Example canonical_bytes_inj_witness :
  wf_claim (sample_claim "a" 1 2) ∧ sample_claim "a" 1 2 = sample_claim "a" 1 2.
Proof.
  assert (wf_claim (sample_claim "a" 1 2)) as Hwf by (split; vm_compute; intuition congruence).
  split; [exact Hwf|]. exact (canonical_bytes_inj _ _ Hwf Hwf eq_refl).
Defined.

Section Supersession.
Context `{Sha2}.

(** The two entries [supersede] emits. *)
Definition retirement_of (previous successor : Claim) : Claim :=
  set_supersedes (set_tx_time (set_valid_to previous (Some (valid_from successor)))
    (tx_time successor)) (Some (digest previous)).
Definition successor_of (previous successor : Claim) : Claim :=
  set_supersedes successor (Some (digest previous)).

Definition supersession_pair (previous successor : Claim) : Prop :=
  subject previous = subject successor ∧ predicate previous = predicate successor.
Definition supersession_order (previous successor : Claim) : Prop :=
  valid_from previous < valid_from successor ∧ tx_time previous < tx_time successor.

Lemma supersede_cases p s :
  supersede p s =
    if decide (supersession_pair p s) then
      if decide (supersession_order p s) then
        (do? validate s in Ok (retirement_of p s, successor_of p s))
      else Err InvalidSupersessionOrder
    else Err SupersessionPairMismatch.
Proof.
  unfold supersede, supersession_pair, supersession_order.
  repeat case_bool_decide; simpl;
    destruct (Z.leb_spec (valid_from s) (valid_from p)), (Z.leb_spec (tx_time s) (tx_time p));
    simpl; repeat case_decide; try tauto; try lia.
  assert (validate (retirement_of p s) = Ok tt) as Hr by (by apply validate_ok).
  fold (retirement_of p s) (successor_of p s). rewrite Hr.
  by replace (validate (successor_of p s)) with (validate s) by done.
Qed.

(** [supersede] emits the pair exactly when both claims name one subject and predicate,
    the successor starts strictly later and is recorded strictly later, and the successor's
    own window is not inverted; each failure is reported as its own error.  The retirement
    keeps every field of the original but the window end, the record time and the link, so
    it is a correction of the same logical claim, and the two emitted windows are disjoint. *)
Theorem supersede_spec (previous successor : Claim) :
  (∀ r s, supersede previous successor = Ok (r, s) ↔
     supersession_pair previous successor ∧ supersession_order previous successor
     ∧ validate successor = Ok tt
     ∧ r = retirement_of previous successor ∧ s = successor_of previous successor)
  ∧ (supersede previous successor = Err SupersessionPairMismatch
       ↔ ¬ supersession_pair previous successor)
  ∧ (supersede previous successor = Err InvalidSupersessionOrder
       ↔ supersession_pair previous successor ∧ ¬ supersession_order previous successor)
  ∧ (∀ t, valid_at (retirement_of previous successor) t = true →
          valid_at (successor_of previous successor) t = false).
Proof.
  rewrite supersede_cases.
  assert (∀ e, validate successor = Err e → e ≠ SupersessionPairMismatch ∧ e ≠ InvalidSupersessionOrder)
    as Hv.
  { intros e. unfold validate. destruct (valid_to successor); [|done]. case_match; naive_solver. }
  split_and!.
  - intros r s. repeat case_decide; try (destruct (validate successor) as [[]|]); naive_solver.
  - repeat case_decide; try (destruct (validate successor) as [[]|] eqn:E); naive_solver.
  - repeat case_decide; try (destruct (validate successor) as [[]|] eqn:E); naive_solver.
  - intros t [_ Ht]%valid_at_spec. apply not_true_is_false. intros [Hs _]%valid_at_spec.
    simpl in *. lia.
Qed.
End Supersession.

Example supersede_spec_witness :
  @supersede toy_sha2 (sample_claim "open" 100 100) (sample_claim "done" 200 250)
    = Ok (@retirement_of toy_sha2 (sample_claim "open" 100 100) (sample_claim "done" 200 250),
          @successor_of toy_sha2 (sample_claim "open" 100 100) (sample_claim "done" 200 250)).
Proof.
  apply (proj1 (@supersede_spec toy_sha2 (sample_claim "open" 100 100) (sample_claim "done" 200 250))).
  by vm_compute.
Defined.
