(* ===== verification/Temporal.v ===== *)
(** Bi-temporal resolution, the storage port and its in-memory reference
    ([rrd-core]: temporal.rs, reference.rs).

    [ClaimSource] is the port an adapter implements; [ClaimSourceLaws] is the contract its
    doc comments state.  Everything about reading claims is proved against the contract, and
    [MemoryClaims], the grounding reference, discharges it. *)

From S2P Require Import Prelude Machine BTree Ident Digest Claim.
From Equations Require Import Equations.
Open Scope Z_scope.

(** * Resolution *)

(** The inner [while] of [resolve_as_of]: skip the rest of one valid-time group. *)
(** core/temporal.rs:69-71 resolve_as_of, the corrections of one instant *)
Fixpoint skip_group (vf : Z) (candidates : list Claim) : list Claim :=
  match candidates with
  | c :: rest => if valid_from c =? vf then skip_group vf rest else candidates
  | [] => []
  end.

Lemma skip_group_length vf l : (length (skip_group vf l) ≤ length l)%nat.
Proof. induction l as [|c l IH]; simpl; [lia|]. case_match; simpl; lia. Qed.

(** core/temporal.rs:61-77 resolve_as_of; the argument is the slice from [index] on. *)
Equations? resolve_as_of (candidates : list Claim) (as_of : Z) : option Claim
  by wf (length candidates) lt :=
  resolve_as_of [] as_of := None;
  resolve_as_of (c :: rest) as_of :=
    if valid_at c as_of then Some c
    else resolve_as_of (skip_group (valid_from c) (c :: rest)) as_of.
Proof. rewrite Z.eqb_refl. pose proof (skip_group_length (valid_from c) rest). lia. Qed.

(** core/temporal.rs:84-86 changed_since *)
Definition changed_since (claims : list Claim) (since : Z) : list Claim :=
  List.filter (λ c, since <? tx_time c) claims.

(** * The port *)

(** core/temporal.rs:13-51 ClaimSource *)
Class ClaimSource (S E : Type) := {
  versions_at_or_before : S → Subject → Predicate → Z → result E (list Claim);
  all_versions : S → Subject → Predicate → result E (list Claim);
  subject_versions : S → Subject → result E (list Claim)
}.

Section Reader.
Context {S E : Type} `{ClaimSource S E}.

(** core/temporal.rs:45-50 ClaimSource::subject_versions_batch *)
Fixpoint subject_versions_batch (self : S) (subjects : list Subject) : result E (list (list Claim)) :=
  match subjects with
  | [] => Ok []
  | s :: subjects =>
    let? v := subject_versions self s in
    let? vs := subject_versions_batch self subjects in
    Ok (v :: vs)
  end.

(** core/temporal.rs:90-98 ClaimReader::as_of *)
Definition as_of (self : S) (s : Subject) (p : Predicate) (at_ : Z) : result E (option Claim) :=
  let? candidates := versions_at_or_before self s p at_ in
  Ok (resolve_as_of candidates at_).

(** core/temporal.rs:102-109 ClaimReader::current *)
Definition current (self : S) (s : Subject) (p : Predicate) (now : Z) : result E (option Claim) :=
  as_of self s p now.

(** core/temporal.rs:111-113 ClaimReader::history *)
Definition history (self : S) (s : Subject) (p : Predicate) : result E (list Claim) :=
  all_versions self s p.
End Reader.

(** * The reference implementation *)

(** core/reference.rs:21-26 ClaimOrder; the derived order compares the fields in turn. *)
Abbreviation ClaimOrder := (Subject * (Predicate * (reverse Z * reverse Z)))%type.

(** core/reference.rs:28-37 From<&Claim> for ClaimOrder *)
Definition claim_order (c : Claim) : ClaimOrder :=
  (subject c, (predicate c, (Reverse (valid_from c), Reverse (tx_time c)))).

(** core/reference.rs:40-42 MemoryClaims *)
Record MemoryClaims := MkMemoryClaims { rows : list (ClaimOrder * Claim) }.

(** core/reference.rs:45-47 MemoryClaims::new *)
Definition MemoryClaims_new : MemoryClaims := MkMemoryClaims [].

(** core/reference.rs:49-53 MemoryClaims::insert *)
Definition insert (self : MemoryClaims) (claim : Claim) : result Error MemoryClaims :=
  do? validate claim in
  Ok (MkMemoryClaims (bt_insert (claim_order claim) claim (rows self))).

(** core/reference.rs:64-66 MemoryClaims::iter *)
Definition iter (self : MemoryClaims) : list Claim := map snd (rows self).

(** core/reference.rs:68-83 MemoryClaims::versions *)
Definition versions (self : MemoryClaims) (s : Subject) (p : Predicate) (as_of : option Z) : list Claim :=
  List.filter (λ claim,
    (bool_decide (subject claim = s) && bool_decide (predicate claim = p)
     && match as_of with Some at_ => valid_from claim <=? at_ | None => true end)%bool)
    (iter self).

(** core/reference.rs:86-114 ClaimSource for MemoryClaims *)
#[export] Instance memory_claim_source : ClaimSource MemoryClaims Empty_set := {
  versions_at_or_before self s p as_of := Ok (versions self s p (Some as_of));
  all_versions self s p := Ok (versions self s p None);
  subject_versions self s :=
    Ok (List.filter (λ claim, bool_decide (subject claim = s)) (iter self))
}.

(** * Specification of resolution *)

(** The version order of one subject and predicate: newest valid time first, newest
    correction first within one valid time. *)
Definition newer (c d : Claim) : Prop :=
  valid_from d < valid_from c ∨ (valid_from d = valid_from c ∧ tx_time d < tx_time c).

(** The latest correction among the versions that start when [c] starts. *)
Definition newest_correction (vs : list Claim) (c : Claim) : Prop :=
  c ∈ vs ∧ ∀ d, d ∈ vs → valid_from d = valid_from c → tx_time d ≤ tx_time c.

(** The claim in force at [t]: the latest-starting newest correction whose window holds [t]. *)
Definition in_force (vs : list Claim) (t : Z) (c : Claim) : Prop :=
  newest_correction vs c ∧ valid_at c t = true
  ∧ ∀ d, newest_correction vs d → valid_at d t = true → valid_from d ≤ valid_from c.

Lemma skip_group_spec vf l :
  StronglySorted newer l → Forall (λ d, valid_from d ≤ vf) l →
  StronglySorted newer (skip_group vf l)
  ∧ (∀ d, d ∈ skip_group vf l ↔ d ∈ l ∧ valid_from d < vf).
Proof.
  induction 1 as [|c l Hs IH Hall]; intros Hle; simpl; [set_solver by constructor|].
  rewrite Forall_cons in Hle. destruct Hle as [Hc Hle].
  destruct (Z.eqb_spec (valid_from c) vf) as [Heq|Hne].
  - destruct (IH Hle) as [? Hiff]. split; [done|]. intros d. rewrite Hiff, elem_of_cons.
    split; [naive_solver|]. intros [[->|?] ?]; [lia|done].
  - split; [by constructor|]. intros d. split; [|naive_solver].
    intros Hd. split; [done|]. apply elem_of_cons in Hd as [->|Hd]; [lia|].
    rewrite Forall_forall in Hall. specialize (Hall d Hd). unfold newer in Hall. lia.
Qed.

Lemma newest_correction_skip vs c d :
  StronglySorted newer (c :: vs) → valid_from d ≠ valid_from c →
  newest_correction (skip_group (valid_from c) (c :: vs)) d ↔ newest_correction (c :: vs) d.
Proof.
  intros Hs Hne. apply StronglySorted_inv in Hs as Hinv. destruct Hinv as [Hs' Hall].
  destruct (skip_group_spec (valid_from c) (c :: vs)) as [_ Hin]; [done| |].
  { constructor; [lia|]. eapply Forall_impl; [exact Hall|]. unfold newer. intros; lia. }
  assert (∀ e, e ∈ c :: vs → valid_from e ≤ valid_from c) as Hle.
  { intros e [->|He]%elem_of_cons; [lia|]. rewrite Forall_forall in Hall.
    specialize (Hall e He). unfold newer in Hall. lia. }
  unfold newest_correction. setoid_rewrite Hin. split.
  - intros [[Hd Hlt] Hmax]. split; [done|]. intros e He Heq. apply Hmax; [|done]. split; [done|lia].
  - intros [Hd Hmax]. pose proof (Hle d Hd). split; [split; [done|lia]|].
    intros e [He _]. by apply Hmax.
Qed.

Lemma newest_correction_head vs c d :
  StronglySorted newer (c :: vs) → newest_correction (c :: vs) d →
  valid_from d = valid_from c → d = c.
Proof.
  intros [_ Hall]%StronglySorted_inv [Hd Hmax] Heq. apply elem_of_cons in Hd as [->|Hd]; [done|].
  rewrite Forall_forall in Hall. specialize (Hall d Hd). unfold newer in Hall.
  assert (tx_time c ≤ tx_time d) by (apply Hmax; [set_solver|lia]). lia.
Qed.

Lemma head_newest_correction vs c :
  StronglySorted newer (c :: vs) → newest_correction (c :: vs) c.
Proof.
  intros [_ Hall]%StronglySorted_inv. split; [set_solver|].
  intros d [->|Hd]%elem_of_cons Heq; [lia|]. rewrite Forall_forall in Hall.
  specialize (Hall d Hd). unfold newer in Hall. lia.
Qed.

(** Resolution computes the claim in force on every newest-first candidate list. *)
Lemma resolve_in_force l t c :
  StronglySorted newer l → resolve_as_of l t = Some c ↔ in_force l t c.
Proof.
  funelim (resolve_as_of l t); simp resolve_as_of; intros Hs.
  { split; [done|]. intros [[? _] _]. set_solver. }
  pose proof (head_newest_correction _ _ Hs) as Hhead.
  assert (∀ d, d ∈ c :: rest → valid_from d ≤ valid_from c) as Hle.
  { apply StronglySorted_inv in Hs as [_ Hall]. rewrite Forall_forall in Hall.
    intros d [->|Hd]%elem_of_cons; [lia|]. specialize (Hall d Hd). unfold newer in Hall. lia. }
  destruct (valid_at c as_of0) eqn:Hv.
  - split.
    + intros [=<-]. split_and!; [done|done|]. intros d [Hd _] _. by apply Hle.
    + intros (Hn & _ & Hmax). f_equal. symmetry.
      eapply newest_correction_head; [exact Hs|exact Hn|].
      destruct Hn as [Hd _]. specialize (Hle _ Hd). specialize (Hmax c Hhead Hv). lia.
  - rewrite H by (apply skip_group_spec; [done|]; by apply Forall_forall).
    assert (∀ d, newest_correction (skip_group (valid_from c) (c :: rest)) d →
                 valid_from d ≠ valid_from c) as Hskip.
    { intros d [Hd _] Heq. apply skip_group_spec in Hd; [lia|done|by apply Forall_forall]. }
    assert (∀ d, newest_correction (c :: rest) d → valid_at d as_of0 = true →
                 valid_from d ≠ valid_from c) as Hother.
    { intros d Hd Hvd Heq. apply (newest_correction_head _ _ _ Hs) in Hd; [congruence|done]. }
    unfold in_force. split.
    + intros (Hn & Hv' & Hmax). pose proof (Hskip _ Hn).
      apply newest_correction_skip in Hn; [|done|done]. split_and!; [done|done|].
      intros d Hd Hvd. apply Hmax; [|done]. by apply newest_correction_skip; eauto.
    + intros (Hn & Hv' & Hmax). pose proof (Hother _ Hn Hv').
      split_and!; [by apply newest_correction_skip|done|].
      intros d Hd Hvd. pose proof (Hskip _ Hd). apply Hmax; [|done].
      by apply newest_correction_skip in Hd.
Qed.

(** * The contract of the port *)

Definition of_pair (s : Subject) (p : Predicate) (c : Claim) : Prop :=
  subject c = s ∧ predicate c = p.

(** Ordered by predicate, newest first within each predicate. *)
Definition subject_order (c d : Claim) : Prop :=
  cmp (predicate c) (predicate d) = Lt ∨ (predicate c = predicate d ∧ newer c d).

(** [l] lists, in the order [R], exactly the claims of [contents] that satisfy [P]. *)
Definition lists (R : Claim → Claim → Prop) (contents l : list Claim) (P : Claim → Prop) : Prop :=
  StronglySorted R l ∧ ∀ c, c ∈ l ↔ c ∈ contents ∧ P c.

Class ClaimSourceLaws (S E : Type) `{ClaimSource S E} (ok : S → Prop)
    (contents : S → list Claim) : Prop := {
  law_at_or_before : ∀ st s p t, ok st → ∃ l, versions_at_or_before st s p t = Ok l
    ∧ lists newer (contents st) l (λ c, of_pair s p c ∧ valid_from c ≤ t);
  law_all_versions : ∀ st s p, ok st → ∃ l, all_versions st s p = Ok l
    ∧ lists newer (contents st) l (of_pair s p);
  law_subject_versions : ∀ st s, ok st → ∃ l, subject_versions st s = Ok l
    ∧ lists subject_order (contents st) l (λ c, subject c = s)
}.

#[export] Instance newer_strict : StrictOrder newer.
Proof. split; [intros c|intros c d e]; unfold complement, newer; lia. Qed.

(** A strict order lists a set in one way only. *)
Lemma sorted_unique (R : Claim → Claim → Prop) `{!StrictOrder R} l k :
  StronglySorted R l → StronglySorted R k → (∀ c, c ∈ l ↔ c ∈ k) → l = k.
Proof.
  intros Hl. revert k. induction Hl as [|c l Hl IH Hcl]; intros k Hk Hiff.
  { destruct k as [|d k]; [done|]. specialize (Hiff d). set_solver. }
  destruct Hk as [|d k Hk Hdk]; [specialize (Hiff c); set_solver|].
  rewrite Forall_forall in Hcl, Hdk.
  assert (c = d) as <-.
  { destruct (proj1 (elem_of_cons k c d) (proj1 (Hiff c) ltac:(set_solver))) as [|Hc]; [done|].
    destruct (proj1 (elem_of_cons l d c) (proj2 (Hiff d) ltac:(set_solver))) as [|Hd]; [done|].
    exfalso. apply (irreflexivity R c). transitivity d; auto. }
  f_equal. apply IH; [done|]. intros e. specialize (Hiff e). rewrite !elem_of_cons in Hiff.
  split; intros He.
  - destruct (proj1 Hiff (or_intror He)) as [->|]; [|done].
    exfalso. apply (irreflexivity R c). by apply Hcl.
  - destruct (proj2 Hiff (or_intror He)) as [->|]; [|done].
    exfalso. apply (irreflexivity R c). by apply Hdk.
Qed.

(** Candidates that start after [t] play no part in what is in force at [t]. *)
Lemma in_force_candidates vs l t c :
  (∀ d, d ∈ l ↔ d ∈ vs ∧ valid_from d ≤ t) → in_force l t c ↔ in_force vs t c.
Proof.
  intros Hl.
  assert (∀ d, valid_at d t = true → newest_correction l d ↔ newest_correction vs d) as Hn.
  { intros d [Hd _]%valid_at_spec. unfold newest_correction. setoid_rewrite Hl. split.
    - intros [[? _] Hmax]. split; [done|]. intros e He Heq. apply Hmax; [|done]. split; [done|lia].
    - intros [? Hmax]. split; [done|]. intros e [He _]. by apply Hmax. }
  unfold in_force. split.
  - intros (Hc & Hv & Hmax). split_and!; [by apply Hn|done|].
    intros d Hd Hvd. apply Hmax; [|done]. by apply Hn.
  - intros (Hc & Hv & Hmax). split_and!; [by apply Hn|done|].
    intros d Hd Hvd. apply Hmax; [|done]. by apply Hn.
Qed.

Lemma in_force_ext vs vs' t c :
  (∀ d, d ∈ vs ↔ d ∈ vs') → in_force vs t c ↔ in_force vs' t c.
Proof.
  intros Hvs. unfold in_force, newest_correction. by setoid_rewrite Hvs.
Qed.

Definition pair_versions (contents : list Claim) (s : Subject) (p : Predicate) : list Claim :=
  List.filter (λ c, bool_decide (subject c = s) && bool_decide (predicate c = p))%bool contents.

Lemma elem_of_filter_true {A} (f : A → bool) l x : x ∈ List.filter f l ↔ x ∈ l ∧ f x = true.
Proof. by rewrite !list_elem_of_In, filter_In. Qed.

Lemma elem_of_pair_versions contents s p c :
  c ∈ pair_versions contents s p ↔ c ∈ contents ∧ of_pair s p c.
Proof.
  unfold pair_versions, of_pair. by rewrite elem_of_filter_true, andb_true_iff, !bool_decide_eq_true.
Qed.

Section Contract.
Context {S E : Type} `{ClaimSource S E} (ok : S → Prop) (contents : S → list Claim).
Context `{!ClaimSourceLaws S E ok contents}.

Lemma as_of_resolves st s p t :
  ok st → ∃ r, as_of st s p t = Ok r
    ∧ ∀ c, r = Some c ↔ in_force (pair_versions (contents st) s p) t c.
Proof.
  intros Hok. destruct (law_at_or_before st s p t Hok) as (l & Hl & Hs & Hiff).
  exists (resolve_as_of l t). unfold as_of. rewrite Hl. split; [done|]. intros c.
  rewrite resolve_in_force by done. apply in_force_candidates. intros d.
  rewrite Hiff, elem_of_pair_versions. naive_solver.
Qed.
End Contract.

(** Through any adapter that honours the port contract, [as_of] never fails and returns
    the claim in force: the latest-starting newest correction of the pair whose half-open
    window contains the instant, and nothing exactly when no claim is in force.  A claim
    whose newest correction retired it is never resurrected by its open predecessor. *)
Theorem as_of_returns_claim_in_force {S E : Type} `{ClaimSource S E}
    (ok : S → Prop) (contents : S → list Claim) `{!ClaimSourceLaws S E ok contents}
    (st : S) (s : Subject) (p : Predicate) (t : Z) :
  ok st → ∃ r, as_of st s p t = Ok r
    ∧ (∀ c, r = Some c ↔ in_force (pair_versions (contents st) s p) t c)
    ∧ (r = None ↔ ∀ c, ¬ in_force (pair_versions (contents st) s p) t c).
Proof.
  intros Hok. destruct (as_of_resolves ok contents st s p t Hok) as (r & Hr & Hiff).
  exists r. split_and!; [done|done|]. setoid_rewrite <-Hiff. destruct r; naive_solver.
Qed.

(** Two adapters that honour the contract and hold the same claims are
    indistinguishable: they answer every [as_of] and every [history] identically.  This is
    the grounding criterion: an adapter is correct when it returns what the reference
    returns for the same claims. *)
Theorem lawful_sources_agree {S1 E1 S2 E2 : Type} `{ClaimSource S1 E1} `{ClaimSource S2 E2}
    (ok1 : S1 → Prop) (contents1 : S1 → list Claim) `{!ClaimSourceLaws S1 E1 ok1 contents1}
    (ok2 : S2 → Prop) (contents2 : S2 → list Claim) `{!ClaimSourceLaws S2 E2 ok2 contents2}
    (st1 : S1) (st2 : S2) (s : Subject) (p : Predicate) (t : Z) :
  ok1 st1 → ok2 st2 → (∀ c, c ∈ contents1 st1 ↔ c ∈ contents2 st2) →
  (∃ r, as_of st1 s p t = Ok r ∧ as_of st2 s p t = Ok r)
  ∧ (∃ l, history st1 s p = Ok l ∧ history st2 s p = Ok l).
Proof.
  intros H1 H2 Hc. split.
  - destruct (law_at_or_before st1 s p t H1) as (l1 & Hl1 & Hs1 & Hi1).
    destruct (law_at_or_before st2 s p t H2) as (l2 & Hl2 & Hs2 & Hi2).
    assert (l1 = l2) as <-.
    { apply (sorted_unique newer); [done|done|]. intros c. by rewrite Hi1, Hi2, Hc. }
    exists (resolve_as_of l1 t). unfold as_of. by rewrite Hl1, Hl2.
  - destruct (law_all_versions st1 s p H1) as (l1 & Hl1 & Hs1 & Hi1).
    destruct (law_all_versions st2 s p H2) as (l2 & Hl2 & Hs2 & Hi2).
    assert (l1 = l2) as <-.
    { apply (sorted_unique newer); [done|done|]. intros c. by rewrite Hi1, Hi2, Hc. }
    by exists l1.
Qed.

(** * The reference implementation honours the contract *)

(** Every row sits under the key of its own claim, in key order, and validates. *)
Definition memory_ok (st : MemoryClaims) : Prop :=
  bt_sorted (rows st)
  ∧ ∀ k c, (k, c) ∈ rows st → k = claim_order c ∧ validate c = Ok tt.

Lemma claim_order_inj c d :
  claim_order c = claim_order d ↔
  subject c = subject d ∧ predicate c = predicate d ∧ valid_from c = valid_from d ∧ tx_time c = tx_time d.
Proof.
  unfold claim_order. split; [by intros [=]|]. intros (H1 & H2 & H3 & H4). by rewrite H1, H2, H3, H4.
Qed.

Lemma claim_order_lt c d :
  subject c = subject d → ltb (claim_order c) (claim_order d) = true → subject_order c d.
Proof.
  intros Hsub. rewrite ltb_lt. unfold claim_order, subject_order, newer.
  rewrite !cmp_pair, !cmp_reverse, !cmp_Z, Hsub, cmp_refl.
  destruct (cmp (predicate c) (predicate d)) eqn:E; [|by left|done].
  apply cmp_eq in E. rewrite E. intros Hlt. right. split; [done|].
  destruct (Z.compare_spec (valid_from d) (valid_from c)); [|lia|done].
  rewrite cmp_Z, Z.compare_lt_iff in Hlt. by right.
Qed.

Lemma elem_of_iter st c :
  memory_ok st → c ∈ iter st ↔ bt_get (claim_order c) (rows st) = Some c.
Proof.
  intros [Hs Hk]. unfold iter. rewrite (bt_get_Some _ _ _ Hs), list_elem_of_fmap. split.
  - intros ([k c'] & -> & Hin). destruct (Hk _ _ Hin) as [-> _]. done.
  - intros Hin. by exists (claim_order c, c).
Qed.

(** Filtering a subject out of the rows keeps them in subject order. *)
Lemma iter_sorted st s (P : Claim → bool) :
  memory_ok st → (∀ c, P c = true → subject c = s) →
  StronglySorted subject_order (List.filter P (iter st)).
Proof.
  intros [Hs Hk] HP. unfold iter. revert Hs Hk. generalize (rows st) as m.
  unfold bt_sorted. induction 1 as [|[k c] m Hs IH Hall]; intros Hk; simpl; [constructor|].
  assert (StronglySorted subject_order (List.filter P (map snd m))) as Htail.
  { apply IH. intros; apply Hk; set_solver. }
  destruct (P c) eqn:HPc; [|done]. constructor; [done|].
  apply Forall_forall. intros d Hd%elem_of_filter_true. destruct Hd as [Hd HPd].
  apply list_elem_of_fmap in Hd as ([k' d'] & -> & Hd). simpl in *.
  rewrite Forall_forall in Hall. specialize (Hall _ Hd). unfold bt_lt in Hall; simpl in Hall.
  destruct (Hk k c) as [-> _]; [set_solver|]. destruct (Hk k' d') as [-> _]; [set_solver|].
  apply claim_order_lt; [|done]. rewrite (HP _ HPc), (HP _ HPd). done.
Qed.

Lemma subject_order_newer l p :
  StronglySorted subject_order l → Forall (λ c, predicate c = p) l → StronglySorted newer l.
Proof.
  induction 1 as [|c l Hs IH Hall]; intros Hp; [constructor|].
  rewrite Forall_cons in Hp. destruct Hp as [Hc Hp]. constructor; [by apply IH|].
  rewrite Forall_forall in *. intros d Hd. destruct (Hall d Hd) as [Hlt|[_ ?]]; [|done].
  rewrite Hc, (Hp d Hd), cmp_refl in Hlt. done.
Qed.

Lemma versions_lists st s p o :
  memory_ok st →
  lists newer (iter st) (versions st s p o)
    (λ c, of_pair s p c ∧ option_all (λ t, valid_from c ≤ t) o).
Proof.
  intros Hok.
  assert (∀ c, (bool_decide (subject c = s) && bool_decide (predicate c = p)
     && match o with Some at_ => valid_from c <=? at_ | None => true end)%bool = true
     ↔ of_pair s p c ∧ option_all (λ t, valid_from c ≤ t) o) as HP.
  { intros c. unfold of_pair, option_all.
    destruct o; rewrite !andb_true_iff, !bool_decide_eq_true, ?Z.leb_le; tauto. }
  unfold versions. split.
  - apply (subject_order_newer _ p).
    + apply (iter_sorted st s); [done|]. intros c Hc%HP. apply Hc.
    + apply Forall_forall. intros c [_ Hc%HP]%elem_of_filter_true. apply Hc.
  - intros c. by rewrite elem_of_filter_true, HP.
Qed.

#[export] Instance memory_claim_source_laws :
  ClaimSourceLaws MemoryClaims Empty_set memory_ok iter.
Proof.
  split.
  - intros st s p t Hok. eexists. split; [done|]. apply (versions_lists st s p (Some t) Hok).
  - intros st s p Hok. eexists. split; [done|].
    destruct (versions_lists st s p None Hok) as [Hs Hiff]. split; [done|].
    intros c. rewrite Hiff. simpl. tauto.
  - intros st s Hok. eexists. split; [done|]. split.
    + apply (iter_sorted st s); [done|]. by intros c ?%bool_decide_eq_true.
    + intros c. by rewrite elem_of_filter_true, bool_decide_eq_true.
Qed.

Lemma memory_new_ok : memory_ok MemoryClaims_new.
Proof. split; [constructor|set_solver]. Qed.

Lemma insert_ok st c :
  memory_ok st → validate c = Ok tt →
  ∃ st', insert st c = Ok st' ∧ memory_ok st'
    ∧ ∀ d, d ∈ iter st' ↔ d = c ∨ (d ∈ iter st ∧ claim_order d ≠ claim_order c).
Proof.
  intros Hok Hv. exists (MkMemoryClaims (bt_insert (claim_order c) c (rows st))).
  assert (memory_ok (MkMemoryClaims (bt_insert (claim_order c) c (rows st)))) as Hok'.
  { destruct Hok as [Hs Hk]. split; simpl; [by apply bt_insert_sorted|].
    intros k d [[=-> ->]|Hin]%bt_insert_elem; [done|by apply Hk]. }
  unfold insert. rewrite Hv. split_and!; [done|done|].
  intros d. rewrite !elem_of_iter by done. simpl.
  destruct (cmp (claim_order c) (claim_order d)) eqn:E.
  - apply cmp_eq in E. rewrite <-E, bt_get_insert_eq. naive_solver.
  - assert (claim_order c ≠ claim_order d) by (intros Heq; rewrite Heq, cmp_refl in E; done).
    rewrite bt_get_insert_ne by done. naive_solver.
  - assert (claim_order c ≠ claim_order d) by (intros Heq; rewrite Heq, cmp_refl in E; done).
    rewrite bt_get_insert_ne by done. naive_solver.
Qed.

(** [MemoryClaims::insert] refuses a claim with an inverted window and changes nothing;
    otherwise it succeeds, keeps the store's invariant (ordered rows, each under its own key
    and validated), and the store then holds the new claim and every earlier one that does
    not have the same subject, predicate, valid time and transaction time. *)
Theorem memory_insert_spec (st : MemoryClaims) (c : Claim) :
  memory_ok st →
  match validate c with
  | Err e => insert st c = Err e
  | Ok _ => ∃ st', insert st c = Ok st' ∧ memory_ok st'
      ∧ ∀ d, d ∈ iter st' ↔ d = c ∨ (d ∈ iter st ∧ claim_order d ≠ claim_order c)
  end.
Proof.
  intros Hok. destruct (validate c) as [[]|e] eqn:Hv; [by apply insert_ok|].
  unfold insert. by rewrite Hv.
Qed.

(** * Supersession through the reference store *)

Lemma as_of_memory_in_force st s p t c :
  memory_ok st → in_force (pair_versions (iter st) s p) t c →
  as_of st s p t = Ok (Some c).
Proof.
  intros Hok Hc. destruct (as_of_resolves memory_ok iter st s p t Hok) as (r & -> & Hr).
  apply Hr in Hc. by subst.
Qed.

Lemma as_of_memory_same st st' s p t :
  memory_ok st → memory_ok st' →
  (∀ c, of_pair s p c → valid_from c ≤ t → c ∈ iter st ↔ c ∈ iter st') →
  as_of st s p t = as_of st' s p t.
Proof.
  intros Hok Hok' Hsame. unfold as_of. simpl.
  destruct (versions_lists st s p (Some t) Hok) as [Hs Hi].
  destruct (versions_lists st' s p (Some t) Hok') as [Hs' Hi'].
  do 2 f_equal. apply (sorted_unique newer); [done|done|].
  intros c. rewrite Hi, Hi'. simpl. naive_solver.
Qed.

Section Supersede.
Context `{Sha2}.

(** [p] is the newest correction of the latest valid-time start of its pair. *)
Definition latest_of_pair (st : MemoryClaims) (p : Claim) : Prop :=
  p ∈ iter st
  ∧ ∀ d, d ∈ iter st → of_pair (subject p) (predicate p) d →
      valid_from d < valid_from p ∨ (valid_from d = valid_from p ∧ tx_time d ≤ tx_time p).

Lemma supersede_inserts st p s r s' :
  memory_ok st → latest_of_pair st p → supersede p s = Ok (r, s') →
  ∃ st1 st2, insert st r = Ok st1 ∧ insert st1 s' = Ok st2 ∧ memory_ok st2
    ∧ ∀ d, d ∈ iter st2 ↔ d = s' ∨ d = r ∨ d ∈ iter st.
Proof.
  intros Hok [Hp Hlatest] Hsup. rewrite supersede_cases in Hsup.
  case_decide as Hpair; [|done]. case_decide as Hord; [|done].
  destruct (validate s) as [[]|] eqn:Hvs; [|done]. simplify_eq/=.
  destruct Hpair as [Hsub Hpred], Hord as [Hvf Htx].
  destruct (insert_ok st (retirement_of p s)) as (st1 & H1 & Hok1 & Hin1);
    [done|by apply validate_ok|].
  destruct (insert_ok st1 (successor_of p s)) as (st2 & H2 & Hok2 & Hin2); [done|done|].
  exists st1, st2. split_and!; [done|done|done|]. intros d. rewrite Hin2, Hin1.
  split; [naive_solver|].
  assert (∀ d, d ∈ iter st → claim_order d ≠ claim_order (retirement_of p s)) as Hfr.
  { intros e He (H1' & H2' & H3' & H4')%claim_order_inj. simpl in *.
    destruct (Hlatest e He); [by split|lia|lia]. }
  assert (∀ d, d ∈ iter st → claim_order d ≠ claim_order (successor_of p s)) as Hfs.
  { intros e He (H1' & H2' & H3' & H4')%claim_order_inj. simpl in *.
    destruct (Hlatest e He); [split; congruence|lia|lia]. }
  assert (claim_order (retirement_of p s) ≠ claim_order (successor_of p s)) as Hrs.
  { intros (H1' & H2' & H3' & H4')%claim_order_inj. simpl in *. lia. }
  intros [->|[->|Hd]]; [by left|right; by auto|right]. split; [right; by auto|by auto].
Qed.

(** Superseding the latest claim of a pair through the reference store changes exactly
    what it should: both entries are accepted; before the old claim started every answer is
    unchanged; from there up to the successor's start the retirement correction answers;
    from the successor's start on the successor answers as long as its own window holds; and
    the original log entry is still stored. *)
Theorem supersession_resolves (st : MemoryClaims) (p s r s' : Claim) :
  memory_ok st → latest_of_pair st p → supersede p s = Ok (r, s') →
  ∃ st1 st2, insert st r = Ok st1 ∧ insert st1 s' = Ok st2 ∧ memory_ok st2 ∧ p ∈ iter st2
    ∧ (∀ t, t < valid_from p →
         as_of st2 (subject p) (predicate p) t = as_of st (subject p) (predicate p) t)
    ∧ (∀ t, valid_from p ≤ t < valid_from s →
         as_of st2 (subject p) (predicate p) t = Ok (Some r))
    ∧ (∀ t, valid_at s' t = true →
         as_of st2 (subject p) (predicate p) t = Ok (Some s')).
Proof.
  intros Hok Hlatest Hsup.
  destruct (supersede_inserts st p s r s' Hok Hlatest Hsup) as (st1 & st2 & H1 & H2 & Hok2 & Hin).
  exists st1, st2. rewrite supersede_cases in Hsup.
  case_decide as Hpair; [|done]. case_decide as Hord; [|done].
  destruct (validate s) as [[]|] eqn:Hvs; [|done]. simplify_eq/=.
  destruct Hpair as [Hsub Hpred], Hord as [Hvf Htx], Hlatest as [Hp Hlatest].
  assert (∀ d, d ∈ pair_versions (iter st2) (subject p) (predicate p) ↔
    d = successor_of p s ∨ d = retirement_of p s
    ∨ d ∈ iter st ∧ of_pair (subject p) (predicate p) d) as Hpv.
  { intros d. rewrite elem_of_pair_versions, Hin. unfold of_pair. naive_solver. }
  split_and!; [done|done|done|by apply Hin; auto|..].
  - intros t Ht. apply as_of_memory_same; [done|done|]. intros c [Hcs Hcp] Hct.
    rewrite Hin. split; [|by auto]. intros [->|[->|?]]; simpl in *; [lia|lia|done].
  - intros t Ht. apply as_of_memory_in_force; [done|]. split_and!; [split|..].
    + apply Hpv; auto.
    + intros d [->|[->|[Hd Hdp]]]%Hpv Heq; simpl in *; [lia|lia|].
      destruct (Hlatest d Hd Hdp); lia.
    + apply valid_at_spec. simpl. lia.
    + intros d [[->|[->|[Hd Hdp]]]%Hpv _] [Hvd _]%valid_at_spec; simpl in *; [lia|lia|].
      destruct (Hlatest d Hd Hdp); lia.
  - intros t Ht. apply as_of_memory_in_force; [done|]. split_and!; [split|done|..].
    + apply Hpv; auto.
    + intros d [->|[->|[Hd Hdp]]]%Hpv Heq; simpl in *; [lia|lia|].
      destruct (Hlatest d Hd Hdp); lia.
    + intros d [[->|[->|[Hd Hdp]]]%Hpv _] _; simpl in *; [lia|lia|].
      destruct (Hlatest d Hd Hdp); lia.
Qed.
End Supersede.

(** * Witnesses *)

Definition sample_store : MemoryClaims :=
  MkMemoryClaims [(claim_order (sample_claim "open" 100 100), sample_claim "open" 100 100)].

Lemma sample_store_ok : memory_ok sample_store.
Proof.
  split; [repeat constructor|]. intros k c. unfold sample_store; simpl.
  rewrite list_elem_of_singleton. by intros [=-> ->].
Qed.

Example as_of_returns_claim_in_force_witness :
  ∃ r, as_of sample_store (MkSubject "wp3") (MkPredicate "status") 150 = Ok r ∧
    (∀ c, r = Some c ↔
       in_force (pair_versions (iter sample_store) (MkSubject "wp3") (MkPredicate "status")) 150 c) ∧
    (r = None ↔ ∀ c,
       ¬ in_force (pair_versions (iter sample_store) (MkSubject "wp3") (MkPredicate "status")) 150 c).
Proof.
  apply (as_of_returns_claim_in_force memory_ok iter sample_store). exact sample_store_ok.
Defined.

Example lawful_sources_agree_witness :
  (∃ r, as_of sample_store (MkSubject "wp3") (MkPredicate "status") 150 = Ok r
      ∧ as_of sample_store (MkSubject "wp3") (MkPredicate "status") 150 = Ok r)
  ∧ (∃ l, history sample_store (MkSubject "wp3") (MkPredicate "status") = Ok l
      ∧ history sample_store (MkSubject "wp3") (MkPredicate "status") = Ok l).
Proof.
  apply (lawful_sources_agree memory_ok iter memory_ok iter sample_store sample_store _ _ 150);
    [exact sample_store_ok|exact sample_store_ok|done].
Defined.

Example memory_insert_spec_witness :
  ∃ st', insert sample_store (sample_claim "done" 200 250) = Ok st' ∧ memory_ok st'
    ∧ ∀ d, d ∈ iter st' ↔ d = sample_claim "done" 200 250
        ∨ (d ∈ iter sample_store ∧ claim_order d ≠ claim_order (sample_claim "done" 200 250)).
Proof.
  exact (memory_insert_spec sample_store (sample_claim "done" 200 250) sample_store_ok).
Defined.

Example supersession_resolves_witness :
  ∃ st1 st2, insert sample_store (@retirement_of toy_sha2 (sample_claim "open" 100 100) (sample_claim "done" 200 250)) = Ok st1
    ∧ insert st1 (@successor_of toy_sha2 (sample_claim "open" 100 100) (sample_claim "done" 200 250)) = Ok st2.
Proof.
  destruct (@supersession_resolves toy_sha2 sample_store (sample_claim "open" 100 100)
    (sample_claim "done" 200 250)
    (@retirement_of toy_sha2 (sample_claim "open" 100 100) (sample_claim "done" 200 250))
    (@successor_of toy_sha2 (sample_claim "open" 100 100) (sample_claim "done" 200 250))
    sample_store_ok) as (st1 & st2 & H1 & H2 & _).
  - split; [by vm_compute; left|]. intros d. unfold sample_store, iter; simpl.
    rewrite list_elem_of_singleton. intros -> _. simpl. lia.
  - vm_compute. reflexivity.
  - exists st1, st2. split; [exact H1|exact H2].
Defined.
