(* ===== verification/KeyCodec.v ===== *)
(** The ordered physical-key grammar of rrflowKV ([rrd-store]: key_codec.rs).

    A key is [format / tenant / scope / family / tuple...].  Variable-width fields use the
    memcomparable encoding: groups of eight bytes, zero padded, each followed by a marker
    byte.  The theorems: encoding is decoded back exactly; decoding accepts nothing but
    encodings; the byte order of encodings is the typed order of keys; and the range from a
    component-aligned prefix to [prefix_end] holds exactly the keys that extend it. *)

From S2P Require Import Prelude Machine Digest.
Open Scope Z_scope.

(** store/key_codec.rs:22-22 APPLICATION_FORMAT *)
Definition APPLICATION_FORMAT : Z := from_be (str_bytes "RRKV0001").

(** store/key_codec.rs:24-35 TAG_* *)
Definition TAG_ABSENT : byte := x00.
Definition TAG_BYTES : byte := x20.
Definition TAG_TEXT : byte := x21.
Definition TAG_BOOL : byte := x30.
Definition TAG_U8 : byte := x31.
Definition TAG_U64 : byte := x32.
Definition TAG_I64 : byte := x33.
Definition TAG_DESC_U64 : byte := x34.
Definition TAG_FORMAT : byte := xf0.
Definition TAG_FAMILY : byte := xf1.
Definition MEMCOMPARABLE_GROUP_BYTES : nat := 8.
Definition MEMCOMPARABLE_FULL_GROUP : Z := 255.

(** store/key_codec.rs:40-58 KeyFamily *)
Inductive KeyFamily :=
| Current | Temporal | OutgoingEdge | IncomingEdge | Scalar | Unique
| TermDictionary | TermStatistic | TermPosting | Vector | ProjectionDelta
| Catalogue | RuntimeCommit | Outbox | Audit | EngineEvent | System.

(** [family as u8]: the discriminants of the enum. *)
(** store/key_codec.rs:40-58 KeyFamily, the discriminants *)
Definition family_byte (f : KeyFamily) : byte :=
  match f with
  | Current => x10 | Temporal => x11 | OutgoingEdge => x12 | IncomingEdge => x13
  | Scalar => x14 | Unique => x15 | TermDictionary => x16 | TermStatistic => x17
  | TermPosting => x18 | Vector => x19 | ProjectionDelta => x1a | Catalogue => x1b
  | RuntimeCommit => x1c | Outbox => x1d | Audit => x1e | EngineEvent => x1f | System => x20
  end.

(** store/key_codec.rs:230-238 KeyCodecError *)
Record KeyCodecError := MkKeyCodecError { reason : string }.
Abbreviation kerr s := (Err (MkKeyCodecError s)).

(** store/key_codec.rs:60-85 TryFrom<u8> for KeyFamily *)
Definition family_try_from (value : byte) : result KeyCodecError KeyFamily :=
  match value with
  | x10 => Ok Current | x11 => Ok Temporal | x12 => Ok OutgoingEdge | x13 => Ok IncomingEdge
  | x14 => Ok Scalar | x15 => Ok Unique | x16 => Ok TermDictionary | x17 => Ok TermStatistic
  | x18 => Ok TermPosting | x19 => Ok Vector | x1a => Ok ProjectionDelta | x1b => Ok Catalogue
  | x1c => Ok RuntimeCommit | x1d => Ok Outbox | x1e => Ok Audit | x1f => Ok EngineEvent
  | x20 => Ok System
  | _ => kerr "unknown rrflowKV key family"
  end.

(** store/key_codec.rs:91-98 CatalogueSubfamily *)
Inductive CatalogueSubfamily :=
| FunctionArtifact | FunctionDefinition | TransactionFunctionBinding | Membership | Head
| InvocationReceipt.

(** store/key_codec.rs:91-98 CatalogueSubfamily, the discriminants *)
Definition subfamily_byte (f : CatalogueSubfamily) : byte :=
  match f with
  | FunctionArtifact => x01 | FunctionDefinition => x02 | TransactionFunctionBinding => x03
  | Membership => x04 | Head => x05 | InvocationReceipt => x06
  end.

(** store/key_codec.rs:100-114 TryFrom<u8> for CatalogueSubfamily *)
Definition subfamily_try_from (value : byte) : result KeyCodecError CatalogueSubfamily :=
  match value with
  | x01 => Ok FunctionArtifact | x02 => Ok FunctionDefinition
  | x03 => Ok TransactionFunctionBinding | x04 => Ok Membership | x05 => Ok Head
  | x06 => Ok InvocationReceipt
  | _ => kerr "unknown rrflowKV catalogue subfamily"
  end.

(** store/key_codec.rs:118-128 KeyAddress *)
Record KeyAddress := { tenant : option string; scope : option string }.
Definition GLOBAL : KeyAddress := {| tenant := None; scope := None |}.

(** store/key_codec.rs:132-153 KeyPart; the owned [DecodedKeyPart] holds the same data. *)
Inductive KeyPart :=
| Bytes (value : list byte)
| Text (value : string)
| Bool (value : bool)
| U8 (value : byte)
| U64 (value : Z)
| I64 (value : Z)
| DescU64 (value : Z).
(** store/key_codec.rs:156-164 DecodedKeyPart *)
Abbreviation DecodedKeyPart := KeyPart.

(** store/key_codec.rs:168-173 DecodedKey *)
Record DecodedKey := {
  key_tenant : option string;
  key_scope : option string;
  family : KeyFamily;
  parts : list DecodedKeyPart
}.

(** store/key_codec.rs:179-181 KeyCodec::from_application_format; the codec has no state. *)
Definition from_application_format (format : option Z) : option unit :=
  if bool_decide (format = Some APPLICATION_FORMAT) then Some tt else None.

(** * Encoding *)

(** [value as u64] and back for [i64], and bitwise complement on [u64]. *)
Definition as_u64 (v : Z) : Z := v mod 2 ^ 64.
Definition not_u64 (v : Z) : Z := Z.lnot v mod 2 ^ 64.

(** One pass of the loop per unit of fuel; [value] is the slice from [offset] on. *)
(** store/key_codec.rs:306-317 encode_memcomparable, the loop *)
Fixpoint memcomparable_loop (fuel : nat) (value : list byte) : list byte :=
  match fuel with
  | O => []
  | S fuel =>
    let take_ := Nat.min (length value) MEMCOMPARABLE_GROUP_BYTES in
    let padding := (MEMCOMPARABLE_GROUP_BYTES - take_)%nat in
    take take_ value ++ replicate padding x00
    ++ u8_of (MEMCOMPARABLE_FULL_GROUP - Z.of_nat padding)
    :: (if (padding =? 0)%nat then memcomparable_loop fuel (drop take_ value) else [])
  end.

(** store/key_codec.rs:304-318 encode_memcomparable *)
Definition encode_memcomparable (value : list byte) : list byte :=
  memcomparable_loop (S (length value)) value.

(** store/key_codec.rs:261-269 encode_optional_text *)
Definition encode_optional_text (value : option string) : list byte :=
  match value with
  | None => [TAG_ABSENT]
  | Some value => TAG_TEXT :: encode_memcomparable (str_bytes value)
  end.

(** store/key_codec.rs:271-302 encode_part *)
Definition encode_part (part : KeyPart) : list byte :=
  match part with
  | Bytes value => TAG_BYTES :: encode_memcomparable value
  | Text value => TAG_TEXT :: encode_memcomparable (str_bytes value)
  | Bool value => [TAG_BOOL; if value then x01 else x00]
  | U8 value => [TAG_U8; value]
  | U64 value => TAG_U64 :: be_bytes 8 value
  | I64 value => TAG_I64 :: be_bytes 8 (Z.lxor (as_u64 value) (2 ^ 63))
  | DescU64 value => TAG_DESC_U64 :: be_bytes 8 (not_u64 value)
  end.

(** store/key_codec.rs:184-201 KeyCodec::encode *)
Definition encode (address : KeyAddress) (family : KeyFamily) (parts : list KeyPart) : list byte :=
  TAG_FORMAT :: be_bytes 8 APPLICATION_FORMAT
  ++ encode_optional_text (tenant address)
  ++ encode_optional_text (scope address)
  ++ TAG_FAMILY :: family_byte family
  :: flat_map encode_part parts.

(** store/key_codec.rs:249-259 prefix_end; the loop looks at the last byte first. *)
Fixpoint prefix_end_rev (rev_prefix : list byte) : option (list byte) :=
  match rev_prefix with
  | [] => None
  | last :: rest =>
    if byte_eqb last xff then prefix_end_rev rest
    else Some (rev (u8_of (u8_val last + 1) :: rest))
  end.
(** store/key_codec.rs:249-259 prefix_end *)
Definition prefix_end (prefix : list byte) : option (list byte) := prefix_end_rev (rev prefix).

(** * Decoding: a reader threads the remaining bytes *)

Abbreviation reader A := (list byte → result KeyCodecError (A * list byte)).

(** store/key_codec.rs:333-340 TupleReader::read_byte *)
Definition read_byte (reason : string) : reader byte := λ remaining,
  match remaining with
  | [] => kerr reason
  | byte :: remaining => Ok (byte, remaining)
  end.

(** store/key_codec.rs:342-347 TupleReader::expect_tag *)
Definition expect_tag (tag : byte) (reason : string) : reader unit := λ remaining,
  let? (b, remaining) := read_byte reason remaining in
  if byte_eqb b tag then Ok (tt, remaining) else kerr reason.

(** store/key_codec.rs:349-358 TupleReader::read_u64_payload *)
Definition read_u64_payload (reason : string) : reader Z := λ remaining,
  if (length remaining <? 8)%nat then kerr reason
  else Ok (from_be (take 8 remaining), drop 8 remaining).

(** store/key_codec.rs:403-437 TupleReader::read_memcomparable *)
Fixpoint read_memcomparable_loop (fuel : nat) (decoded : list byte) : reader (list byte) := λ remaining,
  match fuel with
  | O => kerr "rrflowKV variable-width field is truncated"
  | S fuel =>
    if (length remaining <? MEMCOMPARABLE_GROUP_BYTES + 1)%nat
    then kerr "rrflowKV variable-width field is truncated"
    else
      let group := take MEMCOMPARABLE_GROUP_BYTES remaining in
      match drop MEMCOMPARABLE_GROUP_BYTES remaining with
      | [] => kerr "rrflowKV variable-width field is truncated"
      | marker :: remaining =>
        if u8_val marker <? MEMCOMPARABLE_FULL_GROUP - Z.of_nat MEMCOMPARABLE_GROUP_BYTES
        then kerr "rrflowKV variable-width field has an invalid length marker"
        else
          let padding := Z.to_nat (MEMCOMPARABLE_FULL_GROUP - u8_val marker) in
          if ((MEMCOMPARABLE_GROUP_BYTES <? padding)%nat
              || (negb (padding =? 0)%nat
                  && existsb (λ b, negb (byte_eqb b x00))
                       (drop (MEMCOMPARABLE_GROUP_BYTES - padding) group)))%bool
          then kerr "rrflowKV variable-width field has non-canonical padding"
          else
            let decoded := decoded ++ take (MEMCOMPARABLE_GROUP_BYTES - padding) group in
            if negb (padding =? 0)%nat then Ok (decoded, remaining)
            else read_memcomparable_loop fuel decoded remaining
      end
  end.
(** store/key_codec.rs:403-437 TupleReader::read_memcomparable *)
Definition read_memcomparable : reader (list byte) := λ remaining,
  read_memcomparable_loop (S (length remaining)) [] remaining.

(** store/key_codec.rs:360-374 TupleReader::read_optional_text *)
Definition read_optional_text (field : string) : reader (option string) := λ remaining,
  let? (tag, remaining) := read_byte "rrflowKV key lacks an address component" remaining in
  if byte_eqb tag TAG_ABSENT then Ok (None, remaining)
  else if byte_eqb tag TAG_TEXT then
    let? (value, remaining) := read_memcomparable remaining in
    match from_utf8 value with
    | Some s => Ok (Some s, remaining)
    | None => if bool_decide (field = "tenant") then kerr "rrflowKV tenant is not UTF-8"
              else kerr "rrflowKV scope is not UTF-8"
    end
  else kerr "rrflowKV address component has the wrong type".

(** store/key_codec.rs:376-401 TupleReader::read_part *)
Definition read_part : reader DecodedKeyPart := λ remaining,
  let? (tag, remaining) := read_byte "rrflowKV tuple has a partial field" remaining in
  if byte_eqb tag TAG_BYTES then
    let? (value, remaining) := read_memcomparable remaining in Ok (Bytes value, remaining)
  else if byte_eqb tag TAG_TEXT then
    let? (value, remaining) := read_memcomparable remaining in
    match from_utf8 value with
    | Some s => Ok (Text s, remaining)
    | None => kerr "rrflowKV text field is not UTF-8"
    end
  else if byte_eqb tag TAG_BOOL then
    let? (b, remaining) := read_byte "rrflowKV bool field is truncated" remaining in
    if byte_eqb b x00 then Ok (Bool false, remaining)
    else if byte_eqb b x01 then Ok (Bool true, remaining)
    else kerr "rrflowKV bool field is non-canonical"
  else if byte_eqb tag TAG_U8 then
    let? (b, remaining) := read_byte "rrflowKV u8 field is truncated" remaining in
    Ok (U8 b, remaining)
  else if byte_eqb tag TAG_U64 then
    let? (u, remaining) := read_u64_payload "rrflowKV u64 field is truncated" remaining in
    Ok (U64 u, remaining)
  else if byte_eqb tag TAG_I64 then
    let? (u, remaining) := read_u64_payload "rrflowKV i64 field is truncated" remaining in
    Ok (I64 (as_i64 (Z.lxor u (2 ^ 63))), remaining)
  else if byte_eqb tag TAG_DESC_U64 then
    let? (u, remaining) := read_u64_payload "rrflowKV descending u64 field is truncated" remaining in
    Ok (DescU64 (not_u64 u), remaining)
  else kerr "unknown rrflowKV tuple field type".

(** The [while !reader.is_empty()] loop of [decode]; every part consumes at least one byte. *)
(** store/key_codec.rs:217-219 KeyCodec::decode, the loop over the tuple *)
Fixpoint read_parts (fuel : nat) (remaining : list byte) : result KeyCodecError (list DecodedKeyPart) :=
  match remaining with
  | [] => Ok []
  | _ :: _ =>
    match fuel with
    | O => kerr "rrflowKV tuple has a partial field"
    | S fuel =>
      let? (part, remaining) := read_part remaining in
      let? parts := read_parts fuel remaining in
      Ok (part :: parts)
    end
  end.

(** store/key_codec.rs:205-226 KeyCodec::decode *)
Definition decode (encoded : list byte) : result KeyCodecError DecodedKey :=
  let? (_, r) := expect_tag TAG_FORMAT "rrflowKV key lacks its format field" encoded in
  let? (format, r) := read_u64_payload "rrflowKV key has a truncated format field" r in
  if negb (format =? APPLICATION_FORMAT) then kerr "unsupported rrflowKV key format"
  else
    let? (tenant, r) := read_optional_text "tenant" r in
    let? (scope, r) := read_optional_text "scope" r in
    let? (_, r) := expect_tag TAG_FAMILY "rrflowKV key lacks its family field" r in
    let? (byte, r) := read_byte "rrflowKV key lacks its family byte" r in
    let? family := family_try_from byte in
    let? parts := read_parts (length r) r in
    Ok {| key_tenant := tenant; key_scope := scope; family := family; parts := parts |}.

(** * The memcomparable encoding *)

Lemma memcomparable_loop_fuel f1 f2 v :
  (length v < f1)%nat → (length v < f2)%nat → memcomparable_loop f1 v = memcomparable_loop f2 v.
Proof.
  revert f2 v; induction f1 as [|f1 IH]; intros [|f2] v H1 H2; try lia.
  cbn [memcomparable_loop]. unfold MEMCOMPARABLE_GROUP_BYTES. do 3 f_equal.
  case_match eqn:E; [|done]. apply Nat.eqb_eq in E.
  apply IH; rewrite length_drop; lia.
Qed.

Lemma encode_memcomparable_short v :
  (length v < 8)%nat →
  encode_memcomparable v = v ++ replicate (8 - length v) x00 ++ [u8_of (247 + len v)].
Proof.
  intros Hv. unfold encode_memcomparable. cbn [memcomparable_loop].
  unfold MEMCOMPARABLE_GROUP_BYTES, MEMCOMPARABLE_FULL_GROUP.
  rewrite Nat.min_l by lia. rewrite firstn_all, (proj2 (Nat.eqb_neq _ _)) by lia.
  do 4 f_equal. unfold len. lia.
Qed.

Lemma encode_memcomparable_group g v :
  length g = 8%nat → encode_memcomparable (g ++ v) = g ++ xff :: encode_memcomparable v.
Proof.
  intros Hg. unfold encode_memcomparable at 1. cbn [memcomparable_loop].
  unfold MEMCOMPARABLE_GROUP_BYTES, MEMCOMPARABLE_FULL_GROUP.
  rewrite length_app, Nat.min_r by lia. rewrite (take_app_length' g v 8), (drop_app_length' g v 8) by done.
  change (8 - 8)%nat with 0%nat. change (u8_of (255 - Z.of_nat 0)) with xff.
  cbn [replicate Nat.eqb app]. do 2 f_equal. unfold encode_memcomparable.
  apply memcomparable_loop_fuel; lia.
Qed.

(** Induction by groups, the shape of both loops. *)
Lemma group_ind (P : list byte → Prop) :
  (∀ v, (length v < 8)%nat → P v) →
  (∀ g v, length g = 8%nat → P v → P (g ++ v)) →
  ∀ v, P v.
Proof.
  intros Hshort Hgroup v. remember (length v) as n eqn:Hn. revert v Hn.
  induction n as [n IH] using lt_wf_ind. intros v ->.
  destruct (decide (length v < 8)%nat); [by apply Hshort|].
  rewrite <-(take_drop 8 v). apply Hgroup; [rewrite length_take; lia|].
  eapply IH; [|done]. rewrite length_drop. lia.
Qed.

Lemma length_encode_memcomparable v : (length v < length (encode_memcomparable v))%nat.
Proof.
  induction v as [v Hv|g v Hg IH] using group_ind.
  - rewrite encode_memcomparable_short, !length_app by done. simpl. lia.
  - rewrite encode_memcomparable_group, !length_app by done. simpl. lia.
Qed.

Lemma existsb_replicate_zero n : existsb (λ b, negb (byte_eqb b x00)) (replicate n x00) = false.
Proof. by induction n. Qed.

(** Reading one group that [encode_memcomparable] wrote. *)
Lemma read_group fuel d g n r :
  length g = 8%nat → (n ≤ 8)%nat →
  existsb (λ b, negb (byte_eqb b x00)) (drop n g) = false →
  read_memcomparable_loop (S fuel) d (g ++ u8_of (247 + Z.of_nat n) :: r)
  = if (n =? 8)%nat then read_memcomparable_loop fuel (d ++ g) r else Ok (d ++ take n g, r).
Proof.
  intros Hg Hn Hz. cbn [read_memcomparable_loop].
  unfold MEMCOMPARABLE_GROUP_BYTES, MEMCOMPARABLE_FULL_GROUP.
  rewrite length_app. cbn [length]. rewrite (proj2 (Nat.ltb_ge _ _)) by lia.
  rewrite (take_app_length' g _ 8), (drop_app_length' g _ 8) by done.
  rewrite u8_val_of, Z.mod_small by lia. rewrite (proj2 (Z.ltb_ge _ _)) by lia.
  replace (Z.to_nat (255 - (247 + Z.of_nat n))) with (8 - n)%nat by lia.
  rewrite (proj2 (Nat.ltb_ge 8 (8 - n))) by lia.
  replace (8 - (8 - n))%nat with n by lia. rewrite Hz, andb_false_r. cbn [orb].
  destruct (Nat.eqb_spec n 8) as [->|Hne].
  - cbn [Nat.eqb Nat.sub negb]. by rewrite take_ge by lia.
  - by rewrite (proj2 (Nat.eqb_neq _ _)) by lia.
Qed.

Lemma read_memcomparable_loop_encode v fuel d r :
  (length v < fuel)%nat →
  read_memcomparable_loop fuel d (encode_memcomparable v ++ r) = Ok (d ++ v, r).
Proof.
  revert fuel d. induction v as [v Hv|g v Hg IH] using group_ind; intros [|fuel] d Hf; try lia.
  - rewrite encode_memcomparable_short, <-!app_assoc, app_assoc by done. cbn [app].
    unfold len. rewrite read_group.
    + rewrite (proj2 (Nat.eqb_neq _ _)) by lia. by rewrite take_app_length.
    + rewrite length_app, length_replicate. lia.
    + lia.
    + rewrite drop_app_length. apply existsb_replicate_zero.
  - rewrite encode_memcomparable_group, <-app_assoc by done. cbn [app].
    change xff with (u8_of (247 + Z.of_nat 8)). rewrite read_group; [|done|lia|].
    + cbn [Nat.eqb]. rewrite length_app in Hf. rewrite IH by lia. by rewrite app_assoc.
    + by rewrite drop_ge by lia.
Qed.

Lemma read_memcomparable_encode v r :
  read_memcomparable (encode_memcomparable v ++ r) = Ok (v, r).
Proof.
  unfold read_memcomparable. rewrite read_memcomparable_loop_encode; [done|].
  rewrite length_app. pose proof (length_encode_memcomparable v). lia.
Qed.

Lemma existsb_all_zero l :
  existsb (λ b, negb (byte_eqb b x00)) l = false → l = replicate (length l) x00.
Proof.
  induction l as [|b l IH]; [done|]. simpl. intros [Hb Hl]%orb_false_iff.
  apply negb_false_iff, bool_decide_eq_true in Hb. subst. f_equal. by apply IH.
Qed.

(** The reader accepts nothing but encodings. *)
Lemma read_memcomparable_loop_sound fuel d l v r :
  read_memcomparable_loop fuel d l = Ok (v, r) →
  ∃ w, v = d ++ w ∧ l = encode_memcomparable w ++ r.
Proof.
  revert d l; induction fuel as [|fuel IH]; intros d l; cbn [read_memcomparable_loop]; [done|].
  unfold MEMCOMPARABLE_GROUP_BYTES, MEMCOMPARABLE_FULL_GROUP.
  destruct (Nat.ltb_spec (length l) (8 + 1)) as [?|Hl]; [done|].
  destruct (drop 8 l) as [|marker rest] eqn:Hd; [done|].
  pose proof (take_drop 8 l) as Hsplit. rewrite Hd in Hsplit.
  assert (length (take 8 l) = 8%nat) as Hg by (rewrite length_take; lia).
  set (g := take 8 l) in *. clearbody g.
  destruct (Z.ltb_spec (u8_val marker) (255 - Z.of_nat 8)) as [?|Hm]; [done|].
  pose proof (u8_val_bound marker). set (n := Z.to_nat (u8_val marker - 247)).
  replace (Z.to_nat (255 - u8_val marker)) with (8 - n)%nat by lia.
  assert (marker = u8_of (247 + Z.of_nat n)) as Hmark.
  { rewrite <-(u8_of_val marker). f_equal. lia. }
  rewrite (proj2 (Nat.ltb_ge _ _)) by lia. cbn [orb].
  replace (8 - (8 - n))%nat with n by lia.
  destruct (Nat.eqb_spec (8 - n) 0) as [Hn|Hn]; cbn [negb andb].
  - rewrite take_ge by lia. assert (n = 8%nat) as Hn8 by lia. rewrite Hn8 in Hmark.
    intros (w & -> & ->)%IH. exists (g ++ w). split; [by rewrite app_assoc|].
    rewrite encode_memcomparable_group, <-app_assoc by done. rewrite <-Hsplit, Hmark. done.
  - destruct (existsb _ (drop n g)) eqn:Hz; [done|]. intros [=<- <-].
    exists (take n g). split; [done|].
    assert (length (take n g) = n) as Hlen by (rewrite length_take; lia).
    rewrite encode_memcomparable_short by lia. unfold len. rewrite Hlen, <-!app_assoc, app_assoc.
    apply existsb_all_zero in Hz. rewrite length_drop, Hg in Hz. rewrite <-Hz, take_drop.
    rewrite <-Hsplit, Hmark. done.
Qed.

Lemma read_memcomparable_sound l v r :
  read_memcomparable l = Ok (v, r) → l = encode_memcomparable v ++ r.
Proof. intros (w & -> & ?)%read_memcomparable_loop_sound. done. Qed.

(** * Order-preserving encodings

    An encoder embeds an order when comparing two encodings bytewise, whatever follows them,
    is comparing the values first and what follows only on a tie. *)

Definition ord_enc {A} (P : A → Prop) (enc : A → list byte) (c : A → A → comparison) : Prop :=
  ∀ a b r s, P a → P b →
    lex_cmp (enc a ++ r) (enc b ++ s) = match c a b with Eq => lex_cmp r s | o => o end.

Lemma ord_enc_be n :
  ord_enc (λ z, 0 ≤ z < 2 ^ (8 * Z.of_nat n)) (be_bytes n) Z.compare.
Proof.
  intros a b r s Ha Hb. rewrite lex_cmp_app_length by (by rewrite !length_be_bytes).
  by rewrite lex_cmp_be_bytes.
Qed.

(** Padding one side: the shorter value wins by its marker when the padding ties. *)
Lemma padded_lt n w a b r s :
  (length w ≤ n)%nat → cmp a b = Lt →
  lex_cmp (replicate n x00 ++ a :: r) (w ++ replicate (n - length w) x00 ++ b :: s) = Lt.
Proof.
  revert w; induction n as [|n IH]; intros [|y w] Hw Hab; cbn [length] in *; try lia.
  - cbn. by rewrite Hab.
  - rewrite Nat.sub_0_r. cbn [app]. rewrite lex_cmp_app_same. cbn. by rewrite Hab.
  - cbn [replicate app lex_cmp]. pose proof (u8_val_bound y).
    destruct (cmp x00 y) eqn:E; [apply IH; [lia|done]|done|].
    exfalso. unfold cmp, byte_ord in E. apply Z.compare_gt_iff in E. change (u8_val x00) with 0 in E. lia.
Qed.

(** One group: zero padding followed by a marker that grows with the data length. *)
Lemma padded_cmp n v w a b r s :
  (length v ≤ n)%nat → (length w ≤ n)%nat → cmp a b = Nat.compare (length v) (length w) →
  lex_cmp (v ++ replicate (n - length v) x00 ++ a :: r) (w ++ replicate (n - length w) x00 ++ b :: s)
  = match lex_cmp v w with Eq => lex_cmp r s | o => o end.
Proof.
  revert v w; induction n as [|n IH]; intros v w Hv Hw Hab.
  { destruct v, w; cbn [length] in *; try lia. cbn in *. by rewrite Hab. }
  destruct v as [|x v], w as [|y w]; cbn [length] in *.
  - cbn [app]. rewrite lex_cmp_app_same. cbn in *. by rewrite Hab.
  - rewrite Nat.sub_0_r. cbn [lex_cmp app]. apply (padded_lt (S n) (y :: w)); [done|].
    rewrite Hab. apply Nat.compare_lt_iff. lia.
  - rewrite Nat.sub_0_r. change (lex_cmp (x :: v) []) with Gt. cbn [app].
    apply lex_cmp_gt.
    apply (padded_lt (S n) (x :: v)); [cbn; lia|]. apply cmp_gt_lt. rewrite Hab.
    apply Nat.compare_gt_iff. lia.
  - cbn [lex_cmp app Nat.sub]. destruct (cmp x y); [apply IH; [lia|lia|done]|done|done].
Qed.

Lemma marker_cmp m n :
  (m ≤ 8)%nat → (n ≤ 8)%nat →
  cmp (u8_of (247 + Z.of_nat m)) (u8_of (247 + Z.of_nat n)) = Nat.compare m n.
Proof.
  intros Hm Hn. unfold cmp, byte_ord. rewrite !u8_val_of, !Z.mod_small by lia.
  destruct (Nat.compare_spec m n);
    [apply Z.compare_eq_iff|apply Z.compare_lt_iff|apply Z.compare_gt_iff]; lia.
Qed.

(** A sequence longer than [w] compares with [w] before it ends. *)
Lemma lex_cmp_longer (p l w : list byte) :
  (length w < length p)%nat → lex_cmp (p ++ l) w = lex_cmp p w ∧ lex_cmp p w ≠ Eq.
Proof.
  revert w; induction p as [|x p IH]; intros [|y w] Hw; cbn [length] in *; try lia; [done|].
  cbn [app lex_cmp]. destruct (cmp x y); [apply IH; lia|done|done].
Qed.

Lemma lex_cmp_shorter (p l w : list byte) :
  (length w < length p)%nat → lex_cmp w (p ++ l) = lex_cmp w p ∧ lex_cmp w p ≠ Eq.
Proof.
  intros Hw. destruct (lex_cmp_longer p l w Hw) as [H1 H2].
  rewrite (lex_cmp_antisym (p ++ l) w), (lex_cmp_antisym p w), H1. by destruct (lex_cmp p w).
Qed.

Lemma split_group (w : list byte) :
  ¬ (length w < 8)%nat → ∃ g v, w = g ++ v ∧ length g = 8%nat.
Proof.
  intros Hw. exists (take 8 w), (drop 8 w). rewrite take_drop, length_take. split; [done|lia].
Qed.

(** [encode_memcomparable] embeds the lexicographic order of byte strings. *)
Lemma ord_enc_memcomparable : ord_enc (λ _, True) encode_memcomparable lex_cmp.
Proof.
  intros v. induction v as [v Hv|g v Hg IH] using group_ind; intros w r s _ _;
    (destruct (decide (length w < 8)%nat) as [Hw|(g' & w' & -> & Hg')%split_group]).
  - rewrite !encode_memcomparable_short, <-!app_assoc by done. cbn [app]. unfold len.
    apply padded_cmp; [lia|lia|]. apply marker_cmp; lia.
  - destruct (lex_cmp_shorter g' w' v) as [-> Hne]; [lia|].
    rewrite encode_memcomparable_short, encode_memcomparable_group, <-!app_assoc by done. cbn [app].
    pose proof (padded_cmp 8 v g' (u8_of (247 + len v)) xff r (encode_memcomparable w' ++ s)) as Hp.
    rewrite Hg' in Hp. cbn [replicate app Nat.sub] in Hp. rewrite Hp.
    + by destruct (lex_cmp v g').
    + lia.
    + lia.
    + change xff with (u8_of (247 + Z.of_nat 8)). apply marker_cmp; lia.
  - destruct (lex_cmp_longer g v w) as [-> Hne]; [lia|].
    rewrite encode_memcomparable_group, (encode_memcomparable_short w), <-!app_assoc by done. cbn [app].
    pose proof (padded_cmp 8 g w xff (u8_of (247 + len w)) (encode_memcomparable v ++ r) s) as Hp.
    rewrite Hg in Hp. cbn [replicate app Nat.sub] in Hp. rewrite Hp.
    + by destruct (lex_cmp g w).
    + lia.
    + lia.
    + change xff with (u8_of (247 + Z.of_nat 8)). apply marker_cmp; lia.
  - rewrite !encode_memcomparable_group, <-!app_assoc by done. cbn [app].
    rewrite !(lex_cmp_app_length g g') by lia. cbn [lex_cmp]. rewrite cmp_refl.
    rewrite IH by done. by destruct (lex_cmp g g').
Qed.

(** * Sign flipping and complement on 64-bit words *)

Definition is_i64 (v : Z) : Prop := - 2 ^ 63 ≤ v < 2 ^ 63.

Lemma land_high u : 0 ≤ u < 2 ^ 63 → Z.land u (2 ^ 63) = 0.
Proof.
  intros Hu. apply Z.bits_inj'. intros n Hn. rewrite Z.land_spec, Z.bits_0, Z.pow2_bits_eqb by lia.
  destruct (Z.eqb_spec 63 n) as [<-|]; [|by rewrite andb_false_r].
  rewrite Z.bits_above_log2; [done|lia|]. destruct (Z.eq_dec u 0) as [->|]; [done|].
  apply Z.log2_lt_pow2; lia.
Qed.

Lemma lxor_high_small u : 0 ≤ u < 2 ^ 63 → Z.lxor u (2 ^ 63) = u + 2 ^ 63.
Proof. intros Hu. symmetry. apply Z.add_nocarry_lxor. by apply land_high. Qed.

Lemma lxor_high_large u : 0 ≤ u < 2 ^ 63 → Z.lxor (u + 2 ^ 63) (2 ^ 63) = u.
Proof.
  intros Hu. rewrite <-lxor_high_small by done. by rewrite Z.lxor_assoc, Z.lxor_nilpotent, Z.lxor_0_r.
Qed.

Lemma lxor_as_u64 v : is_i64 v → Z.lxor (as_u64 v) (2 ^ 63) = v + 2 ^ 63.
Proof.
  unfold is_i64, as_u64. intros Hv. destruct (Z.le_gt_cases 0 v).
  - rewrite Z.mod_small by lia. apply lxor_high_small. lia.
  - replace (v mod 2 ^ 64) with ((v + 2 ^ 63) + 2 ^ 63); [apply lxor_high_large; lia|].
    apply (Z.mod_unique_pos _ _ (-1)); lia.
Qed.

Lemma as_i64_lxor u : is_u64 u → as_i64 (Z.lxor u (2 ^ 63)) = u - 2 ^ 63.
Proof.
  unfold in_width, as_i64. intros Hu. destruct (Z.lt_ge_cases u (2 ^ 63)).
  - rewrite lxor_high_small by lia. rewrite (proj2 (Z.ltb_ge _ _)) by lia. lia.
  - pose proof (lxor_high_large (u - 2 ^ 63) ltac:(lia)) as Hx.
    rewrite Z.sub_add in Hx. rewrite Hx, (proj2 (Z.ltb_lt _ _)) by lia. done.
Qed.

Lemma not_u64_eq v : is_u64 v → not_u64 v = 2 ^ 64 - 1 - v.
Proof.
  unfold in_width, not_u64. intros Hv. symmetry. apply (Z.mod_unique_pos _ _ (-1)); [lia|]. unfold Z.lnot. lia.
Qed.

(** * Typed order of fields and keys *)

Definition wf_part (p : KeyPart) : Prop :=
  match p with
  | Text s => is_str s
  | U64 v | DescU64 v => is_u64 v
  | I64 v => is_i64 v
  | _ => True
  end.

Definition part_tag (p : KeyPart) : byte :=
  match p with
  | Bytes _ => TAG_BYTES | Text _ => TAG_TEXT | Bool _ => TAG_BOOL | U8 _ => TAG_U8
  | U64 _ => TAG_U64 | I64 _ => TAG_I64 | DescU64 _ => TAG_DESC_U64
  end.

(** Fields of one type compare by value, [DescU64] newest first; fields of different types
    compare by type. *)
Definition part_cmp (p q : KeyPart) : comparison :=
  match p, q with
  | Bytes a, Bytes b => lex_cmp a b
  | Text a, Text b => cmp a b
  | Bool a, Bool b => Z.compare (Z.b2z a) (Z.b2z b)
  | U8 a, U8 b => cmp a b
  | U64 a, U64 b => Z.compare a b
  | I64 a, I64 b => Z.compare a b
  | DescU64 a, DescU64 b => Z.compare b a
  | _, _ => cmp (part_tag p) (part_tag q)
  end.

Definition then_cmp (c d : comparison) : comparison := match c with Eq => d | Lt => Lt | Gt => Gt end.

Fixpoint tuple_cmp (ps qs : list KeyPart) : comparison :=
  match ps, qs with
  | [], [] => Eq
  | [], _ :: _ => Lt
  | _ :: _, [] => Gt
  | p :: ps, q :: qs => then_cmp (part_cmp p q) (tuple_cmp ps qs)
  end.

Definition option_cmp (a b : option string) : comparison :=
  match a, b with
  | None, None => Eq
  | None, Some _ => Lt
  | Some _, None => Gt
  | Some a, Some b => cmp a b
  end.

(** Tenant, then scope, then family, then the tuple; absent address components first. *)
Definition key_cmp (a : KeyAddress) (f : KeyFamily) (ps : list KeyPart)
    (b : KeyAddress) (g : KeyFamily) (qs : list KeyPart) : comparison :=
  then_cmp (option_cmp (tenant a) (tenant b))
    (then_cmp (option_cmp (scope a) (scope b))
      (then_cmp (cmp (family_byte f) (family_byte g)) (tuple_cmp ps qs))).

Definition wf_address (a : KeyAddress) : Prop :=
  option_all is_str (tenant a) ∧ option_all is_str (scope a).

Lemma ord_enc_text v w r s :
  lex_cmp (encode_memcomparable (str_bytes v) ++ r) (encode_memcomparable (str_bytes w) ++ s)
  = match cmp v w with Eq => lex_cmp r s | o => o end.
Proof. by apply (ord_enc_memcomparable (str_bytes v)). Qed.

Lemma ord_enc_part : ord_enc wf_part encode_part part_cmp.
Proof.
  intros p q r s Hp Hq.
  destruct p as [v|v|v|v|v|v|v], q as [w|w|w|w|w|w|w]; try done;
    cbn [encode_part app lex_cmp part_cmp wf_part] in *; rewrite cmp_refl.
  - by apply ord_enc_memcomparable.
  - apply ord_enc_text.
  - by destruct v, w.
  - by apply (ord_enc_be 8).
  - rewrite !lxor_as_u64 by done. unfold is_i64 in *.
    rewrite (ord_enc_be 8) by (cbn; lia).
    replace (v + 2 ^ 63 ?= w + 2 ^ 63) with (v ?= w); [done|].
    destruct (Z.compare_spec v w); symmetry;
      [apply Z.compare_eq_iff|apply Z.compare_lt_iff|apply Z.compare_gt_iff]; lia.
  - rewrite !not_u64_eq by done. unfold in_width in *.
    rewrite (ord_enc_be 8) by (cbn; lia).
    replace (2 ^ 64 - 1 - v ?= 2 ^ 64 - 1 - w) with (w ?= v); [done|].
    destruct (Z.compare_spec w v); symmetry;
      [apply Z.compare_eq_iff|apply Z.compare_lt_iff|apply Z.compare_gt_iff]; lia.
Qed.

Lemma ord_enc_optional : ord_enc (λ _, True) encode_optional_text option_cmp.
Proof.
  intros [v|] [w|] r s _ _; try done.
  cbn [encode_optional_text app lex_cmp option_cmp]. rewrite cmp_refl. apply ord_enc_text.
Qed.

Lemma encode_part_cons p : ∃ l, encode_part p = part_tag p :: l.
Proof. destruct p; eexists; done. Qed.

Lemma ord_enc_parts ps qs :
  Forall wf_part ps → Forall wf_part qs →
  lex_cmp (flat_map encode_part ps) (flat_map encode_part qs) = tuple_cmp ps qs.
Proof.
  intros Hps. revert qs; induction Hps as [|p ps Hp Hps IH]; intros qs Hqs;
    destruct Hqs as [|q qs Hq Hqs]; cbn [flat_map tuple_cmp]; [done|..].
  - by destruct (encode_part_cons q) as [l ->].
  - by destruct (encode_part_cons p) as [l ->].
  - rewrite ord_enc_part by done. rewrite IH by done. reflexivity.
Qed.

Lemma encode_order a f ps b g qs :
  Forall wf_part ps → Forall wf_part qs →
  lex_cmp (encode a f ps) (encode b g qs) = key_cmp a f ps b g qs.
Proof.
  intros Hps Hqs. unfold encode, key_cmp. cbn [lex_cmp]. rewrite cmp_refl, lex_cmp_app_same.
  rewrite ord_enc_optional, ord_enc_optional by done. cbn [lex_cmp]. rewrite cmp_refl.
  rewrite ord_enc_parts by done. done.
Qed.

(** * Round trips *)

(** Evaluate the comparisons between constant tags. *)
Ltac eval_tags :=
  repeat match goal with
  | |- context [byte_eqb ?a ?b] =>
    let v := eval vm_compute in (byte_eqb a b) in
    lazymatch v with
    | true => change (byte_eqb a b) with true
    | false => change (byte_eqb a b) with false
    end
  end; cbv match beta.

Lemma read_u64_payload_be why v r :
  is_u64 v → read_u64_payload why (be_bytes 8 v ++ r) = Ok (v, r).
Proof.
  intros Hv. unfold read_u64_payload. rewrite length_app, length_be_bytes.
  rewrite (proj2 (Nat.ltb_ge _ _)) by lia.
  rewrite take_app_length', drop_app_length' by (by rewrite length_be_bytes).
  by rewrite from_be_bytes_small.
Qed.

Lemma read_u64_payload_sound why l v r :
  read_u64_payload why l = Ok (v, r) → l = be_bytes 8 v ++ r ∧ is_u64 v.
Proof.
  unfold read_u64_payload. destruct (Nat.ltb_spec (length l) 8); [done|]. intros [=<- <-].
  assert (length (take 8 l) = 8%nat) as Hl by (rewrite length_take; lia).
  rewrite be_bytes_from by done. rewrite take_drop. split; [done|].
  pose proof (from_be_bound (take 8 l)) as Hb. unfold len in Hb. rewrite Hl in Hb. exact Hb.
Qed.

Lemma read_part_encode p r : wf_part p → read_part (encode_part p ++ r) = Ok (p, r).
Proof.
  intros Hp. destruct p as [v|v|v|v|v|v|v]; unfold read_part;
    cbn [encode_part app read_byte wf_part] in *; eval_tags.
  - by rewrite read_memcomparable_encode.
  - by rewrite read_memcomparable_encode, from_utf8_str.
  - by destruct v.
  - done.
  - by rewrite read_u64_payload_be.
  - rewrite lxor_as_u64 by done. unfold is_i64 in Hp. rewrite read_u64_payload_be by (unfold in_width; lia).
    rewrite as_i64_lxor by (unfold in_width; lia). do 3 f_equal. lia.
  - rewrite not_u64_eq by done. unfold in_width in Hp. rewrite read_u64_payload_be by (unfold in_width; lia).
    rewrite not_u64_eq by (unfold in_width; lia). do 3 f_equal. lia.
Qed.

Lemma byte_eqb_true a b : byte_eqb a b = true ↔ a = b.
Proof. unfold byte_eqb. apply bool_decide_eq_true. Qed.

Lemma read_part_sound l p r : read_part l = Ok (p, r) → l = encode_part p ++ r ∧ wf_part p.
Proof.
  unfold read_part, read_byte. destruct l as [|tag l]; [done|].
  repeat (destruct (byte_eqb tag _) eqn:Htag; [apply byte_eqb_true in Htag as ->|clear Htag]).
  - destruct (read_memcomparable l) as [[v r']|] eqn:E; [|done]. intros [=<- <-].
    apply read_memcomparable_sound in E as ->. done.
  - destruct (read_memcomparable l) as [[v r']|] eqn:E; [|done].
    destruct (from_utf8 v) as [s|] eqn:Es; [|done]. intros [=<- <-].
    apply read_memcomparable_sound in E as ->. apply from_utf8_Some in Es as [<- Hs]. done.
  - destruct l as [|b l]; [done|].
    destruct (byte_eqb b x00) eqn:E0; [apply byte_eqb_true in E0 as ->; by intros [=<- <-]|].
    destruct (byte_eqb b x01) eqn:E1; [apply byte_eqb_true in E1 as ->; by intros [=<- <-]|done].
  - destruct l as [|b l]; [done|]. by intros [=<- <-].
  - destruct (read_u64_payload _ l) as [[u r']|] eqn:E; [|done]. intros [=<- <-].
    apply read_u64_payload_sound in E as [-> Hu]. done.
  - destruct (read_u64_payload _ l) as [[u r']|] eqn:E; [|done]. intros [=<- <-].
    apply read_u64_payload_sound in E as [-> Hu]. cbn [encode_part wf_part]. unfold in_width in Hu.
    rewrite as_i64_lxor by (unfold in_width; lia). assert (is_i64 (u - 2 ^ 63)) by (unfold is_i64; lia).
    rewrite lxor_as_u64 by done. by rewrite Z.sub_add.
  - destruct (read_u64_payload _ l) as [[u r']|] eqn:E; [|done]. intros [=<- <-].
    apply read_u64_payload_sound in E as [-> Hu]. cbn [encode_part wf_part]. unfold in_width in *.
    rewrite !not_u64_eq; unfold in_width; rewrite ?not_u64_eq by done; try lia.
    split; [|lia]. cbn [app]. do 3 f_equal. lia.
  - done.
Qed.

Lemma read_parts_encode ps fuel :
  Forall wf_part ps → (length (flat_map encode_part ps) ≤ fuel)%nat →
  read_parts fuel (flat_map encode_part ps) = Ok ps.
Proof.
  intros Hps. revert fuel; induction Hps as [|p ps Hp Hps IH]; intros fuel Hf; [by destruct fuel|].
  cbn [flat_map] in *. destruct (encode_part_cons p) as [l Hl].
  rewrite length_app, Hl in Hf. cbn [length] in Hf. destruct fuel as [|fuel]; [lia|].
  cbn [read_parts]. rewrite Hl at 1. cbn [app]. rewrite read_part_encode by done.
  rewrite IH by lia. done.
Qed.

Lemma read_parts_sound fuel l ps :
  read_parts fuel l = Ok ps → l = flat_map encode_part ps ∧ Forall wf_part ps.
Proof.
  revert l ps; induction fuel as [|fuel IH]; intros [|b l] ps; cbn [read_parts]; try done;
    try (by intros [=<-]).
  destruct (read_part (b :: l)) as [[p r]|] eqn:E; [|done].
  destruct (read_parts fuel r) as [qs|] eqn:E2; [|done]. intros [=<-].
  apply read_part_sound in E as [-> Hp]. apply IH in E2 as [-> Hqs]. by split; [|constructor].
Qed.

Lemma read_optional_text_encode field o r :
  option_all is_str o → read_optional_text field (encode_optional_text o ++ r) = Ok (o, r).
Proof.
  intros Ho. destruct o as [s|]; [|done]. unfold read_optional_text.
  cbn [encode_optional_text app read_byte]. eval_tags.
  by rewrite read_memcomparable_encode, from_utf8_str.
Qed.

Lemma read_optional_text_sound field l o r :
  read_optional_text field l = Ok (o, r) → l = encode_optional_text o ++ r ∧ option_all is_str o.
Proof.
  unfold read_optional_text, read_byte. destruct l as [|tag l]; [done|].
  destruct (byte_eqb tag TAG_ABSENT) eqn:E0; [apply byte_eqb_true in E0 as ->; by intros [=<- <-]|].
  destruct (byte_eqb tag TAG_TEXT) eqn:E1; [apply byte_eqb_true in E1 as ->|done].
  destruct (read_memcomparable l) as [[v r']|] eqn:E; [|done].
  destruct (from_utf8 v) as [s|] eqn:Es; [|by case_bool_decide]. intros [=<- <-].
  apply read_memcomparable_sound in E as ->. apply from_utf8_Some in Es as [<- Hs]. done.
Qed.

Lemma family_try_from_byte f : family_try_from (family_byte f) = Ok f.
Proof. by destruct f. Qed.

Lemma family_try_from_sound b f : family_try_from b = Ok f → b = family_byte f.
Proof. destruct b; cbn; intros; simplify_eq; done. Qed.

Lemma APPLICATION_FORMAT_u64 : is_u64 APPLICATION_FORMAT.
Proof. by vm_compute. Qed.

Lemma decode_encode a f ps :
  wf_address a → Forall wf_part ps →
  decode (encode a f ps)
  = Ok {| key_tenant := tenant a; key_scope := scope a; family := f; parts := ps |}.
Proof.
  intros [Ht Hs] Hps. unfold decode, encode, expect_tag at 1. cbn [read_byte].
  eval_tags. rewrite read_u64_payload_be by exact APPLICATION_FORMAT_u64.
  rewrite Z.eqb_refl. cbn [negb].
  rewrite read_optional_text_encode by done. rewrite read_optional_text_encode by done.
  unfold expect_tag. cbn [read_byte]. eval_tags.
  cbn [read_byte]. rewrite family_try_from_byte, read_parts_encode by done. done.
Qed.

(** C26: a key built from any address, family and tuple decodes to exactly that address,
    family and tuple: the physical key grammar loses nothing. *)
Theorem key_codec_roundtrip (a : KeyAddress) (f : KeyFamily) (ps : list KeyPart) :
  wf_address a → Forall wf_part ps →
  decode (encode a f ps)
  = Ok {| key_tenant := tenant a; key_scope := scope a; family := f; parts := ps |}.
Proof. apply decode_encode. Qed.

(** Decoding fails closed: whatever bytes [decode] accepts are the encoding of the key
    it returns, so truncated, padded, over-long and otherwise non-canonical encodings are all
    refused, and every decoded field is within its type. *)
Theorem key_codec_canonical (encoded : list byte) (k : DecodedKey) :
  decode encoded = Ok k →
  encoded = encode {| tenant := key_tenant k; scope := key_scope k |} (family k) (parts k)
  ∧ option_all is_str (key_tenant k) ∧ option_all is_str (key_scope k) ∧ Forall wf_part (parts k).
Proof.
  unfold decode, expect_tag, read_byte. destruct encoded as [|b l]; [done|].
  destruct (byte_eqb b TAG_FORMAT) eqn:Hb; [apply byte_eqb_true in Hb as ->|done].
  destruct (read_u64_payload _ l) as [[fmt r]|] eqn:E1; [|done].
  apply read_u64_payload_sound in E1 as [-> _].
  destruct (Z.eqb_spec fmt APPLICATION_FORMAT) as [->|]; [cbn [negb]|done].
  destruct (read_optional_text "tenant" r) as [[t r1]|] eqn:E2; [|done].
  apply read_optional_text_sound in E2 as [-> Ht].
  destruct (read_optional_text "scope" r1) as [[s r2]|] eqn:E3; [|done].
  apply read_optional_text_sound in E3 as [-> Hs].
  destruct r2 as [|b r2]; [done|].
  destruct (byte_eqb b TAG_FAMILY) eqn:Hb; [apply byte_eqb_true in Hb as ->|done].
  destruct r2 as [|fb r2]; [done|].
  destruct (family_try_from fb) as [f|] eqn:E4; [|done]. apply family_try_from_sound in E4 as ->.
  destruct (read_parts (length r2) r2) as [ps|] eqn:E5; [|done].
  apply read_parts_sound in E5 as [Hr Hps]. intros [=<-]. cbn. rewrite Hr. done.
Qed.

(** C25: the bytewise order of encoded keys is the typed order of keys: tenant, scope and
    family first, then field by field, byte and text fields lexicographically, integers
    numerically (signed included), descending fields newest first, and a tuple before its
    extensions. *)
Theorem key_codec_order (a b : KeyAddress) (f g : KeyFamily) (ps qs : list KeyPart) :
  Forall wf_part ps → Forall wf_part qs →
  lex_cmp (encode a f ps) (encode b g qs) = key_cmp a f ps b g qs.
Proof. apply encode_order. Qed.

(** * Prefix ranges *)

Lemma prefix_end_shape p :
  match prefix_end p with
  | Some e => ∃ q b n, p = q ++ b :: replicate n xff ∧ b ≠ xff ∧ e = q ++ [u8_of (u8_val b + 1)]
  | None => ∃ n, p = replicate n xff
  end.
Proof.
  unfold prefix_end. remember (rev p) as l eqn:E.
  assert (p = rev l) as -> by (subst; by rewrite rev_involutive). clear E.
  induction l as [|b l IH]; cbn [prefix_end_rev]; [by exists 0%nat|].
  destruct (byte_eqb b xff) eqn:Hb.
  - apply byte_eqb_true in Hb as ->. cbn [rev]. destruct (prefix_end_rev l) as [e|].
    + destruct IH as (q & b & n & -> & Hb & ->). exists q, b, (S n). split_and!; [|done|done].
      by rewrite <-app_assoc, <-app_comm_cons, <-replicate_cons_app.
    + destruct IH as (n & ->). exists (S n). by rewrite <-replicate_cons_app.
  - exists (rev l), b, 0%nat. split_and!; [done| |done]. by intros ->.
Qed.

Lemma byte_le_ff x : cmp x xff ≠ Gt.
Proof.
  unfold cmp, byte_ord. rewrite Z.compare_gt_iff. pose proof (u8_val_bound x).
  change (u8_val xff) with 255. lia.
Qed.

Lemma prefix_cons_iff {A} (x y : A) l k : x :: l `prefix_of` y :: k ↔ x = y ∧ l `prefix_of` k.
Proof. split; [intros H; split; [by eapply prefix_cons_inv_1|by eapply prefix_cons_inv_2]|]. intros [-> ?]. by apply prefix_cons. Qed.

Lemma prefix_ff n k : replicate n xff `prefix_of` k ↔ leb (replicate n xff) k = true.
Proof.
  revert k; induction n as [|n IH]; intros k; cbn [replicate].
  { split; [by destruct k|]. intros _. apply prefix_nil. }
  destruct k as [|x k]; [split; [by intros ?%prefix_nil_inv|done]|].
  rewrite prefix_cons_iff, IH. unfold leb, cmp, list_ord. cbn [lex_cmp].
  pose proof (byte_le_ff x) as Hx. rewrite (cmp_antisym x xff). destruct (cmp x xff) eqn:E; cbn.
  - apply cmp_eq in E. naive_solver.
  - split; [intros [<- _]; by rewrite cmp_refl in E|done].
  - done.
Qed.

Lemma succ_cmp b x : b ≠ xff →
  ltb x (u8_of (u8_val b + 1)) = leb x b.
Proof.
  intros Hb. pose proof (u8_val_bound b). pose proof (u8_val_bound x).
  assert (u8_val b ≠ 255) by (intros Heq; apply Hb, u8_val_inj; by rewrite Heq).
  unfold ltb, leb, cmp, byte_ord. rewrite u8_val_of, Z.mod_small by lia.
  destruct (Z.compare_spec (u8_val x) (u8_val b + 1)), (Z.compare_spec (u8_val x) (u8_val b));
    try done; lia.
Qed.

Lemma ltb_cons {A} `{OrdLaws A} (x y : A) l k :
  ltb (x :: l) (y :: k) = match cmp x y with Eq => ltb l k | Lt => true | Gt => false end.
Proof.
  unfold ltb. change (cmp (x :: l) (y :: k)) with (match cmp x y with Eq => cmp l k | c => c end).
  by destruct (cmp x y).
Qed.
Lemma leb_cons {A} `{OrdLaws A} (x y : A) l k :
  leb (x :: l) (y :: k) = match cmp x y with Eq => leb l k | Lt => true | Gt => false end.
Proof.
  unfold leb. change (cmp (x :: l) (y :: k)) with (match cmp x y with Eq => cmp l k | c => c end).
  by destruct (cmp x y).
Qed.

Lemma prefix_range_last q b n k :
  b ≠ xff →
  q ++ b :: replicate n xff `prefix_of` k ↔
  leb (q ++ b :: replicate n xff) k = true ∧ ltb k (q ++ [u8_of (u8_val b + 1)]) = true.
Proof.
  intros Hb. revert k; induction q as [|y q IH]; intros [|x k]; cbn [app].
  - split; [by intros ?%prefix_nil_inv|by intros []].
  - rewrite prefix_cons_iff, prefix_ff, leb_cons, ltb_cons.
    pose proof (succ_cmp b x Hb) as Hs. unfold ltb at 1, leb at 1 in Hs.
    rewrite (cmp_antisym x b). destruct (cmp x b) eqn:E; cbn [CompOpp].
    + apply cmp_eq in E as ->. destruct (cmp b _); try done. naive_solver.
    + split; [intros [-> _]; by rewrite cmp_refl in E|naive_solver].
    + split; [intros [-> _]; by rewrite cmp_refl in E|]. intros [_ Hlt].
      destruct (cmp x (u8_of _)); try done. by destruct k.
  - split; [by intros ?%prefix_nil_inv|by intros []].
  - rewrite prefix_cons_iff, IH, leb_cons, ltb_cons. rewrite (cmp_antisym x y).
    destruct (cmp x y) eqn:E; cbn [CompOpp].
    + apply cmp_eq in E. naive_solver.
    + split; [intros [-> _]; by rewrite cmp_refl in E|naive_solver].
    + split; [intros [-> _]; by rewrite cmp_refl in E|naive_solver].
Qed.

Lemma prefix_end_range p k :
  p `prefix_of` k ↔
  leb p k = true ∧ match prefix_end p with Some e => ltb k e = true | None => True end.
Proof.
  pose proof (prefix_end_shape p) as Hp. destruct (prefix_end p) as [e|].
  - destruct Hp as (q & b & n & -> & Hb & ->). by apply prefix_range_last.
  - destruct Hp as (n & ->). rewrite prefix_ff. tauto.
Qed.

(** [prefix_end] is the exact exclusive upper bound of a byte prefix: a key starts with
    the prefix exactly when it lies in [prefix, prefix_end), and exactly when it is not below
    the prefix when there is no upper bound (a prefix of 0xff bytes only). *)
Theorem prefix_end_exact (prefix key : list byte) :
  prefix `prefix_of` key ↔
  leb prefix key = true
  ∧ match prefix_end prefix with Some e => ltb key e = true | None => True end.
Proof. apply prefix_end_range. Qed.

Lemma encode_parts_prefix ps qs r :
  Forall wf_part ps → Forall wf_part qs →
  flat_map encode_part qs = flat_map encode_part ps ++ r → ps `prefix_of` qs.
Proof.
  intros Hps. revert qs; induction Hps as [|p ps Hp Hps IH]; intros qs Hqs Heq; [apply prefix_nil|].
  destruct Hqs as [|q qs Hq Hqs]; cbn [flat_map] in Heq.
  { destruct (encode_part_cons p) as [l Hl]. rewrite Hl in Heq. done. }
  rewrite <-app_assoc in Heq. apply (f_equal read_part) in Heq.
  rewrite !read_part_encode in Heq by done. simplify_eq. apply prefix_cons. eauto.
Qed.

Lemma encode_prefix a f ps b g qs :
  wf_address a → wf_address b → Forall wf_part ps → Forall wf_part qs →
  encode a f ps `prefix_of` encode b g qs ↔ a = b ∧ f = g ∧ ps `prefix_of` qs.
Proof.
  intros [Hta Hsa] [Htb Hsb] Hps Hqs. split.
  - intros [r Hr]. unfold encode in Hr. apply (f_equal (drop 1)) in Hr. cbn [app drop] in Hr.
    rewrite <-app_assoc in Hr.
    apply app_inv_head in Hr. rewrite <-app_assoc in Hr.
    apply (f_equal (read_optional_text "tenant")) in Hr.
    rewrite !read_optional_text_encode in Hr by done. injection Hr as Ht Hr. rewrite <-app_assoc in Hr.
    apply (f_equal (read_optional_text "scope")) in Hr.
    rewrite !read_optional_text_encode in Hr by done. injection Hr as Hs Hf Hr.
    apply (f_equal family_try_from) in Hf. rewrite !family_try_from_byte in Hf. injection Hf as Hf.
    destruct a, b; cbn in *; subst. split_and!; [done|done|]. by eapply encode_parts_prefix.
  - intros (<- & <- & [r ->]). exists (flat_map encode_part r). unfold encode.
    rewrite flat_map_app. by rewrite <-!app_comm_cons, <-!app_assoc.
Qed.

(** Component-aligned ranges are exact and isolated: the byte range that starts at the
    encoding of an address, family and tuple prefix and ends at its [prefix_end] (which
    always exists) contains precisely the keys of that same tenant, scope and family whose
    tuple extends the prefix field by field.  No key of another tenant or scope, and no
    neighbour such as a longer field value, falls inside. *)
Theorem key_prefix_range_isolated (a b : KeyAddress) (f g : KeyFamily) (ps qs : list KeyPart) :
  wf_address a → wf_address b → Forall wf_part ps → Forall wf_part qs →
  ∃ e, prefix_end (encode a f ps) = Some e
    ∧ (leb (encode a f ps) (encode b g qs) = true ∧ ltb (encode b g qs) e = true
       ↔ a = b ∧ f = g ∧ ps `prefix_of` qs).
Proof.
  intros Ha Hb Hps Hqs. pose proof (prefix_end_range (encode a f ps) (encode b g qs)) as Hr.
  pose proof (prefix_end_shape (encode a f ps)) as Hshape.
  destruct (prefix_end (encode a f ps)) as [e|].
  - exists e. split; [done|]. rewrite <-Hr. by apply encode_prefix.
  - destruct Hshape as [[|n] Hn]; discriminate Hn.
Qed.

(** * Witnesses and the frozen vectors *)

Definition sample_address : KeyAddress := {| tenant := Some "tenant-a"; scope := Some "estate-a" |}.
Definition sample_parts : list KeyPart :=
  [Text "file:a"; Bytes [x00; xff]; Bool true; U8 x07; U64 42; I64 (-7); DescU64 100].

Lemma sample_wf : wf_address sample_address ∧ Forall wf_part sample_parts.
Proof.
  split; [done|]. repeat constructor; unfold wf_part, is_i64, in_width; try lia; done.
Qed.

Example key_codec_roundtrip_witness :
  decode (encode sample_address Temporal sample_parts)
  = Ok {| key_tenant := Some "tenant-a"; key_scope := Some "estate-a"; family := Temporal;
          parts := sample_parts |}.
Proof. apply (key_codec_roundtrip sample_address Temporal sample_parts); apply sample_wf. Defined.

Example key_codec_canonical_witness :
  decode (encode GLOBAL Outbox [U64 9; U64 1])
    = Ok {| key_tenant := None; key_scope := None; family := Outbox; parts := [U64 9; U64 1] |}
  ∧ Forall wf_part [U64 9; U64 1].
Proof.
  split; [by vm_compute|].
  apply (key_codec_canonical (encode GLOBAL Outbox [U64 9; U64 1])
    {| key_tenant := None; key_scope := None; family := Outbox; parts := [U64 9; U64 1] |}).
  by vm_compute.
Defined.

Example key_codec_order_witness :
  lex_cmp (encode sample_address Temporal sample_parts) (encode sample_address Temporal [])
  = key_cmp sample_address Temporal sample_parts sample_address Temporal [].
Proof. apply key_codec_order; [apply sample_wf|constructor]. Defined.

Example key_prefix_range_isolated_witness :
  ∃ e, prefix_end (encode sample_address Temporal []) = Some e
    ∧ (leb (encode sample_address Temporal []) (encode sample_address Temporal sample_parts) = true
       ∧ ltb (encode sample_address Temporal sample_parts) e = true
       ↔ sample_address = sample_address ∧ Temporal = Temporal ∧ [] `prefix_of` sample_parts).
Proof.
  apply key_prefix_range_isolated; [apply sample_wf|apply sample_wf|constructor|apply sample_wf].
Defined.

(** The model reproduces the checked-in fixture of the codec byte for byte
    (fixtures/rrflow-kv-key-codec-v1.hex). *)
Example frozen_family_vectors :
  map (λ v : KeyFamily * list KeyPart, hex (encode sample_address v.1 v.2))
  [(Current, [U8 x01; Text "document"; Text "readme"]);
   (Temporal, [U8 x01; Text "claim"; Text "status"; DescU64 100; DescU64 200]);
   (OutgoingEdge, [Text "file:a"; Text "imports"; Text "file:b"]);
   (IncomingEdge, [Text "file:b"; Text "imports"; Text "file:a"]);
   (Scalar, [Text "by_size"; I64 (-7); Text "file:a"]);
   (Unique, [Text "by_path"; Text "src/lib.rs"]);
   (TermDictionary, [Text "source"; Text "arrow"]);
   (TermStatistic, [Text "source"; U64 42]);
   (TermPosting, [Text "source"; Text "arrow"; Text "file:a"]);
   (Vector, [Text "code"; Text "file:a"]);
   (ProjectionDelta, [Text "hnsw:code"; U64 9; U64 1]);
   (Catalogue, [U8 (subfamily_byte FunctionArtifact); Bytes [xaa; xbb]]);
   (Catalogue, [U8 (subfamily_byte FunctionDefinition); Text "lint"]);
   (Catalogue, [U8 (subfamily_byte TransactionFunctionBinding); Text "on_commit"]);
   (Catalogue, [U8 (subfamily_byte Membership); U64 3]);
   (Catalogue, [U8 (subfamily_byte Head)]);
   (Catalogue, [U8 (subfamily_byte InvocationReceipt); U64 5]);
   (RuntimeCommit, [Bytes [xcc; xdd]]);
   (Outbox, [U64 9; U64 1]);
   (Audit, [Bytes [xee; xff]])]
  = ["f052524b56303030312174656e616e742d61ff0000000000000000f7216573746174652d61ff0000000000000000f7f110310121646f63756d656e74ff0000000000000000f721726561646d650000fd";
     "f052524b56303030312174656e616e742d61ff0000000000000000f7216573746174652d61ff0000000000000000f7f111310121636c61696d000000fc217374617475730000fd34ffffffffffffff9b34ffffffffffffff37";
     "f052524b56303030312174656e616e742d61ff0000000000000000f7216573746174652d61ff0000000000000000f7f1122166696c653a610000fd21696d706f72747300fe2166696c653a620000fd";
     "f052524b56303030312174656e616e742d61ff0000000000000000f7216573746174652d61ff0000000000000000f7f1132166696c653a620000fd21696d706f72747300fe2166696c653a610000fd";
     "f052524b56303030312174656e616e742d61ff0000000000000000f7216573746174652d61ff0000000000000000f7f1142162795f73697a6500fe337ffffffffffffff92166696c653a610000fd";
     "f052524b56303030312174656e616e742d61ff0000000000000000f7216573746174652d61ff0000000000000000f7f1152162795f7061746800fe217372632f6c69622eff7273000000000000f9";
     "f052524b56303030312174656e616e742d61ff0000000000000000f7216573746174652d61ff0000000000000000f7f11621736f757263650000fd216172726f77000000fc";
     "f052524b56303030312174656e616e742d61ff0000000000000000f7216573746174652d61ff0000000000000000f7f11721736f757263650000fd32000000000000002a";
     "f052524b56303030312174656e616e742d61ff0000000000000000f7216573746174652d61ff0000000000000000f7f11821736f757263650000fd216172726f77000000fc2166696c653a610000fd";
     "f052524b56303030312174656e616e742d61ff0000000000000000f7216573746174652d61ff0000000000000000f7f11921636f646500000000fb2166696c653a610000fd";
     "f052524b56303030312174656e616e742d61ff0000000000000000f7216573746174652d61ff0000000000000000f7f11a21686e73773a636f64ff6500000000000000f8320000000000000009320000000000000001";
     "f052524b56303030312174656e616e742d61ff0000000000000000f7216573746174652d61ff0000000000000000f7f11b310120aabb000000000000f9";
     "f052524b56303030312174656e616e742d61ff0000000000000000f7216573746174652d61ff0000000000000000f7f11b3102216c696e7400000000fb";
     "f052524b56303030312174656e616e742d61ff0000000000000000f7216573746174652d61ff0000000000000000f7f11b3103216f6e5f636f6d6d69ff7400000000000000f8";
     "f052524b56303030312174656e616e742d61ff0000000000000000f7216573746174652d61ff0000000000000000f7f11b3104320000000000000003";
     "f052524b56303030312174656e616e742d61ff0000000000000000f7216573746174652d61ff0000000000000000f7f11b3105";
     "f052524b56303030312174656e616e742d61ff0000000000000000f7216573746174652d61ff0000000000000000f7f11b3106320000000000000005";
     "f052524b56303030312174656e616e742d61ff0000000000000000f7216573746174652d61ff0000000000000000f7f11c20ccdd000000000000f9";
     "f052524b56303030312174656e616e742d61ff0000000000000000f7216573746174652d61ff0000000000000000f7f11d320000000000000009320000000000000001";
     "f052524b56303030312174656e616e742d61ff0000000000000000f7216573746174652d61ff0000000000000000f7f11e20eeff000000000000f9"]%string.
Proof. by vm_compute. Qed.
