(* ===== verification/Text.v ===== *)
(** Texts as the kernel's validators look at them ([rrd-core]: data.rs, runtime.rs, schema.rs,
    reasoning_tree.rs).

    What those files use of Rust's [str], [char], [u64] and [f64]: white space and control
    characters of UTF-8, hexadecimal digits, prefixes, decimal integers and decimal fractions.
    The validators of digests and labels, which several source files repeat, are here too. *)

From S2P Require Import Prelude Machine Ident.
Open Scope Z_scope.

(** * Characters *)

Definition byte_is (z : Z) (b : byte) : bool := u8_val b =? z.

(** The White_Space characters of three bytes: U+1680, U+2000 to U+200A, U+2028, U+2029, U+202F,
    U+205F and U+3000. *)
Definition wide_space (a b c : byte) : bool :=
  ((byte_is 225 a && byte_is 154 b && byte_is 128 c)
   || (byte_is 226 a && byte_is 128 b && (in_range 128 138 c || byte_is 168 c || byte_is 169 c || byte_is 175 c))
   || (byte_is 226 a && byte_is 129 b && byte_is 159 c)
   || (byte_is 227 a && byte_is 128 b && byte_is 128 c))%bool.

(** [value.trim().is_empty()]: every character is White_Space. *)
Fixpoint all_whitespace (l : list byte) : bool :=
  match l with
  | [] => true
  | a :: l1 =>
    if (in_range 9 13 a || byte_is 32 a)%bool then all_whitespace l1
    else match l1 with
         | [] => false
         | b :: l2 =>
           if (byte_is 194 a && (byte_is 133 b || byte_is 160 b))%bool then all_whitespace l2
           else match l2 with
                | [] => false
                | c :: l3 => if wide_space a b c then all_whitespace l3 else false
                end
         end
  end.
Definition trims_to_nothing (s : string) : bool := all_whitespace (str_bytes s).

(** [chars().any(char::is_control)]: U+0000 to U+001F, U+007F to U+009F. *)
Fixpoint has_control (l : list byte) : bool :=
  match l with
  | [] => false
  | a :: l' =>
    (in_range 0 31 a || byte_is 127 a
     || (byte_is 194 a && match l' with b :: _ => in_range 128 159 b | [] => false end)
     || has_control l')%bool
  end.

Definition has_nul (s : string) : bool := existsb (byte_is 0) (str_bytes s).

(** [str::starts_with] *)
Definition starts_with (s p : string) : bool := bool_decide (take (length (str_bytes p)) (str_bytes s) = str_bytes p).
(** [str::strip_prefix] *)
Definition strip_prefix (s p : string) : option (list byte) :=
  if starts_with s p then Some (drop (length (str_bytes p)) (str_bytes s)) else None.

(** [b'0'..=b'9' | b'a'..=b'f'] and [u8::is_ascii_hexdigit] *)
Definition lower_hex (b : byte) : bool := (is_ascii_digit b || in_range 97 102 b)%bool.
Definition ascii_hexdigit (b : byte) : bool := (lower_hex b || in_range 65 70 b)%bool.
Definition sha256_text (digit : byte → bool) (s : string) : bool := ((str_len s =? 64) && forallb digit (str_bytes s))%bool.

(** The quoted form of a string in messages, [{:?}]; characters outside ASCII are printed as they are. *)
Definition escape_byte (b : byte) : list byte :=
  if (byte_is 34 b || byte_is 92 b)%bool then [x5c; b]
  else if byte_is 9 b then [x5c; x74] else if byte_is 10 b then [x5c; x6e] else if byte_is 13 b then [x5c; x72]
  else if byte_is 0 b then [x5c; x30] else [b].
Definition debug_str (s : string) : string := bytes_str ([x22] ++ flat_map escape_byte (str_bytes s) ++ [x22]).

(** * Decimal integers *)

(** The digits of [str::parse::<u64>], from the left. *)
Fixpoint parse_digits (acc : Z) (l : list byte) : option Z :=
  match l with
  | [] => Some acc
  | b :: l =>
    if is_ascii_digit b then
      let acc := 10 * acc + (u8_val b - 48) in
      if acc <=? u64_max then parse_digits acc l else None
    else None
  end.
(** [str::parse::<u64>]: one or more digits, possibly after a plus sign, within 64 bits. *)
Definition parse_u64 (l : list byte) : option Z :=
  match l with
  | [] => None
  | b :: l' => if (byte_is 43 b && negb (bool_decide (l' = [])))%bool then parse_digits 0 l' else parse_digits 0 l
  end.

(** The least significant digit first. *)
Fixpoint digits_rev (fuel : nat) (z : Z) : list byte :=
  match fuel with
  | O => []
  | S fuel => u8_of (48 + z mod 10) :: (if z / 10 =? 0 then [] else digits_rev fuel (z / 10))
  end.
(** [u64::to_string]; twenty digits hold every 64-bit value *)
Definition decimal (z : Z) : list byte := rev (digits_rev 20 z).

Lemma digit_ok d : 0 ≤ d < 10 → is_ascii_digit (u8_of (48 + d)) = true ∧ u8_val (u8_of (48 + d)) - 48 = d.
Proof. intros Hd. unfold is_ascii_digit, in_range. rewrite u8_val_of, Z.mod_small by lia. rewrite andb_true_iff, !Z.leb_le. lia. Qed.

Lemma parse_digits_app acc l k : parse_digits acc (l ++ k) = match parse_digits acc l with Some a => parse_digits a k | None => None end.
Proof. revert acc; induction l as [|b l IH]; intros acc; cbn [parse_digits app]; [done|]. destruct (is_ascii_digit b); [|done]. destruct (_ <=? _); [apply IH|done]. Qed.

Lemma digits_rev_parse fuel z : 0 ≤ z < 10 ^ Z.of_nat fuel → z ≤ u64_max → fuel ≠ 0%nat → parse_digits 0 (rev (digits_rev fuel z)) = Some z.
Proof.
  revert z; induction fuel as [|fuel IH]; intros z Hz Hmax Hf; [done|]. cbn [digits_rev rev]. rewrite parse_digits_app.
  destruct (digit_ok (z mod 10)) as [Hd Hv]; [apply Z.mod_pos_bound; lia|]. pose proof (Z.div_mod z 10 ltac:(lia)) as Hdm.
  destruct (Z.eqb_spec (z / 10) 0) as [E|E].
  - cbn [rev parse_digits]. rewrite Hd, Hv. destruct (Z.leb_spec (10 * 0 + z mod 10) u64_max); [f_equal; lia|lia].
  - assert (fuel ≠ 0%nat) as Hf'. { intros ->. cbn in Hz. assert (z / 10 = 0) by (apply Z.div_small; lia). done. }
    assert (0 ≤ z / 10 < 10 ^ Z.of_nat fuel) as Hq.
    { split; [apply Z.div_pos; lia|]. apply Z.div_lt_upper_bound; [lia|]. rewrite Nat2Z.inj_succ, Z.pow_succ_r in Hz by lia. lia. }
    rewrite IH by (try done; pose proof (Z.div_le_upper_bound z 10 u64_max ltac:(lia) ltac:(unfold u64_max in *; lia)); lia).
    cbn [parse_digits]. rewrite Hd, Hv. destruct (Z.leb_spec (10 * (z / 10) + z mod 10) u64_max); [f_equal; lia|lia].
Qed.

Lemma decimal_digits z : 0 ≤ z → Forall (λ b, is_ascii_digit b = true) (decimal z).
Proof.
  unfold decimal. intros Hz. apply Forall_rev. generalize 20%nat as fuel. intros fuel. revert z Hz. induction fuel as [|fuel IH]; intros z Hz; cbn [digits_rev]; [done|].
  constructor; [apply digit_ok, Z.mod_pos_bound; lia|]. destruct (_ =? 0); [done|]. apply IH, Z.div_pos; lia.
Qed.

Lemma decimal_ne z : decimal z ≠ [].
Proof. unfold decimal. cbn [digits_rev rev]. by intros [_ ?]%app_nil. Qed.

Lemma parse_decimal z : 0 ≤ z ≤ u64_max → parse_u64 (decimal z) = Some z.
Proof.
  intros Hz. pose proof (decimal_digits z (proj1 Hz)) as Hd. unfold parse_u64. destruct (decimal z) as [|b l] eqn:E; [by apply decimal_ne in E|].
  apply Forall_cons in Hd as [Hb _]. assert (byte_is 43 b = false) as ->.
  { unfold is_ascii_digit, in_range, byte_is in *. apply andb_true_iff in Hb as [Hb%Z.leb_le _]. apply Z.eqb_neq. lia. }
  cbn [andb]. rewrite <-E. apply digits_rev_parse; [|lia|done]. unfold u64_max in Hz. split; [lia|]. eapply Z.le_lt_trans; [apply Hz|]. vm_compute. done.
Qed.

Lemma decimal_inj a b : 0 ≤ a ≤ u64_max → 0 ≤ b ≤ u64_max → decimal a = decimal b → a = b.
Proof. intros Ha Hb E. apply parse_decimal in Ha, Hb. rewrite E in Ha. congruence. Qed.

(** * Decimal fractions *)

(** Digits from the left, the value and how many there are, and what follows them. *)
Fixpoint scan_digits (acc count : Z) (l : list byte) : Z * Z * list byte :=
  match l with
  | b :: l' => if is_ascii_digit b then scan_digits (10 * acc + (u8_val b - 48)) (count + 1) l' else (acc, count, l)
  | [] => (acc, count, [])
  end.
Definition skip_sign (l : list byte) : list byte := match l with b :: l' => if (byte_is 43 b || byte_is 45 b)%bool then l' else l | [] => [] end.
Definition negative (l : list byte) : bool := match l with b :: _ => byte_is 45 b | [] => false end.
(** An exponent: [e], a sign, digits and the end of the text. *)
Definition parse_exponent (l : list byte) : option Z :=
  match l with
  | [] => Some 0
  | b :: l =>
    if (byte_is 101 b || byte_is 69 b)%bool then
      let '(value, count, rest) := scan_digits 0 0 (skip_sign l) in
      if ((count =? 0) || negb (bool_decide (rest = [])))%bool then None else Some (if negative l then - value else value)
    else None
  end.
(** The decimal number a text denotes, as a mantissa and a power of ten, when the grammar of
    [f64::from_str] reads it as a number; the words for infinity and not-a-number are not numbers. *)
Definition parse_decimal_number (s : string) : option (Z * Z) :=
  let '(whole, whole_digits, rest) := scan_digits 0 0 (skip_sign (str_bytes s)) in
  let '(value, fraction_digits, rest) :=
    match rest with
    | b :: rest' => if byte_is 46 b then scan_digits whole 0 rest' else (whole, 0, rest)
    | [] => (whole, 0, [])
    end in
  if whole_digits + fraction_digits =? 0 then None
  else match parse_exponent rest with Some e => Some (value, e - fraction_digits) | None => None end.
(** The value nearest to [m * 10 ^ e] is finite: below the midpoint of the largest [f64] and 2^1024. *)
Definition rounds_to_finite (m e : Z) : bool :=
  let bound := 2 ^ 1024 - 2 ^ 970 in
  if m =? 0 then true
  else if 0 <=? e then (if 400 <? e then false else m * 10 ^ e <? bound)
  else if 400 + Z.log2 m <? - e then true
  else m <? bound * 10 ^ (- e).
(** [value.parse::<f64>().is_ok_and(f64::is_finite)] *)
Definition parses_finite (s : string) : bool := match parse_decimal_number s with Some (m, e) => rounds_to_finite m e | None => false end.

(** The shortcuts of [rounds_to_finite] decide the comparison they stand for. *)
Lemma rounds_to_finite_small m e : 0 < m → e < 0 → rounds_to_finite m e = (m <? (2 ^ 1024 - 2 ^ 970) * 10 ^ (- e)).
Proof.
  intros Hm He. unfold rounds_to_finite. destruct (Z.eqb_spec m 0); [lia|]. destruct (Z.leb_spec 0 e); [lia|].
  destruct (Z.ltb_spec (400 + Z.log2 m) (- e)) as [Hbig|]; [|done]. symmetry. apply Z.ltb_lt.
  pose proof (Z.log2_spec m Hm) as [_ Hlog]. pose proof (Z.log2_nonneg m).
  assert (2 ^ Z.succ (Z.log2 m) ≤ 10 ^ (- e)) as Hpow.
  { transitivity (10 ^ Z.succ (Z.log2 m)); [apply Z.pow_le_mono_l; lia|apply Z.pow_le_mono_r; lia]. }
  assert (1 ≤ 2 ^ 1024 - 2 ^ 970) by (vm_compute; congruence). nia.
Qed.
Lemma rounds_to_finite_large m e : 0 < m → 0 ≤ e → rounds_to_finite m e = (m * 10 ^ e <? 2 ^ 1024 - 2 ^ 970).
Proof.
  intros Hm He. unfold rounds_to_finite. destruct (Z.eqb_spec m 0); [lia|]. destruct (Z.leb_spec 0 e); [|lia].
  destruct (Z.ltb_spec 400 e) as [Hbig|]; [|done]. symmetry. apply Z.ltb_ge.
  transitivity (10 ^ 400); [vm_compute; congruence|]. pose proof (Z.pow_le_mono_r 10 400 e ltac:(lia) ltac:(lia)). nia.
Qed.

(** * Validators *)

(** core/reasoning_tree.rs:650-654 invalid, and the same function of data.rs and schema.rs *)
Definition invalid {T} (reason : string) : result Error T := Err (InvalidRuntime reason).

(** * Fallible code that can panic

    [None] is a panic, [Some] what the function returns. *)

Notation "'let*' x ':=' e 'in' k" :=
  (match e with Some (Ok x) => k | Some (Err err) => Some (Err err) | None => None end)
  (at level 10, x pattern, e at level 100, k at level 200) : rust_scope.
Notation "'do*' e 'in' k" :=
  (match e with Some (Ok _) => k | Some (Err err) => Some (Err err) | None => None end)
  (at level 10, e at level 100, k at level 200) : rust_scope.

(** [for x in l { f(x)?; }] with a body that can panic *)
Fixpoint try_each_panic {E A} (f : A → option (result E unit)) (l : list A) : option (result E unit) :=
  match l with
  | [] => Some (Ok tt)
  | x :: l => do* f x in try_each_panic f l
  end.
Lemma try_each_panic_ok {E A} (f : A → option (result E unit)) l : try_each_panic f l = Some (Ok tt) ↔ Forall (λ x, f x = Some (Ok tt)) l.
Proof.
  induction l as [|x l IH]; cbn [try_each_panic]; [by split|]. rewrite Forall_cons. destruct (f x) as [[[]|]|]; naive_solver.
Qed.
