(* ===== verification/RuntimeTypes.v ===== *)
(** The data of the runtime graph ([rrd-core]: runtime.rs, data.rs, schema.rs).

    A runtime commit carries claims, typed records and relations, events, vectors, samples, places
    and objects, retirements and a schema.  This file has those types with their equality and
    order, and the identifiers of runtime.rs.  A [BTreeMap] is the list of its entries in key
    order, a [BTreeSet] the list of its elements, and a float is its bit pattern.

    Theorems: an event's identity reads back as its cursor, [parse] accepts it, and no identifier
    that a caller can construct is one. *)

From S2P Require Import Prelude Machine BTree Ident Text Claim.
Open Scope Z_scope.

(** * Identifiers *)

(** core/runtime.rs:19-19 ScopeId *)
Record ScopeId := MkScopeId { scope_str : string }.
(** core/runtime.rs:20-20 RuntimeType *)
Record RuntimeType := MkRuntimeType { type_str : string }.
(** core/runtime.rs:21-21 RuntimeId *)
Record RuntimeId := MkRuntimeId { id_str : string }.
(** core/runtime.rs:22-22 SnapshotId *)
Record SnapshotId := MkSnapshotId { snapshot_str : string }.
(** core/runtime.rs:23-23 RetentionPinId *)
Record RetentionPinId := MkRetentionPinId { pin_str : string }.
(** core/runtime.rs:24-24 ProjectionId *)
Record ProjectionId := MkProjectionId { projection_str : string }.
(** core/runtime.rs:25-25 OutboxId *)
Record OutboxId := MkOutboxId { outbox_str : string }.

#[export] Instance scope_eq_dec : EqDecision ScopeId.
Proof. solve_decision. Defined.
#[export] Instance type_eq_dec : EqDecision RuntimeType.
Proof. solve_decision. Defined.
#[export] Instance id_eq_dec : EqDecision RuntimeId.
Proof. solve_decision. Defined.
#[export] Instance snapshot_eq_dec : EqDecision SnapshotId.
Proof. solve_decision. Defined.
#[export] Instance outbox_eq_dec : EqDecision OutboxId.
Proof. solve_decision. Defined.

#[export] Instance type_ord : Ord RuntimeType := ord_by type_str.
#[export] Instance type_ord_laws : OrdLaws RuntimeType.
Proof. apply ord_by_laws. by intros [] [] [= ->]. Qed.
#[export] Instance id_ord : Ord RuntimeId := ord_by id_str.
#[export] Instance id_ord_laws : OrdLaws RuntimeId.
Proof. apply ord_by_laws. by intros [] [] [= ->]. Qed.

(** core/ident.rs:69-75 text_ident!::new for ScopeId *)
Definition ScopeId_new (value : string) : result Error ScopeId := do? check_text "runtime scope" value in Ok (MkScopeId value).
(** core/ident.rs:69-75 text_ident!::new for RuntimeType *)
Definition RuntimeType_new (value : string) : result Error RuntimeType := do? check_canonical "runtime type" value in Ok (MkRuntimeType value).
(** core/ident.rs:69-75 text_ident!::new for SnapshotId *)
Definition SnapshotId_new (value : string) : result Error SnapshotId := do? check_canonical "snapshot id" value in Ok (MkSnapshotId value).
(** core/ident.rs:69-75 text_ident!::new for RetentionPinId *)
Definition RetentionPinId_new (value : string) : result Error RetentionPinId := do? check_canonical "retention pin id" value in Ok (MkRetentionPinId value).
(** core/ident.rs:69-75 text_ident!::new for OutboxId *)
Definition OutboxId_new (value : string) : result Error OutboxId := do? check_canonical "outbox id" value in Ok (MkOutboxId value).

(** core/runtime.rs:64-64 EVENT_ID_PREFIX *)
Definition EVENT_ID_PREFIX : string := "cursor:".
(** core/runtime.rs:68-72 RuntimeId::new *)
Definition RuntimeId_new (value : string) : result Error RuntimeId := do? check_canonical "runtime id" value in Ok (MkRuntimeId value).
(** core/runtime.rs:77-79 RuntimeId::event *)
Definition RuntimeId_event (cursor : Z) : RuntimeId := MkRuntimeId (bytes_str (str_bytes EVENT_ID_PREFIX ++ decimal cursor)).
(** core/runtime.rs:82-84 RuntimeId::event_cursor *)
Definition event_cursor (self : RuntimeId) : option Z :=
  match strip_prefix (id_str self) EVENT_ID_PREFIX with Some digits => parse_u64 digits | None => None end.
(** core/runtime.rs:87-98 RuntimeId::parse *)
Definition RuntimeId_parse (value : string) : result Error RuntimeId :=
  match strip_prefix value EVENT_ID_PREFIX with
  | Some digits =>
    match parse_u64 digits with
    | Some cursor => if bool_decide (decimal cursor = digits) then Ok (MkRuntimeId value) else RuntimeId_new value
    | None => RuntimeId_new value
    end
  | None => RuntimeId_new value
  end.

(** core/runtime.rs:33-36 RuntimeRef *)
Record RuntimeRef := { ref_kind : RuntimeType; ref_id : RuntimeId }.
#[export] Instance ref_eq_dec : EqDecision RuntimeRef.
Proof. solve_decision. Defined.
#[export] Instance ref_ord : Ord RuntimeRef := ord_by (λ r, (ref_kind r, ref_id r)).
#[export] Instance ref_ord_laws : OrdLaws RuntimeRef.
Proof. apply (ord_by_laws (λ r, (ref_kind r, ref_id r))). by intros [] [] [= -> ->]. Qed.

(** core/runtime.rs:40-45 RuntimeRef::new *)
Definition RuntimeRef_new (kind id : string) : result Error RuntimeRef :=
  let? kind := RuntimeType_new kind in let? id := RuntimeId_new id in Ok {| ref_kind := kind; ref_id := id |}.
(** core/runtime.rs:48-53 RuntimeRef::event *)
Definition RuntimeRef_event (kind : RuntimeType) (cursor : Z) : RuntimeRef := {| ref_kind := kind; ref_id := RuntimeId_event cursor |}.
(** core/runtime.rs:56-61 RuntimeRef::parse *)
Definition RuntimeRef_parse (kind id : string) : result Error RuntimeRef :=
  let? kind := RuntimeType_new kind in let? id := RuntimeId_parse id in Ok {| ref_kind := kind; ref_id := id |}.

Lemma strip_event cursor : strip_prefix (id_str (RuntimeId_event cursor)) EVENT_ID_PREFIX = Some (decimal cursor).
Proof.
  unfold strip_prefix, starts_with, RuntimeId_event, id_str. rewrite str_bytes_str, take_app_length, bool_decide_eq_true_2 by done.
  by rewrite drop_app_length.
Qed.
Lemma event_cursor_event cursor : 0 ≤ cursor ≤ u64_max → event_cursor (RuntimeId_event cursor) = Some cursor.
Proof. intros Hc. unfold event_cursor. rewrite strip_event. by apply parse_decimal. Qed.
Lemma RuntimeId_parse_event cursor : 0 ≤ cursor ≤ u64_max → RuntimeId_parse (id_str (RuntimeId_event cursor)) = Ok (RuntimeId_event cursor).
Proof. intros Hc. unfold RuntimeId_parse. by rewrite strip_event, parse_decimal, bool_decide_eq_true_2. Qed.
Lemma RuntimeId_event_inj a b : 0 ≤ a ≤ u64_max → 0 ≤ b ≤ u64_max → RuntimeId_event a = RuntimeId_event b → a = b.
Proof. intros Ha Hb E. apply event_cursor_event in Ha, Hb. rewrite E in Ha. congruence. Qed.

(** A caller's identifier is never an event's. *)
Lemma RuntimeId_new_not_event value id cursor : RuntimeId_new value = Ok id → id ≠ RuntimeId_event cursor.
Proof.
  unfold RuntimeId_new, check_canonical. destruct (bool_decide _) eqn:Eb; [done|]. destruct (canonical_id_problem value) eqn:Ec; [done|]. intros [= <-] [= Ev].
  apply canonical_id_problem_None in Ec. unfold canonical in Ec. rewrite Ev, str_bytes_str in Ec. cbn [str_bytes] in Ec. destruct Ec as (_ & Ht & _).
  rewrite Forall_forall in Ht. specialize (Ht ":"%byte ltac:(apply list_elem_of_In; cbn; auto 20)).
  destruct Ht as [Hh|[Hh|[Hh|Hh]]]; [|done..]. unfold head_byte in Hh. vm_compute in Hh. intuition congruence.
Qed.

(** * Values *)

(** core/runtime.rs:113-123 RuntimeValue *)
Inductive RuntimeValue :=
| VNull
| VBool (b : bool)
| VInteger (z : Z)
| VUnsigned (z : Z)
| VDecimal (s : string)
| VString (s : string)
| VDigest (s : string)
| VList (values : list RuntimeValue)
| VMap (values : list (string * RuntimeValue)).
(** core/runtime.rs:125-125 RuntimeProperties *)
Definition RuntimeProperties : Type := list (string * RuntimeValue).

(** Induction on a value with the values inside its lists and maps. *)
Section ValueInduction.
Context (P : RuntimeValue → Prop).
Context (PNull : P VNull) (PBool : ∀ b, P (VBool b)) (PInteger : ∀ z, P (VInteger z)) (PUnsigned : ∀ z, P (VUnsigned z)).
Context (PDecimal : ∀ s, P (VDecimal s)) (PString : ∀ s, P (VString s)) (PDigest : ∀ s, P (VDigest s)).
Context (PList : ∀ l, Forall P l → P (VList l)) (PMap : ∀ m, Forall (λ kv, P kv.2) m → P (VMap m)).
Fixpoint RuntimeValue_rect' (v : RuntimeValue) : P v :=
  match v with
  | VNull => PNull | VBool b => PBool b | VInteger z => PInteger z | VUnsigned z => PUnsigned z
  | VDecimal s => PDecimal s | VString s => PString s | VDigest s => PDigest s
  | VList l => PList l ((fix go l : Forall P l := match l with [] => Forall_nil_2 P | v :: l => Forall_cons_2 P v l (RuntimeValue_rect' v) (go l) end) l)
  | VMap m => PMap m ((fix go m : Forall (λ kv : string * RuntimeValue, P kv.2) m :=
      match m with [] => Forall_nil_2 _ | kv :: m => Forall_cons_2 (λ kv : string * RuntimeValue, P kv.2) kv m (RuntimeValue_rect' kv.2) (go m) end) m)
  end.
End ValueInduction.

#[export] Instance value_eq_dec : EqDecision RuntimeValue.
Proof.
  refine (fix go (a b : RuntimeValue) {struct a} : Decision (a = b) :=
    match a, b with
    | VNull, VNull => left _
    | VBool x, VBool y => cast_if (decide (x = y))
    | VInteger x, VInteger y => cast_if (decide (x = y))
    | VUnsigned x, VUnsigned y => cast_if (decide (x = y))
    | VDecimal x, VDecimal y => cast_if (decide (x = y))
    | VString x, VString y => cast_if (decide (x = y))
    | VDigest x, VDigest y => cast_if (decide (x = y))
    | VList x, VList y =>
      cast_if ((fix list_go (l k : list RuntimeValue) {struct l} : Decision (l = k) :=
        match l, k with
        | [], [] => left _
        | v :: l, w :: k => cast_if_and (go v w) (list_go l k)
        | _, _ => right _
        end) x y)
    | VMap x, VMap y =>
      cast_if ((fix map_go (l k : list (string * RuntimeValue)) {struct l} : Decision (l = k) :=
        match l, k with
        | [], [] => left _
        | (s, v) :: l, (t, w) :: k => cast_if_and3 (decide (s = t)) (go v w) (map_go l k)
        | _, _ => right _
        end) x y)
    | _, _ => right _
    end); clear go; abstract congruence.
Defined.

(** * The families of values *)

(** core/runtime.rs:129-137 RuntimeRecord *)
Record RuntimeRecord := { record_reference : RuntimeRef; record_valid_from : Z; record_valid_to : option Z; record_properties : RuntimeProperties }.
(** core/runtime.rs:141-151 RuntimeRelation *)
Record RuntimeRelation := {
  relation_reference : RuntimeRef; relation_from : RuntimeRef; relation_to : RuntimeRef;
  relation_valid_from : Z; relation_valid_to : option Z; relation_properties : RuntimeProperties
}.
(** core/runtime.rs:155-161 RuntimeEvent *)
Record RuntimeEvent := { event_kind : RuntimeType; event_subject : option RuntimeRef; event_properties : RuntimeProperties }.

(** core/data.rs:16-29 VectorValue *)
Inductive VectorValue :=
| Dense (values : list Z)
| Sparse (dimensions : Z) (indices : list Z) (values : list Z)
| MultiDense (dimensions : Z) (vectors : list (list Z)).
(** core/data.rs:103-106 VectorNormalization *)
Inductive VectorNormalization := NoNormalization | UnitL2.
(** core/data.rs:110-118 EmbeddingProvenance *)
Record EmbeddingProvenance := {
  source_digest : string; embedding_model : string; model_digest : string; provenance_dimensions : Z;
  normalization : VectorNormalization; generation_parameters : RuntimeProperties
}.
(** core/data.rs:137-140 VectorCollectionAddress *)
Record VectorCollectionAddress := { collection_id : string; vector_name : string }.
(** core/data.rs:151-165 RuntimeVector *)
Record RuntimeVector := {
  vector_reference : RuntimeRef; vector_subject : RuntimeRef; vector_collection : VectorCollectionAddress; vector_field : string;
  vector_valid_from : Z; vector_valid_to : option Z; vector_value : VectorValue; vector_provenance : option EmbeddingProvenance;
  vector_properties : RuntimeProperties
}.
(** core/data.rs:186-192 SeriesValue *)
Inductive SeriesValue := SInteger (z : Z) | SUnsigned (z : Z) | SDecimal (s : string) | SBool (b : bool) | SString (s : string).
(** core/data.rs:197-205 RuntimeSeriesSample *)
Record RuntimeSeriesSample := {
  sample_reference : RuntimeRef; sample_series : RuntimeRef; sample_observed_at : Z; sample_value : SeriesValue; sample_properties : RuntimeProperties
}.
(** core/data.rs:217-220 GeoPoint *)
Record GeoPoint := { longitude : Z; latitude : Z }.
(** core/data.rs:237-245 GeoValue *)
Inductive GeoValue := Point (point : GeoPoint) | BoundingBox (southwest northeast : GeoPoint).
(** core/data.rs:269-280 RuntimeGeo *)
Record RuntimeGeo := {
  geo_reference : RuntimeRef; geo_subject : RuntimeRef; geo_field : string; geo_valid_from : Z; geo_valid_to : option Z;
  geo_value : GeoValue; geo_properties : RuntimeProperties
}.
(** core/data.rs:292-299 ObjectReceipt *)
Record ObjectReceipt := { receipt_backend : string; receipt_key : string; receipt_version : option string; receipt_etag : option string }.
(** core/data.rs:303-314 ObjectReference *)
Record ObjectReference := {
  object_reference : RuntimeRef; object_subject : option RuntimeRef; object_sha256 : string; object_length : Z;
  media_type : string; receipt : ObjectReceipt; object_properties : RuntimeProperties
}.

(** * The catalogue *)

(** core/schema.rs:12-22 RuntimeValueType *)
Inductive RuntimeValueType := TNull | TBool | TInteger | TUnsigned | TDecimal | TString | TDigest | TList | TMap.
(** core/schema.rs:42-46 RuntimePropertySchema *)
Record RuntimePropertySchema := { value_type : RuntimeValueType; property_required : bool }.
(** The property schemas of a table: [BTreeMap<String, RuntimePropertySchema>] *)
Definition PropertySchemas : Type := list (string * RuntimePropertySchema).
(** core/schema.rs:65-72 RuntimeRecordSchema *)
Record RuntimeRecordSchema := { record_schemas : PropertySchemas; record_additional : bool; unique_properties : list (string * unit) }.
(** core/schema.rs:75-90 RuntimeRelationSchema *)
Record RuntimeRelationSchema := {
  from_types : list (RuntimeType * unit); to_types : list (RuntimeType * unit); relation_schemas : PropertySchemas; relation_additional : bool;
  unique_pair : bool; max_outgoing : option Z; max_incoming : option Z
}.
(** core/schema.rs:93-102 RuntimeEventSchema *)
Record RuntimeEventSchema := {
  subject_required : bool; subject_types : list (RuntimeType * unit); event_schemas : PropertySchemas; event_additional : bool
}.
(** core/schema.rs:112-128 RuntimeLogicalModel *)
Inductive RuntimeLogicalModel :=
| Document | Relational | GraphNode | GraphRelation | KeyValue | Vector | Event | TimeSeries | Geo | Object
| ReasoningClaim | ReasoningRecord | ReasoningEvent | LifecycleRecord | LifecycleEvent.
(** core/schema.rs:132-135 RuntimeSchemaMode *)
Inductive RuntimeSchemaMode := Strict | Schemaless.
(** core/schema.rs:145-152 RuntimeTableSchema *)
Record RuntimeTableSchema := { table_model : RuntimeLogicalModel; table_mode : RuntimeSchemaMode; table_schemas : PropertySchemas; table_additional : bool }.
(** core/schema.rs:191-198 RuntimeDomainSchema *)
Record RuntimeDomainSchema := { domain_title : string; domain_description : string; domain_parent : option RuntimeType }.
(** core/schema.rs:202-206 RuntimeCategoryTargets *)
Inductive RuntimeCategoryTargets := Kinds | Records | KindsAndRecords.
(** core/schema.rs:220-223 RuntimeTagCardinality *)
Inductive RuntimeTagCardinality := Single | Multiple.
(** core/schema.rs:226-230 RuntimeTagSchema *)
Record RuntimeTagSchema := { tag_title : string; tag_description : string }.
(** core/schema.rs:235-245 RuntimeCategorySchema *)
Record RuntimeCategorySchema := {
  category_title : string; category_description : string; category_targets : RuntimeCategoryTargets;
  category_cardinality : RuntimeTagCardinality; category_open : bool; category_tags : list (RuntimeType * RuntimeTagSchema)
}.
(** core/schema.rs:248-251 RuntimeTagRef *)
Record RuntimeTagRef := { tag_category : RuntimeType; tag_name : RuntimeType }.
(** core/schema.rs:257-268 RuntimeEstateOrganisation *)
Record RuntimeEstateOrganisation := {
  domains : list (RuntimeType * RuntimeDomainSchema); categories : list (RuntimeType * RuntimeCategorySchema);
  kind_domains : list (RuntimeType * RuntimeType); collection_domains : list (RuntimeType * RuntimeType);
  kind_tags : list (RuntimeType * list (RuntimeTagRef * unit))
}.
(** core/schema.rs:490-505 RuntimeSchemaRegistry *)
Record RuntimeSchemaRegistry := {
  revision : Z; migration : string; organisation : RuntimeEstateOrganisation; tables : list (RuntimeType * RuntimeTableSchema);
  records : list (RuntimeType * RuntimeRecordSchema); relations : list (RuntimeType * RuntimeRelationSchema); events : list (RuntimeType * RuntimeEventSchema)
}.

(** * Commits and changes *)

(** core/runtime.rs:169-173 RuntimeRetirement *)
Record RuntimeRetirement := { retired_model : RuntimeLogicalModel; retired_reference : RuntimeRef; effective_at : Z }.
(** core/runtime.rs:177-211 RuntimeMutation *)
Inductive RuntimeMutation :=
| MClaim (claim : Claim)
| MSchema (registry : RuntimeSchemaRegistry)
| MRecord (record : RuntimeRecord)
| MRelation (relation : RuntimeRelation)
| MEvent (event : RuntimeEvent)
| MVector (vector : RuntimeVector)
| MSeriesSample (sample : RuntimeSeriesSample)
| MGeo (geo : RuntimeGeo)
| MObject (object : ObjectReference)
| MRetire (retirement : RuntimeRetirement).
(** core/runtime.rs:216-222 RuntimeCommit *)
Record RuntimeCommit := { commit_scope : ScopeId; commit_at : Z; commit_actor : string; expected_cursor : Z; mutations : list RuntimeMutation }.
(** core/runtime.rs:334-345 RuntimeChange *)
Record RuntimeChange := {
  change_cursor : Z; change_commit_id : string; change_ordinal : Z; change_scope : ScopeId; change_at : Z; change_actor : string;
  change_mutation : RuntimeMutation; change_previous : option string; change_digest : string
}.

#[export] Instance model_eq_dec : EqDecision RuntimeLogicalModel.
Proof. solve_decision. Defined.
#[export] Instance mode_eq_dec : EqDecision RuntimeSchemaMode.
Proof. solve_decision. Defined.
#[export] Instance value_type_eq_dec : EqDecision RuntimeValueType.
Proof. solve_decision. Defined.
#[export] Instance property_schema_eq_dec : EqDecision RuntimePropertySchema.
Proof. solve_decision. Defined.
#[export] Instance record_schema_eq_dec : EqDecision RuntimeRecordSchema.
Proof. solve_decision. Defined.
#[export] Instance relation_schema_eq_dec : EqDecision RuntimeRelationSchema.
Proof. solve_decision. Defined.
#[export] Instance event_schema_eq_dec : EqDecision RuntimeEventSchema.
Proof. solve_decision. Defined.
#[export] Instance table_schema_eq_dec : EqDecision RuntimeTableSchema.
Proof. solve_decision. Defined.
#[export] Instance cardinality_eq_dec : EqDecision RuntimeTagCardinality.
Proof. solve_decision. Defined.
#[export] Instance record_eq_dec : EqDecision RuntimeRecord.
Proof. solve_decision. Defined.
#[export] Instance relation_eq_dec : EqDecision RuntimeRelation.
Proof. solve_decision. Defined.
