(* ===== verification/RuntimeSchema.v ===== *)
(** The catalogue ([rrd-core]: schema.rs).

    A registry names every table with its logical model, the constraints of records, relations and
    events, and the organisation of the estate into domains and categories.  A commit is admitted
    only when its values fit the registry: their properties have the declared types, unique
    properties are unique and the cardinality of relations holds at every instant.

    Theorems: the sweep that measures overlap computes the largest number of relations valid at one
    instant; the authoring operations keep the catalogue coherent; admission is exactly the
    declared contract; domains that validate form a forest of bounded depth; and an undeclared
    grandparent makes the validation panic. *)

From S2P Require Import Prelude Machine BTree Ident Text Claim RuntimeTypes.
Open Scope Z_scope.

(** * Types and models *)

(** core/schema.rs:25-38 RuntimeValueType::matches *)
Definition value_matches (self : RuntimeValueType) (value : RuntimeValue) : bool :=
  match self, value with
  | TNull, VNull | TBool, VBool _ | TInteger, VInteger _ | TUnsigned, VUnsigned _ | TDecimal, VDecimal _
  | TString, VString _ | TDigest, VDigest _ | TList, VList _ | TMap, VMap _ => true
  | _, _ => false
  end.

(** core/schema.rs:155-162 RuntimeTableSchema::strict *)
Definition strict_table (model : RuntimeLogicalModel) : RuntimeTableSchema :=
  {| table_model := model; table_mode := Strict; table_schemas := []; table_additional := false |}.
(** core/schema.rs:164-171 RuntimeTableSchema::schemaless *)
Definition schemaless_table (model : RuntimeLogicalModel) : RuntimeTableSchema :=
  {| table_model := model; table_mode := Schemaless; table_schemas := []; table_additional := false |}.

(** core/schema.rs:1000-1009 RuntimeMutationFamily *)
Inductive RuntimeMutationFamily := FRecord | FRelation | FEvent | FVector | FSeries | FGeo | FObject | FClaim.
#[export] Instance family_eq_dec : EqDecision RuntimeMutationFamily.
Proof. solve_decision. Defined.
(** core/schema.rs:1012-1022 RuntimeLogicalModel::is_record_like *)
Definition is_record_like (self : RuntimeLogicalModel) : bool :=
  match self with Document | Relational | GraphNode | KeyValue | ReasoningRecord | LifecycleRecord => true | _ => false end.
(** core/schema.rs:1024-1029 RuntimeLogicalModel::is_event_like *)
Definition is_event_like (self : RuntimeLogicalModel) : bool := match self with Event | ReasoningEvent | LifecycleEvent => true | _ => false end.
(** core/schema.rs:1031-1049 RuntimeLogicalModel::family *)
Definition family (self : RuntimeLogicalModel) : RuntimeMutationFamily :=
  match self with
  | Document | Relational | GraphNode | KeyValue | ReasoningRecord | LifecycleRecord => FRecord
  | GraphRelation => FRelation
  | Event | ReasoningEvent | LifecycleEvent => FEvent
  | Vector => FVector | TimeSeries => FSeries | Geo => FGeo | Object => FObject | ReasoningClaim => FClaim
  end.

(** [{:?}] of the two enumerations *)
Definition debug_family (f : RuntimeMutationFamily) : string :=
  match f with FRecord => "Record" | FRelation => "Relation" | FEvent => "Event" | FVector => "Vector" | FSeries => "Series" | FGeo => "Geo" | FObject => "Object" | FClaim => "Claim" end.
Definition debug_model (m : RuntimeLogicalModel) : string :=
  match m with
  | Document => "Document" | Relational => "Relational" | GraphNode => "GraphNode" | GraphRelation => "GraphRelation" | KeyValue => "KeyValue" | Vector => "Vector"
  | Event => "Event" | TimeSeries => "TimeSeries" | Geo => "Geo" | Object => "Object" | ReasoningClaim => "ReasoningClaim" | ReasoningRecord => "ReasoningRecord"
  | ReasoningEvent => "ReasoningEvent" | LifecycleRecord => "LifecycleRecord" | LifecycleEvent => "LifecycleEvent"
  end.

(** * Domains and categories *)

(** core/schema.rs:175-175 DEFAULT_DOMAIN *)
Definition DEFAULT_DOMAIN : string := "default".
(** core/schema.rs:177-177 ENGINE_DOMAIN *)
Definition ENGINE_DOMAIN : string := "rrflow".
(** core/schema.rs:179-179 ENGINE_OWNED_PREFIX *)
Definition ENGINE_OWNED_PREFIX : string := "rrflow-".
(** core/schema.rs:180-186 the bounds of an organisation *)
Definition MAX_DOMAINS : Z := 256.
Definition MAX_DOMAIN_DEPTH : Z := 8.
Definition MAX_CATEGORIES : Z := 64.
Definition MAX_TAGS_PER_CATEGORY : Z := 4096.
Definition MAX_TAGS_PER_KIND : Z := 64.
Definition MAX_ORGANISATION_TITLE_BYTES : Z := 128.
Definition MAX_ORGANISATION_DESCRIPTION_BYTES : Z := 1024.

(** core/schema.rs:209-211 RuntimeCategoryTargets::includes_kinds *)
Definition includes_kinds (self : RuntimeCategoryTargets) : bool := match self with Kinds | KindsAndRecords => true | Records => false end.
(** core/schema.rs:213-215 RuntimeCategoryTargets::includes_records *)
Definition includes_records (self : RuntimeCategoryTargets) : bool := match self with Records | KindsAndRecords => true | Kinds => false end.

Definition is_empty {A} (l : list A) : bool := match l with [] => true | _ => false end.
Definition str_eqb (a b : string) : bool := bool_decide (a = b).

(** core/schema.rs:254-268 Default for RuntimeEstateOrganisation *)
Definition default_organisation : RuntimeEstateOrganisation :=
  {| domains := []; categories := []; kind_domains := []; collection_domains := []; kind_tags := [] |}.
(** core/schema.rs:271-277 RuntimeEstateOrganisation::is_default *)
Definition is_default (self : RuntimeEstateOrganisation) : bool :=
  (is_empty (domains self) && is_empty (categories self) && is_empty (kind_domains self) && is_empty (collection_domains self) && is_empty (kind_tags self))%bool.
(** core/schema.rs:454-456 is_builtin_domain *)
Definition is_builtin_domain (domain : string) : bool := (str_eqb domain DEFAULT_DOMAIN || str_eqb domain ENGINE_DOMAIN)%bool.
(** core/schema.rs:458-464 default_domain *)
Definition default_domain (identity : string) : string := if starts_with identity ENGINE_OWNED_PREFIX then ENGINE_DOMAIN else DEFAULT_DOMAIN.
(** core/schema.rs:280-284 RuntimeEstateOrganisation::domain_of_kind *)
Definition domain_of_kind (self : RuntimeEstateOrganisation) (kind : RuntimeType) : string :=
  match bt_get kind (kind_domains self) with Some domain => type_str domain | None => default_domain (type_str kind) end.
(** core/schema.rs:287-292 RuntimeEstateOrganisation::domain_of_collection *)
Definition domain_of_collection (self : RuntimeEstateOrganisation) (collection : string) : string :=
  match find (λ entry : RuntimeType * RuntimeType, str_eqb (type_str entry.1) collection) (collection_domains self) with
  | Some (_, domain) => type_str domain
  | None => default_domain collection
  end.
(** core/schema.rs:294-296 RuntimeEstateOrganisation::has_domain *)
Definition has_domain (self : RuntimeEstateOrganisation) (domain : string) : bool :=
  (is_builtin_domain domain || existsb (λ entry : RuntimeType * RuntimeDomainSchema, str_eqb (type_str entry.1) domain) (domains self))%bool.

(** core/schema.rs:466-487 validate_label *)
Definition validate_label (subject : string) (id : RuntimeType) (title description : string) : result Error unit :=
  if (trims_to_nothing title || (MAX_ORGANISATION_TITLE_BYTES <? str_len title))%bool
  then invalid (subject +:+ " " +:+ type_str id +:+ " needs a title of 1 to " +:+ pretty MAX_ORGANISATION_TITLE_BYTES +:+ " bytes")
  else if MAX_ORGANISATION_DESCRIPTION_BYTES <? str_len description
  then invalid (subject +:+ " " +:+ type_str id +:+ " description exceeds " +:+ pretty MAX_ORGANISATION_DESCRIPTION_BYTES +:+ " bytes")
  else if has_control (str_bytes title ++ str_bytes description)
  then invalid (subject +:+ " " +:+ type_str id +:+ " title and description cannot contain control characters")
  else Ok tt.

(** core/schema.rs:401-428 RuntimeEstateOrganisation::validate_membership *)
Definition validate_membership (self : RuntimeEstateOrganisation) (subject : string) (identity domain : RuntimeType) : result Error unit :=
  let name := subject +:+ " " +:+ type_str identity in
  if starts_with (type_str identity) ENGINE_OWNED_PREFIX then invalid ("engine-owned " +:+ name +:+ " always belongs to rrflow")
  else if str_eqb (type_str domain) ENGINE_DOMAIN then invalid (name +:+ " is not engine-owned and cannot be placed in rrflow")
  else if str_eqb (type_str domain) DEFAULT_DOMAIN then invalid (name +:+ " already belongs to default; omit the entry instead")
  else if negb (bt_mem domain (domains self)) then invalid (name +:+ " names unknown domain " +:+ type_str domain)
  else Ok tt.

(** The parent of a domain that the loop of [domain_depth] follows. *)
Definition nested_in (domain : RuntimeDomainSchema) : option RuntimeType :=
  match domain_parent domain with Some parent => if str_eqb (type_str parent) DEFAULT_DOMAIN then None else Some parent | None => None end.
(** core/schema.rs:434-449 RuntimeEstateOrganisation::domain_depth, the loop; [None] is the panic of
    the index expression.  Each round deepens by one and the ninth is refused, so eight rounds of
    fuel are enough. *)
Fixpoint depth_loop (fuel : nat) (self : RuntimeEstateOrganisation) (id current : RuntimeType) (depth : Z) : option (result Error Z) :=
  match bt_get current (domains self) with
  | None => None
  | Some domain =>
    match nested_in domain with
    | None => Some (Ok depth)
    | Some parent =>
      if bool_decide (parent = id) then Some (invalid ("domain " +:+ type_str id +:+ " is its own ancestor"))
      else if MAX_DOMAIN_DEPTH <? depth + 1
      then Some (invalid ("domain " +:+ type_str id +:+ " is deeper than " +:+ pretty MAX_DOMAIN_DEPTH +:+ " levels or part of a cycle"))
      else match fuel with O => Some (Ok (depth + 1)) | S fuel => depth_loop fuel self id parent (depth + 1) end
    end
  end.
(** core/schema.rs:431-451 RuntimeEstateOrganisation::domain_depth *)
Definition domain_depth (self : RuntimeEstateOrganisation) (id : RuntimeType) : option (result Error Z) := depth_loop 8 self id id 1.

(** core/schema.rs:305-323 RuntimeEstateOrganisation::validate, one domain *)
Definition validate_domain (self : RuntimeEstateOrganisation) (entry : RuntimeType * RuntimeDomainSchema) : option (result Error unit) :=
  let '(id, domain) := entry in
  if (is_builtin_domain (type_str id) || starts_with (type_str id) ENGINE_OWNED_PREFIX)%bool
  then Some (invalid ("domain " +:+ type_str id +:+ " is built in or reserved for the engine and cannot be declared"))
  else
    do* Some (validate_label "domain" id (domain_title domain) (domain_description domain)) in
    do* match domain_parent domain with
        | Some parent =>
          if str_eqb (type_str parent) ENGINE_DOMAIN then Some (invalid ("domain " +:+ type_str id +:+ " cannot be placed inside rrflow"))
          else if (negb (str_eqb (type_str parent) DEFAULT_DOMAIN) && negb (bt_mem parent (domains self)))%bool
          then Some (invalid ("domain " +:+ type_str id +:+ " names unknown parent " +:+ type_str parent))
          else Some (Ok tt)
        | None => Some (Ok tt)
        end in
    do* domain_depth self id in Some (Ok tt).

(** core/schema.rs:340-353 RuntimeEstateOrganisation::validate, one category *)
Definition validate_category (entry : RuntimeType * RuntimeCategorySchema) : result Error unit :=
  let '(id, category) := entry in
  if (str_eqb (type_str id) ENGINE_DOMAIN || starts_with (type_str id) ENGINE_OWNED_PREFIX)%bool
  then invalid ("category " +:+ type_str id +:+ " is reserved for the engine")
  else
    do? validate_label "category" id (category_title category) (category_description category) in
    if MAX_TAGS_PER_CATEGORY <? len (category_tags category)
    then invalid ("category " +:+ type_str id +:+ " may declare at most " +:+ pretty MAX_TAGS_PER_CATEGORY +:+ " tags")
    else try_each (λ '(tag, schema), validate_label "tag" tag (tag_title schema) (tag_description schema)) (category_tags category).

(** core/schema.rs:369-396 RuntimeEstateOrganisation::validate, one tag of a kind *)
Definition validate_tag (self : RuntimeEstateOrganisation) (kind : RuntimeType) (single : list (RuntimeType * unit)) (reference : RuntimeTagRef)
    : result Error (list (RuntimeType * unit)) :=
  let table := "table type " +:+ type_str kind in
  let category_name := type_str (tag_category reference) in
  let? category := ok_or (bt_get (tag_category reference) (categories self)) (InvalidRuntime (table +:+ " uses unknown category " +:+ category_name)) in
  if negb (includes_kinds (category_targets category)) then invalid ("category " +:+ category_name +:+ " does not tag table types")
  else if negb (bt_mem (tag_name reference) (category_tags category))
  then invalid (table +:+ " uses unknown tag " +:+ category_name +:+ ":" +:+ type_str (tag_name reference))
  else match category_cardinality category with
       | Single =>
         if bs_mem (tag_category reference) single
         then invalid (table +:+ " carries more than one tag of single-tag category " +:+ category_name)
         else Ok (bs_insert (tag_category reference) single)
       | Multiple => Ok single
       end.

(** core/schema.rs:354-397 RuntimeEstateOrganisation::validate, the tags of a kind *)
Definition validate_kind_tags (self : RuntimeEstateOrganisation) (tables : list (RuntimeType * RuntimeTableSchema))
    (entry : RuntimeType * list (RuntimeTagRef * unit)) : result Error unit :=
  let '(kind, tags) := entry in
  if negb (bt_mem kind tables) then invalid ("kind tags name unregistered table type " +:+ type_str kind)
  else if is_empty tags then invalid ("table type " +:+ type_str kind +:+ " lists an empty tag set; omit the entry instead")
  else if MAX_TAGS_PER_KIND <? len tags then invalid ("table type " +:+ type_str kind +:+ " may carry at most " +:+ pretty MAX_TAGS_PER_KIND +:+ " tags")
  else do? try_fold (validate_tag self kind) [] (map fst tags) in Ok tt.

(** core/schema.rs:298-399 RuntimeEstateOrganisation::validate *)
Definition organisation_validate (self : RuntimeEstateOrganisation) (tables : list (RuntimeType * RuntimeTableSchema)) : option (result Error unit) :=
  if MAX_DOMAINS <? len (domains self) + 2
  then Some (invalid ("an estate may declare at most " +:+ pretty (MAX_DOMAINS - 2) +:+ " domains besides default and rrflow"))
  else
    do* try_each_panic (validate_domain self) (domains self) in
    do* Some (try_each (λ '(kind, domain),
      if negb (bt_mem kind tables) then invalid ("domain membership names unregistered table type " +:+ type_str kind)
      else validate_membership self "table type" kind domain) (kind_domains self)) in
    do* Some (try_each (λ '(collection, domain), validate_membership self "vector collection" collection domain) (collection_domains self)) in
    if MAX_CATEGORIES <? len (categories self) then Some (invalid ("an estate may declare at most " +:+ pretty MAX_CATEGORIES +:+ " categories"))
    else
      do* Some (try_each validate_category (categories self)) in
      Some (try_each (validate_kind_tags self tables) (kind_tags self)).

(** * Tables *)

(** core/schema.rs:1100-1115 require_table *)
Definition require_table (kind : RuntimeType) (f : RuntimeMutationFamily) (tables : list (RuntimeType * RuntimeTableSchema)) : result Error RuntimeTableSchema :=
  let? table := ok_or (bt_get kind tables) (InvalidRuntime (debug_family f +:+ " table type " +:+ type_str kind +:+ " is not registered in the catalogue")) in
  if bool_decide (family (table_model table) = f) then Ok table
  else invalid ("table type " +:+ type_str kind +:+ " is catalogued as " +:+ debug_model (table_model table) +:+ ", not " +:+ debug_family f).
(** core/schema.rs:1063-1075 validate_specialized_table *)
Definition validate_specialized_table (tables : list (RuntimeType * RuntimeTableSchema)) (f : RuntimeMutationFamily) (kind : RuntimeType) : result Error unit :=
  let? table := require_table kind f tables in
  match table_mode table with
  | Strict => Ok tt
  | Schemaless => invalid ("table type " +:+ type_str kind +:+ " is schemaless but also has a strict " +:+ debug_family f +:+ " schema")
  end.
(** core/schema.rs:1137-1150 validate_property_schema *)
Definition validate_property_schema (kind : RuntimeType) (properties : PropertySchemas) : result Error unit :=
  try_each (λ name : string,
    if (str_eqb name "" || has_nul name)%bool then invalid ("type " +:+ type_str kind +:+ " contains invalid property name " +:+ debug_str name) else Ok tt) (map fst properties).
(** Whether a family keeps its properties in a specialized schema. *)
Definition specializes (f : RuntimeMutationFamily) : bool := match f with FRecord | FRelation | FEvent => true | _ => false end.
(** core/schema.rs:1077-1098 validate_table *)
Definition validate_table (kind : RuntimeType) (table : RuntimeTableSchema) : result Error unit :=
  do? validate_property_schema kind (table_schemas table) in
  let declares := (negb (is_empty (table_schemas table)) || table_additional table)%bool in
  if (bool_decide (table_mode table = Schemaless) && declares)%bool
  then invalid ("schemaless table type " +:+ type_str kind +:+ " cannot also declare a strict property contract")
  else if (specializes (family (table_model table)) && declares)%bool
  then invalid ("table type " +:+ type_str kind +:+ " must keep record/relation/event properties in its specialized schema")
  else Ok tt.

(** core/schema.rs:508-518 RuntimeSchemaRegistry::empty *)
Definition registry_empty (rev : Z) (description : string) : RuntimeSchemaRegistry :=
  {| revision := rev; migration := description; organisation := default_organisation; tables := []; records := []; relations := []; events := [] |}.

(** core/schema.rs:657-667 RuntimeSchemaRegistry::catalogue_tables, whether a table has its specialized schema *)
Definition has_specialized (self : RuntimeSchemaRegistry) (kind : RuntimeType) (f : RuntimeMutationFamily) : bool :=
  match f with
  | FRecord => bt_mem kind (records self)
  | FRelation => bt_mem kind (relations self)
  | FEvent => bt_mem kind (events self)
  | _ => false
  end.
(** core/schema.rs:655-692 RuntimeSchemaRegistry::catalogue_tables, one table *)
Definition check_table (self : RuntimeSchemaRegistry) (entry : RuntimeType * RuntimeTableSchema) : result Error unit :=
  let '(kind, table) := entry in
  do? validate_table kind table in
  let f := family (table_model table) in
  match table_mode table, specializes f, has_specialized self kind f with
  | Strict, true, false => invalid ("strict table type " +:+ type_str kind +:+ " lacks its specialized " +:+ debug_family f +:+ " schema")
  | Schemaless, true, true => invalid ("schemaless table type " +:+ type_str kind +:+ " also declares a strict specialized schema")
  | _, _, _ => Ok tt
  end.
(** core/schema.rs:645-695 RuntimeSchemaRegistry::catalogue_tables *)
Definition catalogue_tables (self : RuntimeSchemaRegistry) : result Error (list (RuntimeType * RuntimeTableSchema)) :=
  do? try_each (validate_specialized_table (tables self) FRecord) (map fst (records self)) in
  do? try_each (validate_specialized_table (tables self) FRelation) (map fst (relations self)) in
  do? try_each (validate_specialized_table (tables self) FEvent) (map fst (events self)) in
  do? try_each (check_table self) (tables self) in
  Ok (tables self).
(** core/schema.rs:1053-1060 RuntimeSchemaRegistry::logical_model *)
Definition logical_model (self : RuntimeSchemaRegistry) (kind : RuntimeType) : result Error RuntimeLogicalModel :=
  let? catalogue := catalogue_tables self in
  ok_or (option_map table_model (bt_get kind catalogue)) (InvalidRuntime ("table type " +:+ type_str kind +:+ " is not registered in the catalogue")).

(** core/schema.rs:582-600 RuntimeSchemaRegistry::reject_family_conflict *)
Definition reject_family_conflict (self : RuntimeSchemaRegistry) (kind : RuntimeType) (f : RuntimeMutationFamily) : result Error unit :=
  if (match bt_get kind (tables self) with Some table => negb (bool_decide (family (table_model table) = f)) | None => false end
      || (negb (bool_decide (f = FRecord)) && bt_mem kind (records self))
      || (negb (bool_decide (f = FRelation)) && bt_mem kind (relations self))
      || (negb (bool_decide (f = FEvent)) && bt_mem kind (events self)))%bool
  then invalid ("table type " +:+ type_str kind +:+ " already belongs to a different mutation family") else Ok tt.
(** core/schema.rs:524-542 RuntimeSchemaRegistry::define_record_table *)
Definition define_record_table (self : RuntimeSchemaRegistry) (kind : RuntimeType) (model : RuntimeLogicalModel) (schema : RuntimeRecordSchema)
    : result Error (RuntimeSchemaRegistry * bool) :=
  if negb (is_record_like model) then invalid ("record table type " +:+ type_str kind +:+ " cannot use non-record model " +:+ debug_model model)
  else
    do? reject_family_conflict self kind FRecord in
    let table := strict_table model in
    let changed := (negb (bool_decide (bt_get kind (tables self) = Some table)) || negb (bool_decide (bt_get kind (records self) = Some schema)))%bool in
    Ok ({| revision := revision self; migration := migration self; organisation := organisation self; tables := bt_insert kind table (tables self);
           records := bt_insert kind schema (records self); relations := relations self; events := events self |}, changed).
(** core/schema.rs:546-558 RuntimeSchemaRegistry::define_relation_table *)
Definition define_relation_table (self : RuntimeSchemaRegistry) (kind : RuntimeType) (schema : RuntimeRelationSchema) : result Error (RuntimeSchemaRegistry * bool) :=
  do? reject_family_conflict self kind FRelation in
  let table := strict_table GraphRelation in
  let changed := (negb (bool_decide (bt_get kind (tables self) = Some table)) || negb (bool_decide (bt_get kind (relations self) = Some schema)))%bool in
  Ok ({| revision := revision self; migration := migration self; organisation := organisation self; tables := bt_insert kind table (tables self);
         records := records self; relations := bt_insert kind schema (relations self); events := events self |}, changed).
(** core/schema.rs:562-580 RuntimeSchemaRegistry::define_event_table *)
Definition define_event_table (self : RuntimeSchemaRegistry) (kind : RuntimeType) (model : RuntimeLogicalModel) (schema : RuntimeEventSchema)
    : result Error (RuntimeSchemaRegistry * bool) :=
  if negb (is_event_like model) then invalid ("event table type " +:+ type_str kind +:+ " cannot use non-event model " +:+ debug_model model)
  else
    do? reject_family_conflict self kind FEvent in
    let table := strict_table model in
    let changed := (negb (bool_decide (bt_get kind (tables self) = Some table)) || negb (bool_decide (bt_get kind (events self) = Some schema)))%bool in
    Ok ({| revision := revision self; migration := migration self; organisation := organisation self; tables := bt_insert kind table (tables self);
           records := records self; relations := relations self; events := bt_insert kind schema (events self) |}, changed).

(** core/schema.rs:614-623 RuntimeSchemaRegistry::validate, one record schema *)
Definition check_record_schema (entry : RuntimeType * RuntimeRecordSchema) : result Error unit :=
  let '(kind, schema) := entry in
  do? validate_property_schema kind (record_schemas schema) in
  try_each (λ property : string,
    if bt_mem property (record_schemas schema) then Ok tt
    else invalid ("record type " +:+ type_str kind +:+ " declares unknown unique property " +:+ debug_str property)) (map fst (unique_properties schema)).
(** core/schema.rs:624-636 RuntimeSchemaRegistry::validate, one relation schema *)
Definition check_relation_schema (entry : RuntimeType * RuntimeRelationSchema) : result Error unit :=
  let '(kind, schema) := entry in
  if (is_empty (from_types schema) || is_empty (to_types schema))%bool
  then invalid ("relation type " +:+ type_str kind +:+ " must declare at least one from and to endpoint type")
  else if (bool_decide (max_outgoing schema = Some 0) || bool_decide (max_incoming schema = Some 0))%bool
  then invalid ("relation type " +:+ type_str kind +:+ " cardinality limits must be greater than zero")
  else validate_property_schema kind (relation_schemas schema).
(** core/schema.rs:602-641 RuntimeSchemaRegistry::validate *)
Definition registry_validate (self : RuntimeSchemaRegistry) : option (result Error unit) :=
  if revision self =? 0 then Some (invalid "runtime schema revision must be greater than zero")
  else if trims_to_nothing (migration self) then Some (invalid "runtime schema migration description must not be empty")
  else if is_empty (tables self) then Some (invalid "runtime schema must declare an explicit canonical table map")
  else
    do* Some (catalogue_tables self) in
    do* organisation_validate (organisation self) (tables self) in
    do* Some (try_each check_record_schema (records self)) in
    do* Some (try_each check_relation_schema (relations self)) in
    Some (try_each (λ '(kind, schema), validate_property_schema kind (event_schemas schema)) (events self)).

(** * Values against the catalogue *)

(** core/schema.rs:1152-1183 validate_properties *)
Definition validate_properties (object : string) (kind : RuntimeType) (actual : RuntimeProperties) (declared : PropertySchemas) (allow_additional : bool) : result Error unit :=
  do? try_each (λ '(name, property),
    match bt_get name actual with
    | Some value =>
      if value_matches (value_type property) value then Ok tt
      else invalid (object +:+ " type " +:+ type_str kind +:+ " property " +:+ debug_str name +:+ " has the wrong value type")
    | None => if property_required property then invalid (object +:+ " type " +:+ type_str kind +:+ " is missing required property " +:+ debug_str name) else Ok tt
    end) declared in
  if allow_additional then Ok tt
  else match find (λ name, negb (bt_mem name declared)) (map fst actual) with
       | Some name => invalid (object +:+ " type " +:+ type_str kind +:+ " contains undeclared property " +:+ debug_str name)
       | None => Ok tt
       end.
(** core/schema.rs:1117-1135 validate_structural_table *)
Definition validate_structural_table (object : string) (kind : RuntimeType) (properties : RuntimeProperties) (f : RuntimeMutationFamily)
    (tables : list (RuntimeType * RuntimeTableSchema)) : result Error unit :=
  let? table := require_table kind f tables in
  match table_mode table with
  | Schemaless => Ok tt
  | Strict => validate_properties object kind properties (table_schemas table) (table_additional table)
  end.
(** core/schema.rs:795-821 RuntimeSchemaRegistry::validate_record *)
Definition validate_record (self : RuntimeSchemaRegistry) (catalogue : list (RuntimeType * RuntimeTableSchema)) (record : RuntimeRecord) : result Error unit :=
  let kind := ref_kind (record_reference record) in
  let? table := require_table kind FRecord catalogue in
  match table_mode table with
  | Schemaless => Ok tt
  | Strict =>
    let? schema := ok_or (bt_get kind (records self)) (InvalidRuntime ("record type " +:+ type_str kind +:+ " is not registered")) in
    validate_properties "record" kind (record_properties record) (record_schemas schema) (record_additional schema)
  end.
(** core/schema.rs:823-858 RuntimeSchemaRegistry::validate_relation *)
Definition validate_relation (self : RuntimeSchemaRegistry) (catalogue : list (RuntimeType * RuntimeTableSchema)) (relation : RuntimeRelation) : result Error unit :=
  let kind := ref_kind (relation_reference relation) in
  let? table := require_table kind FRelation catalogue in
  match table_mode table with
  | Schemaless => Ok tt
  | Strict =>
    let? schema := ok_or (bt_get kind (relations self)) (InvalidRuntime ("relation type " +:+ type_str kind +:+ " is not registered")) in
    let from_kind := ref_kind (relation_from relation) in let to_kind := ref_kind (relation_to relation) in
    if (negb (bs_mem from_kind (from_types schema)) || negb (bs_mem to_kind (to_types schema)))%bool
    then invalid ("relation type " +:+ type_str kind +:+ " rejects endpoint " +:+ type_str from_kind +:+ " -> " +:+ type_str to_kind)
    else validate_properties "relation" kind (relation_properties relation) (relation_schemas schema) (relation_additional schema)
  end.
(** core/schema.rs:860-893 RuntimeSchemaRegistry::validate_event *)
Definition validate_event (self : RuntimeSchemaRegistry) (catalogue : list (RuntimeType * RuntimeTableSchema)) (event : RuntimeEvent) : result Error unit :=
  let kind := event_kind event in
  let? table := require_table kind FEvent catalogue in
  match table_mode table with
  | Schemaless => Ok tt
  | Strict =>
    let? schema := ok_or (bt_get kind (events self)) (InvalidRuntime ("event type " +:+ type_str kind +:+ " is not registered")) in
    if (subject_required schema && negb (bool_decide (is_Some (event_subject event))))%bool then invalid ("event type " +:+ type_str kind +:+ " requires a subject")
    else
      do? match event_subject event with
          | Some subject =>
            if (negb (is_empty (subject_types schema)) && negb (bs_mem (ref_kind subject) (subject_types schema)))%bool
            then invalid ("event type " +:+ type_str kind +:+ " rejects subject type " +:+ type_str (ref_kind subject)) else Ok tt
          | None => Ok tt
          end in
      validate_properties "event" kind (event_properties event) (event_schemas schema) (event_additional schema)
  end.

(** core/schema.rs:1204-1211 windows_overlap *)
Definition windows_overlap (left_from : Z) (left_to : option Z) (right_from : Z) (right_to : option Z) : bool :=
  ((left_from <? default u64_max right_to) && (right_from <? default u64_max left_to))%bool.

(** core/schema.rs:911-927 RuntimeSchemaRegistry::validate_record_uniqueness, the candidates of one property *)
Fixpoint duplicated (candidates : list (RuntimeRecord * RuntimeValue)) : bool :=
  match candidates with
  | [] => false
  | (first, value) :: rest =>
    (existsb (λ '(second, other),
      (bool_decide (value = other)
       && windows_overlap (record_valid_from first) (record_valid_to first) (record_valid_from second) (record_valid_to second))%bool) rest || duplicated rest)%bool
  end.
(** core/schema.rs:902-910 RuntimeSchemaRegistry::validate_record_uniqueness, the records of a kind with a property *)
Definition candidates (records : list RuntimeRecord) (kind : RuntimeType) (property : string) : list (RuntimeRecord * RuntimeValue) :=
  omap (λ record, option_map (λ value, (record, value)) (bt_get property (record_properties record)))
    (filter (λ record, ref_kind (record_reference record) = kind) records).
(** core/schema.rs:895-930 RuntimeSchemaRegistry::validate_record_uniqueness *)
Definition validate_record_uniqueness (self : RuntimeSchemaRegistry) (all : list RuntimeRecord) : result Error unit :=
  try_each (λ '(kind, schema), try_each (λ property,
    if duplicated (candidates all kind property)
    then invalid ("record type " +:+ type_str kind +:+ " property " +:+ debug_str property +:+ " is not unique for overlapping validity windows") else Ok tt)
    (map fst (unique_properties schema))) (records self).

(** core/schema.rs:1186-1192 max_overlap, the points where a relation starts and ends *)
Definition points_of (relation : RuntimeRelation) : list (Z * Z) :=
  (relation_valid_from relation, 1) :: match relation_valid_to relation with Some end_ => [(end_, -1)] | None => [] end.
(** core/schema.rs:1197-1200 max_overlap, one point of the sweep *)
Definition sweep (st : Z * Z) (point : Z * Z) : Z * Z := let current := st.1 + point.2 in (current, Z.max st.2 current).
(** core/schema.rs:1185-1202 max_overlap *)
Definition max_overlap (group : list RuntimeRelation) : Z := (foldl sweep (0, 0) (sort_by cmp (flat_map points_of group))).2.

Definition name_ref (r : RuntimeRef) : string := type_str (ref_kind r) +:+ "/" +:+ id_str (ref_id r).
(** core/schema.rs:932-996 RuntimeSchemaRegistry::validate_relation_cardinality *)
Definition validate_relation_cardinality (self : RuntimeSchemaRegistry) (all : list RuntimeRelation) : result Error unit :=
  try_each (λ '(kind, schema),
    let typed := filter (λ relation, ref_kind (relation_reference relation) = kind) all in
    do? (if unique_pair schema then
           try_each (λ '((from_, to_), group),
             if 1 <? max_overlap group then invalid ("relation type " +:+ type_str kind +:+ " requires a unique pair for " +:+ name_ref from_ +:+ " -> " +:+ name_ref to_)
             else Ok tt) (bt_group (λ r, (relation_from r, relation_to r)) typed)
         else Ok tt) in
    do? match max_outgoing schema with
        | Some limit => try_each (λ '(from_, group),
            if limit <? max_overlap group then invalid ("relation type " +:+ type_str kind +:+ " exceeds max_outgoing=" +:+ pretty limit +:+ " at " +:+ name_ref from_)
            else Ok tt) (bt_group relation_from typed)
        | None => Ok tt
        end in
    match max_incoming schema with
    | Some limit => try_each (λ '(to_, group),
        if limit <? max_overlap group then invalid ("relation type " +:+ type_str kind +:+ " exceeds max_incoming=" +:+ pretty limit +:+ " at " +:+ name_ref to_)
        else Ok tt) (bt_group relation_to typed)
    | None => Ok tt
    end) (relations self).

(** core/schema.rs:706-757 RuntimeSchemaRegistry::validate_objects, one mutation *)
Definition validate_mutation (self : RuntimeSchemaRegistry) (catalogue : list (RuntimeType * RuntimeTableSchema)) (mutation : RuntimeMutation) : result Error unit :=
  match mutation with
  | MClaim _ | MSchema _ => Ok tt
  | MRetire retirement =>
    let kind := ref_kind (retired_reference retirement) in
    let? table := ok_or (bt_get kind catalogue) (InvalidRuntime ("retirement table type " +:+ type_str kind +:+ " is not registered in the catalogue")) in
    if bool_decide (table_model table = retired_model retirement) then Ok tt
    else invalid ("retirement target " +:+ name_ref (retired_reference retirement) +:+ " is declared " +:+ debug_model (table_model table)
                  +:+ ", not " +:+ debug_model (retired_model retirement))
  | MRecord record => validate_record self catalogue record
  | MRelation relation => validate_relation self catalogue relation
  | MEvent event => validate_event self catalogue event
  | MVector vector => validate_structural_table "vector" (ref_kind (vector_reference vector)) (vector_properties vector) FVector catalogue
  | MSeriesSample sample => validate_structural_table "time-series sample" (ref_kind (sample_reference sample)) (sample_properties sample) FSeries catalogue
  | MGeo geo => validate_structural_table "geo value" (ref_kind (geo_reference geo)) (geo_properties geo) FGeo catalogue
  | MObject object => validate_structural_table "object" (ref_kind (object_reference object)) (object_properties object) FObject catalogue
  end.

(** core/schema.rs:768-789 RuntimeSchemaRegistry::validate_objects, the records and relations after the mutations *)
Definition written_records (mutations : list RuntimeMutation) : list RuntimeRecord := omap (λ m, match m with MRecord r => Some r | _ => None end) mutations.
Definition written_relations (mutations : list RuntimeMutation) : list RuntimeRelation := omap (λ m, match m with MRelation r => Some r | _ => None end) mutations.
(** core/schema.rs:697-793 RuntimeSchemaRegistry::validate_objects *)
Definition validate_objects (self : RuntimeSchemaRegistry) (mutations : list RuntimeMutation) (existing_records : list RuntimeRecord) (existing_relations : list RuntimeRelation)
    : option (result Error unit) :=
  do* registry_validate self in
  let* catalogue := Some (catalogue_tables self) in
  do* Some (try_each (validate_mutation self catalogue) mutations) in
  let all_records := bt_collect record_reference (existing_records ++ written_records mutations) in
  let all_relations := bt_collect relation_reference (existing_relations ++ written_relations mutations) in
  do* Some (validate_record_uniqueness self (map snd all_records)) in
  Some (validate_relation_cardinality self (map snd all_relations)).

(** * Overlap *)

(** core/runtime.rs:2057-2059 valid_at_window *)
Definition valid_at_window (valid_from : Z) (valid_to : option Z) (at_ : Z) : bool :=
  ((valid_from <=? at_) && match valid_to with None => true | Some valid_to => at_ <? valid_to end)%bool.
(** A window that commit validation admits. *)
Definition window_ok (valid_from : Z) (valid_to : option Z) : Prop := match valid_to with Some e => valid_from < e | None => True end.

Definition relation_valid (t : Z) (r : RuntimeRelation) : bool := valid_at_window (relation_valid_from r) (relation_valid_to r) t.
Definition relation_window_ok (r : RuntimeRelation) : Prop := window_ok (relation_valid_from r) (relation_valid_to r).
(** How many relations of a group are valid at an instant. *)
Definition valid_count (group : list RuntimeRelation) (t : Z) : Z := len (List.filter (relation_valid t) group).

Definition total (points : list (Z * Z)) : Z := foldr (λ p acc, p.2 + acc) 0 points.
Lemma total_app l k : total (l ++ k) = total l + total k.
Proof. induction l as [|p l IH]; cbn [total foldr app] in *; [done|]. unfold total in *. lia. Qed.
Lemma total_perm l k : l ≡ₚ k → total l = total k.
Proof. unfold total. induction 1; cbn [foldr]; lia. Qed.

(** The sweep ends at the sum, with the largest sum of a prefix seen on the way. *)
Lemma sweep_spec l c m :
  let r := (foldl sweep (c, m) l).2 in
  m ≤ r ∧ (∀ p q, l = p ++ q → p ≠ [] → c + total p ≤ r) ∧ (r = m ∨ ∃ p q, l = p ++ q ∧ p ≠ [] ∧ r = c + total p).
Proof.
  revert c m; induction l as [|x l IH]; intros c m; cbn [foldl].
  - split; [done|]. split; [|by left]. intros [|] q [= ]; done.
  - unfold sweep at 2 4 6. cbn [fst snd]. destruct (IH (c + x.2) (Z.max m (c + x.2))) as (Hm & Hp & Hr). cbv zeta. set (r := (foldl sweep _ l).2) in *.
    split; [lia|]. split.
    + intros [|y p] q E Hne; [done|]. injection E as <- ->. cbn [total foldr]. fold (total p). destruct p as [|z p]; [cbn; lia|].
      specialize (Hp (z :: p) q eq_refl ltac:(done)). lia.
    + destruct Hr as [Hr|(p & q & -> & Hne & Hr)].
      * destruct (Z.max_spec m (c + x.2)) as [[_ E]|[_ E]]; rewrite E in Hr; [right|by left]. exists [x], l. cbn. split; [done|]. split; [done|lia].
      * right. exists (x :: p), q. split; [done|]. split; [done|]. cbn [total foldr]. fold (total p). lia.
Qed.

Definition before (t : Z) (points : list (Z * Z)) : list (Z * Z) := List.filter (λ p : Z * Z, p.1 <=? t) points.
Lemma filter_perm {A} (f : A → bool) l k : l ≡ₚ k → List.filter f l ≡ₚ List.filter f k.
Proof. induction 1 as [|x l k _ IH|x y l|? ? ? _ IH1 _ IH2]; cbn; repeat case_match; try done; try by constructor. by rewrite IH1. Qed.

(** The points up to an instant count the relations valid there. *)
Lemma total_before t group : Forall relation_window_ok group → total (before t (flat_map points_of group)) = valid_count group t.
Proof.
  unfold valid_count, before. induction 1 as [|r l Hr Hl IH]; [done|]. cbn [flat_map]. rewrite List.filter_app, total_app, IH. unfold relation_valid, relation_window_ok, valid_at_window, window_ok, points_of in *.
  cbn [List.filter]. destruct (relation_valid_to r) as [e|]; cbn [List.filter fst snd];
    repeat match goal with |- context [?a <=? ?b] => destruct (Z.leb_spec a b); cbn [total foldr fst snd andb] | |- context [?a <? ?b] => destruct (Z.ltb_spec a b); cbn [total foldr fst snd andb] end;
    rewrite ?len_cons; try lia.
Qed.

(** In an order by time, the points up to an instant come first. *)
Definition point_le (p q : Z * Z) : Prop := leb p q = true.
Lemma point_le_spec p q : point_le p q ↔ p.1 < q.1 ∨ (p.1 = q.1 ∧ p.2 ≤ q.2).
Proof.
  destruct p as [a d], q as [b e]. unfold point_le, leb. rewrite cmp_pair. change (cmp a b) with (a ?= b). change (cmp d e) with (d ?= e). cbn [fst snd].
  destruct (Z.compare_spec a b), (Z.compare_spec d e); cbn; (split; [intros ?|intros [?|[??]]]); try done; lia.
Qed.
Lemma before_prefix t l : StronglySorted point_le l → ∃ q, l = before t l ++ q ∧ Forall (λ p : Z * Z, t < p.1) q.
Proof.
  unfold before. induction 1 as [|x l _ (q & E & Hq) Hall]; [by exists []|]. cbn [List.filter]. destruct (Z.leb_spec x.1 t) as [Hle|Hgt].
  - exists q. cbn [app]. split; [by rewrite <-E|done].
  - exists (x :: l). assert (Forall (λ p : Z * Z, t < p.1) l) as Hl.
    { eapply Forall_impl; [exact Hall|]. intros p Hp%point_le_spec. lia. }
    split; [|by constructor]. assert (List.filter (λ p : Z * Z, p.1 <=? t) l = []) as ->; [|done].
    clear -Hl. induction Hl as [|p l Hp _ IH]; cbn; [done|]. destruct (Z.leb_spec p.1 t); [lia|done].
Qed.

Definition swept (group : list RuntimeRelation) : list (Z * Z) := sort_by cmp (flat_map points_of group).
Lemma swept_sorted group : StronglySorted point_le (swept group).
Proof.
  apply (sort_by_sorted cmp); unfold point_le, leb.
  - intros a b. by destruct (cmp a b).
  - intros a b Hg%cmp_gt_lt. by rewrite Hg.
  - intros a b c. apply (leb_trans a).
Qed.
Lemma swept_count t group : Forall relation_window_ok group → total (before t (swept group)) = valid_count group t.
Proof. intros Hok. rewrite <-total_before by done. apply total_perm, filter_perm, sort_by_perm. Qed.
Lemma swept_delta group p : p ∈ swept group → p.2 = 1 ∨ p.2 = -1.
Proof.
  unfold swept. rewrite sort_by_perm. rewrite list_elem_of_In, in_flat_map. intros (r & _ & Hp). unfold points_of in Hp. destruct (relation_valid_to r); cbn in Hp; naive_solver.
Qed.

Lemma max_overlap_bounds group t : Forall relation_window_ok group → valid_count group t ≤ max_overlap group.
Proof.
  intros Hok. rewrite <-swept_count by done. unfold max_overlap. fold (swept group). destruct (before_prefix t _ (swept_sorted group)) as (q & E & _).
  destruct (sweep_spec (swept group) 0 0) as (H0 & Hp & _). cbv zeta in *. destruct (before t (swept group)) as [|x p]; [cbn; lia|]. specialize (Hp _ _ E ltac:(done)). lia.
Qed.

Lemma max_overlap_attained group : Forall relation_window_ok group → group ≠ [] → ∃ t, valid_count group t = max_overlap group.
Proof.
  intros Hok Hne. destruct (sweep_spec (swept group) 0 0) as (_ & Hall & [H0|(p & q & E & Hp & Hmax)]); cbv zeta in *; unfold max_overlap in *; fold (swept group) in *.
  - exfalso. destruct group as [|r group]; [done|]. pose proof (max_overlap_bounds _ (relation_valid_from r) Hok) as Hb. unfold max_overlap in Hb. fold (swept (r :: group)) in Hb. rewrite H0 in Hb.
    apply Forall_cons in Hok as [Hr _]. unfold valid_count in Hb. cbn [List.filter] in Hb. assert (relation_valid (relation_valid_from r) r = true) as Hv.
    { unfold relation_valid, valid_at_window, relation_window_ok, window_ok in *. destruct (relation_valid_to r); rewrite andb_true_iff, ?Z.leb_le, ?Z.ltb_lt; (split; [lia|done || lia]). }
    rewrite Hv, len_cons in Hb. pose proof (len_nonneg (List.filter (relation_valid (relation_valid_from r)) group)). lia.
  - destruct (exists_last Hp) as (p' & [a d] & ->). exists a. rewrite <-swept_count by done. pose proof (swept_sorted group) as Hs.
    assert (d = 1) as ->.
    { destruct (swept_delta group (a, d)) as [|Hd]; [rewrite E; set_solver|done|]. cbn in Hd. subst d. exfalso. rewrite total_app in Hmax. cbn in Hmax.
      destruct p' as [|y p']; [|specialize (Hall (y :: p') ((a, -1) :: q) ltac:(by rewrite E, <-app_assoc) ltac:(done)); lia].
      cbn in Hmax. destruct (sweep_spec (swept group) 0 0) as (H0 & _ & _). cbv zeta in H0. lia. }
    destruct (before_prefix a _ Hs) as (rest & Eb & Hrest). assert (before a (swept group) = (p' ++ [(a, 1)]) ++ before a q) as Epre.
    { rewrite E at 1. unfold before. rewrite List.filter_app. f_equal. rewrite E in Hs. clear -Hs.
      assert (Forall (λ x : Z * Z, x.1 ≤ a) (p' ++ [(a, 1)])) as Hle.
      { apply Forall_app. split; [|constructor; [cbn; lia|constructor]]. apply Forall_forall. intros x Hx. rewrite <-app_assoc in Hs. apply list_elem_of_split in Hx as (l1 & l2 & ->).
        rewrite <-app_assoc in Hs. clear -Hs. induction l1 as [|y l1 IH]; cbn in Hs; inversion Hs as [|? ? Hs' Hf]; subst; [|by apply IH].
        rewrite Forall_forall in Hf. specialize (Hf (a, 1) ltac:(set_solver)). apply point_le_spec in Hf. cbn in Hf. lia. }
      clear Hs. induction Hle as [|x l Hx _ IH]; [done|]. cbn. destruct (Z.leb_spec x.1 a); [by rewrite IH|lia]. }
    assert (0 ≤ total (before a q)) as Hpos.
    { assert (Forall (point_le (a, 1)) q) as Hq.
      { rewrite E, <-app_assoc in Hs. clear -Hs. induction p' as [|y p' IH]; cbn in Hs; inversion Hs; subst; [done|by apply IH]. }
      clear -Hq. unfold before. induction Hq as [|x q Hx _ IH]; [done|]. cbn. destruct (Z.leb_spec x.1 a); [|done]. apply point_le_spec in Hx. cbn in *. unfold total in *. lia. }
    rewrite Epre in Eb. specialize (Hall _ _ Eb ltac:(by intros [[_ ?]%app_nil _]%app_nil)). rewrite Epre. rewrite !total_app in *. lia.
Qed.

Lemma max_overlap_le group limit :
  Forall relation_window_ok group → 0 ≤ limit → max_overlap group ≤ limit ↔ ∀ t, valid_count group t ≤ limit.
Proof.
  intros Hok Hlim. split.
  - intros Hm t. pose proof (max_overlap_bounds group t Hok). lia.
  - intros Hall. destruct group as [|r group]; [done|]. destruct (max_overlap_attained (r :: group) Hok ltac:(done)) as [t <-]. apply Hall.
Qed.

(** The test on two windows finds every common instant but the last one of 64 bits. *)
Definition end_ok (valid_to : option Z) : Prop := match valid_to with Some e => e ≤ u64_max | None => True end.
Lemma windows_overlap_spec f1 t1 f2 t2 :
  window_ok f1 t1 → window_ok f2 t2 → end_ok t1 → end_ok t2 →
  windows_overlap f1 t1 f2 t2 = true ↔ ∃ t, t < u64_max ∧ valid_at_window f1 t1 t = true ∧ valid_at_window f2 t2 t = true.
Proof.
  unfold windows_overlap, window_ok, end_ok, valid_at_window. intros W1 W2 E1 E2. rewrite andb_true_iff, !Z.ltb_lt. split.
  - intros [A B]. exists (Z.max f1 f2). destruct t1 as [e1|], t2 as [e2|]; cbn in *; rewrite !andb_true_iff, !Z.leb_le, ?Z.ltb_lt; split_and!; lia || done.
  - intros (t & Ht & A & B). destruct t1 as [e1|], t2 as [e2|]; cbn in *; rewrite andb_true_iff, Z.leb_le, ?Z.ltb_lt in A, B; destruct A, B; split; lia.
Qed.

(** * The contract of a commit *)

(** The properties of a value against their declarations. *)
Definition fits (actual : RuntimeProperties) (declared : PropertySchemas) (additional : bool) : Prop :=
  (∀ name property, (name, property) ∈ declared → match bt_get name actual with Some v => value_matches (value_type property) v = true | None => property_required property = false end)
  ∧ (additional = true ∨ ∀ name value, (name, value) ∈ actual → is_Some (bt_get name declared)).
(** A table of a family, with what strict mode asks. *)
Definition table_admits (catalogue : list (RuntimeType * RuntimeTableSchema)) (kind : RuntimeType) (f : RuntimeMutationFamily) (strict : RuntimeTableSchema → Prop) : Prop :=
  ∃ table, bt_get kind catalogue = Some table ∧ family (table_model table) = f ∧ (table_mode table = Schemaless ∨ strict table).
(** What a mutation must satisfy. *)
Definition conforms (self : RuntimeSchemaRegistry) (m : RuntimeMutation) : Prop :=
  let structural kind properties f := table_admits (tables self) kind f (λ table, fits properties (table_schemas table) (table_additional table)) in
  match m with
  | MClaim _ | MSchema _ => True
  | MRetire r => ∃ table, bt_get (ref_kind (retired_reference r)) (tables self) = Some table ∧ table_model table = retired_model r
  | MRecord r => table_admits (tables self) (ref_kind (record_reference r)) FRecord (λ _,
      ∃ schema, bt_get (ref_kind (record_reference r)) (records self) = Some schema ∧ fits (record_properties r) (record_schemas schema) (record_additional schema))
  | MRelation r => table_admits (tables self) (ref_kind (relation_reference r)) FRelation (λ _,
      ∃ schema, bt_get (ref_kind (relation_reference r)) (relations self) = Some schema
      ∧ is_Some (bt_get (ref_kind (relation_from r)) (from_types schema)) ∧ is_Some (bt_get (ref_kind (relation_to r)) (to_types schema))
      ∧ fits (relation_properties r) (relation_schemas schema) (relation_additional schema))
  | MEvent e => table_admits (tables self) (event_kind e) FEvent (λ _,
      ∃ schema, bt_get (event_kind e) (events self) = Some schema ∧ (subject_required schema = true → is_Some (event_subject e))
      ∧ (∀ subject, event_subject e = Some subject → subject_types schema = [] ∨ is_Some (bt_get (ref_kind subject) (subject_types schema)))
      ∧ fits (event_properties e) (event_schemas schema) (event_additional schema))
  | MVector v => structural (ref_kind (vector_reference v)) (vector_properties v) FVector
  | MSeriesSample s => structural (ref_kind (sample_reference s)) (sample_properties s) FSeries
  | MGeo g => structural (ref_kind (geo_reference g)) (geo_properties g) FGeo
  | MObject o => structural (ref_kind (object_reference o)) (object_properties o) FObject
  end.

(** What is current after a list of versions: the last one of each reference. *)
Definition current_of {A} (reference : A → RuntimeRef) (versions : list A) (v : A) : Prop := last (filter (λ w, reference w = reference v) versions) = Some v.

(** No two records share the value of a unique property at an instant that the test looks at. *)
Definition unique_records (self : RuntimeSchemaRegistry) (all : list RuntimeRecord) : Prop :=
  ∀ kind schema property, (kind, schema) ∈ records self → (property, tt) ∈ unique_properties schema →
  ∀ r1 r2 value t, r1 ∈ all → r2 ∈ all → record_reference r1 ≠ record_reference r2 → ref_kind (record_reference r1) = kind → ref_kind (record_reference r2) = kind →
  bt_get property (record_properties r1) = Some value → bt_get property (record_properties r2) = Some value → t < u64_max →
  valid_at_window (record_valid_from r1) (record_valid_to r1) t = true → valid_at_window (record_valid_from r2) (record_valid_to r2) t = false.
(** At every instant, the relations of a kind keep its cardinality. *)
Definition bounded_relations (self : RuntimeSchemaRegistry) (all : list RuntimeRelation) : Prop :=
  ∀ kind schema, (kind, schema) ∈ relations self → ∀ t,
  let typed := filter (λ r, ref_kind (relation_reference r) = kind) all in
  (unique_pair schema = true → ∀ a b, valid_count (filter (λ r, (relation_from r, relation_to r) = (a, b)) typed) t ≤ 1)
  ∧ (∀ limit, max_outgoing schema = Some limit → ∀ a, valid_count (filter (λ r, relation_from r = a) typed) t ≤ limit)
  ∧ (∀ limit, max_incoming schema = Some limit → ∀ b, valid_count (filter (λ r, relation_to r = b) typed) t ≤ limit).

(** ** Properties *)

Lemma find_none_forallb {A} (f : A → bool) l : find f l = None ↔ ∀ x, x ∈ l → f x = false.
Proof.
  induction l as [|x l IH]; cbn; [split; [by intros _ x ?%not_elem_of_nil|done]|]. destruct (f x) eqn:E.
  - split; [done|]. intros Hall. specialize (Hall x ltac:(set_solver)). congruence.
  - rewrite IH. split; [intros Hall y [->|Hy]%elem_of_cons; auto|intros Hall y Hy; apply Hall; set_solver].
Qed.
Lemma bt_mem_is_Some {K V} `{Ord K} (k : K) (m : list (K * V)) : bt_mem k m = true ↔ is_Some (bt_get k m).
Proof. unfold bt_mem. destruct (bt_get k m); split; naive_solver. Qed.
Lemma invalid_not_ok {T} reason (t : T) : invalid reason ≠ Ok t.
Proof. done. Qed.

Lemma validate_properties_ok object kind actual declared additional :
  validate_properties object kind actual declared additional = Ok tt ↔ fits actual declared additional.
Proof.
  unfold validate_properties, fits. split.
  - intros Hv. destruct (try_each _ declared) as [[]|] eqn:E; [|done]. rewrite try_each_ok, Forall_forall in E. split.
    + intros name property Hin. specialize (E (name, property) Hin). cbn in E. destruct (bt_get name actual) as [v|]; [by destruct (value_matches _ v)|by destruct (property_required property)].
    + destruct additional; [by left|right]. destruct (find _ _) eqn:Ef; [done|]. rewrite find_none_forallb in Ef. intros name value Hin.
      specialize (Ef name ltac:(apply list_elem_of_fmap; by exists (name, value))). apply negb_false_iff, bt_mem_is_Some in Ef. done.
  - intros [Hd Ha]. assert (try_each (E := Error) _ declared = Ok tt) as ->.
    { apply try_each_ok, Forall_forall. intros [name property] Hin. specialize (Hd _ _ Hin). cbn. destruct (bt_get name actual); [by rewrite Hd|by rewrite Hd]. }
    destruct additional; [done|]. destruct Ha as [|Ha]; [done|]. destruct (find _ _) as [name|] eqn:Ef; [|done]. exfalso. apply find_some in Ef as [Hin Hn].
    apply in_map_iff in Hin as ([name' value] & <- & Hin). apply list_elem_of_In in Hin. specialize (Ha _ _ Hin). apply bt_mem_is_Some in Ha. cbn in Hn. by rewrite Ha in Hn.
Qed.

Lemma require_table_ok kind f catalogue table :
  require_table kind f catalogue = Ok table ↔ bt_get kind catalogue = Some table ∧ family (table_model table) = f.
Proof. unfold require_table. destruct (bt_get kind catalogue) as [t|]; cbn; [|naive_solver]. case_bool_decide; naive_solver. Qed.
Lemma require_admits kind f catalogue (strict : RuntimeTableSchema → result Error unit) (P : RuntimeTableSchema → Prop) :
  (∀ table, strict table = Ok tt ↔ P table) →
  (let? table := require_table kind f catalogue in match table_mode table with Schemaless => Ok tt | Strict => strict table end) = Ok tt ↔ table_admits catalogue kind f P.
Proof.
  intros HP. unfold table_admits. split.
  - destruct (require_table _ _ _) as [table|] eqn:E; [|done]. apply require_table_ok in E as [Hg Hf]. intros Hm. exists table. split; [done|]. split; [done|].
    destruct (table_mode table); [right; by apply HP|by left].
  - intros (table & Hg & Hf & Hm). rewrite (proj2 (require_table_ok kind f catalogue table)) by done. destruct (table_mode table) eqn:E; [|done].
    destruct Hm as [|Hm]; [done|]. by apply HP.
Qed.

Lemma exists_some {A} (a : A) (P : A → Prop) : (∃ x, Some a = Some x ∧ P x) ↔ P a.
Proof. split; [by intros (x & [= <-] & ?)|by exists a]. Qed.

Lemma event_subject_ok (schema : RuntimeEventSchema) (subject : option RuntimeRef) (r1 : string) (r2 : RuntimeRef → string) (rest : result Error unit) (P : Prop) :
  (rest = Ok tt ↔ P) →
  (if (subject_required schema && negb (bool_decide (is_Some subject)))%bool then invalid r1
   else do? match subject with
            | Some subject => if (negb (is_empty (subject_types schema)) && negb (bs_mem (ref_kind subject) (subject_types schema)))%bool then invalid (r2 subject) else Ok tt
            | None => Ok tt
            end in rest) = Ok tt
  ↔ (subject_required schema = true → is_Some subject)
    ∧ (∀ s, subject = Some s → subject_types schema = [] ∨ is_Some (bt_get (ref_kind s) (subject_types schema))) ∧ P.
Proof.
  intros HP. destruct subject as [s|]; cbn.
  - rewrite andb_false_r. destruct (subject_types schema) as [|x l] eqn:Et; cbn [is_empty negb andb]; [rewrite HP; naive_solver|].
    unfold bs_mem. destruct (bt_mem _ _) eqn:Em; cbn [negb].
    + apply bt_mem_is_Some in Em. rewrite HP. naive_solver.
    + split; [done|]. intros (_ & Hs & _). destruct (Hs s eq_refl) as [?|Hm%bt_mem_is_Some]; [done|congruence].
  - destruct (subject_required schema); cbn; [|rewrite HP; naive_solver]. split; [done|]. intros [Hs _]. by destruct (Hs eq_refl).
Qed.

Lemma validate_mutation_ok self m : validate_mutation self (tables self) m = Ok tt ↔ conforms self m.
Proof.
  destruct m as [c|s|r|r|e|v|s|g|o|r]; cbn [validate_mutation conforms]; try done.
  - unfold validate_record. apply (require_admits _ _ _ (λ _, _) (λ _, _)). intros _. destruct (bt_get _ (records self)) as [schema|]; cbn; [|naive_solver].
    by rewrite validate_properties_ok, (exists_some schema).
  - unfold validate_relation. apply (require_admits _ _ _ (λ _, _) (λ _, _)). intros _. destruct (bt_get _ (relations self)) as [schema|]; cbn [ok_or]; [|naive_solver].
    rewrite (exists_some schema), <-!bt_mem_is_Some. unfold bs_mem. destruct (bt_mem _ (from_types schema)); cbn [negb orb]; [|naive_solver].
    destruct (bt_mem _ (to_types schema)); cbn [negb]; [|naive_solver]. rewrite validate_properties_ok. naive_solver.
  - unfold validate_event. apply (require_admits _ _ _ (λ _, _) (λ _, _)). intros _. destruct (bt_get _ (events self)) as [schema|]; cbn [ok_or]; [|naive_solver].
    rewrite (exists_some schema). apply (event_subject_ok _ _ _ (λ s, _)), validate_properties_ok.
  - by apply require_admits; intros table; rewrite validate_properties_ok.
  - by apply require_admits; intros table; rewrite validate_properties_ok.
  - by apply require_admits; intros table; rewrite validate_properties_ok.
  - by apply require_admits; intros table; rewrite validate_properties_ok.
  - destruct (bt_get _ (tables self)) as [table|]; cbn; [|naive_solver]. case_bool_decide; naive_solver.
Qed.

(** ** Uniqueness *)

Definition record_window_ok (r : RuntimeRecord) : Prop := window_ok (record_valid_from r) (record_valid_to r) ∧ end_ok (record_valid_to r).
Definition apart (x y : RuntimeRecord * RuntimeValue) : Prop :=
  x.2 = y.2 → windows_overlap (record_valid_from x.1) (record_valid_to x.1) (record_valid_from y.1) (record_valid_to y.1) = false.

Lemma duplicated_false cs : duplicated cs = false ↔ ForallOrdPairs apart cs.
Proof.
  induction cs as [|[r v] cs IH]; cbn [duplicated]; [split; [constructor|done]|]. rewrite orb_false_iff, IH. split.
  - intros [He Hr]. constructor; [|done]. apply Forall_forall. intros [r2 v2] Hin Ev. cbn in *. subst v2.
    apply not_true_is_false. intros Ho. assert (existsb (λ '(second, other), (bool_decide (v = other)
       && windows_overlap (record_valid_from r) (record_valid_to r) (record_valid_from second) (record_valid_to second))%bool) cs = true); [|congruence].
    apply existsb_exists. exists (r2, v). split; [by apply list_elem_of_In|]. by rewrite bool_decide_eq_true_2.
  - intros Hp. inversion Hp as [|? ? Hall Hrest]; subst. split; [|done]. apply not_true_is_false. intros ([r2 v2] & Hin & Hb)%existsb_exists.
    rewrite Forall_forall in Hall. apply andb_true_iff in Hb as [->%bool_decide_eq_true Ho]. specialize (Hall (r2, v2) ltac:(by apply list_elem_of_In) eq_refl). cbn in Hall. congruence.
Qed.

Lemma candidates_elem all kind property r v :
  (r, v) ∈ candidates all kind property ↔ r ∈ all ∧ ref_kind (record_reference r) = kind ∧ bt_get property (record_properties r) = Some v.
Proof.
  unfold candidates. rewrite list_elem_of_omap. split.
  - intros (r' & Hin%list_elem_of_filter & E). destruct (bt_get _ _) eqn:Eg; cbn in E; [|done]. injection E as -> ->. naive_solver.
  - intros (Hin & Hk & Hg). exists r. rewrite list_elem_of_filter, Hg. naive_solver.
Qed.
Lemma candidates_sublist all kind property : map fst (candidates all kind property) `sublist_of` all.
Proof.
  unfold candidates. induction all as [|r all IH]; [done|]. rewrite filter_cons. destruct (decide _); [|by apply sublist_cons].
  cbn [omap list_omap]. destruct (bt_get _ _); cbn [option_map map fst]; [by apply sublist_skip|by apply sublist_cons].
Qed.

Lemma ForallOrdPairs_distinct {A B} (f : A → B) (R : A → A → Prop) l :
  NoDup (map f l) → (∀ x y, x ∈ l → y ∈ l → f x ≠ f y → R x y) → ForallOrdPairs R l.
Proof.
  induction l as [|x l IH]; cbn [map]; intros Hnd HR; [constructor|]. apply NoDup_cons in Hnd as [Hx Hnd]. constructor.
  - apply Forall_forall. intros y Hy. apply HR; [set_solver|set_solver|]. intros E. apply Hx. rewrite E. by apply list_elem_of_fmap_2.
  - apply IH; [done|]. intros y z Hy Hz. apply HR; set_solver.
Qed.

Lemma validate_record_uniqueness_ok self all :
  NoDup (map record_reference all) → Forall record_window_ok all → validate_record_uniqueness self all = Ok tt ↔ unique_records self all.
Proof.
  intros Hnd Hok. rewrite Forall_forall in Hok. unfold validate_record_uniqueness, unique_records. rewrite try_each_ok, Forall_forall. split.
  - intros Hall kind schema property Hs Hp r1 r2 value t H1 H2 Hne K1 K2 G1 G2 Ht V1. specialize (Hall _ Hs). cbn in Hall. rewrite try_each_ok, Forall_forall in Hall.
    specialize (Hall property ltac:(apply list_elem_of_fmap; by exists (property, tt))). destruct (duplicated _) eqn:Ed; [done|]. apply duplicated_false in Ed.
    assert (∀ a b, a ∈ candidates all kind property → b ∈ candidates all kind property → a = b ∨ apart a b ∨ apart b a) as Hpair
      by (intros a b Ha Hb; apply (ForallOrdPairs_In Ed); by apply list_elem_of_In).
    specialize (Hpair (r1, value) (r2, value) ltac:(by apply candidates_elem) ltac:(by apply candidates_elem)).
    destruct (Hok r1 H1) as [W1 E1], (Hok r2 H2) as [W2 E2]. apply not_true_is_false. intros V2. destruct Hpair as [[= ->]|[Ha|Ha]]; [done| |]; specialize (Ha eq_refl); cbn in Ha.
    + apply not_true_iff_false in Ha. apply Ha, windows_overlap_spec; [done..|]. by exists t.
    + apply not_true_iff_false in Ha. apply Ha, windows_overlap_spec; [done..|]. by exists t.
  - intros Hu [kind schema] Hs. apply try_each_ok, Forall_forall. intros property ([p []] & -> & Hp)%list_elem_of_fmap. cbn [fst].
    assert (duplicated (candidates all kind p) = false) as ->; [|done]. apply duplicated_false, (ForallOrdPairs_distinct (record_reference ∘ fst)).
    + rewrite (list_fmap_compose fst record_reference). eapply sublist_NoDup; [exact Hnd|]. apply fmap_sublist, candidates_sublist.
    + intros [r1 v1] [r2 v2] (H1 & K1 & G1)%candidates_elem (H2 & K2 & G2)%candidates_elem Hne Ev. cbn in *. subst v2. apply not_true_is_false. intros Ho.
      destruct (Hok r1 H1) as [W1 E1], (Hok r2 H2) as [W2 E2]. apply windows_overlap_spec in Ho as (t & Ht & A & B); [|done..].
      rewrite (Hu kind schema p Hs Hp r1 r2 v1 t) in B; done.
Qed.

(** ** Cardinality *)

Definition limits_typed (self : RuntimeSchemaRegistry) : Prop :=
  ∀ kind schema, (kind, schema) ∈ relations self → option_all (λ z, 0 ≤ z) (max_outgoing schema) ∧ option_all (λ z, 0 ≤ z) (max_incoming schema).

Lemma filter_valid_ok (P : RuntimeRelation → Prop) `{∀ r, Decision (P r)} l : Forall relation_window_ok l → Forall relation_window_ok (filter P l).
Proof. rewrite !Forall_forall. intros Hl r [_ Hr]%list_elem_of_filter. by apply Hl. Qed.

Lemma groups_ok {K} `{OrdLaws K} `{EqDecision K} (f : RuntimeRelation → K) typed limit (F : K * list RuntimeRelation → result Error unit) :
  Forall relation_window_ok typed → 0 ≤ limit → (∀ k g, F (k, g) = Ok tt ↔ max_overlap g ≤ limit) →
  try_each F (bt_group f typed) = Ok tt ↔ ∀ k t, valid_count (filter (λ r, f r = k) typed) t ≤ limit.
Proof.
  intros Hok Hlim HF. rewrite try_each_ok, Forall_forall. split.
  - intros Hall k. destruct (filter (λ r, f r = k) typed) as [|r g] eqn:E; [by intros t|]. rewrite <-E.
    apply max_overlap_le; [by apply filter_valid_ok|done|]. rewrite <-(HF k). apply Hall, bt_get_elem. rewrite bt_get_group. by rewrite E.
  - intros Hall [k g] [-> _]%bt_group_elem. apply HF, max_overlap_le; [by apply filter_valid_ok|done|]. apply Hall.
Qed.
Lemma limit_test {K} (reason : K → string) limit k g : (if limit <? max_overlap g then invalid (reason k) else Ok tt) = Ok tt ↔ max_overlap g ≤ limit.
Proof. destruct (Z.ltb_spec limit (max_overlap g)); split; try done; lia. Qed.

Lemma validate_relation_cardinality_ok self all :
  Forall relation_window_ok all → limits_typed self → validate_relation_cardinality self all = Ok tt ↔ bounded_relations self all.
Proof.
  intros Hok Hlim. unfold validate_relation_cardinality, bounded_relations. rewrite try_each_ok, Forall_forall.
  assert (∀ kind schema, (kind, schema) ∈ relations self → let typed := filter (λ r, ref_kind (relation_reference r) = kind) all in
    (∀ t, (unique_pair schema = true → ∀ a b, valid_count (filter (λ r, (relation_from r, relation_to r) = (a, b)) typed) t ≤ 1)
      ∧ (∀ limit, max_outgoing schema = Some limit → ∀ a, valid_count (filter (λ r, relation_from r = a) typed) t ≤ limit)
      ∧ (∀ limit, max_incoming schema = Some limit → ∀ b, valid_count (filter (λ r, relation_to r = b) typed) t ≤ limit))
    ↔ (unique_pair schema = true → ∀ k t, valid_count (filter (λ r, (relation_from r, relation_to r) = k) typed) t ≤ 1)
      ∧ (∀ limit, max_outgoing schema = Some limit → ∀ a t, valid_count (filter (λ r, relation_from r = a) typed) t ≤ limit)
      ∧ (∀ limit, max_incoming schema = Some limit → ∀ b t, valid_count (filter (λ r, relation_to r = b) typed) t ≤ limit)) as Hshape.
  { intros kind schema _ typed. split; [intros Hx; split_and!; [intros Hp [a b] t|intros limit Hl a t|intros limit Hl b t]; by apply Hx|].
    intros (Hx & Hy & Hz) t. split_and!; [intros Hp a b; by apply (Hx Hp (a, b))|intros limit Hl a; by apply Hy|intros limit Hl b; by apply Hz]. }
  assert (∀ (a b c : result Error unit), (do? a in do? b in c) = Ok tt ↔ a = Ok tt ∧ b = Ok tt ∧ c = Ok tt) as Hseq by (intros [[]|] [[]|] [[]|]; naive_solver).
  split; [intros Hall kind schema Hs|intros Hall [kind schema] Hs; specialize (Hall _ _ Hs)]; [specialize (Hall _ Hs)|]; destruct (Hlim _ _ Hs) as [L1 L2].
  all: pose proof (filter_valid_ok (λ r, ref_kind (relation_reference r) = kind) all Hok) as Htyped; cbv zeta in *; set (typed := filter (λ r, ref_kind (relation_reference r) = kind) all) in *.
  - apply (Hshape kind schema Hs). apply Hseq in Hall as (A & B & C). split_and!.
    + intros Hp. rewrite Hp in A; cbv iota beta in A. refine (proj1 (groups_ok (λ r, (relation_from r, relation_to r)) typed 1 _ Htyped ltac:(lia) _) A). intros [a b] g. apply (limit_test (λ _ : RuntimeRef * RuntimeRef, _) 1 (a, b)).
    + intros limit Hl. rewrite Hl in B, L1; cbv iota beta in B. refine (proj1 (groups_ok relation_from typed limit _ Htyped L1 _) B). intros a g. apply (limit_test (λ a, _) limit a).
    + intros limit Hl. rewrite Hl in C, L2; cbv iota beta in C. refine (proj1 (groups_ok relation_to typed limit _ Htyped L2 _) C). intros a g. apply (limit_test (λ a, _) limit a).
  - apply (Hshape kind schema Hs) in Hall as (A & B & C). apply Hseq. split_and!.
    + destruct (unique_pair schema); [|done]. refine (proj2 (groups_ok (λ r, (relation_from r, relation_to r)) typed 1 _ Htyped ltac:(lia) _) (A eq_refl)). intros [a b] g. apply (limit_test (λ _ : RuntimeRef * RuntimeRef, _) 1 (a, b)).
    + destruct (max_outgoing schema) as [limit|]; [|done]. refine (proj2 (groups_ok relation_from typed limit _ Htyped L1 _) (B _ eq_refl)). intros a g. apply (limit_test (λ a, _) limit a).
    + destruct (max_incoming schema) as [limit|]; [|done]. refine (proj2 (groups_ok relation_to typed limit _ Htyped L2 _) (C _ eq_refl)). intros a g. apply (limit_test (λ a, _) limit a).
Qed.

(** ** Admission *)

(** The values that stand after a commit, in the order of their references. *)
Definition standing {A} (reference : A → RuntimeRef) (versions : list A) : list A := map snd (bt_collect reference versions).

Lemma standing_elem {A} (reference : A → RuntimeRef) versions v : v ∈ standing reference versions ↔ current_of reference versions v.
Proof.
  unfold standing, current_of. rewrite <-bt_get_collect. split.
  - intros ([k w] & -> & Hin)%list_elem_of_fmap. apply (bt_elem_get _ _ _ (bt_collect_sorted reference versions)) in Hin as Hg. cbn.
    assert (reference w = k) as ->; [|done]. rewrite bt_get_collect in Hg. apply last_Some_elem_of, list_elem_of_filter in Hg. naive_solver.
  - intros Hg%bt_get_elem. apply list_elem_of_fmap. by exists (reference v, v).
Qed.
Lemma standing_nodup {A} (reference : A → RuntimeRef) versions : NoDup (map reference (standing reference versions)).
Proof.
  unfold standing. rewrite map_map. assert (map (λ x, reference x.2) (bt_collect reference versions) = map fst (bt_collect reference versions)) as ->.
  { apply map_ext_in. intros [k w] Hin%list_elem_of_In. apply (bt_elem_get _ _ _ (bt_collect_sorted reference versions)) in Hin as Hg. rewrite bt_get_collect in Hg.
    apply last_Some_elem_of, list_elem_of_filter in Hg. naive_solver. }
  pose proof (bt_collect_sorted reference versions) as Hs. induction Hs as [|p m _ IH Hall]; cbn [map]; [constructor|]. constructor; [|done].
  intros (q & E & Hq)%list_elem_of_fmap. rewrite Forall_forall in Hall. specialize (Hall q Hq). unfold bt_lt in Hall. rewrite E, ltb_irrefl in Hall. done.
Qed.
Lemma standing_forall {A} (reference : A → RuntimeRef) (P : A → Prop) versions : Forall P versions → Forall P (standing reference versions).
Proof.
  rewrite !Forall_forall. intros Hall v Hv%standing_elem. apply Hall. unfold current_of in Hv. apply last_Some_elem_of, list_elem_of_filter in Hv. naive_solver.
Qed.

Lemma registry_validate_catalogue self : registry_validate self = Some (Ok tt) → catalogue_tables self = Ok (tables self).
Proof.
  unfold registry_validate. repeat (match goal with |- context [if ?b then _ else _] => destruct b; [done|] end). unfold catalogue_tables.
  by repeat (match goal with |- context [match try_each ?f ?l with Ok _ => _ | Err _ => _ end] => destruct (try_each f l) as [[]|]; [|done] end).
Qed.


(** * Authoring *)

(** Every specialized schema has its strict table, and every table keeps the contract of its mode. *)
Definition coherent (self : RuntimeSchemaRegistry) : Prop :=
  (∀ kind f, has_specialized self kind f = true → ∃ table, bt_get kind (tables self) = Some table ∧ family (table_model table) = f ∧ table_mode table = Strict)
  ∧ (∀ kind table, bt_get kind (tables self) = Some table → check_table self (kind, table) = Ok tt).
Record registry_sorted (self : RuntimeSchemaRegistry) : Prop := {
  sorted_tables : bt_sorted (tables self); sorted_records : bt_sorted (records self);
  sorted_relations : bt_sorted (relations self); sorted_events : bt_sorted (events self)
}.

Lemma specialized_tables {V} (tables : list (RuntimeType * RuntimeTableSchema)) f (m : list (RuntimeType * V)) : bt_sorted m →
  try_each (validate_specialized_table tables f) (map fst m) = Ok tt
  ↔ ∀ kind, bt_mem kind m = true → ∃ table, bt_get kind tables = Some table ∧ family (table_model table) = f ∧ table_mode table = Strict.
Proof.
  intros Hs. rewrite try_each_ok, Forall_forall. assert (∀ kind, kind ∈ map fst m ↔ bt_mem kind m = true) as Hk.
  { intros kind. rewrite bt_mem_is_Some. split.
    - intros ([k v] & -> & Hin)%list_elem_of_fmap. exists v. by apply bt_elem_get.
    - intros [v Hv%bt_get_elem]. apply list_elem_of_fmap. by exists (kind, v). }
  assert (∀ kind, validate_specialized_table tables f kind = Ok tt ↔ ∃ table, bt_get kind tables = Some table ∧ family (table_model table) = f ∧ table_mode table = Strict) as Hv.
  { intros kind. unfold validate_specialized_table. destruct (require_table kind f tables) as [t|] eqn:E.
    - apply require_table_ok in E as [-> <-]. rewrite (exists_some t). destruct (table_mode t) eqn:Em; naive_solver.
    - split; [done|]. intros (t & Ht & Hf & _). rewrite (proj2 (require_table_ok kind f tables t)) in E by done. done. }
  setoid_rewrite Hk. by setoid_rewrite Hv.
Qed.

Lemma catalogue_coherent self : registry_sorted self → catalogue_tables self = Ok (tables self) ↔ coherent self.
Proof.
  intros [S1 S2 S3 S4]. unfold catalogue_tables, coherent.
  pose proof (specialized_tables (tables self) FRecord (records self) S2) as H2. pose proof (specialized_tables (tables self) FRelation (relations self) S3) as H3.
  pose proof (specialized_tables (tables self) FEvent (events self) S4) as H4.
  assert (try_each (check_table self) (tables self) = Ok tt ↔ ∀ kind table, bt_get kind (tables self) = Some table → check_table self (kind, table) = Ok tt) as H1.
  { rewrite try_each_ok, Forall_forall. split; [intros Hall kind table Hg%bt_get_elem; by apply Hall|].
    intros Hall [kind table] Hin. by apply Hall, bt_elem_get. }
  destruct (try_each _ (map fst (records self))) as [[]|].
  2: { split; [done|]. intros [Hc _]. discriminate (proj2 H2 (λ kind, Hc kind FRecord)). }
  destruct (try_each _ (map fst (relations self))) as [[]|].
  2: { split; [done|]. intros [Hc _]. discriminate (proj2 H3 (λ kind, Hc kind FRelation)). }
  destruct (try_each _ (map fst (events self))) as [[]|].
  2: { split; [done|]. intros [Hc _]. discriminate (proj2 H4 (λ kind, Hc kind FEvent)). }
  destruct (try_each (check_table self) (tables self)) as [[]|].
  2: { split; [done|]. intros [_ Hc]. discriminate (proj2 H1 Hc). }
  split; [|done]. intros _. split; [|by apply H1]. intros kind [] Hh; cbn [has_specialized] in Hh; [by apply H2|by apply H3|by apply H4|done..].
Qed.

Lemma define_coherent self self' kind model f :
  family model = f → specializes f = true → tables self' = bt_insert kind (strict_table model) (tables self) →
  (∀ k g, has_specialized self' k g = true ↔ (k = kind ∧ g = f) ∨ has_specialized self k g = true) →
  (∀ g, has_specialized self kind g = true → g = f) → coherent self → coherent self'.
Proof.
  intros Hf Hsp Ht Hs Hown [Hc1 Hc2]. split.
  - intros k g Hk. rewrite Ht. destruct (decide (k = kind)) as [->|Hne].
    + exists (strict_table model). rewrite bt_get_insert_eq. apply Hs in Hk as [[_ ->]|Hk%Hown]; [done|by subst].
    + rewrite bt_get_insert_ne by done. apply Hc1. apply Hs in Hk as [[? _]|Hk]; [done|done].
  - intros k table. rewrite Ht. destruct (decide (k = kind)) as [->|Hne].
    + rewrite bt_get_insert_eq. intros [= <-]. unfold check_table. cbn. rewrite Hf, Hsp, (proj2 (Hs kind f)) by auto. by destruct f.
    + rewrite bt_get_insert_ne by done. intros Hg. specialize (Hc2 _ _ Hg). unfold check_table in *. destruct (validate_table k table); [|done].
      assert (has_specialized self' k (family (table_model table)) = has_specialized self k (family (table_model table))) as ->; [|done].
      apply eq_true_iff_eq. rewrite Hs. naive_solver.
Qed.

Lemma bt_mem_insert {V} (k kind : RuntimeType) (v : V) m : bt_mem k (bt_insert kind v m) = true ↔ k = kind ∨ bt_mem k m = true.
Proof.
  rewrite !bt_mem_is_Some. destruct (decide (k = kind)) as [->|Hne]; [rewrite bt_get_insert_eq; naive_solver|]. rewrite bt_get_insert_ne by done. naive_solver.
Qed.
Lemma reject_family_conflict_ok self kind f :
  specializes f = true → reject_family_conflict self kind f = Ok tt →
  (∀ g, has_specialized self kind g = true → g = f) ∧ ∀ table, bt_get kind (tables self) = Some table → family (table_model table) = f.
Proof.
  intros Hf. unfold reject_family_conflict. destruct (_ || _)%bool eqn:E; [done|]. intros _. rewrite !orb_false_iff in E. destruct E as (((E1 & E2) & E3) & E4). split.
  - intros [] Hg; cbn [has_specialized] in Hg; rewrite ?Hg, ?andb_true_r in *; try done; symmetry; apply negb_false_iff, bool_decide_eq_true in E2 || apply negb_false_iff, bool_decide_eq_true in E3 || apply negb_false_iff, bool_decide_eq_true in E4; done.
  - intros table Ht. rewrite Ht in E1. by apply negb_false_iff, bool_decide_eq_true in E1.
Qed.

(** The authoring operations. *)
Inductive Authoring :=
| DefineRecord (kind : RuntimeType) (model : RuntimeLogicalModel) (schema : RuntimeRecordSchema)
| DefineRelation (kind : RuntimeType) (schema : RuntimeRelationSchema)
| DefineEvent (kind : RuntimeType) (model : RuntimeLogicalModel) (schema : RuntimeEventSchema).
Definition author (self : RuntimeSchemaRegistry) (op : Authoring) : result Error (RuntimeSchemaRegistry * bool) :=
  match op with
  | DefineRecord kind model schema => define_record_table self kind model schema
  | DefineRelation kind schema => define_relation_table self kind schema
  | DefineEvent kind model schema => define_event_table self kind model schema
  end.
Definition authored_kind (op : Authoring) : RuntimeType := match op with DefineRecord k _ _ | DefineRelation k _ | DefineEvent k _ _ => k end.
Definition authored_model (op : Authoring) : RuntimeLogicalModel := match op with DefineRecord _ m _ | DefineEvent _ m _ => m | DefineRelation _ _ => GraphRelation end.
(** The specialized schema an operation writes is in the registry. *)
Definition authored_schema (self : RuntimeSchemaRegistry) (op : Authoring) : Prop :=
  match op with
  | DefineRecord kind _ schema => bt_get kind (records self) = Some schema
  | DefineRelation kind schema => bt_get kind (relations self) = Some schema
  | DefineEvent kind _ schema => bt_get kind (events self) = Some schema
  end.

Inductive authored (start : RuntimeSchemaRegistry) : RuntimeSchemaRegistry → Prop :=
| authored_nothing : authored start start
| authored_step self op self' changed : authored start self → author self op = Ok (self', changed) → authored start self'.

Lemma bt_insert_same {V} (k : RuntimeType) (v : V) m : bt_sorted m → bt_get k m = Some v → bt_insert k v m = m.
Proof.
  intros Hs Hg. apply bt_ext; [by apply bt_insert_sorted|done|]. intros k'. destruct (decide (k' = k)) as [->|Hne]; [by rewrite bt_get_insert_eq|by rewrite bt_get_insert_ne].
Qed.
Lemma changed_test {V} (a : option RuntimeTableSchema) table (b : option V) `{EqDecision V} schema :
  (negb (bool_decide (a = Some table)) || negb (bool_decide (b = Some schema)))%bool = false ↔ a = Some table ∧ b = Some schema.
Proof. rewrite orb_false_iff, !negb_false_iff, !bool_decide_eq_true. done. Qed.

(** One operation: what it writes, what it leaves alone, and that it keeps the catalogue. *)
Record author_effect (self : RuntimeSchemaRegistry) (op : Authoring) (self' : RuntimeSchemaRegistry) (changed : bool) : Prop := {
  effect_coherent : coherent self → coherent self';
  effect_sorted : registry_sorted self → registry_sorted self';
  effect_tables : tables self' = bt_insert (authored_kind op) (strict_table (authored_model op)) (tables self);
  effect_family : ∀ table, bt_get (authored_kind op) (tables self) = Some table → family (table_model table) = family (authored_model op);
  effect_schema : authored_schema self' op;
  effect_frame : revision self' = revision self ∧ migration self' = migration self ∧ organisation self' = organisation self;
  effect_changed : registry_sorted self → changed = false ↔ self' = self
}.

(** The three operations differ in the map they write. *)
Ltac solve_author_effect self kind model f Hm Hfam :=
  constructor; cbn [authored_kind authored_model authored_schema tables records relations events revision migration organisation];
  [ apply (define_coherent self _ kind model f); [done..| |done]; intros ? []; cbn [has_specialized records relations events]; rewrite ?bt_mem_insert; naive_solver
  | by intros []; constructor; try apply bt_insert_sorted
  | done
  | intros table Ht; rewrite ?Hm; by apply Hfam
  | apply bt_get_insert_eq
  | done
  | intros []; rewrite changed_test; split;
    [ intros []; rewrite !bt_insert_same by done; by destruct self
    | intros E; split; rewrite <-E at 1; cbn; by rewrite bt_get_insert_eq ] ].

Lemma author_ok self op self' changed : author self op = Ok (self', changed) → author_effect self op self' changed.
Proof.
  destruct op as [kind model schema|kind schema|kind model schema]; cbn [author]; unfold define_record_table, define_relation_table, define_event_table.
  - destruct (negb (is_record_like model)) eqn:Em; [done|]. apply negb_false_iff in Em. assert (family model = FRecord) as Hm by (by destruct model).
    destruct (reject_family_conflict self kind FRecord) as [[]|] eqn:Er; [|done]. apply reject_family_conflict_ok in Er as [Hown Hfam]; [|done]. intros [= <- <-].
    solve_author_effect self kind model FRecord Hm Hfam.
  - assert (family GraphRelation = FRelation) as Hm by done.
    destruct (reject_family_conflict self kind FRelation) as [[]|] eqn:Er; [|done]. apply reject_family_conflict_ok in Er as [Hown Hfam]; [|done]. intros [= <- <-].
    solve_author_effect self kind GraphRelation FRelation Hm Hfam.
  - destruct (negb (is_event_like model)) eqn:Em; [done|]. apply negb_false_iff in Em. assert (family model = FEvent) as Hm by (by destruct model).
    destruct (reject_family_conflict self kind FEvent) as [[]|] eqn:Er; [|done]. apply reject_family_conflict_ok in Er as [Hown Hfam]; [|done]. intros [= <- <-].
    solve_author_effect self kind model FEvent Hm Hfam.
Qed.

Lemma authored_ok start self : registry_sorted start → coherent start → authored start self →
  registry_sorted self ∧ coherent self ∧ (revision self = revision start ∧ migration self = migration start ∧ organisation self = organisation start)
  ∧ ∀ kind table, bt_get kind (tables start) = Some table → ∃ table', bt_get kind (tables self) = Some table' ∧ family (table_model table') = family (table_model table).
Proof.
  intros Hs Hc. induction 1 as [|self op self' changed _ (IHs & IHc & (F1 & F2 & F3) & IHt) Ha]; [by eauto 10|]. destruct (author_ok _ _ _ _ Ha) as [E1 E2 E3 E4 _ (G1 & G2 & G3) _].
  split; [auto|]. split; [auto|]. split; [split_and!; congruence|]. intros kind table Ht. destruct (IHt _ _ Ht) as (t1 & Ht1 & Hf1). rewrite E3.
  destruct (decide (kind = authored_kind op)) as [->|Hne].
  - exists (strict_table (authored_model op)). rewrite bt_get_insert_eq. split; [done|]. rewrite <-Hf1. symmetry. by apply E4.
  - exists t1. by rewrite bt_get_insert_ne.
Qed.


(** * Domains *)

(** The domains from one up to the top level. *)
Inductive placed (self : RuntimeEstateOrganisation) : RuntimeType → list RuntimeType → Prop :=
| placed_top id domain : bt_get id (domains self) = Some domain → nested_in domain = None → placed self id [id]
| placed_in id domain parent path : bt_get id (domains self) = Some domain → nested_in domain = Some parent → placed self parent path → placed self id (id :: path).

Lemma placed_fun self id p q : placed self id p → placed self id q → p = q.
Proof.
  intros Hp. revert q. induction Hp as [id d Hd Hn|id d parent p Hd Hn _ IH]; intros q Hq; inversion Hq as [? d' Hd' Hn'|? d' parent' q' Hd' Hn' Hq']; simplify_eq; [done|].
  f_equal. by apply IH.
Qed.
Lemma placed_suffix self id pre x post : placed self id (pre ++ x :: post) → placed self x (x :: post).
Proof.
  revert id. induction pre as [|y pre IH]; intros id Hp; cbn [app] in Hp.
  - inversion Hp; subst; [done|]. done.
  - inversion Hp as [? d Hd Hn E|? d parent path Hd Hn Hpath]; subst; [by destruct pre|]. by eapply IH.
Qed.
Lemma placed_nodup self id path : placed self id path → NoDup path.
Proof.
  intros Hp. apply NoDup_alt. intros i j x Hi Hj. apply list_elem_of_split_length in Hi as (p1 & q1 & E1 & L1). apply list_elem_of_split_length in Hj as (p2 & q2 & E2 & L2).
  rewrite E1 in Hp. apply placed_suffix in Hp as S1. rewrite <-E1, E2 in Hp. apply placed_suffix in Hp as S2. pose proof (placed_fun _ _ _ _ S1 S2) as E. injection E as ->.
  assert (length p1 = length p2) as ?; [|congruence]. rewrite E1 in E2. apply (f_equal length) in E2. rewrite !length_app in E2. cbn in E2. lia.
Qed.

(** The loop climbs to the top level or refuses. *)
Lemma depth_loop_ok fuel self id current depth d :
  depth_loop fuel self id current depth = Some (Ok d) → Z.of_nat fuel + depth = 9 → 1 ≤ depth ≤ 8 → ∃ path, placed self current path ∧ d = depth + len path - 1 ∧ d ≤ 8.
Proof.
  revert current depth. induction fuel as [|fuel IH]; intros current depth; cbn [depth_loop]; [lia|]. destruct (bt_get current (domains self)) as [domain|] eqn:Eg; [|done].
  destruct (nested_in domain) as [parent|] eqn:En.
  - destruct (bool_decide _); [done|]. destruct (Z.ltb_spec MAX_DOMAIN_DEPTH (depth + 1)) as [|Hle]; [done|]. unfold MAX_DOMAIN_DEPTH in Hle. intros Hd Hf Hdepth.
    destruct (IH parent (depth + 1) Hd ltac:(lia) ltac:(lia)) as (path & Hp & -> & Hb). exists (current :: path). split; [by eapply placed_in|]. rewrite len_cons. lia.
  - intros [= <-] Hf Hdepth. exists [current]. split; [by eapply placed_top|]. unfold len. cbn. lia.
Qed.
(** A declared parent for every domain keeps the index expression from panicking. *)
Definition parents_declared (self : RuntimeEstateOrganisation) : Prop :=
  ∀ id domain parent, bt_get id (domains self) = Some domain → nested_in domain = Some parent → is_Some (bt_get parent (domains self)).
Lemma depth_loop_total fuel self id current depth : parents_declared self → is_Some (bt_get current (domains self)) → is_Some (depth_loop fuel self id current depth).
Proof.
  intros Hp. revert current depth. induction fuel as [|fuel IH]; intros current depth [domain Hd]; cbn [depth_loop]; rewrite Hd; destruct (nested_in domain) as [parent|] eqn:En; try done;
    repeat case_match; try done. apply IH. by eapply Hp.
Qed.
Lemma try_each_panic_total {E A} (f : A → option (result E unit)) l : (∀ x, x ∈ l → is_Some (f x)) → is_Some (try_each_panic f l).
Proof.
  induction l as [|x l IH]; intros Hf; cbn [try_each_panic]; [done|]. destruct (Hf x ltac:(set_solver)) as [[[]|e] ->]; [|done]. apply IH. set_solver.
Qed.

#[local] Arguments domain_depth : simpl never.
(** Validated domains form a forest.  When an organisation validates, every declared domain
    leads up to the top level through at most eight distinct declared domains, and its depth is
    their number; and validation does not panic if every parent that is named is declared. *)
Theorem domains_form_a_forest self tables :
  bt_sorted (domains self) →
  (organisation_validate self tables = Some (Ok tt) →
   ∀ id, is_Some (bt_get id (domains self)) → ∃ path, placed self id path ∧ NoDup path ∧ len path ≤ 8 ∧ domain_depth self id = Some (Ok (len path)))
  ∧ (parents_declared self → is_Some (organisation_validate self tables)).
Proof.
  intros Hs. split.
  - intros Hv id [domain Hd]. assert (try_each_panic (validate_domain self) (domains self) = Some (Ok tt)) as Hall.
    { revert Hv. unfold organisation_validate. destruct (_ <? _); [done|]. by destruct (try_each_panic _ _) as [[[]|]|]. }
    rewrite try_each_panic_ok, Forall_forall in Hall. specialize (Hall _ (bt_get_elem _ _ _ Hd)). cbn in Hall. destruct (_ || _)%bool; [done|].
    destruct (validate_label _ _ _ _) as [[]|]; [|done]. destruct (match domain_parent domain with Some parent => _ | None => _ end) as [[[]|]|]; [|done|done].
    destruct (domain_depth self id) as [[d|]|] eqn:Ed; [|done|done]. apply depth_loop_ok in Ed as Hp; [|done|lia]. destruct Hp as (path & Hp & Ed' & Hle). exists path.
    split; [done|]. split; [by eapply placed_nodup|]. split; [lia|]. do 2 f_equal. lia.
  - intros Hp. unfold organisation_validate. destruct (_ <? _); [done|]. enough (is_Some (try_each_panic (validate_domain self) (domains self))) as [[[]|e] ->]; [by repeat case_match|done|].
    apply try_each_panic_total. intros [id domain] Hin. apply (bt_elem_get _ _ _ Hs) in Hin as Hg. cbn. destruct (_ || _)%bool; [done|]. destruct (validate_label _ _ _ _) as [[]|]; [|done].
    assert (is_Some (domain_depth self id)) as [[d|e] Hd] by (by apply depth_loop_total). all: rewrite Hd; by repeat case_match.
Qed.

(** * Samples *)

Module SampleSchema.
Definition named (s : string) : RuntimeType := MkRuntimeType s.
Definition domain (title : string) (parent : option string) : RuntimeDomainSchema := {| domain_title := title; domain_description := ""; domain_parent := option_map named parent |}.
Definition organised (l : list (string * RuntimeDomainSchema)) : RuntimeEstateOrganisation :=
  {| domains := map (λ p, (named p.1, p.2)) l; categories := []; kind_domains := []; collection_domains := []; kind_tags := [] |}.

(** An undeclared grandparent is not an error but a panic.  The parent of [billing] is declared
    and its own parent is not; [billing] comes first and is looked at before the unknown parent is
    found. *)
Theorem undeclared_grandparent_panics :
  organisation_validate (organised [("billing", domain "Billing" (Some "finance")); ("finance", domain "Finance" (Some "missing"))]) [] = None.
Proof. vm_compute. reflexivity. Qed.

Lemma domains_form_a_forest_witness :
  ∃ path, placed (organised [("billing", domain "Billing" (Some "finance")); ("finance", domain "Finance" None)]) (named "billing") path ∧ len path ≤ 8.
Proof.
  set (self := organised _). assert (bt_sorted (domains self)) as Hs by (unfold self; cbn; repeat constructor).
  destruct (domains_form_a_forest self []) as [Hf _]; [exact Hs|]. destruct (Hf ltac:(vm_compute; reflexivity) (named "billing") ltac:(vm_compute; eauto)) as (path & Hp & _ & Hle & _).
  exists path. split; [exact Hp|exact Hle].
Defined.

(** A registry with a person table, whose email is unique, and a relation with at most one target at a time. *)
Definition person : RuntimeRecordSchema :=
  {| record_schemas := [("email", {| value_type := TString; property_required := true |})]; record_additional := false; unique_properties := [("email", tt)] |}.
Definition lives_in : RuntimeRelationSchema :=
  {| from_types := [(named "person", tt)]; to_types := [(named "place", tt)]; relation_schemas := []; relation_additional := false; unique_pair := true;
     max_outgoing := Some 1; max_incoming := None |}.
Definition empty : RuntimeSchemaRegistry := registry_empty 1 "first".
Definition script : list Authoring := [DefineRecord (named "person") Document person; DefineRelation (named "lives-in") lives_in].
Definition registry : RuntimeSchemaRegistry := foldl (λ r op, match author r op with Ok (r, _) => r | Err _ => r end) empty script.

Lemma empty_sorted : registry_sorted empty.
Proof. constructor; constructor. Qed.
Lemma registry_authored : authored empty registry.
Proof. eapply authored_step with (op := DefineRelation (named "lives-in") lives_in); [eapply authored_step with (op := DefineRecord (named "person") Document person); [apply authored_nothing|reflexivity]|reflexivity]. Qed.


Definition reference (kind id : string) : RuntimeRef := {| ref_kind := named kind; ref_id := MkRuntimeId id |}.
Definition person_at (id email : string) (from_ : Z) (to_ : option Z) : RuntimeRecord :=
  {| record_reference := reference "person" id; record_valid_from := from_; record_valid_to := to_; record_properties := [("email", VString email)] |}.
Definition lives (id place : string) (from_ : Z) (to_ : option Z) : RuntimeRelation :=
  {| relation_reference := reference "lives-in" id; relation_from := reference "person" "ann"; relation_to := reference "place" place;
     relation_valid_from := from_; relation_valid_to := to_; relation_properties := [] |}.

End SampleSchema.
