(* ===== verification/RuntimeData.v ===== *)
(** Validation of a commit ([rrd-core]: data.rs, runtime.rs).

    Every value of a commit is checked before anything is stored: texts, digests, validity
    windows, the shape and finiteness of vectors, coordinates, decimal samples and object keys; and
    no two mutations of one family may name the same reference.

    Theorem: a commit validates exactly when its actor is a text, it has a mutation, at most one
    schema, every mutation is valid by itself, and the references of each family are distinct.

    Floats are decoded from their bits into the Standard Library's binary floating point; [powi],
    whose precision Rust leaves open, is a parameter. *)

From S2P Require Import Prelude Machine BTree Ident Text Digest Claim RuntimeTypes RuntimeSchema.
From Stdlib Require Import Floats.SpecFloat.
Open Scope Z_scope.

(** * Floats *)

(** A binary float of [e] exponent and [m] mantissa bits, from its bit pattern. *)
Definition decode_float (e m : Z) (bits : Z) : spec_float :=
  let sign := Z.testbit bits (e + m) in
  let exponent := Z.land (Z.shiftr bits m) (2 ^ e - 1) in
  let fraction := Z.land bits (2 ^ m - 1) in
  let bias := 2 ^ (e - 1) - 1 in
  let finite mantissa exponent := match mantissa with Zpos p => S754_finite sign p exponent | _ => S754_zero sign end in
  if exponent =? 2 ^ e - 1 then (if fraction =? 0 then S754_infinity sign else S754_nan)
  else if exponent =? 0 then finite fraction (1 - bias - m)
  else finite (fraction + 2 ^ m) (exponent - bias - m).
Definition f32_of (bits : Z) : spec_float := decode_float 8 23 bits.
Definition f64_of (bits : Z) : spec_float := decode_float 11 52 bits.
Definition float_finite (f : spec_float) : bool := match f with S754_zero _ | S754_finite _ _ _ => true | _ => false end.

(** [f64::powi(2)]: the standard library does not fix its precision. *)
Class Powi := powi2 : spec_float → spec_float.

(** * Values *)

(** core/data.rs:10-10 MAX_VECTOR_DIMENSIONS *)
Definition MAX_VECTOR_DIMENSIONS : Z := 1048576.
(** core/data.rs:32-39 VectorValue::dimensions *)
Definition dimensions (self : VectorValue) : Z :=
  match self with Dense values => len values | Sparse d _ _ | MultiDense d _ => d end.
(** core/data.rs:396-401 validate_finite *)
Definition validate_finite (values : list Z) : result Error unit :=
  if existsb (λ value, negb (float_finite (f32_of value))) values then invalid "vector values must be finite" else Ok tt.
(** [indices.windows(2).any(|pair| pair[0] >= pair[1])] *)
Fixpoint unordered (l : list Z) : bool :=
  match l with
  | a :: l' => match l' with b :: _ => ((b <=? a) || unordered l')%bool | [] => false end
  | [] => false
  end.
(** core/data.rs:41-84 VectorValue::validate *)
Definition vector_validate (self : VectorValue) : result Error unit :=
  let d := dimensions self in
  if ((d =? 0) || (MAX_VECTOR_DIMENSIONS <? d))%bool
  then invalid ("vector dimensions must be in 1..=" +:+ pretty MAX_VECTOR_DIMENSIONS +:+ ", got " +:+ pretty d)
  else match self with
       | Dense values => validate_finite values
       | Sparse d indices values =>
         if (is_empty indices || negb (len indices =? len values))%bool then invalid "sparse vector indices and values must have the same non-zero length"
         else if existsb (λ index, d <=? index) indices then invalid "sparse vector index exceeds declared dimensions"
         else if unordered indices then invalid "sparse vector indices must be strictly increasing"
         else validate_finite values
       | MultiDense d vectors =>
         if is_empty vectors then invalid "multi-vector must contain at least one vector"
         else try_each (λ vector, if negb (len vector =? d) then invalid "every multi-vector row must match declared dimensions" else validate_finite vector) vectors
       end.

Section Norm.
Context `{Powi}.
(** core/data.rs:87-93 VectorValue::is_unit_l2::normalized; the bits of [1e-4] are [0x3F1A36E2EB1C432D] *)
Definition normalized (values : list Z) : bool :=
  let widen value := match f32_of value with S754_finite s m e => binary_round 53 1024 s m e | f => f end in
  let squared_norm := foldl (λ sum value, SFadd 53 1024 sum (powi2 (widen value))) (S754_zero false) values in
  SFleb (SFabs (SFsub 53 1024 squared_norm (SFone 53 1024))) (f64_of 0x3F1A36E2EB1C432D).
(** core/data.rs:86-98 VectorValue::is_unit_l2 *)
Definition is_unit_l2 (self : VectorValue) : bool :=
  match self with Dense values | Sparse _ _ values => normalized values | MultiDense _ vectors => forallb normalized vectors end.
End Norm.

(** core/data.rs:403-408 validate_text *)
Definition data_text (kind value : string) : result Error unit :=
  if (trims_to_nothing value || has_nul value)%bool then invalid (kind +:+ " must be non-empty and contain no NUL bytes") else Ok tt.
(** core/data.rs:410-421 validate_digest *)
Definition data_digest (kind value : string) : result Error unit :=
  if sha256_text lower_hex value then Ok tt else invalid (kind +:+ " digest must be 64 lowercase hexadecimal characters").
(** core/data.rs:423-431 validate_window *)
Definition data_window (valid_from : Z) (valid_to : option Z) : result Error unit :=
  match valid_to with Some end_ => if end_ <=? valid_from then Err (InvalidValidityWindow valid_from end_) else Ok tt | None => Ok tt end.
(** core/data.rs:433-439 validate_decimal *)
Definition validate_decimal (value : string) : result Error unit :=
  do? data_text "series decimal" value in
  if parses_finite value then Ok tt else invalid "series decimal must be a finite numeric string".

(** core/data.rs:121-132 EmbeddingProvenance::validate *)
Definition provenance_validate (self : EmbeddingProvenance) (d : Z) : result Error unit :=
  do? data_digest "embedding source" (source_digest self) in
  do? data_digest "embedding model" (model_digest self) in
  do? data_text "embedding model" (embedding_model self) in
  if provenance_dimensions self =? d then Ok tt
  else invalid ("embedding provenance dimensions " +:+ pretty (provenance_dimensions self) +:+ " do not match vector dimensions " +:+ pretty d).
(** core/data.rs:143-146 VectorCollectionAddress::validate *)
Definition collection_validate (self : VectorCollectionAddress) : result Error unit :=
  do? data_text "vector collection id" (collection_id self) in data_text "vector name" (vector_name self).
(** core/data.rs:168-180 RuntimeVector::validate *)
Definition runtime_vector_validate `{Powi} (self : RuntimeVector) : result Error unit :=
  do? collection_validate (vector_collection self) in
  do? data_text "vector field" (vector_field self) in
  do? data_window (vector_valid_from self) (vector_valid_to self) in
  do? vector_validate (vector_value self) in
  match vector_provenance self with
  | Some provenance =>
    do? provenance_validate provenance (dimensions (vector_value self)) in
    match normalization provenance with
    | UnitL2 => if is_unit_l2 (vector_value self) then Ok tt else invalid "vector marked unit_l2 is not unit normalized"
    | NoNormalization => Ok tt
    end
  | None => Ok tt
  end.
(** core/data.rs:208-213 RuntimeSeriesSample::validate *)
Definition sample_validate (self : RuntimeSeriesSample) : result Error unit :=
  match sample_value self with SDecimal value => validate_decimal value | _ => Ok tt end.
(** core/data.rs:223-231 GeoPoint::validate; the bits of 180 and 90 are [0x4066800000000000] and [0x4056800000000000] *)
Definition point_validate (self : GeoPoint) : result Error unit :=
  let within bound value := (SFleb (SFopp (f64_of bound)) value && SFleb value (f64_of bound))%bool in
  if (negb (float_finite (f64_of (longitude self))) || negb (within 0x4066800000000000 (f64_of (longitude self))))%bool
  then invalid "longitude must be finite and in [-180, 180]"
  else if (negb (float_finite (f64_of (latitude self))) || negb (within 0x4056800000000000 (f64_of (latitude self))))%bool
  then invalid "latitude must be finite and in [-90, 90]" else Ok tt.
(** core/data.rs:248-265 GeoValue::validate *)
Definition geo_value_validate (self : GeoValue) : result Error unit :=
  match self with
  | Point point => point_validate point
  | BoundingBox southwest northeast =>
    do? point_validate southwest in
    do? point_validate northeast in
    if (SFltb (f64_of (longitude northeast)) (f64_of (longitude southwest)) || SFltb (f64_of (latitude northeast)) (f64_of (latitude southwest)))%bool
    then invalid "geo bounding box corners are inverted" else Ok tt
  end.
(** core/data.rs:283-287 RuntimeGeo::validate *)
Definition geo_validate (self : RuntimeGeo) : result Error unit :=
  do? data_text "geo field" (geo_field self) in
  do? data_window (geo_valid_from self) (geo_valid_to self) in
  geo_value_validate (geo_value self).
(** core/data.rs:369-372 ObjectReference::canonical_key *)
Definition canonical_key (sha256 : string) : result Error string :=
  do? data_digest "object" sha256 in
  Ok ("objects/sha256/" +:+ bytes_str (take 2 (str_bytes sha256)) +:+ "/" +:+ sha256).
(** core/data.rs:374-393 ObjectReference::validate *)
Definition object_validate (self : ObjectReference) : result Error unit :=
  do? data_digest "object" (object_sha256 self) in
  do? data_text "object media type" (media_type self) in
  do? data_text "object backend" (receipt_backend (receipt self)) in
  do? data_text "object key" (receipt_key (receipt self)) in
  do? match receipt_version (receipt self) with Some version => data_text "object version" version | None => Ok tt end in
  do? match receipt_etag (receipt self) with Some etag => data_text "object ETag" etag | None => Ok tt end in
  let? expected := canonical_key (object_sha256 self) in
  if str_eqb (receipt_key (receipt self)) expected then Ok tt
  else invalid ("object key " +:+ debug_str (receipt_key (receipt self)) +:+ " is not canonical for digest " +:+ object_sha256 self).
(** core/data.rs:345-367 ObjectReference::for_verified *)
Definition for_verified (id : string) (subject : option RuntimeRef) (media sha256 : string) (length_ : Z) (proof : ObjectReceipt) : result Error ObjectReference :=
  let? kind := RuntimeType_new "object" in
  let? id := RuntimeId_new id in
  let value := {| object_reference := {| ref_kind := kind; ref_id := id |}; object_subject := subject; object_sha256 := sha256; object_length := length_;
                  media_type := media; receipt := proof; object_properties := [] |} in
  do? object_validate value in Ok value.
(** core/data.rs:317-338 ObjectReference::for_bytes *)
Definition for_bytes `{Sha2} (id : string) (subject : option RuntimeRef) (media : string) (bytes : list byte) (proof : ObjectReceipt) : result Error ObjectReference :=
  for_verified id subject media (sha256_hex bytes) (len bytes) proof.

(** * Commits *)

(** core/runtime.rs:2032-2034 validate_text *)
Definition runtime_text (kind value : string) : result Error unit := check_text kind value.
(** core/runtime.rs:2045-2055 validate_window *)
Definition runtime_window (valid_from : Z) (valid_to : option Z) : result Error unit :=
  match valid_to with Some valid_to => if valid_to <=? valid_from then Err (InvalidValidityWindow valid_from valid_to) else Ok tt | None => Ok tt end.
(** core/runtime.rs:2061-2066 validate_properties *)
Definition runtime_properties (properties : RuntimeProperties) : result Error unit := try_each (check_text "runtime property") (map fst properties).
(** core/runtime.rs:2023-2030 duplicate_identity *)
Definition duplicate_identity {T} (kind : string) (reference : RuntimeRef) : result Error T :=
  invalid ("runtime commit contains duplicate " +:+ kind +:+ " identity " +:+ name_ref reference).

(** The identity a mutation claims in its commit, with the name a duplicate is reported by. *)
Definition identity_of (m : RuntimeMutation) : option (string * string * RuntimeRef) :=
  match m with
  | MRecord r => Some ("record", "record", record_reference r)
  | MRelation r => Some ("relation", "relation", relation_reference r)
  | MVector v => Some ("vector", "vector", vector_reference v)
  | MSeriesSample s => Some ("series_sample", "series sample", sample_reference s)
  | MGeo g => Some ("geo", "geo", geo_reference g)
  | MObject o => Some ("object", "object", object_reference o)
  | MRetire r => Some ("retirement", "retirement", retired_reference r)
  | MClaim _ | MSchema _ | MEvent _ => None
  end.
(** core/runtime.rs:235-308 RuntimeCommit::validate, one mutation before its identity *)
Definition mutation_validate `{Powi} (m : RuntimeMutation) : option (result Error unit) :=
  match m with
  | MClaim claim => Some (Claim.validate claim)
  | MSchema registry => registry_validate registry
  | MRecord r => Some (do? runtime_window (record_valid_from r) (record_valid_to r) in runtime_properties (record_properties r))
  | MRelation r => Some (do? runtime_window (relation_valid_from r) (relation_valid_to r) in runtime_properties (relation_properties r))
  | MEvent e => Some (runtime_properties (event_properties e))
  | MVector v => Some (do? runtime_vector_validate v in runtime_properties (vector_properties v))
  | MSeriesSample s => Some (do? sample_validate s in runtime_properties (sample_properties s))
  | MGeo g => Some (do? geo_validate g in runtime_properties (geo_properties g))
  | MObject o => Some (do? object_validate o in runtime_properties (object_properties o))
  | MRetire r => Some (
      if effective_at r =? 0 then invalid "runtime retirement effective_at must be greater than zero"
      else match retired_model r with ReasoningClaim => invalid "reasoning claims retire through their bitemporal claim contract" | _ => Ok tt end)
  end.
(** core/runtime.rs:233-309 RuntimeCommit::validate, the loop *)
Fixpoint mutations_validate `{Powi} (identities : list (string * RuntimeRef * unit)) (schema_count : Z) (l : list RuntimeMutation) : option (result Error unit) :=
  match l with
  | [] => Some (Ok tt)
  | m :: l =>
    do* mutation_validate m in
    let schema_count := match m with MSchema _ => schema_count + 1 | _ => schema_count end in
    if (match m with MSchema _ => 1 <? schema_count | _ => false end)%bool then Some (invalid "runtime commit may contain at most one schema mutation")
    else match identity_of m with
         | Some (family, name, reference) =>
           if bs_mem (family, reference) identities then Some (duplicate_identity name reference)
           else mutations_validate (bs_insert (family, reference) identities) schema_count l
         | None => mutations_validate identities schema_count l
         end
  end.
(** core/runtime.rs:225-311 RuntimeCommit::validate *)
Definition commit_validate `{Powi} (self : RuntimeCommit) : option (result Error unit) :=
  do* Some (runtime_text "runtime actor" (commit_actor self)) in
  if is_empty (mutations self) then Some (invalid "runtime commit must contain at least one mutation")
  else mutations_validate [] 0 (mutations self).

(** * What validation admits *)

Definition identities (l : list RuntimeMutation) : list (string * RuntimeRef) := omap (λ m, option_map (λ i : string * string * RuntimeRef, (i.1.1, i.2)) (identity_of m)) l.
Definition schemas (l : list RuntimeMutation) : Z := len (List.filter (λ m, match m with MSchema _ => true | _ => false end) l).

Section Commit.
Context `{Powi}.

Lemma mutations_validate_ok seen count l :
  0 ≤ count → mutations_validate seen count l = Some (Ok tt)
  ↔ Forall (λ m, mutation_validate m = Some (Ok tt)) l ∧ NoDup (identities l) ∧ (∀ i, i ∈ identities l → bt_get i seen = None) ∧ (schemas l = 0 ∨ count + schemas l ≤ 1).
Proof.
  revert seen count. induction l as [|m l IH]; intros seen count Hc.
  { cbn. split; [|done]. intros _. split; [done|]. split; [constructor|]. split; [by intros i ?%not_elem_of_nil|]. by left. }
  cbn [mutations_validate]. rewrite Forall_cons. destruct (mutation_validate m) as [[[]|]|]; [|naive_solver|naive_solver].
  assert (schemas (m :: l) = match m with MSchema _ => 1 + schemas l | _ => schemas l end) as Es by (unfold schemas; destruct m; cbn; by rewrite ?len_cons).
  assert (0 ≤ schemas l) as Hnn by apply len_nonneg.
  destruct (identity_of m) as [[[family name] reference]|] eqn:Ei.
  - assert (identities (m :: l) = (family, reference) :: identities l) as -> by (unfold identities; cbn; by rewrite Ei). assert (schemas (m :: l) = schemas l) as -> by (rewrite Es; by destruct m).
    assert ((match m with MSchema _ => 1 <? match m with MSchema _ => count + 1 | _ => count end | _ => false end) = false) as -> by (by destruct m).
    assert (match m with MSchema _ => count + 1 | _ => count end = count) as -> by (by destruct m).
    unfold bs_mem. destruct (bt_mem (family, reference) seen) eqn:Em.
    + split; [done|]. intros (_ & _ & Hs & _). apply bt_mem_is_Some in Em as [? Em]. rewrite (Hs (family, reference)) in Em by set_solver. done.
    + assert (bt_get (family, reference) seen = None) as En by (unfold bt_mem in Em; by destruct (bt_get _ _)). rewrite IH by done. rewrite NoDup_cons. unfold bs_insert. split.
      * intros (Hv & Hnd & Hs & Hcount). split; [done|]. split; [split; [|done]|].
        { intros Hin. specialize (Hs _ Hin). by rewrite bt_get_insert_eq in Hs. }
        split; [|done]. intros i [->|Hi]%elem_of_cons; [done|]. specialize (Hs i Hi). destruct (decide (i = (family, reference))) as [->|Hne]; [done|]. by rewrite bt_get_insert_ne in Hs.
      * intros ((_ & Hv) & (Hfresh & Hnd) & Hs & Hcount). split; [done|]. split; [done|]. split; [|done]. intros i Hi. rewrite bt_get_insert_ne; [apply Hs; set_solver|]. by intros <-.
  - assert (identities (m :: l) = identities l) as -> by (unfold identities; cbn; by rewrite Ei). rewrite Es.
    destruct m; try done; [rewrite IH by done; naive_solver| |rewrite IH by done; naive_solver].
    destruct (Z.ltb_spec 1 (count + 1)).
    + split; [done|]. intros (_ & _ & _ & [?|?]); lia.
    + rewrite IH by lia. split; intros (A & B & C & D); [split; [done|]; split; [done|]; split; [done|]; right; lia|].
      split; [by apply A|]. split; [done|]. split; [done|]. destruct D; [lia|]. right. lia.
Qed.

(** C22: commit validation is exact.  A commit validates exactly when its actor is a text without
    NUL, it has a mutation and at most one schema, every mutation is valid by itself, and no two
    mutations of one family name the same reference. *)
Theorem commit_validate_exact self :
  commit_validate self = Some (Ok tt)
  ↔ check_text "runtime actor" (commit_actor self) = Ok tt ∧ mutations self ≠ [] ∧ schemas (mutations self) ≤ 1
    ∧ Forall (λ m, mutation_validate m = Some (Ok tt)) (mutations self) ∧ NoDup (identities (mutations self)).
Proof.
  unfold commit_validate, runtime_text. destruct (check_text _ _) as [[]|]; [|naive_solver]. destruct (mutations self) as [|m l] eqn:El; [cbn; naive_solver|]. rewrite <-El.
  assert (is_empty (mutations self) = false) as -> by (by rewrite El). rewrite mutations_validate_ok by done. pose proof (len_nonneg (List.filter (λ m, match m with MSchema _ => true | _ => false end) (mutations self))).
  fold (schemas (mutations self)) in *. assert (mutations self ≠ []) by (by rewrite El). split.
  - intros (Hv & Hnd & _ & Hc). split_and!; try done. lia.
  - intros (_ & _ & Hc & Hv & Hnd). split_and!; try done. right. lia.
Qed.
End Commit.
