(* ===== verification/RuntimeBytes.v ===== *)
(** Canonical bytes of commits and changes ([rrd-core]: runtime.rs).

    The identity of a commit and the leaf of a change in the authenticated log are digests of a
    canonical encoding.  The theorem that makes them identities: the encoding determines the value.
    Texts, lists and maps carry their lengths and variants a tag.  The one part that is optional
    without a flag is the organisation at the end of a schema, which starts with [0xFF]; what can
    follow a schema never does.

    [determines] says that an encoder of a struct determines an observation of it whatever follows,
    as long as what follows satisfies a condition; the observations of the fields compose. *)

From S2P Require Import Prelude Machine BTree Ident Text Digest Claim RuntimeTypes RuntimeSchema.
Open Scope Z_scope.

(** * The encoders *)

(** core/runtime.rs:2068-2071 text *)
Definition text (value : string) : list byte := be_bytes 8 (str_len value) ++ str_bytes value.
(** core/runtime.rs:2073-2078 optional_text *)
Definition optional_text (value : option string) : list byte := enc_option text value.
(** core/runtime.rs:2080-2083 encode_ref *)
Definition encode_ref (reference : RuntimeRef) : list byte := text (type_str (ref_kind reference)) ++ text (id_str (ref_id reference)).
(** core/runtime.rs:2085-2091 encode_window *)
Definition encode_window (valid_from : Z) (valid_to : option Z) : list byte := be_bytes 8 valid_from ++ enc_option (be_bytes 8) valid_to.
(** core/runtime.rs:2495-2500 encode_optional_u64 *)
Definition encode_optional_u64 (value : option Z) : list byte := enc_option (be_bytes 8) value.
(** [u8::from] of a [bool] *)
Definition bool_byte (b : bool) : byte := if b then x01 else x00.
(** [i64::to_be_bytes] *)
Definition i64_bytes (z : Z) : list byte := be_bytes 8 (z mod 2 ^ 64).
(** The length of a collection and the encoding of its elements in turn. *)
Definition counted {A} (enc : A → list byte) (l : list A) : list byte := be_bytes 8 (len l) ++ flat_map enc l.

(** core/runtime.rs:2101-2140 encode_value *)
Fixpoint encode_value (value : RuntimeValue) : list byte :=
  match value with
  | VNull => [x00]
  | VBool b => [x01; bool_byte b]
  | VInteger z => x02 :: i64_bytes z
  | VUnsigned z => x03 :: be_bytes 8 z
  | VDecimal s => x04 :: text s
  | VString s => x05 :: text s
  | VDigest s => x06 :: text s
  | VList values => x07 :: counted encode_value values
  | VMap values => x08 :: counted (λ kv, text kv.1 ++ encode_value kv.2) values
  end.
(** core/runtime.rs:2093-2099 encode_properties *)
Definition encode_properties (properties : RuntimeProperties) : list byte := counted (λ kv, text kv.1 ++ encode_value kv.2) properties.

(** core/runtime.rs:2332-2337 encode_f32s *)
Definition encode_f32s (values : list Z) : list byte := counted (be_bytes 4) values.
(** core/runtime.rs:2339-2341 encode_f64 *)
Definition encode_f64 (value : Z) : list byte := be_bytes 8 value.
(** core/runtime.rs:2299-2330 encode_vector_value *)
Definition encode_vector_value (value : VectorValue) : list byte :=
  match value with
  | Dense values => x00 :: encode_f32s values
  | Sparse dimensions indices values => x01 :: be_bytes 4 dimensions ++ counted (be_bytes 4) indices ++ encode_f32s values
  | MultiDense dimensions vectors => x02 :: be_bytes 4 dimensions ++ counted encode_f32s vectors
  end.
(** core/runtime.rs:2279-2297 runtime_logical_model_tag *)
Definition runtime_logical_model_tag (model : RuntimeLogicalModel) : byte :=
  match model with
  | Document => x00 | Relational => x01 | GraphNode => x02 | GraphRelation => x03 | KeyValue => x04 | Vector => x05 | Event => x06 | TimeSeries => x07
  | Geo => x08 | Object => x09 | ReasoningRecord => x0a | ReasoningEvent => x0b | LifecycleRecord => x0c | LifecycleEvent => x0d | ReasoningClaim => x0e
  end.

(** core/runtime.rs:2473-2483 encode_property_schemas, the tag of a type *)
Definition value_type_tag (t : RuntimeValueType) : byte :=
  match t with TNull => x00 | TBool => x01 | TInteger => x02 | TUnsigned => x03 | TDecimal => x04 | TString => x05 | TDigest => x06 | TList => x07 | TMap => x08 end.
(** core/runtime.rs:2466-2486 encode_property_schemas *)
Definition encode_property_schemas (properties : PropertySchemas) : list byte :=
  counted (λ entry, text entry.1 ++ [value_type_tag (value_type entry.2)] ++ [bool_byte (property_required entry.2)]) properties.
(** core/runtime.rs:2488-2493 encode_type_set *)
Definition encode_type_set (values : list (RuntimeType * unit)) : list byte := counted (λ entry, text (type_str entry.1)) values.
(** core/runtime.rs:2403-2406 encode_schema, the tag of a mode *)
Definition mode_tag (m : RuntimeSchemaMode) : byte := match m with Strict => x00 | Schemaless => x01 end.
(** core/runtime.rs:2430-2434 encode_organisation, the tag of the targets *)
Definition targets_tag (t : RuntimeCategoryTargets) : byte := match t with Kinds => x00 | Records => x01 | KindsAndRecords => x02 end.
(** core/runtime.rs:2435-2438 encode_organisation, the tag of the cardinality *)
Definition cardinality_tag (c : RuntimeTagCardinality) : byte := match c with Single => x00 | Multiple => x01 end.

(** core/runtime.rs:2348-2354 encode_schema, one record schema *)
Definition encode_record_schema (entry : RuntimeType * RuntimeRecordSchema) : list byte :=
  text (type_str entry.1) ++ encode_property_schemas (record_schemas entry.2) ++ [bool_byte (record_additional entry.2)]
  ++ counted (λ property : string * unit, text property.1) (unique_properties entry.2).
(** core/runtime.rs:2357-2366 encode_schema, one relation schema *)
Definition encode_relation_schema (entry : RuntimeType * RuntimeRelationSchema) : list byte :=
  text (type_str entry.1) ++ encode_type_set (from_types entry.2) ++ encode_type_set (to_types entry.2) ++ encode_property_schemas (relation_schemas entry.2)
  ++ [bool_byte (relation_additional entry.2)] ++ [bool_byte (unique_pair entry.2)] ++ encode_optional_u64 (max_outgoing entry.2) ++ encode_optional_u64 (max_incoming entry.2).
(** core/runtime.rs:2368-2374 encode_schema, one event schema *)
Definition encode_event_schema (entry : RuntimeType * RuntimeEventSchema) : list byte :=
  text (type_str entry.1) ++ [bool_byte (subject_required entry.2)] ++ encode_type_set (subject_types entry.2) ++ encode_property_schemas (event_schemas entry.2)
  ++ [bool_byte (event_additional entry.2)].
(** core/runtime.rs:2382-2409 encode_schema, one table *)
Definition encode_table (entry : RuntimeType * RuntimeTableSchema) : list byte :=
  text (type_str entry.1) ++ [runtime_logical_model_tag (table_model entry.2)] ++ [mode_tag (table_mode entry.2)] ++ encode_property_schemas (table_schemas entry.2)
  ++ [bool_byte (table_additional entry.2)].

(** core/runtime.rs:2420-2425 encode_organisation, one domain *)
Definition encode_domain (entry : RuntimeType * RuntimeDomainSchema) : list byte :=
  text (type_str entry.1) ++ text (domain_title entry.2) ++ text (domain_description entry.2) ++ optional_text (option_map type_str (domain_parent entry.2)).
(** core/runtime.rs:2427-2446 encode_organisation, one category *)
Definition encode_category (entry : RuntimeType * RuntimeCategorySchema) : list byte :=
  text (type_str entry.1) ++ text (category_title entry.2) ++ text (category_description entry.2) ++ [targets_tag (category_targets entry.2)]
  ++ [cardinality_tag (category_cardinality entry.2)] ++ [bool_byte (category_open entry.2)]
  ++ counted (λ tag : RuntimeType * RuntimeTagSchema, text (type_str tag.1) ++ text (tag_title tag.2) ++ text (tag_description tag.2)) (category_tags entry.2).
(** core/runtime.rs:2447-2453 encode_organisation, memberships *)
Definition encode_memberships (l : list (RuntimeType * RuntimeType)) : list byte := counted (λ entry, text (type_str entry.1) ++ text (type_str entry.2)) l.
(** core/runtime.rs:2455-2462 encode_organisation, the tags of a kind *)
Definition encode_kind_tags (entry : RuntimeType * list (RuntimeTagRef * unit)) : list byte :=
  text (type_str entry.1) ++ counted (λ r : RuntimeTagRef * unit, text (type_str (tag_category r.1)) ++ text (type_str (tag_name r.1))) entry.2.
Definition ORGANISATION_MAGIC : list byte := str_bytes "rrflow-estate-organisation-v1" ++ [x00].
(** core/runtime.rs:2416-2464 encode_organisation *)
Definition encode_organisation (o : RuntimeEstateOrganisation) : list byte :=
  xff :: ORGANISATION_MAGIC ++ counted encode_domain (domains o) ++ counted encode_category (categories o) ++ encode_memberships (kind_domains o)
  ++ encode_memberships (collection_domains o) ++ counted encode_kind_tags (kind_tags o).
Definition CATALOGUE_MAGIC : list byte := str_bytes "rrflow-unified-catalogue-v1" ++ [x00].
(** core/runtime.rs:2343-2411 encode_schema *)
Definition encode_schema (r : RuntimeSchemaRegistry) : list byte :=
  be_bytes 8 (revision r) ++ text (migration r) ++ counted encode_record_schema (records r) ++ counted encode_relation_schema (relations r)
  ++ counted encode_event_schema (events r) ++ (CATALOGUE_MAGIC ++ text "default" ++ text "default") ++ counted encode_table (tables r)
  ++ if is_default (organisation r) then [] else encode_organisation (organisation r).

(** core/runtime.rs:2193-2197 encode_mutation, the normalization *)
Definition normalization_tag (n : VectorNormalization) : byte := match n with NoNormalization => x00 | UnitL2 => x01 end.
(** core/runtime.rs:2189-2199 encode_mutation, the provenance of a vector *)
Definition encode_provenance (p : EmbeddingProvenance) : list byte :=
  text (source_digest p) ++ text (embedding_model p) ++ text (model_digest p) ++ be_bytes 4 (provenance_dimensions p) ++ [normalization_tag (normalization p)]
  ++ encode_properties (generation_parameters p).
(** core/runtime.rs:2207-2228 encode_mutation, the value of a sample *)
Definition encode_series_value (v : SeriesValue) : list byte :=
  match v with
  | SInteger z => x00 :: i64_bytes z
  | SUnsigned z => x01 :: be_bytes 8 z
  | SDecimal s => x02 :: text s
  | SBool b => [x03; bool_byte b]
  | SString s => x04 :: text s
  end.
(** core/runtime.rs:2236-2251 encode_mutation, the value of a place *)
Definition encode_geo_value (v : GeoValue) : list byte :=
  match v with
  | Point p => x00 :: encode_f64 (longitude p) ++ encode_f64 (latitude p)
  | BoundingBox sw ne => x01 :: encode_f64 (longitude sw) ++ encode_f64 (latitude sw) ++ encode_f64 (longitude ne) ++ encode_f64 (latitude ne)
  end.

(** core/runtime.rs:2154-2159 encode_mutation, a record *)
Definition encode_record (r : RuntimeRecord) : list byte :=
  encode_ref (record_reference r) ++ encode_window (record_valid_from r) (record_valid_to r) ++ encode_properties (record_properties r).
(** core/runtime.rs:2160-2167 encode_mutation, a relation *)
Definition encode_relation (r : RuntimeRelation) : list byte :=
  encode_ref (relation_reference r) ++ encode_ref (relation_from r) ++ encode_ref (relation_to r) ++ encode_window (relation_valid_from r) (relation_valid_to r)
  ++ encode_properties (relation_properties r).
(** core/runtime.rs:2168-2176 encode_mutation, an event *)
Definition encode_event (e : RuntimeEvent) : list byte :=
  text (type_str (event_kind e)) ++ enc_option encode_ref (event_subject e) ++ encode_properties (event_properties e).
(** core/runtime.rs:2177-2201 encode_mutation, a vector *)
Definition encode_vector (v : RuntimeVector) : list byte :=
  encode_ref (vector_reference v) ++ encode_ref (vector_subject v) ++ text (collection_id (vector_collection v)) ++ text (vector_name (vector_collection v))
  ++ text (vector_field v) ++ encode_window (vector_valid_from v) (vector_valid_to v) ++ encode_vector_value (vector_value v)
  ++ enc_option encode_provenance (vector_provenance v) ++ encode_properties (vector_properties v).
(** core/runtime.rs:2202-2230 encode_mutation, a sample *)
Definition encode_sample (s : RuntimeSeriesSample) : list byte :=
  encode_ref (sample_reference s) ++ encode_ref (sample_series s) ++ be_bytes 8 (sample_observed_at s) ++ encode_series_value (sample_value s)
  ++ encode_properties (sample_properties s).
(** core/runtime.rs:2231-2253 encode_mutation, a place *)
Definition encode_geo (g : RuntimeGeo) : list byte :=
  encode_ref (geo_reference g) ++ encode_ref (geo_subject g) ++ text (geo_field g) ++ encode_window (geo_valid_from g) (geo_valid_to g)
  ++ encode_geo_value (geo_value g) ++ encode_properties (geo_properties g).
(** core/runtime.rs:2254-2269 encode_mutation, an object *)
Definition encode_object (o : ObjectReference) : list byte :=
  encode_ref (object_reference o) ++ enc_option encode_ref (object_subject o) ++ text (object_sha256 o) ++ be_bytes 8 (object_length o) ++ text (media_type o)
  ++ text (receipt_backend (receipt o)) ++ text (receipt_key (receipt o)) ++ optional_text (receipt_version (receipt o)) ++ optional_text (receipt_etag (receipt o))
  ++ encode_properties (object_properties o).
(** core/runtime.rs:2270-2275 encode_mutation, a retirement *)
Definition encode_retirement (r : RuntimeRetirement) : list byte :=
  [runtime_logical_model_tag (retired_model r)] ++ encode_ref (retired_reference r) ++ be_bytes 8 (effective_at r).
(** core/runtime.rs:2142-2277 encode_mutation *)
Definition encode_mutation (m : RuntimeMutation) : list byte :=
  match m with
  | MClaim claim => x00 :: be_bytes 8 (len (Claim.canonical_bytes claim)) ++ Claim.canonical_bytes claim
  | MSchema registry => x04 :: encode_schema registry
  | MRecord record => x01 :: encode_record record
  | MRelation relation => x02 :: encode_relation relation
  | MEvent event => x03 :: encode_event event
  | MVector vector => x05 :: encode_vector vector
  | MSeriesSample sample => x06 :: encode_sample sample
  | MGeo geo => x07 :: encode_geo geo
  | MObject object => x08 :: encode_object object
  | MRetire retirement => x09 :: encode_retirement retirement
  end.

Definition COMMIT_MAGIC : list byte := str_bytes "rrd-engine-commit-v1" ++ [x00].
(** core/runtime.rs:318-329 RuntimeCommit::canonical_bytes *)
Definition commit_bytes (self : RuntimeCommit) : list byte :=
  COMMIT_MAGIC ++ text (scope_str (commit_scope self)) ++ be_bytes 8 (commit_at self) ++ text (commit_actor self) ++ be_bytes 8 (expected_cursor self)
  ++ counted encode_mutation (mutations self).
Definition CHANGE_MAGIC : list byte := str_bytes "rrd-engine-change-v1" ++ [x00].
(** core/runtime.rs:381-392 RuntimeChange::canonical_bytes *)
Definition change_bytes (self : RuntimeChange) : list byte :=
  CHANGE_MAGIC ++ be_bytes 8 (change_cursor self) ++ text (change_commit_id self) ++ be_bytes 8 (change_ordinal self) ++ text (scope_str (change_scope self))
  ++ be_bytes 8 (change_at self) ++ text (change_actor self) ++ encode_mutation (change_mutation self) ++ optional_text (change_previous self).
(** core/runtime.rs:377-379 RuntimeChange::authenticated_log_bytes *)
Definition authenticated_log_bytes (self : RuntimeChange) : list byte := change_bytes self.

Section Identity.
Context `{Sha2}.
(** core/runtime.rs:314-316 RuntimeCommit::digest *)
Definition commit_digest (self : RuntimeCommit) : string := sha256_hex (commit_bytes self).
(** core/runtime.rs:371-373 RuntimeChange::verify_digest *)
Definition verify_digest (self : RuntimeChange) : bool := str_eqb (sha256_hex (change_bytes self)) (change_digest self).
(** core/runtime.rs:348-369 RuntimeChange::committed *)
Definition committed (cursor : Z) (commit : RuntimeCommit) (commit_id : string) (ordinal : Z) (mutation : RuntimeMutation) (previous : option string) : RuntimeChange :=
  let change digest := {| change_cursor := cursor; change_commit_id := commit_id; change_ordinal := ordinal; change_scope := commit_scope commit; change_at := commit_at commit;
    change_actor := commit_actor commit; change_mutation := mutation; change_previous := previous; change_digest := digest |} in
  change (sha256_hex (change_bytes (change ""))).
End Identity.

(** * Encoders that determine what they encode *)

(** On values that satisfy [P], followed by anything that satisfies [F], the bytes determine an
    observation of the value and where they end. *)
Definition determines {A C} (F : list byte → Prop) (P : A → Prop) (enc : A → list byte) (obs : A → C) : Prop :=
  ∀ a b r s, P a → P b → F r → F s → enc a ++ r = enc b ++ s → obs a = obs b ∧ r = s.
Definition anything (r : list byte) : Prop := True.

Lemma determines_self {A} P (enc : A → list byte) : self_delim P enc ↔ determines anything P enc id.
Proof. split; [intros Hd a b r s Ha Hb _ _ E; by apply Hd|intros Hd a b r s Ha Hb E; by apply Hd]. Qed.
Lemma determines_field {A B} F P Q (e : B → list byte) (f : A → B) : self_delim Q e → (∀ a, P a → Q (f a)) → determines F P (λ a, e (f a)) f.
Proof. intros Hd HP a b r s Ha Hb _ _ E. apply Hd in E; auto. Qed.
Lemma determines_app {A C D} F P (e1 e2 : A → list byte) (o1 : A → C) (o2 : A → D) :
  determines anything P e1 o1 → determines F P e2 o2 → determines F P (λ a, e1 a ++ e2 a) (λ a, (o1 a, o2 a)).
Proof.
  intros H1 H2 a b r s Ha Hb Hr Hs E. rewrite <-!app_assoc in E. apply H1 in E as [E1 E]; [|done..]. apply H2 in E as [E2 E]; [|done..]. split; [congruence|done].
Qed.
Lemma determines_const {A} F P (bytes : list byte) : determines F P (λ _ : A, bytes) (λ _, tt).
Proof. intros a b r s _ _ _ _ E%app_inv_head. done. Qed.
Lemma determines_cons {A C} F P (b : byte) (e : A → list byte) (o : A → C) : determines F P e o → determines F P (λ a, b :: e a) o.
Proof. intros Hd x y r s Hx Hy Hr Hs E. apply (f_equal (drop 1)) in E. by apply Hd. Qed.
Lemma determines_obs {A C D} F P (enc : A → list byte) (o : A → C) (o' : A → D) : determines F P enc o → (∀ a b, o a = o b → o' a = o' b) → determines F P enc o'.
Proof. intros Hd Ho a b r s Ha Hb Hr Hs E. apply Hd in E as [E ->]; [|done..]. split; [by apply Ho|done]. Qed.
Lemma determines_weaken {A C} (F G : list byte → Prop) P (enc : A → list byte) (o : A → C) : (∀ r, G r → F r) → determines F P enc o → determines G P enc o.
Proof. intros HFG Hd a b r s Ha Hb Hr Hs E. apply Hd in E; auto. Qed.

(** Composition from the fields: the observation must be injective. *)
Lemma self_delim_fields {A C} P (enc : A → list byte) (o : A → C) : determines anything P enc o → (∀ a b, o a = o b → a = b) → self_delim P enc.
Proof. intros Hd Ho. apply determines_self. by eapply determines_obs. Qed.

Definition is_text (s : string) : Prop := str_len s < 2 ^ 64.
Definition is_u64 (z : Z) : Prop := 0 ≤ z < 2 ^ 64.
Definition is_u32 (z : Z) : Prop := 0 ≤ z < 2 ^ 32.
Definition is_i64 (z : Z) : Prop := - 2 ^ 63 ≤ z < 2 ^ 63.
Definition always {A} (_ : A) : Prop := True.
Definition short {A} (P : A → Prop) (l : list A) : Prop := len l < 2 ^ 64 ∧ Forall P l.

Lemma text_delim : self_delim is_text text.
Proof. apply self_delim_text. Qed.
Lemma optional_text_delim : self_delim (option_all is_text) optional_text.
Proof. apply self_delim_option, text_delim. Qed.
Lemma u64_delim : self_delim is_u64 (be_bytes 8).
Proof. exact (self_delim_be 8). Qed.
Lemma u32_delim : self_delim is_u32 (be_bytes 4).
Proof. exact (self_delim_be 4). Qed.
Lemma optional_u64_delim : self_delim (option_all is_u64) encode_optional_u64.
Proof. apply self_delim_option, u64_delim. Qed.
Lemma i64_delim : self_delim is_i64 i64_bytes.
Proof.
  intros a b r s Ha Hb E. unfold i64_bytes in E. apply u64_delim in E as [E ->]; [|unfold is_u64; apply Z.mod_pos_bound; lia..]. split; [|done]. unfold is_i64 in *.
  rewrite (Z.mod_eq a), (Z.mod_eq b) in E by lia. pose proof (Z.div_mod a (2 ^ 64) ltac:(lia)). pose proof (Z.div_mod b (2 ^ 64) ltac:(lia)).
  pose proof (Z.mod_pos_bound a (2 ^ 64) ltac:(lia)). pose proof (Z.mod_pos_bound b (2 ^ 64) ltac:(lia)). nia.
Qed.
Lemma tag_delim {A} (tag : A → byte) : Inj (=) (=) tag → self_delim always (λ a, [tag a]).
Proof. apply self_delim_tag. Qed.
#[export] Instance bool_byte_inj : Inj (=) (=) bool_byte.
Proof. by intros [] []. Qed.
#[export] Instance model_tag_inj : Inj (=) (=) runtime_logical_model_tag.
Proof. by intros [] []. Qed.
#[export] Instance value_type_tag_inj : Inj (=) (=) value_type_tag.
Proof. by intros [] []. Qed.
#[export] Instance mode_tag_inj : Inj (=) (=) mode_tag.
Proof. by intros [] []. Qed.
#[export] Instance targets_tag_inj : Inj (=) (=) targets_tag.
Proof. by intros [] []. Qed.
#[export] Instance cardinality_tag_inj : Inj (=) (=) cardinality_tag.
Proof. by intros [] []. Qed.
#[export] Instance normalization_tag_inj : Inj (=) (=) normalization_tag.
Proof. by intros [] []. Qed.

Lemma flat_map_delim {A} P (enc : A → list byte) l k r s :
  self_delim P enc → Forall P l → Forall P k → length l = length k → flat_map enc l ++ r = flat_map enc k ++ s → l = k ∧ r = s.
Proof.
  intros Hd. revert k. induction l as [|a l IH]; intros [|b k] Hl Hk Hlen E; try done. cbn [flat_map] in E. rewrite <-!app_assoc in E. apply Forall_cons in Hl as [Ha Hl], Hk as [Hb Hk].
  apply Hd in E as [-> E]; [|done..]. apply IH in E as [-> ->]; [done..|]. cbn in Hlen. lia.
Qed.
Lemma counted_delim {A} P (enc : A → list byte) : self_delim P enc → self_delim (short P) (counted enc).
Proof.
  intros Hd l k r s [Ll Hl] [Lk Hk] E. unfold counted in E. rewrite <-!app_assoc in E.
  apply u64_delim in E as [Elen E]; [|split; [apply len_nonneg|done]..]. apply (flat_map_delim P) in E; [done..|]. unfold len in Elen. lia.
Qed.

(** Fields of the base types, for [eauto]; each leaves the condition on the field. *)
Lemma det_text {A} F P (f : A → string) : (∀ a, P a → is_text (f a)) → determines F P (λ a, text (f a)) f.
Proof. apply determines_field, text_delim. Qed.
Lemma det_optional_text {A} F P (f : A → option string) : (∀ a, P a → option_all is_text (f a)) → determines F P (λ a, optional_text (f a)) f.
Proof. apply determines_field, optional_text_delim. Qed.
Lemma det_u64 {A} F P (f : A → Z) : (∀ a, P a → is_u64 (f a)) → determines F P (λ a, be_bytes 8 (f a)) f.
Proof. apply determines_field, u64_delim. Qed.
Lemma det_u32 {A} F P (f : A → Z) : (∀ a, P a → is_u32 (f a)) → determines F P (λ a, be_bytes 4 (f a)) f.
Proof. apply determines_field, u32_delim. Qed.
Lemma det_optional_u64 {A} F P (f : A → option Z) : (∀ a, P a → option_all is_u64 (f a)) → determines F P (λ a, encode_optional_u64 (f a)) f.
Proof. apply determines_field, optional_u64_delim. Qed.
Lemma det_i64 {A} F P (f : A → Z) : (∀ a, P a → is_i64 (f a)) → determines F P (λ a, i64_bytes (f a)) f.
Proof. apply determines_field, i64_delim. Qed.
Lemma det_tag {A B} F P (tag : B → byte) `{!Inj (=) (=) tag} (f : A → B) : determines F P (λ a, [tag (f a)]) f.
Proof. apply (determines_field F P always (λ b, [tag b])); [by apply tag_delim|done]. Qed.
Lemma det_counted {A B} F P Q (enc : B → list byte) (f : A → list B) : self_delim Q enc → (∀ a, P a → short Q (f a)) → determines F P (λ a, counted enc (f a)) f.
Proof. intros Hd. by apply determines_field, counted_delim. Qed.
Lemma det_option {A B} F P Q (enc : B → list byte) (f : A → option B) : self_delim Q enc → (∀ a, P a → option_all Q (f a)) → determines F P (λ a, enc_option enc (f a)) f.
Proof. intros Hd. by apply determines_field, self_delim_option. Qed.

(** Split an encoder into its fields, and close the conditions from the hypothesis. *)
Create HintDb delim.
#[export] Hint Resolve text_delim u64_delim u32_delim i64_delim optional_text_delim optional_u64_delim : delim.
Lemma det_window {A} F P (f : A → Z) (g : A → option Z) : (∀ a, P a → is_u64 (f a) ∧ option_all is_u64 (g a)) → determines F P (λ a, encode_window (f a) (g a)) (λ a, (f a, g a)).
Proof. intros HP. apply determines_app; [apply det_u64; intros a Ha; by apply HP|]. apply (det_option F P is_u64); [apply u64_delim|]. intros a Ha. by apply HP. Qed.
Ltac delim_field :=
  first [ apply det_window | apply det_text | apply det_optional_text | apply det_u64 | apply det_u32 | apply det_optional_u64 | apply det_i64 | refine (det_tag _ _ _ _)
        | eapply det_counted; [solve [eauto with delim]|] | eapply det_option; [solve [eauto with delim]|]
        | eapply determines_field; [solve [eauto with delim]|] ].
Ltac delim_fields :=
  lazymatch goal with
  | |- determines _ _ (λ a, @?x a ++ @?y a) _ => eapply determines_app; [delim_field|delim_fields]
  | _ => delim_field
  end.

(** * The types of the fields

    What Rust's types say of every value: texts and collections of less than 2^64 elements, integers
    within their width. *)

Definition wf_type (t : RuntimeType) : Prop := is_text (type_str t).
Definition wf_ref (r : RuntimeRef) : Prop := wf_type (ref_kind r) ∧ is_text (id_str (ref_id r)).
Fixpoint wf_value (v : RuntimeValue) : Prop :=
  match v with
  | VNull | VBool _ => True
  | VInteger z => is_i64 z
  | VUnsigned z => is_u64 z
  | VDecimal s | VString s | VDigest s => is_text s
  | VList l => len l < 2 ^ 64 ∧ foldr (λ v acc, wf_value v ∧ acc) True l
  | VMap m => len m < 2 ^ 64 ∧ foldr (λ kv acc, (is_text kv.1 ∧ wf_value kv.2) ∧ acc) True m
  end.
Definition wf_property (kv : string * RuntimeValue) : Prop := is_text kv.1 ∧ wf_value kv.2.
Definition wf_properties (p : RuntimeProperties) : Prop := short wf_property p.

Lemma foldr_and {A} (P : A → Prop) l : foldr (λ x acc, P x ∧ acc) True l ↔ Forall P l.
Proof. induction l as [|x l IH]; cbn; [by split|]. rewrite Forall_cons, IH. done. Qed.

Lemma encode_ref_delim : self_delim wf_ref encode_ref.
Proof.
  apply (self_delim_fields _ _ (λ r, (type_str (ref_kind r), id_str (ref_id r)))); [unfold encode_ref; delim_fields; by intros ? []|].
  by intros [[] []] [[] []] [= -> ->].
Qed.
#[export] Hint Resolve encode_ref_delim : delim.

(** The encoding of a value determines it, by induction on the value. *)
Lemma encode_value_delim : self_delim wf_value encode_value.
Proof.
  intros v. induction v as [|b|z|z|s|s|s|l IH|m IH] using RuntimeValue_rect'; intros w r s'; destruct w as [|c|y|y|t|t|t|k|n]; cbn [encode_value]; intros Hv Hw E; try discriminate E; apply (f_equal (drop 1)) in E; cbn [drop app] in E.
  - done.
  - destruct b, c; simplify_eq/=; done.
  - apply i64_delim in E as [-> ->]; done.
  - apply u64_delim in E as [-> ->]; done.
  - apply text_delim in E as [-> ->]; done.
  - apply text_delim in E as [-> ->]; done.
  - apply text_delim in E as [-> ->]; done.
  - destruct Hv as [Ll Hl], Hw as [Lk Hk]. rewrite foldr_and in Hl, Hk. unfold counted in E. rewrite <-!app_assoc in E. apply u64_delim in E as [Elen E]; [|split; [apply len_nonneg|done]..].
    assert (length l = length k) as El by (unfold len in Elen; lia). clear Ll Lk Elen. enough (l = k ∧ r = s') as [-> ->] by done. revert k Hk El E.
    induction IH as [|v l Hv _ IHl]; intros [|w k] Hk El E; try done. cbn [flat_map] in E. rewrite <-!app_assoc in E. apply Forall_cons in Hl as [Wv Hl], Hk as [Ww Hk].
    apply Hv in E as [-> E]; [|done..]. apply IHl in E as [-> ->]; [done..|]. cbn in El. lia.
  - destruct Hv as [Ll Hl], Hw as [Lk Hk]. rewrite foldr_and in Hl, Hk. unfold counted in E. rewrite <-!app_assoc in E. apply u64_delim in E as [Elen E]; [|split; [apply len_nonneg|done]..].
    assert (length m = length n) as El by (unfold len in Elen; lia). clear Ll Lk Elen. enough (m = n ∧ r = s') as [-> ->] by done. revert n Hk El E.
    induction IH as [|[x v] m Hv _ IHm]; intros [|[y w] n] Hk El E; try done. cbn [flat_map fst snd] in E. rewrite <-!app_assoc in E. apply Forall_cons in Hl as [[Wx Wv] Hl], Hk as [[Wy Ww] Hk]. cbn in *.
    apply text_delim in E as [-> E]; [|done..]. apply Hv in E as [-> E]; [|done..]. apply IHm in E as [-> ->]; [done..|]. lia.
Qed.
#[export] Hint Resolve encode_value_delim : delim.
Lemma encode_property_delim : self_delim wf_property (λ kv, text kv.1 ++ encode_value kv.2).
Proof.
  apply (self_delim_fields _ _ (λ kv, (kv.1, kv.2))); [delim_fields; by intros ? []|]. by intros [] [] [= -> ->].
Qed.
Lemma encode_properties_delim : self_delim wf_properties encode_properties.
Proof. apply counted_delim, encode_property_delim. Qed.
#[export] Hint Resolve encode_properties_delim : delim.

Definition wf_window (valid_from : Z) (valid_to : option Z) : Prop := is_u64 valid_from ∧ option_all is_u64 valid_to.
Definition wf_record (r : RuntimeRecord) : Prop := wf_ref (record_reference r) ∧ wf_window (record_valid_from r) (record_valid_to r) ∧ wf_properties (record_properties r).
Definition wf_relation (r : RuntimeRelation) : Prop :=
  wf_ref (relation_reference r) ∧ wf_ref (relation_from r) ∧ wf_ref (relation_to r) ∧ wf_window (relation_valid_from r) (relation_valid_to r) ∧ wf_properties (relation_properties r).
Definition wf_event (e : RuntimeEvent) : Prop := wf_type (event_kind e) ∧ option_all wf_ref (event_subject e) ∧ wf_properties (event_properties e).
Definition wf_vector_value (v : VectorValue) : Prop :=
  match v with
  | Dense values => short is_u32 values
  | Sparse d indices values => is_u32 d ∧ short is_u32 indices ∧ short is_u32 values
  | MultiDense d vectors => is_u32 d ∧ short (short is_u32) vectors
  end.
Definition wf_provenance (p : EmbeddingProvenance) : Prop :=
  is_text (source_digest p) ∧ is_text (embedding_model p) ∧ is_text (model_digest p) ∧ is_u32 (provenance_dimensions p) ∧ wf_properties (generation_parameters p).
Definition wf_vector (v : RuntimeVector) : Prop :=
  wf_ref (vector_reference v) ∧ wf_ref (vector_subject v) ∧ is_text (collection_id (vector_collection v)) ∧ is_text (vector_name (vector_collection v)) ∧ is_text (vector_field v)
  ∧ wf_window (vector_valid_from v) (vector_valid_to v) ∧ wf_vector_value (vector_value v) ∧ option_all wf_provenance (vector_provenance v) ∧ wf_properties (vector_properties v).
Definition wf_series_value (v : SeriesValue) : Prop :=
  match v with SInteger z => is_i64 z | SUnsigned z => is_u64 z | SDecimal s | SString s => is_text s | SBool _ => True end.
Definition wf_sample (s : RuntimeSeriesSample) : Prop :=
  wf_ref (sample_reference s) ∧ wf_ref (sample_series s) ∧ is_u64 (sample_observed_at s) ∧ wf_series_value (sample_value s) ∧ wf_properties (sample_properties s).
Definition wf_point (p : GeoPoint) : Prop := is_u64 (longitude p) ∧ is_u64 (latitude p).
Definition wf_geo_value (v : GeoValue) : Prop := match v with Point p => wf_point p | BoundingBox sw ne => wf_point sw ∧ wf_point ne end.
Definition wf_geo (g : RuntimeGeo) : Prop :=
  wf_ref (geo_reference g) ∧ wf_ref (geo_subject g) ∧ is_text (geo_field g) ∧ wf_window (geo_valid_from g) (geo_valid_to g) ∧ wf_geo_value (geo_value g) ∧ wf_properties (geo_properties g).
Definition wf_object (o : ObjectReference) : Prop :=
  wf_ref (object_reference o) ∧ option_all wf_ref (object_subject o) ∧ is_text (object_sha256 o) ∧ is_u64 (object_length o) ∧ is_text (media_type o)
  ∧ is_text (receipt_backend (receipt o)) ∧ is_text (receipt_key (receipt o)) ∧ option_all is_text (receipt_version (receipt o)) ∧ option_all is_text (receipt_etag (receipt o))
  ∧ wf_properties (object_properties o).
Definition wf_retirement (r : RuntimeRetirement) : Prop := wf_ref (retired_reference r) ∧ is_u64 (effective_at r).

(** Close the conditions of the fields from the conjunction of a [wf] predicate. *)
Ltac from_wf P := let a := fresh in intros a; unfold P, wf_window; tauto.

Lemma encode_record_delim : self_delim wf_record encode_record.
Proof.
  eapply self_delim_fields; [unfold encode_record; delim_fields; from_wf wf_record|]. intros [] [] E. cbn in E. by simplify_eq.
Qed.
Lemma encode_relation_delim : self_delim wf_relation encode_relation.
Proof.
  eapply self_delim_fields; [unfold encode_relation; delim_fields; from_wf wf_relation|]. intros [] [] E. cbn in E. by simplify_eq.
Qed.
Lemma encode_event_delim : self_delim wf_event encode_event.
Proof.
  eapply self_delim_fields; [unfold encode_event; delim_fields; from_wf wf_event|]. intros [[] ? ?] [[] ? ?] E. cbn in E. by simplify_eq.
Qed.
Lemma encode_f32s_delim : self_delim (short is_u32) encode_f32s.
Proof. apply counted_delim, u32_delim. Qed.
#[export] Hint Resolve encode_f32s_delim : delim.
Lemma encode_vector_value_delim : self_delim wf_vector_value encode_vector_value.
Proof.
  intros [v|d i v|d v] [w|e j w|e w] r s Hv Hw E; cbn [encode_vector_value] in E; try discriminate E; apply (f_equal (drop 1)) in E; cbn [drop app] in E; cbn [wf_vector_value] in *.
  - apply encode_f32s_delim in E as [-> ->]; done.
  - destruct Hv as (? & ? & ?), Hw as (? & ? & ?). rewrite <-!app_assoc in E. apply u32_delim in E as [-> E]; [|done..]. apply (counted_delim _ _ u32_delim) in E as [-> E]; [|done..].
    apply encode_f32s_delim in E as [-> ->]; done.
  - destruct Hv, Hw. rewrite <-!app_assoc in E. apply u32_delim in E as [-> E]; [|done..]. apply (counted_delim _ _ encode_f32s_delim) in E as [-> E]; done.
Qed.
Lemma encode_provenance_delim : self_delim wf_provenance encode_provenance.
Proof.
  eapply self_delim_fields; [unfold encode_provenance; delim_fields; try from_wf wf_provenance|]. intros [] [] E. cbn in E. by simplify_eq.
Qed.
#[export] Hint Resolve encode_vector_value_delim encode_provenance_delim : delim.
Lemma encode_vector_delim : self_delim wf_vector encode_vector.
Proof.
  eapply self_delim_fields; [unfold encode_vector; delim_fields; from_wf wf_vector|]. intros [? ? [] ? ? ? ? ? ?] [? ? [] ? ? ? ? ? ?] E. cbn in E. by simplify_eq.
Qed.
Lemma encode_series_value_delim : self_delim wf_series_value encode_series_value.
Proof.
  intros [z|z|t|b|t] [y|y|u|c|u] r s Hv Hw E; cbn [encode_series_value] in E; try discriminate E; apply (f_equal (drop 1)) in E; cbn [drop app] in E; cbn [wf_series_value] in *.
  - apply i64_delim in E as [-> ->]; done.
  - apply u64_delim in E as [-> ->]; done.
  - apply text_delim in E as [-> ->]; done.
  - destruct b, c; simplify_eq/=; done.
  - apply text_delim in E as [-> ->]; done.
Qed.
#[export] Hint Resolve encode_series_value_delim : delim.
Lemma encode_sample_delim : self_delim wf_sample encode_sample.
Proof.
  eapply self_delim_fields; [unfold encode_sample; delim_fields; from_wf wf_sample|]. intros [] [] E. cbn in E. by simplify_eq.
Qed.
Lemma encode_point_delim : self_delim wf_point (λ p, encode_f64 (longitude p) ++ encode_f64 (latitude p)).
Proof.
  eapply self_delim_fields; [unfold encode_f64; delim_fields; from_wf wf_point|]. intros [] [] E. cbn in E. by simplify_eq.
Qed.
Lemma encode_geo_value_delim : self_delim wf_geo_value encode_geo_value.
Proof.
  intros [p|sw ne] [q|sw' ne'] r s Hv Hw E; cbn [encode_geo_value] in E; try discriminate E; apply (f_equal (drop 1)) in E; cbn [drop app] in E; cbn [wf_geo_value] in *.
  - apply encode_point_delim in E as [-> ->]; done.
  - destruct Hv, Hw. rewrite (app_assoc (encode_f64 (longitude sw))), (app_assoc (encode_f64 (longitude sw'))), <-!(app_assoc (encode_f64 _ ++ encode_f64 _)) in E.
    apply encode_point_delim in E as [-> E]; [|done..]. apply encode_point_delim in E as [-> ->]; done.
Qed.
#[export] Hint Resolve encode_geo_value_delim : delim.
Lemma encode_geo_delim : self_delim wf_geo encode_geo.
Proof.
  eapply self_delim_fields; [unfold encode_geo; delim_fields; from_wf wf_geo|]. intros [] [] E. cbn in E. by simplify_eq.
Qed.
Lemma encode_object_delim : self_delim wf_object encode_object.
Proof.
  eapply self_delim_fields; [unfold encode_object; delim_fields; from_wf wf_object|]. intros [? ? ? ? ? [] ?] [? ? ? ? ? [] ?] E. cbn in E. by simplify_eq.
Qed.
Lemma encode_retirement_delim : self_delim wf_retirement encode_retirement.
Proof.
  eapply self_delim_fields; [unfold encode_retirement; delim_fields; try from_wf wf_retirement|]. intros [] [] E. cbn in E. by simplify_eq.
Qed.

(** ** Schemas *)

Definition wf_type_key {V} (P : V → Prop) (entry : RuntimeType * V) : Prop := wf_type entry.1 ∧ P entry.2.
Definition wf_type_set (l : list (RuntimeType * unit)) : Prop := short (wf_type_key always) l.
Definition wf_text_key {V} (entry : string * V) : Prop := is_text entry.1.
Definition wf_schemas (p : PropertySchemas) : Prop := short wf_text_key p.
Definition wf_record_schema (s : RuntimeRecordSchema) : Prop := wf_schemas (record_schemas s) ∧ short wf_text_key (unique_properties s).
Definition wf_relation_schema (s : RuntimeRelationSchema) : Prop :=
  wf_type_set (from_types s) ∧ wf_type_set (to_types s) ∧ wf_schemas (relation_schemas s) ∧ option_all is_u64 (max_outgoing s) ∧ option_all is_u64 (max_incoming s).
Definition wf_event_schema (s : RuntimeEventSchema) : Prop := wf_type_set (subject_types s) ∧ wf_schemas (event_schemas s).
Definition wf_table (t : RuntimeTableSchema) : Prop := wf_schemas (table_schemas t).
Definition wf_domain (d : RuntimeDomainSchema) : Prop := is_text (domain_title d) ∧ is_text (domain_description d) ∧ option_all wf_type (domain_parent d).
Definition wf_tag (t : RuntimeTagSchema) : Prop := is_text (tag_title t) ∧ is_text (tag_description t).
Definition wf_category (c : RuntimeCategorySchema) : Prop :=
  is_text (category_title c) ∧ is_text (category_description c) ∧ short (wf_type_key wf_tag) (category_tags c).
Definition wf_tag_ref (r : RuntimeTagRef * unit) : Prop := wf_type (tag_category r.1) ∧ wf_type (tag_name r.1).
Definition wf_organisation (o : RuntimeEstateOrganisation) : Prop :=
  short (wf_type_key wf_domain) (domains o) ∧ short (wf_type_key wf_category) (categories o) ∧ short (wf_type_key wf_type) (kind_domains o)
  ∧ short (wf_type_key wf_type) (collection_domains o) ∧ short (wf_type_key (short wf_tag_ref)) (kind_tags o).
Definition wf_registry (r : RuntimeSchemaRegistry) : Prop :=
  is_u64 (revision r) ∧ is_text (migration r) ∧ short (wf_type_key wf_record_schema) (records r) ∧ short (wf_type_key wf_relation_schema) (relations r)
  ∧ short (wf_type_key wf_event_schema) (events r) ∧ short (wf_type_key wf_table) (tables r) ∧ wf_organisation (organisation r).

Ltac from_keyed P := let a := fresh in intros a; unfold wf_type_key, P; tauto.
Ltac same_entry := let E := fresh in intros [[] []] [[] []] E; cbn in E; by simplify_eq.

Lemma encode_schemas_delim : self_delim wf_schemas encode_property_schemas.
Proof.
  apply counted_delim. eapply self_delim_fields; [delim_fields; try done|]. intros [? []] [? []] E. cbn in E. by simplify_eq.
Qed.
Lemma encode_type_set_delim : self_delim wf_type_set encode_type_set.
Proof.
  apply counted_delim. eapply self_delim_fields; [delim_fields; by intros ? []|]. intros [[] []] [[] []] E. cbn in E. by simplify_eq.
Qed.
Lemma encode_text_key_delim : self_delim wf_text_key (λ property : string * unit, text property.1).
Proof.
  eapply self_delim_fields; [apply det_text; done|]. intros [? []] [? []] E. cbn in E. by simplify_eq.
Qed.
#[export] Hint Resolve encode_schemas_delim encode_type_set_delim encode_text_key_delim : delim.
Lemma encode_record_schema_delim : self_delim (wf_type_key wf_record_schema) encode_record_schema.
Proof. eapply self_delim_fields; [unfold encode_record_schema; delim_fields; try from_keyed wf_record_schema|same_entry]. Qed.
Lemma encode_relation_schema_delim : self_delim (wf_type_key wf_relation_schema) encode_relation_schema.
Proof. eapply self_delim_fields; [unfold encode_relation_schema; delim_fields; try from_keyed wf_relation_schema|same_entry]. Qed.
Lemma encode_event_schema_delim : self_delim (wf_type_key wf_event_schema) encode_event_schema.
Proof. eapply self_delim_fields; [unfold encode_event_schema; delim_fields; try from_keyed wf_event_schema|same_entry]. Qed.
Lemma encode_table_delim : self_delim (wf_type_key wf_table) encode_table.
Proof. eapply self_delim_fields; [unfold encode_table; delim_fields; try from_keyed wf_table|same_entry]. Qed.
Lemma encode_domain_delim : self_delim (wf_type_key wf_domain) encode_domain.
Proof.
  eapply self_delim_fields; [unfold encode_domain; delim_fields; try from_keyed wf_domain|].
  - intros [k [t d [p|]]] (_ & _ & _ & Hp); cbn in *; done.
  - intros [[] [? ? [[]|]]] [[] [? ? [[]|]]] E; cbn in E; by simplify_eq.
Qed.
Lemma encode_tag_delim : self_delim (wf_type_key wf_tag) (λ tag : RuntimeType * RuntimeTagSchema, text (type_str tag.1) ++ text (tag_title tag.2) ++ text (tag_description tag.2)).
Proof. eapply self_delim_fields; [delim_fields; from_keyed wf_tag|same_entry]. Qed.
#[export] Hint Resolve encode_tag_delim : delim.
Lemma encode_category_delim : self_delim (wf_type_key wf_category) encode_category.
Proof. eapply self_delim_fields; [unfold encode_category; delim_fields; try from_keyed wf_category|same_entry]. Qed.
Lemma encode_memberships_delim : self_delim (short (wf_type_key wf_type)) encode_memberships.
Proof. apply counted_delim. eapply self_delim_fields; [delim_fields; from_keyed wf_type|same_entry]. Qed.
Lemma encode_tag_ref_delim : self_delim wf_tag_ref (λ r : RuntimeTagRef * unit, text (type_str (tag_category r.1)) ++ text (type_str (tag_name r.1))).
Proof. eapply self_delim_fields; [delim_fields; from_wf wf_tag_ref|]. intros [[[] []] []] [[[] []] []] E. cbn in E. by simplify_eq. Qed.
#[export] Hint Resolve encode_tag_ref_delim : delim.
Lemma encode_kind_tags_delim : self_delim (wf_type_key (short wf_tag_ref)) encode_kind_tags.
Proof.
  eapply self_delim_fields; [unfold encode_kind_tags; delim_fields; intros a; unfold wf_type_key; tauto|]. intros [[] ?] [[] ?] E. cbn in E. by simplify_eq.
Qed.
#[export] Hint Resolve encode_record_schema_delim encode_relation_schema_delim encode_event_schema_delim encode_table_delim encode_domain_delim encode_category_delim encode_memberships_delim encode_kind_tags_delim : delim.

(** What can follow a schema: anything that does not start with the marker. *)
Definition unmarked (r : list byte) : Prop := head r ≠ Some xff.

Lemma encode_organisation_delim : self_delim wf_organisation encode_organisation.
Proof.
  eapply self_delim_fields; [unfold encode_organisation; apply determines_cons; eapply determines_app; [apply determines_const|]|].
  - delim_fields; from_wf wf_organisation.
  - intros [] [] E. cbn in E. by simplify_eq.
Qed.
Lemma is_default_eq o : is_default o = true → o = default_organisation.
Proof. destruct o as [[|] [|] [|] [|] [|]]; done. Qed.
Lemma organisation_determined :
  determines unmarked wf_organisation (λ o, if is_default o then [] else encode_organisation o) id.
Proof.
  intros a b r s Ha Hb Hr Hs E. destruct (is_default a) eqn:Ea, (is_default b) eqn:Eb.
  - apply is_default_eq in Ea, Eb. by subst.
  - exfalso. apply Hr. cbn [app] in E. rewrite E. done.
  - exfalso. apply Hs. cbn [app] in E. rewrite <-E. done.
  - apply encode_organisation_delim in E; done.
Qed.
Lemma encode_schema_determines : determines unmarked wf_registry encode_schema id.
Proof.
  eapply determines_obs; [unfold encode_schema; do 5 (eapply determines_app; [delim_field; from_wf wf_registry|]); eapply determines_app; [apply determines_const|];
    eapply determines_app; [delim_field; from_wf wf_registry|]|].
  - instantiate (1 := organisation). intros a b r s Ha Hb. apply organisation_determined; [unfold wf_registry in Ha; tauto|unfold wf_registry in Hb; tauto].
  - intros [] [] E. cbn in E. by simplify_eq.
Qed.

(** ** Mutations *)

Definition wf_mutation (m : RuntimeMutation) : Prop :=
  match m with
  | MClaim c => wf_claim c ∧ len (Claim.canonical_bytes c) < 2 ^ 64
  | MSchema r => wf_registry r
  | MRecord r => wf_record r
  | MRelation r => wf_relation r
  | MEvent e => wf_event e
  | MVector v => wf_vector v
  | MSeriesSample s => wf_sample s
  | MGeo g => wf_geo g
  | MObject o => wf_object o
  | MRetire r => wf_retirement r
  end.
Lemma encode_mutation_determines : determines unmarked wf_mutation encode_mutation id.
Proof.
  intros [c|s|r|r|e|v|s|g|o|t] [c'|s'|r'|r'|e'|v'|s'|g'|o'|t'] r1 r2 Ha Hb H1 H2 E; cbn [encode_mutation] in E; try discriminate E; apply (f_equal (drop 1)) in E; cbn [drop app] in E; cbn [wf_mutation] in *; cbn [id].
  - destruct Ha as [Wc Lc], Hb as [Wc' Lc']. rewrite <-!app_assoc in E. apply u64_delim in E as [El E]; [|split; [apply len_nonneg|done]..].
    apply app_inj_1 in E as [E ->]; [|unfold len in El; lia]. apply Claim.canonical_bytes_inj in E as ->; done.
  - apply encode_schema_determines in E as [E ->]; [|done..]. cbn in E. by subst.
  - apply encode_record_delim in E as [-> ->]; done.
  - apply encode_relation_delim in E as [-> ->]; done.
  - apply encode_event_delim in E as [-> ->]; done.
  - apply encode_vector_delim in E as [-> ->]; done.
  - apply encode_sample_delim in E as [-> ->]; done.
  - apply encode_geo_delim in E as [-> ->]; done.
  - apply encode_object_delim in E as [-> ->]; done.
  - apply encode_retirement_delim in E as [-> ->]; done.
Qed.
(** A mutation starts with its tag, so a mutation may follow a schema. *)
Lemma encode_mutation_unmarked m r : unmarked (encode_mutation m ++ r).
Proof. by destruct m. Qed.
Lemma flat_mutations_unmarked l : unmarked (flat_map encode_mutation l ++ []).
Proof. destruct l as [|m l]; [done|]. cbn [flat_map]. rewrite <-app_assoc. apply encode_mutation_unmarked. Qed.
Lemma flat_mutations_inj l k : Forall wf_mutation l → Forall wf_mutation k → flat_map encode_mutation l = flat_map encode_mutation k → length l = length k → l = k.
Proof.
  revert k. induction l as [|m l IH]; intros [|n k] Hl Hk E Hlen; try done. apply Forall_cons in Hl as [Hm Hl], Hk as [Hn Hk]. cbn [flat_map] in E.
  pose proof (flat_mutations_unmarked l) as Ul. pose proof (flat_mutations_unmarked k) as Uk. rewrite app_nil_r in Ul, Uk. apply encode_mutation_determines in E as [E1 E]; [|done..].
  cbn in E1, Hlen. f_equal; [done|]. apply IH; [done..|lia].
Qed.

(** * Identities *)

Definition wf_commit (c : RuntimeCommit) : Prop :=
  is_text (scope_str (commit_scope c)) ∧ is_u64 (commit_at c) ∧ is_text (commit_actor c) ∧ is_u64 (expected_cursor c) ∧ short wf_mutation (mutations c).
Definition wf_change (c : RuntimeChange) : Prop :=
  is_u64 (change_cursor c) ∧ is_text (change_commit_id c) ∧ is_u64 (change_ordinal c) ∧ is_text (scope_str (change_scope c)) ∧ is_u64 (change_at c) ∧ is_text (change_actor c)
  ∧ wf_mutation (change_mutation c) ∧ option_all is_text (change_previous c).

Lemma commit_bytes_inj a b : wf_commit a → wf_commit b → commit_bytes a = commit_bytes b → a = b.
Proof.
  destruct a as [[s] at_ ac ec ms], b as [[s'] at' ac' ec' ms']. unfold commit_bytes, wf_commit, counted; cbn [commit_scope commit_at commit_actor expected_cursor mutations scope_str]. intros (W1 & W2 & W3 & W4 & W5 & W6) (V1 & V2 & V3 & V4 & V5 & V6) E. apply app_inv_head in E.
  apply text_delim in E as [-> E]; [|done..]. apply u64_delim in E as [-> E]; [|done..]. apply text_delim in E as [-> E]; [|done..]. apply u64_delim in E as [-> E]; [|done..].
  apply u64_delim in E as [El E]; [|split; [apply len_nonneg|done]..]. apply flat_mutations_inj in E as ->; [done..|]. unfold len in El. lia.
Qed.
(** The bytes of a change determine everything but its digest. *)
Definition undigested (c : RuntimeChange) : RuntimeChange :=
  {| change_cursor := change_cursor c; change_commit_id := change_commit_id c; change_ordinal := change_ordinal c; change_scope := change_scope c; change_at := change_at c;
     change_actor := change_actor c; change_mutation := change_mutation c; change_previous := change_previous c; change_digest := "" |}.
Lemma change_bytes_inj a b : wf_change a → wf_change b → change_bytes a = change_bytes b → undigested a = undigested b.
Proof.
  destruct a as [cu ci o [s] at_ ac m p d], b as [cu' ci' o' [s'] at' ac' m' p' d']. unfold change_bytes, wf_change, undigested;
    cbn [change_cursor change_commit_id change_ordinal change_scope change_at change_actor change_mutation change_previous scope_str].
  intros (W1 & W2 & W3 & W4 & W5 & W6 & W7 & W8) (V1 & V2 & V3 & V4 & V5 & V6 & V7 & V8) E. apply app_inv_head in E.
  apply u64_delim in E as [-> E]; [|done..]. apply text_delim in E as [-> E]; [|done..]. apply u64_delim in E as [-> E]; [|done..]. apply text_delim in E as [-> E]; [|done..].
  apply u64_delim in E as [-> E]; [|done..]. apply text_delim in E as [-> E]; [|done..].
  apply encode_mutation_determines in E as [E1 E]; [|done|done|by destruct p|by destruct p']. cbn in E1. subst m'. rewrite <-(app_nil_r (optional_text p)), <-(app_nil_r (optional_text p')) in E.
  apply optional_text_delim in E as [-> _]; done.
Qed.
