(* ===== verification/RuntimeLog.v ===== *)
(** The authenticated log of runtime changes ([rrd-core]: authenticated_log.rs, runtime.rs).

    [append_change] and [verify_change] connect the accumulator to the changes: the leaf of a
    change is its canonical encoding, its position its cursor.  Because the encoding determines the
    change (RuntimeBytes) and the Merkle tree its leaves (AuthLog), a reader that holds a root and a
    verified change holds the change that was committed at that cursor. *)

From S2P Require Import Prelude Machine BTree Ident Text Digest Merkle AuthLog Claim RuntimeTypes RuntimeSchema RuntimeData RuntimeBytes.
Open Scope Z_scope.

Section RuntimeLog.
Context `{Sha2}.

(** core/authenticated_log.rs:234-239 RuntimeLogAccumulator::append_change *)
Definition append_change (self : RuntimeLogAccumulator) (change : RuntimeChange) : result Error (RuntimeLogAccumulator * list RuntimeMerkleNode) :=
  if negb (verify_digest change) || negb (bool_decide (checked_sub (change_cursor change) 1 = Some (tree_size self)))
  then AuthLog.invalid "runtime change is not the next valid accumulator leaf"
  else append self (authenticated_log_bytes change).

(** core/authenticated_log.rs:69-74 RuntimeInclusionProof::verify_change *)
Definition verify_change (self : RuntimeInclusionProof) (change : RuntimeChange) (expected_root : string) : result Error unit :=
  if negb (verify_digest change) || negb (bool_decide (checked_sub (change_cursor change) 1 = Some (proof_leaf_index self)))
  then AuthLog.invalid "runtime change does not match the inclusion-proof leaf"
  else verify self (authenticated_log_bytes change) expected_root.

(** The log of a sequence of changes: every change appended in turn, the nodes it creates stored. *)
Definition change_log (log : list RuntimeChange) : result Error (RuntimeLogAccumulator * gmap (Z * Z) string) :=
  try_fold (λ '(acc, stored) c, let? (acc, created) := append_change acc c in Ok (acc, store_nodes stored created)) (RuntimeLogAccumulator_new, ∅) log.

(** The changes of the log are numbered from one, and each carries its own digest. *)
Definition numbered (log : list RuntimeChange) : Prop := ∀ i c, log !! i = Some c → verify_digest c = true ∧ change_cursor c = Z.of_nat i + 1.
End RuntimeLog.

Section Theorems.
Context `{Sha2Laws}.

Lemma numbered_snoc log c : numbered (log ++ [c]) ↔ numbered log ∧ verify_digest c = true ∧ change_cursor c = len log + 1.
Proof.
  unfold numbered, len. split.
  - intros Hn. split; [intros i x Hx; apply Hn; by apply lookup_app_l_Some|]. apply Hn. by rewrite list_lookup_middle.
  - intros [Hn Hc] i x Hx. apply lookup_app_Some in Hx as [Hx|[Hi Hx]]; [by apply Hn|]. apply list_lookup_singleton_Some in Hx as [Hx ->].
    replace i with (length log) by lia. done.
Qed.
Lemma guard_cursor b cursor index : negb b || negb (bool_decide (checked_sub cursor 1 = Some index)) = false ↔ b = true ∧ cursor = index + 1 ∧ 1 ≤ cursor.
Proof.
  rewrite orb_false_iff, !negb_false_iff, bool_decide_eq_true, checked_sub_Some. intuition lia.
Qed.

(** On a numbered sequence the log of the changes is the log of their bytes, and no other sequence is accepted. *)
Lemma change_log_numbered log : len log < 2 ^ 64 → numbered log → change_log log = log_run (map authenticated_log_bytes log).
Proof.
  induction log as [|c log IH] using rev_ind; intros Hlen Hn; [done|]. rewrite len_app in Hlen. change (len [c]) with 1 in Hlen. apply numbered_snoc in Hn as (Hn & Hd & Hc).
  specialize (IH ltac:(lia) Hn). destruct (log_run_spec (map authenticated_log_bytes log)) as (st & Hrun & _); [rewrite len_map; lia|]. rewrite Hrun in IH.
  unfold change_log, log_run in *. rewrite map_app, !try_fold_app, IH, Hrun. cbn [map try_fold]. unfold append_change. cbn [tree_size acc_of].
  rewrite (proj2 (guard_cursor _ _ _)); [done|]. rewrite len_map. pose proof (len_nonneg log). split; [done|lia].
Qed.
Lemma change_log_accepts log r : len log < 2 ^ 64 → change_log log = Ok r → numbered log.
Proof.
  revert r. induction log as [|c log IH] using rev_ind; intros r Hlen Hr; [by intros ?|]. rewrite len_app in Hlen. change (len [c]) with 1 in Hlen.
  unfold change_log in Hr. rewrite try_fold_app in Hr. fold (change_log log) in Hr. destruct (change_log log) as [p|] eqn:El; [|done].
  assert (numbered log) as Hn by (apply (IH p); [lia|done]). rewrite change_log_numbered in El by (done || lia).
  destruct (log_run_spec (map authenticated_log_bytes log)) as (st & Hrun & _); [rewrite len_map; lia|]. rewrite Hrun in El. injection El as <-.
  apply numbered_snoc. split; [done|]. cbn [try_fold] in Hr. unfold append_change in Hr. cbn [tree_size acc_of] in Hr. destruct (negb (verify_digest c) || _) eqn:Eg; [done|].
  apply guard_cursor in Eg as (Hd & Hcur & _). by rewrite len_map in Hcur.
Qed.

(** What is hashed for a log of changes and for a verification: the digests the changes carry and
    the nodes of the tree. *)
Definition change_inputs (log : list RuntimeChange) : list (list byte) := log_inputs (map authenticated_log_bytes log).

Lemma verify_change_ok proof c root : verify_change proof c root = Ok tt ↔
  verify_digest c = true ∧ change_cursor c = proof_leaf_index proof + 1 ∧ 1 ≤ change_cursor c ∧ verify proof (authenticated_log_bytes c) root = Ok tt.
Proof.
  unfold verify_change. destruct (negb (verify_digest c) || _) eqn:Eg.
  - split; [done|]. intros (? & ? & ? & _). rewrite (proj2 (guard_cursor _ _ _)) in Eg; done.
  - apply guard_cursor in Eg as (? & ? & ?). tauto.
Qed.
(** Two changes with the same bytes that both carry their digest are the same change. *)
Lemma digested_inj a b : wf_change a → wf_change b → verify_digest a = true → verify_digest b = true → change_bytes a = change_bytes b → a = b.
Proof.
  intros Wa Wb Ha Hb E. apply change_bytes_inj in E as Eu; [|done..]. unfold verify_digest in *. apply bool_decide_eq_true in Ha, Hb. rewrite E, Hb in Ha.
  destruct a, b. unfold undigested in Eu. cbn in *. congruence.
Qed.

Lemma inclusion_proof_index acc i node_at proof : inclusion_proof acc i node_at = Ok proof → proof_leaf_index proof = i.
Proof.
  unfold inclusion_proof. destruct (AuthLog.validate acc); [|done]. destruct (_ <=? _); [done|]. destruct (build_path _ _ _ _ _); [|done]. by intros [= <-].
Qed.


(** C19: the log accepts exactly the sequences numbered from one whose changes carry their digests,
    and every change of an accepted log has an inclusion proof, built from the nodes the appends
    stored, with which [verify_change] accepts it against the accumulator's root. *)
Theorem logged_changes_are_provable log :
  len log < 2 ^ 64 →
  ((∃ acc stored, change_log log = Ok (acc, stored)) ↔ numbered log)
  ∧ ∀ acc stored i c, change_log log = Ok (acc, stored) → log !! i = Some c →
      ∃ proof, inclusion_proof acc (Z.of_nat i) (node_of stored) = Ok proof ∧ verify_change proof c (root acc) = Ok tt.
Proof.
  intros Hlen. split; [split|].
  - intros (acc & stored & Hlog). by eapply change_log_accepts.
  - intros Hn. rewrite change_log_numbered by done. destruct (log_run_spec (map authenticated_log_bytes log)) as (st & Hrun & _); [by rewrite len_map|]. eauto.
  - intros acc stored i c Hlog Hc. apply change_log_accepts in Hlog as Hn; [|done]. rewrite change_log_numbered in Hlog by done.
    destruct (every_leaf_has_a_verified_proof (map authenticated_log_bytes log) acc stored i (authenticated_log_bytes c) ltac:(by rewrite len_map) Hlog) as (proof & Hp & Hv); [by rewrite list_lookup_fmap, Hc|].
    exists proof. split; [done|]. apply verify_change_ok. destruct (Hn i c Hc) as [Hd Hcur]. apply inclusion_proof_index in Hp. rewrite Hp. split; [done|]. split; [done|]. split; [lia|done].
Qed.

(** The identity of a commit binds it: two commits with the same digest are the same commit, or
    their canonical bytes are an explicit SHA-256 collision. *)
Theorem commit_identity_binds a b : wf_commit a → wf_commit b → commit_digest a = commit_digest b →
  a = b ∨ collide (commit_bytes a) (commit_bytes b).
Proof.
  intros Wa Wb E. apply sha256_hex_binds in E as [E|E]; [left; by apply commit_bytes_inj|by right].
Qed.
End Theorems.

(** * Two committed changes, over the toy digest *)

Module SampleLog.
#[local] Existing Instance toy_sha2.
#[local] Existing Instance toy_sha2_laws.
Definition note (id : string) : RuntimeMutation :=
  MRecord {| record_reference := {| ref_kind := MkRuntimeType "note"; ref_id := MkRuntimeId id |}; record_valid_from := 5; record_valid_to := None;
             record_properties := [("body", VString "text")] |}.
Definition commit : RuntimeCommit := {| commit_scope := MkScopeId "scope"; commit_at := 9; commit_actor := "writer"; expected_cursor := 0; mutations := [note "one"; note "two"] |}.
Definition first : RuntimeChange := committed 1 commit (commit_digest commit) 0 (note "one") None.
Definition second : RuntimeChange := committed 2 commit (commit_digest commit) 1 (note "two") (Some (change_digest first)).
Definition log : list RuntimeChange := [first; second].
Definition run : RuntimeLogAccumulator * gmap (Z * Z) string := match change_log log with Ok r => r | Err _ => (RuntimeLogAccumulator_new, ∅) end.
Definition proof : RuntimeInclusionProof :=
  match inclusion_proof run.1 1 (node_of run.2) with Ok p => p | Err _ => {| proof_version := 0; proof_tree_size := 0; proof_leaf_index := 0; proof_path := [] |} end.

Lemma run_eq : change_log log = Ok (run.1, run.2).
Proof. vm_compute. reflexivity. Qed.
Lemma log_wf : Forall wf_change log.
Proof. repeat constructor; vm_compute; congruence. Qed.
Lemma second_wf : wf_change second.
Proof. apply (Forall_lookup_1 _ _ 1%nat _ log_wf). reflexivity. Qed.
Lemma commit_wf : wf_commit commit.
Proof. repeat constructor; vm_compute; congruence. Qed.

Lemma logged_changes_are_provable_witness :
  ∃ p, inclusion_proof run.1 (Z.of_nat 1) (node_of run.2) = Ok p ∧ verify_change p second (root run.1) = Ok tt.
Proof.
  exact (proj2 (logged_changes_are_provable log ltac:(vm_compute; reflexivity)) run.1 run.2 1%nat second run_eq eq_refl).
Defined.
Lemma commit_identity_binds_witness : commit = commit ∨ collide (commit_bytes commit) (commit_bytes commit).
Proof. exact (commit_identity_binds commit commit commit_wf commit_wf eq_refl). Defined.
End SampleLog.
