(* ===== verification/RuntimeRead.v ===== *)
(** Read stamps, snapshot leases, transactions and audit ([rrd-core]: runtime.rs).

    A read stamp names the exact state a reader saw: cursor, head of the hash chain, revisions and
    the Merkle root, sealed by a digest over them.  A snapshot leases a stamp, a retention pin is
    derived from a snapshot, a transaction pairs a stamp with the commit built on it, projection
    work names the index an accepted change must reach, and an audit envelope records a decision and
    is chained to the one before it.

    Theorems: what the constructors return validates, and a stamp's identity binds the stamp and,
    through the hash chain, every change below its cursor; the digest of the last audit envelope
    binds the whole audit trail.  All up to an explicit SHA-256 collision. *)

From S2P Require Import Prelude Machine BTree Ident Text Digest Merkle AuthLog Claim RuntimeTypes RuntimeSchema RuntimeData RuntimeBytes RuntimeLog.
Open Scope Z_scope.

(** core/runtime.rs:29-29 DATA_RUNTIME_CONTRACT_VERSION *)
Definition DATA_RUNTIME_CONTRACT_VERSION : Z := 1.
(** core/runtime.rs:2036-2043 validate_digest *)
Definition validate_digest (kind value : string) : result Error unit :=
  if sha256_text ascii_hexdigit value then Ok tt else invalid (kind +:+ " must be a 64-character hexadecimal SHA-256 digest").
(** core/runtime.rs:2032-2034 validate_text *)
Definition validate_text (kind value : string) : result Error unit := check_text kind value.

(** * Read stamps *)

(** core/runtime.rs:414-428 ReadStamp *)
Record ReadStamp := {
  contract_version : Z; stamp_scope : ScopeId; schema_revision : option Z; catalog_revision : Z; commit_cursor : Z;
  head_digest : option string; accumulator_root : option string; stamp_manifest : string
}.
#[export] Instance stamp_eq_dec : EqDecision ReadStamp.
Proof. solve_decision. Defined.

Definition STAMP_MAGIC : list byte := str_bytes "rrflow-read-stamp-v1" ++ [x00].
Definition ACCUMULATOR_MAGIC : list byte := str_bytes "rrflow-read-stamp-accumulator-v1" ++ [x00].
(** core/runtime.rs:528-541 ReadStamp::manifest_bytes *)
Definition manifest_bytes (self : ReadStamp) : list byte :=
  STAMP_MAGIC ++ be_bytes 2 (contract_version self) ++ text (scope_str (stamp_scope self)) ++ encode_optional_u64 (schema_revision self)
  ++ be_bytes 8 (catalog_revision self) ++ be_bytes 8 (commit_cursor self) ++ optional_text (head_digest self)
  ++ match accumulator_root self with Some root => ACCUMULATOR_MAGIC ++ text root | None => [] end.
(** core/runtime.rs:488-492 ReadStamp::canonical_bytes *)
Definition stamp_bytes (self : ReadStamp) : list byte := manifest_bytes self ++ text (stamp_manifest self).
(** core/runtime.rs:494-526 ReadStamp::validate_components *)
Definition stamp_components (self : ReadStamp) : result Error unit :=
  if negb (contract_version self =? DATA_RUNTIME_CONTRACT_VERSION) then invalid ("unsupported data-runtime contract version " +:+ pretty (contract_version self))
  else if bool_decide (schema_revision self = Some 0) then invalid "schema revision zero is not a valid installed revision"
  else
    do? match commit_cursor self, head_digest self with
        | 0, None => Ok tt
        | 0, Some _ => invalid "an empty runtime cannot have a hash-chain head"
        | _, Some value => validate_digest "read stamp hash-chain head" value
        | _, None => invalid "a non-empty runtime must carry its hash-chain head"
        end in
    match accumulator_root self with Some root => validate_digest "read stamp accumulator root" root | None => Ok tt end.

Section Read.
Context `{Sha2} `{Powi}.

Definition with_manifest (self : ReadStamp) (id : string) : ReadStamp :=
  {| contract_version := contract_version self; stamp_scope := stamp_scope self; schema_revision := schema_revision self; catalog_revision := catalog_revision self;
     commit_cursor := commit_cursor self; head_digest := head_digest self; accumulator_root := accumulator_root self; stamp_manifest := id |}.
(** core/runtime.rs:431-451 ReadStamp::new *)
Definition ReadStamp_new (scope : ScopeId) (schema_revision : option Z) (catalog_revision commit_cursor : Z) (head_digest : option string) : result Error ReadStamp :=
  let stamp := {| contract_version := DATA_RUNTIME_CONTRACT_VERSION; stamp_scope := scope; schema_revision := schema_revision; catalog_revision := catalog_revision;
    commit_cursor := commit_cursor; head_digest := head_digest; accumulator_root := None; stamp_manifest := "" |} in
  do? stamp_components stamp in
  Ok (with_manifest stamp (sha256_hex (manifest_bytes stamp))).
(** core/runtime.rs:453-474 ReadStamp::authenticated *)
Definition authenticated (scope : ScopeId) (schema_revision : option Z) (catalog_revision commit_cursor : Z) (head_digest : option string) (accumulator_root : string) : result Error ReadStamp :=
  let stamp := {| contract_version := DATA_RUNTIME_CONTRACT_VERSION; stamp_scope := scope; schema_revision := schema_revision; catalog_revision := catalog_revision;
    commit_cursor := commit_cursor; head_digest := head_digest; accumulator_root := Some accumulator_root; stamp_manifest := "" |} in
  do? stamp_components stamp in
  Ok (with_manifest stamp (sha256_hex (manifest_bytes stamp))).
(** core/runtime.rs:476-486 ReadStamp::validate *)
Definition stamp_validate (self : ReadStamp) : result Error unit :=
  do? stamp_components self in
  do? validate_digest "read stamp manifest" (stamp_manifest self) in
  if str_eqb (stamp_manifest self) (sha256_hex (manifest_bytes self)) then Ok tt
  else invalid "read stamp manifest digest does not match its fields".

(** * Snapshot leases *)

(** core/runtime.rs:546-553 SnapshotHandle *)
Record SnapshotHandle := { snapshot_version : Z; snapshot_id : SnapshotId; snapshot_read : ReadStamp; snapshot_owner : string; created_at : Z; expires_at : Z }.
Definition SNAPSHOT_MAGIC : list byte := str_bytes "rrflow-snapshot-handle-v1" ++ [x00].
(** core/runtime.rs:616-620 SnapshotHandle::identity, the bytes of the digest *)
Definition snapshot_bytes (read : ReadStamp) (owner : string) (created expires : Z) : list byte :=
  SNAPSHOT_MAGIC ++ stamp_bytes read ++ text owner ++ be_bytes 8 created ++ be_bytes 8 expires.
(** core/runtime.rs:615-622 SnapshotHandle::identity *)
Definition snapshot_identity (read : ReadStamp) (owner : string) (created expires : Z) : string := sha256_hex (snapshot_bytes read owner created expires).
(** core/runtime.rs:556-584 SnapshotHandle::new *)
Definition SnapshotHandle_new (read : ReadStamp) (owner : string) (created ttl : Z) : result Error SnapshotHandle :=
  do? stamp_validate read in
  do? validate_text "snapshot owner" owner in
  if ttl =? 0 then invalid "snapshot lease duration must be greater than zero"
  else match checked_add 64 created ttl with
  | None => invalid "snapshot lease expiration overflowed"
  | Some expires =>
    let? id := SnapshotId_new (snapshot_identity read owner created expires) in
    Ok {| snapshot_version := DATA_RUNTIME_CONTRACT_VERSION; snapshot_id := id; snapshot_read := read; snapshot_owner := owner; created_at := created; expires_at := expires |}
  end.
(** core/runtime.rs:586-609 SnapshotHandle::validate *)
Definition snapshot_validate (self : SnapshotHandle) : result Error unit :=
  if negb (snapshot_version self =? DATA_RUNTIME_CONTRACT_VERSION) then invalid ("unsupported snapshot contract version " +:+ pretty (snapshot_version self))
  else
    do? stamp_validate (snapshot_read self) in
    do? validate_text "snapshot owner" (snapshot_owner self) in
    if expires_at self <=? created_at self then invalid "snapshot lease must expire after creation"
    else if str_eqb (snapshot_str (snapshot_id self)) (snapshot_identity (snapshot_read self) (snapshot_owner self) (created_at self) (expires_at self)) then Ok tt
    else invalid "snapshot identity does not match its lease and read stamp".
(** core/runtime.rs:611-613 SnapshotHandle::is_expired *)
Definition snapshot_expired (self : SnapshotHandle) (now : Z) : bool := expires_at self <=? now.

(** core/runtime.rs:631-639 RetentionPin *)
Record RetentionPin := { pin_version : Z; pin_id : RetentionPinId; pin_snapshot : SnapshotId; pin_scope : ScopeId; pin_manifest : string; minimum_cursor : Z; pin_expires : Z }.
Definition PIN_MAGIC : list byte := str_bytes "rrflow-retention-pin-v1" ++ [x00].
(** core/runtime.rs:701-706 RetentionPin::identity, the bytes of the digest *)
Definition pin_bytes (snapshot : SnapshotId) (scope : ScopeId) (manifest : string) (cursor expires : Z) : list byte :=
  PIN_MAGIC ++ text (snapshot_str snapshot) ++ text (scope_str scope) ++ text manifest ++ be_bytes 8 cursor ++ be_bytes 8 expires.
(** core/runtime.rs:694-708 RetentionPin::identity *)
Definition pin_identity (snapshot : SnapshotId) (scope : ScopeId) (manifest : string) (cursor expires : Z) : string := sha256_hex (pin_bytes snapshot scope manifest cursor expires).
(** core/runtime.rs:664-688 RetentionPin::validate *)
Definition pin_validate (self : RetentionPin) : result Error unit :=
  if negb (pin_version self =? DATA_RUNTIME_CONTRACT_VERSION) then invalid ("unsupported retention-pin contract version " +:+ pretty (pin_version self))
  else
    do? validate_digest "retention-pin manifest" (pin_manifest self) in
    do? validate_digest "retention pin identity" (pin_str (pin_id self)) in
    if str_eqb (pin_str (pin_id self)) (pin_identity (pin_snapshot self) (pin_scope self) (pin_manifest self) (minimum_cursor self) (pin_expires self)) then Ok tt
    else invalid "retention pin identity does not match its snapshot".
(** core/runtime.rs:642-662 RetentionPin::from_snapshot *)
Definition from_snapshot (snapshot : SnapshotHandle) : result Error RetentionPin :=
  do? snapshot_validate snapshot in
  let read := snapshot_read snapshot in
  let? id := RetentionPinId_new (pin_identity (snapshot_id snapshot) (stamp_scope read) (stamp_manifest read) (commit_cursor read) (expires_at snapshot)) in
  let pin := {| pin_version := DATA_RUNTIME_CONTRACT_VERSION; pin_id := id; pin_snapshot := snapshot_id snapshot; pin_scope := stamp_scope read;
    pin_manifest := stamp_manifest read; minimum_cursor := commit_cursor read; pin_expires := expires_at snapshot |} in
  do? pin_validate pin in Ok pin.
(** core/runtime.rs:690-692 RetentionPin::is_expired *)
Definition pin_expired (self : RetentionPin) (now : Z) : bool := pin_expires self <=? now.

(** * Transactions *)

(** core/runtime.rs:713-717 DataTransaction *)
Record DataTransaction := { transaction_version : Z; transaction_read : ReadStamp; transaction_commit : RuntimeCommit }.
(** core/runtime.rs:730-752 DataTransaction::validate; [None] is a panic of the schema validation. *)
Definition transaction_validate (self : DataTransaction) : option (result Error unit) :=
  if negb (transaction_version self =? DATA_RUNTIME_CONTRACT_VERSION) then Some (invalid ("unsupported transaction contract version " +:+ pretty (transaction_version self)))
  else
    do* Some (stamp_validate (transaction_read self)) in
    do* commit_validate (transaction_commit self) in
    if negb (bool_decide (stamp_scope (transaction_read self) = commit_scope (transaction_commit self))) then Some (invalid "transaction read scope differs from commit scope")
    else if negb (commit_cursor (transaction_read self) =? expected_cursor (transaction_commit self)) then Some (invalid "transaction expected cursor differs from its read stamp")
    else Some (Ok tt).
(** core/runtime.rs:720-728 DataTransaction::new *)
Definition DataTransaction_new (read : ReadStamp) (commit : RuntimeCommit) : option (result Error DataTransaction) :=
  let transaction := {| transaction_version := DATA_RUNTIME_CONTRACT_VERSION; transaction_read := read; transaction_commit := commit |} in
  do* transaction_validate transaction in Some (Ok transaction).
Definition TRANSACTION_MAGIC : list byte := str_bytes "rrflow-data-transaction-v1" ++ [x00].
(** core/runtime.rs:755-760 DataTransaction::digest, the bytes *)
Definition transaction_bytes (self : DataTransaction) : list byte :=
  TRANSACTION_MAGIC ++ be_bytes 2 (transaction_version self) ++ stamp_bytes (transaction_read self)
  ++ be_bytes 8 (len (commit_bytes (transaction_commit self))) ++ commit_bytes (transaction_commit self).
(** core/runtime.rs:754-762 DataTransaction::digest *)
Definition transaction_digest (self : DataTransaction) : string := sha256_hex (transaction_bytes self).

(** * Projection work *)

(** core/runtime.rs:998-1006 ProjectionFamily *)
Inductive ProjectionFamily := FScalar | FGraph | FText | FVector | FTimeSeries | FGeo | FObject.
(** core/runtime.rs:1072-1082 projection_family_tag *)
Definition projection_family_tag (family : ProjectionFamily) : byte :=
  match family with FScalar => x00 | FGraph => x01 | FText => x02 | FVector => x03 | FTimeSeries => x04 | FGeo => x05 | FObject => x06 end.
(** core/runtime.rs:1086-1115 projection_family *)
Definition projection_family (mutation : RuntimeMutation) : option ProjectionFamily :=
  match mutation with
  | MRecord _ => Some FScalar
  | MRelation _ | MEvent _ => Some FGraph
  | MVector _ => Some FVector
  | MSeriesSample _ => Some FTimeSeries
  | MGeo _ => Some FGeo
  | MObject _ => Some FObject
  | MRetire retirement =>
    match retired_model retirement with
    | Document | Relational | GraphNode | KeyValue | ReasoningRecord | LifecycleRecord => Some FScalar
    | GraphRelation | Event | ReasoningEvent | LifecycleEvent => Some FGraph
    | Vector => Some FVector
    | TimeSeries => Some FTimeSeries
    | Geo => Some FGeo
    | Object => Some FObject
    | ReasoningClaim => None
    end
  | MClaim _ | MSchema _ => None
  end.
(** core/runtime.rs:1012-1020 ProjectionWork *)
Record ProjectionWork := {
  work_version : Z; work_id : OutboxId; work_scope : ScopeId; source_cursor : Z; work_commit : string; work_ordinal : Z; work_family : ProjectionFamily
}.
Definition WORK_MAGIC : list byte := str_bytes "rrflow-projection-work-v1" ++ [x00].
(** core/runtime.rs:1037-1042 ProjectionWork::for_change, the bytes of the identity *)
Definition work_bytes (scope : ScopeId) (cursor : Z) (commit : string) (ordinal : Z) (family : ProjectionFamily) : list byte :=
  WORK_MAGIC ++ text (scope_str scope) ++ be_bytes 8 cursor ++ text commit ++ be_bytes 8 ordinal ++ [projection_family_tag family].
(** core/runtime.rs:1023-1053 ProjectionWork::for_change *)
Definition for_change (scope : ScopeId) (cursor : Z) (commit : string) (ordinal : Z) (family : ProjectionFamily) : result Error ProjectionWork :=
  do? validate_digest "outbox commit" commit in
  if cursor =? 0 then invalid "outbox source cursor must be greater than zero"
  else
    let? id := OutboxId_new (sha256_hex (work_bytes scope cursor commit ordinal family)) in
    Ok {| work_version := DATA_RUNTIME_CONTRACT_VERSION; work_id := id; work_scope := scope; source_cursor := cursor; work_commit := commit; work_ordinal := ordinal; work_family := family |}.
(** core/runtime.rs:1055-1069 ProjectionWork::validate *)
Definition work_validate (self : ProjectionWork) : result Error unit :=
  let? rebuilt := for_change (work_scope self) (source_cursor self) (work_commit self) (work_ordinal self) (work_family self) in
  if (negb (work_version self =? DATA_RUNTIME_CONTRACT_VERSION) || negb (bool_decide (work_id rebuilt = work_id self)))%bool
  then invalid "outbox identity or contract version is invalid"
  else Ok tt.

(** core/runtime.rs:989-994 ProjectionState *)
Inductive ProjectionState := PBuilding | PReady | PQuarantined | PRetiring.
(** core/runtime.rs:1119-1127 ProjectionStamp *)
Record ProjectionStamp := {
  projection_version : Z; projection_id : ProjectionId; projection_generation : Z; projection_source : Z; config_digest : string; artifact_digest : string; projection_state : ProjectionState
}.
(** core/runtime.rs:1130-1138 ProjectionStamp::validate *)
Definition projection_validate (self : ProjectionStamp) : result Error unit :=
  if (negb (projection_version self =? DATA_RUNTIME_CONTRACT_VERSION) || (projection_generation self =? 0))%bool then invalid "projection contract version and generation must be valid"
  else do? validate_digest "projection configuration" (config_digest self) in validate_digest "projection artifact" (artifact_digest self).

(** * Audit *)

(** core/runtime.rs:1143-1146 AuditDecision *)
Inductive AuditDecision := Allow | Deny.
(** core/runtime.rs:1151-1170 AuditEnvelope *)
Record AuditEnvelope := {
  audit_version : Z; request_id : string; parent_request_id : option string; audit_at : Z; audit_actor : string; audit_scope : ScopeId; operation : string; resource : string;
  audit_read : option ReadStamp; decision : AuditDecision; outcome_cursor : option Z; duration_ms : Z; audit_previous : option string; audit_digest : string
}.
Definition AUDIT_MAGIC : list byte := str_bytes "rrflow-audit-envelope-v1" ++ [x00].
Definition decision_tag (d : AuditDecision) : byte := match d with Allow => x01 | Deny => x02 end.
(** core/runtime.rs:1271-1273 AuditEnvelope::bytes_without_digest, the read stamp *)
Definition framed_stamp (read : ReadStamp) : list byte := be_bytes 8 (len (stamp_bytes read)) ++ stamp_bytes read.
(** core/runtime.rs:1259-1283 AuditEnvelope::bytes_without_digest *)
Definition audit_bytes (self : AuditEnvelope) : list byte :=
  AUDIT_MAGIC ++ be_bytes 2 (audit_version self) ++ text (request_id self) ++ optional_text (parent_request_id self) ++ be_bytes 8 (audit_at self) ++ text (audit_actor self)
  ++ text (scope_str (audit_scope self)) ++ text (operation self) ++ text (resource self) ++ enc_option framed_stamp (audit_read self) ++ [decision_tag (decision self)]
  ++ encode_optional_u64 (outcome_cursor self) ++ be_bytes 8 (duration_ms self) ++ optional_text (audit_previous self).
(** core/runtime.rs:1225-1257 AuditEnvelope::validate_components *)
Definition audit_components (self : AuditEnvelope) : result Error unit :=
  if negb (audit_version self =? DATA_RUNTIME_CONTRACT_VERSION) then invalid ("unsupported audit contract version " +:+ pretty (audit_version self))
  else
    do? try_each (λ '(kind, value), validate_text kind value)
      [("audit request id", request_id self); ("audit actor", audit_actor self); ("audit operation", operation self); ("audit resource", resource self)] in
    do? match parent_request_id self with Some parent => validate_text "audit parent request id" parent | None => Ok tt end in
    do? match audit_read self with
        | Some read =>
          do? stamp_validate read in
          if bool_decide (stamp_scope read = audit_scope self) then Ok tt else invalid "audit read stamp scope differs from audit scope"
        | None => Ok tt
        end in
    match audit_previous self with Some previous => validate_digest "previous audit envelope" previous | None => Ok tt end.
Definition with_digest (self : AuditEnvelope) (digest : string) : AuditEnvelope :=
  {| audit_version := audit_version self; request_id := request_id self; parent_request_id := parent_request_id self; audit_at := audit_at self; audit_actor := audit_actor self;
     audit_scope := audit_scope self; operation := operation self; resource := resource self; audit_read := audit_read self; decision := decision self;
     outcome_cursor := outcome_cursor self; duration_ms := duration_ms self; audit_previous := audit_previous self; audit_digest := digest |}.
(** core/runtime.rs:1208-1212 AuditEnvelope::seal *)
Definition seal (self : AuditEnvelope) : result Error AuditEnvelope :=
  do? audit_components self in Ok (with_digest self (sha256_hex (audit_bytes self))).
(** core/runtime.rs:1214-1223 AuditEnvelope::validate *)
Definition audit_validate (self : AuditEnvelope) : result Error unit :=
  do? audit_components self in
  do? validate_digest "audit envelope" (audit_digest self) in
  if str_eqb (audit_digest self) (sha256_hex (audit_bytes self)) then Ok tt else invalid "audit envelope digest does not match its fields".
(** core/runtime.rs:1182-1206 AuditEnvelope::accepted_commit_at_read *)
Definition accepted_commit_at_read (commit : RuntimeCommit) (read : option ReadStamp) (commit_id : string) (outcome : Z) (previous : option string) : result Error AuditEnvelope :=
  seal {| audit_version := DATA_RUNTIME_CONTRACT_VERSION; request_id := commit_id; parent_request_id := None; audit_at := commit_at commit; audit_actor := commit_actor commit;
    audit_scope := commit_scope commit; operation := "runtime.commit"; resource := "transaction:" +:+ commit_id; audit_read := read; decision := Allow;
    outcome_cursor := Some outcome; duration_ms := 0; audit_previous := previous; audit_digest := "" |}.
(** core/runtime.rs:1173-1180 AuditEnvelope::accepted_commit *)
Definition accepted_commit (commit : RuntimeCommit) (commit_id : string) (outcome : Z) (previous : option string) : result Error AuditEnvelope :=
  accepted_commit_at_read commit None commit_id outcome previous.
End Read.

(** * Digests as identifiers *)

Section Digests.
Context `{Sha2Laws} `{Powi}.

Lemma hex_bytes_lower (P : byte → bool) d : (∀ b, lower_hex b = true → P b = true) → forallb P (flat_map hex_byte d) = true.
Proof.
  intros HP. induction d as [|b d IH]; [done|]. cbn [flat_map hex_byte app forallb]. rewrite IH, !HP; [done|by destruct b..].
Qed.
Lemma digest_hex kind x : validate_digest kind (sha256_hex x) = Ok tt.
Proof.
  unfold validate_digest, sha256_text, sha256_hex. rewrite str_len_hex. unfold len. rewrite length_sha256. cbn [andb Z.eqb]. unfold hex. rewrite str_bytes_str, hex_bytes_lower; [done|].
  intros b Hb. unfold ascii_hexdigit. by rewrite Hb.
Qed.
Lemma canonical_hex kind x : check_canonical kind (sha256_hex x) = Ok tt.
Proof.
  assert (canonical (sha256_hex x)) as Hc.
  { unfold canonical, sha256_hex, hex. rewrite str_bytes_str. pose proof (length_sha256 x) as Hlen. assert (len (flat_map hex_byte (sha256 x)) = 64) as Hl by (unfold len; rewrite length_flat_map_hex; lia).
    pose proof (hex_bytes_lower (λ b, is_ascii_lowercase b || is_ascii_digit b)%bool (sha256 x) ltac:(by intros [])) as Hb.
    destruct (flat_map hex_byte (sha256 x)) as [|b l] eqn:El; [done|]. cbn [forallb] in Hb. apply andb_true_iff in Hb as [Hb Htail]. rewrite forallb_forall in Htail.
    split; [by apply head_byte_spec|]. split; [|lia]. apply Forall_forall. intros c Hc. left. apply head_byte_spec, Htail. by apply list_elem_of_In. }
  apply canonical_id_problem_None in Hc as Hp. unfold check_canonical. rewrite Hp, bool_decide_eq_false_2; [done|]. unfold canonical in Hc. intros E. by rewrite E in Hc.
Qed.

(** * Stamps *)

Lemma stamp_components_manifest s id : stamp_components (with_manifest s id) = stamp_components s.
Proof. done. Qed.
Lemma manifest_bytes_manifest s id : manifest_bytes (with_manifest s id) = manifest_bytes s.
Proof. done. Qed.
Lemma sealed_valid s : stamp_components s = Ok tt → stamp_validate (with_manifest s (sha256_hex (manifest_bytes s))) = Ok tt.
Proof.
  intros Hc. unfold stamp_validate. rewrite stamp_components_manifest, Hc, manifest_bytes_manifest. cbn [stamp_manifest with_manifest]. rewrite digest_hex.
  unfold str_eqb. by rewrite bool_decide_eq_true_2.
Qed.
Lemma stamp_valid_inv s : stamp_validate s = Ok tt → stamp_components s = Ok tt ∧ stamp_manifest s = sha256_hex (manifest_bytes s).
Proof.
  unfold stamp_validate. destruct (stamp_components s) as [[]|]; [|done]. destruct (validate_digest _ _); [|done]. unfold str_eqb. by case_bool_decide.
Qed.
Lemma stamp_valid_iff s : stamp_validate s = Ok tt ↔ stamp_components s = Ok tt ∧ stamp_manifest s = sha256_hex (manifest_bytes s).
Proof. split; [apply stamp_valid_inv|]. intros [Hc Hm]. unfold stamp_validate. rewrite Hc, Hm, digest_hex. unfold str_eqb. by rewrite bool_decide_eq_true_2. Qed.
Lemma manifest_length s : stamp_validate s = Ok tt → str_len (stamp_manifest s) = 64.
Proof. intros [_ ->]%stamp_valid_inv. unfold sha256_hex. rewrite str_len_hex. unfold len. by rewrite length_sha256. Qed.

Definition is_u16 (z : Z) : Prop := 0 ≤ z < 2 ^ 16.
Lemma u16_delim : self_delim is_u16 (be_bytes 2).
Proof. exact (self_delim_be 2). Qed.
Hint Resolve u16_delim : delim.

(** What the types say of a stamp. *)
Definition wf_stamp (s : ReadStamp) : Prop :=
  is_u16 (contract_version s) ∧ is_text (scope_str (stamp_scope s)) ∧ option_all is_u64 (schema_revision s) ∧ is_u64 (catalog_revision s) ∧ is_u64 (commit_cursor s)
  ∧ option_all is_text (head_digest s) ∧ option_all is_text (accumulator_root s).
(** The optional root of a stamp starts with its magic, so what follows must not. *)
Definition unrooted (r : list byte) : Prop := head r ≠ Some "r"%byte.

Lemma root_determines P : (∀ s, P s → option_all is_text (accumulator_root s)) →
  determines unrooted P (λ s, match accumulator_root s with Some root => ACCUMULATOR_MAGIC ++ text root | None => [] end) accumulator_root.
Proof.
  intros HP a b r s Ha Hb Hr Hs E. apply HP in Ha, Hb. destruct (accumulator_root a) as [x|], (accumulator_root b) as [y|].
  - rewrite <-!app_assoc in E. apply app_inv_head in E. apply text_delim in E as [-> ->]; done.
  - exfalso. apply Hs. cbn [app] in E. by rewrite <-E.
  - exfalso. apply Hr. cbn [app] in E. by rewrite E.
  - done.
Qed.
Lemma manifest_bytes_determines : determines unrooted wf_stamp manifest_bytes (λ s, with_manifest s "").
Proof.
  eapply determines_obs; [unfold manifest_bytes; eapply determines_app; [apply determines_const|]; do 6 (eapply determines_app; [delim_field; from_wf wf_stamp|]); apply root_determines; from_wf wf_stamp|].
  intros [? [] ? ? ? ? ? ?] [? [] ? ? ? ? ? ?] E. cbn in E. unfold with_manifest. cbn. by simplify_eq.
Qed.
Lemma with_manifest_id s : with_manifest s (stamp_manifest s) = s.
Proof. by destruct s. Qed.
Lemma with_manifest_eq a b : with_manifest a "" = with_manifest b "" → stamp_manifest a = stamp_manifest b → a = b.
Proof. destruct a, b. unfold with_manifest. cbn. intros E E2. congruence. Qed.

(** A valid stamp's bytes determine it, whatever follows. *)
Definition sealed_stamp (s : ReadStamp) : Prop := wf_stamp s ∧ stamp_validate s = Ok tt.
Lemma text_64_unrooted t r : str_len t = 64 → unrooted (text t ++ r).
Proof. intros E. unfold text. rewrite E. done. Qed.
Lemma stamp_bytes_delim : self_delim sealed_stamp stamp_bytes.
Proof.
  intros a b r s [Wa Va] [Wb Vb] E. unfold stamp_bytes in E. rewrite <-!app_assoc in E. apply manifest_length in Va, Vb.
  apply manifest_bytes_determines in E as [E1 E]; [|done || by apply text_64_unrooted..]. apply text_delim in E as [E2 ->]; [|unfold is_text; lia..].
  split; [by apply with_manifest_eq|done].
Qed.
Lemma stamp_identity_binds a b : sealed_stamp a → sealed_stamp b → stamp_manifest a = stamp_manifest b → a = b ∨ collide (manifest_bytes a) (manifest_bytes b).
Proof.
  intros [Wa Va] [Wb Vb] E. apply stamp_valid_inv in Va as [_ Ma], Vb as [_ Mb]. rewrite Ma, Mb in E. apply sha256_hex_binds in E as [E|E]; [|by right]. left.
  apply with_manifest_eq; [|by rewrite Ma, Mb, E]. rewrite <-(app_nil_r (manifest_bytes a)), <-(app_nil_r (manifest_bytes b)) in E. by apply manifest_bytes_determines in E as [E _].
Qed.
End Digests.

(** * Hash chains

    Items that carry their own digest and the digest of the item before them.  The digest of the
    last item binds all of them. *)

Section Chain.
Context `{Sha2Laws} {A : Type} (bytes : A → list byte) (prev : A → option string) (digest_of : A → string) (wf : A → Prop).
(** The bytes determine the item, its digest aside. *)
Hypothesis bytes_bind : ∀ a b, wf a → wf b → bytes a = bytes b → digest_of a = digest_of b → a = b.

Definition chained (l : list A) : Prop :=
  ∀ i x, l !! i = Some x → digest_of x = sha256_hex (bytes x) ∧ prev x = digest_of <$> last (take i l).

Lemma chained_snoc l x : chained (l ++ [x]) → chained l ∧ digest_of x = sha256_hex (bytes x) ∧ prev x = digest_of <$> last l.
Proof.
  intros Hl. split.
  - intros i y Hy. destruct (Hl i y) as [Hd Hp]; [by apply lookup_app_l_Some|]. rewrite take_app_le in Hp; [done|]. apply lookup_lt_Some in Hy. lia.
  - destruct (Hl (length l) x) as [Hd Hp]; [by rewrite list_lookup_middle|]. by rewrite take_app_length in Hp.
Qed.
Lemma chain_binds l k : Forall wf l → Forall wf k → chained l → chained k → digest_of <$> last l = digest_of <$> last k →
  l = k ∨ ∃ x y, x ∈ l ∧ y ∈ k ∧ collide (bytes x) (bytes y).
Proof.
  revert k. induction l as [|x l IH] using rev_ind; intros k Wl Wk Hl Hk E.
  { destruct (last k) eqn:Ek; [by cbn in E|]. apply last_None in Ek as ->. by left. }
  rewrite last_snoc in E. destruct k as [|y k _] using rev_ind; [done|]. rewrite last_snoc in E. cbn in E. injection E as E.
  apply Forall_app in Wl as [Wl [Wx _]%Forall_cons], Wk as [Wk [Wy _]%Forall_cons]. apply chained_snoc in Hl as (Hl & Dx & Px), Hk as (Hk & Dy & Py).
  assert (bytes x = bytes y ∨ collide (bytes x) (bytes y)) as [Eb|Hc] by (apply sha256_hex_binds; congruence).
  - apply bytes_bind in Eb as ->; [|done..]. rewrite Px in Py. destruct (IH k Wl Wk Hl Hk Py) as [->|(a & b & Ha & Hb & Hc)]; [by left|]. right. exists a, b. set_solver.
  - right. exists x, y. set_solver.
Qed.
End Chain.

Section Theorems.
Context `{Sha2Laws} `{Powi}.

(** The changes up to a stamp's cursor: each carries its digest and its predecessor's. *)
Definition change_chain (log : list RuntimeChange) : Prop := chained change_bytes change_previous change_digest log.
(** The stamp of a log: its cursor counts the changes and its head is the digest of the last. *)
Definition stamps (s : ReadStamp) (log : list RuntimeChange) : Prop :=
  Forall wf_change log ∧ change_chain log ∧ commit_cursor s = len log ∧ head_digest s = change_digest <$> last log.

Lemma change_bytes_bind a b : wf_change a → wf_change b → change_bytes a = change_bytes b → change_digest a = change_digest b → a = b.
Proof.
  intros Wa Wb E Ed. apply change_bytes_inj in E; [|done..]. destruct a, b. unfold undigested in E. cbn in *. congruence.
Qed.

(** C10: a read stamp's identity binds its history: two valid stamps with the same [manifest_id] are
    the same stamp, and the logs of changes they stamp are the same, change for change, although
    the stamp carries only the digest of the last; or two of the hashed byte strings are an explicit
    SHA-256 collision. *)
Theorem read_stamp_binds_history a b log log' :
  wf_stamp a → wf_stamp b → stamp_validate a = Ok tt → stamp_validate b = Ok tt → stamps a log → stamps b log' → stamp_manifest a = stamp_manifest b →
  (a = b ∧ log = log') ∨ collide (manifest_bytes a) (manifest_bytes b)
  ∨ ∃ x y, x ∈ log ∧ y ∈ log' ∧ collide (change_bytes x) (change_bytes y).
Proof.
  intros Wa Wb Va Vb (Wl & Cl & _ & Hl) (Wk & Ck & _ & Hk) E. destruct (stamp_identity_binds a b) as [->|Hc]; [done..| |by right; left].
  destruct (chain_binds change_bytes change_previous change_digest wf_change change_bytes_bind log log' Wl Wk Cl Ck) as [->|Hc]; [congruence|by left|by right; right].
Qed.

(** ** Audit *)

Definition wf_audit (e : AuditEnvelope) : Prop :=
  is_u16 (audit_version e) ∧ is_text (request_id e) ∧ option_all is_text (parent_request_id e) ∧ is_u64 (audit_at e) ∧ is_text (audit_actor e) ∧ is_text (scope_str (audit_scope e))
  ∧ is_text (operation e) ∧ is_text (resource e) ∧ option_all (λ s, wf_stamp s ∧ len (stamp_bytes s) < 2 ^ 64) (audit_read e) ∧ option_all is_u64 (outcome_cursor e) ∧ is_u64 (duration_ms e)
  ∧ option_all is_text (audit_previous e).
Definition framed_ok (s : ReadStamp) : Prop := sealed_stamp s ∧ len (stamp_bytes s) < 2 ^ 64.
Lemma framed_stamp_delim : self_delim framed_ok framed_stamp.
Proof.
  intros a b r s [Va La] [Vb Lb] E. unfold framed_stamp in E. rewrite <-!app_assoc in E. apply u64_delim in E as [_ E]; [|split; [apply len_nonneg|done]..].
  by apply stamp_bytes_delim in E.
Qed.
#[local] Instance decision_tag_inj : Inj (=) (=) decision_tag.
Proof. by intros [] []. Qed.

(** An envelope of the trail: well typed and accepted by [validate]. *)
Definition recorded (e : AuditEnvelope) : Prop := wf_audit e ∧ audit_validate e = Ok tt.
Lemma audit_valid_inv e : audit_validate e = Ok tt → audit_components e = Ok tt ∧ audit_digest e = sha256_hex (audit_bytes e).
Proof. unfold audit_validate. destruct (audit_components e) as [[]|]; [|done]. destruct (validate_digest _ _); [|done]. unfold str_eqb. by case_bool_decide. Qed.
Lemma recorded_read e : recorded e → option_all framed_ok (audit_read e).
Proof.
  intros [W V]. assert (option_all (λ s, wf_stamp s ∧ len (stamp_bytes s) < 2 ^ 64) (audit_read e)) as Hw by (unfold wf_audit in W; tauto).
  apply audit_valid_inv in V as [V _]. unfold audit_components in V. destruct (audit_read e) as [s|]; [|done]. destruct Hw as [Ws Ls].
  destruct (negb _); [done|]. destruct (try_each _ _); [|done]. destruct (match parent_request_id e with Some _ => _ | None => _ end); [|done].
  destruct (stamp_validate s) as [[]|] eqn:Es; [|done]. done.
Qed.
#[local] Hint Resolve u16_delim framed_stamp_delim : delim.
Ltac from_recorded := first [intros ? ?; by apply recorded_read | let a := fresh in intros a; unfold recorded, wf_audit; tauto].
Lemma audit_bytes_determine : determines anything recorded audit_bytes (λ e, with_digest e "").
Proof.
  eapply determines_obs; [unfold audit_bytes; eapply determines_app; [apply determines_const|]; delim_fields; from_recorded|].
  intros [? ? ? ? ? [] ? ? ? ? ? ? ? ?] [? ? ? ? ? [] ? ? ? ? ? ? ? ?] E. cbn in E. unfold with_digest. cbn. by simplify_eq.
Qed.
Lemma audit_bytes_bind a b : recorded a → recorded b → audit_bytes a = audit_bytes b → audit_digest a = audit_digest b → a = b.
Proof.
  intros Wa Wb E Ed. rewrite <-(app_nil_r (audit_bytes a)), <-(app_nil_r (audit_bytes b)) in E. apply audit_bytes_determine in E as [E _]; [|done..].
  assert (∀ e, e = with_digest (with_digest e "") (audit_digest e)) as He by (by intros []). by rewrite (He a), (He b), E, Ed.
Qed.
(** A trail: every envelope is valid and carries the digest of the one before it. *)
Definition trail (l : list AuditEnvelope) : Prop := Forall recorded l ∧ ∀ i e, l !! i = Some e → audit_previous e = audit_digest <$> last (take i l).

(** C14: the audit trail is tamper evident: two trails of valid envelopes, each chained to the one
    before it, with the same last digest are the same trail, envelope for envelope (nothing changed,
    dropped, reordered or inserted before the last), or two of their envelopes are an explicit
    SHA-256 collision. *)
Theorem audit_trail_binds l k :
  trail l → trail k → audit_digest <$> last l = audit_digest <$> last k →
  l = k ∨ ∃ x y, x ∈ l ∧ y ∈ k ∧ collide (audit_bytes x) (audit_bytes y).
Proof.
  assert (∀ l, trail l → chained audit_bytes audit_previous audit_digest l) as Hchain.
  { intros m [Wm Hm] i e He. split; [|by apply Hm]. eapply Forall_lookup_1 in Wm as [_ V]; [|done]. by apply audit_valid_inv in V as [_ V]. }
  intros Hl Hk. apply (chain_binds audit_bytes audit_previous audit_digest recorded audit_bytes_bind); [apply Hl|apply Hk|by apply Hchain|by apply Hchain].
Qed.

(** ** Leases *)

Lemma str_eqb_refl t : str_eqb t t = true.
Proof. unfold str_eqb. by rewrite bool_decide_eq_true_2. Qed.
Lemma checked_add_u64 a b : 0 ≤ a → 0 ≤ b → checked_add 64 a b = if a + b <? 2 ^ 64 then Some (a + b) else None.
Proof. done. Qed.

(** The lease a snapshot is created with. *)
Definition lease (read : ReadStamp) (owner : string) (created ttl : Z) : SnapshotHandle :=
  {| snapshot_version := DATA_RUNTIME_CONTRACT_VERSION; snapshot_id := MkSnapshotId (snapshot_identity read owner created (created + ttl)); snapshot_read := read;
     snapshot_owner := owner; created_at := created; expires_at := created + ttl |}.
Lemma snapshot_new_iff read owner created ttl h : is_u64 created → is_u64 ttl →
  SnapshotHandle_new read owner created ttl = Ok h ↔
  stamp_validate read = Ok tt ∧ validate_text "snapshot owner" owner = Ok tt ∧ 0 < ttl ∧ created + ttl < 2 ^ 64 ∧ h = lease read owner created ttl.
Proof.
  intros Hc Ht. unfold SnapshotHandle_new. destruct (stamp_validate read) as [[]|]; [|split; [done|by intros [? _]]].
  destruct (validate_text _ owner) as [[]|]; [|split; [done|by intros (_ & ? & _)]]. unfold is_u64 in *. destruct (Z.eqb_spec ttl 0) as [->|Hne]; [split; [done|lia]|].
  rewrite checked_add_u64 by lia. destruct (Z.ltb_spec (created + ttl) (2 ^ 64)); [|split; [done|lia]]. unfold SnapshotId_new, snapshot_identity at 1. rewrite canonical_hex.
  split; [intros [= <-]; split_and!; (done || lia)|]. by intros (_ & _ & _ & _ & ->).
Qed.
Lemma lease_valid read owner created ttl : stamp_validate read = Ok tt → validate_text "snapshot owner" owner = Ok tt → 0 < ttl → snapshot_validate (lease read owner created ttl) = Ok tt.
Proof.
  intros Hr Ho Ht. unfold snapshot_validate, lease. cbn [snapshot_version snapshot_read snapshot_owner expires_at created_at snapshot_id snapshot_str].
  rewrite Hr, Ho, (proj2 (Z.leb_gt _ _)), str_eqb_refl by lia. done.
Qed.
(** The pin derived from a snapshot. *)
Definition pin_of (h : SnapshotHandle) : RetentionPin :=
  let read := snapshot_read h in
  {| pin_version := DATA_RUNTIME_CONTRACT_VERSION;
     pin_id := MkRetentionPinId (pin_identity (snapshot_id h) (stamp_scope read) (stamp_manifest read) (commit_cursor read) (expires_at h));
     pin_snapshot := snapshot_id h; pin_scope := stamp_scope read; pin_manifest := stamp_manifest read; minimum_cursor := commit_cursor read; pin_expires := expires_at h |}.
Lemma pin_of_valid h : stamp_validate (snapshot_read h) = Ok tt → pin_validate (pin_of h) = Ok tt.
Proof.
  intros [_ Hm]%stamp_valid_inv. unfold pin_validate, pin_of. cbn [pin_version pin_manifest pin_id pin_str pin_snapshot pin_scope minimum_cursor pin_expires].
  rewrite str_eqb_refl. unfold pin_identity. rewrite Hm, !digest_hex. done.
Qed.
Lemma snapshot_read_valid h : snapshot_validate h = Ok tt → stamp_validate (snapshot_read h) = Ok tt.
Proof. unfold snapshot_validate. destruct (negb _); [done|]. by destruct (stamp_validate _) as [[]|]. Qed.
Lemma from_snapshot_ok h : snapshot_validate h = Ok tt → from_snapshot h = Ok (pin_of h).
Proof.
  intros Hv. unfold from_snapshot. rewrite Hv. cbn zeta. unfold RetentionPinId_new, pin_identity at 1. rewrite canonical_hex.
  change (match pin_validate (pin_of h) with Ok _ => Ok (pin_of h) | Err err => Err err end = Ok (pin_of h)). by rewrite pin_of_valid by by apply snapshot_read_valid.
Qed.

(** A snapshot lease is granted exactly for a valid stamp, an acceptable owner and a positive
    duration whose end fits 64 bits; it validates, expires exactly at its end, and always yields a
    retention pin, valid itself, that names the snapshot, the stamp's manifest and cursor, and
    expires with the lease. *)
Theorem snapshot_lease_exact read owner created ttl now :
  is_u64 created → is_u64 ttl →
  ((∃ h, SnapshotHandle_new read owner created ttl = Ok h) ↔
     stamp_validate read = Ok tt ∧ validate_text "snapshot owner" owner = Ok tt ∧ 0 < ttl ∧ created + ttl < 2 ^ 64)
  ∧ ∀ h, SnapshotHandle_new read owner created ttl = Ok h →
      snapshot_validate h = Ok tt ∧ snapshot_read h = read ∧ (snapshot_expired h now = true ↔ created + ttl ≤ now)
      ∧ ∃ pin, from_snapshot h = Ok pin ∧ pin_validate pin = Ok tt ∧ pin_snapshot pin = snapshot_id h ∧ pin_manifest pin = stamp_manifest read
          ∧ minimum_cursor pin = commit_cursor read ∧ pin_expired pin now = snapshot_expired h now.
Proof.
  intros Hc Ht. split; [split|].
  - intros [h Hh]. apply snapshot_new_iff in Hh; [|done..]. tauto.
  - intros (? & ? & ? & ?). eexists. by apply snapshot_new_iff.
  - intros h Hh. apply snapshot_new_iff in Hh as (Hr & Ho & Hpos & Hend & ->); [|done..]. pose proof (lease_valid read owner created ttl Hr Ho Hpos) as Hv.
    split; [done|]. split; [done|]. split; [apply Z.leb_le|]. eexists. split; [by apply from_snapshot_ok|]. split; [by apply pin_of_valid|]. done.
Qed.

(** ** Constructors *)

Lemma work_of_change scope cursor commit ordinal family w : for_change scope cursor commit ordinal family = Ok w → work_validate w = Ok tt.
Proof.
  intros Hw. assert (for_change (work_scope w) (source_cursor w) (work_commit w) (work_ordinal w) (work_family w) = Ok w ∧ work_version w = DATA_RUNTIME_CONTRACT_VERSION) as [Hr Hv].
  { unfold for_change in Hw. destruct (validate_digest _ commit) eqn:E1; [|done]. destruct (cursor =? 0) eqn:E2; [done|]. destruct (OutboxId_new _) eqn:E3; [|done].
    injection Hw as <-. cbn [work_scope source_cursor work_commit work_ordinal work_family work_version]. split; [|done]. unfold for_change. by rewrite E1, E2, E3. }
  unfold work_validate. rewrite Hr, Hv, bool_decide_eq_true_2 by done. done.
Qed.
Lemma sealed_envelope e e' : seal e = Ok e' → audit_validate e' = Ok tt.
Proof.
  unfold seal. destruct (audit_components e) as [[]|] eqn:Ec; [|done]. intros [= <-]. unfold audit_validate. cbn [audit_digest with_digest].
  change (audit_components (with_digest e (sha256_hex (audit_bytes e)))) with (audit_components e). change (audit_bytes (with_digest e (sha256_hex (audit_bytes e)))) with (audit_bytes e).
  by rewrite Ec, digest_hex, str_eqb_refl.
Qed.

(** What the constructors return validates: read stamps, plain and authenticated, carry the
    digest of their fields; projection work carries the identity its validation rebuilds; and the
    audit envelope of an accepted commit is sealed, allows it and is chained to the one before. *)
Theorem constructed_values_validate :
  (∀ scope schema catalog cursor head s, ReadStamp_new scope schema catalog cursor head = Ok s → stamp_validate s = Ok tt ∧ commit_cursor s = cursor ∧ head_digest s = head)
  ∧ (∀ scope schema catalog cursor head r s, authenticated scope schema catalog cursor head r = Ok s → stamp_validate s = Ok tt ∧ accumulator_root s = Some r)
  ∧ (∀ scope cursor commit ordinal family w, for_change scope cursor commit ordinal family = Ok w → work_validate w = Ok tt)
  ∧ ∀ commit read commit_id outcome previous e, accepted_commit_at_read commit read commit_id outcome previous = Ok e →
      audit_validate e = Ok tt ∧ decision e = Allow ∧ audit_previous e = previous ∧ outcome_cursor e = Some outcome ∧ audit_read e = read.
Proof.
  split_and!.
  - intros scope schema catalog cursor head s Hs. unfold ReadStamp_new in Hs. match type of Hs with context [stamp_components ?x] => pose proof (sealed_valid x) as Hv; destruct (stamp_components x) as [[]|] end; [|done].
    injection Hs as <-. split; [by apply Hv|done].
  - intros scope schema catalog cursor head r s Hs. unfold authenticated in Hs. match type of Hs with context [stamp_components ?x] => pose proof (sealed_valid x) as Hv; destruct (stamp_components x) as [[]|] end; [|done].
    injection Hs as <-. split; [by apply Hv|done].
  - intros. by eapply work_of_change.
  - intros commit read commit_id outcome previous e He. split; [by eapply sealed_envelope|]. unfold accepted_commit_at_read, seal in He. destruct (audit_components _); [|done]. by injection He as <-.
Qed.
End Theorems.

(** * A stamped log, over the toy digest *)

Module SampleRead.
#[local] Existing Instance toy_sha2.
#[local] Existing Instance toy_sha2_laws.
Import SampleLog.
Definition blank : ReadStamp :=
  {| contract_version := 0; stamp_scope := MkScopeId ""; schema_revision := None; catalog_revision := 0; commit_cursor := 0; head_digest := None; accumulator_root := None; stamp_manifest := "" |}.
Definition stamp : ReadStamp := Eval vm_compute in match authenticated (MkScopeId "scope") (Some 1) 1 2 (Some (change_digest second)) (root run.1) with Ok s => s | Err _ => blank end.
Lemma stamp_valid : stamp_validate stamp = Ok tt.
Proof. vm_compute. reflexivity. Qed.
Lemma stamp_wf : wf_stamp stamp.
Proof. repeat constructor; vm_compute; congruence. Qed.
Lemma stamp_stamps : stamps stamp log.
Proof.
  split; [exact log_wf|]. split; [|split; vm_compute; reflexivity]. intros [|[|[|i]]] x Hx; cbn in Hx; try done; injection Hx as <-; split; vm_compute; reflexivity.
Qed.
Lemma read_stamp_binds_history_witness :
  (stamp = stamp ∧ log = log) ∨ collide (manifest_bytes stamp) (manifest_bytes stamp) ∨ ∃ x y, x ∈ log ∧ y ∈ log ∧ collide (change_bytes x) (change_bytes y).
Proof. exact (read_stamp_binds_history stamp stamp log log stamp_wf stamp_wf stamp_valid stamp_valid stamp_stamps stamp_stamps eq_refl). Defined.

Definition blank_audit : AuditEnvelope :=
  {| audit_version := 0; request_id := ""; parent_request_id := None; audit_at := 0; audit_actor := ""; audit_scope := MkScopeId ""; operation := ""; resource := "";
     audit_read := None; decision := Deny; outcome_cursor := None; duration_ms := 0; audit_previous := None; audit_digest := "" |}.
Definition accepted : AuditEnvelope := Eval vm_compute in match accepted_commit commit (commit_digest commit) 2 None with Ok e => e | Err _ => blank_audit end.
Definition again : AuditEnvelope := Eval vm_compute in match accepted_commit_at_read commit (Some stamp) (commit_digest commit) 4 (Some (audit_digest accepted)) with Ok e => e | Err _ => blank_audit end.
Lemma sample_trail : trail [accepted; again].
Proof.
  split.
  - repeat (constructor; [split; [repeat constructor; vm_compute; congruence|vm_compute; reflexivity]|]). constructor.
  - intros [|[|[|i]]] x Hx; cbn in Hx; try done; injection Hx as <-; vm_compute; reflexivity.
Qed.
Lemma audit_trail_binds_witness :
  [accepted; again] = [accepted; again] ∨ ∃ x y, x ∈ [accepted; again] ∧ y ∈ [accepted; again] ∧ collide (audit_bytes x) (audit_bytes y).
Proof. exact (audit_trail_binds [accepted; again] [accepted; again] sample_trail sample_trail eq_refl). Defined.

Definition held : SnapshotHandle := lease stamp "reader" 100 50.
Lemma held_new : SnapshotHandle_new stamp "reader" 100 50 = Ok held.
Proof. vm_compute. reflexivity. Qed.
Lemma snapshot_lease_exact_witness : snapshot_validate held = Ok tt ∧ ∃ pin, from_snapshot held = Ok pin ∧ minimum_cursor pin = 2.
Proof.
  destruct (proj2 (snapshot_lease_exact stamp "reader" 100 50 150 ltac:(split; vm_compute; congruence) ltac:(split; vm_compute; congruence)) held held_new) as (Hv & _ & _ & pin & Hp & _ & _ & _ & Hc & _).
  split; [exact Hv|]. exists pin. split; [exact Hp|]. rewrite Hc. vm_compute. reflexivity.
Defined.
End SampleRead.
