(* ===== verification/RuntimeGraph.v ===== *)
(** The structural graph of the runtime ([rrd-core]: runtime.rs).

    A graph snapshot replays the log up to a cursor: records and relations last written win, events
    become records (with an [emitted] relation from their subject), retirements remove, and at the
    end only what is valid at the chosen instant stays.  A transaction preview replays the pending
    mutations on a snapshot.

    Theorems: a snapshot holds exactly the last effect on every identity; the preview of a
    transaction is exactly the snapshot of the log after its commit; traversal ends and returns
    exactly the nodes within the depth; a diff patches the older snapshot into the newer. *)

From S2P Require Import Prelude Machine BTree Ident Text Digest Merkle AuthLog Claim RuntimeTypes RuntimeSchema RuntimeData RuntimeBytes RuntimeLog RuntimeRead.
Open Scope Z_scope.

(** core/runtime.rs:1323-1329 RuntimeGraphSnapshot *)
Record RuntimeGraphSnapshot := {
  graph_scope : ScopeId; graph_valid_at : Z; known_at_cursor : Z; graph_records : list RuntimeRecord; graph_relations : list RuntimeRelation
}.
(** The maps the loops build, by reference. *)
Definition Records : Type := list (RuntimeRef * RuntimeRecord).
Definition Relations : Type := list (RuntimeRef * RuntimeRelation).

(** [RuntimeType::new("emitted")], which is canonical *)
Definition EMITTED : RuntimeType := MkRuntimeType "emitted".
Lemma emitted_is_valid : RuntimeType_new "emitted" = Ok EMITTED.
Proof. vm_compute. reflexivity. Qed.

(** core/runtime.rs:1988-2021 retire_graph_identity *)
Definition retire_graph_identity (records : Records) (relations : Relations) (retirement : RuntimeRetirement) : Records * Relations :=
  match retired_model retirement with
  | Document | Relational | GraphNode | KeyValue | ReasoningRecord | LifecycleRecord => (bt_remove (retired_reference retirement) records, relations)
  | GraphRelation => (records, bt_remove (retired_reference retirement) relations)
  | Event | ReasoningEvent | LifecycleEvent =>
    (bt_remove (retired_reference retirement) records, bt_remove {| ref_kind := EMITTED; ref_id := ref_id (retired_reference retirement) |} relations)
  | Vector | TimeSeries | Geo | Object | ReasoningClaim => (records, relations)
  end.

(** core/runtime.rs:1819-1846 RuntimeGraphSnapshot::from_changes, an event *)
Definition graph_event (event : RuntimeEvent) (cursor at_ : Z) (records : Records) (relations : Relations) : Records * Relations :=
  let event_ref := RuntimeRef_event (event_kind event) cursor in
  (bt_insert event_ref {| record_reference := event_ref; record_valid_from := at_; record_valid_to := None; record_properties := event_properties event |} records,
   match event_subject event with
   | Some subject =>
     let relation_ref := RuntimeRef_event EMITTED cursor in
     bt_insert relation_ref {| relation_reference := relation_ref; relation_from := subject; relation_to := event_ref; relation_valid_from := at_;
       relation_valid_to := None; relation_properties := [] |} relations
   | None => relations
   end).
(** core/runtime.rs:1804-1858 RuntimeGraphSnapshot::from_changes, one change *)
Definition graph_change (valid_at : Z) (maps : Records * Relations) (change : RuntimeChange) : Records * Relations :=
  let (records, relations) := maps in
  match change_mutation change with
  | MRecord record => if record_valid_from record <=? valid_at then (bt_insert (record_reference record) record records, relations) else (records, relations)
  | MRelation relation => if relation_valid_from relation <=? valid_at then (records, bt_insert (relation_reference relation) relation relations) else (records, relations)
  | MEvent event => graph_event event (change_cursor change) (change_at change) records relations
  | MRetire retirement => if effective_at retirement <=? valid_at then retire_graph_identity records relations retirement else (records, relations)
  | MClaim _ | MSchema _ | MVector _ | MSeriesSample _ | MGeo _ | MObject _ => (records, relations)
  end.
Definition record_valid (t : Z) (r : RuntimeRecord) : bool := valid_at_window (record_valid_from r) (record_valid_to r) t.
Definition visible (scope : ScopeId) (known_at : Z) (change : RuntimeChange) : bool := ((change_cursor change <=? known_at) && bool_decide (change_scope change = scope))%bool.
(** core/runtime.rs:1860-1874 RuntimeGraphSnapshot::from_changes, the graph of the maps *)
Definition graph_of (scope : ScopeId) (valid_at known_at : Z) (maps : Records * Relations) : RuntimeGraphSnapshot :=
  {| graph_scope := scope; graph_valid_at := valid_at; known_at_cursor := known_at; graph_records := List.filter (record_valid valid_at) (map snd maps.1);
     graph_relations := List.filter (relation_valid valid_at) (map snd maps.2) |}.
(** core/runtime.rs:1792-1875 RuntimeGraphSnapshot::from_changes *)
Definition from_changes (changes : list RuntimeChange) (scope : ScopeId) (valid_at known_at : Z) : RuntimeGraphSnapshot :=
  graph_of scope valid_at known_at (foldl (graph_change valid_at) ([], []) (List.filter (visible scope known_at) changes)).

(** core/runtime.rs:1877-1884 RuntimeGraphSnapshot::outgoing *)
Definition outgoing (self : RuntimeGraphSnapshot) (from : RuntimeRef) : list RuntimeRelation := List.filter (λ r, bool_decide (relation_from r = from)) (graph_relations self).
(** core/runtime.rs:1886-1890 RuntimeGraphSnapshot::incoming *)
Definition incoming (self : RuntimeGraphSnapshot) (to : RuntimeRef) : list RuntimeRelation := List.filter (λ r, bool_decide (relation_to r = to)) (graph_relations self).

(** core/runtime.rs:1907-1910 RuntimeGraphSnapshot::traverse, the filter on kinds *)
Definition permitted (kinds : list (RuntimeType * unit)) (relation : RuntimeRelation) : bool := (is_empty kinds || bs_mem (ref_kind (relation_reference relation)) kinds)%bool.
(** core/runtime.rs:1906-1914 RuntimeGraphSnapshot::traverse, the relations of one node *)
Fixpoint expand (kinds : list (RuntimeType * unit)) (depth : Z) (relations : list RuntimeRelation) (visited : list (RuntimeRef * unit)) (queue : list (RuntimeRef * Z)) :
    list (RuntimeRef * unit) * list (RuntimeRef * Z) :=
  match relations with
  | [] => (visited, queue)
  | relation :: relations =>
    if negb (permitted kinds relation) then expand kinds depth relations visited queue
    else if bs_mem (relation_to relation) visited then expand kinds depth relations visited queue
    else expand kinds depth relations (bs_insert (relation_to relation) visited) (queue ++ [(relation_to relation, depth + 1)])
  end.
(** core/runtime.rs:1902-1915 RuntimeGraphSnapshot::traverse, the loop; [None] means the fuel ran out. *)
Fixpoint traverse_loop (fuel : nat) (self : RuntimeGraphSnapshot) (max_depth : Z) (kinds : list (RuntimeType * unit)) (visited : list (RuntimeRef * unit)) (queue : list (RuntimeRef * Z)) :
    option (list (RuntimeRef * unit)) :=
  match queue with
  | [] => Some visited
  | (current, depth) :: queue =>
    match fuel with
    | O => None
    | S fuel =>
      if max_depth <=? depth then traverse_loop fuel self max_depth kinds visited queue
      else let (visited, queue) := expand kinds depth (outgoing self current) visited queue in traverse_loop fuel self max_depth kinds visited queue
    end
  end.
(** core/runtime.rs:1894-1917 RuntimeGraphSnapshot::traverse *)
Definition traverse (self : RuntimeGraphSnapshot) (start : RuntimeRef) (max_depth : Z) (kinds : list (RuntimeType * unit)) : option (list RuntimeRef) :=
  option_map (map fst) (traverse_loop (S (length (graph_relations self))) self max_depth kinds [(start, tt)] [(start, 0)]).

(** core/runtime.rs:1780-1789 RuntimeGraphDiff; a changed value is its pair before and after. *)
Record RuntimeGraphDiff := {
  from_cursor : Z; to_cursor : Z; added_records : list RuntimeRecord; removed_records : list RuntimeRecord; changed_records : list (RuntimeRecord * RuntimeRecord);
  added_relations : list RuntimeRelation; removed_relations : list RuntimeRelation; changed_relations : list (RuntimeRelation * RuntimeRelation)
}.
(** core/runtime.rs:1944-1948 RuntimeGraphSnapshot::diff, the added values *)
Definition added {V} (before after : list (RuntimeRef * V)) : list V := map snd (List.filter (λ p, negb (bt_mem p.1 before)) after).
(** core/runtime.rs:1954-1963 RuntimeGraphSnapshot::diff, the changed values *)
Definition changed {V} `{EqDecision V} (before after : list (RuntimeRef * V)) : list (V * V) :=
  omap (λ p : RuntimeRef * V, match bt_get p.1 before with Some v => if bool_decide (v = p.2) then None else Some (v, p.2) | None => None end) after.
(** core/runtime.rs:1919-1985 RuntimeGraphSnapshot::diff *)
Definition diff (self newer : RuntimeGraphSnapshot) : RuntimeGraphDiff :=
  let before_records := bt_collect record_reference (graph_records self) in
  let after_records := bt_collect record_reference (graph_records newer) in
  let before_relations := bt_collect relation_reference (graph_relations self) in
  let after_relations := bt_collect relation_reference (graph_relations newer) in
  {| from_cursor := known_at_cursor self; to_cursor := known_at_cursor newer;
     added_records := added before_records after_records; removed_records := added after_records before_records; changed_records := changed before_records after_records;
     added_relations := added before_relations after_relations; removed_relations := added after_relations before_relations; changed_relations := changed before_relations after_relations |}.

(** * Previews *)

(** core/runtime.rs:881-891 DataTransactionView *)
Record DataTransactionView := {
  view_version : Z; view_digest : string; view_read : ReadStamp; view_valid_at : Z; prospective_cursor : Z; pending_mutations : Z; pending : list RuntimeMutation;
  view_records : list RuntimeRecord; view_relations : list RuntimeRelation
}.

Section Preview.
Context `{Sha2} `{Powi}.
(** core/runtime.rs:894-923 DataTransactionView::validate *)
Definition view_validate (self : DataTransactionView) : result Error unit :=
  if negb (view_version self =? DATA_RUNTIME_CONTRACT_VERSION) then invalid ("unsupported transaction-view contract version " +:+ pretty (view_version self))
  else
    do? stamp_validate (view_read self) in
    do? validate_digest "transaction view" (view_digest self) in
    match checked_add 64 (commit_cursor (view_read self)) (pending_mutations self) with
    | None => invalid "transaction view cursor overflowed"
    | Some expected =>
      if negb (prospective_cursor self =? expected) then invalid "transaction view cursor does not cover its pending mutations"
      else if negb (len (pending self) =? pending_mutations self) then invalid "transaction view pending count does not match its mutations"
      else Ok tt
    end.
(** core/runtime.rs:925-929 DataTransactionView::record *)
Definition view_record (self : DataTransactionView) (reference : RuntimeRef) : option RuntimeRecord := List.find (λ r, bool_decide (record_reference r = reference)) (view_records self).
(** core/runtime.rs:931-935 DataTransactionView::relation *)
Definition view_relation (self : DataTransactionView) (reference : RuntimeRef) : option RuntimeRelation :=
  List.find (λ r, bool_decide (relation_reference r = reference)) (view_relations self).
(** core/runtime.rs:937-942 DataTransactionView::claim_writes *)
Definition claim_writes (self : DataTransactionView) : list Claim := omap (λ m, match m with MClaim claim => Some claim | _ => None end) (pending self).
(** core/runtime.rs:944-949 DataTransactionView::schema_write *)
Definition schema_write (self : DataTransactionView) : option RuntimeSchemaRegistry := head (omap (λ m, match m with MSchema registry => Some registry | _ => None end) (pending self)).
(** core/runtime.rs:951-956 DataTransactionView::events *)
Definition pending_events (self : DataTransactionView) : list RuntimeEvent := omap (λ m, match m with MEvent event => Some event | _ => None end) (pending self).
(** core/runtime.rs:958-963 DataTransactionView::vectors *)
Definition pending_vectors (self : DataTransactionView) : list RuntimeVector := omap (λ m, match m with MVector vector => Some vector | _ => None end) (pending self).
(** core/runtime.rs:965-970 DataTransactionView::series_samples *)
Definition pending_samples (self : DataTransactionView) : list RuntimeSeriesSample := omap (λ m, match m with MSeriesSample sample => Some sample | _ => None end) (pending self).
(** core/runtime.rs:972-977 DataTransactionView::geo_values *)
Definition pending_geo (self : DataTransactionView) : list RuntimeGeo := omap (λ m, match m with MGeo geo => Some geo | _ => None end) (pending self).
(** core/runtime.rs:979-984 DataTransactionView::objects *)
Definition pending_objects (self : DataTransactionView) : list ObjectReference := omap (λ m, match m with MObject object => Some object | _ => None end) (pending self).

(** core/runtime.rs:808-835 DataTransaction::preview, an event *)
Definition preview_event (event : RuntimeEvent) (cursor at_ : Z) (records : Records) (relations : Relations) : Records * Relations :=
  let event_ref := RuntimeRef_event (event_kind event) cursor in
  let records := bt_insert event_ref {| record_reference := event_ref; record_valid_from := at_; record_valid_to := None; record_properties := event_properties event |} records in
  match event_subject event with
  | Some subject =>
    let relation_ref := RuntimeRef_event EMITTED cursor in
    (records, bt_insert relation_ref {| relation_reference := relation_ref; relation_from := subject; relation_to := event_ref; relation_valid_from := at_;
       relation_valid_to := None; relation_properties := [] |} relations)
  | None => (records, relations)
  end.
(** core/runtime.rs:800-851 DataTransaction::preview, one pending mutation *)
Definition preview_mutation (self : DataTransaction) (valid_at : Z) (maps : Records * Relations) (entry : Z * RuntimeMutation) : Records * Relations :=
  let (records, relations) := maps in let (ordinal, mutation) := entry in
  match mutation with
  | MRecord record => if record_valid_from record <=? valid_at then (bt_insert (record_reference record) record records, relations) else (records, relations)
  | MRelation relation => if relation_valid_from relation <=? valid_at then (records, bt_insert (relation_reference relation) relation relations) else (records, relations)
  | MEvent event => preview_event event (commit_cursor (transaction_read self) + ordinal + 1) (commit_at (transaction_commit self)) records relations
  | MRetire retirement => if effective_at retirement <=? valid_at then retire_graph_identity records relations retirement else (records, relations)
  | MClaim _ | MSchema _ | MVector _ | MSeriesSample _ | MGeo _ | MObject _ => (records, relations)
  end.
(** [iter().enumerate()] *)
Definition enumerate {A} (l : list A) : list (Z * A) := imap (λ i x, (Z.of_nat i, x)) l.
(** core/runtime.rs:767-876 DataTransaction::preview *)
Definition preview (self : DataTransaction) (base : RuntimeGraphSnapshot) : option (result Error DataTransactionView) :=
  do* transaction_validate self in
  if negb (bool_decide (graph_scope base = stamp_scope (transaction_read self))) then Some (invalid "transaction preview scope differs from its read stamp")
  else if negb (known_at_cursor base =? commit_cursor (transaction_read self)) then Some (invalid "transaction preview cursor differs from its read stamp")
  else match checked_add 64 (commit_cursor (transaction_read self)) (len (mutations (transaction_commit self))) with
  | None => Some (invalid "transaction preview cursor overflowed")
  | Some prospective =>
    let valid_at := graph_valid_at base in
    let '(records, relations) := foldl (preview_mutation self valid_at)
      (bt_collect record_reference (graph_records base), bt_collect relation_reference (graph_relations base)) (enumerate (mutations (transaction_commit self))) in
    let view := {| view_version := DATA_RUNTIME_CONTRACT_VERSION; view_digest := transaction_digest self; view_read := transaction_read self; view_valid_at := valid_at;
      prospective_cursor := prospective; pending_mutations := len (mutations (transaction_commit self)); pending := mutations (transaction_commit self);
      view_records := List.filter (record_valid valid_at) (map snd records); view_relations := List.filter (relation_valid valid_at) (map snd relations) |} in
    do* Some (view_validate view) in Some (Ok view)
  end.
End Preview.

(** * What a replay leaves *)

(** A map built by the loops: in key order, every value under its own reference. *)
Definition keyed {V} (ref : V → RuntimeRef) (m : list (RuntimeRef * V)) : Prop := bt_sorted m ∧ ∀ k v, bt_get k m = Some v → ref v = k.
Definition maps_ok (maps : Records * Relations) : Prop := keyed record_reference maps.1 ∧ keyed relation_reference maps.2.

Lemma keyed_nil {V} (ref : V → RuntimeRef) : keyed ref [].
Proof. split; [constructor|done]. Qed.
Lemma keyed_insert {V} (ref : V → RuntimeRef) v m : keyed ref m → keyed ref (bt_insert (ref v) v m).
Proof.
  intros [Hs Hk]. split; [by apply bt_insert_sorted|]. intros k w. rewrite bt_get_insert. destruct (decide (ref v = k)) as [E|]; [intros [= <-]; done|by apply Hk].
Qed.
Lemma keyed_remove {V} (ref : V → RuntimeRef) k m : keyed ref m → keyed ref (bt_remove k m).
Proof.
  intros [Hs Hk]. split; [by apply bt_remove_sorted|]. intros k' w. destruct (decide (k = k')) as [<-|Hne]; [by rewrite bt_get_remove_eq|rewrite bt_get_remove_ne by done; apply Hk].
Qed.
Lemma bt_get_filter {V} (P : V → bool) (m : list (RuntimeRef * V)) k : bt_sorted m →
  bt_get k (List.filter (λ p, P p.2) m) = bt_get k m ≫= λ v, if P v then Some v else None.
Proof.
  intros Hs. destruct (bt_get k m) as [v|] eqn:Ev; cbn.
  - apply bt_get_Some in Ev; [|done]. destruct (P v) eqn:EP.
    + apply bt_get_Some; [by apply bt_filter_sorted|]. apply list_elem_of_In, filter_In. split; [by apply list_elem_of_In|done].
    + destruct (bt_get k (List.filter _ m)) as [w|] eqn:Ew; [|done]. apply bt_get_Some in Ew; [|by apply bt_filter_sorted]. apply list_elem_of_In, filter_In in Ew as [Ew HP]. cbn in HP.
      apply list_elem_of_In, bt_get_Some in Ew; [|done]. apply bt_get_Some in Ev; [|done]. congruence.
  - destruct (bt_get k (List.filter _ m)) as [w|] eqn:Ew; [|done]. apply bt_get_Some in Ew; [|by apply bt_filter_sorted]. apply list_elem_of_In, filter_In in Ew as [Ew _].
    apply list_elem_of_In, bt_get_Some in Ew; [|done]. congruence.
Qed.
Lemma filter_values {V} (P : V → bool) (m : list (RuntimeRef * V)) : List.filter P (map snd m) = map snd (List.filter (λ p, P p.2) m).
Proof. induction m as [|[k v] m IH]; cbn; [done|]. destruct (P v); cbn; by rewrite IH. Qed.
(** Collecting the values of a keyed map gives the map back. *)
Lemma collect_values {V} (ref : V → RuntimeRef) m : keyed ref m → bt_collect ref (map snd m) = m.
Proof.
  intros [Hs Hk]. assert (∀ p, p ∈ m → ref p.2 = p.1) as Href by (intros [k w] Hp; apply Hk; by apply bt_get_Some). clear Hk.
  induction m as [|[k v] m IH] using rev_ind; [done|]. apply bt_sorted_app in Hs as (Hs & _ & Hlt). unfold bt_collect in *. rewrite map_app, foldl_app. cbn [map foldl snd].
  rewrite IH; [|done|set_solver]. assert (ref v = k) as -> by (apply (Href (k, v)); set_solver). apply bt_insert_last. intros q Hq. apply (Hlt q (k, v)); set_solver.
Qed.
Lemma keyed_filter {V} (ref : V → RuntimeRef) (P : V → bool) m : keyed ref m → keyed ref (List.filter (λ p, P p.2) m).
Proof.
  intros [Hs Hk]. split; [by apply bt_filter_sorted|]. intros k v. rewrite bt_get_filter by done. destruct (bt_get k m) as [w|] eqn:Ew; cbn; [|done]. destruct (P w); [|done]. intros [= ->]. by apply Hk.
Qed.

(** What is valid at the instant, by reference. *)
Definition shown {V} (P : V → bool) (m : list (RuntimeRef * V)) (k : RuntimeRef) : option V := bt_get k m ≫= λ v, if P v then Some v else None.
Lemma shown_insert {V} (P : V → bool) m k v k' : shown P (bt_insert k v m) k' = if decide (k = k') then (if P v then Some v else None) else shown P m k'.
Proof. unfold shown. rewrite bt_get_insert. by destruct (decide (k = k')). Qed.
Lemma shown_remove {V} (P : V → bool) m k k' : bt_sorted m → shown P (bt_remove k m) k' = if decide (k = k') then None else shown P m k'.
Proof. intros Hs. unfold shown. destruct (decide (k = k')) as [<-|Hne]; [by rewrite bt_get_remove_eq|by rewrite bt_get_remove_ne]. Qed.
(** Two maps that show the same leave the same list. *)
Lemma shown_values {V} (P : V → bool) (m n : list (RuntimeRef * V)) : bt_sorted m → bt_sorted n → (∀ k, shown P m k = shown P n k) → List.filter P (map snd m) = List.filter P (map snd n).
Proof.
  intros Hm Hn E. rewrite !filter_values. f_equal. apply bt_ext; [by apply bt_filter_sorted..|]. intros k. rewrite !bt_get_filter by done. apply E.
Qed.
Lemma shown_collect {V} (ref : V → RuntimeRef) (P : V → bool) m k : keyed ref m → shown P (bt_collect ref (List.filter P (map snd m))) k = shown P m k.
Proof.
  intros Hm. rewrite filter_values, collect_values by by apply keyed_filter. unfold shown. destruct Hm as [Hs _]. rewrite bt_get_filter by done.
  destruct (bt_get k m) as [v|]; cbn; [|done]. destruct (P v) eqn:E; cbn; [by rewrite E|done].
Qed.

Lemma keyed_collect {V} (ref : V → RuntimeRef) l : keyed ref (bt_collect ref l).
Proof.
  split; [apply bt_collect_sorted|]. intros k v. rewrite bt_get_collect, last_Some. intros [l' E]. assert (v ∈ filter (λ v, ref v = k) l) as Hv by (rewrite E; set_solver).
  by apply list_elem_of_filter in Hv as [? _].
Qed.

(** The states of two replays that show the same graph at [valid_at]. *)
Definition same_graph (valid_at : Z) (a b : Records * Relations) : Prop :=
  (∀ k, shown (record_valid valid_at) a.1 k = shown (record_valid valid_at) b.1 k) ∧ (∀ k, shown (relation_valid valid_at) a.2 k = shown (relation_valid valid_at) b.2 k).
#[export] Instance same_graph_equiv valid_at : Equivalence (same_graph valid_at).
Proof. split; [by split|intros a b [H1 H2]; split; congruence|intros a b c [H1 H2] [H3 H4]; split; congruence]. Qed.

Lemma graph_change_ok valid_at maps c : maps_ok maps → maps_ok (graph_change valid_at maps c).
Proof.
  destruct maps as [m n]. intros [Hm Hn]. unfold graph_change. destruct (change_mutation c) as [cl|g|r|r|e|v|sa|ge|o|t]; try done.
  - destruct (_ <=? _); [|done]. split; [by apply keyed_insert|done].
  - destruct (_ <=? _); [|done]. split; [done|by apply keyed_insert].
  - unfold graph_event. split; cbn [fst snd]; [apply (keyed_insert record_reference {| record_reference := RuntimeRef_event (event_kind e) (change_cursor c) |}); done|].
    destruct (event_subject e) as [su|]; [|done]. apply (keyed_insert relation_reference {| relation_reference := RuntimeRef_event EMITTED (change_cursor c) |}). done.
  - destruct (_ <=? _); [|done]. unfold retire_graph_identity. destruct (retired_model t); split; cbn [fst snd]; (done || by apply keyed_remove).
Qed.
Lemma graph_changes_ok valid_at l maps : maps_ok maps → maps_ok (foldl (graph_change valid_at) maps l).
Proof. revert maps. induction l as [|c l IH]; intros maps Hm; [done|]. cbn [foldl]. by apply IH, graph_change_ok. Qed.

(** A change keeps replays that show the same graph together. *)
Lemma graph_change_same valid_at a b c : maps_ok a → maps_ok b → same_graph valid_at a b → same_graph valid_at (graph_change valid_at a c) (graph_change valid_at b c).
Proof.
  destruct a as [m n], b as [m' n']. intros [[Hm _] [Hn _]] [[Hm' _] [Hn' _]] [E1 E2]. cbn [fst snd] in *. unfold graph_change. destruct (change_mutation c) as [cl|g|r|r|e|v|sa|ge|o|t]; try done.
  - destruct (_ <=? _); [|done]. split; cbn [fst snd]; [|done]. intros k. by rewrite !shown_insert, E1.
  - destruct (_ <=? _); [|done]. split; cbn [fst snd]; [done|]. intros k. by rewrite !shown_insert, E2.
  - unfold graph_event. split; cbn [fst snd]; [intros k; by rewrite !shown_insert, E1|]. destruct (event_subject e) as [su|]; [|done]. intros k. by rewrite !shown_insert, E2.
  - destruct (_ <=? _); [|done]. unfold retire_graph_identity. destruct (retired_model t); split; cbn [fst snd]; try done; intros k; rewrite !shown_remove by done; by rewrite ?E1, ?E2.
Qed.
Lemma graph_changes_same valid_at l a b : maps_ok a → maps_ok b → same_graph valid_at a b → same_graph valid_at (foldl (graph_change valid_at) a l) (foldl (graph_change valid_at) b l).
Proof.
  revert a b. induction l as [|c l IH]; intros a b Ha Hb E; [done|]. cbn [foldl]. apply IH; [by apply graph_change_ok..|by apply graph_change_same].
Qed.

Lemma filter_all {A} (P : A → bool) l : Forall (λ x, P x = true) l → List.filter P l = l.
Proof. induction 1 as [|x l Hx _ IH]; cbn; [done|]. by rewrite Hx, IH. Qed.

Section ReadYourWrites.
Context `{Sha2Laws} `{Powi}.

(** What the store appends when it accepts a transaction: its mutations in order, from the next
    cursor, with the commit's scope and time. *)
Definition commits (tx : DataTransaction) (new : list RuntimeChange) : Prop :=
  length new = length (mutations (transaction_commit tx))
  ∧ ∀ i c, new !! i = Some c → change_cursor c = commit_cursor (transaction_read tx) + Z.of_nat i + 1 ∧ change_scope c = commit_scope (transaction_commit tx)
      ∧ change_at c = commit_at (transaction_commit tx) ∧ mutations (transaction_commit tx) !! i = Some (change_mutation c).

(** The two loops do the same to the maps. *)
Lemma preview_mutation_change tx valid_at maps i c :
  change_cursor c = commit_cursor (transaction_read tx) + i + 1 → change_at c = commit_at (transaction_commit tx) →
  preview_mutation tx valid_at maps (i, change_mutation c) = graph_change valid_at maps c.
Proof.
  intros Ec Ea. destruct maps as [m n]. unfold preview_mutation, graph_change, preview_event, graph_event. rewrite <-Ec, <-Ea. destruct (change_mutation c) as [cl|g|r|r|e|v|sa|ge|o|t]; try done.
  by destruct (event_subject e).
Qed.
Lemma preview_loop tx valid_at new maps : commits tx new →
  foldl (preview_mutation tx valid_at) maps (enumerate (mutations (transaction_commit tx))) = foldl (graph_change valid_at) maps new.
Proof.
  intros [Hlen Hnew]. unfold enumerate.
  assert (∀ k l maps, length l = length k → (∀ i c, k !! i = Some c → ∃ j, change_cursor c = commit_cursor (transaction_read tx) + Z.of_nat j + 1 ∧ change_at c = commit_at (transaction_commit tx)
    ∧ l !! i = Some (Z.of_nat j, change_mutation c)) → foldl (preview_mutation tx valid_at) maps l = foldl (graph_change valid_at) maps k) as Hgen.
  { intros k. induction k as [|c k IH]; intros [|e l] mp Hl Hk; try done. cbn [foldl]. destruct (Hk 0%nat c eq_refl) as (j & Ec & Ea & [= ->]). rewrite preview_mutation_change by done.
    apply IH; [by injection Hl|]. intros i d Hd. exact (Hk (S i) d Hd). }
  apply Hgen; [by rewrite length_imap|]. intros i c Hc. destruct (Hnew i c Hc) as (Ec & _ & Ea & Em). exists i. split; [done|]. split; [done|]. by rewrite list_lookup_imap, Em.
Qed.
Lemma transaction_valid_inv tx : transaction_validate tx = Some (Ok tt) →
  stamp_validate (transaction_read tx) = Ok tt ∧ stamp_scope (transaction_read tx) = commit_scope (transaction_commit tx) ∧ commit_cursor (transaction_read tx) = expected_cursor (transaction_commit tx).
Proof.
  unfold transaction_validate. destruct (negb _); [done|]. destruct (stamp_validate _) as [[]|]; [|done]. destruct (commit_validate _) as [[[]|]|]; [|done..]. case_bool_decide; [|done]. cbn [negb].
  destruct (Z.eqb_spec (commit_cursor (transaction_read tx)) (expected_cursor (transaction_commit tx))); done.
Qed.

Lemma replay_ok valid_at l : maps_ok (foldl (graph_change valid_at) ([], []) l).
Proof. apply graph_changes_ok. split; apply keyed_nil. Qed.
(** The snapshot after the commit replays the old changes and then the new ones. *)
Lemma replay_committed tx changes new valid_at :
  commits tx new → Forall (λ c, change_cursor c ≤ commit_cursor (transaction_read tx)) changes → stamp_scope (transaction_read tx) = commit_scope (transaction_commit tx) →
  let scope := stamp_scope (transaction_read tx) in let tip := commit_cursor (transaction_read tx) in let total := tip + len (mutations (transaction_commit tx)) in
  from_changes (changes ++ new) scope valid_at total
  = graph_of scope valid_at total (foldl (graph_change valid_at) (foldl (graph_change valid_at) ([], []) (List.filter (visible scope tip) changes)) new).
Proof.
  intros [Hlen Hnew] Hold Hscope scope tip total. unfold from_changes. rewrite List.filter_app, foldl_app. f_equal. f_equal; [f_equal|].
  - apply filter_ext_in. intros c Hc%list_elem_of_In. rewrite Forall_forall in Hold. specialize (Hold c Hc). unfold visible. f_equal.
    pose proof (len_nonneg (mutations (transaction_commit tx))). rewrite !(proj2 (Z.leb_le _ _)); unfold total, tip; (done || lia).
  - apply filter_all, Forall_lookup. intros i c Hc. destruct (Hnew i c Hc) as (Ec & Es & _ & _). unfold visible. rewrite Es, bool_decide_eq_true_2 by done.
    apply lookup_lt_Some in Hc. rewrite andb_true_r. apply Z.leb_le. unfold total, tip, len. lia.
Qed.

(** C5: read your writes: the preview of a valid transaction over the snapshot its stamp names
    succeeds, validates, and shows exactly the records and relations of the snapshot taken, at the
    cursor it announces, after the store has appended the transaction to the log. *)
Theorem preview_is_the_committed_graph tx changes new valid_at :
  transaction_validate tx = Some (Ok tt) → commits tx new →
  Forall (λ c, change_cursor c ≤ commit_cursor (transaction_read tx)) changes →
  commit_cursor (transaction_read tx) + len (mutations (transaction_commit tx)) < 2 ^ 64 →
  let scope := stamp_scope (transaction_read tx) in
  let after := from_changes (changes ++ new) scope valid_at (commit_cursor (transaction_read tx) + len (mutations (transaction_commit tx))) in
  ∃ view, preview tx (from_changes changes scope valid_at (commit_cursor (transaction_read tx))) = Some (Ok view) ∧ view_validate view = Ok tt
    ∧ prospective_cursor view = known_at_cursor after ∧ view_records view = graph_records after ∧ view_relations view = graph_relations after.
Proof.
  intros Hv Hnew Hold Hmax scope after. destruct (transaction_valid_inv tx Hv) as (Hstamp & Hscope & _). subst scope after.
  set (tip := commit_cursor (transaction_read tx)) in *. set (scope := stamp_scope (transaction_read tx)) in *. set (total := tip + len (mutations (transaction_commit tx))) in *.
  pose proof (replay_ok valid_at (List.filter (visible scope tip) changes)) as [Hm Hn].
  pose proof (replay_committed tx changes new valid_at Hnew Hold Hscope) as Eafter. cbn zeta in Eafter. fold scope tip total in Eafter. rewrite Eafter. unfold from_changes. destruct (foldl (graph_change valid_at) ([], []) _) as [m n].
  unfold preview. rewrite Hv. cbn [graph_of graph_scope known_at_cursor graph_valid_at graph_records graph_relations fst snd]. fold tip scope. rewrite bool_decide_eq_true_2, Z.eqb_refl by done. cbn [negb].
  unfold checked_add. fold total. rewrite (proj2 (Z.ltb_lt _ _)) by done. rewrite (preview_loop tx valid_at new) by done.
  set (loaded := (bt_collect record_reference (List.filter (record_valid valid_at) (map snd m)), bt_collect relation_reference (List.filter (relation_valid valid_at) (map snd n)))).
  assert (maps_ok loaded) as Hload by (split; apply keyed_collect). assert (same_graph valid_at loaded (m, n)) as Hsame by (split; intros k; by apply shown_collect).
  pose proof (graph_changes_same valid_at new loaded (m, n) Hload (conj Hm Hn) Hsame) as [E1 E2].
  pose proof (graph_changes_ok valid_at new loaded Hload) as [[S1 _] [S2 _]]. pose proof (graph_changes_ok valid_at new (m, n) (conj Hm Hn)) as [[S3 _] [S4 _]].
  destruct (foldl (graph_change valid_at) loaded new) as [m1 n1], (foldl (graph_change valid_at) (m, n) new) as [m2 n2]. cbn [fst snd] in *. cbn zeta.
  match goal with |- context [view_validate ?v] => assert (view_validate v = Ok tt) as Hview; [|rewrite Hview; exists v] end.
  { unfold view_validate. cbn [view_version view_read view_digest pending_mutations prospective_cursor pending]. rewrite Hstamp. unfold transaction_digest. rewrite digest_hex.
    unfold checked_add. fold tip total. rewrite (proj2 (Z.ltb_lt _ _)), !Z.eqb_refl by done. done. }
  split; [done|]. split; [done|]. split; [done|]. split; by apply shown_values.
Qed.
End ReadYourWrites.

(** * Snapshots *)

(** What a change does to the record of an identity: nothing, write it or remove it. *)
Definition record_effect (valid_at : Z) (k : RuntimeRef) (c : RuntimeChange) : option (option RuntimeRecord) :=
  match change_mutation c with
  | MRecord r => if decide (record_valid_from r ≤ valid_at ∧ record_reference r = k) then Some (Some r) else None
  | MEvent e =>
    if decide (RuntimeRef_event (event_kind e) (change_cursor c) = k)
    then Some (Some {| record_reference := k; record_valid_from := change_at c; record_valid_to := None; record_properties := event_properties e |}) else None
  | MRetire t =>
    if decide (effective_at t ≤ valid_at ∧ retired_reference t = k ∧ (is_record_like (retired_model t) || is_event_like (retired_model t)) = true) then Some None else None
  | _ => None
  end.
(** What a change does to the relation of an identity; an event with a subject emits a relation and
    retiring the event retires it. *)
Definition relation_effect (valid_at : Z) (k : RuntimeRef) (c : RuntimeChange) : option (option RuntimeRelation) :=
  match change_mutation c with
  | MRelation r => if decide (relation_valid_from r ≤ valid_at ∧ relation_reference r = k) then Some (Some r) else None
  | MEvent e =>
    match event_subject e with
    | Some subject =>
      if decide (RuntimeRef_event EMITTED (change_cursor c) = k)
      then Some (Some {| relation_reference := k; relation_from := subject; relation_to := RuntimeRef_event (event_kind e) (change_cursor c); relation_valid_from := change_at c;
        relation_valid_to := None; relation_properties := [] |}) else None
    | None => None
    end
  | MRetire t =>
    if decide (effective_at t ≤ valid_at ∧ (retired_model t = GraphRelation ∧ retired_reference t = k
      ∨ is_event_like (retired_model t) = true ∧ {| ref_kind := EMITTED; ref_id := ref_id (retired_reference t) |} = k)) then Some None else None
  | _ => None
  end.
(** The value the last effect leaves. *)
Definition outcome {V} (effects : list (option V)) : option V := default None (last effects).
Lemma outcome_snoc {V} (l : list (option V)) e : outcome (l ++ [e]) = e.
Proof. unfold outcome. by rewrite last_snoc. Qed.

Lemma get_remove {V} (m : list (RuntimeRef * V)) k k' : bt_sorted m → bt_get k' (bt_remove k m) = if decide (k = k') then None else bt_get k' m.
Proof. intros Hs. destruct (decide (k = k')) as [<-|Hne]; [by rewrite bt_get_remove_eq|by rewrite bt_get_remove_ne]. Qed.
Ltac effect_cases := repeat (case_decide || (rewrite bt_get_insert in * || rewrite get_remove in * by done)); try tauto; try done; try (naive_solver lia).

Lemma graph_change_record valid_at maps c k : maps_ok maps → bt_get k (graph_change valid_at maps c).1 = default (bt_get k maps.1) (record_effect valid_at k c).
Proof.
  destruct maps as [m n]. intros [[Hm _] _]. unfold graph_change, record_effect. cbn [fst snd] in *. destruct (change_mutation c) as [cl|g|r|r|e|v|sa|ge|o|t]; try done.
  - destruct (Z.leb_spec (record_valid_from r) valid_at); cbn [fst]; effect_cases.
  - by destruct (_ <=? _).
  - unfold graph_event. cbn [fst]. rewrite bt_get_insert. case_decide; [by subst|done].
  - destruct (Z.leb_spec (effective_at t) valid_at); cbn [fst]; [|effect_cases]. unfold retire_graph_identity. destruct (retired_model t); cbn [fst is_record_like is_event_like orb]; effect_cases.
Qed.
Lemma graph_change_relation valid_at maps c k : maps_ok maps → bt_get k (graph_change valid_at maps c).2 = default (bt_get k maps.2) (relation_effect valid_at k c).
Proof.
  destruct maps as [m n]. intros [_ [Hn _]]. unfold graph_change, relation_effect. cbn [fst snd] in *. destruct (change_mutation c) as [cl|g|r|r|e|v|sa|ge|o|t]; try done.
  - by destruct (_ <=? _).
  - destruct (Z.leb_spec (relation_valid_from r) valid_at); cbn [snd]; effect_cases.
  - unfold graph_event. cbn [snd]. destruct (event_subject e); [|done]. rewrite bt_get_insert. case_decide; [by subst|done].
  - destruct (Z.leb_spec (effective_at t) valid_at); cbn [snd]; [|effect_cases]. unfold retire_graph_identity. destruct (retired_model t); cbn [snd is_event_like]; effect_cases.
Qed.
Lemma replay_get valid_at l k :
  bt_get k (foldl (graph_change valid_at) ([], []) l).1 = outcome (omap (record_effect valid_at k) l)
  ∧ bt_get k (foldl (graph_change valid_at) ([], []) l).2 = outcome (omap (relation_effect valid_at k) l).
Proof.
  induction l as [|c l [IH1 IH2]] using rev_ind; [done|]. rewrite foldl_snoc, !omap_app. pose proof (replay_ok valid_at l) as Hok.
  rewrite graph_change_record, graph_change_relation, IH1, IH2 by done. cbn [omap list_omap].
  destruct (record_effect valid_at k c), (relation_effect valid_at k c); cbn [default]; rewrite ?outcome_snoc, ?app_nil_r; done.
Qed.
Lemma keyed_values {V} (ref : V → RuntimeRef) (m : list (RuntimeRef * V)) v : keyed ref m → v ∈ map snd m ↔ bt_get (ref v) m = Some v.
Proof.
  intros [Hs Hk]. rewrite list_elem_of_fmap. split.
  - intros ([k w] & -> & Hin). cbn. apply bt_get_Some in Hin as Hg; [|done]. apply Hk in Hg as Hw. by rewrite Hw.
  - intros Hg. exists (ref v, v). split; [done|]. by apply bt_get_Some.
Qed.
Lemma keyed_nodup {V} (ref : V → RuntimeRef) (m : list (RuntimeRef * V)) : keyed ref m → NoDup (map ref (map snd m)).
Proof.
  intros [Hs Hk]. assert (map ref (map snd m) = map fst m) as ->.
  { rewrite map_map. apply map_ext_in. intros [k v] Hin%list_elem_of_In. cbn. apply Hk. by apply bt_get_Some. }
  apply NoDup_alt. intros i j k Hi Hj. apply list_lookup_fmap_Some in Hi as (p & -> & Hi), Hj as (q & E & Hj). by eapply bt_sorted_inj.
Qed.

(** A graph snapshot is exact: a record is in it when it is what the last change of its identity,
    among those of the scope up to the cursor, leaves and its validity covers the instant; the same
    holds of the relations; and no identity occurs twice. *)
Theorem graph_snapshot_exact changes scope valid_at known_at :
  let log := List.filter (visible scope known_at) changes in
  let graph := from_changes changes scope valid_at known_at in
  (∀ r, r ∈ graph_records graph ↔ record_valid valid_at r = true ∧ outcome (omap (record_effect valid_at (record_reference r)) log) = Some r)
  ∧ (∀ r, r ∈ graph_relations graph ↔ relation_valid valid_at r = true ∧ outcome (omap (relation_effect valid_at (relation_reference r)) log) = Some r)
  ∧ NoDup (map record_reference (graph_records graph)) ∧ NoDup (map relation_reference (graph_relations graph)).
Proof.
  intros log graph. unfold graph, from_changes. fold log. pose proof (replay_get valid_at log) as Hget. pose proof (replay_ok valid_at log) as [Hm Hn].
  destruct (foldl _ _ log) as [m n]. cbn [fst snd] in *. cbn [graph_of graph_records graph_relations fst snd]. split_and!.
  - intros r. destruct (Hget (record_reference r)) as [<- _]. rewrite <-keyed_values by done. rewrite list_elem_of_In, filter_In, <-list_elem_of_In. tauto.
  - intros r. destruct (Hget (relation_reference r)) as [_ <-]. rewrite <-keyed_values by done. rewrite list_elem_of_In, filter_In, <-list_elem_of_In. tauto.
  - rewrite filter_values. apply keyed_nodup. by apply keyed_filter.
  - rewrite filter_values. apply keyed_nodup. by apply keyed_filter.
Qed.

(** * Diffs *)

(** Apply a differential: drop what was removed, write what was added or changed. *)
Definition patch {V} (ref : V → RuntimeRef) (added removed : list V) (changed : list (V * V)) (m : list (RuntimeRef * V)) : list (RuntimeRef * V) :=
  foldl (λ m v, bt_insert (ref v) v m) (foldl (λ m v, bt_remove (ref v) m) m removed) (added ++ map snd changed).
Definition patched (d : RuntimeGraphDiff) (g : RuntimeGraphSnapshot) : list RuntimeRecord * list RuntimeRelation :=
  (map snd (patch record_reference (added_records d) (removed_records d) (changed_records d) (bt_collect record_reference (graph_records g))),
   map snd (patch relation_reference (added_relations d) (removed_relations d) (changed_relations d) (bt_collect relation_reference (graph_relations g)))).

Section Diff.
Context {V : Type} `{EqDecision V} (ref : V → RuntimeRef).
Implicit Types (m n : list (RuntimeRef * V)).

Lemma added_elem m n v : keyed ref m → keyed ref n → v ∈ added m n ↔ bt_get (ref v) n = Some v ∧ bt_get (ref v) m = None.
Proof.
  intros Hm [Hs Hk]. unfold added. rewrite list_elem_of_fmap. unfold bt_mem. split.
  - intros ([k w] & -> & Hin). apply list_elem_of_In, filter_In in Hin as [Hin Hn]. apply list_elem_of_In, bt_get_Some in Hin; [|done]. cbn in *. rewrite (Hk _ _ Hin).
    destruct (bt_get k m); done.
  - intros [Hn Hnone]. exists (ref v, v). split; [done|]. apply list_elem_of_In, filter_In. cbn. rewrite Hnone. split; [|done]. by apply list_elem_of_In, bt_get_Some.
Qed.
Lemma changed_elem m n v w : keyed ref m → keyed ref n → (v, w) ∈ changed m n ↔ bt_get (ref w) m = Some v ∧ bt_get (ref w) n = Some w ∧ v ≠ w.
Proof.
  intros Hm [Hs Hk]. unfold changed. rewrite list_elem_of_omap. split.
  - intros ([k x] & Hin & E). apply bt_get_Some in Hin; [|done]. cbn in E. destruct (bt_get k m) as [y|] eqn:Ey; [|done]. case_bool_decide; [done|]. injection E as -> ->.
    by rewrite (Hk _ _ Hin).
  - intros (Em & En & Hne). exists (ref w, w). split; [by apply bt_get_Some|]. cbn. by rewrite Em, bool_decide_eq_false_2.
Qed.
Lemma get_removes l m k : bt_sorted m → bt_sorted (foldl (λ m v, bt_remove (ref v) m) m l)
  ∧ bt_get k (foldl (λ m v, bt_remove (ref v) m) m l) = if decide (k ∈ map ref l) then None else bt_get k m.
Proof.
  revert m. induction l as [|v l IH]; intros m Hs; cbn [foldl map]; [split; [done|]; case_decide as E; [by apply not_elem_of_nil in E|done]|].
  destruct (IH (bt_remove (ref v) m)) as [Hs' Hg]; [by apply bt_remove_sorted|]. split; [done|]. rewrite Hg, get_remove by done.
  repeat case_decide; try done; set_solver.
Qed.
(** Inserting values with different references: the value of a reference, or what was there. *)
Lemma get_inserts l m k : NoDup (map ref l) → bt_sorted m → bt_sorted (foldl (λ m v, bt_insert (ref v) v m) m l)
  ∧ (∀ v, v ∈ l → ref v = k → bt_get k (foldl (λ m v, bt_insert (ref v) v m) m l) = Some v)
  ∧ (k ∉ map ref l → bt_get k (foldl (λ m v, bt_insert (ref v) v m) m l) = bt_get k m).
Proof.
  revert m. induction l as [|w l IH]; intros m Hnd Hs; cbn [foldl map]; [split; [done|]; split; [by intros v ?%not_elem_of_nil|done]|].
  cbn [map] in Hnd. apply NoDup_cons in Hnd as [Hw Hnd]. destruct (IH (bt_insert (ref w) w m)) as (Hs' & Hin & Hout); [done|by apply bt_insert_sorted|]. split; [done|]. split.
  - intros v [->|Hv]%elem_of_cons Hk; [|by apply Hin]. subst k. rewrite Hout by done. by rewrite bt_get_insert_eq.
  - intros Hk. rewrite Hout by set_solver. apply bt_get_insert_ne. set_solver.
Qed.
Lemma added_refs m n : keyed ref m → keyed ref n → NoDup (map ref (added m n)).
Proof.
  intros Hm [Hs Hk]. unfold added. apply keyed_nodup. split; [by apply bt_filter_sorted|]. intros k v Hg%bt_get_elem. apply list_elem_of_In, filter_In in Hg as [Hg _].
  apply Hk. by apply bt_get_Some, list_elem_of_In.
Qed.
Lemma changed_refs m n : keyed ref m → keyed ref n → NoDup (map ref (map snd (changed m n))).
Proof.
  intros Hm Hn. assert (sublist (map ref (map snd (changed m n))) (map ref (map snd n))) as Hsub; [|eapply sublist_NoDup; [|exact Hsub]; by apply keyed_nodup].
  unfold changed. clear Hm Hn. induction n as [|[k v] n IH]; [constructor|]. cbn [omap list_omap map fst snd]. destruct (bt_get k m) as [w|]; [|cbn; by apply sublist_cons].
  case_bool_decide; cbn [map snd]; [by apply sublist_cons|by apply sublist_skip].
Qed.
Lemma patch_ok m n : keyed ref m → keyed ref n → patch ref (added m n) (added n m) (changed m n) m = n.
Proof.
  intros Hm Hn. unfold patch. set (kept := foldl _ m (added n m)).
  assert (NoDup (map ref (added m n ++ map snd (changed m n)))) as Hnd.
  { rewrite map_app. apply NoDup_app. split; [by apply added_refs|]. split; [|by apply changed_refs]. intros k (v & -> & Hv)%list_elem_of_fmap (w & E & Hw)%list_elem_of_fmap.
    apply list_elem_of_fmap in Hw as ([x y] & -> & Hw). apply added_elem in Hv as [_ Hnone]; [|done..]. apply changed_elem in Hw as [Hsome _]; [|done..]. cbn in E. congruence. }
  assert (bt_sorted kept) as Hkept by (apply (get_removes _ _ {| ref_kind := EMITTED; ref_id := MkRuntimeId "" |}), Hm). apply bt_ext; [by apply (get_inserts _ kept {| ref_kind := EMITTED; ref_id := MkRuntimeId "" |})|apply Hn|].
  intros k. destruct (get_inserts _ kept k Hnd Hkept) as (_ & Hin & Hout). destruct (get_removes (added n m) m k ltac:(apply Hm)) as [_ Hrem]. fold kept in Hrem.
  destruct (bt_get k n) as [w|] eqn:En.
  - assert (ref w = k) as Hw by by apply Hn. destruct (bt_get k m) as [v|] eqn:Em.
    + destruct (decide (v = w)) as [->|Hne].
      * rewrite Hout, Hrem.
        -- case_decide as Hd; [|done]. apply list_elem_of_fmap in Hd as (x & Ex & Hx). apply added_elem in Hx as [_ Hx]; [|done..]. congruence.
        -- rewrite map_app. intros [(x & Ex & Hx)%list_elem_of_fmap|(x & Ex & Hx)%list_elem_of_fmap]%elem_of_app; [apply added_elem in Hx as [_ Hx]; [|done..]; congruence|].
           apply list_elem_of_fmap in Hx as ([y z] & -> & Hx). apply changed_elem in Hx as (H1 & H2 & H3); [|done..]. cbn in Ex. congruence.
      * apply Hin; [|done]. apply elem_of_app. right. apply list_elem_of_fmap. exists (v, w). split; [done|]. apply changed_elem; [done..|]. by rewrite Hw.
    + apply Hin; [|done]. apply elem_of_app. left. apply added_elem; [done..|]. by rewrite Hw.
  - rewrite Hout, Hrem.
    + case_decide as Hd; [done|]. destruct (bt_get k m) as [v|] eqn:Em; [|done]. exfalso. apply Hd. apply list_elem_of_fmap. assert (ref v = k) as Hv by by apply Hm. exists v. split; [done|].
      apply added_elem; [done..|]. by rewrite Hv.
    + rewrite map_app. intros [(x & Ex & Hx)%list_elem_of_fmap|(x & Ex & Hx)%list_elem_of_fmap]%elem_of_app; [apply added_elem in Hx as [Hx _]; [|done..]; congruence|].
      apply list_elem_of_fmap in Hx as ([y z] & -> & Hx). apply changed_elem in Hx as (_ & Hx & _); [|done..]. cbn in Ex. congruence.
Qed.
End Diff.

(** The lists of a snapshot are the values of keyed maps. *)
Lemma snapshot_maps changes scope valid_at known_at : let g := from_changes changes scope valid_at known_at in
  ∃ m n, maps_ok (m, n) ∧ graph_records g = map snd m ∧ graph_relations g = map snd n.
Proof.
  intros g. unfold g, from_changes. pose proof (replay_ok valid_at (List.filter (visible scope known_at) changes)) as [Hm Hn]. destruct (foldl _ _ _) as [m n]. cbn [graph_of graph_records graph_relations fst snd] in *.
  rewrite !filter_values. eexists _, _. split; [split; by apply keyed_filter|done].
Qed.

(** A diff is exact: it patches the older snapshot into the newer one, records and relations, and
    it is minimal: what it adds has no counterpart in the older snapshot, what it removes none in the
    newer, and what it changes is in both under one identity with different values. *)
Theorem graph_diff_patches ca sa va ka cb sb vb kb :
  let a := from_changes ca sa va ka in let b := from_changes cb sb vb kb in let d := diff a b in
  patched d a = (graph_records b, graph_relations b)
  ∧ (∀ r, r ∈ added_records d ↔ r ∈ graph_records b ∧ record_reference r ∉ map record_reference (graph_records a))
  ∧ (∀ r, r ∈ removed_records d ↔ r ∈ graph_records a ∧ record_reference r ∉ map record_reference (graph_records b))
  ∧ (∀ x y, (x, y) ∈ changed_records d ↔ x ∈ graph_records a ∧ y ∈ graph_records b ∧ record_reference x = record_reference y ∧ x ≠ y).
Proof.
  intros a b d. destruct (snapshot_maps ca sa va ka) as (m & n & [Hm Hn] & Em & En), (snapshot_maps cb sb vb kb) as (m' & n' & [Hm' Hn'] & Em' & En'). fold a in Em, En. fold b in Em', En'.
  cbn [fst snd] in *. unfold patched, d, diff. cbn [added_records removed_records changed_records added_relations removed_relations changed_relations].
  rewrite Em, En, Em', En', !collect_values by done. rewrite !patch_ok by done.
  assert (∀ (k : RuntimeRef) (l : Records), keyed record_reference l → bt_get k l = None ↔ k ∉ map record_reference (map snd l)) as Hnone.
  { intros k l Hl. rewrite list_elem_of_fmap. split.
    - intros Hg (r & -> & Hr). apply (keyed_values record_reference) in Hr; [|done]. congruence.
    - intros Hk. destruct (bt_get k l) as [r|] eqn:Er; [|done]. exfalso. apply Hk. assert (record_reference r = k) as <- by by apply Hl. exists r. split; [done|]. by apply (keyed_values record_reference). }
  split_and!; [done|intros r; by rewrite added_elem, (Hnone _ m), keyed_values by done|intros r; by rewrite added_elem, (Hnone _ m'), keyed_values by done|].
  intros x y. rewrite changed_elem, !keyed_values by done. split.
  - intros (Hx & Hy & Hne). assert (record_reference x = record_reference y) as E by by apply Hm. by rewrite E.
  - intros (Hx & Hy & E & Hne). by rewrite <-E at 1.
Qed.

(** * Traversal *)

Section Traverse.
Context (g : RuntimeGraphSnapshot) (start : RuntimeRef) (kinds : list (RuntimeType * unit)).

(** One permitted relation leads from a node to another. *)
Definition leads (u v : RuntimeRef) : Prop := ∃ r, r ∈ graph_relations g ∧ permitted kinds r = true ∧ relation_from r = u ∧ relation_to r = v.
(** Within so many relations of the start. *)
Fixpoint within (n : nat) (v : RuntimeRef) : Prop :=
  match n with O => v = start | S n => within n v ∨ ∃ u, within n u ∧ leads u v end.
Lemma within_mono n k v : (n ≤ k)%nat → within n v → within k v.
Proof. induction 1; [done|]. intros Hv. left. auto. Qed.

Definition mem (v : RuntimeRef) (visited : list (RuntimeRef * unit)) : Prop := bs_mem v visited = true.
#[local] Instance mem_dec v visited : Decision (mem v visited).
Proof. unfold mem. apply _. Defined.
Lemma mem_insert v w visited : mem w (bs_insert v visited) ↔ w = v ∨ mem w visited.
Proof. unfold mem. rewrite bs_mem_insert, orb_true_iff, bool_decide_eq_true. naive_solver. Qed.

Lemma expand_ok d rs visited queue : bt_sorted visited →
  ∃ visited' fresh, expand kinds d rs visited queue = (visited', queue ++ map (λ v, (v, d + 1)) fresh) ∧ bt_sorted visited' ∧ NoDup fresh
    ∧ (∀ v, v ∈ fresh ↔ ¬ mem v visited ∧ ∃ r, r ∈ rs ∧ permitted kinds r = true ∧ relation_to r = v) ∧ ∀ v, mem v visited' ↔ mem v visited ∨ v ∈ fresh.
Proof.
  revert visited queue. induction rs as [|r rs IH]; intros visited queue Hs; cbn [expand].
  { exists visited, []. rewrite app_nil_r. split; [done|]. split; [done|]. split; [constructor|]. set_solver. }
  destruct (permitted kinds r) eqn:Ep; cbn [negb].
  2: { destruct (IH visited queue Hs) as (vs & fresh & E & Hvs & Hnd & Hf & Hm). exists vs, fresh. do 3 (split; [done|]). split; [|done]. intros v. rewrite Hf. split; [set_solver|].
       intros (Hv & x & [->|Hx]%elem_of_cons & Hx2); [destruct Hx2; congruence|set_solver]. }
  destruct (bs_mem (relation_to r) visited) eqn:Em.
  { destruct (IH visited queue Hs) as (vs & fresh & E & Hvs & Hnd & Hf & Hm). exists vs, fresh. do 3 (split; [done|]). split; [|done]. intros v. rewrite Hf. split; [set_solver|].
    intros (Hv & x & [->|Hx]%elem_of_cons & Hp & Hto); [exfalso; apply Hv; unfold mem; by rewrite <-Hto|set_solver]. }
  destruct (IH (bs_insert (relation_to r) visited) (queue ++ [(relation_to r, d + 1)])) as (vs & fresh & E & Hvs & Hnd & Hf & Hm); [by apply bt_insert_sorted|].
  exists vs, (relation_to r :: fresh). split; [rewrite E, <-app_assoc; done|]. split; [done|]. split.
  { constructor; [|done]. rewrite Hf, mem_insert. naive_solver. }
  split.
  - intros v. rewrite elem_of_cons, Hf, mem_insert. split.
    + intros [->|(Hv & x & Hx)]; [split; [unfold mem; congruence|exists r; set_solver]|]. split; [tauto|]. set_solver.
    + intros (Hv & x & [->|Hx]%elem_of_cons & Hp & Hto); [by left|]. destruct (decide (v = relation_to r)) as [->|Hne]; [by left|]. right. split; [tauto|]. eauto.
  - intros v. rewrite Hm, mem_insert, elem_of_cons. tauto.
Qed.

(** ** Levels

    While the queue holds [A], the rest of the level [d], and [B], the part of the next level found so far. *)
Record at_level (limit d : nat) (A B : list RuntimeRef) (visited : list (RuntimeRef * unit)) : Prop := {
  lv_sorted : bt_sorted visited;
  lv_depth : (d ≤ limit)%nat;
  lv_sound : ∀ v, mem v visited → within (Nat.min (S d) limit) v;
  lv_complete : ∀ v, within d v → mem v visited;
  lv_now : ∀ v, v ∈ A → within d v;
  lv_next : ∀ v, v ∈ B → mem v visited ∧ ¬ within d v ∧ (d < limit)%nat;
  lv_done : (d < limit)%nat → ∀ u, mem u visited → u ∈ A ∨ u ∈ B ∨ ∀ v, leads u v → mem v visited
}.

Lemma level_skip limit a A B visited : at_level limit limit (a :: A) B visited → at_level limit limit A B visited.
Proof. intros []. split; try done; [set_solver|lia]. Qed.
Lemma level_expand limit d a A B visited visited' fresh : at_level limit d (a :: A) B visited → (d < limit)%nat → bt_sorted visited' →
  (∀ v, v ∈ fresh ↔ ¬ mem v visited ∧ ∃ r, r ∈ outgoing g a ∧ permitted kinds r = true ∧ relation_to r = v) → (∀ v, mem v visited' ↔ mem v visited ∨ v ∈ fresh) →
  at_level limit d A (B ++ fresh) visited'.
Proof.
  intros [Hs Hd Hsound Hcomp Hnow Hnext Hdone] Hlt Hs' Hf Hm.
  assert (∀ v, (∃ r, r ∈ outgoing g a ∧ permitted kinds r = true ∧ relation_to r = v) ↔ leads a v) as Hout.
  { intros v. unfold leads, outgoing. split; intros (r & Hr).
    - destruct Hr as (Hr & Hp & Ht). apply list_elem_of_In, filter_In in Hr as [Hr Ha]. apply bool_decide_eq_true_1 in Ha. exists r. split; [by apply list_elem_of_In|done].
    - destruct Hr as (Hr & Hp & Ha & Ht). exists r. split; [|done]. apply list_elem_of_In, filter_In. split; [by apply list_elem_of_In|]. by apply bool_decide_eq_true_2. }
  setoid_rewrite Hout in Hf. split; [done..| | |set_solver| |].
  - intros v [Hv|Hv]%Hm; [by apply Hsound|]. apply Hf in Hv as [_ Hv]. rewrite Nat.min_l by lia. right. exists a. split; [apply Hnow; by left|done].
  - intros v Hv. apply Hm. left. by apply Hcomp.
  - intros v [Hv|Hv]%elem_of_app; [destruct (Hnext v Hv) as (? & ? & ?); split; [apply Hm; by left|done]|]. split; [apply Hm; by right|]. split; [|done]. apply Hf in Hv as [Hv _]. intros Hw. by apply Hv, Hcomp.
  - intros _ u Hu. rewrite elem_of_app. apply Hm in Hu as [Hu|Hu]; [|tauto]. destruct (Hdone Hlt u Hu) as [[->|Hin]%elem_of_cons|[Hin|Hall]]; [|tauto|tauto|].
    + right; right. intros v Hv. apply Hm. destruct (decide (mem v visited)) as [|Hn]; [by left|]. right. by apply Hf.
    + right; right. intros v Hv. apply Hm. left. by apply Hall.
Qed.
Lemma level_next limit d b B visited : at_level limit d [] (b :: B) visited → at_level limit (S d) (b :: B) [] visited.
Proof.
  intros [Hs Hd Hsound Hcomp Hnow Hnext Hdone]. assert (d < limit)%nat as Hlt by (apply (Hnext b); by left). split; [done|lia| | | |set_solver|].
  - intros v Hv. eapply within_mono; [|by apply Hsound]. lia.
  - intros v [Hv|(u & Hu & Huv)]; [by apply Hcomp|]. destruct (Hdone Hlt u) as [Hin|[Hin|Hall]]; [by apply Hcomp|set_solver| |by apply Hall]. exfalso. by apply (Hnext u Hin).
  - intros v Hv. apply Hnext in Hv as (Hv & _ & _). apply Hsound in Hv. by rewrite Nat.min_l in Hv by lia.
  - intros _ u Hu. destruct (Hdone Hlt u Hu) as [Hin|[Hin|Hall]]; [set_solver|tauto|tauto].
Qed.
Lemma level_end limit d visited v : at_level limit d [] [] visited → mem v visited ↔ within limit v.
Proof.
  intros [Hs Hd Hsound Hcomp Hnow Hnext Hdone]. split; [intros Hv; eapply within_mono; [|by apply Hsound]; lia|]. destruct (decide (d = limit)) as [->|Hne]; [apply Hcomp|].
  assert (∀ n v, within n v → mem v visited) as Hall; [|apply Hall]. induction n as [|n IH]; intros w Hw; [apply Hcomp; apply (within_mono 0); [lia|done]|].
  destruct Hw as [Hw|(u & Hu & Huw)]; [by apply IH|]. destruct (Hdone ltac:(lia) u (IH u Hu)) as [Hin|[Hin|Hcl]]; [set_solver..|by apply Hcl].
Qed.

(** ** Fuel: every step takes a node off the queue, and no node is queued twice. *)
Definition nodes : list RuntimeRef := remove_dups (start :: map relation_to (graph_relations g)).
Definition unvisited (visited : list (RuntimeRef * unit)) : list RuntimeRef := filter (λ v, ¬ mem v visited) nodes.
Lemma unvisited_expand a visited visited' fresh : NoDup fresh →
  (∀ v, v ∈ fresh ↔ ¬ mem v visited ∧ ∃ r, r ∈ outgoing g a ∧ permitted kinds r = true ∧ relation_to r = v) → (∀ v, mem v visited' ↔ mem v visited ∨ v ∈ fresh) →
  (length fresh + length (unvisited visited') ≤ length (unvisited visited))%nat.
Proof.
  intros Hnd Hf Hm. rewrite <-length_app. apply NoDup_incl_length.
  - apply NoDup_ListNoDup, NoDup_app. split; [done|]. split; [|apply NoDup_filter, NoDup_remove_dups]. intros v Hv Hu. apply list_elem_of_filter in Hu as [Hu _]. apply Hu, Hm. by right.
  - intros v Hv%list_elem_of_In. apply list_elem_of_In, list_elem_of_filter. apply elem_of_app in Hv as [Hv|Hv].
    + apply Hf in Hv as (Hv & r & Hr & _ & <-). split; [done|]. unfold nodes. apply elem_of_remove_dups. right. apply list_elem_of_fmap_2. apply list_elem_of_In, filter_In in Hr as [Hr _]. by apply list_elem_of_In.
    + apply list_elem_of_filter in Hv as [Hv Hn]. split; [|done]. intros Hc. apply Hv, Hm. by left.
Qed.

Definition queue_of (d : nat) (A B : list RuntimeRef) : list (RuntimeRef * Z) := map (λ v, (v, Z.of_nat d)) A ++ map (λ v, (v, Z.of_nat d + 1)) B.
Lemma traverse_loop_exact max_depth fuel d A B visited : 0 ≤ max_depth → at_level (Z.to_nat max_depth) d A B visited →
  (length A + length B + length (unvisited visited) ≤ fuel)%nat →
  ∃ visited', traverse_loop fuel g max_depth kinds visited (queue_of d A B) = Some visited' ∧ bt_sorted visited' ∧ ∀ v, mem v visited' ↔ within (Z.to_nat max_depth) v.
Proof.
  intros Hmax. revert d A B visited. induction fuel as [|fuel IH]; intros d A B visited Hlv Hfuel.
  { destruct A, B; cbn [length] in Hfuel; try lia. exists visited. split; [done|]. split; [apply Hlv|]. intros v. by eapply level_end. }
  assert (∀ d a A B visited, at_level (Z.to_nat max_depth) d (a :: A) B visited → (length (a :: A) + length B + length (unvisited visited) ≤ S fuel)%nat →
    ∃ visited', traverse_loop (S fuel) g max_depth kinds visited (queue_of d (a :: A) B) = Some visited' ∧ bt_sorted visited' ∧ ∀ v, mem v visited' ↔ within (Z.to_nat max_depth) v) as Hstep.
  { clear d A B visited Hlv Hfuel. intros d a A B visited Hlv Hfuel. unfold queue_of. cbn [map app traverse_loop]. pose proof (lv_depth _ _ _ _ _ Hlv) as Hd. destruct (Z.leb_spec max_depth (Z.of_nat d)) as [Hle|Hlt].
    - assert (d = Z.to_nat max_depth) as Ed by lia. apply (IH d A B visited); [|cbn [length] in Hfuel; lia]. rewrite Ed in Hlv |- *. by eapply level_skip.
    - destruct (expand_ok (Z.of_nat d) (outgoing g a) visited (map (λ v, (v, Z.of_nat d)) A ++ map (λ v, (v, Z.of_nat d + 1)) B) (lv_sorted _ _ _ _ _ Hlv)) as (vs & fresh & E & Hvs & Hnd & Hf & Hm).
      rewrite E, <-app_assoc, <-map_app. apply (IH d A (B ++ fresh) vs); [by eapply level_expand; [exact Hlv|lia|..]|].
      pose proof (unvisited_expand a visited vs fresh Hnd Hf Hm). rewrite length_app. cbn [length] in Hfuel. lia. }
  destruct A as [|a A]; [|by apply Hstep]. destruct B as [|b B].
  - exists visited. split; [done|]. split; [apply Hlv|]. intros v. by eapply level_end.
  - apply level_next in Hlv. apply Hstep in Hlv; [|cbn [length] in *; lia]. unfold queue_of in *. cbn [map app] in *. rewrite app_nil_r in Hlv. rewrite Nat2Z.inj_succ in Hlv. unfold Z.succ in Hlv. exact Hlv.
Qed.

(** C20: traversal ends and is exact: it returns, in order and each once, exactly the nodes within
    [max_depth] permitted relations of the start; an empty set of kinds permits every relation. *)
Theorem traverse_exact max_depth : 0 ≤ max_depth →
  ∃ l, traverse g start max_depth kinds = Some l ∧ StronglySorted (λ a b, ltb a b = true) l ∧ ∀ v, v ∈ l ↔ within (Z.to_nat max_depth) v.
Proof.
  intros Hmax. unfold traverse. destruct (traverse_loop_exact max_depth (S (length (graph_relations g))) 0 [start] [] [(start, tt)] Hmax) as (vs & E & Hs & Hv).
  - assert (∀ v, mem v [(start, tt)] ↔ v = start) as Hone.
    { intros v. unfold mem, bs_mem, bt_mem, bt_get. pose proof (cmp_eq v start) as Hc. destruct (cmp v start); naive_solver. }
    split; [repeat constructor|lia| | | |set_solver|].
    + intros v ->%Hone. apply (within_mono 0); [lia|done].
    + intros v Hw. by apply Hone.
    + set_solver.
    + intros _ u ->%Hone. left. by left.
  - cbn [length]. assert (start ∉ unvisited [(start, tt)]) as Hstart.
    { intros Hin. apply list_elem_of_filter in Hin as [Hin _]. apply Hin. unfold mem, bs_mem, bt_mem, bt_get. by rewrite cmp_refl. }
    pose proof (NoDup_incl_length (l := start :: unvisited [(start, tt)]) (l' := start :: map relation_to (graph_relations g))) as Hlen. cbn [length] in Hlen. rewrite length_map in Hlen.
    enough (S (length (unvisited [(start, tt)])) ≤ S (length (graph_relations g)))%nat by lia. apply Hlen.
    + apply NoDup_ListNoDup. constructor; [done|]. apply NoDup_filter, NoDup_remove_dups.
    + intros v [<-|Hv%list_elem_of_In]; [by left|]. apply list_elem_of_filter in Hv as [_ Hv]. unfold nodes in Hv. rewrite elem_of_remove_dups in Hv. by apply list_elem_of_In in Hv.
  - change (queue_of 0 [start] []) with [(start, 0)] in E. rewrite E. cbn [option_map]. exists (map fst vs). split; [done|]. split.
    + unfold bt_sorted in Hs. clear -Hs. induction Hs as [|p l Hs IH Hall]; cbn; constructor; [done|]. apply Forall_fmap. exact Hall.
    + intros v. rewrite <-Hv. unfold mem, bs_mem, bt_mem. rewrite list_elem_of_fmap. split.
      * intros ([k []] & -> & Hin). cbn. apply bt_get_Some in Hin; [|done]. by rewrite Hin.
      * destruct (bt_get v vs) as [[]|] eqn:Ev; [|done]. intros _. exists (v, tt). split; [done|]. by apply bt_get_elem.
Qed.
End Traverse.

(** * A transaction over a two-record graph *)

Module SampleGraph.
#[local] Existing Instance toy_sha2.
#[local] Existing Instance toy_sha2_laws.
Import SampleLog SampleRead.
(** No vector is normalized here, so any power function serves. *)
#[local] Instance no_powi : Powi := λ x, x.
Definition named (id : string) : RuntimeRef := {| ref_kind := MkRuntimeType "note"; ref_id := MkRuntimeId id |}.
Definition link (id from to : string) : RuntimeMutation :=
  MRelation {| relation_reference := {| ref_kind := MkRuntimeType "cites"; ref_id := MkRuntimeId id |}; relation_from := named from; relation_to := named to;
    relation_valid_from := 6; relation_valid_to := None; relation_properties := [] |}.
Definition next : RuntimeCommit :=
  {| commit_scope := MkScopeId "scope"; commit_at := 12; commit_actor := "writer"; expected_cursor := 2;
     mutations := [link "a" "one" "two"; link "b" "two" "three";
       MEvent {| event_kind := MkRuntimeType "seen"; event_subject := Some (named "three"); event_properties := [] |};
       MRetire {| retired_model := Document; retired_reference := named "one"; effective_at := 12 |}] |}.
Definition tx : DataTransaction := {| transaction_version := 1; transaction_read := stamp; transaction_commit := next |}.
Definition appended : list RuntimeChange := imap (λ i m, committed (2 + Z.of_nat i + 1) next "next" (Z.of_nat i) m None) (mutations next).
Definition graph : RuntimeGraphSnapshot := from_changes (log ++ appended) (MkScopeId "scope") 20 6.

Lemma tx_valid : transaction_validate tx = Some (Ok tt).
Proof. vm_compute. reflexivity. Qed.
Lemma tx_commits : commits tx appended.
Proof. split; [done|]. intros [|[|[|[|i]]]] c Hc; cbn in Hc; try done; injection Hc as <-; split_and!; done. Qed.
Lemma log_below : Forall (λ c, change_cursor c ≤ commit_cursor (transaction_read tx)) log.
Proof. repeat constructor; vm_compute; congruence. Qed.
Lemma preview_is_the_committed_graph_witness :
  ∃ view, preview tx (from_changes log (MkScopeId "scope") 20 2) = Some (Ok view) ∧ map record_reference (view_records view) = [named "two"; RuntimeRef_event (MkRuntimeType "seen") 5]
    ∧ length (view_relations view) = 3%nat.
Proof.
  destruct (preview_is_the_committed_graph tx log appended 20 tx_valid tx_commits log_below ltac:(vm_compute; reflexivity)) as (view & Hp & _ & _ & Hr & Hl).
  exists view. split; [exact Hp|]. rewrite Hr, Hl. vm_compute. split; reflexivity.
Defined.
Lemma traverse_exact_witness :
  ∃ l, traverse graph (named "one") 2 [] = Some l ∧ named "three" ∈ l.
Proof.
  destruct (traverse_exact graph (named "one") [] 2 ltac:(lia)) as (l & Hl & _ & Hv). exists l. split; [exact Hl|]. apply Hv. change (Z.to_nat 2) with 2%nat. cbn [within]. right. exists (named "two"). split; [right; exists (named "one"); split; [reflexivity|]|].
  - eexists. split; [apply list_elem_of_In; vm_compute; left; reflexivity|]. split; [reflexivity|]. split; reflexivity.
  - eexists. split; [apply list_elem_of_In; vm_compute; right; left; reflexivity|]. split; [reflexivity|]. split; reflexivity.
Defined.
End SampleGraph.
