(* ===== verification/RuntimeSnapshot.v ===== *)
(** Data snapshots of the runtime ([rrd-core]: runtime.rs).

    The logical view of every family at one instant and one cursor: claims, records, relations,
    events, vectors, samples, places and objects, each value with the model its catalogue table
    gives it.  A change of the wrong family fails the whole snapshot.

    Theorems: assembly succeeds exactly when the catalogue is valid and admits every change that
    counts; each family then holds exactly what the last change of every identity left; and the
    claims are those in force among the versions of their subject and predicate. *)

From S2P Require Import Prelude Machine BTree Ident Text Digest Claim Temporal RuntimeTypes RuntimeSchema RuntimeGraph.
Open Scope Z_scope.

(** core/runtime.rs:1334-1337 RuntimeModelValue *)
Record RuntimeModelValue (T : Type) := { value_model : RuntimeLogicalModel; model_value : T }.
Arguments Build_RuntimeModelValue {T}. Arguments value_model {T}. Arguments model_value {T}.
(** core/runtime.rs:1343-1347 RuntimeEventValue *)
Record RuntimeEventValue := { ev_reference : RuntimeRef; occurred_at : Z; ev_event : RuntimeEvent }.
(** core/runtime.rs:1353-1366 RuntimeDataSnapshot *)
Record RuntimeDataSnapshot := {
  snap_scope : ScopeId; snap_valid_at : Z; snap_known_at : Z; snap_revision : Z; snap_claims : list Claim; snap_records : list (RuntimeModelValue RuntimeRecord);
  snap_relations : list (RuntimeModelValue RuntimeRelation); snap_events : list (RuntimeModelValue RuntimeEventValue); snap_vectors : list (RuntimeModelValue RuntimeVector);
  snap_series : list (RuntimeModelValue RuntimeSeriesSample); snap_geo : list (RuntimeModelValue RuntimeGeo); snap_objects : list (RuntimeModelValue ObjectReference)
}.
Definition named_as {T} (ref : T → RuntimeRef) (reference : RuntimeRef) (entry : RuntimeModelValue T) : bool := bool_decide (ref (model_value entry) = reference).
(** core/runtime.rs:1369-1413 RuntimeDataSnapshot::contains *)
Definition contains (self : RuntimeDataSnapshot) (model : RuntimeLogicalModel) (reference : RuntimeRef) : bool :=
  if is_record_like model then existsb (λ entry, bool_decide (value_model entry = model) && named_as record_reference reference entry) (snap_records self)
  else if bool_decide (model = GraphRelation) then existsb (λ entry, bool_decide (value_model entry = model) && named_as relation_reference reference entry) (snap_relations self)
  else if is_event_like model then existsb (λ entry, bool_decide (value_model entry = model) && named_as ev_reference reference entry) (snap_events self)
  else match model with
  | Vector => existsb (named_as vector_reference reference) (snap_vectors self)
  | TimeSeries => existsb (named_as sample_reference reference) (snap_series self)
  | Geo => existsb (named_as geo_reference reference) (snap_geo self)
  | Object => existsb (named_as object_reference reference) (snap_objects self)
  | _ => false
  end.

(** core/runtime.rs:1690-1696 resolve_snapshot_claims, the order of the versions *)
Definition version_order (a b : Claim) : comparison :=
  match Z.compare (valid_from b) (valid_from a) with
  | Eq => match Z.compare (tx_time b) (tx_time a) with Eq => cmp (Claim.canonical_bytes a) (Claim.canonical_bytes b) | c => c end
  | c => c
  end.
(** core/runtime.rs:1683-1700 resolve_snapshot_claims *)
Definition resolve_snapshot_claims (claims : list (Subject * Predicate * list Claim)) (at_ : Z) : list Claim :=
  omap (λ versions, resolve_as_of (sort_by version_order versions) at_) (map snd claims).
Definition push_claim (claims : list (Subject * Predicate * list Claim)) (claim : Claim) : list (Subject * Predicate * list Claim) :=
  bt_insert (subject claim, predicate claim) (default [] (bt_get (subject claim, predicate claim) claims) ++ [claim]) claims.

(** core/runtime.rs:1419-1461 RuntimeDataSnapshot::from_claim_changes *)
Definition from_claim_changes (changes : list RuntimeChange) (scope : ScopeId) (at_ known_at : Z) : result Error RuntimeDataSnapshot :=
  let? claims := try_fold (λ claims change,
      match change_mutation change with
      | MClaim claim => Ok (push_claim claims claim)
      | _ => invalid ("runtime mutation at cursor " +:+ pretty (change_cursor change) +:+ " requires a schema before snapshot assembly")
      end) [] (List.filter (visible scope known_at) changes) in
  Ok {| snap_scope := scope; snap_valid_at := at_; snap_known_at := known_at; snap_revision := 0; snap_claims := resolve_snapshot_claims claims at_;
        snap_records := []; snap_relations := []; snap_events := []; snap_vectors := []; snap_series := []; snap_geo := []; snap_objects := [] |}.

(** core/runtime.rs:1472-1482 RuntimeDataSnapshot::from_changes, the model of a reference *)
Definition model_for (catalogue : list (RuntimeType * RuntimeTableSchema)) (revision : Z) (reference : RuntimeRef) : result Error RuntimeLogicalModel :=
  match bt_get (ref_kind reference) catalogue with
  | Some table => Ok (table_model table)
  | None => invalid ("runtime value type " +:+ type_str (ref_kind reference) +:+ " is absent from schema revision " +:+ pretty revision)
  end.
(** core/runtime.rs:1706-1717 data_snapshot_model_error *)
Definition data_snapshot_model_error {T} (reference : RuntimeRef) (model : RuntimeLogicalModel) (expected : string) : result Error T :=
  invalid ("catalogue model " +:+ debug_model model +:+ " for " +:+ type_str (ref_kind reference) +:+ "/" +:+ id_str (ref_id reference) +:+ " cannot be read as " +:+ expected).
(** core/runtime.rs:1702-1704 runtime_event_reference *)
Definition runtime_event_reference (event : RuntimeEvent) (cursor : Z) : RuntimeRef := RuntimeRef_event (event_kind event) cursor.

Definition Values (T : Type) : Type := list (RuntimeRef * RuntimeModelValue T).
(** core/runtime.rs:1484-1491 RuntimeDataSnapshot::from_changes, the maps *)
Record Maps := {
  claims_of : list (Subject * Predicate * list Claim); records_of : Values RuntimeRecord; relations_of : Values RuntimeRelation; events_of : Values RuntimeEventValue;
  vectors_of : Values RuntimeVector; series_of : Values RuntimeSeriesSample; geo_of : Values RuntimeGeo; objects_of : Values ObjectReference
}.
Definition no_maps : Maps := {| claims_of := []; records_of := []; relations_of := []; events_of := []; vectors_of := []; series_of := []; geo_of := []; objects_of := [] |}.
Definition set_claims (m : Maps) c := {| claims_of := c; records_of := records_of m; relations_of := relations_of m; events_of := events_of m; vectors_of := vectors_of m; series_of := series_of m; geo_of := geo_of m; objects_of := objects_of m |}.
Definition set_records (m : Maps) r := {| claims_of := claims_of m; records_of := r; relations_of := relations_of m; events_of := events_of m; vectors_of := vectors_of m; series_of := series_of m; geo_of := geo_of m; objects_of := objects_of m |}.
Definition set_relations (m : Maps) r := {| claims_of := claims_of m; records_of := records_of m; relations_of := r; events_of := events_of m; vectors_of := vectors_of m; series_of := series_of m; geo_of := geo_of m; objects_of := objects_of m |}.
Definition set_events (m : Maps) r := {| claims_of := claims_of m; records_of := records_of m; relations_of := relations_of m; events_of := r; vectors_of := vectors_of m; series_of := series_of m; geo_of := geo_of m; objects_of := objects_of m |}.
Definition set_vectors (m : Maps) r := {| claims_of := claims_of m; records_of := records_of m; relations_of := relations_of m; events_of := events_of m; vectors_of := r; series_of := series_of m; geo_of := geo_of m; objects_of := objects_of m |}.
Definition set_series (m : Maps) r := {| claims_of := claims_of m; records_of := records_of m; relations_of := relations_of m; events_of := events_of m; vectors_of := vectors_of m; series_of := r; geo_of := geo_of m; objects_of := objects_of m |}.
Definition set_geo (m : Maps) r := {| claims_of := claims_of m; records_of := records_of m; relations_of := relations_of m; events_of := events_of m; vectors_of := vectors_of m; series_of := series_of m; geo_of := r; objects_of := objects_of m |}.
Definition set_objects (m : Maps) r := {| claims_of := claims_of m; records_of := records_of m; relations_of := relations_of m; events_of := events_of m; vectors_of := vectors_of m; series_of := series_of m; geo_of := geo_of m; objects_of := r |}.

(** core/runtime.rs:1720-1764 retire_data_identity *)
Definition retire_data_identity (retirement : RuntimeRetirement) (m : Maps) : Maps :=
  let reference := retired_reference retirement in
  if is_record_like (retired_model retirement) then set_records m (bt_remove reference (records_of m))
  else if bool_decide (retired_model retirement = GraphRelation) then set_relations m (bt_remove reference (relations_of m))
  else if is_event_like (retired_model retirement) then set_events m (bt_remove reference (events_of m))
  else match retired_model retirement with
  | Vector => set_vectors m (bt_remove reference (vectors_of m))
  | TimeSeries => set_series m (bt_remove reference (series_of m))
  | Geo => set_geo m (bt_remove reference (geo_of m))
  | Object => set_objects m (bt_remove reference (objects_of m))
  | _ => m
  end.
Definition stored {T} (reference : RuntimeRef) (model : RuntimeLogicalModel) (value : T) (m : Values T) : Values T :=
  bt_insert reference {| value_model := model; model_value := value |} m.

(** core/runtime.rs:1497-1641 RuntimeDataSnapshot::from_changes, one change *)
Definition data_change (catalogue : list (RuntimeType * RuntimeTableSchema)) (revision at_ : Z) (m : Maps) (change : RuntimeChange) : result Error Maps :=
  let model_for := model_for catalogue revision in
  match change_mutation change with
  | MClaim claim => Ok (set_claims m (push_claim (claims_of m) claim))
  | MRecord record =>
    if record_valid_from record <=? at_ then
      let? model := model_for (record_reference record) in
      if negb (is_record_like model) then data_snapshot_model_error (record_reference record) model "record"
      else Ok (set_records m (stored (record_reference record) model record (records_of m)))
    else Ok m
  | MRelation relation =>
    if relation_valid_from relation <=? at_ then
      let? model := model_for (relation_reference relation) in
      if negb (bool_decide (model = GraphRelation)) then data_snapshot_model_error (relation_reference relation) model "graph relation"
      else Ok (set_relations m (stored (relation_reference relation) model relation (relations_of m)))
    else Ok m
  | MEvent event =>
    if change_at change <=? at_ then
      let reference := runtime_event_reference event (change_cursor change) in
      let? model := model_for reference in
      if negb (is_event_like model) then data_snapshot_model_error reference model "event"
      else Ok (set_events m (stored reference model {| ev_reference := reference; occurred_at := change_at change; ev_event := event |} (events_of m)))
    else Ok m
  | MVector vector =>
    if vector_valid_from vector <=? at_ then
      let? model := model_for (vector_reference vector) in
      if negb (bool_decide (model = Vector)) then data_snapshot_model_error (vector_reference vector) model "vector"
      else Ok (set_vectors m (stored (vector_reference vector) model vector (vectors_of m)))
    else Ok m
  | MSeriesSample sample =>
    if sample_observed_at sample <=? at_ then
      let? model := model_for (sample_reference sample) in
      if negb (bool_decide (model = TimeSeries)) then data_snapshot_model_error (sample_reference sample) model "time-series sample"
      else Ok (set_series m (stored (sample_reference sample) model sample (series_of m)))
    else Ok m
  | MGeo value =>
    if geo_valid_from value <=? at_ then
      let? model := model_for (geo_reference value) in
      if negb (bool_decide (model = Geo)) then data_snapshot_model_error (geo_reference value) model "geo value"
      else Ok (set_geo m (stored (geo_reference value) model value (geo_of m)))
    else Ok m
  | MObject object =>
    if change_at change <=? at_ then
      let? model := model_for (object_reference object) in
      if negb (bool_decide (model = Object)) then data_snapshot_model_error (object_reference object) model "object reference"
      else Ok (set_objects m (stored (object_reference object) model object (objects_of m)))
    else Ok m
  | MRetire retirement =>
    if effective_at retirement <=? at_ then
      let? actual := model_for (retired_reference retirement) in
      if negb (bool_decide (actual = retired_model retirement)) then data_snapshot_model_error (retired_reference retirement) actual "retirement"
      else Ok (retire_data_identity retirement m)
    else Ok m
  | MSchema _ => Ok m
  end.
Definition entry_valid {T} (from : T → Z) (to : T → option Z) (at_ : Z) (entry : RuntimeModelValue T) : bool := valid_at_window (from (model_value entry)) (to (model_value entry)) at_.
(** core/runtime.rs:1644-1679 RuntimeDataSnapshot::from_changes, the snapshot of the maps *)
Definition snapshot_of (scope : ScopeId) (at_ known_at revision : Z) (m : Maps) : RuntimeDataSnapshot :=
  {| snap_scope := scope; snap_valid_at := at_; snap_known_at := known_at; snap_revision := revision; snap_claims := resolve_snapshot_claims (claims_of m) at_;
     snap_records := List.filter (entry_valid record_valid_from record_valid_to at_) (map snd (records_of m));
     snap_relations := List.filter (entry_valid relation_valid_from relation_valid_to at_) (map snd (relations_of m));
     snap_events := map snd (events_of m);
     snap_vectors := List.filter (entry_valid vector_valid_from vector_valid_to at_) (map snd (vectors_of m));
     snap_series := map snd (series_of m);
     snap_geo := List.filter (entry_valid geo_valid_from geo_valid_to at_) (map snd (geo_of m));
     snap_objects := map snd (objects_of m) |}.
(** core/runtime.rs:1463-1680 RuntimeDataSnapshot::from_changes; [None] is a panic of the schema validation. *)
Definition data_from_changes (changes : list RuntimeChange) (schema : RuntimeSchemaRegistry) (scope : ScopeId) (at_ known_at : Z) : option (result Error RuntimeDataSnapshot) :=
  do* registry_validate schema in
  let* catalogue := Some (catalogue_tables schema) in
  let* m := Some (try_fold (data_change catalogue (revision schema) at_) no_maps (List.filter (visible scope known_at) changes)) in
  Some (Ok (snapshot_of scope at_ known_at (revision schema) m)).

(** * The families *)

(** What a change does to a family: write a value under its reference or remove a reference. *)
Definition Effect (T : Type) : Type := option (RuntimeRef * option (RuntimeModelValue T)).
Definition apply_effect {T} (m : Values T) (e : Effect T) : Values T :=
  match e with Some (k, Some v) => bt_insert k v m | Some (k, None) => bt_remove k m | None => m end.
Definition at_key {T} (k : RuntimeRef) (e : Effect T) : option (option (RuntimeModelValue T)) :=
  match e with Some (k', v) => if decide (k' = k) then Some v else None | None => None end.
(** The list of a family shows exactly the values the last effects leave, filtered. *)
Definition exact_family {T} (ref : T → RuntimeRef) (P : RuntimeModelValue T → bool) (l : list (RuntimeModelValue T)) (effects : list (Effect T)) : Prop :=
  ∀ entry, entry ∈ l ↔ P entry = true ∧ outcome (omap (at_key (ref (model_value entry))) effects) = Some entry.

Section Family.
Context {T : Type} (ref : T → RuntimeRef) (effects : list (Effect T)).
Hypothesis Hkeys : ∀ k v, Some (k, Some v) ∈ effects → ref (model_value v) = k.

Lemma effects_keyed : keyed (λ v, ref (model_value v)) (foldl apply_effect [] effects).
Proof.
  assert (∀ m, keyed (λ v, ref (model_value v)) m → keyed (λ v, ref (model_value v)) (foldl apply_effect m effects)) as Hgen; [|apply Hgen, keyed_nil].
  induction effects as [|e l IH]; intros m Hm; [done|]. cbn [foldl]. apply IH; [intros k v Hin; apply Hkeys; by right|]. destruct e as [[k [v|]]|]; cbn; [|by apply keyed_remove|done].
  rewrite <-(Hkeys k v) by by left. by apply (keyed_insert (λ v, ref (model_value v))).
Qed.
End Family.
Lemma effects_get {T} (effects : list (Effect T)) k : bt_sorted (foldl apply_effect [] effects) ∧ bt_get k (foldl apply_effect [] effects) = outcome (omap (at_key k) effects).
Proof.
  induction effects as [|e l [Hs IH]] using rev_ind; [split; [constructor|done]|]. rewrite foldl_snoc, omap_app. cbn [omap list_omap]. split.
  - destruct e as [[k' [v|]]|]; cbn; [by apply bt_insert_sorted|by apply bt_remove_sorted|done].
  - destruct e as [[k' [v|]]|]; cbn [apply_effect at_key].
    + rewrite bt_get_insert. destruct (decide (k' = k)); [by rewrite outcome_snoc|by rewrite app_nil_r].
    + rewrite get_remove by done. destruct (decide (k' = k)); [by rewrite outcome_snoc|by rewrite app_nil_r].
    + by rewrite app_nil_r.
Qed.
Lemma family_exact {T} (ref : T → RuntimeRef) (P : RuntimeModelValue T → bool) (effects : list (Effect T)) : (∀ k v, Some (k, Some v) ∈ effects → ref (model_value v) = k) →
  exact_family ref P (List.filter P (map snd (foldl apply_effect [] effects))) effects.
Proof.
  intros Hk entry. rewrite list_elem_of_In, filter_In, <-list_elem_of_In, (keyed_values (λ v, ref (model_value v))) by by apply effects_keyed. rewrite (proj2 (effects_get effects _)). tauto.
Qed.

Section Effects.
Context (cat : list (RuntimeType * RuntimeTableSchema)) (at_ : Z).

Definition table_of (reference : RuntimeRef) : option RuntimeLogicalModel := table_model <$> bt_get (ref_kind reference) cat.
Definition writes {T} (reference : RuntimeRef) (value : T) (starts : Z) : Effect T :=
  if starts <=? at_ then (λ model, (reference, Some {| value_model := model; model_value := value |})) <$> table_of reference else None.
Definition removes {T} (P : RuntimeLogicalModel → bool) (t : RuntimeRetirement) : Effect T :=
  if ((effective_at t <=? at_) && P (retired_model t))%bool then Some (retired_reference t, None) else None.
Definition is_model (m m' : RuntimeLogicalModel) : bool := bool_decide (m' = m).

Definition record_eff (c : RuntimeChange) : Effect RuntimeRecord :=
  match change_mutation c with MRecord r => writes (record_reference r) r (record_valid_from r) | MRetire t => removes is_record_like t | _ => None end.
Definition relation_eff (c : RuntimeChange) : Effect RuntimeRelation :=
  match change_mutation c with MRelation r => writes (relation_reference r) r (relation_valid_from r) | MRetire t => removes (is_model GraphRelation) t | _ => None end.
Definition event_eff (c : RuntimeChange) : Effect RuntimeEventValue :=
  match change_mutation c with
  | MEvent e => writes (RuntimeRef_event (event_kind e) (change_cursor c)) {| ev_reference := RuntimeRef_event (event_kind e) (change_cursor c); occurred_at := change_at c; ev_event := e |} (change_at c)
  | MRetire t => removes is_event_like t
  | _ => None
  end.
Definition vector_eff (c : RuntimeChange) : Effect RuntimeVector :=
  match change_mutation c with MVector v => writes (vector_reference v) v (vector_valid_from v) | MRetire t => removes (is_model Vector) t | _ => None end.
Definition sample_eff (c : RuntimeChange) : Effect RuntimeSeriesSample :=
  match change_mutation c with MSeriesSample s => writes (sample_reference s) s (sample_observed_at s) | MRetire t => removes (is_model TimeSeries) t | _ => None end.
Definition geo_eff (c : RuntimeChange) : Effect RuntimeGeo :=
  match change_mutation c with MGeo g => writes (geo_reference g) g (geo_valid_from g) | MRetire t => removes (is_model Geo) t | _ => None end.
Definition object_eff (c : RuntimeChange) : Effect ObjectReference :=
  match change_mutation c with MObject o => writes (object_reference o) o (change_at c) | MRetire t => removes (is_model Object) t | _ => None end.
Definition claim_of (c : RuntimeChange) : option Claim := match change_mutation c with MClaim claim => Some claim | _ => None end.

(** A table of the family, when the change counts at the instant. *)
Definition in_table (P : RuntimeLogicalModel → bool) (reference : RuntimeRef) (starts : Z) : Prop := starts ≤ at_ → ∃ m, table_of reference = Some m ∧ P m = true.
Definition admits (c : RuntimeChange) : Prop :=
  match change_mutation c with
  | MRecord r => in_table is_record_like (record_reference r) (record_valid_from r)
  | MRelation r => in_table (is_model GraphRelation) (relation_reference r) (relation_valid_from r)
  | MEvent e => in_table is_event_like (RuntimeRef_event (event_kind e) (change_cursor c)) (change_at c)
  | MVector v => in_table (is_model Vector) (vector_reference v) (vector_valid_from v)
  | MSeriesSample s => in_table (is_model TimeSeries) (sample_reference s) (sample_observed_at s)
  | MGeo g => in_table (is_model Geo) (geo_reference g) (geo_valid_from g)
  | MObject o => in_table (is_model Object) (object_reference o) (change_at c)
  | MRetire t => in_table (is_model (retired_model t)) (retired_reference t) (effective_at t)
  | MClaim _ | MSchema _ => True
  end.

Definition applied (m : Maps) (c : RuntimeChange) : Maps :=
  {| claims_of := match claim_of c with Some claim => push_claim (claims_of m) claim | None => claims_of m end; records_of := apply_effect (records_of m) (record_eff c);
     relations_of := apply_effect (relations_of m) (relation_eff c); events_of := apply_effect (events_of m) (event_eff c); vectors_of := apply_effect (vectors_of m) (vector_eff c);
     series_of := apply_effect (series_of m) (sample_eff c); geo_of := apply_effect (geo_of m) (geo_eff c); objects_of := apply_effect (objects_of m) (object_eff c) |}.
Lemma maps_eta m : {| claims_of := claims_of m; records_of := records_of m; relations_of := relations_of m; events_of := events_of m; vectors_of := vectors_of m; series_of := series_of m;
  geo_of := geo_of m; objects_of := objects_of m |} = m.
Proof. by destruct m. Qed.

Lemma model_for_cases revision reference : (∃ m, model_for cat revision reference = Ok m ∧ table_of reference = Some m) ∨ (∃ e, model_for cat revision reference = Err e) ∧ table_of reference = None.
Proof. unfold model_for, table_of. destruct (bt_get _ cat) as [t|]; cbn; [left; eauto|right; split; [by eexists|done]]. Qed.

(** One change: accepted exactly when its table admits it, and then every family gets its effect. *)
Lemma data_change_ok number m c m' : data_change cat number at_ m c = Ok m' ↔ admits c ∧ m' = applied m c.
Proof.
  unfold data_change, applied, admits, claim_of, record_eff, relation_eff, event_eff, vector_eff, sample_eff, geo_eff, object_eff, writes, removes, in_table, is_model, retire_data_identity, runtime_event_reference.
  destruct (change_mutation c) as [cl|g|r|r|e|v|sa|ge|o|t]; cbn [apply_effect]; rewrite ?maps_eta.
  1, 2: by split; [intros [= <-]|intros [_ ->]].
  all: match goal with |- context [?s <=? at_] => destruct (Z.leb_spec s at_) as [Hle|Hgt] end; cbn [andb apply_effect]; rewrite ?maps_eta;
    [|by split; [intros [= <-]; split; [intros ?; lia|done]|intros [_ ->]]].
  all: match goal with |- context [model_for _ ?n ?k] => destruct (model_for_cases n k) as [(md & E1 & E2)|[[err E1] E2]]; rewrite E1, E2 end;
    [|by split; [done|intros [Hc _]; destruct (Hc Hle) as (? & ? & _)]].
  all: cbn [fmap option_fmap option_map apply_effect].
  all: match goal with |- context [negb ?b] => destruct b eqn:Eb end; cbn [negb]; [|split; [done|]; intros [Hc _]; destruct (Hc Hle) as (? & [= <-] & Hm); congruence].
  1-7: split; [intros [= <-]; split; [by eauto|done]|by intros [_ ->]].
  split; [intros [= <-]; split; [by eauto|]|intros [_ ->]; f_equal]; destruct m, (retired_model t); done.
Qed.
Lemma data_changes_ok number l m m' : try_fold (data_change cat number at_) m l = Ok m' ↔ Forall admits l ∧ m' = foldl applied m l.
Proof.
  revert m. induction l as [|c l IH]; intros m; cbn [try_fold foldl]; [split; [by intros [= <-]|by intros [_ ->]]|]. rewrite Forall_cons. pose proof (data_change_ok number m c) as Hc.
  destruct (data_change cat number at_ m c) as [m1|e]; [destruct (proj1 (Hc m1) eq_refl) as [Ha ->]; rewrite IH; tauto|]. split; [done|]. intros [[Ha _] _]. pose proof (proj2 (Hc _) (conj Ha eq_refl)). done.
Qed.
(** The families evolve on their own. *)
Lemma applied_fields l m : let r := foldl applied m l in
  claims_of r = foldl push_claim (claims_of m) (omap claim_of l) ∧ records_of r = foldl apply_effect (records_of m) (map record_eff l) ∧ relations_of r = foldl apply_effect (relations_of m) (map relation_eff l)
  ∧ events_of r = foldl apply_effect (events_of m) (map event_eff l) ∧ vectors_of r = foldl apply_effect (vectors_of m) (map vector_eff l) ∧ series_of r = foldl apply_effect (series_of m) (map sample_eff l)
  ∧ geo_of r = foldl apply_effect (geo_of m) (map geo_eff l) ∧ objects_of r = foldl apply_effect (objects_of m) (map object_eff l).
Proof.
  revert m. induction l as [|c l IH]; intros m; [by split_and!|]. cbn [foldl map omap list_omap]. destruct (IH (applied m c)) as (H1 & H2 & H3 & H4 & H5 & H6 & H7 & H8). split_and!; try done.
  rewrite H1. cbn [claims_of applied]. by destruct (claim_of c).
Qed.
Lemma writes_key {T} (r : RuntimeRef) (v : T) starts k w : writes r v starts = Some (k, Some w) → k = r ∧ model_value w = v.
Proof. unfold writes. destruct (_ <=? _); [|done]. destruct (table_of r); cbn; [|done]. by intros [= <- <-]. Qed.
Lemma removes_key {T} P t k (w : RuntimeModelValue T) : removes P t ≠ Some (k, Some w).
Proof. unfold removes. by destruct (_ && _). Qed.
End Effects.
Ltac effect_keys := intros k v Hin; apply list_elem_of_fmap in Hin as (c & E & _); symmetry in E; revert E;
  unfold record_eff, relation_eff, event_eff, vector_eff, sample_eff, geo_eff, object_eff; destruct (change_mutation c); try done; try (intros E; by apply removes_key in E); intros [-> Ev]%writes_key; by rewrite Ev.

Lemma filter_true {A} (l : list A) : List.filter (λ _, true) l = l.
Proof. by apply filter_all, Forall_true. Qed.
Lemma registry_catalogue schema : registry_validate schema = Some (Ok tt) → catalogue_tables schema = Ok (tables schema).
Proof.
  unfold registry_validate. destruct (_ =? _); [done|]. destruct (trims_to_nothing _); [done|]. destruct (is_empty _); [done|]. destruct (catalogue_tables schema) as [c|] eqn:Ec; [|done].
  intros _. unfold catalogue_tables in Ec. destruct_matches_in Ec; congruence.
Qed.

(** C13: a data snapshot is exact: under a valid catalogue it is assembled exactly when the table of
    every change that counts (of the scope, up to the cursor, in force at the instant) is of the
    change's family; and then each family holds, with the model of its table, exactly what the last
    change of every identity leaves, filtered by validity where the family has windows. *)
Theorem data_snapshot_exact changes schema scope at_ known_at :
  registry_validate schema = Some (Ok tt) →
  let log := List.filter (visible scope known_at) changes in
  ((∃ snap, data_from_changes changes schema scope at_ known_at = Some (Ok snap)) ↔ Forall (admits (tables schema) at_) log)
  ∧ ∀ snap, data_from_changes changes schema scope at_ known_at = Some (Ok snap) →
      exact_family record_reference (entry_valid record_valid_from record_valid_to at_) (snap_records snap) (map (record_eff (tables schema) at_) log)
      ∧ exact_family relation_reference (entry_valid relation_valid_from relation_valid_to at_) (snap_relations snap) (map (relation_eff (tables schema) at_) log)
      ∧ exact_family ev_reference (λ _, true) (snap_events snap) (map (event_eff (tables schema) at_) log)
      ∧ exact_family vector_reference (entry_valid vector_valid_from vector_valid_to at_) (snap_vectors snap) (map (vector_eff (tables schema) at_) log)
      ∧ exact_family sample_reference (λ _, true) (snap_series snap) (map (sample_eff (tables schema) at_) log)
      ∧ exact_family geo_reference (entry_valid geo_valid_from geo_valid_to at_) (snap_geo snap) (map (geo_eff (tables schema) at_) log)
      ∧ exact_family object_reference (λ _, true) (snap_objects snap) (map (object_eff (tables schema) at_) log).
Proof.
  intros Hv log. unfold data_from_changes. rewrite Hv, registry_catalogue by done. fold log. pose proof (data_changes_ok (tables schema) at_ (revision schema) log no_maps) as Hok.
  destruct (try_fold _ no_maps log) as [m|e].
  2: { split; [|done]. split; [by intros []|]. intros Ha. pose proof (proj2 (Hok _) (conj Ha eq_refl)). done. }
  destruct (proj1 (Hok m) eq_refl) as [Ha ->]. split; [split; [done|by eexists]|]. intros snap [= <-]. cbn [snapshot_of snap_records snap_relations snap_events snap_vectors snap_series snap_geo snap_objects].
  destruct (applied_fields (tables schema) at_ log no_maps) as (_ & -> & -> & -> & -> & -> & -> & ->). cbn [records_of relations_of events_of vectors_of series_of geo_of objects_of no_maps].
  rewrite <-(filter_true (map snd (foldl apply_effect [] (map (event_eff _ _) _)))), <-(filter_true (map snd (foldl apply_effect [] (map (sample_eff _ _) _)))), <-(filter_true (map snd (foldl apply_effect [] (map (object_eff _ _) _)))).
  split_and!; apply family_exact; effect_keys.
Qed.

(** * Claims *)

Definition pair_of (c : Claim) : Subject * Predicate := (subject c, predicate c).
(** The claims of the log and, by subject and predicate, the order in which their versions stand. *)
Lemma push_claims_group l : foldl push_claim [] l = bt_group pair_of l.
Proof. done. Qed.
Definition not_older (a b : Claim) : Prop := valid_from b < valid_from a ∨ (valid_from b = valid_from a ∧ tx_time b ≤ tx_time a).
Lemma versions_sorted l : NoDup (map (λ c, (valid_from c, tx_time c)) l) → StronglySorted newer (sort_by version_order l).
Proof.
  intros Hnd. assert (StronglySorted not_older (sort_by version_order l)) as Hs.
  { apply sort_by_sorted; unfold not_older, version_order.
    - intros a b. destruct (Z.compare_spec (valid_from b) (valid_from a)); [|lia|done]. destruct (Z.compare_spec (tx_time b) (tx_time a)); [lia|lia|done].
    - intros a b. destruct (Z.compare_spec (valid_from b) (valid_from a)); [|done|lia]. destruct (Z.compare_spec (tx_time b) (tx_time a)); [lia|done|lia].
    - intros a b c. lia. }
  assert (NoDup (map (λ c, (valid_from c, tx_time c)) (sort_by version_order l))) as Hnd'.
  { assert (map (λ c, (valid_from c, tx_time c)) (sort_by version_order l) ≡ₚ map (λ c, (valid_from c, tx_time c)) l) as -> by apply Permutation_map, sort_by_perm. done. }
  induction Hs as [|c k Hs IH Hall]; [constructor|]. cbn [map] in Hnd'. apply NoDup_cons in Hnd' as [Hc Hnd']. constructor; [by apply IH|]. apply Forall_forall. intros d Hd.
  rewrite Forall_forall in Hall. specialize (Hall d Hd). unfold not_older, newer in *. destruct (decide (valid_from d = valid_from c ∧ tx_time d = tx_time c)) as [[E1 E2]|]; [|lia].
  exfalso. apply Hc. rewrite <-E1, <-E2. by apply (list_elem_of_fmap_2 (λ c, (valid_from c, tx_time c))).
Qed.
Lemma resolved_claims l at_ c : NoDup (map (λ c, (pair_of c, (valid_from c, tx_time c))) l) →
  c ∈ resolve_snapshot_claims (bt_group pair_of l) at_ ↔ in_force (pair_versions l (subject c) (predicate c)) at_ c.
Proof.
  intros Hnd. unfold resolve_snapshot_claims.
  assert (∀ k, NoDup (map (λ c, (valid_from c, tx_time c)) (filter (λ c, pair_of c = k) l))) as Hgroup.
  { intros k. induction l as [|d l IH]; [constructor|]. cbn [map] in Hnd. apply NoDup_cons in Hnd as [Hd Hnd]. rewrite filter_cons. destruct (decide (pair_of d = k)) as [<-|]; [|by apply IH].
    cbn [map]. apply NoDup_cons. split; [|by apply IH]. intros (e & E & He)%list_elem_of_fmap. apply list_elem_of_filter in He as [Ep He]. apply Hd. rewrite E, <-Ep.
    by apply (list_elem_of_fmap_2 (λ c, (pair_of c, (valid_from c, tx_time c)))). }
  assert (∀ k d, resolve_as_of (sort_by version_order (filter (λ c, pair_of c = k) l)) at_ = Some d ↔ in_force (filter (λ c, pair_of c = k) l) at_ d) as Hres.
  { intros k d. rewrite resolve_in_force by apply versions_sorted, Hgroup. apply in_force_ext. intros e. by rewrite sort_by_perm. }
  assert (∀ d, d ∈ filter (λ e, pair_of e = pair_of c) l ↔ d ∈ pair_versions l (subject c) (predicate c)) as Hpair.
  { intros d. rewrite elem_of_pair_versions, list_elem_of_filter. unfold of_pair, pair_of. split; [by intros [[= -> ->] ?]|]. intros (? & E1 & E2). split; [congruence|done]. }
  rewrite list_elem_of_omap. split.
  - intros (g & Hg & E). apply list_elem_of_fmap in Hg as ([k g'] & -> & Hin). cbn [snd] in E. apply bt_group_elem in Hin as [-> _]. apply Hres in E. assert (pair_of c = k) as <-.
    { destruct E as [[E _] _]. by apply list_elem_of_filter in E as [? _]. }
    by apply (in_force_ext _ _ _ _ Hpair).
  - intros Hf. apply (in_force_ext _ _ _ _ Hpair) in Hf. exists (filter (λ e, pair_of e = pair_of c) l). split; [|by apply Hres]. apply list_elem_of_fmap.
    exists (pair_of c, filter (λ e, pair_of e = pair_of c) l). split; [done|]. apply bt_get_elem. rewrite bt_get_group. destruct Hf as [[Hc _] _]. destruct (filter _ l); [by apply not_elem_of_nil in Hc|done].
Qed.

(** The claims of a snapshot are those in force: when no two versions of a claim share both
    times, a claim of the log is in the snapshot exactly when it is the claim in force at the instant
    among the versions of its subject and predicate, for a claim-only log and a schema-bound one. *)
Theorem snapshot_claims_in_force changes scope at_ known_at snap c :
  let claims := omap claim_of (List.filter (visible scope known_at) changes) in
  NoDup (map (λ c, (pair_of c, (valid_from c, tx_time c))) claims) →
  from_claim_changes changes scope at_ known_at = Ok snap ∨ (∃ schema, data_from_changes changes schema scope at_ known_at = Some (Ok snap)) →
  c ∈ snap_claims snap ↔ in_force (pair_versions claims (subject c) (predicate c)) at_ c.
Proof.
  intros claims Hnd Hsnap. enough (snap_claims snap = resolve_snapshot_claims (bt_group pair_of claims) at_) as -> by by apply resolved_claims.
  destruct Hsnap as [Hsnap|[schema Hsnap]].
  - unfold from_claim_changes in Hsnap. destruct (try_fold _ _ _) as [m|] eqn:Em; [|done]. injection Hsnap as <-. cbn [snap_claims]. f_equal. rewrite <-push_claims_group. subst claims. clear Hnd.
    revert Em. generalize (@nil (Subject * Predicate * list Claim)). induction (List.filter _ changes) as [|x l IH]; intros acc; cbn [try_fold omap list_omap foldl]; [by intros [= <-]|].
    unfold claim_of at 1. destruct (change_mutation x); cbn [invalid foldl]; try done. apply IH.
  - unfold data_from_changes in Hsnap. destruct (registry_validate schema) as [[[]|]|]; [|done..]. destruct (catalogue_tables schema) as [cat|]; [|done].
    destruct (try_fold _ _ _) as [m|] eqn:Em; [|done]. injection Hsnap as <-. cbn [snapshot_of snap_claims]. f_equal. apply data_changes_ok in Em as [_ ->].
    destruct (applied_fields cat at_ (List.filter (visible scope known_at) changes) no_maps) as [-> _]. apply push_claims_group.
Qed.

(** * A person and two versions of a claim *)

Module SampleSnapshot.
Import SampleSchema.
Definition change (cursor : Z) (m : RuntimeMutation) : RuntimeChange :=
  {| change_cursor := cursor; change_commit_id := "c"; change_ordinal := 0; change_scope := MkScopeId "s"; change_at := cursor; change_actor := "a"; change_mutation := m; change_previous := None; change_digest := "" |}.
Definition log : list RuntimeChange :=
  [change 1 (MRecord (person_at "ann" "a@x" 1 None)); change 2 (MClaim (sample_claim "open" 100 100)); change 3 (MRecord (person_at "bob" "b@x" 1 None));
   change 4 (MClaim (sample_claim "done" 200 250)); change 5 (MRetire {| retired_model := Document; retired_reference := reference "person" "ann"; effective_at := 5 |})].
Lemma registry_ok : registry_validate registry = Some (Ok tt).
Proof. vm_compute. reflexivity. Qed.
Definition snap : RuntimeDataSnapshot :=
  match data_from_changes log registry (MkScopeId "s") 150 5 with Some (Ok s) => s | _ => snapshot_of (MkScopeId "") 0 0 0 no_maps end.
Lemma snap_eq : data_from_changes log registry (MkScopeId "s") 150 5 = Some (Ok snap).
Proof. vm_compute. reflexivity. Qed.
Lemma snap_contents : map (λ e, record_reference (model_value e)) (snap_records snap) = [reference "person" "bob"] ∧ contains snap Document (reference "person" "ann") = false.
Proof. vm_compute. split; reflexivity. Qed.

Lemma data_snapshot_exact_witness :
  exact_family record_reference (entry_valid record_valid_from record_valid_to 150) (snap_records snap)
    (map (record_eff (tables registry) 150) (List.filter (visible (MkScopeId "s") 5) log)).
Proof. exact (proj1 (proj2 (data_snapshot_exact log registry (MkScopeId "s") 150 5 registry_ok) snap snap_eq)). Defined.
Lemma snapshot_claims_in_force_witness : sample_claim "open" 100 100 ∈ snap_claims snap
  ↔ in_force (pair_versions (omap claim_of (List.filter (visible (MkScopeId "s") 5) log)) (subject (sample_claim "open" 100 100)) (predicate (sample_claim "open" 100 100))) 150 (sample_claim "open" 100 100).
Proof.
  refine (snapshot_claims_in_force log (MkScopeId "s") 150 5 snap (sample_claim "open" 100 100) _ (or_intror (ex_intro _ registry snap_eq))).
  vm_compute. constructor; [intros [=]%list_elem_of_singleton|constructor; [intros []%not_elem_of_nil|constructor]].
Defined.
End SampleSnapshot.
