(* ===== verification/ReasoningTree.v ===== *)
(** Reasoning trees and cursor advances ([rrd-core]: reasoning_tree.rs).

    A tree declares nodes, typed edges with conditions, and recipes; a cursor walks it one edge at a
    time, each advance carrying the decision, the condition evaluations and the verifications that
    justify it, all bound to one read stamp.

    Theorems: validation accepts exactly the trees, that is, declarations within the bounds in which
    every node has one path from the root and exactly the leaves are terminal; an accepted advance
    follows an edge whose conditions were each evaluated once and satisfied and whose verifications
    passed; a run of accepted advances from step zero is the path from the root to its node. *)

From S2P Require Import Prelude Machine BTree Ident Text Digest Merkle AuthLog Claim RuntimeTypes RuntimeSchema RuntimeData RuntimeBytes RuntimeLog RuntimeRead.
Open Scope Z_scope.

(** core/reasoning_tree.rs:12-12 REASONING_TREE_CONTRACT_VERSION *)
Definition REASONING_TREE_CONTRACT_VERSION : Z := 1.
(** core/reasoning_tree.rs:13-13 MAX_REASONING_TREE_NODES *)
Definition MAX_REASONING_TREE_NODES : Z := 4096.
(** core/reasoning_tree.rs:14-14 MAX_REASONING_TREE_EDGES *)
Definition MAX_REASONING_TREE_EDGES : Z := 16384.
(** core/reasoning_tree.rs:15-15 MAX_REASONING_TREE_RECIPES *)
Definition MAX_REASONING_TREE_RECIPES : Z := 4096.
(** core/reasoning_tree.rs:16-16 MAX_REASONING_EDGE_CONDITIONS *)
Definition MAX_REASONING_EDGE_CONDITIONS : Z := 64.
(** core/reasoning_tree.rs:17-17 MAX_REASONING_EVIDENCE_ITEMS *)
Definition MAX_REASONING_EVIDENCE_ITEMS : Z := 64.
(** core/reasoning_tree.rs:18-18 MAX_REASONING_EVIDENCE_SOURCE_BYTES *)
Definition MAX_REASONING_EVIDENCE_SOURCE_BYTES : Z := 4096.
(** core/reasoning_tree.rs:19-19 MAX_REASONING_EVIDENCE_SUMMARY_BYTES *)
Definition MAX_REASONING_EVIDENCE_SUMMARY_BYTES : Z := 4096.

(** core/reasoning_tree.rs:621-628 validate_version *)
Definition validate_version (version : Z) : result Error unit :=
  if negb (version =? REASONING_TREE_CONTRACT_VERSION) then invalid ("unsupported reasoning-tree contract version " +:+ pretty version) else Ok tt.
(** core/reasoning_tree.rs:630-639 validate_sha256 *)
Definition validate_sha256 (value field : string) : result Error unit :=
  if sha256_text lower_hex value then Ok tt else invalid (field +:+ " must be lowercase SHA-256 hex").
(** core/reasoning_tree.rs:641-648 validate_bounded_text *)
Definition validate_bounded_text (value field : string) (maximum : Z) : result Error unit :=
  if (trims_to_nothing value || (maximum <? str_len value) || has_nul value)%bool then invalid (field +:+ " must contain 1..=" +:+ pretty maximum +:+ " bytes and no NUL") else Ok tt.

(** core/reasoning_tree.rs:25-32 ReasoningRecipe *)
Record ReasoningRecipe := {
  recipe_id : RuntimeId; recipe_revision : Z; recipe_kind : RuntimeType; instruction_sha256 : string; parameter_schema_sha256 : string; output_schema_sha256 : string
}.
(** core/reasoning_tree.rs:35-51 ReasoningRecipe::validate *)
Definition recipe_validate (self : ReasoningRecipe) : result Error unit :=
  if recipe_revision self =? 0 then invalid "reasoning recipe revision must be greater than zero"
  else
    do? validate_sha256 (instruction_sha256 self) "reasoning recipe instruction_sha256" in
    do? validate_sha256 (parameter_schema_sha256 self) "reasoning recipe parameter_schema_sha256" in
    validate_sha256 (output_schema_sha256 self) "reasoning recipe output_schema_sha256".

(** core/reasoning_tree.rs:57-66 ReasoningNode *)
Record ReasoningNode := { node_id : RuntimeId; node_kind : RuntimeType; node_recipe : option RuntimeId; terminal : bool; verification_requirement : option RuntimeId }.
(** core/reasoning_tree.rs:72-81 ReasoningConditionPredicate *)
Inductive ReasoningConditionPredicate := Always | Snapshot (evaluator : RuntimeType) (expression_sha256 : string) | VerificationPassed (requirement : RuntimeId).
(** core/reasoning_tree.rs:85-88 ReasoningCondition *)
Record ReasoningCondition := { condition_id : RuntimeId; predicate : ReasoningConditionPredicate }.
(** core/reasoning_tree.rs:91-99 ReasoningCondition::validate *)
Definition condition_validate (self : ReasoningCondition) : result Error unit :=
  match predicate self with Snapshot _ expression => validate_sha256 expression "reasoning condition expression_sha256" | _ => Ok tt end.
(** core/reasoning_tree.rs:101-103 ReasoningCondition::requires_evidence *)
Definition requires_evidence (self : ReasoningCondition) : bool := match predicate self with Always => false | _ => true end.
(** core/reasoning_tree.rs:110-117 ReasoningEdge *)
Record ReasoningEdge := { edge_id : RuntimeId; edge_kind : RuntimeType; edge_from : RuntimeId; edge_to : RuntimeId; conditions : list ReasoningCondition }.

(** core/reasoning_tree.rs:125-131 ReasoningEdge::validate, the loop *)
Fixpoint conditions_validate (ids : list (RuntimeId * unit)) (l : list ReasoningCondition) : result Error unit :=
  match l with
  | [] => Ok tt
  | condition :: l =>
    do? condition_validate condition in
    if bs_mem (condition_id condition) ids then invalid "reasoning condition ids must be unique within an edge"
    else conditions_validate (bs_insert (condition_id condition) ids) l
  end.
(** core/reasoning_tree.rs:120-132 ReasoningEdge::validate *)
Definition edge_validate (self : ReasoningEdge) : result Error unit :=
  if MAX_REASONING_EDGE_CONDITIONS <? len (conditions self) then invalid "reasoning edge exceeds its condition bound"
  else conditions_validate [] (conditions self).

(** core/reasoning_tree.rs:140-150 ReasoningTree *)
Record ReasoningTree := {
  tree_version : Z; tree_id : RuntimeId; tree_revision : Z; tree_root : RuntimeId; recipes : list ReasoningRecipe; nodes : list ReasoningNode; edges : list ReasoningEdge
}.

(** core/reasoning_tree.rs:168-174 ReasoningTree::validate, the recipes *)
Fixpoint recipes_validate (seen : list (RuntimeId * unit)) (l : list ReasoningRecipe) : result Error (list (RuntimeId * unit)) :=
  match l with
  | [] => Ok seen
  | recipe :: l =>
    do? recipe_validate recipe in
    if bs_mem (recipe_id recipe) seen then invalid "reasoning recipe ids must be unique"
    else recipes_validate (bs_insert (recipe_id recipe) seen) l
  end.
(** core/reasoning_tree.rs:176-191 ReasoningTree::validate, the nodes *)
Fixpoint nodes_validate (recipes : list (RuntimeId * unit)) (seen : list (RuntimeId * unit)) (l : list ReasoningNode) : result Error (list (RuntimeId * unit)) :=
  match l with
  | [] => Ok seen
  | node :: l =>
    if (is_some (verification_requirement node) && negb (terminal node))%bool then invalid "only a terminal reasoning node may declare a verification requirement"
    else if match node_recipe node with Some id => negb (bs_mem id recipes) | None => false end then invalid "reasoning node references an unknown recipe"
    else if bs_mem (node_id node) seen then invalid "reasoning node ids must be unique"
    else nodes_validate recipes (bs_insert (node_id node) seen) l
  end.
(** core/reasoning_tree.rs:196-212 ReasoningTree::validate, the edges: their identifiers, the number
    of edges into a node and the targets of the edges out of it *)
Fixpoint edges_validate (declared ids : list (RuntimeId * unit)) (incoming : list (RuntimeId * Z)) (outgoing : list (RuntimeId * list RuntimeId)) (l : list ReasoningEdge) :
    result Error (list (RuntimeId * Z) * list (RuntimeId * list RuntimeId)) :=
  match l with
  | [] => Ok (incoming, outgoing)
  | edge :: l =>
    do? edge_validate edge in
    if bs_mem (edge_id edge) ids then invalid "reasoning edge ids must be unique"
    else if bool_decide (edge_from edge = edge_to edge) then invalid "reasoning edges must not be self-referential"
    else if (negb (bs_mem (edge_from edge) declared) || negb (bs_mem (edge_to edge) declared))%bool then invalid "reasoning edge references an unknown node"
    else edges_validate declared (bs_insert (edge_id edge) ids) (bt_insert (edge_to edge) (default 0 (bt_get (edge_to edge) incoming) + 1) incoming)
           (bt_insert (edge_from edge) (default [] (bt_get (edge_from edge) outgoing) ++ [edge_to edge]) outgoing) l
  end.
(** core/reasoning_tree.rs:218-228 ReasoningTree::validate, the degrees of a node *)
Definition degrees_validate (root : RuntimeId) (incoming : list (RuntimeId * Z)) (outgoing : list (RuntimeId * list RuntimeId)) (node : ReasoningNode) : result Error unit :=
  let incoming_count := default 0 (bt_get (node_id node) incoming) in
  if (negb (bool_decide (node_id node = root)) && negb (incoming_count =? 1))%bool then invalid "every non-root reasoning node must have exactly one parent"
  else
    let outgoing_count := match bt_get (node_id node) outgoing with Some children => len children | None => 0 end in
    if (terminal node && negb (outgoing_count =? 0))%bool then invalid "terminal reasoning nodes must not have outgoing edges"
    else if (negb (terminal node) && (outgoing_count =? 0))%bool then invalid "reasoning leaves must be explicitly terminal"
    else Ok tt.
(** core/reasoning_tree.rs:233-240 ReasoningTree::validate, the walk from the root; [None] means the fuel ran out. *)
Fixpoint reach_loop (fuel : nat) (outgoing : list (RuntimeId * list RuntimeId)) (reached : list (RuntimeId * unit)) (pending : list RuntimeId) : option (result Error (list (RuntimeId * unit))) :=
  match pending with
  | [] => Some (Ok reached)
  | node :: pending =>
    match fuel with
    | O => None
    | S fuel =>
      if bs_mem node reached then Some (invalid "reasoning tree contains a cycle")
      else reach_loop fuel outgoing (bs_insert node reached) (pending ++ default [] (bt_get node outgoing))
    end
  end.
(** core/reasoning_tree.rs:153-245 ReasoningTree::validate; a walk takes at most one step per edge and one for the root. *)
Definition tree_validate (self : ReasoningTree) : option (result Error unit) :=
  do* Some (validate_version (tree_version self)) in
  if tree_revision self =? 0 then Some (invalid "reasoning tree revision must be greater than zero")
  else if (is_empty (nodes self) || (MAX_REASONING_TREE_NODES <? len (nodes self)))%bool then Some (invalid "reasoning tree node count is outside its bound")
  else if MAX_REASONING_TREE_EDGES <? len (edges self) then Some (invalid "reasoning tree exceeds its edge bound")
  else if MAX_REASONING_TREE_RECIPES <? len (recipes self) then Some (invalid "reasoning tree exceeds its recipe bound")
  else
    let* known := Some (recipes_validate [] (recipes self)) in
    let* declared := Some (nodes_validate known [] (nodes self)) in
    if negb (bs_mem (tree_root self) declared) then Some (invalid "reasoning tree root does not name a declared node")
    else
      let* (incoming, outgoing) := Some (edges_validate declared [] [] [] (edges self)) in
      if negb (default 0 (bt_get (tree_root self) incoming) =? 0) then Some (invalid "reasoning tree root must not have an incoming edge")
      else
        do* Some (try_each (degrees_validate (tree_root self) incoming outgoing) (nodes self)) in
        let* reached := reach_loop (S (length (edges self))) outgoing [] [tree_root self] in
        if negb (len reached =? len (nodes self)) then Some (invalid "reasoning tree contains nodes unreachable from its root") else Some (Ok tt).

(** core/reasoning_tree.rs:247-249 ReasoningTree::node *)
Definition tree_node (self : ReasoningTree) (id : RuntimeId) : option ReasoningNode := List.find (λ n, bool_decide (node_id n = id)) (nodes self).
(** core/reasoning_tree.rs:251-253 ReasoningTree::edge *)
Definition tree_edge (self : ReasoningTree) (id : RuntimeId) : option ReasoningEdge := List.find (λ e, bool_decide (edge_id e = id)) (edges self).
(** core/reasoning_tree.rs:255-257 ReasoningTree::recipe *)
Definition tree_recipe (self : ReasoningTree) (id : RuntimeId) : option ReasoningRecipe := List.find (λ r, bool_decide (recipe_id r = id)) (recipes self).

(** * Evidence and decisions *)

(** core/reasoning_tree.rs:264-270 ReasoningEvidence *)
Record ReasoningEvidence := { evidence_kind : RuntimeType; evidence_source : string; content_sha256 : string; observed_at : Z; evidence_summary : string }.
(** core/reasoning_tree.rs:273-288 ReasoningEvidence::validate *)
Definition evidence_validate (self : ReasoningEvidence) : result Error unit :=
  do? validate_bounded_text (evidence_source self) "reasoning evidence source" MAX_REASONING_EVIDENCE_SOURCE_BYTES in
  do? validate_sha256 (content_sha256 self) "reasoning evidence content_sha256" in
  if observed_at self =? 0 then invalid "reasoning evidence observed_at must be greater than zero"
  else validate_bounded_text (evidence_summary self) "reasoning evidence summary" MAX_REASONING_EVIDENCE_SUMMARY_BYTES.
(** core/reasoning_tree.rs:605-617 validate_evidence, the loop *)
Fixpoint evidence_items (not_after : Z) (seen : list (RuntimeType * (string * string) * unit)) (l : list ReasoningEvidence) : result Error unit :=
  match l with
  | [] => Ok tt
  | item :: l =>
    do? evidence_validate item in
    if not_after <? observed_at item then invalid "reasoning evidence was observed after the decision it supports"
    else
      let identity := (evidence_kind item, (evidence_source item, content_sha256 item)) in
      if bs_mem identity seen then invalid "reasoning evidence entries must be unique"
      else evidence_items not_after (bs_insert identity seen) l
  end.
(** core/reasoning_tree.rs:600-619 validate_evidence *)
Definition validate_evidence (evidence : list ReasoningEvidence) (not_after : Z) : result Error unit :=
  if MAX_REASONING_EVIDENCE_ITEMS <? len evidence then invalid "reasoning evidence exceeds its item bound" else evidence_items not_after [] evidence.

(** core/reasoning_tree.rs:293-297 ReasoningRecipeSelection *)
Record ReasoningRecipeSelection := { selected_recipe : RuntimeId; selected_revision : Z; parameters_sha256 : string }.
(** core/reasoning_tree.rs:300-305 ReasoningRecipeSelection::validate *)
Definition selection_validate (self : ReasoningRecipeSelection) : result Error unit :=
  if selected_revision self =? 0 then invalid "selected recipe revision must be greater than zero" else validate_sha256 (parameters_sha256 self) "selected recipe parameters_sha256".
(** core/reasoning_tree.rs:310-315 ReasoningConditionEvaluation *)
Record ReasoningConditionEvaluation := { evaluated_id : RuntimeId; satisfied : bool; evaluation_evidence : list ReasoningEvidence }.
(** core/reasoning_tree.rs:318-320 ReasoningConditionEvaluation::validate *)
Definition evaluation_validate (self : ReasoningConditionEvaluation) (decided_at : Z) : result Error unit := validate_evidence (evaluation_evidence self) decided_at.
(** core/reasoning_tree.rs:327-341 ReasoningDecisionEvidence *)
Record ReasoningDecisionEvidence := {
  decision_id : RuntimeId; actor_kind : RuntimeType; actor_id : RuntimeId; decision_cursor : RuntimeId; decision_step : Z; read_manifest_sha256 : string; selected_edge : RuntimeId;
  decision_recipe : option ReasoningRecipeSelection; input_sha256 : string; decided_at : Z; condition_evaluations : list ReasoningConditionEvaluation; decision_evidence : list ReasoningEvidence
}.
(** core/reasoning_tree.rs:344-366 ReasoningDecisionEvidence::validate *)
Definition decision_validate (self : ReasoningDecisionEvidence) : result Error unit :=
  if decided_at self =? 0 then invalid "reasoning decision decided_at must be greater than zero"
  else
    do? validate_sha256 (read_manifest_sha256 self) "reasoning decision read_manifest_sha256" in
    do? validate_sha256 (input_sha256 self) "reasoning decision input_sha256" in
    do? match decision_recipe self with Some recipe => selection_validate recipe | None => Ok tt end in
    if MAX_REASONING_EDGE_CONDITIONS <? len (condition_evaluations self) then invalid "reasoning decision exceeds its condition-evaluation bound"
    else
      do? try_each (λ evaluation, evaluation_validate evaluation (decided_at self)) (condition_evaluations self) in
      if is_empty (decision_evidence self) then invalid "reasoning decision must cite operational evidence"
      else validate_evidence (decision_evidence self) (decided_at self).
(** core/reasoning_tree.rs:371-375 ReasoningVerificationStatus *)
Inductive ReasoningVerificationStatus := Passed | Failed | Inconclusive.
#[export] Instance status_eq_dec : EqDecision ReasoningVerificationStatus.
Proof. solve_decision. Defined.
(** core/reasoning_tree.rs:379-385 ReasoningVerificationResult *)
Record ReasoningVerificationResult := { verification_id : RuntimeId; requirement : RuntimeId; status : ReasoningVerificationStatus; checked_at : Z; verification_evidence : list ReasoningEvidence }.
(** core/reasoning_tree.rs:388-396 ReasoningVerificationResult::validate *)
Definition verification_validate (self : ReasoningVerificationResult) : result Error unit :=
  if checked_at self =? 0 then invalid "reasoning verification checked_at must be greater than zero"
  else if is_empty (verification_evidence self) then invalid "reasoning verification must cite operational evidence"
  else validate_evidence (verification_evidence self) (checked_at self).

(** * Cursors *)

(** core/reasoning_tree.rs:403-411 ReasoningActiveCursor *)
Record ReasoningActiveCursor := {
  cursor_version : Z; cursor_id : RuntimeId; cursor_tree : RuntimeId; cursor_revision : Z; cursor_node : RuntimeId; step : Z; cursor_read : ReadStamp
}.
(** core/reasoning_tree.rs:444-452 ReasoningCursorAdvance *)
Record ReasoningCursorAdvance := {
  advance_version : Z; before : ReasoningActiveCursor; advance_edge : RuntimeId; advance_decision : ReasoningDecisionEvidence; verifications : list ReasoningVerificationResult;
  after : ReasoningActiveCursor
}.

(** core/reasoning_tree.rs:529-545 ReasoningCursorAdvance::validate, the condition evaluations *)
Fixpoint evaluations_validate (conditions : list (RuntimeId * ReasoningCondition)) (evaluated : list (RuntimeId * unit)) (l : list ReasoningConditionEvaluation) :
    result Error (list (RuntimeId * unit)) :=
  match l with
  | [] => Ok evaluated
  | evaluation :: l =>
    match bt_get (evaluated_id evaluation) conditions with
    | None => invalid "reasoning decision evaluated a condition not on its edge"
    | Some condition =>
      if bs_mem (evaluated_id evaluation) evaluated then invalid "reasoning decision evaluated a condition more than once"
      else if negb (satisfied evaluation) then invalid "reasoning cursor cannot advance across an unsatisfied condition"
      else if (requires_evidence condition && is_empty (evaluation_evidence evaluation))%bool then invalid "reasoning condition evaluation is missing evidence"
      else evaluations_validate conditions (bs_insert (evaluated_id evaluation) evaluated) l
    end
  end.
(** core/reasoning_tree.rs:552-566 ReasoningCursorAdvance::validate, the verifications *)
Fixpoint verifications_validate (decided : Z) (ids : list (RuntimeId * unit)) (requirements : list (RuntimeId * ReasoningVerificationResult)) (l : list ReasoningVerificationResult) :
    result Error (list (RuntimeId * ReasoningVerificationResult)) :=
  match l with
  | [] => Ok requirements
  | verification :: l =>
    do? verification_validate verification in
    if checked_at verification <? decided then invalid "reasoning verification predates its decision"
    else if bs_mem (verification_id verification) ids then invalid "reasoning verification result ids must be unique"
    else if bt_mem (requirement verification) requirements then invalid "reasoning verification requirements must be unique"
    else verifications_validate decided (bs_insert (verification_id verification) ids) (bt_insert (requirement verification) verification requirements) l
  end.
(** core/reasoning_tree.rs:568-578 ReasoningCursorAdvance::validate, the requirements of an edge and its target *)
Definition required_verifications (edge : ReasoningEdge) (target : ReasoningNode) : list (RuntimeId * unit) :=
  let of_edge := foldl (λ s condition, match predicate condition with VerificationPassed r => bs_insert r s | _ => s end) [] (conditions edge) in
  match verification_requirement target with Some r => bs_insert r of_edge | None => of_edge end.
(** core/reasoning_tree.rs:587-594 ReasoningCursorAdvance::validate, one required verification *)
Definition passing (requirements : list (RuntimeId * ReasoningVerificationResult)) (r : RuntimeId) : result Error unit :=
  match bt_get r requirements with
  | None => invalid "reasoning cursor advance is missing a required verification"
  | Some verification => if bool_decide (status verification = Passed) then Ok tt else invalid "reasoning cursor advance requires passing verification"
  end.
(** core/reasoning_tree.rs:508-521 ReasoningCursorAdvance::validate, the recipe of the decision *)
Definition recipe_matches (tree : ReasoningTree) (source : ReasoningNode) (selection : option ReasoningRecipeSelection) : result Error unit :=
  match node_recipe source, selection with
  | None, None => Ok tt
  | Some id, Some selection =>
    if bool_decide (id = selected_recipe selection) then
      match tree_recipe tree id with
      | None => invalid "reasoning decision selected an unknown recipe"
      | Some recipe => if negb (recipe_revision recipe =? selected_revision selection) then invalid "reasoning decision selected the wrong recipe revision" else Ok tt
      end
    else invalid "reasoning decision recipe does not match its source node"
  | _, _ => invalid "reasoning decision recipe does not match its source node"
  end.

Section Cursor.
Context `{Sha2}.
(** core/reasoning_tree.rs:416-423 ReasoningActiveCursor::validate *)
Definition cursor_validate (self : ReasoningActiveCursor) : result Error unit :=
  do? validate_version (cursor_version self) in
  do? stamp_validate (cursor_read self) in
  if cursor_revision self =? 0 then invalid "reasoning cursor tree revision must be greater than zero" else Ok tt.
(** core/reasoning_tree.rs:425-437 ReasoningActiveCursor::validate_for *)
Definition validate_for (self : ReasoningActiveCursor) (tree : ReasoningTree) : result Error unit :=
  do? cursor_validate self in
  if (negb (bool_decide (cursor_tree self = tree_id tree)) || negb (cursor_revision self =? tree_revision tree))%bool then invalid "reasoning cursor does not match the tree identity and revision"
  else if negb (is_some (tree_node tree (cursor_node self))) then invalid "reasoning cursor references an unknown node"
  else if ((step self =? 0) && negb (bool_decide (cursor_node self = tree_root tree)))%bool then invalid "reasoning cursor step zero must point at the tree root"
  else Ok tt.
(** core/reasoning_tree.rs:455-597 ReasoningCursorAdvance::validate; [None] means the fuel of the walk of the tree ran out. *)
Definition advance_validate (self : ReasoningCursorAdvance) (tree : ReasoningTree) : option (result Error unit) :=
  do* Some (validate_version (advance_version self)) in
  do* tree_validate tree in
  do* Some (validate_for (before self) tree) in
  do* Some (validate_for (after self) tree) in
  do* Some (decision_validate (advance_decision self)) in
  Some (
    if negb (bool_decide (cursor_id (before self) = cursor_id (after self))) then invalid "reasoning cursor identity changed during an advance"
    else if negb (bool_decide (cursor_read (before self) = cursor_read (after self))) then invalid "reasoning cursor advance changed its decision read stamp"
    else match checked_add 64 (step (before self)) 1 with
    | None => invalid "reasoning cursor step overflowed"
    | Some expected_step =>
      if negb (step (after self) =? expected_step) then invalid "reasoning cursor advance must increment step exactly once"
      else match tree_node tree (cursor_node (before self)) with
      | None => invalid "reasoning cursor source node is absent"
      | Some source =>
        if terminal source then invalid "reasoning cursor cannot advance from a terminal node"
        else match tree_node tree (cursor_node (after self)) with
        | None => invalid "reasoning cursor target node is absent"
        | Some target =>
          match tree_edge tree (advance_edge self) with
          | None => invalid "reasoning cursor advance references an unknown edge"
          | Some edge =>
            if (negb (bool_decide (edge_from edge = cursor_node (before self))) || negb (bool_decide (edge_to edge = cursor_node (after self))))%bool
            then invalid "reasoning cursor advance does not follow the selected edge"
            else
              let decision := advance_decision self in
              if (negb (bool_decide (decision_cursor decision = cursor_id (before self))) || negb (decision_step decision =? step (before self))
                  || negb (bool_decide (read_manifest_sha256 decision = stamp_manifest (cursor_read (before self)))) || negb (bool_decide (selected_edge decision = advance_edge self)))%bool
              then invalid "reasoning decision is not bound to the cursor and selected edge"
              else
                do? recipe_matches tree source (decision_recipe decision) in
                let? evaluated := evaluations_validate (bt_collect condition_id (conditions edge)) [] (condition_evaluations decision) in
                if negb (len evaluated =? len (conditions edge)) then invalid "reasoning decision did not evaluate every edge condition"
                else
                  let? requirements := verifications_validate (decided_at decision) [] [] (verifications self) in
                  let required := required_verifications edge target in
                  if (negb (len requirements =? len required) || existsb (λ k, negb (bs_mem k required)) (map fst requirements))%bool
                  then invalid "reasoning cursor advance has missing or unrelated verifications"
                  else try_each (passing requirements) (map fst required)
          end
        end
      end
    end).
End Cursor.

(** * Trees *)

Section Trees.
Context (t : ReasoningTree).

(** The paths of declared edges from the root. *)
Inductive path : list ReasoningEdge → RuntimeId → Prop :=
  | path_root : path [] (tree_root t)
  | path_edge p e : path p (edge_from e) → e ∈ edges t → path (p ++ [e]) (edge_to e).

Definition declared_ids : list RuntimeId := map node_id (nodes t).
(** What a tree declares: bounds, unique identifiers, known references. *)
Record declares : Prop := {
  dc_version : tree_version t = REASONING_TREE_CONTRACT_VERSION;
  dc_revision : tree_revision t ≠ 0;
  dc_nodes : nodes t ≠ [] ∧ len (nodes t) ≤ MAX_REASONING_TREE_NODES;
  dc_edges : len (edges t) ≤ MAX_REASONING_TREE_EDGES;
  dc_recipes : len (recipes t) ≤ MAX_REASONING_TREE_RECIPES;
  dc_recipes_valid : Forall (λ r, recipe_validate r = Ok tt) (recipes t) ∧ NoDup (map recipe_id (recipes t));
  dc_nodes_valid : Forall (λ n, (is_Some (verification_requirement n) → terminal n = true) ∧ ∀ id, node_recipe n = Some id → id ∈ map recipe_id (recipes t)) (nodes t);
  dc_ids : NoDup declared_ids;
  dc_root : tree_root t ∈ declared_ids;
  dc_edges_valid : Forall (λ e, edge_validate e = Ok tt ∧ edge_from e ∈ declared_ids ∧ edge_to e ∈ declared_ids) (edges t);
  dc_edge_ids : NoDup (map edge_id (edges t))
}.
(** A rooted tree: one path to every node, and the leaves are the terminal nodes. *)
Definition rooted : Prop :=
  (∀ n, n ∈ nodes t → exists! p, path p (node_id n)) ∧ ∀ n, n ∈ nodes t → terminal n = true ↔ ∀ e, e ∈ edges t → edge_from e ≠ node_id n.

(** In a forest of edges: nothing leads to the root and every node has at most one parent. *)
Definition forest : Prop := (∀ e, e ∈ edges t → edge_to e ≠ tree_root t) ∧ NoDup (map edge_to (edges t)).
Lemma same_target e e' : forest → e ∈ edges t → e' ∈ edges t → edge_to e = edge_to e' → e = e'.
Proof.
  intros [_ Hnd] [i Hi]%list_elem_of_lookup [j Hj]%list_elem_of_lookup E. assert (i = j) as ->; [|congruence].
  apply (NoDup_lookup _ _ _ (edge_to e) Hnd); rewrite list_lookup_fmap; [by rewrite Hi|by rewrite Hj, E].
Qed.
Lemma path_unique p q v : forest → path p v → path q v → p = q.
Proof.
  intros Hf Hp. revert q. induction Hp as [|p e Hp IH He]; intros q Hq.
  - inversion Hq as [|q' e' Hq' He' Eq Ev]; [done|]. exfalso. by eapply (proj1 Hf e').
  - inversion Hq as [Eq Ev|q' e' Hq' He' Eq Ev]; [exfalso; by eapply (proj1 Hf e)|]. apply same_target in Ev as ->; [|done..]. by rewrite (IH q').
Qed.
(** Unique paths to the declared nodes make a forest. *)
Lemma unique_paths_forest : (∀ e, e ∈ edges t → exists! p, path p (edge_from e)) → (∀ e, e ∈ edges t → exists! p, path p (edge_to e)) → (exists! p, path p (tree_root t)) → NoDup (map edge_id (edges t)) → forest.
Proof.
  intros Hfrom Hto [r [_ Hroot]] Hids. split.
  - intros e He E. destruct (Hfrom e He) as (p & Hp & _). pose proof (Hroot [] path_root) as ->. assert (path (p ++ [e]) (tree_root t)) as Hc by (rewrite <-E; by constructor).
    apply Hroot in Hc. by destruct p.
  - apply NoDup_alt. intros i j v Hi Hj. apply list_lookup_fmap_Some in Hi as (e & -> & Hi), Hj as (e' & E & Hj). assert (e ∈ edges t ∧ e' ∈ edges t) as [He He'] by (split; by eapply list_elem_of_lookup_2).
    destruct (Hfrom e He) as (p & Hp & _), (Hfrom e' He') as (p' & Hp' & _), (Hto e He) as (q & _ & Hq).
    assert (p ++ [e] = p' ++ [e']) as Ep. { rewrite <-(Hq (p ++ [e])) by by constructor. apply Hq. rewrite E. by constructor. }
    apply app_inj_2 in Ep as [_ [= ->]]; [|done]. apply (NoDup_lookup _ _ _ (edge_id e') Hids); rewrite list_lookup_fmap; [by rewrite Hi|by rewrite Hj].
Qed.
End Trees.

(** * The loops of validation *)

Lemma ids_mem_insert (v w : RuntimeId) s : bs_mem w (bs_insert v s) = true ↔ w = v ∨ bs_mem w s = true.
Proof. rewrite bs_mem_insert, orb_true_iff, bool_decide_eq_true. naive_solver. Qed.
Lemma ids_mem_nil (v : RuntimeId) : bs_mem v [] = true ↔ False.
Proof. done. Qed.
(** [insert] of identifiers in turn: it never finds one when they are new and differ. *)
Definition fresh (seen : list (RuntimeId * unit)) (ids : list RuntimeId) : Prop := NoDup ids ∧ ∀ id, id ∈ ids → bs_mem id seen = false.
Lemma fresh_cons seen id ids : fresh seen (id :: ids) ↔ bs_mem id seen = false ∧ fresh (bs_insert id seen) ids.
Proof.
  unfold fresh. rewrite NoDup_cons. split.
  - intros [[Hid Hnd] Hs]. split; [apply Hs; by left|]. split; [done|]. intros v Hv. apply not_true_iff_false. rewrite ids_mem_insert. intros [->|Hm]; [done|]. rewrite Hs in Hm; [done|by right].
  - intros [Hid [Hnd Hs]]. split; [split; [|done]|].
    + intros Hin. apply Hs, not_true_iff_false in Hin. apply Hin, ids_mem_insert. by left.
    + intros v [->|Hv]%elem_of_cons; [done|]. apply Hs in Hv. apply not_true_iff_false in Hv. apply not_true_iff_false. intros Hm. apply Hv, ids_mem_insert. by right.
Qed.
Lemma fresh_nil ids : fresh [] ids ↔ NoDup ids.
Proof. unfold fresh. split; [by intros []|by split]. Qed.
(** The set after the identifiers were inserted. *)
Definition inserted (seen : list (RuntimeId * unit)) (ids : list RuntimeId) : list (RuntimeId * unit) := foldl (λ s id, bs_insert id s) seen ids.
Lemma inserted_mem seen ids v : bs_mem v (inserted seen ids) = true ↔ v ∈ ids ∨ bs_mem v seen = true.
Proof.
  unfold inserted. revert seen. induction ids as [|id ids IH]; intros seen; cbn [foldl]; [set_solver|]. rewrite IH, ids_mem_insert, elem_of_cons. tauto.
Qed.
Lemma inserted_length seen ids : fresh seen ids → length (inserted seen ids) = (length seen + length ids)%nat.
Proof.
  unfold inserted. revert seen. induction ids as [|id ids IH]; intros seen Hf; cbn [foldl]; [cbn; lia|]. apply fresh_cons in Hf as [Hid Hf]. rewrite IH, bs_insert_length by done. cbn. lia.
Qed.

Lemma conditions_validate_ok seen l : conditions_validate seen l = Ok tt ↔ Forall (λ c, condition_validate c = Ok tt) l ∧ fresh seen (map condition_id l).
Proof.
  revert seen. induction l as [|c l IH]; intros seen; cbn [conditions_validate map]; [split; [split; [constructor|split; [constructor|set_solver]]|done]|]. rewrite Forall_cons, fresh_cons.
  destruct (condition_validate c) as [[]|]; [|naive_solver]. destruct (bs_mem _ seen); [naive_solver|]. rewrite IH. tauto.
Qed.
Lemma recipes_validate_ok seen l r : recipes_validate seen l = Ok r ↔ Forall (λ x, recipe_validate x = Ok tt) l ∧ fresh seen (map recipe_id l) ∧ r = inserted seen (map recipe_id l).
Proof.
  revert seen. induction l as [|x l IH]; intros seen; cbn [recipes_validate map inserted foldl]; [split; [intros [= <-]; split; [constructor|split; [split; [constructor|set_solver]|done]]|by intros (_ & _ & ->)]|].
  rewrite Forall_cons, fresh_cons. destruct (recipe_validate x) as [[]|]; [|naive_solver]. destruct (bs_mem _ seen); [naive_solver|]. rewrite IH. unfold inserted. tauto.
Qed.
Definition node_ok (known : list (RuntimeId * unit)) (n : ReasoningNode) : Prop :=
  (is_Some (verification_requirement n) → terminal n = true) ∧ ∀ id, node_recipe n = Some id → bs_mem id known = true.
Lemma nodes_validate_ok known seen l r : nodes_validate known seen l = Ok r ↔ Forall (node_ok known) l ∧ fresh seen (map node_id l) ∧ r = inserted seen (map node_id l).
Proof.
  revert seen. induction l as [|x l IH]; intros seen; cbn [nodes_validate map inserted foldl]; [split; [intros [= <-]; split; [constructor|split; [split; [constructor|set_solver]|done]]|by intros (_ & _ & ->)]|].
  rewrite Forall_cons, fresh_cons. unfold node_ok at 1.
  destruct (verification_requirement x) as [q|]; cbn [is_some andb].
  - destruct (terminal x); cbn [negb]; [|split; [done|]; intros [[[Hc _] _] _]; by specialize (Hc ltac:(eauto))].
    destruct (node_recipe x) as [id|]; [destruct (bs_mem id known) eqn:Em; cbn [negb]; [|split; [done|]; intros [[[_ Hc] _] _]; specialize (Hc id eq_refl); congruence]|].
    + destruct (bs_mem _ seen); [naive_solver|]. rewrite IH. unfold inserted. naive_solver.
    + destruct (bs_mem _ seen); [naive_solver|]. rewrite IH. unfold inserted. naive_solver.
  - destruct (node_recipe x) as [id|]; [destruct (bs_mem id known) eqn:Em; cbn [negb]; [|split; [done|]; intros [[[_ Hc] _] _]; specialize (Hc id eq_refl); congruence]|].
    + destruct (bs_mem _ seen); [naive_solver|]. rewrite IH. unfold inserted. split; [|tauto]. intros (? & ? & ?). split_and!; try done; (by intros [? [=]]) || (by intros ? [= <-]).
    + destruct (bs_mem _ seen); [naive_solver|]. rewrite IH. unfold inserted. split; [|tauto]. intros (? & ? & ?). split_and!; done.
Qed.

(** The maps of the edges: how many lead to a node and where those from it lead. *)
Definition edge_maps (inc : list (RuntimeId * Z)) (out : list (RuntimeId * list RuntimeId)) (l : list ReasoningEdge) :=
  foldl (λ '(inc, out) e, (bt_insert (edge_to e) (default 0 (bt_get (edge_to e) inc) + 1) inc, bt_insert (edge_from e) (default [] (bt_get (edge_from e) out) ++ [edge_to e]) out)) (inc, out) l.
Definition children (l : list ReasoningEdge) (v : RuntimeId) : list RuntimeId := map edge_to (filter (λ e, edge_from e = v) l).
Definition parents (l : list ReasoningEdge) (v : RuntimeId) : Z := len (filter (λ e, edge_to e = v) l).
Lemma edge_maps_ok inc out l v :
  default 0 (bt_get v (edge_maps inc out l).1) = default 0 (bt_get v inc) + parents l v ∧ default [] (bt_get v (edge_maps inc out l).2) = default [] (bt_get v out) ++ children l v.
Proof.
  unfold edge_maps, parents, children. revert inc out. induction l as [|e l IH]; intros inc out; cbn [foldl fst snd]; [cbn; by rewrite Z.add_0_r, app_nil_r|].
  destruct (IH (bt_insert (edge_to e) (default 0 (bt_get (edge_to e) inc) + 1) inc) (bt_insert (edge_from e) (default [] (bt_get (edge_from e) out) ++ [edge_to e]) out)) as [-> ->].
  rewrite !bt_get_insert, !filter_cons. split.
  - destruct (decide (edge_to e = v)) as [<-|]; [|done]. cbn. unfold len. cbn [length]. lia.
  - destruct (decide (edge_from e = v)) as [<-|]; [|done]. cbn. by rewrite <-app_assoc.
Qed.
Definition edge_ok (declared : list (RuntimeId * unit)) (e : ReasoningEdge) : Prop :=
  edge_validate e = Ok tt ∧ edge_from e ≠ edge_to e ∧ bs_mem (edge_from e) declared = true ∧ bs_mem (edge_to e) declared = true.
Lemma edges_validate_ok declared seen inc out l r :
  edges_validate declared seen inc out l = Ok r ↔ Forall (edge_ok declared) l ∧ fresh seen (map edge_id l) ∧ r = edge_maps inc out l.
Proof.
  revert seen inc out. induction l as [|e l IH]; intros seen inc out; cbn [edges_validate map]; [split; [intros [= <-]; split; [constructor|split; [split; [constructor|set_solver]|done]]|by intros (_ & _ & ->)]|].
  rewrite Forall_cons, fresh_cons. unfold edge_ok at 1. unfold edge_maps. cbn [foldl].
  destruct (edge_validate e) as [[]|]; [|naive_solver]. destruct (bs_mem (edge_id e) seen); [naive_solver|]. case_bool_decide; [naive_solver|].
  destruct (bs_mem (edge_from e) declared), (bs_mem (edge_to e) declared); cbn [negb orb]; [|naive_solver..]. rewrite IH. unfold edge_maps. naive_solver.
Qed.

(** ** The walk *)

Section Walk.
Context (t : ReasoningTree) (out : list (RuntimeId * list RuntimeId)).
Hypothesis Hforest : forest t.
Hypothesis Hout : ∀ v, default [] (bt_get v out) = children (edges t) v.

(** While [R] are the nodes reached and [P] those pending. *)
Record walked (R P : list RuntimeId) : Prop := {
  wk_nodup : NoDup (R ++ P);
  wk_paths : ∀ v, v ∈ R ++ P → ∃ p, path t p v;
  wk_root : tree_root t ∈ R ++ P;
  wk_from : ∀ v, v ∈ R ++ P → v = tree_root t ∨ ∃ e, e ∈ edges t ∧ edge_from e ∈ R ∧ edge_to e = v;
  wk_closed : ∀ e, e ∈ edges t → edge_from e ∈ R → edge_to e ∈ R ++ P
}.
Lemma children_elem v w : w ∈ children (edges t) v ↔ ∃ e, e ∈ edges t ∧ edge_from e = v ∧ edge_to e = w.
Proof. unfold children. rewrite list_elem_of_fmap. setoid_rewrite list_elem_of_filter. naive_solver. Qed.
Lemma children_nodup v : NoDup (children (edges t) v).
Proof.
  destruct Hforest as [_ Hnd]. unfold children. clear Hout Hforest. induction (edges t) as [|e l IH]; [constructor|]. cbn [map] in Hnd. apply NoDup_cons in Hnd as [He Hnd]. rewrite filter_cons.
  destruct (decide _); [|by apply IH]. cbn [map]. constructor; [|by apply IH]. intros (x & Ex & Hx)%list_elem_of_fmap. apply He. rewrite Ex. apply list_elem_of_fmap_2. by apply list_elem_of_filter in Hx as [_ Hx].
Qed.
Lemma walk_step R P v : walked R (v :: P) → walked (R ++ [v]) (P ++ children (edges t) v).
Proof.
  intros [Hnd Hpaths Hroot Hfrom Hclosed].
  assert (∀ w, w ∈ (R ++ [v]) ++ P ++ children (edges t) v ↔ w ∈ R ++ v :: P ∨ w ∈ children (edges t) v) as Hin by (intros w; set_solver).
  assert (v ∉ R) as HvR. { intros HR. apply NoDup_app in Hnd as (_ & Hd & _). apply (Hd v HR). by left. }
  split.
  - rewrite app_assoc, <-(app_assoc R). cbn [app]. apply NoDup_app. split; [done|]. split; [|apply children_nodup]. intros w Hw Hc. apply children_elem in Hc as (e & He & Ef & Et).
    destruct (Hfrom w Hw) as [->|(e' & He' & Hf' & Et')]; [by apply (proj1 Hforest e)|]. assert (e = e') as -> by (apply (same_target t); [done..|congruence]). by rewrite Ef in Hf'.
  - intros w [Hw|Hw]%Hin; [by apply Hpaths|]. apply children_elem in Hw as (e & He & Ef & <-). destruct (Hpaths v) as [p Hp]; [set_solver|]. exists (p ++ [e]). constructor; [by rewrite Ef|done].
  - apply Hin. by left.
  - intros w [Hw|Hw]%Hin.
    + destruct (Hfrom w Hw) as [|(e & He & Hf & Et)]; [by left|]. right. exists e. set_solver.
    + apply children_elem in Hw as (e & He & Ef & Et). right. exists e. set_solver.
  - intros e He Hf. apply Hin. apply elem_of_app in Hf as [Hf|Hf%list_elem_of_singleton]; [left; by apply Hclosed|]. right. apply children_elem. eauto.
Qed.
(** The edges not yet walked. *)
Definition unwalked (R : list RuntimeId) : list ReasoningEdge := filter (λ e, edge_from e ∉ R) (edges t).
Lemma unwalked_step R v : v ∉ R → (length (unwalked (R ++ [v])) + length (children (edges t) v) = length (unwalked R))%nat.
Proof.
  intros Hv. unfold unwalked, children. rewrite length_map. clear Hforest Hout. induction (edges t) as [|e l IH]; [done|]. rewrite !filter_cons.
  repeat case_decide; cbn [length]; try lia; set_solver.
Qed.
Lemma reach_loop_ok fuel R P : walked R P → (length P + length (unwalked R) ≤ fuel)%nat →
  ∃ R', reach_loop fuel out (inserted [] R) P = Some (Ok (inserted [] R')) ∧ NoDup R' ∧ ∀ v, v ∈ R' ↔ ∃ p, path t p v.
Proof.
  revert R P. induction fuel as [|fuel IH]; intros R P Hw Hfuel.
  all: assert (P = [] → ∃ R', Some (Ok (inserted [] R)) = Some (@Ok Error _ (inserted [] R')) ∧ NoDup R' ∧ ∀ v, v ∈ R' ↔ ∃ p, path t p v) as Hend.
  1,3: intros ->; exists R; destruct Hw as [Hnd Hpaths Hroot Hfrom Hclosed]; rewrite app_nil_r in *; split; [done|]; split; [done|]; intros v; split; [apply Hpaths|];
    intros [p Hp]; induction Hp as [|p e Hp IHp He]; [done|by apply Hclosed].
  - destruct P; [by apply Hend|cbn in Hfuel; lia].
  - destruct P as [|v P]; [by apply Hend|]. cbn [reach_loop]. assert (v ∉ R) as HvR. { intros HR. destruct Hw as [Hnd _ _ _ _]. apply NoDup_app in Hnd as (_ & Hd & _). apply (Hd v HR). by left. }
    assert (bs_mem v (inserted [] R) = false) as ->. { apply not_true_iff_false. rewrite inserted_mem. set_solver. }
    rewrite Hout. assert (bs_insert v (inserted [] R) = inserted [] (R ++ [v])) as -> by (unfold inserted; by rewrite foldl_snoc).
    apply IH; [by apply walk_step|]. pose proof (unwalked_step R v HvR). rewrite length_app. cbn [length] in Hfuel. lia.
Qed.
Lemma walk_ok : ∃ R, reach_loop (S (length (edges t))) out [] [tree_root t] = Some (Ok (inserted [] R)) ∧ NoDup R ∧ ∀ v, v ∈ R ↔ ∃ p, path t p v.
Proof.
  apply (reach_loop_ok _ [] [tree_root t]); [|cbn [length]; unfold unwalked; pose proof (length_filter (λ e, edge_from e ∉ []) (edges t)); lia].
  split; cbn [app]; [repeat constructor; set_solver|intros v ->%list_elem_of_singleton; exists []; constructor|by left|intros v ->%list_elem_of_singleton; by left|intros e _ Hf; by apply not_elem_of_nil in Hf].
Qed.
End Walk.

(** ** Validation *)

(** What the degrees say: no self-loop, nothing into the root, one parent for every other node, and terminal exactly without children. *)
Definition shape (t : ReasoningTree) : Prop :=
  (∀ e, e ∈ edges t → edge_from e ≠ edge_to e) ∧ parents (edges t) (tree_root t) = 0
  ∧ ∀ n, n ∈ nodes t → (node_id n ≠ tree_root t → parents (edges t) (node_id n) = 1) ∧ (terminal n = true ↔ children (edges t) (node_id n) = []).

Lemma parents_zero l v : parents l v = 0 ↔ ∀ e, e ∈ l → edge_to e ≠ v.
Proof.
  unfold parents, len. split.
  - intros E e He Et. assert (e ∈ filter (λ e, edge_to e = v) l) as Hin by (by apply list_elem_of_filter). destruct (filter _ l); [by apply not_elem_of_nil in Hin|done].
  - intros Hall. assert (filter (λ e, edge_to e = v) l = []) as ->; [|done]. induction l as [|e l IH]; [done|]. rewrite filter_cons, decide_False by (apply Hall; by left). apply IH. intros e' He'. apply Hall. by right.
Qed.
Lemma parents_nodup l : NoDup (map edge_to l) ↔ ∀ v, parents l v ≤ 1.
Proof.
  induction l as [|e l IH]; [split; [by intros _ v|constructor]|]. cbn [map]. rewrite NoDup_cons, IH. unfold parents in *. split.
  - intros [He Hall] v. rewrite filter_cons. destruct (decide (edge_to e = v)) as [<-|]; [|apply Hall]. assert (len (filter (λ x, edge_to x = edge_to e) l) = 0) as E.
    { apply parents_zero. intros x Hx Ex. apply He. rewrite <-Ex. by apply list_elem_of_fmap_2. }
    unfold len in *. cbn [length]. lia.
  - intros Hall. split.
    + intros (x & Ex & Hx)%list_elem_of_fmap. specialize (Hall (edge_to e)). rewrite filter_cons, decide_True in Hall by done. unfold len in Hall. cbn [length] in Hall.
      assert (x ∈ filter (λ y, edge_to y = edge_to e) l) as Hin by (apply list_elem_of_filter; split; [congruence|done]). destruct (filter _ l); [by apply not_elem_of_nil in Hin|cbn [length] in Hall; lia].
    + intros v. specialize (Hall v). rewrite filter_cons in Hall. destruct (decide _); [|done]. unfold len in *. cbn [length] in Hall. lia.
Qed.
Lemma children_nil l v : children l v = [] ↔ ∀ e, e ∈ l → edge_from e ≠ v.
Proof.
  unfold children. split.
  - intros E e He Ef. assert (e ∈ filter (λ e, edge_from e = v) l) as Hin by (by apply list_elem_of_filter). destruct (filter _ l); [by apply not_elem_of_nil in Hin|done].
  - intros Hall. induction l as [|e l IH]; [done|]. rewrite filter_cons, decide_False by (apply Hall; by left). apply IH. intros e' He'. apply Hall. by right.
Qed.
Lemma shape_forest t : declares t → shape t → forest t.
Proof.
  intros D (_ & Hroot & Hdeg). split; [by apply parents_zero|]. apply parents_nodup. intros v. destruct (decide (v ∈ declared_ids t)) as [Hv|Hv].
  - apply list_elem_of_fmap in Hv as (n & -> & Hn). destruct (decide (node_id n = tree_root t)) as [->|Hne]; [lia|]. destruct (Hdeg n Hn) as [Hp _]. rewrite Hp by done. done.
  - assert (parents (edges t) v = 0) as ->; [|done]. apply parents_zero. intros e He <-. apply Hv. pose proof (dc_edges_valid t D) as Hall. rewrite Forall_forall in Hall. by apply Hall.
Qed.
Lemma degrees_ok root inc out l n : (∀ v, default 0 (bt_get v inc) = parents l v) → (∀ v, default [] (bt_get v out) = children l v) →
  degrees_validate root inc out n = Ok tt ↔ (node_id n ≠ root → parents l (node_id n) = 1) ∧ (terminal n = true ↔ children l (node_id n) = []).
Proof.
  intros Hi Ho. unfold degrees_validate. rewrite Hi. specialize (Ho (node_id n)).
  assert (match bt_get (node_id n) out with Some c => len c | None => 0 end = len (children l (node_id n))) as -> by (rewrite <-Ho; by destruct (bt_get (node_id n) out)).
  assert (len (children l (node_id n)) = 0 ↔ children l (node_id n) = []) as Hlen by (destruct (children l (node_id n)); [done|split; [unfold len; cbn; lia|done]]).
  destruct (bool_decide (node_id n = root)) eqn:Er; cbn [negb andb].
  - apply bool_decide_eq_true_1 in Er. destruct (terminal n), (Z.eqb_spec (len (children l (node_id n))) 0); cbn [andb negb]; naive_solver.
  - apply bool_decide_eq_false_1 in Er. destruct (Z.eqb_spec (parents l (node_id n)) 1); cbn [negb]; [|naive_solver].
    destruct (terminal n), (Z.eqb_spec (len (children l (node_id n))) 0); cbn [andb negb]; naive_solver.
Qed.

(** Validation always answers, and gets to the walk exactly on declarations of the right shape. *)
Lemma tree_validate_spec t :
  (declares t ∧ shape t ∧ ∃ R, NoDup R ∧ (∀ v, v ∈ R ↔ ∃ p, path t p v)
     ∧ tree_validate t = Some (if negb (len R =? len (nodes t)) then invalid "reasoning tree contains nodes unreachable from its root" else Ok tt))
  ∨ ¬ (declares t ∧ shape t) ∧ ∃ e, tree_validate t = Some (Err e).
Proof.
  unfold tree_validate, validate_version.
  destruct (Z.eqb_spec (tree_version t) REASONING_TREE_CONTRACT_VERSION) as [E1|E1]; cbn [negb]; [|right; split; [by intros [[] _]|by eexists]].
  destruct (Z.eqb_spec (tree_revision t) 0) as [E2|E2]; [right; split; [by intros [[] _]|by eexists]|].
  destruct (is_empty (nodes t)) eqn:E3; cbn [orb]; [right; split; [|by eexists]; intros [[] _]; by destruct (nodes t), dc_nodes0|].
  destruct (Z.ltb_spec MAX_REASONING_TREE_NODES (len (nodes t))) as [E4|E4]; [right; split; [intros [[] _]; lia|by eexists]|].
  destruct (Z.ltb_spec MAX_REASONING_TREE_EDGES (len (edges t))) as [E5|E5]; [right; split; [intros [[] _]; lia|by eexists]|].
  destruct (Z.ltb_spec MAX_REASONING_TREE_RECIPES (len (recipes t))) as [E6|E6]; [right; split; [intros [[] _]; lia|by eexists]|].
  destruct (recipes_validate [] (recipes t)) as [known|e] eqn:E7.
  2: { right. split; [|by eexists]. intros [[] _]. destruct dc_recipes_valid0 as [Hv Hn]. rewrite (proj2 (recipes_validate_ok [] (recipes t) (inserted [] (map recipe_id (recipes t))))) in E7; [done|]. by rewrite fresh_nil. }
  apply recipes_validate_ok in E7 as (Hrv & Hrn & ->). rewrite fresh_nil in Hrn.
  assert (∀ n, node_ok (inserted [] (map recipe_id (recipes t))) n ↔ (is_Some (verification_requirement n) → terminal n = true) ∧ ∀ id, node_recipe n = Some id → id ∈ map recipe_id (recipes t)) as Hnode.
  { intros n. unfold node_ok. setoid_rewrite inserted_mem. setoid_rewrite ids_mem_nil. naive_solver. }
  destruct (nodes_validate _ [] (nodes t)) as [ids|e] eqn:E8.
  2: { right. split; [|by eexists]. intros [[] _]. rewrite (proj2 (nodes_validate_ok _ [] (nodes t) (inserted [] (declared_ids t)))) in E8; [done|]. rewrite fresh_nil. split; [|done].
       eapply Forall_impl; [exact dc_nodes_valid0|]. intros n. apply Hnode. }
  apply nodes_validate_ok in E8 as (Hnv & Hnn & ->). rewrite fresh_nil in Hnn. fold (declared_ids t) in *.
  assert (∀ v, bs_mem v (inserted [] (declared_ids t)) = true ↔ v ∈ declared_ids t) as Hmem by (intros v; rewrite inserted_mem, ids_mem_nil; tauto).
  destruct (bs_mem (tree_root t) _) eqn:E9; cbn [negb]; [|right; split; [|by eexists]; intros [[] _]; apply not_true_iff_false in E9; by rewrite Hmem in E9].
  apply Hmem in E9. destruct (edges_validate _ [] [] [] (edges t)) as [[inc out]|e] eqn:E10.
  2: { right. split; [|by eexists]. intros [[] (Hself & _)]. rewrite (proj2 (edges_validate_ok _ [] [] [] (edges t) (edge_maps [] [] (edges t)))) in E10; [done|]. rewrite fresh_nil. split; [|done].
       rewrite Forall_forall in dc_edges_valid0 |- *. intros e' He. destruct (dc_edges_valid0 e' He) as (? & ? & ?). split_and!; [done|by apply Hself|by apply Hmem..]. }
  apply edges_validate_ok in E10 as (Hev & Hen & Emaps). rewrite fresh_nil in Hen.
  assert ((∀ v, default 0 (bt_get v inc) = parents (edges t) v) ∧ ∀ v, default [] (bt_get v out) = children (edges t) v) as [Hinc Hout].
  { split; intros v; destruct (edge_maps_ok [] [] (edges t) v) as [H1 H2]; rewrite <-Emaps in H1, H2; done. }
  assert (declares t) as D.
  { split; try done; [by destruct (nodes t)| |].
    - eapply Forall_impl; [exact Hnv|]. intros n. apply Hnode.
    - eapply Forall_impl; [exact Hev|]. intros e (? & _ & ? & ?). split_and!; [done|by apply Hmem..]. }
  rewrite Hinc. destruct (Z.eqb_spec (parents (edges t) (tree_root t)) 0) as [E11|E11]; cbn [negb]; [|right; split; [by intros [_ (_ & ? & _)]|by eexists]].
  destruct (try_each _ (nodes t)) as [[]|e] eqn:E12.
  2: { right. split; [|by eexists]. intros [_ (_ & _ & Hdeg)]. rewrite (proj2 (try_each_ok _ _)) in E12; [done|]. apply Forall_forall. intros n Hn. apply (degrees_ok _ _ _ (edges t)); [done..|by apply Hdeg]. }
  apply try_each_ok in E12. assert (shape t) as Hshape.
  { split; [rewrite Forall_forall in Hev; intros e He; by apply Hev|]. split; [done|]. intros n Hn. rewrite Forall_forall in E12. by apply (degrees_ok (tree_root t) inc out (edges t)), E12. }
  left. split; [done|]. split; [done|]. destruct (walk_ok t out) as (R & Hloop & Hnd & HR); [by apply shape_forest|done|]. exists R. split; [done|]. split; [done|]. rewrite Hloop.
  assert (len (inserted [] R) = len R) as -> by (unfold len; by rewrite inserted_length by by apply fresh_nil). by destruct (negb _).
Qed.

Lemma tree_valid_inv t : tree_validate t = Some (Ok tt) → declares t ∧ shape t.
Proof. intros E. destruct (tree_validate_spec t) as [(D & Hs & _)|[_ [e Ee]]]; [done|congruence]. Qed.

(** The degrees of a rooted tree. *)
Lemma rooted_shape t : declares t → rooted t → shape t.
Proof.
  intros D [Hpath Hleaf].
  assert (∀ v, v ∈ declared_ids t → exists! p, path t p v) as Hids by (intros v (n & -> & Hn)%list_elem_of_fmap; by apply Hpath).
  assert (∀ e, e ∈ edges t → edge_from e ∈ declared_ids t ∧ edge_to e ∈ declared_ids t) as Hends.
  { intros e He. pose proof (dc_edges_valid t D) as Hall. rewrite Forall_forall in Hall. by apply Hall. }
  assert (forest t) as Hf by (apply unique_paths_forest; [intros e He; by apply Hids, Hends..|apply Hids, D|apply D]). split; [|split].
  - intros e He E. destruct (Hids (edge_from e)) as (p & Hp & Hu); [by apply Hends|]. assert (path t (p ++ [e]) (edge_from e)) as Hp' by (rewrite E; by constructor).
    apply Hu in Hp'. apply (f_equal length) in Hp'. rewrite length_app in Hp'. cbn in Hp'. lia.
  - apply parents_zero, Hf.
  - intros n Hn. split; [|rewrite children_nil; by apply Hleaf]. intros Hne. pose proof (proj1 (parents_nodup (edges t)) (proj2 Hf) (node_id n)) as Hle.
    assert (parents (edges t) (node_id n) ≠ 0) as Hnz; [|unfold parents, len in *; lia]. rewrite parents_zero. intros Hall. destruct (Hpath n Hn) as (p & Hp & _).
    inversion Hp as [E1 E2|q e Hq He E1 E2]; [done|]. by apply (Hall e He).
Qed.

(** C6: validation of a reasoning tree is exact: it always answers, and accepts exactly the
    declarations, within the bounds, with unique identifiers and known references, in which every
    node is reached from the root by exactly one path and the terminal nodes are exactly the leaves. *)
Theorem tree_validate_exact t :
  (∃ r, tree_validate t = Some r) ∧ (tree_validate t = Some (Ok tt) ↔ declares t ∧ rooted t).
Proof.
  destruct (tree_validate_spec t) as [(D & Hs & R & Hnd & HR & ->)|[Hno [e ->]]].
  - split; [by eexists|]. pose proof (shape_forest t D Hs) as Hf.
    assert (∀ v, v ∈ R → v ∈ declared_ids t) as Hsub.
    { intros v [p Hp]%HR. destruct Hp as [|p e Hp He]; [apply D|]. pose proof (dc_edges_valid t D) as Hall. rewrite Forall_forall in Hall. by apply Hall. }
    assert (len R = len (nodes t) ↔ ∀ n, n ∈ nodes t → ∃ p, path t p (node_id n)) as Hlen.
    { assert (len (nodes t) = len (declared_ids t)) as -> by (unfold declared_ids; by rewrite len_map). unfold len. rewrite Nat2Z.inj_iff. split.
      - intros E n Hn. apply HR. assert (R ≡ₚ declared_ids t) as HP; [|rewrite HP; by apply list_elem_of_fmap_2]. apply submseteq_length_Permutation; [by apply NoDup_submseteq|lia].
      - intros Hall. apply Permutation_length, NoDup_Permutation; [done|apply D|]. intros v. split; [apply Hsub|]. intros (n & -> & Hn)%list_elem_of_fmap. apply HR. by apply Hall. }
    assert (∀ n, n ∈ nodes t → terminal n = true ↔ ∀ e, e ∈ edges t → edge_from e ≠ node_id n) as Hleaf.
    { intros n Hn. destruct Hs as (_ & _ & Hdeg). destruct (Hdeg n Hn) as [_ ->]. apply children_nil. }
    destruct (Z.eqb_spec (len R) (len (nodes t))) as [E|E]; cbn [negb].
    + split; [|done]. intros _. split; [done|]. split; [|done]. intros n Hn. destruct (proj1 Hlen E n Hn) as [p Hp]. exists p. split; [done|]. intros q Hq. by eapply path_unique.
    + split; [done|]. intros [_ [Hpath _]]. exfalso. apply E, Hlen. intros n Hn. destruct (Hpath n Hn) as (p & Hp & _). by exists p.
  - split; [by eexists|]. split; [done|]. intros [D [Hpath Hleaf]]. exfalso. apply Hno. split; [done|]. by apply rooted_shape.
Qed.

(** * Advances *)

Lemma evaluations_validate_ok cm seen l r :
  evaluations_validate cm seen l = Ok r ↔
  Forall (λ v, satisfied v = true ∧ ∃ c, bt_get (evaluated_id v) cm = Some c ∧ (requires_evidence c = true → evaluation_evidence v ≠ [])) l
  ∧ fresh seen (map evaluated_id l) ∧ r = inserted seen (map evaluated_id l).
Proof.
  revert seen. induction l as [|v l IH]; intros seen; cbn [evaluations_validate map]; [split; [intros [= <-]; split; [constructor|split; [split; [constructor|set_solver]|done]]|by intros (_ & _ & ->)]|].
  rewrite Forall_cons, fresh_cons. destruct (bt_get (evaluated_id v) cm) as [c|]; [|naive_solver]. destruct (bs_mem _ seen); [naive_solver|]. destruct (satisfied v); cbn [negb]; [|naive_solver].
  assert ((∃ c', Some c = Some c' ∧ (requires_evidence c' = true → evaluation_evidence v ≠ [])) ↔ (requires_evidence c && is_empty (evaluation_evidence v))%bool = false) as ->.
  { split.
    - intros (c' & [= <-] & Hc). destruct (requires_evidence c); [|done]. specialize (Hc eq_refl). by destruct (evaluation_evidence v).
    - intros E. exists c. split; [done|]. intros Hc Hn. by rewrite Hc, Hn in E. }
  destruct (_ && _)%bool; [naive_solver|]. rewrite IH. unfold inserted. cbn [foldl]. naive_solver.
Qed.
Lemma verifications_validate_ok decided ids reqs l r : bt_sorted reqs → verifications_validate decided ids reqs l = Ok r →
  Forall (λ v, verification_validate v = Ok tt ∧ decided ≤ checked_at v) l ∧ NoDup (map verification_id l) ∧ NoDup (map requirement l)
  ∧ bt_sorted r ∧ len r = len reqs + len l ∧ ∀ k v, bt_get k r = Some v ↔ bt_get k reqs = Some v ∨ v ∈ l ∧ requirement v = k.
Proof.
  intros Hs Hr. assert (fresh ids (map verification_id l) ∧ Forall (λ v, verification_validate v = Ok tt ∧ decided ≤ checked_at v) l ∧ NoDup (map requirement l) ∧ (∀ v, v ∈ l → bt_get (requirement v) reqs = None)
    ∧ bt_sorted r ∧ len r = len reqs + len l ∧ ∀ k v, bt_get k r = Some v ↔ bt_get k reqs = Some v ∨ v ∈ l ∧ requirement v = k) as ([? _] & ? & ? & _ & ? & ? & ?); [|done].
  revert ids reqs Hs Hr. induction l as [|v l IH]; intros ids reqs Hs Hr; cbn [verifications_validate map] in *.
  { injection Hr as <-. split; [apply (conj (NoDup_nil_2)); set_solver|]. split; [constructor|]. split; [constructor|]. split; [set_solver|]. split; [done|]. split; [unfold len; cbn [length]; lia|]. set_solver. }
  destruct (verification_validate v) as [[]|] eqn:Ev; [|done]. destruct (Z.ltb_spec (checked_at v) decided); [done|]. destruct (bs_mem (verification_id v) ids) eqn:Ei; [done|].
  destruct (bt_mem (requirement v) reqs) eqn:Em; [done|]. assert (bt_get (requirement v) reqs = None) as En by (unfold bt_mem in Em; by destruct (bt_get (requirement v) reqs)).
  apply IH in Hr as (Hf & Hall & Hnd & Hnone & Hsr & Hlen & Hget); [|by apply bt_insert_sorted]. rewrite fresh_cons, NoDup_cons, Forall_cons.
  assert (∀ w, w ∈ l → requirement w ≠ requirement v ∧ bt_get (requirement w) reqs = None) as Hold.
  { intros w Hw. specialize (Hnone w Hw). rewrite bt_get_insert in Hnone. by case_decide. }
  split; [done|]. split; [done|]. split; [split; [|done]; intros (w & E & Hw)%list_elem_of_fmap; by apply (Hold w)|]. split; [intros w [->|Hw]%elem_of_cons; [done|by apply Hold]|]. split; [done|].
  split; [rewrite Hlen; unfold len; rewrite bt_insert_length_fresh by done; cbn [length]; lia|].
  intros k w. rewrite Hget, bt_get_insert, elem_of_cons. case_decide as Hk; [|naive_solver]. subst k. split; [naive_solver|].
  intros [Hw|[[->|Hw] E]]; [congruence|by left|]. exfalso. by apply (Hold w).
Qed.
Lemma required_elem edge target r :
  bs_mem r (required_verifications edge target) = true ↔ (∃ c, c ∈ conditions edge ∧ predicate c = VerificationPassed r) ∨ verification_requirement target = Some r.
Proof.
  unfold required_verifications.
  assert (∀ s, bs_mem r (foldl (λ s c, match predicate c with VerificationPassed r => bs_insert r s | _ => s end) s (conditions edge)) = true
    ↔ (∃ c, c ∈ conditions edge ∧ predicate c = VerificationPassed r) ∨ bs_mem r s = true) as Hfold.
  { induction (conditions edge) as [|c l IH]; intros s; cbn [foldl]; [set_solver|]. rewrite IH.
    assert ((∃ x, x ∈ c :: l ∧ predicate x = VerificationPassed r) ↔ predicate c = VerificationPassed r ∨ ∃ x, x ∈ l ∧ predicate x = VerificationPassed r) as -> by set_solver.
    destruct (predicate c) as [|ev ex|q] eqn:Ec; [intuition discriminate..|]. rewrite ids_mem_insert. assert (VerificationPassed q = VerificationPassed r ↔ r = q) as -> by (split; congruence). tauto. }
  destruct (verification_requirement target) as [q|]; rewrite ?ids_mem_insert, Hfold, ids_mem_nil; [|intuition discriminate].
  assert (Some q = Some r ↔ r = q) as -> by (split; congruence). tauto.
Qed.
Lemma required_sorted edge target : bt_sorted (required_verifications edge target).
Proof.
  unfold required_verifications. assert (∀ s, bt_sorted s → bt_sorted (foldl (λ s c, match predicate c with VerificationPassed r => bs_insert r s | _ => s end) s (conditions edge))) as Hfold.
  { induction (conditions edge) as [|c l IH]; intros s Hs; cbn [foldl]; [done|]. apply IH. destruct (predicate c); [done..|by apply bt_insert_sorted]. }
  destruct (verification_requirement target); [apply bt_insert_sorted|]; apply Hfold; constructor.
Qed.
Lemma sorted_keys {V} (m : list (RuntimeId * V)) : bt_sorted m → NoDup (map fst m).
Proof. intros Hs. apply NoDup_alt. intros i j k Hi Hj. apply list_lookup_fmap_Some in Hi as (p & -> & Hi), Hj as (q & E & Hj). eapply (bt_sorted_inj m); eauto. Qed.
Lemma sorted_keys_mem {V} (m : list (RuntimeId * V)) k : bt_sorted m → k ∈ map fst m ↔ bt_mem k m = true.
Proof.
  intros Hs. unfold bt_mem. rewrite list_elem_of_fmap. split.
  - intros ([k' v] & -> & Hin). cbn. apply bt_get_Some in Hin; [|done]. by rewrite Hin.
  - destruct (bt_get k m) as [v|] eqn:E; [|done]. intros _. exists (k, v). split; [done|]. by apply bt_get_elem.
Qed.

Lemma find_id {A} (id : A → RuntimeId) l k x : List.find (λ a, bool_decide (id a = k)) l = Some x → x ∈ l ∧ id x = k.
Proof. intros Hf. apply find_some in Hf as [Hin Hk]. split; [by apply list_elem_of_In|by apply bool_decide_eq_true_1 in Hk]. Qed.
Lemma same_ids (l k : list RuntimeId) : NoDup l → NoDup k → len l = len k → (∀ x, x ∈ l → x ∈ k) → l ≡ₚ k.
Proof. intros Hl Hk E Hsub. apply submseteq_length_Permutation; [by apply NoDup_submseteq|unfold len in E; lia]. Qed.

(** What justifies a move along an edge to its target. *)
Record justified (a : ReasoningCursorAdvance) (edge : ReasoningEdge) (target : ReasoningNode) : Prop := {
  js_bound : decision_cursor (advance_decision a) = cursor_id (before a) ∧ decision_step (advance_decision a) = step (before a)
    ∧ read_manifest_sha256 (advance_decision a) = stamp_manifest (cursor_read (before a)) ∧ selected_edge (advance_decision a) = edge_id edge;
  js_conditions : map evaluated_id (condition_evaluations (advance_decision a)) ≡ₚ map condition_id (conditions edge);
  js_satisfied : ∀ v, v ∈ condition_evaluations (advance_decision a) → satisfied v = true
    ∧ ∃ c, c ∈ conditions edge ∧ condition_id c = evaluated_id v ∧ (predicate c ≠ Always → evaluation_evidence v ≠ []);
  js_required : ∀ r, ((∃ c, c ∈ conditions edge ∧ predicate c = VerificationPassed r) ∨ verification_requirement target = Some r) ↔ r ∈ map requirement (verifications a);
  js_unique : NoDup (map requirement (verifications a));
  js_passed : ∀ v, v ∈ verifications a → status v = Passed ∧ decided_at (advance_decision a) ≤ checked_at v
}.

Section Advances.
Context `{Sha2}.

Lemma verifications_exact edge target reqs decided l : verifications_validate decided [] [] l = Ok reqs →
  len reqs = len (required_verifications edge target) → existsb (λ k, negb (bs_mem k (required_verifications edge target))) (map fst reqs) = false →
  try_each (passing reqs) (map fst (required_verifications edge target)) = Ok tt →
  (∀ r, ((∃ c, c ∈ conditions edge ∧ predicate c = VerificationPassed r) ∨ verification_requirement target = Some r) ↔ r ∈ map requirement l)
  ∧ NoDup (map requirement l) ∧ ∀ v, v ∈ l → status v = Passed ∧ decided ≤ checked_at v.
Proof.
  intros Hv Hlen Hex Hpass. apply verifications_validate_ok in Hv as (Hall & _ & Hnd & Hs & Hl & Hget); [|constructor]. pose proof (required_sorted edge target) as Hrs.
  assert (∀ k, k ∈ map fst reqs ↔ k ∈ map requirement l) as Hkeys.
  { intros k. rewrite sorted_keys_mem, list_elem_of_fmap by done. unfold bt_mem. split.
    - destruct (bt_get k reqs) as [v|] eqn:E; [|done]. apply Hget in E as [E|[? ?]]; [done|]. intros _. by exists v.
    - intros (v & -> & Hin). by rewrite (proj2 (Hget (requirement v) v)) by auto. }
  assert (map fst reqs ≡ₚ map fst (required_verifications edge target)) as HP.
  { apply same_ids; [by apply sorted_keys..|by rewrite !len_map|]. intros k Hk. apply sorted_keys_mem; [done|]. apply not_false_iff_true. intros Hc. apply not_true_iff_false in Hex. apply Hex.
    apply existsb_exists. exists k. split; [by apply list_elem_of_In|]. unfold bs_mem. by rewrite Hc. }
  split; [|split; [done|]].
  - intros r. rewrite <-required_elem, <-Hkeys, HP. unfold bs_mem. by rewrite sorted_keys_mem.
  - intros v Hin. rewrite Forall_forall in Hall. split; [|by apply Hall]. apply try_each_ok in Hpass. rewrite Forall_forall in Hpass. specialize (Hpass (requirement v)). unfold passing in Hpass.
    rewrite (proj2 (Hget (requirement v) v)) in Hpass by auto. case_bool_decide; [done|]. discriminate Hpass. rewrite <-HP. apply Hkeys. by apply list_elem_of_fmap_2.
Qed.
Lemma evaluations_exact edge l r : NoDup (map condition_id (conditions edge)) → evaluations_validate (bt_collect condition_id (conditions edge)) [] l = Ok r → len r = len (conditions edge) →
  map evaluated_id l ≡ₚ map condition_id (conditions edge)
  ∧ ∀ v, v ∈ l → satisfied v = true ∧ ∃ c, c ∈ conditions edge ∧ condition_id c = evaluated_id v ∧ (predicate c ≠ Always → evaluation_evidence v ≠ []).
Proof.
  intros Hnd Hr Hlen. apply evaluations_validate_ok in Hr as (Hall & Hf & ->). rewrite fresh_nil in Hf. rewrite Forall_forall in Hall.
  assert (∀ k c, bt_get k (bt_collect condition_id (conditions edge)) = Some c → c ∈ conditions edge ∧ condition_id c = k) as Hget.
  { intros k c. rewrite bt_get_collect, last_Some. intros [l' E]. assert (c ∈ filter (λ v, condition_id v = k) (conditions edge)) as Hc by (rewrite E; set_solver). by apply list_elem_of_filter in Hc as [? ?]. }
  split.
  - apply same_ids; [done..| |].
    + rewrite (len_map condition_id), <-Hlen. unfold len. rewrite inserted_length by by apply fresh_nil. done.
    + intros k (v & -> & Hv)%list_elem_of_fmap. destruct (Hall v Hv) as (_ & c & Hc & _). apply Hget in Hc as [Hc <-]. by apply list_elem_of_fmap_2.
  - intros v Hv. destruct (Hall v Hv) as (Hsat & c & Hc & He). apply Hget in Hc as [Hc Hid]. split; [done|]. exists c. split; [done|]. split; [done|]. intros Hp. apply He. unfold requires_evidence. by destruct (predicate c).
Qed.

(** The checks an accepted advance has passed. *)
Lemma tree_advance_inv tree a : advance_validate a tree = Some (Ok tt) →
  tree_validate tree = Some (Ok tt) ∧ cursor_id (after a) = cursor_id (before a) ∧ cursor_read (after a) = cursor_read (before a) ∧ step (after a) = step (before a) + 1
  ∧ ∃ edge source target ev reqs, edge ∈ edges tree ∧ edge_id edge = advance_edge a ∧ source ∈ nodes tree ∧ target ∈ nodes tree ∧ terminal source = false
      ∧ edge_from edge = node_id source ∧ node_id source = cursor_node (before a) ∧ edge_to edge = node_id target ∧ node_id target = cursor_node (after a)
      ∧ (decision_cursor (advance_decision a) = cursor_id (before a) ∧ decision_step (advance_decision a) = step (before a)
         ∧ read_manifest_sha256 (advance_decision a) = stamp_manifest (cursor_read (before a)) ∧ selected_edge (advance_decision a) = edge_id edge)
      ∧ (evaluations_validate (bt_collect condition_id (conditions edge)) [] (condition_evaluations (advance_decision a)) = Ok ev ∧ len ev = len (conditions edge))
      ∧ verifications_validate (decided_at (advance_decision a)) [] [] (verifications a) = Ok reqs ∧ len reqs = len (required_verifications edge target)
      ∧ existsb (λ k, negb (bs_mem k (required_verifications edge target))) (map fst reqs) = false ∧ try_each (passing reqs) (map fst (required_verifications edge target)) = Ok tt.
Proof.
  unfold advance_validate. destruct (validate_version _); [|done]. destruct (tree_validate tree) as [[[]|]|] eqn:Et; [|done..]. destruct (validate_for (before a) tree); [|done].
  destruct (validate_for (after a) tree); [|done]. destruct (decision_validate _); [|done]. intros [= Ha]. case_bool_decide as E1; [|done]. case_bool_decide as E2; [|done]. cbn [negb] in Ha.
  destruct (checked_add 64 (step (before a)) 1) as [st|] eqn:E3; [|done]. unfold checked_add in E3. destruct (_ <? _); [|done]. injection E3 as <-.
  destruct (Z.eqb_spec (step (after a)) (step (before a) + 1)) as [E3|]; [|done]. cbn [negb] in Ha. destruct (tree_node tree (cursor_node (before a))) as [source|] eqn:E4; [|done].
  destruct (terminal source) eqn:E5; [done|]. destruct (tree_node tree (cursor_node (after a))) as [target|] eqn:E6; [|done]. destruct (tree_edge tree (advance_edge a)) as [edge|] eqn:E7; [|done].
  case_bool_decide as E8; [|done]. case_bool_decide as E9; [|done]. cbn [negb orb] in Ha. apply find_id in E4 as [Hs Es], E6 as [Ht Ett], E7 as [He Ee].
  destruct (negb (bool_decide (decision_cursor _ = _)) || _ || _ || _) eqn:E10; [done|]. rewrite !orb_false_iff, !negb_false_iff, !bool_decide_eq_true, Z.eqb_eq in E10. destruct E10 as [[[E10 E11] E12] E13].
  destruct (recipe_matches _ _ _); [|done]. destruct (evaluations_validate _ _ _) as [ev|] eqn:E14; [|done]. destruct (Z.eqb_spec (len ev) (len (conditions edge))) as [E15|]; [|done]. cbn [negb] in Ha.
  destruct (verifications_validate _ _ _ _) as [reqs|] eqn:E16; [|done]. destruct (Z.eqb_spec (len reqs) (len (required_verifications edge target))) as [E17|]; [|done]. cbn [negb orb] in Ha.
  destruct (existsb _ _) eqn:E18; [done|].
  split_and!; [done..|]. exists edge, source, target, ev, reqs. split_and!; (done || congruence).
Qed.

(** C11: an accepted advance is justified: in a valid tree it follows a declared edge from a
    non-terminal node, one step further, for the same cursor and read stamp; the decision is bound to
    that cursor, step, stamp and edge; every condition of the edge was evaluated exactly once and
    satisfied, with evidence unless it always holds; and exactly the verifications the edge and its
    target require are there, each once, passed, and not older than the decision. *)
Theorem advance_is_justified tree a :
  advance_validate a tree = Some (Ok tt) →
  tree_validate tree = Some (Ok tt) ∧ cursor_id (after a) = cursor_id (before a) ∧ cursor_read (after a) = cursor_read (before a) ∧ step (after a) = step (before a) + 1
  ∧ ∃ edge source target, edge ∈ edges tree ∧ edge_id edge = advance_edge a ∧ source ∈ nodes tree ∧ target ∈ nodes tree ∧ terminal source = false
      ∧ edge_from edge = node_id source ∧ node_id source = cursor_node (before a) ∧ edge_to edge = node_id target ∧ node_id target = cursor_node (after a) ∧ justified a edge target.
Proof.
  intros (Ht & Hid & Hread & Hstep & edge & source & target & ev & reqs & He & Ee & Hsrc & Htgt & Hterm & Ef & Es & Et & Ett & Hbound & [Hev Elen] & Hreqs & Hlen & Hex & Hpass)%tree_advance_inv.
  destruct (tree_valid_inv tree Ht) as [D _]. assert (NoDup (map condition_id (conditions edge))) as Hc.
  { pose proof (dc_edges_valid tree D) as Hall. rewrite Forall_forall in Hall. destruct (Hall edge He) as [Hv _]. unfold edge_validate in Hv. destruct (_ <? _); [done|]. apply conditions_validate_ok in Hv as [_ Hv].
    by rewrite fresh_nil in Hv. }
  destruct (evaluations_exact edge _ ev Hc Hev Elen) as [HP Hsat]. destruct (verifications_exact edge target reqs _ _ Hreqs Hlen Hex Hpass) as (Hreq & Hu & Hpassed).
  split_and!; [done..|]. exists edge, source, target. split_and!; try done.
Qed.
End Advances.

(** * Runs *)

Section Runs.
Context `{Sha2} (tree : ReasoningTree).

(** A run: a valid cursor at step zero and accepted advances, each from where the last one ended. *)
Inductive run : ReasoningActiveCursor → list ReasoningCursorAdvance → ReasoningActiveCursor → Prop :=
  | run_start c : validate_for c tree = Ok tt → step c = 0 → run c [] c
  | run_advance c l a : run c l (before a) → advance_validate a tree = Some (Ok tt) → run c (l ++ [a]) (after a).

Lemma path_prefix p v i e : path tree p v → p !! i = Some e → path tree (take (S i) p) (edge_to e) ∧ e ∈ edges tree.
Proof.
  intros Hp. revert i e. induction Hp as [|p x Hp IH Hx]; intros i e Hi; [done|]. apply lookup_app_Some in Hi as [Hi|[Hle Hi]].
  - rewrite take_app_le; [by apply IH|]. apply lookup_lt_Some in Hi. lia.
  - apply list_lookup_singleton_Some in Hi as [Hi ->]. rewrite take_ge by (rewrite length_app; cbn; lia). split; [by constructor|done].
Qed.
(** A path visits no node twice, so it is shorter than the tree has nodes. *)
Lemma path_bounded p v : declares tree → shape tree → path tree p v → (length p < length (nodes tree))%nat.
Proof.
  intros D Hs Hp. pose proof (shape_forest tree D Hs) as Hf. assert (NoDup (tree_root tree :: map edge_to p)) as Hnd.
  { apply NoDup_cons. split.
    - intros (e & E & [i Hi]%list_elem_of_lookup)%list_elem_of_fmap. destruct (path_prefix p v i e Hp Hi) as [_ He]. by apply (proj1 Hf e).
    - apply NoDup_alt. intros i j w Hi Hj. apply list_lookup_fmap_Some in Hi as (e & -> & Hi), Hj as (e' & E & Hj). destruct (path_prefix p v i e Hp Hi) as [Hpi _], (path_prefix p v j e' Hp Hj) as [Hpj _].
      rewrite <-E in Hpj. pose proof (path_unique tree _ _ _ Hf Hpi Hpj) as Et. apply (f_equal length) in Et. rewrite !length_take in Et. apply lookup_lt_Some in Hi, Hj. lia. }
  assert (length (tree_root tree :: map edge_to p) ≤ length (declared_ids tree))%nat as Hle; [|unfold declared_ids in Hle; cbn in Hle; rewrite !length_map in Hle; lia].
  apply NoDup_incl_length; [by apply NoDup_ListNoDup|]. intros w Hw. apply list_elem_of_In. apply list_elem_of_In, elem_of_cons in Hw as [->|(e & -> & [i Hi]%list_elem_of_lookup)%list_elem_of_fmap]; [apply D|].
  destruct (path_prefix p v i e Hp Hi) as [_ He]. pose proof (dc_edges_valid tree D) as Hall. rewrite Forall_forall in Hall. by apply Hall.
Qed.
(** C12: a run is a path: after accepted advances from step zero the cursor stands at the end of the
    one path from the root whose edges are those the advances named, its step is the length of that
    path and below the number of nodes (so no run is longer than the bound of 4,096 nodes allows),
    and the cursor's identity and read stamp are those it started with. *)
Theorem run_is_the_path c l m : run c l m → tree_validate tree = Some (Ok tt) →
  ∃ p, path tree p (cursor_node m) ∧ map edge_id p = map advance_edge l ∧ step m = len p ∧ len p < len (nodes tree) ∧ len (nodes tree) ≤ MAX_REASONING_TREE_NODES
    ∧ cursor_id m = cursor_id c ∧ cursor_read m = cursor_read c ∧ ∀ q, path tree q (cursor_node m) → q = p.
Proof.
  intros Hrun Ht. destruct (tree_valid_inv tree Ht) as [D Hs]. pose proof (shape_forest tree D Hs) as Hf.
  assert (∃ p, path tree p (cursor_node m) ∧ map edge_id p = map advance_edge l ∧ step m = len p ∧ cursor_id m = cursor_id c ∧ cursor_read m = cursor_read c) as (p & Hp & Hids & Hstep & Hc & Hr).
  { induction Hrun as [c Hv Hz|c l a Hrun IH Ha].
    - exists []. split_and!; try done. unfold validate_for in Hv. destruct (cursor_validate c); [|done]. destruct (_ || _); [done|]. destruct (negb _); [done|].
      rewrite Hz in Hv. cbn [Z.eqb andb] in Hv. case_bool_decide as E; [|done]. rewrite E. constructor.
    - destruct IH as (p & Hp & Hids & Hstep & Hc & Hr). apply tree_advance_inv in Ha as (_ & Eid & Er & Est & e & source & target & _ & _ & He & Ee & _ & _ & _ & Ef & Es & Et & Ett & _). exists (p ++ [e]).
      split; [rewrite <-Ett, <-Et; constructor; [by rewrite Ef, Es|done]|]. rewrite !map_app, Hids, Est, Hstep. cbn [map]. rewrite Ee, len_app. split_and!; [done|done|congruence..]. }
  exists p. split_and!; try done; [|apply D|intros q Hq; by eapply path_unique]. pose proof (path_bounded p _ D Hs Hp). unfold len. lia.
Qed.
End Runs.

(** * A two-step investigation *)

Module SampleTree.
#[local] Existing Instance toy_sha2.
#[local] Existing Instance toy_sha2_laws.
Import SampleRead.
Definition rid (s : string) : RuntimeId := MkRuntimeId s.
Definition kind (s : string) : RuntimeType := MkRuntimeType s.
Definition sha : string := sha256_hex (str_bytes "content").
Definition node (id : string) (leaf : bool) (req : option RuntimeId) : ReasoningNode :=
  {| node_id := rid id; node_kind := kind "question"; node_recipe := None; terminal := leaf; verification_requirement := req |}.
Definition edge (id from to : string) (l : list ReasoningCondition) : ReasoningEdge := {| edge_id := rid id; edge_kind := kind "then"; edge_from := rid from; edge_to := rid to; conditions := l |}.
Definition cond : ReasoningCondition := {| condition_id := rid "tests"; predicate := VerificationPassed (rid "suite") |}.
Definition tree : ReasoningTree :=
  {| tree_version := 1; tree_id := rid "tree"; tree_revision := 1; tree_root := rid "start"; recipes := [];
     nodes := [node "start" false None; node "look" false None; node "stop" true None; node "fix" true (Some (rid "review"))];
     edges := [edge "e1" "start" "look" []; edge "e2" "start" "stop" []; edge "e3" "look" "fix" [cond]] |}.
Definition proof_item : ReasoningEvidence := {| evidence_kind := kind "log"; evidence_source := "ci"; content_sha256 := sha; observed_at := 3; evidence_summary := "green" |}.
Definition at_node (id : string) (n : Z) : ReasoningActiveCursor :=
  {| cursor_version := 1; cursor_id := rid "run"; cursor_tree := rid "tree"; cursor_revision := 1; cursor_node := rid id; step := n; cursor_read := stamp |}.
Definition decide_edge (id : string) (n : Z) (evals : list ReasoningConditionEvaluation) : ReasoningDecisionEvidence :=
  {| decision_id := rid "d"; actor_kind := kind "agent"; actor_id := rid "a"; decision_cursor := rid "run"; decision_step := n; read_manifest_sha256 := stamp_manifest stamp;
     selected_edge := rid id; decision_recipe := None; input_sha256 := sha; decided_at := 5; condition_evaluations := evals; decision_evidence := [proof_item] |}.
Definition verified (id req : string) : ReasoningVerificationResult :=
  {| verification_id := rid id; requirement := rid req; status := Passed; checked_at := 6; verification_evidence := [proof_item] |}.
Definition first_move : ReasoningCursorAdvance :=
  {| advance_version := 1; before := at_node "start" 0; advance_edge := rid "e1"; advance_decision := decide_edge "e1" 0 []; verifications := []; after := at_node "look" 1 |}.
Definition second_move : ReasoningCursorAdvance :=
  {| advance_version := 1; before := at_node "look" 1; advance_edge := rid "e3";
     advance_decision := decide_edge "e3" 1 [{| evaluated_id := rid "tests"; satisfied := true; evaluation_evidence := [proof_item] |}];
     verifications := [verified "v1" "suite"; verified "v2" "review"]; after := at_node "fix" 2 |}.

Lemma tree_ok : tree_validate tree = Some (Ok tt).
Proof. vm_compute. reflexivity. Qed.
Lemma first_ok : advance_validate first_move tree = Some (Ok tt).
Proof. vm_compute. reflexivity. Qed.
Lemma second_ok : advance_validate second_move tree = Some (Ok tt).
Proof. vm_compute. reflexivity. Qed.
(** Without the review the last move is refused. *)
Lemma unverified_refused :
  advance_validate {| advance_version := 1; before := before second_move; advance_edge := rid "e3"; advance_decision := advance_decision second_move;
    verifications := [verified "v1" "suite"]; after := after second_move |} tree = Some (invalid "reasoning cursor advance has missing or unrelated verifications").
Proof. vm_compute. reflexivity. Qed.
Lemma sample_run : run tree (at_node "start" 0) [first_move; second_move] (at_node "fix" 2).
Proof.
  apply (run_advance tree (at_node "start" 0) [first_move] second_move); [|exact second_ok]. apply (run_advance tree (at_node "start" 0) [] first_move); [|exact first_ok].
  apply run_start; vm_compute; reflexivity.
Qed.
Lemma advance_is_justified_witness : ∃ e target, e ∈ edges tree ∧ edge_id e = rid "e3" ∧ justified second_move e target.
Proof.
  destruct (advance_is_justified tree second_move second_ok) as (_ & _ & _ & _ & e & source & target & He & Ee & _ & _ & _ & _ & _ & _ & _ & Hj). exists e, target. split; [exact He|]. split; [exact Ee|exact Hj].
Defined.
Lemma run_is_the_path_witness : ∃ p, path tree p (rid "fix") ∧ map edge_id p = [rid "e1"; rid "e3"] ∧ len p = 2.
Proof.
  destruct (run_is_the_path tree (at_node "start" 0) [first_move; second_move] (at_node "fix" 2) sample_run tree_ok) as (p & Hp & Hids & Hstep & _). exists p. split; [exact Hp|].
  split; [exact Hids|]. symmetry. exact Hstep.
Defined.
End SampleTree.
