(* ===== verification/LsmError.v ===== *)
(** Errors of the native storage substrate ([rrd-lsm]: error.rs and the resource
    enumerations it names).  I/O errors carry the text of their kind. *)

From S2P Require Import Prelude.
Open Scope Z_scope.

(** lsm/batch.rs:16-19 WriteBatchResource *)
Inductive WriteBatchResource := EncodedBytes | Operations.
(** lsm/mutable.rs:23-29 MutableResource *)
Inductive MutableResource :=
| AccountedBytes | Versions | RetainedAccountedBytes | RetainedVersions | Generations.
(** lsm/transaction.rs:45-48 TransactionResource *)
Inductive TransactionResource := Active | BufferedBytes.
(** lsm/recovery_budget.rs:51-58 RecoveryResource *)
Inductive RecoveryResource := MetadataBytes | Files | ReadBytes | WalBytes | WalFrames | ElapsedMs.
(** lsm/reclamation.rs:30-35 ReclamationResource *)
Inductive ReclamationResource :=
| InventoryEntries | ReclamationMetadataBytes | DeleteBytes | ReclamationElapsedMs.
(** lsm/maintenance_limits.rs:33-40 MaintenanceResource *)
Inductive MaintenanceResource :=
| InputBytes | InputLogicalBytes | InputVersions | OutputSegments | MaintenanceElapsedMs | L0Segments.
(** lsm/segment/reader.rs:203-216 ProjectedReadResource *)
Inductive ProjectedReadResource :=
| ActiveViews | Ranges | Runs | PinnedBytes | VersionsExamined | PageRequests | PageLogicalBytes
| OutputRows | OutputBufferBytes | BatchRows | BatchAllocatedBytes | RetainedOutputBytes.

(** lsm/error.rs:8-120 Error *)
Inductive Error : Type :=
| SegmentHandleLimit (limit observed : Z)
| SourcePageLimit (limit observed : Z)
| CheckpointLimit (limit observed : Z)
| TransactionLimit (resource : TransactionResource) (limit observed : Z)
| DiskAdmission (available required reserve : Z)
| Io (error : string)
| IoContext (operation path source : string)
| Corruption (offset : Z) (reason : string)
| UnsupportedVersion (object : string) (version : Z)
| RecoveryLimit (resource : RecoveryResource) (limit observed : Z)
| ReclamationPending
| ReclamationLimit (resource : ReclamationResource) (limit observed : Z)
| MaintenanceLimit (resource : MaintenanceResource) (limit observed : Z)
| MutableLimit (resource : MutableResource) (limit observed : Z)
| InvalidConfiguration (reason : string)
| InvalidBatch (reason : string)
| WriteBatchLimit (resource : WriteBatchResource) (limit observed : Z)
| InvalidManifest (reason : string)
| ManifestConflict (expected actual : option string)
| InvalidSegment (reason : string)
| InvalidProjectedRead (reason : string)
| InvalidProjectedReadBudget (resource : ProjectedReadResource)
| ProjectedReadLimit (resource : ProjectedReadResource) (limit observed : Z)
| DuplicateProjectedSequence (manifest : string) (sequence : Z)
| PoisonedReadViewRegistry
| TornTail (offset : Z)
| DatabaseWriterLock (path : string)
| RecoveryRequired (boundary : string)
| InvalidTransaction (reason : string)
| TransactionConflict (snapshot_sequence conflicting_sequence : Z)
| TransactionDatabaseMismatch
| ActiveTransactions (operation : string)
| PoisonedTransactionState
| PoisonedWriter
| InjectedFailure (mode boundary : string).
