(* ===== verification/Batch.v ===== *)
(** The atomic write batch and its physical encoding ([rrd-lsm]: batch.rs).

    A batch is validated once ([WriteBatch::new]) with exact accounting of the bytes it will
    occupy, encoded into one WAL payload, and decoded on recovery.  The theorems: which
    operation lists are admitted and with which encoded length; encoding an admitted batch
    succeeds, has exactly that length and is decoded back; decoding accepts nothing but
    encodings of admitted batches. *)

From S2P Require Import Prelude Machine LsmError.
Open Scope Z_scope.

(** lsm/batch.rs:4-12 BATCH_* *)
Definition BATCH_FORMAT_VERSION : Z := 2.
Definition BATCH_MAGIC : list byte := str_bytes "RRDBAT02".
Definition BATCH_HEADER_BYTES : Z := 16.
Definition OP_HEADER_BYTES : Z := 8.
Definition DELETE_MASK : Z := Z.shiftl 1 31.
Definition VALUE_LEN_MASK : Z := 2 ^ 32 - 1 - DELETE_MASK.
Definition MAX_OPERATIONS : Z := 1000000.
Definition MAX_KEY_BYTES : Z := 1024 * 1024.
Definition MAX_VALUE_BYTES : Z := 8 * 1024 * 1024.
(** lsm/wal.rs:10-10 WAL_MAX_PAYLOAD_BYTES *)
Definition WAL_MAX_PAYLOAD_BYTES : Z := 16 * 1024 * 1024.

(** lsm/batch.rs:344-346 invalid *)
Definition invalid {T} (reason : string) : result Error T := Err (InvalidBatch reason).

(** lsm/batch.rs:112-115 Mutation *)
Inductive Mutation :=
| Put (key value : list byte)
| Delete (key : list byte).

(** lsm/batch.rs:118-122 Mutation::key *)
Definition mkey (self : Mutation) : list byte :=
  match self with Put key _ | Delete key => key end.

(** lsm/batch.rs:112-115 Mutation, the value *)
Definition mvalue (self : Mutation) : option (list byte) :=
  match self with Put _ value => Some value | Delete _ => None end.

(** lsm/batch.rs:135-142 validate_key *)
Definition validate_key (key : list byte) : result Error unit :=
  if (bool_decide (key = []) || (MAX_KEY_BYTES <? len key))%bool
  then invalid ("key length must be in 1..=" +:+ pretty MAX_KEY_BYTES +:+ " bytes")
  else Ok tt.

(** lsm/batch.rs:144-151 validate_value *)
Definition validate_value (value : list byte) : result Error unit :=
  if MAX_VALUE_BYTES <? len value
  then invalid ("value length exceeds " +:+ pretty MAX_VALUE_BYTES +:+ " bytes")
  else Ok tt.

(** lsm/batch.rs:126-132 Mutation::validate *)
Definition mutation_validate (self : Mutation) : result Error unit :=
  do? validate_key (mkey self) in
  match self with
  | Put _ value => validate_value value
  | Delete _ => Ok tt
  end.

(** lsm/batch.rs:36-39 WriteBatchSize *)
Record WriteBatchSize := MkWriteBatchSize { size_operations : Z; encoded_bytes : Z }.
(** lsm/batch.rs:41-48 Default for WriteBatchSize *)
Definition WriteBatchSize_default : WriteBatchSize :=
  {| size_operations := 0; encoded_bytes := BATCH_HEADER_BYTES |}.

(** lsm/batch.rs:82-87 WriteBatchSize::with_replacement::length *)
Definition op_length (key : list byte) (value : option (list byte)) : result Error Z :=
  ok_or (match checked_add 64 OP_HEADER_BYTES (len key) with
         | Some n => checked_add 64 n (match value with Some v => len v | None => 0 end)
         | None => None
         end) (InvalidBatch "encoded operation length overflow").

(** lsm/batch.rs:55-107 WriteBatchSize::with_replacement *)
Definition with_replacement (self : WriteBatchSize) (key : list byte)
    (previous : option (option (list byte))) (value : option (list byte))
    : result Error WriteBatchSize :=
  do? validate_key key in
  do? (match value with Some value => validate_value value | None => Ok tt end) in
  let? operations :=
    match previous with
    | None => ok_or (checked_add 64 (size_operations self) 1) (InvalidBatch "operation count overflow")
    | Some _ =>
      if size_operations self =? 0 then invalid "replacement has no charged operation"
      else Ok (size_operations self)
    end in
  if MAX_OPERATIONS <? operations
  then Err (WriteBatchLimit Operations MAX_OPERATIONS operations)
  else
    let? old := match previous with Some previous => op_length key previous | None => Ok 0 end in
    let? new := op_length key value in
    let? encoded_bytes :=
      ok_or (match checked_sub (encoded_bytes self) old with
             | Some n => if BATCH_HEADER_BYTES <=? n then checked_add 64 n new else None
             | None => None
             end) (InvalidBatch "encoded batch accounting overflow") in
    if WAL_MAX_PAYLOAD_BYTES <? encoded_bytes
    then Err (WriteBatchLimit EncodedBytes WAL_MAX_PAYLOAD_BYTES encoded_bytes)
    else Ok {| size_operations := operations; encoded_bytes := encoded_bytes |}.

(** lsm/batch.rs:154-158 WriteBatch *)
Record WriteBatch := MkWriteBatch { operations : list Mutation; encoded_len : Z }.

(** lsm/batch.rs:320-342 validate_operations *)
Definition validate_operations (operations : list Mutation) : result Error Z :=
  if bool_decide (operations = []) then invalid "operation count must be greater than zero"
  else if MAX_OPERATIONS <? len operations
  then Err (WriteBatchLimit Operations MAX_OPERATIONS (len operations))
  else
    let? size := try_fold (λ size operation,
      with_replacement size (mkey operation) None (mvalue operation))
      WriteBatchSize_default operations in
    Ok (encoded_bytes size).

(** lsm/batch.rs:161-167 WriteBatch::new *)
Definition WriteBatch_new (operations : list Mutation) : result Error WriteBatch :=
  let? encoded_len := validate_operations operations in
  Ok {| operations := operations; encoded_len := encoded_len |}.

(** [u32::try_from(len)]. *)
Definition u32_try_from (n : Z) (why : string) : result Error Z :=
  if n <? 2 ^ 32 then Ok n else invalid why.

(** lsm/batch.rs:205-223 WriteBatch::encode, one operation *)
Definition encode_op (operation : Mutation) : result Error (list byte) :=
  let? (value, tagged_value_len) :=
    match operation with
    | Put _ value =>
      let? n := u32_try_from (len value) "value length exceeds u32" in Ok (value, n)
    | Delete _ => Ok ([], DELETE_MASK)
    end in
  let? key_len := u32_try_from (len (mkey operation)) "key length exceeds u32" in
  Ok (be_bytes 4 key_len ++ be_bytes 4 tagged_value_len ++ mkey operation ++ value).

(** lsm/batch.rs:196-225 WriteBatch::encode *)
Definition encode (self : WriteBatch) : result Error (list byte) :=
  let? count := u32_try_from (len (operations self)) "operation count exceeds u32" in
  try_fold (λ output operation, let? op := encode_op operation in Ok (output ++ op))
    (BATCH_MAGIC ++ be_bytes 2 BATCH_FORMAT_VERSION ++ be_bytes 2 0 ++ be_bytes 4 count)
    (operations self).

(** lsm/batch.rs:257-293 WriteBatch::decode, one pass of the loop: the operation at [cursor]
    and where it ends. *)
Definition decode_op (bytes : list byte) (cursor : Z) : result Error (Mutation * Z) :=
  let? header_end := ok_or (checked_add 64 cursor OP_HEADER_BYTES)
    (InvalidBatch "operation header length overflow") in
  let? header := ok_or (slice_get bytes cursor header_end)
    (InvalidBatch "incomplete operation header") in
  let tagged_value_len := from_be (slice header 4 8) in
  let delete := negb (Z.land tagged_value_len DELETE_MASK =? 0) in
  let value_len := Z.land tagged_value_len VALUE_LEN_MASK in
  if (delete && negb (value_len =? 0))%bool
  then invalid "delete operation carries a value length"
  else
    let key_len := from_be (slice header 0 4) in
    if ((key_len =? 0) || (MAX_KEY_BYTES <? key_len) || (MAX_VALUE_BYTES <? value_len))%bool
    then invalid "operation key/value length exceeds its contract"
    else
      let? end_ := ok_or (match checked_add 64 header_end key_len with
                          | Some value => checked_add 64 value value_len
                          | None => None
                          end) (InvalidBatch "operation length overflow") in
      let? body := ok_or (slice_get bytes header_end end_)
        (InvalidBatch "incomplete operation body") in
      let key := take (Z.to_nat key_len) body in
      let value := drop (Z.to_nat key_len) body in
      if delete
      then if bool_decide (value = []) then Ok (Delete key, end_)
           else invalid "delete operation carries a value"
      else Ok (Put key value, end_).

(** lsm/batch.rs:256-294 WriteBatch::decode, the loop *)
Fixpoint decode_ops (bytes : list byte) (count : nat) (cursor : Z) : result Error (list Mutation * Z) :=
  match count with
  | O => Ok ([], cursor)
  | S count =>
    let? (operation, end_) := decode_op bytes cursor in
    let? (operations, cursor) := decode_ops bytes count end_ in
    Ok (operation :: operations, cursor)
  end.

(** lsm/batch.rs:227-302 WriteBatch::decode *)
Definition decode (bytes : list byte) : result Error WriteBatch :=
  if len bytes <? BATCH_HEADER_BYTES then invalid "incomplete batch header"
  else if WAL_MAX_PAYLOAD_BYTES <? len bytes
  then invalid ("encoded batch exceeds " +:+ pretty WAL_MAX_PAYLOAD_BYTES +:+ " bytes")
  else
    let version := from_be (slice bytes 8 10) in
    if negb (version =? BATCH_FORMAT_VERSION)
    then Err (UnsupportedVersion "write batch" version)
    else if negb (bool_decide (slice bytes 0 8 = BATCH_MAGIC))
    then invalid "batch magic does not match its format version"
    else if negb (bool_decide (slice bytes 10 12 = [x00; x00]))
    then invalid "unknown batch flags"
    else
      let count := from_be (slice bytes 12 16) in
      if ((count =? 0) || (MAX_OPERATIONS <? count))%bool
      then invalid ("invalid operation count " +:+ pretty count)
      else
        let? (operations, cursor) := decode_ops bytes (Z.to_nat count) BATCH_HEADER_BYTES in
        if negb (cursor =? len bytes)
        then invalid (pretty (len bytes - cursor) +:+ " trailing byte(s) after the declared batch")
        else WriteBatch_new operations.

(** * Exact accounting *)

Definition value_bytes (value : option (list byte)) : Z :=
  match value with Some v => len v | None => 0 end.
Definition op_bytes (key : list byte) (value : option (list byte)) : Z :=
  OP_HEADER_BYTES + len key + value_bytes value.
Definition mutation_bytes (m : Mutation) : Z := op_bytes (mkey m) (mvalue m).
Fixpoint batch_bytes (ops : list Mutation) : Z :=
  match ops with [] => 0 | m :: ops => mutation_bytes m + batch_bytes ops end.

Definition valid_entry (key : list byte) (value : option (list byte)) : Prop :=
  1 ≤ len key ≤ MAX_KEY_BYTES ∧ value_bytes value ≤ MAX_VALUE_BYTES.
Definition valid_mutation (m : Mutation) : Prop := valid_entry (mkey m) (mvalue m).

Ltac unfold_limits :=
  unfold MAX_KEY_BYTES, MAX_VALUE_BYTES, MAX_OPERATIONS, WAL_MAX_PAYLOAD_BYTES,
    BATCH_HEADER_BYTES, OP_HEADER_BYTES in *.

Lemma value_bytes_nonneg v : 0 ≤ value_bytes v.
Proof. destruct v; simpl; auto with rust lia. Qed.

Lemma mutation_bytes_nonneg m : 0 ≤ mutation_bytes m.
Proof.
  unfold mutation_bytes, op_bytes. pose proof (value_bytes_nonneg (mvalue m)).
  pose proof (len_nonneg (mkey m)). unfold_limits. lia.
Qed.

Lemma batch_bytes_nonneg ops : 0 ≤ batch_bytes ops.
Proof. induction ops as [|m ops IH]; simpl; [lia|]. pose proof (mutation_bytes_nonneg m). lia. Qed.

Lemma len_zero {A} (l : list A) : len l = 0 ↔ l = [].
Proof. destruct l; unfold len; simpl; naive_solver lia. Qed.

Lemma validate_key_ok key : validate_key key = Ok tt ↔ 1 ≤ len key ≤ MAX_KEY_BYTES.
Proof.
  unfold validate_key. pose proof (len_nonneg key). pose proof (len_zero key) as Hz.
  case_bool_decide; simpl.
  - assert (len key = 0) as -> by (by apply Hz). split; [done|lia].
  - assert (len key ≠ 0) by (by rewrite Hz).
    destruct (Z.ltb_spec MAX_KEY_BYTES (len key)); split; try done; lia.
Qed.

Lemma validate_value_ok value : validate_value value = Ok tt ↔ len value ≤ MAX_VALUE_BYTES.
Proof.
  unfold validate_value. destruct (Z.ltb_spec MAX_VALUE_BYTES (len value)); split; try done; lia.
Qed.

Lemma validate_entry_cases {T} key value (k : result Error T) :
  (do? validate_key key in do? (match value with Some v => validate_value v | None => Ok tt end) in k)
  = k ∧ valid_entry key value
  ∨ (∃ e, (do? validate_key key in
           do? (match value with Some v => validate_value v | None => Ok tt end) in k) = Err e)
    ∧ ¬ valid_entry key value.
Proof.
  unfold valid_entry. pose proof (validate_key_ok key) as Hk.
  destruct (validate_key key) as [[]|e]; [|right; split; [by eexists|naive_solver]].
  destruct value as [v|]; simpl.
  - pose proof (validate_value_ok v) as Hv.
    destruct (validate_value v) as [[]|e]; [left|right; split; [by eexists|]]; naive_solver.
  - left. split; [done|]. unfold_limits. naive_solver lia.
Qed.

Lemma op_length_ok key value :
  valid_entry key value → op_length key value = Ok (op_bytes key value).
Proof.
  intros [Hk Hv]. unfold op_length, op_bytes, checked_add, value_bytes in *. unfold_limits.
  rewrite (proj2 (Z.ltb_lt _ _)) by lia. rewrite (proj2 (Z.ltb_lt _ _)) by (destruct value; lia).
  by destruct value.
Qed.

(** What a staged replacement must find charged: the entry it replaces. *)
Definition charged (self : WriteBatchSize) (key : list byte) (previous : option (option (list byte))) : Prop :=
  0 ≤ size_operations self ≤ MAX_OPERATIONS
  ∧ BATCH_HEADER_BYTES ≤ encoded_bytes self ≤ WAL_MAX_PAYLOAD_BYTES
  ∧ match previous with
    | None => True
    | Some p => 1 ≤ size_operations self ∧ valid_entry key p
        ∧ BATCH_HEADER_BYTES + op_bytes key p ≤ encoded_bytes self
    end.

Definition next_operations (self : WriteBatchSize) (previous : option (option (list byte))) : Z :=
  size_operations self + match previous with None => 1 | Some _ => 0 end.
Definition next_bytes (self : WriteBatchSize) (key : list byte)
    (previous : option (option (list byte))) (value : option (list byte)) : Z :=
  encoded_bytes self - match previous with None => 0 | Some p => op_bytes key p end
  + op_bytes key value.

Lemma with_replacement_ok self key previous value s :
  charged self key previous →
  with_replacement self key previous value = Ok s ↔
    valid_entry key value ∧ next_operations self previous ≤ MAX_OPERATIONS
    ∧ next_bytes self key previous value ≤ WAL_MAX_PAYLOAD_BYTES
    ∧ s = {| size_operations := next_operations self previous;
             encoded_bytes := next_bytes self key previous value |}.
Proof.
  intros (Hops & Hbytes & Hprev). unfold with_replacement.
  match goal with |- context [do? validate_key key in do? _ in ?k] =>
    destruct (validate_entry_cases key value k) as [[-> Hv]|[(e & ->) Hv]] end; [|naive_solver].
  assert (0 ≤ value_bytes value) as Hvb by apply value_bytes_nonneg.
  assert (∃ n, match previous with
    | None => ok_or (checked_add 64 (size_operations self) 1) (InvalidBatch "operation count overflow")
    | Some _ => if size_operations self =? 0 then invalid "replacement has no charged operation"
                else Ok (size_operations self) end = Ok n ∧ n = next_operations self previous) as (n & -> & ->).
  { unfold next_operations, checked_add. unfold_limits. destruct previous as [p|].
    - rewrite (proj2 (Z.eqb_neq _ _)) by lia. eexists; split; [done|lia].
    - rewrite (proj2 (Z.ltb_lt _ _)) by lia. by eexists. }
  destruct (Z.ltb_spec MAX_OPERATIONS (next_operations self previous)); [split; [done|naive_solver lia]|].
  assert (∃ o, match previous with Some p => op_length key p | None => Ok 0 end = Ok o
    ∧ o = match previous with None => 0 | Some p => op_bytes key p end) as (o & -> & Ho).
  { destruct previous as [p|]; [|by eexists]. rewrite op_length_ok by naive_solver. by eexists. }
  rewrite op_length_ok by done. destruct Hv as [Hk Hv]. unfold checked_sub, checked_add.
  assert (op_bytes key value ≤ 8 + MAX_KEY_BYTES + MAX_VALUE_BYTES) by (unfold op_bytes; unfold_limits; lia).
  assert (0 ≤ o ∧ o ≤ encoded_bytes self - BATCH_HEADER_BYTES) as [? ?].
  { subst o. destruct previous as [p|]; [|lia]. pose proof (value_bytes_nonneg p).
    unfold op_bytes in *. unfold_limits. lia. }
  rewrite (proj2 (Z.leb_le _ _)) by (unfold_limits; lia).
  rewrite (proj2 (Z.leb_le _ _)) by (unfold_limits; lia).
  rewrite (proj2 (Z.ltb_lt _ _)) by (unfold_limits; lia). cbn [ok_or].
  replace (encoded_bytes self - o + op_bytes key value) with (next_bytes self key previous value)
    by (unfold next_bytes; lia).
  destruct (Z.ltb_spec WAL_MAX_PAYLOAD_BYTES (next_bytes self key previous value)); [naive_solver lia|].
  split; [intros [=<-]; done|]. by intros (_ & _ & _ & ->).
Qed.

Lemma charge_all ops size s :
  0 ≤ size_operations size ≤ MAX_OPERATIONS →
  BATCH_HEADER_BYTES ≤ encoded_bytes size ≤ WAL_MAX_PAYLOAD_BYTES →
  try_fold (λ size operation, with_replacement size (mkey operation) None (mvalue operation)) size ops = Ok s ↔
    Forall valid_mutation ops
    ∧ size_operations size + len ops ≤ MAX_OPERATIONS
    ∧ encoded_bytes size + batch_bytes ops ≤ WAL_MAX_PAYLOAD_BYTES
    ∧ s = {| size_operations := size_operations size + len ops;
             encoded_bytes := encoded_bytes size + batch_bytes ops |}.
Proof.
  revert size; induction ops as [|m ops IH]; intros size Hops Hbytes.
  { cbn [try_fold batch_bytes]. rewrite len_nil, !Z.add_0_r. destruct size; cbn in *.
    split; [intros [=<-]; split_and!; auto; lia|]. by intros (_ & _ & _ & ->). }
  cbn [try_fold batch_bytes]. rewrite len_cons, Forall_cons.
  pose proof (mutation_bytes_nonneg m). pose proof (batch_bytes_nonneg ops). pose proof (len_nonneg ops).
  destruct (with_replacement size (mkey m) None (mvalue m)) as [s1|e] eqn:E.
  - apply with_replacement_ok in E as (Hm & Hn & Hb & ->); [|done].
    unfold next_operations, next_bytes in *. fold (mutation_bytes m) in *.
    rewrite IH; cbn [size_operations encoded_bytes]; [|lia|lia].
    rewrite !Z.sub_0_r, !Z.add_assoc in *. unfold valid_mutation at 2.
    split; [intros (? & ? & ? & ->)|intros ((? & ?) & ? & ? & ->)]; split_and!; auto; lia.
  - split; [done|]. intros ((Hm & _) & Hn & Hb & _). exfalso.
    assert (with_replacement size (mkey m) None (mvalue m)
      = Ok {| size_operations := next_operations size None;
              encoded_bytes := next_bytes size (mkey m) None (mvalue m) |}) as E'; [|congruence].
    apply with_replacement_ok; [done|]. unfold next_operations, next_bytes. fold (mutation_bytes m).
    split_and!; [done|lia|lia|done].
Qed.

Lemma WriteBatch_new_ok ops b :
  WriteBatch_new ops = Ok b ↔
    ops ≠ [] ∧ len ops ≤ MAX_OPERATIONS ∧ Forall valid_mutation ops
    ∧ BATCH_HEADER_BYTES + batch_bytes ops ≤ WAL_MAX_PAYLOAD_BYTES
    ∧ b = {| operations := ops; encoded_len := BATCH_HEADER_BYTES + batch_bytes ops |}.
Proof.
  unfold WriteBatch_new, validate_operations. case_bool_decide; [naive_solver|].
  destruct (Z.ltb_spec MAX_OPERATIONS (len ops)); [naive_solver lia|].
  destruct (try_fold _ WriteBatchSize_default ops) as [s|e] eqn:E.
  - apply charge_all in E as (Hv & _ & Hb & ->); [|cbn; unfold_limits; lia|cbn; unfold_limits; lia].
    cbn [encoded_bytes WriteBatchSize_default] in *. naive_solver.
  - split; [done|]. intros (_ & _ & Hv & Hb & _). exfalso.
    assert (∃ s, try_fold (λ size operation, with_replacement size (mkey operation) None (mvalue operation))
      WriteBatchSize_default ops = Ok s) as [s Hs]; [|congruence].
    eexists. apply charge_all; [cbn; unfold_limits; lia|cbn; unfold_limits; lia|].
    cbn [size_operations encoded_bytes WriteBatchSize_default]. split_and!; auto.
Qed.

(** * The physical encoding *)

(** The tag word of an operation: the value length, or the delete mark. *)
Definition tag_word (m : Mutation) : Z :=
  match m with Put _ value => len value | Delete _ => DELETE_MASK end.
Definition value_of (m : Mutation) : list byte :=
  match m with Put _ value => value | Delete _ => [] end.
Definition op_encoding (m : Mutation) : list byte :=
  be_bytes 4 (len (mkey m)) ++ be_bytes 4 (tag_word m) ++ mkey m ++ value_of m.
Definition batch_header (count : Z) : list byte :=
  BATCH_MAGIC ++ be_bytes 2 BATCH_FORMAT_VERSION ++ be_bytes 2 0 ++ be_bytes 4 count.
Definition batch_encoding (ops : list Mutation) : list byte :=
  batch_header (len ops) ++ concat (op_encoding <$> ops).

Lemma len_value_of m : len (value_of m) = value_bytes (mvalue m).
Proof. by destruct m. Qed.

Lemma len_op_encoding m : len (op_encoding m) = mutation_bytes m.
Proof.
  unfold op_encoding, mutation_bytes, op_bytes, OP_HEADER_BYTES. autorewrite with rust.
  rewrite len_value_of. lia.
Qed.

Lemma len_ops_encoding ops : len (concat (op_encoding <$> ops)) = batch_bytes ops.
Proof.
  induction ops as [|m ops IH]; [done|]. rewrite fmap_cons. cbn [concat batch_bytes].
  by rewrite len_app, IH, len_op_encoding.
Qed.

Lemma len_batch_header n : len (batch_header n) = BATCH_HEADER_BYTES.
Proof. unfold batch_header. autorewrite with rust. done. Qed.

Lemma len_batch_encoding ops : len (batch_encoding ops) = BATCH_HEADER_BYTES + batch_bytes ops.
Proof. unfold batch_encoding. by rewrite len_app, len_batch_header, len_ops_encoding. Qed.

Lemma encode_op_ok m : valid_mutation m → encode_op m = Ok (op_encoding m).
Proof.
  intros [Hk Hv]. unfold encode_op, op_encoding, u32_try_from. unfold_limits.
  destruct m as [key value|key]; cbn [mkey mvalue value_bytes value_of tag_word] in *.
  - rewrite (proj2 (Z.ltb_lt (len value) _)) by lia. by rewrite (proj2 (Z.ltb_lt _ _)) by lia.
  - by rewrite (proj2 (Z.ltb_lt _ _)) by lia.
Qed.

Lemma encode_ok b :
  Forall valid_mutation (operations b) → len (operations b) ≤ MAX_OPERATIONS →
  encode b = Ok (batch_encoding (operations b)).
Proof.
  intros Hv Hn. unfold encode, u32_try_from. rewrite (proj2 (Z.ltb_lt _ _)) by (unfold_limits; lia).
  unfold batch_encoding. fold (batch_header (len (operations b))).
  generalize (batch_header (len (operations b))). induction Hv as [|m ops Hm _ IH]; intros acc.
  - cbn. by rewrite app_nil_r.
  - cbn [try_fold]. rewrite encode_op_ok by done. rewrite IH
      by (rewrite len_cons in Hn; lia). rewrite fmap_cons. cbn [concat]. by rewrite app_assoc.
Qed.

(** ** The tag word splits into the delete mark and the length *)

Lemma value_len_mask t : 0 ≤ t → Z.land t VALUE_LEN_MASK = t mod 2 ^ 31.
Proof. intros. change VALUE_LEN_MASK with (Z.ones 31). by rewrite Z.land_ones. Qed.

Lemma delete_mask t : 0 ≤ t < 2 ^ 32 → (Z.land t DELETE_MASK =? 0) = (t <? 2 ^ 31).
Proof.
  intros Ht. change DELETE_MASK with (2 ^ 31).
  assert (Z.land t (2 ^ 31) = 2 ^ 31 * (t / 2 ^ 31)) as ->.
  { apply Z.bits_inj'. intros n Hn. rewrite Z.land_spec, (Z.mul_comm (2 ^ 31)), <-Z.shiftl_mul_pow2,
      <-Z.shiftr_div_pow2 by lia. rewrite Z.pow2_bits_eqb by lia.
    destruct (Z.eqb_spec 31 n) as [<-|Hne].
    - rewrite Z.shiftl_spec, Z.shiftr_spec by lia. by rewrite andb_true_r.
    - rewrite andb_false_r. symmetry. destruct (Z_lt_le_dec n 31).
      + by rewrite Z.shiftl_spec_low.
      + rewrite Z.shiftl_spec, Z.shiftr_spec by lia. apply Z.bits_above_log2; [lia|].
        destruct (decide (t = 0)) as [->|]; [simpl; lia|].
        assert (Z.log2 t < 32) by (apply Z.log2_lt_pow2; lia). lia. }
  destruct (Z.ltb_spec t (2 ^ 31)).
  - rewrite Z.div_small by lia. done.
  - apply Z.eqb_neq. assert (1 ≤ t / 2 ^ 31) by (apply Z.div_le_lower_bound; lia). lia.
Qed.

Lemma tag_word_u32 m : valid_mutation m → 0 ≤ tag_word m < 2 ^ 32.
Proof.
  intros [_ Hv]. destruct m as [k v|k]; cbn [mvalue value_bytes tag_word] in *.
  - pose proof (len_nonneg v). unfold_limits. lia.
  - change DELETE_MASK with (2 ^ 31). lia.
Qed.

Lemma slice_app_l {A} (p s : list A) i j :
  (j ≤ length p)%nat → slice (p ++ s) i j = slice p i j.
Proof.
  intros Hj. unfold slice. destruct (decide (i ≤ length p)%nat).
  - rewrite drop_app_le by done. rewrite take_app_le; [done|]. rewrite length_drop. lia.
  - rewrite !(proj2 (Nat.sub_0_le _ _)) by lia. done.
Qed.

Lemma decode_op_encoding p m s :
  valid_mutation m → len (p ++ op_encoding m ++ s) < 2 ^ 64 →
  decode_op (p ++ op_encoding m ++ s) (len p) = Ok (m, len p + mutation_bytes m).
Proof.
  intros Hm Hlen. pose proof (tag_word_u32 m Hm) as Htag. pose proof Hm as [Hk Hv].
  pose proof (value_bytes_nonneg (mvalue m)) as Hv0.
  rewrite !len_app, len_op_encoding in Hlen. unfold mutation_bytes, op_bytes in Hlen.
  pose proof (len_nonneg p) as Hp. pose proof (len_nonneg s) as Hs. unfold OP_HEADER_BYTES in Hlen.
  unfold decode_op, checked_add, OP_HEADER_BYTES. rewrite (proj2 (Z.ltb_lt _ _)) by lia. cbn [ok_or].
  set (h := be_bytes 4 (len (mkey m)) ++ be_bytes 4 (tag_word m)).
  assert (op_encoding m = h ++ mkey m ++ value_of m) as Henc by (unfold op_encoding, h; by rewrite app_assoc).
  assert (len h = 8) as Hh by (unfold h; autorewrite with rust; done).
  rewrite Henc, <-app_assoc. rewrite (slice_get_app p h) by (rewrite ?Hh; done). cbn [ok_or].
  assert (from_be (slice h 0 4) = len (mkey m)) as ->.
  { unfold h. rewrite slice_app_l by (by rewrite length_be_bytes).
    unfold slice. rewrite drop_0, take_ge by (by rewrite length_be_bytes).
    apply from_be_bytes_small. unfold_limits. lia. }
  assert (from_be (slice h 4 8) = tag_word m) as ->.
  { unfold h, slice. rewrite drop_app_length' by (by rewrite length_be_bytes).
    rewrite take_ge by (by rewrite length_be_bytes). apply from_be_bytes_small. lia. }
  rewrite value_len_mask, delete_mask by lia.
  assert ((tag_word m <? 2 ^ 31) = match m with Put _ _ => true | Delete _ => false end) as ->.
  { destruct m; cbn [mvalue value_bytes tag_word] in *; unfold_limits; [apply Z.ltb_lt; lia|done]. }
  assert (tag_word m mod 2 ^ 31 = value_bytes (mvalue m)) as ->.
  { destruct m; cbn [mvalue value_bytes tag_word] in *; unfold_limits; [apply Z.mod_small; lia|done]. }
  assert (take (Z.to_nat (len (mkey m))) (mkey m ++ value_of m) = mkey m) as Htake.
  { unfold len. rewrite Nat2Z.id. apply take_app_length. }
  assert (drop (Z.to_nat (len (mkey m))) (mkey m ++ value_of m) = value_of m) as Hdrop.
  { unfold len. rewrite Nat2Z.id. apply drop_app_length. }
  assert (len p + 8 + len (mkey m) + value_bytes (mvalue m) = len p + mutation_bytes m) as Hend
    by (unfold mutation_bytes, op_bytes, OP_HEADER_BYTES; lia).
  replace (negb match m with Put _ _ => true | Delete _ => false end && negb (value_bytes (mvalue m) =? 0))%bool
    with false by (by destruct m).
  rewrite (proj2 (Z.eqb_neq (len (mkey m)) 0)) by lia.
  rewrite (proj2 (Z.ltb_ge MAX_KEY_BYTES _)) by lia.
  rewrite (proj2 (Z.ltb_ge MAX_VALUE_BYTES _)) by lia. cbn [orb].
  rewrite (proj2 (Z.ltb_lt _ _)) by lia. rewrite (proj2 (Z.ltb_lt _ _)) by lia. cbn [ok_or].
  replace (p ++ h ++ (mkey m ++ value_of m) ++ s) with ((p ++ h) ++ (mkey m ++ value_of m) ++ s)
    by (by rewrite <-app_assoc).
  rewrite (slice_get_app (p ++ h) (mkey m ++ value_of m))
    by (rewrite ?len_app, ?len_value_of, Hh; lia). cbn [ok_or].
  rewrite Htake, Hdrop, Hend. by destruct m.
Qed.

Lemma decode_ops_encoding ops p s :
  Forall valid_mutation ops → len (p ++ concat (op_encoding <$> ops) ++ s) < 2 ^ 64 →
  decode_ops (p ++ concat (op_encoding <$> ops) ++ s) (length ops) (len p)
  = Ok (ops, len p + batch_bytes ops).
Proof.
  intros Hv. revert p; induction Hv as [|m ops Hm _ IH]; intros p Hlen.
  { cbn [length decode_ops batch_bytes]. by rewrite Z.add_0_r. }
  rewrite fmap_cons in *. cbn [concat length decode_ops batch_bytes] in *.
  rewrite <-(app_assoc (op_encoding m)) in *. rewrite decode_op_encoding by done.
  rewrite (app_assoc p) in *.
  replace (len p + mutation_bytes m) with (len (p ++ op_encoding m))
    by (by rewrite len_app, len_op_encoding).
  rewrite IH by done. do 2 f_equal. rewrite len_app, len_op_encoding. lia.
Qed.

Lemma slice_take {A} (p s : list A) j :
  length p = j → slice (p ++ s) 0 j = p.
Proof. intros <-. unfold slice. rewrite drop_0, Nat.sub_0_r. apply take_app_length. Qed.

Lemma slice_mid {A} (p m s : list A) i j :
  length p = i → (length p + length m)%nat = j → slice (p ++ m ++ s) i j = m.
Proof.
  intros <- <-. unfold slice. rewrite drop_app_length, Nat.add_comm, Nat.add_sub. apply take_app_length.
Qed.

(** The fields of a header are where the decoder reads them. *)
Lemma header_fields n rest :
  0 ≤ n < 2 ^ 32 →
  from_be (slice (batch_header n ++ rest) 8 10) = BATCH_FORMAT_VERSION
  ∧ slice (batch_header n ++ rest) 0 8 = BATCH_MAGIC
  ∧ slice (batch_header n ++ rest) 10 12 = [x00; x00]
  ∧ from_be (slice (batch_header n ++ rest) 12 16) = n.
Proof.
  intros Hn. unfold batch_header. rewrite <-!app_assoc. split_and!.
  - by rewrite slice_mid by (by rewrite ?length_be_bytes).
  - by apply slice_take.
  - rewrite (app_assoc BATCH_MAGIC). by rewrite slice_mid by (by rewrite ?length_app, ?length_be_bytes).
  - rewrite (app_assoc (be_bytes 2 _)), (app_assoc BATCH_MAGIC), slice_mid
      by (by rewrite ?length_app, ?length_be_bytes).
    by apply from_be_bytes_small.
Qed.

Lemma decode_batch_encoding ops :
  ops ≠ [] → len ops ≤ MAX_OPERATIONS → Forall valid_mutation ops →
  BATCH_HEADER_BYTES + batch_bytes ops ≤ WAL_MAX_PAYLOAD_BYTES →
  decode (batch_encoding ops) = WriteBatch_new ops.
Proof.
  intros Hne Hn Hv Hb. pose proof (len_batch_encoding ops) as Hlen.
  pose proof (batch_bytes_nonneg ops) as Hb0. unfold decode. rewrite Hlen.
  rewrite (proj2 (Z.ltb_ge _ _)) by lia. rewrite (proj2 (Z.ltb_ge _ _)) by lia.
  assert (1 ≤ len ops) as H1.
  { pose proof (len_nonneg ops). pose proof (len_zero ops). destruct (decide (len ops = 0)); [naive_solver|lia]. }
  destruct (header_fields (len ops) (concat (op_encoding <$> ops)) ltac:(unfold_limits; lia))
    as (Hver & Hmagic & Hflags & Hcount).
  unfold batch_encoding. rewrite Hver, Hmagic, Hflags, Hcount.
  rewrite Z.eqb_refl, !bool_decide_true by done. cbn [negb].
  rewrite (proj2 (Z.eqb_neq _ _)) by lia. rewrite (proj2 (Z.ltb_ge _ _)) by lia. cbn [orb].
  pose proof (decode_ops_encoding ops (batch_header (len ops)) [] Hv) as Hops.
  rewrite app_nil_r in Hops.
  replace (Z.to_nat (len ops)) with (length ops) by (unfold len; lia).
  rewrite len_batch_header in Hops. rewrite Hops.
  - by rewrite Z.eqb_refl.
  - fold (batch_encoding ops). rewrite Hlen. unfold_limits. lia.
Qed.

(** ** Decoding accepts encodings only *)

Lemma slice_get_split {A} (l : list A) i j m :
  0 ≤ i → slice_get l i j = Some m →
  ∃ p s, l = p ++ m ++ s ∧ len p = i ∧ len m = j - i.
Proof.
  unfold slice_get. intros Hi H. destruct (Z.leb_spec i j); [|done].
  destruct (Z.leb_spec j (len l)); [|done]. simpl in H. injection H as <-.
  exists (take (Z.to_nat i) l), (drop (Z.to_nat (j - i)) (drop (Z.to_nat i) l)).
  rewrite take_drop, take_drop. unfold len in *. split_and!; [done| |].
  - rewrite length_take. lia.
  - rewrite length_take, length_drop. lia.
Qed.

Lemma decode_op_inv bytes cursor m end_ :
  0 ≤ cursor → decode_op bytes cursor = Ok (m, end_) →
  valid_mutation m ∧ end_ = cursor + mutation_bytes m
  ∧ ∃ p s, bytes = p ++ op_encoding m ++ s ∧ len p = cursor.
Proof.
  intros Hc. unfold decode_op, checked_add.
  destruct (cursor + OP_HEADER_BYTES <? 2 ^ 64); cbn [ok_or]; [|done].
  destruct (slice_get bytes cursor _) as [h|] eqn:Eh; cbn [ok_or]; [|done].
  apply slice_get_split in Eh as (p & s & Hbytes & Hp & Hh); [|done].
  replace (cursor + OP_HEADER_BYTES - cursor) with 8 in Hh by (unfold OP_HEADER_BYTES; lia).
  assert (length h = 8%nat) as Hh' by (unfold len in Hh; lia).
  set (k := from_be (slice h 0 4)). set (t := from_be (slice h 4 8)).
  assert (h = be_bytes 4 k ++ be_bytes 4 t) as Hhead.
  { unfold k, t. rewrite !be_bytes_from by (unfold slice; rewrite length_take, length_drop; lia).
    unfold slice. rewrite drop_0. change (4 - 0)%nat with 4%nat. change (8 - 4)%nat with 4%nat.
    rewrite (take_ge (drop 4 h)) by (rewrite length_drop; lia). by rewrite take_drop. }
  assert (0 ≤ t < 2 ^ 32) as Ht.
  { unfold t. pose proof (from_be_bound (slice h 4 8)) as Hb.
    assert (len (slice h 4 8) = 4) as Hl by (unfold len, slice; rewrite length_take, length_drop; lia).
    rewrite Hl in Hb. simpl in Hb. lia. }
  rewrite value_len_mask, delete_mask by lia.
  destruct (negb (t <? 2 ^ 31) && negb (t mod 2 ^ 31 =? 0))%bool eqn:Edel; [done|].
  destruct ((k =? 0) || (MAX_KEY_BYTES <? k) || (MAX_VALUE_BYTES <? t mod 2 ^ 31))%bool eqn:Elim; [done|].
  bools.
  assert (0 ≤ k) as Hk0 by apply from_be_bound.
  pose proof (Z.mod_pos_bound t (2 ^ 31) ltac:(lia)) as Hmod.
  destruct (cursor + OP_HEADER_BYTES + k <? 2 ^ 64); [|done].
  destruct (cursor + OP_HEADER_BYTES + k + t mod 2 ^ 31 <? 2 ^ 64); cbn [ok_or]; [|done].
  destruct (slice_get bytes (cursor + OP_HEADER_BYTES) _) as [body|] eqn:Eb; cbn [ok_or]; [|done].
  apply slice_get_split in Eb as (p' & s' & Hbytes' & Hp' & Hbody); [|unfold OP_HEADER_BYTES; lia].
  assert (p' = p ++ h ∧ s = body ++ s') as [-> ->].
  { rewrite Hbytes, app_assoc in Hbytes'. apply app_inj_1 in Hbytes' as [-> ->]; [done|].
    rewrite length_app. unfold len, OP_HEADER_BYTES in *. lia. }
  assert (len (take (Z.to_nat k) body) = k) as Hkey
    by (unfold len in *; rewrite length_take; lia).
  assert (len (drop (Z.to_nat k) body) = t mod 2 ^ 31) as Hval
    by (unfold len in *; rewrite length_drop; lia).
  assert (body = take (Z.to_nat k) body ++ drop (Z.to_nat k) body) as Hsplit by (by rewrite take_drop).
  assert (∀ m', mkey m' = take (Z.to_nat k) body → value_of m' = drop (Z.to_nat k) body → tag_word m' = t →
    valid_mutation m' ∧ cursor + OP_HEADER_BYTES + k + t mod 2 ^ 31 = cursor + mutation_bytes m'
    ∧ ∃ p s, bytes = p ++ op_encoding m' ++ s ∧ len p = cursor) as Hfin.
  { intros m' Hmk Hmv Hmt. unfold valid_mutation, valid_entry, mutation_bytes, op_bytes.
    rewrite <-len_value_of, Hmk, Hmv, Hkey, Hval. split_and!; try lia.
    exists p, s'. split; [|done]. unfold op_encoding. rewrite Hmk, Hmv, Hmt, Hkey, <-Hsplit, Hbytes, Hhead.
    by rewrite <-!app_assoc. }
  destruct (Z.ltb_spec t (2 ^ 31)) as [Hput|Hdel]; cbn [negb].
  - intros [= <- <-]. apply Hfin; try done. cbn [tag_word]. rewrite Hval. apply Z.mod_small. lia.
  - case_bool_decide as Hnil; [|done]. intros [= <- <-]. apply Hfin; try done. cbn [tag_word].
    destruct Edel as [?|Emod]; [done|]. bools. change DELETE_MASK with (2 ^ 31).
    pose proof (Z.div_mod t (2 ^ 31) ltac:(lia)). lia.
Qed.

Lemma decode_ops_inv bytes n cursor ops end_ :
  0 ≤ cursor → decode_ops bytes n cursor = Ok (ops, end_) →
  length ops = n ∧ Forall valid_mutation ops ∧ end_ = cursor + batch_bytes ops
  ∧ (cursor ≤ len bytes → ∃ p s, bytes = p ++ concat (op_encoding <$> ops) ++ s ∧ len p = cursor).
Proof.
  revert cursor ops; induction n as [|n IH]; intros cursor ops Hc; cbn [decode_ops].
  { intros [= <- <-]. split_and!; [done|done|cbn; lia|]. intros Hle.
    exists (take (Z.to_nat cursor) bytes), (drop (Z.to_nat cursor) bytes). cbn. rewrite take_drop.
    split; [done|]. unfold len in *. rewrite length_take. lia. }
  destruct (decode_op bytes cursor) as [[m e1]|] eqn:E1; [|done].
  apply decode_op_inv in E1 as (Hm & -> & p & s & Hbytes & Hp); [|done].
  pose proof (mutation_bytes_nonneg m) as Hm0.
  destruct (decode_ops bytes n _) as [[ops' e2]|] eqn:E2; [|done]. intros [= <- <-].
  apply IH in E2 as (Hlen & Hv & -> & Htail); [|lia].
  cbn [length batch_bytes]. split_and!; [lia|by constructor|lia|]. intros _.
  destruct Htail as (p' & s' & Hbytes' & Hp').
  { rewrite Hbytes, !len_app, len_op_encoding. pose proof (len_nonneg s). lia. }
  assert (p' = p ++ op_encoding m ∧ s = concat (op_encoding <$> ops') ++ s') as [-> ->].
  { rewrite Hbytes, app_assoc in Hbytes'. apply app_inj_1 in Hbytes' as [-> ->]; [done|].
    pose proof (len_op_encoding m). rewrite length_app. unfold len in *. lia. }
  exists p, s'. split; [|done]. rewrite fmap_cons. cbn [concat]. by rewrite Hbytes, <-app_assoc.
Qed.

Lemma header_inv bytes :
  BATCH_HEADER_BYTES ≤ len bytes →
  from_be (slice bytes 8 10) = BATCH_FORMAT_VERSION → slice bytes 0 8 = BATCH_MAGIC →
  slice bytes 10 12 = [x00; x00] →
  take 16 bytes = batch_header (from_be (slice bytes 12 16)).
Proof.
  intros Hlen Hver Hmagic Hflags. unfold BATCH_HEADER_BYTES, len in Hlen.
  assert (∀ i j, (i ≤ j ≤ 16)%nat → length (slice bytes i j) = (j - i)%nat) as Hl.
  { intros i j Hij. unfold slice. rewrite length_take, length_drop. lia. }
  unfold batch_header. rewrite <-Hmagic, <-Hver.
  rewrite !be_bytes_from by (by rewrite Hl by lia).
  change (be_bytes 2 0) with [x00; x00]. rewrite <-Hflags.
  unfold slice. do 16 (destruct bytes as [|? bytes]; [simpl in Hlen; lia|]). reflexivity.
Qed.

Lemma decode_inv bytes b :
  decode bytes = Ok b →
  WriteBatch_new (operations b) = Ok b ∧ bytes = batch_encoding (operations b).
Proof.
  unfold decode. destruct (Z.ltb_spec (len bytes) BATCH_HEADER_BYTES) as [|Hlen]; [done|].
  destruct (WAL_MAX_PAYLOAD_BYTES <? len bytes); [done|].
  destruct (Z.eqb_spec (from_be (slice bytes 8 10)) BATCH_FORMAT_VERSION) as [Hver|]; [|done].
  case_bool_decide as Hmagic; [|done]. case_bool_decide as Hflags; [|done]. cbn [negb].
  destruct (_ || _)%bool; [done|].
  destruct (decode_ops bytes _ _) as [[ops e]|] eqn:Eops; [|done].
  destruct (Z.eqb_spec e (len bytes)) as [->|]; [|done]. cbn [negb]. intros Hnew.
  assert (operations b = ops) as Hb by (apply WriteBatch_new_ok in Hnew; naive_solver).
  rewrite Hb. split; [done|].
  apply decode_ops_inv in Eops as (Hn & Hv & Hend & Hsplit); [|done].
  destruct Hsplit as (p & s & Hbytes & Hp); [done|].
  assert (s = []) as ->.
  { apply len_zero. rewrite Hbytes, !len_app, len_ops_encoding in Hend. lia. }
  rewrite app_nil_r in Hbytes. unfold batch_encoding.
  pose proof (header_inv bytes Hlen Hver Hmagic Hflags) as Hhead.
  assert (0 ≤ from_be (slice bytes 12 16)) as H0 by apply from_be_bound.
  replace (from_be (slice bytes 12 16)) with (len ops) in Hhead by (unfold len; lia).
  rewrite <-Hhead. rewrite Hbytes at 1. f_equal. rewrite Hbytes.
  symmetry. apply take_app_length'. unfold len, BATCH_HEADER_BYTES in Hp. lia.
Qed.

(** * Theorems *)

(** [WriteBatch::new] admits exactly the non-empty lists of at most a million valid
    mutations that fit one WAL payload, and the length it records is the header plus, per
    operation, eight bytes and the key and value bytes. *)
Theorem write_batch_admission ops b :
  WriteBatch_new ops = Ok b ↔
    ops ≠ [] ∧ len ops ≤ MAX_OPERATIONS ∧ Forall valid_mutation ops
    ∧ BATCH_HEADER_BYTES + batch_bytes ops ≤ WAL_MAX_PAYLOAD_BYTES
    ∧ b = {| operations := ops; encoded_len := BATCH_HEADER_BYTES + batch_bytes ops |}.
Proof. exact (WriteBatch_new_ok ops b). Qed.

(** An admitted batch encodes, to exactly the number of bytes it was charged for, and
    the bytes decode to the batch. *)
Theorem write_batch_roundtrip ops b :
  WriteBatch_new ops = Ok b →
  ∃ bytes, encode b = Ok bytes ∧ len bytes = encoded_len b ∧ decode bytes = Ok b.
Proof.
  intros Hnew. pose proof Hnew as (Hne & Hn & Hv & Hb & Heq)%WriteBatch_new_ok.
  exists (batch_encoding ops). split_and!.
  - subst b. by apply (encode_ok {| operations := ops |}).
  - subst b. apply len_batch_encoding.
  - by rewrite decode_batch_encoding.
Qed.

Definition sample_ops : list Mutation :=
  [Put (str_bytes "alpha") (str_bytes "one"); Delete (str_bytes "beta"); Put (str_bytes "alpha") []].

Lemma write_batch_roundtrip_witness :
  ∃ bytes, encode {| operations := sample_ops; encoded_len := 57 |} = Ok bytes
    ∧ len bytes = 57 ∧ decode bytes = Ok {| operations := sample_ops; encoded_len := 57 |}.
Proof.
  exact (write_batch_roundtrip sample_ops {| operations := sample_ops; encoded_len := 57 |}
    ltac:(vm_compute; reflexivity)).
Defined.

(** Decoding is canonical: bytes that decode are the one encoding of the batch they
    decode to, and that batch is one [WriteBatch::new] admits. *)
Theorem write_batch_canonical bytes b :
  decode bytes = Ok b → encode b = Ok bytes ∧ WriteBatch_new (operations b) = Ok b.
Proof.
  intros [Hnew Hbytes]%decode_inv. split; [|done]. subst bytes.
  apply WriteBatch_new_ok in Hnew as (_ & Hn & Hv & _ & _). by apply encode_ok.
Qed.

Lemma write_batch_canonical_witness :
  encode {| operations := sample_ops; encoded_len := 57 |} = Ok (batch_encoding sample_ops)
  ∧ WriteBatch_new sample_ops = Ok {| operations := sample_ops; encoded_len := 57 |}.
Proof.
  exact (write_batch_canonical (batch_encoding sample_ops)
    {| operations := sample_ops; encoded_len := 57 |} ltac:(vm_compute; reflexivity)).
Defined.
