(* ===== verification/RecoveryBudget.v ===== *)
(** Admission of recovery work ([rrd-lsm]: recovery_budget.rs).

    A recovery runs against a budget of files, bytes, WAL frames and time; every charge is
    checked before the work it pays for.  The clock is an input: [elapsed n] is what the
    [n]-th reading of [started.elapsed()] returns, in milliseconds and saturated to [u64]. *)

From S2P Require Import Prelude Machine LsmError.
Open Scope Z_scope.

(** lsm/recovery_budget.rs:8-15 RecoveryLimits *)
Record RecoveryLimits := {
  metadata_bytes_limit : Z; files_limit : Z; read_bytes_limit : Z;
  wal_bytes_limit : Z; wal_frames_limit : Z; elapsed_ms_limit : Z
}.

(** lsm/recovery_budget.rs:17-28 Default for RecoveryLimits *)
Definition RecoveryLimits_default : RecoveryLimits := {|
  metadata_bytes_limit := 64 * 1024 * 1024; files_limit := 262144;
  read_bytes_limit := Z.shiftl 1 40; wal_bytes_limit := 256 * 1024 * 1024;
  wal_frames_limit := 1048576; elapsed_ms_limit := 120000
|}.

(** lsm/recovery_budget.rs:31-47 RecoveryLimits::validate *)
Definition limits_validate (self : RecoveryLimits) : result Error unit :=
  if existsb (Z.eqb 0)
       [metadata_bytes_limit self; files_limit self; read_bytes_limit self;
        wal_bytes_limit self; wal_frames_limit self; elapsed_ms_limit self]
  then Err (InvalidConfiguration "recovery limits must be positive") else Ok tt.

(** lsm/recovery_budget.rs:61-70 RecoveryResource::as_str *)
Definition resource_as_str (self : RecoveryResource) : string :=
  match self with
  | MetadataBytes => "metadata_bytes" | Files => "files" | ReadBytes => "read_bytes"
  | WalBytes => "wal_bytes" | WalFrames => "wal_frames" | ElapsedMs => "elapsed_ms"
  end.

(** lsm/recovery_budget.rs:73-80 RecoveryBudget; [readings] counts the readings of the clock
    that [started] began. *)
Record RecoveryBudget := {
  limits : RecoveryLimits; files : Z; read_bytes : Z; metadata_bytes : Z; frames : Z;
  readings : nat
}.

(** lsm/recovery_budget.rs:83-92 RecoveryBudget::new *)
Definition RecoveryBudget_new (l : RecoveryLimits) : RecoveryBudget :=
  {| limits := l; files := 0; read_bytes := 0; metadata_bytes := 0; frames := 0; readings := 0 |}.

(** lsm/recovery_budget.rs:94-103 RecoveryBudget::check *)
Definition budget_check (resource : RecoveryResource) (limit observed : Z) : result Error unit :=
  if limit <? observed then Err (RecoveryLimit resource limit observed) else Ok tt.

Section Clock.
Context (elapsed : nat → Z).

(** lsm/recovery_budget.rs:105-111 RecoveryBudget::tick *)
Definition tick (self : RecoveryBudget) : result Error RecoveryBudget :=
  do? budget_check ElapsedMs (elapsed_ms_limit (limits self)) (elapsed (readings self)) in
  Ok {| limits := limits self; files := files self; read_bytes := read_bytes self;
        metadata_bytes := metadata_bytes self; frames := frames self;
        readings := S (readings self) |}.

(** lsm/recovery_budget.rs:115-130 RecoveryBudget::file *)
Definition charge_file (self : RecoveryBudget) (bytes : Z) : result Error RecoveryBudget :=
  let? self := tick self in
  let? new_files := ok_or (checked_add 64 (files self) 1)
    (InvalidManifest "recovery file count overflow") in
  let? read := ok_or (checked_add 64 (read_bytes self) bytes)
    (InvalidManifest "recovery read charge overflow") in
  do? budget_check Files (files_limit (limits self)) new_files in
  do? budget_check ReadBytes (read_bytes_limit (limits self)) read in
  Ok {| limits := limits self; files := new_files; read_bytes := read;
        metadata_bytes := metadata_bytes self; frames := frames self;
        readings := readings self |}.

(** lsm/recovery_budget.rs:132-135 RecoveryBudget::wal *)
Definition charge_wal (self : RecoveryBudget) (bytes : Z) : result Error RecoveryBudget :=
  do? budget_check WalBytes (wal_bytes_limit (limits self)) bytes in
  charge_file self bytes.

(** lsm/recovery_budget.rs:137-146 RecoveryBudget::frame *)
Definition charge_frame (self : RecoveryBudget) : result Error RecoveryBudget :=
  let? self := tick self in
  let? new_frames := ok_or (checked_add 64 (frames self) 1)
    (InvalidManifest "recovery frame count overflow") in
  do? budget_check WalFrames (wal_frames_limit (limits self)) new_frames in
  Ok {| limits := limits self; files := files self; read_bytes := read_bytes self;
        metadata_bytes := metadata_bytes self; frames := new_frames;
        readings := readings self |}.

(** lsm/recovery_budget.rs:148-182 RecoveryBudget::metadata, for a file whose type, length
    and content the file system reports as [is_file], [declared] and [content]. *)
Definition charge_metadata (self : RecoveryBudget) (is_file : bool) (declared : Z) (content : list byte)
    : result Error (list byte * RecoveryBudget) :=
  let? self := tick self in
  if negb is_file then Err (InvalidManifest "recovery metadata is not a regular file")
  else
    let? next := ok_or (checked_add 64 (metadata_bytes self) declared)
      (InvalidManifest "recovery metadata charge overflow") in
    do? budget_check MetadataBytes (metadata_bytes_limit (limits self)) next in
    let? self := charge_file self declared in
    let bytes := take (Z.to_nat (saturating_add 64 declared 1)) content in
    if negb (len bytes =? declared)
    then Err (InvalidManifest "recovery metadata changed while reading")
    else
      let? self := tick
        {| limits := limits self; files := files self; read_bytes := read_bytes self;
           metadata_bytes := next; frames := frames self; readings := readings self |} in
      Ok (bytes, self).

(** * The budget is never overdrawn *)

Definition within (b : RecoveryBudget) : Prop :=
  files b ≤ files_limit (limits b) ∧ read_bytes b ≤ read_bytes_limit (limits b)
  ∧ metadata_bytes b ≤ metadata_bytes_limit (limits b) ∧ frames b ≤ wal_frames_limit (limits b)
  ∧ ∀ n, (n < readings b)%nat → elapsed n ≤ elapsed_ms_limit (limits b).

Lemma budget_check_ok r l o : budget_check r l o = Ok tt ↔ o ≤ l.
Proof. unfold budget_check. destruct (Z.ltb_spec l o); split; try done; lia. Qed.

Lemma budget_check_cases {T} r l o (k : result Error T) x :
  (do? budget_check r l o in k) = Ok x → o ≤ l ∧ k = Ok x.
Proof. unfold budget_check. destruct (Z.ltb_spec l o); [done|auto]. Qed.

Lemma tick_ok b b' :
  tick b = Ok b' ↔
    elapsed (readings b) ≤ elapsed_ms_limit (limits b)
    ∧ b' = {| limits := limits b; files := files b; read_bytes := read_bytes b;
              metadata_bytes := metadata_bytes b; frames := frames b; readings := S (readings b) |}.
Proof.
  unfold tick, budget_check. destruct (Z.ltb_spec (elapsed_ms_limit (limits b)) (elapsed (readings b)));
    split; [done|lia|by intros [= <-]|by intros [_ ->]].
Qed.

Lemma tick_within b b' : within b → tick b = Ok b' → within b'.
Proof.
  intros (?&?&?&?&Ht) [He ->]%tick_ok. unfold within; cbn. split_and!; auto.
  intros n Hn. destruct (decide (n = readings b)) as [->|]; [done|]. apply Ht. lia.
Qed.

Lemma charge_file_ok b bytes b' :
  charge_file b bytes = Ok b' →
  ∃ t, tick b = Ok t ∧ files b + 1 ≤ files_limit (limits b)
    ∧ read_bytes b + bytes ≤ read_bytes_limit (limits b)
    ∧ b' = {| limits := limits t; files := files t + 1; read_bytes := read_bytes t + bytes;
              metadata_bytes := metadata_bytes t; frames := frames t; readings := readings t |}.
Proof.
  unfold charge_file. destruct (tick b) as [t|] eqn:Et; [|done]. intros H. exists t. split; [done|].
  apply tick_ok in Et as [_ ->]. revert H.
  cbn [limits files read_bytes metadata_bytes frames readings].
  destruct (checked_add 64 (files b) 1) as [n|] eqn:E1; [|done].
  destruct (checked_add 64 (read_bytes b) bytes) as [m|] eqn:E2; [|done]. cbn [ok_or].
  apply checked_add_Some in E1 as [-> _]. apply checked_add_Some in E2 as [-> _].
  intros [? [? [= <-]]%budget_check_cases]%budget_check_cases. done.
Qed.

Lemma charge_file_within b bytes b' : within b → charge_file b bytes = Ok b' → within b'.
Proof.
  intros Hw (t & Et & Hf & Hr & ->)%charge_file_ok. pose proof (tick_within _ _ Hw Et) as (?&?&?&?&?).
  apply tick_ok in Et as [_ ->]. unfold within in *; cbn in *. split_and!; auto.
Qed.

Lemma charge_frame_ok b b' :
  charge_frame b = Ok b' →
  ∃ t, tick b = Ok t ∧ frames b + 1 ≤ wal_frames_limit (limits b)
    ∧ b' = {| limits := limits t; files := files t; read_bytes := read_bytes t;
              metadata_bytes := metadata_bytes t; frames := frames t + 1; readings := readings t |}.
Proof.
  unfold charge_frame. destruct (tick b) as [t|] eqn:Et; [|done]. intros H. exists t. split; [done|].
  apply tick_ok in Et as [_ ->]. revert H.
  cbn [limits files read_bytes metadata_bytes frames readings].
  destruct (checked_add 64 (frames b) 1) as [n|] eqn:E1; [|done]. cbn [ok_or].
  apply checked_add_Some in E1 as [-> _]. by intros [? [= <-]]%budget_check_cases.
Qed.

Lemma charge_frame_within b b' : within b → charge_frame b = Ok b' → within b'.
Proof.
  intros Hw (t & Et & Hf & ->)%charge_frame_ok. pose proof (tick_within _ _ Hw Et) as (?&?&?&?&?).
  apply tick_ok in Et as [_ ->]. unfold within in *; cbn in *. split_and!; auto.
Qed.

Lemma charge_metadata_ok b is_file declared content bytes b' :
  0 ≤ declared → within b →
  charge_metadata b is_file declared content = Ok (bytes, b') →
  is_file = true ∧ len bytes = declared ∧ within b'
  ∧ metadata_bytes b' = metadata_bytes b + declared ∧ (declared < u64_max → bytes = content).
Proof.
  intros Hd Hw. unfold charge_metadata. destruct (tick b) as [t|] eqn:Et; [|done].
  destruct is_file; [|done]. cbn [negb].
  pose proof (tick_within _ _ Hw Et) as Hwt. apply tick_ok in Et as [_ Et].
  destruct (checked_add 64 (metadata_bytes t) declared) as [n|] eqn:E1; [|done]. cbn [ok_or].
  apply checked_add_Some in E1 as [-> _].
  intros [Hm Hrest]%budget_check_cases. revert Hrest.
  destruct (charge_file t declared) as [f|] eqn:Ef; [|done].
  pose proof (charge_file_within _ _ _ Hwt Ef) as Hwf.
  apply charge_file_ok in Ef as (t2 & [_ ->]%tick_ok & _ & _ & Hf).
  set (body := take _ content). destruct (Z.eqb_spec (len body) declared) as [Hlen|]; [|done]. cbn [negb].
  destruct (tick _) as [u|] eqn:Eu; [|done]. intros [= <- <-].
  assert (within u) as Hwu.
  { eapply tick_within; [|exact Eu]. destruct Hwf as (?&?&?&?&?). unfold within; cbn.
    subst f. cbn in *. split_and!; auto. }
  apply tick_ok in Eu as [_ ->]. subst t. split_and!; try done.
  intros Hmax. unfold body in *. unfold saturating_add, u64_max, len in *.
  rewrite length_take in Hlen. apply take_ge. lia.
Qed.
End Clock.

(** Charging is sound: starting within its limits, every successful charge of a file, a
    WAL, a frame, a metadata file or a clock tick leaves the budget within its limits, so no
    work is admitted beyond them; and admitted metadata is the whole file, of the length it
    declared. *)
Theorem recovery_budget_never_overdrawn elapsed b :
  within elapsed b →
  (∀ b', tick elapsed b = Ok b' → within elapsed b')
  ∧ (∀ bytes b', charge_file elapsed b bytes = Ok b' → within elapsed b')
  ∧ (∀ bytes b', charge_wal elapsed b bytes = Ok b' →
       within elapsed b' ∧ bytes ≤ wal_bytes_limit (limits b))
  ∧ (∀ b', charge_frame elapsed b = Ok b' → within elapsed b')
  ∧ (∀ is_file declared content bytes b', 0 ≤ declared →
       charge_metadata elapsed b is_file declared content = Ok (bytes, b') →
       within elapsed b' ∧ is_file = true ∧ len bytes = declared
       ∧ (declared < u64_max → bytes = content)).
Proof.
  intros Hw. split_and!.
  - intros b'. by apply tick_within.
  - intros bytes b'. by apply charge_file_within.
  - intros bytes b' [Hb Hf]%budget_check_cases. split; [by eapply charge_file_within|done].
  - intros b'. by apply charge_frame_within.
  - intros is_file declared content bytes b' Hd H. apply charge_metadata_ok in H; naive_solver.
Qed.

Lemma recovery_budget_never_overdrawn_witness :
  within (λ n, 10 * Z.of_nat n) (RecoveryBudget_new RecoveryLimits_default)
  ∧ ∀ b', charge_wal (λ n, 10 * Z.of_nat n) (RecoveryBudget_new RecoveryLimits_default) 4096 = Ok b' →
      within (λ n, 10 * Z.of_nat n) b' ∧ 4096 ≤ 268435456.
Proof.
  assert (within (λ n, 10 * Z.of_nat n) (RecoveryBudget_new RecoveryLimits_default)) as Hw.
  { unfold within. split_and!; [apply Z.leb_le; reflexivity..|]. intros n Hn. by apply Nat.nlt_0_r in Hn. }
  split; [exact Hw|]. intros b' H.
  pose proof (recovery_budget_never_overdrawn (λ n, 10 * Z.of_nat n) _ Hw) as (_ & _ & Hwal & _).
  exact (Hwal 4096 b' H).
Defined.
