(* ===== verification/Wal.v ===== *)
(** The write-ahead log ([rrd-lsm]: wal.rs, filesystem/io.rs, filesystem/space.rs).

    A log file is a 16-byte header and a sequence of checksummed frames, one per write batch,
    whose sequence ranges are contiguous.  The model keeps the file as its bytes together with
    what the operating system answers: the replies to writes and syncs are inputs, so every
    short, interrupted or failed write is a run of the model.  The checksum of the [crc32c]
    crate is a parameter.

    The theorems: recovery accepts exactly the well-formed logs with an incomplete last frame
    at most; whatever the device answers, an append leaves a file from which recovery returns
    the batches already acknowledged, with the new one present iff its frame is complete; an
    authoritative receipt survives a crash; repair removes the incomplete frame and nothing
    else. *)

From S2P Require Import Prelude Machine LsmError Digest Batch RecoveryBudget.
Open Scope Z_scope.

(** * The [crc32c] crate *)

Class Crc32c := crc32c_append : Z → list byte → Z.
Class Crc32cLaws `{Crc32c} : Prop :=
  crc32c_append_u32 : ∀ c l, is_u32 c → is_u32 (crc32c_append c l).

(** * The file and the device behind it *)

(** What one write call answers. *)
Inductive WriteReply := Interrupted | WriteFailed (e : string) | Wrote (n : nat).

(** [stable] is the length of the prefix a completed sync has made durable; a device whose
    replies are used up takes every write and sync in full. *)
Record FileHandle := {
  contents : list byte;
  position : nat;
  stable : nat;
  write_replies : list WriteReply;
  sync_replies : list (option string)
}.

Definition write_at (f : FileHandle) (bytes : list byte) (replies : list WriteReply) : FileHandle := {|
  contents := take (position f) (contents f) ++ bytes
              ++ drop (position f + length bytes) (contents f);
  position := position f + length bytes;
  stable := stable f; write_replies := replies; sync_replies := sync_replies f
|}.

(** lsm/filesystem/io.rs:13-49 write_vectored: the reply to one write call of [bytes]. *)
Definition write_vectored (f : FileHandle) (bytes : list byte) : FileHandle * (WriteReply) :=
  match write_replies f with
  | [] => (write_at f bytes [], Wrote (length bytes))
  | Wrote n :: replies => (write_at f (take n bytes) replies, Wrote (n `min` length bytes))
  | Interrupted :: replies => (write_at f [] replies, Interrupted)
  | WriteFailed e :: replies => (write_at f [] replies, WriteFailed e)
  end.

Definition WRITE_ZERO : string := "write zero".

(** lsm/filesystem/io.rs:51-61 write_all *)
Fixpoint write_all_loop (fuel : nat) (f : FileHandle) (bytes : list byte)
    : FileHandle * result string unit :=
  match bytes, fuel with
  | [], _ => (f, Ok tt)
  | _, O => (f, Err WRITE_ZERO)
  | _, S fuel =>
    match write_vectored f bytes with
    | (f, Wrote O) => (f, Err WRITE_ZERO)
    | (f, Wrote written) => write_all_loop fuel f (drop written bytes)
    | (f, Interrupted) => write_all_loop fuel f bytes
    | (f, WriteFailed e) => (f, Err e)
    end
  end.
(** lsm/filesystem/io.rs:51-61 write_all; one pass per reply, and one that takes the rest. *)
Definition write_all (f : FileHandle) (bytes : list byte) : FileHandle * result string unit :=
  write_all_loop (S (length (write_replies f))) f bytes.

(** lsm/filesystem/io.rs:63-73 sync_data *)
Definition sync_data (f : FileHandle) : FileHandle * result string unit :=
  match sync_replies f with
  | Some e :: replies =>
    ({| contents := contents f; position := position f; stable := stable f;
        write_replies := write_replies f; sync_replies := replies |}, Err e)
  | replies =>
    ({| contents := contents f; position := position f; stable := length (contents f);
        write_replies := write_replies f; sync_replies := tail replies |}, Ok tt)
  end.

(** lsm/filesystem/space.rs:6-9 Space *)
Record Space := { available : Z; unit_bytes : Z }.

(** lsm/filesystem/space.rs:12-35 Space::admit *)
Definition space_admit (self : Space) (reserve bytes : Z) (new_file : bool) : result Error unit :=
  if unit_bytes self =? 0 then Err (Io "filesystem allocation unit unavailable")
  else
    let units := checked_add 64 ((bytes + unit_bytes self - 1) / unit_bytes self)
                   (if new_file then 4 else 1) in
    let? required := ok_or
      (match units with
       | Some n => if n * unit_bytes self <? 2 ^ 64
                   then checked_add 64 (n * unit_bytes self) reserve else None
       | None => None
       end) (InvalidConfiguration "disk admission overflow") in
    if available self <? required
    then Err (DiskAdmission (available self) required reserve) else Ok tt.

(** lsm/filesystem/space.rs:38-45 admit, with the reading of the file system's free space *)
Definition admit_space (space : result string Space) (reserve bytes : Z) (new_file : bool)
    : result Error unit :=
  if reserve =? 0 then Ok tt
  else match space with
       | Ok s => space_admit s reserve bytes new_file
       | Err e => Err (Io e)
       end.

(** * The format *)

(** lsm/wal.rs:9-15 WAL_* *)
Definition WAL_FORMAT_VERSION : Z := 1.
Definition FILE_MAGIC : list byte := str_bytes "RRDWAL01".
Definition RECORD_MAGIC : list byte := str_bytes "RRD1".
Definition FILE_HEADER_BYTES : nat := 16.
Definition RECORD_HEADER_BYTES : nat := 32.
Definition RECORD_KIND_BATCH : byte := x01.

(** lsm/wal.rs:16-18 INITIAL_WAL_* *)
Definition INITIAL_WAL_RESERVATION_BYTES : Z := 1024 * 1024.
Definition INITIAL_WAL_RESERVATION_MIN_BATCH_BYTES : Z := 16 * 1024.

(** lsm/wal.rs:22-25 Durability *)
Inductive Durability := Buffered | Authoritative.

(** lsm/wal.rs:28-32 WalBatch *)
Record WalBatch := { first_sequence : Z; last_sequence : Z; payload : list byte }.

(** lsm/wal.rs:35-54 WalBatch::validate *)
Definition wal_batch_validate (self : WalBatch) : result Error unit :=
  if ((first_sequence self =? 0) || (last_sequence self <? first_sequence self)
      || (last_sequence self =? u64_max))%bool
  then Err (InvalidBatch "sequence range must be non-zero, ordered, and leave room for its successor")
  else if bool_decide (payload self = []) then Err (InvalidBatch "payload must not be empty")
  else if WAL_MAX_PAYLOAD_BYTES <? len (payload self)
  then Err (InvalidBatch ("payload is " +:+ pretty (len (payload self)) +:+ " bytes; maximum is "
                          +:+ pretty WAL_MAX_PAYLOAD_BYTES))
  else Ok tt.

(** lsm/wal.rs:58-65 AppendReceipt *)
Record AppendReceipt := {
  receipt_offset : Z; receipt_end_offset : Z; receipt_first : Z; receipt_last : Z;
  receipt_checksum : Z; receipt_durable : bool
}.

(** lsm/wal.rs:68-74 RecoveredBatch *)
Record RecoveredBatch := {
  rec_offset : Z; rec_first : Z; rec_last : Z; rec_checksum : Z; rec_payload : list byte
}.

(** lsm/wal.rs:77-82 Recovery *)
Record Recovery := {
  batches : list RecoveredBatch; recovered_through : Z; valid_bytes : Z; torn_tail : option Z
}.

(** lsm/wal.rs:85-90 RecoverySummary *)
Record RecoverySummary := {
  sum_recovered_through : Z; sum_valid_bytes : Z; sum_torn_tail : option Z; sum_payload_bytes : Z
}.

(** lsm/wal.rs:92-99 WalWriter; the path is not kept. *)
Record WalWriter := {
  recovery_reserve_bytes : Z; file : FileHandle; offset : Z; next_sequence : Z; poisoned : bool
}.

(** lsm/wal.rs:601-606 DecodedHeader *)
Record DecodedHeader := {
  dec_payload_len : Z; dec_first : Z; dec_last : Z; dec_checksum : Z
}.

Definition corruption {T} (offset : Z) (reason : string) : result Error T :=
  Err (Corruption offset reason).

Section Wal.
Context `{Crc32c}.

(** lsm/wal.rs:712-716 crc32c *)
Definition crc32c (chunks : list (list byte)) : Z := fold_left crc32c_append chunks 0.

(** lsm/wal.rs:608-616 file_header *)
Definition file_header : list byte :=
  let header := FILE_MAGIC ++ be_bytes 2 WAL_FORMAT_VERSION ++ be_bytes 2 (Z.of_nat FILE_HEADER_BYTES) in
  header ++ be_bytes 4 (crc32c [header]).

(** lsm/wal.rs:618-648 validate_file_header *)
Definition validate_file_header (header : list byte) : result Error unit :=
  if negb (bool_decide (slice header 0 8 = FILE_MAGIC))
  then corruption 0 "WAL file magic does not match"
  else
    let version := from_be (slice header 8 10) in
    if negb (version =? WAL_FORMAT_VERSION) then Err (UnsupportedVersion "WAL" version)
    else
      let header_len := from_be (slice header 10 12) in
      if negb (header_len =? Z.of_nat FILE_HEADER_BYTES)
      then corruption 10 ("unexpected WAL header length " +:+ pretty header_len)
      else
        let expected := from_be (slice header 12 16) in
        let actual := crc32c [slice header 0 12] in
        if negb (actual =? expected) then corruption 0 "WAL header checksum mismatch"
        else Ok tt.

(** lsm/wal.rs:650-664 record_header; the bytes 4..28 the checksum covers come first. *)
Definition record_fields (payload_len : Z) (batch : WalBatch) : list byte :=
  be_bytes 2 WAL_FORMAT_VERSION ++ [RECORD_KIND_BATCH] ++ [x00] ++ be_bytes 4 payload_len
  ++ be_bytes 8 (first_sequence batch) ++ be_bytes 8 (last_sequence batch).
(** lsm/wal.rs:650-664 record_header *)
Definition record_header (batch : WalBatch) : result Error (list byte) :=
  let? payload_len := u32_try_from (len (payload batch)) "payload length exceeds u32" in
  let fields := record_fields payload_len batch in
  Ok (RECORD_MAGIC ++ fields ++ be_bytes 4 (crc32c [fields; payload batch])).

(** lsm/wal.rs:666-710 decode_record_header *)
Definition decode_record_header (header : list byte) (offset : Z) : result Error DecodedHeader :=
  if negb (bool_decide (slice header 0 4 = RECORD_MAGIC))
  then corruption offset "record magic does not match"
  else
    let version := from_be (slice header 4 6) in
    if negb (version =? WAL_FORMAT_VERSION) then Err (UnsupportedVersion "WAL record" version)
    else if (negb (bool_decide (slice header 6 7 = [RECORD_KIND_BATCH]))
             || negb (bool_decide (slice header 7 8 = [x00])))%bool
    then corruption offset "unknown WAL record kind or flags"
    else
      let payload_len := from_be (slice header 8 12) in
      if ((payload_len =? 0) || (WAL_MAX_PAYLOAD_BYTES <? payload_len))%bool
      then corruption offset ("invalid payload length " +:+ pretty payload_len)
      else
        let first := from_be (slice header 12 20) in
        let last := from_be (slice header 20 28) in
        if ((first =? 0) || (last <? first))%bool
        then corruption offset "invalid record sequence range"
        else Ok {| dec_payload_len := payload_len; dec_first := first; dec_last := last;
                   dec_checksum := from_be (slice header 28 32) |}.

(** * Recovery *)

Section Replay.
Context (elapsed : nat → Z) {R : Type} (replay : R → RecoveredBatch → result Error R).

(** The mutable variables of the loop; [unread] is what [read_exact] has not consumed. *)
Record ReplayState := {
  rs_offset : Z; expected_sequence : Z; payload_bytes : Z;
  rs_budget : option RecoveryBudget; unread : list byte; replayed : R
}.

Definition charge (b : option RecoveryBudget) (f : RecoveryBudget → result Error RecoveryBudget)
    : result Error (option RecoveryBudget) :=
  match b with None => Ok None | Some b => let? b := f b in Ok (Some b) end.

(** [file_io::read_exact] of [n] bytes. *)
Definition read_exact (unread : list byte) (n : nat) : result Error (list byte * list byte) :=
  if (length unread <? n)%nat then Err (Io "failed to fill whole buffer")
  else Ok (take n unread, drop n unread).

(** lsm/wal.rs:490-557 replay_file_inner, one pass of the loop: the next state, or the torn
    tail at which the loop breaks. *)
Definition replay_step (length : Z) (st : ReplayState) : result Error (ReplayState * option Z) :=
  let? budget := charge (rs_budget st) (charge_frame elapsed) in
  let offset := rs_offset st in
  let torn := {| rs_offset := offset; expected_sequence := expected_sequence st;
                 payload_bytes := payload_bytes st; rs_budget := budget; unread := unread st;
                 replayed := replayed st |} in
  if length - offset <? Z.of_nat RECORD_HEADER_BYTES then Ok (torn, Some offset)
  else
    let? (header, unread) := read_exact (unread st) RECORD_HEADER_BYTES in
    let? decoded := decode_record_header header offset in
    if negb (dec_first decoded =? expected_sequence st)
    then corruption offset ("non-contiguous sequence: expected " +:+ pretty (expected_sequence st)
                            +:+ ", found " +:+ pretty (dec_first decoded))
    else
      let? end_ := ok_or
        (match checked_add 64 offset (Z.of_nat RECORD_HEADER_BYTES) with
         | Some value => checked_add 64 value (dec_payload_len decoded)
         | None => None
         end) (Corruption offset "record length overflow") in
      if length <? end_ then Ok (torn, Some offset)
      else
        let? (payload, unread) := read_exact unread (Z.to_nat (dec_payload_len decoded)) in
        let actual := crc32c [slice header 4 28; payload] in
        if negb (actual =? dec_checksum decoded)
        then corruption offset ("checksum mismatch: expected " +:+ hex (be_bytes 4 (dec_checksum decoded))
                                +:+ ", computed " +:+ hex (be_bytes 4 actual))
        else
          let? payload_bytes := ok_or (checked_add 64 (payload_bytes st) (len payload))
            (Corruption offset "recovered payload byte count overflow") in
          let? replayed := replay (replayed st)
            {| rec_offset := offset; rec_first := dec_first decoded; rec_last := dec_last decoded;
               rec_checksum := dec_checksum decoded; rec_payload := payload |} in
          let? expected_sequence := ok_or (checked_add 64 (dec_last decoded) 1)
            (Corruption offset "sequence overflow") in
          Ok ({| rs_offset := end_; expected_sequence := expected_sequence;
                 payload_bytes := payload_bytes; rs_budget := budget; unread := unread;
                 replayed := replayed |}, None).

(** lsm/wal.rs:490-557 replay_file_inner, the loop.  Every pass that goes on consumes more
    than one byte, so [length unread] passes are enough. *)
Fixpoint replay_loop (fuel : nat) (length : Z) (st : ReplayState) : result Error (ReplayState * option Z) :=
  match fuel with
  | O => Ok (st, None)
  | S fuel =>
    if rs_offset st <? length then
      let? (st, torn) := replay_step length st in
      match torn with
      | Some at_ => Ok (st, Some at_)
      | None => replay_loop fuel length st
      end
    else Ok (st, None)
  end.

(** lsm/wal.rs:457-573 replay_file_inner; [length_after] is the length the file has when the
    loop is done. *)
Definition replay_file_inner (file : list byte) (length_after : Z) (starting_sequence : Z)
    (budget : option RecoveryBudget) (init : R)
    : result Error (RecoverySummary * option RecoveryBudget * R) :=
  if starting_sequence =? 0
  then Err (InvalidBatch "WAL recovery sequence must be non-zero")
  else
    let length := len file in
    let? budget := charge budget (λ b, charge_wal elapsed b length) in
    if length <? Z.of_nat FILE_HEADER_BYTES then corruption 0 "incomplete WAL file header"
    else
      let? (header, unread) := read_exact file FILE_HEADER_BYTES in
      do? validate_file_header header in
      let? (st, torn) := replay_loop (List.length unread) length
        {| rs_offset := Z.of_nat FILE_HEADER_BYTES; expected_sequence := starting_sequence;
           payload_bytes := 0; rs_budget := budget; unread := unread; replayed := init |} in
      if negb (length_after =? length)
      then corruption (rs_offset st) "WAL length changed during recovery"
      else
        let? budget := charge (rs_budget st) (tick elapsed) in
        Ok ({| sum_recovered_through := saturating_sub (expected_sequence st) 1;
               sum_valid_bytes := rs_offset st; sum_torn_tail := torn;
               sum_payload_bytes := payload_bytes st |}, budget, replayed st).
End Replay.

(** lsm/wal.rs:434-443 replay_file *)
Definition replay_file {R} (replay : R → RecoveredBatch → result Error R) (file : list byte)
    (starting_sequence : Z) (init : R) : result Error (RecoverySummary * R) :=
  let? (summary, _, r) := replay_file_inner (λ _, 0) replay file (len file) starting_sequence None init in
  Ok (summary, r).

(** lsm/wal.rs:445-455 replay_file_bounded *)
Definition replay_file_bounded {R} (elapsed : nat → Z) (replay : R → RecoveredBatch → result Error R)
    (file : list byte) (starting_sequence : Z) (b : RecoveryBudget) (init : R)
    : result Error (RecoverySummary * option RecoveryBudget * R) :=
  replay_file_inner elapsed replay file (len file) starting_sequence (Some b) init.

Definition collect (batches : list RecoveredBatch) (b : RecoveredBatch) : result Error (list RecoveredBatch) :=
  Ok (batches ++ [b]).

(** lsm/wal.rs:408-420 recover_anchored; also recover and recover_from, which name the file *)
Definition recover_from (file : list byte) (starting_sequence : Z) : result Error Recovery :=
  let? (summary, batches) := replay_file collect file starting_sequence [] in
  Ok {| batches := batches; recovered_through := sum_recovered_through summary;
        valid_bytes := sum_valid_bytes summary; torn_tail := sum_torn_tail summary |}.

(** * The writer *)

(** lsm/wal.rs:171-191 WalWriter::from_recovered_file *)
Definition from_recovered_file (reserve : Z) (f : FileHandle) (recovery : RecoverySummary)
    : result Error WalWriter :=
  match sum_torn_tail recovery with
  | Some offset => Err (TornTail offset)
  | None =>
    let? next := ok_or (checked_add 64 (sum_recovered_through recovery) 1)
      (InvalidBatch "sequence overflow") in
    Ok {| recovery_reserve_bytes := reserve;
          file := {| contents := contents f; position := Z.to_nat (sum_valid_bytes recovery);
                     stable := stable f; write_replies := write_replies f;
                     sync_replies := sync_replies f |};
          offset := sum_valid_bytes recovery; next_sequence := next; poisoned := false |}
  end.

(** lsm/wal.rs:145-149 WalWriter::open_at_anchored *)
Definition open_at (reserve : Z) (f : FileHandle) (starting_sequence : Z) : result Error WalWriter :=
  let? (recovery, _) := replay_file (λ _ _, Ok tt) (contents f) starting_sequence tt in
  from_recovered_file reserve f recovery.

(** lsm/wal.rs:151-169 WalWriter::open_empty_at_anchored *)
Definition open_empty_at (reserve : Z) (f : FileHandle) (starting_sequence : Z) : result Error WalWriter :=
  let? (summary, _) := replay_file
    (λ _ _, corruption 0 "unpublished successor WAL contains data") (contents f) starting_sequence tt in
  match sync_data f with
  | (f, Ok _) => from_recovered_file reserve f summary
  | (_, Err e) => Err (Io e)
  end.

(** lsm/wal.rs:110-135 WalWriter::create_at_anchored, on the empty file that [create_new]
    opens. *)
Definition create_at (space : result string Space) (reserve : Z) (replies : list WriteReply)
    (syncs : list (option string)) (next_sequence : Z) : result Error WalWriter :=
  if next_sequence =? 0 then Err (InvalidBatch "WAL starting sequence must be non-zero")
  else
    do? admit_space space reserve (Z.of_nat FILE_HEADER_BYTES) true in
    let f := {| contents := []; position := 0; stable := 0; write_replies := replies;
                sync_replies := syncs |} in
    match write_all f file_header with
    | (_, Err e) => Err (Io e)
    | (f, Ok _) =>
      match sync_data f with
      | (_, Err e) => Err (Io e)
      | (f, Ok _) =>
        Ok {| recovery_reserve_bytes := reserve; file := f;
              offset := Z.of_nat FILE_HEADER_BYTES; next_sequence := next_sequence;
              poisoned := false |}
      end
    end.

Definition set_file (w : WalWriter) (f : FileHandle) (p : bool) : WalWriter := {|
  recovery_reserve_bytes := recovery_reserve_bytes w; file := f; offset := offset w;
  next_sequence := next_sequence w; poisoned := p
|}.

(** lsm/wal.rs:271-280 WalWriter::append_inner, the retried first write: interrupted calls are
    repeated, one per reply at most. *)
Fixpoint first_write (fuel : nat) (f : FileHandle) (bytes : list byte) : FileHandle * result string nat :=
  match write_vectored f bytes with
  | (f, Interrupted) =>
    match fuel with O => (f, Err WRITE_ZERO) | S fuel => first_write fuel f bytes end
  | (f, WriteFailed e) => (f, Err e)
  | (f, Wrote n) => (f, Ok n)
  end.

(** lsm/wal.rs:270-295 WalWriter::append_inner, the write closure *)
Definition write_frame (f : FileHandle) (header payload : list byte) : FileHandle * result string unit :=
  match first_write (length (write_replies f)) f (header ++ payload) with
  | (f, Err e) => (f, Err e)
  | (f, Ok O) => (f, Err WRITE_ZERO)
  | (f, Ok written) =>
    if (written <? length header)%nat then
      match write_all f (drop written header) with
      | (f, Err e) => (f, Err e)
      | (f, Ok _) => write_all f payload
      end
    else write_all f (drop (written - length header) payload)
  end.

(** lsm/wal.rs:209-330 WalWriter::append_inner without its phase timers; [space] is the
    reading of the file system's free space.  The initial reservation is a hint that changes
    neither the file's bytes nor its length. *)
Definition append (space : result string Space) (w : WalWriter) (batch : WalBatch) (d : Durability)
    : WalWriter * result Error AppendReceipt :=
  if poisoned w then (w, Err PoisonedWriter)
  else match wal_batch_validate batch with
  | Err e => (w, Err e)
  | Ok _ =>
  if negb (first_sequence batch =? next_sequence w)
  then (w, Err (InvalidBatch ("expected first sequence " +:+ pretty (next_sequence w)
                              +:+ ", received " +:+ pretty (first_sequence batch))))
  else match record_header batch with
  | Err e => (w, Err e)
  | Ok header =>
  match (match checked_add 64 (offset w) (Z.of_nat RECORD_HEADER_BYTES) with
         | Some value => checked_add 64 value (len (payload batch))
         | None => None
         end) with
  | None => (w, Err (InvalidBatch "WAL offset overflow"))
  | Some end_offset =>
  let initial := ((offset w =? Z.of_nat FILE_HEADER_BYTES) && (first_sequence batch =? 1)
                  && (INITIAL_WAL_RESERVATION_MIN_BATCH_BYTES <=? len (payload batch)))%bool in
  let allocation := if initial then Z.max (end_offset - offset w) INITIAL_WAL_RESERVATION_BYTES
                    else end_offset - offset w in
  match admit_space space (recovery_reserve_bytes w) allocation false with
  | Err e => (w, Err e)
  | Ok _ =>
  match write_frame (file w) header (payload batch) with
  | (f, Err e) => (set_file w f true, Err (Io e))
  | (f, Ok _) =>
  match (match d with Authoritative => sync_data f | Buffered => (f, Ok tt) end) with
  | (f, Err e) => (set_file w f true, Err (Io e))
  | (f, Ok _) =>
  match checked_add 64 (last_sequence batch) 1 with
  | None =>
    ({| recovery_reserve_bytes := recovery_reserve_bytes w; file := f; offset := end_offset;
        next_sequence := next_sequence w; poisoned := false |},
     Err (InvalidBatch "sequence overflow"))
  | Some next =>
    ({| recovery_reserve_bytes := recovery_reserve_bytes w; file := f; offset := end_offset;
        next_sequence := next; poisoned := false |},
     Ok {| receipt_offset := offset w; receipt_end_offset := end_offset;
           receipt_first := first_sequence batch; receipt_last := last_sequence batch;
           receipt_checksum := from_be (slice header 28 32);
           receipt_durable := match d with Authoritative => true | Buffered => false end |})
  end end end end end end end.

(** lsm/wal.rs:364-386 WalWriter::append_encoded_write_batch_inner; [count - 1] wraps. *)
Definition append_encoded_write_batch (space : result string Space) (w : WalWriter)
    (batch : WriteBatch) (encoded : list byte) (d : Durability) : WalWriter * result Error AppendReceipt :=
  let count := len (operations batch) in
  match checked_add 64 (next_sequence w) ((count - 1) mod 2 ^ 64) with
  | None => (w, Err (InvalidBatch "sequence range overflow"))
  | Some last =>
    append space w {| first_sequence := next_sequence w; last_sequence := last; payload := encoded |} d
  end.

(** lsm/wal.rs:334-341 WalWriter::append_write_batch *)
Definition append_write_batch (space : result string Space) (w : WalWriter) (batch : WriteBatch)
    (d : Durability) : WalWriter * result Error AppendReceipt :=
  match encode batch with
  | Err e => (w, Err e)
  | Ok encoded => append_encoded_write_batch space w batch encoded d
  end.

(** lsm/wal.rs:388-397 WalWriter::sync *)
Definition sync (w : WalWriter) : WalWriter * result Error Z :=
  if poisoned w then (w, Err PoisonedWriter)
  else match sync_data (file w) with
  | (f, Err e) => (set_file w f true, Err (Io e))
  | (f, Ok _) => (set_file w f (poisoned w), Ok (saturating_sub (next_sequence w) 1))
  end.

(** lsm/wal.rs:581-599 repair_torn_tail_from: the file afterwards and what was recovered;
    [set_len] truncates, [sync_all] makes the truncation durable. *)
Definition repair_torn_tail_from (f : FileHandle) (starting_sequence : Z)
    : FileHandle * result Error Recovery :=
  match replay_file collect (contents f) starting_sequence [] with
  | Err e => (f, Err e)
  | Ok (summary, batches) =>
    let done := Ok {| batches := batches; recovered_through := sum_recovered_through summary;
                      valid_bytes := sum_valid_bytes summary; torn_tail := None |} in
    match sum_torn_tail summary with
    | None => (f, done)
    | Some _ =>
      let f' := {| contents := take (Z.to_nat (sum_valid_bytes summary)) (contents f);
                   position := position f; stable := stable f;
                   write_replies := write_replies f; sync_replies := sync_replies f |} in
      match sync_data f' with
      | (f'', Ok _) => (f'', done)
      | (f'', Err e) => (f'', Err (Io e))
      end
    end
  end.

(** * The abstract log *)

Definition valid_batch (b : WalBatch) : Prop :=
  1 ≤ first_sequence b ≤ last_sequence b ∧ last_sequence b < u64_max
  ∧ 1 ≤ len (payload b) ≤ WAL_MAX_PAYLOAD_BYTES.

Definition batch_checksum (b : WalBatch) : Z :=
  crc32c [record_fields (len (payload b)) b; payload b].
Definition header_of (b : WalBatch) : list byte :=
  RECORD_MAGIC ++ record_fields (len (payload b)) b ++ be_bytes 4 (batch_checksum b).
Definition frame (b : WalBatch) : list byte := header_of b ++ payload b.
Definition log_bytes (bs : list WalBatch) : list byte := concat (frame <$> bs).
Definition wal_image (bs : list WalBatch) : list byte := file_header ++ log_bytes bs.

(** Valid batches whose sequence ranges follow each other from [start] on. *)
Fixpoint contiguous (start : Z) (bs : list WalBatch) : Prop :=
  match bs with
  | [] => True
  | b :: bs => valid_batch b ∧ first_sequence b = start ∧ contiguous (last_sequence b + 1) bs
  end.
Fixpoint next_after (start : Z) (bs : list WalBatch) : Z :=
  match bs with [] => start | b :: bs => next_after (last_sequence b + 1) bs end.

Definition recovered_batch (offset : Z) (b : WalBatch) : RecoveredBatch := {|
  rec_offset := offset; rec_first := first_sequence b; rec_last := last_sequence b;
  rec_checksum := batch_checksum b; rec_payload := payload b
|}.
Fixpoint recovered_batches (offset : Z) (bs : list WalBatch) : list RecoveredBatch :=
  match bs with
  | [] => []
  | b :: bs => recovered_batch offset b :: recovered_batches (offset + len (frame b)) bs
  end.

(** What may follow the last complete frame: nothing, or an incomplete frame. *)
Definition incomplete (expected : Z) (t : list byte) : Prop :=
  t ≠ [] ∧ (len t < Z.of_nat RECORD_HEADER_BYTES
    ∨ ∃ off d, decode_record_header (take RECORD_HEADER_BYTES t) off = Ok d
        ∧ dec_first d = expected
        ∧ len t < Z.of_nat RECORD_HEADER_BYTES + dec_payload_len d).

(** ** Frames *)

Lemma wal_batch_validate_ok b :
  is_u64 (first_sequence b) → is_u64 (last_sequence b) →
  wal_batch_validate b = Ok tt ↔ valid_batch b.
Proof.
  intros Hf Hl. unfold in_width, wal_batch_validate, valid_batch, u64_max in *.
  pose proof (len_nonneg (payload b)). pose proof (len_zero (payload b)) as Hz.
  destruct (Z.eqb_spec (first_sequence b) 0), (Z.ltb_spec (last_sequence b) (first_sequence b)),
    (Z.eqb_spec (last_sequence b) (2 ^ 64 - 1)); cbn [orb]; try (split; [done|lia]).
  case_bool_decide as Hp; [rewrite (proj2 Hz Hp); split; [done|lia]|].
  assert (len (payload b) ≠ 0) by (by rewrite Hz).
  destruct (Z.ltb_spec WAL_MAX_PAYLOAD_BYTES (len (payload b))); (split; [done||lia|done||lia]).
Qed.

Lemma length_header_of b : length (header_of b) = 32%nat.
Proof. reflexivity. Qed.
Lemma len_header_of b : len (header_of b) = 32.
Proof. reflexivity. Qed.
Lemma len_frame b : len (frame b) = 32 + len (payload b).
Proof. unfold frame. by rewrite len_app, len_header_of. Qed.
Lemma length_file_header : length file_header = 16%nat.
Proof. reflexivity. Qed.

Lemma record_header_ok b : valid_batch b → record_header b = Ok (header_of b).
Proof.
  intros (_ & _ & Hp). unfold record_header, u32_try_from. unfold_limits.
  by rewrite (proj2 (Z.ltb_lt _ _)) by lia.
Qed.

Context {crc_laws : Crc32cLaws}.

Lemma crc32c_u32 chunks : is_u32 (crc32c chunks).
Proof.
  unfold crc32c. assert (is_u32 0) as H0 by (unfold in_width; lia). revert H0. generalize 0.
  induction chunks as [|c chunks IH]; intros z Hz; [done|]. simpl. apply IH. by apply crc_laws.
Qed.

Lemma validate_own_file_header : validate_file_header file_header = Ok tt.
Proof.
  unfold validate_file_header.
  change (slice file_header 0 8) with FILE_MAGIC.
  change (slice file_header 8 10) with (be_bytes 2 WAL_FORMAT_VERSION).
  change (slice file_header 10 12) with (be_bytes 2 (Z.of_nat FILE_HEADER_BYTES)).
  set (h := FILE_MAGIC ++ be_bytes 2 WAL_FORMAT_VERSION ++ be_bytes 2 (Z.of_nat FILE_HEADER_BYTES)).
  change (slice file_header 0 12) with h.
  change (slice file_header 12 16) with (be_bytes 4 (crc32c [h])).
  rewrite bool_decide_true by done. rewrite !from_be_bytes_small; [|apply crc32c_u32|done|done].
  by rewrite !Z.eqb_refl.
Qed.

Lemma validate_file_header_inv h :
  length h = 16%nat → validate_file_header h = Ok tt → h = file_header.
Proof.
  intros Hl. unfold validate_file_header. case_bool_decide as Hm; [|done]. cbn [negb].
  destruct (Z.eqb_spec (from_be (slice h 8 10)) WAL_FORMAT_VERSION) as [Hv|]; [|done]. cbn [negb].
  destruct (Z.eqb_spec (from_be (slice h 10 12)) (Z.of_nat FILE_HEADER_BYTES)) as [Hn|]; [|done]. cbn [negb].
  destruct (Z.eqb_spec (crc32c [slice h 0 12]) (from_be (slice h 12 16))) as [Hc|]; [|done]. intros _.
  assert (∀ i j, (i ≤ j ≤ 16)%nat → length (slice h i j) = (j - i)%nat) as Hs.
  { intros i j Hij. unfold slice. rewrite length_take, length_drop. lia. }
  assert (slice h 0 12 = FILE_MAGIC ++ be_bytes 2 WAL_FORMAT_VERSION
    ++ be_bytes 2 (Z.of_nat FILE_HEADER_BYTES)) as H12.
  { rewrite <-Hm, <-Hv, <-Hn, !be_bytes_from by (by rewrite Hs by lia).
    do 16 (destruct h as [|? h]; [simpl in Hl; lia|]). reflexivity. }
  unfold file_header. rewrite <-H12, Hc, be_bytes_from by (by rewrite Hs by lia).
  do 16 (destruct h as [|? h]; [simpl in Hl; lia|]). by destruct h.
Qed.

Definition decoded_header (b : WalBatch) : DecodedHeader := {|
  dec_payload_len := len (payload b); dec_first := first_sequence b; dec_last := last_sequence b;
  dec_checksum := batch_checksum b
|}.

Lemma decode_header_of b off :
  valid_batch b → decode_record_header (header_of b) off = Ok (decoded_header b).
Proof.
  intros ((Hf & Hfl) & Hl & Hp). unfold decode_record_header, u64_max in *.
  change (slice (header_of b) 0 4) with RECORD_MAGIC.
  change (slice (header_of b) 4 6) with (be_bytes 2 WAL_FORMAT_VERSION).
  change (slice (header_of b) 6 7) with [RECORD_KIND_BATCH].
  change (slice (header_of b) 7 8) with [x00].
  change (slice (header_of b) 8 12) with (be_bytes 4 (len (payload b))).
  change (slice (header_of b) 12 20) with (be_bytes 8 (first_sequence b)).
  change (slice (header_of b) 20 28) with (be_bytes 8 (last_sequence b)).
  change (slice (header_of b) 28 32) with (be_bytes 4 (batch_checksum b)).
  rewrite !bool_decide_true by done. unfold_limits.
  rewrite !from_be_bytes_small; [|apply crc32c_u32|unfold WAL_FORMAT_VERSION; simpl; lia..].
  cbn [negb orb]. rewrite Z.eqb_refl, (proj2 (Z.eqb_neq _ _)) by lia.
  rewrite (proj2 (Z.ltb_ge _ _)) by lia. cbn [negb orb].
  rewrite (proj2 (Z.eqb_neq _ _)) by lia. by rewrite (proj2 (Z.ltb_ge _ _)) by lia.
Qed.

Lemma decode_header_inv h off d p :
  length h = 32%nat → decode_record_header h off = Ok d →
  let b := {| first_sequence := dec_first d; last_sequence := dec_last d; payload := p |} in
  slice h 4 28 = record_fields (dec_payload_len d) b
  ∧ h = RECORD_MAGIC ++ record_fields (dec_payload_len d) b ++ be_bytes 4 (dec_checksum d)
  ∧ 1 ≤ dec_payload_len d ≤ WAL_MAX_PAYLOAD_BYTES ∧ 1 ≤ dec_first d ≤ dec_last d
  ∧ dec_last d < 2 ^ 64.
Proof.
  intros Hl. unfold decode_record_header. case_bool_decide as Hm; [|done]. cbn [negb].
  destruct (Z.eqb_spec (from_be (slice h 4 6)) WAL_FORMAT_VERSION) as [Hv|]; [|done]. cbn [negb].
  case_bool_decide as Hk; [|done]. case_bool_decide as Hz; [|done]. cbn [negb orb].
  do 2 (match goal with |- context [if (?x || ?y)%bool then _ else _] => destruct (x || y)%bool eqn:? end; [done|]).
  bools.
  intros [= <-]. cbn [dec_payload_len dec_first dec_last dec_checksum].
  assert (∀ i j, (i ≤ j ≤ 32)%nat → length (slice h i j) = (j - i)%nat) as Hs.
  { intros i j Hij. unfold slice. rewrite length_take, length_drop. lia. }
  pose proof (from_be_bound (slice h 8 12)). pose proof (from_be_bound (slice h 12 20)).
  pose proof (from_be_bound (slice h 20 28)) as Hb. unfold len in Hb. rewrite Hs in Hb by lia.
  unfold record_fields. cbn [first_sequence last_sequence]. rewrite <-Hm, <-Hv, <-Hk, <-Hz.
  rewrite !be_bytes_from by (by rewrite Hs by lia).
  change (8 * Z.of_nat (28 - 20)) with 64 in Hb. split_and!; try lia.
  all: do 32 (destruct h as [|? h]; [simpl in Hl; lia|]); destruct h; [reflexivity|simpl in Hl; lia].
Qed.

(** ** One pass of the recovery loop *)

Section Steps.
Context (elapsed : nat → Z) {R : Type} (replay : R → RecoveredBatch → result Error R).

Definition advance (st : ReplayState (R := R)) (b : WalBatch) (bud : option RecoveryBudget)
    (rest : list byte) (r : R) : ReplayState := {|
  rs_offset := rs_offset st + len (frame b); expected_sequence := last_sequence b + 1;
  payload_bytes := payload_bytes st + len (payload b); rs_budget := bud; unread := rest;
  replayed := r
|}.

Definition halt (st : ReplayState (R := R)) (bud : option RecoveryBudget) : ReplayState := {|
  rs_offset := rs_offset st; expected_sequence := expected_sequence st;
  payload_bytes := payload_bytes st; rs_budget := bud; unread := unread st;
  replayed := replayed st
|}.

(** What the loop keeps: the offset is what has been read of a file of [length] bytes; file
    lengths are signed 64-bit integers ([off_t]). *)
Definition loop_inv (length : Z) (st : ReplayState (R := R)) : Prop :=
  0 ≤ payload_bytes st ≤ rs_offset st ∧ length = rs_offset st + len (unread st) ∧ length < 2 ^ 63.

Lemma read_exact_app (l k : list byte) n : length l = n → read_exact (l ++ k) n = Ok (l, k).
Proof.
  intros <-. unfold read_exact. rewrite length_app, (proj2 (Nat.ltb_ge _ _)) by lia.
  by rewrite take_app_length, drop_app_length.
Qed.

Lemma replay_step_frame length st b rest bud r :
  loop_inv length st → charge (rs_budget st) (charge_frame elapsed) = Ok bud →
  valid_batch b → first_sequence b = expected_sequence st → unread st = frame b ++ rest →
  replay (replayed st) (recovered_batch (rs_offset st) b) = Ok r →
  replay_step elapsed replay length st = Ok (advance st b bud rest r, None).
Proof.
  intros ((Hp0 & Hp) & Hlen & Hmax) Hbud Hb Hfirst Hun Hr. pose proof Hb as (Hseq & Hlast & Hpay).
  rewrite Hun, len_app, len_frame in Hlen. pose proof (len_nonneg rest).
  unfold replay_step. rewrite Hbud. unfold RECORD_HEADER_BYTES.
  rewrite (proj2 (Z.ltb_ge _ _)) by lia.
  rewrite Hun. unfold frame. rewrite <-app_assoc, read_exact_app by reflexivity.
  rewrite decode_header_of by done. cbn [dec_first dec_payload_len dec_last dec_checksum decoded_header].
  rewrite Hfirst, Z.eqb_refl. cbn [negb]. unfold checked_add.
  rewrite (proj2 (Z.ltb_lt _ _)) by lia. rewrite (proj2 (Z.ltb_lt _ _)) by lia. cbn [ok_or].
  rewrite (proj2 (Z.ltb_ge _ _)) by lia. rewrite read_exact_app by (unfold len; lia).
  change (slice (header_of b) 4 28) with (record_fields (len (payload b)) b).
  fold (batch_checksum b). rewrite Z.eqb_refl. cbn [negb].
  rewrite (proj2 (Z.ltb_lt _ _)) by lia. cbn [ok_or].
  unfold recovered_batch in Hr. rewrite Hfirst in Hr. rewrite Hr.
  unfold u64_max in Hlast. rewrite (proj2 (Z.ltb_lt _ _)) by lia. cbn [ok_or].
  unfold advance. rewrite len_frame. do 3 f_equal. lia.
Qed.

Lemma decode_header_offset h off off' d :
  decode_record_header h off = Ok d → decode_record_header h off' = Ok d.
Proof. unfold decode_record_header. intros E. destruct_matches_in E; by subst. Qed.

Lemma replay_step_torn length st bud :
  loop_inv length st → charge (rs_budget st) (charge_frame elapsed) = Ok bud →
  incomplete (expected_sequence st) (unread st) →
  replay_step elapsed replay length st = Ok (halt st bud, Some (rs_offset st)).
Proof.
  intros ((Hp0 & Hp) & Hlen & Hmax) Hbud [Hne Hinc]. unfold replay_step. rewrite Hbud.
  destruct (Z.ltb_spec (length - rs_offset st) (Z.of_nat RECORD_HEADER_BYTES)) as [|Hge]; [done|].
  destruct Hinc as [?|(off & d & Hd & Hfirst & Hshort)]; [lia|].
  unfold read_exact. rewrite (proj2 (Nat.ltb_ge _ _)) by (unfold len in *; lia).
  rewrite (decode_header_offset _ _ (rs_offset st) _ Hd). rewrite Hfirst, Z.eqb_refl. cbn [negb].
  assert (1 ≤ dec_payload_len d ≤ WAL_MAX_PAYLOAD_BYTES) as Hpay.
  { assert (List.length (take RECORD_HEADER_BYTES (unread st)) = 32%nat) as H32
      by (unfold RECORD_HEADER_BYTES, len in *; rewrite length_take; lia).
    destruct (decode_header_inv _ _ _ [] H32 Hd) as (_ & _ & ? & _). done. }
  unfold checked_add. unfold_limits. unfold RECORD_HEADER_BYTES in *.
  rewrite (proj2 (Z.ltb_lt _ _)) by lia. rewrite (proj2 (Z.ltb_lt _ _)) by lia. cbn [ok_or].
  by rewrite (proj2 (Z.ltb_lt _ _)) by lia.
Qed.

(** The converse: a pass that goes on has read one frame, a pass that breaks has found an
    incomplete one. *)
Lemma replay_step_inv length st st' torn :
  loop_inv length st → rs_offset st < length →
  replay_step elapsed replay length st = Ok (st', torn) →
  ∃ bud, charge (rs_budget st) (charge_frame elapsed) = Ok bud ∧
  match torn with
  | Some at_ => at_ = rs_offset st ∧ st' = halt st bud
      ∧ incomplete (expected_sequence st) (unread st)
  | None => ∃ b rest r, valid_batch b ∧ first_sequence b = expected_sequence st
      ∧ unread st = frame b ++ rest
      ∧ replay (replayed st) (recovered_batch (rs_offset st) b) = Ok r
      ∧ st' = advance st b bud rest r
  end.
Proof.
  intros ((Hp0 & Hp) & Hlen & Hmax) Hlt. unfold replay_step.
  destruct (charge (rs_budget st) _) as [bud|] eqn:Hbud; [|done]. intros Hstep. exists bud.
  split; [done|]. revert Hstep.
  assert (unread st ≠ []) as Hne by (intros E; rewrite E, len_nil in Hlen; lia).
  destruct (Z.ltb_spec (length - rs_offset st) (Z.of_nat RECORD_HEADER_BYTES)) as [Hs|Hs].
  { intros [= <- <-]. split_and!; [done|done|]. split; [done|]. left. lia. }
  unfold read_exact at 1. rewrite (proj2 (Nat.ltb_ge _ _)) by (unfold len in *; lia).
  set (h := take RECORD_HEADER_BYTES (unread st)).
  assert (List.length h = 32%nat) as Hh
    by (unfold h, RECORD_HEADER_BYTES, len in *; rewrite length_take; lia).
  destruct (decode_record_header h (rs_offset st)) as [d|] eqn:Hd; [|done].
  destruct (Z.eqb_spec (dec_first d) (expected_sequence st)) as [Hfirst|]; [|done]. cbn [negb].
  destruct (ok_or _ _) as [end_|] eqn:Hend; [|done].
  assert (end_ = rs_offset st + 32 + dec_payload_len d) as ->.
  { unfold checked_add in Hend. unfold RECORD_HEADER_BYTES in Hend.
    destruct (_ <? _) in Hend; [|done]. destruct (_ <? _) in Hend; [|done]. injection Hend. lia. }
  destruct (Z.ltb_spec length (rs_offset st + 32 + dec_payload_len d)) as [Hshort|Hfit].
  { intros [= <- <-]. split_and!; [done|done|]. split; [done|]. right. exists (rs_offset st), d.
    split_and!; [done|done|]. unfold RECORD_HEADER_BYTES. lia. }
  unfold read_exact. rewrite length_drop, (proj2 (Nat.ltb_ge _ _))
    by (unfold RECORD_HEADER_BYTES, len in *; lia).
  set (p := take (Z.to_nat (dec_payload_len d)) (drop RECORD_HEADER_BYTES (unread st))).
  set (rest := drop (Z.to_nat (dec_payload_len d)) (drop RECORD_HEADER_BYTES (unread st))).
  set (b := {| first_sequence := dec_first d; last_sequence := dec_last d; payload := p |}).
  destruct (decode_header_inv h _ d p Hh Hd) as (Hslice & Hheader & Hpl & Hseq & Hlast).
  fold b in Hslice, Hheader.
  assert (len p = dec_payload_len d) as Hplen.
  { unfold p, len, RECORD_HEADER_BYTES in *. rewrite length_take, length_drop. lia. }
  destruct (Z.eqb_spec (crc32c [slice h 4 28; p]) (dec_checksum d)) as [Hcrc|]; [|done]. cbn [negb].
  destruct (ok_or (checked_add 64 (payload_bytes st) _) _) as [pb|] eqn:Hpb; [|done].
  destruct (replay (replayed st) _) as [r|] eqn:Hr; [|done].
  destruct (ok_or (checked_add 64 (dec_last d) 1) _) as [nx|] eqn:Hnx; [|done]. intros [= <- <-].
  apply ok_or_checked_add in Hpb as [-> _]. apply ok_or_checked_add in Hnx as [-> Hnx].
  assert (batch_checksum b = dec_checksum d) as Hck.
  { unfold batch_checksum. change (payload b) with p. rewrite Hplen, <-Hslice. exact Hcrc. }
  assert (header_of b = h) as Hhb by (unfold header_of; rewrite Hck; change (payload b) with p; by rewrite Hplen, <-Hheader).
  exists b, rest, r. split_and!.
  - unfold valid_batch, u64_max. change (payload b) with p. rewrite Hplen. cbn [first_sequence last_sequence b].
    split_and!; lia.
  - done.
  - unfold frame. change (payload b) with p. rewrite Hhb, <-app_assoc. unfold h, p, rest. by rewrite !take_drop.
  - unfold recovered_batch. rewrite Hck. exact Hr.
  - unfold advance. rewrite len_frame. change (payload b) with p. rewrite Hplen. f_equal. lia.
Qed.

(** ** The loop *)

Lemma advance_inv length st b bud rest r :
  loop_inv length st → unread st = frame b ++ rest → loop_inv length (advance st b bud rest r).
Proof.
  intros ((Hp0 & Hp) & Hlen & Hmax) Hun. pose proof (len_nonneg (payload b)).
  rewrite Hun, len_app, len_frame in Hlen. unfold loop_inv, advance.
  cbn [rs_offset payload_bytes unread]. rewrite len_frame.
  split_and!; lia.
Qed.

Lemma log_bytes_cons b bs : log_bytes (b :: bs) = frame b ++ log_bytes bs.
Proof. done. Qed.

Lemma replay_loop_done fuel length st :
  loop_inv length st → unread st = [] → replay_loop elapsed replay fuel length st = Ok (st, None).
Proof.
  intros (_ & Hlen & _) Hun. destruct fuel; [done|]. cbn [replay_loop].
  rewrite Hun, len_nil in Hlen. by rewrite (proj2 (Z.ltb_ge _ _)) by lia.
Qed.

Lemma replay_loop_complete bs t fuel length st r :
  loop_inv length st → rs_budget st = None → contiguous (expected_sequence st) bs →
  unread st = log_bytes bs ++ t →
  t = [] ∨ incomplete (next_after (expected_sequence st) bs) t →
  (List.length (unread st) ≤ fuel)%nat →
  try_fold replay (replayed st) (recovered_batches (rs_offset st) bs) = Ok r →
  ∃ pb, replay_loop elapsed replay fuel length st = Ok
    ({| rs_offset := rs_offset st + len (log_bytes bs);
        expected_sequence := next_after (expected_sequence st) bs; payload_bytes := pb;
        rs_budget := None; unread := t; replayed := r |},
     if decide (t = []) then None else Some (rs_offset st + len (log_bytes bs))).
Proof.
  revert fuel st; induction bs as [|b bs IH]; intros fuel st Hinv Hbud Hc Hun Ht Hfuel Hr.
  - cbn [try_fold recovered_batches] in Hr. injection Hr as <-. exists (payload_bytes st).
    cbn in Hun, Ht |- *. rewrite Z.add_0_r. destruct (decide (t = [])) as [->|Hne].
    + rewrite replay_loop_done by done. destruct st; cbn in *. by subst.
    + destruct Ht as [?|Ht]; [done|]. destruct fuel as [|fuel]; [rewrite Hun in Hfuel; destruct t; [done|simpl in Hfuel; lia]|].
      cbn [replay_loop]. destruct Hinv as (Hp & Hlen & Hmax) eqn:E; clear E.
      rewrite (proj2 (Z.ltb_lt _ _)) by (rewrite Hlen, Hun; pose proof (len_zero t); pose proof (len_nonneg t);
        destruct (decide (len t = 0)); [naive_solver|lia]).
      erewrite replay_step_torn; [|done|by rewrite Hbud|by rewrite Hun].
      unfold halt. by rewrite Hun.
  - destruct Hc as (Hb & Hfirst & Hc). rewrite log_bytes_cons, <-app_assoc in Hun.
    cbn [try_fold recovered_batches] in Hr.
    destruct (replay (replayed st) (recovered_batch (rs_offset st) b)) as [r1|] eqn:Hr1; [|done].
    pose proof (len_nonneg (payload b)). pose proof (len_frame b) as Hlf.
    assert (0 < len (frame b)) by (rewrite Hlf; lia).
    destruct fuel as [|fuel]; [rewrite Hun, length_app in Hfuel; unfold len in *; lia|].
    cbn [replay_loop]. rewrite (proj2 (Z.ltb_lt _ _))
      by (destruct Hinv as (_ & -> & _); rewrite Hun, len_app;
          pose proof (len_nonneg (log_bytes bs ++ t)); lia).
    erewrite replay_step_frame; [|done|by rewrite Hbud|done|done|done|done].
    destruct (IH fuel (advance st b None (log_bytes bs ++ t) r1)) as [pb Hpb];
      [by apply advance_inv|done|done|done|done| |done|].
    + rewrite Hun, length_app in Hfuel. unfold len in *. cbn [advance unread]. lia.
    + exists pb. rewrite Hpb. cbn [advance rs_offset expected_sequence next_after].
      rewrite log_bytes_cons, len_app, Z.add_assoc. done.
Qed.

Lemma replay_loop_sound fuel length st st' torn :
  loop_inv length st → (List.length (unread st) ≤ fuel)%nat →
  replay_loop elapsed replay fuel length st = Ok (st', torn) →
  ∃ bs t, contiguous (expected_sequence st) bs ∧ unread st = log_bytes bs ++ t
    ∧ rs_offset st' = rs_offset st + len (log_bytes bs)
    ∧ expected_sequence st' = next_after (expected_sequence st) bs
    ∧ try_fold replay (replayed st) (recovered_batches (rs_offset st) bs) = Ok (replayed st')
    ∧ match torn with
      | None => t = []
      | Some at_ => at_ = rs_offset st' ∧ incomplete (expected_sequence st') t
      end.
Proof.
  revert st; induction fuel as [|fuel IH]; intros st Hinv Hfuel; cbn [replay_loop].
  { intros [= <- <-]. exists [], []. cbn. rewrite Z.add_0_r. destruct (unread st); [done|simpl in Hfuel; lia]. }
  destruct (Z.ltb_spec (rs_offset st) length) as [Hlt|Hge].
  2:{ intros [= <- <-]. exists [], []. cbn. rewrite Z.add_0_r. destruct Hinv as (_ & Hlen & _).
      assert (unread st = []) by (apply len_zero; pose proof (len_nonneg (unread st)); lia). done. }
  destruct (replay_step elapsed replay length st) as [[st1 torn1]|] eqn:Hstep; [|done].
  apply replay_step_inv in Hstep as (bud & _ & Hstep); [|done|done]. destruct torn1 as [at_|].
  - destruct Hstep as (-> & -> & Hinc). intros [= <- <-]. exists [], (unread st). cbn.
    by rewrite Z.add_0_r.
  - destruct Hstep as (b & rest & r & Hb & Hfirst & Hun & Hr & ->). intros Hloop.
    apply IH in Hloop as (bs & t & Hc & Hrest & Hoff & Hexp & Hfold & Htorn).
    + cbn [advance rs_offset expected_sequence unread replayed] in *.
      exists (b :: bs), t. cbn [contiguous next_after try_fold recovered_batches].
      rewrite Hr, log_bytes_cons, len_app, <-app_assoc, <-Hrest, Z.add_assoc. done.
    + by apply advance_inv.
    + rewrite Hun, length_app in Hfuel. pose proof (len_frame b). unfold len in *.
      cbn [advance unread]. lia.
Qed.
End Steps.

(** ** Whole files *)

Definition recovery_of (start : Z) (bs : list WalBatch) (t : list byte) : Recovery := {|
  batches := recovered_batches (Z.of_nat FILE_HEADER_BYTES) bs;
  recovered_through := next_after start bs - 1;
  valid_bytes := len (wal_image bs);
  torn_tail := if decide (t = []) then None else Some (len (wal_image bs))
|}.
Definition summary_of (start : Z) (bs : list WalBatch) (t : list byte) (pb : Z) : RecoverySummary := {|
  sum_recovered_through := next_after start bs - 1; sum_valid_bytes := len (wal_image bs);
  sum_torn_tail := if decide (t = []) then None else Some (len (wal_image bs));
  sum_payload_bytes := pb
|}.

(** A log of [bs] and, at most, an incomplete frame after it. *)
Definition log_file (start : Z) (bs : list WalBatch) (t file : list byte) : Prop :=
  1 ≤ start ∧ contiguous start bs ∧ file = wal_image bs ++ t
  ∧ (t = [] ∨ incomplete (next_after start bs) t) ∧ len file < 2 ^ 63.

Lemma len_wal_image bs : len (wal_image bs) = 16 + len (log_bytes bs).
Proof. unfold wal_image. by rewrite len_app. Qed.

Lemma next_after_pos start bs : 1 ≤ start → contiguous start bs → start ≤ next_after start bs.
Proof.
  revert start; induction bs as [|b bs IH]; intros start Hs; cbn; [lia|].
  intros (((? & ?) & _) & <- & Hc). specialize (IH (last_sequence b + 1) ltac:(lia) Hc). lia.
Qed.

Lemma replay_file_complete {R} (replay : R → RecoveredBatch → result Error R) start bs t file init r :
  log_file start bs t file →
  try_fold replay init (recovered_batches (Z.of_nat FILE_HEADER_BYTES) bs) = Ok r →
  ∃ pb, replay_file replay file start init = Ok (summary_of start bs t pb, r).
Proof.
  intros (Hs & Hc & Hfile & Ht & Hmax) Hr. unfold replay_file, replay_file_inner.
  unfold wal_image in Hfile. rewrite <-app_assoc in Hfile.
  assert (len file = 16 + len (log_bytes bs) + len t) as Hlen.
  { rewrite Hfile, !len_app. unfold len at 1. rewrite length_file_header. lia. }
  pose proof (next_after_pos _ _ Hs Hc) as Hnext.
  rewrite (proj2 (Z.eqb_neq _ _)) by lia. cbn [charge].
  pose proof (len_nonneg (log_bytes bs)). pose proof (len_nonneg t).
  rewrite (proj2 (Z.ltb_ge _ _)) by (unfold FILE_HEADER_BYTES; lia).
  assert (read_exact file FILE_HEADER_BYTES = Ok (file_header, log_bytes bs ++ t)) as ->
    by (rewrite Hfile; by apply read_exact_app).
  rewrite validate_own_file_header.
  match goal with |- context [replay_loop _ _ ?f ?l ?st] =>
    destruct (replay_loop_complete (λ _, 0) replay bs t f l st r) as [pb Hpb] end; try done.
  { unfold loop_inv; cbn [rs_offset payload_bytes unread]. rewrite len_app.
    unfold FILE_HEADER_BYTES. split_and!; lia. }
  rewrite Hpb. rewrite Z.eqb_refl. cbn [negb rs_offset expected_sequence rs_budget payload_bytes replayed charge].
  exists pb. unfold summary_of, saturating_sub. rewrite len_wal_image, Z.max_r by lia. done.
Qed.

Lemma replay_file_sound {R} (replay : R → RecoveredBatch → result Error R) start file init sum r :
  0 ≤ start → len file < 2 ^ 63 → replay_file replay file start init = Ok (sum, r) →
  ∃ bs t, log_file start bs t file
    ∧ try_fold replay init (recovered_batches (Z.of_nat FILE_HEADER_BYTES) bs) = Ok r
    ∧ sum = summary_of start bs t (sum_payload_bytes sum).
Proof.
  intros Hs Hmax. unfold replay_file, replay_file_inner.
  destruct (Z.eqb_spec start 0); [done|]. cbn [charge].
  destruct (Z.ltb_spec (len file) (Z.of_nat FILE_HEADER_BYTES)) as [|Hlen]; [done|].
  unfold read_exact. rewrite (proj2 (Nat.ltb_ge _ _)) by (unfold len in *; lia).
  assert (length (take FILE_HEADER_BYTES file) = 16%nat) as Hh
    by (rewrite length_take; unfold FILE_HEADER_BYTES, len in *; lia).
  destruct (validate_file_header _) as [[]|] eqn:Hval; [|done].
  apply validate_file_header_inv in Hval; [|done].
  destruct (replay_loop _ _ _ _ _) as [[st torn]|] eqn:Hloop; [|done].
  rewrite Z.eqb_refl. cbn [negb].
  destruct (charge (rs_budget st) _) as [bud|] eqn:Hbud; [|done]. intros [= <- <-].
  apply replay_loop_sound in Hloop as (bs & t & Hc & Hun & Hoff & Hexp & Hfold & Htorn).
  - cbn [rs_offset expected_sequence unread replayed] in *.
    assert (file = wal_image bs ++ t) as Hfile.
    { unfold wal_image. rewrite <-Hval, <-app_assoc, <-Hun. by rewrite take_drop. }
    pose proof (next_after_pos start bs ltac:(lia) Hc). exists bs, t. split_and!; [|done|].
    + split_and!; [lia|done|done| |done]. destruct torn as [at_|]; [right; rewrite <-Hexp; naive_solver|by left].
    + unfold summary_of, saturating_sub. cbn [sum_payload_bytes].
      rewrite Hoff, Hexp, Z.max_r, len_wal_image by lia. f_equal.
      destruct torn as [at_|]; [|by rewrite decide_True].
      destruct Htorn as (-> & Hne & _). rewrite decide_False by done. by rewrite Hoff.
  - unfold loop_inv; cbn [rs_offset payload_bytes unread]. unfold FILE_HEADER_BYTES, len in *.
    rewrite length_drop. split_and!; lia.
  - done.
Qed.

Lemma try_fold_collect acc bs :
  try_fold collect acc bs = Ok (acc ++ bs).
Proof.
  revert acc; induction bs as [|b bs IH]; intros acc; cbn; [by rewrite app_nil_r|].
  by rewrite IH, <-app_assoc.
Qed.

Lemma recover_complete start bs t file :
  log_file start bs t file → recover_from file start = Ok (recovery_of start bs t).
Proof.
  intros Hlog. unfold recover_from.
  destruct (replay_file_complete collect start bs t file [] _ Hlog (try_fold_collect _ _)) as [pb Hpb].
  by rewrite Hpb.
Qed.

Lemma recover_sound start file r :
  0 ≤ start → len file < 2 ^ 63 → recover_from file start = Ok r →
  ∃ bs t, log_file start bs t file ∧ r = recovery_of start bs t.
Proof.
  intros Hs Hmax. unfold recover_from.
  destruct (replay_file _ _ _ _) as [[sum rs]|] eqn:E; [|done]. intros [= <-].
  apply replay_file_sound in E as (bs & t & Hlog & Hfold & Hsum); [|done|done].
  exists bs, t. split; [done|]. rewrite try_fold_collect in Hfold. injection Hfold as <-.
  by rewrite Hsum.
Qed.

(** ** Writing at the end of the file *)

Definition at_end (f : FileHandle) : Prop :=
  position f = length (contents f) ∧ (stable f ≤ length (contents f))%nat.

(** [f'] is [f] with [written] appended: everything a write can do to a file at its end. *)
Definition appended (f f' : FileHandle) (written : list byte) : Prop :=
  contents f' = contents f ++ written ∧ at_end f' ∧ stable f' = stable f
  ∧ sync_replies f' = sync_replies f.

Lemma appended_refl f : at_end f → appended f f [].
Proof. intros Hf. unfold appended. by rewrite app_nil_r. Qed.

Lemma appended_trans f g h u v : appended f g u → appended g h v → appended f h (u ++ v).
Proof.
  intros (Hg & _ & Hs & Hr) (Hh & He & Hs' & Hr'). unfold appended.
  rewrite Hh, Hg, <-app_assoc. split_and!; try done; congruence.
Qed.

Lemma write_at_appended f bytes replies : at_end f → appended f (write_at f bytes replies) bytes.
Proof.
  intros [Hp Hs]. unfold appended, at_end, write_at; cbn.
  rewrite Hp, firstn_all, drop_ge, app_nil_r, length_app by lia. split_and!; auto; lia.
Qed.

Definition reply_count (r : WriteReply) : nat := match r with Wrote n => n | _ => 0 end.

Lemma write_vectored_appended f bytes f' r :
  at_end f → write_vectored f bytes = (f', r) →
  appended f f' (take (reply_count r) bytes) ∧ write_replies f' = tail (write_replies f)
  ∧ (reply_count r ≤ length bytes)%nat.
Proof.
  intros Hf. unfold write_vectored. destruct (write_replies f) as [|[|e|n] replies].
  - intros [= <- <-]. cbn. rewrite firstn_all. split_and!; [by apply write_at_appended|done|lia].
  - intros [= <- <-]. cbn. split_and!; [by apply write_at_appended|done|lia].
  - intros [= <- <-]. cbn. split_and!; [by apply write_at_appended|done|lia].
  - intros [= <- <-]. cbn [reply_count]. split_and!; [|done|lia].
    replace (take (n `min` length bytes) bytes) with (take n bytes); [by apply write_at_appended|].
    rewrite <-take_take, firstn_all. done.
Qed.

(** A partial write: some prefix of [bytes], all of them when the result is [Ok]. *)
Definition wrote_prefix (f f' : FileHandle) (bytes : list byte) (ok : bool) : Prop :=
  ∃ k, (k ≤ length bytes)%nat ∧ appended f f' (take k bytes) ∧ (ok = true → k = length bytes).

Lemma write_all_loop_prefix fuel f bytes f' r :
  at_end f → write_all_loop fuel f bytes = (f', r) → wrote_prefix f f' bytes (is_ok r).
Proof.
  revert f bytes; induction fuel as [|fuel IH]; intros f bytes Hf; cbn [write_all_loop].
  { destruct bytes; intros [= <- <-]; exists 0%nat; cbn; (split_and!; [lia|by apply appended_refl|done]). }
  destruct bytes as [|x xs].
  { intros [= <- <-]; exists 0%nat; cbn; (split_and!; [lia|by apply appended_refl|done]). }
  generalize (x :: xs). clear x xs. intros bytes.
  destruct (write_vectored f bytes) as [g reply] eqn:Hw.
  apply write_vectored_appended in Hw as (Ha & _ & Hle); [|done].
  pose proof Ha as (_ & Hg & _).
  destruct reply as [|e|[|n]]; cbn [reply_count] in *.
  - intros Hrec. apply IH in Hrec as (k & Hk & Happ & Hok); [|done].
    exists k. split_and!; [done|by apply (appended_trans f g f' [])|done].
  - intros [= <- <-]. exists 0%nat. split_and!; [lia|done|done].
  - intros [= <- <-]. exists 0%nat. split_and!; [lia|done|done].
  - intros Hrec. apply IH in Hrec as (k & Hk & Happ & Hok); [|done].
    rewrite length_drop in Hk, Hok. exists (S n + k)%nat. split_and!; [lia| |intros E; specialize (Hok E); lia].
    pose proof (appended_trans _ _ _ _ _ Ha Happ) as Happ'.
    by rewrite take_take_drop in Happ'.
Qed.

Lemma write_all_prefix f bytes f' r :
  at_end f → write_all f bytes = (f', r) → wrote_prefix f f' bytes (is_ok r).
Proof. apply write_all_loop_prefix. Qed.

Lemma first_write_prefix fuel f bytes f' r :
  at_end f → first_write fuel f bytes = (f', r) →
  appended f f' (take (match r with Ok n => n | Err _ => 0 end) bytes)
  ∧ (match r with Ok n => n | Err _ => 0 end ≤ length bytes)%nat.
Proof.
  revert f; induction fuel as [|fuel IH]; intros f Hf; cbn [first_write];
    destruct (write_vectored f bytes) as [g reply] eqn:Hw;
    apply write_vectored_appended in Hw as (Ha & _ & Hle); try done;
    destruct reply as [|e|n]; cbn [reply_count] in *; try (intros [= <- <-]; done).
  intros Hrec. pose proof Ha as (_ & Hg & _). apply IH in Hrec as [Happ Hk]; [|done].
  split; [|done]. by apply (appended_trans f g f' []).
Qed.

Lemma wrote_prefix_after f g f' u bytes v ok :
  appended f g u → bytes = u ++ v → wrote_prefix g f' v ok → wrote_prefix f f' bytes ok.
Proof.
  intros Ha -> (k & Hk & Happ & Hok). exists (length u + k)%nat. rewrite length_app.
  split_and!; [lia| |intros E; specialize (Hok E); lia].
  rewrite take_app_ge by lia. replace (length u + k - length u)%nat with k by lia.
  by eapply appended_trans.
Qed.

Lemma wrote_prefix_weaken f f' u v : wrote_prefix f f' u false → wrote_prefix f f' (u ++ v) false.
Proof.
  intros (k & Hk & Happ & _). exists k. rewrite length_app, take_app_le by done.
  split_and!; [lia|done|done].
Qed.

Lemma write_frame_prefix f header payload f' r :
  at_end f → write_frame f header payload = (f', r) →
  wrote_prefix f f' (header ++ payload) (is_ok r).
Proof.
  intros Hf. unfold write_frame.
  destruct (first_write _ f (header ++ payload)) as [g [n|e]] eqn:Hw;
    apply first_write_prefix in Hw as [Ha Hle]; try done.
  2:{ intros [= <- <-]. exists 0%nat. split_and!; [lia|done|done]. }
  pose proof Ha as (_ & Hg & _). destruct n as [|n].
  { intros [= <- <-]. exists 0%nat. split_and!; [lia|done|done]. }
  set (m := S n) in *. destruct (Nat.ltb_spec m (length header)) as [Hlt|Hge].
  - rewrite take_app_le in Ha by lia.
    destruct (write_all g (drop m header)) as [g2 [[]|e]] eqn:Hw2; apply write_all_prefix in Hw2; try done.
    + intros Hw3. destruct Hw2 as (k & Hk & Happ & Hok). rewrite (Hok eq_refl), firstn_all in Happ.
      pose proof (appended_trans _ _ _ _ _ Ha Happ) as Ha2. rewrite take_drop in Ha2.
      pose proof Ha2 as (_ & Hg2 & _). apply write_all_prefix in Hw3; [|done].
      by eapply wrote_prefix_after.
    + intros [= <- <-]. cbn [is_ok] in *.
      eapply wrote_prefix_after; [exact Ha| |by apply wrote_prefix_weaken].
      by rewrite app_assoc, take_drop.
  - intros Hw2. apply write_all_prefix in Hw2; [|done].
    eapply wrote_prefix_after; [exact Ha| |exact Hw2].
    rewrite take_app_ge by lia. rewrite <-app_assoc. by rewrite take_drop.
Qed.

(** A device that interrupts and shortens writes but never refuses them. *)
Definition cooperative (replies : list WriteReply) : Prop :=
  Forall (λ r, match r with Interrupted | Wrote (S _) => True | _ => False end) replies.

Lemma cooperative_step f bytes f' r :
  bytes ≠ [] → cooperative (write_replies f) → write_vectored f bytes = (f', r) →
  cooperative (write_replies f') ∧
  (r = Interrupted ∧ length (write_replies f) = S (length (write_replies f'))
   ∨ ∃ n, r = Wrote (S n)
     ∧ (write_replies f = [] ∧ S n = length bytes ∧ write_replies f' = []
        ∨ length (write_replies f) = S (length (write_replies f')))).
Proof.
  intros Hne Hc. unfold write_vectored. destruct (write_replies f) as [|reply replies]; cbn.
  { intros [= <- <-]. split; [done|right]. destruct bytes as [|x bytes]; [done|].
    exists (length bytes). split; [done|]. by left. }
  apply Forall_cons in Hc as [Hr Hc]. destruct reply as [|e|[|n]]; try done; intros [= <- <-].
  - split; [done|]. by left.
  - split; [done|right]. destruct bytes as [|x bytes]; [done|]. cbn. eexists. split; [done|]. by right.
Qed.

Lemma write_all_loop_ok fuel f bytes :
  cooperative (write_replies f) → (length (write_replies f) < fuel)%nat →
  ∃ f', write_all_loop fuel f bytes = (f', Ok tt) ∧ cooperative (write_replies f').
Proof.
  revert f bytes; induction fuel as [|fuel IH]; intros f bytes Hc Hlt; [lia|]. cbn [write_all_loop].
  destruct bytes as [|x xs]; [by eexists|]. assert (x :: xs ≠ []) as Hne by done.
  revert Hne. generalize (x :: xs). clear x xs. intros bytes Hne.
  destruct (write_vectored f bytes) as [g r] eqn:Hw.
  destruct (cooperative_step _ _ _ _ Hne Hc Hw) as (Hg & [[-> Hl]|(n & -> & Hn)]); [apply IH; [done|lia]|].
  destruct Hn as [(_ & Hn & Hr)|Hl]; [|apply IH; [done|lia]].
  rewrite drop_ge by lia. exists g. by destruct fuel.
Qed.

Lemma write_all_ok f bytes :
  cooperative (write_replies f) →
  ∃ f', write_all f bytes = (f', Ok tt) ∧ cooperative (write_replies f').
Proof. intros Hc. apply write_all_loop_ok; [done|lia]. Qed.

Lemma first_write_ok fuel f bytes :
  bytes ≠ [] → cooperative (write_replies f) → (length (write_replies f) ≤ fuel)%nat →
  ∃ f' n, first_write fuel f bytes = (f', Ok (S n)) ∧ cooperative (write_replies f').
Proof.
  intros Hne. revert f; induction fuel as [|fuel IH]; intros f Hc Hle; cbn [first_write];
    destruct (write_vectored f bytes) as [g r] eqn:Hw;
    destruct (cooperative_step _ _ _ _ Hne Hc Hw) as (Hg & [[-> Hl]|(n & -> & _)]);
    try (by eexists _, _); [lia|]. apply IH; [done|lia].
Qed.

Lemma write_frame_ok f header payload :
  header ≠ [] → cooperative (write_replies f) →
  ∃ f', write_frame f header payload = (f', Ok tt) ∧ cooperative (write_replies f').
Proof.
  intros Hne Hc. unfold write_frame.
  destruct (first_write_ok (length (write_replies f)) f (header ++ payload)) as (g & n & -> & Hg);
    [by destruct header|done|lia|].
  destruct (S n <? length header)%nat; [|by apply write_all_ok].
  destruct (write_all_ok g (drop (S n) header) Hg) as (h & -> & Hh). by apply write_all_ok.
Qed.

(** ** Prefixes of a log *)

Lemma contiguous_app start bs cs :
  contiguous start (bs ++ cs) ↔ contiguous start bs ∧ contiguous (next_after start bs) cs.
Proof. revert start; induction bs as [|b bs IH]; intros start; cbn; [naive_solver|]. rewrite IH. naive_solver. Qed.
Lemma next_after_app start bs cs : next_after start (bs ++ cs) = next_after (next_after start bs) cs.
Proof. revert start; induction bs as [|b bs IH]; intros start; cbn; [done|]. apply IH. Qed.
Lemma log_bytes_app bs cs : log_bytes (bs ++ cs) = log_bytes bs ++ log_bytes cs.
Proof. unfold log_bytes. by rewrite fmap_app, concat_app. Qed.
Lemma wal_image_app bs cs : wal_image (bs ++ cs) = wal_image bs ++ log_bytes cs.
Proof. unfold wal_image. by rewrite log_bytes_app, app_assoc. Qed.
Lemma wal_image_snoc bs b : wal_image (bs ++ [b]) = wal_image bs ++ frame b.
Proof. rewrite wal_image_app. unfold log_bytes. cbn [fmap list_fmap concat]. by rewrite app_nil_r. Qed.

(** A frame cut short is an incomplete frame. *)
Lemma frame_prefix_incomplete b k :
  valid_batch b → (0 < k < length (frame b))%nat → incomplete (first_sequence b) (take k (frame b)).
Proof.
  intros Hb Hk. pose proof (len_frame b) as Hl. unfold len in Hl. split.
  { intros E. apply (f_equal length) in E. rewrite length_take in E. simpl in E. lia. }
  unfold RECORD_HEADER_BYTES, len. rewrite length_take.
  destruct (decide (k < 32)%nat); [left; lia|right].
  exists 0, (decoded_header b). split_and!; [|done|cbn [dec_payload_len decoded_header]; unfold len in *; lia].
  rewrite take_take, Nat.min_l by lia. unfold frame.
  rewrite take_app_length' by reflexivity. by apply decode_header_of.
Qed.

Lemma log_prefix start bs n :
  contiguous start bs →
  ∃ bs1 t, take n (log_bytes bs) = log_bytes bs1 ++ t ∧ bs1 `prefix_of` bs
    ∧ (t = [] ∨ incomplete (next_after start bs1) t)
    ∧ ∀ bs0, bs0 `prefix_of` bs → (length (log_bytes bs0) ≤ n)%nat → bs0 `prefix_of` bs1.
Proof.
  revert start n; induction bs as [|b bs IH]; intros start n.
  { intros _. exists [], []. split_and!; [by destruct n|done|by left|done]. }
  intros (Hb & Hfirst & Hc). rewrite log_bytes_cons.
  destruct (decide (length (frame b) ≤ n)%nat) as [Hge|Hlt].
  - rewrite take_app_ge by done.
    destruct (IH _ (n - length (frame b))%nat Hc) as (bs1 & t & Htake & Hpre & Ht & Hmax).
    exists (b :: bs1), t. rewrite Htake, app_assoc. split_and!; [done|by apply prefix_cons|done|].
    intros [|b0 bs0] Hp Hl; [apply prefix_nil|].
    assert (b0 = b) as -> by (by eapply prefix_cons_inv_1). apply prefix_cons.
    apply Hmax; [by eapply prefix_cons_inv_2|]. rewrite log_bytes_cons, length_app in Hl. lia.
  - rewrite take_app_le by lia. exists [], (take n (frame b)). split_and!; [done|apply prefix_nil| |].
    + destruct (decide (n = 0)%nat) as [->|]; [by left|right]. cbn [next_after]. rewrite <-Hfirst.
      apply frame_prefix_incomplete; [done|lia].
    + intros [|b0 bs0] Hp Hl; [done|]. assert (b0 = b) as -> by (by eapply prefix_cons_inv_1).
      rewrite log_bytes_cons, length_app in Hl. lia.
Qed.

(** What recovery returns for a file cut anywhere after its header: the complete frames. *)
Lemma cut_recovers start bs n :
  1 ≤ start → contiguous start bs → (16 ≤ n)%nat → len (take n (wal_image bs)) < 2 ^ 63 →
  ∃ bs1 t, log_file start bs1 t (take n (wal_image bs)) ∧ bs1 `prefix_of` bs
    ∧ ∀ bs0, bs0 `prefix_of` bs → (length (wal_image bs0) ≤ n)%nat → bs0 `prefix_of` bs1.
Proof.
  intros Hs Hc Hn Hmax. destruct (log_prefix start bs (n - 16) Hc) as (bs1 & t & Htake & Hpre & Ht & Hbest).
  assert (take n (wal_image bs) = wal_image bs1 ++ t) as Hcut.
  { unfold wal_image. rewrite take_app_ge by (rewrite length_file_header; lia).
    rewrite length_file_header, Htake. by rewrite app_assoc. }
  exists bs1, t. split_and!; [|done|].
  - split_and!; [done| |done|done|done]. destruct Hpre as [cs ->]. by apply contiguous_app in Hc as [? _].
  - intros bs0 Hp Hl. apply Hbest; [done|]. unfold wal_image in Hl.
    rewrite length_app, length_file_header in Hl. lia.
Qed.

(** ** The writer *)

(** A writer that may go on: its file is exactly the log of [bs]. *)
Definition healthy (start : Z) (bs : list WalBatch) (w : WalWriter) : Prop :=
  1 ≤ start ≤ u64_max ∧ contiguous start bs ∧ contents (file w) = wal_image bs ∧ at_end (file w)
  ∧ offset w = len (wal_image bs) ∧ next_sequence w = next_after start bs ∧ poisoned w = false.

(** A writer that has given up: its file is the log of [bs] and part of the frame of [b]. *)
Definition given_up (start : Z) (bs : list WalBatch) (b : WalBatch) (w : WalWriter) : Prop :=
  1 ≤ start ≤ u64_max ∧ contiguous start (bs ++ [b]) ∧ poisoned w = true
  ∧ (stable (file w) ≤ length (contents (file w)))%nat
  ∧ ∃ k, contents (file w) = wal_image bs ++ take k (frame b).

Definition receipt_of (w : WalWriter) (b : WalBatch) (d : Durability) : AppendReceipt := {|
  receipt_offset := offset w; receipt_end_offset := offset w + len (frame b);
  receipt_first := first_sequence b; receipt_last := last_sequence b;
  receipt_checksum := batch_checksum b;
  receipt_durable := match d with Authoritative => true | Buffered => false end
|}.

Definition wal_batch_u64 (b : WalBatch) : Prop := is_u64 (first_sequence b) ∧ is_u64 (last_sequence b).

Lemma sync_data_spec f :
  contents (sync_data f).1 = contents f ∧ position (sync_data f).1 = position f
  ∧ write_replies (sync_data f).1 = write_replies f
  ∧ stable (sync_data f).1 = (if is_ok (sync_data f).2 then length (contents f) else stable f).
Proof. unfold sync_data. by destruct (sync_replies f) as [|[e|] replies]. Qed.

(** Everything an append can do to a writer whose file is a log. *)
Inductive append_outcome (start : Z) (bs : list WalBatch) (w : WalWriter) (b : WalBatch) (d : Durability)
    : WalWriter → result Error AppendReceipt → Prop :=
| AppendRefused e : append_outcome start bs w b d w (Err e)
| AppendGaveUp w' e :
    valid_batch b → first_sequence b = next_sequence w → given_up start bs b w' →
    stable (file w') = stable (file w) →
    append_outcome start bs w b d w' (Err (Io e))
| AppendDone w' :
    valid_batch b → first_sequence b = next_sequence w → healthy start (bs ++ [b]) w' →
    stable (file w') = (match d with Authoritative => length (contents (file w'))
                                   | Buffered => stable (file w) end) →
    append_outcome start bs w b d w' (Ok (receipt_of w b d)).

Lemma append_outcome_holds start bs w b d space w' r :
  healthy start bs w → wal_batch_u64 b →
  append space w b d = (w', r) → append_outcome start bs w b d w' r.
Proof.
  intros (Hs & Hc & Hcont & Hend & Hoff & Hnext & Hp) [Hu1 Hu2]. unfold append. rewrite Hp.
  destruct (wal_batch_validate b) as [[]|e] eqn:Hval; [|intros [= <- <-]; by constructor].
  apply wal_batch_validate_ok in Hval as Hb; [|done|done]. pose proof Hb as (Hseq & Hlast & Hpay).
  destruct (Z.eqb_spec (first_sequence b) (next_sequence w)) as [Hfirst|]; [|intros [= <- <-]; by constructor]. cbn [negb].
  rewrite record_header_ok by done.
  destruct (match checked_add 64 (offset w) _ with Some _ => _ | None => _ end) as [end_|] eqn:Hend_;
    [|intros [= <- <-]; by constructor].
  assert (end_ = offset w + len (frame b)) as ->.
  { unfold RECORD_HEADER_BYTES in Hend_. destruct (checked_add 64 (offset w) _) eqn:E1; [|done].
    apply checked_add_Some in E1 as [-> _]. apply checked_add_Some in Hend_ as [-> _].
    rewrite len_frame. lia. }
  destruct (admit_space _ _ _ _) as [[]|e]; [|intros [= <- <-]; by constructor].
  assert (contiguous start (bs ++ [b])) as Hc'.
  { apply contiguous_app. split; [done|]. cbn. split_and!; [done|by rewrite <-Hnext|done]. }
  destruct (write_frame (file w) (header_of b) (payload b)) as [f [[]|e]] eqn:Hw;
    apply write_frame_prefix in Hw as (k & Hk & (Hf & Hfend & Hst & Hsy) & Hok); try done;
    fold (frame b) in *.
  2:{ intros [= <- <-]. apply AppendGaveUp; [done|done| |done]. split_and!; [lia|lia|done|done|apply Hfend|].
      exists k. cbn [file set_file]. by rewrite Hf, Hcont. }
  rewrite (Hok eq_refl), firstn_all in Hf. clear Hok Hk.
  rewrite Hcont, <-wal_image_snoc in Hf.
  pose proof (sync_data_spec f) as (Hg1 & Hg2 & _ & Hg4).
  destruct (match d with Authoritative => sync_data f | Buffered => (f, Ok tt) end) as [g q] eqn:Hsync.
  assert (contents g = contents f ∧ position g = position f
    ∧ stable g = (match d, is_ok q with Authoritative, true => length (contents f) | _, _ => stable f end))
    as (Hgc & Hgp & Hgs).
  { destruct d; [by simplify_eq|]. rewrite Hsync in Hg1, Hg2, Hg4. cbn in *. by destruct q as [[]|]. }
  assert (at_end g) as Hgend.
  { unfold at_end. rewrite Hgc, Hgp. destruct Hfend as [? ?]. split; [done|].
    rewrite Hgs. destruct d; [lia|]. destruct (is_ok q); lia. }
  destruct q as [[]|e].
  - unfold checked_add. unfold u64_max in Hlast. rewrite (proj2 (Z.ltb_lt _ _)) by lia.
    change (slice (header_of b) 28 32) with (be_bytes 4 (batch_checksum b)).
    rewrite from_be_bytes_small by apply crc32c_u32. fold (receipt_of w b d).
    intros E. injection E as <- <-. apply AppendDone; [done|done| |].
    + split_and!; try done; [lia|lia|cbn [file]; by rewrite Hgc|apply Hgend..|cbn [offset]; by rewrite wal_image_snoc, len_app, Hoff|].
      by rewrite next_after_app.
    + cbn [file]. rewrite Hgs, Hgc, Hst. by destruct d.
  - intros [= <- <-]. apply AppendGaveUp; [done|done| |].
    + split_and!; [lia|lia|done|done|apply Hgend|]. exists (length (frame b)). cbn [file set_file].
      by rewrite Hgc, Hf, firstn_all, wal_image_snoc.
    + cbn [file set_file]. rewrite Hgs, Hst. by destruct d.
Qed.

(** ** Runs of a writer *)

Inductive WalOp :=
| OpAppend (space : result string Space) (b : WalBatch) (d : Durability)
| OpWrite (space : result string Space) (batch : WriteBatch) (d : Durability)
| OpSync.

(** What the callers have been told: the batches acknowledged, and those acknowledged as
    durable (by an authoritative receipt or a later sync). *)
Record Ledger := { acked : list WalBatch; durable : list WalBatch }.

Definition ack (l : Ledger) (b : WalBatch) (d : Durability) : Ledger :=
  let a := acked l ++ [b] in
  {| acked := a; durable := match d with Authoritative => a | Buffered => durable l end |}.

(** The frame [append_write_batch] submits. *)
Definition write_batch_frame (w : WalWriter) (batch : WriteBatch) (encoded : list byte) : WalBatch := {|
  first_sequence := next_sequence w;
  last_sequence := next_sequence w + (len (operations batch) - 1) mod 2 ^ 64;
  payload := encoded
|}.

Definition wal_op (w : WalWriter) (l : Ledger) (op : WalOp) : WalWriter * Ledger :=
  match op with
  | OpAppend space b d =>
    let '(w', r) := append space w b d in
    (w', match r with Ok _ => ack l b d | Err _ => l end)
  | OpWrite space batch d =>
    let '(w', r) := append_write_batch space w batch d in
    (w', match r, encode batch with
         | Ok _, Ok encoded => ack l (write_batch_frame w batch encoded) d
         | _, _ => l
         end)
  | OpSync =>
    let '(w', r) := sync w in
    (w', match r with Ok _ => {| acked := acked l; durable := acked l |} | Err _ => l end)
  end.

Fixpoint wal_run (w : WalWriter) (l : Ledger) (ops : list WalOp) : WalWriter * Ledger :=
  match ops with
  | [] => (w, l)
  | op :: ops => let '(w, l) := wal_op w l op in wal_run w l ops
  end.

Definition op_typed (op : WalOp) : Prop :=
  match op with OpAppend _ b _ => wal_batch_u64 b | _ => True end.

(** A log of everything acknowledged, and at most part of one frame more. *)
Definition stopped (start : Z) (w : WalWriter) (l : Ledger) : Prop :=
  1 ≤ start ≤ u64_max ∧ poisoned w = true ∧
  ∃ extra k, (length extra ≤ 1)%nat ∧ contiguous start (acked l ++ extra)
    ∧ (length (wal_image (acked l)) ≤ k)%nat
    ∧ contents (file w) = take k (wal_image (acked l ++ extra)).

Definition wal_ok (start : Z) (w : WalWriter) (l : Ledger) : Prop :=
  durable l `prefix_of` acked l
  ∧ (length (wal_image (durable l)) ≤ stable (file w) ≤ length (contents (file w)))%nat
  ∧ (healthy start (acked l) w ∨ stopped start w l).

Lemma given_up_stopped start l b w : given_up start (acked l) b w → stopped start w l.
Proof.
  intros (Hs & Hc & Hp & _ & k & Hcont). split_and!; [lia|lia|done|].
  exists [b], (length (wal_image (acked l)) + k)%nat. split_and!; [done|done|lia|].
  rewrite Hcont, wal_image_snoc, take_app_ge by lia. do 2 f_equal. lia.
Qed.

Lemma append_ok start w l b d space w' r :
  wal_ok start w l → wal_batch_u64 b → append space w b d = (w', r) →
  wal_ok start w' (match r with Ok _ => ack l b d | Err _ => l end).
Proof.
  intros (Hdur & Hst & Hw) Hb Happ. destruct Hw as [Hw|Hw].
  - pose proof Hw as (_ & _ & Hcont & _). apply (append_outcome_holds start (acked l)) in Happ; [|done|done].
    destruct Happ as [e|w' e _ _ Hg Hs'|w' _ _ Hg Hs'].
    + split; [done|]. split; [done|by left].
    + split_and!; [done|rewrite Hs'; lia| |right; by eapply given_up_stopped].
      by destruct Hg as (_ & _ & _ & ? & _).
    + pose proof Hg as (_ & _ & Hcont' & [_ Hend] & _). unfold wal_ok, ack; cbn [acked durable].
      split_and!; [|rewrite Hs'|done|by left].
      * destruct d; [by apply prefix_app_r|done].
      * destruct d; [lia|]. by rewrite Hcont'.
  - destruct Hw as (Hs & Hp & Hrest). unfold append in Happ. rewrite Hp in Happ.
    injection Happ as <- <-. split; [done|]. split; [done|by right].
Qed.

Lemma healthy_next_u64 start bs w : healthy start bs w → 1 ≤ next_sequence w < 2 ^ 64.
Proof.
  intros (Hs & Hc & _ & _ & _ & -> & _). unfold u64_max in Hs.
  assert (∀ s, 1 ≤ s < 2 ^ 64 → contiguous s bs → 1 ≤ next_after s bs < 2 ^ 64) as Hgen; [|apply Hgen; [lia|done]].
  clear Hs Hc. induction bs as [|b bs IH]; intros s Hs; cbn; [done|].
  intros ((? & Hlast & _) & ? & Hc). unfold u64_max in Hlast. apply IH; [lia|done].
Qed.

Lemma wal_op_ok start w l op :
  wal_ok start w l → op_typed op → wal_ok start (wal_op w l op).1 (wal_op w l op).2.
Proof.
  intros Hok Hop. destruct op as [space b d|space batch d|]; cbn [wal_op op_typed] in *.
  - destruct (append space w b d) as [w' r] eqn:E. by eapply append_ok.
  - unfold append_write_batch, append_encoded_write_batch.
    destruct (encode batch) as [encoded|e]; [|done].
    destruct (checked_add 64 _ _) as [last|] eqn:Hlast; [|done]. apply checked_add_Some in Hlast as [-> Hlast].
    fold (write_batch_frame w batch encoded).
    destruct (append space w (write_batch_frame w batch encoded) d) as [w' r] eqn:E. cbn [fst snd].
    pose proof (Z.mod_pos_bound (len (operations batch) - 1) (2 ^ 64) ltac:(lia)) as Hmod.
    destruct Hok as (Hd & Hst & [Hw|Hw]).
    + eapply append_ok; [|split|exact E]; [split; [done|split; [done|by left]]|..].
      all: unfold in_width; cbn [write_batch_frame first_sequence last_sequence].
      all: pose proof (healthy_next_u64 _ _ _ Hw); lia.
    + pose proof Hw as (_ & Hp & _). unfold append in E. rewrite Hp in E. injection E as <- <-.
      split; [done|]. split; [done|by right].
  - destruct Hok as (Hd & Hst & Hw). unfold sync. destruct (poisoned w) eqn:Hp.
    { split; [done|]. by split. }
    destruct Hw as [Hw|(_ & ? & _)]; [|congruence].
    pose proof Hw as (Hs & Hc & Hcont & [Hpos _] & Hoff & Hnext & _).
    pose proof (sync_data_spec (file w)) as (Hg1 & Hg2 & _ & Hg4).
    destruct (sync_data (file w)) as [g r]. cbn [fst snd] in *. destruct r as [[]|e]; cbn [is_ok fst snd] in *.
    + unfold wal_ok; cbn [acked durable file set_file]. rewrite Hg1, Hg4, Hcont.
      split_and!; [done|lia|lia|left]. unfold healthy, at_end; cbn [file set_file poisoned offset next_sequence].
      rewrite Hg1, Hg2, Hg4. split_and!; try done; lia.
    + unfold wal_ok; cbn [file set_file]. rewrite Hg1, Hg4. split_and!; [done|lia|lia|right].
      split_and!; [lia|lia|done|]. exists [], (length (wal_image (acked l))). cbn [file set_file].
      rewrite app_nil_r, Hg1, firstn_all. split_and!; [simpl; lia|done|lia|done].
Qed.

Lemma wal_run_ok start ops w l :
  wal_ok start w l → Forall op_typed ops → wal_ok start (wal_run w l ops).1 (wal_run w l ops).2.
Proof.
  intros Hok Hops. revert w l Hok; induction Hops as [|op ops Hop _ IH]; intros w l Hok; [done|].
  cbn [wal_run]. pose proof (wal_op_ok _ _ _ _ Hok Hop) as Hok'.
  destruct (wal_op w l op) as [w' l']. by apply IH.
Qed.

Lemma create_at_ok space reserve replies syncs start w :
  is_u64 start → create_at space reserve replies syncs start = Ok w →
  wal_ok start w {| acked := []; durable := [] |} ∧ healthy start [] w.
Proof.
  intros Hs. unfold create_at. destruct (Z.eqb_spec start 0); [done|].
  destruct (admit_space _ _ _ _) as [[]|]; [|done].
  destruct (write_all _ file_header) as [f r] eqn:Hw. destruct r as [[]|]; [|done].
  apply write_all_prefix in Hw as (k & _ & (Hf & Hfend & _ & _) & Hok); [|by split].
  rewrite (Hok eq_refl), firstn_all in Hf. cbn [contents] in Hf.
  pose proof (sync_data_spec f) as (Hg1 & Hg2 & _ & Hg4).
  destruct (sync_data f) as [g [[]|]]; [|done]. cbn [fst snd is_ok] in *. intros [= <-].
  assert (contents g = wal_image []) as Hg by (rewrite Hg1, Hf; done).
  assert (healthy start [] {| recovery_reserve_bytes := reserve; file := g;
    offset := Z.of_nat FILE_HEADER_BYTES; next_sequence := start; poisoned := false |}) as Hh.
  { unfold healthy, at_end, u64_max, in_width in *. cbn [file offset next_sequence poisoned].
    rewrite Hg2, Hg4, Hg1. destruct Hfend. split_and!; try done; try lia. }
  split; [|done]. split; [done|]. split; [|by left]. cbn [durable file].
  rewrite Hg4, <-Hg, Hg1. lia.
Qed.

Lemma wal_ok_crash start w l k :
  wal_ok start w l → (stable (file w) ≤ k ≤ length (contents (file w)))%nat → Z.of_nat k < 2 ^ 63 →
  ∃ bs t extra, log_file start bs t (take k (contents (file w)))
    ∧ durable l `prefix_of` bs ∧ bs `prefix_of` acked l ++ extra ∧ (length extra ≤ 1)%nat
    ∧ (k = length (contents (file w)) → acked l `prefix_of` bs)
    ∧ (poisoned w = false → extra = []).
Proof.
  intros (Hd & Hst & Hw) Hk Hmax.
  assert (∃ extra n, (length extra ≤ 1)%nat ∧ 1 ≤ start ∧ contiguous start (acked l ++ extra)
    ∧ contents (file w) = take n (wal_image (acked l ++ extra))
    ∧ (length (wal_image (acked l)) ≤ n)%nat ∧ (poisoned w = false → extra = []))
    as (extra & n & Hextra & Hs & Hc & Hcont & Hn & Hp).
  { destruct Hw as [(Hs & Hc & Hcont & _)|(Hs & Hp & extra & n & He & Hc & Hn & Hcont)].
    - exists [], (length (wal_image (acked l))). rewrite app_nil_r, firstn_all.
      split_and!; try done; simpl; lia.
    - exists extra, n. split_and!; try done; [lia|]. intros. congruence. }
  assert (length (wal_image (durable l)) ≤ k)%nat as Hdk by lia.
  assert (16 ≤ k)%nat by (unfold wal_image in Hdk; rewrite length_app, length_file_header in Hdk; lia).
  assert (take k (contents (file w)) = take k (wal_image (acked l ++ extra))) as Htake.
  { rewrite Hcont, take_take. f_equal. rewrite Hcont, length_take in Hk. lia. }
  destruct (cut_recovers start (acked l ++ extra) k) as (bs & t & Hlog & Hpre & Hbest); [done|done|lia| |].
  { unfold len. rewrite length_take. lia. }
  exists bs, t, extra. rewrite Htake. split_and!; try done.
  - apply Hbest; [|done]. etrans; [exact Hd|]. by apply prefix_app_r.
  - intros ->. apply Hbest; [by apply prefix_app_r|]. rewrite Hcont, length_take.
    rewrite wal_image_app, length_app. lia.
Qed.


(** C38: recovery is exact: it accepts precisely the files that are a valid header, a
    contiguous run of intact frames and at most one incomplete frame, and reports exactly
    those frames, where they end, and the incomplete frame as a torn tail; every other file
    is an error. *)
Theorem wal_recovery_exact file start r :
  0 ≤ start → len file < 2 ^ 63 →
  recover_from file start = Ok r ↔ ∃ bs t, log_file start bs t file ∧ r = recovery_of start bs t.
Proof.
  intros Hs Hmax. split.
  - by apply recover_sound.
  - intros (bs & t & Hlog & ->). by apply recover_complete.
Qed.


Lemma open_at_ok reserve f start bs :
  log_file start bs [] (contents f) → start ≤ u64_max → (stable f ≤ length (contents f))%nat →
  ∃ w, open_at reserve f start = Ok w ∧ healthy start bs w ∧ contents (file w) = contents f.
Proof.
  intros Hlog Hu Hst. unfold open_at.
  assert (∀ l, try_fold (E := Error) (λ (_ : unit) (_ : RecoveredBatch), Ok tt) tt l = Ok tt) as Hunit
    by (induction l; done).
  destruct (replay_file_complete (λ _ _, Ok tt) start bs [] (contents f) tt tt Hlog (Hunit _)) as [pb ->].
  destruct Hlog as (Hs & Hc & Hcont & _ & Hmax). rewrite app_nil_r in Hcont.
  unfold from_recovered_file, summary_of. rewrite decide_True by done.
  cbn [sum_torn_tail sum_recovered_through sum_valid_bytes].
  assert (healthy start bs {| recovery_reserve_bytes := reserve;
    file := {| contents := contents f; position := length (contents f); stable := stable f;
               write_replies := write_replies f; sync_replies := sync_replies f |};
    offset := len (wal_image bs); next_sequence := next_after start bs; poisoned := false |}) as Hh.
  { split_and!; try done; lia. }
  pose proof (healthy_next_u64 _ _ _ Hh) as Hn. cbn [next_sequence] in Hn. unfold checked_add.
  rewrite (proj2 (Z.ltb_lt _ _)) by lia. cbn [ok_or]. eexists. split; [done|].
  rewrite Z.sub_add. replace (Z.to_nat (len (wal_image bs))) with (length (contents f))
    by (rewrite Hcont; unfold len; lia). done.
Qed.

(** Repair removes the incomplete last frame and nothing else: on a log with a torn tail
    it truncates the file to the complete frames, reports exactly them, and the file then
    opens as a healthy writer; a file that recovery rejects is left untouched. *)
Theorem wal_repair_exact f start reserve :
  (∀ e, recover_from (contents f) start = Err e → repair_torn_tail_from f start = (f, Err e))
  ∧ (∀ bs t, log_file start bs t (contents f) → start ≤ u64_max →
       (stable f ≤ length (contents f))%nat → is_ok (sync_data f).2 = true →
       ∃ f', repair_torn_tail_from f start = (f', Ok (recovery_of start bs []))
         ∧ contents f' = wal_image bs
         ∧ ∃ w, open_at reserve f' start = Ok w ∧ healthy start bs w).
Proof.
  split.
  - intros e. unfold recover_from, repair_torn_tail_from.
    destruct (replay_file collect (contents f) start []) as [[sum bs]|e']; congruence.
  - intros bs t Hlog Hu Hst Hsync. unfold repair_torn_tail_from.
    destruct (replay_file_complete collect start bs t (contents f) [] _ Hlog (try_fold_collect _ _))
      as [pb ->]. pose proof Hlog as (Hs & Hc & Hcont & Ht & Hmax).
    assert (log_file start bs [] (wal_image bs)) as Hlog'.
    { split_and!; [done|done|by rewrite app_nil_r|by left|].
      rewrite Hcont, len_app in Hmax. pose proof (len_nonneg t). lia. }
    cbn [sum_torn_tail sum_recovered_through sum_valid_bytes summary_of app].
    destruct (decide (t = [])) as [->|Hne]; rewrite ?app_nil_r in Hcont.
    + exists f. split_and!; [unfold recovery_of; by rewrite decide_True|done|].
      rewrite <-Hcont in Hlog'. destruct (open_at_ok reserve f start bs Hlog' Hu Hst) as (w & ? & ? & _). eauto.
    + set (f0 := {| contents := _ |}).
      assert (contents f0 = wal_image bs) as Hf0.
      { unfold f0; cbn [contents]. rewrite Hcont. apply take_app_length'. unfold len; lia. }
      pose proof (sync_data_spec f0) as (Hg1 & _ & _ & Hg4).
      assert (is_ok (sync_data f0).2 = true) as Hok.
      { unfold sync_data in *. cbn [f0 sync_replies]. by destruct (sync_replies f) as [|[e|] qs]. }
      destruct (sync_data f0) as [g [[]|]]; [|done]. cbn [fst snd is_ok] in *.
      exists g. split_and!; [unfold recovery_of; by rewrite decide_True|congruence|].
      rewrite <-Hf0, <-Hg1 in Hlog'.
      destruct (open_at_ok reserve g start bs Hlog' Hu) as (w & ? & ? & _); [rewrite Hg4, Hg1; lia|]. eauto.
Qed.

Lemma recovered_batches_app off bs cs :
  recovered_batches off (bs ++ cs)
  = recovered_batches off bs ++ recovered_batches (off + len (log_bytes bs)) cs.
Proof.
  revert off; induction bs as [|b bs IH]; intros off.
  - cbn. by rewrite Z.add_0_r.
  - cbn [recovered_batches app]. rewrite IH, log_bytes_cons, len_app. by rewrite Z.add_assoc.
Qed.

(** Write batches travel through the log intact: after [append_write_batch] has
    acknowledged a batch, recovery returns what was there before and one more frame, whose
    payload decodes to that batch and whose sequence range has one number per operation. *)
Theorem wal_write_batch_roundtrip space w start bs ops batch d w' receipt :
  healthy start bs w → WriteBatch_new ops = Ok batch →
  append_write_batch space w batch d = (w', Ok receipt) → len (contents (file w')) < 2 ^ 63 →
  ∃ r, recover_from (contents (file w')) start = Ok
      {| batches := recovered_batches (Z.of_nat FILE_HEADER_BYTES) bs ++ [r];
         recovered_through := next_sequence w + len ops - 1;
         valid_bytes := receipt_end_offset receipt; torn_tail := None |}
    ∧ decode (rec_payload r) = Ok batch ∧ rec_first r = next_sequence w
    ∧ rec_last r - rec_first r + 1 = len ops ∧ rec_offset r = receipt_offset receipt
    ∧ rec_checksum r = receipt_checksum receipt.
Proof.
  intros Hw Hnew Happ Hmax. pose proof Hw as (Hs & _ & Hcont & _ & Hoff & _).
  pose proof Hnew as (Hne & Hn & Hv & Hbytes & ->)%WriteBatch_new_ok. cbn in Hn.
  assert (1 ≤ len ops) as H1.
  { pose proof (len_nonneg ops). pose proof (len_zero ops). destruct (decide (len ops = 0)); [naive_solver|lia]. }
  revert Happ. unfold append_write_batch. rewrite encode_ok by done. unfold append_encoded_write_batch.
  cbn [operations]. destruct (checked_add 64 _ _) as [last|] eqn:Hlast; [|done].
  apply checked_add_Some in Hlast as [-> Hlast].
  rewrite Z.mod_small in * by (unfold_limits; lia). intros Happ.
  apply (append_outcome_holds start bs) in Happ; [|done|].
  2:{ pose proof (healthy_next_u64 _ _ _ Hw). unfold wal_batch_u64, in_width; cbn. lia. }
  inversion Happ as [| |w'' _ _ Hh _]; subst. destruct Hh as (_ & Hc & Hcont' & _).
  set (b := {| first_sequence := _ |}) in *.
  exists (recovered_batch (offset w) b). split_and!; try done.
  - rewrite Hcont' in Hmax |- *. rewrite (recover_complete start (bs ++ [b]) []).
    + unfold recovery_of. rewrite decide_True by done. rewrite recovered_batches_app. f_equal. f_equal.
      * rewrite Hoff, len_wal_image. done.
      * rewrite next_after_app. cbn. lia.
      * cbn [receipt_of receipt_end_offset]. by rewrite wal_image_snoc, len_app, Hoff.
    + split_and!; [lia|done|by rewrite app_nil_r|by left|done].
  - cbn [rec_payload recovered_batch b payload]. rewrite decode_batch_encoding by done. done.
  - cbn. lia.
Qed.

(** ** Bounded recovery *)

Definition without_budget {R} (st : ReplayState (R := R)) : ReplayState := {|
  rs_offset := rs_offset st; expected_sequence := expected_sequence st;
  payload_bytes := payload_bytes st; rs_budget := None; unread := unread st;
  replayed := replayed st
|}.

Definition passes (bs : list WalBatch) (torn : option Z) : Z :=
  len bs + match torn with Some _ => 1 | None => 0 end.

Lemma bounded_loop {R} elapsed (replay : R → RecoveredBatch → result Error R) fuel length st st' torn b :
  loop_inv length st → (List.length (unread st) ≤ fuel)%nat → rs_budget st = Some b →
  within elapsed b →
  replay_loop elapsed replay fuel length st = Ok (st', torn) →
  replay_loop (λ _, 0) replay fuel length (without_budget st) = Ok (without_budget st', torn)
  ∧ ∃ b' bs t, rs_budget st' = Some b' ∧ within elapsed b' ∧ limits b' = limits b
    ∧ unread st = log_bytes bs ++ t ∧ contiguous (expected_sequence st) bs
    ∧ match torn with None => t = [] | Some _ => incomplete (next_after (expected_sequence st) bs) t end
    ∧ frames b' = frames b + passes bs torn.
Proof.
  revert st b; induction fuel as [|fuel IH]; intros st b Hinv Hfuel Hbud Hwithin; cbn [replay_loop].
  { intros [= <- <-]. split; [done|]. exists b, [], []. unfold passes. change (len (@nil WalBatch)) with 0.
    destruct (unread st); [|simpl in Hfuel; lia]. split_and!; try done; lia. }
  cbn [rs_offset without_budget]. destruct (Z.ltb_spec (rs_offset st) length) as [Hlt|Hge].
  2:{ intros [= <- <-]. split; [done|]. exists b, [], []. unfold passes. change (len (@nil WalBatch)) with 0.
      destruct Hinv as (_ & Hlen & _).
      assert (unread st = []) as -> by (apply len_zero; pose proof (len_nonneg (unread st)); lia).
      split_and!; try done; lia. }
  destruct (replay_step elapsed replay length st) as [[st1 torn1]|] eqn:Hstep; [|done].
  apply replay_step_inv in Hstep as (bud & Hcharge & Hstep); [|done|done].
  rewrite Hbud in Hcharge. cbn [charge] in Hcharge.
  destruct (charge_frame elapsed b) as [b1|] eqn:Hb1; [|done]. injection Hcharge as <-.
  pose proof (charge_frame_within _ _ _ Hwithin Hb1) as Hw1.
  apply charge_frame_ok in Hb1 as (t1 & [_ ->]%tick_ok & _ & Hb1).
  assert (loop_inv length (without_budget st)) as Hinv' by done.
  destruct torn1 as [at_|].
  - destruct Hstep as (-> & -> & Hinc). intros [= <- <-].
    rewrite (replay_step_torn _ _ _ (without_budget st) None Hinv' eq_refl Hinc). split; [done|].
    exists b1, [], (unread st). unfold passes. change (len (@nil WalBatch)) with 0. subst b1.
    cbn [limits frames] in *. split_and!; try done; lia.
  - destruct Hstep as (c & rest & r & Hc & Hfirst & Hun & Hr & ->). intros Hloop.
    rewrite (replay_step_frame _ _ _ (without_budget st) c rest None r Hinv' eq_refl Hc Hfirst Hun Hr).
    apply (IH _ b1) in Hloop as (Hloop & b' & bs & t & Hb' & Hw' & Hlim & Hrest & Hcs & Htorn & Hfr).
    + split; [exact Hloop|]. exists b', (c :: bs), t. cbn [advance unread expected_sequence] in *.
      rewrite log_bytes_cons, <-app_assoc, <-Hrest. unfold passes in *. rewrite len_cons.
      subst b1. cbn [frames limits] in *. split_and!; try done; lia.
    + by apply advance_inv.
    + rewrite Hun, length_app in Hfuel. pose proof (len_frame c). unfold len in *. cbn [advance unread]. lia.
    + done.
    + done.
Qed.

(** A budget only ever refuses: whatever the clock shows, a bounded replay that succeeds
    returns what the unbounded replay returns, within the limits it was given, having paid
    one frame for each batch and for a torn tail. *)
Theorem wal_bounded_replay_agrees {R} elapsed (replay : R → RecoveredBatch → result Error R)
    file start b init sum b' r :
  0 ≤ start → len file < 2 ^ 63 → within elapsed b →
  replay_file_bounded elapsed replay file start b init = Ok (sum, b', r) →
  replay_file replay file start init = Ok (sum, r)
  ∧ ∃ b1 bs t, b' = Some b1 ∧ within elapsed b1 ∧ limits b1 = limits b
    ∧ len file ≤ wal_bytes_limit (limits b) ∧ log_file start bs t file
    ∧ frames b1 = frames b + passes bs (sum_torn_tail sum).
Proof.
  intros Hs Hmax Hwithin. unfold replay_file_bounded, replay_file, replay_file_inner.
  destruct (Z.eqb_spec start 0); [done|]. cbn [charge].
  destruct (charge_wal elapsed b (len file)) as [b0|] eqn:Hb0; [|done].
  apply budget_check_cases in Hb0 as [Hwal Hfile0].
  pose proof (charge_file_within _ _ _ _ Hwithin Hfile0) as Hw0.
  apply charge_file_ok in Hfile0 as (t0 & [_ ->]%tick_ok & _ & _ & Hb0).
  destruct (Z.ltb_spec (len file) (Z.of_nat FILE_HEADER_BYTES)) as [|Hlen]; [done|].
  destruct (read_exact file FILE_HEADER_BYTES) as [[header rest]|] eqn:Hread; [|done].
  assert (file = header ++ rest ∧ length header = 16%nat) as [Hsplit Hh].
  { revert Hread. unfold read_exact. destruct (Nat.ltb_spec (length file) FILE_HEADER_BYTES); [done|].
    intros [= <- <-]. rewrite take_drop, length_take. unfold FILE_HEADER_BYTES in *. split; [done|lia]. }
  destruct (validate_file_header header) as [[]|] eqn:Hval; [|done].
  apply validate_file_header_inv in Hval as ->; [|done].
  destruct (replay_loop elapsed replay _ _ _) as [[st torn]|] eqn:Hloop; [|done].
  eapply bounded_loop in Hloop as (Hloop & b1 & bs & t & Hb1 & Hw1 & Hlim & Hun & Hc & Htorn & Hfr);
    [|split_and!; cbn [payload_bytes rs_offset unread]|done|done|done].
  2-5: rewrite ?Hsplit, ?len_app in *; unfold FILE_HEADER_BYTES, len in *; lia.
  unfold without_budget in Hloop.
  cbn [rs_offset expected_sequence payload_bytes unread replayed rs_budget] in *.
  rewrite Hloop, Z.eqb_refl.
  cbn [negb rs_budget charge rs_offset expected_sequence payload_bytes replayed].
  rewrite Hb1. cbn [charge]. destruct (tick elapsed b1) as [b2|] eqn:Hb2; [|done]. intros [= <- <- <-].
  split; [done|]. pose proof (tick_within _ _ _ Hw1 Hb2). apply tick_ok in Hb2 as [_ ->].
  eexists _, bs, t. split; [done|]. cbn [limits frames sum_torn_tail]. split_and!; [done| |done| |].
  - by rewrite Hlim, Hb0.
  - split_and!; [lia|done| | |done].
    + unfold wal_image. by rewrite <-app_assoc, <-Hun.
    + destruct torn; [by right|by left].
  - rewrite Hfr, Hb0. done.
Qed.
End Wal.

(** * The polynomial of the crate, for concrete runs *)

Definition CASTAGNOLI : Z := 2197175160.
Definition crc_bit (c : Z) : Z :=
  Z.lxor (Z.shiftr c 1) (if Z.testbit c 0 then CASTAGNOLI else 0).
Definition crc_byte (c : Z) (b : byte) : Z := Nat.iter 8 crc_bit (Z.lxor c (u8_val b)).
Definition castagnoli : Crc32c := λ c l,
  Z.lxor (fold_left crc_byte l (Z.lxor c (2 ^ 32 - 1))) (2 ^ 32 - 1).

Lemma lxor_u32 a b : is_u32 a → is_u32 b → is_u32 (Z.lxor a b).
Proof.
  unfold in_width. intros Ha Hb. split; [apply Z.lxor_nonneg; lia|].
  destruct (decide (Z.lxor a b = 0)) as [->|Hne]; [lia|].
  assert (0 ≤ Z.lxor a b) by (apply Z.lxor_nonneg; lia).
  apply Z.log2_lt_pow2; [lia|]. eapply Z.le_lt_trans; [apply Z.log2_lxor; lia|].
  assert (∀ z, 0 ≤ z < 2 ^ 32 → Z.log2 z < 32) as Hl.
  { intros z Hz. destruct (decide (z = 0)) as [->|]; [done|]. apply Z.log2_lt_pow2; lia. }
  apply Z.max_lub_lt; by apply Hl.
Qed.

Lemma crc_bit_u32 c : is_u32 c → is_u32 (crc_bit c).
Proof.
  intros Hc. unfold crc_bit. apply lxor_u32.
  - unfold in_width in *. rewrite Z.shiftr_div_pow2 by lia. change (2 ^ 1) with 2.
    split; [apply Z.div_pos; lia|]. apply Z.div_lt_upper_bound; lia.
  - destruct (Z.testbit c 0); unfold in_width, CASTAGNOLI; lia.
Qed.

Lemma crc_bits_u32 n c : is_u32 c → is_u32 (Nat.iter n crc_bit c).
Proof. intros Hc. induction n as [|n IH]; [done|]. cbn [Nat.iter nat_rect]. by apply crc_bit_u32. Qed.

Lemma crc_byte_u32 c b : is_u32 c → is_u32 (crc_byte c b).
Proof.
  intros Hc. unfold crc_byte. apply crc_bits_u32, lxor_u32; [exact Hc|].
  pose proof (u8_val_bound b). unfold in_width. lia.
Qed.

#[local] Instance castagnoli_laws : @Crc32cLaws castagnoli.
Proof.
  intros c l Hc. assert (is_u32 (2 ^ 32 - 1)) as Hm by (unfold in_width; lia).
  unfold crc32c_append, castagnoli. apply lxor_u32; [|exact Hm].
  apply (fold_left_inv is_u32); [by apply lxor_u32|exact crc_byte_u32].
Qed.

(** The published check value, as the test of wal.rs has it. *)
Example crc32c_check_value : @crc32c castagnoli [str_bytes "123456789"] = 3808858755.
Proof. vm_compute. reflexivity. Qed.

(** Concrete runs: a new log, an interrupted and shortened append, a sync that fails. *)
Definition sample_batch : WalBatch :=
  {| first_sequence := 1; last_sequence := 2; payload := str_bytes "two mutations" |}.
Definition sample_replies : list WriteReply := [Wrote 40; Interrupted; Wrote 7; Wrote 100].
Definition no_space : result string Space := Err "not read".

Definition sample_writer : WalWriter :=
  match @create_at castagnoli no_space 0 sample_replies [None; None; Some "EIO"] 1 with
  | Ok w => w
  | Err _ => {| recovery_reserve_bytes := 0; next_sequence := 0; offset := 0; poisoned := true;
                file := {| contents := []; position := 0; stable := 0; write_replies := [];
                           sync_replies := [] |} |}
  end.

Lemma sample_writer_healthy : @healthy castagnoli 1 [] sample_writer.
Proof.
  refine (proj2 (@create_at_ok castagnoli no_space 0 sample_replies
    [None; None; Some "EIO"] 1 sample_writer _ _)); [unfold in_width; lia|vm_compute; reflexivity].
Qed.

Definition next_batch : WalBatch :=
  {| first_sequence := 3; last_sequence := 3; payload := str_bytes "one more" |}.
Definition sample_ledger : Ledger := {| acked := []; durable := [] |}.
Definition sample_run : list WalOp :=
  [OpAppend no_space sample_batch Authoritative; OpAppend no_space next_batch Buffered; OpSync].
Definition sample_end : WalWriter := (@wal_run castagnoli sample_writer sample_ledger sample_run).1.
Definition sample_file : list byte := take 70 (contents (file sample_end)).

(** The run ends with a failed sync after both frames were written; 61 bytes are stable. *)
Example sample_end_state :
  poisoned sample_end = true ∧ stable (file sample_end) = 61%nat
  ∧ length (contents (file sample_end)) = 101%nat.
Proof. vm_compute. done. Qed.


Lemma wal_recovery_exact_witness :
  ∃ bs t, log_file (H := castagnoli) 1 bs t sample_file
    ∧ {| batches := @recovered_batches castagnoli 16 [sample_batch]; recovered_through := 2;
         valid_bytes := 61; torn_tail := Some 61 |} = @recovery_of castagnoli 1 bs t.
Proof.
  apply (proj1 (@wal_recovery_exact castagnoli castagnoli_laws sample_file 1 _
    ltac:(lia) ltac:(vm_compute; reflexivity))).
  vm_compute. reflexivity.
Defined.


Definition torn_handle : FileHandle :=
  {| contents := sample_file; position := 0; stable := 61; write_replies := []; sync_replies := [] |}.

Lemma wal_repair_exact_witness :
  ∃ f', @repair_torn_tail_from castagnoli torn_handle 1 = (f', Ok (@recovery_of castagnoli 1 [sample_batch] []))
    ∧ contents f' = @wal_image castagnoli [sample_batch]
    ∧ ∃ w, @open_at castagnoli 0 f' 1 = Ok w ∧ @healthy castagnoli 1 [sample_batch] w.
Proof.
  refine (proj2 (@wal_repair_exact castagnoli castagnoli_laws torn_handle 1 0) [sample_batch]
    (take 9 (@frame castagnoli next_batch)) _ _ _ _).
  - unfold log_file, incomplete. split_and!.
    + lia.
    + vm_compute. split_and!; done.
    + vm_compute. reflexivity.
    + right. split; [vm_compute; congruence|left; vm_compute; reflexivity].
    + vm_compute. reflexivity.
  - vm_compute. congruence.
  - vm_compute. lia.
  - reflexivity.
Defined.

Lemma wal_write_batch_roundtrip_witness :
  ∃ w' receipt r,
    @append_write_batch castagnoli no_space sample_writer
      {| operations := sample_ops; encoded_len := 57 |} Buffered = (w', Ok receipt)
    ∧ @recover_from castagnoli (contents (file w')) 1 = Ok
      {| batches := @recovered_batches castagnoli (Z.of_nat FILE_HEADER_BYTES) [] ++ [r];
         recovered_through := next_sequence sample_writer + len sample_ops - 1;
         valid_bytes := receipt_end_offset receipt; torn_tail := None |}
    ∧ decode (rec_payload r) = Ok {| operations := sample_ops; encoded_len := 57 |}.
Proof.
  destruct (@append_write_batch castagnoli no_space sample_writer
    {| operations := sample_ops; encoded_len := 57 |} Buffered) as [w' [receipt|e]] eqn:E;
    [|vm_compute in E; congruence].
  exists w', receipt.
  destruct (@wal_write_batch_roundtrip castagnoli castagnoli_laws no_space sample_writer 1 [] sample_ops
    {| operations := sample_ops; encoded_len := 57 |} Buffered w' receipt sample_writer_healthy
    ltac:(vm_compute; reflexivity) E) as (r & Hr & Hd & _).
  { vm_compute in E. injection E as <- _. vm_compute. reflexivity. }
  exists r. split; [reflexivity|]. split; [exact Hr|exact Hd].
Defined.

Lemma wal_bounded_replay_agrees_witness :
  ∃ sum b' r, @replay_file_bounded castagnoli _ (λ n, Z.of_nat n) collect sample_file 1
      (RecoveryBudget_new RecoveryLimits_default) [] = Ok (sum, b', r)
    ∧ @replay_file castagnoli _ collect sample_file 1 [] = Ok (sum, r).
Proof.
  destruct (@replay_file_bounded castagnoli _ (λ n, Z.of_nat n) collect sample_file 1
      (RecoveryBudget_new RecoveryLimits_default) []) as [[[sum b'] r]|e] eqn:E;
    [|vm_compute in E; congruence].
  exists sum, b', r. split; [reflexivity|].
  refine (proj1 (@wal_bounded_replay_agrees castagnoli castagnoli_laws _ (λ n, Z.of_nat n) collect
    sample_file 1 (RecoveryBudget_new RecoveryLimits_default) [] sum b' r _ _ _ E)).
  - lia.
  - vm_compute. reflexivity.
  - unfold within. split_and!; [apply Z.leb_le; reflexivity..|].
    intros n Hn. exact (False_ind _ (Nat.nlt_0_r _ Hn)).
Defined.
