(* ===== verification/Filesystem.v ===== *)
(** The file system under the control records ([rrd-lsm]: filesystem.rs and filesystem/io.rs, the
    calls that publish a file).

    A disk has the entries the directories show now and, beside them, what a power loss may
    bring back: every entry a name had since its directory was last synced.  The bytes of a
    file that has not been synced are lost to a power loss.  The operating system answers
    every call from a list of replies: it can carry it out, fail with any part of the effect
    done, or the process can die there.

    Theorem: publishing a file under a temporary name, syncing it and renaming it never
    exposes a torn file.  Whatever the replies, the target is what it was or the whole new
    file in every state a power loss can leave, and only the new file after success. *)

From S2P Require Import Prelude Machine LsmError Digest Batch RecoveryBudget Wal.
Open Scope Z_scope.

(** * The disk *)

Inductive Directory := Root | Manifests | Checkpoints | Segments | Wals.
#[export] Instance directory_eq_dec : EqDecision Directory.
Proof. solve_decision. Defined.
#[export] Instance directory_countable : Countable Directory.
Proof.
  apply (inj_countable' (λ d, match d with Root => 0 | Manifests => 1 | Checkpoints => 2 | Segments => 3 | Wals => 4 end)%nat
    (λ n, match n with 0 => Root | 1 => Manifests | 2 => Checkpoints | 3 => Segments | _ => Wals end)%nat).
  by intros [].
Defined.

(** A name in a directory. *)
Definition Path : Type := Directory * string.

Record File := { bytes : list byte; durable : bool }.
Inductive Entry := RegularFile (f : File) | SubDirectory | Irregular.

(** [stale] are the entries names have had since their directories were synced. *)
Record Disk := { live : gmap Path Entry; stale : list (Path * option Entry) }.

(** What a power loss may find under a name. *)
Definition may_hold (d : Disk) (p : Path) (e : option Entry) : Prop := live d !! p = e ∨ (p, e) ∈ stale d.

(** An entry across a power loss: bytes that were not synced are arbitrary. *)
Definition weathered (before after : option Entry) : Prop :=
  match before with
  | Some (RegularFile f) => ∃ f', after = Some (RegularFile f') ∧ durable f' = true ∧ (durable f = true → bytes f' = bytes f)
  | e => after = e
  end.
Definition survives (d d' : Disk) : Prop :=
  stale d' = [] ∧ ∀ p, ∃ e, may_hold d p e ∧ weathered e (live d' !! p).

(** * Calls *)

(** Errors of calls; a call that finds nothing under a name is told apart. *)
Inductive IoError := NotFound | OtherIo (reason : string).
Definition io_text (e : IoError) : string := match e with NotFound => "entity not found" | OtherIo reason => reason end.

(** How a call ends: it is carried out, or it fails or the process dies with some of its effect
    done, [amount] bytes of a write and all of any other call unless [amount] is zero. *)
Inductive Reply := Proceeds | Fails (reason : string) (amount : nat) | Dies (amount : nat).

(** A process: the disk, the replies to come (used up, every call is carried out), the readings
    of the free space, the counter of temporary names, and whether a publication is uncertain. *)
Record World := {
  disk : Disk; replies : list Reply; spaces : list (result string Space); temporary_id : Z; publication_uncertain : bool
}.
Definition set_disk (w : World) (d : Disk) : World :=
  {| disk := d; replies := replies w; spaces := spaces w; temporary_id := temporary_id w; publication_uncertain := publication_uncertain w |}.
Definition next_reply (w : World) : World :=
  {| disk := disk w; replies := tail (replies w); spaces := spaces w; temporary_id := temporary_id w; publication_uncertain := publication_uncertain w |}.
Definition set_uncertain (w : World) : World :=
  {| disk := disk w; replies := replies w; spaces := spaces w; temporary_id := temporary_id w; publication_uncertain := true |}.

(** Code that makes calls; [None] is a process that died. *)
Definition io (E A : Type) : Type := World → World * option (result E A).
Definition io_ret {E A} (x : A) : io E A := λ w, (w, Some (Ok x)).
Definition io_fail {E A} (e : E) : io E A := λ w, (w, Some (Err e)).
Definition io_lift {E A} (r : result E A) : io E A := λ w, (w, Some r).
Definition io_bind {E A B} (m : io E A) (k : A → io E B) : io E B := λ w,
  match m w with
  | (w, Some (Ok x)) => k x w
  | (w, Some (Err e)) => (w, Some (Err e))
  | (w, None) => (w, None)
  end.
(** The result of a call, as a value. *)
Definition attempt {E F A} (m : io E A) : io F (result E A) := λ w,
  match m w with (w, Some r) => (w, Some (Ok r)) | (w, None) => (w, None) end.
Notation "'let!' x ':=' e 'in' k" := (io_bind e (λ x, k)) (at level 10, x pattern, e at level 100, k at level 200) : rust_scope.

Definition map_err {E F A} (f : E → F) (m : io E A) : io F A :=
  let! r := attempt m in match r with Ok x => io_ret x | Err e => io_fail (f e) end.
(** [?] on an [io::Result] where the crate's error is expected *)
Definition question {A} (m : io IoError A) : io Error A := map_err (λ e, Io (io_text e)) m.
(** [Error::io(operation, path, error)] *)
Definition context {A} (operation path : string) (m : io IoError A) : io Error A := map_err (λ e, IoContext operation path (io_text e)) m.

(** A call that changes the disk, and what a part of it changes. *)
Definition effect (all : Disk → Disk) (part : nat → Disk → Disk) : io IoError unit := λ w,
  let v := next_reply w in
  match replies w with
  | [] | Proceeds :: _ => (set_disk v (all (disk w)), Some (Ok tt))
  | Fails reason amount :: _ => (set_disk v (part amount (disk w)), Some (Err (OtherIo reason)))
  | Dies amount :: _ => (set_disk v (part amount (disk w)), None)
  end.
Definition whole (all : Disk → Disk) (amount : nat) (d : Disk) : Disk := if (amount =? 0)%nat then d else all d.
(** A call that only looks. *)
Definition observe {A} (f : Disk → result IoError A) : io IoError A := λ w,
  let v := next_reply w in
  match replies w with
  | [] | Proceeds :: _ => (v, Some (f (disk w)))
  | Fails reason _ :: _ => (v, Some (Err (OtherIo reason)))
  | Dies _ :: _ => (v, None)
  end.

Definition set_entry (p : Path) (e : option Entry) (d : Disk) : Disk :=
  {| live := partial_alter (λ _, e) p (live d); stale := (p, live d !! p) :: stale d |}.
Definition sync_entries (directory : Directory) (d : Disk) : Disk :=
  {| live := live d; stale := filter (λ x, x.1.1 ≠ directory) (stale d) |}.
(** The bytes of a file change in place. *)
Definition set_file (p : Path) (f : File) (d : Disk) : Disk := {| live := <[p := RegularFile f]> (live d); stale := stale d |}.

(** lsm/filesystem.rs:350-362 AnchoredPath::metadata *)
Definition metadata (p : Path) : io IoError Entry :=
  observe (λ d, match live d !! p with
    | Some Irregular => Err (OtherIo "nonregular filesystem object denied") | Some e => Ok e | None => Err NotFound end).
(** lsm/filesystem.rs:364-370 AnchoredPath::try_exists *)
Definition try_exists (p : Path) : io IoError bool :=
  let! r := attempt (metadata p) in
  match r with Ok _ => io_ret true | Err NotFound => io_ret false | Err e => io_fail e end.
(** lsm/filesystem.rs:380-388 AnchoredPath::read *)
Definition read (p : Path) : io IoError (list byte) :=
  observe (λ d, match live d !! p with
    | Some (RegularFile f) => Ok (bytes f) | Some _ => Err (OtherIo "not a regular file") | None => Err NotFound end).
(** lsm/filesystem.rs:402-406 AnchoredPath::entries *)
Definition entries (directory : Directory) : io IoError (list string) :=
  observe (λ d, Ok (omap (λ x : Path * Entry, if decide (x.1.1 = directory) then Some x.1.2 else None) (map_to_list (live d)))).
(** [Path::extension] and [Path::file_stem] of a name with that extension *)
Definition has_extension (extension name : string) : bool :=
  (bool_decide (str_bytes ("." +:+ extension) `suffix_of` str_bytes name) && negb (bool_decide (name = "." +:+ extension)))%bool.
Definition file_stem (extension name : string) : string := bytes_str (take (length (str_bytes name) - length (str_bytes ("." +:+ extension))) (str_bytes name)).
(** lsm/filesystem.rs:408-423 AnchoredPath::sync_directory *)
Definition sync_directory (directory : Directory) : io IoError unit :=
  effect (sync_entries directory) (whole (sync_entries directory)).

(** lsm/filesystem.rs:542-571 OpenOptions::open, of a new file *)
Definition create_new (p : Path) : io IoError unit := λ w,
  let all := set_entry p (Some (RegularFile {| bytes := []; durable := false |})) in
  match live (disk w) !! p with
  | Some _ => (w, Some (Err (OtherIo "file exists")))
  | None => effect all (whole all) w
  end.
(** lsm/filesystem/io.rs:51-61 write_all, of a new file *)
Definition write_file (p : Path) (content : list byte) : io IoError unit :=
  effect (set_file p {| bytes := content; durable := false |}) (λ n, set_file p {| bytes := take n content; durable := false |}).
(** lsm/filesystem/io.rs:75-87 sync_all *)
Definition sync_all (p : Path) : io IoError unit :=
  let all d := match live d !! p with Some (RegularFile f) => set_file p {| bytes := bytes f; durable := true |} d | _ => d end in
  effect all (whole all).

(** lsm/filesystem.rs:471-500 AnchoredPath::rename_to *)
Definition rename_to (p target : Path) : io IoError unit :=
  let all d := set_entry p None (set_entry target (live d !! p) d) in
  let! _ := (λ w, match live (disk w) !! p with None => (w, Some (Err NotFound)) | Some _ => effect all (whole all) w end) in
  let! _ := sync_directory p.1 in
  sync_directory target.1.
(** lsm/filesystem.rs:425-440 AnchoredPath::remove_file *)
Definition remove_file (p : Path) : io IoError unit :=
  let! _ := (λ w, match live (disk w) !! p with None => (w, Some (Err NotFound)) | Some _ => effect (set_entry p None) (whole (set_entry p None)) w end) in
  sync_directory p.1.

(** lsm/filesystem.rs:575-594 persist_rename *)
Definition persist_rename_file (temporary target : Path) (content : list byte) : io IoError unit :=
  let! _ := create_new temporary in
  let! result := attempt (
    let! _ := write_file temporary content in
    let! _ := sync_all temporary in
    rename_to temporary target) in
  match result with
  | Ok _ => io_ret tt
  | Err e => let! _ := attempt (E := IoError) (remove_file temporary) in io_fail e
  end.

(** lsm/filesystem.rs:119-121 AnchoredPath::admit_disk, with the next reading of the free space *)
Definition admit_disk (reserve size : Z) (new_file : bool) : io Error unit := λ w,
  let reading := match spaces w with [] => Ok {| available := 2 ^ 64 - 1; unit_bytes := 1 |} | r :: _ => r end in
  ({| disk := disk w; replies := replies w; spaces := tail (spaces w); temporary_id := temporary_id w; publication_uncertain := publication_uncertain w |},
   Some (admit_space reading reserve size new_file)).

(** * A logic of calls *)

(** From any world in [P] the code ends in [Q] with a value, in [E] with an error, or dies in [D]. *)
Definition triple {E A} (P : World → Prop) (m : io E A) (Q : A → World → Prop) (X : E → World → Prop) (D : World → Prop) : Prop :=
  ∀ w, P w → match m w with
    | (w', Some (Ok x)) => Q x w'
    | (w', Some (Err e)) => X e w'
    | (w', None) => D w'
    end.

Section Logic.
Context {E : Type}.
Implicit Types (P : World → Prop) (D : World → Prop).

Lemma triple_ret {A} (x : A) P (X : E → World → Prop) D (Q : A → World → Prop) : (∀ w, P w → Q x w) → triple P (io_ret x) Q X D.
Proof. intros H w Hw. by apply H. Qed.
Lemma triple_fail {A} (e : E) P X D (Q : A → World → Prop) : (∀ w, P w → X e w) → triple P (io_fail e) Q X D.
Proof. intros H w Hw. by apply H. Qed.
Lemma triple_lift {A} (r : result E A) P X D (Q : A → World → Prop) :
  (∀ w, P w → match r with Ok x => Q x w | Err e => X e w end) → triple P (io_lift r) Q X D.
Proof. intros H w Hw. specialize (H w Hw). unfold io_lift. by destruct r. Qed.
Lemma triple_bind {A B} (m : io E A) (k : A → io E B) P Q R X D :
  triple P m Q X D → (∀ x, triple (Q x) (k x) R X D) → triple P (io_bind m k) R X D.
Proof. intros Hm Hk w Hw. unfold io_bind. specialize (Hm w Hw). destruct (m w) as [w' [[x|e]|]]; [by apply Hk|done|done]. Qed.
Lemma triple_attempt {F A} (m : io F A) P (Q : result F A → World → Prop) X D :
  triple P m (λ x, Q (Ok x)) (λ e, Q (Err e)) D → triple P (attempt (F := E) m) Q X D.
Proof. intros Hm w Hw. unfold attempt. specialize (Hm w Hw). by destruct (m w) as [w' [[x|e]|]]. Qed.
Lemma triple_map_err {F A} (f : F → E) (m : io F A) P (Q : A → World → Prop) X D :
  triple P m Q (λ e, X (f e)) D → triple P (map_err f m) Q X D.
Proof.
  intros Hm. unfold map_err. eapply (triple_bind _ _ _ (λ r w, match r with Ok x => Q x w | Err e => X (f e) w end)); [by apply triple_attempt|].
  intros [x|e]; [by apply triple_ret|by apply triple_fail].
Qed.
Lemma triple_mono {A} (m : io E A) P P' Q Q' X X' D D' :
  triple P m Q X D → (∀ w, P' w → P w) → (∀ x w, Q x w → Q' x w) → (∀ e w, X e w → X' e w) → (∀ w, D w → D' w) → triple P' m Q' X' D'.
Proof.
  intros Hm HP HQ HX HD w Hw. specialize (Hm w (HP w Hw)). destruct (m w) as [w' [[x|e]|]]; [by apply HQ|by apply HX|by apply HD].
Qed.
End Logic.

(** Whether every call is carried out, and whether publication is uncertain. *)
Record Mode := { calm : bool; uncertain : bool }.
(** What is known of the disk in a mode. *)
Definition knows (b : Mode) (P : Disk → Prop) (w : World) : Prop :=
  P (disk w) ∧ publication_uncertain w = uncertain b ∧ (calm b = true → replies w = []).
Lemma knows_mono b (P Q : Disk → Prop) w : (∀ d, P d → Q d) → knows b P w → knows b Q w.
Proof. intros H [HP Hb]. by split; [apply H|]. Qed.

Lemma effect_triple b (P Q X : Disk → Prop) all part :
  (∀ d, P d → Q (all d)) → (∀ n d, calm b = false → P d → X (part n d)) →
  triple (knows b P) (effect all part) (λ _, knows b Q) (λ _, knows b X) (knows b X).
Proof.
  intros HQ HX w (Hw & Hb & Hc). unfold effect. destruct (calm b) eqn:Ec.
  { rewrite (Hc eq_refl). split; [by apply HQ|]. split; [done|]. intros _. cbn. by rewrite (Hc eq_refl). }
  destruct (replies w) as [|[|reason n|n] r]; (split; [|split; [done|congruence]]); cbn; first [by apply HQ|by apply HX].
Qed.
Lemma whole_keeps (P : Disk → Prop) all n d : P d → P (all d) → P (whole all n d).
Proof. intros. unfold whole. by destruct (n =? 0)%nat. Qed.
Lemma observe_triple {A} b (P : Disk → Prop) (f : Disk → result IoError A) :
  triple (knows b P) (observe f) (λ x, knows b (λ d, P d ∧ f d = Ok x))
    (λ e, knows b (λ d, P d ∧ (f d = Err e ∨ calm b = false ∧ ∃ reason, e = OtherIo reason))) (knows b (λ d, P d ∧ calm b = false)).
Proof.
  intros w (Hw & Hb & Hc). unfold observe. destruct (calm b) eqn:Ec.
  { rewrite (Hc eq_refl). destruct (f (disk w)) eqn:E; (split; [by auto|split; [done|]]); intros _; cbn; by rewrite (Hc eq_refl). }
  destruct (replies w) as [|[|reason n|n] r]; try (destruct (f (disk w)) eqn:E); (split; [|split; [done|congruence]]); cbn; naive_solver.
Qed.

(** * Publication *)

Create HintDb fs.

(** Names of files being prepared. *)
Definition is_temporary (name : string) : bool := bool_decide (str_bytes ".tmp" `suffix_of` str_bytes name).

(** Other than under temporary names, the disk can only hold what it could, or [new] under
    [target]. *)
Definition grows (target : Path) (new : Entry) (d0 d : Disk) : Prop :=
  ∀ p e, is_temporary p.2 = false → may_hold d p e → may_hold d0 p e ∨ (p = target ∧ e = Some new).
Definition only (p : Path) (e : option Entry) (d : Disk) : Prop := ∀ e', may_hold d p e' → e' = e.

Lemma may_hold_live d p : may_hold d p (live d !! p).
Proof. by left. Qed.
Lemma may_hold_set p e d q x : may_hold (set_entry p e d) q x → may_hold d q x ∨ (q = p ∧ x = e).
Proof.
  intros [Hl|Hs]; cbn in *.
  - destruct (decide (q = p)) as [->|Hne]; [rewrite lookup_partial_alter_eq in Hl; by right|]. rewrite lookup_partial_alter_ne in Hl by done. left; by left.
  - apply elem_of_cons in Hs as [[= -> ->]|Hs]; [left; by left|left; by right].
Qed.
Lemma may_hold_file p f d q x : may_hold (set_file p f d) q x → q ≠ p → may_hold d q x.
Proof. intros [Hl|Hs] Hne; cbn in *; [left; by rewrite lookup_insert_ne in Hl|by right]. Qed.
Lemma may_hold_sync directory d q x : may_hold (sync_entries directory d) q x → may_hold d q x ∧ (q.1 = directory → x = live d !! q).
Proof.
  intros [Hl|Hs]; cbn in *; [split; [by left|done]|]. apply list_elem_of_filter in Hs as [Hne Hs]. split; [by right|]. intros. by destruct Hne.
Qed.

Section Publication.
Context (target : Path) (new : Entry) (d0 : Disk).
Abbreviation grown := (grows target new d0).

Lemma grows_refl : grown d0.
Proof. intros p e _ H. by left. Qed.
Lemma grows_temporary p e d : is_temporary p.2 = true → grown d → grown (set_entry p e d).
Proof. intros Ht Hg q x Hq [H|[-> _]]%may_hold_set; [by apply Hg|congruence]. Qed.
Lemma grows_file p f d : is_temporary p.2 = true → grown d → grown (set_file p f d).
Proof. intros Ht Hg q x Hq H. apply Hg; [done|]. eapply may_hold_file; [done|]. intros ->. congruence. Qed.
Lemma grows_target d : grown d → grown (set_entry target (Some new) d).
Proof. intros Hg q x Hq [H|[-> ->]]%may_hold_set; [by apply Hg|by right]. Qed.
Lemma grows_sync directory d : grown d → grown (sync_entries directory d).
Proof. intros Hg q x Hq [H _]%may_hold_sync. by apply Hg. Qed.

Lemma sync_triple b (P : Disk → Prop) directory :
  (∀ d, P d → P (sync_entries directory d)) →
  triple (knows b P) (sync_directory directory) (λ _, knows b (λ d, P d ∧ ∀ p, p.1 = directory → only p (live d !! p) d)) (λ _, knows b (λ d, P d ∧ calm b = false)) (knows b (λ d, P d ∧ calm b = false)).
Proof.
  intros HP. apply effect_triple.
  - intros d Hd. split; [by apply HP|]. intros p Hp e [_ He]%may_hold_sync. by apply He.
  - intros n d Hc Hd. split; [by apply whole_keeps; [|apply HP]|done].
Qed.
End Publication.
#[export] Hint Resolve grows_refl grows_temporary grows_file grows_target grows_sync : fs.

Definition file_of (content : list byte) : Entry := RegularFile {| bytes := content; durable := true |}.

Section PersistRename.
Context (b : Mode) (temporary target : Path) (content : list byte) (d0 : Disk).
Context (Htemp : is_temporary temporary.2 = true) (Htarget : is_temporary target.2 = false).
Abbreviation grown := (grows target (file_of content) d0).

Lemma remove_triple : triple (E := IoError) (knows b grown) (remove_file temporary) (λ _, knows b grown) (λ _, knows b grown) (knows b grown).
Proof.
  unfold remove_file. eapply (triple_bind _ _ _ (λ _, knows b grown)).
  - intros w Hw. destruct (live (disk w) !! temporary); [|done]. revert w Hw. apply (effect_triple b grown grown grown).
    + eauto with fs.
    + intros n d _ Hd. apply whole_keeps; eauto with fs.
  - intros _. eapply triple_mono; [apply (sync_triple b grown); eauto with fs|done|..]; intros *; apply knows_mono; by intros d [? _].
Qed.

(** The other temporary files stay as they are. *)
Definition steady (d : Disk) : Prop := ∀ p, is_temporary p.2 = true → p ≠ temporary → live d !! p = live d0 !! p.
Lemma steady_temporary e d : steady d → steady (set_entry temporary e d).
Proof. intros Hs p Ht Hne. cbn. rewrite lookup_partial_alter_ne by done. by apply Hs. Qed.
Lemma steady_target e d : steady d → steady (set_entry target e d).
Proof. intros Hs p Ht Hne. cbn. rewrite lookup_partial_alter_ne by congruence. by apply Hs. Qed.
Lemma steady_file f d : steady d → steady (set_file temporary f d).
Proof. intros Hs p Ht Hne. cbn. rewrite lookup_insert_ne by done. by apply Hs. Qed.
Hint Resolve steady_temporary steady_target steady_file : fs.

Lemma rename_triple :
  triple (E := IoError) (knows b (λ d, grown d ∧ steady d ∧ live d !! temporary = Some (file_of content))) (rename_to temporary target)
    (λ _, knows b (λ d, grown d ∧ only target (Some (file_of content)) d ∧ steady d ∧ live d !! temporary = None))
    (λ _, knows b (λ d, grown d ∧ calm b = false)) (knows b (λ d, grown d ∧ calm b = false)).
Proof.
  set (renamed d := grown d ∧ live d !! target = Some (file_of content) ∧ steady d ∧ live d !! temporary = None).
  assert (∀ d, grown d ∧ steady d ∧ live d !! temporary = Some (file_of content) → renamed (set_entry temporary None (set_entry target (live d !! temporary) d))) as Hren.
  { intros d (Hg & Hst & Hl). rewrite Hl. split_and!; [eauto with fs| |eauto with fs|cbn; apply lookup_partial_alter_eq].
    cbn. rewrite lookup_partial_alter_ne by congruence. by rewrite lookup_partial_alter_eq. }
  assert (∀ directory d, renamed d → renamed (sync_entries directory d)) as Hsync by (intros directory d (Hg & Hl & Hst & Hn); split_and!; [eauto with fs|done..]).
  unfold rename_to. eapply (triple_bind _ _ _ (λ _, knows b renamed)).
  - intros w Hw. destruct (Hw) as [(Hg & Hst & Hl) Hb]. rewrite Hl.
    apply (effect_triple b (λ d, grown d ∧ steady d ∧ live d !! temporary = Some (file_of content)) renamed (λ d, grown d ∧ calm b = false) _ _ Hren); [|done].
    intros n d Hc Hd. split; [|done]. apply whole_keeps; [apply Hd|by apply Hren].
  - intros _. eapply (triple_bind _ _ _ (λ _, knows b renamed)).
    + eapply triple_mono; [apply (sync_triple b renamed); apply Hsync|done|..]; intros *; apply knows_mono; [by intros d [? _]|by intros d [[? _] ?]..].
    + intros _. eapply triple_mono; [apply (sync_triple b renamed); apply Hsync|done|..]; intros *; apply knows_mono; [|by intros d [[? _] ?]..].
      intros d [(Hg & Hl & Hst & Hn) Ho]. split_and!; [done| |done|done]. rewrite <-Hl. by apply Ho.
Qed.

Lemma persist_rename_triple :
  triple (E := IoError) (knows b (λ d, d = d0)) (persist_rename_file temporary target content)
    (λ _, knows b (λ d, grown d ∧ only target (Some (file_of content)) d ∧ steady d ∧ live d !! temporary = None))
    (λ _, knows b (λ d, grown d ∧ (calm b = true → is_Some (live d0 !! temporary)))) (knows b (λ d, grown d ∧ calm b = false)).
Proof.
  unfold persist_rename_file. set (present f d := grown d ∧ steady d ∧ live d !! temporary = Some (RegularFile f)).
  eapply (triple_bind _ _ _ (λ _, knows b (present {| bytes := []; durable := false |}))).
  { intros w [Hw Hb]. unfold create_new. destruct (live (disk w) !! temporary) as [e|] eqn:El; [split; [rewrite Hw in *; split; [apply grows_refl|by eexists]|done]|].
    eapply (triple_mono _ (knows b (λ d, d = d0)) (λ w, knows b (λ d, d = d0) w) _ _ _ _ _ _ (effect_triple b (λ d, d = d0) (present {| bytes := []; durable := false |}) (λ d, grown d ∧ calm b = false) _ _ _ _)); [done|done| |done|by split].
    intros e w'. apply knows_mono. intros d [Hg Hc]. split; [done|congruence].
    Unshelve.
    - intros d ->. split_and!; [eauto with fs|by apply steady_temporary|]. cbn. apply lookup_partial_alter_eq.
    - intros n d Hc ->. split; [|done]. apply whole_keeps; eauto with fs. }
  intros _. eapply (triple_bind _ _ _ (λ r, knows b (λ d, match r with
    | Ok _ => grown d ∧ only target (Some (file_of content)) d ∧ steady d ∧ live d !! temporary = None | Err _ => grown d ∧ calm b = false end))).
  - apply triple_attempt. eapply (triple_bind _ _ _ (λ _, knows b (present {| bytes := content; durable := false |}))).
    { apply effect_triple; [intros d (Hg & Hst & Hl); split_and!; [eauto with fs..|apply lookup_insert_eq]|intros n d Hc (Hg & _ & _); split; [eauto with fs|done]]. }
    intros _. eapply (triple_bind _ _ _ (λ _, knows b (present {| bytes := content; durable := true |}))).
    { apply effect_triple.
      - intros d (Hg & Hst & Hl). rewrite Hl. split_and!; [eauto with fs..|apply lookup_insert_eq].
      - intros n d Hc (Hg & Hst & Hl). split; [|done]. apply whole_keeps; [done|]. rewrite Hl. eauto with fs. }
    intros _. apply rename_triple.
  - intros [x|e]; [by apply triple_ret|]. eapply (triple_bind _ _ _ (λ _, knows b (λ d, grown d ∧ calm b = false))).
    + apply triple_attempt. intros w [[Hg Hc] Hb]. pose proof (remove_triple w ltac:(by split)) as Hr.
      destruct (remove_file temporary w) as [w' [[u|e']|]]; revert Hr; apply knows_mono; intros d Hd; by split.
    + intros _. apply triple_fail. intros w. apply knows_mono. intros d [? Hc]. split; [done|congruence].
Qed.
End PersistRename.

Lemma weathered_file content e : weathered (Some (file_of content)) e → e = Some (file_of content).
Proof. intros ([c x] & -> & Hx & Hc). cbn in *. subst. by rewrite (Hc eq_refl). Qed.

(** C36: publishing a file is atomic.  Whatever the operating system replies and wherever the
    process dies, after any power loss the target holds the whole new file or is one of the
    entries it could be before, and no other published name has changed; and when the call
    succeeded, the target holds the new file. *)
Theorem persist_rename_atomic temporary target content w :
  is_temporary temporary.2 = true → is_temporary target.2 = false →
  let '(w', r) := persist_rename_file temporary target content w in
  ∀ d', survives (disk w') d' →
    (∀ p, is_temporary p.2 = false →
       (p = target ∧ live d' !! p = Some (file_of content)) ∨ ∃ e, may_hold (disk w) p e ∧ weathered e (live d' !! p))
    ∧ (r = Some (Ok tt) → live d' !! target = Some (file_of content)).
Proof.
  intros Ht Hn. pose proof (persist_rename_triple {| calm := false; uncertain := publication_uncertain w |} temporary target content (disk w) Ht Hn w ltac:(done)) as H.
  destruct (persist_rename_file temporary target content w) as [w' r]. intros d' [_ Hs].
  assert (grows target (file_of content) (disk w) (disk w')) as Hg by (destruct r as [[x|e]|]; apply H).
  split.
  - intros p Hp. destruct (Hs p) as (e & He & Hw). apply Hg in He as [He|[-> ->]]; [right; by exists e|left|done]. split; [done|]. by apply weathered_file.
  - intros ->. destruct H as [(_ & Ho & _) _]. destruct (Hs target) as (e & ->%Ho & Hw). by apply weathered_file.
Qed.

#[local] Definition empty_disk : Disk := {| live := ∅; stale := [] |}.
#[local] Definition failing : World :=
  {| disk := empty_disk; replies := [Proceeds; Proceeds; Proceeds; Proceeds; Fails "sync" 0; Dies 1]; spaces := []; temporary_id := 1; publication_uncertain := false |}.

(** A publication whose directory sync fails: the name may or may not survive. *)
Lemma persist_rename_atomic_witness :
  let '(w', r) := persist_rename_file (Root, "x.tmp") (Root, "CURRENT") [x07] failing in
  r = Some (Err (OtherIo "sync")) ∧ may_hold (disk w') (Root, "CURRENT") None ∧ may_hold (disk w') (Root, "CURRENT") (Some (file_of [x07]))
  ∧ ∀ d', survives (disk w') d' → live d' !! (Root, "CURRENT") = Some (file_of [x07]) ∨ live d' !! (Root, "CURRENT") = None.
Proof.
  pose proof (persist_rename_atomic (Root, "x.tmp") (Root, "CURRENT") [x07] failing eq_refl eq_refl) as H.
  destruct (persist_rename_file _ _ _ failing) as [w' r] eqn:E. vm_compute in E. injection E as <- <-. split_and!; [done|right|left; reflexivity|].
  - apply (list_elem_of_lookup_2 _ 1%nat). reflexivity.
  - intros d' Hd. destruct (proj1 (H d' Hd) (Root, "CURRENT") eq_refl) as [[_ H1]|(e & He & Hw)]; [by left|right].
    destruct He as [<-|He%not_elem_of_nil]; [exact Hw|done].
Defined.
