(* ===== verification/Reclamation.v ===== *)
(** Admission of reclamation work ([rrd-lsm]: reclamation.rs).

    Scans of the control directories run against a budget of entries, metadata bytes, deletions
    and time.  The clock is an input, as in recovery: [elapsed n] is its [n]-th reading.

    Theorem: no sequence of charges overdraws the budget. *)

From S2P Require Import Prelude Machine LsmError.
Open Scope Z_scope.

(** lsm/reclamation.rs:8-14 ReclamationLimits *)
Record ReclamationLimits := {
  inventory_entries_limit : Z; reclaim_metadata_limit : Z; delete_files_limit : Z; delete_bytes_limit : Z; reclaim_elapsed_limit : Z
}.
(** lsm/reclamation.rs:16-26 Default for ReclamationLimits *)
Definition ReclamationLimits_default : ReclamationLimits :=
  {| inventory_entries_limit := 262144; reclaim_metadata_limit := 64 * 1024 * 1024; delete_files_limit := 1024;
     delete_bytes_limit := 1024 * 1024 * 1024; reclaim_elapsed_limit := 30000 |}.
(** lsm/reclamation.rs:37-46 ReclamationResource::as_str *)
Definition reclamation_resource_as_str (self : ReclamationResource) : string :=
  match self with
  | InventoryEntries => "inventory_entries" | ReclamationMetadataBytes => "metadata_bytes"
  | DeleteBytes => "delete_bytes" | ReclamationElapsedMs => "elapsed_ms"
  end.
(** lsm/reclamation.rs:49-61 ReclamationLimits::validate *)
Definition reclamation_limits_validate (self : ReclamationLimits) : result Error unit :=
  if existsb (Z.eqb 0) [inventory_entries_limit self; reclaim_metadata_limit self; delete_files_limit self; delete_bytes_limit self; reclaim_elapsed_limit self]
  then Err (InvalidConfiguration "reclamation limits must be positive") else Ok tt.

(** lsm/reclamation.rs:64-71 ReclamationBudget; [clock_readings] counts the readings of the clock. *)
Record ReclamationBudget := {
  reclamation_limits : ReclamationLimits; scanned_entries : Z; scanned_metadata_bytes : Z; deleted_files : Z; deleted_bytes : Z; clock_readings : nat
}.
(** lsm/reclamation.rs:74-83 ReclamationBudget::new *)
Definition ReclamationBudget_new (limits : ReclamationLimits) : ReclamationBudget :=
  {| reclamation_limits := limits; scanned_entries := 0; scanned_metadata_bytes := 0; deleted_files := 0; deleted_bytes := 0; clock_readings := 0 |}.
(** lsm/reclamation.rs:93-102 ReclamationBudget::check *)
Definition reclamation_check (resource : ReclamationResource) (limit observed : Z) : result Error unit :=
  if limit <? observed then Err (ReclamationLimit resource limit observed) else Ok tt.

Section Clock.
Context (elapsed : nat → Z).

Definition read_clock (self : ReclamationBudget) : ReclamationBudget :=
  {| reclamation_limits := reclamation_limits self; scanned_entries := scanned_entries self; scanned_metadata_bytes := scanned_metadata_bytes self;
     deleted_files := deleted_files self; deleted_bytes := deleted_bytes self; clock_readings := S (clock_readings self) |}.
(** lsm/reclamation.rs:85-91 ReclamationBudget::tick *)
Definition reclamation_tick (self : ReclamationBudget) : result Error ReclamationBudget :=
  do? reclamation_check ReclamationElapsedMs (reclaim_elapsed_limit (reclamation_limits self)) (elapsed (clock_readings self)) in Ok (read_clock self).

(** lsm/reclamation.rs:110-123 ReclamationBudget::charge_entries *)
Definition charge_entries (self : ReclamationBudget) (count : Z) : result Error ReclamationBudget :=
  let? self := reclamation_tick self in
  let? next := ok_or (checked_add 64 (scanned_entries self) count) (InvalidManifest "reclamation inventory overflow") in
  do? reclamation_check InventoryEntries (inventory_entries_limit (reclamation_limits self)) next in
  Ok {| reclamation_limits := reclamation_limits self; scanned_entries := next; scanned_metadata_bytes := scanned_metadata_bytes self;
        deleted_files := deleted_files self; deleted_bytes := deleted_bytes self; clock_readings := clock_readings self |}.
(** lsm/reclamation.rs:106-108 ReclamationBudget::entry *)
Definition charge_entry (self : ReclamationBudget) : result Error ReclamationBudget := charge_entries self 1.

(** lsm/reclamation.rs:125-159 ReclamationBudget::read_metadata, for a file whose type, length and
    content the file system reports as [is_file], [declared] and [content] *)
Definition read_reclamation_metadata (self : ReclamationBudget) (is_file : bool) (declared : Z) (content : list byte)
    : result Error (list byte * ReclamationBudget) :=
  let? self := reclamation_tick self in
  if negb is_file then Err (InvalidManifest "reclamation metadata is not a regular file")
  else
    let limit := reclaim_metadata_limit (reclamation_limits self) in
    let remaining := limit - scanned_metadata_bytes self in
    do? reclamation_check ReclamationMetadataBytes limit (saturating_add 64 (scanned_metadata_bytes self) declared) in
    let bytes := take (Z.to_nat (saturating_add 64 remaining 1)) content in
    let observed := saturating_add 64 (scanned_metadata_bytes self) (len bytes) in
    do? reclamation_check ReclamationMetadataBytes limit observed in
    if negb (len bytes =? declared) then Err (InvalidManifest "reclamation metadata changed while reading")
    else
      let? self := reclamation_tick
        {| reclamation_limits := reclamation_limits self; scanned_entries := scanned_entries self; scanned_metadata_bytes := observed;
           deleted_files := deleted_files self; deleted_bytes := deleted_bytes self; clock_readings := clock_readings self |} in
      Ok (bytes, self).

(** lsm/reclamation.rs:163-178 ReclamationBudget::admit_delete *)
Definition admit_delete (self : ReclamationBudget) (bytes : Z) : result Error (bool * ReclamationBudget) :=
  let limits := reclamation_limits self in
  do? reclamation_check DeleteBytes (delete_bytes_limit limits) bytes in
  if (match reclamation_tick self with Ok _ => false | Err _ => true end || (deleted_files self =? delete_files_limit limits)
      || (delete_bytes_limit limits - deleted_bytes self <? bytes))%bool
  then Ok (false, read_clock self)
  else Ok (true, {| reclamation_limits := limits; scanned_entries := scanned_entries self; scanned_metadata_bytes := scanned_metadata_bytes self;
                    deleted_files := deleted_files self + 1; deleted_bytes := deleted_bytes self + bytes; clock_readings := S (clock_readings self) |}).

(** * The budget is never overdrawn *)

Definition reclaims_within (b : ReclamationBudget) : Prop :=
  let limits := reclamation_limits b in
  scanned_entries b ≤ inventory_entries_limit limits ∧ scanned_metadata_bytes b ≤ reclaim_metadata_limit limits
  ∧ deleted_files b ≤ delete_files_limit limits ∧ deleted_bytes b ≤ delete_bytes_limit limits.

(** The charges of a reclamation, in any order. *)
Inductive charge := ChargeEntries (count : Z) | ChargeMetadata (is_file : bool) (declared : Z) (content : list byte) | ChargeDelete (bytes : Z).
Definition make_charge (self : ReclamationBudget) (c : charge) : result Error ReclamationBudget :=
  match c with
  | ChargeEntries count => charge_entries self count
  | ChargeMetadata is_file declared content => let? (_, self) := read_reclamation_metadata self is_file declared content in Ok self
  | ChargeDelete bytes => let? (_, self) := admit_delete self bytes in Ok self
  end.

Lemma reclamation_check_ok r l o x : reclamation_check r l o = Ok x → o ≤ l.
Proof. unfold reclamation_check. by destruct (Z.ltb_spec l o). Qed.
Lemma reclamation_tick_ok b b' : reclamation_tick b = Ok b' → b' = read_clock b.
Proof. unfold reclamation_tick. destruct (reclamation_check _ _ _); [|done]. by intros [= <-]. Qed.

Lemma make_charge_within b c b' : reclaims_within b → make_charge b c = Ok b' → reclaims_within b' ∧ reclamation_limits b' = reclamation_limits b.
Proof.
  intros (He & Hm & Hf & Hd). destruct c as [count|is_file declared content|bytes]; cbn [make_charge].
  - unfold charge_entries. destruct (reclamation_tick b) as [b1|] eqn:Et; [|done]. apply reclamation_tick_ok in Et as ->. destruct (ok_or _ _) as [next|]; [|done].
    destruct (reclamation_check _ _ _) eqn:Ec; [|done]. apply reclamation_check_ok in Ec. by intros [= <-].
  - unfold read_reclamation_metadata. destruct (reclamation_tick b) as [b1|] eqn:Et; [|done]. apply reclamation_tick_ok in Et as ->. destruct is_file; [|done]. cbn [negb].
    destruct (reclamation_check _ _ _) eqn:Ec0; [|done]. destruct (reclamation_check _ _ (saturating_add 64 _ (len _))) eqn:Ec; [|done]. apply reclamation_check_ok in Ec.
    destruct (negb _); [done|]. destruct (reclamation_tick _) as [b1|] eqn:Et; [|done]. apply reclamation_tick_ok in Et as ->. by intros [= <-].
  - unfold admit_delete. destruct (reclamation_check _ _ _) eqn:Ec; [|done]. destruct (_ || _ || _)%bool eqn:E; [by intros [= <-]|].
    apply orb_false_iff in E as [[_ E1%Z.eqb_neq]%orb_false_iff E2%Z.ltb_ge]. intros [= <-]. unfold reclaims_within. cbn. split; [lia|done].
Qed.

(** No sequence of charges overdraws the reclamation budget: as long as they succeed, the
    entries and metadata bytes scanned and the files and bytes deleted stay within the limits
    it was made with. *)
Theorem reclamation_budget_never_overdrawn limits charges b :
  (0 ≤ inventory_entries_limit limits ∧ 0 ≤ reclaim_metadata_limit limits ∧ 0 ≤ delete_files_limit limits ∧ 0 ≤ delete_bytes_limit limits) →
  try_fold make_charge (ReclamationBudget_new limits) charges = Ok b → reclaims_within b ∧ reclamation_limits b = limits.
Proof.
  intros Hl. assert (reclaims_within (ReclamationBudget_new limits)) as H0 by done. revert H0. change limits with (reclamation_limits (ReclamationBudget_new limits)) at 3.
  generalize (ReclamationBudget_new limits). induction charges as [|c charges IH]; intros b0 H0; cbn [try_fold]; [by intros [= <-]|].
  destruct (make_charge b0 c) as [b1|] eqn:E; [|done]. apply make_charge_within in E as [H1 E1]; [|done]. rewrite <-E1. by apply IH.
Qed.
End Clock.

Lemma reclamation_budget_never_overdrawn_witness :
  ∃ b, try_fold (make_charge (λ _, 0)) (ReclamationBudget_new ReclamationLimits_default) [ChargeEntries 2; ChargeMetadata true 1 [x00]; ChargeDelete 512] = Ok b
    ∧ reclaims_within b ∧ deleted_bytes b = 512.
Proof.
  eexists. split; [reflexivity|]. split; [|reflexivity].
  apply (reclamation_budget_never_overdrawn (λ _, 0) ReclamationLimits_default [ChargeEntries 2; ChargeMetadata true 1 [x00]; ChargeDelete 512]);
    [cbn; lia|reflexivity].
Defined.
