(* ===== verification/Memtable.v ===== *)
(** The multi-version memtable ([rrd-lsm]: memtable.rs, mutable.rs, and the read ranges of
    segment/reader.rs).

    A memtable maps every key to the chain of its versions, oldest first; a read at sequence
    [s] sees the newest version at or below [s].  Writes arrive as batches with consecutive
    sequence numbers and are charged against hard limits.

    The specification is the history of mutations with their sequence numbers.  The theorems:
    the table represents its history through every operation, reads and scans answer from the
    history, snapshots are stable under later writes, and replaying a log rebuilds the table
    that wrote it. *)

From S2P Require Import Prelude Machine BTree LsmError Batch RecoveryBudget Wal.
Open Scope Z_scope.

Abbreviation key := (list byte).

(** Sizes the compiler chooses and the growth policy of [Vec]. *)
Class Layout := {
  size_of_version : Z;
  size_of_key_handle : Z;
  size_of_chain : Z;
  vec_grow : Z → Z
}.
Class LayoutLaws `{Layout} : Prop := {
  size_of_version_nonneg : 0 ≤ size_of_version;
  vec_grow_spec : ∀ c, 0 ≤ c → c < vec_grow c
}.

(** * Hard limits on mutable state *)

(** lsm/mutable.rs:8-11 MutableLimits *)
Record MutableLimits := { accounted_bytes : Z; limit_versions : Z }.
(** lsm/mutable.rs:13-20 Default for MutableLimits *)
Definition MutableLimits_default : MutableLimits :=
  {| accounted_bytes := 128 * 1024 * 1024; limit_versions := 1048576 |}.

(** lsm/mutable.rs:31-41 MutableResource::as_str *)
Definition mutable_resource_as_str (self : MutableResource) : string :=
  match self with
  | AccountedBytes => "accounted bytes"
  | Versions => "versions"
  | RetainedAccountedBytes => "active and retained accounted bytes"
  | RetainedVersions => "active and retained versions"
  | Generations => "active and retained generations"
  end.

(** lsm/mutable.rs:81-84 MutableCharge *)
Record MutableCharge := { charge_bytes : Z; charge_versions : Z }.

(** lsm/mutable.rs:44-51 MutableLimits::validate *)
Definition mutable_limits_validate (self : MutableLimits) : result Error MutableLimits :=
  if ((accounted_bytes self =? 0) || (limit_versions self =? 0))%bool
  then Err (InvalidConfiguration
    "hard mutable accounted-byte and version limits must be greater than zero")
  else Ok self.

(** lsm/mutable.rs:53-71 MutableLimits::check *)
Definition limits_check (self : MutableLimits) (charge : MutableCharge) : result Error unit :=
  try_each (λ '(resource, limit, observed),
      if limit <? observed then Err (MutableLimit resource limit observed) else Ok tt)
    [(Versions, limit_versions self, charge_versions charge);
     (AccountedBytes, accounted_bytes self, charge_bytes charge)].

(** lsm/mutable.rs:74-77 MutableLimits::needs_flush *)
Definition needs_flush (self : MutableLimits) (current incoming : MutableCharge) : bool :=
  ((saturating_sub (accounted_bytes self) (charge_bytes incoming) <? charge_bytes current)
   || (saturating_sub (limit_versions self) (charge_versions incoming) <? charge_versions current))%bool.

(** lsm/memtable.rs:61-68 VersionedValue *)
Record VersionedValue := { sequence : Z; value : option (list byte) }.

(** lsm/memtable.rs:9-12 VersionChain; a spilled chain keeps the capacity of its [Vec]. *)
Inductive VersionChain :=
| One (version : VersionedValue)
| Many (versions : list VersionedValue) (capacity : Z).

(** lsm/memtable.rs:41-46 VersionChain::as_slice *)
Definition as_slice (self : VersionChain) : list VersionedValue :=
  match self with One version => [version] | Many versions _ => versions end.

(** lsm/memtable.rs:52-57 VersionChain::spilled_capacity *)
Definition spilled_capacity (self : VersionChain) : option Z :=
  match self with One _ => None | Many _ capacity => Some capacity end.

(** lsm/memtable.rs:15-21 VersionChain::from_vec *)
Definition chain_from_vec (versions : list VersionedValue) (capacity : Z) : VersionChain :=
  match versions with [version] => One version | _ => Many versions capacity end.

(** lsm/memtable.rs:94-100 ProfileCounters *)
Record ProfileCounters := {
  key_payload_bytes : Z; value_payload_bytes : Z; tombstones : Z; spilled_chains : Z;
  spilled_version_capacity : Z
}.
Definition ProfileCounters_default : ProfileCounters :=
  {| key_payload_bytes := 0; value_payload_bytes := 0; tombstones := 0; spilled_chains := 0;
     spilled_version_capacity := 0 |}.

(** lsm/memtable.rs:103-110 ProfileCounters::add_version *)
Definition add_version (self : ProfileCounters) (version : VersionedValue) : ProfileCounters :=
  match value version with
  | Some v =>
    {| key_payload_bytes := key_payload_bytes self;
       value_payload_bytes := saturating_add 64 (value_payload_bytes self) (len v);
       tombstones := tombstones self; spilled_chains := spilled_chains self;
       spilled_version_capacity := spilled_version_capacity self |}
  | None =>
    {| key_payload_bytes := key_payload_bytes self;
       value_payload_bytes := value_payload_bytes self;
       tombstones := saturating_add 64 (tombstones self) 1; spilled_chains := spilled_chains self;
       spilled_version_capacity := spilled_version_capacity self |}
  end.
Definition add_key (self : ProfileCounters) (k : key) : ProfileCounters :=
  {| key_payload_bytes := saturating_add 64 (key_payload_bytes self) (len k);
     value_payload_bytes := value_payload_bytes self; tombstones := tombstones self;
     spilled_chains := spilled_chains self;
     spilled_version_capacity := spilled_version_capacity self |}.
Definition add_spill (self : ProfileCounters) (chains capacity : Z) : ProfileCounters :=
  {| key_payload_bytes := key_payload_bytes self;
     value_payload_bytes := value_payload_bytes self; tombstones := tombstones self;
     spilled_chains := saturating_add 64 (spilled_chains self) chains;
     spilled_version_capacity := saturating_add 64 (spilled_version_capacity self) capacity |}.

(** lsm/memtable.rs:116-125 Memtable *)
Record Memtable := {
  versions : list (key * VersionChain);
  maximum_sequence : Z;
  version_count : Z;
  approximate_bytes : Z;
  profile_counters : ProfileCounters
}.

(** lsm/memtable.rs:177-182 Memtable::at_sequence *)
Definition at_sequence (sequence : Z) : Memtable :=
  {| versions := []; maximum_sequence := sequence; version_count := 0; approximate_bytes := 0;
     profile_counters := ProfileCounters_default |}.

(** lsm/memtable.rs:74-86 MemtableProfile *)
Record MemtableProfile := {
  p_key_count : Z; p_version_count : Z; p_key_payload_bytes : Z; p_value_payload_bytes : Z;
  p_tombstones : Z; p_spilled_chains : Z; p_spilled_version_capacity : Z;
  p_key_handle_bytes : Z; p_version_chain_bytes : Z; p_version_record_bytes : Z;
  p_owned_bytes_lower_bound : Z
}.

(** lsm/segment/reader.rs:31-34 ProjectedReadRange *)
Record ProjectedReadRange := { range_start : key; range_end : option key }.

(** lsm/segment/reader.rs:50-62 ProjectedReadRange::validate *)
Definition range_validate (self : ProjectedReadRange) : result Error unit :=
  match range_end self with
  | Some end_ =>
    if leb end_ (range_start self)
    then Err (InvalidProjectedRead "projected read ranges must be non-empty and half-open")
    else Ok tt
  | None => Ok tt
  end.

(** lsm/segment/reader.rs:37-41 ProjectedReadRange::new *)
Definition range_new (start : key) (end_ : option key) : result Error ProjectedReadRange :=
  let range := {| range_start := start; range_end := end_ |} in
  do? range_validate range in Ok range.

(** lsm/segment/reader.rs:43-48 ProjectedReadRange::all *)
Definition range_all : ProjectedReadRange := {| range_start := []; range_end := None |}.

(** lsm/segment/reader.rs:64-66 ProjectedReadRange::contains *)
Definition range_contains (self : ProjectedReadRange) (k : key) : bool :=
  (leb (range_start self) k
   && match range_end self with Some end_ => ltb k end_ | None => true end)%bool.

(** lsm/segment/reader.rs:68-70 ProjectedReadRange::overlaps *)
Definition range_overlaps (self : ProjectedReadRange) (first last : key) : bool :=
  (leb (range_start self) last
   && match range_end self with Some end_ => ltb first end_ | None => true end)%bool.

(** lsm/memtable.rs:88-91 MemtableProjectedSeek *)
Record MemtableProjectedSeek := { next : option (key * Z); versions_examined : Z }.

(** * Reads *)

Definition visible_in (chain : list VersionedValue) (read_sequence : Z) : option VersionedValue :=
  find (λ version, sequence version <=? read_sequence) (rev chain).

(** lsm/memtable.rs:334-340 Memtable::get_version *)
Definition get_version (self : Memtable) (k : key) (read_sequence : Z) : option VersionedValue :=
  match bt_get k (versions self) with
  | Some chain => visible_in (as_slice chain) read_sequence
  | None => None
  end.

(** lsm/memtable.rs:330-332 Memtable::get *)
Definition get (self : Memtable) (k : key) (read_sequence : Z) : option (list byte) :=
  match get_version self k read_sequence with Some v => value v | None => None end.

Definition half_open (start : key) (end_ : option key) : bound key * bound key :=
  (Included start, match end_ with Some e => Excluded e | None => Unbounded end).

(** lsm/memtable.rs:342-361 Memtable::scan; [None] is the panic of an inverted range. *)
Definition scan (self : Memtable) (start : key) (end_ : option key) (read_sequence : Z)
    : option (list (key * list byte)) :=
  match bt_range (half_open start end_).1 (half_open start end_).2 (versions self) with
  | None => None
  | Some rows => Some (omap (λ '(k, chain),
      match visible_in (as_slice chain) read_sequence with
      | Some version => match value version with Some v => Some (k, v) | None => None end
      | None => None
      end) rows)
  end.

(** lsm/memtable.rs:363-386 Memtable::scan_each; [visit] threads what it captures. *)
Definition scan_each {E S} (self : Memtable) (start : key) (end_ : option key) (read_sequence : Z)
    (visit : S → key → list byte → result E S) (s : S) : option (result E S) :=
  match bt_range (half_open start end_).1 (half_open start end_).2 (versions self) with
  | None => None
  | Some rows => Some (try_fold (λ s '(k, chain),
      match (match visible_in (as_slice chain) read_sequence with
             | Some version => value version
             | None => None
             end) with
      | None => Ok s
      | Some v => visit s k v
      end) s rows)
  end.

(** lsm/memtable.rs:391-409 Memtable::visible_from *)
Definition visible_from (self : Memtable) (start : key) (end_ : option key) (read_sequence : Z)
    : option (list (key * VersionedValue)) :=
  match bt_range (half_open start end_).1 (half_open start end_).2 (versions self) with
  | None => None
  | Some rows => Some (omap (λ '(k, chain),
      match visible_in (as_slice chain) read_sequence with
      | Some version => Some (k, version)
      | None => None
      end) rows)
  end.

(** lsm/memtable.rs:539-541 Memtable::visible_versions *)
Definition visible_versions (self : Memtable) (read_sequence : Z) : option (list (key * VersionedValue)) :=
  visible_from self [] None read_sequence.

(** lsm/memtable.rs:518-522 Memtable::all_versions *)
Definition all_versions (self : Memtable) : list (key * list VersionedValue) :=
  map (λ '(k, chain), (k, as_slice chain)) (versions self).

(** lsm/memtable.rs:526-537 Memtable::range_versions *)
Definition range_versions (self : Memtable) (first end_ : option key)
    : option (list (key * list VersionedValue)) :=
  match bt_range (match first with Some f => Included f | None => Unbounded end)
                 (match end_ with Some e => Excluded e | None => Unbounded end) (versions self) with
  | None => None
  | Some rows => Some (map (λ '(k, chain), (k, as_slice chain)) rows)
  end.

(** lsm/memtable.rs:437-448 Memtable::seek_visible_after, the newest version of one key that
    is visible, and how many versions have been looked at so far. *)
Fixpoint seek_chain (rev_chain : list VersionedValue) (read_sequence examined : Z)
    : result Error (option Z * Z) :=
  match rev_chain with
  | [] => Ok (None, examined)
  | version :: rest =>
    let? examined := ok_or (checked_add 64 examined 1)
      (InvalidProjectedRead "memtable projected version count overflow") in
    if sequence version <=? read_sequence then Ok (Some (sequence version), examined)
    else seek_chain rest read_sequence examined
  end.

(** lsm/memtable.rs:436-455 Memtable::seek_visible_after, the keys of one range *)
Fixpoint seek_rows (rows : list (key * VersionChain)) (read_sequence examined : Z)
    : result Error (option (key * Z) * Z) :=
  match rows with
  | [] => Ok (None, examined)
  | (k, chain) :: rows =>
    let? (visible, examined) := seek_chain (rev (as_slice chain)) read_sequence examined in
    match visible with
    | Some sequence => Ok (Some (k, sequence), examined)
    | None => seek_rows rows read_sequence examined
    end
  end.

(** lsm/memtable.rs:422-456 Memtable::seek_visible_after, the loop over the ranges; the outer
    [None] is the panic of an inverted range. *)
Fixpoint seek_ranges (table : list (key * VersionChain)) (ranges : list ProjectedReadRange)
    (after : option key) (read_sequence examined : Z) : option (result Error (option (key * Z) * Z)) :=
  match ranges with
  | [] => Some (Ok (None, examined))
  | range :: ranges =>
    if match after, range_end range with
       | Some after, Some end_ => leb end_ after
       | _, _ => false
       end
    then seek_ranges table ranges after read_sequence examined
    else
      let lower := match after with
                   | Some after => if leb (range_start range) after then Excluded after
                                   else Included (range_start range)
                   | None => Included (range_start range)
                   end in
      let upper := match range_end range with Some e => Excluded e | None => Unbounded end in
      match bt_range lower upper table with
      | None => None
      | Some rows =>
        match seek_rows rows read_sequence examined with
        | Err e => Some (Err e)
        | Ok (Some found, examined) => Some (Ok (Some found, examined))
        | Ok (None, examined) => seek_ranges table ranges after read_sequence examined
        end
      end
  end.

(** lsm/memtable.rs:415-461 Memtable::seek_visible_after *)
Definition seek_visible_after (self : Memtable) (ranges : list ProjectedReadRange) (after : option key)
    (read_sequence : Z) : option (result Error MemtableProjectedSeek) :=
  match seek_ranges (versions self) ranges after read_sequence 0 with
  | None => None
  | Some (Err e) => Some (Err e)
  | Some (Ok (found, examined)) => Some (Ok {| next := found; versions_examined := examined |})
  end.

(** lsm/memtable.rs:467-469 Memtable::key_count *)
Definition key_count (self : Memtable) : Z := len (versions self).

(** lsm/memtable.rs:475-480 Memtable::charge *)
Definition charge_of (self : Memtable) : MutableCharge :=
  {| charge_bytes := approximate_bytes self; charge_versions := version_count self |}.

(** * Writes *)

Section Memtable.
Context `{Layout}.

(** lsm/mutable.rs:118-125 version_charge *)
Definition version_charge (key_len value_len : Z) : result Error Z :=
  ok_or (match checked_add 64 key_len value_len with
         | Some bytes => checked_add 64 bytes size_of_version
         | None => None
         end) (InvalidBatch "mutable version byte accounting overflow").

(** lsm/mutable.rs:87-104 MutableCharge::batch *)
Definition charge_batch (batch : WriteBatch) : result Error MutableCharge :=
  let? bytes := try_fold (λ bytes operation,
      let? charge := version_charge (len (mkey operation))
        (match operation with Put _ value => len value | Delete _ => 0 end) in
      ok_or (checked_add 64 bytes charge) (InvalidBatch "mutable byte accounting overflow"))
    0 (operations batch) in
  Ok {| charge_bytes := bytes; charge_versions := len (operations batch) |}.

(** lsm/mutable.rs:106-115 MutableCharge::checked_add *)
Definition charge_add (self other : MutableCharge) : result Error MutableCharge :=
  let? bytes := ok_or (checked_add 64 (charge_bytes self) (charge_bytes other))
    (InvalidBatch "mutable byte accounting overflow") in
  let? versions := ok_or (checked_add 64 (charge_versions self) (charge_versions other))
    (InvalidBatch "mutable version accounting overflow") in
  Ok {| charge_bytes := bytes; charge_versions := versions |}.

(** lsm/memtable.rs:23-39 VersionChain::push; a full vector grows. *)
Definition chain_push (self : VersionChain) (version : VersionedValue) : VersionChain :=
  match self with
  | Many versions capacity =>
    Many (versions ++ [version])
      (if len versions =? capacity then vec_grow capacity else capacity)
  | One previous => Many [previous; version] 2
  end.

(** lsm/memtable.rs:543-568 Memtable::insert_version *)
Definition insert_version (self : Memtable) (k : key) (version : VersionedValue) : Memtable :=
  let counters := add_version (profile_counters self) version in
  let '(chain, counters) :=
    match bt_get k (versions self) with
    | None => (One version, add_key counters k)
    | Some chain =>
      let before := spilled_capacity chain in
      let chain' := chain_push chain version in
      let after := match spilled_capacity chain' with Some c => c | None => 0 end in
      (chain', add_spill counters (match before with None => 1 | Some _ => 0 end)
                 (saturating_sub after (match before with None => 0 | Some c => c end)))
    end in
  {| versions := bt_insert k chain (versions self); maximum_sequence := maximum_sequence self;
     version_count := version_count self; approximate_bytes := approximate_bytes self;
     profile_counters := counters |}.

Definition versioned (sequence : Z) (operation : Mutation) : VersionedValue :=
  {| sequence := sequence; value := mvalue operation |}.

(** lsm/memtable.rs:280-289 Memtable::apply_write_batch, the loop over the operations *)
Fixpoint insert_operations (self : Memtable) (sequence : Z) (operations : list Mutation) : Memtable :=
  match operations with
  | [] => self
  | operation :: operations =>
    insert_operations (insert_version self (mkey operation) (versioned sequence operation))
      (sequence + 1) operations
  end.

(** lsm/memtable.rs:257-294 Memtable::apply_write_batch; [count - 1] wraps. *)
Definition apply_write_batch (self : Memtable) (batch : WriteBatch) (first last : Z)
    : result Error Memtable :=
  let operation_count := len (operations batch) in
  let? expected_last := ok_or (checked_add 64 first ((operation_count - 1) mod 2 ^ 64))
    (InvalidBatch "batch sequence range overflow") in
  if (negb (first =? saturating_add 64 (maximum_sequence self) 1) || negb (last =? expected_last))%bool
  then Err (InvalidBatch ("batch sequence range " +:+ pretty first +:+ "..=" +:+ pretty last
         +:+ " does not match " +:+ pretty operation_count +:+ " operation(s) after sequence "
         +:+ pretty (maximum_sequence self)))
  else
    let? batch_charge := charge_batch batch in
    let? next_charge := charge_add (charge_of self) batch_charge in
    let table := insert_operations self first (operations batch) in
    Ok {| versions := versions table; maximum_sequence := last;
          version_count := charge_versions next_charge;
          approximate_bytes := charge_bytes next_charge;
          profile_counters := profile_counters table |}.

(** lsm/memtable.rs:296-328 Memtable::apply_owned_write_batch, which moves what
    [apply_write_batch] clones *)
Definition apply_owned_write_batch (self : Memtable) (batch : WriteBatch) (first last : Z)
    : result Error Memtable := apply_write_batch self batch first last.

(** lsm/memtable.rs:242-245 Memtable::apply *)
Definition apply (self : Memtable) (recovered : RecoveredBatch) : result Error Memtable :=
  let? batch := decode (rec_payload recovered) in
  apply_write_batch self batch (rec_first recovered) (rec_last recovered).

(** lsm/memtable.rs:247-255 Memtable::apply_owned_recovered *)
Definition apply_owned_recovered (self : Memtable) (recovered : RecoveredBatch) (limits : MutableLimits)
    : result Error Memtable :=
  let? batch := decode (rec_payload recovered) in
  let? batch_charge := charge_batch batch in
  let? charge := charge_add (charge_of self) batch_charge in
  do? limits_check limits charge in
  apply_owned_write_batch self batch (rec_first recovered) (rec_last recovered).

(** lsm/memtable.rs:164-175 Memtable::recover_from *)
Definition memtable_recover_from (batches : list RecoveredBatch) (previous_sequence : Z)
    : result Error Memtable :=
  try_fold (λ table recovered,
      let? batch := decode (rec_payload recovered) in
      apply_owned_write_batch table batch (rec_first recovered) (rec_last recovered))
    (at_sequence previous_sequence) batches.

(** lsm/memtable.rs:160-162 Memtable::recover *)
Definition memtable_recover (batches : list RecoveredBatch) : result Error Memtable :=
  memtable_recover_from batches 0.

(** What [from_versions] has summed up so far. *)
Record Totals := { t_bytes : Z; t_versions : Z; t_counters : ProfileCounters }.

(** lsm/memtable.rs:206-225 Memtable::from_versions, the versions of one key *)
Fixpoint check_versions (key_len maximum previous : Z) (values : list VersionedValue) (t : Totals)
    : result Error Totals :=
  match values with
  | [] => Ok t
  | v :: values =>
    if ((sequence v =? 0) || (sequence v <=? previous) || (maximum <? sequence v))%bool
    then Err (InvalidSegment "compacted versions are not strictly ordered")
    else
      let? charge := version_charge key_len
        (match value v with Some v => len v | None => 0 end) in
      let? bytes := ok_or (checked_add 64 (t_bytes t) charge)
        (InvalidSegment "compacted mutable byte accounting overflow") in
      check_versions key_len maximum (sequence v) values
        {| t_bytes := bytes; t_versions := t_versions t;
           t_counters := add_version (t_counters t) v |}
  end.

(** lsm/memtable.rs:191-229 Memtable::from_versions, one key; its versions come with the
    capacity of their [Vec]. *)
Definition check_key (maximum : Z) (t : Totals) (row : key * (list VersionedValue * Z))
    : result Error Totals :=
  let '(k, (values, capacity)) := row in
  if (bool_decide (k = []) || bool_decide (values = []))%bool
  then Err (InvalidSegment "compacted memtable contains an empty key/version set")
  else
    let counters := add_key (t_counters t) k in
    let counters := if 1 <? len values then add_spill counters 1 capacity else counters in
    let? t := check_versions (len k) maximum 0 values
      {| t_bytes := t_bytes t; t_versions := t_versions t; t_counters := counters |} in
    let? count := ok_or (checked_add 64 (t_versions t) (len values))
      (InvalidSegment "compacted version count overflow") in
    Ok {| t_bytes := t_bytes t; t_versions := count; t_counters := t_counters t |}.

(** lsm/memtable.rs:184-240 Memtable::from_versions *)
Definition from_versions (rows : list (key * (list VersionedValue * Z))) (maximum : Z)
    : result Error Memtable :=
  let? t := try_fold (check_key maximum)
    {| t_bytes := 0; t_versions := 0; t_counters := ProfileCounters_default |} rows in
  Ok {| versions := map (λ '(k, (values, capacity)), (k, chain_from_vec values capacity)) rows;
        maximum_sequence := maximum; version_count := t_versions t;
        approximate_bytes := t_bytes t; profile_counters := t_counters t |}.

(** lsm/memtable.rs:487-516 Memtable::profile *)
Definition profile (self : Memtable) : MemtableProfile :=
  let c := profile_counters self in
  {| p_key_count := key_count self; p_version_count := version_count self;
     p_key_payload_bytes := key_payload_bytes c; p_value_payload_bytes := value_payload_bytes c;
     p_tombstones := tombstones c; p_spilled_chains := spilled_chains c;
     p_spilled_version_capacity := spilled_version_capacity c;
     p_key_handle_bytes := size_of_key_handle; p_version_chain_bytes := size_of_chain;
     p_version_record_bytes := size_of_version;
     p_owned_bytes_lower_bound :=
       saturating_add 64
         (saturating_add 64
            (saturating_add 64
               (saturating_mul 64 (key_count self)
                  (saturating_add 64 size_of_key_handle size_of_chain))
               (key_payload_bytes c))
            (value_payload_bytes c))
         (saturating_mul 64 (spilled_version_capacity c) size_of_version) |}.

Definition clone_chain (self : VersionChain) : VersionChain :=
  match self with One version => One version | Many versions _ => Many versions (len versions) end.

(** lsm/memtable.rs:130-144 Clone for Memtable; a cloned vector has the capacity it needs. *)
Definition clone (self : Memtable) : Memtable :=
  let rows := map (λ '(k, chain), (k, clone_chain chain)) (versions self) in
  let c := profile_counters self in
  {| versions := rows; maximum_sequence := maximum_sequence self;
     version_count := version_count self; approximate_bytes := approximate_bytes self;
     profile_counters :=
       {| key_payload_bytes := key_payload_bytes c; value_payload_bytes := value_payload_bytes c;
          tombstones := tombstones c; spilled_chains := spilled_chains c;
          spilled_version_capacity :=
            fold_left (saturating_add 64) (omap (λ '(_, chain), spilled_capacity chain) rows) 0 |} |}.

(** What the derived equality of [VersionChain] compares. *)
Definition chain_shape (self : VersionChain) : VersionedValue + list VersionedValue :=
  match self with One version => inl version | Many versions _ => inr versions end.

(** lsm/memtable.rs:150-155 PartialEq for Memtable *)
Definition memtable_eq (self other : Memtable) : Prop :=
  map (λ '(k, chain), (k, chain_shape chain)) (versions self)
  = map (λ '(k, chain), (k, chain_shape chain)) (versions other)
  ∧ maximum_sequence self = maximum_sequence other
  ∧ version_count self = version_count other ∧ approximate_bytes self = approximate_bytes other.

(** * The specification: a history of mutations *)

Definition history := list (Z * Mutation).

(** The versions a history gives one key, oldest first. *)
Definition history_of (k : key) (h : history) : list VersionedValue :=
  omap (λ '(s, m), if decide (mkey m = k) then Some (versioned s m) else None) h.

(** Mutations numbered from [s] on. *)
Fixpoint numbered (s : Z) (ops : list Mutation) : history :=
  match ops with [] => [] | m :: ops => (s, m) :: numbered (s + 1) ops end.

Definition history_bytes (h : history) : Z :=
  fold_right (λ '(_, m) acc, len (mkey m) + value_bytes (mvalue m) + size_of_version + acc) 0 h.

Definition ordered (h : history) : Prop := StronglySorted (λ a b, a.1 < b.1) h.

Definition chain_at (m : Memtable) (k : key) : list VersionedValue :=
  match bt_get k (versions m) with Some c => as_slice c | None => [] end.

Definition total_versions : list (key * VersionChain) → Z := bt_sum (λ row : key * VersionChain, len (as_slice row.2)).

(** The table holds exactly the versions of the history, key by key. *)
Definition holds (m : Memtable) (h : history) : Prop :=
  bt_sorted (versions m)
  ∧ (∀ k, chain_at m k = history_of k h)
  ∧ (∀ k c, bt_get k (versions m) = Some c → as_slice c ≠ [])
  ∧ total_versions (versions m) = len h.

Definition represents (m : Memtable) (h : history) : Prop :=
  holds m h ∧ ordered h ∧ Forall (λ e, 1 ≤ e.1 ≤ maximum_sequence m) h
  ∧ version_count m = len h ∧ approximate_bytes m = history_bytes h
  ∧ 0 ≤ maximum_sequence m ≤ u64_max ∧ 0 ≤ approximate_bytes m.

Lemma as_slice_push c v : as_slice (chain_push c v) = as_slice c ++ [v].
Proof. by destruct c. Qed.

Lemma chain_at_insert m k v k' :
  chain_at (insert_version m k v) k' = if decide (k = k') then chain_at m k ++ [v] else chain_at m k'.
Proof.
  unfold chain_at, insert_version.
  destruct (bt_get k (versions m)) as [c|] eqn:Hk; cbn [versions];
    (destruct (decide (k = k')) as [<-|Hne]; [rewrite bt_get_insert_eq|by rewrite bt_get_insert_ne]).
  - apply as_slice_push.
  - done.
Qed.

Lemma total_versions_cons row t : total_versions (row :: t) = len (as_slice row.2) + total_versions t.
Proof. done. Qed.

Lemma total_versions_insert k c t :
  bt_sorted t →
  total_versions (bt_insert k c t)
  = total_versions t + len (as_slice c) - match bt_get k t with Some c' => len (as_slice c') | None => 0 end.
Proof. apply bt_sum_insert. Qed.

Lemma insert_version_holds m h s op :
  holds m h → holds (insert_version m (mkey op) (versioned s op)) (h ++ [(s, op)]).
Proof.
  intros (Hsort & Hchain & Hne & Htotal). split_and!; [| | |].
  - unfold insert_version. destruct (bt_get (mkey op) (versions m)); cbn [versions]; by apply bt_insert_sorted.
  - intros k. rewrite chain_at_insert. unfold history_of. rewrite omap_app. cbn [omap list_omap].
    destruct (decide (mkey op = k)) as [<-|]; [by rewrite Hchain|]. by rewrite app_nil_r, Hchain.
  - intros k c Hget Hnil.
    assert (chain_at (insert_version m (mkey op) (versioned s op)) k = []) as Hk
      by (unfold chain_at; by rewrite Hget).
    rewrite chain_at_insert in Hk. destruct (decide (mkey op = k)) as [<-|Hkne]; [by destruct (chain_at m (mkey op))|].
    revert Hget. unfold insert_version. destruct (bt_get (mkey op) (versions m)); cbn [versions];
      rewrite bt_get_insert_ne by done; intros Hget; by apply (Hne k c).
  - rewrite len_app, <-Htotal. unfold insert_version.
    destruct (bt_get (mkey op) (versions m)) as [c|] eqn:E; cbn [versions];
      rewrite total_versions_insert, E, ?as_slice_push, ?len_app by done; change (len [(s, op)]) with 1.
    + change (len [versioned s op]) with 1. lia.
    + change (len (as_slice (One (versioned s op)))) with 1. lia.
Qed.

Lemma insert_operations_holds ops m h s :
  holds m h → holds (insert_operations m s ops) (h ++ numbered s ops).
Proof.
  revert m h s; induction ops as [|op ops IH]; intros m h s Hm; cbn [insert_operations numbered].
  - by rewrite app_nil_r.
  - replace (h ++ (s, op) :: numbered (s + 1) ops) with ((h ++ [(s, op)]) ++ numbered (s + 1) ops)
      by (by rewrite <-app_assoc). apply IH. by apply insert_version_holds.
Qed.

(** ** Applying a batch *)

Lemma len_numbered s ops : len (numbered s ops) = len ops.
Proof. revert s; induction ops as [|m ops IH]; intros s; [done|]. cbn [numbered]. by rewrite !len_cons, IH. Qed.

Lemma elem_of_numbered s ops e : e ∈ numbered s ops → s ≤ e.1 < s + len ops.
Proof.
  revert s; induction ops as [|m ops IH]; intros s; cbn [numbered]; [by intros ?%not_elem_of_nil|].
  rewrite len_cons. pose proof (len_nonneg ops). intros [->|He]%elem_of_cons; cbn; [lia|].
  apply IH in He. lia.
Qed.

Lemma ordered_app h h' :
  ordered h → ordered h' → (∀ a b, a ∈ h → b ∈ h' → a.1 < b.1) → ordered (h ++ h').
Proof.
  unfold ordered. intros Hh Hh' Hlt. induction Hh as [|a h Hh IH Hall]; [done|].
  cbn. constructor; [apply IH; intros; apply Hlt; [by right|done]|].
  apply Forall_app. split; [done|]. apply Forall_forall. intros b Hb. apply Hlt; [by left|done].
Qed.

Lemma ordered_numbered s ops : ordered (numbered s ops).
Proof.
  revert s; induction ops as [|m ops IH]; intros s; cbn [numbered]; [constructor|].
  constructor; [apply IH|]. apply Forall_forall. intros e He%elem_of_numbered. cbn. lia.
Qed.

Lemma history_bytes_cons s m h :
  history_bytes ((s, m) :: h) = len (mkey m) + value_bytes (mvalue m) + size_of_version + history_bytes h.
Proof. done. Qed.
Lemma history_bytes_app h h' : history_bytes (h ++ h') = history_bytes h + history_bytes h'.
Proof.
  induction h as [|[s m] h IH]; [done|]. cbn [app]. rewrite !history_bytes_cons, IH. lia.
Qed.

Lemma version_charge_ok k v c :
  version_charge k v = Ok c ↔ c = k + v + size_of_version ∧ k + v < 2 ^ 64 ∧ k + v + size_of_version < 2 ^ 64.
Proof.
  unfold version_charge, checked_add. destruct (Z.ltb_spec (k + v) (2 ^ 64)); [|split; [done|lia]].
  destruct (Z.ltb_spec (k + v + size_of_version) (2 ^ 64)); cbn; split; try done; try lia.
  - by intros [= <-].
  - by intros (-> & _).
Qed.

Context {layout_laws : LayoutLaws}.

Lemma history_bytes_nonneg h : 0 ≤ history_bytes h.
Proof.
  induction h as [|[s m] h IH]; [done|]. rewrite history_bytes_cons.
  pose proof (value_bytes_nonneg (mvalue m)). pose proof (len_nonneg (mkey m)).
  pose proof size_of_version_nonneg. lia.
Qed.

Lemma charge_batch_ok b s c :
  charge_batch b = Ok c ↔
    history_bytes (numbered s (operations b)) < 2 ^ 64
    ∧ c = {| charge_bytes := history_bytes (numbered s (operations b));
             charge_versions := len (operations b) |}.
Proof.
  unfold charge_batch.
  set (f := λ bytes operation, let? charge := _ in _).
  assert (∀ ops acc n s, 0 ≤ acc → try_fold f acc ops = Ok n ↔
    (ops = [] ∨ acc + history_bytes (numbered s ops) < 2 ^ 64)
    ∧ n = acc + history_bytes (numbered s ops)) as Hfold.
  { induction ops as [|m ops IH]; intros acc n s' Hacc; cbn [try_fold numbered].
    { cbn. rewrite Z.add_0_r. split; [intros [= <-]; by split; [left|]|]. by intros [_ ->]. }
    pose proof (value_bytes_nonneg (mvalue m)) as Hv. pose proof (len_nonneg (mkey m)).
    pose proof size_of_version_nonneg. pose proof (history_bytes_nonneg (numbered (s' + 1) ops)).
    rewrite history_bytes_cons.
    unfold f at 1. fold f.
    replace (match m with Put _ value => len value | Delete _ => 0 end) with (value_bytes (mvalue m))
      by (by destruct m).
    destruct (version_charge (len (mkey m)) (value_bytes (mvalue m))) as [c1|] eqn:Hc1.
    - apply version_charge_ok in Hc1 as (-> & _). unfold checked_add.
      destruct (Z.ltb_spec (acc + (len (mkey m) + value_bytes (mvalue m) + size_of_version)) (2 ^ 64)); cbn [ok_or].
      + rewrite (IH _ n (s' + 1)) by lia. destruct ops as [|m' ops].
        * change (history_bytes (numbered (s' + 1) [])) with 0.
          split; [intros [_ ->]; split; [right|]; lia|]. intros [_ ->]. split; [by left|lia].
        * split; [intros [[?|?] ->]; [done|split; [right|]; lia]|].
          intros [[?|?] ->]; [done|]. split; [right|]; lia.
      + split; [done|]. intros [[?|?] _]; [done|lia].
    - split; [done|]. intros [[?|?] _]; [done|]. exfalso.
      assert (version_charge (len (mkey m)) (value_bytes (mvalue m))
        = Ok (len (mkey m) + value_bytes (mvalue m) + size_of_version)) as E
        by (apply version_charge_ok; split_and!; lia). congruence. }
  destruct (try_fold f 0 (operations b)) as [n|] eqn:E.
  - apply (Hfold _ _ _ s) in E as [Hor ->]; [|lia]. rewrite Z.add_0_l in *.
    assert (history_bytes (numbered s (operations b)) < 2 ^ 64) by (destruct Hor as [->|]; [cbn; lia|done]).
    split; [by intros [= <-]|by intros [_ ->]].
  - split; [done|]. intros [Hlt _]. exfalso.
    assert (∃ n, try_fold f 0 (operations b) = Ok n) as [n Hn]; [|congruence].
    eexists. apply (Hfold _ _ _ s); [lia|]. split; [by right|done].
Qed.

Lemma charge_add_ok a b c :
  charge_add a b = Ok c ↔
    charge_bytes a + charge_bytes b < 2 ^ 64 ∧ charge_versions a + charge_versions b < 2 ^ 64
    ∧ c = {| charge_bytes := charge_bytes a + charge_bytes b;
             charge_versions := charge_versions a + charge_versions b |}.
Proof.
  unfold charge_add, checked_add. destruct (Z.ltb_spec (charge_bytes a + charge_bytes b) (2 ^ 64)); cbn [ok_or].
  - destruct (Z.ltb_spec (charge_versions a + charge_versions b) (2 ^ 64)); cbn [ok_or].
    + split; [by intros [= <-]|by intros (_ & _ & ->)].
    + split; [done|lia].
  - split; [done|lia].
Qed.

(** When a batch is accepted, and what the table represents afterwards. *)
Lemma apply_ok m h b first last :
  represents m h → maximum_sequence m < u64_max → operations b ≠ [] → len (operations b) < 2 ^ 64 →
  is_ok (apply_write_batch m b first last) = true ↔
    first = maximum_sequence m + 1 ∧ last = maximum_sequence m + len (operations b) ∧ last < 2 ^ 64
    ∧ history_bytes (h ++ numbered first (operations b)) < 2 ^ 64
    ∧ len h + len (operations b) < 2 ^ 64.
Proof.
  intros (_ & _ & _ & Hvc & Hab & Hmax & _) Hlt Hne Hlen. unfold u64_max in *.
  assert (1 ≤ len (operations b)) as H1.
  { pose proof (len_nonneg (operations b)). pose proof (len_zero (operations b)).
    destruct (decide (len (operations b) = 0)); [naive_solver|lia]. }
  unfold apply_write_batch, saturating_add. rewrite Z.mod_small, Z.min_l by lia.
  unfold checked_add. destruct (Z.ltb_spec (first + (len (operations b) - 1)) (2 ^ 64)); cbn [ok_or];
    [|split; [done|lia]].
  destruct (Z.eqb_spec first (maximum_sequence m + 1)) as [->|]; cbn [negb orb]; [|split; [done|lia]].
  destruct (Z.eqb_spec last (maximum_sequence m + 1 + (len (operations b) - 1))) as [->|]; cbn [negb];
    [|split; [done|lia]].
  pose proof (charge_batch_ok b (maximum_sequence m + 1)) as Hcb. rewrite history_bytes_app.
  pose proof (history_bytes_nonneg h). pose proof (history_bytes_nonneg (numbered (maximum_sequence m + 1) (operations b))).
  destruct (charge_batch b) as [c|e].
  - destruct (proj1 (Hcb c) eq_refl) as [_ ->]. pose proof (charge_add_ok (charge_of m)
      {| charge_bytes := history_bytes (numbered (maximum_sequence m + 1) (operations b));
         charge_versions := len (operations b) |}) as Hca.
    cbn [charge_bytes charge_versions charge_of] in Hca. rewrite Hvc, Hab in Hca.
    destruct (charge_add (charge_of m) _) as [c2|e2].
    + destruct (proj1 (Hca c2) eq_refl) as (? & ? & _). cbn. split; [intros _; split_and!; lia|done].
    + split; [done|]. intros (_ & _ & _ & Hbytes & Hcount). exfalso.
      by pose proof (proj2 (Hca _) (conj Hbytes (conj Hcount eq_refl))).
  - split; [done|]. intros (_ & _ & _ & Hbytes & _). exfalso.
    assert (history_bytes (numbered (maximum_sequence m + 1) (operations b)) < 2 ^ 64) as Hb by lia.
    by pose proof (proj2 (Hcb _) (conj Hb eq_refl)).
Qed.

Lemma apply_represents m h b first last m' :
  represents m h → maximum_sequence m < u64_max → operations b ≠ [] → len (operations b) < 2 ^ 64 →
  apply_write_batch m b first last = Ok m' →
  first = maximum_sequence m + 1 ∧ last = maximum_sequence m + len (operations b)
  ∧ maximum_sequence m' = last ∧ represents m' (h ++ numbered first (operations b))
  ∧ versions m' = versions (insert_operations m first (operations b)).
Proof.
  intros Hr Hlt Hne Hlen Happ.
  assert (is_ok (apply_write_batch m b first last) = true) as Hok by (by rewrite Happ).
  apply (apply_ok m h) in Hok as (-> & -> & Hlast & Hbytes & Hcount); [|done..].
  destruct Hr as (Hholds & Hord & Hall & Hvc & Hab & Hmax & Hab0).
  pose proof (len_nonneg (operations b)) as Hl0.
  revert Happ. unfold apply_write_batch. destruct (ok_or _ _); [|done].
  destruct (_ || _)%bool; [done|]. destruct (charge_batch b) as [c|] eqn:Hc; [|done].
  apply (charge_batch_ok b (maximum_sequence m + 1)) in Hc as [_ ->].
  destruct (charge_add _ _) as [c|] eqn:Hc; [|done]. apply charge_add_ok in Hc as (_ & _ & ->).
  intros [= <-]. cbn [charge_bytes charge_versions charge_of maximum_sequence versions].
  do 3 (split; [done|]). split; [|done]. split; [|split_and!].
  - exact (insert_operations_holds (operations b) m h (maximum_sequence m + 1) Hholds).
  - apply ordered_app; [done|apply ordered_numbered|]. intros x y Hx Hy.
    eapply Forall_forall in Hall; [|exact Hx]. apply elem_of_numbered in Hy. lia.
  - apply Forall_app. split; apply Forall_forall; intros e He; cbn [maximum_sequence].
    + eapply Forall_forall in Hall; [|exact He]. lia.
    + apply elem_of_numbered in He. lia.
  - cbn [version_count]. by rewrite Hvc, len_app, len_numbered.
  - cbn [approximate_bytes]. by rewrite Hab, history_bytes_app.
  - unfold u64_max. cbn [maximum_sequence]. lia.
  - unfold u64_max. cbn [maximum_sequence]. lia.
  - cbn [approximate_bytes]. pose proof (history_bytes_nonneg (numbered (maximum_sequence m + 1) (operations b))). lia.
Qed.

Lemma at_sequence_represents s : 0 ≤ s ≤ u64_max → represents (at_sequence s) [].
Proof.
  intros Hs. unfold represents, holds, at_sequence, chain_at; cbn.
  split_and!; try done; try lia; try constructor.
Qed.

(** ** Reads answer from the history *)

(** [v] is what a reader at sequence [s] sees of [k]: the newest mutation at or below [s]. *)
Definition newest_at (h : history) (k : key) (s : Z) (v : VersionedValue) : Prop :=
  ∃ op, (sequence v, op) ∈ h ∧ mkey op = k ∧ value v = mvalue op ∧ sequence v ≤ s
    ∧ ∀ s' op', (s', op') ∈ h → mkey op' = k → s' ≤ s → s' ≤ sequence v.

Lemma elem_of_history_of k h v :
  v ∈ history_of k h ↔ ∃ op, (sequence v, op) ∈ h ∧ mkey op = k ∧ value v = mvalue op.
Proof.
  unfold history_of. rewrite list_elem_of_omap. split.
  - intros ([s op] & Hin & E). case_decide; [|done]. injection E as <-. by exists op.
  - intros (op & Hin & Hk & Hv). exists (sequence v, op). split; [done|]. rewrite decide_True by done.
    unfold versioned. rewrite <-Hv. by destruct v.
Qed.

Lemma history_of_ordered k h : ordered h → StronglySorted (λ a b, sequence a < sequence b) (history_of k h).
Proof.
  unfold ordered. induction 1 as [|[s op] h Hs IH Hall]; [constructor|].
  unfold history_of in *. cbn [omap list_omap]. case_decide; [|done]. constructor; [done|].
  apply Forall_forall. intros v (op' & Hin & _)%elem_of_history_of.
  eapply Forall_forall in Hall; [|exact Hin]. done.
Qed.

Lemma find_app {A} (f : A → bool) l k :
  find f (l ++ k) = match find f l with Some x => Some x | None => find f k end.
Proof. induction l as [|x l IH]; simpl; [done|]. by destruct (f x). Qed.

(** The last element of an ascending list that passes a downward closed test. *)
Lemma find_rev_sorted l s :
  StronglySorted (λ a b, sequence a < sequence b) l →
  match visible_in l s with
  | Some v => v ∈ l ∧ sequence v ≤ s ∧ ∀ w, w ∈ l → sequence w ≤ s → sequence w ≤ sequence v
  | None => ∀ w, w ∈ l → s < sequence w
  end.
Proof.
  unfold visible_in. intros Hs. induction Hs as [|a l Hs IH Hall]; cbn [rev find]; [by intros w ?%not_elem_of_nil|].
  rewrite find_app. destruct (find _ (rev l)) as [v|].
  - destruct IH as (Hin & Hle & Hbest). split_and!; [by right|done|].
    intros w [->|Hw]%elem_of_cons Hws; [|by apply Hbest].
    eapply Forall_forall in Hall; [|exact Hin]. cbn in Hall. lia.
  - cbn [find]. destruct (Z.leb_spec (sequence a) s) as [Hle|Hgt].
    + split_and!; [by left|done|]. intros w [->|Hw]%elem_of_cons Hws; [lia|]. specialize (IH w Hw). lia.
    + intros w [->|Hw]%elem_of_cons; [lia|by apply IH].
Qed.

Lemma get_version_chain m k s : get_version m k s = visible_in (chain_at m k) s.
Proof. unfold get_version, chain_at. by destruct (bt_get k (versions m)). Qed.

Lemma get_version_spec m h k s v :
  represents m h → get_version m k s = Some v ↔ newest_at h k s v.
Proof.
  intros ((_ & Hchain & _) & Hord & _). rewrite get_version_chain, Hchain.
  pose proof (find_rev_sorted _ s (history_of_ordered k h Hord)) as Hf. split.
  - intros E. rewrite E in Hf. destruct Hf as (Hin & Hle & Hbest).
    apply elem_of_history_of in Hin as (op & Hin & Hk & Hv). exists op. split_and!; try done.
    intros s' op' Hin' Hk' Hle'. apply (Hbest (versioned s' op')); [|done].
    apply elem_of_history_of. by exists op'.
  - intros (op & Hin & Hk & Hv & Hle & Hbest).
    assert (v ∈ history_of k h) as Hvin by (apply elem_of_history_of; by exists op).
    destruct (visible_in (history_of k h) s) as [w|]; [|specialize (Hf v Hvin); lia].
    destruct Hf as (Hwin & Hwle & Hwbest). f_equal.
    assert (sequence w = sequence v) as Heq.
    { apply elem_of_history_of in Hwin as (op' & Hin' & Hk' & _).
      specialize (Hbest _ _ Hin' Hk' Hwle). specialize (Hwbest v Hvin Hle). lia. }
    pose proof (history_of_ordered k h Hord) as Hso. clear -Hso Hvin Hwin Heq.
    induction Hso as [|a l Hso IH Hall]; [by apply not_elem_of_nil in Hvin|].
    apply elem_of_cons in Hvin as [->|Hv]; apply elem_of_cons in Hwin as [->|Hw]; try done; [| |by apply IH].
    all: (eapply Forall_forall in Hall; [|eassumption]; cbn in Hall; lia).
Qed.

(** ** Scans *)

Definition key_in_range (start : key) (end_ : option key) (k : key) : bool :=
  (leb start k && match end_ with Some e => ltb k e | None => true end)%bool.

Definition inverted (start : key) (end_ : option key) : bool :=
  match end_ with Some e => ltb e start | None => false end.

Lemma half_open_bounds start end_ k :
  (above (half_open start end_).1 k && below (half_open start end_).2 k)%bool = key_in_range start end_ k.
Proof. by destruct end_. Qed.

Lemma bt_range_half_open {V} start end_ (t : list (key * V)) :
  bt_range (half_open start end_).1 (half_open start end_).2 t
  = if inverted start end_ then None else Some (bt_select (half_open start end_).1 (half_open start end_).2 t).
Proof. by destruct end_. Qed.

Lemma visible_from_spec m start end_ s :
  bt_sorted (versions m) →
  if inverted start end_ then visible_from m start end_ s = None
  else ∃ rows, visible_from m start end_ s = Some rows ∧ bt_sorted rows
    ∧ ∀ k, bt_get k rows = if key_in_range start end_ k then get_version m k s else None.
Proof.
  intros Hs. unfold visible_from. rewrite bt_range_half_open. destruct (inverted start end_); [done|].
  eexists. split; [done|].
  destruct (bt_range_omap (λ c, visible_in (as_slice c) s)
    (λ '(k, chain), match visible_in (as_slice chain) s with Some version => Some (k, version) | None => None end)
    (half_open start end_).1 (half_open start end_).2 (versions m)) as [Hsort Hget]; [|done|].
  { intros k c. by destruct (visible_in (as_slice c) s). }
  split; [done|]. intros k. rewrite Hget, half_open_bounds. unfold get_version.
  destruct (key_in_range start end_ k); [|done]. by destruct (bt_get k (versions m)).
Qed.

Lemma scan_spec m start end_ s :
  bt_sorted (versions m) →
  if inverted start end_ then scan m start end_ s = None
  else ∃ rows, scan m start end_ s = Some rows ∧ bt_sorted rows
    ∧ ∀ k, bt_get k rows = if key_in_range start end_ k then get m k s else None.
Proof.
  intros Hs. unfold scan. rewrite bt_range_half_open. destruct (inverted start end_); [done|].
  eexists. split; [done|].
  destruct (bt_range_omap (λ c, visible_in (as_slice c) s ≫= value)
    (λ '(k, chain), match visible_in (as_slice chain) s with
       | Some version => match value version with Some v => Some (k, v) | None => None end
       | None => None end)
    (half_open start end_).1 (half_open start end_).2 (versions m)) as [Hsort Hget]; [|done|].
  { intros k c. destruct (visible_in (as_slice c) s) as [v|]; [|done]. cbn. by destruct (value v). }
  split; [done|]. intros k. rewrite Hget, half_open_bounds. unfold get, get_version.
  destruct (key_in_range start end_ k); [|done]. by destruct (bt_get k (versions m)).
Qed.

Lemma scan_each_fold {E S} m start end_ s (visit : S → key → list byte → result E S) st :
  scan_each m start end_ s visit st
  = match scan m start end_ s with
    | None => None
    | Some rows => Some (try_fold (λ st '(k, v), visit st k v) st rows)
    end.
Proof.
  unfold scan_each, scan. rewrite bt_range_half_open. destruct (inverted start end_); [done|].
  f_equal. generalize (bt_select (half_open start end_).1 (half_open start end_).2 (versions m)) as rows.
  intros rows. revert st. induction rows as [|[k c] rows IH]; intros st; [done|].
  cbn [try_fold omap list_omap].
  destruct (visible_in (as_slice c) s) as [v|]; [|apply IH].
  destruct (value v) as [w|]; [|apply IH]. cbn [try_fold]. destruct (visit st k w); [apply IH|done].
Qed.

(** Reads are multi-version reads: at sequence [s], a lookup returns the newest mutation
    of the key whose sequence is at most [s] (deletions included), and nothing exactly when
    the history has none. *)
Theorem memtable_get_newest m h k s :
  represents m h →
  (∀ v, get_version m k s = Some v ↔ newest_at h k s v)
  ∧ (get_version m k s = None ↔ ∀ s' op, (s', op) ∈ h → mkey op = k → s < s')
  ∧ get m k s = get_version m k s ≫= value.
Proof.
  intros Hr. split_and!.
  - intros v. by apply get_version_spec.
  - pose proof Hr as ((_ & Hchain & _) & Hord & _). rewrite get_version_chain, Hchain.
    pose proof (find_rev_sorted _ s (history_of_ordered k h Hord)) as Hf. split.
    + intros E s' op Hin Hk. rewrite E in Hf. apply (Hf (versioned s' op)).
      apply elem_of_history_of. by exists op.
    + intros Hall. destruct (visible_in (history_of k h) s) as [v|]; [|done].
      destruct Hf as (Hin & Hle & _). apply elem_of_history_of in Hin as (op & Hin & Hk & _).
      specialize (Hall _ _ Hin Hk). lia.
  - unfold get. by destruct (get_version m k s).
Qed.

(** A scan is exact: an inverted range panics; otherwise the rows are in strictly
    ascending key order and are exactly the keys of the half-open range with their value
    visible at the sequence, and the visiting form of the scan sees the same rows in the same
    order. *)
Theorem memtable_scan_exact m h start end_ s :
  represents m h →
  match scan m start end_ s with
  | None => inverted start end_ = true
  | Some rows => inverted start end_ = false ∧ bt_sorted rows
      ∧ (∀ k v, (k, v) ∈ rows ↔ key_in_range start end_ k = true ∧ get m k s = Some v)
      ∧ ∀ E S (visit : S → key → list byte → result E S) st,
          scan_each m start end_ s visit st = Some (try_fold (λ st '(k, v), visit st k v) st rows)
  end.
Proof.
  intros ((Hs & _) & _). pose proof (scan_spec m start end_ s Hs) as Hscan.
  destruct (inverted start end_); [by rewrite Hscan|]. destruct Hscan as (rows & Heq & Hsort & Hget).
  rewrite Heq. split_and!; [done|done| |].
  - intros k v. rewrite <-(bt_get_Some k v rows) by done. rewrite Hget.
    destruct (key_in_range start end_ k); split; try done; naive_solver.
  - intros. by rewrite scan_each_fold, Heq.
Qed.

(** ** Snapshots *)

Lemma newest_at_app h h' k s v :
  Forall (λ e, s < e.1) h' → newest_at (h ++ h') k s v ↔ newest_at h k s v.
Proof.
  intros Hh'. assert (∀ s' op', (s', op') ∈ h' → s' ≤ s → False) as Hno.
  { intros s' op' Hin Hle. eapply Forall_forall in Hh'; [|exact Hin]. cbn in Hh'. lia. }
  unfold newest_at. split; intros (op & Hin & Hk & Hv & Hle & Hbest); exists op.
  - apply elem_of_app in Hin as [Hin|Hin]; [|by exfalso; eapply Hno]. split_and!; try done.
    intros s' op' Hin'. apply Hbest. apply elem_of_app. by left.
  - split_and!; try done; [apply elem_of_app; by left|].
    intros s' op' [Hin'|Hin']%elem_of_app Hk' Hle'; [by eapply Hbest|by exfalso; eapply Hno].
Qed.

Lemma option_ext {A} (a b : option A) : (∀ x, a = Some x ↔ b = Some x) → a = b.
Proof. intros Hab. destruct a as [x|]; [symmetry; by apply Hab|]. destruct b as [y|]; [by apply Hab|done]. Qed.

(** Snapshots are stable: applying a batch never changes what a reader at an earlier
    sequence sees, by lookup, by range scan or in the layered view that keeps tombstones. *)
Theorem memtable_snapshot_stable m h b first last m' s :
  represents m h → maximum_sequence m < u64_max → operations b ≠ [] → len (operations b) < 2 ^ 64 →
  apply_write_batch m b first last = Ok m' → s ≤ maximum_sequence m →
  (∀ k, get_version m' k s = get_version m k s)
  ∧ (∀ start end_, scan m' start end_ s = scan m start end_ s)
  ∧ (∀ start end_, visible_from m' start end_ s = visible_from m start end_ s).
Proof.
  intros Hr Hlt Hne Hlen Happ Hs.
  destruct (apply_represents _ _ _ _ _ _ Hr Hlt Hne Hlen Happ) as (-> & _ & _ & Hr' & _).
  assert (∀ k, get_version m' k s = get_version m k s) as Hget.
  { intros k. apply option_ext. intros v. rewrite (get_version_spec m' _ k s v Hr'), (get_version_spec m h k s v Hr).
    apply newest_at_app. apply Forall_forall. intros e He%elem_of_numbered. lia. }
  destruct Hr as ((Hsort & _) & _). destruct Hr' as ((Hsort' & _) & _). split_and!; [done|..].
  - intros start end_. pose proof (scan_spec m start end_ s Hsort) as Ha.
    pose proof (scan_spec m' start end_ s Hsort') as Hb. destruct (inverted start end_); [congruence|].
    destruct Ha as (ra & -> & Hsa & Hga), Hb as (rb & -> & Hsb & Hgb). f_equal.
    apply bt_ext; [done|done|]. intros k. rewrite Hga, Hgb. unfold get. by rewrite Hget.
  - intros start end_. pose proof (visible_from_spec m start end_ s Hsort) as Ha.
    pose proof (visible_from_spec m' start end_ s Hsort') as Hb. destruct (inverted start end_); [congruence|].
    destruct Ha as (ra & -> & Hsa & Hga), Hb as (rb & -> & Hsb & Hgb). f_equal.
    apply bt_ext; [done|done|]. intros k. by rewrite Hga, Hgb, Hget.
Qed.

(** C27: a table refines its history: a batch is accepted exactly when its sequence range
    continues the table and its charge does not overflow; the table then represents the
    history extended by the batch's operations, one sequence number each, and its version and
    byte counts are exact. *)
Theorem memtable_apply_refines m h b first last :
  represents m h → maximum_sequence m < u64_max → operations b ≠ [] → len (operations b) < 2 ^ 64 →
  (is_ok (apply_write_batch m b first last) = true ↔
    first = maximum_sequence m + 1 ∧ last = maximum_sequence m + len (operations b) ∧ last < 2 ^ 64
    ∧ history_bytes (h ++ numbered first (operations b)) < 2 ^ 64
    ∧ len h + len (operations b) < 2 ^ 64)
  ∧ ∀ m', apply_write_batch m b first last = Ok m' →
      represents m' (h ++ numbered first (operations b)) ∧ maximum_sequence m' = last.
Proof.
  intros Hr Hlt Hne Hlen. split; [by apply apply_ok|]. intros m' Happ.
  by destruct (apply_represents _ _ _ _ _ _ Hr Hlt Hne Hlen Happ) as (_ & _ & ? & ? & _).
Qed.

(** ** Seeking *)

Definition shown (s : Z) (row : key * VersionChain) : option (key * Z) :=
  match visible_in (as_slice row.2) s with Some v => Some (row.1, sequence v) | None => None end.

Lemma seek_chain_spec l s ex :
  0 ≤ ex → ex + len l < 2 ^ 64 →
  ∃ ex', seek_chain l s ex = Ok (sequence <$> find (λ v, sequence v <=? s) l, ex')
    ∧ ex ≤ ex' ≤ ex + len l.
Proof.
  revert ex; induction l as [|v l IH]; intros ex Hex Hlt; cbn [seek_chain find].
  { exists ex. unfold len; cbn. split; [done|lia]. }
  rewrite len_cons in *. pose proof (len_nonneg l). unfold checked_add.
  rewrite (proj2 (Z.ltb_lt _ _)) by lia. cbn [ok_or]. destruct (sequence v <=? s).
  - exists (ex + 1). split; [done|lia].
  - destruct (IH (ex + 1)) as (ex' & -> & ?); [lia|lia|]. exists ex'. split; [done|lia].
Qed.

Lemma seek_rows_spec rows s ex :
  0 ≤ ex → ex + total_versions rows < 2 ^ 64 →
  ∃ ex', seek_rows rows s ex = Ok (head (omap (shown s) rows), ex')
    ∧ ex ≤ ex' ≤ ex + total_versions rows.
Proof.
  revert ex; induction rows as [|[k c] rows IH]; intros ex Hex Hlt; cbn [seek_rows].
  { exists ex. cbn. split; [done|lia]. }
  rewrite total_versions_cons in *. cbn [snd] in *. pose proof (len_nonneg (as_slice c)).
  assert (0 ≤ total_versions rows).
  { clear. induction rows as [|r rows IH]; [done|]. rewrite total_versions_cons.
    pose proof (len_nonneg (as_slice r.2)). lia. }
  assert (len (rev (as_slice c)) = len (as_slice c)) as Hrev by (unfold len; by rewrite length_rev).
  destruct (seek_chain_spec (rev (as_slice c)) s ex) as (ex1 & Heq & Hb); [lia|rewrite Hrev; lia|].
  rewrite Heq. rewrite Hrev in Hb. cbn [omap list_omap]. unfold shown at 1. cbn [fst snd].
  fold (visible_in (as_slice c) s). destruct (visible_in (as_slice c) s) as [v|]; cbn.
  - exists ex1. split; [done|lia].
  - destruct (IH ex1) as (ex2 & -> & Hb2); [lia|lia|]. exists ex2. split; [done|lia].
Qed.

Lemma total_versions_select lo hi t : total_versions (bt_select lo hi t) ≤ total_versions t.
Proof.
  unfold bt_select. induction t as [|r t IH]; [done|]. cbn [List.filter].
  pose proof (len_nonneg (as_slice r.2)). destruct (_ && _)%bool; rewrite ?total_versions_cons; lia.
Qed.

Definition valid_range (r : ProjectedReadRange) : Prop := range_validate r = Ok tt.
Definition before (r r' : ProjectedReadRange) : Prop :=
  match range_end r with Some e => leb e (range_start r') = true | None => False end.

(** The keys a seek looks for. *)
Definition candidate (m : Memtable) (ranges : list ProjectedReadRange) (after : option key) (s : Z)
    (k : key) (q : Z) : Prop :=
  (∃ r, r ∈ ranges ∧ range_contains r k = true)
  ∧ match after with Some a => ltb a k = true | None => True end
  ∧ ∃ v, get_version m k s = Some v ∧ sequence v = q.

Definition seek_lower (r : ProjectedReadRange) (after : option key) : bound key :=
  match after with
  | Some after => if leb (range_start r) after then Excluded after else Included (range_start r)
  | None => Included (range_start r)
  end.
Definition seek_upper (r : ProjectedReadRange) : bound key :=
  match range_end r with Some e => Excluded e | None => Unbounded end.

Lemma seek_bounds r after k :
  (above (seek_lower r after) k && below (seek_upper r) k)%bool = true ↔
  range_contains r k = true ∧ match after with Some a => ltb a k = true | None => True end.
Proof.
  unfold seek_lower, seek_upper, range_contains. rewrite !andb_true_iff.
  assert (below (match range_end r with Some e => Excluded e | None => Unbounded end) k
    = match range_end r with Some e => ltb k e | None => true end) as -> by (by destruct (range_end r)).
  destruct after as [a|]; cbn; [|naive_solver]. destruct (leb (range_start r) a) eqn:E; cbn.
  - split; [|naive_solver]. intros [Ha Hb]. split_and!; [|done|done].
    apply ltb_leb. by eapply leb_ltb_trans.
  - split; [|naive_solver]. intros [Ha Hb]. split_and!; [done|done|].
    rewrite leb_ltb, negb_false_iff in E. by eapply ltb_leb_trans.
Qed.

Lemma seek_no_panic r after :
  valid_range r →
  (match after, range_end r with Some a, Some e => leb e a | _, _ => false end) = false →
  range_panics (seek_lower r after) (seek_upper r) = false.
Proof.
  unfold valid_range, range_validate, seek_lower, seek_upper. intros Hv Hskip.
  destruct (range_end r) as [e|]; [|by destruct after as [a|]; [destruct (leb (range_start r) a)|]].
  destruct (leb e (range_start r)) eqn:Hle; [done|]. rewrite leb_ltb, negb_false_iff in Hle.
  assert (ltb e (range_start r) = false) as Hns.
  { destruct (ltb e (range_start r)) eqn:E; [|done]. pose proof (ltb_trans _ _ _ E Hle) as E'.
    by rewrite ltb_irrefl in E'. }
  destruct after as [a|]; [|done]. destruct (leb (range_start r) a); [|done]. cbn.
  by rewrite leb_ltb in Hskip.
Qed.

(** What one range contributes: its first visible key after [after]. *)
Lemma seek_range_spec m r after s :
  bt_sorted (versions m) →
  match head (omap (shown s) (bt_select (seek_lower r after) (seek_upper r) (versions m))) with
  | Some (k, q) => candidate m [r] after s k q ∧ ∀ k' q', candidate m [r] after s k' q' → leb k k' = true
  | None => ∀ k' q', ¬ candidate m [r] after s k' q'
  end.
Proof.
  intros Hs.
  destruct (bt_range_omap (λ c, sequence <$> visible_in (as_slice c) s) (shown s)
    (seek_lower r after) (seek_upper r) (versions m)) as [Hsort Hget]; [|done|].
  { intros k c. unfold shown; cbn. by destruct (visible_in (as_slice c) s). }
  assert (∀ k q, candidate m [r] after s k q ↔
    bt_get k (omap (shown s) (bt_select (seek_lower r after) (seek_upper r) (versions m))) = Some q) as Hc.
  { intros k q. rewrite Hget. pose proof (seek_bounds r after k) as Hb.
    assert ((bt_get k (versions m) ≫= λ c, sequence <$> visible_in (as_slice c) s) = Some q
      ↔ ∃ v, get_version m k s = Some v ∧ sequence v = q) as Hv.
    { unfold get_version. destruct (bt_get k (versions m)) as [c|]; cbn; [|naive_solver].
      destruct (visible_in (as_slice c) s); cbn; naive_solver. }
    assert ((∃ r', r' ∈ [r] ∧ range_contains r' k = true) ↔ range_contains r k = true) as Hin.
    { split; [intros (r' & ->%list_elem_of_singleton & ?); done|]. intros ?. exists r. split; [|done].
      by apply list_elem_of_singleton. }
    unfold candidate. rewrite Hin. destruct (above _ _ && below _ _)%bool.
    - rewrite Hv. destruct (proj1 Hb eq_refl) as [? ?]. split; [by intros (_ & _ & ?)|]. intros ?. by split_and!.
    - split; [|done]. intros (Hr & Ha & _). by pose proof (proj2 Hb (conj Hr Ha)). }
  destruct (omap (shown s) _) as [|[k q] rest]; cbn [head].
  - intros k' q' Hk. apply Hc in Hk. done.
  - split; [apply Hc; cbn; by rewrite cmp_refl|]. intros k' q' Hk%Hc%bt_get_elem.
    apply elem_of_cons in Hk as [[= -> ->]|Hk]; [apply leb_refl|].
    inversion Hsort as [|? ? _ Hall]; subst. eapply Forall_forall in Hall; [|exact Hk]. by apply ltb_leb.
Qed.

Lemma candidate_cons m r ranges after s k q :
  candidate m (r :: ranges) after s k q ↔ candidate m [r] after s k q ∨ candidate m ranges after s k q.
Proof.
  unfold candidate. split.
  - intros ((r' & [->|Hr']%elem_of_cons & Hc) & Ha & Hv); [left|right]; (split; [|done]).
    + exists r. split; [by left|done].
    + by exists r'.
  - intros [((r' & ->%list_elem_of_singleton & Hc) & Ha & Hv)|((r' & Hr' & Hc) & Ha & Hv)]; (split; [|done]).
    + exists r. split; [by left|done].
    + exists r'. split; [by right|done].
Qed.

(** Keys of an earlier range come before keys of a later one. *)
Lemma candidate_before m r ranges after s k q k' q' :
  Forall (before r) ranges → candidate m [r] after s k q → candidate m ranges after s k' q' → leb k k' = true.
Proof.
  intros Hb ((r1 & ->%list_elem_of_singleton & Hc) & _) ((r' & Hr' & Hc') & _).
  eapply Forall_forall in Hb; [|exact Hr']. unfold before, range_contains in *.
  apply andb_true_iff in Hc as [_ Hc]. apply andb_true_iff in Hc' as [Hc' _].
  destruct (range_end r) as [e|]; [|done]. apply ltb_leb. eapply ltb_leb_trans; [exact Hc|]. by eapply leb_trans.
Qed.

Lemma seek_ranges_spec m ranges after s ex :
  bt_sorted (versions m) → Forall valid_range ranges → StronglySorted before ranges →
  0 ≤ ex → ex + len ranges * total_versions (versions m) < 2 ^ 64 →
  0 ≤ total_versions (versions m) →
  ∃ found ex', seek_ranges (versions m) ranges after s ex = Some (Ok (found, ex'))
    ∧ ex ≤ ex' ≤ ex + len ranges * total_versions (versions m)
    ∧ match found with
      | Some (k, q) => candidate m ranges after s k q
          ∧ ∀ k' q', candidate m ranges after s k' q' → leb k k' = true
      | None => ∀ k' q', ¬ candidate m ranges after s k' q'
      end.
Proof.
  intros Hs Hvalid. revert ex. induction Hvalid as [|r ranges Hr Hvalid IH]; intros ex Hsorted Hex Hlt Ht.
  { exists None, ex. change (len (@nil ProjectedReadRange)) with 0. split_and!; [done|lia|lia|]. intros k' q' ((r & ?%not_elem_of_nil & _) & _). done. }
  inversion Hsorted as [|? ? Hsorted' Hbefore]; subst. rewrite len_cons in *. pose proof (len_nonneg ranges) as Hl.
  cbn [seek_ranges].
  destruct (match after, range_end r with Some a, Some e => leb e a | _, _ => false end) eqn:Hskip.
  - destruct (IH ex) as (found & ex' & -> & Hb & Hf); [done|done|nia|done|].
    exists found, ex'. split; [done|]. split; [nia|].
    assert (∀ k q, ¬ candidate m [r] after s k q) as Hno.
    { intros k q ((r' & ->%list_elem_of_singleton & Hc) & Ha & _). destruct after as [a|]; [|done].
      unfold range_contains in Hc. destruct (range_end r) as [e|]; [|done].
      apply andb_true_iff in Hc as [_ Hc]. pose proof (ltb_leb_trans _ _ _ Hc Hskip) as E.
      pose proof (ltb_trans _ _ _ Ha E) as E'. by rewrite ltb_irrefl in E'. }
    destruct found as [[k q]|].
    + destruct Hf as [Hf Hbest]. split; [apply candidate_cons; by right|].
      intros k' q' [Hk|Hk]%candidate_cons; [by apply Hno in Hk|by eapply Hbest].
    + intros k' q' [Hk|Hk]%candidate_cons; [by apply Hno in Hk|by apply Hf in Hk].
  - unfold bt_range. fold (seek_lower r after) (seek_upper r). rewrite (seek_no_panic r after Hr Hskip).
    pose proof (total_versions_select (seek_lower r after) (seek_upper r) (versions m)) as Hsel.
    destruct (seek_rows_spec (bt_select (seek_lower r after) (seek_upper r) (versions m)) s ex)
      as (ex1 & -> & Hb1); [done|nia|].
    pose proof (seek_range_spec m r after s Hs) as Hhead.
    destruct (head _) as [[k q]|].
    + destruct Hhead as [Hk Hbest]. exists (Some (k, q)), ex1. split; [done|]. split; [nia|].
      split; [apply candidate_cons; by left|].
      intros k' q' [Hk'|Hk']%candidate_cons; [by eapply Hbest|by eapply candidate_before].
    + destruct (IH ex1) as (found & ex' & -> & Hb & Hf); [done|lia|nia|done|].
      exists found, ex'. split; [done|]. split; [nia|]. destruct found as [[k q]|].
      * destruct Hf as [Hf Hbest]. split; [apply candidate_cons; by right|].
        intros k' q' [Hk|Hk]%candidate_cons; [by apply Hhead in Hk|by eapply Hbest].
      * intros k' q' [Hk|Hk]%candidate_cons; [by apply Hhead in Hk|by apply Hf in Hk].
Qed.

(** Seeking is exact: over valid ranges in ascending disjoint order, a seek neither
    panics nor fails and returns the least key after the cursor that lies in a range and has
    a version visible at the sequence, with that version's sequence, or nothing exactly when
    there is no such key. *)
Theorem memtable_seek_least m h ranges after s :
  represents m h → Forall valid_range ranges → StronglySorted before ranges →
  len ranges * len h < 2 ^ 64 →
  ∃ r, seek_visible_after m ranges after s = Some (Ok r)
    ∧ 0 ≤ versions_examined r ≤ len ranges * len h
    ∧ match next r with
      | Some (k, q) => candidate m ranges after s k q
          ∧ ∀ k' q', candidate m ranges after s k' q' → leb k k' = true
      | None => ∀ k' q', ¬ candidate m ranges after s k' q'
      end.
Proof.
  intros ((Hs & _ & _ & Htotal) & _) Hvalid Hsorted Hlt. unfold seek_visible_after.
  destruct (seek_ranges_spec m ranges after s 0 Hs Hvalid Hsorted) as (found & ex & -> & Hb & Hf);
    rewrite ?Htotal in *; [lia|lia|apply len_nonneg|].
  eexists. split; [done|]. by split.
Qed.

(** ** Replaying a log *)

(** The batches of a log applied in order, each at the sequence the log gives it. *)
Fixpoint apply_all (m : Memtable) (s : Z) (bs : list WriteBatch) : result Error Memtable :=
  match bs with
  | [] => Ok m
  | b :: bs =>
    let? m := apply_write_batch m b s (s + len (operations b) - 1) in
    apply_all m (s + len (operations b)) bs
  end.

Fixpoint log_of (s : Z) (bs : list WriteBatch) : list WalBatch :=
  match bs with
  | [] => []
  | b :: bs =>
    {| first_sequence := s; last_sequence := s + len (operations b) - 1;
       payload := batch_encoding (operations b) |} :: log_of (s + len (operations b)) bs
  end.

Lemma replay_log `{Crc32c} bs m s off :
  Forall (λ b, WriteBatch_new (operations b) = Ok b) bs →
  try_fold (λ table recovered,
      let? batch := decode (rec_payload recovered) in
      apply_owned_write_batch table batch (rec_first recovered) (rec_last recovered))
    m (recovered_batches off (log_of s bs)) = apply_all m s bs.
Proof.
  intros Hbs. revert m s off; induction Hbs as [|b bs Hb _ IH]; intros m s off; [done|].
  cbn [log_of recovered_batches try_fold apply_all]. unfold recovered_batch at 1 2 3.
  cbn [rec_payload rec_first rec_last payload first_sequence last_sequence].
  pose proof Hb as (Hne & Hn & Hv & Hbytes & _)%WriteBatch_new_ok.
  rewrite decode_batch_encoding, Hb by done. unfold apply_owned_write_batch.
  destruct (apply_write_batch m b s _); [apply IH|done].
Qed.

(** C15: recovery rebuilds the table: replaying a log file into a memtable gives exactly the
    result of applying its write batches in order at the sequences the log gave them, also
    when the file ends in an incomplete frame. *)
Theorem memtable_recovers_log `{Crc32c, !Crc32cLaws} start bs t file :
  Forall (λ b, WriteBatch_new (operations b) = Ok b) bs →
  log_file start (log_of start bs) t file →
  ∃ r, recover_from file start = Ok r ∧ batches r = recovered_batches 16 (log_of start bs)
    ∧ memtable_recover_from (batches r) (start - 1) = apply_all (at_sequence (start - 1)) start bs.
Proof.
  intros Hbs Hlog. exists (recovery_of start (log_of start bs) t).
  split; [by apply recover_complete|]. split; [done|]. unfold memtable_recover_from. by apply replay_log.
Qed.

(** ** The profile counters *)

(** What a traversal of the table would count; the counters saturate at [usize::MAX]. *)
Definition sat (z : Z) : Z := Z.min z u64_max.
Definition version_payload (v : VersionedValue) : Z := match value v with Some b => len b | None => 0 end.
Definition version_tombstone (v : VersionedValue) : Z := match value v with Some _ => 0 | None => 1 end.
Definition slice_sum (f : VersionedValue → Z) (l : list VersionedValue) : Z :=
  fold_right (λ v acc, f v + acc) 0 l.
Definition traversal (t : list (key * VersionChain)) : ProfileCounters := {|
  key_payload_bytes := sat (bt_sum (λ row : key * VersionChain, len row.1) t);
  value_payload_bytes := sat (bt_sum (λ row : key * VersionChain, slice_sum version_payload (as_slice row.2)) t);
  tombstones := sat (bt_sum (λ row : key * VersionChain, slice_sum version_tombstone (as_slice row.2)) t);
  spilled_chains := sat (bt_sum (λ row : key * VersionChain, match spilled_capacity row.2 with Some _ => 1 | None => 0 end) t);
  spilled_version_capacity :=
    sat (bt_sum (λ row : key * VersionChain, match spilled_capacity row.2 with Some c => c | None => 0 end) t)
|}.

Definition chain_wf (c : VersionChain) : Prop :=
  match c with One _ => True | Many versions capacity => 2 ≤ len versions ≤ capacity end.
Definition profile_exact (m : Memtable) : Prop :=
  bt_sorted (versions m) ∧ Forall (λ row, chain_wf row.2) (versions m)
  ∧ profile_counters m = traversal (versions m).

Lemma saturating_add_sat a b : 0 ≤ b → saturating_add 64 (sat a) b = sat (a + b).
Proof. unfold saturating_add, sat, u64_max. lia. Qed.

Lemma slice_sum_app f l k : slice_sum f (l ++ k) = slice_sum f l + slice_sum f k.
Proof. induction l as [|v l IH]; cbn; [done|]. unfold slice_sum in *. lia. Qed.

Lemma version_payload_nonneg v : 0 ≤ version_payload v.
Proof. unfold version_payload. destruct (value v); [apply len_nonneg|lia]. Qed.

Lemma add_version_counters kp vp tb sc sv v :
  add_version {| key_payload_bytes := kp; value_payload_bytes := sat vp; tombstones := sat tb;
                 spilled_chains := sc; spilled_version_capacity := sv |} v
  = {| key_payload_bytes := kp; value_payload_bytes := sat (vp + version_payload v);
       tombstones := sat (tb + version_tombstone v); spilled_chains := sc;
       spilled_version_capacity := sv |}.
Proof.
  unfold add_version, version_payload, version_tombstone. destruct (value v) as [b|]; cbn -[saturating_add].
  - rewrite saturating_add_sat by apply len_nonneg. by rewrite Z.add_0_r.
  - rewrite saturating_add_sat by lia. by rewrite Z.add_0_r.
Qed.

Lemma insert_version_profile m k v : profile_exact m → profile_exact (insert_version m k v).
Proof.
  intros (Hs & Hwf & Hc). unfold traversal in Hc.
  pose proof (f_equal (λ c, add_version c v) Hc) as Hadd. cbn beta in Hadd.
  rewrite add_version_counters in Hadd. unfold profile_exact, insert_version. rewrite Hadd. clear Hc Hadd.
  destruct (bt_get k (versions m)) as [c|] eqn:Hk; cbn [versions profile_counters].
  - assert (chain_wf c) as Hcwf.
    { apply bt_get_elem in Hk. by eapply Forall_forall in Hwf; [|exact Hk]. }
    assert (chain_wf (chain_push c v)) as Hpush.
    { destruct c as [p|vs cap]; cbn; [unfold len; cbn; lia|]. rewrite len_app. cbn in Hcwf.
      change (len [v]) with 1. destruct (Z.eqb_spec (len vs) cap); [|lia].
      pose proof (vec_grow_spec cap ltac:(lia)). lia. }
    split_and!; [by apply bt_insert_sorted| |].
    { apply Forall_forall. intros row [->|Hrow]%bt_insert_elem; [done|]. by eapply Forall_forall in Hwf. }
    unfold traversal, add_spill. cbn [key_payload_bytes value_payload_bytes tombstones spilled_chains spilled_version_capacity].
    rewrite !bt_sum_insert, Hk by done. cbn [fst snd]. rewrite as_slice_push, !slice_sum_app.
    rewrite !saturating_add_sat by (unfold saturating_sub; destruct c; cbn; lia).
    f_equal; f_equal; try (unfold slice_sum; cbn; lia).
    + destruct c; cbn; lia.
    + unfold saturating_sub. destruct c as [p|vs cap]; cbn; [lia|]. cbn in Hcwf.
      pose proof (vec_grow_spec cap ltac:(lia)). destruct (len vs =? cap); lia.
  - split_and!; [by apply bt_insert_sorted| |].
    { apply Forall_forall. intros row [->|Hrow]%bt_insert_elem; [done|]. by eapply Forall_forall in Hwf. }
    unfold traversal, add_key. cbn [key_payload_bytes value_payload_bytes tombstones spilled_chains spilled_version_capacity].
    rewrite !bt_sum_insert, Hk by done. cbn [fst snd as_slice spilled_capacity].
    rewrite saturating_add_sat by apply len_nonneg.
    f_equal; f_equal; unfold slice_sum; cbn; lia.
Qed.

Lemma insert_operations_profile ops m s : profile_exact m → profile_exact (insert_operations m s ops).
Proof.
  revert m s; induction ops as [|op ops IH]; intros m s Hm; [done|]. by apply IH, insert_version_profile.
Qed.

Lemma apply_write_batch_profile m b first last m' :
  apply_write_batch m b first last = Ok m' → profile_exact m → profile_exact m'.
Proof.
  unfold apply_write_batch. intros Happ Hm. destruct (ok_or _ _); [|done]. destruct (_ || _)%bool; [done|].
  destruct (charge_batch b); [|done]. destruct (charge_add _ _); [|done]. injection Happ as <-.
  exact (insert_operations_profile (operations b) m first Hm).
Qed.

Lemma fold_saturating l acc :
  Forall (λ c, 0 ≤ c) l → fold_left (saturating_add 64) l (sat acc) = sat (acc + fold_right Z.add 0 l).
Proof.
  intros Hl. revert acc; induction Hl as [|c l Hc _ IH]; intros acc; cbn [fold_left fold_right].
  - by rewrite Z.add_0_r.
  - rewrite saturating_add_sat by done. rewrite IH. f_equal. lia.
Qed.

Definition clone_rows (t : list (key * VersionChain)) : list (key * VersionChain) :=
  map (λ '(k, chain), (k, clone_chain chain)) t.

Lemma bt_sum_clone (f g : key * VersionChain → Z) t :
  (∀ k c, f (k, clone_chain c) = g (k, c)) → bt_sum f (clone_rows t) = bt_sum g t.
Proof.
  intros Hfg. induction t as [|[k c] t IH]; [done|]. cbn [clone_rows map].
  rewrite !bt_sum_cons, Hfg. f_equal. exact IH.
Qed.

Lemma as_slice_clone c : as_slice (clone_chain c) = as_slice c.
Proof. by destruct c. Qed.

Lemma clone_rows_sorted t : bt_sorted t → bt_sorted (clone_rows t).
Proof.
  unfold bt_sorted. induction 1 as [|[k c] t Hs IH Hall]; [constructor|]. cbn [clone_rows map].
  constructor; [exact IH|]. apply Forall_forall. intros [k' c'] Hin.
  apply list_elem_of_fmap in Hin as ([k1 c1] & [= -> ->] & Hin). by eapply Forall_forall in Hall; [|exact Hin].
Qed.

Lemma spilled_sum t :
  Forall (λ row : key * VersionChain, chain_wf row.2) t →
  Forall (λ c, 0 ≤ c) (omap (λ '(_, chain), spilled_capacity chain) t)
  ∧ fold_right Z.add 0 (omap (λ '(_, chain), spilled_capacity chain) t)
    = bt_sum (λ row : key * VersionChain, match spilled_capacity row.2 with Some c => c | None => 0 end) t.
Proof.
  induction 1 as [|[k c] t Hc Hwf [IH1 IH2]]; [by split|]. rewrite bt_sum_cons.
  destruct c as [v|vs cap]; cbn [omap list_omap spilled_capacity snd] in *.
  - by rewrite Z.add_0_l.
  - cbn in Hc. pose proof (len_nonneg vs). split; [constructor; [lia|exact IH1]|]. cbn [fold_right]. by rewrite IH2.
Qed.

(** A clone is equal to the table, and its counters are those of its own chains. *)
Lemma clone_profile m : profile_exact m → profile_exact (clone m) ∧ memtable_eq (clone m) m.
Proof.
  intros (Hs & Hwf & Hc).
  assert (Forall (λ row, chain_wf row.2) (clone_rows (versions m))) as Hwf'.
  { apply Forall_forall. intros [k c] Hin. apply list_elem_of_fmap in Hin as ([k1 c1] & [= -> ->] & Hin).
    eapply Forall_forall in Hwf; [|exact Hin]. cbn in *. destruct c1; cbn in *; [done|lia]. }
  split.
  - split_and!; [by apply clone_rows_sorted|done|]. unfold clone; cbn [profile_counters versions].
    fold (clone_rows (versions m)). destruct (spilled_sum _ Hwf') as [Hpos Hsum].
    pose proof (fold_saturating _ 0 Hpos) as Hfold. change (sat 0) with 0 in Hfold.
    rewrite Hfold, Hsum, Z.add_0_l, Hc. unfold traversal.
    cbn [key_payload_bytes value_payload_bytes tombstones spilled_chains].
    f_equal; f_equal; symmetry; apply bt_sum_clone; intros k c; cbn [fst snd];
      rewrite ?as_slice_clone; try done. by destruct c.
  - unfold memtable_eq, clone; cbn. split_and!; try done. rewrite map_map. apply map_ext.
    intros [k c]. by destruct c.
Qed.

(** The profile counters are what a traversal of the table would count (saturating at
    [usize::MAX]), in a new table and through every accepted batch and clone: key and value
    bytes, tombstones, spilled chains and their capacity. *)
Theorem memtable_profile_exact :
  (∀ s, profile_exact (at_sequence s))
  ∧ (∀ m b first last m', profile_exact m → apply_write_batch m b first last = Ok m' → profile_exact m')
  ∧ (∀ m, profile_exact m → profile_exact (clone m) ∧ memtable_eq (clone m) m)
  ∧ (∀ m, profile_exact m → p_key_count (profile m) = len (versions m)
       ∧ p_tombstones (profile m)
         = sat (bt_sum (λ row : key * VersionChain, slice_sum version_tombstone (as_slice row.2)) (versions m))
       ∧ p_spilled_chains (profile m) ≤ p_key_count (profile m)).
Proof.
  split_and!.
  - intros s. split_and!; [constructor|constructor|done].
  - intros m b first last m' Hm Happ. by eapply apply_write_batch_profile.
  - intros m. apply clone_profile.
  - intros m (_ & _ & Hc). unfold profile, key_count; cbn [p_key_count p_tombstones p_spilled_chains].
    rewrite Hc. split_and!; [done|done|]. cbn [traversal spilled_chains]. unfold sat.
    assert (bt_sum (λ row : key * VersionChain, match spilled_capacity row.2 with Some _ => 1 | None => 0 end) (versions m)
      ≤ len (versions m)); [|lia].
    clear Hc. induction (versions m) as [|[k c] t IH]; [done|]. rewrite bt_sum_cons, len_cons. cbn [snd].
    destruct (spilled_capacity c); lia.
Qed.

(** ** Loading compacted versions *)

Definition value_bytes_of (v : VersionedValue) : Z := value_bytes (value v).
Definition chain_charge (key_len : Z) (vs : list VersionedValue) : Z :=
  slice_sum (λ v, key_len + value_bytes_of v + size_of_version) vs.

(** Strictly ascending sequences above [previous] and at most [maximum]. *)
Fixpoint ascending (maximum previous : Z) (vs : list VersionedValue) : Prop :=
  match vs with
  | [] => True
  | v :: vs => sequence v ≠ 0 ∧ previous < sequence v ≤ maximum ∧ ascending maximum (sequence v) vs
  end.

Lemma chain_charge_nonneg k vs : 0 ≤ k → 0 ≤ chain_charge k vs.
Proof.
  intros Hk. unfold chain_charge. induction vs as [|v vs IH]; cbn; [lia|]. unfold slice_sum in IH.
  pose proof (value_bytes_nonneg (value v)). pose proof size_of_version_nonneg. unfold value_bytes_of at 1. lia.
Qed.

Lemma check_versions_ok k maximum previous vs t t' :
  0 ≤ k → 0 ≤ t_bytes t < 2 ^ 64 →
  check_versions k maximum previous vs t = Ok t' ↔
    ascending maximum previous vs ∧ t_bytes t + chain_charge k vs < 2 ^ 64
    ∧ t' = {| t_bytes := t_bytes t + chain_charge k vs; t_versions := t_versions t;
              t_counters := fold_left add_version vs (t_counters t) |}.
Proof.
  intros Hk. revert previous t; induction vs as [|v vs IH]; intros previous t Ht; cbn [check_versions ascending fold_left].
  { change (chain_charge k []) with 0. rewrite Z.add_0_r. destruct t; cbn [t_bytes t_versions t_counters] in *.
    split; [intros [= <-]; split_and!; [done|lia|done]|by intros (_ & _ & ->)]. }
  change (chain_charge k (v :: vs)) with (k + value_bytes_of v + size_of_version + chain_charge k vs).
  pose proof (chain_charge_nonneg k vs Hk). pose proof (value_bytes_nonneg (value v)) as Hv0.
  fold (value_bytes_of v) in Hv0. pose proof size_of_version_nonneg.
  destruct ((sequence v =? 0) || (sequence v <=? previous) || (maximum <? sequence v))%bool eqn:E.
  { split; [done|]. intros ((? & ? & _) & _). exfalso. rewrite !orb_true_iff in E.
    destruct E as [[?|?]|?]; bools; lia. }
  bools. change (match value v with Some v0 => len v0 | None => 0 end) with (value_bytes_of v).
  pose proof (version_charge_ok k (value_bytes_of v)) as Hvc.
  destruct (version_charge k (value_bytes_of v)) as [c|e].
  - destruct (proj1 (Hvc c) eq_refl) as (-> & _). unfold checked_add.
    destruct (Z.ltb_spec (t_bytes t + (k + value_bytes_of v + size_of_version)) (2 ^ 64)); cbn [ok_or].
    + rewrite IH by (cbn [t_bytes]; lia). cbn [t_bytes t_versions t_counters].
      rewrite <-!Z.add_assoc. split.
      * intros (? & ? & ->). split_and!; try done; lia.
      * intros ((? & ? & ?) & ? & ->). split_and!; try done; lia.
    + split; [done|]. lia.
  - split; [done|]. intros (_ & ? & _). exfalso.
    assert (k + value_bytes_of v < 2 ^ 64) as Ha by lia.
    assert (k + value_bytes_of v + size_of_version < 2 ^ 64) as Hb by lia.
    by pose proof (proj2 (Hvc _) (conj eq_refl (conj Ha Hb))).
Qed.

Definition row_ok (maximum : Z) (row : key * (list VersionedValue * Z)) : Prop :=
  row.1 ≠ [] ∧ row.2.1 ≠ [] ∧ ascending maximum 0 row.2.1.
Definition rows_sum (f : key * (list VersionedValue * Z) → Z) (rows : list (key * (list VersionedValue * Z))) : Z :=
  fold_right (λ row acc, f row + acc) 0 rows.
Definition row_bytes (row : key * (list VersionedValue * Z)) : Z := chain_charge (len row.1) row.2.1.
Definition row_count (row : key * (list VersionedValue * Z)) : Z := len row.2.1.

Lemma check_key_ok maximum t row :
  0 ≤ t_bytes t < 2 ^ 64 →
  (is_ok (check_key maximum t row) = true ↔
    row_ok maximum row ∧ t_bytes t + row_bytes row < 2 ^ 64 ∧ t_versions t + row_count row < 2 ^ 64)
  ∧ ∀ t', check_key maximum t row = Ok t' →
      t_bytes t' = t_bytes t + row_bytes row ∧ t_versions t' = t_versions t + row_count row.
Proof.
  intros Ht. destruct row as [k [vs cap]]. unfold check_key, row_ok, row_bytes, row_count; cbn [fst snd].
  case_bool_decide as Hk; [by split; [split; [done|naive_solver]|]|].
  case_bool_decide as Hvs; [by split; [split; [done|naive_solver]|]|]. cbn [orb].
  match goal with |- context [check_versions ?a ?b ?c ?d ?x] =>
    pose proof (check_versions_ok a b c d x) as Hcv; destruct (check_versions a b c d x) as [t1|e] end.
  - destruct (proj1 (Hcv t1 (len_nonneg k) Ht) eq_refl) as (Hasc & Hb & ->).
    cbn [t_bytes t_versions t_counters]. unfold checked_add.
    destruct (Z.ltb_spec (t_versions t + len vs) (2 ^ 64)); cbn [ok_or is_ok]; (split; [|by intros ? [= <-]]).
    + done.
    + split; [done|lia].
  - split; [|done]. split; [done|]. intros ((_ & _ & Hasc) & Hb & _). exfalso.
    by pose proof (proj2 (Hcv _ (len_nonneg k) Ht) (conj Hasc (conj Hb eq_refl))).
Qed.

Lemma row_bytes_nonneg row : 0 ≤ row_bytes row.
Proof. apply chain_charge_nonneg, len_nonneg. Qed.
Lemma rows_sum_nonneg f rows : (∀ row, 0 ≤ f row) → 0 ≤ rows_sum f rows.
Proof. intros Hf. induction rows as [|row rows IH]; cbn; [lia|]. pose proof (Hf row). unfold rows_sum in IH. lia. Qed.

Lemma check_keys_ok maximum rows t :
  0 ≤ t_bytes t < 2 ^ 64 → t_versions t < 2 ^ 64 →
  (is_ok (try_fold (check_key maximum) t rows) = true ↔
    Forall (row_ok maximum) rows ∧ t_bytes t + rows_sum row_bytes rows < 2 ^ 64
    ∧ t_versions t + rows_sum row_count rows < 2 ^ 64)
  ∧ ∀ t', try_fold (check_key maximum) t rows = Ok t' →
      t_bytes t' = t_bytes t + rows_sum row_bytes rows
      ∧ t_versions t' = t_versions t + rows_sum row_count rows.
Proof.
  revert t; induction rows as [|row rows IH]; intros t Ht Hv; cbn [try_fold].
  { change (rows_sum row_bytes []) with 0. change (rows_sum row_count []) with 0. rewrite !Z.add_0_r.
    split; [|by intros t' [= <-]]. split; [|done]. intros _. split_and!; [constructor|lia|lia]. }
  change (rows_sum row_bytes (row :: rows)) with (row_bytes row + rows_sum row_bytes rows).
  change (rows_sum row_count (row :: rows)) with (row_count row + rows_sum row_count rows).
  pose proof (rows_sum_nonneg row_bytes rows row_bytes_nonneg).
  pose proof (rows_sum_nonneg row_count rows (λ r, len_nonneg _)). pose proof (row_bytes_nonneg row).
  destruct (check_key_ok maximum t row Ht) as [Hok Hval]. rewrite Forall_cons.
  destruct (check_key maximum t row) as [t1|e].
  - destruct (proj1 Hok eq_refl) as (? & ? & ?). destruct (Hval t1 eq_refl) as [Hb1 Hv1].
    destruct (IH t1) as [IHok IHval]; [lia|lia|]. rewrite Hb1, Hv1, <-!Z.add_assoc in IHok. split.
    + rewrite IHok. naive_solver.
    + intros t' E. destruct (IHval t' E) as [-> ->]. lia.
  - split; [|done]. split; [done|]. intros ((? & ?) & ? & ?).
    destruct (proj2 Hok) as []; [split_and!; [done|lia|lia]|done].
Qed.

(** Loading compacted versions fails closed: it succeeds exactly when every key and chain
    is non-empty, every chain has strictly ascending sequences between one and the maximum,
    and the byte and version counts fit; the table then holds exactly those chains with exact
    counts. *)
Theorem memtable_from_versions_exact rows maximum :
  (is_ok (from_versions rows maximum) = true ↔
    Forall (row_ok maximum) rows ∧ rows_sum row_bytes rows < 2 ^ 64 ∧ rows_sum row_count rows < 2 ^ 64)
  ∧ ∀ m, from_versions rows maximum = Ok m →
      all_versions m = map (λ row, (row.1, row.2.1)) rows ∧ maximum_sequence m = maximum
      ∧ version_count m = rows_sum row_count rows ∧ approximate_bytes m = rows_sum row_bytes rows.
Proof.
  unfold from_versions.
  destruct (check_keys_ok maximum rows {| t_bytes := 0; t_versions := 0; t_counters := ProfileCounters_default |})
    as [Hok Hval]; [cbn; lia|cbn; lia|]. cbn [t_bytes t_versions] in *. rewrite !Z.add_0_l in Hok.
  destruct (try_fold _ _ rows) as [t|e]; cbn [is_ok] in *.
  - split; [exact Hok|]. intros m [= <-]. destruct (Hval t eq_refl) as [Hb Hv].
    cbn [version_count approximate_bytes maximum_sequence]. rewrite Hb, Hv, !Z.add_0_l. split_and!; try done.
    unfold all_versions; cbn [versions]. rewrite map_map. apply map_ext. intros [k [[|v [|w vs]] cap]]; done.
  - by split; [exact Hok|].
Qed.
End Memtable.

(** The flush decision is the admission decision: for an incoming charge that fits the
    limits by itself, [needs_flush] answers no exactly when the table's charge together with
    the incoming one passes the limit check. *)
Theorem needs_flush_iff_over_limit l current incoming :
  0 ≤ charge_bytes current → 0 ≤ charge_versions current →
  charge_bytes incoming ≤ accounted_bytes l → charge_versions incoming ≤ limit_versions l →
  needs_flush l current incoming = false ↔
  limits_check l {| charge_bytes := charge_bytes current + charge_bytes incoming;
                    charge_versions := charge_versions current + charge_versions incoming |} = Ok tt.
Proof.
  intros H1 H2 H3 H4. unfold needs_flush, limits_check, saturating_sub. cbn [try_each charge_bytes charge_versions].
  rewrite orb_false_iff, !Z.ltb_ge.
  destruct (Z.ltb_spec (limit_versions l) (charge_versions current + charge_versions incoming));
    destruct (Z.ltb_spec (accounted_bytes l) (charge_bytes current + charge_bytes incoming));
    split; try done; lia.
Qed.

(** * Concrete tables *)

Definition layout64 : Layout :=
  {| size_of_version := 24; size_of_key_handle := 16; size_of_chain := 24;
     vec_grow := λ c, Z.max (2 * c) 4 |}.
#[local] Instance layout64_laws : @LayoutLaws layout64.
Proof. split; cbn; [lia|intros c Hc; lia]. Qed.

Definition first_batch : WriteBatch := {| operations := sample_ops; encoded_len := 57 |}.
Definition second_batch : WriteBatch :=
  {| operations := [Put (str_bytes "beta") (str_bytes "two")]; encoded_len := 31 |}.

Definition sample_table : Memtable :=
  match @apply_write_batch layout64 (at_sequence 0) first_batch 1 3 with Ok m => m | Err _ => at_sequence 0 end.

Lemma sample_table_eq : @apply_write_batch layout64 (at_sequence 0) first_batch 1 3 = Ok sample_table.
Proof. vm_compute. reflexivity. Qed.

Lemma sample_table_represents : @represents layout64 sample_table (numbered 1 sample_ops).
Proof.
  assert (@represents layout64 (at_sequence 0) []) as H0
    by (apply (@at_sequence_represents layout64); unfold u64_max; lia).
  destruct (@apply_represents layout64 layout64_laws (at_sequence 0) [] first_batch 1 3 sample_table H0
    ltac:(reflexivity) ltac:(discriminate) ltac:(reflexivity) sample_table_eq) as (_ & _ & _ & Hr & _).
  exact Hr.
Qed.

Lemma memtable_get_newest_witness :
  newest_at (numbered 1 sample_ops) (str_bytes "alpha") 2 {| sequence := 1; value := Some (str_bytes "one") |}.
Proof.
  apply (proj1 (@memtable_get_newest layout64 sample_table (numbered 1 sample_ops) (str_bytes "alpha") 2
    sample_table_represents)).
  vm_compute. reflexivity.
Defined.

Lemma memtable_scan_exact_witness :
  match scan sample_table (str_bytes "a") (Some (str_bytes "b")) 3 with
  | None => inverted (str_bytes "a") (Some (str_bytes "b")) = true
  | Some rows => inverted (str_bytes "a") (Some (str_bytes "b")) = false ∧ bt_sorted rows
      ∧ (∀ k v, (k, v) ∈ rows ↔
           key_in_range (str_bytes "a") (Some (str_bytes "b")) k = true ∧ get sample_table k 3 = Some v)
      ∧ ∀ E S (visit : S → key → list byte → result E S) st,
          scan_each sample_table (str_bytes "a") (Some (str_bytes "b")) 3 visit st
          = Some (try_fold (λ st '(k, v), visit st k v) st rows)
  end.
Proof.
  exact (@memtable_scan_exact layout64 sample_table (numbered 1 sample_ops) (str_bytes "a")
    (Some (str_bytes "b")) 3 sample_table_represents).
Defined.

Lemma memtable_snapshot_stable_witness :
  ∃ m', @apply_write_batch layout64 sample_table second_batch 4 4 = Ok m'
    ∧ get_version m' (str_bytes "beta") 3 = Some {| sequence := 2; value := None |}
    ∧ get_version m' (str_bytes "beta") 4 = Some {| sequence := 4; value := Some (str_bytes "two") |}.
Proof.
  destruct (@apply_write_batch layout64 sample_table second_batch 4 4) as [m'|e] eqn:E;
    [|vm_compute in E; discriminate].
  exists m'. split; [reflexivity|].
  pose proof (@memtable_snapshot_stable layout64 layout64_laws sample_table (numbered 1 sample_ops) second_batch
    4 4 m' 3 sample_table_represents ltac:(reflexivity) ltac:(discriminate) ltac:(reflexivity) E
    ltac:(vm_compute; discriminate)) as (Hget & _ & _).
  rewrite Hget. split; [reflexivity|]. vm_compute in E. injection E as <-. reflexivity.
Defined.

Lemma memtable_apply_refines_witness :
  is_ok (@apply_write_batch layout64 sample_table second_batch 4 4) = true
  ∧ is_ok (@apply_write_batch layout64 sample_table second_batch 5 5) = false.
Proof.
  split; [vm_compute; reflexivity|].
  destruct (is_ok (@apply_write_batch layout64 sample_table second_batch 5 5)) eqn:E; [|reflexivity].
  apply (proj1 (@memtable_apply_refines layout64 layout64_laws sample_table (numbered 1 sample_ops) second_batch
    5 5 sample_table_represents ltac:(reflexivity) ltac:(discriminate) ltac:(reflexivity))) in E as [E _].
  discriminate E.
Defined.

Definition sample_ranges : list ProjectedReadRange :=
  [{| range_start := str_bytes "a"; range_end := Some (str_bytes "b") |};
   {| range_start := str_bytes "b"; range_end := None |}].

Lemma memtable_seek_least_witness :
  ∃ r, seek_visible_after sample_table sample_ranges (Some (str_bytes "alpha")) 3 = Some (Ok r)
    ∧ 0 ≤ versions_examined r ≤ len sample_ranges * len (numbered 1 sample_ops)
    ∧ match next r with
      | Some (k, q) => candidate sample_table sample_ranges (Some (str_bytes "alpha")) 3 k q
          ∧ ∀ k' q', candidate sample_table sample_ranges (Some (str_bytes "alpha")) 3 k' q' → leb k k' = true
      | None => ∀ k' q', ¬ candidate sample_table sample_ranges (Some (str_bytes "alpha")) 3 k' q'
      end.
Proof.
  refine (@memtable_seek_least layout64 sample_table (numbered 1 sample_ops) sample_ranges
    (Some (str_bytes "alpha")) 3 sample_table_represents _ _ _).
  - repeat constructor.
  - repeat constructor.
  - vm_compute. reflexivity.
Defined.

Example seek_after_alpha :
  seek_visible_after sample_table sample_ranges (Some (str_bytes "alpha")) 3
  = Some (Ok {| next := Some (str_bytes "beta", 2); versions_examined := 1 |}).
Proof. vm_compute. reflexivity. Qed.

Lemma memtable_recovers_log_witness :
  ∃ r, @recover_from castagnoli (@wal_image castagnoli (log_of 1 [first_batch; second_batch]) ++ [x52]) 1 = Ok r
    ∧ batches r = @recovered_batches castagnoli 16 (log_of 1 [first_batch; second_batch])
    ∧ @memtable_recover_from layout64 (batches r) 0
      = @apply_all layout64 (at_sequence 0) 1 [first_batch; second_batch].
Proof.
  refine (@memtable_recovers_log layout64 castagnoli castagnoli_laws 1 [first_batch; second_batch] [x52] _ _ _).
  - repeat constructor.
  - unfold log_file, incomplete. split_and!.
    + lia.
    + vm_compute. split_and!; done.
    + reflexivity.
    + right. split; [discriminate|left; vm_compute; reflexivity].
    + vm_compute. reflexivity.
Defined.

Lemma memtable_profile_exact_witness : profile_exact sample_table.
Proof.
  pose proof (@memtable_profile_exact layout64 layout64_laws) as (Hnew & Hstep & _ & _).
  exact (Hstep _ _ _ _ _ (Hnew 0) sample_table_eq).
Defined.

Lemma memtable_from_versions_exact_witness :
  ∃ m, @from_versions layout64 [(str_bytes "k", ([{| sequence := 2; value := None |}], 1))] 5 = Ok m
    ∧ version_count m = 1 ∧ approximate_bytes m = 25.
Proof.
  destruct (@from_versions layout64 [(str_bytes "k", ([{| sequence := 2; value := None |}], 1))] 5) as [m|e] eqn:E;
    [|vm_compute in E; discriminate].
  exists m. split; [reflexivity|].
  pose proof (proj2 (@memtable_from_versions_exact layout64 layout64_laws _ 5) m E) as (_ & _ & Hv & Hb).
  rewrite Hv, Hb. split; reflexivity.
Defined.

Lemma needs_flush_iff_over_limit_witness :
  needs_flush MutableLimits_default {| charge_bytes := 134217720; charge_versions := 10 |}
    {| charge_bytes := 8; charge_versions := 1 |} = false
  ∧ needs_flush MutableLimits_default {| charge_bytes := 134217720; charge_versions := 10 |}
    {| charge_bytes := 9; charge_versions := 1 |} = true.
Proof.
  split; [|reflexivity].
  apply (needs_flush_iff_over_limit MutableLimits_default {| charge_bytes := 134217720; charge_versions := 10 |}
    {| charge_bytes := 8; charge_versions := 1 |}); [vm_compute; discriminate..|reflexivity].
Defined.
