(* ===== verification/MutableMemory.v ===== *)
(** Memory of active and retained memtable generations ([rrd-lsm]: mutable_memory.rs).

    The active memtable is shared with the reads that captured it.  A write that finds it shared
    copies it, one that owns it alone changes it in place, and either way the bytes, versions and
    generations it will need are reserved from a pool before the log is touched.  A generation
    gives its reservation back when its last owner drops it.

    The heap of shared generations with their owners is explicit.  Theorems: the pool's figures are
    always the sums over the generations that are alive, within the limits, and every reservation is
    the charge of its table; no release underflows; a denied or failed write changes nothing that a
    reader can see; and a generation that a read holds never changes. *)

From S2P Require Import Prelude Machine BTree Ident LsmError Batch RecoveryBudget Wal Memtable.
Open Scope Z_scope.

(** * The pool *)

(** lsm/mutable_memory.rs:9-14 MutableRetentionLimits *)
Record MutableRetentionLimits := { retained_bytes_limit : Z; retained_versions_limit : Z; retained_generations_limit : Z }.
(** lsm/mutable_memory.rs:16-24 Default for MutableRetentionLimits *)
Definition MutableRetentionLimits_default : MutableRetentionLimits :=
  {| retained_bytes_limit := 512 * 1024 * 1024; retained_versions_limit := 4194304; retained_generations_limit := 64 |}.
(** lsm/mutable_memory.rs:26-34 MutableMemoryStats *)
Record MutableMemoryStats := {
  stat_bytes : Z; stat_versions : Z; stat_generations : Z; peak_bytes : Z; peak_generations : Z; denied_writes : Z
}.
(** lsm/mutable_memory.rs:36-45 Pool and MutableMemory *)
Record MutableMemory := { pool_limits : MutableRetentionLimits; pool_stats : MutableMemoryStats }.
(** lsm/mutable_memory.rs:48-53 MutableMemory::new *)
Definition MutableMemory_new (limits : MutableRetentionLimits) : MutableMemory :=
  {| pool_limits := limits;
     pool_stats := {| stat_bytes := 0; stat_versions := 0; stat_generations := 0; peak_bytes := 0; peak_generations := 0; denied_writes := 0 |} |}.

(** lsm/mutable_memory.rs:151-156 Reservation *)
Record Reservation := { reserved : MutableCharge; reserved_generations : Z }.
(** lsm/mutable_memory.rs:184-189 MutableGeneration *)
Record Generation := { gen_table : Memtable; gen_reservation : Reservation }.
(** lsm/mutable_memory.rs:198-201 PreparedMutable *)
Inductive PreparedMutable := Unique (delta : Reservation) | Replacement (generation : Generation).

Definition no_charge : MutableCharge := {| charge_bytes := 0; charge_versions := 0 |}.

(** lsm/mutable_memory.rs:72-100 MutableMemory::reserve: what is asked of each resource *)
Definition admit_reservation (self : MutableMemory) (charge : MutableCharge) (generations : Z) : result Error unit :=
  let limits := pool_limits self in let state := pool_stats self in
  try_each (λ '(resource, used, added, limit),
      if saturating_sub limit used <? added then Err (MutableLimit resource limit (saturating_add 64 used added)) else Ok tt)
    [(RetainedAccountedBytes, stat_bytes state, charge_bytes charge, retained_bytes_limit limits);
     (RetainedVersions, stat_versions state, charge_versions charge, retained_versions_limit limits);
     (Generations, stat_generations state, generations, retained_generations_limit limits)].
(** lsm/mutable_memory.rs:66-111 MutableMemory::reserve *)
Definition reserve (self : MutableMemory) (charge : MutableCharge) (generations : Z) : MutableMemory * result Error Reservation :=
  let state := pool_stats self in
  match admit_reservation self charge generations with
  | Err e =>
    ({| pool_limits := pool_limits self;
        pool_stats := {| stat_bytes := stat_bytes state; stat_versions := stat_versions state; stat_generations := stat_generations state;
                         peak_bytes := peak_bytes state; peak_generations := peak_generations state; denied_writes := saturating_add 64 (denied_writes state) 1 |} |}, Err e)
  | Ok _ =>
    let bytes := stat_bytes state + charge_bytes charge in
    let gens := stat_generations state + generations in
    ({| pool_limits := pool_limits self;
        pool_stats := {| stat_bytes := bytes; stat_versions := stat_versions state + charge_versions charge; stat_generations := gens;
                         peak_bytes := Z.max (peak_bytes state) bytes; peak_generations := Z.max (peak_generations state) gens; denied_writes := denied_writes state |} |},
     Ok {| reserved := charge; reserved_generations := generations |})
  end.

(** lsm/mutable_memory.rs:170-182 Drop for Reservation; [None] is a subtraction that underflows *)
Definition drop_reservation (self : MutableMemory) (r : Reservation) : option MutableMemory :=
  let state := pool_stats self in
  match checked_sub (stat_bytes state) (charge_bytes (reserved r)), checked_sub (stat_versions state) (charge_versions (reserved r)),
        checked_sub (stat_generations state) (reserved_generations r) with
  | Some bytes, Some versions, Some generations =>
    Some {| pool_limits := pool_limits self;
            pool_stats := {| stat_bytes := bytes; stat_versions := versions; stat_generations := generations;
                             peak_bytes := peak_bytes state; peak_generations := peak_generations state; denied_writes := denied_writes state |} |}
  | _, _, _ => None
  end.

(** lsm/mutable_memory.rs:158-168 Reservation::absorb; what is absorbed is emptied before its drop *)
Definition absorb (self delta : Reservation) : Reservation :=
  {| reserved := {| charge_bytes := charge_bytes (reserved self) + charge_bytes (reserved delta);
                    charge_versions := charge_versions (reserved self) + charge_versions (reserved delta) |};
     reserved_generations := reserved_generations self + reserved_generations delta |}.

(** [usize::from] of a [bool] *)
Definition one_if (b : bool) : Z := if b then 1 else 0.

(** lsm/mutable_memory.rs:113-116 MutableMemory::wrap *)
Definition wrap (self : MutableMemory) (table : Memtable) : MutableMemory * result Error Generation :=
  match reserve self (charge_of table) (one_if (negb (version_count table =? 0))) with
  | (self, Err e) => (self, Err e)
  | (self, Ok r) => (self, Ok {| gen_table := table; gen_reservation := r |})
  end.
(** lsm/mutable_memory.rs:118-127 MutableMemory::empty *)
Definition empty_generation (sequence : Z) : Generation :=
  {| gen_table := at_sequence sequence; gen_reservation := {| reserved := no_charge; reserved_generations := 0 |} |}.

Section Layout.
Context `{Layout}.

(** lsm/mutable_memory.rs:129-148 MutableMemory::prepare; [shared] says that the generation has
    another owner *)
Definition prepare (self : MutableMemory) (current : Generation) (shared : bool) (incoming : MutableCharge) : MutableMemory * result Error PreparedMutable :=
  if shared then
    match charge_add (charge_of (gen_table current)) incoming with
    | Err e => (self, Err e)
    | Ok charge =>
      match reserve self charge 1 with
      | (self, Err e) => (self, Err e)
      | (self, Ok r) => (self, Ok (Replacement {| gen_table := clone (gen_table current); gen_reservation := r |}))
      end
    end
  else
    match reserve self incoming (one_if (version_count (gen_table current) =? 0)) with
    | (self, Err e) => (self, Err e)
    | (self, Ok r) => (self, Ok (Unique r))
    end.

(** * Shared ownership *)

(** [Arc]: what it points to and how many own it *)
Record Shared := { pointee : Generation; owners : Z }.
(** lsm/database.rs:369-370 Database: the active generation and its pool, with every generation
    that is alive; [fresh] is an address that was never used *)
Record Mutable := { pool : MutableMemory; heap : list (Z * Shared); active : Z; fresh : Z }.
Definition set_pool (m : Mutable) (p : MutableMemory) : Mutable := {| pool := p; heap := heap m; active := active m; fresh := fresh m |}.
Definition set_heap (m : Mutable) (h : list (Z * Shared)) : Mutable := {| pool := pool m; heap := h; active := active m; fresh := fresh m |}.

(** [Arc::clone] *)
Definition arc_clone (m : Mutable) (address : Z) : option Mutable :=
  match bt_get address (heap m) with
  | Some s => Some (set_heap m (bt_insert address {| pointee := pointee s; owners := owners s + 1 |} (heap m)))
  | None => None
  end.
(** The drop of an [Arc]: the last one drops the table and then its reservation. *)
Definition arc_drop (m : Mutable) (address : Z) : option Mutable :=
  match bt_get address (heap m) with
  | Some s =>
    if owners s =? 1 then
      match drop_reservation (pool m) (gen_reservation (pointee s)) with
      | Some p => Some {| pool := p; heap := bt_remove address (heap m); active := active m; fresh := fresh m |}
      | None => None
      end
    else Some (set_heap m (bt_insert address {| pointee := pointee s; owners := owners s - 1 |} (heap m)))
  | None => None
  end.
(** [*current = Arc::new(generation)] *)
Definition install (m : Mutable) (generation : Generation) : option Mutable :=
  let address := fresh m in
  arc_drop {| pool := pool m; heap := bt_insert address {| pointee := generation; owners := 1 |} (heap m); active := address; fresh := fresh m + 1 |} (active m).

(** lsm/mutable_memory.rs:227-247 PreparedMutable::apply_with *)
Definition apply_with (m : Mutable) (prepared : PreparedMutable) (apply : Memtable → result Error Memtable) : option (Mutable * result Error unit) :=
  let dropping r (e : Error) := match drop_reservation (pool m) r with Some p => Some (set_pool m p, Err e) | None => None end in
  match prepared with
  | Replacement generation =>
    match apply (gen_table generation) with
    | Err e => dropping (gen_reservation generation) e
    | Ok table => match install m {| gen_table := table; gen_reservation := gen_reservation generation |} with Some m => Some (m, Ok tt) | None => None end
    end
  | Unique delta =>
    match bt_get (active m) (heap m) with
    | None => None
    | Some s =>
      if negb (owners s =? 1) then dropping delta (InvalidBatch "mutable ownership changed after admission")
      else match apply (gen_table (pointee s)) with
           | Err e => dropping delta e
           | Ok table =>
             Some (set_heap m (bt_insert (active m)
               {| pointee := {| gen_table := table; gen_reservation := absorb (gen_reservation (pointee s)) delta |}; owners := owners s |} (heap m)), Ok tt)
           end
    end
  end.
(** lsm/mutable_memory.rs:204-212 PreparedMutable::apply, and apply_owned, which moves the batch *)
Definition apply_prepared (m : Mutable) (prepared : PreparedMutable) (batch : WriteBatch) (first last : Z) : option (Mutable * result Error unit) :=
  apply_with m prepared (λ table, apply_write_batch table batch first last).

(** A preparation that is dropped because the log refused the write. *)
Definition drop_prepared (m : Mutable) (prepared : PreparedMutable) : option Mutable :=
  match drop_reservation (pool m) (match prepared with Unique delta => delta | Replacement generation => gen_reservation generation end) with
  | Some p => Some (set_pool m p)
  | None => None
  end.

(** lsm/database.rs:1017-1017 Database::write_inner: the preparation of the active generation *)
Definition prepare_active (m : Mutable) (incoming : MutableCharge) : option (Mutable * result Error PreparedMutable) :=
  match bt_get (active m) (heap m) with
  | Some s => let '(p, r) := prepare (pool m) (pointee s) (1 <? owners s) incoming in Some (set_pool m p, r)
  | None => None
  end.
(** lsm/database.rs:1494-1494 Database::flush_memtable_inner: the successor generation *)
Definition install_empty (m : Mutable) (sequence : Z) : option Mutable := install m (empty_generation sequence).
End Layout.

(** * What the pool accounts for *)

#[local] Arguments bt_sum : simpl never.

Definition reserved_bytes (row : Z * Shared) : Z := charge_bytes (reserved (gen_reservation (pointee row.2))).
Definition reserved_versions (row : Z * Shared) : Z := charge_versions (reserved (gen_reservation (pointee row.2))).
Definition generations_of (row : Z * Shared) : Z := reserved_generations (gen_reservation (pointee row.2)).
Definition pending_of (f : Reservation → Z) (pending : option Reservation) : Z := match pending with Some r => f r | None => 0 end.
Definition reservation_of (prepared : PreparedMutable) : Reservation :=
  match prepared with Unique delta => delta | Replacement generation => gen_reservation generation end.

Definition charge_nonneg (c : MutableCharge) : Prop := 0 ≤ charge_bytes c ∧ 0 ≤ charge_versions c.
Definition reservation_nonneg (r : Reservation) : Prop := charge_nonneg (reserved r) ∧ 0 ≤ reserved_generations r.
(** A reservation is the charge of its table, and counts it as a generation unless it is empty. *)
Definition covers (g : Generation) : Prop :=
  gen_reservation g = {| reserved := charge_of (gen_table g); reserved_generations := one_if (negb (version_count (gen_table g) =? 0)) |} ∧ charge_nonneg (charge_of (gen_table g)).

(** How many of the readers hold an address, and how many own it with the database. *)
Definition held_by (readers : list Z) (a : Z) : Z := len (filter (λ b, b = a) readers).
Definition owned_by (readers : list Z) (m : Mutable) (a : Z) : Z := held_by readers a + one_if (bool_decide (a = active m)).

Record exact_stats (pending : option Reservation) (m : Mutable) : Prop := {
  exact_bytes : stat_bytes (pool_stats (pool m)) = bt_sum reserved_bytes (heap m) + pending_of (λ r, charge_bytes (reserved r)) pending;
  exact_versions : stat_versions (pool_stats (pool m)) = bt_sum reserved_versions (heap m) + pending_of (λ r, charge_versions (reserved r)) pending;
  exact_generations : stat_generations (pool_stats (pool m)) = bt_sum generations_of (heap m) + pending_of reserved_generations pending
}.
Record within_limits (m : Mutable) : Prop := {
  within_bytes : stat_bytes (pool_stats (pool m)) ≤ peak_bytes (pool_stats (pool m)) ≤ retained_bytes_limit (pool_limits (pool m));
  within_versions : stat_versions (pool_stats (pool m)) ≤ retained_versions_limit (pool_limits (pool m));
  within_generations : stat_generations (pool_stats (pool m)) ≤ peak_generations (pool_stats (pool m)) ≤ retained_generations_limit (pool_limits (pool m))
}.
(** The heap is owned by the database and [readers], and the pool accounts for it and for the
    reservation of a write that is under way. *)
Record accounts (readers : list Z) (pending : option Reservation) (m : Mutable) : Prop := {
  acc_sorted : bt_sorted (heap m);
  acc_fresh : ∀ a s, bt_get a (heap m) = Some s → a < fresh m;
  acc_covers : ∀ a s, bt_get a (heap m) = Some s → covers (pointee s);
  acc_owners : ∀ a s, bt_get a (heap m) = Some s → owners s = owned_by readers m a ∧ 1 ≤ owners s;
  acc_held : ∀ a, 1 ≤ owned_by readers m a → is_Some (bt_get a (heap m));
  acc_pending : ∀ r, pending = Some r → reservation_nonneg r;
  acc_exact : exact_stats pending m;
  acc_within : within_limits m
}.

Lemma held_by_nonneg readers a : 0 ≤ held_by readers a.
Proof. apply len_nonneg. Qed.
Lemma held_by_cons readers a b : held_by (b :: readers) a = held_by readers a + one_if (bool_decide (b = a)).
Proof. unfold held_by. rewrite filter_cons. case_decide as E; [rewrite bool_decide_eq_true_2 by done|rewrite bool_decide_eq_false_2 by done]; unfold len, one_if; cbn [length]; lia. Qed.
Lemma held_by_app l k a : held_by (l ++ k) a = held_by l a + held_by k a.
Proof. unfold held_by, len. rewrite filter_app, length_app. lia. Qed.

(** ** Reservations *)

Lemma admit_reservation_ok self charge generations :
  admit_reservation self charge generations = Ok tt →
  (charge_bytes charge = 0 ∨ stat_bytes (pool_stats self) + charge_bytes charge ≤ retained_bytes_limit (pool_limits self))
  ∧ (charge_versions charge = 0 ∨ stat_versions (pool_stats self) + charge_versions charge ≤ retained_versions_limit (pool_limits self))
  ∧ (generations = 0 ∨ stat_generations (pool_stats self) + generations ≤ retained_generations_limit (pool_limits self))
  ∨ ¬ reservation_nonneg {| reserved := charge; reserved_generations := generations |}.
Proof.
  unfold admit_reservation. rewrite try_each_ok. intros Hall. destruct (decide (0 ≤ charge_bytes charge)); [|right; intros [[] ]; done].
  destruct (decide (0 ≤ charge_versions charge)); [|right; intros [[] ]; done]. destruct (decide (0 ≤ generations)); [|right; intros [_ ?]; done]. left.
  rewrite !Forall_cons in Hall. destruct Hall as (H1 & H2 & H3 & _). unfold saturating_sub in *.
  destruct (Z.ltb_spec (Z.max 0 (retained_bytes_limit (pool_limits self) - stat_bytes (pool_stats self))) (charge_bytes charge)); [done|].
  destruct (Z.ltb_spec (Z.max 0 (retained_versions_limit (pool_limits self) - stat_versions (pool_stats self))) (charge_versions charge)); [done|].
  destruct (Z.ltb_spec (Z.max 0 (retained_generations_limit (pool_limits self) - stat_generations (pool_stats self))) generations); [done|]. lia.
Qed.

Lemma reserve_accounts readers m charge generations :
  accounts readers None m → charge_nonneg charge → 0 ≤ generations →
  let '(p, r) := reserve (pool m) charge generations in
  match r with
  | Ok r => r = {| reserved := charge; reserved_generations := generations |} ∧ accounts readers (Some r) (set_pool m p)
  | Err _ => accounts readers None (set_pool m p)
  end.
Proof.
  intros [Hs Hf Hc Ho Hh _ [E1 E2 E3] [W1 W2 W3]] Hn Hg. unfold reserve. destruct (admit_reservation (pool m) charge generations) as [[]|e] eqn:Ea.
  - apply admit_reservation_ok in Ea as [(A1 & A2 & A3)|Hno]; [|by destruct Hno]. split; [done|]. destruct Hn.
    constructor; [done|done|done|done|done|by intros ? [= <-]| |]; constructor; cbn in *; lia.
  - constructor; [done|done|done|done|done|done| |]; constructor; cbn in *; lia.
Qed.

Lemma bt_sum_part f (h : list (Z * Shared)) a s : (∀ row, row ∈ h → 0 ≤ f row) → bt_get a h = Some s → f (a, s) ≤ bt_sum f h.
Proof. apply bt_sum_ge. Qed.

(** The drop of the reservation of a write under way. *)
Lemma drop_pending readers m r : accounts readers (Some r) m → ∃ p, drop_reservation (pool m) r = Some p ∧ accounts readers None (set_pool m p).
Proof.
  intros [Hs Hf Hc Ho Hh Hp [E1 E2 E3] [W1 W2 W3]]. destruct (Hp r eq_refl) as [[Hb Hv] Hg]. cbn [pending_of] in *.
  assert (∀ row, row ∈ heap m → covers (pointee row.2)) as Hrows by (intros [a s] Hin; apply (Hc a), bt_elem_get; done).
  assert (0 ≤ bt_sum reserved_bytes (heap m) ∧ 0 ≤ bt_sum reserved_versions (heap m) ∧ 0 ≤ bt_sum generations_of (heap m)) as (B1 & B2 & B3).
  { split_and!; apply bt_sum_nonneg, Forall_forall; intros row Hrow; destruct (Hrows row Hrow) as [E [? ?]]; unfold reserved_bytes, reserved_versions, generations_of; rewrite E; cbn; [done|done|].
    by destruct (negb _). }
  unfold drop_reservation, checked_sub. rewrite E1, E2, E3.
  rewrite (proj2 (Z.leb_le (charge_bytes (reserved r)) _)) by lia. rewrite (proj2 (Z.leb_le (charge_versions (reserved r)) _)) by lia. rewrite (proj2 (Z.leb_le (reserved_generations r) _)) by lia.
  eexists. split; [done|]. constructor; [done|done|done|done|done|done| |]; constructor; cbn in *; lia.
Qed.

(** ** Owners *)

Lemma accounts_perm readers readers' pending m : readers ≡ₚ readers' → accounts readers pending m → accounts readers' pending m.
Proof.
  intros Hp [Hs Hf Hc Ho Hh Hpe He Hw]. assert (∀ a, owned_by readers' m a = owned_by readers m a) as E by (intros a; unfold owned_by, held_by, len; by rewrite Hp).
  constructor; try done; intros a; [intros s Ha; rewrite E; by apply Ho|rewrite E; apply Hh].
Qed.
Lemma owned_by_cons readers m a b : owned_by (b :: readers) m a = owned_by readers m a + one_if (bool_decide (b = a)).
Proof. unfold owned_by. rewrite held_by_cons. lia. Qed.
Lemma one_if_bool b : 0 ≤ one_if b ≤ 1.
Proof. by destruct b. Qed.
Lemma owned_by_nonneg readers m a : 0 ≤ owned_by readers m a.
Proof. unfold owned_by. pose proof (held_by_nonneg readers a). pose proof (one_if_bool (bool_decide (a = active m))). lia. Qed.

Lemma heap_nonneg readers pending m :
  accounts readers pending m → ∀ row, row ∈ heap m → 0 ≤ reserved_bytes row ∧ 0 ≤ reserved_versions row ∧ 0 ≤ generations_of row.
Proof.
  intros [Hs _ Hc _ _ _ _ _] [a s] Hin. apply bt_elem_get in Hin; [|done]. destruct (Hc a s Hin) as [E [? ?]]. unfold reserved_bytes, reserved_versions, generations_of. cbn [snd]. rewrite E. cbn.
  split_and!; [done|done|]. by destruct (negb _).
Qed.

(** The generation an address points to. *)
Definition points_to (m : Mutable) (a : Z) : option Generation := pointee <$> bt_get a (heap m).

Lemma arc_drop_spec readers pending m a :
  accounts (a :: readers) pending m →
  ∃ m', arc_drop m a = Some m' ∧ accounts readers pending m' ∧ active m' = active m ∧ fresh m' = fresh m
    ∧ ∀ b, b ≠ a ∨ 1 ≤ owned_by readers m a → points_to m' b = points_to m b.
Proof.
  intros Hacc. pose proof (heap_nonneg _ _ _ Hacc) as Hnn. destruct Hacc as [Hs Hf Hc Ho Hh Hp [E1 E2 E3] [W1 W2 W3]].
  pose proof (owned_by_nonneg readers m a) as Hown. destruct (Hh a) as [s Ha]; [rewrite owned_by_cons, bool_decide_eq_true_2 by done; cbn; lia|].
  destruct (Ho a s Ha) as [Eo _]. rewrite owned_by_cons, bool_decide_eq_true_2 in Eo by done. cbn [one_if] in Eo. unfold arc_drop. rewrite Ha.
  assert (∀ b, b ≠ a → owned_by (a :: readers) m b = owned_by readers m b) as Hother by (intros b Hne; rewrite owned_by_cons, bool_decide_eq_false_2 by done; cbn; lia).
  destruct (Z.eqb_spec (owners s) 1) as [E|E].
  - assert (0 ≤ pending_of (λ r, charge_bytes (reserved r)) pending ∧ 0 ≤ pending_of (λ r, charge_versions (reserved r)) pending ∧ 0 ≤ pending_of reserved_generations pending) as (P1 & P2 & P3).
    { destruct pending as [r|]; [|done]. destruct (Hp r eq_refl) as [[? ?] ?]. cbn. lia. }
    set (r := gen_reservation (pointee s)).
    assert (charge_bytes (reserved r) ≤ bt_sum reserved_bytes (heap m)) as B1 by exact (bt_sum_part reserved_bytes _ _ _ (λ row Hr, proj1 (Hnn row Hr)) Ha).
    assert (charge_versions (reserved r) ≤ bt_sum reserved_versions (heap m)) as B2 by exact (bt_sum_part reserved_versions _ _ _ (λ row Hr, proj1 (proj2 (Hnn row Hr))) Ha).
    assert (reserved_generations r ≤ bt_sum generations_of (heap m)) as B3 by exact (bt_sum_part generations_of _ _ _ (λ row Hr, proj2 (proj2 (Hnn row Hr))) Ha).
    assert (0 ≤ charge_bytes (reserved r) ∧ 0 ≤ charge_versions (reserved r) ∧ 0 ≤ reserved_generations r) as (N1 & N2 & N3) by exact (Hnn (a, s) (bt_get_elem _ _ _ Ha)).
    unfold drop_reservation, checked_sub. rewrite E1, E2, E3. rewrite !(proj2 (Z.leb_le _ _)) by lia. eexists. split; [done|]. split; [|split; [done|split; [done|]]].
    + constructor; cbn [heap active fresh pool].
      * by apply bt_remove_sorted.
      * intros b x Hb. destruct (decide (b = a)) as [->|Hne]; [by rewrite bt_get_remove_eq in Hb|]. rewrite bt_get_remove_ne in Hb by congruence. by eapply Hf.
      * intros b x Hb. destruct (decide (b = a)) as [->|Hne]; [by rewrite bt_get_remove_eq in Hb|]. rewrite bt_get_remove_ne in Hb by congruence. by eapply Hc.
      * intros b x Hb. destruct (decide (b = a)) as [->|Hne]; [by rewrite bt_get_remove_eq in Hb|]. rewrite bt_get_remove_ne in Hb by congruence.
        destruct (Ho b x Hb) as [Ex ?]. rewrite Hother in Ex by done. split; [exact Ex|done].
      * intros b Hb. assert (1 ≤ owned_by readers m b) as Hb' by exact Hb. destruct (decide (b = a)) as [->|Hne]; [lia|]. rewrite bt_get_remove_ne by congruence.
        apply Hh. by rewrite Hother.
      * done.
      * constructor; cbn; rewrite bt_sum_remove, Ha by done; [change (reserved_bytes (a, s)) with (charge_bytes (reserved r))|change (reserved_versions (a, s)) with (charge_versions (reserved r))|change (generations_of (a, s)) with (reserved_generations r)]; lia.
      * constructor; cbn; lia.
    + intros b [Hne|Hge]; [|lia]. unfold points_to. cbn [heap]. by rewrite bt_get_remove_ne.
  - eexists. split; [done|]. split; [|split; [done|split; [done|]]].
    + constructor; cbn [heap active fresh pool set_heap].
      * by apply bt_insert_sorted.
      * intros b x. rewrite bt_get_insert. case_decide as Hb; [intros [= <-]; subst b; by eapply Hf|apply Hf].
      * intros b x. rewrite bt_get_insert. case_decide as Hb; [intros [= <-]; exact (Hc _ _ Ha)|apply Hc].
      * intros b x. rewrite bt_get_insert. case_decide as Hb; intros Hx.
        -- injection Hx as <-. subst b. cbn [owners]. assert (owners s - 1 = owned_by readers m a) as Eown by lia. split; [exact Eown|lia].
        -- destruct (Ho b x Hx) as [Ex ?]. rewrite Hother in Ex by done. split; [exact Ex|done].
      * intros b Hb. assert (1 ≤ owned_by readers m b) as Hb' by exact Hb. rewrite bt_get_insert. case_decide as Hne; [by eexists|]. apply Hh. by rewrite Hother.
      * done.
      * constructor; cbn [pool heap set_heap]; rewrite bt_sum_insert, Ha by done; [rewrite E1|rewrite E2|rewrite E3]; unfold reserved_bytes, reserved_versions, generations_of; cbn [snd pointee]; lia.
      * by constructor.
    + intros b _. unfold points_to. cbn [heap set_heap]. rewrite bt_get_insert. case_decide as Hb; [|done]. subst b. by rewrite Ha.
Qed.

Lemma arc_clone_spec readers pending m :
  accounts readers pending m →
  ∃ m', arc_clone m (active m) = Some m' ∧ accounts (active m :: readers) pending m' ∧ active m' = active m ∧ ∀ b, points_to m' b = points_to m b.
Proof.
  intros [Hs Hf Hc Ho Hh Hp [E1 E2 E3] Hw]. destruct (Hh (active m)) as [s Ha].
  { unfold owned_by. rewrite bool_decide_eq_true_2 by done. pose proof (held_by_nonneg readers (active m)). cbn. lia. }
  unfold arc_clone. rewrite Ha. eexists. split; [done|]. split; [|split; [done|]].
  - constructor; cbn [heap active fresh pool set_heap].
    + by apply bt_insert_sorted.
    + intros b x. rewrite bt_get_insert. case_decide as Hb; [intros _; subst b; exact (Hf _ _ Ha)|apply Hf].
    + intros b x. rewrite bt_get_insert. case_decide as Hb; [intros [= <-]; exact (Hc _ _ Ha)|apply Hc].
    + intros b x. rewrite bt_get_insert. rewrite owned_by_cons. case_decide as Hb; intros Hx.
      * injection Hx as <-. subst b. cbn [owners]. rewrite bool_decide_eq_true_2 by done. destruct (Ho _ _ Ha) as [Eo ?]. split; [exact (f_equal (λ z, z + 1) Eo)|lia].
      * rewrite bool_decide_eq_false_2 by done. cbn [one_if]. rewrite Z.add_0_r. by apply Ho.
    + intros b. rewrite owned_by_cons, bt_get_insert. case_decide as Hb; [by eexists|]. rewrite bool_decide_eq_false_2 by done. cbn [one_if]. rewrite Z.add_0_r. apply Hh.
    + done.
    + constructor; cbn [pool heap set_heap]; rewrite bt_sum_insert, Ha by done; [rewrite E1|rewrite E2|rewrite E3]; unfold reserved_bytes, reserved_versions, generations_of; cbn [snd pointee]; lia.
    + destruct Hw. by constructor.
  - intros b. unfold points_to. cbn [heap set_heap]. rewrite bt_get_insert. case_decide as Hb; [|done]. subst b. by rewrite Ha.
Qed.

Lemma held_in_heap readers pending m a : accounts readers pending m → 1 ≤ held_by readers a → a < fresh m ∧ is_Some (bt_get a (heap m)).
Proof.
  intros [Hs Hf Hc Ho Hh _ _ _] Ha. destruct (Hh a) as [s E]; [|split; [by eapply Hf|by eexists]].
  unfold owned_by. pose proof (one_if_bool (bool_decide (a = active m))). lia.
Qed.

(** A new active generation; what the old one was stays with its readers. *)
Lemma install_spec readers m g :
  accounts readers (Some (gen_reservation g)) m → covers g →
  ∃ m', install m g = Some m' ∧ accounts readers None m' ∧ points_to m' (active m') = Some g ∧ ∀ a, 1 ≤ held_by readers a → points_to m' a = points_to m a.
Proof.
  intros Hacc Hg. pose proof Hacc as [Hs Hf Hc Ho Hh Hp [E1 E2 E3] Hw].
  assert (bt_get (fresh m) (heap m) = None) as Hnone.
  { destruct (bt_get (fresh m) (heap m)) as [s|] eqn:E; [|done]. specialize (Hf _ _ E). lia. }
  assert (held_by readers (fresh m) = 0) as Hfresh.
  { pose proof (held_by_nonneg readers (fresh m)). destruct (decide (1 ≤ held_by readers (fresh m))) as [Hge|]; [|lia].
    destruct (held_in_heap _ _ _ _ Hacc Hge) as [? _]. lia. }
  assert (active m ≠ fresh m) as Hne.
  { intros E. destruct (Hh (active m)) as [s Ha]; [|by rewrite E, Hnone in Ha]. unfold owned_by. rewrite bool_decide_eq_true_2 by done.
    pose proof (held_by_nonneg readers (active m)). cbn. lia. }
  unfold install. set (m1 := {| pool := pool m; heap := _; active := _; fresh := _ |}).
  assert (accounts (active m :: readers) None m1) as H1.
  { constructor; cbn [heap active fresh pool m1].
    - by apply bt_insert_sorted.
    - intros b x. rewrite bt_get_insert. case_decide as Hb; [intros _; lia|]. intros Hx. specialize (Hf _ _ Hx). lia.
    - intros b x. rewrite bt_get_insert. case_decide as Hb; [by intros [= <-]|apply Hc].
    - intros b x. rewrite bt_get_insert, owned_by_cons. unfold owned_by. cbn [active]. case_decide as Hb; intros Hx.
      + injection Hx as <-. subst b. rewrite Hfresh, (bool_decide_eq_true_2 (fresh m = fresh m)), (bool_decide_eq_false_2 (active m = fresh m)) by done. done.
      + rewrite (bool_decide_eq_false_2 (b = fresh m)) by done. cbn [one_if]. rewrite Z.add_0_r. destruct (Ho b x Hx) as [Eo ?]. split; [|done]. rewrite Eo. unfold owned_by.
        f_equal. f_equal. by apply bool_decide_ext.
    - intros b. rewrite bt_get_insert, owned_by_cons. unfold owned_by. cbn [active]. case_decide as Hb; [by eexists|]. rewrite (bool_decide_eq_false_2 (b = fresh m)) by done. cbn [one_if].
      rewrite Z.add_0_r. intros Hge. apply Hh. unfold owned_by. rewrite (bool_decide_ext (b = active m) (active m = b)) by done. done.
    - done.
    - constructor; unfold m1; cbn [pool heap]; rewrite bt_sum_insert, Hnone by done; [rewrite E1|rewrite E2|rewrite E3]; unfold reserved_bytes, reserved_versions, generations_of, pending_of; cbn [snd pointee]; lia.
    - destruct Hw. by constructor. }
  destruct (arc_drop_spec _ _ _ _ H1) as (m' & Hd & Hacc' & Hact & _ & Hpt). exists m'. split; [exact Hd|]. split; [done|]. split.
  - rewrite Hact, Hpt by (by left). unfold points_to. cbn [heap active m1]. by rewrite bt_get_insert_eq.
  - intros a Ha. destruct (held_in_heap _ _ _ _ Hacc Ha) as [Hlt _]. rewrite Hpt.
    + unfold points_to. cbn [heap m1]. rewrite bt_get_insert_ne; [done|lia].
    + destruct (decide (a = active m)) as [->|]; [right|by left]. unfold owned_by. pose proof (one_if_bool (bool_decide (active m = active m1))). lia.
Qed.

(** ** Writes *)

Section Writes.
Context `{Layout}.

(** A preparation for the active generation: alone, the addition to its reservation; shared, a copy
    with a reservation of its own. *)
Definition prepared_for (m : Mutable) (incoming : MutableCharge) (prepared : PreparedMutable) : Prop :=
  ∃ s, bt_get (active m) (heap m) = Some s ∧
  match prepared with
  | Unique delta => owners s = 1 ∧ delta = {| reserved := incoming; reserved_generations := one_if (version_count (gen_table (pointee s)) =? 0) |}
  | Replacement g => gen_table g = clone (gen_table (pointee s)) ∧ ∃ charge, charge_add (charge_of (gen_table (pointee s))) incoming = Ok charge
      ∧ gen_reservation g = {| reserved := charge; reserved_generations := 1 |}
  end.

Lemma active_in_heap readers pending m : accounts readers pending m → ∃ s, bt_get (active m) (heap m) = Some s ∧ owners s = held_by readers (active m) + 1.
Proof.
  intros [Hs Hf Hc Ho Hh _ _ _]. destruct (Hh (active m)) as [s Ha].
  - unfold owned_by. rewrite bool_decide_eq_true_2 by done. pose proof (held_by_nonneg readers (active m)). cbn. lia.
  - exists s. split; [done|]. destruct (Ho _ _ Ha) as [-> _]. unfold owned_by. by rewrite bool_decide_eq_true_2.
Qed.

Lemma prepare_active_spec readers m incoming :
  accounts readers None m → charge_nonneg incoming →
  ∃ m' r, prepare_active m incoming = Some (m', r) ∧ heap m' = heap m ∧ active m' = active m ∧ pool_limits (pool m') = pool_limits (pool m)
  ∧ match r with Ok p => prepared_for m incoming p ∧ accounts readers (Some (reservation_of p)) m' | Err _ => accounts readers None m' end.
Proof.
  intros Hacc Hn. destruct (active_in_heap _ _ _ Hacc) as (s & Ha & Eo). pose proof (held_by_nonneg readers (active m)) as Hheld.
  assert (covers (pointee s)) as [Ec [Hb Hv]] by (by eapply acc_covers).
  assert (∀ charge generations, pool_limits (reserve (pool m) charge generations).1 = pool_limits (pool m)) as Hlim by (intros; unfold reserve; by destruct (admit_reservation _ _ _)).
  unfold prepare_active. rewrite Ha. unfold prepare. destruct (Z.ltb_spec 1 (owners s)) as [Hsh|Hun].
  - destruct (charge_add (charge_of (gen_table (pointee s))) incoming) as [charge|e] eqn:Eadd; [|eexists _, _; split_and!; [done|done|done|done|by destruct m]].
    pose proof Eadd as (_ & _ & Echarge)%charge_add_ok. destruct Hn.
    pose proof (reserve_accounts readers m charge 1 Hacc) as Hr. rewrite Echarge in Hr at 1. specialize (Hr ltac:(split; cbn in *; lia) ltac:(lia)). specialize (Hlim charge 1).
    destruct (reserve (pool m) charge 1) as [p [r|e]]; [|eexists _, _; split; [done|]; split; [done|]; split; [done|]; split; [exact Hlim|exact Hr]].
    destruct Hr as [-> Hr]. eexists _, _. split; [done|]. split; [done|]. split; [done|]. split; [exact Hlim|]. split; [|exact Hr]. exists s. split; [done|]. split; [done|]. by exists charge.
  - pose proof (reserve_accounts readers m incoming (one_if (version_count (gen_table (pointee s)) =? 0)) Hacc Hn (proj1 (one_if_bool _))) as Hr.
    specialize (Hlim incoming (one_if (version_count (gen_table (pointee s)) =? 0))).
    destruct (reserve (pool m) incoming _) as [p [r|e]]; [|eexists _, _; split; [done|]; split; [done|]; split; [done|]; split; [exact Hlim|exact Hr]].
    destruct Hr as [-> Hr]. eexists _, _. split; [done|]. split; [done|]. split; [done|]. split; [exact Hlim|]. split; [|exact Hr]. exists s. split; [done|]. split; [lia|done].
Qed.

Lemma drop_prepared_spec readers m p : accounts readers (Some (reservation_of p)) m → ∃ m', drop_prepared m p = Some m' ∧ accounts readers None m' ∧ heap m' = heap m ∧ active m' = active m.
Proof. intros Hacc. destruct (drop_pending _ _ _ Hacc) as (q & Hq & Hacc'). unfold drop_prepared. change (match p with Unique delta => delta | Replacement g => gen_reservation g end) with (reservation_of p). rewrite Hq. by eexists. Qed.

Lemma apply_charge t batch first last t' incoming :
  apply_write_batch t batch first last = Ok t' → charge_batch batch = Ok incoming → charge_add (charge_of t) incoming = Ok (charge_of t').
Proof.
  unfold apply_write_batch. destruct (ok_or _ _); [|done]. destruct (_ || _)%bool; [done|]. intros Ha Hc. rewrite Hc in Ha. destruct (charge_add _ _) as [c|]; [|done]. injection Ha as <-.
  unfold charge_of. cbn. by destruct c.
Qed.

(** A generation whose table took a batch that was reserved for. *)
Lemma covers_applied t batch first last t' incoming charge generations :
  apply_write_batch t batch first last = Ok t' → charge_batch batch = Ok incoming → charge_nonneg (charge_of t) → charge_nonneg incoming → 1 ≤ charge_versions incoming →
  charge_add (charge_of t) incoming = Ok charge → generations = 1 →
  covers {| gen_table := t'; gen_reservation := {| reserved := charge; reserved_generations := generations |} |}.
Proof.
  intros Ha Hc [Nb Nv] [Ib Iv] Hone Hadd ->. pose proof (apply_charge _ _ _ _ _ _ Ha Hc) as Hadd'. rewrite Hadd in Hadd'. injection Hadd' as ->.
  apply charge_add_ok in Hadd as (_ & _ & E). unfold charge_of in E at 1. injection E as Eb Ev. split; cbn [gen_reservation gen_table].
  - f_equal. rewrite (proj2 (Z.eqb_neq _ _)); [done|]. cbn in *. lia.
  - split; cbn in *; lia.
Qed.

Lemma apply_prepared_spec readers m p batch incoming first last :
  accounts readers (Some (reservation_of p)) m → prepared_for m incoming p → charge_batch batch = Ok incoming → charge_nonneg incoming → 1 ≤ charge_versions incoming →
  ∃ m' r, apply_prepared m p batch first last = Some (m', r) ∧ accounts readers None m' ∧ (∀ a, 1 ≤ held_by readers a → points_to m' a = points_to m a)
  ∧ ∃ g t, points_to m (active m) = Some g ∧ (t = gen_table g ∨ t = clone (gen_table g)) ∧
    match r with
    | Ok _ => ∃ g', apply_write_batch t batch first last = Ok (gen_table g') ∧ points_to m' (active m') = Some g'
    | Err e => apply_write_batch t batch first last = Err e ∧ heap m' = heap m ∧ active m' = active m
    end.
Proof.
  intros Hacc (s & Ha & Hp) Hc Hn Hone. assert (covers (pointee s)) as [Ec Hcn] by (by eapply acc_covers).
  assert (points_to m (active m) = Some (pointee s)) as Hpt by (unfold points_to; by rewrite Ha).
  destruct (drop_pending _ _ _ Hacc) as (q & Hq & Hacc'). unfold apply_prepared, apply_with. destruct p as [delta|g]; cbn [reservation_of] in *.
  - destruct Hp as [Eo Edelta]. rewrite Ha, Eo. cbn [negb Z.eqb Pos.eqb].
    destruct (apply_write_batch (gen_table (pointee s)) batch first last) as [t'|e] eqn:Eapp.
    + eexists _, _. split; [done|]. destruct (charge_add (charge_of (gen_table (pointee s))) incoming) as [charge|] eqn:Eadd; [|by rewrite (apply_charge _ _ _ _ _ _ Eapp Hc) in Eadd].
      set (g' := {| gen_table := t'; gen_reservation := absorb (gen_reservation (pointee s)) delta |}).
      assert (covers g') as Hg'.
      { unfold g'. rewrite Edelta, Ec. unfold absorb. cbn [reserved reserved_generations]. pose proof Eadd as (_ & _ & Echarge)%charge_add_ok. rewrite <-Echarge.
        eapply covers_applied; [done|done|done|done|done|done|]. by destruct (version_count _ =? 0). }
      split; [|split].
      * pose proof Hacc as [Hs Hf Hcov Ho Hh Hpe [E1 E2 E3] [W1 W2 W3]]. constructor; cbn [heap active fresh pool set_heap].
        -- by apply bt_insert_sorted.
        -- intros b x. rewrite bt_get_insert. case_decide as Hb; [intros _; subst b; exact (Hf _ _ Ha)|apply Hf].
        -- intros b x. rewrite bt_get_insert. case_decide as Hb; [by intros [= <-]|apply Hcov].
        -- intros b x. rewrite bt_get_insert. case_decide as Hb; intros Hx; [|by apply Ho]. injection Hx as <-. subst b. cbn [owners]. destruct (Ho _ _ Ha) as [Ho1 _]. split; [exact (eq_trans (eq_sym Eo) Ho1)|lia].
        -- intros b Hb. rewrite bt_get_insert. case_decide; [by eexists|]. by apply Hh.
        -- done.
        -- constructor; cbn [pool heap set_heap]; rewrite bt_sum_insert, Ha by done; [rewrite E1|rewrite E2|rewrite E3]; unfold reserved_bytes, reserved_versions, generations_of, pending_of, g', absorb; cbn; lia.
        -- by constructor.
      * intros a Hheld. unfold points_to. cbn [heap set_heap]. rewrite bt_get_insert_ne; [done|]. intros <-. destruct (active_in_heap _ _ _ Hacc) as (s' & Ha' & Eo').
        rewrite Ha in Ha'. injection Ha' as <-. lia.
      * exists (pointee s), (gen_table (pointee s)). split; [done|]. split; [by left|]. exists g'. split; [exact Eapp|]. unfold points_to. cbn [heap active set_heap]. by rewrite bt_get_insert_eq.
    + rewrite Hq. eexists _, _. split; [done|]. split; [exact Hacc'|]. split; [done|]. exists (pointee s), (gen_table (pointee s)). split; [done|]. split; [by left|]. by rewrite Eapp.
  - destruct Hp as (Et & charge & Eadd & Eres). rewrite Et. destruct (apply_write_batch (clone (gen_table (pointee s))) batch first last) as [t'|e] eqn:Eapp.
    + set (g' := {| gen_table := t'; gen_reservation := gen_reservation g |}). assert (covers g') as Hg'.
      { unfold g'. rewrite Eres. by eapply (covers_applied (clone (gen_table (pointee s)))). }
      destruct (install_spec readers m g' Hacc Hg') as (m' & Hi & Ha' & Hact & Hpts). rewrite Hi. eexists _, _. split; [done|]. split; [done|]. split; [done|].
      exists (pointee s), (clone (gen_table (pointee s))). split; [done|]. split; [by right|]. by exists g'.
    + rewrite Hq. eexists _, _. split; [done|]. split; [exact Hacc'|]. split; [done|]. exists (pointee s), (clone (gen_table (pointee s))). split; [done|]. split; [by right|]. by rewrite Eapp.
Qed.

(** A flush takes the active generation away from the database, not from its readers. *)
Lemma install_empty_spec readers m sequence :
  accounts readers None m →
  ∃ m', install_empty m sequence = Some m' ∧ accounts readers None m' ∧ points_to m' (active m') = Some (empty_generation sequence)
    ∧ ∀ a, 1 ≤ held_by readers a → points_to m' a = points_to m a.
Proof.
  intros Hacc. apply install_spec; [|split; [done|split; done]]. destruct Hacc as [Hs Hf Hc Ho Hh _ [E1 E2 E3] Hw].
  constructor; try done. by intros r [= <-].
Qed.
End Writes.

(** * Every use of the pool *)

Section Uses.
Context `{Layout}.

(** What happens to the generations: a read captures the active one or lets one go, a write is
    prepared and applied, unless the log refuses it in between, and a flush installs an empty one. *)
Inductive MutableOp := Acquire | Release (a : Z) | Write (batch : WriteBatch) (first last : Z) (appended : bool) | Flush (sequence : Z).
Definition allowed (readers : list Z) (op : MutableOp) : Prop :=
  match op with Release a => a ∈ readers | Write batch _ _ _ => operations batch ≠ [] | _ => True end.
Fixpoint remove_one (a : Z) (l : list Z) : list Z := match l with [] => [] | b :: l => if a =? b then l else b :: remove_one a l end.

Definition write_mutable (m : Mutable) (batch : WriteBatch) (first last : Z) (appended : bool) : option (Mutable * result Error unit) :=
  match charge_batch batch with
  | Err e => Some (m, Err e)
  | Ok incoming =>
    match prepare_active m incoming with
    | Some (m, Ok p) =>
      if appended then apply_prepared m p batch first last
      else match drop_prepared m p with Some m => Some (m, Err PoisonedWriter) | None => None end
    | Some (m, Err e) => Some (m, Err e)
    | None => None
    end
  end.
Definition run_op (readers : list Z) (m : Mutable) (op : MutableOp) : option (list Z * Mutable * result Error unit) :=
  match op with
  | Acquire => match arc_clone m (active m) with Some m' => Some (active m :: readers, m', Ok tt) | None => None end
  | Release a => match arc_drop m a with Some m' => Some (remove_one a readers, m', Ok tt) | None => None end
  | Write batch first last appended => match write_mutable m batch first last appended with Some (m', r) => Some (readers, m', r) | None => None end
  | Flush sequence => match install_empty m sequence with Some m' => Some (readers, m', Ok tt) | None => None end
  end.

(** A pool that an opened table was wrapped in, and every use of it. *)
Definition wrapped (p : MutableMemory) (g : Generation) : Mutable := {| pool := p; heap := [(0, {| pointee := g; owners := 1 |})]; active := 0; fresh := 1 |}.
Inductive uses (start : Mutable) : list Z → Mutable → Prop :=
| uses_start : uses start [] start
| uses_step readers m op readers' m' r : uses start readers m → allowed readers op → run_op readers m op = Some (readers', m', r) → uses start readers' m'.
End Uses.

Lemma remove_one_perm a l : a ∈ l → l ≡ₚ a :: remove_one a l.
Proof.
  induction l as [|b l IH]; [by intros ?%not_elem_of_nil|]. intros [->|Hin]%elem_of_cons; cbn [remove_one]; [by rewrite Z.eqb_refl|].
  destruct (Z.eqb_spec a b) as [->|Hne]; [done|]. rewrite (IH Hin) at 1. apply Permutation_swap.
Qed.
Lemma held_elem readers a : a ∈ readers ↔ 1 ≤ held_by readers a.
Proof.
  induction readers as [|b l IH]; [split; [by intros ?%not_elem_of_nil|]; unfold held_by, len; cbn; lia|]. rewrite held_by_cons, elem_of_cons, IH.
  pose proof (held_by_nonneg l a). case_bool_decide as E; cbn; [|naive_solver lia]. split; [lia|by left].
Qed.

Section Exact.
Context `{LayoutLaws}.

Lemma charge_batch_nonneg batch incoming : charge_batch batch = Ok incoming → operations batch ≠ [] → charge_nonneg incoming ∧ 1 ≤ charge_versions incoming.
Proof.
  intros Hc Hne. assert (1 ≤ len (operations batch)) as Hlen by (destruct (operations batch); [done|unfold len; cbn [length]; lia]).
  apply (charge_batch_ok batch 0) in Hc as [_ ->]. pose proof (history_bytes_nonneg (numbered 0 (operations batch))). split; [|done]. split; cbn [charge_bytes charge_versions]; lia.
Qed.

Lemma write_mutable_spec readers m batch first last appended :
  accounts readers None m → operations batch ≠ [] →
  ∃ m' r, write_mutable m batch first last appended = Some (m', r) ∧ accounts readers None m' ∧ (∀ a, 1 ≤ held_by readers a → points_to m' a = points_to m a)
  ∧ match r with
    | Ok _ => appended = true ∧ ∃ g t g', points_to m (active m) = Some g ∧ (t = gen_table g ∨ t = clone (gen_table g))
        ∧ apply_write_batch t batch first last = Ok (gen_table g') ∧ points_to m' (active m') = Some g'
    | Err _ => heap m' = heap m ∧ active m' = active m
    end.
Proof.
  intros Hacc Hne. unfold write_mutable. destruct (charge_batch batch) as [incoming|e] eqn:Ec; [|by eexists _, _]. destruct (charge_batch_nonneg _ _ Ec Hne) as [Hn Hone].
  destruct (prepare_active_spec readers m incoming Hacc Hn) as (m1 & r1 & -> & Hh & Ha & _ & Hr).
  assert (∀ a, points_to m1 a = points_to m a) as Hpt by (intros a; unfold points_to; by rewrite Hh).
  destruct r1 as [p|e]; [|eexists _, _; split; [done|]; split; [done|]; split; [by intros a _|done]]. destruct Hr as [Hp Hacc1].
  assert (prepared_for m1 incoming p) as Hp1 by (destruct Hp as (s & Hs & Hp); exists s; rewrite Ha, Hh; done). destruct appended.
  - destruct (apply_prepared_spec readers m1 p batch incoming first last Hacc1 Hp1 Ec Hn Hone) as (m' & r & Eapp & Hacc' & Hpts & g & t & Hg & Ht & Hr).
    rewrite Eapp. exists m', r. split; [done|]. split; [done|]. split; [intros a Hheld; by rewrite Hpts|]. rewrite Hpt, Ha in Hg. destruct r as [[]|e].
    + split; [done|]. destruct Hr as (g' & Ht' & Hg'). by exists g, t, g'.
    + destruct Hr as (_ & ? & ?). split; congruence.
  - destruct (drop_prepared_spec readers m1 p Hacc1) as (m' & Hd & Hacc' & Hh' & Ha'). rewrite Hd. eexists _, _. split; [done|]. split; [done|].
    split; [intros a _; unfold points_to; by rewrite Hh', Hh|]. split; congruence.
Qed.

(** Operations never underflow, keep the accounts, leave what readers hold, and change nothing
    visible when they fail. *)
Lemma run_op_spec readers m op :
  accounts readers None m → allowed readers op →
  ∃ readers' m' r, run_op readers m op = Some (readers', m', r) ∧ accounts readers' None m'
    ∧ (∀ a, a ∈ readers → a ∈ readers' → points_to m' a = points_to m a) ∧ ∀ e, r = Err e → readers' = readers ∧ heap m' = heap m ∧ active m' = active m.
Proof.
  intros Hacc Hop. destruct op as [|a|batch first last appended|sequence]; cbn [run_op allowed] in *.
  - destruct (arc_clone_spec _ _ _ Hacc) as (m' & -> & Hacc' & _ & Hpt). eexists _, _, _. split; [done|]. split; [done|]. split; [by intros a _ _|done].
  - assert (accounts (a :: remove_one a readers) None m) as Hacc1 by (eapply accounts_perm; [|exact Hacc]; by apply remove_one_perm).
    destruct (arc_drop_spec _ _ _ _ Hacc1) as (m' & -> & Hacc' & _ & _ & Hpt). eexists _, _, _. split; [done|]. split; [done|]. split; [|done].
    intros b _ Hb%held_elem. apply Hpt. destruct (decide (b = a)) as [->|]; [right|by left]. unfold owned_by. pose proof (one_if_bool (bool_decide (a = active m))). lia.
  - destruct (write_mutable_spec readers m batch first last appended Hacc Hop) as (m' & r & -> & Hacc' & Hpt & Hr). eexists _, _, _. split; [done|]. split; [done|].
    split; [by intros a Ha%held_elem _; apply Hpt|]. by intros e ->.
  - destruct (install_empty_spec readers m sequence Hacc) as (m' & -> & Hacc' & _ & Hpt). eexists _, _, _. split; [done|]. split; [done|].
    split; [by intros a Ha%held_elem _; apply Hpt|done].
Qed.

Lemma wrap_accounts limits table p g :
  charge_nonneg (charge_of table) → 0 ≤ retained_bytes_limit limits → 0 ≤ retained_versions_limit limits → 0 ≤ retained_generations_limit limits →
  wrap (MutableMemory_new limits) table = (p, Ok g) → accounts [] None (wrapped p g).
Proof.
  intros [Hb Hv] L1 L2 L3. unfold wrap, reserve. destruct (admit_reservation _ _ _) as [[]|e] eqn:Ea; [|done]. apply admit_reservation_ok in Ea.
  destruct Ea as [(A1 & A2 & A3)|Hno]; [|destruct Hno; split; [done|]; cbn; by destruct (negb _)]. intros [= <- <-]. cbn in A1, A2, A3.
  assert (0 ≤ one_if (negb (version_count table =? 0))) as Hgen by (by destruct (negb _)). constructor; cbn [heap wrapped active fresh].
  - constructor; [constructor|constructor].
  - intros a s. cbn. destruct (cmp a 0) eqn:E; [|done|done]. apply cmp_eq in E as ->. intros _. lia.
  - intros a s. cbn. destruct (cmp a 0); [|done|done]. by intros [= <-].
  - intros a s. cbn. destruct (cmp a 0) eqn:E; [|done|done]. apply cmp_eq in E as ->. by intros [= <-].
  - intros a. unfold owned_by, held_by, len. cbn. case_bool_decide as E; [subst a; by eexists|]. cbn. lia.
  - done.
  - constructor; cbn; unfold bt_sum; cbn; lia.
  - constructor; cbn in *; lia.
Qed.

Lemma uses_accounts start readers m : accounts [] None start → uses start readers m → accounts readers None m.
Proof.
  intros Hstart. induction 1 as [|readers m op readers' m' r _ IH Hop Hrun]; [done|]. destruct (run_op_spec _ _ _ IH Hop) as (rs & m1 & r1 & E & Hacc & _). rewrite Hrun in E.
  by injection E as -> -> _.
Qed.

(** The limits never change. *)
Definition limits_of (m : Mutable) : MutableRetentionLimits := pool_limits (pool m).
Lemma drop_reservation_limits p r p' : drop_reservation p r = Some p' → pool_limits p' = pool_limits p.
Proof. unfold drop_reservation. by repeat (match goal with |- context [checked_sub ?a ?b] => destruct (checked_sub a b); [|done] end); intros [= <-]. Qed.
Lemma arc_drop_limits m a m' : arc_drop m a = Some m' → limits_of m' = limits_of m.
Proof.
  unfold arc_drop. destruct (bt_get a (heap m)); [|done]. destruct (_ =? 1); [|by intros [= <-]]. destruct (drop_reservation _ _) eqn:E; [|done]. apply drop_reservation_limits in E. by intros [= <-].
Qed.
Lemma install_limits m g m' : install m g = Some m' → limits_of m' = limits_of m.
Proof. unfold install. by intros ->%arc_drop_limits. Qed.
Lemma prepare_active_limits m incoming m' r : prepare_active m incoming = Some (m', r) → limits_of m' = limits_of m.
Proof.
  assert (∀ p charge generations, pool_limits (reserve p charge generations).1 = pool_limits p) as Hres by (intros; unfold reserve; by destruct (admit_reservation _ _ _)).
  unfold prepare_active, prepare. destruct (bt_get _ _) as [s|]; [|done]. destruct (1 <? owners s).
  - destruct (charge_add _ _) as [charge|]; [|by intros [= <- _]]. specialize (Hres (pool m) charge 1). destruct (reserve _ _ _) as [p [?|?]]; by intros [= <- _].
  - specialize (Hres (pool m) incoming (one_if (version_count (gen_table (pointee s)) =? 0))). destruct (reserve _ _ _) as [p [?|?]]; by intros [= <- _].
Qed.
Lemma drop_prepared_limits m p m' : drop_prepared m p = Some m' → limits_of m' = limits_of m.
Proof. unfold drop_prepared. destruct (drop_reservation _ _) eqn:E; [|done]. apply drop_reservation_limits in E. by intros [= <-]. Qed.
Lemma apply_prepared_limits m p batch first last m' r : apply_prepared m p batch first last = Some (m', r) → limits_of m' = limits_of m.
Proof.
  assert (∀ res e, match drop_reservation (pool m) res with Some p => Some (set_pool m p, Err (T := unit) e) | None => None end = Some (m', r) → limits_of m' = limits_of m) as Hdrop.
  { intros res e. destruct (drop_reservation _ _) eqn:E; [|done]. apply drop_reservation_limits in E. by intros [= <- _]. }
  unfold apply_prepared, apply_with. destruct p as [delta|g].
  - destruct (bt_get _ _) as [s|]; [|done]. destruct (negb _); [apply Hdrop|]. destruct (apply_write_batch _ _ _ _); [by intros [= <- _]|apply Hdrop].
  - destruct (apply_write_batch _ _ _ _); [|apply Hdrop]. destruct (install _ _) eqn:E; [|done]. apply install_limits in E. by intros [= <- _].
Qed.
Lemma run_op_limits readers m op readers' m' r : run_op readers m op = Some (readers', m', r) → limits_of m' = limits_of m.
Proof.
  destruct op as [|a|batch first last appended|sequence]; cbn [run_op].
  - unfold arc_clone. destruct (bt_get _ _); [|done]. by intros [= _ <- _].
  - destruct (arc_drop m a) eqn:E; [|done]. apply arc_drop_limits in E. by intros [= _ <- _].
  - unfold write_mutable. destruct (charge_batch batch) as [incoming|e]; [|by intros [= _ <- _]]. destruct (prepare_active m incoming) as [[m1 [p|e]]|] eqn:Ep; [| |done].
    + apply prepare_active_limits in Ep. destruct appended.
      * destruct (apply_prepared _ _ _ _ _) as [[m2 r2]|] eqn:Ea; [|done]. apply apply_prepared_limits in Ea. intros [= _ <- _]. congruence.
      * destruct (drop_prepared _ _) eqn:Ed; [|done]. apply drop_prepared_limits in Ed. intros [= _ <- _]. congruence.
    + apply prepare_active_limits in Ep. intros [= _ <- _]. congruence.
  - unfold install_empty. destruct (install _ _) eqn:E; [|done]. apply install_limits in E. by intros [= _ <- _].
Qed.

(** C28: the pool is exact.  However reads capture and release generations, writes are prepared,
    applied, denied or refused by the log, and flushes replace the active generation: the pool's
    figures are the sums over the generations alive, each reserved at exactly the charge of its
    table, and stay within the limits; a generation lives as long as someone owns it; no release
    underflows; a failed operation leaves the heap as it was; and what a read holds never changes. *)
Theorem mutable_memory_exact limits table p g readers m :
  charge_nonneg (charge_of table) → 0 ≤ retained_bytes_limit limits → 0 ≤ retained_versions_limit limits → 0 ≤ retained_generations_limit limits →
  wrap (MutableMemory_new limits) table = (p, Ok g) → uses (wrapped p g) readers m →
  limits_of m = limits ∧ exact_stats None m ∧ within_limits m
  ∧ (∀ a s, bt_get a (heap m) = Some s → covers (pointee s) ∧ owners s = owned_by readers m a ∧ 1 ≤ owners s)
  ∧ (∀ a, a = active m ∨ a ∈ readers → is_Some (bt_get a (heap m)))
  ∧ ∀ op, allowed readers op → ∃ readers' m' r, run_op readers m op = Some (readers', m', r)
      ∧ (∀ a, a ∈ readers → a ∈ readers' → points_to m' a = points_to m a)
      ∧ ∀ e, r = Err e → readers' = readers ∧ heap m' = heap m ∧ active m' = active m.
Proof.
  intros Hn L1 L2 L3 Hw Hu. assert (pool_limits p = limits) as Hlim.
  { revert Hw. unfold wrap, reserve. destruct (admit_reservation _ _ _); [|done]. by intros [= <- _]. }
  pose proof (uses_accounts _ _ _ (wrap_accounts _ _ _ _ Hn L1 L2 L3 Hw) Hu) as Hacc. split_and!.
  - clear Hacc. induction Hu as [|readers m op readers' m' r _ IH _ Hrun]; [done|]. apply run_op_limits in Hrun. congruence.
  - apply Hacc.
  - apply Hacc.
  - intros a s Ha. split; [by eapply acc_covers|]. by apply (acc_owners _ _ _ Hacc).
  - intros a Ha. apply (acc_held _ _ _ Hacc). unfold owned_by. pose proof (held_by_nonneg readers a). pose proof (one_if_bool (bool_decide (a = active m))).
    destruct Ha as [->|Ha%held_elem]; [rewrite bool_decide_eq_true_2 by done; cbn; lia|lia].
  - intros op Hop. destruct (run_op_spec _ _ _ Hacc Hop) as (readers' & m' & r & E & _ & Hpt & He). by exists readers', m', r.
Qed.
End Exact.

(** * A shared generation *)

Module SamplePool.
#[local] Existing Instances layout64 layout64_laws.

Definition limits : MutableRetentionLimits := {| retained_bytes_limit := 4096; retained_versions_limit := 8; retained_generations_limit := 2 |}.
Definition batch : WriteBatch := match WriteBatch_new [Put [x01] [x02]; Delete [x03]] with Ok b => b | Err _ => {| operations := []; encoded_len := 0 |} end.
Definition start : Mutable := match wrap (MutableMemory_new limits) (at_sequence 0) with (p, Ok g) => wrapped p g | (p, Err _) => wrapped p (empty_generation 0) end.
(** A write in place, a read that captures the result, a second write, which copies it, and a third,
    in place again. *)
Definition script : list MutableOp := [Write batch 1 2 true; Acquire; Write batch 3 4 true; Write batch 5 6 true].
Definition outcome : option (list Z * Mutable) :=
  foldl (λ st op, match st with Some (readers, m) => match run_op readers m op with Some (readers, m, _) => Some (readers, m) | None => None end | None => None end) (Some ([], start)) script.
Definition figures (m : Mutable) : Z * Z * list (Z * Z) :=
  (stat_versions (pool_stats (pool m)), stat_generations (pool_stats (pool m)), map (λ row : Z * Shared, (row.1, version_count (gen_table (pointee row.2)))) (heap m)).

Lemma script_allowed op readers : op ∈ script → allowed readers op.
Proof. unfold script. intros Hop. rewrite !elem_of_cons in Hop. by destruct Hop as [->|[->|[->|[->|?%not_elem_of_nil]]]]. Qed.
Lemma foldl_uses (l : list MutableOp) readers m readers' m' :
  (∀ op rs, op ∈ l → allowed rs op) → uses start readers m →
  foldl (λ st op, match st with Some (readers, m) => match run_op readers m op with Some (readers, m, _) => Some (readers, m) | None => None end | None => None end) (Some (readers, m)) l
    = Some (readers', m') → uses start readers' m'.
Proof.
  revert readers m. induction l as [|op l IH]; intros readers m Hall Hu; cbn [foldl]; [by intros [= <- <-]|].
  destruct (run_op readers m op) as [[[rs m1] r]|] eqn:E.
  - apply IH; [intros; apply Hall; by right|]. eapply uses_step; [exact Hu|apply Hall; by left|exact E].
  - clear. induction l; [done|exact IHl].
Qed.

Lemma mutable_memory_exact_witness :
  ∃ readers m, outcome = Some (readers, m) ∧ readers = [0] ∧ figures m = (8, 2, [(0, 2); (1, 6)]) ∧ exact_stats None m ∧ within_limits m.
Proof.
  destruct outcome as [[readers m]|] eqn:E; [|by vm_compute in E]. exists readers, m. split; [reflexivity|].
  assert (uses start readers m) as Hu by (eapply foldl_uses; [exact script_allowed|apply uses_start|exact E]).
  assert (outcome = Some (readers, m)) as E' by exact E. vm_compute in E'. split; [by injection E' as <- _|]. split; [by injection E' as _ <-|].
  destruct (mutable_memory_exact limits (at_sequence 0) (pool start) (empty_generation 0) readers m) as (_ & He & Hw & _); [by split|done|done|done|reflexivity|exact Hu|].
  split; [exact He|exact Hw].
Defined.
End SamplePool.
