(* ===== verification/Transaction.v ===== *)
(** Snapshot-isolated transactions ([rrd-lsm]: transaction.rs, transaction/scan.rs and the
    commit validation of database.rs).

    A transaction pins a sequence in a shared registry, buffers one final mutation per key and
    overlays that write set on reads.  The registry accounts for the live transactions of all
    owners; the operations of any number of transactions interleave.

    The theorems: the write set always fits one batch with exactly the size it was charged
    for; under every interleaving the registry's pins, owner count and bytes are exactly those
    of the live transactions, and releasing them all empties it; a bounded scan returns the
    first rows of the overlay; the commit check refuses exactly the write-write conflicts. *)

From S2P Require Import Prelude Machine BTree LsmError Batch RecoveryBudget Wal Memtable.
Open Scope Z_scope.

(** * Limits and ownership *)

(** lsm/transaction.rs:21-24 TransactionLimits *)
Record TransactionLimits := { limit_active : Z; limit_buffered : Z }.
(** lsm/transaction.rs:25-32 Default for TransactionLimits *)
Definition TransactionLimits_default : TransactionLimits :=
  {| limit_active := 64; limit_buffered := 64 * 1024 * 1024 |}.
(** lsm/transaction.rs:34-41 TransactionLimits::validate *)
Definition transaction_limits_validate (self : TransactionLimits) : result Error unit :=
  if ((limit_active self =? 0) || (limit_buffered self =? 0))%bool
  then Err (InvalidConfiguration "native transaction limits must be positive") else Ok tt.
(** lsm/transaction.rs:49-54 TransactionResource::as_str *)
Definition transaction_resource_as_str (self : TransactionResource) : string :=
  match self with Active => "active owners" | BufferedBytes => "owned buffer bytes" end.

(** lsm/transaction.rs:57-61 TransactionOwnership *)
Record TransactionOwnership := { pins : list (Z * Z); active : Z; owned_bytes : Z }.

(** lsm/transaction.rs:63-66 TransactionSnapshots; [lock_poisoned] is the mutex's mark of a
    panic while it was held, [registry_id] the identity [Arc::ptr_eq] compares. *)
Record TransactionSnapshots := {
  registry_id : Z; state : TransactionOwnership; lock_poisoned : bool; tx_limits : TransactionLimits
}.

(** lsm/transaction.rs:68-73 TransactionSnapshots::new *)
Definition TransactionSnapshots_new (id : Z) (limits : TransactionLimits) : TransactionSnapshots :=
  {| registry_id := id; state := {| pins := []; active := 0; owned_bytes := 0 |};
     lock_poisoned := false; tx_limits := limits |}.

Definition set_state (self : TransactionSnapshots) (s : TransactionOwnership) : TransactionSnapshots :=
  {| registry_id := registry_id self; state := s; lock_poisoned := lock_poisoned self;
     tx_limits := tx_limits self |}.

(** lsm/transaction.rs:74-96 TransactionSnapshots::acquire *)
Definition acquire (self : TransactionSnapshots) (sequence : Z) : result Error TransactionSnapshots :=
  if lock_poisoned self then Err PoisonedTransactionState
  else
    let s := state self in
    let? next := ok_or (checked_add 64 (active s) 1) PoisonedTransactionState in
    if limit_active (tx_limits self) <? next
    then Err (TransactionLimit Active (limit_active (tx_limits self)) next)
    else
      let? count := ok_or
        (checked_add 64 (match bt_get sequence (pins s) with Some c => c | None => 0 end) 1)
        PoisonedTransactionState in
      Ok (set_state self {| pins := bt_insert sequence count (pins s); active := next;
                            owned_bytes := owned_bytes s |}).

(** lsm/transaction.rs:97-116 TransactionSnapshots::resize *)
Definition resize (self : TransactionSnapshots) (previous next : Z) : result Error TransactionSnapshots :=
  if lock_poisoned self then Err PoisonedTransactionState
  else
    let s := state self in
    let? total := ok_or
      (match checked_sub (owned_bytes s) previous with
       | Some v => checked_add 64 v next
       | None => None
       end) (InvalidTransaction "transaction reservation overflow") in
    if limit_buffered (tx_limits self) <? total
    then Err (TransactionLimit BufferedBytes (limit_buffered (tx_limits self)) total)
    else Ok (set_state self {| pins := pins s; active := active s; owned_bytes := total |}).

(** lsm/transaction.rs:157-181 release_sequence *)
Definition release_sequence (s : TransactionOwnership) (sequence bytes : Z)
    : result Error TransactionOwnership :=
  let? count := ok_or (bt_get sequence (pins s)) PoisonedTransactionState in
  let? act := ok_or (checked_sub (active s) 1) PoisonedTransactionState in
  let? remaining := ok_or (checked_sub (owned_bytes s) bytes) PoisonedTransactionState in
  let pins' := if count =? 1 then bt_remove sequence (pins s)
               else bt_insert sequence (count - 1) (pins s) in
  Ok {| pins := pins'; active := act; owned_bytes := remaining |}.

(** lsm/transaction.rs:117-123 TransactionSnapshots::release *)
Definition registry_release (self : TransactionSnapshots) (sequence bytes : Z)
    : result Error TransactionSnapshots :=
  if lock_poisoned self then Err PoisonedTransactionState
  else let? s := release_sequence (state self) sequence bytes in Ok (set_state self s).

(** lsm/transaction.rs:124-130 TransactionSnapshots::release_after_panic *)
Definition release_after_panic (self : TransactionSnapshots) (sequence bytes : Z) : TransactionSnapshots :=
  match release_sequence (state self) sequence bytes with
  | Ok s => set_state self s
  | Err _ => self
  end.

(** lsm/transaction.rs:131-137 TransactionSnapshots::ownership *)
Definition ownership (self : TransactionSnapshots) : result Error (Z * Z) :=
  if lock_poisoned self then Err PoisonedTransactionState
  else Ok (active (state self), owned_bytes (state self)).

(** lsm/transaction.rs:138-147 TransactionSnapshots::sequences *)
Definition sequences (self : TransactionSnapshots) : result Error (list Z) :=
  if lock_poisoned self then Err PoisonedTransactionState else Ok (map fst (pins (state self))).

(** lsm/transaction.rs:148-155 TransactionSnapshots::is_empty *)
Definition registry_is_empty (self : TransactionSnapshots) : result Error bool :=
  if lock_poisoned self then Err PoisonedTransactionState else Ok (bool_decide (pins (state self) = [])).

(** * Transactions *)

(** A [Vec<u8>]: its bytes and its capacity. *)
Record buffer := { bytes : list byte; cap : Z }.

(** lsm/transaction.rs:198-205 Transaction; every write keeps the capacity of the key stored
    with it. *)
Record Transaction := {
  snapshot : Z;
  writes : list (key * (Z * option buffer));
  write_size : WriteBatchSize;
  buffered_bytes : Z;
  owner : Z;
  released : bool
}.

(** lsm/transaction.rs:208-218 Transaction::begin *)
Definition begin (snapshot : Z) (reg : TransactionSnapshots)
    : result Error (Transaction * TransactionSnapshots) :=
  let? reg := acquire reg snapshot in
  Ok ({| snapshot := snapshot; writes := []; write_size := WriteBatchSize_default;
         buffered_bytes := 0; owner := registry_id reg; released := false |}, reg).

(** lsm/transaction.rs:226-228 Transaction::write_count *)
Definition write_count (self : Transaction) : Z := len (writes self).

Definition pending_value (w : Z * option buffer) : option (list byte) := bytes <$> w.2.

(** [Iterator::take_while]. *)
Fixpoint take_while {A} (f : A → bool) (l : list A) : list A :=
  match l with [] => [] | x :: l => if f x then x :: take_while f l else [] end.
(** lsm/transaction.rs:231-239 Transaction::pending_prefix *)
Definition pending_prefix (self : Transaction) (prefix : key) : list (key * option (list byte)) :=
  map (λ '(k, w), (k, pending_value w))
    (take_while (λ '(k, _), bool_decide (prefix `prefix_of` k))
       (bt_select (Included prefix) Unbounded (writes self))).

(** lsm/transaction.rs:343-345 Transaction::belongs_to *)
Definition belongs_to (self : Transaction) (reg : TransactionSnapshots) : bool :=
  owner self =? registry_id reg.

Definition mutation_of (row : key * (Z * option buffer)) : Mutation :=
  match pending_value row.2 with Some v => Put row.1 v | None => Delete row.1 end.

(** lsm/transaction.rs:351-360 Transaction::take_mutations *)
Definition take_mutations (self : Transaction) : Transaction * list Mutation :=
  ({| snapshot := snapshot self; writes := []; write_size := WriteBatchSize_default;
      buffered_bytes := buffered_bytes self; owner := owner self; released := released self |},
   map mutation_of (writes self)).

Section Transaction.
(** [size_of::<(Vec<u8>, Option<Vec<u8>>)>()] and [size_of::<Mutation>()]. *)
Context (entry_bytes mutation_size : Z).

(** lsm/transaction.rs:184-190 buffer_charge *)
Definition buffer_charge (key_capacity : Z) (value : option buffer) : result Error Z :=
  ok_or (match checked_add 64 key_capacity (match value with Some v => cap v | None => 0 end) with
         | Some v => match checked_add 64 v entry_bytes with
                     | Some v => checked_add 64 v mutation_size
                     | None => None
                     end
         | None => None
         end) (InvalidTransaction "transaction buffer charge overflow").

Definition set_buffered (self : Transaction) (n : Z) : Transaction :=
  {| snapshot := snapshot self; writes := writes self; write_size := write_size self;
     buffered_bytes := n; owner := owner self; released := released self |}.

(** lsm/transaction.rs:294-315 Transaction::reserve_replacement *)
Definition reserve_replacement (self : Transaction) (reg : TransactionSnapshots) (k : buffer)
    (value : option buffer) : result Error (Transaction * TransactionSnapshots * Z) :=
  let? (old, capacity) :=
    match bt_get (bytes k) (writes self) with
    | Some (stored, prior) => let? c := buffer_charge stored prior in Ok (c, stored)
    | None => Ok (0, cap k)
    end in
  let? replacement := buffer_charge capacity value in
  let? next := ok_or
    (match checked_sub (buffered_bytes self) old with
     | Some v => checked_add 64 v replacement
     | None => None
     end) (InvalidTransaction "transaction replacement charge overflow") in
  if buffered_bytes self <? next
  then let? reg := resize reg (buffered_bytes self) next in Ok (set_buffered self next, reg, next)
  else Ok (self, reg, next).

(** lsm/transaction.rs:317-324 Transaction::finish_replacement *)
Definition finish_replacement (self : Transaction) (reg : TransactionSnapshots) (next : Z)
    : Transaction * TransactionSnapshots * result Error unit :=
  if next <? buffered_bytes self
  then match resize reg (buffered_bytes self) next with
       | Err e => (self, reg, Err e)
       | Ok reg => (set_buffered self next, reg, Ok tt)
       end
  else (self, reg, Ok tt).

(** lsm/transaction.rs:269-292 Transaction::put and Transaction::delete, which differ in the
    value they stage; inserting over an entry keeps the stored key. *)
Definition stage (self : Transaction) (reg : TransactionSnapshots) (k : buffer) (value : option buffer)
    : Transaction * TransactionSnapshots * result Error unit :=
  match with_replacement (write_size self) (bytes k)
          (pending_value <$> bt_get (bytes k) (writes self)) (bytes <$> value) with
  | Err e => (self, reg, Err e)
  | Ok size =>
    match reserve_replacement self reg k value with
    | Err e => (self, reg, Err e)
    | Ok (tx, reg, reserved) =>
      let capacity := match bt_get (bytes k) (writes tx) with Some (stored, _) => stored | None => cap k end in
      finish_replacement
        {| snapshot := snapshot tx; writes := bt_insert (bytes k) (capacity, value) (writes tx);
           write_size := size; buffered_bytes := buffered_bytes tx; owner := owner tx;
           released := released tx |} reg reserved
    end
  end.

(** lsm/transaction.rs:269-279 Transaction::put *)
Definition put (self : Transaction) (reg : TransactionSnapshots) (k value : buffer) :=
  stage self reg k (Some value).
(** lsm/transaction.rs:282-292 Transaction::delete *)
Definition delete (self : Transaction) (reg : TransactionSnapshots) (k : buffer) :=
  stage self reg k None.

(** lsm/transaction.rs:362-370 Transaction::release *)
Definition release (self : Transaction) (reg : TransactionSnapshots)
    : Transaction * TransactionSnapshots * result Error unit :=
  if released self then (self, reg, Ok tt)
  else
    let cleared := {| snapshot := snapshot self; writes := []; write_size := write_size self;
                      buffered_bytes := buffered_bytes self; owner := owner self; released := false |} in
    match registry_release reg (snapshot self) (buffered_bytes self) with
    | Err e => (cleared, reg, Err e)
    | Ok reg => ({| snapshot := snapshot self; writes := []; write_size := write_size self;
                    buffered_bytes := buffered_bytes self; owner := owner self; released := true |},
                 reg, Ok tt)
    end.

(** lsm/transaction.rs:374-381 Drop for Transaction *)
Definition drop_transaction (self : Transaction) (reg : TransactionSnapshots) : TransactionSnapshots :=
  if released self then reg else release_after_panic reg (snapshot self) (buffered_bytes self).

(** lsm/transaction.rs:396-399 TransactionRollback *)
Record TransactionRollback := { snapshot_sequence : Z; discarded_mutations : Z }.

(** lsm/transaction.rs:327-341 Transaction::rollback; the transaction is dropped at the end. *)
Definition rollback (self : Transaction) (reg : TransactionSnapshots)
    : TransactionSnapshots * result Error TransactionRollback :=
  let outcome := {| snapshot_sequence := snapshot self; discarded_mutations := len (writes self) |} in
  match release self reg with
  | (tx, reg, Err e) => (drop_transaction tx reg, Err e)
  | (tx, reg, Ok _) => (drop_transaction tx reg, Ok outcome)
  end.

(** * The database a transaction reads *)

(** What a transaction asks of the database: a point read and an ordered stream of the rows
    visible at a sequence, and the newest sequence of a key.  The registry identifies it. *)
Class Store (D : Type) := {
  store_registry : D → Z;
  store_get : D → key → Z → result Error (option (list byte));
  store_stream : D → key → key → Z → result Error (list (result Error (list (key * list byte))));
  store_latest : D → key → result Error (option Z)
}.

Section Reads.
Context {D : Type} `{Store D} (row_bytes : Z).

(** lsm/database.rs:963-972 Database::validate_transaction_owner *)
Definition validate_transaction_owner (db : D) (tx : Transaction) : result Error unit :=
  if owner tx =? store_registry db then Ok tt else Err TransactionDatabaseMismatch.

(** lsm/transaction.rs:243-250 Transaction::get *)
Definition tx_get (self : Transaction) (db : D) (k : key) : result Error (option (list byte)) :=
  do? validate_key k in
  do? validate_transaction_owner db self in
  match bt_get k (writes self) with
  | Some w => Ok (pending_value w)
  | None => store_get db k (snapshot self)
  end.

(** lsm/transaction/scan.rs:10-14 BaseRows *)
Record BaseRows := { stream : list (result Error (list (key * list byte))); batch : option (list (key * list byte)); row : nat }.

(** lsm/transaction/scan.rs:16-40 BaseRows::peek *)
Definition peek (self : BaseRows) : result Error (BaseRows * option (key * list byte)) :=
  let? self :=
    if match batch self with None => true | Some b => (length b <=? row self)%nat end
    then match stream self with
         | [] => Ok {| stream := []; batch := None; row := 0 |}
         | Ok b :: rest => Ok {| stream := rest; batch := Some b; row := 0 |}
         | Err e :: _ => Err e
         end
    else Ok self in
  match batch self with
  | None => Ok (self, None)
  | Some b => match b !! row self with
              | Some r => Ok (self, Some r)
              | None => Err (InvalidProjectedRead "projected scan omitted its key")
              end
  end.

(** lsm/transaction/scan.rs:41-43 BaseRows::advance *)
Definition advance_row (self : BaseRows) : BaseRows :=
  {| stream := stream self; batch := batch self; row := S (row self) |}.

(** lsm/transaction/scan.rs:48-53 OutputRows; [capacity] is that of its vector. *)
Record OutputRows := {
  rows : list (key * list byte); payload_size : Z; bytes_limit : Z; row_limit : Z; capacity : Z
}.

Definition output_overflow (reason : string) : Error := InvalidProjectedRead reason.

(** lsm/transaction/scan.rs:55-110 OutputRows::push; reserving memory succeeds. *)
Definition push (self : OutputRows) (k : key) (v : list byte) : result Error OutputRows :=
  let? payload := ok_or
    (match checked_add 64 (payload_size self) (len k) with
     | Some n => checked_add 64 n (len v)
     | None => None
     end) (output_overflow "transaction scan output overflow") in
  let? minimum := ok_or
    (match checked_add 64 (len (rows self)) 1 with
     | Some n => if n * row_bytes <? 2 ^ 64 then checked_add 64 (n * row_bytes) payload else None
     | None => None
     end) (output_overflow "transaction scan row overflow") in
  if bytes_limit self <? minimum
  then Err (ProjectedReadLimit OutputBufferBytes (bytes_limit self) minimum)
  else
    let capacity :=
      if len (rows self) =? capacity self
      then Z.min (Z.min (Z.max (saturating_mul 64 (capacity self) 2) 4) (row_limit self))
             ((bytes_limit self - payload) / row_bytes)
      else capacity self in
    let? actual := ok_or
      (if capacity * row_bytes <? 2 ^ 64 then checked_add 64 (capacity * row_bytes) payload else None)
      (output_overflow "transaction scan capacity overflow") in
    if bytes_limit self <? actual
    then Err (ProjectedReadLimit OutputBufferBytes (bytes_limit self) actual)
    else Ok {| rows := rows self ++ [(k, v)]; payload_size := payload; bytes_limit := bytes_limit self;
               row_limit := row_limit self; capacity := capacity |}.

(** lsm/transaction/scan.rs:160-181 bounded, one pass of the merge: [None] when both inputs
    are exhausted. *)
Definition merge_step (base : BaseRows) (pending : list (key * (Z * option buffer))) (output : OutputRows)
    : result Error (option (BaseRows * list (key * (Z * option buffer)) * OutputRows)) :=
  let? (base, next_row) := peek base in
  match next_row, pending with
  | None, [] => Ok None
  | Some (k, v), [] =>
    let? output := push output k v in Ok (Some (advance_row base, pending, output))
  | None, (pk, w) :: pending =>
    let? output := match pending_value w with Some v => push output pk v | None => Ok output end in
    Ok (Some (base, pending, output))
  | Some (k, v), (pk, w) :: rest =>
    match cmp k pk with
    | Lt => let? output := push output k v in Ok (Some (advance_row base, pending, output))
    | c =>
      let? output := match pending_value w with Some v => push output pk v | None => Ok output end in
      Ok (Some (match c with Eq => advance_row base | _ => base end, rest, output))
    end
  end.

(** lsm/transaction/scan.rs:160-181 bounded, the merge; every pass takes a row from one of
    the inputs, so [fuel] rows are enough. *)
Fixpoint merge_loop (fuel : nat) (limit : Z) (base : BaseRows) (pending : list (key * (Z * option buffer)))
    (output : OutputRows) : result Error OutputRows :=
  match fuel with
  | O => Ok output
  | S fuel =>
    if len (rows output) <? limit then
      let? step := merge_step base pending output in
      match step with
      | None => Ok output
      | Some (base, pending, output) => merge_loop fuel limit base pending output
      end
    else Ok output
  end.

(** lsm/error.rs:155-155 Display for Error, of the one error [validate_key] returns *)
Definition display_invalid (e : Error) : string :=
  match e with InvalidBatch reason => "invalid WAL batch: " +:+ reason | _ => "" end.

(** lsm/transaction/scan.rs:113-184 bounded; [output_bytes] is the configured output ceiling.  The
    budget of the stream is part of what [store_stream] answers, and cancelling it succeeds. *)
Definition bounded (self : Transaction) (db : D) (output_bytes : Z) (start end_ : key) (limit : Z)
    : result Error (list (key * list byte)) :=
  if (leb end_ start || (limit =? 0))%bool
  then Err (InvalidTransaction "scan requires a non-empty half-open range and positive limit")
  else
    do? validate_transaction_owner db self in
    do? try_each (λ bound, match validate_key bound with
                           | Ok _ => Ok tt
                           | Err e => Err (InvalidTransaction ("scan range: " +:+ display_invalid e))
                           end) (List.filter (λ b, negb (bool_decide (b = []))) [start; end_]) in
    let? batches := store_stream db start end_ (snapshot self) in
    let available := list_sum (map (λ b, match b with Ok b => length b | Err _ => 0 end) batches)%nat in
    let pending := bt_select (Included start) (Excluded end_) (writes self) in
    let? output := merge_loop (available + length pending + 1) limit
      {| stream := batches; batch := None; row := 0 |} pending
      {| rows := []; payload_size := 0; bytes_limit := output_bytes; row_limit := limit; capacity := 0 |} in
    Ok (rows output).

(** lsm/database.rs:894-912 Database::commit_transaction_inner, the conflict check of every
    written key *)
Definition commit_check (db : D) (tx : Transaction) : result Error unit :=
  do? validate_transaction_owner db tx in
  try_each (λ '(k, _),
      let? latest := store_latest db k in
      match latest with
      | Some conflicting =>
        if snapshot tx <? conflicting then Err (TransactionConflict (snapshot tx) conflicting) else Ok tt
      | None => Ok tt
      end) (writes tx).
End Reads.
End Transaction.

(** * The write set *)

(** Turn the checked operations of the code into equations. *)
Ltac checked :=
  repeat match goal with
  | H : checked_add _ _ _ = Some _ |- _ => apply checked_add_Some in H as [-> ?]
  | H : checked_sub _ _ = Some _ |- _ => apply checked_sub_Some in H as [-> ?]
  end.

(** Case analysis from the innermost match of a hypothesis outwards. *)
Ltac inner_matches_in H :=
  repeat (simplify_eq/=;
    match type of H with
    | context [match ?x with _ => _ end] =>
        lazymatch x with
        | context [match _ with _ => _ end] => fail
        | _ => let E := fresh "E" in destruct x eqn:E
        end
    end); simplify_eq/=; bools; checked.

Section WriteSet.
(** The two sizes are those of structures, so not negative. *)
Context (entry_bytes mutation_size : Z) (entry_nonneg : 0 ≤ entry_bytes) (mutation_nonneg : 0 ≤ mutation_size).

Definition cap_of (value : option buffer) : Z := match value with Some v => cap v | None => 0 end.
(** What a buffered write is charged. *)
Definition charge (row : key * (Z * option buffer)) : Z :=
  row.2.1 + cap_of row.2.2 + entry_bytes + mutation_size.
Definition row_size (row : key * (Z * option buffer)) : Z := op_bytes row.1 (pending_value row.2).

(** A [Vec] whose capacity is at least its length. *)
Definition vec_ok (b : buffer) : Prop := len (bytes b) ≤ cap b.
Definition value_ok (v : option buffer) : Prop := match v with Some b => vec_ok b | None => True end.

Definition row_ok (row : key * (Z * option buffer)) : Prop :=
  valid_entry row.1 (pending_value row.2) ∧ 0 ≤ row.2.1 ∧ value_ok row.2.2.

(** The write set is ordered, each of its entries can be encoded, its size is the size of the
    batch it will become, and the buffers are paid for. *)
Definition tx_ok (tx : Transaction) : Prop :=
  bt_sorted (writes tx) ∧ Forall row_ok (writes tx)
  ∧ size_operations (write_size tx) = len (writes tx) ∧ len (writes tx) ≤ MAX_OPERATIONS
  ∧ encoded_bytes (write_size tx) = BATCH_HEADER_BYTES + bt_sum row_size (writes tx)
  ∧ encoded_bytes (write_size tx) ≤ WAL_MAX_PAYLOAD_BYTES
  ∧ bt_sum charge (writes tx) ≤ buffered_bytes tx.

Lemma cap_of_nonneg v : value_ok v → 0 ≤ cap_of v.
Proof. destruct v as [b|]; cbn; [|done]. unfold vec_ok. pose proof (len_nonneg (bytes b)). lia. Qed.

Lemma charge_nonneg row : row_ok row → 0 ≤ charge row.
Proof. intros (_ & Hc & Hv). unfold charge. pose proof (cap_of_nonneg _ Hv). lia. Qed.

Lemma row_size_nonneg row : 0 ≤ row_size row.
Proof.
  unfold row_size, op_bytes, OP_HEADER_BYTES. pose proof (len_nonneg row.1).
  pose proof (value_bytes_nonneg (pending_value row.2)). lia.
Qed.

Lemma buffer_charge_ok c v r :
  buffer_charge entry_bytes mutation_size c v = Ok r → r = c + cap_of v + entry_bytes + mutation_size.
Proof.
  unfold buffer_charge, ok_or. intros H. destruct v; cbn in *; inner_matches_in H; lia.
Qed.

Lemma row_of tx k w : tx_ok tx → bt_get k (writes tx) = Some w → row_ok (k, w).
Proof. intros (_ & Hall & _) Hk%bt_get_elem. by eapply Forall_forall in Hall. Qed.

(** The size record agrees with the entry a mutation replaces. *)
Lemma tx_charged tx k :
  tx_ok tx → charged (write_size tx) k (pending_value <$> bt_get k (writes tx)).
Proof.
  intros Hok. pose proof Hok as (_ & _ & Hn & Hmax & Hb & Hpay & _).
  assert (∀ w, bt_get k (writes tx) = Some w → row_size (k, w) ≤ bt_sum row_size (writes tx)) as Hge.
  { intros w. apply bt_sum_ge. intros; apply row_size_nonneg. }
  pose proof (len_nonneg (writes tx)). unfold charged. rewrite Hn.
  assert (0 ≤ bt_sum row_size (writes tx)).
  { apply bt_sum_nonneg, Forall_forall. intros; apply row_size_nonneg. }
  split; [lia|]. split; [lia|].
  destruct (bt_get k (writes tx)) as [w|] eqn:Hk; [|done]. cbn [fmap option_fmap option_map].
  specialize (Hge w eq_refl). destruct (row_of _ _ _ Hok Hk) as (Hv & _). split; [|split; [exact Hv|]].
  - apply bt_get_elem in Hk. destruct (writes tx) as [|r l]; [set_solver|]. rewrite len_cons.
    pose proof (len_nonneg l). lia.
  - rewrite Hb. change (op_bytes k (pending_value w)) with (row_size (k, w)). lia.
Qed.

Definition stored_capacity (tx : Transaction) (k : buffer) : Z :=
  match bt_get (bytes k) (writes tx) with Some (stored, _) => stored | None => cap k end.
Definition old_charge (tx : Transaction) (k : key) : Z :=
  match bt_get k (writes tx) with Some w => charge (k, w) | None => 0 end.
(** What the transaction will have been charged once the entry is replaced. *)
Definition next_charge (tx : Transaction) (k : buffer) (v : option buffer) : Z :=
  buffered_bytes tx - old_charge tx (bytes k) + (stored_capacity tx k + cap_of v + entry_bytes + mutation_size).

(** A reservation raises the charge of the transaction and of the registry, or neither. *)
Lemma reserve_spec tx reg k v tx' reg' next :
  reserve_replacement entry_bytes mutation_size tx reg k v = Ok (tx', reg', next) →
  next = next_charge tx k v
  ∧ (buffered_bytes tx < next ∧ resize reg (buffered_bytes tx) next = Ok reg' ∧ tx' = set_buffered tx next
     ∨ next ≤ buffered_bytes tx ∧ reg' = reg ∧ tx' = tx).
Proof.
  unfold reserve_replacement, next_charge, old_charge, stored_capacity. intros H.
  destruct (bt_get (bytes k) (writes tx)) as [[stored prior]|].
  - destruct (buffer_charge _ _ stored prior) as [c|] eqn:Hc; [|done]. apply buffer_charge_ok in Hc.
    destruct (buffer_charge _ _ stored v) as [r|] eqn:Hr; [|done]. apply buffer_charge_ok in Hr.
    unfold ok_or in H. inner_matches_in H; unfold charge; cbn; split; try lia; naive_solver.
  - destruct (buffer_charge _ _ (cap k) v) as [r|] eqn:Hr; [|done]. apply buffer_charge_ok in Hr.
    unfold ok_or in H. inner_matches_in H; split; try lia; naive_solver.
Qed.

Lemma resize_spec reg previous next reg' :
  resize reg previous next = Ok reg' →
  lock_poisoned reg = false ∧ owned_bytes (state reg) - previous + next ≤ limit_buffered (tx_limits reg)
  ∧ reg' = set_state reg {| pins := pins (state reg); active := active (state reg);
                            owned_bytes := owned_bytes (state reg) - previous + next |}.
Proof.
  unfold resize, ok_or. intros H. destruct (lock_poisoned reg); [done|].
  inner_matches_in H. done.
Qed.
(** The transaction with one entry replaced. *)
Definition written (tx : Transaction) (k : buffer) (v : option buffer) (size : WriteBatchSize) (n : Z)
    : Transaction :=
  {| snapshot := snapshot tx;
     writes := bt_insert (bytes k) (stored_capacity tx k, v) (writes tx);
     write_size := size; buffered_bytes := n; owner := owner tx; released := released tx |}.

(** A staged mutation is refused without an effect, or replaces the entry; then its charge has
    moved with the registry's, or shrinking it was refused. *)
Lemma stage_cases tx reg k v tx' reg' res :
  stage entry_bytes mutation_size tx reg k v = (tx', reg', res) →
  (tx' = tx ∧ reg' = reg ∧ ∃ e, res = Err e)
  ∨ ∃ size n,
      with_replacement (write_size tx) (bytes k) (pending_value <$> bt_get (bytes k) (writes tx))
        (bytes <$> v) = Ok size
      ∧ tx' = written tx k v size n
      ∧ (res = Ok tt ∧ n = next_charge tx k v
           ∧ (n = buffered_bytes tx ∧ reg' = reg ∨ resize reg (buffered_bytes tx) n = Ok reg')
         ∨ ∃ e, res = Err e ∧ reg' = reg ∧ n = buffered_bytes tx ∧ next_charge tx k v < n
             ∧ resize reg n (next_charge tx k v) = Err e).
Proof.
  unfold stage. destruct (with_replacement _ _ _ _) as [size|e]; [|intros [= <- <- <-]; left; eauto].
  destruct (reserve_replacement _ _ _ _ _ _) as [[[tx1 reg1] next]|e] eqn:Hres;
    [|intros [= <- <- <-]; left; eauto].
  apply reserve_spec in Hres as [Hnext [(Hlt & Hsz & Etx)|(Hle & Ereg & Etx)]]; subst tx1; cbn;
    unfold finish_replacement; cbn.
  - rewrite Z.ltb_irrefl. intros [= <- <- <-]. right. exists size, next. split; [done|]. split; [done|].
    left. auto.
  - subst reg1. destruct (Z.ltb_spec next (buffered_bytes tx)) as [Hlt|Hge].
    + destruct (resize reg (buffered_bytes tx) next) as [reg2|e] eqn:Hsz; intros [= <- <- <-]; right.
      * exists size, next. split; [done|]. split; [done|]. left. auto.
      * exists size, (buffered_bytes tx). split; [done|]. split; [done|]. right. exists e.
        rewrite <-Hnext. auto.
    + intros [= <- <- <-]. right. exists size, (buffered_bytes tx). split; [done|]. split; [done|].
      left. split; [done|]. split; [lia|]. left. done.
Qed.

Lemma charge_sum_written tx k v :
  tx_ok tx →
  bt_sum charge (bt_insert (bytes k) (stored_capacity tx k, v) (writes tx))
  = bt_sum charge (writes tx) - buffered_bytes tx + next_charge tx k v.
Proof.
  intros (Hs & _). rewrite bt_sum_insert by done. unfold next_charge, old_charge.
  unfold charge at 2. cbn [fst snd]. destruct (bt_get (bytes k) (writes tx)); lia.
Qed.

Lemma stored_capacity_nonneg tx k : tx_ok tx → vec_ok k → 0 ≤ stored_capacity tx k.
Proof.
  intros Hok Hk. unfold stored_capacity. destruct (bt_get (bytes k) (writes tx)) as [[c w]|] eqn:E.
  - by destruct (row_of _ _ _ Hok E) as (_ & Hc & _).
  - unfold vec_ok in Hk. pose proof (len_nonneg (bytes k)). lia.
Qed.

Lemma len_insert {K V} `{OrdLaws K} (k : K) (v : V) m :
  bt_sorted m → len (bt_insert k v m) = len m + match bt_get k m with Some _ => 0 | None => 1 end.
Proof.
  unfold bt_sorted. induction 1 as [|[k' v'] m Hs IH Hall]; cbn [bt_insert bt_get]; [done|].
  destruct (cmp k k') eqn:E; rewrite ?len_cons, ?IH; try lia.
  rewrite bt_get_below; [lia|]. eapply Forall_impl; [exact Hall|]. intros r Hr.
  eapply ltb_trans; [by apply ltb_lt|exact Hr].
Qed.

(** Replacing an entry that the size check admits, at a charge that covers it, keeps the
    invariant. *)
Lemma written_ok tx k v size n :
  tx_ok tx → vec_ok k → value_ok v →
  with_replacement (write_size tx) (bytes k) (pending_value <$> bt_get (bytes k) (writes tx)) (bytes <$> v) = Ok size →
  next_charge tx k v ≤ n → tx_ok (written tx k v size n).
Proof.
  intros Hok Hk Hv Hsize Hn. pose proof (tx_charged tx (bytes k) Hok) as Hch.
  apply with_replacement_ok in Hsize as (Hentry & Hops & Hbytes & ->); [|exact Hch].
  pose proof Hok as (Hs & Hall & Hcount & Hmax & Henc & Hpay & Hbuf).
  pose proof (len_insert (bytes k) (stored_capacity tx k, v) _ Hs) as Hlen.
  pose proof (stored_capacity_nonneg _ _ Hok Hk) as Hcap.
  unfold tx_ok, written; cbn [writes write_size buffered_bytes size_operations encoded_bytes].
  unfold next_operations, next_bytes in *.
  split; [by apply bt_insert_sorted|]. split.
  { apply Forall_forall. intros row [->|Hin]%bt_insert_elem; [|by eapply Forall_forall in Hall].
    split; [exact Hentry|]. by split. }
  split; [rewrite Hlen, Hcount; destruct (bt_get _ _); cbn; lia|].
  split; [rewrite Hlen; rewrite Hcount in Hops; destruct (bt_get _ _); cbn in *; lia|].
  split; [|split; [exact Hbytes|]].
  - rewrite bt_sum_insert, Henc by done.
    change (row_size (bytes k, (stored_capacity tx k, v))) with (op_bytes (bytes k) (bytes <$> v)).
    destruct (bt_get (bytes k) (writes tx)) as [w|]; cbn [fmap option_fmap option_map]; [|lia].
    change (row_size (bytes k, w)) with (op_bytes (bytes k) (pending_value w)). lia.
  - rewrite charge_sum_written by done. lia.
Qed.

Lemma stage_ok tx reg k v tx' reg' res :
  tx_ok tx → vec_ok k → value_ok v → stage entry_bytes mutation_size tx reg k v = (tx', reg', res) → tx_ok tx'.
Proof.
  intros Hok Hk Hv [(-> & _)|(size & n & Hsize & -> & H)]%stage_cases; [done|].
  apply written_ok; try done. destruct H as [(_ & -> & _)|(e & _ & _ & -> & Hlt & _)]; lia.
Qed.

(** The batch a write set becomes. *)
Lemma take_mutations_ok tx :
  tx_ok tx → writes tx ≠ [] →
  WriteBatch_new (take_mutations tx).2
  = Ok {| operations := (take_mutations tx).2; encoded_len := encoded_bytes (write_size tx) |}.
Proof.
  intros (_ & Hall & _ & Hmax & Henc & Hpay & _) Hne. unfold take_mutations. cbn [snd].
  assert (batch_bytes (map mutation_of (writes tx)) = bt_sum row_size (writes tx)) as Hsum.
  { clear. induction (writes tx) as [|[k w] l IH]; [done|]. cbn [map batch_bytes]. rewrite IH, bt_sum_cons. f_equal.
    unfold mutation_bytes, mutation_of, row_size. cbn [fst snd]. by destruct (pending_value w). }
  apply WriteBatch_new_ok. rewrite Hsum, <-Henc. split; [by destruct (writes tx)|].
  split; [by unfold len in *; rewrite length_map|]. split; [|done].
  apply Forall_map. eapply Forall_impl; [exact Hall|]. intros [k w] (Hv & _).
  unfold valid_mutation, mutation_of. cbn [fst snd] in *. by destruct (pending_value w).
Qed.
End WriteSet.

(** * The registry under interleaved transactions *)

Section Registry.
Context (entry_bytes mutation_size : Z) (entry_nonneg : 0 ≤ entry_bytes) (mutation_nonneg : 0 ≤ mutation_size).

(** The registry and the live transactions that share it. *)
Definition system : Type := TransactionSnapshots * list Transaction.

(** A panic while the registry is locked. *)
Definition poison (reg : TransactionSnapshots) : TransactionSnapshots :=
  {| registry_id := registry_id reg; state := state reg; lock_poisoned := true; tx_limits := tx_limits reg |}.

(** One operation of one transaction, or a panic.  Rolling back, dropping and committing
    consume the transaction; a commit has taken its mutations before it is dropped. *)
Inductive tx_step : system → system → Prop :=
| step_begin reg txs seq tx reg' :
    begin seq reg = Ok (tx, reg') → tx_step (reg, txs) (reg', tx :: txs)
| step_stage reg l tx r k v tx' reg' res :
    vec_ok k → value_ok v →
    stage entry_bytes mutation_size tx reg k v = (tx', reg', res) →
    tx_step (reg, l ++ tx :: r) (reg', l ++ tx' :: r)
| step_rollback reg l tx r :
    tx_step (reg, l ++ tx :: r) ((rollback tx reg).1, l ++ r)
| step_drop reg l tx r :
    tx_step (reg, l ++ tx :: r) (drop_transaction tx reg, l ++ r)
| step_commit reg l tx r :
    tx_step (reg, l ++ tx :: r) (drop_transaction (take_mutations tx).1 reg, l ++ r)
| step_poison reg txs : tx_step (reg, txs) (poison reg, txs).

Definition pins_of (s : Z) (txs : list Transaction) : Z :=
  len (List.filter (λ tx, snapshot tx =? s) txs).
Definition bytes_of (txs : list Transaction) : Z := fold_right (λ tx acc, buffered_bytes tx + acc) 0 txs.

(** A live transaction is the registry's, and pays exactly for its buffers unless a panic has
    kept it from giving charge back. *)
Definition live (reg : TransactionSnapshots) (tx : Transaction) : Prop :=
  tx_ok entry_bytes mutation_size tx ∧ released tx = false ∧ owner tx = registry_id reg
  ∧ (lock_poisoned reg = false → bt_sum (charge entry_bytes mutation_size) (writes tx) = buffered_bytes tx).

Definition accounted (sys : system) : Prop :=
  let (reg, txs) := sys in
  Forall (live reg) txs
  ∧ active (state reg) = len txs ∧ active (state reg) ≤ limit_active (tx_limits reg)
  ∧ owned_bytes (state reg) = bytes_of txs ∧ owned_bytes (state reg) ≤ limit_buffered (tx_limits reg) < 2 ^ 64
  ∧ bt_sorted (pins (state reg))
  ∧ ∀ s, bt_get s (pins (state reg)) = if pins_of s txs =? 0 then None else Some (pins_of s txs).

Lemma pins_of_cons s tx txs : pins_of s (tx :: txs) = (if snapshot tx =? s then 1 else 0) + pins_of s txs.
Proof. unfold pins_of. cbn [List.filter]. destruct (snapshot tx =? s); rewrite ?len_cons; lia. Qed.

Lemma pins_of_nonneg s txs : 0 ≤ pins_of s txs.
Proof. apply len_nonneg. Qed.

Lemma pins_of_app s l r : pins_of s (l ++ r) = pins_of s l + pins_of s r.
Proof. induction l as [|tx l IH]; [done|]. cbn [app]. rewrite !pins_of_cons, IH. lia. Qed.

Lemma bytes_of_cons tx txs : bytes_of (tx :: txs) = buffered_bytes tx + bytes_of txs.
Proof. done. Qed.

Lemma bytes_of_app l r : bytes_of (l ++ r) = bytes_of l + bytes_of r.
Proof. induction l as [|tx l IH]; [done|]. cbn [app]. rewrite !bytes_of_cons, IH. lia. Qed.

Lemma live_charge reg tx : live reg tx → 0 ≤ buffered_bytes tx.
Proof.
  intros ((Hs & Hall & _ & _ & _ & _ & Hb) & _). enough (0 ≤ bt_sum (charge entry_bytes mutation_size) (writes tx)) by lia.
  apply bt_sum_nonneg. eapply Forall_impl; [exact Hall|]. intros row. by apply charge_nonneg.
Qed.

Lemma bytes_of_nonneg reg txs : Forall (live reg) txs → 0 ≤ bytes_of txs.
Proof.
  induction 1 as [|tx txs Hl _ IH]; [done|]. rewrite bytes_of_cons. pose proof (live_charge _ _ Hl). lia.
Qed.

Lemma live_set_state reg s tx : live reg tx → live (set_state reg s) tx.
Proof. done. Qed.

Lemma acquire_spec reg seq reg' :
  acquire reg seq = Ok reg' →
  lock_poisoned reg = false ∧ active (state reg) + 1 ≤ limit_active (tx_limits reg)
  ∧ reg' = set_state reg
      {| pins := bt_insert seq (match bt_get seq (pins (state reg)) with Some c => c | None => 0 end + 1) (pins (state reg));
         active := active (state reg) + 1; owned_bytes := owned_bytes (state reg) |}.
Proof.
  unfold acquire, ok_or. intros H. destruct (lock_poisoned reg); [done|].
  destruct (checked_add 64 (active (state reg)) 1) eqn:E1; [|done].
  destruct (Z.ltb_spec (limit_active (tx_limits reg)) z); [done|].
  destruct (checked_add 64 (match bt_get _ _ with Some c => c | None => 0 end) 1) eqn:E2; [|done].
  checked. by injection H as <-.
Qed.
Lemma accounted_begin reg txs seq tx reg' :
  accounted (reg, txs) → begin seq reg = Ok (tx, reg') → accounted (reg', tx :: txs).
Proof.
  intros (Hlive & Ha & _ & Hb & Hbl & Hs & Hp) H. unfold begin in H.
  destruct (acquire reg seq) as [r1|] eqn:Hacq; [|done]. apply acquire_spec in Hacq as (_ & Hlim & ->).
  injection H as <- <-. unfold accounted. cbn [state set_state tx_limits pins active owned_bytes].
  split; [|split; [rewrite Ha, len_cons; lia|split; [done|split; [done|split; [done|split; [by apply bt_insert_sorted|]]]]]].
  - constructor; [|exact Hlive]. unfold live, tx_ok. cbn -[BATCH_HEADER_BYTES].
    repeat split; try constructor; try done.
  - intros s. rewrite bt_get_insert, pins_of_cons. cbn [snapshot].
    pose proof (pins_of_nonneg s txs) as Hn. case_decide as Hd.
    + subst s. rewrite Z.eqb_refl, Hp. destruct (Z.eqb_spec (pins_of seq txs) 0) as [->|]; [done|].
      rewrite (proj2 (Z.eqb_neq _ _)) by lia. f_equal. lia.
    + rewrite (proj2 (Z.eqb_neq seq s)) by done. exact (Hp s).
Qed.

(** Releasing a live transaction always succeeds on the registry's state. *)
Lemma release_live reg l tx r :
  accounted (reg, l ++ tx :: r) →
  ∃ s, release_sequence (state reg) (snapshot tx) (buffered_bytes tx) = Ok s
    ∧ accounted (set_state reg s, l ++ r).
Proof.
  intros (Hlive & Ha & Hal & Hb & Hbl & Hs & Hp). unfold release_sequence.
  apply Forall_app in Hlive as [Hl [Htx Hr]%Forall_cons].
  pose proof (Hp (snapshot tx)) as Hcount. rewrite pins_of_app, pins_of_cons, Z.eqb_refl in Hcount.
  pose proof (pins_of_nonneg (snapshot tx) l). pose proof (pins_of_nonneg (snapshot tx) r).
  rewrite (proj2 (Z.eqb_neq _ _)) in Hcount by lia. rewrite Hcount. cbn [ok_or].
  rewrite bytes_of_app, bytes_of_cons in Hb. rewrite len_app, len_cons in Ha.
  pose proof (bytes_of_nonneg _ _ Hl). pose proof (bytes_of_nonneg _ _ Hr). pose proof (live_charge _ _ Htx).
  pose proof (len_nonneg l). pose proof (len_nonneg r). unfold checked_sub.
  rewrite (proj2 (Z.leb_le 1 (active (state reg)))) by lia. cbn [ok_or].
  rewrite (proj2 (Z.leb_le (buffered_bytes tx) (owned_bytes (state reg)))) by lia. cbn [ok_or].
  eexists. split; [reflexivity|]. unfold accounted. cbn [state set_state tx_limits pins active owned_bytes].
  rewrite len_app, bytes_of_app. split; [by apply Forall_app|]. split; [lia|]. split; [lia|]. split; [lia|]. split; [lia|].
  split; [case_match; [by apply bt_remove_sorted|by apply bt_insert_sorted]|].
  intros s. specialize (Hp s). rewrite pins_of_app, pins_of_cons in Hp. rewrite pins_of_app.
  set (n := pins_of (snapshot tx) l) in *. set (n' := pins_of (snapshot tx) r) in *.
  destruct (Z.eqb_spec (n + (1 + n')) 1) as [Hone|Hone]; destruct (decide (snapshot tx = s)) as [<-|Hne].
  - rewrite bt_get_remove_eq by done. by rewrite (proj2 (Z.eqb_eq _ _)) by lia.
  - rewrite bt_get_remove_ne, Hp by done. by rewrite (proj2 (Z.eqb_neq (snapshot tx) s)).
  - rewrite bt_get_insert_eq. rewrite (proj2 (Z.eqb_neq _ _)) by lia. f_equal. lia.
  - rewrite bt_get_insert_ne, Hp by done. by rewrite (proj2 (Z.eqb_neq (snapshot tx) s)).
Qed.

Lemma drop_live reg l tx tx' r :
  accounted (reg, l ++ tx :: r) → snapshot tx' = snapshot tx → buffered_bytes tx' = buffered_bytes tx →
  released tx' = false → accounted (drop_transaction tx' reg, l ++ r).
Proof.
  intros Hacc Hsn Hby Hrel. destruct (release_live _ _ _ _ Hacc) as (s & Hs & Hok).
  unfold drop_transaction, release_after_panic. by rewrite Hrel, Hsn, Hby, Hs.
Qed.

(** Rolling back a live transaction: it reports what it discarded unless the lock is poisoned,
    and its pin and bytes are gone either way. *)
Lemma rollback_live reg l tx r :
  accounted (reg, l ++ tx :: r) →
  accounted ((rollback tx reg).1, l ++ r)
  ∧ (rollback tx reg).2 = if lock_poisoned reg then Err PoisonedTransactionState
      else Ok {| snapshot_sequence := snapshot tx; discarded_mutations := len (writes tx) |}.
Proof.
  intros Hacc. pose proof Hacc as (Hlive & _). apply Forall_app in Hlive as [_ [(_ & Hrel & _) _]%Forall_cons].
  destruct (release_live _ _ _ _ Hacc) as (s & Hs & Hok).
  unfold rollback, release, registry_release. rewrite Hrel, Hs.
  destruct (lock_poisoned reg); cbn [fst snd]; [|by split]. split; [|done].
  by eapply drop_live.
Qed.

(** An unpoisoned registry always takes charge back. *)
Lemma resize_shrink reg previous next :
  lock_poisoned reg = false → previous ≤ owned_bytes (state reg) → next ≤ previous →
  owned_bytes (state reg) ≤ limit_buffered (tx_limits reg) < 2 ^ 64 → ∃ reg', resize reg previous next = Ok reg'.
Proof.
  intros Hlock Hp Hn Hlim. unfold resize, checked_sub, checked_add. rewrite Hlock.
  rewrite (proj2 (Z.leb_le _ _)) by lia. rewrite (proj2 (Z.ltb_lt _ _)) by lia. cbn [ok_or].
  rewrite (proj2 (Z.ltb_ge _ _)) by lia. by eexists.
Qed.

(** Replacing one transaction by another with the same pin, when the registry has moved by the
    difference of their charges. *)
Lemma accounted_replace reg reg' l tx tx' r :
  accounted (reg, l ++ tx :: r) → snapshot tx' = snapshot tx → live reg' tx' →
  registry_id reg' = registry_id reg → lock_poisoned reg' = lock_poisoned reg → tx_limits reg' = tx_limits reg →
  pins (state reg') = pins (state reg) → active (state reg') = active (state reg) →
  owned_bytes (state reg') = owned_bytes (state reg) - buffered_bytes tx + buffered_bytes tx' →
  owned_bytes (state reg') ≤ limit_buffered (tx_limits reg) → accounted (reg', l ++ tx' :: r).
Proof.
  intros (Hlive & Ha & Hal & Hb & Hbl & Hs & Hp) Hsn Htx' Hid Hlock Hlim Hpins Hact Hown Hle.
  apply Forall_app in Hlive as [Hl [_ Hr]%Forall_cons]. unfold accounted. rewrite Hpins, Hact, Hlim.
  rewrite bytes_of_app, bytes_of_cons in *. rewrite len_app, len_cons in *.
  assert (∀ t, live reg t → live reg' t) as Hmono by (intros t; unfold live; by rewrite Hid, Hlock).
  split; [|split; [lia|split; [lia|split; [lia|split; [lia|split; [done|]]]]]].
  - apply Forall_app; split; [|constructor; [done|]]; eapply Forall_impl; eauto.
  - intros s. specialize (Hp s). rewrite pins_of_app, pins_of_cons in *. by rewrite Hsn.
Qed.

Lemma accounted_stage reg l tx r k v tx' reg' res :
  accounted (reg, l ++ tx :: r) → vec_ok k → value_ok v →
  stage entry_bytes mutation_size tx reg k v = (tx', reg', res) →
  accounted (reg', l ++ tx' :: r)
  ∧ (lock_poisoned reg = false → ∀ e, res = Err e → tx' = tx ∧ reg' = reg).
Proof.
  intros Hacc Hk Hv Hst. pose proof Hacc as (Hlive & _ & _ & Hb & Hbl & _).
  apply Forall_app in Hlive as [Hl [Htx Hr]%Forall_cons]. pose proof Htx as (Hok & Hrel & Hown & Hexact).
  assert (tx_ok entry_bytes mutation_size tx') as Hok' by (by eapply stage_ok).
  apply stage_cases in Hst as [(-> & -> & _)|(size & n & Hsize & -> & H)]; [by split|].
  pose proof (charge_sum_written entry_bytes mutation_size tx k v Hok) as Hsum.
  rewrite bytes_of_app, bytes_of_cons in Hb.
  assert (∀ reg2, registry_id reg2 = registry_id reg → lock_poisoned reg2 = lock_poisoned reg →
            (lock_poisoned reg = false → n = next_charge entry_bytes mutation_size tx k v) →
            live reg2 (written tx k v size n)) as Hlive'.
  { intros reg2 Hid Hlk Hn. split; [done|]. split; [done|]. split; [by rewrite Hid|]. rewrite Hlk. intros Hlock.
    specialize (Hexact Hlock). specialize (Hn Hlock). cbn [writes written buffered_bytes]. lia. }
  destruct H as [(-> & Hn & [[Hn' ->]|Hsz])|(e & -> & -> & Hn & Hlt & Herr)].
  - split; [|done]. eapply accounted_replace; eauto; cbn [buffered_bytes written]; lia.
  - split; [|done]. apply resize_spec in Hsz as (Hlock & Hlim & ->).
    eapply accounted_replace; eauto; cbn; lia.
  - assert (lock_poisoned reg = true) as Hlock.
    { destruct (lock_poisoned reg) eqn:Hlock; [done|]. exfalso.
      pose proof (bytes_of_nonneg _ _ Hl). pose proof (bytes_of_nonneg _ _ Hr). rewrite Hn in *.
      apply (resize_shrink reg (buffered_bytes tx) (next_charge entry_bytes mutation_size tx k v)) in Hlock
        as [reg2 Hsz]; [congruence|lia..]. }
    split; [|congruence].
    eapply accounted_replace; eauto; [apply Hlive'; congruence|cbn [buffered_bytes written]; lia..].
Qed.

Lemma accounted_new id limits :
  0 ≤ limit_active limits → 0 ≤ limit_buffered limits < 2 ^ 64 →
  accounted (TransactionSnapshots_new id limits, []).
Proof. intros Ha Hb. unfold accounted; cbn. repeat split; try constructor; try lia. Qed.

Lemma tx_step_accounted sys sys' : tx_step sys sys' → accounted sys → accounted sys'.
Proof.
  destruct 1 as [reg txs seq tx reg' Hb|reg l tx r k v tx' reg' res Hk Hv Hst|reg l tx r|reg l tx r|reg l tx r|reg txs];
    intros Hacc.
  - by eapply accounted_begin.
  - by eapply accounted_stage.
  - by apply rollback_live.
  - pose proof Hacc as (Hlive & _). apply Forall_app in Hlive as [_ [(_ & Hrel & _) _]%Forall_cons].
    by eapply drop_live.
  - pose proof Hacc as (Hlive & _). apply Forall_app in Hlive as [_ [(_ & Hrel & _) _]%Forall_cons].
    by eapply drop_live.
  - destruct Hacc as (Hlive & Hrest). split; [|exact Hrest]. eapply Forall_impl; [exact Hlive|].
    intros tx (Hok & Hrel & Hown & _). split; [exact Hok|]. split; [exact Hrel|]. by split; [exact Hown|].
Qed.

(** The states a registry with these limits can reach. *)
Definition reachable (id : Z) (limits : TransactionLimits) (sys : system) : Prop :=
  0 ≤ limit_active limits ∧ 0 ≤ limit_buffered limits < 2 ^ 64
  ∧ rtc tx_step (TransactionSnapshots_new id limits, []) sys.

Lemma reachable_accounted id limits sys : reachable id limits sys → accounted sys.
Proof.
  intros (Ha & Hb & Hrtc). apply (accounted_new id) in Hb; [|done].
  induction Hrtc; eauto using tx_step_accounted.
Qed.
Lemma drop_limits tx reg : tx_limits (drop_transaction tx reg) = tx_limits reg.
Proof.
  unfold drop_transaction, release_after_panic. destruct (released tx); [done|]. by destruct (release_sequence _ _ _).
Qed.

Lemma tx_step_limits sys sys' : tx_step sys sys' → tx_limits sys'.1 = tx_limits sys.1.
Proof.
  destruct 1 as [reg txs seq tx reg' Hb|reg l tx r k v tx' reg' res Hk Hv Hst|reg l tx r|reg l tx r|reg l tx r|reg txs];
    cbn [fst]; rewrite ?drop_limits; try done.
  - unfold begin in Hb. destruct (acquire reg seq) eqn:Hacq; [|done]. apply acquire_spec in Hacq as (_ & _ & ->).
    by injection Hb as <- <-.
  - apply stage_cases in Hst as [(_ & -> & _)|(size & n & _ & _ & H)]; [done|].
    destruct H as [(_ & _ & [[_ ->]|(_ & _ & ->)%resize_spec])|(e & _ & -> & _)]; done.
  - unfold rollback, release, registry_release.
    destruct (released tx), (lock_poisoned reg); cbn [fst]; rewrite ?drop_limits; try done.
    destruct (release_sequence _ _ _); cbn [fst]; by rewrite drop_limits.
Qed.

Lemma reachable_limits id limits reg txs : reachable id limits (reg, txs) → tx_limits reg = limits.
Proof.
  intros (_ & _ & Hrtc). change (tx_limits (reg, txs).1 = tx_limits (TransactionSnapshots_new id limits, @nil Transaction).1).
  induction Hrtc as [|x y z Hstep _ IH]; [done|]. by rewrite IH, (tx_step_limits _ _ Hstep).
Qed.

Lemma pins_exact reg txs :
  accounted (reg, txs) → ∀ s, s ∈ map fst (pins (state reg)) ↔ ∃ tx, tx ∈ txs ∧ snapshot tx = s.
Proof.
  intros (_ & _ & _ & _ & _ & Hs & Hp) s. specialize (Hp s).
  assert (pins_of s txs ≠ 0 ↔ ∃ tx, tx ∈ txs ∧ snapshot tx = s) as <-.
  { clear. induction txs as [|tx txs IH]; [split; [done|by intros (? & ?%not_elem_of_nil & _)]|].
    rewrite pins_of_cons. pose proof (pins_of_nonneg s txs).
    destruct (Z.eqb_spec (snapshot tx) s) as [Heq|Hne].
    - split; [|lia]. intros _. exists tx. split; [by left|done].
    - rewrite Z.add_0_l, IH. split; [intros (t & Hin & Ht); exists t; split; [by right|done]|].
      intros (t & [->|Hin]%elem_of_cons & Ht); [done|by exists t]. }
  destruct (Z.eqb_spec (pins_of s txs) 0) as [Hz|Hz].
  - split; [|done]. intros ([s' c] & -> & Hin)%list_elem_of_fmap. cbn in *.
    apply bt_elem_get in Hin; [|done]. congruence.
  - split; [done|]. intros _. apply bt_get_elem in Hp. apply list_elem_of_fmap. by eexists (s, _).
Qed.

(** C8: whatever the interleaving of begins, writes, rollbacks, drops and commits, and even
    after a panic poisons the lock, the registry counts exactly the live transactions, charges
    exactly the bytes they hold, within the configured limits, and pins exactly their
    snapshots; when none is live it is empty again. *)
Theorem transaction_registry_exact id limits reg txs :
  reachable id limits (reg, txs) →
  active (state reg) = len txs ∧ len txs ≤ limit_active limits
  ∧ owned_bytes (state reg) = bytes_of txs ∧ bytes_of txs ≤ limit_buffered limits
  ∧ (∀ s, s ∈ map fst (pins (state reg)) ↔ ∃ tx, tx ∈ txs ∧ snapshot tx = s)
  ∧ (txs = [] → state reg = {| pins := []; active := 0; owned_bytes := 0 |}).
Proof.
  intros Hr. pose proof (reachable_limits _ _ _ _ Hr) as Hlim. apply reachable_accounted in Hr.
  pose proof (pins_exact _ _ Hr) as Hpins. destruct Hr as (_ & Ha & Hal & Hb & Hbl & _ & Hp).
  rewrite Hlim in *. split; [done|]. split; [lia|]. split; [done|]. split; [lia|]. split; [done|].
  intros ->. destruct (state reg) as [p a o]; cbn in *. f_equal; [|done..].
  destruct p as [|[s c] p]; [done|]. specialize (Hp s). cbn in Hp. by rewrite Z.compare_refl in Hp.
Qed.

(** The write set of a live transaction always fits one batch: [WriteBatch::new] admits the
    mutations a commit takes, at exactly the encoded size the transaction was tracking, with
    one mutation per key in ascending order. *)
Theorem transaction_commit_fits id limits reg txs tx :
  reachable id limits (reg, txs) → tx ∈ txs → writes tx ≠ [] →
  WriteBatch_new (take_mutations tx).2
  = Ok {| operations := (take_mutations tx).2; encoded_len := encoded_bytes (write_size tx) |}
  ∧ StronglySorted (λ a b, ltb a b = true) (mkey <$> (take_mutations tx).2)
  ∧ len (take_mutations tx).2 = write_count tx.
Proof.
  intros (Hlive & _)%reachable_accounted Hin Hne. eapply Forall_forall in Hlive as (Hok & _); [|exact Hin].
  split; [by eapply take_mutations_ok|]. split; [|by unfold take_mutations, len; cbn; rewrite length_map].
  destruct Hok as (Hs & _). unfold take_mutations. cbn [snd].
  assert (mkey <$> map mutation_of (writes tx) = map fst (writes tx)) as ->.
  { change (map mkey (map mutation_of (writes tx)) = map fst (writes tx)). rewrite map_map. apply map_ext.
    intros [k w]. unfold mutation_of. cbn. by destruct (pending_value w). }
  clear Hne. unfold bt_sorted in Hs. induction Hs as [|row l Hs IH Hall]; [constructor|]. cbn [map].
  constructor; [done|]. apply Forall_map. eapply Forall_impl; [exact Hall|]. done.
Qed.

(** A put or delete on a healthy registry is atomic: refused, it leaves the transaction and
    the registry as they were; accepted, it replaces exactly the entry of its key. *)
Theorem transaction_stage_atomic id limits reg l tx r k v tx' reg' res :
  reachable id limits (reg, l ++ tx :: r) → lock_poisoned reg = false → vec_ok k → value_ok v →
  stage entry_bytes mutation_size tx reg k v = (tx', reg', res) →
  match res with
  | Err _ => tx' = tx ∧ reg' = reg
  | Ok _ => snapshot tx' = snapshot tx
      ∧ ∀ k', pending_value <$> bt_get k' (writes tx')
              = if decide (bytes k = k') then Some (bytes <$> v) else pending_value <$> bt_get k' (writes tx)
  end.
Proof.
  intros Hr%reachable_accounted Hlock Hk Hv Hst. pose proof (accounted_stage _ _ _ _ _ _ _ _ _ Hr Hk Hv Hst) as [_ Herr].
  destruct res as [u|e]; [|by eapply Herr].
  apply stage_cases in Hst as [(_ & _ & e & He)|(size & n & _ & -> & _)]; [done|]. split; [done|].
  intros k'. cbn [writes written]. rewrite bt_get_insert. by case_decide.
Qed.

(** Rolling a live transaction back cannot fail on a healthy registry, reports what it
    discards, and leaves the registry exactly as dropping the transaction does, poisoned or
    not: one owner fewer, its bytes returned. *)
Theorem transaction_rollback_is_drop id limits reg l tx r :
  reachable id limits (reg, l ++ tx :: r) →
  (rollback tx reg).1 = drop_transaction tx reg
  ∧ active (state (drop_transaction tx reg)) = active (state reg) - 1
  ∧ owned_bytes (state (drop_transaction tx reg)) = owned_bytes (state reg) - buffered_bytes tx
  ∧ (rollback tx reg).2 = if lock_poisoned reg then Err PoisonedTransactionState
      else Ok {| snapshot_sequence := snapshot tx; discarded_mutations := write_count tx |}.
Proof.
  intros Hr%reachable_accounted. pose proof (rollback_live _ _ _ _ Hr) as [_ Hres].
  destruct (release_live _ _ _ _ Hr) as (s & Hs & _).
  pose proof Hr as (Hlive & _). apply Forall_app in Hlive as [_ [(_ & Hrel & _) _]%Forall_cons].
  assert (drop_transaction tx reg = set_state reg s) as Hdrop.
  { unfold drop_transaction, release_after_panic. by rewrite Hrel, Hs. }
  split; [|split; [|split; [|exact Hres]]].
  - rewrite Hdrop. unfold rollback, release, registry_release. rewrite Hrel, Hs.
    destruct (lock_poisoned reg); [|done]. cbn. unfold drop_transaction, release_after_panic. cbn. by rewrite Hs.
  - rewrite Hdrop. unfold release_sequence, ok_or in Hs. inner_matches_in Hs; done.
  - rewrite Hdrop. unfold release_sequence, ok_or in Hs. inner_matches_in Hs; done.
Qed.
End Registry.

(** ** A concrete run *)

Definition vec (s : string) : buffer := {| bytes := str_bytes s; cap := str_len s |}.
Definition put_now (sys : TransactionSnapshots * Transaction) (k : string) (v : option string) :=
  let '(tx, reg, _) := stage 48 56 sys.2 sys.1 (vec k) (vec <$> v) in (reg, tx).

(** Two transactions over one registry, three mutations in the first. *)
Definition sample_registry : TransactionSnapshots := TransactionSnapshots_new 7 TransactionLimits_default.
Definition begin_now (seq : Z) (reg : TransactionSnapshots) : TransactionSnapshots * Transaction :=
  match begin seq reg with
  | Ok (tx, reg) => (reg, tx)
  | Err _ => (reg, {| snapshot := 0; writes := []; write_size := WriteBatchSize_default; buffered_bytes := 0;
                      owner := 0; released := false |})
  end.
Definition sample_one := begin_now 5 sample_registry.
Definition sample_two := begin_now 9 sample_one.1.
Definition sample_put1 := put_now (sample_two.1, sample_one.2) "beta" (Some "two").
Definition sample_put2 := put_now sample_put1 "alpha" (Some "one").
Definition sample_put3 := put_now sample_put2 "beta" None.
Definition sample_system : system := (sample_put3.1, [sample_two.2; sample_put3.2]).

Lemma vec_ok_vec s : vec_ok (vec s).
Proof. unfold vec_ok, vec; cbn -[len str_bytes]. unfold str_len. lia. Qed.
Lemma value_ok_vec o : value_ok (vec <$> o).
Proof. destruct o; [apply vec_ok_vec|done]. Qed.

Lemma sample_reachable : reachable 48 56 7 TransactionLimits_default sample_system.
Proof.
  split; [done|]. split; [done|].
  eapply rtc_l; [apply (step_begin 48 56 sample_registry [] 5 sample_one.2 sample_one.1); vm_compute; reflexivity|].
  eapply rtc_l; [apply (step_begin 48 56 sample_one.1 [sample_one.2] 9 sample_two.2 sample_two.1); vm_compute; reflexivity|].
  eapply rtc_l; [apply (step_stage 48 56 sample_two.1 [sample_two.2] sample_one.2 [] (vec "beta") (vec <$> Some "two")
    sample_put1.2 sample_put1.1 (Ok tt) (vec_ok_vec _) (value_ok_vec _)); vm_compute; reflexivity|].
  eapply rtc_l; [apply (step_stage 48 56 sample_put1.1 [sample_two.2] sample_put1.2 [] (vec "alpha") (vec <$> Some "one")
    sample_put2.2 sample_put2.1 (Ok tt) (vec_ok_vec _) (value_ok_vec _)); vm_compute; reflexivity|].
  eapply rtc_l; [apply (step_stage 48 56 sample_put2.1 [sample_two.2] sample_put2.2 [] (vec "beta") (vec <$> None)
    sample_put3.2 sample_put3.1 (Ok tt) (vec_ok_vec _) (value_ok_vec _)); vm_compute; reflexivity|].
  apply rtc_refl.
Qed.

Lemma transaction_registry_exact_witness :
  active (state sample_put3.1) = 2 ∧ owned_bytes (state sample_put3.1) = 220
  ∧ map fst (pins (state sample_put3.1)) = [5; 9]
  ∧ (9 ∈ map fst (pins (state sample_put3.1)) ↔ ∃ tx, tx ∈ [sample_two.2; sample_put3.2] ∧ snapshot tx = 9).
Proof.
  split; [vm_compute; reflexivity|]. split; [vm_compute; reflexivity|]. split; [vm_compute; reflexivity|].
  destruct (transaction_registry_exact 48 56 ltac:(done) ltac:(done) 7 TransactionLimits_default _ _ sample_reachable)
    as (_ & _ & _ & _ & Hp & _). apply Hp.
Defined.

Lemma transaction_commit_fits_witness :
  (take_mutations sample_put3.2).2 = [Put (str_bytes "alpha") (str_bytes "one"); Delete (str_bytes "beta")]
  ∧ is_ok (WriteBatch_new (take_mutations sample_put3.2).2) = true.
Proof.
  split; [vm_compute; reflexivity|].
  destruct (transaction_commit_fits 48 56 ltac:(done) ltac:(done) 7 TransactionLimits_default _ _ sample_put3.2 sample_reachable)
    as [Hnew _]; [apply elem_of_cons; right; by left|vm_compute; discriminate|].
  rewrite Hnew. reflexivity.
Defined.

Lemma transaction_stage_atomic_witness :
  bt_get (str_bytes "gamma") (writes (put_now sample_put3 "gamma" (Some "3")).2) = Some (5, Some (vec "3"))
  ∧ pending_value <$> bt_get (str_bytes "gamma") (writes (put_now sample_put3 "gamma" (Some "3")).2)
    = Some (Some (str_bytes "3")).
Proof.
  split; [vm_compute; reflexivity|].
  destruct (transaction_stage_atomic 48 56 ltac:(done) ltac:(done) 7 TransactionLimits_default sample_put3.1 [sample_two.2]
    sample_put3.2 [] (vec "gamma") (Some (vec "3")) (put_now sample_put3 "gamma" (Some "3")).2
    (put_now sample_put3 "gamma" (Some "3")).1 (Ok tt) sample_reachable eq_refl (vec_ok_vec _) (vec_ok_vec _)
    ltac:(vm_compute; reflexivity)) as [_ ->]. by rewrite decide_True.
Defined.

Lemma transaction_rollback_is_drop_witness :
  (rollback sample_put3.2 sample_put3.1).1 = drop_transaction sample_put3.2 sample_put3.1
  ∧ owned_bytes (state (drop_transaction sample_put3.2 sample_put3.1)) = 0
  ∧ (rollback sample_put3.2 sample_put3.1).2 = Ok {| snapshot_sequence := 5; discarded_mutations := 2 |}.
Proof.
  destruct (transaction_rollback_is_drop 48 56 ltac:(done) ltac:(done) 7 TransactionLimits_default sample_put3.1
    [sample_two.2] sample_put3.2 [] sample_reachable) as (Hd & _ & _ & Hr).
  split; [exact Hd|]. split; [vm_compute; reflexivity|]. rewrite Hr. vm_compute. reflexivity.
Defined.

(** * Reads: the snapshot overlaid by the write set *)

(** The map a transaction sees: its writes applied in order to the rows of its snapshot. *)
Definition overlay (base : list (key * list byte)) (pending : list (key * (Z * option buffer)))
    : list (key * list byte) :=
  fold_left (λ m '(k, w), match pending_value w with Some v => bt_insert k v m | None => bt_remove k m end)
    pending base.

Lemma overlay_spec base pending :
  bt_sorted base → bt_sorted pending →
  bt_sorted (overlay base pending)
  ∧ ∀ k, bt_get k (overlay base pending)
         = match bt_get k pending with Some w => pending_value w | None => bt_get k base end.
Proof.
  intros Hb Hp. unfold bt_sorted in Hp. revert base Hb. induction Hp as [|[pk w] pending Hp IH Hall]; intros base Hb; [done|].
  unfold overlay. cbn [fold_left]. fold (overlay (match pending_value w with Some v => bt_insert pk v base | None => bt_remove pk base end) pending).
  set (base' := match pending_value w with Some v => bt_insert pk v base | None => bt_remove pk base end).
  assert (bt_sorted base') as Hb' by (subst base'; destruct (pending_value w); [by apply bt_insert_sorted|by apply bt_remove_sorted]).
  destruct (IH base' Hb') as [Hs Hget]. split; [done|]. intros k. rewrite Hget. cbn [bt_get].
  destruct (cmp k pk) eqn:E.
  - apply cmp_eq in E as ->. rewrite (bt_get_below pk pending) by exact Hall. subst base'.
    destruct (pending_value w) as [v|] eqn:Ev; [apply bt_get_insert_eq|by apply bt_get_remove_eq].
  - destruct (bt_get k pending); [done|]. assert (pk ≠ k) by (intros ->; by rewrite cmp_refl in E).
    subst base'. destruct (pending_value w); [by apply bt_get_insert_ne|by apply bt_get_remove_ne].
  - destruct (bt_get k pending); [done|]. assert (pk ≠ k) by (intros ->; by rewrite cmp_refl in E).
    subst base'. destruct (pending_value w); [by apply bt_get_insert_ne|by apply bt_get_remove_ne].
Qed.

Lemma overlay_unique base pending l :
  bt_sorted base → bt_sorted pending → bt_sorted l →
  (∀ k, bt_get k l = match bt_get k pending with Some w => pending_value w | None => bt_get k base end) →
  overlay base pending = l.
Proof.
  intros Hb Hp Hl Hget. destruct (overlay_spec base pending Hb Hp) as [Hs Hov].
  apply bt_ext; [done|done|]. intros k. by rewrite Hov, Hget.
Qed.

Lemma sorted_below {V} (k : key) (v : V) l :
  bt_sorted l → (∀ k', is_Some (bt_get k' l) → ltb k k' = true) → bt_sorted ((k, v) :: l).
Proof.
  intros Hs Hall. constructor; [done|]. apply Forall_forall. intros [k' v'] Hin. apply Hall.
  apply bt_elem_get in Hin; [by eexists|done].
Qed.

Lemma bt_head_below {V} (k : key) (v : V) l k' : bt_sorted ((k, v) :: l) → is_Some (bt_get k' l) → ltb k k' = true.
Proof.
  intros Hs [v' Hin%bt_get_elem]. apply StronglySorted_inv in Hs as [_ Hall].
  eapply Forall_forall in Hall; [|exact Hin]. exact Hall.
Qed.

Lemma bt_cons_below {V} (p k : key) (v : V) l k' :
  cmp p k = Lt → bt_sorted ((k, v) :: l) → is_Some (bt_get k' ((k, v) :: l)) → ltb p k' = true.
Proof.
  intros E Hs Hk'. cbn [bt_get] in Hk'. apply ltb_lt in E.
  destruct (cmp k' k) eqn:E2; [by apply cmp_eq in E2 as ->|..];
    (eapply ltb_trans; [exact E|by eapply bt_head_below]).
Qed.

(** The row the overlay starts with, by which of the two inputs has the smaller key. *)
Lemma overlay_base k v l pending :
  bt_sorted ((k, v) :: l) → bt_sorted pending →
  (∀ k', is_Some (bt_get k' pending) → ltb k k' = true) →
  overlay ((k, v) :: l) pending = (k, v) :: overlay l pending.
Proof.
  intros Hl Hp Hbelow. pose proof Hl as [Hl' _]%StronglySorted_inv. fold (bt_sorted l) in Hl'.
  destruct (overlay_spec l pending Hl' Hp) as [Hs Hget]. apply overlay_unique; [done|done| |].
  - apply sorted_below; [done|]. intros k'. rewrite Hget. destruct (bt_get k' pending) eqn:E; [eauto|].
    by apply bt_head_below with v.
  - intros k'. cbn [bt_get]. destruct (cmp k' k) eqn:E; [|apply Hget..].
    apply cmp_eq in E as ->. destruct (bt_get k pending) eqn:E2; [|done].
    specialize (Hbelow k ltac:(by eexists)). by rewrite ltb_irrefl in Hbelow.
Qed.

Definition pending_row (pk : key) (w : Z * option buffer) : list (key * list byte) :=
  match pending_value w with Some v => [(pk, v)] | None => [] end.

Lemma overlay_pending l pk w pending l' :
  bt_sorted l → bt_sorted ((pk, w) :: pending) → bt_sorted l' →
  (∀ k, bt_get k l' = if decide (k = pk) then None else bt_get k l) →
  (∀ k, is_Some (bt_get k l') → ltb pk k = true) →
  overlay l ((pk, w) :: pending) = pending_row pk w ++ overlay l' pending.
Proof.
  intros Hl Hp Hl' Hget' Hbelow. pose proof Hp as [Hp' Hall]%StronglySorted_inv. fold (bt_sorted pending) in Hp'.
  destruct (overlay_spec l' pending Hl' Hp') as [Hs Hget]. apply overlay_unique; [done|done| |].
  - unfold pending_row. destruct (pending_value w) as [v|]; [|done]. apply sorted_below; [done|].
    intros k'. rewrite Hget. destruct (bt_get k' pending) eqn:E; [|eauto].
    intros _. by eapply bt_head_below; [exact Hp|eexists].
  - intros k. assert (bt_get pk pending = None) as Hnone by (by apply bt_get_below).
    unfold pending_row. cbn [bt_get]. destruct (cmp k pk) eqn:E.
    + apply cmp_eq in E as ->. destruct (pending_value w) as [v|] eqn:Ev; cbn [app bt_get].
      * by rewrite cmp_refl.
      * rewrite Hget, Hnone, Hget'. by rewrite decide_True.
    + assert (k ≠ pk) as Hne by (intros ->; by rewrite cmp_refl in E).
      destruct (pending_value w); cbn [app bt_get]; rewrite ?E, Hget, Hget', decide_False by done; done.
    + assert (k ≠ pk) as Hne by (intros ->; by rewrite cmp_refl in E).
      destruct (pending_value w); cbn [app bt_get]; rewrite ?E, Hget, Hget', decide_False by done; done.
Qed.

Section Scan.
(** [size_of::<(Vec<u8>, Vec<u8>)>()]. *)
Context (row_bytes : Z) (row_bytes_pos : 0 < row_bytes).

(** The rows a base iterator has still to give: its batches succeed and none is empty. *)
Definition base_rows (base : BaseRows) (l : list (key * list byte)) : Prop :=
  ∃ bs, stream base = map Ok bs ∧ Forall (λ b, b ≠ []) bs
    ∧ l = match batch base with Some b => drop (row base) b | None => [] end ++ concat bs.

Lemma base_rows_here st b i l :
  (i < length b)%nat → base_rows {| stream := st; batch := Some b; row := i |} l →
  ∃ r l', l = r :: l' ∧ b !! i = Some r ∧ base_rows {| stream := st; batch := Some b; row := S i |} l'.
Proof.
  intros Hi (bs & Hst & Hne & ->). cbn in *. destruct (lookup_lt_is_Some_2 b i Hi) as [r Hr].
  exists r, (drop (S i) b ++ concat bs). rewrite (drop_S _ _ _ Hr). split; [done|]. split; [done|].
  by exists bs.
Qed.

Lemma peek_spec base l :
  base_rows base l →
  ∃ base', peek base = Ok (base', head l) ∧ base_rows base' l
    ∧ ∀ r l', l = r :: l' → base_rows (advance_row base') l'.
Proof.
  intros Hb. assert (∀ st b i, (i < length b)%nat → base_rows {| stream := st; batch := Some b; row := i |} l →
    ∃ r, head l = Some r ∧ b !! i = Some r
      ∧ ∀ r' l', l = r' :: l' → base_rows {| stream := st; batch := Some b; row := S i |} l') as Hhere.
  { intros st b i Hi (r & l' & -> & Hr & Hl')%base_rows_here; [|done]. exists r. split; [done|]. split; [done|].
    by intros r' l'' [= -> ->]. }
  destruct base as [st ob i]. unfold peek. cbn [batch row stream].
  destruct (match ob with None => true | Some b => (length b <=? i)%nat end) eqn:Hex.
  - destruct Hb as (bs & Hst & Hne & Hl). cbn [stream batch row] in *.
    assert (match ob with Some b => drop i b | None => [] end = []) as Hnil.
    { destruct ob as [b|]; [|done]. apply Nat.leb_le in Hex. by apply drop_ge. }
    rewrite Hnil in Hl. cbn [app] in Hl. destruct Hne as [|b bs Hb0 Hne]; cbn [map] in Hst; subst st; cbn.
    + eexists. split; [by rewrite Hl|]. split; [by exists []|]. intros r l' ->. done.
    + destruct (Hhere (map Ok bs) b 0%nat) as (r & Hh & Hr & Hadv).
      { destruct b; [done|cbn; lia]. }
      { by exists bs. }
      rewrite Hr, Hh. eexists. split; [done|]. split; [by exists bs|exact Hadv].
  - destruct ob as [b|]; [|done]. apply Nat.leb_gt in Hex. cbn [batch row stream].
    destruct (Hhere st b i Hex Hb) as (r & -> & -> & Hadv). eexists. split; [done|]. split; [done|exact Hadv].
Qed.

(** ** One pass of the merge *)

Definition push_row (out : OutputRows) (o : list (key * list byte)) : result Error OutputRows :=
  match o with [] => Ok out | (k, v) :: _ => push row_bytes out k v end.

Lemma push_pending out pk w :
  match pending_value w with Some v => push row_bytes out pk v | None => Ok out end = push_row out (pending_row pk w).
Proof. unfold pending_row. by destruct (pending_value w). Qed.

Lemma pending_row_short pk w : (length (pending_row pk w) ≤ 1)%nat.
Proof. unfold pending_row. destruct (pending_value w); cbn; lia. Qed.

(** Each pass ends the scan, or takes at least one row off the inputs and moves the first row
    of the overlay, if the overlay has one there, to the output. *)
Lemma merge_step_spec base l pending out :
  base_rows base l → bt_sorted l → bt_sorted pending →
  (l = [] ∧ pending = [] ∧ merge_step row_bytes base pending out = Ok None)
  ∨ ∃ base' l' pending' o,
      base_rows base' l' ∧ bt_sorted l' ∧ bt_sorted pending' ∧ (length o ≤ 1)%nat
      ∧ (length l' + length pending' < length l + length pending)%nat
      ∧ overlay l pending = o ++ overlay l' pending'
      ∧ merge_step row_bytes base pending out = let? out' := push_row out o in Ok (Some (base', pending', out')).
Proof.
  intros Hb Hl Hp. destruct (peek_spec _ _ Hb) as (base' & Hpeek & Hb' & Hadv).
  unfold merge_step. rewrite Hpeek. destruct l as [|[k v] l]; cbn [head].
  - destruct pending as [|[pk w] pending]; [by left|right].
    pose proof Hp as [Hp' _]%StronglySorted_inv.
    exists base', [], pending, (pending_row pk w). rewrite push_pending.
    split; [done|]. split; [done|]. split; [done|]. split; [apply pending_row_short|]. split; [cbn; lia|]. split; [|done].
    apply overlay_pending; [done|done|done|by intros k; case_decide|by intros k [? ?]].
  - pose proof Hl as [Hl' _]%StronglySorted_inv. specialize (Hadv (k, v) l eq_refl). right.
    destruct pending as [|[pk w] pending].
    { exists (advance_row base'), l, [], [(k, v)]. split; [done|]. split; [done|]. split; [done|]. split; [cbn; lia|].
      split; [cbn; lia|]. split; [|done]. apply overlay_base; [done|done|by intros k' [? ?]]. }
    pose proof Hp as [Hp' _]%StronglySorted_inv. destruct (cmp k pk) eqn:E.
    + apply cmp_eq in E as ->. exists (advance_row base'), l, pending, (pending_row pk w). rewrite push_pending.
      split; [done|]. split; [done|]. split; [done|]. split; [apply pending_row_short|]. split; [cbn; lia|]. split; [|done].
      apply overlay_pending; [done|done|done| |intros k'; by apply bt_head_below with v].
      intros k'. cbn [bt_get]. case_decide as Hd.
      * subst k'. destruct (bt_get pk l) eqn:E2; [|done].
        pose proof (bt_head_below pk v l pk Hl ltac:(by eexists)) as Hlt. by rewrite ltb_irrefl in Hlt.
      * destruct (cmp k' pk) eqn:E2; [|done..]. by apply cmp_eq in E2.
    + exists (advance_row base'), l, ((pk, w) :: pending), [(k, v)]. split; [done|]. split; [done|]. split; [done|].
      split; [cbn; lia|]. split; [cbn; lia|]. split; [|done]. apply overlay_base; [done|done|].
      intros k'. by apply bt_cons_below.
    + apply cmp_gt_lt in E. exists base', ((k, v) :: l), pending, (pending_row pk w). rewrite push_pending.
      split; [done|]. split; [done|]. split; [done|]. split; [apply pending_row_short|]. split; [cbn; lia|]. split; [|done].
      assert (∀ k', is_Some (bt_get k' ((k, v) :: l)) → ltb pk k' = true) as Hbelow
        by (intros k'; by apply bt_cons_below).
      apply overlay_pending; [done|done|done| |exact Hbelow].
      intros k'. case_decide as Hd; [|done]. subst k'. destruct (bt_get pk ((k, v) :: l)) eqn:E2; [|done].
      specialize (Hbelow pk ltac:(by eexists)). by rewrite ltb_irrefl in Hbelow.
Qed.
(** ** The output buffer *)

Definition row_payload (r : key * list byte) : Z := len r.1 + len r.2.
Definition payload_of (l : list (key * list byte)) : Z := fold_right (λ r acc, row_payload r + acc) 0 l.

Lemma payload_of_app l l' : payload_of (l ++ l') = payload_of l + payload_of l'.
Proof. induction l as [|r l IH]; [done|]. cbn [app payload_of fold_right]. fold (payload_of (l ++ l')) (payload_of l). lia. Qed.
Lemma payload_of_nonneg l : 0 ≤ payload_of l.
Proof.
  induction l as [|r l IH]; [done|]. cbn [payload_of fold_right]. fold (payload_of l).
  unfold row_payload. pose proof (len_nonneg r.1). pose proof (len_nonneg r.2). lia.
Qed.

(** The vector has room for its rows, and its capacity and the payload fit the ceiling. *)
Definition out_ok (out : OutputRows) : Prop :=
  payload_size out = payload_of (rows out)
  ∧ len (rows out) ≤ capacity out ≤ Z.min (row_limit out) (2 * len (rows out) + 4)
  ∧ capacity out * row_bytes + payload_size out ≤ bytes_limit out < 2 ^ 64
  ∧ row_limit out < 2 ^ 64.

(** The most a scan that returns [l] can have charged. *)
Definition worst_charge (limit : Z) (l : list (key * list byte)) : Z :=
  Z.min limit (2 * len l + 4) * row_bytes + payload_of l.

Lemma push_ok out k v out' :
  out_ok out → len (rows out) < row_limit out → push row_bytes out k v = Ok out' →
  out_ok out' ∧ rows out' = rows out ++ [(k, v)] ∧ row_limit out' = row_limit out ∧ bytes_limit out' = bytes_limit out.
Proof.
  intros (Hpay & Hcap & Hfit & Hlim) Hroom. unfold push, ok_or. intros H.
  pose proof (len_nonneg (rows out)) as Hn. pose proof (payload_of_nonneg (rows out)) as Hp0.
  inner_matches_in H.
  all: split; [|done]; unfold out_ok; cbn [rows payload_size bytes_limit row_limit capacity].
  all: rewrite payload_of_app, len_app; change (payload_of [(k, v)]) with (len k + len v + 0).
  all: change (len [(k, v)]) with 1.
  all: split; [lia|]; split; [|lia].
  - unfold saturating_mul.
    assert (len (rows out) + 1 ≤ (bytes_limit out - (payload_size out + len k + len v)) / row_bytes).
    { apply Z.div_le_lower_bound; lia. }
    lia.
  - lia.
Qed.

Lemma push_succeeds out k v limit l :
  out_ok out → len (rows out) < row_limit out → row_limit out = limit →
  worst_charge limit (rows out ++ (k, v) :: l) ≤ bytes_limit out → ∃ out', push row_bytes out k v = Ok out'.
Proof.
  intros (Hpay & Hcap & Hfit & Hlim) Hroom <- Hworst. unfold worst_charge in Hworst.
  rewrite payload_of_app, len_app, len_cons in Hworst.
  change (payload_of ((k, v) :: l)) with (len k + len v + payload_of l) in Hworst.
  pose proof (payload_of_nonneg (rows out)). pose proof (payload_of_nonneg l).
  pose proof (len_nonneg (rows out)) as Hn. pose proof (len_nonneg l). pose proof (len_nonneg k). pose proof (len_nonneg v).
  set (m := Z.min (row_limit out) (2 * (len (rows out) + (1 + len l)) + 4)) in *.
  assert (len (rows out) + 1 ≤ m ∧ capacity out ≤ m) as [Hm1 Hm2] by lia.
  assert ((len (rows out) + 1) * row_bytes ≤ m * row_bytes) by (apply Z.mul_le_mono_nonneg_r; lia).
  assert (capacity out * row_bytes ≤ m * row_bytes) by (apply Z.mul_le_mono_nonneg_r; lia).
  unfold push, checked_add. rewrite (proj2 (Z.ltb_lt _ _)) by lia. cbn [ok_or].
  rewrite (proj2 (Z.ltb_lt _ _)) by lia. cbn [ok_or]. rewrite (proj2 (Z.ltb_lt (len (rows out) + 1) _)) by lia. cbn [ok_or].
  rewrite (proj2 (Z.ltb_lt ((len (rows out) + 1) * row_bytes) _)) by lia.
  rewrite (proj2 (Z.ltb_lt ((len (rows out) + 1) * row_bytes + _) _)) by lia. cbn [ok_or].
  rewrite (proj2 (Z.ltb_ge _ _)) by lia.
  set (c := if len (rows out) =? capacity out then _ else _).
  assert (0 ≤ c ≤ m) as Hc.
  { subst c. destruct (Z.eqb_spec (len (rows out)) (capacity out)); [|lia]. unfold saturating_mul.
    assert (0 ≤ (bytes_limit out - (payload_size out + len k + len v)) / row_bytes) by (apply Z.div_pos; lia).
    lia. }
  assert (0 ≤ c * row_bytes ≤ m * row_bytes) as Hcm.
  { split; [apply Z.mul_nonneg_nonneg; lia|apply Z.mul_le_mono_nonneg_r; lia]. }
  rewrite (proj2 (Z.ltb_lt (c * row_bytes) _)) by lia.
  rewrite (proj2 (Z.ltb_lt (c * row_bytes + _) _)) by lia. cbn [ok_or].
  rewrite (proj2 (Z.ltb_ge _ _)) by lia. by eexists.
Qed.
(** The rows a scan that has already put out [done] ends with. *)
Definition scan_result (limit : Z) (done : list (key * list byte)) (ov : list (key * list byte)) :=
  done ++ take (Z.to_nat (limit - len done)) ov.

Lemma scan_result_push limit done r ov :
  len done < limit → scan_result limit done (r :: ov) = scan_result limit (done ++ [r]) ov.
Proof.
  intros Hlt. unfold scan_result. rewrite <-app_assoc, len_app. change (len [r]) with 1.
  replace (Z.to_nat (limit - len done)) with (S (Z.to_nat (limit - (len done + 1)))) by lia. done.
Qed.

Lemma merge_loop_spec fuel limit base l pending out :
  base_rows base l → bt_sorted l → bt_sorted pending → out_ok out → row_limit out = limit →
  len (rows out) ≤ limit → (length l + length pending < fuel)%nat →
  (∀ out', merge_loop row_bytes fuel limit base pending out = Ok out' →
     rows out' = scan_result limit (rows out) (overlay l pending) ∧ out_ok out' ∧ bytes_limit out' = bytes_limit out)
  ∧ (worst_charge limit (scan_result limit (rows out) (overlay l pending)) ≤ bytes_limit out →
     is_ok (merge_loop row_bytes fuel limit base pending out) = true).
Proof.
  revert base l pending out. induction fuel as [|fuel IH]; intros base l pending out Hb Hl Hp Hout Hrl Hle Hfuel; [lia|].
  cbn [merge_loop]. destruct (Z.ltb_spec (len (rows out)) limit) as [Hlt|Hge].
  2: { assert (scan_result limit (rows out) (overlay l pending) = rows out) as ->.
       { unfold scan_result. replace (Z.to_nat _) with 0%nat by lia. by rewrite app_nil_r. }
       split; [|done]. by intros out' [= <-]. }
  destruct (merge_step_spec base l pending out Hb Hl Hp)
    as [(-> & -> & ->)|(base' & l' & pending' & o & Hb' & Hl' & Hp' & Ho & Hlen & Hov & ->)].
  { assert (scan_result limit (rows out) (overlay [] []) = rows out) as ->.
    { unfold scan_result. cbn. by rewrite take_nil, app_nil_r. }
    split; [|done]. by intros out' [= <-]. }
  rewrite Hov. destruct o as [|[k v] [|]]; cbn [push_row app length] in *; [|clear Ho|lia].
  { eapply IH; eauto; lia. }
  rewrite scan_result_push by done.
  destruct (push row_bytes out k v) as [out1|e] eqn:Hpush.
  - apply push_ok in Hpush as (Hout1 & Hrows & Hrl1 & Hbl1); [|done|lia]. rewrite <-Hrows, <-Hbl1.
    apply IH; try done; try lia. rewrite Hrows, len_app. change (len [(k, v)]) with 1. lia.
  - split; [done|]. intros Hworst. exfalso.
    apply (push_succeeds out k v limit (take (Z.to_nat (limit - (len (rows out) + 1))) (overlay l' pending'))) in Hout
      as [out' Hok]; [congruence|lia|done|].
    unfold scan_result in Hworst. rewrite <-app_assoc, len_app in Hworst. exact Hworst.
Qed.
End Scan.

(** ** What a transaction reads *)

(** What a store promises a transaction: an ordered map of the rows visible at each sequence,
    which its point reads and streams agree with while it is healthy, and the newest sequence
    of each key. *)
Class StoreView (D : Type) `{Store D} := {
  healthy : D → Prop;
  view : D → Z → list (key * list byte);
  latest_of : D → key → option Z;
  view_sorted d s : healthy d → bt_sorted (view d s);
  view_get d k s : healthy d → store_get d k s = Ok (bt_get k (view d s));
  view_stream d start end_ s : healthy d → ltb start end_ = true →
    ∃ batches, store_stream d start end_ s = Ok (map Ok batches) ∧ Forall (λ b, b ≠ []) batches
      ∧ concat batches = bt_select (Included start) (Excluded end_) (view d s);
  view_latest d k : healthy d → store_latest d k = Ok (latest_of d k)
}.

Section TransactionReads.
Context {D : Type} `{StoreView D} (row_bytes : Z) (row_bytes_pos : 0 < row_bytes).

Lemma overlay_select lo hi base pending :
  bt_sorted base → bt_sorted pending →
  overlay (bt_select lo hi base) (bt_select lo hi pending) = bt_select lo hi (overlay base pending).
Proof.
  intros Hb Hp. destruct (overlay_spec base pending Hb Hp) as [Hs Hget].
  apply overlay_unique; [by apply bt_select_sorted..|]. intros k.
  rewrite !bt_get_select, Hget by done. by destruct (_ && _)%bool.
Qed.

(** A bound a scan accepts: empty, or a key. *)
Definition bound_ok (b : key) : Prop := len b ≤ MAX_KEY_BYTES.

Lemma bounds_checked start end_ :
  bound_ok start → bound_ok end_ →
  try_each (λ bound, match validate_key bound with
                     | Ok _ => Ok tt
                     | Err e => Err (InvalidTransaction ("scan range: " +:+ display_invalid e))
                     end) (List.filter (λ b, negb (bool_decide (b = []))) [start; end_]) = Ok tt.
Proof.
  intros Hs He. apply try_each_ok, Forall_forall. intros b [Hin Hne]%list_elem_of_In%filter_In.
  apply negb_true_iff, bool_decide_eq_false_1 in Hne.
  assert (validate_key b = Ok tt) as ->; [|done]. apply validate_key_ok.
  pose proof (len_nonneg b). assert (len b ≠ 0) by (by rewrite len_zero).
  destruct Hin as [->|[->|[]]]; unfold bound_ok in *; split; try done; lia.
Qed.

Lemma available_rows (batches : list (list (key * list byte))) :
  list_sum (map (λ b : result Error (list (key * list byte)), match b with Ok b => length b | Err _ => 0 end) (map Ok batches))%nat
  = length (concat batches).
Proof. induction batches as [|b bs IH]; [done|]. cbn. by rewrite length_app, <-IH. Qed.


(** A point read sees the same map: the transaction's own write of the key if it has one,
    otherwise the snapshot; a transaction of another database is refused. *)
Theorem transaction_get_overlay db tx k :
  healthy db → bt_sorted (writes tx) → 1 ≤ len k ≤ MAX_KEY_BYTES →
  tx_get tx db k
  = if owner tx =? store_registry db then Ok (bt_get k (overlay (view db (snapshot tx)) (writes tx)))
    else Err TransactionDatabaseMismatch.
Proof.
  intros Hh Hw Hk. unfold tx_get, validate_transaction_owner. apply validate_key_ok in Hk as ->.
  destruct (owner tx =? store_registry db); [|done].
  destruct (overlay_spec (view db (snapshot tx)) (writes tx) (view_sorted _ _ Hh) Hw) as [_ ->].
  destruct (bt_get k (writes tx)); [done|]. by apply view_get.
Qed.

(** Commit validation refuses exactly the write-write conflicts: it passes when no written
    key has a version newer than the snapshot, and otherwise reports the newest sequence of a
    written key that has one. *)
Theorem transaction_commit_check_exact db tx :
  healthy db → owner tx = store_registry db →
  (commit_check db tx = Ok tt ↔
    ∀ k w c, (k, w) ∈ writes tx → latest_of db k = Some c → c ≤ snapshot tx)
  ∧ (∀ e, commit_check db tx = Err e →
      ∃ k w c, (k, w) ∈ writes tx ∧ latest_of db k = Some c ∧ snapshot tx < c
        ∧ e = TransactionConflict (snapshot tx) c).
Proof.
  intros Hh Hown. unfold commit_check, validate_transaction_owner. rewrite Hown, Z.eqb_refl. split.
  - rewrite try_each_ok, Forall_forall. split.
    + intros Hall k w c Hin Hc. specialize (Hall _ Hin). cbn in Hall. rewrite view_latest, Hc in Hall by done.
      destruct (Z.ltb_spec (snapshot tx) c); [done|lia].
    + intros Hall [k w] Hin. rewrite view_latest by done. destruct (latest_of db k) as [c|] eqn:Hc; [|done].
      specialize (Hall k w c Hin Hc). by rewrite (proj2 (Z.ltb_ge _ _)) by lia.
  - intros e. induction (writes tx) as [|[k w] l IH]; [done|]. cbn [try_each].
    rewrite view_latest by done. destruct (latest_of db k) as [c|] eqn:Hc.
    + destruct (Z.ltb_spec (snapshot tx) c) as [Hlt|Hge].
      * intros [= <-]. exists k, w, c. split; [by left|]. done.
      * intros He. destruct (IH He) as (k' & w' & c' & Hin & Hrest). exists k', w', c'. split; [by right|done].
    + intros He. destruct (IH He) as (k' & w' & c' & Hin & Hrest). exists k', w', c'. split; [by right|done].
Qed.
End TransactionReads.

(** * A store: a database whose rows are all in its memtable *)

Record TableStore := { ts_registry : Z; ts_table : Memtable }.

Definition table_rows (m : Memtable) (start : key) (end_ : option key) (s : Z) : list (key * list byte) :=
  match scan m start end_ s with Some rows => rows | None => [] end.

#[export] Instance table_store : Store TableStore := {
  store_registry := ts_registry;
  store_get d k s := Ok (get (ts_table d) k s);
  store_stream d start end_ s := Ok (map (λ r, Ok [r]) (table_rows (ts_table d) start (Some end_) s));
  store_latest d k := Ok (sequence <$> get_version (ts_table d) k (maximum_sequence (ts_table d)))
}.

Lemma table_rows_spec m start end_ s :
  bt_sorted (versions m) → inverted start end_ = false →
  bt_sorted (table_rows m start end_ s)
  ∧ ∀ k, bt_get k (table_rows m start end_ s) = if key_in_range start end_ k then get m k s else None.
Proof.
  intros Hs Hinv. unfold table_rows. pose proof (scan_spec m start end_ s Hs) as Hscan. rewrite Hinv in Hscan.
  by destruct Hscan as (rows & -> & Hscan).
Qed.

Lemma key_in_all k : key_in_range [] None k = true.
Proof. unfold key_in_range. rewrite leb_ltb. by destruct k. Qed.

#[export] Program Instance table_view : StoreView TableStore := {
  healthy d := bt_sorted (versions (ts_table d));
  view d s := table_rows (ts_table d) [] None s;
  latest_of d k := sequence <$> get_version (ts_table d) k (maximum_sequence (ts_table d))
}.
Next Obligation. intros d s Hs. by apply table_rows_spec. Qed.
Next Obligation.
  intros d k s Hs. cbn. destruct (table_rows_spec (ts_table d) [] None s Hs) as [_ ->]; [done|].
  by rewrite key_in_all.
Qed.
Next Obligation.
  intros d start end_ s Hs Hlt. exists (map (λ r, [r]) (table_rows (ts_table d) start (Some end_) s)).
  split; [cbn; by rewrite map_map|]. split; [apply Forall_map, Forall_true; done|].
  assert (∀ l : list (key * list byte), concat (map (λ r, [r]) l) = l) as ->.
  { induction l as [|r l IH]; [done|]. cbn. by rewrite IH. }
  assert (inverted start (Some end_) = false) as Hinv.
  { cbn. destruct (ltb end_ start) eqn:E; [|done].
    pose proof (ltb_trans _ _ _ Hlt E) as Hirr. by rewrite ltb_irrefl in Hirr. }
  destruct (table_rows_spec (ts_table d) start (Some end_) s Hs Hinv) as [Hs1 Hg1].
  destruct (table_rows_spec (ts_table d) [] None s Hs eq_refl) as [Hs2 Hg2].
  apply bt_ext; [done|by apply bt_select_sorted|]. intros k.
  rewrite bt_get_select, Hg1, Hg2, key_in_all by done. done.
Qed.
Next Obligation. done. Qed.

(** Four versions, the last written after the snapshot of the sample transaction. *)
Definition sample_rows : WriteBatch :=
  {| operations := [Put (str_bytes "beta") (str_bytes "old"); Put (str_bytes "gamma") (str_bytes "g");
       Put (str_bytes "epsilon") (str_bytes "e1"); Put (str_bytes "epsilon") (str_bytes "e2")];
     encoded_len := 84 |}.
Definition sample_store : TableStore :=
  {| ts_registry := 7;
     ts_table := match @apply_write_batch layout64 (at_sequence 2) sample_rows 3 6 with
                 | Ok m => m
                 | Err _ => at_sequence 2
                 end |}.

Lemma sample_store_healthy : healthy sample_store.
Proof. vm_compute. repeat constructor. Qed.
Lemma sample_writes_sorted : bt_sorted (writes sample_put3.2).
Proof. vm_compute. repeat constructor. Qed.


Lemma transaction_get_overlay_witness :
  tx_get sample_put3.2 sample_store (str_bytes "beta") = Ok None
  ∧ tx_get sample_put3.2 sample_store (str_bytes "gamma") = Ok (Some (str_bytes "g")).
Proof.
  split; (rewrite (transaction_get_overlay sample_store sample_put3.2 _ sample_store_healthy sample_writes_sorted);
    [vm_compute; reflexivity|vm_compute; split; discriminate]).
Defined.

Lemma transaction_commit_check_exact_witness :
  commit_check sample_store sample_put3.2 = Ok tt
  ∧ commit_check sample_store (put_now sample_put3 "epsilon" None).2 = Err (TransactionConflict 5 6).
Proof.
  split; [|vm_compute; reflexivity].
  apply (transaction_commit_check_exact sample_store sample_put3.2 sample_store_healthy ltac:(vm_compute; reflexivity)).
  intros k w c Hin Hc. assert (k = str_bytes "alpha" ∨ k = str_bytes "beta") as [-> | ->].
  { assert (map fst (writes sample_put3.2) = [str_bytes "alpha"; str_bytes "beta"]) as Hk by (vm_compute; reflexivity).
    assert (k ∈ map fst (writes sample_put3.2)) as Hin' by (exact (list_elem_of_fmap_2 fst _ (k, w) Hin)).
    rewrite Hk in Hin'. apply elem_of_cons in Hin' as [->|[->|Hin']%elem_of_cons]; [left; reflexivity|right; reflexivity|].
    exfalso. revert Hin'. apply not_elem_of_nil. }
  - vm_compute in Hc. discriminate.
  - vm_compute in Hc. injection Hc as <-. vm_compute. discriminate.
Defined.
