(* ===== verification/Versions.v ===== *)
(** Versions of keys across the runs of the store: which version of a list is the newest,
    what a read at a sequence sees, and merging rows into an ordered map while keeping the
    newest version of each key.  Segments, scans and compaction share this theory. *)

From S2P Require Import Prelude Machine BTree LsmError Batch RecoveryBudget Wal Memtable.
Open Scope Z_scope.

Abbreviation row := (key * VersionedValue)%type.

Lemma ltb_Z (a b : Z) : ltb a b = true ↔ a < b.
Proof. by rewrite ltb_lt. Qed.
Lemma leb_Z (a b : Z) : leb a b = true ↔ a ≤ b.
Proof.
  rewrite leb_ltb, negb_true_iff, <-not_true_iff_false, ltb_Z. lia.
Qed.

(** The later of two optional versions; the first wins ties. *)
Definition newer (a b : option VersionedValue) : option VersionedValue :=
  match a, b with
  | None, b => b
  | a, None => a
  | Some v, Some w => if sequence v <? sequence w then Some w else Some v
  end.

(** The newest version of a list, the first of equal ones. *)
Definition newest (vs : list VersionedValue) : option VersionedValue := foldr (λ v o, newer (Some v) o) None vs.

(** The versions a read at [s] may see, and the one it sees. *)
Definition visible (s : Z) (vs : list VersionedValue) : list VersionedValue :=
  List.filter (λ v, sequence v <=? s) vs.
Definition seen (s : Z) (vs : list VersionedValue) : option VersionedValue := newest (visible s vs).

(** The versions of one key among rows, in their order. *)
Definition versions_of (k : key) (rows : list row) : list VersionedValue :=
  omap (λ r : row, if decide (r.1 = k) then Some r.2 else None) rows.

Definition oldest_first (vs : list VersionedValue) : Prop := StronglySorted (λ a b, sequence a < sequence b) vs.

Lemma newer_None_r a : newer a None = a.
Proof. by destruct a. Qed.
Lemma newer_assoc a b c : newer a (newer b c) = newer (newer a b) c.
Proof.
  destruct a as [a|], b as [b|], c as [c|]; cbn; try done; try by destruct (_ <? _).
  destruct (Z.ltb_spec (sequence b) (sequence c)); destruct (Z.ltb_spec (sequence a) (sequence b)); cbn;
    repeat match goal with |- context [?x <? ?y] => destruct (Z.ltb_spec x y) end; try done; lia.
Qed.
Lemma newest_app l k : newest (l ++ k) = newer (newest l) (newest k).
Proof.
  induction l as [|v l IH]; [done|]. change (newest ((v :: l) ++ k)) with (newer (Some v) (newest (l ++ k))).
  rewrite IH. apply newer_assoc.
Qed.
Lemma newest_cons v l : newest (v :: l) = newer (Some v) (newest l).
Proof. done. Qed.

Lemma newer_cases a b : newer a b = a ∨ newer a b = b.
Proof. destruct a, b; cbn; auto. destruct (_ <? _); auto. Qed.
Lemma newest_elem l v : newest l = Some v → v ∈ l.
Proof.
  induction l as [|w l IH]; [done|]. rewrite newest_cons. destruct (newer_cases (Some w) (newest l)) as [->| ->].
  - intros [= ->]. by left.
  - intros H. right. auto.
Qed.
Lemma newest_max l v w : newest l = Some v → w ∈ l → sequence w ≤ sequence v.
Proof.
  revert v. induction l as [|x l IH]; intros v; [by intros _ ?%not_elem_of_nil|]. rewrite newest_cons.
  intros Hv [->|Hw]%elem_of_cons.
  - destruct (newest l) as [y|]; cbn in Hv; [|by simplify_eq].
    destruct (Z.ltb_spec (sequence x) (sequence y)); simplify_eq; lia.
  - destruct (newest l) as [y|] eqn:E.
    + pose proof (IH y eq_refl Hw). cbn in Hv. destruct (Z.ltb_spec (sequence x) (sequence y)); simplify_eq; lia.
    + destruct l; [by apply not_elem_of_nil in Hw|]. rewrite newest_cons in E. cbn in E.
      destruct (newest l); [destruct (_ <? _)|]; done.
Qed.
Lemma newest_None l : newest l = None ↔ l = [].
Proof.
  split; [|by intros ->]. destruct l as [|v l]; [done|]. rewrite newest_cons.
  destruct (newest l); cbn; [destruct (_ <? _)|]; done.
Qed.

(** The newest version is determined by membership when sequences are distinct. *)
Lemma newest_unique l v :
  v ∈ l → (∀ w, w ∈ l → w = v ∨ sequence w < sequence v) → newest l = Some v.
Proof.
  intros Hv Hmax. destruct (newest l) as [w|] eqn:E.
  - pose proof (newest_max _ _ _ E Hv). apply newest_elem in E. destruct (Hmax w E) as [->|]; [done|lia].
  - apply newest_None in E as ->. by apply not_elem_of_nil in Hv.
Qed.

Lemma newer_ordered a b :
  (∀ v w, a = Some v → b = Some w → sequence v < sequence w) → newer a b = match b with Some w => Some w | None => a end.
Proof.
  destruct a as [v|], b as [w|]; cbn; try done. intros H. specialize (H v w eq_refl eq_refl).
  by rewrite (proj2 (Z.ltb_lt _ _)).
Qed.

Lemma visible_app s l k : visible s (l ++ k) = visible s l ++ visible s k.
Proof. apply List.filter_app. Qed.
Lemma visible_elem s l v : v ∈ visible s l ↔ v ∈ l ∧ sequence v ≤ s.
Proof. unfold visible. rewrite !list_elem_of_In, filter_In, Z.leb_le. done. Qed.
Lemma seen_app s l k : seen s (l ++ k) = newer (seen s l) (seen s k).
Proof. unfold seen. by rewrite visible_app, newest_app. Qed.
Lemma seen_nil s : seen s [] = None.
Proof. done. Qed.
Lemma seen_cons s v l : seen s (v :: l) = newer (if sequence v <=? s then Some v else None) (seen s l).
Proof. unfold seen, visible. cbn [List.filter]. by destruct (sequence v <=? s). Qed.
Lemma seen_elem s l v : seen s l = Some v → v ∈ l ∧ sequence v ≤ s.
Proof. intros H%newest_elem. by apply visible_elem. Qed.
Lemma seen_max s l v w : seen s l = Some v → w ∈ l → sequence w ≤ s → sequence w ≤ sequence v.
Proof. intros Hv Hw Hs. apply (newest_max _ _ _ Hv). by apply visible_elem. Qed.
Lemma seen_None s l : seen s l = None ↔ ∀ w, w ∈ l → s < sequence w.
Proof.
  unfold seen. rewrite newest_None. split.
  - intros H w Hw. destruct (Z.lt_ge_cases s (sequence w)); [done|].
    assert (w ∈ visible s l) as Hin by (by apply visible_elem). rewrite H in Hin. by apply not_elem_of_nil in Hin.
  - intros H. destruct (visible s l) as [|w r] eqn:E; [done|].
    assert (w ∈ visible s l) as Hin by (rewrite E; left). apply visible_elem in Hin as [Hin ?]. specialize (H w Hin). lia.
Qed.

(** Versions with the same sequence are the same. *)
Definition coherent (l : list VersionedValue) : Prop :=
  ∀ v w, v ∈ l → w ∈ l → sequence v = sequence w → v = w.

Lemma coherent_incl l k : coherent l → (∀ v, v ∈ k → v ∈ l) → coherent k.
Proof. intros Hc Hin v w Hv Hw. apply Hc; by apply Hin. Qed.

(** Of a coherent list, a read sees the one version that is visible and newest. *)
Lemma seen_intro s l v :
  coherent l → v ∈ l → sequence v ≤ s → (∀ w, w ∈ l → sequence w ≤ s → sequence w ≤ sequence v) → seen s l = Some v.
Proof.
  intros Hc Hv Hs Hmax. apply newest_unique; [by apply visible_elem|]. intros w [Hw Hws]%visible_elem.
  destruct (decide (sequence w = sequence v)); [left; by apply Hc|]. right. specialize (Hmax w Hw Hws). lia.
Qed.
(** What a read sees of a coherent list does not depend on its order or its repetitions. *)
Lemma seen_ext s l k : coherent l → (∀ v, v ∈ l ↔ v ∈ k) → seen s l = seen s k.
Proof.
  intros Hc Hlk. destruct (seen s k) as [v|] eqn:E.
  - pose proof (seen_elem _ _ _ E) as [Hv Hs]. apply seen_intro; [done|by apply Hlk|done|].
    intros w Hw%Hlk Hws. by apply (seen_max s k).
  - apply seen_None. intros w Hw%Hlk. by apply (proj1 (seen_None s k) E).
Qed.

(** In a chain kept oldest first, a read takes the last version it may see. *)
Lemma oldest_first_cons v l :
  oldest_first (v :: l) ↔ oldest_first l ∧ ∀ w, w ∈ l → sequence v < sequence w.
Proof.
  unfold oldest_first. split.
  - intros H. apply StronglySorted_inv in H as [Hl Hv]. rewrite Forall_forall in Hv. done.
  - intros [Hl Hv]. constructor; [done|]. by apply Forall_forall.
Qed.
Lemma seen_cons_ordered s v l :
  oldest_first (v :: l) →
  seen s (v :: l) = match seen s l with Some w => Some w | None => if sequence v <=? s then Some v else None end.
Proof.
  intros [_ Hv]%oldest_first_cons. rewrite seen_cons. apply newer_ordered.
  intros a w Ha Hw. destruct (sequence v <=? s); [|done]. simplify_eq. apply seen_elem in Hw as [Hw _]. auto.
Qed.

Lemma visible_in_seen s l : oldest_first l → visible_in l s = seen s l.
Proof.
  intros Ho. induction l as [|v l IH]; [done|]. rewrite seen_cons_ordered by done.
  apply oldest_first_cons in Ho as [Ho _]. rewrite <-IH by done. unfold visible_in. cbn [rev].
  rewrite find_app. by destruct (find _ (rev l)).
Qed.

(** ** The versions of a key among rows *)

Lemma versions_of_app k l r : versions_of k (l ++ r) = versions_of k l ++ versions_of k r.
Proof. apply omap_app. Qed.
Lemma versions_of_cons k r l :
  versions_of k (r :: l) = if decide (r.1 = k) then r.2 :: versions_of k l else versions_of k l.
Proof. unfold versions_of. cbn [omap list_omap]. by destruct (decide (r.1 = k)). Qed.
Lemma versions_of_elem k l v : v ∈ versions_of k l ↔ (k, v) ∈ l.
Proof.
  unfold versions_of. rewrite list_elem_of_omap. split.
  - intros ([k' v'] & Hin & E). cbn in E. destruct (decide (k' = k)); by simplify_eq.
  - intros Hin. exists (k, v). split; [done|]. cbn. by rewrite decide_True.
Qed.
Lemma versions_of_nil k l : (∀ r, r ∈ l → r.1 ≠ k) → versions_of k l = [].
Proof.
  intros H. destruct (versions_of k l) as [|v vs] eqn:E; [done|].
  assert (v ∈ versions_of k l) as Hv by (rewrite E; left).
  apply versions_of_elem in Hv. by destruct (H _ Hv).
Qed.
Lemma versions_of_concat k gs : versions_of k (concat gs) = concat (map (versions_of k) gs).
Proof. induction gs as [|g gs IH]; [done|]. cbn [concat map]. by rewrite versions_of_app, IH. Qed.

(** ** Rows in key order, the versions of a key oldest first *)

Definition row_lt (a b : row) : Prop :=
  ltb a.1 b.1 = true ∨ (a.1 = b.1 ∧ sequence a.2 < sequence b.2).
Definition rows_sorted (rows : list row) : Prop := StronglySorted row_lt rows.

Lemma row_lt_leb a b : row_lt a b → leb a.1 b.1 = true.
Proof. intros [H|[-> _]]; [by apply ltb_leb|apply leb_refl]. Qed.

Lemma rows_sorted_cons r l : rows_sorted (r :: l) ↔ rows_sorted l ∧ ∀ x, x ∈ l → row_lt r x.
Proof.
  unfold rows_sorted. split.
  - intros [H1 H2]%StronglySorted_inv. rewrite Forall_forall in H2. done.
  - intros [H1 H2]. constructor; [done|]. by apply Forall_forall.
Qed.
Lemma rows_sorted_app l r :
  rows_sorted (l ++ r) ↔ rows_sorted l ∧ rows_sorted r ∧ ∀ x y, x ∈ l → y ∈ r → row_lt x y.
Proof.
  induction l as [|a l IH]; cbn.
  - split; [intros H; split_and!; [constructor|done|by intros x y ?%not_elem_of_nil]|by intros (_ & H & _)].
  - rewrite !rows_sorted_cons, IH. split.
    + intros ((H1 & H2 & H3) & H4). split_and!; [done|set_solver|done|]. intros x y [->|Hx]%elem_of_cons Hy; [|by apply H3].
      apply H4. set_solver.
    + intros ((H1 & H4) & H2 & H3). split; [split_and!; [done..|]; intros; apply H3; set_solver|].
      intros x [Hx|Hx]%elem_of_app; [by apply H4|]. apply H3; set_solver.
Qed.

Lemma rows_sorted_versions k l : rows_sorted l → oldest_first (versions_of k l).
Proof.
  induction l as [|r l IH]; [constructor|]. intros [Hl Hr]%rows_sorted_cons. rewrite versions_of_cons.
  destruct (decide (r.1 = k)) as [<-|]; [|by apply IH]. apply oldest_first_cons. split; [by apply IH|].
  intros w Hw%versions_of_elem. apply Hr in Hw as [Hw|[_ Hw]]; [|done]. cbn in Hw. by rewrite ltb_irrefl in Hw.
Qed.

(** ** Merging rows into an ordered map *)

(** Keep the row when the map has no version of its key that is as new. *)
Definition merge_newer (m : list row) (r : row) : list row :=
  if match bt_get r.1 m with Some current => sequence current <? sequence r.2 | None => true end
  then bt_insert r.1 r.2 m else m.

Lemma merge_newer_sorted m r : bt_sorted m → bt_sorted (merge_newer m r).
Proof.
  unfold merge_newer. destruct (bt_get r.1 m) as [c|]; [destruct (_ <? _)|]; [apply bt_insert_sorted|done|apply bt_insert_sorted].
Qed.
Lemma merge_newer_get m r k :
  bt_get k (merge_newer m r) = newer (bt_get k m) (if decide (r.1 = k) then Some r.2 else None).
Proof.
  unfold merge_newer. destruct (decide (r.1 = k)) as [<-|Hne].
  - destruct (bt_get r.1 m) as [c|] eqn:E; cbn; [|by rewrite bt_get_insert_eq].
    destruct (sequence c <? sequence r.2); [by rewrite bt_get_insert_eq|done].
  - rewrite newer_None_r. destruct (bt_get r.1 m) as [c|]; [destruct (_ <? _)|];
      [by apply bt_get_insert_ne|done|by apply bt_get_insert_ne].
Qed.

Lemma merge_all_sorted rows m : bt_sorted m → bt_sorted (fold_left merge_newer rows m).
Proof. intros H. apply fold_left_inv; [done|]. intros; by apply merge_newer_sorted. Qed.
Lemma merge_all_get rows m k :
  bt_get k (fold_left merge_newer rows m) = newer (bt_get k m) (newest (versions_of k rows)).
Proof.
  revert m. induction rows as [|r rows IH]; intros m; cbn [fold_left].
  - by rewrite newer_None_r.
  - rewrite IH, merge_newer_get, versions_of_cons. destruct (decide (r.1 = k)).
    + by rewrite newest_cons, newer_assoc.
    + by rewrite newer_None_r.
Qed.
