(* ===== verification/SegmentFormat.v ===== *)
(** The columnar layout of immutable segments ([rrd-lsm]: segment/format.rs and the column
    readers of segment/mod.rs).

    A row group stores its rows as six pages: key offsets and data, sequences, a validity
    bitmap, value offsets and data.  The encoder cuts the rows into groups without splitting
    the versions of a key, and gives each group a Bloom filter of its keys.

    The lemmas: the filter never denies a key that was inserted; reading the columns the
    builder wrote gives back its rows; the counts and statistics of a builder are those of
    its rows.  SegmentWrite builds the encoder's correctness on them. *)

From S2P Require Import Prelude Machine BTree LsmError Batch RecoveryBudget Wal Memtable Versions.
Open Scope Z_scope.

Definition invalid_segment {T} (reason : string) : result Error T := Err (InvalidSegment reason).

(** lsm/segment/format.rs:9-31 the format constants the columns use *)
Definition SEGMENT_FORMAT_VERSION : Z := 6.
Definition DEFAULT_ROW_GROUP_TARGET_BYTES : Z := 64 * 1024.
Definition DEFAULT_ROW_GROUP_MAX_ROWS : Z := 2 * 1024.
Definition SEGMENT_MAX_KEY_BYTES : Z := 1024 * 1024.
Definition SEGMENT_MAX_VALUE_BYTES : Z := 8 * 1024 * 1024.
Definition FILTER_BITS_PER_KEY : Z := 10.
Definition FILTER_HASH_FUNCTIONS : nat := 7.
Definition PAGES_PER_ROW_GROUP : nat := 6.

(** * Descriptors *)

(** lsm/segment/format.rs:166-174 PageKind *)
Inductive PageKind := KeyOffsets | KeyData | SequenceValues | ValueValidity | ValueOffsets | ValueData.
(** lsm/segment/format.rs:166-174 PageKind, the discriminant *)
Definition page_ordinal (kind : PageKind) : nat :=
  match kind with
  | KeyOffsets => 1 | KeyData => 2 | SequenceValues => 3 | ValueValidity => 4
  | ValueOffsets => 5 | ValueData => 6
  end.

(** lsm/segment/format.rs:115-119 PageCompression *)
Inductive PageCompression := NoCompression | Lz4Block.

(** lsm/segment/format.rs:231-244 PageDescriptor *)
Record PageDescriptor := {
  page_kind : PageKind; page_compression : PageCompression; page_row_start : Z; page_row_count : Z;
  page_null_count : Z; page_offset : Z; physical_bytes : Z; logical_bytes : Z;
  statistic_min : Z; statistic_max : Z; page_digest : list byte
}.

(** lsm/segment/format.rs:307-310 RowGroupFilter *)
Record RowGroupFilter := { words : list Z }.

(** lsm/segment/format.rs:287-296 RowGroupDescriptor; [pages] has one entry per kind. *)
Record RowGroupDescriptor := {
  group_row_start : Z; group_row_count : Z; unique_key_count : Z;
  group_first_key : key; group_last_key : key;
  pages : PageKind → PageDescriptor; group_filter : RowGroupFilter
}.
(** lsm/segment/format.rs:299-301 RowGroupDescriptor::page *)
Definition page (self : RowGroupDescriptor) (kind : PageKind) : PageDescriptor := pages self kind.

(** lsm/manifest.rs:22-40 SegmentDescriptor *)
Record SegmentDescriptor := {
  segment_id : string; segment_level : Z; format_version : Z; schema_digest : string;
  key_codec_digest : string; page_format_digest : string; first_key : key; last_key : key;
  minimum_sequence : Z; maximum_segment_sequence : Z; entries : Z; segment_bytes : Z;
  segment_checksum : string
}.

(** * The row-group filter *)

(** lsm/segment/format.rs:373-384 filter_hash, one byte of the loop *)
Definition hash_byte (hash : Z) (b : byte) : Z :=
  wrapping_mul 64 (Z.lxor hash (u8_val b)) (Z.of_N 0x100000001b3).
(** lsm/segment/format.rs:373-384 filter_hash *)
Definition filter_hash (k : key) (seed : Z) : Z :=
  let hash := fold_left hash_byte k seed in
  let hash := Z.lxor hash (Z.shiftr hash 33) in
  let hash := wrapping_mul 64 hash (Z.of_N 0xff51afd7ed558ccd) in
  let hash := Z.lxor hash (Z.shiftr hash 33) in
  let hash := wrapping_mul 64 hash (Z.of_N 0xc4ceb9fe1a85ec53) in
  Z.lxor hash (Z.shiftr hash 33).

(** lsm/segment/format.rs:328-338 RowGroupFilter::word_count *)
Definition word_count (unique_key_count : Z) : result Error Z :=
  if unique_key_count =? 0 then invalid_segment "v6 row-group filter has no unique keys"
  else
    let? bits := ok_or (checked_mul 64 unique_key_count FILTER_BITS_PER_KEY)
      (InvalidSegment "v6 row-group filter size overflow") in
    let bits := Z.max bits 64 in
    Ok ((bits + 63) / 64).

(** lsm/segment/format.rs:313-318 RowGroupFilter::new *)
Definition filter_new (unique_key_count : Z) : result Error RowGroupFilter :=
  let? n := word_count unique_key_count in Ok {| words := replicate (Z.to_nat n) 0 |}.

(** lsm/segment/format.rs:320-326 RowGroupFilter::from_words *)
Definition from_words (unique_key_count : Z) (ws : list Z) : result Error RowGroupFilter :=
  let? expected := word_count unique_key_count in
  if negb (len ws =? expected) then invalid_segment "v6 row-group filter word count is noncanonical"
  else Ok {| words := ws |}.

(** lsm/segment/format.rs:360-370 RowGroupFilter::positions *)
Definition positions (self : RowGroupFilter) (k : key) : list Z :=
  let bit_count := len (words self) * 64 in
  let first := filter_hash k (Z.of_N 0xcbf29ce484222325) in
  let second := Z.lor (filter_hash k (Z.of_N 0x9e3779b97f4a7c15)) 1 in
  map (λ index : nat, wrapping_add 64 first (wrapping_mul 64 (Z.of_nat index) second) mod bit_count)
    (seq 0 FILTER_HASH_FUNCTIONS).

(** lsm/segment/format.rs:340-344 RowGroupFilter::insert, one bit; an index out of range
    panics, which no bit of [positions] is. *)
Definition set_bit (ws : list Z) (bit : Z) : list Z :=
  alter (λ w, Z.lor w (Z.shiftl 1 (bit mod 64))) (Z.to_nat (bit / 64)) ws.
(** lsm/segment/format.rs:340-344 RowGroupFilter::insert *)
Definition filter_insert (self : RowGroupFilter) (k : key) : RowGroupFilter :=
  {| words := fold_left set_bit (positions self k) (words self) |}.

(** lsm/segment/format.rs:346-350 RowGroupFilter::may_contain, one bit *)
Definition bit_set (ws : list Z) (bit : Z) : bool :=
  negb (Z.land (default 0 (ws !! Z.to_nat (bit / 64))) (Z.shiftl 1 (bit mod 64)) =? 0).
(** lsm/segment/format.rs:346-350 RowGroupFilter::may_contain *)
Definition may_contain (self : RowGroupFilter) (k : key) : bool :=
  forallb (bit_set (words self)) (positions self k).

#[export] Instance filter_eq_dec : EqDecision RowGroupFilter.
Proof. solve_decision. Defined.

(** ** A key that was inserted is never denied *)

Lemma positions_length f g k : length (words f) = length (words g) → positions f k = positions g k.
Proof. intros H. unfold positions, len. by rewrite H. Qed.

Lemma set_bit_length ws bit : length (set_bit ws bit) = length ws.
Proof. apply length_alter. Qed.

Lemma filter_insert_length f k : length (words (filter_insert f k)) = length (words f).
Proof.
  unfold filter_insert; cbn [words].
  apply (fold_left_inv (λ ws, length ws = length (words f))); [done|].
  intros ws b <-. apply set_bit_length.
Qed.

Lemma filter_insert_words f k : words f ≠ [] → words (filter_insert f k) ≠ [].
Proof.
  intros Hne Hnil. apply Hne, length_zero_iff_nil. rewrite <-(filter_insert_length f k). by rewrite Hnil.
Qed.

Lemma bit_set_test ws bit :
  0 ≤ bit → bit_set ws bit = Z.testbit (default 0 (ws !! Z.to_nat (bit / 64))) (bit mod 64).
Proof.
  intros Hb. unfold bit_set. set (w := default 0 _). pose proof (Z.mod_pos_bound bit 64 ltac:(lia)).
  assert (Z.land w (Z.shiftl 1 (bit mod 64)) = if Z.testbit w (bit mod 64) then 2 ^ (bit mod 64) else 0) as ->.
  { rewrite Z.shiftl_1_l. apply Z.bits_inj'. intros n Hn. rewrite Z.land_spec, Z.pow2_bits_eqb by lia.
    destruct (Z.eqb_spec (bit mod 64) n) as [<-|].
    - rewrite andb_true_r. destruct (Z.testbit w (bit mod 64)); [|by rewrite Z.bits_0].
      rewrite Z.pow2_bits_eqb, Z.eqb_refl by lia. done.
    - rewrite andb_false_r. destruct (Z.testbit w (bit mod 64)); [|by rewrite Z.bits_0].
      rewrite Z.pow2_bits_eqb by lia. by destruct (Z.eqb_spec (bit mod 64) n). }
  destruct (Z.testbit w (bit mod 64)); [|done].
  assert (2 ^ (bit mod 64) ≠ 0) by lia. destruct (Z.eqb_spec (2 ^ (bit mod 64)) 0); done.
Qed.

Lemma bit_set_set ws bit : 0 ≤ bit < len ws * 64 → bit_set (set_bit ws bit) bit = true.
Proof.
  intros Hb. rewrite bit_set_test by lia. unfold set_bit.
  assert (Z.to_nat (bit / 64) < length ws)%nat as Hlt by (unfold len in Hb; apply Nat2Z.inj_lt; rewrite Z2Nat.id; [apply Z.div_lt_upper_bound|apply Z.div_pos]; lia).
  destruct (lookup_lt_is_Some_2 ws _ Hlt) as [w Hw].
  rewrite list_lookup_alter_eq, Hw. cbn.
  rewrite Z.lor_spec, Z.shiftl_1_l. pose proof (Z.mod_pos_bound bit 64 ltac:(lia)).
  rewrite Z.pow2_bits_true by lia. apply orb_true_r.
Qed.

Lemma bit_set_mono ws bit b : 0 ≤ b → bit_set ws b = true → bit_set (set_bit ws bit) b = true.
Proof.
  intros Hb. rewrite !bit_set_test by done. unfold set_bit.
  destruct (decide (Z.to_nat (bit / 64) = Z.to_nat (b / 64))) as [E|E].
  - rewrite E, list_lookup_alter_eq. destruct (ws !! Z.to_nat (b / 64)); cbn; [|done].
    intros H. rewrite Z.lor_spec, H. done.
  - by rewrite list_lookup_alter_ne.
Qed.

Lemma positions_bound f k bit : words f ≠ [] → bit ∈ positions f k → 0 ≤ bit < len (words f) * 64.
Proof.
  intros Hne Hin. unfold positions in Hin. apply list_elem_of_In, in_map_iff in Hin as (i & <- & _).
  apply Z.mod_pos_bound. destruct (words f); [done|]. rewrite len_cons. pose proof (len_nonneg l). lia.
Qed.

Lemma set_bits_mono bits ws b : 0 ≤ b → bit_set ws b = true → bit_set (fold_left set_bit bits ws) b = true.
Proof.
  intros Hb Hs. apply (fold_left_inv (λ ws, bit_set ws b = true)); [done|].
  intros ws' bit. by apply bit_set_mono.
Qed.

Lemma set_bits_set bits ws b :
  b ∈ bits → Forall (λ x, 0 ≤ x < len ws * 64) bits → bit_set (fold_left set_bit bits ws) b = true.
Proof.
  revert ws. induction bits as [|x bits IH]; intros ws Hin Hall; [by apply not_elem_of_nil in Hin|].
  apply Forall_cons in Hall as [Hx Hall]. cbn [fold_left].
  apply elem_of_cons in Hin as [->|Hin].
  - apply set_bits_mono; [lia|]. by apply bit_set_set.
  - apply IH; [done|]. unfold len in *. by rewrite set_bit_length.
Qed.

Lemma insert_may_contain f k : words f ≠ [] → may_contain (filter_insert f k) k = true.
Proof.
  intros Hne. unfold may_contain. apply forallb_forall. intros b Hb%list_elem_of_In.
  rewrite (positions_length (filter_insert f k) f) in Hb by apply filter_insert_length.
  apply set_bits_set; [done|]. apply Forall_forall. intros x Hx. by apply (positions_bound f k).
Qed.

Lemma insert_keeps f k k' :
  words f ≠ [] → may_contain f k' = true → may_contain (filter_insert f k) k' = true.
Proof.
  intros Hne Hc. unfold may_contain in *. rewrite forallb_forall in Hc. apply forallb_forall. intros b Hb.
  rewrite (positions_length (filter_insert f k) f) in Hb by apply filter_insert_length.
  apply set_bits_mono; [|by apply Hc]. apply list_elem_of_In, positions_bound in Hb; [lia|done].
Qed.

Lemma word_count_ok n w : 0 ≤ n → word_count n = Ok w → 1 ≤ w.
Proof.
  intros Hn. unfold word_count. destruct (Z.eqb_spec n 0); [done|].
  destruct (checked_mul 64 n FILTER_BITS_PER_KEY); cbn [ok_or]; [|done]. intros [= <-].
  apply Z.div_le_lower_bound; lia.
Qed.
Lemma filter_new_nonempty n f : 0 ≤ n → filter_new n = Ok f → words f ≠ [].
Proof.
  intros Hn. unfold filter_new. destruct (word_count n) as [w|] eqn:E; [|done].
  apply word_count_ok in E; [|done]. intros [= <-]; cbn.
  destruct (Z.to_nat w) eqn:?; [lia|done].
Qed.

(** * Reading columns *)

(** lsm/segment/mod.rs:739-744 KeySpine *)
Record KeySpine := { spine_offsets : list byte; spine_data : list byte; spine_sequences : list byte }.
(** lsm/segment/mod.rs:746-750 LoadedValueColumns *)
Record LoadedValueColumns := {
  column_validity : list byte; column_offsets : list byte; column_values : list byte
}.
(** lsm/segment/mod.rs:752-757 LoadedRowGroup *)
Record LoadedRowGroup := {
  spine : KeySpine; loaded_validity : list byte; loaded_offsets : list byte; loaded_values : list byte
}.

(** lsm/segment/mod.rs:2313-2323 offset_at; a row index times eight that fits 64 bits leaves
    room for the eight bytes of any slice that holds them. *)
Definition offset_at (offsets : list byte) (index : nat) : result Error Z :=
  let? offset := ok_or (checked_mul 64 (Z.of_nat index) 8)
    (InvalidSegment "v6 Arrow offset index overflow") in
  let? bytes := ok_or (slice_get offsets offset (offset + 8))
    (InvalidSegment "v6 Arrow offset is absent") in
  let value := as_i64 (from_le bytes) in
  if value <? 0 then invalid_segment "v6 Arrow offset is negative or too large" else Ok value.

(** lsm/segment/mod.rs:2304-2311 binary_at *)
Definition binary_at (offsets data : list byte) (row : nat) : result Error (list byte) :=
  let? start := offset_at offsets row in
  let? end_ := offset_at offsets (row + 1) in
  if ((end_ <? start) || (len data <? end_))%bool
  then invalid_segment "v6 Arrow binary offsets are not monotonic or in bounds"
  else Ok (slice data (Z.to_nat start) (Z.to_nat end_)).

(** lsm/segment/mod.rs:2254-2260 key_at *)
Definition key_at (s : KeySpine) (row : nat) : result Error key := binary_at (spine_offsets s) (spine_data s) row.

(** lsm/segment/mod.rs:2262-2273 sequence_at *)
Definition sequence_at (s : KeySpine) (row : nat) : result Error Z :=
  let? offset := ok_or (checked_mul 64 (Z.of_nat row) 8) (InvalidSegment "v6 sequence offset overflow") in
  let? bytes := ok_or (slice_get (spine_sequences s) offset (offset + 8))
    (InvalidSegment "v6 sequence row is absent") in
  Ok (from_le bytes).

(** lsm/segment/mod.rs:2297-2302 valid_at *)
Definition valid_at (validity : list byte) (row : nat) : result Error bool :=
  let? b := ok_or (validity !! (row / 8)%nat) (InvalidSegment "v6 validity row is absent") in
  Ok (negb (Z.land (u8_val b) (Z.shiftl 1 (Z.of_nat (row mod 8))) =? 0)).

(** lsm/segment/mod.rs:2286-2295 value_from_columns *)
Definition value_from_columns (c : LoadedValueColumns) (row : nat) : result Error (option (list byte)) :=
  let? valid := valid_at (column_validity c) row in
  if negb valid then Ok None
  else let? v := binary_at (column_offsets c) (column_values c) row in Ok (Some v).

(** lsm/segment/mod.rs:2275-2284 value_from_loaded *)
Definition value_from_loaded (g : LoadedRowGroup) (row : nat) : result Error (option (list byte)) :=
  let? valid := valid_at (loaded_validity g) row in
  if negb valid then Ok None
  else let? v := binary_at (loaded_offsets g) (loaded_values g) row in Ok (Some v).

(** lsm/segment/mod.rs:2325-2350 validate_offsets *)
Definition validate_offsets (offsets data : list byte) (rows : nat) (maximum_item_bytes : Z)
    (allow_empty : bool) : result Error unit :=
  let shape := invalid_segment "v6 Arrow binary offset page has the wrong shape" in
  if negb (len offsets =? saturating_mul 64 (Z.of_nat rows + 1) 8) then shape
  else
    let? first := offset_at offsets 0 in
    if negb (first =? 0) then shape
    else
      do? try_each (λ row,
        let? start := offset_at offsets row in
        let? end_ := offset_at offsets (row + 1) in
        if ((end_ <? start) || (len data <? end_) || (maximum_item_bytes <? end_ - start)
            || (negb allow_empty && (start =? end_)))%bool
        then invalid_segment "v6 Arrow binary offsets violate item bounds" else Ok tt) (seq 0 rows) in
      let? last := offset_at offsets rows in
      if negb (last =? len data)
      then invalid_segment "v6 Arrow binary offsets do not terminate at the data length" else Ok tt.

(** lsm/segment/mod.rs:2352-2361 validate_validity *)
Definition validate_validity (validity : list byte) (rows : nat) : result Error unit :=
  if negb (len validity =? (Z.of_nat rows + 7) / 8)
  then invalid_segment "v6 Arrow validity bitmap has the wrong length"
  else
    let used := (rows mod 8)%nat in
    if (negb (used =? 0)%nat
        && match last validity with
           | Some b => negb (Z.shiftr (u8_val b) (Z.of_nat used) =? 0)
           | None => false
           end)%bool
    then invalid_segment "v6 Arrow validity bitmap has non-zero padding bits" else Ok tt.

(** * Building a row group *)

(** lsm/segment/format.rs:411-428 RowGroupBuilder *)
Record RowGroupBuilder := {
  b_row_start : Z; b_keys : list byte; b_key_offsets : list Z; b_sequences : list Z;
  b_validity : list byte; b_values : list byte; b_value_offsets : list Z;
  b_first_key : key; b_last_key : key; b_unique_key_count : Z; b_null_count : Z;
  b_minimum_key_bytes : Z; b_maximum_key_bytes : Z; b_minimum_value_bytes : Z; b_maximum_value_bytes : Z
}.

(** lsm/segment/format.rs:431-440 RowGroupBuilder::new *)
Definition builder_new (row_start : Z) : RowGroupBuilder :=
  {| b_row_start := row_start; b_keys := []; b_key_offsets := [0]; b_sequences := []; b_validity := [];
     b_values := []; b_value_offsets := [0]; b_first_key := []; b_last_key := [];
     b_unique_key_count := 0; b_null_count := 0; b_minimum_key_bytes := u64_max;
     b_maximum_key_bytes := 0; b_minimum_value_bytes := u64_max; b_maximum_value_bytes := 0 |}.

(** lsm/segment/format.rs:442-460 RowGroupBuilder::reset; it keeps the allocations, which
    the model does not have. *)
Definition builder_reset (self : RowGroupBuilder) (row_start : Z) : RowGroupBuilder :=
  {| b_row_start := row_start; b_keys := []; b_key_offsets := [0]; b_sequences := []; b_validity := [];
     b_values := []; b_value_offsets := [0]; b_first_key := []; b_last_key := [];
     b_unique_key_count := 0; b_null_count := 0; b_minimum_key_bytes := u64_max;
     b_maximum_key_bytes := 0; b_minimum_value_bytes := u64_max; b_maximum_value_bytes := 0 |}.

(** lsm/segment/format.rs:462-464 RowGroupBuilder::rows *)
Definition builder_rows (self : RowGroupBuilder) : nat := length (b_sequences self).

(** lsm/segment/format.rs:466-474 RowGroupBuilder::estimated_bytes *)
Definition estimated_bytes (self : RowGroupBuilder) : Z :=
  let add := saturating_add 64 in
  add (add (add (add (add (len (b_keys self)) (len (b_values self)))
    (saturating_mul 64 (len (b_key_offsets self)) 8))
    (saturating_mul 64 (len (b_value_offsets self)) 8))
    (saturating_mul 64 (len (b_sequences self)) 8))
    ((len (b_sequences self) + 7) / 8).

(** lsm/segment/format.rs:1417-1422 validate_key_value *)
Definition validate_key_value (k : key) (v : list byte) : result Error unit :=
  if ((len k =? 0) || (SEGMENT_MAX_KEY_BYTES <? len k) || (SEGMENT_MAX_VALUE_BYTES <? len v))%bool
  then invalid_segment "key or value exceeds the v6 segment contract" else Ok tt.

(** [version.value.as_deref().unwrap_or_default()] *)
Definition value_or_empty (v : VersionedValue) : list byte := default [] (value v).

(** lsm/segment/format.rs:499-507 RowGroupBuilder::append, the validity bitmap *)
Definition mark_validity (validity : list byte) (row : nat) (present : bool) : list byte :=
  let byte := (row / 8)%nat in
  let validity := if (length validity <=? byte)%nat
                  then validity ++ replicate (byte + 1 - length validity) x00 else validity in
  if present
  then alter (λ b, u8_of (Z.lor (u8_val b) (Z.shiftl 1 (Z.of_nat (row mod 8))))) byte validity
  else validity.

(** lsm/segment/format.rs:476-517 RowGroupBuilder::append *)
Definition builder_append (self : RowGroupBuilder) (k : key) (version : VersionedValue)
    : result Error RowGroupBuilder :=
  let v := value_or_empty version in
  do? validate_key_value k v in
  let first := if len (b_first_key self) =? 0 then k else b_first_key self in
  let? unique :=
    if negb (bool_decide (b_last_key self = k))
    then ok_or (checked_add 32 (b_unique_key_count self) 1)
           (InvalidSegment "v6 row-group unique-key count overflow")
    else Ok (b_unique_key_count self) in
  let keys := b_keys self ++ k in
  if 2 ^ 63 <=? len keys then invalid_segment "v6 key page length exceeds signed Arrow offsets"
  else
    let present := match value version with Some _ => true | None => false end in
    let values := b_values self ++ v in
    if 2 ^ 63 <=? len values then invalid_segment "v6 value page length exceeds signed Arrow offsets"
    else
      Ok {| b_row_start := b_row_start self; b_keys := keys;
            b_key_offsets := b_key_offsets self ++ [len keys];
            b_sequences := b_sequences self ++ [sequence version];
            b_validity := mark_validity (b_validity self) (length (b_sequences self)) present;
            b_values := values; b_value_offsets := b_value_offsets self ++ [len values];
            b_first_key := first; b_last_key := k; b_unique_key_count := unique;
            b_null_count := if present then b_null_count self else saturating_add 32 (b_null_count self) 1;
            b_minimum_key_bytes := Z.min (b_minimum_key_bytes self) (len k);
            b_maximum_key_bytes := Z.max (b_maximum_key_bytes self) (len k);
            b_minimum_value_bytes := Z.min (b_minimum_value_bytes self) (len v);
            b_maximum_value_bytes := Z.max (b_maximum_value_bytes self) (len v) |}.

(** [windows(2)] *)
Fixpoint windows2 {A} (l : list A) : list (A * A) :=
  match l with a :: (b :: _) as l => (a, b) :: windows2 l | _ => [] end.

(** lsm/segment/format.rs:522-534 RowGroupBuilder::filter, one key *)
Definition filter_window (keys : list byte) (acc : RowGroupFilter * option key) (window : Z * Z)
    : result Error (RowGroupFilter * option key) :=
  let '(start, end_) := window in
  if ((start <? 0) || (end_ <? 0))%bool then invalid_segment "v6 key offset is negative"
  else
    let? k := ok_or (slice_get keys start end_) (InvalidSegment "v6 key offsets escape key data") in
    if negb (bool_decide (acc.2 = Some k)) then Ok (filter_insert acc.1 k, Some k) else Ok acc.
(** lsm/segment/format.rs:519-537 RowGroupBuilder::filter *)
Definition builder_filter (self : RowGroupBuilder) : result Error RowGroupFilter :=
  let? f := filter_new (b_unique_key_count self) in
  let? acc := try_fold (filter_window (b_keys self)) (f, None) (windows2 (b_key_offsets self)) in
  Ok acc.1.

(** lsm/segment/format.rs:1424-1430 encode_i64_values *)
Definition encode_i64_values (values : list Z) : list byte := concat (map (λ v, le_bytes 8 (v mod 2 ^ 64)) values).
(** lsm/segment/format.rs:1432-1438 encode_u64_values *)
Definition encode_u64_values (values : list Z) : list byte := concat (map (le_bytes 8) values).

(** The column a builder writes for each kind of page (segment/format.rs 715-801). *)
Definition builder_page (b : RowGroupBuilder) (kind : PageKind) : list byte :=
  match kind with
  | KeyOffsets => encode_i64_values (b_key_offsets b)
  | KeyData => b_keys b
  | SequenceValues => encode_u64_values (b_sequences b)
  | ValueValidity => b_validity b
  | ValueOffsets => encode_i64_values (b_value_offsets b)
  | ValueData => b_values b
  end.
Definition builder_group (b : RowGroupBuilder) : LoadedRowGroup :=
  {| spine := {| spine_offsets := builder_page b KeyOffsets; spine_data := builder_page b KeyData;
                 spine_sequences := builder_page b SequenceValues |};
     loaded_validity := builder_page b ValueValidity; loaded_offsets := builder_page b ValueOffsets;
     loaded_values := builder_page b ValueData |}.

(** ** Columns of fixed-width words *)

Lemma slice_get_chunk {A B} (f : A → list B) n l i x :
  (∀ a, length (f a) = n) → l !! i = Some x →
  slice_get (concat (map f l)) (Z.of_nat i * Z.of_nat n) (Z.of_nat i * Z.of_nat n + Z.of_nat n) = Some (f x).
Proof.
  intros Hf Hi. assert (∀ l : list A, len (concat (map f l)) = len l * Z.of_nat n) as Hlen.
  { induction l0 as [|a l0 IH]; [done|]. cbn [map concat]. rewrite len_app, len_cons, IH. unfold len. rewrite Hf. lia. }
  apply list_elem_of_split_length in Hi as (l1 & l2 & -> & ->).
  rewrite map_app, concat_app. cbn [map concat]. apply slice_get_app; rewrite Hlen; unfold len; rewrite ?Hf; lia.
Qed.

Lemma as_i64_small z : 0 ≤ z < 2 ^ 63 → as_i64 z = z.
Proof. intros Hz. unfold as_i64. by rewrite (proj2 (Z.ltb_lt _ _)) by lia. Qed.

Lemma offset_at_encoded offsets i z :
  offsets !! i = Some z → 0 ≤ z < 2 ^ 63 → Z.of_nat i * 8 < 2 ^ 64 →
  offset_at (encode_i64_values offsets) i = Ok z.
Proof.
  intros Hi Hz Hb. unfold offset_at, checked_mul. rewrite (proj2 (Z.ltb_lt _ _)) by done. cbn [ok_or].
  unfold encode_i64_values. change 8 with (Z.of_nat 8).
  rewrite (slice_get_chunk (λ v, le_bytes 8 (v mod 2 ^ 64)) 8 offsets i z) by (done || (intros; apply length_le_bytes)).
  cbn [ok_or]. rewrite Z.mod_small by lia. rewrite from_le_bytes_small by (change (8 * Z.of_nat 8) with 64; lia).
  rewrite as_i64_small by done. by rewrite (proj2 (Z.ltb_ge _ _)) by lia.
Qed.

Lemma sequence_at_encoded s seqs i z :
  spine_sequences s = encode_u64_values seqs → seqs !! i = Some z → 0 ≤ z < 2 ^ 64 → Z.of_nat i * 8 < 2 ^ 64 →
  sequence_at s i = Ok z.
Proof.
  intros Hs Hi Hz Hb. unfold sequence_at, checked_mul. rewrite Hs, (proj2 (Z.ltb_lt _ _)) by done. cbn [ok_or].
  unfold encode_u64_values. change 8 with (Z.of_nat 8).
  rewrite (slice_get_chunk (le_bytes 8) 8 seqs i z) by (done || (intros; apply length_le_bytes)).
  cbn [ok_or]. by rewrite from_le_bytes_small by (change (8 * Z.of_nat 8) with 64; lia).
Qed.

(** ** Binary columns *)

(** The offsets of consecutive items. *)
Fixpoint offsets_of (start : Z) (items : list (list byte)) : list Z :=
  start :: match items with [] => [] | x :: items => offsets_of (start + len x) items end.

Lemma offsets_of_snoc start items x :
  offsets_of start (items ++ [x]) = offsets_of start items ++ [start + len (concat items) + len x].
Proof.
  revert start. induction items as [|y items IH]; intros start; cbn [offsets_of app concat].
  - by rewrite len_nil, Z.add_0_r.
  - rewrite IH, len_app. do 3 f_equal. lia.
Qed.
Lemma offsets_of_lookup start items i :
  (i ≤ length items)%nat → offsets_of start items !! i = Some (start + len (concat (take i items))).
Proof.
  revert start i. induction items as [|x items IH]; intros start i Hi; destruct i as [|i]; cbn [offsets_of length take concat] in *;
    try lia; cbn [lookup list_lookup]; rewrite ?len_nil, ?Z.add_0_r; try done.
  change ((start :: offsets_of (start + len x) items) !! S i) with (offsets_of (start + len x) items !! i).
  rewrite IH by lia. rewrite len_app. f_equal. lia.
Qed.

Lemma len_concat_take (items : list (list byte)) i : len (concat (take i items)) ≤ len (concat items).
Proof.
  rewrite <-(take_drop i items) at 2. rewrite concat_app, len_app.
  pose proof (len_nonneg (concat (drop i items))). lia.
Qed.

Lemma binary_at_encoded items i x :
  items !! i = Some x → len (concat items) < 2 ^ 63 → (Z.of_nat i + 1) * 8 < 2 ^ 64 →
  binary_at (encode_i64_values (offsets_of 0 items)) (concat items) i = Ok x.
Proof.
  intros Hi Hlen Hb. pose proof (lookup_lt_Some _ _ _ Hi) as Hlt. unfold binary_at.
  assert (concat (take (i + 1) items) = concat (take i items) ++ x) as Htake.
  { rewrite Nat.add_1_r, (take_S_r _ _ _ Hi), concat_app. cbn. by rewrite app_nil_r. }
  pose proof (len_concat_take items (i + 1)) as Hle. rewrite Htake, len_app in Hle.
  pose proof (len_nonneg (concat (take i items))). pose proof (len_nonneg x).
  rewrite (offset_at_encoded _ i (len (concat (take i items)))) by (rewrite ?offsets_of_lookup by lia; (done || lia)).
  rewrite (offset_at_encoded _ (i + 1) (len (concat (take (i + 1) items)))).
  2:{ by rewrite offsets_of_lookup by lia. } 2:{ rewrite Htake, len_app. lia. } 2:{ lia. }
  rewrite Htake, len_app. rewrite !(proj2 (Z.ltb_ge _ _)) by lia. cbn [orb]. f_equal.
  assert (concat items = concat (take i items) ++ x ++ concat (drop (S i) items)) as ->.
  { rewrite <-(take_drop i items) at 1. by rewrite concat_app, (drop_S _ _ _ Hi). }
  unfold slice. replace (Z.to_nat (len (concat (take i items)))) with (length (concat (take i items))) by (unfold len; lia).
  rewrite drop_app_length.
  replace (_ - _)%nat with (length x) by (unfold len; lia). apply take_app_length.
Qed.

(** ** The validity bitmap *)

Definition bit_at (validity : list byte) (j : nat) : bool :=
  match validity !! (j / 8)%nat with Some b => Z.testbit (u8_val b) (Z.of_nat (j mod 8)) | None => false end.

Lemma valid_at_bit validity j : (j / 8 < length validity)%nat → valid_at validity j = Ok (bit_at validity j).
Proof.
  intros Hj. destruct (lookup_lt_is_Some_2 _ _ Hj) as [b Hb]. unfold valid_at, bit_at. rewrite Hb. cbn [ok_or]. f_equal.
  pose proof (bit_set_test [u8_val b] (Z.of_nat (j mod 8)) ltac:(lia)) as Ht. unfold bit_set in Ht.
  pose proof (Nat.mod_upper_bound j 8 ltac:(lia)).
  rewrite Z.div_small, Z.mod_small in Ht by lia. exact Ht.
Qed.

Lemma mark_validity_length validity row present :
  length validity = ((row + 7) / 8)%nat → length (mark_validity validity row present) = ((S row + 7) / 8)%nat.
Proof.
  intros Hl. unfold mark_validity.
  assert (length (if (length validity <=? row / 8)%nat then validity ++ replicate (row / 8 + 1 - length validity) x00 else validity)
    = ((S row + 7) / 8)%nat) as Hlen.
  { pose proof (Nat.div_mod_eq row 8). pose proof (Nat.mod_upper_bound row 8 ltac:(lia)).
    pose proof (Nat.div_mod_eq (row + 7) 8). pose proof (Nat.mod_upper_bound (row + 7) 8 ltac:(lia)).
    pose proof (Nat.div_mod_eq (S row + 7) 8). pose proof (Nat.mod_upper_bound (S row + 7) 8 ltac:(lia)).
    destruct (Nat.leb_spec (length validity) (row / 8)); rewrite ?length_app, ?length_replicate; lia. }
  destruct present; [by rewrite length_alter|done].
Qed.

Lemma mark_validity_bit validity row present j :
  length validity = ((row + 7) / 8)%nat → bit_at validity row = false →
  bit_at (mark_validity validity row present) j = if decide (j = row) then present else bit_at validity j.
Proof.
  intros Hl Hrow. unfold mark_validity.
  set (grown := if (length validity <=? row / 8)%nat then _ else validity).
  assert (∀ j, bit_at grown j = bit_at validity j) as Hgrown.
  { intros i. unfold bit_at. subst grown. destruct (Nat.leb_spec (length validity) (row / 8)); [|done].
    destruct (decide (i / 8 < length validity)%nat) as [?|Hge]; [by rewrite lookup_app_l|].
    rewrite lookup_app_r, (lookup_ge_None_2 validity) by lia.
    destruct (decide (i / 8 - length validity < row / 8 + 1 - length validity)%nat).
    - by rewrite lookup_replicate_2, Z.testbit_0_l by done.
    - by rewrite lookup_ge_None_2 by (rewrite length_replicate; lia). }
  assert (row / 8 < length grown)%nat as Hin.
  { pose proof (mark_validity_length validity row false Hl) as Hm. unfold mark_validity in Hm. fold grown in Hm.
    pose proof (Nat.div_mod_eq row 8). pose proof (Nat.mod_upper_bound row 8 ltac:(lia)).
    pose proof (Nat.div_mod_eq (S row + 7) 8). pose proof (Nat.mod_upper_bound (S row + 7) 8 ltac:(lia)). lia. }
  destruct present; [|destruct (decide (j = row)) as [->|]; rewrite Hgrown; done].
  rewrite <-(Hgrown j). unfold bit_at. destruct (decide (row / 8 = j / 8)%nat) as [E|E].
  - rewrite <-E, list_lookup_alter_eq. destruct (lookup_lt_is_Some_2 _ _ Hin) as [b Hb]. rewrite Hb. cbn [fmap option_fmap option_map].
    rewrite u8_val_of. pose proof (Nat.mod_upper_bound row 8 ltac:(lia)). pose proof (Nat.mod_upper_bound j 8 ltac:(lia)).
    change 256 with (2 ^ 8). rewrite Z.mod_pow2_bits_low by lia.
    rewrite Z.lor_spec, Z.shiftl_1_l, Z.pow2_bits_eqb by lia.
    destruct (decide (j = row)) as [->|Hne]; [by rewrite Z.eqb_refl, orb_true_r|].
    destruct (Z.eqb_spec (Z.of_nat (row mod 8)) (Z.of_nat (j mod 8))) as [Em|]; [|by rewrite orb_false_r].
    exfalso. apply Hne. rewrite (Nat.div_mod_eq j 8), (Nat.div_mod_eq row 8). lia.
  - rewrite list_lookup_alter_ne by done. destruct (decide (j = row)) as [->|]; [done|done].
Qed.

(** The pages of a group hold the rows [rs]. *)
Definition columns_hold (g : LoadedRowGroup) (rs : list row) : Prop :=
  ∀ r k v, rs !! r = Some (k, v) →
    key_at (spine g) r = Ok k ∧ sequence_at (spine g) r = Ok (sequence v)
    ∧ value_from_loaded g r = Ok (value v).

(** ** What a builder holds after its rows *)

Definition row_ok (r : row) : Prop :=
  0 < len r.1 ≤ SEGMENT_MAX_KEY_BYTES ∧ len (value_or_empty r.2) ≤ SEGMENT_MAX_VALUE_BYTES.

(** The number of runs of equal keys, with the key of the last one. *)
Definition run_step (acc : Z * option key) (r : row) : Z * option key :=
  if decide (acc.2 = Some r.1) then acc else (acc.1 + 1, Some r.1).
Definition runs (rs : list row) : Z := (fold_left run_step rs (0, None)).1.
Definition deleted (r : row) : bool := match value r.2 with Some _ => false | None => true end.
Definition nulls (rs : list row) : Z := fold_left (λ n r, if deleted r then saturating_add 32 n 1 else n) rs 0.
Definition least (f : row → Z) (rs : list row) : Z := fold_left (λ a r, Z.min a (f r)) rs u64_max.
Definition greatest (f : row → Z) (rs : list row) : Z := fold_left (λ a r, Z.max a (f r)) rs 0.
Definition key_size (r : row) : Z := len r.1.
Definition value_size (r : row) : Z := len (value_or_empty r.2).
Definition row_sequence (r : row) : Z := sequence r.2.

Record built (start : Z) (b : RowGroupBuilder) (rs : list row) : Prop := {
  built_start : b_row_start b = start;
  built_rows_ok : Forall row_ok rs;
  built_keys : b_keys b = concat (map fst rs);
  built_key_offsets : b_key_offsets b = offsets_of 0 (map fst rs);
  built_key_bytes : len (b_keys b) < 2 ^ 63;
  built_sequences : b_sequences b = map row_sequence rs;
  built_validity_length : length (b_validity b) = ((length rs + 7) / 8)%nat;
  built_validity : ∀ j, bit_at (b_validity b) j = match rs !! j with Some r => negb (deleted r) | None => false end;
  built_values : b_values b = concat (map (value_or_empty ∘ snd) rs);
  built_value_offsets : b_value_offsets b = offsets_of 0 (map (value_or_empty ∘ snd) rs);
  built_value_bytes : len (b_values b) < 2 ^ 63;
  built_first : b_first_key b = default [] (fst <$> head rs);
  built_last : b_last_key b = default [] (fst <$> last rs);
  built_unique : b_unique_key_count b = runs rs;
  built_nulls : b_null_count b = nulls rs;
  built_stats : b_minimum_key_bytes b = least key_size rs ∧ b_maximum_key_bytes b = greatest key_size rs
    ∧ b_minimum_value_bytes b = least value_size rs ∧ b_maximum_value_bytes b = greatest value_size rs
}.

Lemma run_step_key rs acc : rs ≠ [] → (fold_left run_step rs acc).2 = fst <$> last rs.
Proof.
  intros Hne. destruct (last rs) as [z|] eqn:E; [|by apply last_None in E].
  apply last_Some in E as [l ->]. rewrite fold_left_app. cbn [fold_left]. unfold run_step at 1.
  by destruct (decide _).
Qed.
Lemma runs_snoc rs r :
  runs (rs ++ [r]) = if decide (fst <$> last rs = Some r.1) then runs rs else runs rs + 1.
Proof.
  unfold runs. rewrite fold_left_app. cbn [fold_left]. unfold run_step at 1.
  assert ((fold_left run_step rs (0, None)).2 = fst <$> last rs) as ->.
  { destruct rs as [|r0 rs]; [done|]. by apply run_step_key. }
  by destruct (decide _).
Qed.
Lemma nulls_snoc rs r : nulls (rs ++ [r]) = if deleted r then saturating_add 32 (nulls rs) 1 else nulls rs.
Proof. unfold nulls. by rewrite fold_left_app. Qed.
Lemma least_snoc f rs r : least f (rs ++ [r]) = Z.min (least f rs) (f r).
Proof. unfold least. by rewrite fold_left_app. Qed.
Lemma greatest_snoc f rs r : greatest f (rs ++ [r]) = Z.max (greatest f rs) (f r).
Proof. unfold greatest. by rewrite fold_left_app. Qed.

Lemma builder_new_built start : built start (builder_new start) [].
Proof. constructor; (done || (cbn; lia) || constructor). Qed.

Lemma builder_reset_new b start : builder_reset b start = builder_new start.
Proof. done. Qed.

Lemma builder_append_built start b rs k v b' :
  built start b rs → builder_append b k v = Ok b' → built start b' (rs ++ [(k, v)]).
Proof.
  intros [] Hap. unfold builder_append, validate_key_value in Hap.
  destruct ((len k =? 0) || _ || _)%bool eqn:Eok; [done|]. rewrite !orb_false_iff, !Z.ltb_ge, Z.eqb_neq in Eok.
  destruct Eok as ((Hk0 & Hk) & Hv). pose proof (len_nonneg k).
  match type of Hap with match ?c with _ => _ end = _ => destruct c as [unique|] eqn:Eu; [|done] end.
  destruct (Z.leb_spec (2 ^ 63) (len (b_keys b ++ k))); [done|].
  destruct (Z.leb_spec (2 ^ 63) (len (b_values b ++ value_or_empty v))); [done|]. injection Hap as <-.
  set (present := match value v with Some _ => true | None => false end).
  assert (deleted (k, v) = negb present) as Hdel by (unfold deleted, present; cbn; by destruct (value v)).
  constructor; cbn [b_row_start b_keys b_key_offsets b_sequences b_validity b_values b_value_offsets b_first_key b_last_key
    b_unique_key_count b_null_count b_minimum_key_bytes b_maximum_key_bytes b_minimum_value_bytes b_maximum_value_bytes];
    rewrite ?map_app, ?concat_app, ?last_snoc, ?length_app; cbn [map concat length]; rewrite ?app_nil_r.
  - done.
  - apply Forall_app. split; [done|]. repeat constructor; cbn; lia.
  - by rewrite built_keys0.
  - rewrite offsets_of_snoc, built_key_offsets0, built_keys0, len_app. cbn [fst]. do 2 f_equal; try lia.
  - lia.
  - by rewrite built_sequences0.
  - rewrite Nat.add_1_r, built_sequences0, length_map. by apply mark_validity_length.
  - intros j. rewrite built_sequences0, length_map. rewrite mark_validity_bit; [|done|].
    + fold present. rewrite built_validity0. destruct (decide (j = length rs)) as [->|Hne].
      * rewrite list_lookup_middle by done. by rewrite Hdel, negb_involutive.
      * destruct (decide (j < length rs)%nat); [by rewrite lookup_app_l|].
        rewrite (lookup_ge_None_2 rs), lookup_ge_None_2; [done|rewrite length_app; cbn; lia|lia].
    + rewrite built_validity0. by rewrite lookup_ge_None_2.
  - by rewrite built_values0.
  - rewrite offsets_of_snoc, built_value_offsets0, built_values0, len_app. cbn [compose snd]. do 2 f_equal; try lia.
  - lia.
  - rewrite built_first0. destruct rs as [|r0 rs]; [done|]. cbn. apply Forall_cons in built_rows_ok0 as [[Hr _] _].
    by rewrite (proj2 (Z.eqb_neq _ 0)) by lia.
  - done.
  - rewrite runs_snoc. cbn [fst]. rewrite built_last0, built_unique0 in Eu.
    destruct (last rs) as [z|] eqn:El; cbn [fmap option_fmap option_map default from_option id] in *.
    + destruct (decide (z.1 = k)) as [E|Hne].
      * rewrite bool_decide_eq_true_2 in Eu by exact E. cbn in Eu. simplify_eq. by rewrite decide_True by congruence.
      * rewrite bool_decide_eq_false_2 in Eu by done. cbn [negb] in Eu. apply ok_or_checked_add in Eu as [-> _].
        rewrite decide_False by congruence. done.
    + rewrite bool_decide_eq_false_2 in Eu by (intros <-; by apply Hk0). cbn [negb] in Eu.
      apply ok_or_checked_add in Eu as [-> _]. by rewrite decide_False.
  - rewrite nulls_snoc, Hdel, built_nulls0. by destruct present.
  - destruct built_stats0 as (-> & -> & -> & ->). by rewrite !least_snoc, !greatest_snoc.
Qed.

(** Reading the columns of a builder gives back its rows. *)
Lemma built_columns start b rs :
  built start b rs → len rs < 2 ^ 32 → Forall (λ r : row, is_u64 (sequence r.2)) rs →
  columns_hold (builder_group b) rs.
Proof.
  intros [] Hlen Hseq r k v Hr. pose proof (lookup_lt_Some _ _ _ Hr) as Hlt. unfold len in Hlen.
  split_and!.
  - unfold key_at, builder_group; cbn [spine spine_offsets spine_data builder_page].
    rewrite built_key_offsets0, built_keys0 in *. apply binary_at_encoded; [by rewrite list_lookup_fmap, Hr|done|lia].
  - apply (sequence_at_encoded _ (b_sequences b)); [done| | |lia].
    + by rewrite built_sequences0, list_lookup_fmap, Hr.
    + eapply Forall_lookup_1 in Hseq; [|exact Hr]. exact Hseq.
  - unfold value_from_loaded, builder_group; cbn [loaded_validity loaded_offsets loaded_values builder_page].
    rewrite valid_at_bit by (rewrite built_validity_length0; apply Nat.Div0.div_lt_upper_bound;
      pose proof (Nat.div_mod_eq (length rs + 7) 8); pose proof (Nat.mod_upper_bound (length rs + 7) 8 ltac:(lia)); lia).
    rewrite built_validity0, Hr. unfold deleted. cbn [snd]. destruct (value v) as [w|] eqn:Ev; cbn [negb]; [|done].
    rewrite built_value_offsets0, built_values0 in *. rewrite (binary_at_encoded _ _ w); [done| |done|lia].
    rewrite list_lookup_fmap, Hr. cbn. unfold value_or_empty. by rewrite Ev.
Qed.

(** ** The filter of a builder *)

(** Inserting the key of every run. *)
Definition filter_step (acc : RowGroupFilter * option key) (k : key) : RowGroupFilter * option key :=
  if decide (acc.2 = Some k) then acc else (filter_insert acc.1 k, Some k).
Definition filter_of (f : RowGroupFilter) (rs : list row) : RowGroupFilter := (fold_left filter_step (map fst rs) (f, None)).1.

Lemma filter_step_words acc k : words acc.1 ≠ [] → words (filter_step acc k).1 ≠ [].
Proof.
  unfold filter_step. destruct (decide _); [done|]. apply filter_insert_words.
Qed.

Lemma filter_steps_contain ks acc k :
  words acc.1 ≠ [] → (∀ k', acc.2 = Some k' → may_contain acc.1 k' = true) →
  k ∈ ks ∨ may_contain acc.1 k = true → may_contain (fold_left filter_step ks acc).1 k = true.
Proof.
  revert acc. induction ks as [|k0 ks IH]; intros acc Hw Hprev Hor; cbn [fold_left].
  { by destruct Hor as [?%not_elem_of_nil|]. }
  assert (may_contain (filter_step acc k0).1 k0 = true) as Hk0.
  { unfold filter_step. destruct (decide _); [by apply Hprev|]. by apply insert_may_contain. }
  apply IH; [by apply filter_step_words| |].
  - intros k'. unfold filter_step in *. destruct (decide _); [apply Hprev|]. cbn. intros [= <-]. exact Hk0.
  - destruct Hor as [[->|Hin]%elem_of_cons|Hc]; [by right|by left|]. right.
    unfold filter_step. destruct (decide _); [done|]. by apply insert_keeps.
Qed.

Lemma filter_of_contains f rs r : words f ≠ [] → r ∈ rs → may_contain (filter_of f rs) r.1 = true.
Proof.
  intros Hw Hr. unfold filter_of. apply filter_steps_contain; [done|done|]. left. apply list_elem_of_fmap. by exists r.
Qed.

Lemma filter_window_item keys pre x suf acc :
  keys = pre ++ x ++ suf → filter_window keys acc (len pre, len pre + len x) = Ok (filter_step acc x).
Proof.
  intros ->. unfold filter_window. pose proof (len_nonneg pre). pose proof (len_nonneg x).
  rewrite (proj2 (Z.ltb_ge (len pre) 0)), (proj2 (Z.ltb_ge (len pre + len x) 0)) by lia. cbn [orb].
  rewrite slice_get_app by done. cbn [ok_or]. unfold filter_step.
  destruct (decide (acc.2 = Some x)); [by rewrite bool_decide_eq_true_2|by rewrite bool_decide_eq_false_2].
Qed.

Lemma filter_windows_items keys items pre acc :
  keys = pre ++ concat items →
  try_fold (filter_window keys) acc (windows2 (offsets_of (len pre) items)) = Ok (fold_left filter_step items acc).
Proof.
  revert pre acc. induction items as [|x items IH]; intros pre acc Hkeys; [done|].
  assert (windows2 (offsets_of (len pre) (x :: items)) = (len pre, len pre + len x) :: windows2 (offsets_of (len pre + len x) items))
    as -> by (by destruct items).
  cbn [try_fold fold_left]. rewrite (filter_window_item keys pre x (concat items)) by done.
  rewrite <-len_app. apply IH. by rewrite <-app_assoc.
Qed.

Lemma builder_filter_spec start b rs f :
  built start b rs → filter_new (runs rs) = Ok f → builder_filter b = Ok (filter_of f rs).
Proof.
  intros [] Hf. unfold builder_filter. rewrite built_unique0, Hf, built_key_offsets0.
  rewrite <-(len_nil (A:=byte)). by rewrite (filter_windows_items _ (map fst rs) []).
Qed.
