(* ===== verification/Segment.v ===== *)
(** Immutable segments ([rrd-lsm]: segment/mod.rs).

    An opened segment is its descriptor, its row-group index and a source of decoded pages.
    Point reads find one row group by binary search, consult its filter and search its key
    column; range reads and the record cursor walk the groups.

    The specification is the list of rows of each group.  The theorems: whatever full
    validation accepts is a list of rows in strict key and sequence order; over such a segment
    point reads, range reads, multi-range reads and the cursor answer exactly from the rows. *)

From S2P Require Import Prelude Machine BTree LsmError Batch RecoveryBudget Wal Memtable Versions SegmentFormat.
Open Scope Z_scope.

(** lsm/segment/mod.rs:681-690 Segment.  [load_page] answers for the shared page cache and
    the page source behind it (lines 1406-1504), which verify the page's digest and return its
    decoded bytes or an error; [probe] is the cache's filter-probe counter (lines 618-627),
    and [address] the identity [std::ptr::eq] compares. *)
Record Segment := {
  descriptor : SegmentDescriptor;
  row_groups : list RowGroupDescriptor;
  load_page : nat → PageKind → result Error (list byte);
  probe : bool → result Error unit;
  address : Z
}.

(** lsm/segment/mod.rs:712-717 SelectedVersion *)
Record SelectedVersion := {
  selected_segment : Segment; selected_group : nat; selected_row : nat; selected_sequence : Z
}.

(** lsm/segment/mod.rs:733-737 SegmentRecord *)
Record SegmentRecord := { record_key : key; record_version : VersionedValue }.

(** [slice::partition_point]: the first index where the predicate fails, for a slice on which
    it never turns true again. *)
Fixpoint partition_point {A} (p : A → bool) (l : list A) : nat :=
  match l with [] => 0 | x :: l => if p x then S (partition_point p l) else 0 end.

(** lsm/segment/mod.rs:1337-1343 Segment::load_key_spine *)
Definition load_key_spine (self : Segment) (group : nat) : result Error KeySpine :=
  let? offsets := load_page self group KeyOffsets in
  let? data := load_page self group KeyData in
  let? sequences := load_page self group SequenceValues in
  Ok {| spine_offsets := offsets; spine_data := data; spine_sequences := sequences |}.

(** lsm/segment/mod.rs:1345-1352 Segment::load_row_group *)
Definition load_row_group (self : Segment) (group : nat) : result Error LoadedRowGroup :=
  let? s := load_key_spine self group in
  let? validity := load_page self group ValueValidity in
  let? offsets := load_page self group ValueOffsets in
  let? values := load_page self group ValueData in
  Ok {| spine := s; loaded_validity := validity; loaded_offsets := offsets; loaded_values := values |}.

(** lsm/segment/mod.rs:1506-1515 Segment::load_value_columns *)
Definition load_value_columns (self : Segment) (group : nat) : result Error LoadedValueColumns :=
  let? _ := ok_or (row_groups self !! group) (InvalidSegment "row-group index is outside the segment") in
  let? validity := load_page self group ValueValidity in
  let? offsets := load_page self group ValueOffsets in
  let? values := load_page self group ValueData in
  Ok {| column_validity := validity; column_offsets := offsets; column_values := values |}.

(** lsm/segment/mod.rs:1394-1404 Segment::value_at *)
Definition value_at (self : Segment) (group row : nat) : result Error (option (list byte)) :=
  let? validity := load_page self group ValueValidity in
  let? valid := valid_at validity row in
  if negb valid then Ok None
  else
    let? offsets := load_page self group ValueOffsets in
    let? values := load_page self group ValueData in
    let? v := binary_at offsets values row in Ok (Some v).

(** lsm/segment/mod.rs:724-726 SelectedVersion::belongs_to *)
Definition selected_belongs_to (self : SelectedVersion) (segment : Segment) : bool :=
  address (selected_segment self) =? address segment.
(** lsm/segment/mod.rs:728-730 SelectedVersion::value *)
Definition selected_value (self : SelectedVersion) : result Error (option (list byte)) :=
  value_at (selected_segment self) (selected_group self) (selected_row self).

(** lsm/segment/mod.rs:2240-2252 lower_bound, the loop; the interval shrinks, so as many
    passes as it has rows are enough. *)
Fixpoint lower_bound_loop (fuel : nat) (s : KeySpine) (k : key) (left right : nat) : result Error nat :=
  match fuel with
  | O => Ok left
  | S fuel =>
    if (left <? right)%nat then
      let middle := (left + (right - left) / 2)%nat in
      let? actual := key_at s middle in
      if ltb actual k then lower_bound_loop fuel s k (middle + 1) right
      else lower_bound_loop fuel s k left middle
    else Ok left
  end.
(** lsm/segment/mod.rs:2240-2252 lower_bound *)
Definition lower_bound (s : KeySpine) (rows : nat) (k : key) : result Error nat :=
  lower_bound_loop (S rows) s k 0 rows.

(** lsm/segment/mod.rs:1133-1143 Segment::select_version, the loop over the rows of the key;
    [remaining] rows are left from [row] on. *)
Fixpoint select_loop (remaining : nat) (s : KeySpine) (k : key) (read_sequence : Z) (row : nat)
    (selected : option (nat * Z)) : result Error (option (nat * Z)) :=
  match remaining with
  | O => Ok selected
  | S remaining =>
    let? actual := key_at s row in
    if negb (bool_decide (actual = k)) then Ok selected
    else
      let? sequence := sequence_at s row in
      let selected := if sequence <=? read_sequence then Some (row, sequence) else selected in
      select_loop remaining s k read_sequence (row + 1) selected
  end.

(** lsm/segment/mod.rs:1107-1152 Segment::select_version *)
Definition select_version (self : Segment) (k : key) (read_sequence : Z)
    : result Error (option SelectedVersion) :=
  if (ltb k (first_key (descriptor self)) || ltb (last_key (descriptor self)) k
      || (read_sequence <? minimum_sequence (descriptor self)))%bool
  then Ok None
  else
    let index := partition_point (λ group, ltb (group_last_key group) k) (row_groups self) in
    match row_groups self !! index with
    | None => Ok None
    | Some group =>
      if ltb k (group_first_key group) then Ok None
      else
        let negative := negb (may_contain (group_filter group) k) in
        do? probe self negative in
        if negative then Ok None
        else
          let? s := load_key_spine self index in
          let rows := Z.to_nat (group_row_count group) in
          let? row := lower_bound s rows k in
          let? selected := select_loop (rows - row) s k read_sequence row None in
          Ok ((λ '(row, sequence), {| selected_segment := self; selected_group := index;
                 selected_row := row; selected_sequence := sequence |}) <$> selected)
    end.

(** lsm/segment/mod.rs:1085-1097 Segment::get_version *)
Definition segment_get_version (self : Segment) (k : key) (read_sequence : Z)
    : result Error (option VersionedValue) :=
  let? selected := select_version self k read_sequence in
  match selected with
  | None => Ok None
  | Some selected =>
    let? v := selected_value selected in
    Ok (Some {| sequence := selected_sequence selected; value := v |})
  end.

(** lsm/segment/mod.rs:1079-1083 Segment::get *)
Definition segment_get (self : Segment) (k : key) (read_sequence : Z) : result Error (option (list byte)) :=
  let? version := segment_get_version self k read_sequence in
  Ok (match version with Some v => value v | None => None end).

(** lsm/segment/mod.rs:1101-1105 Segment::get_sequence *)
Definition get_sequence (self : Segment) (k : key) (read_sequence : Z) : result Error (option Z) :=
  let? selected := select_version self k read_sequence in
  Ok (selected_sequence <$> selected).

(** lsm/segment/mod.rs:1232-1257 Segment::visible_from, one row: kept when the range holds its
    key and it is newer than the version kept so far.  The value columns are loaded when the
    first row needs them. *)
Definition visit_row (s : KeySpine) (columns : result Error LoadedValueColumns) (in_range : key → bool)
    (read_sequence : Z) (grouped : list row) (r : nat) : result Error (list row) :=
  let? k := key_at s r in
  if negb (in_range k) then Ok grouped
  else
    let? seq := sequence_at s r in
    if seq <=? read_sequence then
      let? c := columns in
      let? v := value_from_columns c r in
      let version := {| sequence := seq; value := v |} in
      if match bt_get k grouped with Some prior => sequence prior <? seq | None => true end
      then Ok (bt_insert k version grouped) else Ok grouped
    else Ok grouped.

(** lsm/segment/mod.rs:1230-1257 Segment::visible_from, the rows of one group *)
Definition visit_group (self : Segment) (in_range : key → bool) (read_sequence : Z) (index : nat)
    (group : RowGroupDescriptor) (grouped : list row) : result Error (list row) :=
  let? s := load_key_spine self index in
  try_fold (visit_row s (load_value_columns self index) in_range read_sequence) grouped
    (seq 0 (Z.to_nat (group_row_count group))).

(** lsm/segment/mod.rs:1225-1258 Segment::visible_from, the loop over the groups *)
Fixpoint visible_groups (self : Segment) (start : key) (end_ : option key) (read_sequence : Z)
    (index : nat) (groups : list RowGroupDescriptor) (grouped : list row) : result Error (list row) :=
  match groups with
  | [] => Ok grouped
  | group :: groups =>
    if match end_ with Some e => leb e (group_first_key group) | None => false end then Ok grouped
    else
      let? grouped := visit_group self (key_in_range start end_) read_sequence index group grouped in
      visible_groups self start end_ read_sequence (S index) groups grouped
  end.

(** lsm/segment/mod.rs:1215-1268 Segment::visible_from *)
Definition segment_visible_from (self : Segment) (start : key) (end_ : option key) (read_sequence : Z)
    : result Error (list row) :=
  let first := partition_point (λ group, ltb (group_last_key group) start) (row_groups self) in
  visible_groups self start end_ read_sequence first (drop first (row_groups self)) [].

(** lsm/segment/mod.rs:1154-1165 Segment::scan *)
Definition segment_scan (self : Segment) (start : key) (end_ : option key) (read_sequence : Z)
    : result Error (list (key * list byte)) :=
  let? rows := segment_visible_from self start end_ read_sequence in
  Ok (omap (λ '(k, version), (k,.) <$> value version) rows).

(** lsm/segment/mod.rs:1167-1169 Segment::visible_versions *)
Definition segment_visible_versions (self : Segment) (read_sequence : Z) : result Error (list row) :=
  segment_visible_from self [] None read_sequence.

(** lsm/segment/mod.rs:1281-1291 Segment::visible_ranges, the groups one range selects *)
Fixpoint select_groups (end_ : key) (index : nat) (groups : list RowGroupDescriptor) (chosen : list (Z * unit))
    : list (Z * unit) :=
  match groups with
  | [] => chosen
  | group :: groups =>
    if leb end_ (group_first_key group) then chosen
    else select_groups end_ (S index) groups (bs_insert (Z.of_nat index) chosen)
  end.

(** lsm/segment/mod.rs:1298-1304 Segment::visible_ranges, whether one of the ranges holds the
    key: the last range that starts at or before it is the only one that can. *)
Definition in_ranges (ranges : list (key * key)) (k : key) : bool :=
  match partition_point (λ range : key * key, leb range.1 k) ranges with
  | O => false
  | S i => match ranges !! i with Some range => ltb k range.2 | None => false end
  end.

(** lsm/segment/mod.rs:1270-1335 Segment::visible_ranges *)
Definition visible_ranges (self : Segment) (ranges : list (key * key)) (read_sequence : Z)
    : result Error (list row) :=
  if ((len ranges =? 0) || (read_sequence <? minimum_sequence (descriptor self)))%bool then Ok []
  else
    let chosen := fold_left (λ chosen (range : key * key),
      let first := partition_point (λ group, ltb (group_last_key group) range.1) (row_groups self) in
      select_groups range.2 first (drop first (row_groups self)) chosen) ranges [] in
    try_fold (λ grouped (choice : Z * unit),
      match row_groups self !! Z.to_nat choice.1 with
      | Some group => visit_group self (in_ranges ranges) read_sequence (Z.to_nat choice.1) group grouped
      | None => Ok grouped
      end) [] chosen.

(** * The record cursor *)

(** lsm/segment/mod.rs:759-764 SegmentRecordCursor *)
Record SegmentRecordCursor := {
  cursor_segment : Segment; row_group_index : nat; row_index : nat; loaded : option LoadedRowGroup
}.
(** lsm/segment/mod.rs:1184-1191 Segment::record_cursor *)
Definition record_cursor (self : Segment) : SegmentRecordCursor :=
  {| cursor_segment := self; row_group_index := 0; row_index := 0; loaded := None |}.

(** lsm/segment/mod.rs:1626-1651 SegmentRecordCursor::next_record; every pass returns or
    moves to the next group, so [fuel] groups and one pass are enough. *)
Fixpoint next_record_loop (fuel : nat) (self : SegmentRecordCursor)
    : result Error (SegmentRecordCursor * option SegmentRecord) :=
  match fuel with
  | O => Ok (self, None)
  | S fuel =>
    match row_groups (cursor_segment self) !! row_group_index self with
    | None => Ok (self, None)
    | Some group =>
      let? (group_rows, at_) :=
        match loaded self with
        | Some rows => Ok (rows, row_index self)
        | None => let? rows := load_row_group (cursor_segment self) (row_group_index self) in Ok (rows, O)
        end in
      if (Z.of_nat at_ <? group_row_count group) then
        let? k := key_at (spine group_rows) at_ in
        let? s := sequence_at (spine group_rows) at_ in
        let? v := value_from_loaded group_rows at_ in
        Ok ({| cursor_segment := cursor_segment self; row_group_index := row_group_index self;
               row_index := at_ + 1; loaded := Some group_rows |},
            Some {| record_key := k; record_version := {| sequence := s; value := v |} |})
      else
        next_record_loop fuel {| cursor_segment := cursor_segment self;
          row_group_index := row_group_index self + 1; row_index := at_; loaded := None |}
    end
  end.
(** lsm/segment/mod.rs:1626-1651 SegmentRecordCursor::next_record *)
Definition next_record (self : SegmentRecordCursor) : result Error (SegmentRecordCursor * option SegmentRecord) :=
  next_record_loop (S (length (row_groups (cursor_segment self)))) self.

(** lsm/segment/mod.rs:1173-1182 Segment::compaction_logical_bytes *)
Definition compaction_logical_bytes (self : Segment) : result Error Z :=
  try_fold (λ total bytes, ok_or (checked_add 64 total bytes)
      (InvalidSegment "compaction decoded input overflow")) 0
    (concat (map (λ group, map (λ kind, logical_bytes (page group kind))
      [KeyOffsets; KeyData; SequenceValues; ValueValidity; ValueOffsets; ValueData]) (row_groups self))).

(** * Full validation *)

(** lsm/segment/mod.rs:1354-1392 Segment::read_row_group_uncached; it reads the same pages
    past the cache. *)
Definition read_row_group_uncached (self : Segment) (group : nat) : result Error LoadedRowGroup :=
  let? _ := ok_or (row_groups self !! group) (InvalidSegment "row-group index is outside the segment") in
  load_row_group self group.

(** lsm/segment/mod.rs:1518-1521 the accumulators over the whole segment *)
Record SegmentScan := {
  previous : option (key * Z); observed_rows : Z; observed_minimum : Z; observed_maximum : Z
}.
(** lsm/segment/mod.rs:1543-1554 the accumulators over one row group *)
Record GroupScan := {
  scan_filter : RowGroupFilter; scan_unique : Z; previous_group_key : option key;
  actual_first : option key; actual_last : option key; scan_nulls : Z;
  key_min : Z; key_max : Z; value_min : Z; value_max : Z; sequence_min : Z; sequence_max : Z
}.

(** lsm/segment/mod.rs:1543-1554 their initial values *)
Definition group_scan_new (f : RowGroupFilter) : GroupScan :=
  {| scan_filter := f; scan_unique := 0; previous_group_key := None; actual_first := None;
     actual_last := None; scan_nulls := 0; key_min := u64_max; key_max := 0; value_min := u64_max;
     value_max := 0; sequence_min := u64_max; sequence_max := 0 |}.

(** lsm/segment/mod.rs:1555-1597 Segment::validate_all_pages, one row *)
Definition validate_row (d : SegmentDescriptor) (g : LoadedRowGroup) (st : SegmentScan * GroupScan) (r : nat)
    : result Error (SegmentScan * GroupScan) :=
  let '(whole, part) := st in
  let? k := key_at (spine g) r in
  let? s := sequence_at (spine g) r in
  if ((s =? 0) || (s <? minimum_sequence d) || (maximum_segment_sequence d <? s)
      || match previous whole with
         | Some (prior_key, prior_sequence) =>
           ltb k prior_key || (bool_decide (k = prior_key) && (s <=? prior_sequence))
         | None => false
         end)%bool
  then invalid_segment "v6 spine is not in canonical key/sequence order"
  else
    let? (f, unique, group_key) :=
      if negb (bool_decide (previous_group_key part = Some k)) then
        let? n := ok_or (checked_add 32 (scan_unique part) 1)
          (InvalidSegment "v6 unique-key validation count overflow") in
        Ok (filter_insert (scan_filter part) k, n, Some k)
      else Ok (scan_filter part, scan_unique part, previous_group_key part) in
    let? v := value_from_loaded g r in
    Ok ({| previous := Some (k, s); observed_rows := observed_rows whole;
           observed_minimum := Z.min (observed_minimum whole) s;
           observed_maximum := Z.max (observed_maximum whole) s |},
        {| scan_filter := f; scan_unique := unique; previous_group_key := group_key;
           actual_first := match actual_first part with Some first => Some first | None => Some k end;
           actual_last := Some k;
           scan_nulls := match v with Some _ => scan_nulls part
                         | None => saturating_add 32 (scan_nulls part) 1 end;
           key_min := Z.min (key_min part) (len k); key_max := Z.max (key_max part) (len k);
           value_min := match v with Some v => Z.min (value_min part) (len v) | None => 0 end;
           value_max := match v with Some v => Z.max (value_max part) (len v) | None => value_max part end;
           sequence_min := Z.min (sequence_min part) s; sequence_max := Z.max (sequence_max part) s |}).

(** lsm/segment/mod.rs:1522-1614 Segment::validate_all_pages, one row group *)
Definition validate_group (self : Segment) (whole : SegmentScan) (indexed : nat * RowGroupDescriptor)
    : result Error SegmentScan :=
  let '(index, group) := indexed in
  let rows := Z.to_nat (group_row_count group) in
  let? g := read_row_group_uncached self index in
  do? validate_offsets (spine_offsets (spine g)) (spine_data (spine g)) rows SEGMENT_MAX_KEY_BYTES false in
  do? validate_offsets (loaded_offsets g) (loaded_values g) rows SEGMENT_MAX_VALUE_BYTES true in
  do? validate_validity (loaded_validity g) rows in
  let? f := filter_new (unique_key_count group) in
  let? (whole, part) := try_fold (validate_row (descriptor self) g) (whole, group_scan_new f) (seq 0 rows) in
  if (negb (bool_decide (actual_first part = Some (group_first_key group)))
      || negb (bool_decide (actual_last part = Some (group_last_key group)))
      || negb (statistic_min (page group KeyOffsets) =? key_min part)
      || negb (statistic_max (page group KeyOffsets) =? key_max part)
      || negb (statistic_min (page group SequenceValues) =? sequence_min part)
      || negb (statistic_max (page group SequenceValues) =? sequence_max part)
      || negb (page_null_count (page group ValueValidity) =? scan_nulls part)
      || negb (statistic_min (page group ValueOffsets) =? value_min part)
      || negb (statistic_max (page group ValueOffsets) =? value_max part))%bool
  then invalid_segment "v6 page statistics or row-group bounds disagree with data"
  else if (negb (scan_unique part =? unique_key_count group)
           || negb (bool_decide (scan_filter part = group_filter group)))%bool
  then invalid_segment "v6 persisted row-group filter disagrees with decoded keys"
  else
    let? n := ok_or (checked_add 64 (observed_rows whole) (group_row_count group))
      (InvalidSegment "v6 observed row count overflow") in
    Ok {| previous := previous whole; observed_rows := n; observed_minimum := observed_minimum whole;
          observed_maximum := observed_maximum whole |}.

(** lsm/segment/mod.rs:1517-1622 Segment::validate_all_pages *)
Definition validate_all_pages (self : Segment) : result Error unit :=
  let? whole := try_fold (validate_group self)
    {| previous := None; observed_rows := 0; observed_minimum := u64_max; observed_maximum := 0 |}
    (zip (seq 0 (length (row_groups self))) (row_groups self)) in
  if (negb (observed_rows whole =? entries (descriptor self))
      || negb (observed_minimum whole =? minimum_sequence (descriptor self))
      || negb (observed_maximum whole =? maximum_segment_sequence (descriptor self)))%bool
  then invalid_segment "v6 header counts or sequence range disagree with pages" else Ok tt.

(** * The specification: the rows of each group *)

Record group_holds (seg : Segment) (i : nat) (group : RowGroupDescriptor) (rs : list row) : Prop := {
  holds_pages : ∃ g, load_row_group seg i = Ok g ∧ columns_hold g rs;
  holds_count : group_row_count group = len rs;
  holds_first : fst <$> head rs = Some (group_first_key group);
  holds_last : fst <$> last rs = Some (group_last_key group);
  holds_filter : ∀ r, r ∈ rs → may_contain (group_filter group) r.1 = true;
  holds_oldest : ∀ r, r ∈ rs → statistic_min (page group SequenceValues) ≤ sequence r.2
}.

(** The key ranges of the groups follow one another without meeting. *)
Definition groups_apart (groups : list RowGroupDescriptor) : Prop :=
  StronglySorted (λ g g', ltb (group_last_key g) (group_first_key g') = true) groups.

Record segment_holds (seg : Segment) (gs : list (list row)) : Prop := {
  holds_length : length gs = length (row_groups seg);
  holds_groups : ∀ i group rs, row_groups seg !! i = Some group → gs !! i = Some rs →
    group_holds seg i group rs;
  holds_sorted : rows_sorted (concat gs);
  holds_apart : groups_apart (row_groups seg);
  holds_bounds : ∀ r, r ∈ concat gs → leb (first_key (descriptor seg)) r.1 = true
    ∧ leb r.1 (last_key (descriptor seg)) = true
    ∧ minimum_sequence (descriptor seg) ≤ sequence r.2 ≤ maximum_segment_sequence (descriptor seg);
  holds_probe : ∀ b, probe seg b = Ok tt
}.

Lemma rows_sorted_concat gs i rs : rows_sorted (concat gs) → gs !! i = Some rs → rows_sorted rs.
Proof.
  intros Hs Hi. apply list_elem_of_split_length in Hi as (l1 & l2 & -> & _).
  rewrite concat_app in Hs. apply rows_sorted_app in Hs as (_ & Hs & _). cbn in Hs.
  by apply rows_sorted_app in Hs as (Hs & _).
Qed.

(** Keys ascend along sorted rows. *)
Lemma rows_sorted_keys rs i j a b :
  rows_sorted rs → rs !! i = Some a → rs !! j = Some b → (i ≤ j)%nat → leb a.1 b.1 = true.
Proof.
  revert i j. induction rs as [|r rs IH]; intros i j Hs Ha Hb Hij; [done|].
  apply rows_sorted_cons in Hs as [Hs Hr]. destruct i as [|i], j as [|j]; cbn in Ha, Hb; simplify_eq.
  - apply leb_refl.
  - apply row_lt_leb, Hr. by apply list_elem_of_lookup_2 in Hb.
  - lia.
  - apply (IH i j); [done..|lia].
Qed.

Lemma head_bound rs f r : rows_sorted rs → fst <$> head rs = Some f → r ∈ rs → leb f r.1 = true.
Proof.
  destruct rs as [|a rs]; [done|]. cbn. intros Hs [= <-] [i Hi]%list_elem_of_lookup.
  apply (rows_sorted_keys (a :: rs) 0 i); [done|done|done|lia].
Qed.
Lemma last_bound rs f r : rows_sorted rs → fst <$> last rs = Some f → r ∈ rs → leb r.1 f = true.
Proof.
  intros Hs Hl [i Hi]%list_elem_of_lookup. rewrite last_lookup in Hl.
  destruct (rs !! Nat.pred (length rs)) as [z|] eqn:E; cbn in Hl; simplify_eq.
  apply (rows_sorted_keys rs i (Nat.pred (length rs))); [done..|]. apply lookup_lt_Some in Hi. lia.
Qed.

(** ** Binary search *)

Lemma lower_bound_spec s rs k :
  rows_sorted rs → (∀ r k' v, rs !! r = Some (k', v) → key_at s r = Ok k') →
  ∃ n, lower_bound s (length rs) k = Ok n ∧ (n ≤ length rs)%nat
    ∧ (∀ i r, rs !! i = Some r → (i < n)%nat → ltb r.1 k = true)
    ∧ (∀ i r, rs !! i = Some r → (n ≤ i)%nat → leb k r.1 = true).
Proof.
  intros Hs Hkey. unfold lower_bound.
  assert (∀ fuel left right, (right - left < fuel)%nat → (left ≤ right ≤ length rs)%nat →
    (∀ i r, rs !! i = Some r → (i < left)%nat → ltb r.1 k = true) →
    (∀ i r, rs !! i = Some r → (right ≤ i)%nat → leb k r.1 = true) →
    ∃ n, lower_bound_loop fuel s k left right = Ok n ∧ (n ≤ length rs)%nat
      ∧ (∀ i r, rs !! i = Some r → (i < n)%nat → ltb r.1 k = true)
      ∧ (∀ i r, rs !! i = Some r → (n ≤ i)%nat → leb k r.1 = true)) as Hloop.
  { induction fuel as [|fuel IH]; intros left right Hfuel Hle Hlow Hhigh; [lia|]. cbn [lower_bound_loop].
    destruct (Nat.ltb_spec left right) as [Hlt|Hge].
    - pose proof (Nat.div_lt (right - left) 2 ltac:(lia) ltac:(lia)) as Hdiv.
      set (middle := (left + (right - left) / 2)%nat).
      destruct (lookup_lt_is_Some_2 rs middle) as [[k' v] Hm]; [subst middle; lia|].
      rewrite (Hkey _ _ _ Hm). destruct (ltb k' k) eqn:E.
      + apply IH; [subst middle; lia..| |done]. intros i r Hi Hlt'.
        eapply leb_ltb_trans; [|exact E]. apply (rows_sorted_keys rs i middle r (k', v)); [done..|lia].
      + apply IH; [subst middle; lia..|done|]. intros i r Hi Hge.
        assert (leb k k' = true) as Hkk by (by rewrite leb_ltb, E).
        eapply leb_trans; [exact Hkk|]. apply (rows_sorted_keys rs middle i (k', v) r); [done..|lia].
    - assert (left = right) as -> by lia. exists right. split_and!; [done|lia|done|done]. }
  apply Hloop; [lia|lia|lia|]. intros i r Hi Hge. apply lookup_lt_Some in Hi. lia.
Qed.

(** ** The run of one key *)

(** A position of the search and the version it stands for. *)
Definition points_to (rs : list row) (k : key) (at_ : option (nat * Z)) (o : option VersionedValue) : Prop :=
  match at_, o with
  | Some (r, s), Some v => rs !! r = Some (k, v) ∧ s = sequence v
  | None, None => True
  | _, _ => False
  end.

Lemma versions_after rs k n :
  rows_sorted rs → (∀ i r, rs !! i = Some r → (i < n)%nat → ltb r.1 k = true) →
  versions_of k (drop n rs) = versions_of k rs.
Proof.
  intros Hs Hlow. rewrite <-(take_drop n rs) at 2. rewrite versions_of_app.
  rewrite (versions_of_nil k (take n rs)); [done|]. intros r [i Hi]%list_elem_of_lookup.
  apply lookup_take_Some in Hi as [Hi Hlt]. apply ltb_ne. by apply (Hlow i).
Qed.

Lemma select_loop_spec s rs k q row selected o :
  rows_sorted rs →
  (∀ r k' v, rs !! r = Some (k', v) → key_at s r = Ok k' ∧ sequence_at s r = Ok (sequence v)) →
  (∀ i r, rs !! i = Some r → (row ≤ i)%nat → leb k r.1 = true) →
  points_to rs k selected o →
  ∃ found, select_loop (length rs - row) s k q row selected = Ok found
    ∧ points_to rs k found (match seen q (versions_of k (drop row rs)) with Some v => Some v | None => o end).
Proof.
  intros Hs Hcol. remember (length rs - row)%nat as remaining eqn:Hrem.
  revert row selected o Hrem. induction remaining as [|remaining IH]; intros row selected o Hrem Hge Hp.
  - cbn [select_loop]. rewrite drop_ge by lia. by exists selected.
  - destruct (lookup_lt_is_Some_2 rs row) as [[k' v] Hr]; [lia|]. destruct (Hcol _ _ _ Hr) as [Hk Hseq].
    rewrite (drop_S rs _ row Hr), versions_of_cons. cbn [select_loop fst snd]. rewrite Hk.
    destruct (decide (k' = k)) as [->|Hne].
    + rewrite bool_decide_eq_true_2, Hseq by done. cbn [negb].
      destruct (IH (row + 1)%nat (if sequence v <=? q then Some (row, sequence v) else selected)
        (if sequence v <=? q then Some v else o)) as (found & -> & Hfound).
      * lia.
      * intros i r Hi Hle. apply (Hge i r Hi). lia.
      * destruct (sequence v <=? q); [done|exact Hp].
      * exists found. split; [done|]. rewrite Nat.add_1_r in Hfound. rewrite seen_cons_ordered.
        -- destruct (seen q _); [done|]. by destruct (sequence v <=? q).
        -- assert (oldest_first (versions_of k (drop row rs))) as Ho.
           { apply rows_sorted_versions. rewrite <-(take_drop row rs) in Hs. by apply rows_sorted_app in Hs as (_ & ? & _). }
           rewrite (drop_S rs _ row Hr), versions_of_cons in Ho. cbn [fst snd] in Ho. by rewrite decide_True in Ho.
    + rewrite bool_decide_eq_false_2 by done. cbn [negb]. exists selected. split; [done|].
      rewrite versions_of_nil; [exact Hp|]. intros r [i Hi]%list_elem_of_lookup E. rewrite lookup_drop in Hi.
      pose proof (Hge row (k', v) Hr ltac:(lia)) as Hle.
      pose proof (rows_sorted_keys rs row (S row + i) (k', v) r Hs Hr Hi ltac:(lia)) as Hle'.
      cbn in Hle, Hle'. rewrite E in Hle'. by destruct Hne; apply leb_antisym.
Qed.

(** ** The group of a key *)

Lemma partition_point_before {A} (p : A → bool) l i x :
  l !! i = Some x → (i < partition_point p l)%nat → p x = true.
Proof.
  revert i. induction l as [|y l IH]; intros i Hi Hlt; [done|]. cbn in Hlt.
  destruct (p y) eqn:E; [|lia]. destruct i as [|i]; cbn in Hi; [by simplify_eq|]. apply (IH i); [done|lia].
Qed.
Lemma partition_point_at {A} (p : A → bool) l x :
  l !! partition_point p l = Some x → p x = false.
Proof. induction l as [|y l IH]; cbn; [done|]. destruct (p y) eqn:E; [exact IH|]. cbn. by intros [= <-]. Qed.

Lemma concat_only {A} (ls : list (list A)) i l :
  ls !! i = Some l → (∀ j l', ls !! j = Some l' → j ≠ i → l' = []) → concat ls = l.
Proof.
  revert i. induction ls as [|x ls IH]; intros i Hi Hall; [done|]. destruct i as [|i]; cbn in Hi |- *.
  - simplify_eq. assert (concat ls = []) as ->; [|apply app_nil_r].
    assert (∀ j l', ls !! j = Some l' → l' = []) as H by (intros j l' Hj; by apply (Hall (S j))).
    clear -H. induction ls as [|y ls IH]; [done|]. cbn. rewrite (H 0%nat y eq_refl). apply IH. intros j; apply (H (S j)).
  - rewrite (Hall 0%nat x eq_refl) by done. apply (IH i); [done|]. intros j l' Hj Hne. apply (Hall (S j)); [done|lia].
Qed.

Lemma groups_apart_lookup groups i j g g' :
  groups_apart groups → groups !! i = Some g → groups !! j = Some g' → (i < j)%nat →
  ltb (group_last_key g) (group_first_key g') = true.
Proof.
  intros Ha. revert i j. induction Ha as [|x groups Ha IH Hall]; intros i j Hi Hj Hlt; [done|].
  destruct i as [|i], j as [|j]; cbn in Hi, Hj; simplify_eq; [lia| |lia|by apply (IH i j); [..|lia]].
  eapply Forall_forall in Hall; [exact Hall|]. by eapply list_elem_of_lookup_2.
Qed.

Lemma group_bounds seg gs i group rs r :
  segment_holds seg gs → row_groups seg !! i = Some group → gs !! i = Some rs → r ∈ rs →
  leb (group_first_key group) r.1 = true ∧ leb r.1 (group_last_key group) = true.
Proof.
  intros H Hg Hrs Hr. destruct (holds_groups _ _ H _ _ _ Hg Hrs) as [_ _ Hf Hl _].
  pose proof (rows_sorted_concat _ _ _ (holds_sorted _ _ H) Hrs).
  split; [by eapply head_bound|by eapply last_bound].
Qed.

Lemma group_at seg gs i rs : segment_holds seg gs → gs !! i = Some rs → ∃ group, row_groups seg !! i = Some group.
Proof. intros H Hi. apply lookup_lt_is_Some_2. rewrite <-(holds_length _ _ H). by eapply lookup_lt_Some. Qed.
Lemma rows_at seg gs i group : segment_holds seg gs → row_groups seg !! i = Some group → ∃ rs, gs !! i = Some rs.
Proof. intros H Hi. apply lookup_lt_is_Some_2. rewrite (holds_length _ _ H). by eapply lookup_lt_Some. Qed.

(** Only the group at the partition point can hold the key. *)
Lemma key_in_no_other_group seg gs k index j rs :
  segment_holds seg gs → index = partition_point (λ g, ltb (group_last_key g) k) (row_groups seg) →
  gs !! j = Some rs → j ≠ index → versions_of k rs = [].
Proof.
  intros H -> Hj Hne. set (index := partition_point _ _) in *.
  destruct (group_at _ _ _ _ H Hj) as [g Hg]. apply versions_of_nil. intros r Hr E.
  destruct (group_bounds _ _ _ _ _ _ H Hg Hj Hr) as [Hfirst Hlast]. rewrite E in Hfirst, Hlast.
  destruct (decide (j < index)%nat).
  - assert (ltb (group_last_key g) k = true) as Hlt by exact (partition_point_before (λ g, ltb (group_last_key g) k) _ _ _ Hg l).
    rewrite leb_ltb, Hlt in Hlast. done.
  - assert (index < length (row_groups seg))%nat as Hin by (apply lookup_lt_Some in Hg; lia).
    apply lookup_lt_is_Some_2 in Hin as [g' Hg'].
    pose proof (partition_point_at _ _ _ Hg') as Hat. cbn in Hat.
    pose proof (groups_apart_lookup _ _ _ _ _ (holds_apart _ _ H) Hg' Hg ltac:(lia)) as Hlt.
    assert (ltb (group_last_key g') k = true) by (by eapply ltb_leb_trans). congruence.
Qed.

Lemma key_in_one_group seg gs k index :
  segment_holds seg gs → index = partition_point (λ g, ltb (group_last_key g) k) (row_groups seg) →
  match gs !! index with
  | Some rs => versions_of k (concat gs) = versions_of k rs
  | None => versions_of k (concat gs) = []
  end.
Proof.
  intros H Hindex.
  assert (∀ j rs, gs !! j = Some rs → j ≠ index → versions_of k rs = []) as Hother
    by (intros j rs; by apply (key_in_no_other_group seg gs k index j rs)).
  rewrite versions_of_concat. destruct (gs !! index) as [rs|] eqn:E.
  - apply (concat_only _ index); [by rewrite list_lookup_fmap, E|].
    intros j l' Hj Hne. rewrite list_lookup_fmap in Hj. destruct (gs !! j) as [rs'|] eqn:Ej; cbn in Hj; simplify_eq. by apply (Hother j).
  - assert (∀ l, l ∈ map (versions_of k) gs → l = []) as Hall.
    { intros l [j Hj]%list_elem_of_lookup. rewrite list_lookup_fmap in Hj.
      destruct (gs !! j) as [rs'|] eqn:Ej; cbn in Hj; simplify_eq. apply (Hother j); [done|]. intros ->. congruence. }
    induction (map (versions_of k) gs) as [|l ls IH]; [done|]. cbn. rewrite (Hall l) by left. apply IH. intros; apply Hall; by right.
Qed.

(** ** Point reads *)

(** What a selected version stands for: a row of the segment whose value can be read. *)
Definition selects (seg : Segment) (found : option SelectedVersion) (o : option VersionedValue) : Prop :=
  match found, o with
  | Some sel, Some v => selected_segment sel = seg ∧ selected_sequence sel = sequence v
      ∧ selected_value sel = Ok (value v)
  | None, None => True
  | _, _ => False
  end.

Lemma load_spine_group seg i g :
  load_row_group seg i = Ok g → load_key_spine seg i = Ok (spine g).
Proof. unfold load_row_group. intros H. destruct_matches_in H; by simplify_eq. Qed.

Lemma load_columns_group seg i g group :
  row_groups seg !! i = Some group → load_row_group seg i = Ok g →
  load_value_columns seg i = Ok {| column_validity := loaded_validity g; column_offsets := loaded_offsets g;
                                   column_values := loaded_values g |}.
Proof.
  intros Hi. unfold load_row_group, load_value_columns. rewrite Hi. cbn [ok_or].
  intros H. destruct_matches_in H; by simplify_eq.
Qed.

Lemma value_at_group seg i g r : load_row_group seg i = Ok g → value_at seg i r = value_from_loaded g r.
Proof. unfold load_row_group, value_at, value_from_loaded. intros H. destruct_matches_in H; by simplify_eq. Qed.

Lemma select_version_spec seg gs k q :
  segment_holds seg gs →
  ∃ found, select_version seg k q = Ok found ∧ selects seg found (seen q (versions_of k (concat gs))).
Proof.
  intros H. unfold select_version.
  destruct (ltb k (first_key (descriptor seg)) || ltb (last_key (descriptor seg)) k
            || (q <? minimum_sequence (descriptor seg)))%bool eqn:Eskip.
  { exists None. split; [done|]. assert (seen q (versions_of k (concat gs)) = None) as ->; [|done].
    apply seen_None. intros v Hv%versions_of_elem. destruct (holds_bounds _ _ H _ Hv) as (Hf & Hl & Hs). cbn in Hf, Hl, Hs.
    rewrite leb_ltb in Hf, Hl. rewrite !orb_true_iff in Eskip. destruct Eskip as [[E|E]|E%Z.ltb_lt]; [by rewrite E in Hf|by rewrite E in Hl|lia]. }
  set (index := partition_point _ _). pose proof (key_in_one_group seg gs k index H eq_refl) as Hone.
  destruct (row_groups seg !! index) as [group|] eqn:Eg.
  2:{ exists None. split; [done|]. destruct (gs !! index) eqn:Ers; [|by rewrite Hone].
      destruct (group_at _ _ _ _ H Ers). congruence. }
  destruct (rows_at _ _ _ _ H Eg) as [rs Ers]. rewrite Ers in Hone. rewrite Hone.
  destruct (holds_groups _ _ H _ _ _ Eg Ers) as [(g & Hload & Hcol) Hcount Hfirst Hlast Hfilter].
  pose proof (rows_sorted_concat _ _ _ (holds_sorted _ _ H) Ers) as Hsorted.
  assert ((∀ r, r ∈ rs → r.1 ≠ k) → ∃ found, Ok None = @Ok Error _ found ∧ selects seg found (seen q (versions_of k rs))) as Hnone.
  { intros Hno. exists None. by rewrite versions_of_nil. }
  destruct (ltb k (group_first_key group)) eqn:Efirst.
  { apply Hnone. intros r Hr E. destruct (group_bounds _ _ _ _ _ _ H Eg Ers Hr) as [Hb _].
    rewrite E, leb_ltb, Efirst in Hb. done. }
  rewrite (holds_probe _ _ H). destruct (may_contain (group_filter group) k) eqn:Efilter; cbn [negb].
  2:{ apply Hnone. intros r Hr E. apply Hfilter in Hr. congruence. }
  rewrite (load_spine_group _ _ _ Hload).
  replace (Z.to_nat (group_row_count group)) with (length rs) by (rewrite Hcount; unfold len; lia).
  destruct (lower_bound_spec (spine g) rs k Hsorted) as (n & -> & Hn & Hlow & Hhigh).
  { intros r k' v Hr. by apply Hcol in Hr as [? _]. }
  destruct (select_loop_spec (spine g) rs k q n None None Hsorted) as (found & -> & Hfound); [|done|done|].
  { intros r k' v Hr. apply Hcol in Hr as (? & ? & _). done. }
  eexists. split; [done|]. rewrite (versions_after _ _ _ Hsorted Hlow) in Hfound.
  destruct found as [[r s]|], (seen q (versions_of k rs)) as [v|]; cbn in Hfound |- *; try done.
  destruct Hfound as [Hr ->]. split_and!; [done|done|]. unfold selected_value; cbn.
  rewrite (value_at_group _ _ _ _ Hload). by apply Hcol in Hr as (_ & _ & ?).
Qed.

(** ** Range reads *)

Definition select_rows (in_range : key → bool) (q : Z) (rows : list row) : list row :=
  List.filter (λ r : row, (in_range r.1 && (sequence r.2 <=? q))%bool) rows.

Lemma versions_of_select in_range q k rows :
  versions_of k (select_rows in_range q rows) = if in_range k then visible q (versions_of k rows) else [].
Proof.
  induction rows as [|[k' v] rows IH]; [by destruct (in_range k)|].
  unfold select_rows. cbn [List.filter fst snd]. fold (select_rows in_range q rows). rewrite versions_of_cons. cbn [fst snd].
  destruct (decide (k' = k)) as [->|Hne].
  - destruct (in_range k) eqn:E; cbn [andb]; [|exact IH]. unfold visible; cbn [List.filter]. fold (visible q (versions_of k rows)).
    destruct (sequence v <=? q); [|exact IH]. rewrite versions_of_cons. cbn [fst snd]. by rewrite decide_True, IH.
  - destruct (in_range k' && (sequence v <=? q))%bool; [|exact IH]. rewrite versions_of_cons. cbn [fst snd].
    by rewrite decide_False.
Qed.

Lemma select_rows_app in_range q l r : select_rows in_range q (l ++ r) = select_rows in_range q l ++ select_rows in_range q r.
Proof. apply List.filter_app. Qed.
Lemma select_rows_nil in_range q rows : (∀ r, r ∈ rows → in_range r.1 = false) → select_rows in_range q rows = [].
Proof.
  intros H. induction rows as [|r rows IH]; [done|]. unfold select_rows; cbn [List.filter].
  rewrite H by left. apply IH. intros; apply H; by right.
Qed.

Lemma visit_group_spec seg gs i group rs in_range q grouped :
  segment_holds seg gs → row_groups seg !! i = Some group → gs !! i = Some rs →
  visit_group seg in_range q i group grouped = Ok (fold_left merge_newer (select_rows in_range q rs) grouped).
Proof.
  intros H Hi Hrs. destruct (holds_groups _ _ H _ _ _ Hi Hrs) as [(g & Hload & Hcol) Hcount _ _ _].
  unfold visit_group. rewrite (load_spine_group _ _ _ Hload), (load_columns_group _ _ _ _ Hi Hload).
  replace (Z.to_nat (group_row_count group)) with (length rs) by (rewrite Hcount; unfold len; lia).
  set (c := {| column_validity := _ |}).
  assert (∀ suf pre grouped, rs = pre ++ suf →
    try_fold (visit_row (spine g) (Ok c) in_range q) grouped (seq (length pre) (length suf))
    = Ok (fold_left merge_newer (select_rows in_range q suf) grouped)) as Hsuf.
  { induction suf as [|[k v] suf IH]; intros pre acc Heq; [done|]. cbn [length seq try_fold].
    assert (rs !! length pre = Some (k, v)) as Hat by (by rewrite Heq, list_lookup_middle).
    apply Hcol in Hat as (Hk & Hs & Hv). unfold visit_row at 1. rewrite Hk.
    unfold select_rows; cbn [List.filter fst snd]; fold (select_rows in_range q suf).
    specialize (IH (pre ++ [(k, v)])). rewrite length_app, Nat.add_1_r in IH. cbn [length] in IH.
    assert (rs = (pre ++ [(k, v)]) ++ suf) as Heq' by (by rewrite <-app_assoc).
    destruct (in_range k); cbn [negb andb]; [|by apply IH]. rewrite Hs.
    destruct (sequence v <=? q); [|by apply IH].
    replace (value_from_columns c (length pre)) with (value_from_loaded g (length pre)) by done. rewrite Hv.
    replace {| sequence := sequence v; value := value v |} with v by (by destruct v).
    cbn [fold_left]. unfold merge_newer at 2. cbn [fst snd].
    destruct (bt_get k acc) as [prior|]; [destruct (sequence prior <? sequence v)|]; by apply IH. }
  apply (Hsuf rs [] grouped eq_refl).
Qed.

Lemma visible_groups_spec seg gs start end_ q index groups grouped :
  segment_holds seg gs → groups = drop index (row_groups seg) →
  visible_groups seg start end_ q index groups grouped
  = Ok (fold_left merge_newer (select_rows (key_in_range start end_) q (concat (drop index gs))) grouped).
Proof.
  intros H. revert index grouped. induction groups as [|group groups IH]; intros index grouped Heq.
  - assert (length (row_groups seg) <= index)%nat.
    { destruct (decide (length (row_groups seg) <= index)%nat); [done|].
      apply (f_equal length) in Heq. rewrite length_drop in Heq. cbn in Heq. lia. }
    rewrite drop_ge by (rewrite (holds_length _ _ H); lia). done.
  - assert (row_groups seg !! index = Some group) as Hi
      by (rewrite <-(Nat.add_0_r index), <-lookup_drop, <-Heq; done).
    destruct (rows_at _ _ _ _ H Hi) as [rs Hrs]. rewrite (drop_S gs _ index Hrs). cbn [concat visible_groups].
    destruct (match end_ with Some e => leb e (group_first_key group) | None => false end) eqn:Estop.
    + rewrite select_rows_nil; [done|]. intros r Hr. destruct end_ as [e|]; [|done].
      assert (leb (group_first_key group) r.1 = true) as Hle.
      { apply elem_of_app in Hr as [Hr|(l & Hl & Hr)%list_elem_of_In%in_concat].
        - by apply (group_bounds _ _ _ _ _ _ H Hi Hrs Hr).
        - apply list_elem_of_In, list_elem_of_lookup in Hl as [j Hj]. rewrite lookup_drop in Hj.
          destruct (group_at _ _ _ _ H Hj) as [g' Hg']. apply list_elem_of_In in Hr.
          destruct (group_bounds _ _ _ _ _ _ H Hg' Hj Hr) as [Hb _].
          pose proof (groups_apart_lookup _ _ _ _ _ (holds_apart _ _ H) Hi Hg' ltac:(lia)) as Hlt.
          destruct rs as [|r0 rs]; [by destruct (holds_groups _ _ H _ _ _ Hi Hrs)|].
          destruct (group_bounds _ _ _ _ _ r0 H Hi Hrs ltac:(left)) as [Hf Hl].
          eapply leb_trans; [exact Hf|]. eapply leb_trans; [exact Hl|]. eapply leb_trans; [by apply ltb_leb|done]. }
      unfold key_in_range. apply andb_false_iff. right. apply not_true_is_false. intros Hlt.
      assert (ltb r.1 r.1 = true) as Hirr; [|by rewrite ltb_irrefl in Hirr].
      eapply ltb_leb_trans; [exact Hlt|]. by eapply leb_trans.
    + rewrite (visit_group_spec seg gs index group rs) by done.
      assert (groups = drop (S index) (row_groups seg)) as Hgr.
      { rewrite (drop_S _ _ _ Hi) in Heq. by simplify_eq. }
      rewrite IH by exact Hgr. by rewrite select_rows_app, fold_left_app.
Qed.

Lemma segment_visible_from_spec seg gs start end_ q :
  segment_holds seg gs →
  ∃ rows, segment_visible_from seg start end_ q = Ok rows ∧ bt_sorted rows
    ∧ ∀ k, bt_get k rows = if key_in_range start end_ k then seen q (versions_of k (concat gs)) else None.
Proof.
  intros H. unfold segment_visible_from. set (first := partition_point _ _).
  rewrite (visible_groups_spec seg gs) by done. eexists. split; [done|].
  split; [apply merge_all_sorted; constructor|]. intros k. rewrite merge_all_get. cbn [bt_get newer].
  transitivity (newest (versions_of k (select_rows (key_in_range start end_) q (concat gs)))).
  - do 2 f_equal. rewrite <-(take_drop first gs) at 2. rewrite concat_app, select_rows_app.
    rewrite (select_rows_nil _ _ (concat (take first gs))); [done|]. intros r (l & Hl & Hr)%list_elem_of_In%in_concat.
    apply list_elem_of_In, list_elem_of_lookup in Hl as [j Hj]. apply lookup_take_Some in Hj as [Hj Hlt].
    destruct (group_at _ _ _ _ H Hj) as [g Hg]. apply list_elem_of_In in Hr.
    destruct (group_bounds _ _ _ _ _ _ H Hg Hj Hr) as [_ Hl].
    pose proof (partition_point_before _ _ _ _ Hg Hlt) as Hp. cbn in Hp.
    unfold key_in_range. apply andb_false_iff. left. rewrite leb_ltb.
    by rewrite (leb_ltb_trans _ _ _ Hl Hp).
  - rewrite versions_of_select. by destruct (key_in_range start end_ k).
Qed.

(** ** Multi-range reads *)

(** Non-empty ranges that follow one another. *)
Definition ranges_ok (ranges : list (key * key)) : Prop :=
  Forall (λ r : key * key, ltb r.1 r.2 = true) ranges
  ∧ StronglySorted (λ a b : key * key, leb a.2 b.1 = true) ranges.

Definition in_some_range (ranges : list (key * key)) (k : key) : bool :=
  existsb (λ r : key * key, (leb r.1 k && ltb k r.2)%bool) ranges.

Lemma in_ranges_spec ranges k : ranges_ok ranges → in_ranges ranges k = in_some_range ranges k.
Proof.
  intros [Hne Hs]. unfold in_ranges. revert Hne. induction Hs as [|[a b] ranges Hs IH Hall]; [done|].
  intros [Hab Hne]%Forall_cons. cbn [fst snd] in Hab. cbn [partition_point in_some_range existsb fst snd].
  assert (leb a k = false → in_some_range ranges k = false) as Hbelow.
  { intros Ha. apply not_true_is_false. intros (r & Hr & Hk)%existsb_exists. apply andb_true_iff in Hk as [Hk _].
    apply list_elem_of_In in Hr. eapply Forall_forall in Hall; [|exact Hr]. cbn in Hall.
    assert (leb a k = true); [|congruence]. apply ltb_leb. eapply ltb_leb_trans; [exact Hab|]. by eapply leb_trans. }
  fold (in_some_range ranges k). destruct (leb a k) eqn:Ea; cbn [andb orb].
  - specialize (IH Hne). destruct (partition_point (λ r : key * key, leb r.1 k) ranges) as [|i] eqn:Ei.
    + rewrite <-IH. cbn. by rewrite orb_false_r.
    + change (((a, b) :: ranges) !! S i) with (ranges !! i). rewrite IH. destruct (ltb k b) eqn:Ek; [|done]. cbn [orb].
      destruct (lookup_lt_is_Some_2 ranges 0) as [r Hr].
      { destruct ranges; [done|cbn; lia]. }
      pose proof (partition_point_before (λ r : key * key, leb r.1 k) ranges 0 r Hr ltac:(lia)) as Hp. cbn in Hp.
      eapply Forall_forall in Hall; [|by eapply list_elem_of_lookup_2]. cbn in Hall.
      assert (ltb k k = true) as Hkk; [|by rewrite ltb_irrefl in Hkk].
      eapply ltb_leb_trans; [exact Ek|]. by eapply leb_trans.
  - by rewrite Hbelow.
Qed.

(** The indexes selected so far, kept in order and within the segment. *)
Definition chosen_ok (n : nat) (chosen : list (Z * unit)) : Prop :=
  bt_sorted chosen ∧ ∀ z u, (z, u) ∈ chosen → 0 ≤ z < Z.of_nat n.

Lemma select_groups_spec e i index groups chosen n :
  (index + length groups ≤ n)%nat → chosen_ok n chosen →
  let chosen' := select_groups e index groups chosen in
  chosen_ok n chosen'
  ∧ (bs_mem (Z.of_nat i) chosen = true → bs_mem (Z.of_nat i) chosen' = true)
  ∧ ((index ≤ i < index + length groups)%nat →
     (∀ j g, groups !! j = Some g → (index + j ≤ i)%nat → leb e (group_first_key g) = false) →
     bs_mem (Z.of_nat i) chosen' = true).
Proof.
  revert index chosen. induction groups as [|g groups IH]; intros index chosen Hn Hok; cbn [select_groups length] in *.
  { split_and!; [done|done|lia]. }
  destruct (leb e (group_first_key g)) eqn:E.
  { split_and!; [done|done|]. intros Hi Hall. rewrite (Hall 0%nat g) in E; [done|done|lia]. }
  assert (chosen_ok n (bs_insert (Z.of_nat index) chosen)) as Hok'.
  { destruct Hok as [Hs Hb]. split; [by apply bt_insert_sorted|]. intros z u [Hz|Hz]%bt_insert_elem; [simplify_eq; lia|by eapply Hb]. }
  destruct (IH (S index) (bs_insert (Z.of_nat index) chosen) ltac:(lia) Hok') as (H1 & H2 & H3).
  split_and!; [done| |].
  - intros Hm. apply H2. rewrite bs_mem_insert, Hm. apply orb_true_r.
  - intros Hi Hall. destruct (decide (i = index)) as [->|].
    + apply H2. rewrite bs_mem_insert, bool_decide_eq_true_2 by done. done.
    + apply H3; [lia|]. intros j g' Hj Hle. apply (Hall (S j) g' Hj). lia.
Qed.

Definition chosen_groups (groups : list RowGroupDescriptor) (ranges : list (key * key)) (chosen : list (Z * unit)) :=
  fold_left (λ chosen (range : key * key),
    let first := partition_point (λ group, ltb (group_last_key group) range.1) groups in
    select_groups range.2 first (drop first groups) chosen) ranges chosen.

Lemma partition_point_le {A} (p : A → bool) l : (partition_point p l ≤ length l)%nat.
Proof. induction l as [|x l IH]; cbn; [lia|]. destruct (p x); lia. Qed.

(** Every group that holds a key of a range is selected. *)
Lemma chosen_groups_spec seg gs ranges chosen i rs k :
  segment_holds seg gs → gs !! i = Some rs → k ∈ map fst rs →
  chosen_ok (length (row_groups seg)) chosen →
  let chosen' := chosen_groups (row_groups seg) ranges chosen in
  chosen_ok (length (row_groups seg)) chosen'
  ∧ (bs_mem (Z.of_nat i) chosen = true ∨ in_some_range ranges k = true → bs_mem (Z.of_nat i) chosen' = true).
Proof.
  intros H Hi Hk. revert chosen. induction ranges as [|range ranges IH]; intros chosen Hok; cbn [chosen_groups fold_left].
  { split; [done|]. by intros [?|?]. }
  set (first := partition_point _ _). fold (chosen_groups (row_groups seg) ranges).
  pose proof (partition_point_le (λ group, ltb (group_last_key group) range.1) (row_groups seg)) as Hle. fold first in Hle.
  destruct (select_groups_spec range.2 i first (drop first (row_groups seg)) chosen (length (row_groups seg))) as (H1 & H2 & H3);
    [rewrite length_drop; lia|done|].
  destruct (IH _ H1) as [H4 H5]. split; [exact H4|]. intros Hor. apply H5.
  destruct Hor as [Hm|Hr]; [left; by apply H2|]. cbn [in_some_range existsb] in Hr.
  apply orb_true_iff in Hr as [Hr|Hr]; [|by right]. left. apply andb_true_iff in Hr as [Hlow Hhigh].
  apply list_elem_of_In, in_map_iff in Hk as (r & <- & Hr%list_elem_of_In).
  destruct (group_at _ _ _ _ H Hi) as [g Hg]. destruct (group_bounds _ _ _ _ _ _ H Hg Hi Hr) as [Hf Hl].
  assert (first ≤ i)%nat as Hfi.
  { destruct (decide (first ≤ i)%nat); [done|]. exfalso.
    pose proof (partition_point_before _ _ _ _ Hg (not_le _ _ n)) as Hp. cbn in Hp.
    assert (ltb range.1 range.1 = true) as Hx; [|by rewrite ltb_irrefl in Hx].
    eapply leb_ltb_trans; [|exact Hp]. by eapply leb_trans. }
  apply H3.
  - rewrite length_drop. apply lookup_lt_Some in Hg. lia.
  - intros j g' Hj Hle'. rewrite lookup_drop in Hj. rewrite leb_ltb. apply negb_false_iff.
    eapply leb_ltb_trans; [|exact Hhigh]. eapply leb_trans; [|exact Hf].
    destruct (decide (first + j = i)%nat) as [E|]; [rewrite E in Hj; simplify_eq; apply leb_refl|].
    destruct (rows_at _ _ _ _ H Hj) as [rs' Hrs'].
    destruct rs' as [|r0 rs']; [by destruct (holds_groups _ _ H _ _ _ Hj Hrs')|].
    destruct (group_bounds _ _ _ _ _ r0 H Hj Hrs' ltac:(left)) as [Hf' Hl'].
    eapply leb_trans; [exact Hf'|]. eapply leb_trans; [exact Hl'|]. apply ltb_leb.
    apply (groups_apart_lookup (row_groups seg) (first + j) i g' g); [apply H|done|done|lia].
Qed.

Lemma visit_chosen_spec seg gs in_range q chosen grouped :
  segment_holds seg gs → (∀ z u, (z, u) ∈ chosen → 0 ≤ z < Z.of_nat (length (row_groups seg))) →
  try_fold (λ grouped (choice : Z * unit),
      match row_groups seg !! Z.to_nat choice.1 with
      | Some group => visit_group seg in_range q (Z.to_nat choice.1) group grouped
      | None => Ok grouped
      end) grouped chosen
  = Ok (fold_left merge_newer
      (concat (map (λ choice : Z * unit, select_rows in_range q (default [] (gs !! Z.to_nat choice.1))) chosen)) grouped).
Proof.
  intros H. revert grouped. induction chosen as [|[z u] chosen IH]; intros grouped Hb; [done|]. cbn [try_fold fst map concat].
  destruct (lookup_lt_is_Some_2 (row_groups seg) (Z.to_nat z)) as [g Hg]; [specialize (Hb z u ltac:(left)); lia|].
  destruct (rows_at _ _ _ _ H Hg) as [rs Hrs]. rewrite Hg, Hrs, (visit_group_spec seg gs _ g rs) by done. cbn [default from_option id].
  rewrite fold_left_app. apply IH. intros z' u' Hz. eapply Hb. by right.
Qed.

Lemma visible_ranges_spec seg gs ranges q :
  segment_holds seg gs → ranges_ok ranges →
  ∃ rows, visible_ranges seg ranges q = Ok rows ∧ bt_sorted rows
    ∧ ∀ k, bt_get k rows = if in_some_range ranges k then seen q (versions_of k (concat gs)) else None.
Proof.
  intros H Hr. unfold visible_ranges. destruct ((len ranges =? 0) || (q <? minimum_sequence (descriptor seg)))%bool eqn:Eskip.
  { exists []. split_and!; [done|constructor|]. intros k. cbn [bt_get]. symmetry. apply orb_true_iff in Eskip as [E|E%Z.ltb_lt].
    - apply Z.eqb_eq, len_zero in E as ->. done.
    - destruct (in_some_range ranges k); [|done]. apply seen_None. intros v Hv%versions_of_elem.
      destruct (holds_bounds _ _ H _ Hv) as (_ & _ & Hs). cbn in Hs. lia. }
  change (fold_left _ ranges []) with (chosen_groups (row_groups seg) ranges []).
  assert (chosen_ok (length (row_groups seg)) []) as Hok0 by (split; [constructor|by intros z u ?%not_elem_of_nil]).
  assert (chosen_ok (length (row_groups seg)) (chosen_groups (row_groups seg) ranges [])) as [Hsort Hbound].
  { clear Hr Eskip. revert Hok0. generalize (@nil (Z * unit)) as acc. induction ranges as [|range ranges IH]; intros acc Hok; [done|].
    cbn [chosen_groups fold_left]. set (first := partition_point _ _). apply IH.
    apply (select_groups_spec range.2 0 first (drop first (row_groups seg)) acc); [|done]. rewrite length_drop.
    pose proof (partition_point_le (λ group, ltb (group_last_key group) range.1) (row_groups seg)) as Hle. fold first in Hle. lia. }
  set (chosen := chosen_groups (row_groups seg) ranges []) in *.
  rewrite (visit_chosen_spec seg gs) by done. eexists. split; [done|].
  split; [apply merge_all_sorted; constructor|]. intros k. rewrite merge_all_get. cbn [bt_get newer].
  rewrite versions_of_concat, map_map.
  set (f := λ x : Z * unit, versions_of k (select_rows (in_ranges ranges) q (default [] (gs !! Z.to_nat x.1)))).
  destruct (in_some_range ranges k) eqn:Ein.
  2:{ assert (concat (map f chosen) = []) as ->; [|done]. clear -Ein Hr. induction chosen as [|x l IH]; [done|]. cbn [map concat].
      rewrite IH, app_nil_r. subst f. cbn. rewrite versions_of_select, in_ranges_spec by done. by rewrite Ein. }
  set (index := partition_point (λ g, ltb (group_last_key g) k) (row_groups seg)).
  pose proof (key_in_one_group seg gs k index H eq_refl) as Hone.
  assert (∀ x, f x = visible q (versions_of k (default [] (gs !! Z.to_nat x.1)))) as Hf.
  { intros x. subst f. cbn. by rewrite versions_of_select, in_ranges_spec, Ein. }
  assert (∀ x, x ∈ chosen → Z.to_nat x.1 ≠ index → f x = []) as Hother.
  { intros [z u] Hx Hne. rewrite Hf. cbn [fst] in *. destruct (gs !! Z.to_nat z) as [rs|] eqn:E; [|done]. cbn [default from_option id].
    by rewrite (key_in_no_other_group seg gs k index _ rs H eq_refl E Hne). }
  assert (concat (map f chosen) = visible q (versions_of k (concat gs))) as ->; [|done].
  destruct (versions_of k (concat gs)) as [|v vs] eqn:Ev.
  - assert (∀ x, x ∈ chosen → f x = []) as Hall.
    { intros x Hx. destruct (decide (Z.to_nat x.1 = index)) as [E|]; [|by apply Hother]. rewrite Hf, E.
      destruct (gs !! index); [|done]. cbn [default from_option id]. by rewrite <-Hone. }
    clear -Hall. induction chosen as [|x l IH]; [done|]. cbn [map concat]. rewrite Hall by left. apply IH.
    intros; apply Hall; by right.
  - destruct (gs !! index) as [rs|] eqn:Ers; [|done].
    assert (k ∈ map fst rs) as Hk.
    { assert (v ∈ versions_of k rs) as Hv by (rewrite <-Hone; left). apply versions_of_elem in Hv.
      apply list_elem_of_fmap. by exists (k, v). }
    destruct (chosen_groups_spec seg gs ranges [] index rs k H Ers Hk Hok0) as [_ Hchosen].
    specialize (Hchosen (or_intror Ein)). fold chosen in Hchosen. unfold bs_mem, bt_mem in Hchosen.
    destruct (bt_get (Z.of_nat index) chosen) as [u|] eqn:Eget; [|done].
    apply bt_get_elem, list_elem_of_lookup in Eget as [p Hp].
    rewrite (concat_only (map f chosen) p (f (Z.of_nat index, u))).
    + rewrite Hf. cbn [fst]. rewrite Nat2Z.id, Ers. cbn [default from_option id]. by rewrite <-Hone.
    + by rewrite list_lookup_fmap, Hp.
    + intros j l' Hj Hne. rewrite list_lookup_fmap in Hj. destruct (chosen !! j) as [[z u']|] eqn:Ej; cbn in Hj; simplify_eq.
      apply Hother; [by eapply list_elem_of_lookup_2|]. cbn. intros Hz.
      pose proof (Hbound z u' (list_elem_of_lookup_2 _ _ _ Ej)). assert (z = Z.of_nat index) as -> by lia.
      apply Hne. by apply (bt_sorted_inj chosen j p _ _ Hsort Ej Hp).
Qed.

(** ** The record cursor *)

(** The rows the cursor has not returned yet. *)
Definition cursor_at (gs : list (list row)) (c : SegmentRecordCursor) (rest : list row) : Prop :=
  match loaded c with
  | None => rest = concat (drop (row_group_index c) gs)
  | Some g => ∃ rs, gs !! row_group_index c = Some rs
      ∧ load_row_group (cursor_segment c) (row_group_index c) = Ok g
      ∧ rest = drop (row_index c) rs ++ concat (drop (S (row_group_index c)) gs)
  end.

Definition record_row (r : SegmentRecord) : row := (record_key r, record_version r).

(** The cursor returns the rows that remain, one at a time. *)
Definition cursor_step (gs : list (list row)) (c : SegmentRecordCursor)
    (answer : result Error (SegmentRecordCursor * option SegmentRecord)) (rest : list row) : Prop :=
  ∃ c' out, answer = Ok (c', out) ∧ cursor_segment c' = cursor_segment c
    ∧ match rest with
      | [] => out = None ∧ cursor_at gs c' []
      | r :: rest' => record_row <$> out = Some r ∧ cursor_at gs c' rest'
      end.

Lemma next_record_loop_spec gs fuel c rest :
  segment_holds (cursor_segment c) gs → cursor_at gs c rest →
  (length gs - row_group_index c < fuel)%nat → cursor_step gs c (next_record_loop fuel c) rest.
Proof.
  intros H. pose proof (holds_length _ _ H) as Hlen. revert c H Hlen rest.
  induction fuel as [|fuel IH]; intros c H Hlen rest Hat Hfuel; [lia|]. cbn [next_record_loop].
  destruct (row_groups (cursor_segment c) !! row_group_index c) as [group|] eqn:Eg.
  2:{ apply lookup_ge_None in Eg. exists c, None. split_and!; [done..|].
      unfold cursor_at in *. destruct (loaded c) as [g|] eqn:El.
      - destruct Hat as (rs & Hrs & _). apply lookup_lt_Some in Hrs. lia.
      - rewrite drop_ge in Hat by lia. subst rest. split; [done|]. by rewrite drop_ge by lia. }
  destruct (rows_at _ _ _ _ H Eg) as [rs Hrs].
  destruct (holds_groups _ _ H _ _ _ Eg Hrs) as [(g & Hload & Hcol) Hcount _ _ _].
  assert (∃ at_, (match loaded c with
      | Some rows => Ok (rows, row_index c)
      | None => let? rows := load_row_group (cursor_segment c) (row_group_index c) in Ok (rows, O)
      end) = @Ok Error _ (g, at_) ∧ rest = drop at_ rs ++ concat (drop (S (row_group_index c)) gs)) as (at_ & -> & ->).
  { unfold cursor_at in Hat. destruct (loaded c) as [g'|].
    - destruct Hat as (rs' & Hrs' & Hload' & ->). exists (row_index c). assert (g' = g) as -> by congruence. by simplify_eq.
    - exists 0%nat. rewrite Hload. split; [done|]. by rewrite Hat, (drop_S gs _ _ Hrs). }
  rewrite Hcount. unfold len. destruct (Z.ltb_spec (Z.of_nat at_) (Z.of_nat (length rs))) as [Hlt|Hge].
  - destruct (lookup_lt_is_Some_2 rs at_) as [[k v] Hr]; [lia|]. destruct (Hcol _ _ _ Hr) as (-> & -> & ->).
    rewrite (drop_S rs _ _ Hr). do 2 eexists. split; [done|]. split; [done|]. split.
    + cbn. by destruct v.
    + exists rs. cbn [row_group_index row_index cursor_segment]. by rewrite Nat.add_1_r.
  - rewrite (drop_ge rs) by lia. cbn [app].
    destruct (IH {| cursor_segment := cursor_segment c; row_group_index := row_group_index c + 1;
                    row_index := at_; loaded := None |} H Hlen (concat (drop (S (row_group_index c)) gs)))
      as (c' & out & Hans & Hseg & Hout).
    + unfold cursor_at; cbn. by rewrite Nat.add_1_r.
    + cbn [row_group_index]. apply lookup_lt_Some in Eg. lia.
    + by exists c', out.
Qed.

Lemma next_record_spec gs c rest :
  segment_holds (cursor_segment c) gs → cursor_at gs c rest → cursor_step gs c (next_record c) rest.
Proof. intros H Hat. apply next_record_loop_spec; [done..|]. rewrite (holds_length _ _ H). lia. Qed.

Lemma record_cursor_at gs seg : cursor_at gs (record_cursor seg) (concat gs).
Proof. done. Qed.

(** ** Full validation is sound *)

(** What parsing the metadata guarantees of the index (segment/format.rs 893-1027). *)
Record index_ok (seg : Segment) : Prop := {
  index_apart : groups_apart (row_groups seg);
  index_counts : Forall (λ g, 0 ≤ group_row_count g ∧ 0 ≤ unique_key_count g) (row_groups seg);
  index_first : group_first_key <$> head (row_groups seg) = Some (first_key (descriptor seg));
  index_last : group_last_key <$> last (row_groups seg) = Some (last_key (descriptor seg))
}.

Lemma row_lt_trans a b c : row_lt a b → row_lt b c → row_lt a c.
Proof.
  intros [H1|[E1 H1]] [H2|[E2 H2]]; unfold row_lt.
  - left. by eapply ltb_trans.
  - left. by rewrite <-E2.
  - left. by rewrite E1.
  - right. split; [congruence|lia].
Qed.

Lemma rows_sorted_snoc rows r :
  rows_sorted rows → (∀ z, last rows = Some z → row_lt z r) → rows_sorted (rows ++ [r]).
Proof.
  intros Hs Hl. apply rows_sorted_app. split_and!; [done|repeat constructor|].
  intros x y Hx ->%list_elem_of_singleton. destruct (last rows) as [z|] eqn:E.
  - apply last_Some in E as [l ->]. apply rows_sorted_app in Hs as (_ & _ & Hlt). specialize (Hl z eq_refl).
    apply elem_of_app in Hx as [Hx| ->%list_elem_of_singleton]; [|done].
    eapply row_lt_trans; [|exact Hl]. apply Hlt; [done|by left].
  - apply last_None in E as ->. by apply not_elem_of_nil in Hx.
Qed.

(** The accumulators after the rows [rs] of a group that follow the rows [prior]. *)
Record scanned (d : SegmentDescriptor) (g : LoadedRowGroup) (prior rs : list row)
    (st : SegmentScan * GroupScan) : Prop := {
  scanned_columns : columns_hold g rs;
  scanned_sorted : rows_sorted (prior ++ rs);
  scanned_previous : previous st.1 = (λ r : row, (r.1, sequence r.2)) <$> last (prior ++ rs);
  scanned_words : words (scan_filter st.2) ≠ [];
  scanned_filter : ∀ r, r ∈ rs → may_contain (scan_filter st.2) r.1 = true;
  scanned_key : previous_group_key st.2 = fst <$> last rs;
  scanned_first : actual_first st.2 = fst <$> head rs;
  scanned_last : actual_last st.2 = fst <$> last rs;
  scanned_bounds : ∀ r, r ∈ rs → minimum_sequence d ≤ sequence r.2 ≤ maximum_segment_sequence d;
  scanned_oldest : ∀ r, r ∈ rs → sequence_min st.2 ≤ sequence r.2
}.

Lemma columns_hold_snoc g rs k v :
  columns_hold g rs → key_at (spine g) (length rs) = Ok k → sequence_at (spine g) (length rs) = Ok (sequence v) →
  value_from_loaded g (length rs) = Ok (value v) → columns_hold g (rs ++ [(k, v)]).
Proof.
  intros Hc Hk Hs Hv r k' v' Hr. apply lookup_snoc_Some in Hr as [[_ Hr]|[-> [= -> ->]]]; [by apply Hc|done].
Qed.

Lemma validate_row_spec d g prior rs st st' :
  scanned d g prior rs st → validate_row d g st (length rs) = Ok st' →
  ∃ r, scanned d g prior (rs ++ [r]) st'.
Proof.
  intros [Hcol Hsort Hprev Hwords Hfil Hkey Hfirst Hlast Hbound Hold]. destruct st as [whole part]; cbn [fst snd] in *.
  unfold validate_row. destruct (key_at (spine g) (length rs)) as [k|] eqn:Ek; [|done].
  destruct (sequence_at (spine g) (length rs)) as [s|] eqn:Es; [|done].
  destruct ((s =? 0) || (s <? minimum_sequence d) || (maximum_segment_sequence d <? s) || _)%bool eqn:Ebad; [done|].
  rewrite !orb_false_iff, !Z.ltb_ge in Ebad. destruct Ebad as (((_ & Hmin) & Hmax) & Horder).
  match goal with |- match ?c with _ => _ end = _ → _ => destruct c as [[[f unique] group_key]|] eqn:Ef; [|done] end.
  destruct (value_from_loaded g (length rs)) as [v|] eqn:Ev; [|done]. intros [= <-].
  exists (k, {| sequence := s; value := v |}).
  assert (words f ≠ [] ∧ may_contain f k = true ∧ (∀ r, r ∈ rs → may_contain f r.1 = true) ∧ group_key = Some k) as (Hwf & Hfk & Hfr & ->).
  { destruct (bool_decide (previous_group_key part = Some k)) eqn:Eg; cbn [negb] in Ef.
    - apply bool_decide_eq_true in Eg. simplify_eq. split_and!; [done| |done|done].
      rewrite Eg in Hkey. destruct (last rs) as [z|] eqn:El; [|done]. cbn in Hkey. simplify_eq.
      apply Hfil. apply last_Some in El as [l ->]. set_solver.
    - destruct (checked_add 32 (scan_unique part) 1); cbn [ok_or] in Ef; simplify_eq.
      split_and!; [by apply filter_insert_words|by apply insert_may_contain|intros; by apply insert_keeps, Hfil|done]. }
  constructor; cbn [fst snd previous scan_filter previous_group_key actual_first actual_last].
  - by apply columns_hold_snoc.
  - rewrite app_assoc. apply rows_sorted_snoc; [done|]. intros z Hz. rewrite Hz in Hprev. cbn in Hprev. rewrite Hprev in Horder.
    apply orb_false_iff in Horder as [Hk Hs]. destruct (decide (k = z.1)) as [->|Hne].
    + right. split; [done|]. cbn. rewrite bool_decide_eq_true_2 in Hs by done. cbn in Hs. by apply Z.leb_gt in Hs.
    + left. cbn. unfold ltb in *. destruct (cmp z.1 k) eqn:Ec; [by apply cmp_eq in Ec|done|].
      apply cmp_gt_lt in Ec. by rewrite Ec in Hk.
  - by rewrite app_assoc, last_snoc.
  - done.
  - intros r [Hr| ->%list_elem_of_singleton]%elem_of_app; [by apply Hfr|done].
  - by rewrite last_snoc.
  - rewrite Hfirst. by destruct rs.
  - by rewrite last_snoc.
  - intros r [Hr| ->%list_elem_of_singleton]%elem_of_app; [by apply Hbound|done].
  - cbn [sequence_min]. intros r [Hr| ->%list_elem_of_singleton]%elem_of_app; [specialize (Hold r Hr); lia|cbn; lia].
Qed.

Lemma validate_rows_spec d g prior n rs st st' :
  scanned d g prior rs st → try_fold (validate_row d g) st (seq (length rs) n) = Ok st' →
  ∃ rs', scanned d g prior rs' st' ∧ length rs' = (length rs + n)%nat.
Proof.
  revert rs st. induction n as [|n IH]; intros rs st Hst; cbn [seq try_fold].
  { intros [= <-]. exists rs. split; [done|lia]. }
  destruct (validate_row d g st (length rs)) as [st1|] eqn:E; [|done]. intros Hfold.
  destruct (validate_row_spec _ _ _ _ _ _ Hst E) as [r Hr].
  destruct (IH (rs ++ [r]) st1 Hr) as (rs' & Hrs' & Hlen).
  - by rewrite length_app, Nat.add_1_r.
  - exists rs'. split; [done|]. rewrite length_app in Hlen. cbn in Hlen. lia.
Qed.

Definition last_seen (rows : list row) : option (key * Z) := (λ r : row, (r.1, sequence r.2)) <$> last rows.

Lemma validate_group_spec seg prior whole i group whole' :
  row_groups seg !! i = Some group → 0 ≤ group_row_count group ∧ 0 ≤ unique_key_count group →
  rows_sorted prior → previous whole = last_seen prior → validate_group seg whole (i, group) = Ok whole' →
  ∃ rs, group_holds seg i group rs ∧ rows_sorted (prior ++ rs) ∧ previous whole' = last_seen (prior ++ rs)
    ∧ ∀ r, r ∈ rs → minimum_sequence (descriptor seg) ≤ sequence r.2 ≤ maximum_segment_sequence (descriptor seg).
Proof.
  intros Hi [Hcount Hunique] Hsort Hprev. unfold validate_group, read_row_group_uncached. rewrite Hi. cbn [ok_or].
  destruct (load_row_group seg i) as [g|] eqn:Eload; [|done].
  destruct (validate_offsets _ _ _ SEGMENT_MAX_KEY_BYTES _); [|done].
  destruct (validate_offsets _ _ _ _ true); [|done]. destruct (validate_validity _ _); [|done].
  destruct (filter_new (unique_key_count group)) as [f|] eqn:Ef; [|done].
  destruct (try_fold _ _ _) as [[whole1 part]|] eqn:Efold; [|done].
  destruct (validate_rows_spec (descriptor seg) g prior (Z.to_nat (group_row_count group)) [] (whole, group_scan_new f) (whole1, part))
    as (rs & Hrs & Hlen); [|exact Efold|].
  { constructor; cbn; rewrite ?app_nil_r; try done; try by intros r ?%not_elem_of_nil. by apply (filter_new_nonempty (unique_key_count group)). }
  destruct Hrs as [Hcol Hs Hp _ Hfil _ Hfirst Hlast Hb Hold]. cbn [fst snd] in *.
  match goal with |- (if ?b then _ else _) = _ → _ => destruct b eqn:Estat; [done|] end.
  match goal with |- (if ?b then _ else _) = _ → _ => destruct b eqn:Efilter; [done|] end.
  destruct (checked_add 64 _ _); cbn [ok_or]; [|done]. intros [= <-]. cbn [previous].
  rewrite !orb_false_iff, !negb_false_iff, !bool_decide_eq_true in Estat.
  destruct Estat as ((((((((Ef1 & El1) & _) & _) & Emin%Z.eqb_eq) & _) & _) & _) & _).
  apply orb_false_iff in Efilter as [_ Eq%negb_false_iff%bool_decide_eq_true].
  exists rs. split_and!; [|done|done|done]. constructor.
  - by exists g.
  - unfold len. rewrite Hlen. cbn. lia.
  - congruence.
  - congruence.
  - by rewrite <-Eq.
  - rewrite Emin. exact Hold.
Qed.

(** The groups validated so far. *)
Lemma validate_groups_spec seg done_ groups gs whole whole' :
  row_groups seg = done_ ++ groups → length gs = length done_ →
  Forall (λ g, 0 ≤ group_row_count g ∧ 0 ≤ unique_key_count g) (row_groups seg) →
  (∀ i group rs, done_ !! i = Some group → gs !! i = Some rs → group_holds seg i group rs) →
  rows_sorted (concat gs) → previous whole = last_seen (concat gs) →
  (∀ r, r ∈ concat gs → minimum_sequence (descriptor seg) ≤ sequence r.2 ≤ maximum_segment_sequence (descriptor seg)) →
  try_fold (validate_group seg) whole (zip (seq (length done_) (length groups)) groups) = Ok whole' →
  ∃ gs', length gs' = length (row_groups seg)
    ∧ (∀ i group rs, row_groups seg !! i = Some group → gs' !! i = Some rs → group_holds seg i group rs)
    ∧ rows_sorted (concat gs')
    ∧ ∀ r, r ∈ concat gs' → minimum_sequence (descriptor seg) ≤ sequence r.2 ≤ maximum_segment_sequence (descriptor seg).
Proof.
  revert done_ gs whole. induction groups as [|group groups IH]; intros done_ gs whole Heq Hlen Hcounts Hholds Hsort Hprev Hb.
  { intros _. rewrite app_nil_r in Heq. exists gs. rewrite Heq. split_and!; done. }
  cbn [length seq]. change (zip (length done_ :: ?l) (group :: groups)) with ((length done_, group) :: zip l groups).
  cbn [try_fold].
  assert (row_groups seg !! length done_ = Some group) as Hat by (by rewrite Heq, list_lookup_middle).
  destruct (validate_group seg whole (length done_, group)) as [whole1|] eqn:E; [|done]. intros Hfold.
  destruct (validate_group_spec seg (concat gs) whole (length done_) group whole1) as (rs & Hrs & Hsort' & Hprev' & Hb'); try done.
  { eapply Forall_forall in Hcounts; [exact Hcounts|]. by eapply list_elem_of_lookup_2. }
  apply (IH (done_ ++ [group]) (gs ++ [rs]) whole1); rewrite ?length_app, ?concat_app; cbn [length concat]; rewrite ?app_nil_r;
    rewrite ?Nat.add_1_r.
  - by rewrite <-app_assoc.
  - lia.
  - done.
  - intros i g r Hi Hr. apply lookup_snoc_Some in Hi as [[Hlt Hi]|[-> <-]].
    + apply (Hholds i); [done|]. rewrite lookup_app_l in Hr by lia. done.
    + rewrite <-Hlen, list_lookup_middle in Hr by done. by simplify_eq.
  - done.
  - done.
  - intros r [Hr|Hr]%elem_of_app; auto.
  - exact Hfold.
Qed.

Lemma head_concat (gs : list (list row)) rs f :
  head gs = Some rs → fst <$> head rs = Some f → fst <$> head (concat gs) = Some f.
Proof. destruct gs as [|x gs]; [done|]. cbn. intros [= ->]. by destruct rs. Qed.
Lemma last_concat (gs : list (list row)) rs f :
  last gs = Some rs → fst <$> last rs = Some f → fst <$> last (concat gs) = Some f.
Proof.
  intros [l ->]%last_Some. rewrite concat_app. cbn. rewrite app_nil_r, last_app. by destruct (last rs).
Qed.

Lemma validation_sound seg :
  index_ok seg → (∀ b, probe seg b = Ok tt) → validate_all_pages seg = Ok tt → ∃ gs, segment_holds seg gs.
Proof.
  intros [Hapart Hcounts Hfirst Hlast] Hprobe. unfold validate_all_pages.
  destruct (try_fold _ _ _) as [whole|] eqn:Efold; [|done]. intros _.
  match type of Efold with try_fold _ ?start _ = _ =>
    destruct (validate_groups_spec seg [] (row_groups seg) [] start whole) as (gs & Hlen & Hholds & Hsort & Hb); try done end.
  { constructor. }
  { by intros r ?%not_elem_of_nil. }
  exists gs. constructor; try done. intros r Hr. split_and!; [| |by apply Hb..].
  - destruct (row_groups seg) as [|g0 l] eqn:E; [done|]. cbn in Hfirst. destruct gs as [|rs gs]; [done|].
    destruct (Hholds 0%nat g0 rs eq_refl eq_refl) as [_ _ Hf _ _]. simplify_eq. rewrite <-Hfirst.
    eapply head_bound; [exact Hsort|by eapply head_concat|done].
  - destruct (last (row_groups seg)) as [g|] eqn:E; [|done]. cbn in Hlast. rewrite last_lookup in E.
    destruct (lookup_lt_is_Some_2 gs (Nat.pred (length gs))) as [rs Hrs].
    { rewrite Hlen. apply lookup_lt_Some in E. lia. }
    rewrite <-Hlen in E. destruct (Hholds _ g rs E Hrs) as [_ _ _ Hl _]. simplify_eq. rewrite <-Hlast.
    eapply last_bound; [exact Hsort| |done]. eapply last_concat; [|done]. by rewrite last_lookup.
Qed.

(** * A concrete segment *)

Definition text_row (k : string) (s : Z) (v : option string) : row :=
  (str_bytes k, {| sequence := s; value := str_bytes <$> v |}).
Definition sample_groups : list (list row) :=
  [[text_row "apple" 1 (Some "red"); text_row "apple" 4 None; text_row "fig" 2 (Some "")];
   [text_row "pear" 3 (Some "green"); text_row "pear" 5 (Some "ripe")]].
Definition sample_builder (rs : list row) : RowGroupBuilder :=
  match try_fold (λ b (r : row), builder_append b r.1 r.2) (builder_new 0) rs with
  | Ok b => b | Err _ => builder_new 0 end.
Definition sample_page (b : RowGroupBuilder) (kind : PageKind) : PageDescriptor :=
  {| page_kind := kind; page_compression := NoCompression; page_row_start := 0;
     page_row_count := Z.of_nat (builder_rows b); page_null_count := b_null_count b; page_offset := 0;
     physical_bytes := len (builder_page b kind); logical_bytes := len (builder_page b kind);
     statistic_min := match kind with
       | KeyOffsets | KeyData => b_minimum_key_bytes b
       | SequenceValues => foldr Z.min u64_max (b_sequences b)
       | ValueValidity => 0
       | _ => b_minimum_value_bytes b end;
     statistic_max := match kind with
       | KeyOffsets | KeyData => b_maximum_key_bytes b
       | SequenceValues => foldr Z.max 0 (b_sequences b)
       | ValueValidity => 1
       | _ => b_maximum_value_bytes b end;
     page_digest := [] |}.
Definition sample_group (rs : list row) : RowGroupDescriptor :=
  let b := sample_builder rs in
  {| group_row_start := 0; group_row_count := Z.of_nat (builder_rows b); unique_key_count := b_unique_key_count b;
     group_first_key := b_first_key b; group_last_key := b_last_key b; pages := sample_page b;
     group_filter := match builder_filter b with Ok f => f | Err _ => {| words := [] |} end |}.
Definition sample_segment : Segment :=
  {| descriptor := {| segment_id := ""; segment_level := 0; format_version := SEGMENT_FORMAT_VERSION;
       schema_digest := ""; key_codec_digest := ""; page_format_digest := "";
       first_key := str_bytes "apple"; last_key := str_bytes "pear"; minimum_sequence := 1;
       maximum_segment_sequence := 5; entries := 5; segment_bytes := 0; segment_checksum := "" |};
     row_groups := map sample_group sample_groups;
     load_page := λ i kind, match sample_groups !! i with
       | Some rs => Ok (builder_page (sample_builder rs) kind)
       | None => Err (InvalidSegment "absent") end;
     probe := λ _, Ok tt; address := 1 |}.

Lemma sample_index_ok : index_ok sample_segment.
Proof.
  constructor; [| |vm_compute; reflexivity..].
  - repeat constructor.
  - repeat constructor; vm_compute; discriminate.
Qed.

Lemma point_read seg gs k q : segment_holds seg gs → segment_get_version seg k q = Ok (seen q (versions_of k (concat gs))).
Proof.
  intros H. destruct (select_version_spec seg gs k q H) as (found & Hsel & Hfound).
  unfold segment_get_version. rewrite Hsel. destruct found as [sel|], (seen q _) as [v|]; cbn in Hfound |- *; try done.
  destruct Hfound as (_ & Hs & ->). rewrite Hs. by destruct v.
Qed.

(** * The claims *)

(** Point reads are exact.  Over a segment that holds rows, the read of a key at a
    sequence, by binary search over the groups, filter and binary search over the rows,
    returns the newest version of the key at or below the sequence, with its value or its
    deletion, and nothing exactly when there is none; the three forms of the read agree. *)
Theorem segment_point_read_exact seg gs k q :
  segment_holds seg gs →
  let v := seen q (versions_of k (concat gs)) in
  segment_get_version seg k q = Ok v ∧ get_sequence seg k q = Ok (sequence <$> v) ∧ segment_get seg k q = Ok (v ≫= value).
Proof.
  intros H. destruct (select_version_spec seg gs k q H) as (found & Hsel & Hfound).
  pose proof (point_read seg gs k q H) as Hv. split_and!; [done| |].
  - unfold get_sequence. rewrite Hsel. destruct found as [sel|], (seen q _) as [v|]; cbn in Hfound |- *; try done.
    by destruct Hfound as (_ & -> & _).
  - unfold segment_get. rewrite Hv. by destruct (seen q _).
Qed.
Lemma segment_point_read_exact_witness :
  ∃ gs, segment_get_version sample_segment (str_bytes "pear") 4 = Ok (seen 4 (versions_of (str_bytes "pear") (concat gs)))
    ∧ segment_get sample_segment (str_bytes "pear") 4 = Ok (Some (str_bytes "green")).
Proof.
  destruct (validation_sound sample_segment sample_index_ok) as [gs H]; [done|vm_compute; reflexivity|].
  exists gs. split; [apply (segment_point_read_exact sample_segment gs (str_bytes "pear") 4 H)|vm_compute; reflexivity].
Defined.

(** Range reads are exact.  The rows visible in a half-open range, and in any list of
    ascending disjoint ranges read group by group, come in strictly ascending key order and
    are exactly, for each key inside, the newest version at or below the sequence. *)
Theorem segment_range_read_exact seg gs q :
  segment_holds seg gs →
  (∀ start end_, ∃ rows, segment_visible_from seg start end_ q = Ok rows ∧ bt_sorted rows
     ∧ ∀ k, bt_get k rows = if key_in_range start end_ k then seen q (versions_of k (concat gs)) else None)
  ∧ (∀ ranges, ranges_ok ranges → ∃ rows, visible_ranges seg ranges q = Ok rows ∧ bt_sorted rows
     ∧ ∀ k, bt_get k rows = if in_some_range ranges k then seen q (versions_of k (concat gs)) else None).
Proof.
  intros H. split.
  - intros start end_. by apply segment_visible_from_spec.
  - intros ranges Hr. by apply visible_ranges_spec.
Qed.
Lemma segment_range_read_exact_witness :
  ∃ gs rows, segment_visible_from sample_segment (str_bytes "b") None 4 = Ok rows
    ∧ ∀ k, bt_get k rows = if key_in_range (str_bytes "b") None k then seen 4 (versions_of k (concat gs)) else None.
Proof.
  destruct (validation_sound sample_segment sample_index_ok) as [gs H]; [done|vm_compute; reflexivity|].
  exists gs. destruct (proj1 (segment_range_read_exact sample_segment gs 4 H) (str_bytes "b") None) as (rows & Hr & _ & Hget).
  exists rows. split; [exact Hr|exact Hget].
Defined.

(** Reading a cursor to its end. *)
Fixpoint drain (fuel : nat) (c : SegmentRecordCursor) : result Error (option (list row)) :=
  match fuel with
  | O => Ok None
  | S fuel =>
    let? (c, out) := next_record c in
    match out with
    | None => Ok (Some [])
    | Some r => let? rest := drain fuel c in Ok ((record_row r ::.) <$> rest)
    end
  end.

Lemma drain_S fuel c :
  drain (S fuel) c = let? (c, out) := next_record c in
    match out with
    | None => Ok (Some [])
    | Some r => let? rest := drain fuel c in Ok ((record_row r ::.) <$> rest)
    end.
Proof. done. Qed.

(** The record cursor, which compaction reads, terminates and returns every row of the
    segment exactly once, in key and sequence order: the passes over the row groups never run
    out and one read past the last row reports the end. *)
Theorem segment_cursor_drains seg gs :
  segment_holds seg gs → drain (S (length (concat gs))) (record_cursor seg) = Ok (Some (concat gs)) ∧ rows_sorted (concat gs).
Proof.
  intros H. split; [|apply H].
  assert (∀ rest c, segment_holds (cursor_segment c) gs → cursor_at gs c rest →
    drain (S (length rest)) c = Ok (Some rest)) as Hdrain.
  { induction rest as [|r rest IH]; intros c Hc Hat; cbn [length]; rewrite drain_S;
      destruct (next_record_spec gs c _ Hc Hat) as (c' & out & -> & Hseg & Hout).
    - by destruct Hout as [-> _].
    - destruct Hout as [Hr Hat']. destruct out as [out|]; [|done]. cbn in Hr. simplify_eq.
      rewrite IH; [done|by rewrite Hseg|done]. }
  apply (Hdrain _ (record_cursor seg)); [done|apply record_cursor_at].
Qed.
Lemma segment_cursor_drains_witness :
  ∃ gs, drain (S (length (concat gs))) (record_cursor sample_segment) = Ok (Some (concat gs)).
Proof.
  destruct (validation_sound sample_segment sample_index_ok) as [gs H]; [done|vm_compute; reflexivity|].
  exists gs. apply (segment_cursor_drains sample_segment gs H).
Defined.
