(* ===== verification/SegmentFile.v ===== *)
(** The segment file ([rrd-lsm]: segment/format.rs, and opening a segment in segment/mod.rs).

    The encoder cuts a table into row groups without splitting the versions of a key, writes
    the six pages of each group aligned and optionally compressed, then an index of the groups
    with their filters, a header and a checksum footer.  Opening a file checks the checksum,
    parses header and index, and reads pages through their digests.

    SHA-256 ([ring]) and LZ4 ([lz4_flex]) are third-party code: they are the classes [Ring] and
    [Lz4], with their documented behaviour as laws.

    This file has the definitions, and the parser's side of the round trip: a file laid out as
    the format says is accepted, and the parser returns the descriptors it was written from.
    The encoder's side is in SegmentWrite. *)

From S2P Require Import Prelude Machine BTree Ident Digest LsmError Batch RecoveryBudget Wal Memtable Versions SegmentFormat Segment.
Open Scope Z_scope.

(** The [ring] digest. *)
Class Ring := { ring_sha256 : list byte → list byte }.
Class RingLaws `{Ring} : Prop := { ring_length : ∀ l, length (ring_sha256 l) = 32%nat }.
(** The [lz4_flex] block codec: [compress_into] the scratch buffer, [decompress_into] a buffer
    of a given length. *)
Class Lz4 := {
  lz4_compress : list byte → result string (list byte);
  lz4_decompress : list byte → Z → result string (list byte)
}.
Class Lz4Laws `{Lz4} : Prop := {
  lz4_roundtrip : ∀ l c, lz4_compress l = Ok c → lz4_decompress c (len l) = Ok l;
  lz4_token : ∀ l c, lz4_compress l = Ok c → c ≠ []
}.

(** * Constants *)

(** lsm/segment/format.rs:10-31 the constants of the file *)
Definition SEGMENT_MAGIC : list byte := str_bytes "RRDSEG06".
Definition INDEX_MAGIC : list byte := str_bytes "RRDIX006".
Definition PAGE_ALIGNMENT : Z := 64.
Definition SEGMENT_HEADER_BYTES : Z := 256.
Definition INDEX_HEADER_BYTES : Z := 32.
Definition ROW_GROUP_HEADER_BYTES : Z := 32.
Definition PAGE_DESCRIPTOR_BYTES : Z := 96.
Definition FOOTER_BYTES : Z := 64.
Definition MAX_SEGMENT_BYTES : Z := 1024 * 1024 * 1024.
Definition MAX_INDEX_BYTES : Z := 64 * 1024 * 1024.
Definition COMPRESSION_BASIS_POINTS : Z := 10000.
Definition FILTER_FORMAT_VERSION : Z := 1.
Definition PAGES_PER_GROUP : Z := 6.

(** lsm/segment/format.rs:37-42 the digests of schema, key codec and page format *)
Definition SEGMENT_SCHEMA_DIGEST : string := "7f9ffd70086074178df404606f44560f7d04546ff21ae49e802935563e5c8861".
Definition SEGMENT_KEY_CODEC_DIGEST : string := "542c8fdcc2419e2b8de3b54d85e4d1fc168d4c8705acceaa1b196883a20938da".
Definition SEGMENT_PAGE_FORMAT_DIGEST : string := "250248477e88f988e5b8a5eecbb5e71a31fd57dabab9dd42d24e1bd58982a20d".

(** * Policies *)

(** lsm/segment/format.rs:48-54 SegmentCompressionPolicy *)
Inductive SegmentCompressionPolicy :=
| PolicyNone
| AdaptiveLz4 (minimum_savings_basis_points maximum_page_logical_bytes : Z).

(** lsm/segment/format.rs:69-84 SegmentCompressionPolicy::validate *)
Definition compression_policy_validate (self : SegmentCompressionPolicy) : result Error SegmentCompressionPolicy :=
  match self with
  | PolicyNone => Ok self
  | AdaptiveLz4 savings maximum =>
    if ((1 <=? savings) && (savings <? COMPRESSION_BASIS_POINTS) && (1 <=? maximum) && (maximum <=? MAX_SEGMENT_BYTES))%bool
    then Ok self
    else Err (InvalidConfiguration "adaptive LZ4 savings must be 1..=9999 basis points and the logical page limit must be 1 byte..=1 GiB")
  end.

(** lsm/segment/format.rs:135-138 SegmentRowGroupBudget *)
Record SegmentRowGroupBudget := { max_rows : Z; target_bytes : Z }.
(** lsm/segment/format.rs:140-147 Default for SegmentRowGroupBudget *)
Definition SegmentRowGroupBudget_default : SegmentRowGroupBudget :=
  {| max_rows := DEFAULT_ROW_GROUP_MAX_ROWS; target_bytes := DEFAULT_ROW_GROUP_TARGET_BYTES |}.
(** lsm/segment/format.rs:150-162 SegmentRowGroupBudget::validate *)
Definition budget_validate (self : SegmentRowGroupBudget) : result Error SegmentRowGroupBudget :=
  if ((max_rows self =? 0) || (2 ^ 32 - 1 <? max_rows self) || (target_bytes self =? 0)
      || (MAX_SEGMENT_BYTES <? target_bytes self))%bool
  then Err (InvalidConfiguration "segment row-group target bytes must fit within the segment limit and max rows must fit u32; both must be non-zero")
  else Ok self.

(** * Page kinds and compression codes *)

(** lsm/segment/format.rs:177-184 PageKind::ORDERED *)
Definition ORDERED : list PageKind := [KeyOffsets; KeyData; SequenceValues; ValueValidity; ValueOffsets; ValueData].
(** lsm/segment/format.rs:186-196 PageKind::from_byte *)
Definition kind_from_byte (value : byte) : result Error PageKind :=
  match value with
  | x01 => Ok KeyOffsets | x02 => Ok KeyData | x03 => Ok SequenceValues
  | x04 => Ok ValueValidity | x05 => Ok ValueOffsets | x06 => Ok ValueData
  | other => invalid_segment ("unknown v6 page kind " +:+ pretty (u8_val other))
  end.
(** lsm/segment/format.rs:198-204 PageKind::column *)
Definition column (self : PageKind) : Z :=
  match self with KeyOffsets | KeyData => 1 | SequenceValues => 2 | ValueValidity | ValueOffsets | ValueData => 3 end.
(** lsm/segment/format.rs:206-212 PageKind::buffer_kind *)
Definition buffer_kind (self : PageKind) : Z :=
  match self with KeyOffsets | ValueOffsets => 2 | KeyData | SequenceValues | ValueData => 3 | ValueValidity => 1 end.
(** lsm/segment/format.rs:214-219 PageKind::logical_type *)
Definition logical_type (self : PageKind) : Z := match self with SequenceValues => 2 | _ => 1 end.
(** lsm/segment/format.rs:221-228 PageKind::physical_type *)
Definition physical_type (self : PageKind) : Z :=
  match self with KeyOffsets | ValueOffsets => 2 | SequenceValues => 3 | KeyData | ValueData => 4 | ValueValidity => 1 end.

(** lsm/segment/format.rs:115-119 PageCompression, the discriminant *)
Definition compression_byte (self : PageCompression) : byte := match self with NoCompression => x00 | Lz4Block => x01 end.
(** lsm/segment/format.rs:122-128 PageCompression::from_byte *)
Definition compression_from_byte (value : byte) : result Error PageCompression :=
  match value with
  | x00 => Ok NoCompression
  | x01 => Ok Lz4Block
  | other => invalid_segment ("unknown v6 page compression codec " +:+ pretty (u8_val other))
  end.

#[export] Instance page_kind_eq_dec : EqDecision PageKind.
Proof. solve_decision. Defined.

(** lsm/segment/format.rs:1305-1319 compression_saves; the products fit 128 bits. *)
Definition compression_saves (logical stored minimum_savings : Z) : result Error bool :=
  if logical <=? stored then Ok false
  else
    let? retained := ok_or (checked_sub COMPRESSION_BASIS_POINTS minimum_savings)
      (InvalidSegment "v6 compression threshold is invalid") in
    Ok (stored * COMPRESSION_BASIS_POINTS <=? logical * retained).

(** lsm/segment/format.rs:1321-1351 validate_page_compression *)
Definition validate_page_compression (policy : SegmentCompressionPolicy) (compression : PageCompression)
    (physical logical : Z) : result Error unit :=
  match policy, compression with
  | _, NoCompression =>
    if physical =? logical then Ok tt else invalid_segment "v6 raw page has different physical and logical lengths"
  | PolicyNone, Lz4Block => invalid_segment "v6 none policy cannot contain an LZ4 page"
  | AdaptiveLz4 savings maximum, Lz4Block =>
    if ((0 <? physical) && (logical <=? maximum))%bool then
      let? saves := compression_saves logical physical savings in
      if saves then Ok tt else invalid_segment "v6 LZ4 page violates its authenticated lengths or saving policy"
    else invalid_segment "v6 LZ4 page violates its authenticated lengths or saving policy"
  end.

(** * Encoding *)

(** [copy_from_slice] into the range that starts at an offset. *)
Definition overwrite (output : list byte) (offset : nat) (bytes : list byte) : list byte :=
  take offset output ++ bytes ++ drop (offset + length bytes) output.

(** lsm/segment/format.rs:1440-1443 align *)
Definition align (output : list byte) : list byte :=
  output ++ replicate (Z.to_nat ((PAGE_ALIGNMENT - len output mod PAGE_ALIGNMENT) mod PAGE_ALIGNMENT)) x00.

(** lsm/segment/format.rs:1483-1491 encode_digest *)
Definition encode_digest (digest : list byte) : string := bytes_str (flat_map hex_byte digest).

(** lsm/segment/format.rs:1493-1509 decode_fixed_digest, of the lowercase digests above *)
Definition decode_fixed_digest (encoded : string) : list byte := default [] (from_hex_pairs (str_bytes encoded)).

(** lsm/segment/format.rs:393-399 SegmentWriteEvidence, the counters that are not capacities *)
Record SegmentWriteEvidence := {
  raw_page_count : Z; compressed_page_count : Z; stored_page_bytes : Z; logical_page_bytes : Z
}.
Definition SegmentWriteEvidence_default : SegmentWriteEvidence :=
  {| raw_page_count := 0; compressed_page_count := 0; stored_page_bytes := 0; logical_page_bytes := 0 |}.

(** lsm/segment/format.rs:247-285 PageWriteMetadata with its statistics *)
Record PageWriteMetadata := {
  write_kind : PageKind; write_row_start : Z; write_row_count : Z; write_nulls : Z; write_minimum : Z; write_maximum : Z
}.

Section Encode.
Context `{Ring} `{Lz4}.

(** lsm/segment/format.rs:1166-1206 append_page, what is stored; reserving scratch succeeds. *)
Definition stored_page (policy : SegmentCompressionPolicy) (bytes : list byte) : result Error (PageCompression * list byte) :=
  match policy with
  | PolicyNone => Ok (NoCompression, bytes)
  | AdaptiveLz4 savings maximum =>
    if (negb (len bytes =? 0) && (len bytes <=? maximum))%bool then
      match lz4_compress bytes with
      | Err reason => invalid_segment ("v6 LZ4 encode failed: " +:+ reason)
      | Ok compressed =>
        let? saves := compression_saves (len bytes) (len compressed) savings in
        if saves then Ok (Lz4Block, compressed) else Ok (NoCompression, bytes)
      end
    else Ok (NoCompression, bytes)
  end.

(** lsm/segment/format.rs:1149-1241 append_page *)
Definition append_page (policy : SegmentCompressionPolicy) (metadata : PageWriteMetadata) (bytes : list byte)
    (st : list byte * SegmentWriteEvidence) : result Error (list byte * SegmentWriteEvidence * PageDescriptor) :=
  let '(output, evidence) := st in
  let output := align output in
  let offset := len output in
  let? logical := ok_or (checked_add 64 (logical_page_bytes evidence) (len bytes))
    (InvalidSegment "v6 logical page evidence overflow") in
  let? (compression, stored) := stored_page policy bytes in
  let output := output ++ stored in
  let? stored_total := ok_or (checked_add 64 (stored_page_bytes evidence) (len stored))
    (InvalidSegment "v6 stored page evidence overflow") in
  let? (raw, compressed) :=
    match compression with
    | NoCompression =>
      let? raw := ok_or (checked_add 64 (raw_page_count evidence) 1) (InvalidSegment "v6 raw page count overflow") in
      Ok (raw, compressed_page_count evidence)
    | Lz4Block =>
      let? n := ok_or (checked_add 64 (compressed_page_count evidence) 1)
        (InvalidSegment "v6 compressed page count overflow") in
      Ok (raw_page_count evidence, n)
    end in
  Ok (output,
      {| raw_page_count := raw; compressed_page_count := compressed; stored_page_bytes := stored_total;
         logical_page_bytes := logical |},
      {| page_kind := write_kind metadata; page_compression := compression; page_row_start := write_row_start metadata;
         page_row_count := write_row_count metadata; page_null_count := write_nulls metadata; page_offset := offset;
         physical_bytes := len stored; logical_bytes := len bytes; statistic_min := write_minimum metadata;
         statistic_max := write_maximum metadata; page_digest := ring_sha256 stored |}).

(** [Iterator::min] and [Iterator::max] of a list that is not empty. *)
Definition minimum_of (l : list Z) : Z := match l with [] => 0 | x :: l => fold_left Z.min l x end.
Definition maximum_of (l : list Z) : Z := match l with [] => 0 | x :: l => fold_left Z.max l x end.

(** lsm/segment/format.rs:716-800 append_row_group, what describes each page *)
Definition page_metadata (b : RowGroupBuilder) (row_count : Z) (kind : PageKind) : PageWriteMetadata :=
  let '(nulls, minimum, maximum) :=
    match kind with
    | KeyOffsets | KeyData => (0, b_minimum_key_bytes b, b_maximum_key_bytes b)
    | SequenceValues => (0, minimum_of (b_sequences b), maximum_of (b_sequences b))
    | ValueValidity => (b_null_count b, 0, 1)
    | ValueOffsets | ValueData => (b_null_count b, b_minimum_value_bytes b, b_maximum_value_bytes b)
    end in
  {| write_kind := kind; write_row_start := b_row_start b; write_row_count := row_count; write_nulls := nulls;
     write_minimum := minimum; write_maximum := maximum |}.

(** lsm/segment/format.rs:693-814 append_row_group *)
Definition append_row_group (policy : SegmentCompressionPolicy) (b : RowGroupBuilder)
    (st : list byte * SegmentWriteEvidence) : result Error (list byte * SegmentWriteEvidence * RowGroupDescriptor) :=
  if 2 ^ 32 <=? Z.of_nat (builder_rows b) then invalid_segment "v6 row-group count exceeds u32"
  else
    let row_count := Z.of_nat (builder_rows b) in
    let? f := builder_filter b in
    let put kind := append_page policy (page_metadata b row_count kind) (builder_page b kind) in
    let? (output, evidence, p1) := put KeyOffsets st in
    let? (output, evidence, p2) := put KeyData (output, evidence) in
    let? (output, evidence, p3) := put SequenceValues (output, evidence) in
    let? (output, evidence, p4) := put ValueValidity (output, evidence) in
    let? (output, evidence, p5) := put ValueOffsets (output, evidence) in
    let? (output, evidence, p6) := put ValueData (output, evidence) in
    Ok (output, evidence,
        {| group_row_start := b_row_start b; group_row_count := row_count; unique_key_count := b_unique_key_count b;
           group_first_key := b_first_key b; group_last_key := b_last_key b;
           pages := λ kind, match kind with
             | KeyOffsets => p1 | KeyData => p2 | SequenceValues => p3 | ValueValidity => p4
             | ValueOffsets => p5 | ValueData => p6 end;
           group_filter := f |}).

(** lsm/segment/format.rs:575-581 encode_versions, the variables of the loop *)
Record Encoder := {
  enc_output : list byte; enc_evidence : SegmentWriteEvidence; enc_groups : list RowGroupDescriptor;
  enc_current : RowGroupBuilder
}.

(** lsm/segment/format.rs:601-608 encode_versions, closing the row group *)
Definition close_group (policy : SegmentCompressionPolicy) (st : Encoder) : result Error Encoder :=
  let? (output, evidence, group) := append_row_group policy (enc_current st) (enc_output st, enc_evidence st) in
  Ok {| enc_output := output; enc_evidence := evidence; enc_groups := enc_groups st ++ [group]; enc_current := enc_current st |}.

(** lsm/segment/format.rs:583-591 encode_versions, the size of the rows of one key *)
Definition key_bytes (k : key) (vs : list VersionedValue) : result Error Z :=
  try_fold (λ total version,
    let v := value_or_empty version in
    do? validate_key_value k v in
    ok_or (match checked_add 64 total (len k) with
           | Some total => match checked_add 64 total (len v) with Some total => checked_add 64 total 24 | None => None end
           | None => None
           end) (InvalidSegment "v6 row-group estimate overflow")) 0 vs.

(** lsm/segment/format.rs:582-613 encode_versions, one key *)
Definition encode_key (budget : SegmentRowGroupBudget) (policy : SegmentCompressionPolicy) (st : Encoder)
    (row : key * list VersionedValue) : result Error Encoder :=
  let '(k, vs) := row in
  let? bytes := key_bytes k vs in
  let rows := Z.of_nat (builder_rows (enc_current st)) in
  let? st :=
    if ((0 <? rows) && ((max_rows budget <? saturating_add 64 rows (len vs))
        || (target_bytes budget <? saturating_add 64 (estimated_bytes (enc_current st)) bytes)))%bool
    then
      let? next := ok_or (checked_add 64 (b_row_start (enc_current st)) rows) (InvalidSegment "v6 row offset overflow") in
      let? st := close_group policy st in
      Ok {| enc_output := enc_output st; enc_evidence := enc_evidence st; enc_groups := enc_groups st;
            enc_current := builder_reset (enc_current st) next |}
    else Ok st in
  let? current := try_fold (λ b version, builder_append b k version) (enc_current st) vs in
  Ok {| enc_output := enc_output st; enc_evidence := enc_evidence st; enc_groups := enc_groups st; enc_current := current |}.

(** lsm/segment/format.rs:1243-1261 encode_page_descriptor *)
Definition encode_page_descriptor (p : PageDescriptor) : list byte :=
  let k := page_kind p in
  [u8_of (Z.of_nat (page_ordinal k)); u8_of (column k); u8_of (buffer_kind k); u8_of (logical_type k);
   u8_of (physical_type k); x00; compression_byte (page_compression p); x00]
  ++ le_bytes 8 (page_row_start p) ++ le_bytes 4 (page_row_count p) ++ le_bytes 4 (page_null_count p)
  ++ le_bytes 8 (page_offset p) ++ le_bytes 8 (physical_bytes p) ++ le_bytes 8 (logical_bytes p)
  ++ le_bytes 8 (statistic_min p) ++ le_bytes 8 (statistic_max p) ++ page_digest p.

(** lsm/segment/format.rs:626-634 encode_versions, the index header *)
Definition index_header (groups : list RowGroupDescriptor) : list byte :=
  INDEX_MAGIC ++ le_bytes 4 (len groups) ++ le_bytes 2 PAGES_PER_GROUP ++ le_bytes 2 ROW_GROUP_HEADER_BYTES
  ++ le_bytes 2 PAGE_DESCRIPTOR_BYTES ++ [u8_of FILTER_FORMAT_VERSION; u8_of FILTER_BITS_PER_KEY; u8_of (Z.of_nat FILTER_HASH_FUNCTIONS)]
  ++ replicate 11 x00.

(** lsm/segment/format.rs:635-654 encode_versions, the index entry of a group *)
Definition group_header (g : RowGroupDescriptor) : list byte :=
  le_bytes 8 (group_row_start g) ++ le_bytes 4 (group_row_count g) ++ le_bytes 4 (len (group_first_key g))
  ++ le_bytes 4 (len (group_last_key g)) ++ le_bytes 2 PAGES_PER_GROUP ++ replicate 2 x00
  ++ le_bytes 4 (unique_key_count g) ++ le_bytes 4 (len (words (group_filter g))).
Definition group_entry (g : RowGroupDescriptor) : list byte :=
  group_header g ++ group_first_key g ++ group_last_key g
  ++ concat (map (λ kind, encode_page_descriptor (page g kind)) ORDERED)
  ++ concat (map (le_bytes 8) (words (group_filter g))).

(** lsm/segment/format.rs:1029-1047 encode_compression_policy *)
Definition encode_compression_policy (output : list byte) (policy : SegmentCompressionPolicy) : list byte :=
  match policy with
  | PolicyNone =>
    overwrite (overwrite (overwrite (overwrite output 176 [x00]) 177 [x00]) 178 (le_bytes 2 0)) 180 (le_bytes 8 0)
  | AdaptiveLz4 savings maximum =>
    overwrite (overwrite (overwrite (overwrite output 176 [x01]) 177 [compression_byte Lz4Block]) 178 (le_bytes 2 savings))
      180 (le_bytes 8 maximum)
  end.

(** lsm/segment/format.rs:1094-1099 align_u64 *)
Definition align_u64 (value : Z) : result Error Z :=
  let? v := ok_or (checked_add 64 value (PAGE_ALIGNMENT - 1)) (InvalidSegment "v6 logical alignment overflow") in
  Ok (v / PAGE_ALIGNMENT * PAGE_ALIGNMENT).

(** The pages of all groups in file order. *)
Definition all_pages (groups : list RowGroupDescriptor) : list PageDescriptor :=
  concat (map (λ g, map (page g) ORDERED) groups).

(** lsm/segment/format.rs:1071-1092 validate_logical_envelope *)
Definition validate_logical_envelope (groups : list RowGroupDescriptor) (index_bytes : Z) : result Error unit :=
  let? cursor := try_fold (λ cursor p,
      let? cursor := align_u64 cursor in
      ok_or (checked_add 64 cursor (logical_bytes p)) (InvalidSegment "v6 logical segment length overflow"))
    SEGMENT_HEADER_BYTES (all_pages groups) in
  let? cursor := align_u64 cursor in
  let? cursor := ok_or (match checked_add 64 cursor index_bytes with
                        | Some bytes => checked_add 64 bytes FOOTER_BYTES | None => None end)
    (InvalidSegment "v6 logical segment envelope overflow") in
  if MAX_SEGMENT_BYTES <? cursor then invalid_segment "v6 reconstructed logical segment exceeds the 1 GiB safety limit"
  else Ok tt.

(** lsm/segment/format.rs:386-390 EncodedSegment *)
Record EncodedSegment := { encoded_segment : list byte; encoded_checksum : string; write_evidence : SegmentWriteEvidence }.

(** lsm/segment/format.rs:555-570 encode_versions, counting the entries *)
Definition count_entries (versions : list (key * list VersionedValue)) : result Error (Z * Z * Z) :=
  try_fold (λ '(entries, minimum, maximum) version,
    let? entries := ok_or (checked_add 64 entries 1) (InvalidSegment "v6 entry count exceeds u64") in
    Ok (entries, Z.min minimum (sequence version), Z.max maximum (sequence version)))
    (0, u64_max, 0) (concat (map snd versions)).

(** lsm/segment/format.rs:663-680 encode_versions, filling in the header *)
Definition fill_header (output : list byte) (entries minimum maximum groups index_offset index_bytes : Z)
    (budget : SegmentRowGroupBudget) (policy : SegmentCompressionPolicy) : list byte :=
  let output := overwrite output 0 SEGMENT_MAGIC in
  let output := overwrite output 8 (le_bytes 2 SEGMENT_FORMAT_VERSION) in
  let output := overwrite output 10 (le_bytes 2 SEGMENT_HEADER_BYTES) in
  let output := overwrite output 12 (le_bytes 4 0) in
  let output := overwrite output 16 (le_bytes 8 entries) in
  let output := overwrite output 24 (le_bytes 8 minimum) in
  let output := overwrite output 32 (le_bytes 8 maximum) in
  let output := overwrite output 40 (le_bytes 4 groups) in
  let output := overwrite output 44 (le_bytes 2 PAGES_PER_GROUP) in
  let output := overwrite output 46 (le_bytes 2 PAGE_ALIGNMENT) in
  let output := overwrite output 48 (le_bytes 8 index_offset) in
  let output := overwrite output 56 (le_bytes 8 index_bytes) in
  let output := overwrite output 64 (decode_fixed_digest SEGMENT_SCHEMA_DIGEST) in
  let output := overwrite output 96 (decode_fixed_digest SEGMENT_KEY_CODEC_DIGEST) in
  let output := overwrite output 128 (decode_fixed_digest SEGMENT_PAGE_FORMAT_DIGEST) in
  let output := overwrite output 160 (le_bytes 8 (target_bytes budget)) in
  let output := overwrite output 168 (le_bytes 8 (max_rows budget)) in
  encode_compression_policy output policy.

(** lsm/segment/format.rs:548-691 encode_versions *)
Definition encode_versions (versions : list (key * list VersionedValue)) (budget : SegmentRowGroupBudget)
    (policy : SegmentCompressionPolicy) : result Error EncodedSegment :=
  let? budget := budget_validate budget in
  let? policy := compression_policy_validate policy in
  let? (entries, minimum, maximum) := count_entries versions in
  if entries =? 0 then invalid_segment "cannot write an empty segment"
  else
    let? st := try_fold (encode_key budget policy)
      {| enc_output := replicate (Z.to_nat SEGMENT_HEADER_BYTES) x00; enc_evidence := SegmentWriteEvidence_default;
         enc_groups := []; enc_current := builder_new 0 |} versions in
    let? st := if (0 <? builder_rows (enc_current st))%nat then close_group policy st else Ok st in
    let output := align (enc_output st) in
    let index_offset := len output in
    let? _ := try_fold (λ (u : unit) g, if 2 ^ 32 <=? len (words (group_filter g))
      then invalid_segment "v6 filter word count exceeds u32" else Ok tt) tt (enc_groups st) in
    let output := output ++ index_header (enc_groups st) ++ concat (map group_entry (enc_groups st)) in
    let index_bytes := len output - index_offset in
    if MAX_INDEX_BYTES <? index_bytes then invalid_segment "v6 index exceeds its bounded contract"
    else if MAX_SEGMENT_BYTES - FOOTER_BYTES <? len output
    then invalid_segment "encoded v6 segment exceeds the 1 GiB safety limit"
    else
      let output := fill_header output entries minimum maximum (len (enc_groups st)) index_offset index_bytes budget policy in
      do? validate_logical_envelope (enc_groups st) index_bytes in
      let checksum := encode_digest (ring_sha256 output) in
      Ok {| encoded_segment := output ++ str_bytes checksum; encoded_checksum := checksum; write_evidence := enc_evidence st |}.
End Encode.

(** * Parsing *)

(** lsm/segment/format.rs:1445-1452 slice *)
Definition slice_named (bytes : list byte) (offset length : Z) (name : string) : result Error (list byte) :=
  let? end_ := ok_or (checked_add 64 offset length) (InvalidSegment (name +:+ " range overflow")) in
  ok_or (slice_get bytes offset end_) (InvalidSegment ("truncated " +:+ name)).
(** lsm/segment/format.rs:1454-1458 read_u16 *)
Definition read_u16 (bytes : list byte) (offset : Z) : result Error Z :=
  let? field := slice_named bytes offset 2 "u16 field" in Ok (from_le field).
(** lsm/segment/format.rs:1460-1464 read_u32 *)
Definition read_u32 (bytes : list byte) (offset : Z) : result Error Z :=
  let? field := slice_named bytes offset 4 "u32 field" in Ok (from_le field).
(** lsm/segment/format.rs:1466-1470 read_u64 *)
Definition read_u64 (bytes : list byte) (offset : Z) : result Error Z :=
  let? field := slice_named bytes offset 8 "u64 field" in Ok (from_le field).

(** Seeking a file to an offset and reading [length] bytes of it. *)
Definition read_at (file : list byte) (offset length : Z) : result Error (list byte) :=
  ok_or (slice_get file offset (offset + length)) (Io "failed to fill whole buffer").

(** A fixed array indexed inside its length. *)
Definition byte_at (bytes : list byte) (i : nat) : byte := nth i bytes x00.
Definition some_nonzero (bytes : list byte) : bool := existsb (λ b, negb (bool_decide (b = x00))) bytes.

(** lsm/segment/format.rs:1119-1147 require_current_format *)
Definition require_current_format (bytes : list byte) : result Error unit :=
  let magic := slice_get bytes 0 8 in
  match find (λ v : Z, bool_decide (magic = Some (str_bytes ("RRDSEG0" +:+ pretty v)))) [1; 2; 3; 4; 5] with
  | Some version => Err (UnsupportedVersion "segment" version)
  | None =>
    let? field := ok_or (slice_get bytes 8 10) (InvalidSegment "segment has no complete format header") in
    let version := from_le field in
    if negb (version =? SEGMENT_FORMAT_VERSION) then Err (UnsupportedVersion "segment" version)
    else if negb (bool_decide (magic = Some SEGMENT_MAGIC)) then invalid_segment "segment magic does not match its format version"
    else Ok tt
  end.

(** lsm/segment/format.rs:1101-1117 decode_row_group_budget *)
Definition decode_row_group_budget (header : list byte) : result Error SegmentRowGroupBudget :=
  let? target := read_u64 header 160 in
  let? rows := read_u64 header 168 in
  if ((target =? 0) || (MAX_SEGMENT_BYTES <? target) || (rows =? 0) || (2 ^ 32 - 1 <? rows))%bool
  then invalid_segment "v6 segment row-group budget is invalid"
  else Ok {| max_rows := rows; target_bytes := target |}.

(** lsm/segment/format.rs:1049-1069 decode_compression_policy *)
Definition decode_compression_policy (header : list byte) : result Error SegmentCompressionPolicy :=
  let? savings := read_u16 header 178 in
  let? maximum := read_u64 header 180 in
  let mode := u8_val (byte_at header 176) in
  let codec := u8_val (byte_at header 177) in
  if ((mode =? 0) && (codec =? 0) && (savings =? 0) && (maximum =? 0))%bool then Ok PolicyNone
  else if ((mode =? 1) && (codec =? 1))%bool then
    match compression_policy_validate (AdaptiveLz4 savings maximum) with
    | Ok policy => Ok policy
    | Err _ => invalid_segment "v6 compression policy is invalid"
    end
  else invalid_segment "v6 compression policy metadata is unknown or noncanonical".

(** lsm/segment/format.rs:1263-1303 decode_page_descriptor *)
Definition decode_page_descriptor (bytes : list byte) (policy : SegmentCompressionPolicy) : result Error PageDescriptor :=
  let? kind := kind_from_byte (byte_at bytes 0) in
  if (negb (u8_val (byte_at bytes 1) =? column kind) || negb (u8_val (byte_at bytes 2) =? buffer_kind kind)
      || negb (u8_val (byte_at bytes 3) =? logical_type kind) || negb (u8_val (byte_at bytes 4) =? physical_type kind)
      || negb (u8_val (byte_at bytes 5) =? 0) || negb (u8_val (byte_at bytes 7) =? 0))%bool
  then invalid_segment "v6 page type, encoding, or reserved metadata is unknown"
  else
    let? compression := compression_from_byte (byte_at bytes 6) in
    let? physical := read_u64 bytes 32 in
    let? logical := read_u64 bytes 40 in
    do? validate_page_compression policy compression physical logical in
    let? row_start := read_u64 bytes 8 in
    let? row_count := read_u32 bytes 16 in
    let? nulls := read_u32 bytes 20 in
    let? offset := read_u64 bytes 24 in
    let? minimum := read_u64 bytes 48 in
    let? maximum := read_u64 bytes 56 in
    Ok {| page_kind := kind; page_compression := compression; page_row_start := row_start; page_row_count := row_count;
          page_null_count := nulls; page_offset := offset; physical_bytes := physical; logical_bytes := logical;
          statistic_min := minimum; statistic_max := maximum; page_digest := slice bytes 64 96 |}.

(** lsm/segment/format.rs:1353-1373 validate_page_shapes *)
Definition validate_page_shapes (p : PageKind → PageDescriptor) (rows : Z) : result Error unit :=
  let? expected := ok_or (match checked_add 64 rows 1 with Some n => checked_mul 64 n 8 | None => None end)
    (InvalidSegment "v6 offset page length overflow") in
  if (negb (logical_bytes (p KeyOffsets) =? expected)
      || negb (logical_bytes (p SequenceValues) =? saturating_mul 64 rows 8)
      || negb (logical_bytes (p ValueValidity) =? (rows + 7) / 8)
      || negb (logical_bytes (p ValueOffsets) =? expected)
      || existsb (λ kind, page_row_count (p kind) <? page_null_count (p kind)) ORDERED
      || negb (page_null_count (p KeyOffsets) =? 0) || negb (page_null_count (p KeyData) =? 0)
      || negb (page_null_count (p SequenceValues) =? 0)
      || negb (page_null_count (p ValueValidity) =? page_null_count (p ValueOffsets))
      || negb (page_null_count (p ValueValidity) =? page_null_count (p ValueData)))%bool
  then invalid_segment "v6 Arrow-compatible page lengths or null counts are invalid"
  else Ok tt.

(** lsm/segment/format.rs:1396-1415 validate_zero_range *)
Definition validate_zero_range (file : list byte) (start end_ : Z) : result Error Z :=
  let? length := ok_or (checked_sub end_ start) (InvalidSegment "v6 padding range is inverted") in
  if PAGE_ALIGNMENT <=? length then invalid_segment "v6 page padding exceeds the alignment contract"
  else if length =? 0 then Ok 0
  else
    let? padding := read_at file start length in
    if some_nonzero padding then invalid_segment "v6 page alignment padding is non-zero" else Ok length.

(** lsm/segment/format.rs:1375-1394 validate_zero_padding *)
Definition validate_zero_padding (file : list byte) (groups : list RowGroupDescriptor) (index_offset : Z) : result Error Z :=
  let? (expected, bytes_read) := try_fold (λ '(expected, bytes_read) p,
      let? n := validate_zero_range file expected (page_offset p) in
      let? bytes_read := ok_or (checked_add 64 bytes_read n) (InvalidSegment "v6 padding read count overflow") in
      let? expected := ok_or (checked_add 64 (page_offset p) (physical_bytes p)) (InvalidSegment "v6 page end overflow") in
      Ok (expected, bytes_read)) (SEGMENT_HEADER_BYTES, 0) (all_pages groups) in
  let? n := validate_zero_range file expected index_offset in
  ok_or (checked_add 64 bytes_read n) (InvalidSegment "v6 padding read count overflow").

(** lsm/segment/format.rs:401-409 ParsedMetadata without its read counters *)
Record ParsedMetadata := {
  parsed_descriptor : SegmentDescriptor; parsed_budget : SegmentRowGroupBudget;
  parsed_compression : SegmentCompressionPolicy; parsed_groups : list RowGroupDescriptor
}.

(** lsm/segment/format.rs:938-961 parse_metadata, one page descriptor of a group *)
Definition parse_page (index : list byte) (policy : SegmentCompressionPolicy) (row_start row_count index_offset : Z)
    (st : Z * Z * list PageDescriptor) (expected_kind : PageKind) : result Error (Z * Z * list PageDescriptor) :=
  let '(cursor, prior_page_end, parsed) := st in
  let? encoded := slice_named index cursor PAGE_DESCRIPTOR_BYTES "v6 page descriptor" in
  let? p := decode_page_descriptor encoded policy in
  if (negb (bool_decide (page_kind p = expected_kind)) || negb (page_row_start p =? row_start)
      || negb (page_row_count p =? row_count) || negb (page_offset p mod PAGE_ALIGNMENT =? 0)
      || (page_offset p <? prior_page_end) || (PAGE_ALIGNMENT <=? saturating_sub (page_offset p) prior_page_end)
      || match checked_add 64 (page_offset p) (physical_bytes p) with Some end_ => index_offset <? end_ | None => true end)%bool
  then invalid_segment "v6 page descriptor violates ordering or bounds"
  else Ok (cursor + PAGE_DESCRIPTOR_BYTES, page_offset p + physical_bytes p, parsed ++ [p]).

(** [as_chunks::<8>]: the whole chunks of a slice. *)
Fixpoint chunks8 (count : nat) (l : list byte) : list (list byte) :=
  match count with O => [] | S count => take 8 l :: chunks8 count (drop 8 l) end.

(** The pages of a list in file order. *)
Definition pages_of (l : list PageDescriptor) (d : PageDescriptor) (kind : PageKind) : PageDescriptor :=
  nth (page_ordinal kind - 1) l d.

(** lsm/segment/format.rs:889-893 parse_metadata, the variables of the loop *)
Record IndexCursor := {
  ix_cursor : Z; ix_groups : list RowGroupDescriptor; ix_row_start : Z; ix_last_key : option key; ix_page_end : Z
}.

(** lsm/segment/format.rs:894-993 parse_metadata, one row group of the index *)
Definition parse_group (index : list byte) (policy : SegmentCompressionPolicy) (index_offset : Z) (st : IndexCursor)
    : result Error IndexCursor :=
  let cursor := ix_cursor st in
  let? fixed := slice_named index cursor ROW_GROUP_HEADER_BYTES "v6 row-group header" in
  let? row_start := read_u64 fixed 0 in
  let? row_count := read_u32 fixed 8 in
  let? first_key_bytes := read_u32 fixed 12 in
  let? last_key_bytes := read_u32 fixed 16 in
  let? unique := read_u32 fixed 24 in
  let? filter_words := read_u32 fixed 28 in
  let? page_count := read_u16 fixed 20 in
  if (negb (row_start =? ix_row_start st) || (row_count =? 0) || negb (page_count =? PAGES_PER_GROUP)
      || some_nonzero (slice fixed 22 24) || (unique =? 0) || (row_count <? unique))%bool
  then invalid_segment "v6 row-group framing is invalid"
  else
    let? expected_words := word_count unique in
    if (negb (filter_words =? expected_words) || (first_key_bytes =? 0) || (SEGMENT_MAX_KEY_BYTES <? first_key_bytes)
        || (last_key_bytes =? 0) || (SEGMENT_MAX_KEY_BYTES <? last_key_bytes))%bool
    then invalid_segment "v6 row-group framing is invalid"
    else
      let cursor := cursor + ROW_GROUP_HEADER_BYTES in
      let? first := slice_named index cursor first_key_bytes "v6 first key" in
      let cursor := cursor + first_key_bytes in
      let? last := slice_named index cursor last_key_bytes "v6 last key" in
      let cursor := cursor + last_key_bytes in
      if (ltb last first || match ix_last_key st with Some prior => leb first prior | None => false end)%bool
      then invalid_segment "v6 row-group key ranges are not strictly ordered"
      else
        let? (cursor, page_end, parsed) := try_fold (parse_page index policy row_start row_count index_offset)
          (cursor, ix_page_end st, []) ORDERED in
        let? filter_bytes := ok_or (checked_mul 64 filter_words 8) (InvalidSegment "v6 filter byte count overflow") in
        let? encoded_filter := slice_named index cursor filter_bytes "v6 row-group filter" in
        let? f := from_words unique (map from_le (chunks8 (length encoded_filter / 8) encoded_filter)) in
        let? cursor := ok_or (checked_add 64 cursor filter_bytes) (InvalidSegment "v6 filter cursor overflow") in
        match parsed with
        | [] => invalid_segment "v6 page count was fixed"
        | p :: _ =>
          do? validate_page_shapes (pages_of parsed p) row_count in
          let? next := ok_or (checked_add 64 (ix_row_start st) row_count) (InvalidSegment "v6 row count overflow") in
          Ok {| ix_cursor := cursor;
                ix_groups := ix_groups st ++ [{| group_row_start := row_start; group_row_count := row_count;
                  unique_key_count := unique; group_first_key := first; group_last_key := last;
                  pages := pages_of parsed p; group_filter := f |}];
                ix_row_start := next; ix_last_key := Some last; ix_page_end := page_end |}
        end.

Fixpoint parse_groups (count : nat) (index : list byte) (policy : SegmentCompressionPolicy) (index_offset : Z) (st : IndexCursor)
    : result Error IndexCursor :=
  match count with
  | O => Ok st
  | S count => let? st := parse_group index policy index_offset st in parse_groups count index policy index_offset st
  end.

(** lsm/segment/format.rs:816-860 parse_metadata, the header *)
Record Header := {
  h_entries : Z; h_minimum : Z; h_maximum : Z; h_groups : Z; h_index_offset : Z; h_index_bytes : Z;
  h_budget : SegmentRowGroupBudget; h_policy : SegmentCompressionPolicy
}.
Definition parse_header (file : list byte) (physical_bytes : Z) : result Error Header :=
  if physical_bytes <? SEGMENT_HEADER_BYTES + INDEX_HEADER_BYTES + FOOTER_BYTES
  then invalid_segment "v6 segment is shorter than its framing"
  else
    let? header := read_at file 0 SEGMENT_HEADER_BYTES in
    do? require_current_format header in
    let? header_bytes := read_u16 header 10 in
    let? flags := read_u32 header 12 in
    let? page_count := read_u16 header 44 in
    let? alignment := read_u16 header 46 in
    if (negb (header_bytes =? SEGMENT_HEADER_BYTES) || negb (flags =? 0) || negb (page_count =? PAGES_PER_GROUP)
        || negb (alignment =? PAGE_ALIGNMENT) || some_nonzero (drop 188 header))%bool
    then invalid_segment "v6 segment header contains unsupported framing or flags"
    else
      let? entries := read_u64 header 16 in
      let? minimum := read_u64 header 24 in
      let? maximum := read_u64 header 32 in
      let? groups := read_u32 header 40 in
      let? index_offset := read_u64 header 48 in
      let? index_bytes := read_u64 header 56 in
      let? budget := decode_row_group_budget header in
      let? policy := decode_compression_policy header in
      let content_end := physical_bytes - FOOTER_BYTES in
      if ((entries =? 0) || (minimum =? 0) || (maximum <? minimum) || (groups =? 0)
          || (index_offset <? SEGMENT_HEADER_BYTES) || negb (index_offset mod PAGE_ALIGNMENT =? 0)
          || (index_bytes <? INDEX_HEADER_BYTES) || (MAX_INDEX_BYTES <? index_bytes)
          || negb (bool_decide (checked_add 64 index_offset index_bytes = Some content_end)))%bool
      then invalid_segment "v6 segment header contract is invalid"
      else if (negb (bool_decide (encode_digest (slice header 64 96) = SEGMENT_SCHEMA_DIGEST))
               || negb (bool_decide (encode_digest (slice header 96 128) = SEGMENT_KEY_CODEC_DIGEST))
               || negb (bool_decide (encode_digest (slice header 128 160) = SEGMENT_PAGE_FORMAT_DIGEST)))%bool
      then invalid_segment "v6 segment schema, key codec, or page format digest is unknown"
      else Ok {| h_entries := entries; h_minimum := minimum; h_maximum := maximum; h_groups := groups;
                 h_index_offset := index_offset; h_index_bytes := index_bytes; h_budget := budget; h_policy := policy |}.

(** lsm/segment/format.rs:862-888 parse_metadata, the index header *)
Definition parse_index_header (file : list byte) (h : Header) : result Error (list byte) :=
  let? index := read_at file (h_index_offset h) (h_index_bytes h) in
  let? groups := read_u32 index 8 in
  let? page_count := read_u16 index 12 in
  let? group_header_bytes := read_u16 index 14 in
  let? page_bytes := read_u16 index 16 in
  if (negb (bool_decide (slice_get index 0 8 = Some INDEX_MAGIC)) || negb (groups =? h_groups h)
      || negb (page_count =? PAGES_PER_GROUP) || negb (group_header_bytes =? ROW_GROUP_HEADER_BYTES)
      || negb (page_bytes =? PAGE_DESCRIPTOR_BYTES) || negb (u8_val (byte_at index 18) =? FILTER_FORMAT_VERSION)
      || negb (u8_val (byte_at index 19) =? FILTER_BITS_PER_KEY)
      || negb (u8_val (byte_at index 20) =? Z.of_nat FILTER_HASH_FUNCTIONS) || some_nonzero (slice index 21 32))%bool
  then invalid_segment "v6 segment index header or filter policy is invalid"
  else if saturating_sub (h_index_bytes h) INDEX_HEADER_BYTES / (ROW_GROUP_HEADER_BYTES + PAGES_PER_GROUP * PAGE_DESCRIPTOR_BYTES + 8)
          <? h_groups h
  then invalid_segment "v6 row-group count cannot fit in the bounded index"
  else Ok index.

(** lsm/segment/format.rs:816-1027 parse_metadata *)
Definition parse_metadata (file : list byte) (physical_bytes : Z) (checksum : string) : result Error ParsedMetadata :=
  let? h := parse_header file physical_bytes in
  let? index := parse_index_header file h in
  let? st := parse_groups (Z.to_nat (h_groups h)) index (h_policy h) (h_index_offset h)
    {| ix_cursor := INDEX_HEADER_BYTES; ix_groups := []; ix_row_start := 0; ix_last_key := None;
       ix_page_end := SEGMENT_HEADER_BYTES |} in
  if (negb (ix_cursor st =? len index) || negb (ix_row_start st =? h_entries h))%bool
  then invalid_segment "v6 index does not exactly describe all rows"
  else
    do? validate_logical_envelope (ix_groups st) (h_index_bytes h) in
    let? _ := validate_zero_padding file (ix_groups st) (h_index_offset h) in
    match head (ix_groups st), last (ix_groups st) with
    | Some first, Some final =>
      Ok {| parsed_descriptor := {| segment_id := checksum; segment_level := 0; format_version := SEGMENT_FORMAT_VERSION;
              schema_digest := SEGMENT_SCHEMA_DIGEST; key_codec_digest := SEGMENT_KEY_CODEC_DIGEST;
              page_format_digest := SEGMENT_PAGE_FORMAT_DIGEST; first_key := group_first_key first;
              last_key := group_last_key final; minimum_sequence := h_minimum h; maximum_segment_sequence := h_maximum h;
              entries := h_entries h; segment_bytes := physical_bytes; segment_checksum := checksum |};
            parsed_budget := h_budget h; parsed_compression := h_policy h; parsed_groups := ix_groups st |}
    | _, _ => invalid_segment "validated v6 segment has a row group"
    end.

(** * Opening *)

Section Open.
Context `{Ring} `{Lz4}.

(** lsm/segment/mod.rs:2169-2174 verify_stored_page *)
Definition verify_stored_page (stored : list byte) (p : PageDescriptor) : result Error unit :=
  if negb (bool_decide (ring_sha256 stored = page_digest p)) then invalid_segment "v6 stored-page checksum does not match"
  else Ok tt.

(** lsm/segment/mod.rs:2176-2227 finish_page; reserving the buffer succeeds. *)
Definition finish_page (stored : list byte) (p : PageDescriptor) : result Error (list byte) :=
  match page_compression p with
  | NoCompression => Ok stored
  | Lz4Block =>
    match lz4_decompress stored (logical_bytes p) with
    | Err reason => invalid_segment ("v6 LZ4 page decode failed: " +:+ reason)
    | Ok decoded =>
      if negb (len decoded =? logical_bytes p)
      then invalid_segment ("v6 LZ4 page decoded " +:+ pretty (len decoded) +:+ " bytes, expected " +:+ pretty (logical_bytes p))
      else Ok decoded
    end
  end.

(** lsm/segment/mod.rs:2067-2167 read_page, from the bytes of the file *)
Definition read_page (source : list byte) (p : PageDescriptor) : result Error (list byte) :=
  let? end_ := ok_or (checked_add 64 (page_offset p) (physical_bytes p)) (InvalidSegment "v6 page range overflow") in
  let? stored := ok_or (slice_get source (page_offset p) end_) (InvalidSegment "v6 snapshot page range is absent") in
  do? verify_stored_page stored p in
  finish_page stored p.

(** lsm/segment/mod.rs:1966-1983 build_segment, with the pages read from the source; a cached
    page is one that was read from it. *)
Definition build_segment (metadata : ParsedMetadata) (source : list byte) (probe_ : bool → result Error unit) (id : Z) : Segment :=
  {| descriptor := parsed_descriptor metadata; row_groups := parsed_groups metadata;
     load_page := λ group kind,
       match parsed_groups metadata !! group with
       | Some g => read_page source (page g kind)
       | None => invalid_segment "row-group index is outside the segment"
       end;
     probe := probe_; address := id |}.

(** lsm/segment/mod.rs:1985-1999 validate_physical_file *)
Definition validate_physical_file (file : list byte) : result Error Z :=
  if MAX_SEGMENT_BYTES <? len file then invalid_segment "segment exceeds the 1 GiB physical safety limit"
  else
    let? prefix := ok_or (slice_get file 0 10) (InvalidSegment "segment has no complete format header") in
    do? require_current_format prefix in
    if len file <? SEGMENT_HEADER_BYTES + INDEX_HEADER_BYTES + FOOTER_BYTES
    then invalid_segment "segment is shorter than its framing" else Ok (len file).

(** lsm/segment/mod.rs:2363-2386 verify_file_digest; hashing a file in pieces is hashing it. *)
Definition verify_file_digest (file : list byte) (physical_bytes : Z) : result Error string :=
  let? content := ok_or (checked_sub physical_bytes FOOTER_BYTES) (InvalidSegment "segment footer underflow") in
  let? footer := read_at file content FOOTER_BYTES in
  let? expected := ok_or (from_utf8 footer) (InvalidSegment "segment footer is not ASCII") in
  let actual := encode_digest (ring_sha256 (take (Z.to_nat content) file)) in
  if negb (bool_decide (expected = actual)) then invalid_segment "segment content checksum does not match" else Ok actual.

(** lsm/segment/mod.rs:909-961 Segment::open_with_cache_and_io, on the bytes of the file *)
Definition open_segment (file : list byte) (probe_ : bool → result Error unit) (id : Z) : result Error Segment :=
  let? physical_bytes := validate_physical_file file in
  let? checksum := verify_file_digest file physical_bytes in
  let? metadata := parse_metadata file physical_bytes checksum in
  let segment := build_segment metadata file probe_ id in
  do? validate_all_pages segment in
  Ok segment.

#[export] Instance segment_descriptor_eq_dec : EqDecision SegmentDescriptor.
Proof. solve_decision. Defined.

Definition at_level (d : SegmentDescriptor) (level : Z) : SegmentDescriptor :=
  {| segment_id := segment_id d; segment_level := level; format_version := format_version d;
     schema_digest := schema_digest d; key_codec_digest := key_codec_digest d; page_format_digest := page_format_digest d;
     first_key := first_key d; last_key := last_key d; minimum_sequence := minimum_sequence d;
     maximum_segment_sequence := maximum_segment_sequence d; entries := entries d; segment_bytes := segment_bytes d;
     segment_checksum := segment_checksum d |}.
Definition with_level (s : Segment) (level : Z) : Segment :=
  {| descriptor := at_level (descriptor s) level; row_groups := row_groups s; load_page := load_page s; probe := probe s;
     address := address s |}.

(** lsm/segment/mod.rs:963-990 Segment::open_expected_with_cache_and_io *)
Definition open_expected (file : list byte) (expected : SegmentDescriptor) (probe_ : bool → result Error unit) (id : Z)
    : result Error Segment :=
  let? physical_bytes := validate_physical_file file in
  if negb (physical_bytes =? segment_bytes expected) then invalid_segment "segment physical size differs from its manifest descriptor"
  else
    let? checksum := verify_file_digest file physical_bytes in
    if (negb (bool_decide (checksum = segment_checksum expected)) || negb (bool_decide (checksum = segment_id expected)))%bool
    then invalid_segment "segment content digest differs from its manifest descriptor"
    else
      let? metadata := parse_metadata file physical_bytes checksum in
      let segment := with_level (build_segment metadata file probe_ id) (segment_level expected) in
      if negb (bool_decide (descriptor segment = expected)) then invalid_segment "v6 segment differs from its manifest descriptor"
      else Ok segment.

(** lsm/segment/mod.rs:999-1034 Segment::validate_snapshot_owned *)
Definition validate_snapshot (expected : SegmentDescriptor) (bytes : list byte) (probe_ : bool → result Error unit) (id : Z)
    : result Error Segment :=
  if MAX_SEGMENT_BYTES <? len bytes then invalid_segment "snapshot segment exceeds the 1 GiB physical safety limit"
  else
    do? require_current_format bytes in
    let? content := ok_or (checked_sub (len bytes) FOOTER_BYTES) (InvalidSegment "v6 snapshot footer underflow") in
    let? footer := ok_or (from_utf8 (drop (Z.to_nat content) bytes)) (InvalidSegment "segment footer is not ASCII") in
    let checksum := encode_digest (ring_sha256 (take (Z.to_nat content) bytes)) in
    if negb (bool_decide (footer = checksum)) then invalid_segment "segment content checksum does not match"
    else
      let? metadata := parse_metadata bytes (len bytes) checksum in
      let segment := build_segment metadata bytes probe_ id in
      do? validate_all_pages segment in
      let segment := with_level segment (segment_level expected) in
      if negb (bool_decide (descriptor segment = expected))
      then invalid_segment ("snapshot segment " +:+ segment_id expected +:+ " differs from its descriptor")
      else Ok segment.

(** lsm/segment/mod.rs:788-899 Segment::write_from_memtable_with_cache: encode, write the file
    and open it; the file system returns what was written. *)
Definition write_from_table (budget : SegmentRowGroupBudget) (policy : SegmentCompressionPolicy)
    (probe_ : bool → result Error unit) (id : Z) (versions : list (key * list VersionedValue)) : result Error Segment :=
  let? encoded := encode_versions versions budget policy in
  open_segment (encoded_segment encoded) probe_ id.
End Open.

(** * Fixed layouts *)

(** Fields laid end to end, with the length of each. *)
Lemma field_split (fs : list (list byte)) (shape : list nat) i f :
  map length fs = shape → fs !! i = Some f →
  concat fs = concat (take i fs) ++ f ++ concat (drop (S i) fs)
  ∧ length (concat (take i fs)) = list_sum (take i shape) ∧ length f = nth i shape 0%nat.
Proof.
  intros <- Hi. split_and!.
  - rewrite <-(take_drop_middle fs i f Hi) at 1. rewrite concat_app. done.
  - clear Hi. revert i. induction fs as [|x fs IH]; intros [|i]; [done..|]. cbn [take concat map list_sum foldr].
    rewrite length_app, IH. done.
  - symmetry. apply nth_lookup_Some. by rewrite list_lookup_fmap, Hi.
Qed.

Lemma slice_field (fs : list (list byte)) (shape : list nat) i f a b rest :
  map length fs = shape → fs !! i = Some f → a = list_sum (take i shape) → b = (a + nth i shape 0)%nat →
  slice (concat fs ++ rest) a b = f.
Proof.
  intros Hs Hi -> ->. destruct (field_split fs shape i f Hs Hi) as (-> & Hlen & Hf).
  rewrite <-!app_assoc. apply slice_mid; [done|]. by rewrite Hlen, Hf.
Qed.
Lemma slice_get_field (fs : list (list byte)) (shape : list nat) i f a b rest :
  map length fs = shape → fs !! i = Some f → a = Z.of_nat (list_sum (take i shape)) →
  b = Z.of_nat (list_sum (take i shape) + nth i shape 0%nat) → slice_get (concat fs ++ rest) a b = Some f.
Proof.
  intros Hs Hi -> ->. destruct (field_split fs shape i f Hs Hi) as (-> & Hlen & Hf).
  rewrite <-!app_assoc. apply slice_get_app; unfold len; rewrite ?Hlen, ?Hf; lia.
Qed.
Lemma slice_named_field (fs : list (list byte)) (shape : list nat) i f off n name rest :
  map length fs = shape → fs !! i = Some f → off = Z.of_nat (list_sum (take i shape)) →
  n = Z.of_nat (nth i shape 0%nat) → off + n < 2 ^ 64 → slice_named (concat fs ++ rest) off n name = Ok f.
Proof.
  intros Hs Hi -> -> Hb. unfold slice_named, checked_add. rewrite (proj2 (Z.ltb_lt _ _)) by done. cbn [ok_or].
  by rewrite (slice_get_field fs shape i f) by (done || lia).
Qed.
Lemma byte_field (fs : list (list byte)) (shape : list nat) i b n rest :
  map length fs = shape → fs !! i = Some [b] → n = list_sum (take i shape) → byte_at (concat fs ++ rest) n = b.
Proof.
  intros Hs Hi ->. destruct (field_split fs shape i [b] Hs Hi) as (-> & Hlen & _).
  unfold byte_at. rewrite <-!app_assoc, app_nth2 by lia. by rewrite Hlen, Nat.sub_diag.
Qed.

Lemma le_u64_field (fs : list (list byte)) (shape : list nat) i z off rest :
  map length fs = shape → fs !! i = Some (le_bytes 8 z) → off = Z.of_nat (list_sum (take i shape)) →
  nth i shape 0%nat = 8%nat → off + 8 < 2 ^ 64 → 0 ≤ z < 2 ^ 64 → read_u64 (concat fs ++ rest) off = Ok z.
Proof.
  intros Hs Hi Ho Hn Hb Hz. unfold read_u64. rewrite (slice_named_field fs shape i (le_bytes 8 z)) by (done || by rewrite Hn).
  by rewrite from_le_bytes_small.
Qed.
Lemma le_u32_field (fs : list (list byte)) (shape : list nat) i z off rest :
  map length fs = shape → fs !! i = Some (le_bytes 4 z) → off = Z.of_nat (list_sum (take i shape)) →
  nth i shape 0%nat = 4%nat → off + 4 < 2 ^ 64 → 0 ≤ z < 2 ^ 32 → read_u32 (concat fs ++ rest) off = Ok z.
Proof.
  intros Hs Hi Ho Hn Hb Hz. unfold read_u32. rewrite (slice_named_field fs shape i (le_bytes 4 z)) by (done || by rewrite Hn).
  by rewrite from_le_bytes_small.
Qed.
Lemma le_u16_field (fs : list (list byte)) (shape : list nat) i z off rest :
  map length fs = shape → fs !! i = Some (le_bytes 2 z) → off = Z.of_nat (list_sum (take i shape)) →
  nth i shape 0%nat = 2%nat → off + 2 < 2 ^ 64 → 0 ≤ z < 2 ^ 16 → read_u16 (concat fs ++ rest) off = Ok z.
Proof.
  intros Hs Hi Ho Hn Hb Hz. unfold read_u16. rewrite (slice_named_field fs shape i (le_bytes 2 z)) by (done || by rewrite Hn).
  by rewrite from_le_bytes_small.
Qed.

Lemma overwrite_field (fs : list (list byte)) (shape : list nat) i f g off rest :
  map length fs = shape → fs !! i = Some f → off = list_sum (take i shape) → length g = nth i shape 0%nat →
  overwrite (concat fs ++ rest) off g = concat (<[i := g]> fs) ++ rest.
Proof.
  intros Hs Hi -> Hg. destruct (field_split fs shape i f Hs Hi) as (Hcat & Hlen & Hf). pose proof (lookup_lt_Some _ _ _ Hi).
  rewrite insert_take_drop by done. rewrite concat_app. cbn [concat]. unfold overwrite. rewrite Hcat.
  rewrite <-!app_assoc. rewrite take_app_le, take_ge by lia. f_equal. f_equal.
  rewrite app_assoc, drop_app_ge by (rewrite length_app; lia). rewrite length_app.
  replace (_ - _)%nat with 0%nat by lia. by rewrite drop_0.
Qed.

(** ** The header *)

Definition policy_fields (policy : SegmentCompressionPolicy) : list (list byte) :=
  match policy with
  | PolicyNone => [[x00]; [x00]; le_bytes 2 0; le_bytes 8 0]
  | AdaptiveLz4 savings maximum => [[x01]; [x01]; le_bytes 2 savings; le_bytes 8 maximum]
  end.
Definition header_fields (entries minimum maximum groups index_offset index_bytes : Z)
    (budget : SegmentRowGroupBudget) (policy : SegmentCompressionPolicy) : list (list byte) :=
  [SEGMENT_MAGIC; le_bytes 2 SEGMENT_FORMAT_VERSION; le_bytes 2 SEGMENT_HEADER_BYTES; le_bytes 4 0;
   le_bytes 8 entries; le_bytes 8 minimum; le_bytes 8 maximum; le_bytes 4 groups; le_bytes 2 PAGES_PER_GROUP;
   le_bytes 2 PAGE_ALIGNMENT; le_bytes 8 index_offset; le_bytes 8 index_bytes;
   decode_fixed_digest SEGMENT_SCHEMA_DIGEST; decode_fixed_digest SEGMENT_KEY_CODEC_DIGEST;
   decode_fixed_digest SEGMENT_PAGE_FORMAT_DIGEST; le_bytes 8 (target_bytes budget); le_bytes 8 (max_rows budget)]
  ++ policy_fields policy ++ [replicate 68 x00].
Definition header_shape : list nat := [8; 2; 2; 4; 8; 8; 8; 4; 2; 2; 8; 8; 32; 32; 32; 8; 8; 1; 1; 2; 8; 68]%nat.

Lemma header_fields_shape entries minimum maximum groups index_offset index_bytes budget policy :
  map length (header_fields entries minimum maximum groups index_offset index_bytes budget policy) = header_shape.
Proof.
  unfold header_fields, header_shape. destruct policy; cbn [policy_fields app map]; rewrite !length_le_bytes;
    vm_compute; reflexivity.
Qed.

Ltac put_field offset i :=
  match goal with |- context [overwrite (concat ?fs ++ _) offset _] =>
    rewrite (overwrite_field fs header_shape i (default [] (fs !! i)));
      [cbn [insert list_insert]|cbn [map]; rewrite ?length_le_bytes; vm_compute; reflexivity|reflexivity|reflexivity|
       rewrite ?length_le_bytes; vm_compute; reflexivity]
  end.

Lemma fill_header_fields rest entries minimum maximum groups index_offset index_bytes budget policy :
  fill_header (replicate 256 x00 ++ rest) entries minimum maximum groups index_offset index_bytes budget policy
  = concat (header_fields entries minimum maximum groups index_offset index_bytes budget policy) ++ rest.
Proof.
  assert (replicate 256 x00 = concat (map (λ n, replicate n x00) header_shape)) as -> by (vm_compute; reflexivity).
  cbn [map header_shape]. unfold fill_header.
  put_field 0%nat 0%nat; put_field 8%nat 1%nat; put_field 10%nat 2%nat; put_field 12%nat 3%nat; put_field 16%nat 4%nat; put_field 24%nat 5%nat.
  put_field 32%nat 6%nat; put_field 40%nat 7%nat; put_field 44%nat 8%nat; put_field 46%nat 9%nat; put_field 48%nat 10%nat; put_field 56%nat 11%nat.
  put_field 64%nat 12%nat; put_field 96%nat 13%nat; put_field 128%nat 14%nat; put_field 160%nat 15%nat; put_field 168%nat 16%nat.
  unfold encode_compression_policy. destruct policy; put_field 176%nat 17%nat; put_field 177%nat 18%nat; put_field 178%nat 19%nat; put_field 180%nat 20%nat; reflexivity.
Qed.

(** What the machine types of the configuration guarantee. *)
Definition budget_wf (b : SegmentRowGroupBudget) : Prop := 0 ≤ max_rows b ∧ 0 ≤ target_bytes b.
Definition policy_wf (p : SegmentCompressionPolicy) : Prop :=
  match p with PolicyNone => True | AdaptiveLz4 savings maximum => 0 ≤ savings ∧ 0 ≤ maximum end.

Ltac field i :=
  match goal with
  | |- context [read_u64 (concat ?fs ++ ?r) ?o] =>
    rewrite (le_u64_field fs header_shape i _ o r) by (done || (cbn; lia) || apply header_fields_shape)
  | |- context [read_u32 (concat ?fs ++ ?r) ?o] =>
    rewrite (le_u32_field fs header_shape i _ o r) by (done || (cbn; lia) || apply header_fields_shape)
  | |- context [read_u16 (concat ?fs ++ ?r) ?o] =>
    rewrite (le_u16_field fs header_shape i _ o r) by (done || (cbn; lia) || apply header_fields_shape)
  end.

Section Header.
Context (entries_ minimum maximum groups index_offset index_bytes : Z).
Context (budget : SegmentRowGroupBudget) (policy : SegmentCompressionPolicy).
Context (Hbw : budget_wf budget) (Hpw : policy_wf policy).
Context (Hbudget : budget_validate budget = Ok budget) (Hpolicy : compression_policy_validate policy = Ok policy).
Abbreviation fields := (header_fields entries_ minimum maximum groups index_offset index_bytes budget policy).

Lemma header_length : len (concat fields) = 256.
Proof.
  unfold len. rewrite length_concat, header_fields_shape. done.
Qed.

Lemma read_header rest : read_at (concat fields ++ rest) 0 SEGMENT_HEADER_BYTES = Ok (concat fields).
Proof.
  unfold read_at. change (concat fields ++ rest) with ([] ++ concat fields ++ rest).
  rewrite (slice_get_app [] (concat fields) rest) by (rewrite ?header_length; done). done.
Qed.

Lemma decoded_budget rest : decode_row_group_budget (concat fields ++ rest) = Ok budget.
Proof.
  unfold budget_validate in Hbudget. destruct ((max_rows budget =? 0) || _ || _ || _)%bool eqn:E; [done|].
  rewrite !orb_false_iff, !Z.eqb_neq, !Z.ltb_ge in E. destruct E as (((Hr0 & Hr) & Ht0) & Ht). destruct Hbw. unfold MAX_SEGMENT_BYTES in *.
  unfold decode_row_group_budget.
  rewrite (le_u64_field fields header_shape 15 (target_bytes budget)) by (done || lia || apply header_fields_shape).
  rewrite (le_u64_field fields header_shape 16 (max_rows budget)) by (done || lia || apply header_fields_shape).
  unfold MAX_SEGMENT_BYTES.
  rewrite (proj2 (Z.eqb_neq (target_bytes budget) 0)), (proj2 (Z.ltb_ge _ (target_bytes budget))), (proj2 (Z.eqb_neq (max_rows budget) 0)),
    (proj2 (Z.ltb_ge _ (max_rows budget))) by lia. by destruct budget.
Qed.

Lemma decoded_policy rest : decode_compression_policy (concat fields ++ rest) = Ok policy.
Proof.
  pose proof Hpw as Hwf. pose proof Hpolicy as Hv. pose proof (header_fields_shape entries_ minimum maximum groups index_offset index_bytes budget policy) as Hs.
  unfold decode_compression_policy. remember fields as fs eqn:Efs. clear Hpw Hpolicy.
  destruct policy as [|savings maximum_]; cbn [policy_fields] in Efs.
  - rewrite (le_u16_field fs header_shape 19 0), (le_u64_field fs header_shape 20 0) by (done || lia || by subst).
    by rewrite !(byte_field fs header_shape 17 x00), !(byte_field fs header_shape 18 x00) by (done || by subst).
  - unfold compression_policy_validate in Hv. destruct ((1 <=? savings) && _ && _ && _)%bool eqn:E; [|done].
    rewrite !andb_true_iff, !Z.leb_le, Z.ltb_lt in E. destruct E as (((? & ?) & ?) & ?).
    unfold COMPRESSION_BASIS_POINTS, MAX_SEGMENT_BYTES in *.
    rewrite (le_u16_field fs header_shape 19 savings), (le_u64_field fs header_shape 20 maximum_) by (done || lia || by subst).
    rewrite !(byte_field fs header_shape 17 x01), !(byte_field fs header_shape 18 x01) by (done || by subst).
    change (u8_val x01) with 1. cbn [Z.eqb Pos.eqb andb]. unfold compression_policy_validate, COMPRESSION_BASIS_POINTS, MAX_SEGMENT_BYTES.
    by rewrite !(proj2 (Z.leb_le _ _)), (proj2 (Z.ltb_lt _ _)) by lia.
Qed.

Context (Hentries : 0 < entries_ < 2 ^ 64) (Hmin : 0 < minimum) (Hmax : minimum ≤ maximum < 2 ^ 64).
Context (Hgroups : 0 < groups < 2 ^ 32) (Hoffset : 256 ≤ index_offset) (Haligned : index_offset mod 64 = 0).
Context (Hindex : 32 ≤ index_bytes ≤ MAX_INDEX_BYTES).

Lemma current_format rest : require_current_format (concat fields ++ rest) = Ok tt.
Proof.
  unfold require_current_format.
  rewrite (slice_get_field fields header_shape 0 SEGMENT_MAGIC) by (done || apply header_fields_shape).
  rewrite (slice_get_field fields header_shape 1 (le_bytes 2 SEGMENT_FORMAT_VERSION)) by (done || apply header_fields_shape).
  vm_compute. reflexivity.
Qed.

Lemma parse_header_ok rest :
  len (concat fields ++ rest) < 2 ^ 64 → index_offset + index_bytes = len (concat fields ++ rest) - 64 →
  parse_header (concat fields ++ rest) (len (concat fields ++ rest))
  = Ok {| h_entries := entries_; h_minimum := minimum; h_maximum := maximum; h_groups := groups;
          h_index_offset := index_offset; h_index_bytes := index_bytes; h_budget := budget; h_policy := policy |}.
Proof.
  intros Hlen Hend. unfold parse_header, SEGMENT_HEADER_BYTES, INDEX_HEADER_BYTES, FOOTER_BYTES, PAGE_ALIGNMENT, MAX_INDEX_BYTES, PAGES_PER_GROUP in *.
  rewrite (proj2 (Z.ltb_ge _ _)) by lia. rewrite read_header, <-(app_nil_r (concat fields)), current_format.
  rewrite (le_u16_field fields header_shape 2 256), (le_u32_field fields header_shape 3 0), (le_u16_field fields header_shape 8 6),
    (le_u16_field fields header_shape 9 64) by (done || apply header_fields_shape).
  assert (drop 188 (concat fields ++ []) = replicate 68 x00) as ->.
  { destruct (field_split fields header_shape 21 (replicate 68 x00)) as (-> & Hl & _); [apply header_fields_shape|by destruct policy|].
    rewrite <-!app_assoc, drop_app_length' by (rewrite Hl; done). destruct policy; reflexivity. }
  rewrite (le_u64_field fields header_shape 4 entries_), (le_u64_field fields header_shape 5 minimum), (le_u64_field fields header_shape 6 maximum),
    (le_u32_field fields header_shape 7 groups), (le_u64_field fields header_shape 10 index_offset),
    (le_u64_field fields header_shape 11 index_bytes) by (done || lia || apply header_fields_shape).
  rewrite decoded_budget, decoded_policy.
  rewrite (slice_field fields header_shape 12 (decode_fixed_digest SEGMENT_SCHEMA_DIGEST)),
    (slice_field fields header_shape 13 (decode_fixed_digest SEGMENT_KEY_CODEC_DIGEST)),
    (slice_field fields header_shape 14 (decode_fixed_digest SEGMENT_PAGE_FORMAT_DIGEST)) by (done || apply header_fields_shape).
  rewrite (proj2 (Z.eqb_neq entries_ 0)), (proj2 (Z.eqb_neq minimum 0)), (proj2 (Z.ltb_ge maximum minimum)), (proj2 (Z.eqb_neq groups 0)),
    (proj2 (Z.ltb_ge index_offset _)), (proj2 (Z.ltb_ge index_bytes 32)), (proj2 (Z.ltb_ge _ index_bytes)), Haligned by lia.
  unfold checked_add. rewrite (proj2 (Z.ltb_lt _ _)) by lia. rewrite (app_nil_r (concat fields)), Hend, bool_decide_eq_true_2 by done.
  vm_compute. reflexivity.
Qed.
End Header.

(** ** Page descriptors *)

Record page_wf (policy : SegmentCompressionPolicy) (p : PageDescriptor) : Prop := {
  wf_row_start : 0 ≤ page_row_start p < 2 ^ 64; wf_row_count : 0 ≤ page_row_count p < 2 ^ 32;
  wf_nulls : 0 ≤ page_null_count p < 2 ^ 32; wf_offset : 0 ≤ page_offset p < 2 ^ 64;
  wf_physical : 0 ≤ physical_bytes p < 2 ^ 64; wf_logical : 0 ≤ logical_bytes p < 2 ^ 64;
  wf_minimum : 0 ≤ statistic_min p < 2 ^ 64; wf_maximum : 0 ≤ statistic_max p < 2 ^ 64;
  wf_digest : length (page_digest p) = 32%nat;
  wf_compression : validate_page_compression policy (page_compression p) (physical_bytes p) (logical_bytes p) = Ok tt
}.

Definition descriptor_shape : list nat := [1; 1; 1; 1; 1; 1; 1; 1; 8; 4; 4; 8; 8; 8; 8; 8; 32]%nat.
Definition descriptor_fields (p : PageDescriptor) : list (list byte) :=
  let k := page_kind p in
  [[u8_of (Z.of_nat (page_ordinal k))]; [u8_of (column k)]; [u8_of (buffer_kind k)]; [u8_of (logical_type k)];
   [u8_of (physical_type k)]; [x00]; [compression_byte (page_compression p)]; [x00];
   le_bytes 8 (page_row_start p); le_bytes 4 (page_row_count p); le_bytes 4 (page_null_count p);
   le_bytes 8 (page_offset p); le_bytes 8 (physical_bytes p); le_bytes 8 (logical_bytes p);
   le_bytes 8 (statistic_min p); le_bytes 8 (statistic_max p); page_digest p].

Lemma encode_descriptor_fields p : encode_page_descriptor p = concat (descriptor_fields p).
Proof. unfold descriptor_fields, encode_page_descriptor. cbn [concat app]. by rewrite app_nil_r. Qed.

Lemma descriptor_fields_shape p : length (page_digest p) = 32%nat → map length (descriptor_fields p) = descriptor_shape.
Proof. intros Hd. unfold descriptor_fields. cbn [map]. by rewrite !length_le_bytes, Hd. Qed.

Lemma len_encode_descriptor p : length (page_digest p) = 32%nat → len (encode_page_descriptor p) = 96.
Proof. intros Hd. rewrite encode_descriptor_fields. unfold len. by rewrite length_concat, descriptor_fields_shape. Qed.

Lemma kind_byte k : kind_from_byte (u8_of (Z.of_nat (page_ordinal k))) = Ok k.
Proof. by destruct k. Qed.
Lemma kind_codes k :
  (u8_val (u8_of (column k)) =? column k) = true ∧ (u8_val (u8_of (buffer_kind k)) =? buffer_kind k) = true
  ∧ (u8_val (u8_of (logical_type k)) =? logical_type k) = true ∧ (u8_val (u8_of (physical_type k)) =? physical_type k) = true.
Proof. by destruct k. Qed.
Lemma compression_code c : compression_from_byte (compression_byte c) = Ok c.
Proof. by destruct c. Qed.

(** Reading a page descriptor gives back the one that was written. *)
Lemma decode_encode_descriptor policy p :
  page_wf policy p → decode_page_descriptor (encode_page_descriptor p) policy = Ok p.
Proof.
  intros []. pose proof (descriptor_fields_shape p wf_digest0) as Hs. rewrite encode_descriptor_fields.
  rewrite <-(app_nil_r (concat (descriptor_fields p))). unfold decode_page_descriptor. set (fs := descriptor_fields p) in *.
  rewrite (byte_field fs descriptor_shape 0 (u8_of (Z.of_nat (page_ordinal (page_kind p))))) by done. rewrite kind_byte.
  rewrite (byte_field fs descriptor_shape 1 (u8_of (column (page_kind p)))), (byte_field fs descriptor_shape 2 (u8_of (buffer_kind (page_kind p)))),
    (byte_field fs descriptor_shape 3 (u8_of (logical_type (page_kind p)))), (byte_field fs descriptor_shape 4 (u8_of (physical_type (page_kind p)))),
    (byte_field fs descriptor_shape 5 x00), (byte_field fs descriptor_shape 7 x00),
    (byte_field fs descriptor_shape 6 (compression_byte (page_compression p))) by done.
  destruct (kind_codes (page_kind p)) as (-> & -> & -> & ->). change (u8_val x00 =? 0) with true. cbn [negb orb].
  rewrite compression_code.
  rewrite (le_u64_field fs descriptor_shape 12 (physical_bytes p)), (le_u64_field fs descriptor_shape 13 (logical_bytes p)), wf_compression0 by done.
  rewrite (le_u64_field fs descriptor_shape 8 (page_row_start p)), (le_u32_field fs descriptor_shape 9 (page_row_count p)),
    (le_u32_field fs descriptor_shape 10 (page_null_count p)), (le_u64_field fs descriptor_shape 11 (page_offset p)),
    (le_u64_field fs descriptor_shape 14 (statistic_min p)), (le_u64_field fs descriptor_shape 15 (statistic_max p)) by done.
  rewrite (slice_field fs descriptor_shape 16 (page_digest p)) by done. by destruct p.
Qed.

(** ** The index entry of a group *)

Definition group_shape : list nat := [8; 4; 4; 4; 2; 2; 4; 4]%nat.
Definition group_fields (g : RowGroupDescriptor) : list (list byte) :=
  [le_bytes 8 (group_row_start g); le_bytes 4 (group_row_count g); le_bytes 4 (len (group_first_key g));
   le_bytes 4 (len (group_last_key g)); le_bytes 2 PAGES_PER_GROUP; replicate 2 x00;
   le_bytes 4 (unique_key_count g); le_bytes 4 (len (words (group_filter g)))].
Lemma group_header_fields g : group_header g = concat (group_fields g).
Proof. unfold group_fields, group_header. cbn [concat app]. by rewrite app_nil_r. Qed.
Lemma group_fields_shape g : map length (group_fields g) = group_shape.
Proof. unfold group_fields. cbn [map]. by rewrite !length_le_bytes. Qed.
Lemma len_group_header g : len (group_header g) = 32.
Proof. rewrite group_header_fields. unfold len. by rewrite length_concat, group_fields_shape. Qed.

(** The pages follow one another from [start], each aligned, with less than a page alignment
    of zeros before it. *)
Fixpoint page_chain (start : Z) (ps : list PageDescriptor) (end_ : Z) : Prop :=
  match ps with
  | [] => start = end_
  | p :: ps =>
    page_offset p mod 64 = 0 ∧ start ≤ page_offset p < start + 64
    ∧ page_chain (page_offset p + physical_bytes p) ps end_
  end.

Lemma page_chain_app start ps qs end_ :
  page_chain start (ps ++ qs) end_ ↔ ∃ middle, page_chain start ps middle ∧ page_chain middle qs end_.
Proof.
  revert start. induction ps as [|p ps IH]; intros start; cbn [app page_chain].
  - split; [intros H; by exists start|by intros (? & <- & H)].
  - rewrite IH. naive_solver.
Qed.

Lemma page_chain_end start ps end_ :
  Forall (λ p, 0 ≤ physical_bytes p) ps → page_chain start ps end_ → start ≤ end_.
Proof.
  intros Hp. revert start. induction Hp as [|p ps H1 _ IH]; intros start; cbn [page_chain]; [lia|].
  intros (_ & Ho & Hc). specialize (IH _ Hc). lia.
Qed.

(** What the index must say of a group for the parser to accept it. *)
Record entry_ok (policy : SegmentCompressionPolicy) (g : RowGroupDescriptor) : Prop := {
  ok_rows : 0 < group_row_count g < 2 ^ 32;
  ok_unique : 0 < unique_key_count g ≤ group_row_count g;
  ok_words : word_count (unique_key_count g) = Ok (len (words (group_filter g)));
  ok_word_bits : Forall (λ w, 0 ≤ w < 2 ^ 64) (words (group_filter g));
  ok_first : 0 < len (group_first_key g) ≤ SEGMENT_MAX_KEY_BYTES;
  ok_last : 0 < len (group_last_key g) ≤ SEGMENT_MAX_KEY_BYTES;
  ok_keys : leb (group_first_key g) (group_last_key g) = true;
  ok_pages : ∀ kind, page_wf policy (page g kind) ∧ page_kind (page g kind) = kind
    ∧ page_row_start (page g kind) = group_row_start g ∧ page_row_count (page g kind) = group_row_count g;
  ok_shapes : validate_page_shapes (page g) (group_row_count g) = Ok tt
}.

Lemma len_pages policy g kinds :
  (∀ kind, page_wf policy (page g kind)) → len (concat (map (λ kind, encode_page_descriptor (page g kind)) kinds)) = 96 * len kinds.
Proof.
  intros Hp. induction kinds as [|k kinds IH]; [done|]. cbn [map concat]. rewrite len_app, IH, len_cons, len_encode_descriptor by apply (Hp k). lia.
Qed.

Section Index.
Context (policy : SegmentCompressionPolicy) (index : list byte) (index_offset : Z).
Context (Hindex : len index < 2 ^ 63) (Hoffset : index_offset < 2 ^ 64).

Lemma slice_named_mid pre x suf off n name :
  index = pre ++ x ++ suf → off = len pre → n = len x → slice_named index off n name = Ok x.
Proof.
  intros Hi -> ->. unfold slice_named, checked_add. pose proof (len_nonneg suf). pose proof (len_nonneg x).
  assert (len index = len pre + (len x + len suf)) as Hl by (by rewrite Hi, !len_app).
  rewrite (proj2 (Z.ltb_lt _ _)) by lia. cbn [ok_or]. rewrite Hi. by rewrite slice_get_app.
Qed.

Lemma parse_page_ok pre p suf prior parsed kind :
  index = pre ++ encode_page_descriptor p ++ suf → page_wf policy p → page_kind p = kind →
  page_offset p mod 64 = 0 → prior ≤ page_offset p < prior + 64 → 0 ≤ prior → page_offset p + physical_bytes p ≤ index_offset →
  parse_page index policy (page_row_start p) (page_row_count p) index_offset (len pre, prior, parsed) kind
  = Ok (len pre + 96, page_offset p + physical_bytes p, parsed ++ [p]).
Proof.
  intros Hi Hwf <- Ha Ho Hp He. unfold parse_page. pose proof (wf_offset _ _ Hwf). pose proof (wf_physical _ _ Hwf).
  rewrite (slice_named_mid pre (encode_page_descriptor p) suf) by (done || by rewrite len_encode_descriptor by apply Hwf).
  rewrite decode_encode_descriptor by done. rewrite bool_decide_eq_true_2, !Z.eqb_refl by done. unfold PAGE_ALIGNMENT. rewrite Ha.
  rewrite (proj2 (Z.ltb_ge (page_offset p) prior)) by lia. unfold saturating_sub.
  rewrite (proj2 (Z.leb_gt _ _)) by lia. unfold checked_add. rewrite (proj2 (Z.ltb_lt _ _)) by lia.
  by rewrite (proj2 (Z.ltb_ge index_offset _)) by lia.
Qed.

Lemma parse_pages_ok g kinds pre suf prior end_ parsed :
  (∀ kind, page_wf policy (page g kind) ∧ page_kind (page g kind) = kind
    ∧ page_row_start (page g kind) = group_row_start g ∧ page_row_count (page g kind) = group_row_count g) →
  index = pre ++ concat (map (λ kind, encode_page_descriptor (page g kind)) kinds) ++ suf →
  page_chain prior (map (page g) kinds) end_ → 0 ≤ prior → end_ ≤ index_offset →
  try_fold (parse_page index policy (group_row_start g) (group_row_count g) index_offset) (len pre, prior, parsed) kinds
  = Ok (len pre + 96 * len kinds, end_, parsed ++ map (page g) kinds).
Proof.
  intros Hpages. revert pre prior parsed. induction kinds as [|kind kinds IH]; intros pre prior parsed Hi Hc Hp He; cbn [try_fold].
  { cbn in Hc. subst end_. change (len (@nil PageKind)) with 0. rewrite Z.mul_0_r, Z.add_0_r. cbn [map]. by rewrite app_nil_r. }
  destruct (Hpages kind) as (Hwf & Hk & Hrs & Hrc). cbn [map page_chain] in Hc. destruct Hc as (Ha & Ho & Hc).
  assert (page_offset (page g kind) + physical_bytes (page g kind) ≤ end_) as Hend.
  { eapply page_chain_end; [|exact Hc]. apply Forall_map, Forall_forall. intros x _. apply (wf_physical policy), Hpages. }
  cbn [map concat] in Hi. rewrite <-app_assoc in Hi. rewrite <-Hrs, <-Hrc.
  rewrite (parse_page_ok pre (page g kind) _ prior parsed kind Hi) by (done || lia). rewrite Hrs, Hrc.
  pose proof (wf_offset _ _ Hwf). pose proof (wf_physical _ _ Hwf).
  rewrite app_assoc in Hi. specialize (IH (pre ++ encode_page_descriptor (page g kind)) (page_offset (page g kind) + physical_bytes (page g kind)) (parsed ++ [page g kind])).
  rewrite len_app, len_encode_descriptor in IH by apply Hwf. rewrite IH by (done || lia).
  cbn [map]. rewrite <-app_assoc, len_cons. do 3 f_equal. lia.
Qed.

Lemma chunks_words ws : Forall (λ w, 0 ≤ w < 2 ^ 64) ws → map from_le (chunks8 (length ws) (concat (map (le_bytes 8) ws))) = ws.
Proof.
  induction 1 as [|w ws Hw _ IH]; [done|]. cbn [length chunks8 map concat].
  rewrite take_app_length', drop_app_length' by (by rewrite length_le_bytes). rewrite IH. f_equal. by apply from_le_bytes_small.
Qed.
Lemma len_words ws : len (concat (map (le_bytes 8) ws)) = 8 * len ws.
Proof. induction ws as [|w ws IH]; [done|]. cbn [map concat]. rewrite len_app, IH, len_cons. unfold len. rewrite length_le_bytes. lia. Qed.

(** The group as the parser builds it. *)
Definition reread (g : RowGroupDescriptor) : RowGroupDescriptor :=
  {| group_row_start := group_row_start g; group_row_count := group_row_count g; unique_key_count := unique_key_count g;
     group_first_key := group_first_key g; group_last_key := group_last_key g;
     pages := pages_of (map (page g) ORDERED) (page g KeyOffsets); group_filter := group_filter g |}.
Lemma reread_page g kind : page (reread g) kind = page g kind.
Proof. by destruct kind. Qed.

Lemma parse_group_ok pre g suf st end_ :
  index = pre ++ group_entry g ++ suf → entry_ok policy g → ix_cursor st = len pre → ix_row_start st = group_row_start g →
  0 ≤ group_row_start g → group_row_start g + group_row_count g < 2 ^ 64 →
  match ix_last_key st with Some prior => ltb prior (group_first_key g) = true | None => True end →
  page_chain (ix_page_end st) (map (page g) ORDERED) end_ → 0 ≤ ix_page_end st → end_ ≤ index_offset →
  parse_group index policy index_offset st
  = Ok {| ix_cursor := len (pre ++ group_entry g); ix_groups := ix_groups st ++ [reread g];
          ix_row_start := group_row_start g + group_row_count g; ix_last_key := Some (group_last_key g); ix_page_end := end_ |}.
Proof.
  intros Hi Hok Hcur Hrow Hrs Hnext Hprior Hchain Hpe Hend. unfold parse_group. rewrite Hcur.
  unfold group_entry in Hi. rewrite <-!app_assoc in Hi. pose proof (len_group_header g) as Hh.
  rewrite (slice_named_mid pre (group_header g) _ (len pre) ROW_GROUP_HEADER_BYTES _ Hi) by done.
  pose proof (group_fields_shape g) as Hs. rewrite group_header_fields, <-(app_nil_r (concat (group_fields g))).
  destruct Hok as [Hrows Huniq Hwords Hbits Hfirst Hlast Hkeys Hpages Hshapes]. unfold SEGMENT_MAX_KEY_BYTES in *.
  set (fs := group_fields g) in *.
  assert (0 ≤ len (words (group_filter g)) < 2 ^ 32) as Hwc.
  { unfold word_count, FILTER_BITS_PER_KEY in Hwords. destruct (unique_key_count g =? 0); [done|]. unfold checked_mul in Hwords.
    destruct (unique_key_count g * 10 <? 2 ^ 64); [|done]. cbn [ok_or] in Hwords.
    assert (len (words (group_filter g)) = (Z.max (unique_key_count g * 10) 64 + 63) / 64) as -> by congruence.
    split; [apply Z.div_pos; lia|]. apply Z.div_lt_upper_bound; lia. }
  rewrite (le_u64_field fs group_shape 0 (group_row_start g)), (le_u32_field fs group_shape 1 (group_row_count g)),
    (le_u32_field fs group_shape 2 (len (group_first_key g))), (le_u32_field fs group_shape 3 (len (group_last_key g))),
    (le_u32_field fs group_shape 6 (unique_key_count g)), (le_u32_field fs group_shape 7 (len (words (group_filter g)))),
    (le_u16_field fs group_shape 4 6) by (done || lia).
  rewrite (slice_field fs group_shape 5 (replicate 2 x00)) by done.
  rewrite Hrow, Z.eqb_refl, (proj2 (Z.eqb_neq (group_row_count g) 0)), (proj2 (Z.eqb_neq (unique_key_count g) 0)),
    (proj2 (Z.ltb_ge (group_row_count g) _)) by lia. cbn [Z.eqb Pos.eqb PAGES_PER_GROUP some_nonzero existsb replicate negb orb].
  rewrite bool_decide_eq_true_2 by done. cbn [negb orb]. rewrite Hwords, Z.eqb_refl.
  rewrite (proj2 (Z.eqb_neq (len (group_first_key g)) 0)), (proj2 (Z.eqb_neq (len (group_last_key g)) 0)) by lia.
  unfold SEGMENT_MAX_KEY_BYTES. rewrite (proj2 (Z.ltb_ge _ (len (group_first_key g)))), (proj2 (Z.ltb_ge _ (len (group_last_key g)))) by lia.
  cbn [negb orb]. rewrite app_assoc in Hi.
  rewrite (slice_named_mid (pre ++ group_header g) (group_first_key g) _ _ _ _ Hi) by (rewrite ?len_app, ?Hh; done).
  rewrite app_assoc in Hi.
  rewrite (slice_named_mid ((pre ++ group_header g) ++ group_first_key g) (group_last_key g) _ _ _ _ Hi) by (rewrite ?len_app, ?Hh; done).
  assert (ltb (group_last_key g) (group_first_key g) = false) as -> by (rewrite leb_ltb in Hkeys; by apply negb_true_iff).
  assert (match ix_last_key st with Some prior => leb (group_first_key g) prior | None => false end = false) as ->.
  { destruct (ix_last_key st) as [prior|]; [|done]. by rewrite leb_ltb, Hprior. }
  cbn [orb]. rewrite app_assoc in Hi.
  pose proof (parse_pages_ok g ORDERED _ _ (ix_page_end st) end_ [] Hpages Hi Hchain Hpe Hend) as Hpp.
  rewrite !len_app, Hh in Hpp. unfold ROW_GROUP_HEADER_BYTES. rewrite Hpp. clear Hpp. cbn [app].
  unfold checked_mul. rewrite (proj2 (Z.ltb_lt _ _)) by lia. cbn [ok_or]. rewrite app_assoc in Hi.
  rewrite (slice_named_mid _ _ _ _ _ _ Hi).
  2:{ rewrite !len_app, Hh. rewrite <-(len_pages policy g) by apply Hpages. done. }
  2:{ rewrite len_words. lia. }
  assert (length (concat (map (le_bytes 8) (words (group_filter g)))) / 8 = length (words (group_filter g)))%nat as ->.
  { pose proof (len_words (words (group_filter g))) as Hl. unfold len in Hl.
    symmetry. apply (Nat.div_unique _ 8 (length (words (group_filter g))) 0); lia. }
  rewrite chunks_words by done. unfold from_words. rewrite Hwords, Z.eqb_refl. cbn [negb].
  assert (len index = len pre + (32 + len (group_first_key g) + len (group_last_key g) + 96 * len ORDERED + 8 * len (words (group_filter g))) + len suf) as Hlen.
  { rewrite Hi, !len_app, Hh, len_words, (len_pages policy g) by apply Hpages. lia. }
  pose proof (len_nonneg suf). unfold checked_add. rewrite (proj2 (Z.ltb_lt _ (2 ^ 64))) by lia. cbn [ok_or].
  cbn [map ORDERED]. change (validate_page_shapes (pages_of _ _) (group_row_count g)) with (validate_page_shapes (page g) (group_row_count g)).
  rewrite Hshapes, (proj2 (Z.ltb_lt _ _)) by lia. cbn [ok_or]. do 2 f_equal.
  - unfold group_entry. rewrite !len_app, Hh, len_words, (len_pages policy g) by apply Hpages. lia.
  - unfold reread. by destruct (group_filter g).
Qed.

(** The groups of an index: rows, keys and pages follow one another. *)
Fixpoint index_chain (row : Z) (prior : option key) (page_start : Z) (gs : list RowGroupDescriptor) (row_end page_end : Z) : Prop :=
  match gs with
  | [] => row = row_end ∧ page_start = page_end
  | g :: gs =>
    entry_ok policy g ∧ group_row_start g = row
    ∧ match prior with Some k => ltb k (group_first_key g) = true | None => True end
    ∧ ∃ middle, page_chain page_start (map (page g) ORDERED) middle
      ∧ index_chain (row + group_row_count g) (Some (group_last_key g)) middle gs row_end page_end
  end.

Lemma index_chain_end row prior start gs row_end page_end :
  index_chain row prior start gs row_end page_end → row ≤ row_end ∧ start ≤ page_end.
Proof.
  revert row prior start. induction gs as [|g gs IH]; intros row prior start; cbn [index_chain]; [lia|].
  intros (Hok & _ & _ & mid & Hp & Hc). apply IH in Hc as [Hr Hm]. pose proof (ok_rows _ _ Hok). split; [lia|].
  apply page_chain_end in Hp; [lia|]. apply Forall_map, Forall_forall. intros kind _.
  destruct (ok_pages _ _ Hok kind) as (Hwf & _). apply (wf_physical _ _ Hwf).
Qed.

Lemma parse_groups_ok gs pre suf row prior start parsed row_end page_end :
  index = pre ++ concat (map group_entry gs) ++ suf → index_chain row prior start gs row_end page_end →
  0 ≤ row → row_end < 2 ^ 64 → 0 ≤ start → page_end ≤ index_offset →
  ∃ final, parse_groups (length gs) index policy index_offset
      {| ix_cursor := len pre; ix_groups := parsed; ix_row_start := row; ix_last_key := prior; ix_page_end := start |}
    = Ok {| ix_cursor := len pre + len (concat (map group_entry gs)); ix_groups := parsed ++ map reread gs;
            ix_row_start := row_end; ix_last_key := final; ix_page_end := page_end |}.
Proof.
  revert pre row prior start parsed. induction gs as [|g gs IH]; intros pre row prior start parsed Hi Hc Hr Hre Hst Hpe.
  { destruct Hc as [-> ->]. exists prior. cbn. by rewrite len_nil, Z.add_0_r, app_nil_r. }
  cbn [index_chain] in Hc. destruct Hc as (Hok & Hrow & Hprior & mid & Hp & Hc). cbn [map concat] in Hi. rewrite <-app_assoc in Hi.
  destruct (index_chain_end _ _ _ _ _ _ Hc) as [He1 He2].
  assert (start ≤ mid) as Hsm.
  { apply page_chain_end in Hp; [done|]. apply Forall_map, Forall_forall. intros kind _.
    destruct (ok_pages _ _ Hok kind) as (Hwf & _). apply (wf_physical _ _ Hwf). }
  pose proof (ok_rows _ _ Hok). cbn [length parse_groups].
  rewrite (parse_group_ok pre g _ _ mid Hi Hok) by (done || (cbn; lia)).
  rewrite app_assoc in Hi. cbn [ix_groups]. rewrite Hrow.
  destruct (IH _ _ _ mid (parsed ++ [reread g]) Hi Hc) as (final & ->); [lia..|].
  exists final. cbn [map concat]. rewrite !len_app, <-app_assoc, Z.add_assoc. done.
Qed.
End Index.

Definition index_header_shape : list nat := [8; 4; 2; 2; 2; 1; 1; 1; 11]%nat.
Definition index_header_fields (groups : list RowGroupDescriptor) : list (list byte) :=
  [INDEX_MAGIC; le_bytes 4 (len groups); le_bytes 2 PAGES_PER_GROUP; le_bytes 2 ROW_GROUP_HEADER_BYTES;
   le_bytes 2 PAGE_DESCRIPTOR_BYTES; [u8_of FILTER_FORMAT_VERSION]; [u8_of FILTER_BITS_PER_KEY];
   [u8_of (Z.of_nat FILTER_HASH_FUNCTIONS)]; replicate 11 x00].
Lemma index_header_concat groups : index_header groups = concat (index_header_fields groups).
Proof. unfold index_header_fields, index_header. cbn [concat app]. by rewrite app_nil_r. Qed.
Lemma index_fields_shape groups : map length (index_header_fields groups) = index_header_shape.
Proof. unfold index_header_fields. cbn [map]. rewrite !length_le_bytes. vm_compute. reflexivity. Qed.
Lemma len_index_header groups : len (index_header groups) = 32.
Proof. rewrite index_header_concat. unfold len. by rewrite length_concat, index_fields_shape. Qed.

Lemma parse_index_header_ok pre groups entries_ suf h :
  h_index_offset h = len pre → h_index_bytes h = 32 + len entries_ → h_groups h = len groups → len groups * 616 ≤ len entries_ →
  len groups < 2 ^ 32 →
  parse_index_header (pre ++ (index_header groups ++ entries_) ++ suf) h = Ok (index_header groups ++ entries_).
Proof.
  intros Ho Hb Hg Hfit Hn. unfold parse_index_header, read_at. rewrite Ho, Hb, Hg.
  rewrite (slice_get_app pre (index_header groups ++ entries_) suf) by (rewrite ?len_app, ?len_index_header; done). cbn [ok_or].
  rewrite index_header_concat. pose proof (index_fields_shape groups) as Hs. set (fs := index_header_fields groups) in *.
  pose proof (len_nonneg groups).
  rewrite (le_u32_field fs index_header_shape 1 (len groups)), (le_u16_field fs index_header_shape 2 6), (le_u16_field fs index_header_shape 3 32),
    (le_u16_field fs index_header_shape 4 96), (slice_get_field fs index_header_shape 0 INDEX_MAGIC) by (done || lia).
  rewrite (byte_field fs index_header_shape 5 (u8_of 1)), (byte_field fs index_header_shape 6 (u8_of 10)), (byte_field fs index_header_shape 7 (u8_of 7)),
    (slice_field fs index_header_shape 8 (replicate 11 x00)) by done.
  rewrite Z.eqb_refl, bool_decide_eq_true_2 by done. unfold saturating_sub, INDEX_HEADER_BYTES.
  replace (Z.max 0 (32 + len entries_ - 32)) with (len entries_) by (pose proof (len_nonneg entries_); lia).
  change (ROW_GROUP_HEADER_BYTES + PAGES_PER_GROUP * PAGE_DESCRIPTOR_BYTES + 8) with 616.
  assert ((len entries_ / 616 <? len groups) = false) as -> by (apply Z.ltb_ge, Z.div_le_lower_bound; lia).
  match goal with |- (if ?c then _ else _) = _ => assert (c = false) as -> by (vm_compute; reflexivity) end. done.
Qed.

(** ** Pages in the file *)

(** Zeros fill the file from one offset to another. *)
Definition zero_gap (file : list byte) (a b : Z) : Prop :=
  a ≤ b ∧ slice_get file a b = Some (replicate (Z.to_nat (b - a)) x00).
Fixpoint page_gaps (file : list byte) (start : Z) (ps : list PageDescriptor) (end_ : Z) : Prop :=
  match ps with
  | [] => start = end_
  | p :: ps => zero_gap file start (page_offset p) ∧ page_gaps file (page_offset p + physical_bytes p) ps end_
  end.
Lemma page_gaps_app file start ps qs end_ :
  page_gaps file start (ps ++ qs) end_ ↔ ∃ middle, page_gaps file start ps middle ∧ page_gaps file middle qs end_.
Proof.
  revert start. induction ps as [|p ps IH]; intros start; cbn [app page_gaps].
  - split; [intros H; by exists start|by intros (? & <- & H)].
  - rewrite IH. naive_solver.
Qed.

Lemma zeros_are_zero n : some_nonzero (replicate n x00) = false.
Proof. induction n as [|n IH]; [done|]. cbn. by rewrite bool_decide_eq_true_2. Qed.
Lemma zero_range_ok file a b : zero_gap file a b → b < a + 64 → validate_zero_range file a b = Ok (b - a).
Proof.
  intros [Hab Hz] Hlt. unfold validate_zero_range, checked_sub, PAGE_ALIGNMENT. rewrite (proj2 (Z.leb_le a b)) by done. cbn [ok_or].
  rewrite (proj2 (Z.leb_gt 64 _)) by lia. destruct (Z.eqb_spec (b - a) 0) as [->|]; [done|].
  unfold read_at. replace (a + (b - a)) with b by lia. rewrite Hz. cbn [ok_or].
  by rewrite zeros_are_zero.
Qed.

Lemma zero_padding_ok file groups start end_ index_offset :
  page_gaps file start (all_pages groups) end_ → page_chain start (all_pages groups) end_ → start = SEGMENT_HEADER_BYTES →
  Forall (λ p, 0 ≤ physical_bytes p) (all_pages groups) → zero_gap file end_ index_offset → index_offset < end_ + 64 →
  index_offset < 2 ^ 63 → is_ok (validate_zero_padding file groups index_offset) = true.
Proof.
  intros Hg Hc Hst Hphys Hlast Hend Hio. unfold validate_zero_padding. destruct Hlast as [Hle Hlast].
  match goal with |- context [try_fold ?f _ (all_pages groups)] =>
    assert (∀ ps start read, Forall (λ p, 0 ≤ physical_bytes p) ps → page_gaps file start ps end_ → page_chain start ps end_ →
      0 ≤ start → 0 ≤ read ≤ start → ∃ read', try_fold f (start, read) ps = Ok (end_, read') ∧ 0 ≤ read' ≤ end_) as Hfold end.
  { clear Hg Hc Hphys Hst start. induction ps as [|p ps IH]; intros start read Hph Hg Hc Hs0 Hr; cbn [try_fold].
    - cbn in Hg. subst. by exists read.
    - apply Forall_cons in Hph as [Hp Hph]. cbn beta in Hp. destruct Hg as [Hg1 Hg2]. destruct Hc as (Ha & Ho & Hc).
      rewrite zero_range_ok by (done || lia). pose proof (page_chain_end _ _ _ Hph Hc). unfold checked_add.
      rewrite (proj2 (Z.ltb_lt (read + _) _)) by lia. cbn [ok_or]. rewrite (proj2 (Z.ltb_lt (page_offset p + _) _)) by lia. cbn [ok_or].
      apply IH; [done|done|done|lia|lia]. }
  destruct (Hfold (all_pages groups) start 0 Hphys Hg Hc) as (read & Hf & Hr); [unfold SEGMENT_HEADER_BYTES in Hst; lia..|].
  rewrite <-Hst, Hf, zero_range_ok by (done || split; done). unfold checked_add. by rewrite (proj2 (Z.ltb_lt _ _)) by lia.
Qed.

Lemma all_pages_reread groups : all_pages (map reread groups) = all_pages groups.
Proof.
  unfold all_pages. rewrite map_map. f_equal.
Qed.

Lemma index_chain_pages policy row prior start gs row_end page_end :
  index_chain policy row prior start gs row_end page_end →
  page_chain start (all_pages gs) page_end ∧ Forall (λ p, 0 ≤ physical_bytes p) (all_pages gs).
Proof.
  revert row prior start. induction gs as [|g gs IH]; intros row prior start; cbn [index_chain].
  - intros [_ ->]. split; [done|constructor].
  - intros (Hok & _ & _ & mid & Hp & Hc). destruct (IH _ _ _ Hc) as [Hps Hph]. unfold all_pages. cbn [map concat]. split.
    + apply page_chain_app. by exists mid.
    + apply Forall_app. split; [|done]. apply Forall_map, Forall_forall. intros kind _.
      destruct (ok_pages _ _ Hok kind) as (Hwf & _). apply (wf_physical _ _ Hwf).
Qed.

Lemma entry_bytes policy g : entry_ok policy g → 616 ≤ len (group_entry g).
Proof.
  intros Hok. unfold group_entry. rewrite !len_app, len_group_header, len_words.
  rewrite (len_pages policy g) by (intros kind; apply (ok_pages _ _ Hok kind)).
  pose proof (ok_first _ _ Hok). pose proof (ok_last _ _ Hok). change (len ORDERED) with 6.
  assert (0 < len (words (group_filter g))); [|lia]. pose proof (ok_words _ _ Hok) as Hw.
  unfold word_count in Hw. destruct (unique_key_count g =? 0); [done|]. destruct (checked_mul _ _ _); [|done]. cbn [ok_or] in Hw.
  assert (len (words (group_filter g)) = (Z.max z 64 + 63) / 64) as -> by congruence. apply Z.div_str_pos. lia.
Qed.
Lemma entries_fit policy row prior start gs row_end page_end :
  index_chain policy row prior start gs row_end page_end → len gs * 616 ≤ len (concat (map group_entry gs)).
Proof.
  revert row prior start. induction gs as [|g gs IH]; intros row prior start; cbn [index_chain]; [done|].
  intros (Hok & _ & _ & mid & _ & Hc). specialize (IH _ _ _ Hc). cbn [map concat]. rewrite len_app, len_cons.
  pose proof (entry_bytes _ _ Hok). lia.
Qed.

(** ** A whole file *)

Section WholeFile.
Context (budget : SegmentRowGroupBudget) (policy : SegmentCompressionPolicy) (groups : list RowGroupDescriptor).
Context (entries_ minimum maximum page_end : Z) (body footer : list byte) (checksum : string).
Definition file_index : list byte := index_header groups ++ concat (map group_entry groups).
Definition file_header : list byte :=
  concat (header_fields entries_ minimum maximum (len groups) (256 + len body) (len file_index) budget policy).
Definition whole_file : list byte := file_header ++ body ++ file_index ++ footer.

Context (Hbw : budget_wf budget) (Hpw : policy_wf policy).
Context (Hbudget : budget_validate budget = Ok budget) (Hpolicy : compression_policy_validate policy = Ok policy).
Context (Hentries : 0 < entries_ < 2 ^ 64) (Hmin : 0 < minimum) (Hmax : minimum ≤ maximum < 2 ^ 64).
Context (Hchain : index_chain policy 0 None SEGMENT_HEADER_BYTES groups entries_ page_end) (Hne : groups ≠ []).
Context (Hgaps : page_gaps whole_file SEGMENT_HEADER_BYTES (all_pages groups) page_end).
Context (Hlast : zero_gap whole_file page_end (256 + len body)) (Hpad : 256 + len body < page_end + 64).
Context (Haligned : (256 + len body) mod 64 = 0) (Hib : len file_index ≤ MAX_INDEX_BYTES).
Context (Hsize : len whole_file ≤ MAX_SEGMENT_BYTES) (Hfooter : len footer = 64).
Context (Henvelope : validate_logical_envelope groups (len file_index) = Ok tt).

Lemma envelope_reread n : validate_logical_envelope (map reread groups) n = validate_logical_envelope groups n.
Proof. unfold validate_logical_envelope. by rewrite all_pages_reread. Qed.

Lemma file_header_length : len file_header = 256.
Proof. apply header_length. Qed.

Definition file_descriptor (first final : RowGroupDescriptor) : SegmentDescriptor :=
  {| segment_id := checksum; segment_level := 0; format_version := SEGMENT_FORMAT_VERSION;
     schema_digest := SEGMENT_SCHEMA_DIGEST; key_codec_digest := SEGMENT_KEY_CODEC_DIGEST;
     page_format_digest := SEGMENT_PAGE_FORMAT_DIGEST; first_key := group_first_key first; last_key := group_last_key final;
     minimum_sequence := minimum; maximum_segment_sequence := maximum; entries := entries_;
     segment_bytes := len whole_file; segment_checksum := checksum |}.

(** The parser accepts the file and returns the groups it was written from. *)
Lemma parse_metadata_ok :
  ∃ first final, head groups = Some first ∧ last groups = Some final
    ∧ parse_metadata whole_file (len whole_file) checksum
      = Ok {| parsed_descriptor := file_descriptor first final; parsed_budget := budget; parsed_compression := policy;
              parsed_groups := map reread groups |}.
Proof.
  destruct (head groups) as [first|] eqn:Efirst; [|by destruct groups].
  destruct (last groups) as [final|] eqn:Efinal; [|by apply last_None in Efinal].
  exists first, final. split_and!; [done..|].
  pose proof (entries_fit _ _ _ _ _ _ _ Hchain) as Hfit.
  assert (len file_index = 32 + len (concat (map group_entry groups))) as Hil by (unfold file_index; by rewrite len_app, len_index_header).
  assert (len whole_file = 256 + len body + len file_index + 64) as Hlen
    by (unfold whole_file; rewrite !len_app, file_header_length, Hfooter; lia).
  assert (0 < len groups) as Hpos by (destruct groups; [done|]; rewrite len_cons; pose proof (len_nonneg l); lia).
  pose proof (len_nonneg body). unfold MAX_INDEX_BYTES, MAX_SEGMENT_BYTES in *.
  assert (len groups < 2 ^ 32) as Hg32 by lia.
  assert (parse_header whole_file (len whole_file)
    = Ok {| h_entries := entries_; h_minimum := minimum; h_maximum := maximum; h_groups := len groups;
            h_index_offset := 256 + len body; h_index_bytes := len file_index; h_budget := budget; h_policy := policy |}) as Hhead.
  { unfold whole_file, file_header. apply parse_header_ok; try done; try lia.
    - unfold MAX_INDEX_BYTES. lia.
    - fold file_header whole_file. lia.
    - fold file_header whole_file. lia. }
  unfold parse_metadata. rewrite Hhead. cbn [h_groups h_policy h_index_offset h_index_bytes h_entries h_minimum h_maximum h_budget].
  unfold whole_file at 1.
  rewrite (app_assoc file_header). unfold file_index at 1.
  rewrite (parse_index_header_ok (file_header ++ body) groups (concat (map group_entry groups)) footer)
    by (rewrite ?len_app, ?file_header_length; done).
  fold file_index. unfold len at 1. rewrite Nat2Z.id.
  destruct (parse_groups_ok policy file_index (256 + len body) ltac:(lia) ltac:(lia) groups (index_header groups) [] 0 None
    SEGMENT_HEADER_BYTES [] entries_ page_end) as (fin & Hp); [by rewrite app_nil_r|done|lia|lia|done| |].
  { apply Hlast. }
  rewrite len_index_header in Hp. unfold INDEX_HEADER_BYTES. rewrite Hp. cbn [ix_cursor ix_row_start ix_groups app].
  rewrite Hil, !Z.eqb_refl. cbn [negb orb]. rewrite <-Hil, envelope_reread, Henvelope.
  assert (is_ok (validate_zero_padding whole_file (map reread groups) (256 + len body)) = true) as Hzp.
  { destruct (index_chain_pages _ _ _ _ _ _ _ Hchain) as [Hpc Hph].
    eapply (zero_padding_ok _ _ SEGMENT_HEADER_BYTES page_end); rewrite ?all_pages_reread; try done. lia. }
  destruct (validate_zero_padding _ _ _) as [read|e]; [|done].
  assert (head (map reread groups) = Some (reread first)) as ->.
  { clear -Efirst. destruct groups; [discriminate|]. cbn in *. congruence. }
  assert (last (map reread groups) = Some (reread final)) as ->.
  { clear -Efinal. by rewrite fmap_last, Efinal. }
  done.
Qed.
End WholeFile.
