(* ===== verification/SegmentWrite.v ===== *)
(** Writing segments ([rrd-lsm]: segment/format.rs, the encoder).

    The invariant of the encoder: the output is a header, then the aligned pages of the groups
    closed so far; every closed group was built from the rows of whole keys, and the current
    builder holds the rest.

    The theorems: the file the encoder returns is accepted by the parser, every page reads back
    as the column that was written, and the opened segment holds exactly the rows of the table
    in their order. *)

From S2P Require Import Prelude Machine BTree Ident Digest LsmError Batch RecoveryBudget Wal Memtable Versions SegmentFormat Segment SegmentFile.
Open Scope Z_scope.

(** * Tables and writers *)

(** The rows of a table, one after the other. *)
Definition flat (part : list (key * list VersionedValue)) : list row := concat (map (λ '(k, vs), map (k,.) vs) part).

(** A key with its chain of versions, the oldest first. *)
Definition chain_ok (r : key * list VersionedValue) : Prop :=
  r.1 ≠ [] ∧ r.2 ≠ [] ∧ oldest_first r.2 ∧ Forall (λ v, 0 < sequence v < 2 ^ 64) r.2.

(** A table a segment can be written from: ordered keys, each with an ordered chain. *)
Definition storable (rows : list (key * list VersionedValue)) : Prop :=
  rows ≠ [] ∧ bt_sorted rows ∧ Forall chain_ok rows.

(** What a writer of segments promises: the segment it returns holds the rows of its table. *)
Class SegmentWriter (write_segment : list (key * list VersionedValue) → result Error Segment) : Prop :=
  writer_holds rows seg : storable rows → write_segment rows = Ok seg → ∃ gs, segment_holds seg gs ∧ concat gs = flat rows.

Lemma flat_elem part k v : (k, v) ∈ flat part ↔ ∃ vs, (k, vs) ∈ part ∧ v ∈ vs.
Proof.
  unfold flat. rewrite list_elem_of_In, in_concat. split.
  - intros (l & Hl & Hin). apply in_map_iff in Hl as ([k' vs] & <- & Hp). apply in_map_iff in Hin as (w & [= -> ->] & Hw).
    exists vs. by rewrite !list_elem_of_In.
  - intros (vs & Hp & Hv). exists (map (k,.) vs). rewrite in_map_iff. split; [exists (k, vs)|apply in_map_iff; exists v];
      by rewrite <-list_elem_of_In.
Qed.

(** * Encoding *)

(** ** Alignment *)

Definition padding (n : Z) : Z := (64 - n mod 64) mod 64.
Lemma padding_bounds n : 0 ≤ padding n < 64.
Proof. unfold padding. apply Z.mod_pos_bound. lia. Qed.
Lemma padding_aligns n : (n + padding n) mod 64 = 0.
Proof.
  unfold padding. rewrite Zplus_mod_idemp_r. replace (n + (64 - n mod 64)) with ((n / 64 + 1) * 64).
  - apply Z.mod_mul. lia.
  - pose proof (Z.div_mod n 64 ltac:(lia)). lia.
Qed.
Lemma len_zeros n : 0 ≤ n → len (replicate (Z.to_nat n) x00) = n.
Proof. intros Hn. unfold len. rewrite length_replicate. lia. Qed.
Lemma align_eq out : align out = out ++ replicate (Z.to_nat (padding (len out))) x00.
Proof. done. Qed.
Lemma len_align out : len (align out) = len out + padding (len out).
Proof. pose proof (padding_bounds (len out)). rewrite align_eq, len_app, len_zeros; lia. Qed.
Lemma align_app h h' body : length h = length h' → ∃ z, align (h ++ body) = h ++ body ++ z ∧ align (h' ++ body) = h' ++ body ++ z.
Proof.
  intros Hl. exists (replicate (Z.to_nat (padding (len (h ++ body)))) x00). rewrite !align_eq, <-!app_assoc. split; [done|].
  do 5 f_equal. unfold len. by rewrite !length_app, Hl.
Qed.

Section Write.
Context `{RingLaws} `{Lz4Laws}.

(** ** Pages laid in the output *)

(** The stored bytes of a page, and the column they decode to. *)
Definition stores (p : PageDescriptor) (stored column : list byte) : Prop :=
  physical_bytes p = len stored ∧ verify_stored_page stored p = Ok tt ∧ finish_page stored p = Ok column.

Inductive laid (h : list byte) : list byte → list (PageDescriptor * list byte) → Prop :=
| laid_nil : laid h h []
| laid_page out ps p stored column :
    laid h out ps → page_offset p = len (align out) → stores p stored column →
    laid h (align out ++ stored) (ps ++ [(p, column)]).

(** Another header of the same length changes nothing else. *)
Lemma laid_rebase h h' out ps :
  laid h out ps → length h = length h' → ∃ body, out = h ++ body ∧ laid h' (h' ++ body) ps.
Proof.
  intros Hl Hlen. induction Hl as [|out ps p stored column Hl (body & -> & IH) Ho Hs].
  - exists []. rewrite !app_nil_r. split; [done|constructor].
  - destruct (align_app h h' body Hlen) as (z & E & E'). exists (body ++ z ++ stored). rewrite E. split; [by rewrite <-!app_assoc|].
    replace (h' ++ body ++ z ++ stored) with (align (h' ++ body) ++ stored) by (by rewrite E', <-!app_assoc).
    constructor; [done| |done]. rewrite Ho, E, E'. unfold len. by rewrite !length_app, Hlen.
Qed.

Lemma laid_facts h out ps :
  laid h out ps → ∀ more,
  page_chain (len h) (map fst ps) (len out) ∧ page_gaps (out ++ more) (len h) (map fst ps) (len out)
  ∧ ∀ p column, (p, column) ∈ ps → ∃ stored, stores p stored column
      ∧ slice_get (out ++ more) (page_offset p) (page_offset p + physical_bytes p) = Some stored.
Proof.
  induction 1 as [|out ps p stored column Hl IH Ho Hs]; intros more.
  { split_and!; [done..|]. by intros p column ?%not_elem_of_nil. }
  destruct (IH (replicate (Z.to_nat (padding (len out))) x00 ++ stored ++ more)) as (Hc & Hg & Hst).
  pose proof (padding_bounds (len out)) as Hpb. pose proof (len_align out) as Hla. destruct Hs as (Hphys & Hver & Hfin).
  assert ((align out ++ stored) ++ more = out ++ replicate (Z.to_nat (padding (len out))) x00 ++ stored ++ more) as Hfile
    by (by rewrite align_eq, <-!app_assoc).
  split_and!.
  - rewrite map_app. apply page_chain_app. exists (len out). split; [done|]. cbn [map page_chain fst].
    rewrite Ho, Hla, Hphys, len_app, Hla. split_and!; [apply padding_aligns|lia|lia|done].
  - rewrite map_app. apply page_gaps_app. exists (len out). rewrite Hfile. split; [done|]. cbn [map page_gaps fst].
    rewrite Ho, Hla, Hphys, len_app, Hla. split; [|done]. split; [lia|].
    rewrite slice_get_app; [f_equal; f_equal; lia|done|]. by rewrite len_zeros by lia.
  - intros p' column' [Hin|Hin%list_elem_of_singleton]%elem_of_app.
    + rewrite Hfile. by apply Hst.
    + injection Hin as -> ->. exists stored. split; [done|]. rewrite Ho, Hphys, <-app_assoc. by apply slice_get_app.
Qed.

(** Reading a page from the file gives the column it was written from. *)
Lemma read_laid_page h out ps more p column :
  laid h out ps → (p, column) ∈ ps → 0 ≤ page_offset p + physical_bytes p < 2 ^ 64 → read_page (out ++ more) p = Ok column.
Proof.
  intros Hl Hin Hb. destruct (laid_facts _ _ _ Hl more) as (_ & _ & Hst).
  destruct (Hst p column Hin) as (stored & (_ & Hver & Hfin) & Hsl). unfold read_page, checked_add.
  rewrite (proj2 (Z.ltb_lt _ _)) by lia. cbn [ok_or]. rewrite Hsl. cbn [ok_or]. by rewrite Hver.
Qed.

Lemma compression_saves_Ok logical stored savings : compression_saves logical stored savings = Ok true → stored < logical.
Proof.
  unfold compression_saves. destruct (Z.leb_spec logical stored); [done|]. lia.
Qed.

(** What is stored passes the reader's checks and decodes to the column. *)
Lemma stored_page_ok policy bytes compression stored :
  stored_page policy bytes = Ok (compression, stored) →
  validate_page_compression policy compression (len stored) (len bytes) = Ok tt
  ∧ ∀ p, page_compression p = compression → logical_bytes p = len bytes → finish_page stored p = Ok bytes.
Proof.
  assert (validate_page_compression policy NoCompression (len bytes) (len bytes) = Ok tt
    ∧ ∀ p, page_compression p = NoCompression → logical_bytes p = len bytes → finish_page bytes p = Ok bytes) as Hraw.
  { split; [unfold validate_page_compression; rewrite Z.eqb_refl; by destruct policy|].
    intros p Hp _. unfold finish_page. by rewrite Hp. }
  unfold stored_page. destruct policy as [|savings maximum]; [by intros [= <- <-]|].
  destruct (negb (len bytes =? 0) && (len bytes <=? maximum))%bool eqn:E; [|by intros [= <- <-]].
  apply andb_true_iff in E as [_ Hle]. destruct (lz4_compress bytes) as [c|reason] eqn:Ec; [|done].
  destruct (compression_saves (len bytes) (len c) savings) as [[|]|] eqn:Es; [|by intros [= <- <-]|done]. intros [= <- <-].
  split.
  - unfold validate_page_compression. pose proof (lz4_token _ _ Ec) as Hne. pose proof (len_nonneg c).
    assert (len c ≠ 0) by (by rewrite len_zero). rewrite (proj2 (Z.ltb_lt 0 _)), Hle by lia. cbn [andb]. by rewrite Es.
  - intros p Hp Hl. unfold finish_page. rewrite Hp, Hl, (lz4_roundtrip _ _ Ec), Z.eqb_refl. done.
Qed.

(** What a page descriptor says of the column it was written from. *)
Record described (policy : SegmentCompressionPolicy) (md : PageWriteMetadata) (bytes : list byte) (p : PageDescriptor) : Prop := {
  described_kind : page_kind p = write_kind md; described_start : page_row_start p = write_row_start md;
  described_count : page_row_count p = write_row_count md; described_nulls : page_null_count p = write_nulls md;
  described_minimum : statistic_min p = write_minimum md; described_maximum : statistic_max p = write_maximum md;
  described_bytes : logical_bytes p = len bytes; described_digest : length (page_digest p) = 32%nat;
  described_stored : validate_page_compression policy (page_compression p) (physical_bytes p) (logical_bytes p) = Ok tt
}.

Lemma append_page_spec policy md bytes out ev out' ev' p h ps :
  append_page policy md bytes (out, ev) = Ok (out', ev', p) → laid h out ps →
  laid h out' (ps ++ [(p, bytes)]) ∧ described policy md bytes p.
Proof.
  intros Ha Hl. unfold append_page in Ha. destruct (ok_or (checked_add 64 (logical_page_bytes ev) _) _) as [logical|]; [|done].
  destruct (stored_page policy bytes) as [[compression stored]|] eqn:Est; [|done].
  destruct (ok_or (checked_add 64 (stored_page_bytes ev) _) _) as [total|]; [|done].
  match type of Ha with match ?c with _ => _ end = _ => destruct c as [[raw comp]|]; [|done] end. injection Ha as <- <- <-.
  destruct (stored_page_ok _ _ _ _ Est) as [Hval Hfin]. split; [|constructor; try done; apply ring_length].
  constructor; [done|done|]. split_and!; [done| |by apply Hfin]. unfold verify_stored_page. cbn [page_digest].
  by rewrite bool_decide_eq_true_2.
Qed.

(** The pages of a group in file order, with their columns. *)
Definition group_pages (g : RowGroupDescriptor) (b : RowGroupBuilder) : list (PageDescriptor * list byte) :=
  map (λ kind, (page g kind, builder_page b kind)) ORDERED.

(** What a group descriptor says of the builder it was written from. *)
Record wrote (policy : SegmentCompressionPolicy) (b : RowGroupBuilder) (g : RowGroupDescriptor) : Prop := {
  wrote_rows : Z.of_nat (builder_rows b) < 2 ^ 32;
  wrote_filter : builder_filter b = Ok (group_filter g);
  wrote_start : group_row_start g = b_row_start b;
  wrote_count : group_row_count g = Z.of_nat (builder_rows b);
  wrote_unique : unique_key_count g = b_unique_key_count b;
  wrote_first : group_first_key g = b_first_key b;
  wrote_last : group_last_key g = b_last_key b;
  wrote_pages : ∀ kind, described policy (page_metadata b (Z.of_nat (builder_rows b)) kind) (builder_page b kind) (page g kind)
}.

Lemma append_row_group_spec policy b out ev out' ev' g h ps :
  append_row_group policy b (out, ev) = Ok (out', ev', g) → laid h out ps →
  laid h out' (ps ++ group_pages g b) ∧ wrote policy b g.
Proof.
  intros Ha Hl. unfold append_row_group in Ha. destruct (Z.leb_spec (2 ^ 32) (Z.of_nat (builder_rows b))) as [|Hrows]; [done|].
  destruct (builder_filter b) as [f|] eqn:Ef; [|done].
  do 6 match type of Ha with match append_page ?policy ?md ?bytes (?o, ?e) with _ => _ end = _ =>
    let D := fresh "D" in let E := fresh "E" in
    destruct (append_page policy md bytes (o, e)) as [[[? ?] ?]|] eqn:E; [|done];
    apply (append_page_spec _ _ _ _ _ _ _ _ h _ E) in Hl; destruct Hl as [Hl D]; clear E end.
  injection Ha as <- <- <-. split; [by rewrite <-!app_assoc in Hl|].
  constructor; try done. by intros [].
Qed.

(** ** Counts and statistics of a builder *)

Lemma runs_bounds rs : 0 ≤ runs rs ≤ len rs ∧ (rs ≠ [] → 0 < runs rs).
Proof.
  induction rs as [|r rs IH] using rev_ind; [done|]. rewrite runs_snoc, len_app. change (len [r]) with 1.
  destruct (decide _) as [E|]; [|split; lia]. destruct IH as [IH Hpos]. split; [lia|]. intros _. apply Hpos. by intros ->.
Qed.
Lemma nulls_bounds rs : 0 ≤ nulls rs ≤ len rs.
Proof.
  induction rs as [|r rs IH] using rev_ind; [done|]. rewrite nulls_snoc, len_app. change (len [r]) with 1.
  destruct (deleted r); unfold saturating_add; lia.
Qed.
Lemma least_u64 f rs : Forall (λ r, 0 ≤ f r) rs → 0 ≤ least f rs < 2 ^ 64.
Proof.
  induction rs as [|r rs IH] using rev_ind; [done|]. intros [Hrs [Hr _]%Forall_cons]%Forall_app. rewrite least_snoc. specialize (IH Hrs). lia.
Qed.
Lemma greatest_u64 f rs : Forall (λ r, f r < 2 ^ 64) rs → 0 ≤ greatest f rs < 2 ^ 64.
Proof.
  induction rs as [|r rs IH] using rev_ind; [done|]. intros [Hrs [Hr _]%Forall_cons]%Forall_app. rewrite greatest_snoc. specialize (IH Hrs). lia.
Qed.

(** The minimum and maximum of the sequences are those of the rows. *)
Lemma minimum_least rs : rs ≠ [] → Forall (λ r, row_sequence r ≤ u64_max) rs → minimum_of (map row_sequence rs) = least row_sequence rs.
Proof.
  destruct rs as [|r rs]; [done|]. intros _ [Hr _]%Forall_cons. unfold least. cbn [map minimum_of fold_left].
  rewrite (Z.min_r u64_max) by done. generalize (row_sequence r). induction rs as [|x rs IH]; intros z; [done|]. cbn [map fold_left]. apply IH.
Qed.
Lemma maximum_greatest rs : rs ≠ [] → Forall (λ r, 0 ≤ row_sequence r) rs → maximum_of (map row_sequence rs) = greatest row_sequence rs.
Proof.
  destruct rs as [|r rs]; [done|]. intros _ [Hr _]%Forall_cons. unfold greatest. cbn [map maximum_of fold_left].
  rewrite (Z.max_r 0) by done. generalize (row_sequence r). induction rs as [|x rs IH]; intros z; [done|]. cbn [map fold_left]. apply IH.
Qed.

(** The words of a filter are 64 bits wide, and there are as many as its size says. *)
Definition words_ok (n : Z) (ws : list Z) : Prop := len ws = n ∧ Forall (λ w, 0 ≤ w < 2 ^ 64) ws.
Lemma set_bit_ok n ws bit : 0 ≤ bit → words_ok n ws → words_ok n (set_bit ws bit).
Proof.
  intros Hb [Hn Hw]. split; [unfold len in *; by rewrite set_bit_length|]. unfold set_bit.
  apply Forall_alter; [done|]. intros w Hi Hwi. rewrite Z.shiftl_1_l. pose proof (Z.mod_pos_bound bit 64 ltac:(lia)).
  assert (0 ≤ 2 ^ (bit mod 64)) by lia. split; [apply Z.lor_nonneg; lia|].
  destruct (Z.eq_dec (Z.lor w (2 ^ (bit mod 64))) 0) as [->|Hne]; [lia|].
  apply Z.log2_lt_pow2; [pose proof (proj2 (Z.lor_nonneg w (2 ^ (bit mod 64)))); lia|].
  rewrite Z.log2_lor, Z.log2_pow2 by lia. apply Z.max_lub_lt; [|lia].
  destruct (Z.eq_dec w 0) as [->|]; [cbn; lia|]. apply Z.log2_lt_pow2; lia.
Qed.
Lemma filter_insert_ok n f k : 0 < n → words_ok n (words f) → words_ok n (words (filter_insert f k)).
Proof.
  intros Hn Hw. unfold filter_insert. cbn [words].
  assert (Forall (λ bit, 0 ≤ bit) (positions f k)) as Hbits.
  { apply Forall_forall. intros bit Hbit. apply positions_bound in Hbit; [lia|]. destruct Hw as [<- _]. by intros E; rewrite E in Hn. }
  revert Hw. generalize (words f). induction Hbits as [|bit bits Hb _ IH]; intros ws Hw; [done|]. cbn [fold_left]. by apply IH, set_bit_ok.
Qed.
Lemma filter_of_ok n f rs : 0 < n → words_ok n (words f) → words_ok n (words (filter_of f rs)).
Proof.
  intros Hn Hw. unfold filter_of. apply (fold_left_inv (λ acc, words_ok n (words acc.1))); [done|].
  intros acc k Hacc. unfold filter_step. destruct (decide _); [done|]. by apply filter_insert_ok.
Qed.

(** ** The index entry of a written group *)

Lemma builder_rows_len start b rs : built start b rs → Z.of_nat (builder_rows b) = len rs.
Proof. intros Hb. unfold builder_rows. rewrite (built_sequences _ _ _ Hb), length_map. done. Qed.

Lemma len_concat_fixed {A} (f : A → list byte) n l : (∀ x, length (f x) = n) → len (concat (map f l)) = Z.of_nat n * len l.
Proof.
  intros Hf. induction l as [|x l IH]; [change (len (@nil A)) with 0; by rewrite Z.mul_0_r|].
  cbn [map concat]. rewrite len_app, len_cons, IH. unfold len at 1. rewrite Hf. lia.
Qed.
Lemma len_offsets_of start items : len (offsets_of start items) = len items + 1.
Proof.
  revert start. induction items as [|x items IH]; intros start; [done|]. cbn [offsets_of]. rewrite !len_cons, IH. lia.
Qed.

Lemma builder_page_len start b rs kind :
  built start b rs → len rs < 2 ^ 32 →
  len (builder_page b kind) < 2 ^ 64
  ∧ match kind with
    | KeyOffsets | ValueOffsets => len (builder_page b kind) = (len rs + 1) * 8
    | SequenceValues => len (builder_page b kind) = len rs * 8
    | ValueValidity => len (builder_page b kind) = (len rs + 7) / 8
    | KeyData | ValueData => True
    end.
Proof.
  intros Hb Hlt.
  assert (len (builder_page b KeyOffsets) = (len rs + 1) * 8 ∧ len (builder_page b ValueOffsets) = (len rs + 1) * 8) as [L1 L2].
  { cbn [builder_page]. unfold encode_i64_values. rewrite !(len_concat_fixed _ 8) by (intros; apply length_le_bytes).
    rewrite (built_key_offsets _ _ _ Hb), (built_value_offsets _ _ _ Hb), !len_offsets_of. unfold len. rewrite !length_map. lia. }
  assert (len (builder_page b SequenceValues) = len rs * 8) as L3.
  { cbn [builder_page]. unfold encode_u64_values. rewrite (len_concat_fixed _ 8) by (intros; apply length_le_bytes).
    rewrite (built_sequences _ _ _ Hb). unfold len. rewrite length_map. lia. }
  assert (len (builder_page b ValueValidity) = (len rs + 7) / 8) as L4.
  { cbn [builder_page]. unfold len. rewrite (built_validity_length _ _ _ Hb), Nat2Z.inj_div, Nat2Z.inj_add. done. }
  pose proof (built_key_bytes _ _ _ Hb). pose proof (built_value_bytes _ _ _ Hb). pose proof (len_nonneg rs).
  assert ((len rs + 7) / 8 < 2 ^ 64) by (apply Z.div_lt_upper_bound; lia).
  destruct kind; rewrite ?L1, ?L2, ?L3, ?L4; split; try done; try lia; cbn [builder_page]; lia.
Qed.

Lemma built_filter start b rs f :
  built start b rs → rs ≠ [] → builder_filter b = Ok f →
  word_count (runs rs) = Ok (len (words f)) ∧ Forall (λ w, 0 ≤ w < 2 ^ 64) (words f)
  ∧ (∀ r, r ∈ rs → may_contain f r.1 = true)
  ∧ ∃ f0, filter_new (runs rs) = Ok f0 ∧ f = filter_of f0 rs.
Proof.
  intros Hb Hne Hf. destruct (filter_new (runs rs)) as [f0|] eqn:E0.
  2:{ unfold builder_filter in Hf. by rewrite (built_unique _ _ _ Hb), E0 in Hf. }
  rewrite (builder_filter_spec _ _ _ _ Hb E0) in Hf. injection Hf as <-.
  destruct (runs_bounds rs) as [Hruns Hpos]. pose proof (filter_new_nonempty _ _ (proj1 Hruns) E0) as Hwne.
  unfold filter_new in E0. destruct (word_count (runs rs)) as [n|] eqn:En; [|done].
  pose proof (word_count_ok _ _ (proj1 Hruns) En) as Hn. injection E0 as E0.
  destruct (filter_of_ok n f0 rs) as [Hlen Hbits]; [lia| |].
  { subst f0. split; [unfold len; cbn [words]; rewrite length_replicate; lia|]. cbn [words]. by apply Forall_replicate. }
  split_and!; [by rewrite Hlen|done| |by exists f0]. intros r Hr. by apply filter_of_contains.
Qed.

Lemma key_value_sizes start b rs : built start b rs →
  Forall (λ r, 0 ≤ key_size r) rs ∧ Forall (λ r, key_size r < 2 ^ 64) rs ∧ Forall (λ r, 0 ≤ value_size r) rs ∧ Forall (λ r, value_size r < 2 ^ 64) rs.
Proof.
  intros Hb. pose proof (built_rows_ok _ _ _ Hb) as Hr. unfold SEGMENT_MAX_KEY_BYTES, SEGMENT_MAX_VALUE_BYTES, key_size, value_size in *.
  split_and!; (eapply Forall_impl; [exact Hr|]); intros [k v] [Hk Hv]; cbn [fst snd] in *; try apply len_nonneg;
    unfold SEGMENT_MAX_KEY_BYTES, SEGMENT_MAX_VALUE_BYTES in *; lia.
Qed.

Lemma page_metadata_wf start b rs kind :
  built start b rs → rs ≠ [] → Forall (λ r : row, is_u64 (sequence r.2)) rs → 0 ≤ start < 2 ^ 64 → len rs < 2 ^ 32 →
  let md := page_metadata b (len rs) kind in
  0 ≤ write_row_start md < 2 ^ 64 ∧ write_row_count md = len rs ∧ write_kind md = kind ∧ 0 ≤ write_nulls md ≤ len rs
  ∧ 0 ≤ write_minimum md < 2 ^ 64 ∧ 0 ≤ write_maximum md < 2 ^ 64
  ∧ write_nulls md = match kind with ValueValidity | ValueOffsets | ValueData => nulls rs | _ => 0 end.
Proof.
  intros Hb Hne Hseq Hst Hlt. destruct (key_value_sizes _ _ _ Hb) as (K1 & K2 & V1 & V2).
  assert (Forall (λ r, 0 ≤ row_sequence r) rs ∧ Forall (λ r, row_sequence r < 2 ^ 64) rs ∧ Forall (λ r, row_sequence r ≤ u64_max) rs) as (S1 & S2 & S3).
  { unfold u64_max, row_sequence. split_and!; (eapply Forall_impl; [exact Hseq|]); intros r Hr; unfold in_width in Hr; lia. }
  pose proof (nulls_bounds rs). pose proof (least_u64 _ _ K1). pose proof (greatest_u64 _ _ K2).
  pose proof (least_u64 _ _ V1). pose proof (greatest_u64 _ _ V2). pose proof (least_u64 _ _ S1). pose proof (greatest_u64 _ _ S2).
  destruct (built_stats _ _ _ Hb) as (E1 & E2 & E3 & E4). pose proof (built_start _ _ _ Hb) as E5. pose proof (built_nulls _ _ _ Hb) as E6.
  destruct kind; cbn -[Z.pow]; rewrite ?E1, ?E2, ?E3, ?E4, ?E5, ?E6, ?(built_sequences _ _ _ Hb), ?minimum_least, ?maximum_greatest by done;
    split_and!; try done; lia.
Qed.

Lemma first_last_keys start b rs :
  built start b rs → rs ≠ [] → ∃ r z, head rs = Some r ∧ last rs = Some z ∧ b_first_key b = r.1 ∧ b_last_key b = z.1.
Proof.
  intros Hb Hne. rewrite (built_first _ _ _ Hb), (built_last _ _ _ Hb).
  destruct (head rs) as [r|] eqn:E1; [|by destruct rs]. destruct (last rs) as [z|] eqn:E2; [|by apply last_None in E2].
  by exists r, z.
Qed.

Lemma wrote_entry policy start b g rs :
  wrote policy b g → built start b rs → rs ≠ [] → rows_sorted rs → Forall (λ r : row, is_u64 (sequence r.2)) rs →
  0 ≤ start < 2 ^ 64 → (∀ kind, 0 ≤ page_offset (page g kind) < 2 ^ 64 ∧ 0 ≤ physical_bytes (page g kind) < 2 ^ 64) →
  entry_ok policy g.
Proof.
  intros Hw Hb Hne Hsorted Hseq Hst Hoff. pose proof (builder_rows_len _ _ _ Hb) as Hrows. pose proof (wrote_rows _ _ _ Hw) as Hlt.
  rewrite Hrows in Hlt. pose proof (wrote_count _ _ _ Hw) as Hcount. rewrite Hrows in Hcount.
  assert (0 < len rs) as Hpos by (destruct rs; [done|]; rewrite len_cons; pose proof (len_nonneg rs); lia).
  destruct (built_filter _ _ _ _ Hb Hne (wrote_filter _ _ _ Hw)) as (Hwc & Hbits & _ & _).
  destruct (runs_bounds rs) as [Hruns Hruns0]. specialize (Hruns0 Hne).
  assert (unique_key_count g = runs rs) as Hu by (rewrite (wrote_unique _ _ _ Hw); apply (built_unique _ _ _ Hb)).
  destruct (first_last_keys _ _ _ Hb Hne) as (r & z & Hr & Hz & Hfk & Hlk). pose proof (built_rows_ok _ _ _ Hb) as Hok.
  pose proof (wrote_pages _ _ _ Hw) as Hpages. rewrite Hrows in Hpages.
  pose proof (λ kind, page_metadata_wf _ _ _ kind Hb Hne Hseq Hst Hlt) as Hmd. cbn zeta in Hmd.
  constructor.
  - lia.
  - lia.
  - by rewrite Hu.
  - done.
  - rewrite (wrote_first _ _ _ Hw), Hfk. rewrite Forall_forall in Hok. apply Hok. by apply head_Some_elem_of.
  - rewrite (wrote_last _ _ _ Hw), Hlk. rewrite Forall_forall in Hok. apply Hok. apply last_Some in Hz as [l ->]. apply elem_of_app. right. by left.
  - rewrite (wrote_first _ _ _ Hw), (wrote_last _ _ _ Hw), Hfk, Hlk. rewrite last_lookup in Hz. rewrite head_lookup in Hr.
    eapply rows_sorted_keys; [done|exact Hr|exact Hz|lia].
  - intros kind. destruct (Hmd kind) as (M1 & M2 & M3 & M4 & M5 & M6 & _). destruct (Hpages kind). destruct (Hoff kind).
    destruct (builder_page_len _ _ _ kind Hb Hlt) as [Hbl _]. pose proof (len_nonneg (builder_page b kind)).
    split_and!; [|congruence| |congruence].
    + constructor; try done; rewrite ?described_start0, ?described_count0, ?described_nulls0, ?described_minimum0, ?described_maximum0, ?described_bytes0; try done; lia.
    + rewrite described_start0, (wrote_start _ _ _ Hw). unfold page_metadata. by destruct kind.
  - assert (∀ kind, page_null_count (page g kind) = match kind with ValueValidity | ValueOffsets | ValueData => nulls rs | _ => 0 end) as Hn.
    { intros kind. rewrite (described_nulls _ _ _ _ (Hpages kind)). apply Hmd. }
    assert (∀ kind, logical_bytes (page g kind) = len (builder_page b kind)) as Hl by (intros kind; apply (described_bytes _ _ _ _ (Hpages kind))).
    assert (∀ kind, page_row_count (page g kind) = len rs) as Hrc.
    { intros kind. rewrite (described_count _ _ _ _ (Hpages kind)). apply Hmd. }
    unfold validate_page_shapes, checked_add, checked_mul, saturating_mul. rewrite Hcount.
    rewrite (proj2 (Z.ltb_lt (len rs + 1) _)) by lia. rewrite (proj2 (Z.ltb_lt ((len rs + 1) * 8) _)) by lia. cbn [ok_or].
    rewrite Z.min_l by lia. rewrite !Hl, !Hn.
    rewrite (proj2 (builder_page_len _ _ _ KeyOffsets Hb Hlt)), (proj2 (builder_page_len _ _ _ SequenceValues Hb Hlt)),
      (proj2 (builder_page_len _ _ _ ValueValidity Hb Hlt)), (proj2 (builder_page_len _ _ _ ValueOffsets Hb Hlt)), !Z.eqb_refl.
    cbn [ORDERED existsb]. rewrite !Hrc, !Hn. pose proof (nulls_bounds rs). rewrite !(proj2 (Z.ltb_ge (len rs) _)) by lia. done.
Qed.

(** ** The invariant of the encoder *)

Record Closed := { closed_group : RowGroupDescriptor; closed_builder : RowGroupBuilder; closed_part : list (key * list VersionedValue) }.
Definition closed_ok (policy : SegmentCompressionPolicy) (start : Z) (c : Closed) : Prop :=
  wrote policy (closed_builder c) (closed_group c) ∧ built start (closed_builder c) (flat (closed_part c)) ∧ flat (closed_part c) ≠ [].
Fixpoint closed_chain (policy : SegmentCompressionPolicy) (start : Z) (cs : list Closed) (end_ : Z) : Prop :=
  match cs with
  | [] => start = end_
  | c :: cs => closed_ok policy start c ∧ closed_chain policy (start + len (flat (closed_part c))) cs end_
  end.
Definition closed_pages (cs : list Closed) : list (PageDescriptor * list byte) :=
  concat (map (λ c, group_pages (closed_group c) (closed_builder c)) cs).

Record encoding (policy : SegmentCompressionPolicy) (h : list byte) (st : Encoder) (cs : list Closed)
    (current : list (key * list VersionedValue)) : Prop := {
  encoding_laid : laid h (enc_output st) (closed_pages cs);
  encoding_groups : enc_groups st = map closed_group cs;
  encoding_chain : closed_chain policy 0 cs (b_row_start (enc_current st));
  encoding_current : built (b_row_start (enc_current st)) (enc_current st) (flat current)
}.

Lemma closed_chain_snoc policy start cs c mid :
  closed_chain policy start cs mid → closed_ok policy mid c → closed_chain policy start (cs ++ [c]) (mid + len (flat (closed_part c))).
Proof.
  revert start. induction cs as [|c0 cs IH]; intros start; cbn [closed_chain app]; [by intros ->|].
  intros [Hc Hcs] Hok. split; [done|]. by apply IH.
Qed.


Lemma close_group_spec policy h st cs current st' :
  encoding policy h st cs current → flat current ≠ [] → close_group policy st = Ok st' →
  ∃ g, let cs' := cs ++ [{| closed_group := g; closed_builder := enc_current st; closed_part := current |}] in
    laid h (enc_output st') (closed_pages cs') ∧ enc_groups st' = map closed_group cs'
    ∧ closed_chain policy 0 cs' (b_row_start (enc_current st) + len (flat current)) ∧ enc_current st' = enc_current st.
Proof.
  intros [Hl Hg Hc Hb] Hne Hcl. unfold close_group in Hcl.
  destruct (append_row_group _ _ _) as [[[out ev] g]|] eqn:Ea; [|done]. injection Hcl as <-. exists g. cbn [enc_output enc_groups enc_current].
  destruct (append_row_group_spec _ _ _ _ _ _ _ _ _ Ea Hl) as [Hl' Hw]. split_and!; [| | |done].
  - unfold closed_pages. rewrite map_app, concat_app. cbn [map concat closed_group closed_builder]. by rewrite app_nil_r.
  - by rewrite map_app, Hg.
  - by apply (closed_chain_snoc _ _ _ {| closed_group := g; closed_builder := enc_current st; closed_part := current |}).
Qed.

Lemma flat_app l m : flat (l ++ m) = flat l ++ flat m.
Proof. unfold flat. by rewrite map_app, concat_app. Qed.

Lemma append_all_built start b rs k vs b' :
  built start b rs → try_fold (λ b version, builder_append b k version) b vs = Ok b' → built start b' (rs ++ map (k,.) vs).
Proof.
  revert b rs. induction vs as [|v vs IH]; intros b rs Hb; cbn [try_fold map]; [intros [= <-]; by rewrite app_nil_r|].
  destruct (builder_append b k v) as [b1|] eqn:E; [|done]. intros Hf. apply (builder_append_built _ _ _ _ _ _ Hb) in E.
  specialize (IH _ _ E Hf). by rewrite <-app_assoc in IH.
Qed.

Lemma encode_key_spec budget policy h st cs current k vs st' :
  encoding policy h st cs current → encode_key budget policy st (k, vs) = Ok st' →
  ∃ cs' current', encoding policy h st' cs' current'
    ∧ concat (map closed_part cs') ++ current' = concat (map closed_part cs) ++ current ++ [(k, vs)].
Proof.
  intros Henc Hk. unfold encode_key in Hk. destruct (key_bytes k vs) as [bytes|]; [|done].
  pose proof (builder_rows_len _ _ _ (encoding_current _ _ _ _ _ Henc)) as Hrows.
  match type of Hk with match (if ?c then _ else _) with _ => _ end = _ => destruct c eqn:Ec end.
  - apply andb_true_iff in Ec as [Hpos%Z.ltb_lt _]. destruct (ok_or (checked_add _ _ _) _) as [next|] eqn:En; [|done].
    destruct (close_group policy st) as [st1|] eqn:Ecl; [|done]. destruct (try_fold _ _ vs) as [b'|] eqn:Ef; [|done]. injection Hk as <-.
    assert (flat current ≠ []) as Hne by (intros E; rewrite E in Hrows; change (len (@nil row)) with 0 in Hrows; lia).
    destruct (close_group_spec _ _ _ _ _ _ Henc Hne Ecl) as (g & Hl & Hg & Hc & Hcur).
    apply ok_or_checked_add in En as [-> _]. rewrite Hrows in Ef. rewrite builder_reset_new in Ef.
    apply (append_all_built _ _ [] _ _ _ (builder_new_built _)) in Ef. pose proof (built_start _ _ _ Ef) as Hs.
    exists (cs ++ [Build_Closed g (enc_current st) current]), [(k, vs)]. split; [|rewrite map_app, concat_app; cbn [map concat closed_part]; by rewrite app_nil_r, <-!app_assoc].
    constructor; cbn [enc_output enc_groups enc_current]; [done|done| |].
    + by rewrite Hs.
    + rewrite Hs. unfold flat. cbn [map concat]. by rewrite app_nil_r.
  - destruct (try_fold _ _ vs) as [b'|] eqn:Ef; [|done]. injection Hk as <-. destruct Henc as [Hl Hg Hc Hb].
    apply (append_all_built _ _ _ _ _ _ Hb) in Ef. pose proof (built_start _ _ _ Ef) as Hs.
    exists cs, (current ++ [(k, vs)]). split; [|done].
    constructor; cbn [enc_output enc_groups enc_current]; [done|done| |].
    + by rewrite Hs.
    + rewrite Hs, flat_app. unfold flat at 2. cbn [map concat]. by rewrite app_nil_r.
Qed.

Lemma encode_keys_spec budget policy h versions st cs current st' :
  encoding policy h st cs current → try_fold (encode_key budget policy) st versions = Ok st' →
  ∃ cs' current', encoding policy h st' cs' current'
    ∧ concat (map closed_part cs') ++ current' = concat (map closed_part cs) ++ current ++ versions.
Proof.
  revert st cs current. induction versions as [|[k vs] versions IH]; intros st cs current Henc; cbn [try_fold].
  { intros [= <-]. exists cs, current. by rewrite app_nil_r. }
  destruct (encode_key budget policy st (k, vs)) as [st1|] eqn:E; [|done]. intros Hf.
  destruct (encode_key_spec _ _ _ _ _ _ _ _ _ Henc E) as (cs1 & cur1 & Henc1 & Heq).
  destruct (IH _ _ _ Henc1 Hf) as (cs' & cur' & Henc' & Heq'). exists cs', cur'. split; [done|].
  rewrite Heq', app_assoc, Heq, <-!app_assoc. done.
Qed.

Lemma flat_nil part : Forall chain_ok part → flat part = [] → part = [].
Proof.
  intros Hf E. destruct Hf as [|[k vs] part (_ & Hvs & _) _]; [done|]. unfold flat in E. cbn [map concat] in E.
  apply app_eq_nil in E as [E _]. by apply map_eq_nil in E.
Qed.

Lemma flat_sorted part : bt_sorted part → Forall chain_ok part → rows_sorted (flat part).
Proof.
  induction part as [|[k vs] part IH]; [constructor|]. intros Hs [(_ & _ & Ho & _) Hc]%Forall_cons.
  apply (bt_sorted_app [(k, vs)]) in Hs as (_ & Hs & Hlt). unfold flat. cbn [map concat]. apply rows_sorted_app. split_and!.
  - cbn [snd] in Ho. unfold oldest_first in Ho. clear -Ho. induction Ho as [|v vs Ho IH Hv]; [constructor|]. cbn [map]. constructor; [done|].
    apply Forall_map. eapply Forall_impl; [exact Hv|]. intros w Hw. right. split; [done|exact Hw].
  - by apply IH.
  - intros [k1 v1] [k2 v2] Hin1 Hin2. apply list_elem_of_fmap in Hin1 as (v & [= -> ->] & _).
    apply flat_elem in Hin2 as (vs2 & Hin2 & _). left. apply (Hlt (k, vs) (k2, vs2)); [by left|done].
Qed.

Lemma flat_u64 part : Forall chain_ok part → Forall (λ r : row, is_u64 (sequence r.2)) (flat part).
Proof.
  intros Hc. apply Forall_forall. intros [k v] Hin. apply flat_elem in Hin as (vs & Hin & Hv). rewrite Forall_forall in Hc.
  destruct (Hc _ Hin) as (_ & _ & _ & Hs). rewrite Forall_forall in Hs. specialize (Hs v Hv). unfold in_width. cbn. lia.
Qed.

Lemma laid_offsets h out ps p column :
  laid h out ps → (p, column) ∈ ps → 0 ≤ page_offset p ∧ 0 ≤ physical_bytes p ∧ page_offset p + physical_bytes p ≤ len out.
Proof.
  intros Hl. induction Hl as [|out ps q stored column' Hl IH Ho [Hp _]]; [by intros ?%not_elem_of_nil|].
  pose proof (padding_bounds (len out)). pose proof (len_align out). pose proof (len_nonneg out). pose proof (len_nonneg stored).
  rewrite len_app. intros [Hin|Hin%list_elem_of_singleton]%elem_of_app; [specialize (IH Hin); lia|]. injection Hin as -> ->. lia.
Qed.

Lemma closed_chain_end policy start cs end_ :
  closed_chain policy start cs end_ → end_ = start + len (flat (concat (map closed_part cs))).
Proof.
  revert start. induction cs as [|c cs IH]; intros start; cbn [closed_chain map concat]; [intros <-; change (len (flat [])) with 0; lia|].
  intros [_ Hc]. rewrite flat_app, len_app, (IH _ Hc). lia.
Qed.

(** The closed groups are an index the parser accepts. *)
Lemma closed_index policy row prior page_start cs row_end page_end :
  closed_chain policy row cs row_end → page_chain page_start (all_pages (map closed_group cs)) page_end →
  bt_sorted (concat (map closed_part cs)) → Forall chain_ok (concat (map closed_part cs)) →
  (∀ k r, prior = Some k → r ∈ flat (concat (map closed_part cs)) → ltb k r.1 = true) →
  (∀ c kind, c ∈ cs → 0 ≤ page_offset (page (closed_group c) kind) < 2 ^ 64 ∧ 0 ≤ physical_bytes (page (closed_group c) kind) < 2 ^ 64) →
  0 ≤ row → row_end < 2 ^ 64 →
  index_chain policy row prior page_start (map closed_group cs) row_end page_end.
Proof.
  revert row prior page_start. induction cs as [|c cs IH]; intros row prior page_start; [done|].
  cbn [closed_chain map concat index_chain]. intros [(Hw & Hb & Hne) Hchain] Hpages Hs Hok Hprior Hoff Hrow Hend.
  pose proof (closed_chain_end _ _ _ _ Hchain) as He. apply bt_sorted_app in Hs as (Hs1 & Hs2 & Hlt). apply Forall_app in Hok as [Hok1 Hok2].
  pose proof (len_nonneg (flat (concat (map closed_part cs)))) as Hn1. pose proof (len_nonneg (flat (closed_part c))) as Hn2.
  destruct (first_last_keys _ _ _ Hb Hne) as (r & z & Hr & Hz & Hfk & Hlk).
  apply head_Some_elem_of in Hr. assert (z ∈ flat (closed_part c)) as Hzin by (apply last_Some in Hz as [l ->]; apply elem_of_app; right; by left).
  split_and!.
  - eapply wrote_entry; [exact Hw|exact Hb|done|by apply flat_sorted|by apply flat_u64|lia|]. intros kind. apply Hoff. by left.
  - rewrite (wrote_start _ _ _ Hw). apply (built_start _ _ _ Hb).
  - destruct prior as [k|]; [|done]. rewrite (wrote_first _ _ _ Hw), Hfk. apply (Hprior k r eq_refl). rewrite flat_app. apply elem_of_app. by left.
  - unfold all_pages in Hpages. cbn [map concat] in Hpages. apply page_chain_app in Hpages as (mid & Hp1 & Hp2).
    exists mid. split; [done|]. rewrite (wrote_count _ _ _ Hw), (builder_rows_len _ _ _ Hb).
    apply IH; [done|done|done|done| |intros c' kind Hc'; apply Hoff; by right|lia|done].
    intros k r' [= <-] Hr'. rewrite (wrote_last _ _ _ Hw), Hlk. destruct z as [kz vz], r' as [kr vr].
    apply flat_elem in Hzin as (vs1 & H1' & _), Hr' as (vs2 & H2' & _). apply (Hlt (kz, vs1) (kr, vs2) H1' H2').
Qed.

(** ** The encoded file *)

Lemma flat_versions versions : concat (map snd versions) = map snd (flat versions).
Proof.
  induction versions as [|[k vs] versions IH]; [done|]. unfold flat. cbn [map concat snd]. rewrite map_app, map_map. cbn [snd].
  rewrite map_id. fold (flat versions). by rewrite IH.
Qed.

Lemma count_entries_spec versions n lo hi :
  count_entries versions = Ok (n, lo, hi) →
  n = len (flat versions) ∧ n < 2 ^ 64 ∧ lo = least row_sequence (flat versions) ∧ hi = greatest row_sequence (flat versions).
Proof.
  unfold count_entries. rewrite flat_versions. unfold least, greatest.
  assert (∀ rs n0 lo0 hi0, n0 < 2 ^ 64 → try_fold (λ '(entries, minimum, maximum) version,
      let? entries := ok_or (checked_add 64 entries 1) (InvalidSegment "v6 entry count exceeds u64") in
      Ok (entries, Z.min minimum (sequence version), Z.max maximum (sequence version))) (n0, lo0, hi0) (map snd rs) = Ok (n, lo, hi) →
    n = n0 + len rs ∧ n < 2 ^ 64 ∧ lo = fold_left (λ a r, Z.min a (row_sequence r)) rs lo0 ∧ hi = fold_left (λ a r, Z.max a (row_sequence r)) rs hi0) as Hgen.
  { induction rs as [|r rs IH]; intros n0 lo0 hi0 Hn0; cbn [map try_fold].
    - intros [= <- <- <-]. change (len (@nil row)) with 0. split_and!; (done || lia).
    - destruct (ok_or (checked_add 64 n0 1) _) as [n1|] eqn:E; [|done]. apply ok_or_checked_add in E as [-> Hlt].
      intros Hf. apply IH in Hf as (-> & ? & -> & ->); [|done]. rewrite len_cons. split_and!; (done || lia). }
  intros Hf. apply Hgen in Hf; [|done]. destruct Hf as (-> & ? & -> & ->). split_and!; (done || lia).
Qed.

Lemma least_le f rs r : r ∈ rs → least f rs ≤ f r.
Proof.
  induction rs as [|x rs IH] using rev_ind; [by intros ?%not_elem_of_nil|]. rewrite least_snoc.
  intros [Hr|Hr%list_elem_of_singleton]%elem_of_app; [specialize (IH Hr)|subst]; lia.
Qed.
Lemma greatest_ge f rs r : r ∈ rs → f r ≤ greatest f rs.
Proof.
  induction rs as [|x rs IH] using rev_ind; [by intros ?%not_elem_of_nil|]. rewrite greatest_snoc.
  intros [Hr|Hr%list_elem_of_singleton]%elem_of_app; [specialize (IH Hr)|subst]; lia.
Qed.
Lemma least_pos f rs : Forall (λ r, 0 < f r) rs → 0 < least f rs.
Proof.
  induction rs as [|x rs IH] using rev_ind; [done|]. intros [Hrs [Hr _]%Forall_cons]%Forall_app. rewrite least_snoc. specialize (IH Hrs). lia.
Qed.

(** The parts of the file that was encoded from a table. *)
Record file_of (versions : list (key * list VersionedValue)) (budget : SegmentRowGroupBudget) (policy : SegmentCompressionPolicy)
    (enc : EncodedSegment) (cs : list Closed) (header body pad : list byte) : Prop := {
  file_header_is : header = file_header budget policy (map closed_group cs) (len (flat versions))
    (least row_sequence (flat versions)) (greatest row_sequence (flat versions)) (body ++ pad);
  file_bytes : encoded_segment enc = whole_file budget policy (map closed_group cs) (len (flat versions))
    (least row_sequence (flat versions)) (greatest row_sequence (flat versions)) (body ++ pad) (str_bytes (encoded_checksum enc));
  file_checksum : encoded_checksum enc = encode_digest (ring_sha256 (header ++ (body ++ pad) ++ file_index (map closed_group cs)));
  file_laid : laid header (header ++ body) (closed_pages cs);
  file_pad : pad = replicate (Z.to_nat (padding (256 + len body))) x00;
  file_chain : closed_chain policy 0 cs (len (flat versions));
  file_parts : concat (map closed_part cs) = versions;
  file_index_bound : len (file_index (map closed_group cs)) ≤ MAX_INDEX_BYTES;
  file_size : len (encoded_segment enc) ≤ MAX_SEGMENT_BYTES;
  file_envelope : validate_logical_envelope (map closed_group cs) (len (file_index (map closed_group cs))) = Ok tt;
  file_entries : len (flat versions) < 2 ^ 64;
  file_budget : budget_validate budget = Ok budget;
  file_policy : compression_policy_validate policy = Ok policy
}.

Lemma checksum_length content : length (str_bytes (encode_digest (ring_sha256 content))) = 64%nat.
Proof.
  unfold encode_digest. rewrite str_bytes_str, length_flat_map_hex, ring_length. done.
Qed.

(** The groups when the loop and the last group are done. *)
Lemma encode_groups_spec budget policy h versions st st' :
  Forall chain_ok versions →
  try_fold (encode_key budget policy) {| enc_output := h; enc_evidence := SegmentWriteEvidence_default; enc_groups := []; enc_current := builder_new 0 |} versions = Ok st →
  (if (0 <? builder_rows (enc_current st))%nat then close_group policy st else Ok st) = Ok st' →
  ∃ cs, laid h (enc_output st') (closed_pages cs) ∧ enc_groups st' = map closed_group cs
    ∧ closed_chain policy 0 cs (len (flat versions)) ∧ concat (map closed_part cs) = versions.
Proof.
  intros Hok Hf Hclose.
  assert (encoding policy h {| enc_output := h; enc_evidence := SegmentWriteEvidence_default; enc_groups := []; enc_current := builder_new 0 |} [] []) as Hinit.
  { constructor; cbn [enc_output enc_groups enc_current]; [constructor|done|done|apply builder_new_built]. }
  destruct (encode_keys_spec _ _ _ _ _ _ _ _ Hinit Hf) as (cs & current & Henc & Hparts). cbn [map concat app] in Hparts.
  pose proof (builder_rows_len _ _ _ (encoding_current _ _ _ _ _ Henc)) as Hrows.
  destruct (Nat.ltb_spec 0 (builder_rows (enc_current st))) as [Hpos|Hzero].
  - assert (flat current ≠ []) as Hne by (intros E; rewrite E in Hrows; change (len (@nil row)) with 0 in Hrows; lia).
    destruct (close_group_spec _ _ _ _ _ _ Henc Hne Hclose) as (g & Hl & Hg & Hc & _). eexists. split_and!; [exact Hl|exact Hg| |].
    + pose proof (closed_chain_end _ _ _ _ Hc) as He. rewrite He in Hc. rewrite map_app, concat_app in Hc. cbn [map concat closed_part] in Hc.
      by rewrite app_nil_r, Hparts in Hc.
    + rewrite map_app, concat_app. cbn [map concat closed_part]. by rewrite app_nil_r.
  - injection Hclose as <-. assert (current = []) as ->.
    { apply flat_nil; [rewrite <-Hparts in Hok; apply Forall_app in Hok as [_ Hok]; exact Hok|]. apply length_zero_iff_nil. unfold len in Hrows. lia. }
    rewrite app_nil_r in Hparts. exists cs. destruct Henc as [Hl Hg Hc Hb]. split_and!; [done|done| |done].
    pose proof (closed_chain_end _ _ _ _ Hc) as He. rewrite He, Hparts in Hc. done.
Qed.

Lemma encode_versions_spec versions budget policy enc :
  Forall chain_ok versions → encode_versions versions budget policy = Ok enc →
  versions ≠ [] ∧ ∃ cs header body pad, file_of versions budget policy enc cs header body pad.
Proof.
  intros Hok He. unfold encode_versions in He. destruct (budget_validate budget) as [bu|] eqn:Ebu; [|done].
  destruct (compression_policy_validate policy) as [po|] eqn:Epo; [|done].
  assert (bu = budget ∧ po = policy) as [-> ->].
  { unfold budget_validate in Ebu. destruct (_ || _)%bool in Ebu; [done|]. unfold compression_policy_validate in Epo.
    destruct policy; [by simplify_eq|]. destruct (_ && _)%bool in Epo; by simplify_eq. }
  destruct (count_entries versions) as [[[n lo] hi]|] eqn:Ec; [|done]. apply count_entries_spec in Ec as (En & Hn & Elo & Ehi).
  destruct (Z.eqb_spec n 0) as [|Hn0]; [done|]. destruct (try_fold (encode_key budget policy) _ versions) as [st|] eqn:Ef; [|done].
  match type of He with match ?c with _ => _ end = _ => destruct c as [st'|] eqn:Ecl; [|done] end.
  destruct (encode_groups_spec _ _ _ _ _ _ Hok Ef Ecl) as (cs & Hl & Hg & Hc & Hparts). cbv zeta in He.
  match type of He with match ?c with _ => _ end = _ => destruct c as [u|]; [|done] end.
  set (index := index_header (enc_groups st') ++ concat (map group_entry (enc_groups st'))) in He.
  assert (index = file_index (map closed_group cs)) as Hindex by (subst index; by rewrite Hg).
  change (Z.to_nat SEGMENT_HEADER_BYTES) with 256%nat in Hl.
  destruct (laid_rebase _ (replicate 256 x00) _ _ Hl eq_refl) as (body & Hout & _).
  set (pad := replicate (Z.to_nat (padding (256 + len body))) x00).
  set (header := file_header budget policy (map closed_group cs) n lo hi (body ++ pad)).
  assert (length header = 256%nat) as Hh by (apply Nat2Z.inj; fold (len header); subst header; by rewrite file_header_length).
  destruct (laid_rebase _ header _ _ Hl) as (body' & Hout' & Hl'); [by rewrite Hh|].
  assert (body' = body) as -> by (rewrite Hout in Hout'; by apply app_inv_head in Hout').
  assert (align (enc_output st') = replicate 256 x00 ++ body ++ pad) as Halign.
  { rewrite Hout, align_eq, <-app_assoc. do 2 f_equal. subst pad. by rewrite len_app. }
  rewrite Halign in He. clearbody index. subst index.
  assert (len (replicate 256 x00 ++ body ++ pad) = 256 + len (body ++ pad)) as Hio by (by rewrite len_app).
  replace (len ((replicate 256 x00 ++ body ++ pad) ++ file_index (map closed_group cs)) - len (replicate 256 x00 ++ body ++ pad))
    with (len (file_index (map closed_group cs))) in He by (rewrite (len_app (replicate 256 x00 ++ body ++ pad)); lia).
  destruct (Z.ltb_spec MAX_INDEX_BYTES (len (file_index (map closed_group cs)))) as [|Hib]; [done|].
  destruct (Z.ltb_spec (MAX_SEGMENT_BYTES - FOOTER_BYTES) (len ((replicate 256 x00 ++ body ++ pad) ++ file_index (map closed_group cs)))) as [|Hsz]; [done|].
  rewrite Hg, Hio, <-app_assoc, fill_header_fields in He.
  destruct (validate_logical_envelope (map closed_group cs) (len (file_index (map closed_group cs)))) as [[]|] eqn:Eenv; [|done].
  assert (header = file_header budget policy (map closed_group cs) n lo hi (body ++ pad)) as Hdef by done. unfold file_header in Hdef.
  rewrite <-Hdef in He. fold (file_header budget policy (map closed_group cs) n lo hi (body ++ pad)) in Hdef. clearbody header.
  injection He as <-. split; [by intros ->|]. exists cs, header, body, pad. subst n lo hi.
  constructor; cbn [encoded_segment encoded_checksum]; try done.
  - unfold whole_file. rewrite <-Hdef. by rewrite <-!app_assoc.
  - rewrite !len_app in *. unfold len at 1. rewrite Hh. unfold len at 4. rewrite checksum_length. unfold FOOTER_BYTES in Hsz. lia.
Qed.

Lemma index_chain_apart policy row prior start gs row_end page_end :
  index_chain policy row prior start gs row_end page_end → groups_apart (map reread gs).
Proof.
  assert (∀ gs row prior start, index_chain policy row prior start gs row_end page_end →
    (∀ k, prior = Some k → Forall (λ g, ltb k (group_first_key g) = true) gs)
    ∧ groups_apart (map reread gs)) as Hgen; [|intros Hc; by eapply Hgen].
  induction gs0 as [|g l IH]; intros row0 prior0 start0; cbn [index_chain map]; [intros _; split; [by intros|constructor]|].
  intros (Hok & _ & Hprior & mid & _ & Hc). destruct (IH _ _ _ Hc) as [Hall Hap]. specialize (Hall _ eq_refl). split.
  - intros k ->. constructor; [done|]. eapply Forall_impl; [exact Hall|]. cbn beta. intros g' Hg'.
    eapply ltb_trans; [|exact Hg']. eapply ltb_leb_trans; [exact Hprior|]. apply (ok_keys _ _ Hok).
  - constructor; [done|]. apply Forall_map. done.
Qed.

Section File.
Context (versions : list (key * list VersionedValue)) (budget : SegmentRowGroupBudget) (policy : SegmentCompressionPolicy).
Context (enc : EncodedSegment) (cs : list Closed) (header body pad : list byte).
Context (Hfile : file_of versions budget policy enc cs header body pad) (Hstorable : storable versions).
Context (Hbudget : budget_wf budget) (Hpolicy : policy_wf policy).

Lemma closed_pages_fst : map fst (closed_pages cs) = all_pages (map closed_group cs).
Proof. unfold closed_pages, all_pages. rewrite concat_map, !map_map. f_equal. Qed.

Lemma header_len : len header = 256.
Proof. rewrite (file_header_is _ _ _ _ _ _ _ _ Hfile). apply file_header_length. Qed.

Lemma pad_len : len pad = padding (256 + len body).
Proof. rewrite (file_pad _ _ _ _ _ _ _ _ Hfile). pose proof (padding_bounds (256 + len body)). apply len_zeros. lia. Qed.

Lemma file_split :
  encoded_segment enc = (header ++ body) ++ pad ++ file_index (map closed_group cs) ++ str_bytes (encoded_checksum enc).
Proof.
  rewrite (file_bytes _ _ _ _ _ _ _ _ Hfile). unfold whole_file. rewrite <-(file_header_is _ _ _ _ _ _ _ _ Hfile). by rewrite <-!app_assoc.
Qed.

Lemma flat_nonempty : flat versions ≠ [].
Proof. destruct Hstorable as (Hne & _ & Hok). intros E. by apply Hne, flat_nil. Qed.

Lemma file_sequences :
  0 < least row_sequence (flat versions) ∧ least row_sequence (flat versions) ≤ greatest row_sequence (flat versions) < 2 ^ 64.
Proof.
  destruct Hstorable as (_ & _ & Hok).
  assert (Forall (λ r, 0 < row_sequence r < 2 ^ 64) (flat versions)) as Hs.
  { apply Forall_forall. intros [k v] Hin. apply flat_elem in Hin as (vs & Hin & Hv). rewrite Forall_forall in Hok.
    destruct (Hok _ Hin) as (_ & _ & _ & Hseq). rewrite Forall_forall in Hseq. by apply Hseq. }
  split; [apply least_pos; eapply Forall_impl; [exact Hs|]; cbn; lia|]. split.
  - destruct (flat versions) as [|r rs] eqn:E; [by apply flat_nonempty in E|].
    pose proof (least_le row_sequence (r :: rs) r ltac:(by left)). pose proof (greatest_ge row_sequence (r :: rs) r ltac:(by left)). lia.
  - apply greatest_u64. eapply Forall_impl; [exact Hs|]. cbn. lia.
Qed.

Lemma closed_page_in c kind : c ∈ cs → (page (closed_group c) kind, builder_page (closed_builder c) kind) ∈ closed_pages cs.
Proof.
  intros Hc. unfold closed_pages. apply list_elem_of_In, in_concat. exists (group_pages (closed_group c) (closed_builder c)).
  split; [apply in_map_iff; exists c; by rewrite <-list_elem_of_In|]. unfold group_pages.
  apply in_map_iff. exists kind. split; [done|]. destruct kind; cbn; tauto.
Qed.

Lemma file_small : len (header ++ body) ≤ MAX_SEGMENT_BYTES.
Proof.
  pose proof (file_size _ _ _ _ _ _ _ _ Hfile) as Hs. rewrite file_split, len_app in Hs.
  pose proof (len_nonneg (pad ++ file_index (map closed_group cs) ++ str_bytes (encoded_checksum enc))). lia.
Qed.

Lemma closed_page_bounds c kind : c ∈ cs →
  0 ≤ page_offset (page (closed_group c) kind) ∧ 0 ≤ physical_bytes (page (closed_group c) kind)
  ∧ page_offset (page (closed_group c) kind) + physical_bytes (page (closed_group c) kind) ≤ MAX_SEGMENT_BYTES.
Proof.
  intros Hc. pose proof (laid_offsets _ _ _ _ _ (file_laid _ _ _ _ _ _ _ _ Hfile) (closed_page_in c kind Hc)). pose proof file_small. lia.
Qed.

Lemma file_index_chain :
  index_chain policy 0 None SEGMENT_HEADER_BYTES (map closed_group cs) (len (flat versions)) (256 + len body).
Proof.
  destruct Hstorable as (_ & Hs & Hok). rewrite <-(file_parts _ _ _ _ _ _ _ _ Hfile) in Hs, Hok.
  apply closed_index; [apply (file_chain _ _ _ _ _ _ _ _ Hfile)| |done|done|done| |lia|apply (file_entries _ _ _ _ _ _ _ _ Hfile)].
  - destruct (laid_facts _ _ _ (file_laid _ _ _ _ _ _ _ _ Hfile) []) as (Hp & _). rewrite closed_pages_fst, len_app, header_len in Hp. done.
  - intros c kind Hc. pose proof (closed_page_bounds c kind Hc). unfold MAX_SEGMENT_BYTES in *. lia.
Qed.

(** The parser accepts the file. *)
Lemma file_parses checksum :
  ∃ first final, head (map closed_group cs) = Some first ∧ last (map closed_group cs) = Some final
    ∧ parse_metadata (encoded_segment enc) (len (encoded_segment enc)) checksum
      = Ok {| parsed_descriptor := {| segment_id := checksum; segment_level := 0; format_version := SEGMENT_FORMAT_VERSION;
                schema_digest := SEGMENT_SCHEMA_DIGEST; key_codec_digest := SEGMENT_KEY_CODEC_DIGEST;
                page_format_digest := SEGMENT_PAGE_FORMAT_DIGEST; first_key := group_first_key first; last_key := group_last_key final;
                minimum_sequence := least row_sequence (flat versions); maximum_segment_sequence := greatest row_sequence (flat versions);
                entries := len (flat versions); segment_bytes := len (encoded_segment enc); segment_checksum := checksum |};
              parsed_budget := budget; parsed_compression := policy; parsed_groups := map reread (map closed_group cs) |}.
Proof.
  pose proof pad_len as Hpad. pose proof (padding_bounds (256 + len body)) as Hpb. destruct file_sequences as [Hmin Hmax].
  assert (0 < len (flat versions)) as Hpos.
  { pose proof flat_nonempty. destruct (flat versions) as [|r rs]; [done|]. rewrite len_cons. pose proof (len_nonneg rs). lia. }
  pose proof (file_bytes _ _ _ _ _ _ _ _ Hfile) as Hb. pose proof (file_size _ _ _ _ _ _ _ _ Hfile) as Hsz. rewrite Hb in Hsz.
  pose proof file_split as Hsplit. rewrite Hb in Hsplit.
  destruct (parse_metadata_ok budget policy (map closed_group cs) (len (flat versions)) (least row_sequence (flat versions))
    (greatest row_sequence (flat versions)) (256 + len body) (body ++ pad) (str_bytes (encoded_checksum enc)) checksum)
    as (first & final & Hf & Hl & Hp); try done.
  - apply (file_budget _ _ _ _ _ _ _ _ Hfile).
  - apply (file_policy _ _ _ _ _ _ _ _ Hfile).
  - pose proof (file_entries _ _ _ _ _ _ _ _ Hfile). lia.
  - apply file_index_chain.
  - intros E. apply map_eq_nil in E. pose proof (file_chain _ _ _ _ _ _ _ _ Hfile) as Hc. rewrite E in Hc. cbn in Hc. lia.
  - rewrite Hsplit. rewrite <-closed_pages_fst.
    destruct (laid_facts _ _ _ (file_laid _ _ _ _ _ _ _ _ Hfile) (pad ++ file_index (map closed_group cs) ++ str_bytes (encoded_checksum enc))) as (_ & Hg & _).
    rewrite len_app, header_len in Hg. done.
  - rewrite Hsplit, len_app, Hpad. split; [lia|]. rewrite (slice_get_app (header ++ body) pad).
    + rewrite (file_pad _ _ _ _ _ _ _ _ Hfile). do 2 f_equal. lia.
    + by rewrite len_app, header_len.
    + rewrite len_app, header_len, Hpad. lia.
  - rewrite len_app, Hpad. lia.
  - rewrite len_app, Hpad, Z.add_assoc. apply padding_aligns.
  - apply (file_index_bound _ _ _ _ _ _ _ _ Hfile).
  - rewrite (file_checksum _ _ _ _ _ _ _ _ Hfile). unfold len. by rewrite checksum_length.
  - apply (file_envelope _ _ _ _ _ _ _ _ Hfile).
  - exists first, final. split_and!; [done|done|]. rewrite Hb at 1 2. rewrite Hp. unfold file_descriptor. by rewrite <-Hb.
Qed.

(** The opened file holds the rows of the table. *)
Lemma closed_lookup i g : map reread (map closed_group cs) !! i = Some g →
  ∃ c start, cs !! i = Some c ∧ g = reread (closed_group c) ∧ closed_ok policy start c.
Proof.
  rewrite map_map, list_lookup_fmap. destruct (cs !! i) as [c|] eqn:E; [|done]. intros [= <-]. exists c.
  pose proof (file_chain _ _ _ _ _ _ _ _ Hfile) as Hc. revert i E Hc. generalize 0. generalize (len (flat versions)). clear.
  induction cs as [|c0 l IH]; intros n start i Hi; [done|]. cbn [closed_chain]. intros [Hok Hc]. destruct i as [|i].
  - cbn in Hi. simplify_eq. by exists start.
  - eapply IH; [exact Hi|exact Hc].
Qed.

Lemma file_loads metadata probe_ id i c kind :
  parsed_groups metadata = map reread (map closed_group cs) → cs !! i = Some c →
  load_page (build_segment metadata (encoded_segment enc) probe_ id) i kind = Ok (builder_page (closed_builder c) kind).
Proof.
  intros Hg Hc. cbn [build_segment load_page]. rewrite Hg, map_map, list_lookup_fmap, Hc. cbn [fmap option_fmap option_map].
  rewrite reread_page, file_split. pose proof (list_elem_of_lookup_2 _ _ _ Hc) as Hin.
  eapply read_laid_page; [apply (file_laid _ _ _ _ _ _ _ _ Hfile)|by apply closed_page_in|].
  pose proof (closed_page_bounds c kind Hin). unfold MAX_SEGMENT_BYTES in *. lia.
Qed.

Lemma closed_in_table c x : c ∈ cs → x ∈ closed_part c → x ∈ versions.
Proof.
  intros Hc Hx. rewrite <-(file_parts _ _ _ _ _ _ _ _ Hfile). apply list_elem_of_In, in_concat. exists (closed_part c).
  split; [apply in_map_iff; exists c; by rewrite <-list_elem_of_In|by apply list_elem_of_In].
Qed.

Lemma file_group_holds metadata probe_ id i g rs :
  parsed_groups metadata = map reread (map closed_group cs) → map reread (map closed_group cs) !! i = Some g →
  map (flat ∘ closed_part) cs !! i = Some rs → group_holds (build_segment metadata (encoded_segment enc) probe_ id) i g rs.
Proof.
  intros Hmd Hg Hrs. destruct (closed_lookup i g Hg) as (c & start & Hc & -> & Hw & Hb & Hne).
  rewrite list_lookup_fmap, Hc in Hrs. injection Hrs as <-. pose proof (list_elem_of_lookup_2 _ _ _ Hc) as Hin.
  pose proof (builder_rows_len _ _ _ Hb) as Hrows. pose proof (wrote_rows _ _ _ Hw) as Hlt. rewrite Hrows in Hlt.
  destruct (first_last_keys _ _ _ Hb Hne) as (r & z & Hr & Hz & Hfk & Hlk).
  constructor; cbn [reread group_row_count group_first_key group_last_key group_filter compose].
  - exists (builder_group (closed_builder c)). split.
    + unfold load_row_group, load_key_spine. by rewrite !(file_loads metadata probe_ id i c) by done.
    + eapply built_columns; [exact Hb|done|]. apply flat_u64, Forall_forall. intros x Hx. destruct Hstorable as (_ & _ & Hok).
      rewrite Forall_forall in Hok. by apply Hok, (closed_in_table c).
  - by rewrite (wrote_count _ _ _ Hw), Hrows.
  - by rewrite Hr, (wrote_first _ _ _ Hw), Hfk.
  - by rewrite Hz, (wrote_last _ _ _ Hw), Hlk.
  - apply (built_filter _ _ _ _ Hb Hne (wrote_filter _ _ _ Hw)).
  - intros x Hx. rewrite reread_page, (described_minimum _ _ _ _ (wrote_pages _ _ _ Hw SequenceValues)).
    cbn [page_metadata write_minimum]. rewrite (built_sequences _ _ _ Hb), minimum_least; [by apply (least_le row_sequence)|done|].
    destruct Hstorable as (_ & _ & Hok). apply Forall_forall. intros [k v] Hkv. apply flat_elem in Hkv as (vs & Hin' & Hv).
    rewrite Forall_forall in Hok. destruct (Hok _ (closed_in_table _ _ Hin Hin')) as (_ & _ & _ & Hseq). rewrite Forall_forall in Hseq.
    specialize (Hseq v Hv). unfold row_sequence, u64_max. cbn. lia.
Qed.

Lemma file_rows : concat (map (flat ∘ closed_part) cs) = flat versions.
Proof.
  rewrite <-(file_parts _ _ _ _ _ _ _ _ Hfile). clear. induction cs as [|c l IH]; [done|]. cbn [map concat]. rewrite flat_app, <-IH. done.
Qed.

(** The descriptor's keys bound the rows. *)
Lemma file_key_bounds first final r :
  head (map closed_group cs) = Some first → last (map closed_group cs) = Some final → r ∈ flat versions →
  leb (group_first_key first) r.1 = true ∧ leb r.1 (group_last_key final) = true.
Proof.
  intros Hfirst Hfinal Hr. destruct Hstorable as (_ & Hs & Hok). pose proof (flat_sorted _ Hs Hok) as Hsorted.
  apply list_elem_of_lookup in Hr as [j Hj]. rewrite head_lookup in Hfirst. rewrite last_lookup in Hfinal.
  rewrite !list_lookup_fmap in *. destruct (cs !! 0%nat) as [c|] eqn:Ec; [|done]. destruct (cs !! pred _) as [d|] eqn:Ed; [|done].
  injection Hfirst as <-. injection Hfinal as <-.
  destruct (closed_lookup 0 (reread (closed_group c))) as (? & start & Hc & _ & Hw & Hb & Hne); [by rewrite map_map, list_lookup_fmap, Ec|]. simplify_eq.
  destruct (closed_lookup (pred (length (map closed_group cs))) (reread (closed_group d))) as (? & start' & Hd & _ & Hw' & Hb' & Hne');
    [by rewrite map_map, list_lookup_fmap, Ed|]. simplify_eq.
  destruct (first_last_keys _ _ _ Hb Hne) as (r0 & _ & Hr0 & _ & Hfk & _). destruct (first_last_keys _ _ _ Hb' Hne') as (_ & z & _ & Hz & _ & Hlk).
  rewrite (wrote_first _ _ _ Hw), (wrote_last _ _ _ Hw'), Hfk, Hlk. split.
  - eapply (rows_sorted_keys _ 0); [exact Hsorted| |exact Hj|lia]. rewrite <-file_rows. destruct cs as [|c0 l]; [done|].
    cbn in Ec. simplify_eq. cbn [map concat compose]. destruct (flat (closed_part c)); [done|]. cbn in *. congruence.
  - pose proof (lookup_lt_Some _ _ _ Hj). eapply (rows_sorted_keys _ j (pred (length (flat versions)))); [exact Hsorted|exact Hj| |lia].
    rewrite <-last_lookup, <-file_rows. rewrite length_map, <-last_lookup in Ed. apply last_Some in Ed as [l El]. rewrite El at 1.
    rewrite map_app, concat_app. cbn [map concat compose]. rewrite app_nil_r, last_app, Hz. done.
Qed.

Lemma file_holds checksum probe_ id metadata :
  (∀ b, probe_ b = Ok tt) → parse_metadata (encoded_segment enc) (len (encoded_segment enc)) checksum = Ok metadata →
  segment_holds (build_segment metadata (encoded_segment enc) probe_ id) (map (flat ∘ closed_part) cs).
Proof.
  intros Hprobe Hparse. destruct (file_parses checksum) as (first & final & Hfirst & Hfinal & Hp). rewrite Hp in Hparse. injection Hparse as <-.
  constructor; cbn [build_segment row_groups descriptor parsed_groups parsed_descriptor probe first_key last_key minimum_sequence maximum_segment_sequence].
  - by rewrite !length_map.
  - intros i g rs Hg Hrs. by apply file_group_holds.
  - rewrite file_rows. destruct Hstorable as (_ & Hs & Hok). by apply flat_sorted.
  - apply (index_chain_apart _ _ _ _ _ _ _ file_index_chain).
  - rewrite file_rows. intros r Hr. destruct (file_key_bounds _ _ r Hfirst Hfinal Hr). split_and!; [done|done|by apply (least_le row_sequence)|by apply (greatest_ge row_sequence)].
  - done.
Qed.
End File.
End Write.
