(* ===== verification/SegmentOpen.v ===== *)
(** Opening a segment that was written ([rrd-lsm]: segment/mod.rs, writing and opening).

    Opening checks the checksum, parses the metadata and validates every page.  The theorems:
    each of these checks passes on an encoded file, so writing a segment succeeds whenever
    encoding does, and the segment it returns holds the rows of the table; a segment written
    from a table is what compaction and flush install. *)

From S2P Require Import Prelude Machine BTree Ident Digest LsmError Batch RecoveryBudget Wal Memtable Versions SegmentFormat Segment SegmentFile SegmentWrite.
Open Scope Z_scope.

(** * Validating the columns of a builder *)

Lemma encoded_offset items i :
  (i ≤ length items)%nat → len (concat items) < 2 ^ 63 → Z.of_nat i * 8 < 2 ^ 64 →
  offset_at (encode_i64_values (offsets_of 0 items)) i = Ok (len (concat (take i items))).
Proof.
  intros Hi Hlen Hb. pose proof (len_concat_take items i). pose proof (len_nonneg (concat (take i items))).
  apply offset_at_encoded; [|lia|done]. by rewrite offsets_of_lookup.
Qed.

Lemma validate_offsets_encoded items maximum allow_empty :
  len (concat items) < 2 ^ 63 → len items < 2 ^ 32 →
  Forall (λ x, len x ≤ maximum ∧ (allow_empty = false → x ≠ [])) items →
  validate_offsets (encode_i64_values (offsets_of 0 items)) (concat items) (length items) maximum allow_empty = Ok tt.
Proof.
  intros Hlen Hn Hitems. unfold validate_offsets.
  assert (len (encode_i64_values (offsets_of 0 items)) = (len items + 1) * 8) as ->.
  { unfold encode_i64_values. rewrite (len_concat_fixed _ 8) by (intros; apply length_le_bytes). rewrite len_offsets_of. lia. }
  unfold saturating_mul. fold (len items). rewrite Z.min_l, Z.eqb_refl by lia. cbn [negb].
  rewrite (encoded_offset items 0) by (done || lia). change (len (concat (take 0 items))) with 0. cbn [Z.eqb negb].
  rewrite (encoded_offset items (length items)) by (done || (fold (len items); lia)). rewrite firstn_all, Z.eqb_refl.
  match goal with |- match try_each ?f _ with _ => _ end = _ => assert (try_each f (seq 0 (length items)) = Ok tt) as -> end; [|done].
  apply try_each_ok, Forall_forall. intros i Hi%elem_of_seq. destruct (lookup_lt_is_Some_2 items i) as [x Hx]; [lia|].
  unfold len in Hn. rewrite !encoded_offset by (done || lia).
  assert (len (concat (take (i + 1) items)) = len (concat (take i items)) + len x) as ->.
  { rewrite Nat.add_1_r, (take_S_r _ _ _ Hx), concat_app, len_app. cbn [concat]. by rewrite app_nil_r. }
  pose proof (len_nonneg x). pose proof (len_concat_take items (i + 1)) as Ht.
  rewrite Nat.add_1_r, (take_S_r _ _ _ Hx), concat_app, len_app in Ht. cbn [concat] in Ht. rewrite app_nil_r in Ht.
  eapply Forall_lookup_1 in Hitems as [Hmax Hne]; [|exact Hx].
  rewrite !(proj2 (Z.ltb_ge _ _)) by lia. cbn [orb].
  destruct allow_empty; cbn [negb andb]; [done|]. specialize (Hne eq_refl).
  assert (len x ≠ 0) by (by rewrite len_zero). by rewrite (proj2 (Z.eqb_neq _ _)) by lia.
Qed.

Lemma validate_validity_built start b rs : built start b rs → validate_validity (b_validity b) (length rs) = Ok tt.
Proof.
  intros Hb. pose proof (built_validity_length _ _ _ Hb) as Hl. unfold validate_validity.
  assert (len (b_validity b) = (Z.of_nat (length rs) + 7) / 8) as ->.
  { unfold len. rewrite Hl, Nat2Z.inj_div, Nat2Z.inj_add. done. }
  rewrite Z.eqb_refl. cbn [negb]. destruct (Nat.eqb_spec (length rs mod 8) 0) as [|Hused]; [done|]. cbn [negb andb].
  destruct (last (b_validity b)) as [x|] eqn:Ex; [|done].
  assert (Z.shiftr (u8_val x) (Z.of_nat (length rs mod 8)) = 0) as ->; [|done].
  pose proof (Nat.mod_upper_bound (length rs) 8 ltac:(lia)) as Hmod. pose proof (Nat.div_mod_eq (length rs) 8) as Hdiv.
  pose proof (Nat.div_mod_eq (length rs + 7) 8) as Hdiv7. pose proof (Nat.mod_upper_bound (length rs + 7) 8 ltac:(lia)) as Hmod7.
  rewrite last_lookup in Ex. apply Z.bits_inj'. intros n Hn. rewrite Z.shiftr_spec, Z.bits_0 by done.
  set (j := (8 * pred (length (b_validity b)) + (length rs mod 8 + Z.to_nat n))%nat).
  destruct (decide (length rs mod 8 + Z.to_nat n < 8)%nat) as [Hlt|Hge].
  - pose proof (built_validity _ _ _ Hb j) as Hbit. unfold bit_at in Hbit.
    assert (j / 8 = pred (length (b_validity b)))%nat as Ej.
    { symmetry. apply (Nat.div_unique j 8 _ (length rs mod 8 + Z.to_nat n)); [done|]. subst j. lia. }
    assert (j mod 8 = length rs mod 8 + Z.to_nat n)%nat as Em.
    { symmetry. apply (Nat.mod_unique j 8 (pred (length (b_validity b)))); [done|]. subst j. lia. }
    rewrite Ej, Em, Ex in Hbit. replace (n + Z.of_nat (length rs mod 8)) with (Z.of_nat (length rs mod 8 + Z.to_nat n)) by lia.
    rewrite Hbit, lookup_ge_None_2; [done|]. subst j. lia.
  - pose proof (u8_val_bound x). destruct (Z.eq_dec (u8_val x) 0) as [->|]; [by rewrite Z.bits_0|].
    apply Z.bits_above_log2; [lia|]. apply Z.log2_lt_pow2; [lia|].
    apply Z.lt_le_trans with (2 ^ 8); [lia|]. apply Z.pow_le_mono_r; lia.
Qed.

(** * Scanning the rows of a group *)

Lemma filter_of_snoc f rs r :
  filter_of f (rs ++ [r]) = if decide (fst <$> last rs = Some r.1) then filter_of f rs else filter_insert (filter_of f rs) r.1.
Proof.
  unfold filter_of. rewrite map_app, fold_left_app. cbn [map fold_left].
  assert ((fold_left filter_step (map fst rs) (f, None)).2 = fst <$> last rs) as Hk.
  { destruct (last rs) as [z|] eqn:E; [|by apply last_None in E as ->]. apply last_Some in E as [l ->].
    rewrite map_app, fold_left_app. cbn [map fold_left]. unfold filter_step at 1. by destruct (decide _). }
  unfold filter_step at 1. rewrite Hk. by destruct (decide _).
Qed.

(** The accumulators after the rows [rs] of a group that follow the rows [prior]. *)
Definition whole_scan (prior rs : list row) : SegmentScan :=
  {| previous := last_seen (prior ++ rs); observed_rows := len prior; observed_minimum := least row_sequence (prior ++ rs);
     observed_maximum := greatest row_sequence (prior ++ rs) |}.
Definition part_scan (f : RowGroupFilter) (rs : list row) : GroupScan :=
  {| scan_filter := filter_of f rs; scan_unique := runs rs; previous_group_key := fst <$> last rs; actual_first := fst <$> head rs;
     actual_last := fst <$> last rs; scan_nulls := nulls rs; key_min := least key_size rs; key_max := greatest key_size rs;
     value_min := least value_size rs; value_max := greatest value_size rs; sequence_min := least row_sequence rs;
     sequence_max := greatest row_sequence rs |}.

Section Scan.
Context (d : SegmentDescriptor) (g : LoadedRowGroup) (f : RowGroupFilter) (prior : list row).

(** A row in order, inside the bounds of the segment. *)
Definition row_in_order (rs : list row) (r : row) : Prop :=
  0 < sequence r.2 ∧ minimum_sequence d ≤ sequence r.2 ≤ maximum_segment_sequence d
  ∧ (∀ z, last (prior ++ rs) = Some z → row_lt z r).

Lemma validate_row_complete rs k v :
  key_at (spine g) (length rs) = Ok k → sequence_at (spine g) (length rs) = Ok (sequence v) →
  value_from_loaded g (length rs) = Ok (value v) → row_in_order rs (k, v) → len rs + 1 < 2 ^ 32 →
  validate_row d g (whole_scan prior rs, part_scan f rs) (length rs) = Ok (whole_scan prior (rs ++ [(k, v)]), part_scan f (rs ++ [(k, v)])).
Proof.
  intros Hk Hs Hv (Hpos & Hbounds & Hlt) Hlen. cbn [snd] in Hpos, Hbounds. unfold validate_row. rewrite Hk, Hs, Hv.
  rewrite (proj2 (Z.eqb_neq _ 0)), (proj2 (Z.ltb_ge _ (minimum_sequence d))), (proj2 (Z.ltb_ge (maximum_segment_sequence d) _)) by lia. cbn [orb].
  match goal with |- (if ?c then _ else _) = _ => assert (c = false) as -> end.
  { cbn [whole_scan previous]. unfold last_seen. destruct (last (prior ++ rs)) as [z|]; [|done]. cbn [fmap option_fmap option_map].
    destruct (Hlt z eq_refl) as [Hkey|[Hkey Hseq]]; cbn [fst snd] in *.
    - destruct (ltb k z.1) eqn:E; [pose proof (ltb_trans _ _ _ Hkey E) as X; by rewrite ltb_irrefl in X|]. rewrite bool_decide_eq_false_2; [done|]. intros ->. by rewrite ltb_irrefl in Hkey.
    - rewrite <-Hkey, ltb_irrefl, bool_decide_eq_true_2 by done. cbn. by apply Z.leb_gt. }
  unfold whole_scan, part_scan. cbn [previous observed_rows observed_minimum observed_maximum scan_filter scan_unique previous_group_key
    actual_first actual_last scan_nulls key_min key_max value_min value_max sequence_min sequence_max].
  rewrite filter_of_snoc, runs_snoc, nulls_snoc, !app_assoc, !least_snoc, !greatest_snoc, !last_snoc. cbn [fst].
  destruct (runs_bounds rs) as [Hruns _].
  match goal with |- match ?c with _ => _ end = _ =>
    assert (c = Ok (if decide (fst <$> last rs = Some k) then filter_of f rs else filter_insert (filter_of f rs) k,
      if decide (fst <$> last rs = Some k) then runs rs else runs rs + 1, Some k)) as -> end.
  { destruct (decide (fst <$> last rs = Some k)) as [E|E]; [rewrite bool_decide_eq_true_2 by done; cbn [negb]; by rewrite E|].
    rewrite bool_decide_eq_false_2 by done. cbn [negb]. unfold checked_add. by rewrite (proj2 (Z.ltb_lt _ _)) by lia. }
  assert (0 ≤ least value_size rs ∧ 0 ≤ greatest value_size rs) as [Hlv Hgv].
  { clear. induction rs as [|x rs IH] using rev_ind; [done|]. rewrite least_snoc, greatest_snoc. unfold value_size at 2 4.
    pose proof (len_nonneg (value_or_empty x.2)). lia. }
  unfold last_seen. rewrite last_snoc. cbn [fst snd fmap option_fmap option_map].
  change (row_sequence (k, v)) with (sequence v). change (key_size (k, v)) with (len k). change (value_size (k, v)) with (len (default [] (value v))).
  change (deleted (k, v)) with (match value v with Some _ => false | None => true end).
  do 3 f_equal; [by destruct rs|by destruct (value v)|..]; destruct (value v); try done; change (len (default [] None)) with 0; lia.
Qed.

Lemma validate_rows_complete rs n done_ :
  rs = done_ ++ drop (length done_) rs → n = (length rs - length done_)%nat → columns_hold g rs → len rs < 2 ^ 32 →
  rows_sorted (prior ++ rs) → Forall (λ r, 0 < sequence r.2 ∧ minimum_sequence d ≤ sequence r.2 ≤ maximum_segment_sequence d) rs →
  try_fold (validate_row d g) (whole_scan prior done_, part_scan f done_) (seq (length done_) n) = Ok (whole_scan prior rs, part_scan f rs).
Proof.
  revert done_. induction n as [|n IH]; intros done_ Hd Hn Hcol Hlen Hs Hall; cbn [seq try_fold].
  { assert (drop (length done_) rs = []) as E by (apply drop_ge; lia). rewrite E, app_nil_r in Hd. by subst done_. }
  destruct (drop (length done_) rs) as [|[k v] rest] eqn:E.
  { apply (f_equal length) in E. rewrite length_drop in E. cbn in E. lia. }
  assert (rs !! length done_ = Some (k, v)) as Hi by (rewrite Hd; by apply list_lookup_middle).
  destruct (Hcol _ _ _ Hi) as (Hk & Hseq & Hv).
  assert (len done_ + 1 < 2 ^ 32) as Hl by (rewrite Hd, len_app, len_cons in Hlen; pose proof (len_nonneg rest); lia).
  rewrite (validate_row_complete done_ k v Hk Hseq Hv); [|..|done].
  - rewrite <-(IH (done_ ++ [(k, v)])); [|..|done|done|done|done].
    + by rewrite length_app, Nat.add_1_r.
    + rewrite length_app. cbn [length]. rewrite Nat.add_1_r. rewrite (drop_S _ _ _ Hi) in E. injection E as E. rewrite E, <-app_assoc. done.
    + rewrite length_app. cbn [length]. lia.
  - eapply Forall_lookup_1 in Hall; [|exact Hi]. split_and!; try apply Hall. intros z Hz. rewrite Hd, app_assoc in Hs.
    apply rows_sorted_app in Hs as (_ & _ & Hlt). apply Hlt; [|by left]. apply last_Some in Hz as [l ->]. apply elem_of_app. right. by left.
Qed.
End Scan.

(** * Validating a written segment *)

Section Validate.
Context `{RingLaws} `{Lz4Laws}.

Lemma validate_group_complete policy start seg i prior b g rs :
  wrote policy b g → built start b rs → rs ≠ [] → row_groups seg !! i = Some (reread g) →
  (∀ kind, load_page seg i kind = Ok (builder_page b kind)) → rows_sorted (prior ++ rs) →
  Forall (λ r, 0 < sequence r.2 < 2 ^ 64 ∧ minimum_sequence (descriptor seg) ≤ sequence r.2 ≤ maximum_segment_sequence (descriptor seg)) rs →
  len prior + len rs < 2 ^ 64 →
  validate_group seg (whole_scan prior []) (i, reread g) = Ok (whole_scan (prior ++ rs) []).
Proof.
  intros Hw Hb Hne Hi Hload Hs Hall Hlen. pose proof (builder_rows_len _ _ _ Hb) as Hrows. pose proof (wrote_rows _ _ _ Hw) as Hlt. rewrite Hrows in Hlt.
  destruct (built_filter _ _ _ _ Hb Hne (wrote_filter _ _ _ Hw)) as (_ & _ & _ & f0 & Hf0 & Hfilter).
  assert (Forall (λ r : row, is_u64 (sequence r.2)) rs) as Hu64.
  { eapply Forall_impl; [exact Hall|]. intros r [Hr _]. unfold in_width. lia. }
  pose proof (wrote_pages _ _ _ Hw) as Hpages. rewrite Hrows in Hpages.
  assert (row_groups seg !! i = Some (reread g) ∧ load_row_group seg i = Ok (builder_group b)) as [_ Hg].
  { split; [done|]. unfold load_row_group, load_key_spine. by rewrite !Hload. }
  unfold validate_group, read_row_group_uncached. rewrite Hi. cbn [ok_or]. rewrite Hg.
  change (group_row_count (reread g)) with (group_row_count g). change (unique_key_count (reread g)) with (unique_key_count g).
  change (group_first_key (reread g)) with (group_first_key g). change (group_last_key (reread g)) with (group_last_key g).
  change (group_filter (reread g)) with (group_filter g). rewrite !reread_page.
  rewrite (wrote_count _ _ _ Hw), Hrows, (wrote_unique _ _ _ Hw), (built_unique _ _ _ Hb), Hf0, Hfilter, (wrote_first _ _ _ Hw), (wrote_last _ _ _ Hw).
  replace (Z.to_nat (len rs)) with (length rs) by (unfold len; lia).
  cbn [builder_group spine spine_offsets spine_data loaded_offsets loaded_values loaded_validity builder_page].
  pose proof (built_rows_ok _ _ _ Hb) as Hok.
  assert (validate_offsets (encode_i64_values (b_key_offsets b)) (b_keys b) (length rs) SEGMENT_MAX_KEY_BYTES false = Ok tt) as ->.
  { pose proof (built_key_bytes _ _ _ Hb) as Hkb. rewrite (built_key_offsets _ _ _ Hb), (built_keys _ _ _ Hb) in *. rewrite <-(length_map fst rs).
    apply validate_offsets_encoded; [done|unfold len in *; by rewrite length_map|]. apply Forall_map. eapply Forall_impl; [exact Hok|].
    intros [k v] [Hk _]. cbn [fst] in *. split; [lia|]. intros _ E. rewrite E in Hk. change (len (@nil byte)) with 0 in Hk. lia. }
  assert (validate_offsets (encode_i64_values (b_value_offsets b)) (b_values b) (length rs) SEGMENT_MAX_VALUE_BYTES true = Ok tt) as ->.
  { pose proof (built_value_bytes _ _ _ Hb) as Hvb. rewrite (built_value_offsets _ _ _ Hb), (built_values _ _ _ Hb) in *.
    rewrite <-(length_map (value_or_empty ∘ snd) rs).
    apply validate_offsets_encoded; [done|unfold len in *; by rewrite length_map|]. apply Forall_map. eapply Forall_impl; [exact Hok|].
    intros [k v] [_ Hv]. split; [done|done]. }
  rewrite (validate_validity_built _ _ _ Hb).
  change (whole_scan prior [], group_scan_new f0) with (whole_scan prior [], part_scan f0 []).
  pose proof (validate_rows_complete (descriptor seg) (builder_group b) f0 prior rs (length rs) []) as Hfold. cbn [length] in Hfold.
  rewrite Hfold; [|done|lia|by eapply built_columns|done|done|eapply Forall_impl; [exact Hall|]; intros r Hr; cbn beta in Hr; lia].
  cbn [part_scan actual_first actual_last key_min key_max sequence_min sequence_max scan_nulls value_min value_max scan_unique scan_filter].
  destruct (first_last_keys _ _ _ Hb Hne) as (r & z & Hr & Hz & Hfk & Hlk). rewrite Hr, Hz, Hfk, Hlk. cbn [fmap option_fmap option_map].
  destruct (built_stats _ _ _ Hb) as (E1 & E2 & E3 & E4).
  rewrite (described_minimum _ _ _ _ (Hpages KeyOffsets)), (described_maximum _ _ _ _ (Hpages KeyOffsets)),
    (described_minimum _ _ _ _ (Hpages SequenceValues)), (described_maximum _ _ _ _ (Hpages SequenceValues)),
    (described_nulls _ _ _ _ (Hpages ValueValidity)), (described_minimum _ _ _ _ (Hpages ValueOffsets)), (described_maximum _ _ _ _ (Hpages ValueOffsets)).
  cbn [page_metadata write_minimum write_maximum write_nulls]. rewrite E1, E2, E3, E4, (built_nulls _ _ _ Hb), (built_sequences _ _ _ Hb).
  rewrite minimum_least, maximum_greatest; [|done| |done|].
  - rewrite !bool_decide_eq_true_2, !Z.eqb_refl by done. cbn [negb orb whole_scan previous observed_rows observed_minimum observed_maximum].
    unfold checked_add. rewrite (proj2 (Z.ltb_lt _ _)) by lia. cbn [ok_or]. unfold whole_scan. by rewrite !app_nil_r, len_app.
  - eapply Forall_impl; [exact Hall|]. intros x [Hx _]. unfold row_sequence. lia.
  - eapply Forall_impl; [exact Hall|]. intros x [Hx _]. unfold row_sequence, u64_max. lia.
Qed.

Section File.
Context (versions : list (key * list VersionedValue)) (budget : SegmentRowGroupBudget) (policy : SegmentCompressionPolicy).
Context (enc : EncodedSegment) (cs : list Closed) (header body pad : list byte).
Context (Hfile : file_of versions budget policy enc cs header body pad) (Hstorable : storable versions).
Context (Hbudget : budget_wf budget) (Hpolicy : policy_wf policy).
Context (metadata : ParsedMetadata) (probe_ : bool → result Error unit) (id : Z).
Context (Hgroups : parsed_groups metadata = map reread (map closed_group cs)).
Context (Hentries : entries (parsed_descriptor metadata) = len (flat versions)).
Context (Hleast : minimum_sequence (parsed_descriptor metadata) = least row_sequence (flat versions)).
Context (Hgreatest : maximum_segment_sequence (parsed_descriptor metadata) = greatest row_sequence (flat versions)).
Abbreviation seg := (build_segment metadata (encoded_segment enc) probe_ id).

Lemma validate_groups_complete done_ rest :
  cs = done_ ++ rest →
  try_fold (validate_group seg) (whole_scan (flat (concat (map closed_part done_))) [])
    (zip (seq (length done_) (length rest)) (map reread (map closed_group rest))) = Ok (whole_scan (flat versions) []).
Proof.
  revert done_. induction rest as [|c rest IH]; intros done_ Hcs.
  { rewrite app_nil_r in Hcs. subst done_. by rewrite (file_parts _ _ _ _ _ _ _ _ Hfile). }
  cbn [length seq map]. change (zip (?x :: ?l) (?y :: ?m)) with ((x, y) :: zip l m). cbn [try_fold].
  assert (cs !! length done_ = Some c) as Hc by (by rewrite Hcs, list_lookup_middle).
  assert (row_groups seg !! length done_ = Some (reread (closed_group c))) as Hg.
  { cbn [build_segment row_groups]. by rewrite Hgroups, map_map, list_lookup_fmap, Hc. }
  destruct (closed_lookup _ _ _ _ _ _ _ _ Hfile (length done_) (reread (closed_group c))) as (c' & start & Hc' & _ & Hw & Hb & Hne);
    [by rewrite map_map, list_lookup_fmap, Hc|]. rewrite Hc in Hc'. injection Hc' as <-.
  pose proof (file_parts _ _ _ _ _ _ _ _ Hfile) as Hparts. destruct Hstorable as (_ & Hs & Hok). pose proof (flat_sorted _ Hs Hok) as Hsorted.
  assert (flat versions = (flat (concat (map closed_part done_)) ++ flat (closed_part c)) ++ flat (concat (map closed_part rest))) as Hflat.
  { rewrite <-Hparts, Hcs at 1. rewrite map_app, concat_app. cbn [map concat]. by rewrite !flat_app, <-app_assoc. }
  rewrite (validate_group_complete policy start seg (length done_) _ (closed_builder c) (closed_group c) (flat (closed_part c))); try done.
  - rewrite <-(flat_app (concat (map closed_part done_))).
    replace (concat (map closed_part done_) ++ closed_part c) with (concat (map closed_part (done_ ++ [c])))
      by (rewrite map_app, concat_app; cbn [map concat]; by rewrite app_nil_r).
    replace (S (length done_)) with (length (done_ ++ [c])) by (rewrite length_app; cbn [length]; lia). apply IH. by rewrite <-app_assoc.
  - intros kind. by eapply file_loads.
  - rewrite Hflat in Hsorted. by apply rows_sorted_app in Hsorted as (? & _).
  - apply Forall_forall. intros [k v] Hin. cbn [build_segment descriptor]. rewrite Hleast, Hgreatest. split.
    + apply flat_elem in Hin as (vs & Hin & Hv). rewrite <-Hparts, Hcs, map_app, concat_app in Hok. apply Forall_app in Hok as [_ Hok].
      cbn [map concat] in Hok. apply Forall_app in Hok as [Hok _]. rewrite Forall_forall in Hok.
      destruct (Hok _ Hin) as (_ & _ & _ & Hseq). rewrite Forall_forall in Hseq. by apply Hseq.
    + assert ((k, v) ∈ flat versions) as Hrow by (rewrite Hflat; apply elem_of_app; left; apply elem_of_app; by right).
      pose proof (least_le row_sequence _ _ Hrow). pose proof (greatest_ge row_sequence _ _ Hrow). done.
  - pose proof (file_entries _ _ _ _ _ _ _ _ Hfile) as He. rewrite Hflat, !len_app in He. pose proof (len_nonneg (flat (concat (map closed_part rest)))). lia.
Qed.

Lemma validate_all_complete : validate_all_pages seg = Ok tt.
Proof.
  unfold validate_all_pages. pose proof (validate_groups_complete [] cs eq_refl) as Hf.
  change (length (@nil Closed)) with 0%nat in Hf. cbn [build_segment row_groups]. rewrite Hgroups, !length_map.
  change {| previous := None; observed_rows := 0; observed_minimum := u64_max; observed_maximum := 0 |} with (whole_scan (flat (concat (map closed_part []))) []).
  unfold build_segment in *. rewrite Hf. cbn [descriptor whole_scan observed_rows observed_minimum observed_maximum].
  rewrite Hentries, Hleast, Hgreatest, app_nil_r, !Z.eqb_refl. done.
Qed.
End File.

(** ** Opening *)

Lemma encode_digest_str digest : from_utf8 (str_bytes (encode_digest digest)) = Some (encode_digest digest).
Proof. apply from_utf8_str. apply hex_is_str. Qed.

Section Open.
Context (versions : list (key * list VersionedValue)) (budget : SegmentRowGroupBudget) (policy : SegmentCompressionPolicy).
Context (enc : EncodedSegment) (cs : list Closed) (header body pad : list byte).
Context (Hfile : file_of versions budget policy enc cs header body pad) (Hstorable : storable versions).
Context (Hbudget : budget_wf budget) (Hpolicy : policy_wf policy).

Lemma physical_file_ok : validate_physical_file (encoded_segment enc) = Ok (len (encoded_segment enc)).
Proof.
  unfold validate_physical_file. rewrite (proj2 (Z.ltb_ge _ _)) by apply (file_size _ _ _ _ _ _ _ _ Hfile).
  pose proof (file_split _ _ _ _ _ _ _ _ Hfile) as Hs. pose proof (header_len _ _ _ _ _ _ _ _ Hfile) as Hh.
  assert (slice_get (encoded_segment enc) 0 10 = Some (SEGMENT_MAGIC ++ le_bytes 2 SEGMENT_FORMAT_VERSION)) as ->.
  { rewrite Hs, (file_header_is _ _ _ _ _ _ _ _ Hfile). unfold file_header, header_fields.
    rewrite concat_app, <-!app_assoc. cbn [concat]. rewrite <-!app_assoc, (app_assoc SEGMENT_MAGIC).
    match goal with |- slice_get ((?x ++ ?y) ++ ?z) 0 10 = _ => apply (slice_get_app [] (x ++ y) z 0 10); vm_compute; reflexivity end. }
  cbn [ok_or]. assert (require_current_format (SEGMENT_MAGIC ++ le_bytes 2 SEGMENT_FORMAT_VERSION) = Ok tt) as -> by (vm_compute; reflexivity).
  rewrite (proj2 (Z.ltb_ge _ _)); [done|]. rewrite Hs, !len_app, Hh. unfold file_index. rewrite len_app, len_index_header.
  assert (len (str_bytes (encoded_checksum enc)) = 64) as -> by (rewrite (file_checksum _ _ _ _ _ _ _ _ Hfile); unfold len; by rewrite checksum_length).
  pose proof (len_nonneg body). pose proof (len_nonneg pad). pose proof (len_nonneg (concat (map group_entry (map closed_group cs)))).
  unfold SEGMENT_HEADER_BYTES, INDEX_HEADER_BYTES, FOOTER_BYTES. lia.
Qed.

Lemma file_digest_ok : verify_file_digest (encoded_segment enc) (len (encoded_segment enc)) = Ok (encoded_checksum enc).
Proof.
  pose proof (file_split _ _ _ _ _ _ _ _ Hfile) as Hs. pose proof (file_checksum _ _ _ _ _ _ _ _ Hfile) as Hc.
  set (content := header ++ (body ++ pad) ++ file_index (map closed_group cs)) in *.
  assert (encoded_segment enc = content ++ str_bytes (encoded_checksum enc)) as Hb by (rewrite Hs; subst content; by rewrite <-!app_assoc).
  assert (len (str_bytes (encoded_checksum enc)) = 64) as Hl by (rewrite Hc; unfold len; by rewrite checksum_length).
  pose proof (len_nonneg content). unfold verify_file_digest, checked_sub, FOOTER_BYTES. rewrite Hb, len_app, Hl.
  rewrite (proj2 (Z.leb_le _ _)) by lia. cbn [ok_or]. unfold read_at.
  rewrite <-(app_nil_r (str_bytes (encoded_checksum enc))) at 1.
  rewrite (slice_get_app content (str_bytes (encoded_checksum enc)) []) by lia. cbn [ok_or].
  rewrite Hc at 1. rewrite encode_digest_str. cbn [ok_or].
  rewrite take_app_length' by (unfold len; lia). rewrite Hc. by rewrite bool_decide_eq_true_2.
Qed.

Lemma current_format_ok : require_current_format (encoded_segment enc) = Ok tt.
Proof.
  pose proof (file_split _ _ _ _ _ _ _ _ Hfile) as Hs. rewrite (file_header_is _ _ _ _ _ _ _ _ Hfile) in Hs.
  unfold file_header, header_fields in Hs. rewrite concat_app, <-!app_assoc in Hs. cbn [concat] in Hs. rewrite <-!app_assoc in Hs.
  unfold require_current_format. rewrite Hs.
  match goal with |- context [slice_get (SEGMENT_MAGIC ++ le_bytes 2 SEGMENT_FORMAT_VERSION ++ ?rest) 8 10] =>
    pose proof (slice_get_app [] SEGMENT_MAGIC (le_bytes 2 SEGMENT_FORMAT_VERSION ++ rest) 0 8 ltac:(vm_compute; reflexivity) ltac:(vm_compute; reflexivity)) as Hm;
    rewrite (slice_get_app SEGMENT_MAGIC (le_bytes 2 SEGMENT_FORMAT_VERSION) rest 8 10) by (vm_compute; reflexivity) end.
  cbn [app] in Hm |- *. rewrite Hm.
  vm_compute. reflexivity.
Qed.

Lemma with_own_level s : with_level s (segment_level (descriptor s)) = s.
Proof. by destruct s as [[]]. Qed.

(** An encoded file opens in each of the three ways, and the segment holds the rows it was
    encoded from. *)
Lemma open_encoded probe_ id :
  (∀ b, probe_ b = Ok tt) →
  ∃ seg, open_segment (encoded_segment enc) probe_ id = Ok seg ∧ segment_holds seg (map (flat ∘ closed_part) cs)
    ∧ open_expected (encoded_segment enc) (descriptor seg) probe_ id = Ok seg
    ∧ validate_snapshot (descriptor seg) (encoded_segment enc) probe_ id = Ok seg.
Proof.
  intros Hprobe. destruct (file_parses _ _ _ _ _ _ _ _ Hfile Hstorable Hbudget Hpolicy (encoded_checksum enc)) as (first & final & _ & _ & Hp).
  pose proof (file_holds _ _ _ _ _ _ _ _ Hfile Hstorable Hbudget Hpolicy (encoded_checksum enc) probe_ id _ Hprobe Hp) as Hholds.
  match type of Hp with _ = Ok ?m => pose proof (validate_all_complete _ _ _ _ _ _ _ _ Hfile Hstorable m probe_ id eq_refl eq_refl eq_refl eq_refl) as Hall;
    set (metadata := m) in *; set (s := build_segment metadata (encoded_segment enc) probe_ id) in * end.
  assert (with_level s (segment_level (descriptor s)) = s) as Hlevel by apply with_own_level.
  pose proof file_digest_ok as Hd. exists s. split_and!; [|done| |].
  - unfold open_segment. rewrite physical_file_ok, Hd, Hp. fold s. by rewrite Hall.
  - unfold open_expected. rewrite physical_file_ok, Hd, Hp. fold s. rewrite Hlevel.
    assert (segment_bytes (descriptor s) = len (encoded_segment enc)) as -> by done. rewrite Z.eqb_refl. cbn [negb].
    assert (segment_checksum (descriptor s) = encoded_checksum enc) as -> by done. assert (segment_id (descriptor s) = encoded_checksum enc) as -> by done.
    rewrite !bool_decide_eq_true_2 by done. done.
  - unfold validate_snapshot. rewrite (proj2 (Z.ltb_ge _ _)) by apply (file_size _ _ _ _ _ _ _ _ Hfile). rewrite current_format_ok.
    unfold verify_file_digest in Hd. destruct (checked_sub (len (encoded_segment enc)) FOOTER_BYTES) as [content|] eqn:Ec; [|done].
    cbn [ok_or] in *.
    destruct (read_at _ content _) as [footer|] eqn:Er; [|done].
    assert (drop (Z.to_nat content) (encoded_segment enc) = footer) as ->.
    { unfold checked_sub in Ec. destruct (Z.leb_spec FOOTER_BYTES (len (encoded_segment enc))) as [Hle|]; [|done]. injection Ec as <-.
      unfold read_at, slice_get in Er. destruct (_ && _)%bool; [|done]. injection Er as <-. symmetry. apply take_ge.
      rewrite length_drop. unfold len, FOOTER_BYTES in *. lia. }
    destruct (from_utf8 footer) as [expected|]; [|done]. cbn [ok_or] in *.
    match type of Hd with (if negb (bool_decide ?P) then _ else _) = _ => destruct (decide P) as [->|Hno] end;
      [|by rewrite bool_decide_eq_false_2 in Hd by done].
    rewrite bool_decide_eq_true_2 in Hd by done.
    cbn [negb] in Hd. injection Hd as Hd. rewrite bool_decide_eq_true_2 by done. cbn [negb]. rewrite Hd, Hp. fold s. rewrite Hall, Hlevel.
    by rewrite bool_decide_eq_true_2.
Qed.
End Open.

Lemma write_holds budget policy probe_ id versions enc :
  budget_wf budget → policy_wf policy → (∀ b, probe_ b = Ok tt) → storable versions → encode_versions versions budget policy = Ok enc →
  ∃ seg gs, open_segment (encoded_segment enc) probe_ id = Ok seg ∧ open_expected (encoded_segment enc) (descriptor seg) probe_ id = Ok seg
    ∧ validate_snapshot (descriptor seg) (encoded_segment enc) probe_ id = Ok seg ∧ segment_holds seg gs ∧ concat gs = flat versions.
Proof.
  intros Hb Hp Hprobe Hs He. destruct (encode_versions_spec _ _ _ _ (proj2 (proj2 Hs)) He) as (_ & cs & header & body & pad & Hf).
  destruct (open_encoded _ _ _ _ _ _ _ _ Hf Hs Hb Hp probe_ id Hprobe) as (seg & Ho & Hh & He1 & He2).
  exists seg, (map (flat ∘ closed_part) cs). split_and!; [done..|]. by eapply file_rows.
Qed.

(** Encoding, writing and opening a table is a writer of segments. *)
#[export] Instance table_writer budget policy probe_ id :
  budget_wf budget → policy_wf policy → (∀ b, probe_ b = Ok tt) → SegmentWriter (write_from_table budget policy probe_ id).
Proof.
  intros Hb Hp Hprobe versions seg Hs. unfold write_from_table. destruct (encode_versions versions budget policy) as [enc|] eqn:E; [|done].
  destruct (write_holds _ _ probe_ id _ _ Hb Hp Hprobe Hs E) as (seg' & gs & Ho & _ & _ & Hh & Hc). rewrite Ho. intros [= <-]. by exists gs.
Qed.
End Validate.

(** * What opening accepts *)

Lemma from_le_nonneg l : 0 ≤ from_le l.
Proof. unfold from_le. apply from_be_bound. Qed.
Lemma read_u32_nonneg bytes offset z : read_u32 bytes offset = Ok z → 0 ≤ z.
Proof. unfold read_u32. destruct (slice_named _ _ _ _); [|done]. intros [= <-]. apply from_le_nonneg. Qed.

Lemma sorted_snoc {A} (R : A → A → Prop) l x : StronglySorted R l → (∀ y, y ∈ l → R y x) → StronglySorted R (l ++ [x]).
Proof.
  induction 1 as [|y l Hs IH Hy]; intros Hx; [repeat constructor|]. cbn [app]. constructor; [apply IH; intros z Hz; apply Hx; by right|].
  apply Forall_app. split; [done|]. constructor; [apply Hx; by left|constructor].
Qed.

(** A group the parser accepts has ordered keys that follow those of the group before it. *)
Lemma parse_group_sound index policy index_offset st st' :
  parse_group index policy index_offset st = Ok st' →
  ∃ g, ix_groups st' = ix_groups st ++ [g] ∧ 0 ≤ group_row_count g ∧ 0 ≤ unique_key_count g
    ∧ leb (group_first_key g) (group_last_key g) = true ∧ (∀ k, ix_last_key st = Some k → ltb k (group_first_key g) = true)
    ∧ ix_last_key st' = Some (group_last_key g).
Proof.
  unfold parse_group. destruct (slice_named index _ _ _) as [fixed|]; [|done]. destruct (read_u64 fixed 0) as [row_start|]; [|done].
  destruct (read_u32 fixed 8) as [row_count|] eqn:Er; [|done]. destruct (read_u32 fixed 12) as [fkb|]; [|done].
  destruct (read_u32 fixed 16) as [lkb|]; [|done]. destruct (read_u32 fixed 24) as [unique|] eqn:Eu; [|done].
  destruct (read_u32 fixed 28) as [fw|]; [|done]. destruct (read_u16 fixed 20) as [pc|]; [|done].
  destruct (_ || _)%bool; [done|]. destruct (word_count unique) as [ew|]; [|done]. destruct (_ || _)%bool; [done|].
  destruct (slice_named index _ fkb _) as [first|]; [|done]. destruct (slice_named index _ lkb _) as [final|]; [|done].
  destruct (ltb final first || _)%bool eqn:Eo; [done|]. apply orb_false_iff in Eo as [Ek Ep].
  destruct (try_fold _ _ _) as [[[cursor page_end] parsed]|]; [|done]. destruct (ok_or (checked_mul _ _ _) _) as [fb|]; [|done].
  destruct (slice_named index cursor fb _) as [ef|]; [|done]. destruct (from_words unique _) as [f|]; [|done].
  destruct (ok_or (checked_add _ _ _) _) as [cursor'|]; [|done]. destruct parsed as [|p parsed]; [done|].
  destruct (validate_page_shapes _ _); [|done]. destruct (ok_or (checked_add _ _ _) _) as [next|]; [|done]. intros [= <-].
  eexists. cbn [ix_groups ix_last_key]. split_and!; [done|by eapply read_u32_nonneg|by eapply read_u32_nonneg|cbn; by rewrite leb_ltb, Ek| |done].
  cbn [group_first_key]. intros k Hk. rewrite Hk, leb_ltb in Ep. by apply negb_false_iff in Ep.
Qed.

Record indexed (st : IndexCursor) : Prop := {
  indexed_apart : groups_apart (ix_groups st);
  indexed_counts : Forall (λ g, 0 ≤ group_row_count g ∧ 0 ≤ unique_key_count g) (ix_groups st);
  indexed_last : ∀ g, g ∈ ix_groups st → ∃ k, ix_last_key st = Some k ∧ leb (group_last_key g) k = true
}.

Lemma parse_groups_sound n index policy index_offset st st' :
  indexed st → parse_groups n index policy index_offset st = Ok st' → indexed st'.
Proof.
  revert st. induction n as [|n IH]; intros st Hst; cbn [parse_groups]; [by intros [= <-]|].
  destruct (parse_group index policy index_offset st) as [st1|] eqn:E; [|done]. apply IH.
  apply parse_group_sound in E as (g & Hg & Hrows & Hunique & Hkeys & Hprior & Hlast). destruct Hst as [Ha Hc Hl]. constructor; rewrite Hg.
  - unfold groups_apart. apply sorted_snoc; [done|]. intros x Hx. destruct (Hl x Hx) as (k & Hk & Hle). eapply leb_ltb_trans; [exact Hle|]. by apply Hprior.
  - apply Forall_app. split; [done|]. by repeat constructor.
  - intros x Hx. exists (group_last_key g). split; [done|]. apply elem_of_app in Hx as [Hx| ->%list_elem_of_singleton]; [|apply leb_refl].
    destruct (Hl x Hx) as (k & Hk & Hle). eapply leb_trans; [exact Hle|]. apply ltb_leb. eapply ltb_leb_trans; [by apply Hprior|done].
Qed.

Lemma parse_metadata_sound file n checksum metadata source probe_ id `{Ring} `{Lz4} :
  parse_metadata file n checksum = Ok metadata → index_ok (build_segment metadata source probe_ id).
Proof.
  unfold parse_metadata. destruct (parse_header file n) as [h|]; [|done]. destruct (parse_index_header file h) as [index|]; [|done].
  destruct (parse_groups _ _ _ _ _) as [st|] eqn:E; [|done]. apply parse_groups_sound in E; [|by repeat constructor; intros ? ?%not_elem_of_nil].
  destruct (_ || _)%bool; [done|]. destruct (validate_logical_envelope _ _); [|done]. destruct (validate_zero_padding _ _ _); [|done].
  destruct (head (ix_groups st)) as [first|] eqn:Ef; [|done]. destruct (last (ix_groups st)) as [final|] eqn:El; [|done]. intros [= <-].
  destruct E as [Ha Hc _]. constructor; cbn [build_segment row_groups parsed_groups descriptor parsed_descriptor first_key last_key]; [done|done| |].
  - by rewrite Ef.
  - by rewrite El.
Qed.

Lemma open_holds `{Ring} `{Lz4} file probe_ id seg :
  (∀ b, probe_ b = Ok tt) → open_segment file probe_ id = Ok seg → ∃ gs, segment_holds seg gs.
Proof.
  intros Hprobe. unfold open_segment. destruct (validate_physical_file file) as [n|]; [|done].
  destruct (verify_file_digest file n) as [checksum|]; [|done]. destruct (parse_metadata file n checksum) as [metadata|] eqn:Ep; [|done].
  destruct (validate_all_pages _) as [[]|] eqn:Ev; [|done]. intros [= <-]. by apply validation_sound; [eapply parse_metadata_sound| |].
Qed.

(** * A sample *)

(** A codec with a one-byte token: a run of one byte, or the bytes themselves. *)
Definition run_compress (l : list byte) : result string (list byte) :=
  match l with
  | [] => Ok [x01]
  | b :: _ => if bool_decide (Forall (λ x, x = b) l) then Ok [x00; b] else Ok (x01 :: l)
  end.
Definition run_decompress (c : list byte) (n : Z) : result string (list byte) :=
  match c with
  | [x00; b] => Ok (replicate (Z.to_nat n) b)
  | x01 :: l => Ok l
  | _ => Err "corrupt block"
  end.
#[local] Instance run_codec : Lz4 := {| lz4_compress := run_compress; lz4_decompress := run_decompress |}.
#[local] Instance run_codec_laws : Lz4Laws.
Proof.
  split.
  - intros [|b l] c; cbn [lz4_compress lz4_decompress run_codec run_compress]; [by intros [= <-]|]. case_bool_decide as Hall.
    + intros [= <-]. cbn [run_decompress]. f_equal. apply Forall_cons in Hall as [_ Hall].
      replace (Z.to_nat (len (b :: l))) with (S (length l)) by (unfold len; cbn [length]; lia). cbn [replicate]. f_equal.
      induction Hall as [|x l -> _ IH]; [done|]. cbn [length replicate]. by rewrite IH.
    + intros [= <-]. done.
  - intros [|b l] c; cbn [lz4_compress run_codec run_compress]; [by intros [= <-]|]. case_bool_decide; by intros [= <-].
Qed.
(** A digest that sums the bytes. *)
#[local] Instance sum_ring : Ring := {| ring_sha256 := λ l, be_bytes 32 (fold_left (λ n b, n + u8_val b) l 0) |}.
#[local] Instance sum_ring_laws : RingLaws.
Proof. split. intros l. apply length_be_bytes. Qed.

Definition written_table : list (key * list VersionedValue) :=
  [(str_bytes "apple", [{| sequence := 1; value := Some (str_bytes "aaaaaaaaaaaaaaaaaaaaaaaaaaaaaaaaaaaa") |}; {| sequence := 4; value := None |}]);
   (str_bytes "fig", [{| sequence := 2; value := Some [] |}]);
   (str_bytes "pear", [{| sequence := 3; value := Some (str_bytes "green") |}; {| sequence := 5; value := Some (str_bytes "ripe") |}])].
Definition written_budget : SegmentRowGroupBudget := {| max_rows := 2; target_bytes := 4096 |}.
Definition written_policy : SegmentCompressionPolicy := AdaptiveLz4 500 4096.

Lemma written_storable : storable written_table.
Proof.
  split; [done|]. split; [repeat constructor|]. repeat (constructor; [split_and!; [done|done|repeat constructor|repeat constructor]|]). constructor.
Qed.

(** * The claims *)

(** C16: a written segment reads back.  Whenever a table of ordered keys with ordered chains
    encodes, the file it encodes to is accepted in all three ways a segment is opened (after
    writing, against a manifest descriptor, as a snapshot), with the same result, and the
    segment holds exactly the rows of the table, in their order; so writing succeeds.  The
    digest is any function to 32 bytes and the codec any that decodes what it encodes. *)
Theorem segment_file_round_trip `{RingLaws} `{Lz4Laws} budget policy probe_ id versions enc :
  budget_wf budget → policy_wf policy → (∀ b, probe_ b = Ok tt) → storable versions → encode_versions versions budget policy = Ok enc →
  ∃ seg gs, write_from_table budget policy probe_ id versions = Ok seg
    ∧ open_expected (encoded_segment enc) (descriptor seg) probe_ id = Ok seg
    ∧ validate_snapshot (descriptor seg) (encoded_segment enc) probe_ id = Ok seg
    ∧ segment_holds seg gs ∧ concat gs = flat versions.
Proof.
  intros Hb Hp Hprobe Hs He. unfold write_from_table. rewrite He. by apply (write_holds _ _ _ _ _ _ Hb Hp Hprobe Hs).
Qed.
Lemma segment_file_round_trip_witness :
  ∃ enc, encode_versions written_table written_budget written_policy = Ok enc ∧ len (encoded_segment enc) = 3312
    ∧ compressed_page_count (write_evidence enc) = 2
    ∧ ∃ seg gs, write_from_table written_budget written_policy (λ _, Ok tt) 7 written_table = Ok seg
      ∧ open_expected (encoded_segment enc) (descriptor seg) (λ _, Ok tt) 7 = Ok seg
      ∧ validate_snapshot (descriptor seg) (encoded_segment enc) (λ _, Ok tt) 7 = Ok seg
      ∧ segment_holds seg gs ∧ concat gs = flat written_table.
Proof.
  destruct (encode_versions written_table written_budget written_policy) as [enc|e] eqn:E; [|vm_compute in E; discriminate].
  exists enc. split; [done|]. split; [vm_compute in E; injection E as <-; vm_compute; reflexivity|].
  split; [vm_compute in E; injection E as <-; vm_compute; reflexivity|].
  apply segment_file_round_trip; [by split|by split|done|apply written_storable|exact E].
Defined.

