(* ===== verification/PointIndex.v ===== *)
(** The point-read index over the live segments ([rrd-lsm]: database/point_index.rs).

    The segments' ordinals, sorted by first key, form a balanced search tree kept in one
    slice: the middle of a slice is the root of its subtree and remembers which segment of
    the subtree ends furthest.  A lookup walks the tree and offers the segments whose
    inclusive key bounds hold the key.

    The theorem: a lookup offers exactly the segments that cover the key, each once, in key
    order, whatever the callback does and whatever error it stops with. *)

From S2P Require Import Prelude Machine BTree LsmError Batch RecoveryBudget Wal Memtable Versions SegmentFormat.
Open Scope Z_scope.

(** lsm/database/point_index.rs:5-9 Node *)
Record Node := { node_segment : nat; furthest_end : nat }.
(** lsm/database/point_index.rs:11-15 PointIndex *)
Record PointIndex := { nodes : list Node }.

(** [Ordering::then]. *)
Definition then_ (c d : comparison) : comparison := match c with Eq => d | c => c end.

Section PointIndex.
(** [descriptors[i]]; the ordinals of the index are all in range. *)
Variable descriptor_at : nat → SegmentDescriptor.

(** lsm/database/point_index.rs:25-30 PointIndex::new, the order of the nodes *)
Definition node_order (a b : Node) : comparison :=
  then_ (cmp (first_key (descriptor_at (node_segment a))) (first_key (descriptor_at (node_segment b))))
        (Nat.compare (node_segment a) (node_segment b)).

(** lsm/database/point_index.rs:31-46 PointIndex::new::augment; [fuel] bounds the depth of
    the slices, which at least halve. *)
Fixpoint augment (fuel : nat) (slice_ : list Node) : list Node * option nat :=
  match fuel with
  | O => (slice_, None)
  | S fuel =>
    let middle := (length slice_ / 2)%nat in
    match drop middle slice_ with
    | [] => (slice_, None)
    | root :: hi =>
      let '(lo, a) := augment fuel (take middle slice_) in
      let '(hi, b) := augment fuel hi in
      let furthest := fold_left (λ furthest candidate,
        if ltb (last_key (descriptor_at furthest)) (last_key (descriptor_at candidate))
        then candidate else furthest) (option_list a ++ option_list b) (node_segment root) in
      (lo ++ {| node_segment := node_segment root; furthest_end := furthest |} :: hi, Some furthest)
    end
  end.

(** lsm/database/point_index.rs:18-49 PointIndex::new *)
Definition PointIndex_new (count : nat) : PointIndex :=
  let sorted := sort_by node_order (map (λ segment, {| node_segment := segment; furthest_end := segment |}) (seq 0 count)) in
  {| nodes := (augment (S count) sorted).1 |}.

(** lsm/database/point_index.rs:59-82 PointIndex::visit::walk; the callback threads what it
    captures, and the count is of the nodes looked at. *)
Fixpoint walk {S} (fuel : nat) (slice_ : list Node) (k : key) (candidate : S → nat → result Error S) (st : S)
    : result Error (S * Z) :=
  match fuel with
  | O => Ok (st, 0)
  | Datatypes.S fuel =>
    let middle := (length slice_ / 2)%nat in
    match drop middle slice_ with
    | [] => Ok (st, 0)
    | root :: hi =>
      if ltb (last_key (descriptor_at (furthest_end root))) k then Ok (st, 1)
      else
        let? (st, n) := walk fuel (take middle slice_) k candidate st in
        let visited := 1 + n in
        let bounds := descriptor_at (node_segment root) in
        if leb (first_key bounds) k then
          let? st := if leb k (last_key bounds) then candidate st (node_segment root) else Ok st in
          let? (st, n) := walk fuel hi k candidate st in
          Ok (st, visited + n)
        else Ok (st, visited)
    end
  end.

(** lsm/database/point_index.rs:53-84 PointIndex::visit *)
Definition index_visit {S} (self : PointIndex) (k : key) (candidate : S → nat → result Error S) (st : S)
    : result Error (S * Z) :=
  walk (Datatypes.S (length (nodes self))) (nodes self) k candidate st.

(** * What the tree keeps *)

Definition covers (k : key) (i : nat) : bool :=
  (leb (first_key (descriptor_at i)) k && leb k (last_key (descriptor_at i)))%bool.

(** The order of a slice, and the furthest end at the root of every subtree. *)
Definition by_first (l : list nat) : Prop :=
  StronglySorted (λ a b, leb (first_key (descriptor_at a)) (first_key (descriptor_at b)) = true) l.

Inductive augmented : list Node → Prop :=
| augmented_nil : augmented []
| augmented_node lo root hi :
    length lo = (length (lo ++ root :: hi) / 2)%nat → augmented lo → augmented hi →
    (∀ n, n ∈ lo ++ root :: hi →
      leb (last_key (descriptor_at (node_segment n))) (last_key (descriptor_at (furthest_end root))) = true) →
    augmented (lo ++ root :: hi).

Lemma split_middle {A} (l : list A) x r :
  drop (length l / 2) l = x :: r → l = take (length l / 2) l ++ x :: r.
Proof. intros H. rewrite <-H. by rewrite take_drop. Qed.

Lemma split_middle_nil {A} (l : list A) : drop (length l / 2) l = [] → l = [].
Proof.
  intros H. apply (f_equal length) in H. rewrite length_drop in H. cbn [length] in H. destruct l; [done|].
  cbn [length] in H. pose proof (Nat.div_lt (S (length l)) 2 ltac:(lia) ltac:(lia)). lia.
Qed.

(** Whatever the candidates, the furthest is one of them or the root, and none ends later. *)
Lemma furthest_max cs root :
  let f := fold_left (λ furthest candidate,
    if ltb (last_key (descriptor_at furthest)) (last_key (descriptor_at candidate)) then candidate else furthest) cs root in
  ∀ i, i = root ∨ i ∈ cs → leb (last_key (descriptor_at i)) (last_key (descriptor_at f)) = true.
Proof.
  revert root. induction cs as [|c cs IH]; intros root; cbn zeta; intros i Hi; cbn [fold_left].
  { destruct Hi as [->|?%not_elem_of_nil]; [apply leb_refl|done]. }
  destruct (ltb (last_key (descriptor_at root)) (last_key (descriptor_at c))) eqn:E.
  - destruct Hi as [->|[->|Hi]%elem_of_cons]; [|by apply IH; left|by apply IH; right].
    eapply leb_trans; [by apply ltb_leb|]. apply (IH c c). by left.
  - destruct Hi as [->|[->|Hi]%elem_of_cons]; [by apply IH; left| |by apply IH; right].
    eapply leb_trans; [|apply (IH root root); by left]. by rewrite leb_ltb, E.
Qed.

Lemma augment_spec fuel slice_ :
  (length slice_ < fuel)%nat →
  let r := augment fuel slice_ in
  map node_segment r.1 = map node_segment slice_ ∧ augmented r.1
  ∧ (∀ n, n ∈ slice_ → ∃ f, r.2 = Some f
      ∧ leb (last_key (descriptor_at (node_segment n))) (last_key (descriptor_at f)) = true).
Proof.
  revert slice_. induction fuel as [|fuel IH]; intros slice_ Hf; [lia|]. cbn [augment].
  destruct (drop (length slice_ / 2) slice_) as [|root hi] eqn:Ed.
  { apply split_middle_nil in Ed as ->. cbn. split_and!; [done|constructor|by intros n ?%not_elem_of_nil]. }
  pose proof (split_middle _ _ _ Ed) as Hs.
  assert (length hi < length slice_ ∧ length (take (length slice_ / 2) slice_) < length slice_)%nat as [Hr Hl].
  { apply (f_equal length) in Hs. rewrite length_app in Hs. cbn [length] in Hs. lia. }
  set (lo := take (length slice_ / 2) slice_) in *.
  assert (length lo = length slice_ / 2)%nat as Hlen.
  { subst lo. rewrite length_take. pose proof (Nat.Div0.div_le_upper_bound (length slice_) 2 (length slice_)). lia. }
  destruct (IH lo ltac:(lia)) as (Hm1 & Ha1 & Hf1). destruct (IH hi ltac:(lia)) as (Hm2 & Ha2 & Hf2).
  destruct (augment fuel lo) as [lo' a] eqn:E1. destruct (augment fuel hi) as [hi' b] eqn:E2. cbn [fst snd] in *.
  set (f := fold_left _ _ _).
  assert (∀ i, i = node_segment root ∨ i ∈ option_list a ++ option_list b →
    leb (last_key (descriptor_at i)) (last_key (descriptor_at f)) = true) as Hmax by apply furthest_max.
  assert (map node_segment (lo' ++ {| node_segment := node_segment root; furthest_end := f |} :: hi') = map node_segment slice_) as Hmap.
  { rewrite Hs, !map_app. cbn [map node_segment]. by rewrite Hm1, Hm2. }
  assert (∀ n, n ∈ slice_ → leb (last_key (descriptor_at (node_segment n))) (last_key (descriptor_at f)) = true) as Hall.
  { intros n Hn. rewrite Hs in Hn. apply elem_of_app in Hn as [Hn|[->|Hn]%elem_of_cons].
    - destruct (Hf1 n Hn) as (x & -> & Hx). eapply leb_trans; [exact Hx|]. apply Hmax. right. by left.
    - apply Hmax. by left.
    - destruct (Hf2 n Hn) as (x & -> & Hx). eapply leb_trans; [exact Hx|]. apply Hmax. right. apply elem_of_app. right. by left. }
  split_and!; [done| |].
  - constructor; [|done..|].
    + apply (f_equal length) in Hmap. rewrite !length_map in Hmap. rewrite Hmap, <-Hlen.
      apply (f_equal length) in Hm1. by rewrite !length_map in Hm1.
    + intros n Hn. cbn [furthest_end].
      assert (node_segment n ∈ map node_segment slice_) as (n' & -> & Hn')%list_elem_of_fmap
        by (rewrite <-Hmap; apply list_elem_of_fmap; by exists n). by apply Hall.
  - intros n Hn. exists f. split; [done|]. by apply Hall.
Qed.

Lemma node_order_first a b :
  (node_order a b ≠ Gt → leb (first_key (descriptor_at (node_segment a))) (first_key (descriptor_at (node_segment b))) = true)
  ∧ (node_order a b = Gt → leb (first_key (descriptor_at (node_segment b))) (first_key (descriptor_at (node_segment a))) = true).
Proof.
  unfold node_order, then_, leb. destruct (cmp (first_key (descriptor_at (node_segment a))) _) eqn:E.
  - apply cmp_eq in E as ->. rewrite cmp_refl. done.
  - done.
  - apply cmp_gt_lt in E. rewrite E. done.
Qed.

Lemma index_new_spec count :
  let ns := nodes (PointIndex_new count) in
  map node_segment ns ≡ₚ seq 0 count ∧ by_first (map node_segment ns) ∧ augmented ns ∧ length ns = count.
Proof.
  cbn zeta. unfold PointIndex_new. cbn [nodes].
  set (l := map (λ segment : nat, {| node_segment := segment; furthest_end := segment |}) (seq 0 count)).
  assert (length (sort_by node_order l) = count) as Hlen.
  { rewrite (Permutation_length (sort_by_perm node_order l)). subst l. by rewrite length_map, length_seq. }
  destruct (augment_spec (S count) (sort_by node_order l)) as (Hmap & Haug & _); [lia|].
  split_and!; [| |done|].
  - rewrite Hmap. rewrite (Permutation_map node_segment (sort_by_perm node_order l)). subst l. by rewrite map_map, map_id.
  - rewrite Hmap. unfold by_first.
    assert (StronglySorted (λ a b, leb (first_key (descriptor_at (node_segment a))) (first_key (descriptor_at (node_segment b))) = true)
      (sort_by node_order l)) as Hs.
    { apply sort_by_sorted; [intros a b; apply node_order_first..|]. intros a b c'. apply leb_trans. }
    clear -Hs. induction Hs as [|x m Hs IH Hall]; cbn; [constructor|]. constructor; [done|].
    apply Forall_fmap. exact Hall.
  - apply (f_equal length) in Hmap. rewrite !length_map in Hmap. congruence.
Qed.

(** * The walk *)

Definition covering (k : key) (l : list Node) : list nat := List.filter (covers k) (map node_segment l).

Lemma covering_app k a b : covering k (a ++ b) = covering k a ++ covering k b.
Proof. unfold covering. by rewrite map_app, List.filter_app. Qed.
Lemma covering_nil k l : (∀ n, n ∈ l → covers k (node_segment n) = false) → covering k l = [].
Proof.
  intros H. unfold covering. induction l as [|n l IH]; [done|]. cbn. rewrite H by left. apply IH. intros; apply H; by right.
Qed.

Lemma walk_spec {S} fuel slice_ k (candidate : S → nat → result Error S) st :
  augmented slice_ → by_first (map node_segment slice_) → (length slice_ < fuel)%nat →
  ∃ n, 0 ≤ n ≤ len slice_ ∧
    walk fuel slice_ k candidate st
    = match try_fold candidate st (covering k slice_) with Ok st' => Ok (st', n) | Err e => Err e end.
Proof.
  revert slice_ st. induction fuel as [|fuel IH]; intros slice_ st Haug Hsort Hf; [lia|]. cbn [walk].
  destruct Haug as [|lo root hi Hlen Hlo Hhi Hfar].
  { cbn. by exists 0. }
  rewrite <-Hlen, drop_app_length, take_app_length.
  unfold by_first in Hsort. rewrite map_app in Hsort. cbn [map] in Hsort.
  assert (by_first (map node_segment lo) ∧ by_first (map node_segment hi)
    ∧ ∀ n, n ∈ hi → leb (first_key (descriptor_at (node_segment root))) (first_key (descriptor_at (node_segment n))) = true)
    as (Hs1 & Hs2 & Hroot).
  { split_and!.
    - clear -Hsort. induction lo as [|x lo IH]; [constructor|]. cbn in Hsort. apply StronglySorted_inv in Hsort as [Hs Hall].
      constructor; [by apply IH|]. by apply Forall_app in Hall as [? _].
    - clear -Hsort. induction lo as [|x lo IH]; cbn in Hsort; apply StronglySorted_inv in Hsort as [Hs _]; [done|by apply IH].
    - clear -Hsort. induction lo as [|x lo IH]; cbn in Hsort; apply StronglySorted_inv in Hsort as [Hs Hall]; [|by apply IH].
      intros n Hn. eapply Forall_forall in Hall; [exact Hall|]. apply list_elem_of_fmap. by exists n. }
  rewrite covering_app. change (covering k (root :: hi)) with (covering k ([root] ++ hi)). rewrite covering_app.
  rewrite !try_fold_app, len_app, len_cons. rewrite length_app in Hf. cbn [length] in Hf.
  pose proof (len_nonneg lo). pose proof (len_nonneg hi).
  assert (∀ n, n ∈ hi → leb (first_key (descriptor_at (node_segment root))) k = false → covers k (node_segment n) = false) as Hpast.
  { intros n Hn Hk. unfold covers. apply andb_false_iff. left. apply not_true_is_false. intros Hle.
    rewrite (leb_trans _ _ _ (Hroot n Hn) Hle) in Hk. done. }
  destruct (ltb (last_key (descriptor_at (furthest_end root))) k) eqn:Efar.
  { assert (∀ n, n ∈ lo ++ root :: hi → covers k (node_segment n) = false) as Hnone.
    { intros n Hn. unfold covers. apply andb_false_iff. right. rewrite leb_ltb.
      by rewrite (leb_ltb_trans _ _ _ (Hfar n Hn) Efar). }
    rewrite !covering_nil by (intros n Hn; apply Hnone; set_solver). exists 1. cbn. split; [lia|done]. }
  destruct (IH lo st Hlo Hs1 ltac:(lia)) as (n1 & Hn1 & ->).
  destruct (try_fold candidate st (covering k lo)) as [st1|e]; [|exists 0; split; [lia|done]].
  assert (covering k [root] = if covers k (node_segment root) then [node_segment root] else []) as ->.
  { unfold covering. cbn. by destruct (covers k (node_segment root)). }
  unfold covers at 1. destruct (leb (first_key (descriptor_at (node_segment root))) k) eqn:Efirst; cbn [andb].
  - destruct (leb k (last_key (descriptor_at (node_segment root)))) eqn:Elast; cbn [app try_fold].
    + destruct (candidate st1 (node_segment root)) as [st2|e]; [|exists 0; split; [lia|done]].
      destruct (IH hi st2 Hhi Hs2 ltac:(lia)) as (n2 & Hn2 & ->). exists (1 + n1 + n2). split; [lia|].
      by destruct (try_fold candidate st2 (covering k hi)).
    + destruct (IH hi st1 Hhi Hs2 ltac:(lia)) as (n2 & Hn2 & ->). exists (1 + n1 + n2). split; [lia|].
      by destruct (try_fold candidate st1 (covering k hi)).
  - cbn [app try_fold]. rewrite covering_nil by (intros; by apply Hpast). cbn. exists (1 + n1). split; [lia|done].
Qed.

(** The ordinals a lookup offers. *)
Definition offered (count : nat) (k : key) : list nat := covering k (nodes (PointIndex_new count)).

Lemma offered_perm count k : offered count k ≡ₚ List.filter (covers k) (seq 0 count).
Proof.
  unfold offered, covering. destruct (index_new_spec count) as (Hperm & _).
  induction Hperm as [| | |? ? ? ? IH1 ? IH2]; cbn; [done|by destruct (covers k x); [constructor|]| |by rewrite IH1].
  destruct (covers k x), (covers k y); try done. by constructor.
Qed.

Lemma index_visit_spec {S} count k (candidate : S → nat → result Error S) st :
  ∃ n, 0 ≤ n ≤ Z.of_nat count ∧
    index_visit (PointIndex_new count) k candidate st
    = match try_fold candidate st (offered count k) with Ok st' => Ok (st', n) | Err e => Err e end.
Proof.
  destruct (index_new_spec count) as (_ & Hsort & Haug & Hlen).
  destruct (walk_spec (Datatypes.S (length (nodes (PointIndex_new count)))) (nodes (PointIndex_new count)) k candidate st Haug Hsort ltac:(lia))
    as (n & Hn & Hw). exists n. split; [|exact Hw]. unfold len in Hn. rewrite Hlen in Hn. done.
Qed.

(** The point index never misses and never adds a segment: whatever the segments' bounds
    and the callback, a lookup calls it for exactly the segments whose inclusive key range
    holds the key, each once and in order of first key, stops with the callback's error if it
    fails, and looks at no more nodes than there are segments. *)
Theorem point_index_offers_exactly {S} count k (candidate : S → nat → result Error S) st :
  offered count k ≡ₚ List.filter (covers k) (seq 0 count)
  ∧ by_first (offered count k)
  ∧ ∃ n, 0 ≤ n ≤ Z.of_nat count ∧
      index_visit (PointIndex_new count) k candidate st
      = match try_fold candidate st (offered count k) with Ok st' => Ok (st', n) | Err e => Err e end.
Proof.
  split_and!; [apply offered_perm| |apply index_visit_spec].
  destruct (index_new_spec count) as (_ & Hsort & _). unfold offered, covering, by_first in *.
  induction Hsort as [|x l Hs IH Hall]; cbn; [constructor|]. destruct (covers k x); [|done]. constructor; [done|].
  apply Forall_forall. intros y [Hy _]%list_elem_of_In%filter_In. apply list_elem_of_In in Hy. by eapply Forall_forall in Hall.
Qed.
End PointIndex.
