(* ===== verification/Database.v ===== *)
(** The database over memtable and segments ([rrd-lsm]: database.rs).

    Reads consult the active memtable first and then the live segments, the point read through
    the interval index.

    The specification of the store is the list of versions of each key over all runs.  The
    theorems: every read path, of one key, of many, of a range, of several ranges and with a
    visitor, returns for each key the newest version at or below its sequence. *)

From S2P Require Import Prelude Machine BTree LsmError Batch RecoveryBudget Wal Memtable Transaction Versions SegmentFormat Segment PointIndex.
Open Scope Z_scope.

(** * State *)

(** lsm/database.rs:68-76 CompactionPolicy *)
Record CompactionPolicy := {
  l0_compaction_trigger : Z; max_input_segments : Z; target_segment_bytes : Z; max_level : Z
}.
(** lsm/database.rs:78-87 Default for CompactionPolicy *)
Definition CompactionPolicy_default : CompactionPolicy :=
  {| l0_compaction_trigger := 8; max_input_segments := 16; target_segment_bytes := 8 * 1024 * 1024;
     max_level := 6 |}.
(** lsm/database.rs:89-102 CompactionPolicy::validate *)
Definition compaction_policy_validate (self : CompactionPolicy) : result Error CompactionPolicy :=
  if ((l0_compaction_trigger self <? 2) || (max_input_segments self <? 2)
      || (target_segment_bytes self =? 0) || (max_level self =? 0))%bool
  then Err (InvalidConfiguration "compaction requires an L0 trigger and input bound of at least two, a non-zero output target, and at least one level")
  else Ok self.

(** lsm/maintenance_limits.rs:9-16 CompactionLimits *)
Record CompactionLimits := {
  input_bytes : Z; input_logical_bytes : Z; input_versions : Z; output_segments : Z; elapsed_ms : Z;
  l0_segments : Z
}.
(** lsm/maintenance_limits.rs:18-29 Default for CompactionLimits *)
Definition CompactionLimits_default : CompactionLimits :=
  {| input_bytes := 1024 * 1024 * 1024; input_logical_bytes := 256 * 1024 * 1024; input_versions := 4194304;
     output_segments := 256; elapsed_ms := 30000; l0_segments := 64 |}.
(** lsm/maintenance_limits.rs:56-69 CompactionLimits::validate *)
Definition compaction_limits_validate (self : CompactionLimits) : result Error unit :=
  if ((input_bytes self =? 0) || (input_logical_bytes self =? 0) || (input_versions self =? 0)
      || (output_segments self =? 0) || (elapsed_ms self =? 0) || (l0_segments self <? 2))%bool
  then Err (InvalidConfiguration "compaction limits must be positive and L0 capacity at least two")
  else Ok tt.
(** lsm/maintenance_limits.rs:71-88 CompactionLimits::check *)
Definition compaction_check (self : CompactionLimits) (resource : MaintenanceResource) (observed : Z)
    : result Error unit :=
  let limit := match resource with
               | InputBytes => input_bytes self
               | InputLogicalBytes => input_logical_bytes self
               | InputVersions => input_versions self
               | OutputSegments => output_segments self
               | MaintenanceElapsedMs => elapsed_ms self
               | L0Segments => l0_segments self
               end in
  if limit <? observed then Err (MaintenanceLimit resource limit observed) else Ok tt.

(** lsm/database.rs:363-393 Database, the state reads and compaction use *)
Record Database := {
  memtable : Memtable; segments : list Segment; point_index : PointIndex;
  durable_sequence : Z; db_registry : TransactionSnapshots;
  compaction : CompactionPolicy; compaction_limits : CompactionLimits; reclamation_pending : bool
}.

(** [self.segments[i].descriptor] *)
Definition empty_descriptor : SegmentDescriptor :=
  {| segment_id := ""; segment_level := 0; format_version := 0; schema_digest := ""; key_codec_digest := "";
     page_format_digest := ""; first_key := []; last_key := []; minimum_sequence := 0;
     maximum_segment_sequence := 0; entries := 0; segment_bytes := 0; segment_checksum := "" |}.
Definition descriptor_of (segs : list Segment) (i : nat) : SegmentDescriptor :=
  match segs !! i with Some s => descriptor s | None => empty_descriptor end.

(** lsm/database.rs:691-695 Database::snapshot *)
Definition db_snapshot (self : Database) : Z := maximum_sequence (memtable self).

(** * Reads *)

(** lsm/database.rs:2447-2449 Database::get, the best candidate so far *)
Record Best := { best_sequence : Z; best_ordinal : Z; best : option SelectedVersion }.

(** lsm/database.rs:2453-2468 Database::get, one candidate segment *)
Definition consider (self : Database) (k : key) (s : Z) (st : Best) (ordinal : nat) : result Error Best :=
  match segments self !! ordinal with
  | None => Ok st
  | Some segment =>
    let? version := select_version segment k s in
    match version with
    | Some version =>
      if ((best_sequence st <? selected_sequence version)
          || ((selected_sequence version =? best_sequence st) && (Z.of_nat ordinal <? best_ordinal st)))%bool
      then Ok {| best_sequence := selected_sequence version; best_ordinal := Z.of_nat ordinal; best := Some version |}
      else Ok st
    | None => Ok st
    end
  end.

(** lsm/database.rs:2439-2476 Database::get *)
Definition db_get (self : Database) (k : key) (s : Z) : result Error (option (list byte)) :=
  match get_version (memtable self) k s with
  | Some version => Ok (value version)
  | None =>
    let? (found, _) := index_visit (descriptor_of (segments self)) (point_index self) k (consider self k s)
      {| best_sequence := 0; best_ordinal := u64_max; best := None |} in
    match best found with Some version => selected_value version | None => Ok None end
  end.

(** lsm/database.rs:974-990 Database::latest_sequence_for_key *)
Definition latest_sequence_for_key (self : Database) (k : key) : result Error (option Z) :=
  let read_sequence := db_snapshot self in
  match get_version (memtable self) k read_sequence with
  | Some version => Ok (Some (sequence version))
  | None =>
    try_fold (λ latest segment,
      let? found := get_sequence segment k read_sequence in
      match found with
      | Some seq => if match latest with None => true | Some l => l <? seq end then Ok (Some seq) else Ok latest
      | None => Ok latest
      end) None (segments self)
  end.

(** A loop over a slice that maps it and stops at the first error. *)
Fixpoint try_map {E A B} (f : A → result E B) (l : list A) : result E (list B) :=
  match l with
  | [] => Ok []
  | x :: l => let? y := f x in let? ys := try_map f l in Ok (y :: ys)
  end.

(** lsm/database.rs:2501-2511 Database::get_many, the candidates of one segment *)
Definition select_many (segment : Segment) (s : Z) (unresolved : list (key * option SelectedVersion))
    : result Error (list (key * option SelectedVersion)) :=
  try_map (λ '(k, current),
    let? version := select_version segment k s in
    match version with
    | Some version =>
      if match current with None => true | Some c => selected_sequence c <? selected_sequence version end
      then Ok (k, Some version) else Ok (k, current)
    | None => Ok (k, current)
    end) unresolved.

(** lsm/database.rs:2514-2520 Database::get_many, the values one segment owns: [take_if]
    empties the slot it reads. *)
Definition load_many (segment : Segment) (slots : list (option SelectedVersion * option (list byte)))
    : result Error (list (option SelectedVersion * option (list byte))) :=
  try_map (λ '(selected, v),
    match selected with
    | Some version =>
      if selected_belongs_to version segment then let? v := selected_value version in Ok (None, v)
      else Ok (selected, v)
    | None => Ok (selected, v)
    end) slots.

(** Put the values of the unresolved keys back where the memtable had none. *)
Fixpoint fill (resolved : list (option VersionedValue)) (loaded_ : list (option (list byte))) : list (option (list byte)) :=
  match resolved with
  | [] => []
  | Some version :: resolved => value version :: fill resolved loaded_
  | None :: resolved =>
    match loaded_ with v :: loaded_ => v :: fill resolved loaded_ | [] => None :: fill resolved [] end
  end.

(** lsm/database.rs:2478-2522 Database::get_many *)
Definition db_get_many (self : Database) (keys : list key) (s : Z) : result Error (list (option (list byte))) :=
  if (length (segments self) <=? 1)%nat then try_map (λ k, db_get self k s) keys
  else
    let resolved := map (λ k, get_version (memtable self) k s) keys in
    let unresolved := List.filter (λ k, match get_version (memtable self) k s with Some _ => false | None => true end) keys in
    let? selected := try_fold (λ slots segment, select_many segment s slots)
      (map (λ k, (k, None)) unresolved) (segments self) in
    let? values := try_fold (λ slots segment, load_many segment slots)
      (map (λ slot : key * option SelectedVersion, (slot.2, None)) selected) (segments self) in
    Ok (fill resolved (map snd values)).

(** lsm/database.rs:2555-2558 Database::scan, the rows that are not deletions *)
Definition live_rows (visible : list row) : list (key * list byte) := omap (λ '(k, version), (k,.) <$> value version) visible.

(** lsm/database.rs:2524-2559 Database::scan; [None] is the panic of the memtable on an
    inverted range. *)
Definition db_scan (self : Database) (start : key) (end_ : option key) (s : Z)
    : option (result Error (list (key * list byte))) :=
  match segments self with
  | [] => Ok <$> Memtable.scan (memtable self) start end_ s
  | segs =>
    match (match segs with [segment] => if version_count (memtable self) =? 0 then Some segment else None | _ => None end) with
    | Some segment => Some (segment_scan segment start end_ s)
    | None =>
      match try_fold (λ visible segment,
          let? rows := segment_visible_from segment start end_ s in Ok (fold_left merge_newer rows visible)) [] segs with
      | Err e => Some (Err e)
      | Ok visible =>
        match visible_from (memtable self) start end_ s with
        | None => None
        | Some rows => Some (Ok (live_rows (fold_left merge_newer rows visible)))
        end
      end
    end
  end.

(** lsm/database.rs:2564-2607 Database::scan_ranges *)
Definition db_scan_ranges (self : Database) (ranges : list (key * key)) (s : Z)
    : option (result Error (list (key * list byte))) :=
  if (existsb (λ r : key * key, leb r.2 r.1) ranges
      || existsb (λ w : (key * key) * (key * key), ltb w.2.1 w.1.2) (windows2 ranges))%bool
  then Some (Err (InvalidConfiguration "multi-range scan requires sorted, disjoint, non-empty half-open ranges"))
  else if (length ranges =? 0)%nat then Some (Ok [])
  else
    match try_fold (λ visible segment,
        let? rows := visible_ranges segment ranges s in Ok (fold_left merge_newer rows visible)) [] (segments self) with
    | Err e => Some (Err e)
    | Ok visible =>
      match fold_left (λ visible (r : key * key),
          match visible, visible_from (memtable self) r.1 (Some r.2) s with
          | Some visible, Some rows => Some (fold_left merge_newer rows visible)
          | _, _ => None
          end) ranges (Some visible) with
      | None => None
      | Some visible => Some (Ok (live_rows visible))
      end
    end.

(** lsm/database.rs:2613-2633 Database::scan_each; [visit] threads what it captures, and
    [E::from] embeds the storage error. *)
Definition db_scan_each {E S} (self : Database) (start : key) (end_ : option key) (s : Z)
    (from_ : Error → E) (visit : S → key → list byte → result E S) (st : S) : option (result E S) :=
  match segments self with
  | [] => Memtable.scan_each (memtable self) start end_ s visit st
  | _ =>
    match db_scan self start end_ s with
    | None => None
    | Some (Err e) => Some (Err (from_ e))
    | Some (Ok rows) => Some (try_fold (λ st '(k, v), visit st k v) st rows)
    end
  end.

(** * What the store holds *)

(** The rows of each segment, and the database in order: the index is that of the segments in
    their order, the segments hold their rows, the memtable's chains are oldest first and
    newer than every published version, and a memtable that counts no versions has none. *)
Record db_holds (db : Database) (contents : list (list row)) : Prop := {
  holds_segments : Forall2 (λ seg rows, ∃ gs, segment_holds seg gs ∧ concat gs = rows) (segments db) contents;
  holds_index : point_index db = PointIndex_new (descriptor_of (segments db)) (length (segments db));
  holds_table : bt_sorted (versions (memtable db)) ∧ ∀ k, oldest_first (chain_at (memtable db) k);
  holds_newer : ∀ rows k v w, rows ∈ contents → (k, v) ∈ rows → w ∈ chain_at (memtable db) k → sequence v < sequence w;
  holds_published : ∀ rows r, rows ∈ contents → r ∈ rows → 0 ≤ sequence r.2 ≤ durable_sequence db;
  holds_few : Z.of_nat (length (segments db)) < u64_max;
  holds_empty : version_count (memtable db) = 0 → versions (memtable db) = []
}.

(** The versions of a key, segment after segment and then the memtable's. *)
Definition published (contents : list (list row)) (k : key) : list VersionedValue := concat (map (versions_of k) contents).
Definition stored (db : Database) (contents : list (list row)) (k : key) : list VersionedValue :=
  published contents k ++ chain_at (memtable db) k.

(** What a read at [s] must answer. *)
Definition reads (db : Database) (contents : list (list row)) (k : key) (s : Z) : option (list byte) :=
  seen s (stored db contents k) ≫= value.

(** ** The memtable answers for everything it has *)

Lemma get_version_seen db contents k s :
  db_holds db contents → get_version (memtable db) k s = seen s (chain_at (memtable db) k).
Proof. intros H. rewrite get_version_chain. apply visible_in_seen, H. Qed.

Lemma published_elem contents k v : v ∈ published contents k ↔ ∃ rows, rows ∈ contents ∧ (k, v) ∈ rows.
Proof.
  unfold published. induction contents as [|rows contents IH]; cbn [map concat].
  { split; [by intros ?%not_elem_of_nil|]. by intros (? & ?%not_elem_of_nil & _). }
  rewrite elem_of_app, versions_of_elem, IH. set_solver.
Qed.

Lemma seen_stored db contents k s :
  db_holds db contents →
  seen s (stored db contents k)
  = match get_version (memtable db) k s with Some v => Some v | None => seen s (published contents k) end.
Proof.
  intros H. rewrite (get_version_seen db contents) by done. unfold stored. rewrite seen_app. apply newer_ordered.
  intros v w [Hv _]%seen_elem [Hw _]%seen_elem. apply published_elem in Hv as (rows & Hrows & Hv).
  by apply (holds_newer _ _ H rows k).
Qed.

(** ** The best candidate *)

(** Among lists of versions, the winner: newest, and of equal ones from the first list. *)
Definition wins (s : Z) (vss : list (list VersionedValue)) (i : nat) (v : VersionedValue) : Prop :=
  ∃ vs, vss !! i = Some vs ∧ seen s vs = Some v
  ∧ ∀ j vs' w, vss !! j = Some vs' → seen s vs' = Some w → sequence w < sequence v ∨ (sequence w = sequence v ∧ (i ≤ j)%nat).

Lemma wins_seen s vss i v : wins s vss i v → seen s (concat vss) = Some v.
Proof.
  revert i. induction vss as [|vs vss IH]; intros i (vs0 & Hi & Hv & Hbest); [done|]. cbn [concat]. rewrite seen_app.
  destruct i as [|i].
  - injection Hi as ->. rewrite Hv. destruct (seen s (concat vss)) as [w|] eqn:Ew; [|done]. cbn.
    assert (sequence w ≤ sequence v) as Hle; [|by rewrite (proj2 (Z.ltb_ge _ _))].
    clear IH Hv. apply seen_elem in Ew as [Hw Hws]. apply list_elem_of_In, in_concat in Hw as (l & Hl & Hw%list_elem_of_In).
    apply list_elem_of_In, list_elem_of_lookup in Hl as [j Hj].
    destruct (seen s l) as [x|] eqn:Ex.
    + pose proof (seen_max _ _ _ _ Ex Hw Hws). destruct (Hbest (S j) l x Hj Ex); lia.
    + rewrite seen_None in Ex. specialize (Ex w Hw). lia.
  - rewrite (IH i); [|exists vs0; split_and!; [done..|]; intros j vs' w Hj Hw; destruct (Hbest (S j) vs' w Hj Hw) as [?|[? ?]]; [by left|right; split; [done|lia]]].
    destruct (seen s vs) as [w|] eqn:Ew; [|done]. cbn. destruct (Hbest 0%nat vs w eq_refl Ew) as [?|[_ ?]]; [|lia].
    by rewrite (proj2 (Z.ltb_lt _ _)).
Qed.

(** What one segment shows of a key. *)
Definition shows (contents : list (list row)) (k : key) (s : Z) (i : nat) (o : option VersionedValue) : Prop :=
  ∃ rows, contents !! i = Some rows ∧ seen s (versions_of k rows) = o.

Definition best_of (contents : list (list row)) (k : key) (s : Z) (among : list nat) (st : Best) : Prop :=
  match best st with
  | None => best_sequence st = 0 ∧ best_ordinal st = u64_max ∧ ∀ j, j ∈ among → shows contents k s j None
  | Some sel => ∃ i v, i ∈ among ∧ shows contents k s i (Some v)
      ∧ selected_value sel = Ok (value v) ∧ best_sequence st = sequence v ∧ best_ordinal st = Z.of_nat i
      ∧ ∀ j w, j ∈ among → shows contents k s j (Some w) →
          sequence w < sequence v ∨ (sequence w = sequence v ∧ (i ≤ j)%nat)
  end.

Lemma segment_at db contents i seg :
  db_holds db contents → segments db !! i = Some seg →
  ∃ rows gs, contents !! i = Some rows ∧ segment_holds seg gs ∧ concat gs = rows.
Proof.
  intros H Hi. destruct (Forall2_lookup_l _ _ _ _ _ (holds_segments _ _ H) Hi) as (rows & Hrows & gs & Hgs & E).
  by exists rows, gs.
Qed.

Lemma consider_spec db contents k s among st j :
  db_holds db contents → best_of contents k s among st → (j < length (segments db))%nat → j ∉ among →
  ∃ st', consider db k s st j = Ok st' ∧ best_of contents k s (among ++ [j]) st'.
Proof.
  intros H Hst Hj Hnew. unfold consider. destruct (lookup_lt_is_Some_2 _ _ Hj) as [seg Hseg]. rewrite Hseg.
  destruct (segment_at _ _ _ _ H Hseg) as (rows & gs & Hrows & Hgs & Hconcat).
  destruct (select_version_spec seg gs k s Hgs) as (found & -> & Hfound). rewrite Hconcat in Hfound.
  assert (∀ o, shows contents k s j o ↔ seen s (versions_of k rows) = o) as Hshows.
  { intros o. split; [intros (rows' & Hr & <-); by simplify_eq|]. intros <-. by exists rows. }
  destruct found as [sel|], (seen s (versions_of k rows)) as [w|] eqn:Ew; cbn in Hfound; try done.
  - destruct Hfound as (_ & Hselq & Hval). rewrite Hselq.
    assert (0 ≤ sequence w) as Hw0.
    { apply seen_elem in Ew as [Hin _]. apply versions_of_elem in Hin.
      apply (holds_published _ _ H rows (k, w)); [by eapply list_elem_of_lookup_2|done]. }
    pose proof (holds_few _ _ H) as Hfew. unfold best_of in Hst.
    destruct (best st) as [cur|] eqn:Eb.
    + destruct Hst as (i & v & Hi & Hv & Hcur & Hbs & Hbo & Hmax). rewrite Hbs, Hbo.
      destruct (Z.ltb_spec (sequence v) (sequence w)) as [Hlt|Hge]; cbn [orb].
      * eexists. split; [done|]. exists j, w. cbn. split_and!; [set_solver|by apply Hshows|done..|].
        intros j' w' [Hj'| ->%list_elem_of_singleton]%elem_of_app Hw'; [left; destruct (Hmax j' w' Hj' Hw'); lia|].
        apply Hshows in Hw'. simplify_eq. right. split; [done|lia].
      * destruct (Z.eqb_spec (sequence w) (sequence v)) as [Heq|Hne]; cbn [andb].
        -- destruct (Z.ltb_spec (Z.of_nat j) (Z.of_nat i)) as [Hji|Hji].
           ++ eexists. split; [done|]. exists j, w. cbn. split_and!; [set_solver|by apply Hshows|done..|].
              intros j' w' [Hj'| ->%list_elem_of_singleton]%elem_of_app Hw'.
              ** destruct (Hmax j' w' Hj' Hw'); [left; lia|right; split; lia].
              ** apply Hshows in Hw'. simplify_eq. right. split; [done|lia].
           ++ exists st. split; [done|]. unfold best_of. rewrite Eb. exists i, v. split_and!; [set_solver|done..|].
              intros j' w' [Hj'| ->%list_elem_of_singleton]%elem_of_app Hw'; [by apply Hmax|].
              apply Hshows in Hw'. simplify_eq. right. split; [done|lia].
        -- exists st. split; [done|]. unfold best_of. rewrite Eb. exists i, v. split_and!; [set_solver|done..|].
           intros j' w' [Hj'| ->%list_elem_of_singleton]%elem_of_app Hw'; [by apply Hmax|].
           apply Hshows in Hw'. simplify_eq. left. lia.
    + destruct Hst as (Hbs & Hbo & Hnone). rewrite Hbs, Hbo.
      assert ((0 <? sequence w) || (sequence w =? 0) && (Z.of_nat j <? u64_max) = true)%bool as ->.
      { destruct (Z.ltb_spec 0 (sequence w)); [done|]. rewrite (proj2 (Z.eqb_eq _ _)) by lia. cbn [andb orb].
        apply Z.ltb_lt. lia. }
      eexists. split; [done|]. exists j, w. cbn. split_and!; [set_solver|by apply Hshows|done..|].
      intros j' w' [Hj'| ->%list_elem_of_singleton]%elem_of_app Hw'.
      * apply Hnone in Hj' as (r1 & H1 & H2). destruct Hw' as (r2 & H3 & H4). by simplify_eq.
      * apply Hshows in Hw'. simplify_eq. right. split; [done|lia].
  - exists st. split; [done|]. unfold best_of in *. destruct (best st).
    + destruct Hst as (i & v & Hi & Hrest). exists i, v. split; [set_solver|]. destruct Hrest as (? & ? & ? & ? & Hmax). split_and!; [done..|].
      intros j' w' [Hj'| ->%list_elem_of_singleton]%elem_of_app Hw'; [by apply Hmax|]. by apply Hshows in Hw'.
    + destruct Hst as (? & ? & Hnone). split_and!; [done..|].
      intros j' [Hj'| ->%list_elem_of_singleton]%elem_of_app; [by apply Hnone|]. by apply Hshows.
Qed.

Lemma consider_all db contents k s l among st :
  db_holds db contents → best_of contents k s among st → (∀ j, j ∈ l → (j < length (segments db))%nat) →
  NoDup (among ++ l) →
  ∃ st', try_fold (consider db k s) st l = Ok st' ∧ best_of contents k s (among ++ l) st'.
Proof.
  intros H. revert among st. induction l as [|j l IH]; intros among st Hst Hl Hnd; cbn [try_fold].
  { exists st. by rewrite app_nil_r. }
  destruct (consider_spec db contents k s among st j) as (st1 & -> & Hst1); [done|done|apply Hl; by left| |].
  { apply NoDup_app in Hnd as (_ & Hdis & _). intros Hin. apply (Hdis j Hin). by left. }
  destruct (IH (among ++ [j]) st1) as (st' & Hfold & Hst'); [done|intros; apply Hl; by right|by rewrite <-app_assoc|].
  exists st'. rewrite <-app_assoc in Hst'. done.
Qed.

(** A segment that does not cover the key shows nothing of it. *)
Lemma uncovered_shows db contents k s i :
  db_holds db contents → (i < length (segments db))%nat → covers (descriptor_of (segments db)) k i = false →
  shows contents k s i None.
Proof.
  intros H Hi Hcov. destruct (lookup_lt_is_Some_2 _ _ Hi) as [seg Hseg].
  destruct (segment_at _ _ _ _ H Hseg) as (rows & gs & Hrows & Hgs & <-). exists (concat gs). split; [done|].
  apply seen_None. intros v Hv%versions_of_elem. exfalso. destruct (holds_bounds _ _ Hgs _ Hv) as (H1 & H2 & _).
  unfold covers, descriptor_of in Hcov. rewrite Hseg in Hcov. cbn in H1, H2. rewrite H1, H2 in Hcov. done.
Qed.

Lemma db_get_spec db contents k s : db_holds db contents → db_get db k s = Ok (reads db contents k s).
Proof.
  intros H. unfold db_get, reads. rewrite (seen_stored db contents) by done.
  destruct (get_version (memtable db) k s) as [v|]; [done|]. rewrite (holds_index _ _ H).
  set (count := length (segments db)). set (l := offered (descriptor_of (segments db)) count k).
  pose proof (offered_perm (descriptor_of (segments db)) count k) as Hperm. fold l in Hperm.
  set (st0 := {| best_sequence := 0; best_ordinal := u64_max; best := None |}).
  destruct (index_visit_spec (descriptor_of (segments db)) count k (consider db k s) st0) as (n & _ & ->). fold l.
  assert (∀ j, j ∈ l ↔ (j < count)%nat ∧ covers (descriptor_of (segments db)) k j = true) as Hl.
  { intros j. rewrite Hperm, list_elem_of_In, filter_In, in_seq. split; [intros [? ?]|intros [? ?]]; split; try done; lia. }
  assert (NoDup l) as Hnd.
  { rewrite Hperm. apply NoDup_ListNoDup, List.NoDup_filter, seq_NoDup. }
  destruct (consider_all db contents k s l [] st0) as (st & -> & Hst); [done| |intros; by apply Hl|done|].
  { cbn. split_and!; [done..|]. by intros j ?%not_elem_of_nil. }
  assert (∀ j, (j < count)%nat → j ∉ l → shows contents k s j None) as Hout.
  { intros j Hj Hin. apply (uncovered_shows db contents); [done|done|]. apply not_true_is_false. intros Hc. by apply Hin, Hl. }
  assert (length contents = count) as Hlen by (symmetry; by eapply Forall2_length, holds_segments).
  unfold published. unfold best_of in Hst. cbn [app] in Hst. destruct (best st) as [sel|].
  - destruct Hst as (i & v & Hi & (rows & Hrows & Hv) & -> & _ & _ & Hmax).
    rewrite (wins_seen s (map (versions_of k) contents) i v); [done|]. exists (versions_of k rows).
    split_and!; [by rewrite list_lookup_fmap, Hrows|done|]. intros j vs' w Hj Hw. rewrite list_lookup_fmap in Hj.
    destruct (contents !! j) as [rows'|] eqn:Ej; cbn in Hj; simplify_eq.
    destruct (decide (j ∈ l)) as [Hin|Hnin]; [apply (Hmax j w Hin); by exists rows'|].
    destruct (Hout j) as (r & Hr & Hnone); [by rewrite <-Hlen; eapply lookup_lt_Some|done|]. by simplify_eq.
  - destruct Hst as (_ & _ & Hnone). symmetry.
    assert (seen s (concat (map (versions_of k) contents)) = None) as ->; [|done].
    apply seen_None. intros w Hw. apply published_elem in Hw as (rows & Hr & Hw).
    apply list_elem_of_lookup in Hr as [j Hj].
    assert (shows contents k s j None) as (r & Hr' & Hs).
    { destruct (decide (j ∈ l)); [by apply Hnone|]. apply Hout; [rewrite <-Hlen; by eapply lookup_lt_Some|done]. }
    simplify_eq. rewrite seen_None in Hs. apply Hs. by apply versions_of_elem.
Qed.

(** ** The newest sequence of a key *)

Lemma published_snoc contents rows k : published (contents ++ [rows]) k = published contents k ++ versions_of k rows.
Proof. unfold published. rewrite map_app, concat_app. cbn. by rewrite app_nil_r. Qed.

(** Folding over the segments in order, with what has been seen of the published rows. *)
Lemma fold_runs {A} (f : A → Segment → result Error A) (R : list (list row) → A → Prop) segs contents done_ st :
  Forall2 (λ seg rows, ∃ gs, segment_holds seg gs ∧ concat gs = rows) segs contents → R done_ st →
  (∀ before rows seg gs a, seg ∈ segs → segment_holds seg gs → concat gs = rows → R before a →
    ∃ a', f a seg = Ok a' ∧ R (before ++ [rows]) a') →
  ∃ a, try_fold f st segs = Ok a ∧ R (done_ ++ contents) a.
Proof.
  intros Hsegs H0 Hstep. revert done_ st H0 Hstep.
  induction Hsegs as [|seg rows segs contents (gs & Hgs & Hrows) Hsegs IH]; intros before st HR Hstep; cbn [try_fold].
  { exists st. by rewrite app_nil_r. }
  destruct (Hstep before rows seg gs st) as (a' & -> & Ha'); [by left|done..|].
  destruct (IH (before ++ [rows]) a' Ha') as (a & Hfold & Ha); [intros; eapply Hstep; [by right|done..]|]. exists a. by rewrite <-app_assoc in Ha.
Qed.

Lemma newer_sequence a b :
  sequence <$> newer a b
  = match b with
    | Some w => if match sequence <$> a with None => true | Some l => l <? sequence w end then Some (sequence w) else sequence <$> a
    | None => sequence <$> a
    end.
Proof. destruct a as [v|], b as [w|]; cbn; try done. by destruct (sequence v <? sequence w). Qed.

Lemma latest_sequence_spec db contents k :
  db_holds db contents →
  latest_sequence_for_key db k = Ok (sequence <$> seen (db_snapshot db) (stored db contents k)).
Proof.
  intros H. unfold latest_sequence_for_key. rewrite (seen_stored db contents) by done.
  destruct (get_version (memtable db) k (db_snapshot db)) as [v|]; [done|].
  destruct (fold_runs (λ latest segment,
      let? found := get_sequence segment k (db_snapshot db) in
      match found with
      | Some seq => if match latest with None => true | Some l => l <? seq end then Ok (Some seq) else Ok latest
      | None => Ok latest
      end) (λ before latest, latest = sequence <$> seen (db_snapshot db) (published before k))
      (segments db) contents [] None (holds_segments _ _ H)) as (a & -> & ->); [done| |done].
  intros before rows seg gs a _ Hgs Hrows ->. rewrite published_snoc, seen_app, newer_sequence.
  destruct (select_version_spec seg gs k (db_snapshot db) Hgs) as (found & Hsel & Hfound). rewrite Hrows in Hfound.
  unfold get_sequence. rewrite Hsel.
  destruct found as [sel|], (seen (db_snapshot db) (versions_of k rows)) as [w|]; cbn in Hfound |- *; try done; [|by eexists].
  destruct Hfound as (_ & -> & _). eexists. split; [|done].
  by destruct (match sequence <$> seen (db_snapshot db) (published before k) with None => true | Some l => l <? sequence w end).
Qed.

(** ** Many keys *)

Lemma try_map_Forall2 {E A B} (f : A → result E B) (R : A → B → Prop) l :
  (∀ x, x ∈ l → ∃ y, f x = Ok y ∧ R x y) → ∃ ys, try_map f l = Ok ys ∧ Forall2 R l ys.
Proof.
  induction l as [|x l IH]; intros Hf; cbn [try_map]; [exists []; split; [done|constructor]|].
  destruct (Hf x ltac:(left)) as (y & -> & Hy). destruct IH as (ys & -> & Hys); [intros; apply Hf; by right|].
  exists (y :: ys). split; [done|by constructor].
Qed.

(** The candidate of a key after some runs: the newest row, in a segment of the database. *)
Definition candidate_ok (segs : list Segment) (s : Z) (before : list (list row)) (slot : key * option SelectedVersion) : Prop :=
  match slot.2, seen s (published before slot.1) with
  | Some sel, Some v => selected_sequence sel = sequence v ∧ selected_value sel = Ok (value v) ∧ selected_segment sel ∈ segs
  | None, None => True
  | _, _ => False
  end.

Lemma select_many_spec segs s before rows seg gs slots :
  segment_holds seg gs → concat gs = rows → seg ∈ segs → Forall (candidate_ok segs s before) slots →
  ∃ slots', select_many seg s slots = Ok slots' ∧ map fst slots' = map fst slots
    ∧ Forall (candidate_ok segs s (before ++ [rows])) slots'.
Proof.
  intros Hgs Hrows Hin Hslots. unfold select_many.
  match goal with |- context [try_map ?f slots] =>
    destruct (try_map_Forall2 f (λ slot slot', slot'.1 = slot.1 ∧ candidate_ok segs s (before ++ [rows]) slot') slots)
      as (slots' & -> & Hall) end.
  - intros [k current] Hslot. eapply Forall_forall in Hslots; [|exact Hslot]. unfold candidate_ok in *. cbn [fst snd] in *.
    destruct (select_version_spec seg gs k s Hgs) as (found & -> & Hfound). rewrite Hrows in Hfound.
    assert (seen s (published (before ++ [rows]) k) = newer (seen s (published before k)) (seen s (versions_of k rows))) as Hpub
      by (by rewrite published_snoc, seen_app).
    destruct found as [sel|], (seen s (versions_of k rows)) as [w|]; cbn in Hfound; try done.
    + destruct Hfound as (Hseg & Hseq & Hval). destruct current as [c|], (seen s (published before k)) as [v|]; cbn in Hpub; try done.
      * destruct Hslots as (Hc1 & Hc2 & Hc3). rewrite Hc1, Hseq. destruct (sequence v <? sequence w) eqn:Elt;
          (eexists; split; [done|]; cbn; rewrite Hpub; split_and!; [done..|]; by rewrite ?Hseg).
      * eexists; split; [done|]; cbn; rewrite Hpub; split_and!; [done..|]; by rewrite Hseg.
    + rewrite newer_None_r in Hpub. eexists. split; [done|]. cbn. by rewrite Hpub.
  - exists slots'. split; [done|]. split.
    + clear -Hall. induction Hall as [|? ? ? ? [E _] _ IH]; [done|]. cbn. by rewrite E, IH.
    + clear -Hall. induction Hall as [|? ? ? ? [_ E] _ IH]; by constructor.
Qed.

Definition slot_ok (remaining : list Segment) (o : option VersionedValue) (slot : option SelectedVersion * option (list byte)) : Prop :=
  match o with
  | None => slot = (None, None)
  | Some v => slot = (None, value v)
      ∨ ∃ sel, slot = (Some sel, None) ∧ selected_value sel = Ok (value v) ∧ selected_segment sel ∈ remaining
  end.

Lemma load_many_spec seg remaining os slots :
  Forall2 (slot_ok (seg :: remaining)) os slots →
  ∃ slots', load_many seg slots = Ok slots' ∧ Forall2 (slot_ok remaining) os slots'.
Proof.
  induction 1 as [|o [sel v] os slots Hslot Hslots (slots' & Hload & IH)].
  { exists []. split; [done|constructor]. }
  unfold load_many in *. cbn [try_map]. rewrite Hload. unfold slot_ok in Hslot.
  assert (∃ slot', (match sel with
    | Some version => if selected_belongs_to version seg then let? v := selected_value version in Ok (None, v) else Ok (sel, v)
    | None => Ok (sel, v) end) = @Ok Error _ slot' ∧ slot_ok remaining o slot') as (slot' & -> & Hok).
  2:{ exists (slot' :: slots'). split; [done|by constructor]. }
  destruct o as [w|]; [|simplify_eq; by eexists]. destruct Hslot as [Hd|(c & Hc & Hval & Hin)]; simplify_eq.
  - eexists. split; [done|]. by left.
  - unfold selected_belongs_to. destruct (Z.eqb_spec (address (selected_segment c)) (address seg)) as [E|E].
    + rewrite Hval. eexists. split; [done|]. by left.
    + eexists. split; [done|]. right. exists c. split_and!; [done..|].
      apply elem_of_cons in Hin as [Hin|]; [|done]. by rewrite Hin in E.
Qed.

Lemma load_all_spec segs os slots :
  Forall2 (slot_ok segs) os slots →
  ∃ slots', try_fold (λ slots segment, load_many segment slots) slots segs = Ok slots'
    ∧ map snd slots' = map (λ o : option VersionedValue, o ≫= value) os.
Proof.
  revert slots. induction segs as [|seg segs IH]; intros slots Hs; cbn [try_fold].
  - exists slots. split; [done|]. induction Hs as [|o [sel v] os slots Hslot Hs IHs]; [done|]. cbn. rewrite IHs. f_equal.
    unfold slot_ok in Hslot. destruct o as [w|]; [|by simplify_eq].
    destruct Hslot as [Hd|(c & _ & _ & Hin)]; [by simplify_eq|]. by apply not_elem_of_nil in Hin.
  - destruct (load_many_spec _ _ _ _ Hs) as (slots' & -> & Hs'). by apply IH.
Qed.

Lemma fill_spec (g : key → option VersionedValue) (h : key → option (list byte)) keys :
  fill (map g keys) (map h (List.filter (λ k, match g k with Some _ => false | None => true end) keys))
  = map (λ k, match g k with Some v => value v | None => h k end) keys.
Proof. induction keys as [|k keys IH]; [done|]. cbn. destruct (g k) eqn:E; cbn; by rewrite IH. Qed.

Lemma try_map_ok {E A B} (f : A → result E B) (g : A → B) l : (∀ x, f x = Ok (g x)) → try_map f l = Ok (map g l).
Proof. intros Hf. induction l as [|x l IH]; [done|]. cbn. by rewrite Hf, IH. Qed.

Lemma db_get_many_spec db contents keys s :
  db_holds db contents → db_get_many db keys s = Ok (map (λ k, reads db contents k s) keys).
Proof.
  intros H. unfold db_get_many. destruct (length (segments db) <=? 1)%nat.
  { apply try_map_ok. intros k. by apply db_get_spec. }
  set (unresolved := List.filter _ keys).
  destruct (fold_runs (λ slots segment, select_many segment s slots)
    (λ before slots, map fst slots = unresolved ∧ Forall (candidate_ok (segments db) s before) slots)
    (segments db) contents [] (map (λ k, (k, None)) unresolved) (holds_segments _ _ H)) as (slots & Hsel & Hkeys & Hslots).
  { rewrite map_map, map_id. split; [done|]. apply Forall_forall. intros slot (k & -> & _)%list_elem_of_fmap. done. }
  { intros before rows seg gs slots Hin Hgs Hrows [Hk Hs].
    destruct (select_many_spec (segments db) s before rows seg gs slots Hgs Hrows Hin Hs) as (slots' & -> & Hk' & Hs').
    exists slots'. split; [done|]. split; [congruence|done]. }
  rewrite Hsel.
  destruct (load_all_spec (segments db) (map (λ k, seen s (published contents k)) unresolved)
    (map (λ slot : key * option SelectedVersion, (slot.2, None)) slots)) as (loaded_ & -> & Hloaded).
  { rewrite <-Hkeys. clear -Hslots. cbn [app] in Hslots. induction Hslots as [|[k sel] slots Hslot Hs IH]; [constructor|].
    cbn [map fst snd]. constructor; [|exact IH]. unfold candidate_ok in Hslot. cbn [fst snd] in Hslot. unfold slot_ok.
    destruct sel as [sel|], (seen s (published contents k)) as [v|]; try done. right. exists sel. by destruct Hslot as (_ & ? & ?). }
  f_equal. rewrite Hloaded, map_map, fill_spec. apply map_ext. intros k. unfold reads. rewrite (seen_stored db contents) by done.
  by destruct (get_version (memtable db) k s).
Qed.

(** ** Scans *)

Lemma live_rows_spec visible :
  bt_sorted visible → bt_sorted (live_rows visible) ∧ ∀ k, bt_get k (live_rows visible) = bt_get k visible ≫= value.
Proof. intros Hs. apply bt_omap_spec; [|done]. intros k v. done. Qed.

Lemma newest_versions_of_map k (m : list row) : bt_sorted m → newest (versions_of k m) = bt_get k m.
Proof.
  intros Hs. destruct (bt_get k m) as [v|] eqn:E.
  - apply newest_unique.
    + apply versions_of_elem. by apply bt_get_elem.
    + intros w Hw%versions_of_elem. left. apply bt_elem_get in Hw; [|done]. congruence.
  - apply newest_None, versions_of_nil. intros [k' v] Hin E'. cbn in E'. subst k'. apply bt_elem_get in Hin; [|done]. congruence.
Qed.

Lemma merge_visible_spec (m rows : list row) k :
  bt_sorted rows → bt_get k (fold_left merge_newer rows m) = newer (bt_get k m) (bt_get k rows).
Proof. intros Hr. by rewrite merge_all_get, newest_versions_of_map. Qed.

(** The rows of the segments that a test admits, merged. *)
Lemma merge_segments_spec db contents (read : Segment → result Error (list row)) (inside : key → bool) s :
  db_holds db contents →
  (∀ seg gs, segment_holds seg gs → ∃ rows, read seg = Ok rows ∧ bt_sorted rows
    ∧ ∀ k, bt_get k rows = if inside k then seen s (versions_of k (concat gs)) else None) →
  ∃ m, try_fold (λ visible segment, let? rows := read segment in Ok (fold_left merge_newer rows visible)) [] (segments db) = Ok m
    ∧ bt_sorted m ∧ ∀ k, bt_get k m = if inside k then seen s (published contents k) else None.
Proof.
  intros H Hread.
  destruct (fold_runs (λ visible segment, let? rows := read segment in Ok (fold_left merge_newer rows visible))
    (λ before m, bt_sorted m ∧ ∀ k, bt_get k m = if inside k then seen s (published before k) else None)
    (segments db) contents [] [] (holds_segments _ _ H)) as (m & -> & Hm); [| |by exists m].
  { split; [constructor|]. intros k. by destruct (inside k). }
  intros before rows seg gs m _ Hgs Hrows [Hs Hget]. destruct (Hread seg gs Hgs) as (rs & -> & Hrs & Hrget).
  eexists. split; [done|]. split; [by apply merge_all_sorted|]. intros k.
  rewrite merge_visible_spec, Hget, Hrget, Hrows by done. destruct (inside k); [|done]. by rewrite published_snoc, seen_app.
Qed.

Lemma live_reads db contents (inside : key → bool) s m table :
  db_holds db contents → bt_sorted m → bt_sorted table →
  (∀ k, bt_get k m = if inside k then seen s (published contents k) else None) →
  (∀ k, bt_get k table = if inside k then get_version (memtable db) k s else None) →
  bt_sorted (live_rows (fold_left merge_newer table m))
  ∧ ∀ k, bt_get k (live_rows (fold_left merge_newer table m)) = if inside k then reads db contents k s else None.
Proof.
  intros H Hm Ht Hgm Hgt. destruct (live_rows_spec (fold_left merge_newer table m)) as [Hs Hget]; [by apply merge_all_sorted|].
  split; [done|]. intros k. rewrite Hget, merge_visible_spec, Hgm, Hgt by done. destruct (inside k); [|done].
  unfold reads. f_equal. unfold stored. rewrite seen_app. by rewrite (get_version_seen db contents).
Qed.

Lemma db_scan_spec db contents start end_ s :
  db_holds db contents → inverted start end_ = false →
  ∃ rows, db_scan db start end_ s = Some (Ok rows) ∧ bt_sorted rows
    ∧ ∀ k, bt_get k rows = if key_in_range start end_ k then reads db contents k s else None.
Proof.
  intros H Hinv. unfold db_scan. pose proof (holds_segments _ _ H) as Hsegs.
  destruct (segments db) as [|seg segs] eqn:Esegs.
  { inversion Hsegs; subst. pose proof (scan_spec (memtable db) start end_ s (proj1 (holds_table _ _ H))) as Hscan.
    rewrite Hinv in Hscan. destruct Hscan as (rows & -> & Hs & Hget). exists rows. split_and!; [done..|].
    intros k. rewrite Hget. destruct (key_in_range start end_ k); [|done]. unfold get, reads. rewrite (seen_stored db []) by done.
    by destruct (get_version (memtable db) k s). }
  destruct (match segs with [] => _ | _ => None end) as [only|] eqn:Eonly.
  - destruct segs; [|done]. destruct (Z.eqb_spec (version_count (memtable db)) 0) as [E|]; [|done]. injection Eonly as <-.
    inversion Hsegs as [|? rows ? ? (gs & Hgs & Hrows) Hnil]; subst. inversion Hnil; subst.
    unfold segment_scan. destruct (segment_visible_from_spec seg gs start end_ s Hgs) as (vis & -> & Hs & Hget).
    eexists. split; [done|]. destruct (live_rows_spec vis Hs) as [Hl Hlget]. split; [done|]. intros k.
    change (bt_get k (live_rows vis) = if key_in_range start end_ k then reads db [concat gs] k s else None). rewrite Hlget, Hget.
    destruct (key_in_range start end_ k); [|done]. unfold reads. rewrite (seen_stored db [concat gs]) by done.
    rewrite get_version_chain. unfold chain_at. rewrite (holds_empty _ _ H) by done. cbn. unfold published. cbn. by rewrite app_nil_r.
  - rewrite <-Esegs in *. clear Eonly.
    destruct (merge_segments_spec db contents (λ seg, segment_visible_from seg start end_ s) (key_in_range start end_) s H)
      as (m & Hfold & Hm & Hgm); [intros; by apply segment_visible_from_spec|]. rewrite Hfold.
    pose proof (visible_from_spec (memtable db) start end_ s (proj1 (holds_table _ _ H))) as Hvis. rewrite Hinv in Hvis.
    destruct Hvis as (table & -> & Ht & Hgt). eexists. split; [done|]. by apply live_reads.
Qed.

Lemma ranges_checked ranges :
  existsb (λ r : key * key, leb r.2 r.1) ranges = false →
  existsb (λ w : (key * key) * (key * key), ltb w.2.1 w.1.2) (windows2 ranges) = false → ranges_ok ranges.
Proof.
  intros Hne Hw. assert (Forall (λ r : key * key, ltb r.1 r.2 = true) ranges) as Hpos.
  { apply Forall_forall. intros r Hr. destruct (ltb r.1 r.2) eqn:E; [done|]. exfalso.
    assert (existsb (λ r : key * key, leb r.2 r.1) ranges = true); [|congruence].
    apply existsb_exists. exists r. split; [by apply list_elem_of_In|]. by rewrite leb_ltb, E. }
  split; [done|]. clear Hne. induction ranges as [|a ranges IH]; [constructor|].
  apply Forall_cons in Hpos as [Ha Hpos]. destruct ranges as [|b ranges]; [repeat constructor|].
  change (windows2 (a :: b :: ranges)) with ((a, b) :: windows2 (b :: ranges)) in Hw.
  cbn [existsb fst snd] in Hw. apply orb_false_iff in Hw as [Hab Hw]. specialize (IH Hw Hpos).
  constructor; [done|]. apply StronglySorted_inv in IH as [_ Hall].
  assert (leb a.2 b.1 = true) as Hle by (by rewrite leb_ltb, Hab). apply Forall_cons. split; [done|].
  eapply Forall_impl; [exact Hall|]. intros c Hc. apply Forall_cons in Hpos as [Hb _].
  eapply leb_trans; [exact Hle|]. eapply leb_trans; [by apply ltb_leb|done].
Qed.

Lemma ranges_unchecked ranges :
  ranges_ok ranges →
  (existsb (λ r : key * key, leb r.2 r.1) ranges
   || existsb (λ w : (key * key) * (key * key), ltb w.2.1 w.1.2) (windows2 ranges))%bool = false.
Proof.
  intros [Hpos Hs]. apply orb_false_iff. split.
  - apply not_true_is_false. intros (r & Hin%list_elem_of_In & Hle)%existsb_exists. eapply Forall_forall in Hpos; [|exact Hin].
    cbn in Hpos. rewrite leb_ltb, Hpos in Hle. done.
  - induction Hs as [|a l Hs IH Hall]; [done|]. destruct l as [|b l]; [done|]. apply Forall_cons in Hpos as [_ Hpos].
    change (windows2 (a :: b :: l)) with ((a, b) :: windows2 (b :: l)). cbn [existsb fst snd]. apply Forall_cons in Hall as [Hab _].
    rewrite leb_ltb in Hab. apply negb_true_iff in Hab. rewrite Hab. by apply IH.
Qed.

Lemma newer_idem a b : newer (newer a b) b = newer a b.
Proof.
  destruct a as [a|], b as [b|]; cbn; try done; [|by rewrite Z.ltb_irrefl].
  destruct (sequence a <? sequence b) eqn:E; cbn; [by rewrite Z.ltb_irrefl|by rewrite E].
Qed.

Lemma merge_ranges_spec t ranges s m :
  bt_sorted (versions t) → Forall (λ r : key * key, ltb r.1 r.2 = true) ranges → bt_sorted m →
  ∃ m', fold_left (λ visible (r : key * key),
      match visible, visible_from t r.1 (Some r.2) s with
      | Some visible, Some rows => Some (fold_left merge_newer rows visible)
      | _, _ => None
      end) ranges (Some m) = Some m' ∧ bt_sorted m'
    ∧ ∀ k, bt_get k m' = newer (bt_get k m) (if in_some_range ranges k then get_version t k s else None).
Proof.
  intros Ht. revert m. induction ranges as [|r ranges IH]; intros m Hpos Hm; cbn [fold_left].
  { exists m. split_and!; [done..|]. intros k. by rewrite newer_None_r. }
  apply Forall_cons in Hpos as [Hr Hpos]. pose proof (visible_from_spec t r.1 (Some r.2) s Ht) as Hvis.
  assert (inverted r.1 (Some r.2) = false) as Hinv.
  { cbn. destruct (ltb r.2 r.1) eqn:E; [|done]. pose proof (ltb_trans _ _ _ Hr E) as Hx. by rewrite ltb_irrefl in Hx. }
  rewrite Hinv in Hvis. destruct Hvis as (rows & -> & Hs & Hget).
  destruct (IH (fold_left merge_newer rows m) Hpos) as (m' & -> & Hm' & Hget'); [by apply merge_all_sorted|].
  exists m'. split_and!; [done..|]. intros k. rewrite Hget', merge_visible_spec, Hget by done. cbn [in_some_range existsb].
  unfold key_in_range. fold (in_some_range ranges k). destruct (leb r.1 k && ltb k r.2)%bool; cbn [orb].
  - destruct (in_some_range ranges k); [by rewrite newer_idem|by rewrite newer_None_r].
  - by rewrite newer_None_r.
Qed.

Lemma db_scan_ranges_spec db contents ranges s :
  db_holds db contents → ranges_ok ranges →
  ∃ rows, db_scan_ranges db ranges s = Some (Ok rows) ∧ bt_sorted rows
    ∧ ∀ k, bt_get k rows = if in_some_range ranges k then reads db contents k s else None.
Proof.
  intros H Hr. unfold db_scan_ranges.
  rewrite ranges_unchecked by done.
  destruct (Nat.eqb_spec (length ranges) 0) as [E|_].
  { apply length_zero_iff_nil in E as ->. exists []. split_and!; [done|constructor|done]. }
  destruct (merge_segments_spec db contents (λ seg, visible_ranges seg ranges s) (in_some_range ranges) s H)
    as (m & -> & Hm & Hgm); [intros; by apply visible_ranges_spec|].
  destruct (merge_ranges_spec (memtable db) ranges s m (proj1 (holds_table _ _ H)) (proj1 Hr) Hm) as (m' & -> & Hm' & Hget').
  eexists. split; [done|]. destruct (live_rows_spec m' Hm') as [Hs Hlget]. split; [done|]. intros k.
  rewrite Hlget, Hget', Hgm. destruct (in_some_range ranges k); [|done]. unfold reads, stored. f_equal.
  by rewrite seen_app, (get_version_seen db contents).
Qed.

(** * A concrete database: the sample segment under a memtable with newer versions *)

Definition sample_table_rows : list (key * VersionChain) :=
  [(str_bytes "fig", One {| sequence := 7; value := None |});
   (str_bytes "pear", Many [{| sequence := 6; value := Some (str_bytes "old") |};
                            {| sequence := 8; value := Some (str_bytes "jam") |}] 4)].
Definition sample_memtable : Memtable :=
  {| versions := sample_table_rows; maximum_sequence := 8; version_count := 3; approximate_bytes := 0;
     profile_counters := ProfileCounters_default |}.
Definition sample_db : Database :=
  {| memtable := sample_memtable; segments := [sample_segment];
     point_index := PointIndex_new (descriptor_of [sample_segment]) 1; durable_sequence := 5;
     db_registry := TransactionSnapshots_new 7 TransactionLimits_default;
     compaction := CompactionPolicy_default; compaction_limits := CompactionLimits_default;
     reclamation_pending := false |}.

Lemma sample_chains k w : w ∈ chain_at sample_memtable k → 5 < sequence w.
Proof.
  unfold chain_at. destruct (bt_get k (versions sample_memtable)) as [c|] eqn:E; [|by intros ?%not_elem_of_nil].
  apply bt_get_elem in E. cbn [versions sample_memtable] in E.
  unfold sample_table_rows in E. rewrite !elem_of_cons in E. destruct E as [[= -> ->]|[[= -> ->]|E%not_elem_of_nil]]; [..|done];
    cbn; rewrite !elem_of_cons; intros [->|Hw]; [cbn; lia|by apply not_elem_of_nil in Hw|cbn; lia|].
  destruct Hw as [->|Hw%not_elem_of_nil]; [cbn; lia|done].
Qed.

Lemma sample_db_holds : ∃ contents, db_holds sample_db contents.
Proof.
  destruct (validation_sound sample_segment sample_index_ok) as [gs H]; [done|vm_compute; reflexivity|].
  exists [concat gs]. constructor; cbn [segments sample_db].
  - constructor; [|constructor]. by exists gs.
  - reflexivity.
  - split; [vm_compute; repeat constructor|]. intros k. unfold chain_at.
    destruct (bt_get k (versions (memtable sample_db))) as [c|] eqn:E; [|constructor].
    apply bt_get_elem in E. cbn [memtable sample_db versions sample_memtable] in E.
    unfold sample_table_rows in E. rewrite !elem_of_cons in E. destruct E as [[= -> ->]|[[= -> ->]|E%not_elem_of_nil]]; [..|done]; repeat constructor.
  - intros rows k v w ->%list_elem_of_singleton Hv Hw%sample_chains.
    apply (holds_bounds _ _ H) in Hv as (_ & _ & _ & Hv). change (sequence v ≤ 5) in Hv. lia.
  - intros rows r ->%list_elem_of_singleton Hr. apply (holds_bounds _ _ H) in Hr as (_ & _ & Hr).
    change (1 ≤ sequence r.2 ≤ 5) in Hr. change (0 ≤ sequence r.2 ≤ 5). lia.
  - vm_compute. reflexivity.
  - intros E. vm_compute in E. discriminate.
Qed.

(** * The claims *)

(** C29: point reads of the database are exact.  A read of one key, a read of many keys and the
    newest-sequence lookup of the commit check all answer from the same versions: for each
    key the newest one at or below the sequence over memtable and segments, its value or its
    deletion.  The interval index, the filters, the segment order and the split between
    memtable and segments do not show. *)
Theorem database_reads_newest db contents :
  db_holds db contents →
  (∀ k s, db_get db k s = Ok (reads db contents k s))
  ∧ (∀ keys s, db_get_many db keys s = Ok (map (λ k, reads db contents k s) keys))
  ∧ (∀ k, latest_sequence_for_key db k = Ok (sequence <$> seen (db_snapshot db) (stored db contents k))).
Proof.
  intros H. split_and!; intros.
  - by apply db_get_spec.
  - by apply db_get_many_spec.
  - by apply latest_sequence_spec.
Qed.
Lemma database_reads_newest_witness :
  ∃ contents, db_get sample_db (str_bytes "pear") 7 = Ok (reads sample_db contents (str_bytes "pear") 7)
    ∧ db_get_many sample_db [str_bytes "pear"; str_bytes "fig"] 7 = Ok [Some (str_bytes "old"); None]
    ∧ latest_sequence_for_key sample_db (str_bytes "apple") = Ok (Some 4).
Proof.
  destruct sample_db_holds as [contents H]. exists contents. split; [apply (database_reads_newest sample_db contents H)|].
  split; vm_compute; reflexivity.
Defined.

(** C30: scans of the database are exact.  Over a range that is not inverted, the scan returns
    in strictly ascending key order exactly the live value of every key inside, as the point
    read gives it, and the visiting scan visits exactly those rows.  The multi-range scan does
    the same over the union of its ranges, and refuses exactly the lists of ranges that are
    not non-empty, ascending and disjoint. *)
Theorem database_scans_exact db contents s :
  db_holds db contents →
  (∀ start end_, inverted start end_ = false →
     ∃ rows, db_scan db start end_ s = Some (Ok rows) ∧ bt_sorted rows
       ∧ (∀ k, bt_get k rows = if key_in_range start end_ k then reads db contents k s else None)
       ∧ ∀ E S (from_ : Error → E) (visit : S → key → list byte → result E S) st,
           db_scan_each db start end_ s from_ visit st = Some (try_fold (λ st '(k, v), visit st k v) st rows))
  ∧ (∀ ranges,
       (ranges_ok ranges ∧ ∃ rows, db_scan_ranges db ranges s = Some (Ok rows) ∧ bt_sorted rows
         ∧ ∀ k, bt_get k rows = if in_some_range ranges k then reads db contents k s else None)
       ∨ (¬ ranges_ok ranges ∧ ∃ reason, db_scan_ranges db ranges s = Some (Err (InvalidConfiguration reason)))).
Proof.
  intros H. split.
  - intros start end_ Hinv. destruct (db_scan_spec db contents start end_ s H Hinv) as (rows & Hscan & Hs & Hget).
    exists rows. split_and!; [done..|]. intros. unfold db_scan_each. rewrite Hscan. unfold db_scan in Hscan.
    destruct (segments db) as [|seg segs]; [|done]. rewrite scan_each_fold.
    by destruct (Memtable.scan (memtable db) start end_ s); simplify_eq/=.
  - intros ranges. destruct (existsb (λ r : key * key, leb r.2 r.1) ranges
      || existsb (λ w : (key * key) * (key * key), ltb w.2.1 w.1.2) (windows2 ranges))%bool eqn:E.
    + right. split; [|unfold db_scan_ranges; rewrite E; by eexists].
      intros Hr. by rewrite ranges_unchecked in E.
    + left. apply orb_false_iff in E as [Hne Hw]. pose proof (ranges_checked ranges Hne Hw) as Hr.
      split; [done|]. by apply db_scan_ranges_spec.
Qed.
Lemma database_scans_exact_witness :
  ∃ contents rows, db_scan sample_db (str_bytes "b") None 7 = Some (Ok rows)
    ∧ bt_get (str_bytes "pear") rows = reads sample_db contents (str_bytes "pear") 7
    ∧ db_scan_ranges sample_db [(str_bytes "a", str_bytes "c"); (str_bytes "o", str_bytes "q")] 3
      = Some (Ok [(str_bytes "apple", str_bytes "red"); (str_bytes "pear", str_bytes "green")]).
Proof.
  destruct sample_db_holds as [contents H].
  destruct (proj1 (database_scans_exact sample_db contents 7 H) (str_bytes "b") None eq_refl) as (rows & Hr & _ & Hget & _).
  exists contents, rows. split; [exact Hr|]. split; [rewrite Hget; reflexivity|vm_compute; reflexivity].
Defined.
