(* ===== verification/Compaction.v ===== *)
(** Compaction ([rrd-lsm]: database.rs, the selection and the merge of segments).

    Compaction picks overlapping segments of adjacent levels within its input limits, merges
    their rows key by key, keeps per key the versions the protected snapshots see (or all of
    them), and replaces the inputs by the new segments in one step. *)

From S2P Require Import Prelude Machine BTree LsmError Batch RecoveryBudget Wal Memtable Transaction Versions SegmentFormat Segment SegmentFile SegmentWrite SegmentOpen PointIndex Database.
Open Scope Z_scope.

(** * Compaction *)

(** lsm/database.rs:245-250 CompactionCandidate *)
Record CompactionCandidate := { indices : list nat; source_level : Z; target_level : Z }.

(** lsm/database.rs:2791-2798 ranges_overlap *)
Definition ranges_overlap (left_first left_last right_first right_last : key) : bool :=
  (leb left_first right_last && leb right_first left_last)%bool.

(** lsm/database.rs:2800-2807 version_group_bytes *)
Definition version_group_bytes `{Layout} (k : key) (vs : list VersionedValue) : Z :=
  fold_left (λ bytes version,
    saturating_add 64 (saturating_add 64 (saturating_add 64 bytes (len k))
      (match value version with Some v => len v | None => 0 end)) size_of_version) vs 0.

(** lsm/database.rs:2946-2957 retain_compacted_key; the closure is only asked when the other
    tests leave the answer open. *)
Definition retain_compacted_key (retained : list VersionedValue) (retain_all_versions shadows_unselected : bool) : bool :=
  (negb (len retained =? 0)
   && (retain_all_versions
       || existsb (λ version, match value version with Some _ => true | None => false end) retained
       || shadows_unselected))%bool.

Definition minimum_key (ks : list key) : option key :=
  match ks with [] => None | k :: ks => Some (fold_left (λ a b, if ltb b a then b else a) ks k) end.
Definition maximum_key (ks : list key) : option key :=
  match ks with [] => None | k :: ks => Some (fold_left (λ a b, if ltb b a then a else b) ks k) end.

(** lsm/database.rs:2115-2133 Database::compaction_overlap_candidate, the targets that overlap;
    [None] when the input bound is exceeded. *)
Fixpoint overlap_targets (self : Database) (first last : key) (level : Z) (index : nat) (segs : list Segment)
    (chosen : list nat) : option (list nat) :=
  match segs with
  | [] => Some chosen
  | segment :: segs =>
    if ((segment_level (descriptor segment) =? level)
        && ranges_overlap first last (first_key (descriptor segment)) (last_key (descriptor segment)))%bool
    then
      let chosen := chosen ++ [index] in
      if max_input_segments (compaction self) <? len chosen then None
      else overlap_targets self first last level (S index) segs chosen
    else overlap_targets self first last level (S index) segs chosen
  end.

(** lsm/database.rs:2100-2140 Database::compaction_overlap_candidate without its deadline
    checks; the outer [None] is the panic of an empty selection. *)
Definition compaction_overlap_candidate (self : Database) (sources : list nat) (level : Z)
    : option (option CompactionCandidate) :=
  match minimum_key (map (λ i, first_key (descriptor_of (segments self) i)) sources),
        maximum_key (map (λ i, last_key (descriptor_of (segments self) i)) sources) with
  | Some first, Some last =>
    Some ((λ chosen, {| indices := sort_by Nat.compare chosen; source_level := level; target_level := level + 1 |})
          <$> overlap_targets self first last (level + 1) 0 (segments self) sources)
  | _, _ => None
  end.

(** lsm/database.rs:2142-2170 Database::admit_compaction_input without its deadline checks *)
Definition admit_compaction_input (self : Database) (candidate : CompactionCandidate) : result Error Z :=
  let? totals := try_fold (λ '(physical, logical, versions) index,
      let d := descriptor_of (segments self) index in
      let? physical := ok_or (checked_add 64 physical (segment_bytes d)) (InvalidSegment "compaction physical byte overflow") in
      let? bytes := match segments self !! index with Some segment => compaction_logical_bytes segment | None => Ok 0 end in
      let? logical := ok_or (checked_add 64 logical bytes) (InvalidSegment "compaction logical byte overflow") in
      let? versions := ok_or (checked_add 64 versions (entries d)) (InvalidSegment "compaction version count overflow") in
      do? compaction_check (compaction_limits self) InputBytes physical in
      do? compaction_check (compaction_limits self) InputLogicalBytes logical in
      do? compaction_check (compaction_limits self) InputVersions versions in
      Ok (physical, logical, versions)) (0, 0, 0) (indices candidate) in
  Ok totals.1.1.

(** lsm/database.rs:2037-2052 Database::select_compaction_candidate, the order of the sources
    of a level *)
Definition source_order (self : Database) (level : Z) (a b : nat) : comparison :=
  let l := descriptor_of (segments self) a in
  let r := descriptor_of (segments self) b in
  if level =? 0 then
    then_ (Z.compare (maximum_segment_sequence l) (maximum_segment_sequence r))
      (then_ (cmp (first_key l) (first_key r)) (cmp (segment_id l) (segment_id r)))
  else then_ (cmp (first_key l) (first_key r)) (cmp (segment_id l) (segment_id r)).

(** lsm/database.rs:2056-2092 Database::select_compaction_candidate, what one window of the
    sources leads to: a candidate, or the search goes on with what it has been denied. *)
Record Search := { denied : option Error; overlap_blocked : bool; picked : option CompactionCandidate }.

(** lsm/database.rs:2061-2090 one window *)
Definition try_window (self : Database) (force blocked : bool) (level : Z) (sources window : list nat) (st : Search)
    : result Error Search :=
  match compaction_overlap_candidate self window level with
  | Some (Some candidate) =>
    if ((len (indices candidate) <? 2) && negb ((len sources =? 1) && (force || blocked)))%bool then Ok st
    else
      match admit_compaction_input self candidate with
      | Ok _ => Ok {| denied := denied st; overlap_blocked := overlap_blocked st; picked := Some candidate |}
      | Err (MaintenanceLimit ((InputBytes | InputLogicalBytes | InputVersions) as r) l o) =>
        Ok {| denied := match denied st with Some e => Some e | None => Some (MaintenanceLimit r l o) end;
              overlap_blocked := overlap_blocked st; picked := picked st |}
      | Err e => Err e
      end
  | _ => Ok {| denied := denied st; overlap_blocked := true; picked := picked st |}
  end.

(** lsm/database.rs:2057-2060 the windows of a level: every start, the longest first *)
Definition windows_of (sources : list nat) (bound : nat) : list (list nat) :=
  concat (map (λ start : nat, map (λ take_ : nat, take take_ (drop start sources))
    (rev (seq 1 (Nat.min (length sources - start) bound)))) (seq 0 (length sources))).

Fixpoint try_windows (self : Database) (force blocked : bool) (level : Z) (sources : list nat)
    (windows : list (list nat)) (st : Search) : result Error Search :=
  match windows with
  | [] => Ok st
  | window :: windows =>
    let? st := try_window self force blocked level sources window st in
    match picked st with Some _ => Ok st | None => try_windows self force blocked level sources windows st end
  end.

(** lsm/database.rs:2018-2093 Database::select_compaction_candidate, the levels from [level]
    on without the deadline checks *)
Fixpoint try_levels (self : Database) (force : bool) (levels : nat) (level : Z) (st : Search) : result Error Search :=
  match levels with
  | O => Ok st
  | S levels =>
    let sources := List.filter (λ i, segment_level (descriptor_of (segments self) i) =? level)
                     (seq 0 (length (segments self))) in
    let blocked := (match denied st with Some _ => true | None => false end || overlap_blocked st)%bool in
    let threshold := if level =? 0 then l0_compaction_trigger (compaction self) else 2 in
    if ((len sources =? 0) || (negb force && negb blocked && (len sources <? threshold)))%bool
    then try_levels self force levels (level + 1) st
    else
      let sources := sort_by (source_order self level) sources in
      let? st := try_windows self force blocked level sources
        (windows_of sources (Z.to_nat (max_input_segments (compaction self)))) st in
      match picked st with Some _ => Ok st | None => try_levels self force levels (level + 1) st end
  end.

(** lsm/database.rs:2011-2098 Database::select_compaction_candidate *)
Definition select_compaction_candidate (self : Database) (force : bool) : result Error (option CompactionCandidate) :=
  let? st := try_levels self force (Z.to_nat (max_level (compaction self))) 0
    {| denied := None; overlap_blocked := false; picked := None |} in
  match picked st with
  | Some candidate => Ok (Some candidate)
  | None => match denied st with Some e => Err e | None => Ok None end
  end.

Section Merge.
Context {layout : Layout}.
(** Encoding and publishing one segment file from a table's rows
    (segment/mod.rs 788-899), at level zero. *)
Context (write_segment : list (key * list VersionedValue) → result Error Segment).

(** lsm/database.rs:2191-2198 Database::merge_compaction_candidate, its accumulators but the
    count of the versions read *)
Record MergeState := {
  buffered : list (key * list VersionedValue); buffered_bytes : Z; peak_buffer_bytes : Z;
  compacted_segments : list Segment; kept_versions : Z; merged_bytes : Z
}.

(** lsm/database.rs:2300-2317 Database::write_compaction_partition *)
Definition write_compaction_partition (versions : list (key * list VersionedValue)) (durable level : Z)
    : result Error Segment :=
  let? table := from_versions (map (λ '(k, vs), (k, (vs, len vs))) versions) durable in
  let? segment := write_segment (all_versions table) in
  let d := descriptor segment in
  Ok {| descriptor := {| segment_id := segment_id d; segment_level := level; format_version := format_version d;
          schema_digest := schema_digest d; key_codec_digest := key_codec_digest d;
          page_format_digest := page_format_digest d; first_key := first_key d; last_key := last_key d;
          minimum_sequence := minimum_sequence d; maximum_segment_sequence := maximum_segment_sequence d;
          entries := entries d; segment_bytes := segment_bytes d; segment_checksum := segment_checksum d |};
        row_groups := row_groups segment; load_page := load_page segment; probe := probe segment;
        address := address segment |}.

(** lsm/database.rs:2262-2276 and 2283-2292 Database::merge_compaction_candidate, closing a
    partition *)
Definition close_partition (self : Database) (durable level : Z) (st : MergeState) : result Error MergeState :=
  do? compaction_check (compaction_limits self) OutputSegments (len (compacted_segments st) + 1) in
  let? segment := write_compaction_partition (buffered st) durable level in
  Ok {| buffered := []; buffered_bytes := 0; peak_buffer_bytes := peak_buffer_bytes st;
        compacted_segments := compacted_segments st ++ [segment];
        kept_versions := kept_versions st;
        merged_bytes := saturating_add 64 (merged_bytes st) (segment_bytes (descriptor segment)) |}.

(** lsm/database.rs:2226-2245 Database::merge_compaction_candidate, the versions of a key that
    are retained *)
Definition retained_versions (vs : list (Z * option (list byte))) (protected : list Z) (retain_all_versions : bool)
    : list VersionedValue :=
  let keep := map (λ '(s, v), {| sequence := s; value := v |}) in
  if retain_all_versions then keep vs
  else
    let retained_sequences := omap (λ p, fst <$> last (bt_select Unbounded (Included p) vs)) protected in
    keep (List.filter (λ row : Z * option (list byte), existsb (Z.eqb row.1) retained_sequences) vs).

(** lsm/database.rs:2247-2282 Database::merge_compaction_candidate, what becomes of a key whose
    versions have been collected *)
Definition settle_key (self : Database) (selected : list nat) (durable level : Z) (protected : list Z)
    (retain_all_versions : bool) (st : MergeState) (k : key) (vs : list (Z * option (list byte)))
    : result Error MergeState :=
  let retained := retained_versions vs protected retain_all_versions in
  let shadows := existsb (λ i, negb (existsb (Nat.eqb i) selected) && covers (descriptor_of (segments self)) k i)%bool
                   (seq 0 (length (segments self))) in
  if negb (retain_compacted_key retained retain_all_versions shadows) then Ok st
  else
    let group_bytes := version_group_bytes k retained in
    let? st :=
      if (negb (len (buffered st) =? 0)
          && (target_segment_bytes (compaction self) <? saturating_add 64 (buffered_bytes st) group_bytes))%bool
      then close_partition self durable level st else Ok st in
    let bytes := saturating_add 64 (buffered_bytes st) group_bytes in
    Ok {| buffered := bt_insert k retained (buffered st); buffered_bytes := bytes;
          peak_buffer_bytes := Z.max (peak_buffer_bytes st) bytes; compacted_segments := compacted_segments st;
          kept_versions := saturating_add 64 (kept_versions st) (len retained); merged_bytes := merged_bytes st |}.

(** A cursor and the record it last returned. *)
Definition head_record : Type := SegmentRecordCursor * option SegmentRecord.

(** lsm/database.rs:2206-2224 Database::merge_compaction_candidate, the records of one cursor
    that have the key; the cursor moves, so as many passes as the segment has rows are
    enough. *)
Fixpoint take_key (fuel : nat) (k : key) (at_ : head_record) (vs : list (Z * option (list byte))) (seen_ : Z)
    : result Error (head_record * list (Z * option (list byte)) * Z) :=
  match fuel with
  | O => Ok (at_, vs, seen_)
  | S fuel =>
    match at_.2 with
    | Some observed =>
      if bool_decide (record_key observed = k) then
        let version := record_version observed in
        let? (vs, seen_) :=
          match bt_get (sequence version) vs with
          | Some existing =>
            if bool_decide (existing = value version) then Ok (vs, seen_)
            else invalid_segment ("segments disagree for sequence " +:+ pretty (sequence version))
          | None => Ok (bt_insert (sequence version) (value version) vs, saturating_add 64 seen_ 1)
          end in
        let? next := next_record at_.1 in
        take_key fuel k next vs seen_
      else Ok (at_, vs, seen_)
    | None => Ok (at_, vs, seen_)
    end
  end.

(** lsm/database.rs:2207-2225 Database::merge_compaction_candidate, the records of all cursors
    that have the key *)
Fixpoint take_key_all (fuel : nat) (k : key) (heads : list head_record) (vs : list (Z * option (list byte))) (seen_ : Z)
    : result Error (list head_record * list (Z * option (list byte)) * Z) :=
  match heads with
  | [] => Ok ([], vs, seen_)
  | at_ :: heads =>
    let? (at_, vs, seen_) := take_key fuel k at_ vs seen_ in
    let? (heads, vs, seen_) := take_key_all fuel k heads vs seen_ in
    Ok (at_ :: heads, vs, seen_)
  end.

(** lsm/database.rs:2200-2282 Database::merge_compaction_candidate, the loop over the keys
    without the deadline checks; every pass takes a row at least. *)
Fixpoint merge_keys (fuel : nat) (self : Database) (selected : list nat) (durable level : Z) (protected : list Z)
    (retain_all_versions : bool) (heads : list head_record) (st : MergeState) (n : Z) : result Error (MergeState * Z) :=
  match minimum_key (omap (λ at_ : head_record, record_key <$> at_.2) heads) with
  | None => Ok (st, n)
  | Some k =>
    match fuel with
    | O => invalid_segment "unreachable"
    | S fuel' =>
      let? (heads, vs, n) := take_key_all fuel k heads [] n in
      let? st := settle_key self selected durable level protected retain_all_versions st k vs in
      merge_keys fuel' self selected durable level protected retain_all_versions heads st n
    end
  end.

Definition row_total (segment : Segment) : nat := list_sum (map (λ g, Z.to_nat (group_row_count g)) (row_groups segment)).

(** lsm/database.rs:2172-2298 Database::merge_compaction_candidate *)
Definition merge_compaction_candidate (self : Database) (candidate : CompactionCandidate) (durable : Z)
    (protected : list Z) (retain_all_versions : bool) : result Error (MergeState * Z) :=
  let inputs := omap (λ i, segments self !! i) (indices candidate) in
  let? heads := try_map (λ segment, next_record (record_cursor segment)) inputs in
  let? (st, n) := merge_keys (S (list_sum (map row_total inputs))) self (indices candidate) durable (target_level candidate)
    protected retain_all_versions heads
    {| buffered := []; buffered_bytes := 0; peak_buffer_bytes := 0; compacted_segments := []; kept_versions := 0;
       merged_bytes := 0 |} 0 in
  if len (buffered st) =? 0 then Ok (st, n)
  else let? st := close_partition self durable (target_level candidate) st in Ok (st, n).

(** lsm/database.rs:228-243 CompactionOutcome, the fields that are not manifest digests *)
Record CompactionOutcome := {
  outcome_input_segments : Z; outcome_output_segments : Z; outcome_input_versions : Z;
  outcome_output_versions : Z; protected_sequences : list Z; outcome_source_level : Z;
  outcome_target_level : Z; outcome_input_bytes : Z; outcome_output_bytes : Z;
  outcome_peak_buffer_bytes : Z; history_pruned : bool
}.

(** lsm/database.rs:1933-1935 Database::compact_segments_inner, cleanup owed from here on *)
Definition owe_reclamation (self : Database) : Database :=
  {| memtable := memtable self; segments := segments self; point_index := point_index self;
     durable_sequence := durable_sequence self; db_registry := db_registry self;
     compaction := compaction self; compaction_limits := compaction_limits self; reclamation_pending := true |}.

(** lsm/database.rs:1982-1990 Database::compact_segments_inner, the new segments in place *)
Definition install_segments (self : Database) (segs : list Segment) : Database :=
  {| memtable := memtable self; segments := segs;
     point_index := PointIndex_new (descriptor_of segs) (length segs);
     durable_sequence := durable_sequence self; db_registry := db_registry self;
     compaction := compaction self; compaction_limits := compaction_limits self;
     reclamation_pending := reclamation_pending self |}.

(** lsm/database.rs:1924-1930 Database::compact_segments_inner, the sequences whose reads must
    not change *)
Definition protected_set (durable : Z) (protected pinned : list Z) : list Z :=
  map fst (bs_insert durable (fold_left (λ acc s, bs_insert s acc)
    (List.filter (λ s, s <=? durable) protected ++ pinned) [])).

(** lsm/database.rs:1953-1960 Database::compact_segments_inner, the segments that stay *)
Definition unselected {A} (selected : list nat) (l : list A) : list A :=
  omap (λ i, if existsb (Nat.eqb i) selected then None else l !! i) (seq 0 (length l)).

(** lsm/database.rs:1909-2007 Database::compact_segments_inner without failure injection and
    deadline checks; [ready] is what the writer's readiness check answers (lines 1239-1245),
    and [publish] creates and publishes the manifest of the new segments (lines 1967-1981). *)
Definition compact_segments (ready : result Error unit) (publish : list SegmentDescriptor → result Error unit)
    (self : Database) (protected : list Z) (force retain_all_versions : bool)
    : Database * result Error (option CompactionOutcome) :=
  match (do? ready in select_compaction_candidate self force) with
  | Err e => (self, Err e)
  | Ok None => (self, Ok None)
  | Ok (Some candidate) =>
    match (let? bytes := admit_compaction_input self candidate in
           let? pinned := sequences (db_registry self) in Ok (bytes, pinned)) with
    | Err e => (self, Err e)
    | Ok (bytes, pinned) =>
      let durable := durable_sequence self in
      let sequences_ := protected_set durable protected pinned in
      let self := owe_reclamation self in
      match merge_compaction_candidate self candidate durable sequences_ retain_all_versions with
      | Err e => (self, Err e)
      | Ok (merge, merged_versions) =>
        let segs := unselected (indices candidate) (segments self) ++ compacted_segments merge in
        match publish (map descriptor segs) with
        | Err e => (self, Err e)
        | Ok _ =>
          (install_segments self segs,
           Ok (Some {| outcome_input_segments := len (indices candidate);
                outcome_output_segments := len (compacted_segments merge);
                outcome_input_versions := merged_versions; outcome_output_versions := kept_versions merge;
                protected_sequences := sequences_; outcome_source_level := source_level candidate;
                outcome_target_level := target_level candidate; outcome_input_bytes := bytes;
                outcome_output_bytes := merged_bytes merge;
                outcome_peak_buffer_bytes := peak_buffer_bytes merge;
                history_pruned := negb retain_all_versions |}))
        end
      end
    end
  end.
End Merge.

(** * The rows a cursor has left *)

(** A cursor and its last record: [rest] begins with that record. *)
Definition head_at (gs : list (list row)) (at_ : head_record) (rest : list row) : Prop :=
  segment_holds (cursor_segment at_.1) gs
  ∧ match rest with
    | [] => at_.2 = None
    | r :: rest => record_row <$> at_.2 = Some r ∧ cursor_at gs at_.1 rest
    end.

Lemma advance_head gs c rest :
  segment_holds (cursor_segment c) gs → cursor_at gs c rest → ∃ at_, next_record c = Ok at_ ∧ head_at gs at_ rest.
Proof.
  intros Hgs Hat. destruct (next_record_spec gs c rest Hgs Hat) as (c' & out & -> & Hseg & Hout).
  exists (c', out). split; [done|]. split; [cbn; by rewrite Hseg|]. by destruct rest, Hout.
Qed.

Lemma start_head seg gs :
  segment_holds seg gs → ∃ at_, next_record (record_cursor seg) = Ok at_ ∧ head_at gs at_ (concat gs).
Proof. intros Hgs. by apply advance_head; [|apply record_cursor_at]. Qed.

(** The versions of one key collected in a map from sequence to value. *)
Definition gathered (vs : list (Z * option (list byte))) (l : list VersionedValue) : Prop :=
  bt_sorted vs ∧ ∀ s x, bt_get s vs = Some x ↔ {| sequence := s; value := x |} ∈ l.

Lemma gathered_nil : gathered [] [].
Proof. split; [constructor|]. intros s x. split; [done|by intros ?%not_elem_of_nil]. Qed.

(** The branch of the merge on a record: a version already collected must agree. *)
Lemma gather vs l v :
  gathered vs l → coherent (l ++ [v]) →
  match bt_get (sequence v) vs with
  | Some existing => existing = value v ∧ gathered vs (l ++ [v])
  | None => gathered (bt_insert (sequence v) (value v) vs) (l ++ [v])
  end.
Proof.
  intros [Hs Hvs] Hc. assert (v = {| sequence := sequence v; value := value v |}) as Hv by (by destruct v).
  destruct (bt_get (sequence v) vs) as [x|] eqn:E.
  - apply Hvs in E as Hin. assert ({| sequence := sequence v; value := x |} = v) as Heq.
    { apply Hc; [set_solver..|done]. }
    assert (x = value v) as -> by (by rewrite <-Heq). split; [done|]. split; [done|]. intros s y. rewrite Hvs, elem_of_app, list_elem_of_singleton.
    split; [by left|]. intros [|Hy]; [done|]. rewrite Hy, Hv. done.
  - split; [by apply bt_insert_sorted|]. intros s y. rewrite bt_get_insert, elem_of_app, list_elem_of_singleton.
    destruct (decide (sequence v = s)) as [<-|Hne].
    + split; [intros [= <-]; right; by destruct v|]. intros [Hin|Hy]; [|by rewrite <-Hy].
      apply Hvs in Hin. congruence.
    + rewrite Hvs. split; [by left|]. intros [|Hy]; [done|]. by rewrite <-Hy in Hne.
Qed.

Lemma take_key_spec gs fuel k mine others at_ vs l n :
  head_at gs at_ (map (k,.) mine ++ others) → (∀ r, r ∈ others → r.1 ≠ k) → (length mine ≤ fuel)%nat →
  gathered vs l → coherent (l ++ mine) →
  ∃ at' vs' n', take_key fuel k at_ vs n = Ok (at', vs', n') ∧ head_at gs at' others ∧ gathered vs' (l ++ mine).
Proof.
  revert fuel at_ vs l n. induction mine as [|v mine IH]; intros fuel at_ vs l n Hat Ho Hf Hg Hc.
  - rewrite app_nil_r. exists at_, vs, n. split_and!; [|done|done]. destruct fuel as [|fuel]; [done|]. cbn [take_key].
    destruct Hat as [_ Hat]. cbn [map app] in Hat. destruct others as [|r others]; [by rewrite Hat|].
    destruct Hat as [Hr _]. destruct (at_.2) as [rec|]; [|done]. cbn in Hr. simplify_eq.
    rewrite bool_decide_eq_false_2; [done|]. apply (Ho (record_row rec)). left.
  - destruct fuel as [|fuel]; [cbn in Hf; lia|]. cbn [take_key]. destruct Hat as (Hgs & Hr & Hat).
    destruct (at_.2) as [rec|]; [|done]. cbn in Hr. injection Hr as Hk Hv. rewrite bool_decide_eq_true_2 by done. rewrite Hv.
    rewrite (cons_middle v l mine), app_assoc in Hc.
    pose proof (gather vs l v Hg ltac:(eapply coherent_incl; [exact Hc|set_solver])) as Hga.
    destruct (advance_head gs at_.1 (map (k,.) mine ++ others) Hgs Hat) as (at' & Hnext & Hat').
    rewrite (cons_middle v l mine), app_assoc.
    destruct (bt_get (sequence v) vs) as [x|].
    + destruct Hga as [-> Hga]. rewrite bool_decide_eq_true_2 by done. cbn [negb]. rewrite Hnext.
      apply IH; [done|done|cbn in Hf; lia|done|done].
    + rewrite Hnext. apply IH; [done|done|cbn in Hf; lia|done|done].
Qed.

(** The rows of the other keys. *)
Definition others (k : key) (rows : list row) : list row := List.filter (λ r : row, negb (bool_decide (r.1 = k))) rows.

Lemma others_elem k rows r : r ∈ others k rows ↔ r ∈ rows ∧ r.1 ≠ k.
Proof. unfold others. rewrite !list_elem_of_In, filter_In, negb_true_iff, bool_decide_eq_false. done. Qed.
Lemma others_all k rows : (∀ r, r ∈ rows → r.1 ≠ k) → others k rows = rows.
Proof.
  induction rows as [|r rows IH]; intros H; [done|]. unfold others. cbn [List.filter].
  rewrite bool_decide_eq_false_2 by (apply H; left). cbn [negb]. f_equal. apply IH. intros; apply H; by right.
Qed.
Lemma others_sorted k rows : rows_sorted rows → rows_sorted (others k rows).
Proof.
  induction rows as [|r rows IH]; [done|]. intros [Hs Hr]%rows_sorted_cons. unfold others in *. cbn [List.filter].
  destruct (negb _); [|by apply IH]. apply rows_sorted_cons. split; [by apply IH|]. intros x [Hx _]%others_elem. auto.
Qed.
Lemma others_length k rows : (length (others k rows) ≤ length rows)%nat.
Proof. apply List.filter_length_le. Qed.
Lemma versions_of_others k k' rows : k' ≠ k → versions_of k' (others k rows) = versions_of k' rows.
Proof.
  intros Hne. induction rows as [|r rows IH]; [done|]. rewrite versions_of_cons. unfold others in *. cbn [List.filter].
  destruct (decide (r.1 = k')) as [E|E].
  - rewrite bool_decide_eq_false_2 by congruence. cbn [negb]. by rewrite versions_of_cons, decide_True, IH.
  - destruct (negb _); [|done]. by rewrite versions_of_cons, decide_False, IH.
Qed.

(** In sorted rows, the least key comes first. *)
Lemma rows_split k rows :
  rows_sorted rows → (∀ r, r ∈ rows → leb k r.1 = true) → rows = map (k,.) (versions_of k rows) ++ others k rows.
Proof.
  induction rows as [|r rows IH]; [done|]. intros [Hs Hr]%rows_sorted_cons Hk. rewrite versions_of_cons.
  unfold others. cbn [List.filter]. destruct (decide (r.1 = k)) as [E|E].
  - rewrite bool_decide_eq_true_2 by done. cbn [negb map app]. f_equal; [destruct r; cbn in *; by subst|].
    apply IH; [done|]. intros; apply Hk; by right.
  - rewrite bool_decide_eq_false_2 by done. cbn [negb].
    assert (ltb k r.1 = true) as Hlt.
    { destruct (ltb k r.1) eqn:El; [done|]. exfalso. apply E. apply leb_antisym; [|apply Hk; left]. by rewrite leb_ltb, El. }
    assert (∀ x, x ∈ rows → x.1 ≠ k) as Hne.
    { intros x Hx <-. pose proof (row_lt_leb _ _ (Hr x Hx)) as Hle.
      pose proof (ltb_leb_trans _ _ _ Hlt Hle) as Hirr. by rewrite ltb_irrefl in Hirr. }
    rewrite versions_of_nil by done. cbn [map app]. f_equal. symmetry. by apply others_all.
Qed.

Definition heads_at (heads : list head_record) (rests : list (list row)) : Prop :=
  Forall2 (λ at_ rest, ∃ gs, head_at gs at_ rest) heads rests.

Lemma take_key_all_spec fuel k heads rests vs l n :
  heads_at heads rests → Forall rows_sorted rests → (∀ rest r, rest ∈ rests → r ∈ rest → leb k r.1 = true) →
  (length (concat rests) ≤ fuel)%nat → gathered vs l → coherent (l ++ published rests k) →
  ∃ heads' vs' n', take_key_all fuel k heads vs n = Ok (heads', vs', n')
    ∧ heads_at heads' (map (others k) rests) ∧ gathered vs' (l ++ published rests k).
Proof.
  intros Hheads. revert vs l n. induction Hheads as [|at_ rest heads rests [gs Hat] Hheads IH]; intros vs l n Hs Hk Hf Hg Hc.
  - exists [], vs, n. unfold published. cbn. rewrite app_nil_r. split_and!; [done|constructor|done].
  - apply Forall_cons in Hs as [Hr Hs]. unfold published in Hc. cbn [map concat] in Hc, Hf |- *.
    rewrite app_assoc in Hc. rewrite length_app in Hf.
    pose proof (rows_split k rest Hr (λ r Hin, Hk rest r ltac:(left) Hin)) as Hsplit.
    assert (length rest = length (versions_of k rest) + length (others k rest))%nat as Hlen
      by (rewrite Hsplit at 1; by rewrite length_app, length_map).
    rewrite Hsplit in Hat. cbn [take_key_all].
    destruct (take_key_spec gs fuel k (versions_of k rest) (others k rest) at_ vs l n) as (at' & vs' & n' & -> & Hat' & Hg');
      [done|by intros r [_ ?]%others_elem|lia|done|eapply coherent_incl; [exact Hc|set_solver]|].
    destruct (IH vs' (l ++ versions_of k rest) n') as (heads' & vs'' & n'' & -> & Hheads' & Hg'');
      [done|intros; eapply Hk; [by right|done]|lia|done|done|].
    exists (at' :: heads'), vs'', n''. split_and!; [done|constructor; [by exists gs|done]|].
    unfold published. cbn [map concat]. by rewrite app_assoc.
Qed.

Lemma minimum_key_None ks : minimum_key ks = None ↔ ks = [].
Proof. by destruct ks. Qed.
Lemma minimum_key_Some ks k : minimum_key ks = Some k → k ∈ ks ∧ ∀ k', k' ∈ ks → leb k k' = true.
Proof.
  destruct ks as [|k0 ks]; [done|]. cbn [minimum_key]. intros [= <-].
  assert (∀ (ks : list key) a, let m := fold_left (λ a b, if ltb b a then b else a) ks a in
    (m = a ∨ m ∈ ks) ∧ leb m a = true ∧ ∀ k', k' ∈ ks → leb m k' = true) as Hfold.
  { clear. induction ks as [|b ks IH]; intros a; cbn [fold_left].
    - split_and!; [by left|apply leb_refl|by intros k' ?%not_elem_of_nil].
    - destruct (IH (if ltb b a then b else a)) as (Hin & Hle & Hall). cbn zeta in *.
      destruct (ltb b a) eqn:E.
      + split_and!; [destruct Hin as [->|]; [right; left|right; by right]|eapply leb_trans; [done|by apply ltb_leb]|].
        intros k' [->|Hk']%elem_of_cons; [done|by apply Hall].
      + split_and!; [destruct Hin as [->|]; [by left|right; by right]|done|].
        intros k' [->|Hk']%elem_of_cons; [|by apply Hall]. eapply leb_trans; [done|]. by rewrite leb_ltb, E. }
  destruct (Hfold ks k0) as (Hin & Hle & Hall). cbn zeta in *.
  split; [destruct Hin as [->|]; [left|by right]|]. intros k' [->|Hk']%elem_of_cons; [done|by apply Hall].
Qed.

(** The keys at the heads are the first keys of what is left. *)
Lemma head_keys heads rests k :
  heads_at heads rests →
  k ∈ omap (λ at_ : head_record, record_key <$> at_.2) heads ↔ ∃ rest r rest', rest ∈ rests ∧ rest = r :: rest' ∧ r.1 = k.
Proof.
  intros Hheads. rewrite list_elem_of_omap. split.
  - intros (at_ & Hin & Hk). apply list_elem_of_lookup in Hin as [i Hi].
    destruct (Forall2_lookup_l _ _ _ _ _ Hheads Hi) as (rest & Hrest & gs & _ & Hat).
    destruct rest as [|r rest]; [by rewrite Hat in Hk|]. destruct Hat as [Hr _].
    destruct (at_.2) as [rec|]; [|done]. cbn in Hr, Hk. simplify_eq. exists (record_row rec :: rest), (record_row rec), rest.
    split_and!; [by eapply list_elem_of_lookup_2|done|done].
  - intros (rest & r & rest' & Hin & -> & <-). apply list_elem_of_lookup in Hin as [i Hi].
    destruct (Forall2_lookup_r _ _ _ _ _ Hheads Hi) as (at_ & Hat & gs & _ & Hr & _).
    exists at_. split; [by eapply list_elem_of_lookup_2|]. destruct (at_.2) as [rec|]; [|done]. cbn in Hr |- *. by simplify_eq.
Qed.

Lemma published_others rests k k' : k' ≠ k → published (map (others k) rests) k' = published rests k'.
Proof.
  intros Hne. unfold published. f_equal. rewrite map_map. apply map_ext. intros rows. by apply versions_of_others.
Qed.

Lemma published_nil rests k : published rests k = [] ↔ ∀ rest r, rest ∈ rests → r ∈ rest → r.1 ≠ k.
Proof.
  split.
  - intros Hnil rest [k' v] Hrest Hr E. cbn in E. subst k'.
    assert (v ∈ published rests k) as Hv by (apply published_elem; by exists rest). rewrite Hnil in Hv. by apply not_elem_of_nil in Hv.
  - intros Hno. destruct (published rests k) as [|v l] eqn:E; [done|].
    assert (v ∈ published rests k) as Hv by (rewrite E; left). apply published_elem in Hv as (rest & Hrest & Hv).
    by destruct (Hno rest (k, v) Hrest Hv).
Qed.

(** The versions of each key of the inputs, in key order. *)
Definition grouped (rests : list (list row)) (gs : list (key * list (Z * option (list byte)))) : Prop :=
  bt_sorted gs
  ∧ ∀ k, match bt_get k gs with
         | Some vs => published rests k ≠ [] ∧ gathered vs (published rests k)
         | None => published rests k = []
         end.

Lemma grouped_cons rests k vs gs :
  (∀ rest r, rest ∈ rests → r ∈ rest → leb k r.1 = true) → published rests k ≠ [] → gathered vs (published rests k) →
  grouped (map (others k) rests) gs → grouped rests ((k, vs) :: gs).
Proof.
  intros Hk Hne Hg [Hs Hget]. assert (∀ p, p ∈ gs → ltb k p.1 = true) as Hgt.
  { intros [k' vs'] Hin. cbn [fst]. apply bt_elem_get in Hin; [|done]. specialize (Hget k'). rewrite Hin in Hget.
    destruct Hget as [Hne' _]. destruct (published (map (others k) rests) k') as [|v l] eqn:E; [done|].
    assert (v ∈ published (map (others k) rests) k') as Hv by (rewrite E; left).
    apply published_elem in Hv as (rest & Hrest & Hv). apply list_elem_of_fmap in Hrest as (rest0 & -> & Hrest).
    apply others_elem in Hv as [Hv Hne0]. specialize (Hk _ _ Hrest Hv). cbn in *.
    destruct (ltb k k') eqn:El; [done|]. exfalso. apply Hne0. apply leb_antisym; [|done]. by rewrite leb_ltb, El. }
  split.
  - constructor; [done|]. by apply Forall_forall.
  - intros k'. cbn [bt_get]. destruct (cmp k' k) eqn:E.
    + apply cmp_eq in E as ->. done.
    + assert (k' ≠ k) as Hkk by (intros ->; by rewrite cmp_refl in E). specialize (Hget k').
      rewrite !(published_others rests k k' Hkk) in Hget. by destruct (bt_get k' gs).
    + assert (k' ≠ k) as Hkk by (intros ->; by rewrite cmp_refl in E). specialize (Hget k').
      rewrite !(published_others rests k k' Hkk) in Hget. by destruct (bt_get k' gs).
Qed.

Lemma others_shorter rests k rest r rest' :
  rest ∈ rests → rest = r :: rest' → r.1 = k → (length (concat (map (others k) rests)) < length (concat rests))%nat.
Proof.
  induction rests as [|rest0 rests IH]; [by intros ?%not_elem_of_nil|]. intros Hin -> Hr. cbn [map concat]. rewrite !length_app.
  pose proof (others_length k rest0). apply elem_of_cons in Hin as [<-|Hin].
  - unfold others at 1. cbn [List.filter]. rewrite bool_decide_eq_true_2 by done. cbn [negb length].
    fold (others k rest'). pose proof (others_length k rest').
    assert (length (concat (map (others k) rests)) ≤ length (concat rests))%nat; [|lia].
    clear. induction rests as [|x rests IH]; [done|]. cbn [map concat]. rewrite !length_app. pose proof (others_length k x). lia.
  - specialize (IH Hin eq_refl Hr). lia.
Qed.

Section MergeSpec.
Context {layout : Layout} (write_segment : list (key * list VersionedValue) → result Error Segment).
Context (db : Database) (selected : list nat) (durable level : Z) (protected : list Z) (retain_all : bool).

Definition settle (st : MergeState) (g : key * list (Z * option (list byte))) : result Error MergeState :=
  settle_key write_segment db selected durable level protected retain_all st g.1 g.2.

(** The loop over the keys settles each key of the inputs once, with all its versions. *)
Lemma merge_keys_spec fuel heads rests st n :
  heads_at heads rests → Forall rows_sorted rests → (∀ k, coherent (published rests k)) →
  (length (concat rests) < fuel)%nat →
  ∃ gs n', grouped rests gs
    ∧ merge_keys write_segment fuel db selected durable level protected retain_all heads st n
      = let? st' := try_fold settle st gs in Ok (st', n').
Proof.
  revert heads rests st n. induction fuel as [|fuel IH]; intros heads rests st n Hheads Hs Hc Hf; [lia|]. cbn [merge_keys].
  destruct (minimum_key _) as [k|] eqn:Emin.
  - apply minimum_key_Some in Emin as [Hin Hmin].
    apply (head_keys _ _ _ Hheads) in Hin as (rest & r & rest' & Hrest & Er & Hr).
    assert (∀ rest r, rest ∈ rests → r ∈ rest → leb k r.1 = true) as Hk.
    { intros rest0 r0 Hrest0 Hr0. destruct rest0 as [|x rest0]; [by apply not_elem_of_nil in Hr0|].
      assert (leb k x.1 = true) as Hx by (apply Hmin, (head_keys _ _ _ Hheads); by exists (x :: rest0), x, rest0).
      apply elem_of_cons in Hr0 as [->|Hr0]; [done|]. eapply leb_trans; [exact Hx|].
      eapply Forall_forall in Hs; [|exact Hrest0]. apply rows_sorted_cons in Hs as [_ Hs]. by apply row_lt_leb, Hs. }
    assert (published rests k ≠ []) as Hne.
    { intros Hnil. apply (proj1 (published_nil rests k) Hnil rest r Hrest); [subst rest; left|done]. }
    destruct (take_key_all_spec (S fuel) k heads rests [] [] n) as (heads' & vs & n1 & -> & Hheads' & Hg);
      [done|done|done|lia|apply gathered_nil|apply Hc|]. cbn [app] in Hg.
    pose proof (others_shorter rests k rest r rest' Hrest Er Hr) as Hshort.
    assert (∀ st, ∃ gs n', grouped (map (others k) rests) gs
      ∧ merge_keys write_segment fuel db selected durable level protected retain_all heads' st n1
        = let? st' := try_fold settle st gs in Ok (st', n')) as Hrec.
    { intros st0. apply IH; [done| | |lia].
      - apply Forall_map. eapply Forall_impl; [exact Hs|]. intros x Hx. by apply others_sorted.
      - intros k'. eapply coherent_incl; [apply (Hc k')|]. intros v Hv. apply published_elem in Hv as (x & Hx & Hv).
        apply list_elem_of_fmap in Hx as (y & -> & Hy). apply others_elem in Hv as [Hv _]. apply published_elem. by exists y. }
    destruct (settle_key write_segment db selected durable level protected retain_all st k vs) as [st1|e] eqn:Eset.
    + destruct (Hrec st1) as (gs & n' & Hgs & ->). exists ((k, vs) :: gs), n'. split; [by apply grouped_cons|].
      cbn [try_fold]. unfold settle at 2. cbn [fst snd]. by rewrite Eset.
    + destruct (Hrec st) as (gs & n' & Hgs & _). exists ((k, vs) :: gs), n'. split; [by apply grouped_cons|].
      cbn [try_fold]. unfold settle at 1. cbn [fst snd]. by rewrite Eset.
  - exists [], n. split; [|done]. split; [constructor|]. intros k. cbn [bt_get]. apply published_nil.
    intros rest r Hrest Hr _. destruct rest as [|x rest]; [by apply not_elem_of_nil in Hr|].
    apply minimum_key_None in Emin.
    assert (x.1 ∈ omap (λ at_ : head_record, record_key <$> at_.2) heads) as Hx
      by (apply (head_keys _ _ _ Hheads); by exists (x :: rest), x, rest).
    rewrite Emin in Hx. by apply not_elem_of_nil in Hx.
Qed.

(** ** What the merge keeps *)

Definition shadowed (k : key) : bool :=
  existsb (λ i, negb (existsb (Nat.eqb i) selected) && covers (descriptor_of (segments db)) k i)%bool
    (seq 0 (length (segments db))).

(** The versions of a key that go into the output, if any. *)
Definition survivors (g : key * list (Z * option (list byte))) : option (key * list VersionedValue) :=
  let retained := retained_versions g.2 protected retain_all in
  if retain_compacted_key retained retain_all (shadowed g.1) then Some (g.1, retained) else None.

Definition written (seg : Segment) (part : list (key * list VersionedValue)) : Prop :=
  part ≠ [] ∧ write_compaction_partition write_segment part durable level = Ok seg.

(** The survivors so far: closed partitions, then the buffer. *)
Definition merged_to (st : MergeState) (kept : list (key * list VersionedValue)) : Prop :=
  len (compacted_segments st) ≤ Z.max 0 (output_segments (compaction_limits db))
  ∧ ∃ parts, kept = concat parts ++ buffered st ∧ Forall2 written (compacted_segments st) parts.

Lemma close_partition_spec st st' kept :
  close_partition write_segment db durable level st = Ok st' → buffered st ≠ [] → merged_to st kept →
  merged_to st' kept ∧ buffered st' = [].
Proof.
  unfold close_partition, compaction_check. destruct (Z.ltb_spec (output_segments (compaction_limits db)) (len (compacted_segments st) + 1)); [done|].
  destruct (write_compaction_partition _ _ _ _) as [seg|e] eqn:Ew; [|done]. intros [= <-] Hne (_ & parts & -> & Hw).
  split; [|done]. split; cbn [compacted_segments buffered].
  - rewrite len_app. change (len [seg]) with 1. lia.
  - exists (parts ++ [buffered st]). rewrite concat_app. cbn. rewrite !app_nil_r. split; [done|].
    apply Forall2_app; [done|]. constructor; [done|constructor].
Qed.

Lemma settle_spec st g st' kept :
  settle st g = Ok st' → merged_to st kept → (∀ p, p ∈ kept → ltb p.1 g.1 = true) →
  merged_to st' (kept ++ option_list (survivors g)).
Proof.
  destruct g as [k vs]. unfold settle, settle_key. cbn [fst snd]. unfold survivors. cbn [fst snd]. fold (shadowed k).
  set (retained := retained_versions vs protected retain_all).
  destruct (retain_compacted_key retained retain_all (shadowed k)); cbn [negb option_list].
  2:{ intros [= <-]. by rewrite app_nil_r. }
  intros Hst Hm Hlt.
  assert (∀ st1, merged_to st1 kept → merged_to
    {| buffered := bt_insert k retained (buffered st1); buffered_bytes := saturating_add 64 (buffered_bytes st1) (version_group_bytes k retained);
       peak_buffer_bytes := Z.max (peak_buffer_bytes st1) (saturating_add 64 (buffered_bytes st1) (version_group_bytes k retained));
       compacted_segments := compacted_segments st1;
       kept_versions := saturating_add 64 (kept_versions st1) (len retained); merged_bytes := merged_bytes st1 |}
    (kept ++ [(k, retained)])) as Hpush.
  { intros st1 (Hlen & parts & -> & Hw). split; [done|]. exists parts. split; [|done]. cbn [buffered].
    rewrite bt_insert_last; [by rewrite app_assoc|]. intros p Hp. apply Hlt. set_solver. }
  destruct (negb (len (buffered st) =? 0) && _)%bool eqn:Eclose.
  - destruct (close_partition _ _ _ _ _) as [st1|e] eqn:Ecl; [|done]. injection Hst as <-. apply Hpush.
    eapply close_partition_spec; [done| |done]. intros Hnil. rewrite Hnil in Eclose. done.
  - injection Hst as <-. by apply Hpush.
Qed.

Lemma survivors_key g kept : survivors g = Some kept → kept.1 = g.1.
Proof. unfold survivors. destruct (retain_compacted_key _ _ _); [|done]. by intros [= <-]. Qed.

Lemma settle_all_spec gs st st' kept :
  bt_sorted gs → try_fold settle st gs = Ok st' → merged_to st kept →
  (∀ p g, p ∈ kept → g ∈ gs → ltb p.1 g.1 = true) → merged_to st' (kept ++ omap survivors gs).
Proof.
  revert st kept. induction gs as [|g gs IH]; intros st kept Hs Hf Hm Hlt; cbn [try_fold] in Hf.
  { injection Hf as <-. by rewrite app_nil_r. }
  destruct (settle st g) as [st1|e] eqn:Eg; [|done]. apply StronglySorted_inv in Hs as [Hs Hg].
  pose proof (settle_spec st g st1 kept Eg Hm (λ p Hp, Hlt p g Hp ltac:(left))) as Hm1.
  assert (omap survivors (g :: gs) = option_list (survivors g) ++ omap survivors gs) as ->
    by (cbn; by destruct (survivors g)).
  rewrite app_assoc. apply (IH st1); [done|done|done|]. intros p x [Hp|Hp]%elem_of_app Hx; [apply Hlt; [done|by right]|].
  destruct (survivors g) as [kp|] eqn:Ek; [|by apply not_elem_of_nil in Hp]. apply list_elem_of_singleton in Hp as ->.
  rewrite (survivors_key _ _ Ek). rewrite Forall_forall in Hg. by apply Hg.
Qed.

(** ** Where the merge can fail *)

Lemma settle_fails st g e :
  settle st g = Err e → ∃ st1, close_partition write_segment db durable level st1 = Err e.
Proof.
  destruct g as [k vs]. unfold settle, settle_key. cbn [fst snd].
  destruct (negb (retain_compacted_key _ _ _)); [done|]. destruct (negb _ && _)%bool; [|done].
  destruct (close_partition _ _ _ _ st) as [st1|e'] eqn:E; [done|]. intros [= <-]. by exists st.
Qed.
Lemma settle_all_fails gs st e :
  try_fold settle st gs = Err e → ∃ st1, close_partition write_segment db durable level st1 = Err e.
Proof.
  revert st. induction gs as [|g gs IH]; intros st; cbn [try_fold]; [done|].
  destruct (settle st g) as [st1|e'] eqn:E; [apply IH|]. intros [= <-]. by eapply settle_fails.
Qed.
End MergeSpec.

(** ** The merge of a candidate *)

Definition chosen {A} (selected : list nat) (l : list A) : list A := omap (λ i, l !! i) selected.

Lemma chosen_Forall2 {A B} (R : A → B → Prop) selected l k : Forall2 R l k → Forall2 R (chosen selected l) (chosen selected k).
Proof.
  intros HR. induction selected as [|i selected IH]; [constructor|]. unfold chosen in *. cbn [omap list_omap].
  destruct (l !! i) as [x|] eqn:Ex.
  - destruct (Forall2_lookup_l _ _ _ _ _ HR Ex) as (y & -> & Hxy). by constructor.
  - apply lookup_ge_None in Ex. rewrite (Forall2_length _ _ _ HR) in Ex. by rewrite lookup_ge_None_2.
Qed.
Lemma unselected_Forall2 {A B} (R : A → B → Prop) selected l k : Forall2 R l k → Forall2 R (unselected selected l) (unselected selected k).
Proof.
  intros HR. unfold unselected. rewrite <-(Forall2_length _ _ _ HR). generalize (seq 0 (length l)). intros js.
  induction js as [|i js IH]; [constructor|]. cbn [omap list_omap]. destruct (existsb (Nat.eqb i) selected); [done|].
  destruct (l !! i) as [x|] eqn:Ex.
  - destruct (Forall2_lookup_l _ _ _ _ _ HR Ex) as (y & -> & Hxy). by constructor.
  - apply lookup_ge_None in Ex. rewrite (Forall2_length _ _ _ HR) in Ex. by rewrite lookup_ge_None_2.
Qed.
Lemma existsb_nat i (l : list nat) : existsb (Nat.eqb i) l = true ↔ i ∈ l.
Proof. rewrite existsb_exists. split; [intros (j & Hj%list_elem_of_In & ->%Nat.eqb_eq); done|]. intros Hi. exists i. by rewrite Nat.eqb_refl, <-list_elem_of_In. Qed.
Lemma unselected_elem {A} selected (l : list A) x : x ∈ unselected selected l ↔ ∃ i, l !! i = Some x ∧ i ∉ selected.
Proof.
  unfold unselected. rewrite list_elem_of_omap. split.
  - intros (i & _ & Hi). exists i. destruct (existsb (Nat.eqb i) selected) eqn:E; [done|]. split; [done|].
    intros Hin%existsb_nat. congruence.
  - intros (i & Hi & Hn). exists i. split; [apply elem_of_seq; apply lookup_lt_Some in Hi; lia|].
    destruct (existsb (Nat.eqb i) selected) eqn:E; [by apply existsb_nat in E|done].
Qed.
Lemma chosen_elem {A} selected (l : list A) x : x ∈ chosen selected l ↔ ∃ i, l !! i = Some x ∧ i ∈ selected.
Proof. unfold chosen. rewrite list_elem_of_omap. naive_solver. Qed.

Lemma published_parts contents selected k v :
  v ∈ published contents k ↔ v ∈ published (unselected selected contents) k ++ published (chosen selected contents) k.
Proof.
  rewrite elem_of_app, !published_elem. split.
  - intros (rows & Hrows & Hv). apply list_elem_of_lookup in Hrows as [i Hi]. destruct (decide (i ∈ selected)).
    + right. exists rows. split; [|done]. apply chosen_elem. by exists i.
    + left. exists rows. split; [|done]. apply unselected_elem. by exists i.
  - intros [(rows & (i & Hi & _)%unselected_elem & Hv)|(rows & (i & Hi & _)%chosen_elem & Hv)];
      exists rows; (split; [by eapply list_elem_of_lookup_2|done]).
Qed.

Lemma start_heads segs contents :
  Forall2 (λ seg rows, ∃ gs, segment_holds seg gs ∧ concat gs = rows) segs contents →
  ∃ heads, try_map (λ segment, next_record (record_cursor segment)) segs = Ok heads ∧ heads_at heads contents.
Proof.
  induction 1 as [|seg rows segs contents (gs & Hgs & <-) _ (heads & Hmap & Hheads)]; cbn [try_map].
  { exists []. split; [done|constructor]. }
  destruct (start_head seg gs Hgs) as (at_ & -> & Hat). rewrite Hmap. exists (at_ :: heads). split; [done|].
  constructor; [by exists gs|done].
Qed.

Lemma row_total_holds seg gs : segment_holds seg gs → row_total seg = length (concat gs).
Proof.
  intros H. unfold row_total.
  assert (Forall2 (λ g (rs : list row), group_row_count g = len rs) (row_groups seg) gs) as HF.
  { apply Forall2_same_length_lookup. split; [symmetry; apply H|]. intros i g rs Hg Hrs. by eapply holds_count, holds_groups. }
  clear H. induction HF as [|g rs groups gs Hg _ IH]; [done|]. cbn [map concat list_sum foldr]. rewrite length_app.
  change (foldr Nat.add 0%nat (map (λ g, Z.to_nat (group_row_count g)) groups)) with (list_sum (map (λ g, Z.to_nat (group_row_count g)) groups)).
  rewrite IH, Hg. unfold len. lia.
Qed.

Lemma row_totals segs contents :
  Forall2 (λ seg rows, ∃ gs, segment_holds seg gs ∧ concat gs = rows) segs contents →
  list_sum (map row_total segs) = length (concat contents).
Proof.
  induction 1 as [|seg rows segs contents (gs & Hgs & <-) _ IH]; [done|].
  cbn [map concat]. rewrite length_app, <-IH, <-(row_total_holds seg gs Hgs). done.
Qed.

Lemma merge_candidate_spec {layout : Layout} write_segment db contents candidate durable protected retain_all :
  db_holds db contents → (∀ k, coherent (published contents k)) →
  ∃ gs, grouped (chosen (indices candidate) contents) gs
    ∧ match merge_compaction_candidate write_segment db candidate durable protected retain_all with
      | Ok (st, _) =>
          len (compacted_segments st) ≤ Z.max 0 (output_segments (compaction_limits db))
          ∧ ∃ parts, concat parts = omap (survivors db (indices candidate) protected retain_all) gs
            ∧ Forall2 (written write_segment durable (target_level candidate)) (compacted_segments st) parts
      | Err e => ∃ st, close_partition write_segment db durable (target_level candidate) st = Err e
      end.
Proof.
  intros H Hc. pose proof (chosen_Forall2 _ (indices candidate) _ _ (holds_segments _ _ H)) as Hin.
  destruct (start_heads _ _ Hin) as (heads & Hheads & Hat). unfold merge_compaction_candidate.
  fold (chosen (indices candidate) (segments db)). rewrite Hheads, (row_totals _ _ Hin).
  match goal with |- context [merge_keys _ ?f _ _ _ _ _ _ _ ?st0 _] =>
    assert (merged_to write_segment db durable (target_level candidate) st0 []) as H0
      by (split; [cbn [compacted_segments]; rewrite len_nil; lia|]; exists []; split; [done|constructor]);
    destruct (merge_keys_spec write_segment db (indices candidate) durable (target_level candidate) protected retain_all
      f heads (chosen (indices candidate) contents) st0 0) as (gs & n' & Hgs & ->); [done| | |lia|] end.
  - apply Forall_forall. intros rows (i & Hi & _)%chosen_elem.
    destruct (Forall2_lookup_r _ _ _ _ _ (holds_segments _ _ H) Hi) as (seg & _ & gs & Hgs & <-). apply Hgs.
  - intros k. eapply coherent_incl; [apply (Hc k)|]. intros v Hv. apply (published_parts contents (indices candidate)). set_solver.
  - exists gs. split; [done|]. destruct (try_fold _ _ gs) as [st|e] eqn:Efold.
    2:{ by eapply settle_all_fails. }
    pose proof (settle_all_spec write_segment db (indices candidate) durable (target_level candidate) protected retain_all
      gs _ st [] (proj1 Hgs) Efold H0 ltac:(by intros p g ?%not_elem_of_nil)) as Hm. cbn [app] in Hm.
    destruct (len (buffered st) =? 0) eqn:Ebuf.
    + destruct Hm as (Hlen & parts & Hk & Hw). split; [done|]. exists parts. split; [|done].
      apply Z.eqb_eq, len_zero in Ebuf. rewrite Hk, Ebuf. by rewrite app_nil_r.
    + destruct (close_partition _ _ _ _ st) as [st'|e] eqn:Ecl; [|by exists st].
      assert (buffered st ≠ []) as Hne by (intros Hnil; by rewrite Hnil in Ebuf).
      pose proof (close_partition_spec write_segment db durable (target_level candidate) st st' _ Ecl Hne Hm) as [Hm' Hb].
      destruct Hm' as (Hlen & parts & Hk & Hw). split; [done|]. exists parts. split; [|done]. by rewrite Hk, Hb, app_nil_r.
Qed.

(** ** What the merge retains of a key *)

Lemma last_sorted {V} (m : list (Z * V)) p q : bt_sorted m → last m = Some p → q ∈ m → q.1 ≤ p.1.
Proof.
  intros Hs [l ->]%last_Some Hq. apply elem_of_app in Hq as [Hq| ->%list_elem_of_singleton]; [|lia].
  apply bt_sorted_app in Hs as (_ & _ & Hall). specialize (Hall q p Hq ltac:(by apply list_elem_of_singleton)).
  apply ltb_Z in Hall. lia.
Qed.

Lemma retained_elem vs l protected retain_all v :
  gathered vs l → v ∈ retained_versions vs protected retain_all → v ∈ l.
Proof.
  intros [Hs Hvs] Hv. assert ((sequence v, value v) ∈ vs) as Hin.
  { unfold retained_versions in Hv. destruct retain_all; apply list_elem_of_fmap in Hv as ([s x] & -> & Hin); [done|].
    by apply list_elem_of_In, filter_In in Hin as [Hin%list_elem_of_In _]. }
  apply bt_elem_get in Hin; [|done]. apply Hvs in Hin. by destruct v.
Qed.

(** Every version is retained when history is kept, and otherwise every version that a
    protected sequence sees among the inputs. *)
Lemma retained_seen vs l protected retain_all p v :
  gathered vs l → retain_all = true ∨ p ∈ protected → seen p l = Some v → v ∈ retained_versions vs protected retain_all.
Proof.
  intros [Hs Hvs] Hor Hseen. pose proof (seen_elem _ _ _ Hseen) as [Hv Hp].
  assert (bt_get (sequence v) vs = Some (value v)) as Hget by (apply Hvs; by destruct v).
  assert ((sequence v, value v) ∈ vs) as Hin by (by apply bt_get_elem).
  unfold retained_versions. destruct retain_all.
  { apply list_elem_of_fmap. exists (sequence v, value v). split; [by destruct v|done]. }
  destruct Hor as [|Hor]; [done|]. apply list_elem_of_fmap. exists (sequence v, value v). split; [by destruct v|].
  apply list_elem_of_In, filter_In. split; [by apply list_elem_of_In|]. cbn [fst]. apply existsb_exists.
  exists (sequence v). split; [|apply Z.eqb_refl]. apply list_elem_of_In, list_elem_of_omap. exists p. split; [done|].
  assert (bt_sorted (bt_select Unbounded (Included p) vs)) as Hss by (by apply bt_select_sorted).
  assert ((sequence v, value v) ∈ bt_select Unbounded (Included p) vs) as Hsel.
  { apply bt_select_elem. split_and!; [done|done|]. cbn. by apply leb_Z. }
  destruct (last (bt_select Unbounded (Included p) vs)) as [[s x]|] eqn:El.
  2:{ apply last_None in El. rewrite El in Hsel. by apply not_elem_of_nil in Hsel. }
  cbn. f_equal. pose proof (last_sorted _ _ _ Hss El Hsel) as Hle. cbn in Hle.
  assert ((s, x) ∈ bt_select Unbounded (Included p) vs) as Hsx by (apply last_Some in El as [l' ->]; set_solver).
  apply bt_select_elem in Hsx as (Hsx & _ & Hb). cbn in Hb. apply bt_elem_get in Hsx; [|done]. apply Hvs in Hsx.
  assert (sequence {| sequence := s; value := x |} ≤ sequence v) as Hge.
  { apply (seen_max p l v _ Hseen Hsx). by apply leb_Z in Hb. }
  cbn in Hge. lia.
Qed.

(** * The segment writer *)

Lemma ascending_ordered maximum previous vs :
  ascending maximum previous vs → oldest_first vs ∧ ∀ v, v ∈ vs → previous < sequence v ≤ maximum.
Proof.
  revert previous. induction vs as [|v vs IH]; intros previous; cbn [ascending].
  { intros _. split; [constructor|by intros v ?%not_elem_of_nil]. }
  intros (_ & Hv & Ha). destruct (IH _ Ha) as [Ho Hb]. split.
  - apply oldest_first_cons. split; [done|]. intros w Hw. by apply Hb.
  - intros w [->|Hw]%elem_of_cons; [done|]. specialize (Hb w Hw). lia.
Qed.

Lemma relevelled seg gs level :
  segment_holds seg gs →
  segment_holds {| descriptor := {| segment_id := segment_id (descriptor seg); segment_level := level;
      format_version := format_version (descriptor seg); schema_digest := schema_digest (descriptor seg);
      key_codec_digest := key_codec_digest (descriptor seg); page_format_digest := page_format_digest (descriptor seg);
      first_key := first_key (descriptor seg); last_key := last_key (descriptor seg);
      minimum_sequence := minimum_sequence (descriptor seg);
      maximum_segment_sequence := maximum_segment_sequence (descriptor seg); entries := entries (descriptor seg);
      segment_bytes := segment_bytes (descriptor seg); segment_checksum := segment_checksum (descriptor seg) |};
    row_groups := row_groups seg; load_page := load_page seg; probe := probe seg; address := address seg |} gs.
Proof.
  intros [Hl Hg Hs Ha Hb Hp]. constructor; try done. intros i g rs Hi Hrs. destruct (Hg i g rs Hi Hrs). by constructor.
Qed.

Section Partitions.
Context {layout : Layout} {laws : LayoutLaws} (write_segment : list (key * list VersionedValue) → result Error Segment).
Context {writer : SegmentWriter write_segment}.

Lemma written_holds durable level seg part :
  durable < 2 ^ 64 → bt_sorted part → written write_segment durable level seg part →
  ∃ gs, segment_holds seg gs ∧ concat gs = flat part.
Proof.
  intros Hd Hs [Hne Hw]. unfold write_compaction_partition in Hw.
  destruct (from_versions _ durable) as [table|e] eqn:Et; [|done].
  destruct (memtable_from_versions_exact (map (λ '(k, vs), (k, (vs, len vs))) part) durable) as [Hok Hall].
  rewrite Et in Hok. destruct (proj1 Hok eq_refl) as (Hrows & _ & _). destruct (Hall table Et) as (Hav & _).
  rewrite map_map in Hav. assert (all_versions table = part) as Htab.
  { rewrite Hav. rewrite <-(map_id part) at 2. apply map_ext. by intros [k vs]. }
  rewrite Htab in Hw. destruct (write_segment part) as [seg0|e] eqn:Eseg; [|done]. injection Hw as <-.
  destruct (writer_holds part seg0) as (gs & Hgs & Hflat); [|done|].
  - split; [done|]. split; [done|]. apply Forall_forall. intros [k vs] Hin. cbn [fst snd].
    rewrite Forall_map in Hrows. eapply Forall_forall in Hrows; [|exact Hin]. destruct Hrows as (Hk & Hvs & Ha). cbn in *.
    destruct (ascending_ordered _ _ _ Ha) as [Ho Hb]. split_and!; [done..|]. apply Forall_forall. intros v Hv. specialize (Hb v Hv). lia.
  - exists gs. split; [by apply relevelled|done].
Qed.

Lemma partitions_hold durable level segs parts :
  durable < 2 ^ 64 → bt_sorted (concat parts) → Forall2 (written write_segment durable level) segs parts →
  Forall2 (λ seg rows, ∃ gs, segment_holds seg gs ∧ concat gs = rows) segs (map flat parts).
Proof.
  intros Hd Hs Hw. induction Hw as [|seg part segs parts Hsp _ IH]; [constructor|]. cbn [concat map] in *.
  apply bt_sorted_app in Hs as (H1 & H2 & _). constructor; [|by apply IH]. by eapply written_holds.
Qed.

Lemma published_flat parts k v : v ∈ published (map flat parts) k ↔ ∃ vs, (k, vs) ∈ concat parts ∧ v ∈ vs.
Proof.
  rewrite published_elem. split.
  - intros (rows & (part & -> & Hp)%list_elem_of_fmap & Hv). apply flat_elem in Hv as (vs & Hvs & Hv).
    exists vs. split; [|done]. apply list_elem_of_In, in_concat. exists part. by rewrite <-!list_elem_of_In.
  - intros (vs & Hin & Hv). apply list_elem_of_In, in_concat in Hin as (part & Hp & Hin). rewrite <-!list_elem_of_In in *.
    exists (flat part). split; [by apply list_elem_of_fmap_2|]. apply flat_elem. by exists vs.
Qed.
End Partitions.

Section Kept.
Context (db : Database) (contents : list (list row)) (selected : list nat) (protected : list Z) (retain_all : bool).
Context (Hdb : db_holds db contents) (Hcoherent : ∀ k, coherent (published contents k)).
Context (gs : list (key * list (Z * option (list byte)))) (Hgs : grouped (chosen selected contents) gs).
Context (parts : list (list (key * list VersionedValue)))
  (Hparts : concat parts = omap (survivors db selected protected retain_all) gs).

Definition replaced : list (list row) := unselected selected contents ++ map flat parts.

Lemma survivors_sorted : bt_sorted (concat parts).
Proof.
  rewrite Hparts. destruct Hgs as [Hs _]. clear -Hs. unfold bt_sorted in *.
  induction Hs as [|g gs Hs IH Hall]; [constructor|]. cbn. destruct (survivors _ _ _ _ g) as [kp|] eqn:E; [|done].
  constructor; [done|]. apply Forall_forall. intros q Hq. apply list_elem_of_omap in Hq as (g' & Hg' & Eq).
  unfold bt_lt. rewrite (survivors_key _ _ _ _ _ _ E), (survivors_key _ _ _ _ _ _ Eq). rewrite Forall_forall in Hall. by apply Hall.
Qed.

(** The versions written for a key. *)
Lemma written_versions k v :
  v ∈ published (map flat parts) k
  ↔ ∃ vs, bt_get k gs = Some vs ∧ survivors db selected protected retain_all (k, vs) ≠ None
      ∧ v ∈ retained_versions vs protected retain_all.
Proof.
  rewrite published_flat, Hparts. destruct Hgs as [Hs _]. split.
  - intros (kept & Hin & Hv). apply list_elem_of_omap in Hin as ([k' vs] & Hg & Es).
    pose proof (survivors_key _ _ _ _ _ _ Es) as Hk. cbn in Hk. subst k'. exists vs.
    split_and!; [by apply bt_elem_get|congruence|]. unfold survivors in Es. destruct (retain_compacted_key _ _ _); [|done].
    cbn in Es. by simplify_eq.
  - intros (vs & Hget & Hne & Hv). exists (retained_versions vs protected retain_all). split; [|done].
    apply list_elem_of_omap. exists (k, vs). split; [by apply bt_get_elem|]. unfold survivors in *.
    destruct (retain_compacted_key _ _ _); [done|done].
Qed.

Lemma written_published k v : v ∈ published (map flat parts) k → v ∈ published (chosen selected contents) k.
Proof.
  intros (vs & Hget & _ & Hv)%written_versions. destruct Hgs as [_ Hg]. specialize (Hg k). rewrite Hget in Hg.
  destruct Hg as [_ Hg]. by eapply retained_elem.
Qed.

Lemma replaced_published k v : v ∈ published replaced k → v ∈ published contents k.
Proof.
  unfold replaced, published. rewrite map_app, concat_app. fold (published (unselected selected contents) k) (published (map flat parts) k).
  intros [Hv|Hv%written_published]%elem_of_app; apply (published_parts contents selected), elem_of_app; [by left|by right].
Qed.

(** A key no other segment covers is in no other segment. *)
Lemma unshadowed k : shadowed db selected k = false → published (unselected selected contents) k = [].
Proof.
  intros Hsh. apply published_nil. intros rest [k' v] (i & Hi & Hn)%unselected_elem Hr E. cbn in E. subst k'.
  assert (shadowed db selected k = true); [|congruence]. apply existsb_exists. exists i.
  destruct (Forall2_lookup_r _ _ _ _ _ (holds_segments _ _ Hdb) Hi) as (seg & Hseg & g & Hg & <-).
  split; [apply in_seq; apply lookup_lt_Some in Hseg; lia|]. apply andb_true_iff. split.
  - apply negb_true_iff, not_true_is_false. by intros ?%existsb_nat.
  - unfold covers, descriptor_of. rewrite Hseg. destruct (holds_bounds _ _ Hg _ Hr) as (Ha & Hb & _). cbn in Ha, Hb.
    by rewrite Ha, Hb.
Qed.

(** A read at a protected sequence sees the same value in the replaced segments. *)
Lemma replaced_seen k s :
  retain_all = true ∨ s ∈ protected → seen s (published replaced k) ≫= value = seen s (published contents k) ≫= value.
Proof.
  intros Hor.
  rewrite (seen_ext s (published contents k) _ (Hcoherent k) (published_parts contents selected k)).
  unfold replaced, published. rewrite map_app, concat_app.
  fold (published (unselected selected contents) k) (published (map flat parts) k) (published (chosen selected contents) k).
  rewrite !seen_app. set (U := published (unselected selected contents) k). set (I := published (chosen selected contents) k).
  set (R := published (map flat parts) k).
  assert (coherent R) as HcR.
  { eapply coherent_incl; [apply (Hcoherent k)|]. intros v Hv%written_published. apply (published_parts contents selected). set_solver. }
  destruct (seen s I) as [v|] eqn:EI.
  2:{ assert (seen s R = None) as ->; [|done]. apply seen_None. intros w Hw%written_published. by apply (proj1 (seen_None s I) EI). }
  pose proof (seen_elem _ _ _ EI) as [HvI Hvs]. destruct Hgs as [_ Hg]. specialize (Hg k).
  destruct (bt_get k gs) as [vs|] eqn:Eget.
  2:{ unfold I in HvI. rewrite Hg in HvI. by apply not_elem_of_nil in HvI. }
  destruct Hg as [_ Hg]. pose proof (retained_seen vs I protected retain_all s v Hg Hor EI) as Hret.
  destruct (survivors db selected protected retain_all (k, vs)) as [kept|] eqn:Es.
  - assert (seen s R = Some v) as ->; [|done]. apply seen_intro; [done| |done|].
    + apply written_versions. exists vs. split_and!; [done|congruence|done].
    + intros w Hw%written_published Hws. by apply (seen_max s I).
  - assert (R = []) as HR.
    { destruct R as [|w l] eqn:ER; [done|]. assert (w ∈ published (map flat parts) k) as Hw by (fold R; rewrite ER; left).
      apply written_versions in Hw as (vs' & E' & Hne & _). congruence. }
    rewrite HR, seen_nil, newer_None_r. unfold survivors in Es. cbn [fst snd] in Es.
    destruct (retain_compacted_key (retained_versions vs protected retain_all) retain_all (shadowed db selected k)) eqn:Er; [done|].
    unfold retain_compacted_key in Er. apply andb_false_iff in Er as [Er|Er].
    { apply negb_false_iff, Z.eqb_eq, len_zero in Er. rewrite Er in Hret. by apply not_elem_of_nil in Hret. }
    apply orb_false_iff in Er as [Er Hsh]. apply orb_false_iff in Er as [_ Hlive].
    unfold U. rewrite unshadowed by done. rewrite seen_nil. cbn [newer]. destruct (value v) as [x|] eqn:Ev; [|cbn; by rewrite Ev].
    assert (existsb (λ version, match value version with Some _ => true | None => false end)
      (retained_versions vs protected retain_all) = true); [|congruence].
    apply existsb_exists. exists v. rewrite Ev. by rewrite <-list_elem_of_In.
Qed.
End Kept.

(** * The whole compaction *)

Lemma bs_insert_key (a s : Z) (m : list (Z * unit)) : s ∈ map fst (bs_insert a m) ↔ s = a ∨ s ∈ map fst m.
Proof.
  unfold bs_insert. induction m as [|[b []] m IH]; cbn [bt_insert map]; [set_solver|].
  destruct (cmp a b) eqn:E; cbn [map fst].
  - apply cmp_eq in E as ->. set_solver.
  - set_solver.
  - rewrite !elem_of_cons, IH. set_solver.
Qed.
Lemma protected_set_elem durable protected pinned s :
  s ∈ protected_set durable protected pinned ↔ s = durable ∨ (s ∈ protected ∧ s ≤ durable) ∨ s ∈ pinned.
Proof.
  unfold protected_set. rewrite bs_insert_key. apply or_iff_compat_l.
  assert (∀ l m, s ∈ map fst (fold_left (λ acc s, bs_insert s acc) l m) ↔ s ∈ l ∨ s ∈ map fst m) as Hfold.
  { induction l as [|a l IH]; intros m; cbn [fold_left]; [set_solver|]. rewrite IH, bs_insert_key, elem_of_cons. tauto. }
  rewrite Hfold, elem_of_app. cbn [map]. rewrite !list_elem_of_In, filter_In, Z.leb_le. cbn. tauto.
Qed.

Lemma seen_above d s l : (∀ v, v ∈ l → sequence v ≤ d) → d ≤ s → seen s l = seen d l.
Proof.
  intros Hl Hs. unfold seen. f_equal. unfold visible. apply List.filter_ext_in. intros v Hv%list_elem_of_In.
  specialize (Hl v Hv). by rewrite !(proj2 (Z.leb_le _ _)) by lia.
Qed.

Lemma unselected_length {A} selected (l : list A) : (length (unselected selected l) ≤ length l)%nat.
Proof.
  assert (∀ js, length (omap (λ i, if existsb (Nat.eqb i) selected then None else l !! i) js) ≤ length js)%nat as Hle.
  { induction js as [|i js IH]; [done|]. cbn. destruct (if existsb _ _ then _ else _); cbn; lia. }
  unfold unselected. specialize (Hle (seq 0 (length l))). by rewrite length_seq in Hle.
Qed.

Section Compact.
Context {layout : Layout} {laws : LayoutLaws} (write_segment : list (key * list VersionedValue) → result Error Segment).
Context {writer : SegmentWriter write_segment}.

(** The state after the segments have been replaced is in order. *)
Lemma installed_holds db contents selected protected retain_all gs parts segs level :
  db_holds db contents → durable_sequence db < 2 ^ 64 →
  grouped (chosen selected contents) gs → concat parts = omap (survivors db selected protected retain_all) gs →
  Forall2 (written write_segment (durable_sequence db) level) segs parts →
  Z.of_nat (length (segments db)) + len segs < u64_max →
  db_holds (install_segments db (unselected selected (segments db) ++ segs)) (replaced contents selected parts).
Proof.
  intros H Hd Hgs Hparts Hw Hfew. pose proof (survivors_sorted db contents selected protected retain_all gs Hgs parts Hparts) as Hs.
  pose proof (replaced_published db contents selected protected retain_all gs Hgs parts Hparts) as Hin.
  constructor; cbn [segments install_segments memtable point_index durable_sequence].
  - apply Forall2_app; [apply unselected_Forall2, H|]. by eapply partitions_hold.
  - done.
  - apply H.
  - intros rows k v w Hrows Hv Hwv. assert (v ∈ published contents k) as Hv' by (apply Hin, published_elem; by exists rows).
    apply published_elem in Hv' as (rows' & Hr' & Hv'). by eapply (holds_newer _ _ H rows').
  - intros rows [k v] Hrows Hv. assert (v ∈ published contents k) as Hv' by (apply Hin, published_elem; by exists rows).
    apply published_elem in Hv' as (rows' & Hr' & Hv'). apply (holds_published _ _ H rows' (k, v) Hr' Hv').
  - rewrite length_app, Nat2Z.inj_add. pose proof (unselected_length selected (segments db)). unfold len in Hfew. lia.
  - apply H.
Qed.

Lemma owed_holds db contents : db_holds db contents → db_holds (owe_reclamation db) contents.
Proof. intros []. by constructor. Qed.

Lemma published_bound db contents k v : db_holds db contents → v ∈ published contents k → sequence v ≤ durable_sequence db.
Proof. intros H (rows & Hr & Hv)%published_elem. apply (holds_published _ _ H rows (k, v) Hr Hv). Qed.

(** The sequences at which compaction may change no read. *)
Definition stays_readable (db : Database) (protected : list Z) (retain_all : bool) (s : Z) : Prop :=
  retain_all = true ∨ durable_sequence db ≤ s ∨ s ∈ protected ∨ s ∈ map fst (pins (state (db_registry db))).

Lemma replaced_reads db db' contents contents' protected pinned retain_all k s :
  db_holds db contents → db_holds db' contents' → memtable db' = memtable db → durable_sequence db' = durable_sequence db →
  pinned = map fst (pins (state (db_registry db))) →
  (∀ s, retain_all = true ∨ s ∈ protected_set (durable_sequence db) protected pinned →
     seen s (published contents' k) ≫= value = seen s (published contents k) ≫= value) →
  stays_readable db protected retain_all s → reads db' contents' k s = reads db contents k s.
Proof.
  intros H H' Hmem Hdur Hpins Hseen Hs. unfold reads. rewrite (seen_stored db' contents'), (seen_stored db contents) by done.
  rewrite Hmem. destruct (get_version (memtable db) k s); [done|].
  assert (durable_sequence db ≤ s ∨ retain_all = true ∨ s ∈ protected_set (durable_sequence db) protected pinned) as [Hge|Hor].
  { rewrite protected_set_elem, Hpins. destruct Hs as [?|[?|[?|?]]]; [tauto|tauto| |tauto].
    destruct (Z.le_gt_cases s (durable_sequence db)); [tauto|]. left. lia. }
  - rewrite (seen_above (durable_sequence db) s (published contents' k)), (seen_above (durable_sequence db) s (published contents k));
      [apply Hseen; right; apply protected_set_elem; tauto|intros v Hv; by eapply published_bound|done| |done].
    intros v Hv. rewrite <-Hdur. by eapply published_bound.
  - by apply Hseen.
Qed.

Lemma compact_spec ready publish db contents protected force retain_all :
  db_holds db contents → (∀ k, coherent (published contents k)) → durable_sequence db < 2 ^ 64 →
  Z.of_nat (length (segments db)) + Z.max 0 (output_segments (compaction_limits db)) < u64_max →
  let db' := (compact_segments write_segment ready publish db protected force retain_all).1 in
  ∃ contents', db_holds db' contents' ∧ (∀ k, coherent (published contents' k)) ∧ memtable db' = memtable db
    ∧ durable_sequence db' = durable_sequence db
    ∧ ∀ k s, stays_readable db protected retain_all s → reads db' contents' k s = reads db contents k s.
Proof.
  intros H Hc Hd Hfew. cbn zeta.
  assert (∀ db', (db' = db ∨ db' = owe_reclamation db) → ∃ contents', db_holds db' contents' ∧ (∀ k, coherent (published contents' k))
    ∧ memtable db' = memtable db ∧ durable_sequence db' = durable_sequence db
    ∧ ∀ k s, stays_readable db protected retain_all s → reads db' contents' k s = reads db contents k s) as Hsame.
  { intros db' Hdb'. exists contents. by destruct Hdb' as [-> | ->]; split_and!; try done; apply owed_holds. }
  unfold compact_segments. destruct (do? ready in _) as [[candidate|]|e]; [|apply Hsame; by left..].
  destruct (admit_compaction_input db candidate) as [bytes|e]; [|apply Hsame; by left].
  destruct (sequences (db_registry db)) as [pinned|e] eqn:Epins; [|apply Hsame; by left].
  pose proof (merge_candidate_spec write_segment (owe_reclamation db) contents candidate (durable_sequence db)
    (protected_set (durable_sequence db) protected pinned) retain_all (owed_holds _ _ H) Hc) as (gs & Hgs & Hmerge).
  destruct (merge_compaction_candidate _ _ _ _ _ _) as [[st n]|e]; [|apply Hsame; by right].
  destruct (publish _) as [u|e]; [|apply Hsame; by right]. cbn [fst].
  destruct Hmerge as (Hlen & parts & Hparts & Hw).
  assert (pinned = map fst (pins (state (db_registry db)))) as Hpins by (unfold sequences in Epins; by destruct (lock_poisoned _); simplify_eq).
  assert (db_holds (install_segments (owe_reclamation db) (unselected (indices candidate) (segments (owe_reclamation db)) ++ compacted_segments st))
    (replaced contents (indices candidate) parts)) as H'.
  { eapply installed_holds; [by apply owed_holds|done|done|done|done|]. cbn in Hlen |- *. lia. }
  eexists. split; [exact H'|]. split_and!; [|done|done|].
  - intros k. eapply coherent_incl; [apply (Hc k)|]. by eapply replaced_published.
  - intros k s. eapply replaced_reads; [done|exact H'|done|done|exact Hpins|]. intros s0 Hs0.
    eapply (replaced_seen (owe_reclamation db)); [by apply owed_holds|done|done|done|done].
Qed.
End Compact.

(** * Samples *)

#[local] Existing Instances run_codec run_codec_laws sum_ring sum_ring_laws layout64 layout64_laws.

Definition sample_write : list (key * list VersionedValue) → result Error Segment :=
  write_from_table SegmentRowGroupBudget_default PolicyNone (λ _, Ok tt) 9.
#[local] Instance sample_writer : SegmentWriter sample_write.
Proof. apply table_writer; [by split|done|done]. Qed.

Definition older_rows : list (key * list VersionedValue) :=
  [(str_bytes "apple", [{| sequence := 1; value := Some (str_bytes "a") |}; {| sequence := 2; value := None |}]);
   (str_bytes "pear", [{| sequence := 3; value := Some (str_bytes "green") |}])].
Definition newer_rows : list (key * list VersionedValue) :=
  [(str_bytes "apple", [{| sequence := 4; value := Some (str_bytes "A") |}]);
   (str_bytes "fig", [{| sequence := 5; value := Some (str_bytes "f") |}; {| sequence := 6; value := None |}]);
   (str_bytes "pear", [{| sequence := 7; value := Some (str_bytes "ripe") |}])].
Lemma older_storable : storable older_rows.
Proof.
  split; [done|]. split; [repeat constructor|]. repeat (constructor; [split_and!; [done|done|repeat constructor|repeat constructor]|]). constructor.
Qed.
Lemma newer_storable : storable newer_rows.
Proof.
  split; [done|]. split; [repeat constructor|]. repeat (constructor; [split_and!; [done|done|repeat constructor|repeat constructor]|]). constructor.
Qed.

Definition written_segment (rows : list (key * list VersionedValue)) : Segment :=
  match sample_write rows with Ok seg => seg | Err _ => sample_segment end.
(** A database of segments without a memtable, with transactions at the given snapshots. *)
Definition segment_db (tables : list (list (key * list VersionedValue))) (durable : Z) (registry : TransactionSnapshots) : Database :=
  let segs := map written_segment tables in
  {| memtable := at_sequence durable; segments := segs; point_index := PointIndex_new (descriptor_of segs) (length segs);
     durable_sequence := durable; db_registry := registry; compaction := CompactionPolicy_default;
     compaction_limits := CompactionLimits_default; reclamation_pending := false |}.

Lemma written_segment_holds rows enc :
  storable rows → encode_versions rows SegmentRowGroupBudget_default PolicyNone = Ok enc →
  ∃ gs, segment_holds (written_segment rows) gs ∧ concat gs = flat rows.
Proof.
  intros Hs He. unfold written_segment, sample_write, write_from_table. rewrite He.
  destruct (write_holds SegmentRowGroupBudget_default PolicyNone (λ _, Ok tt) 9 rows enc) as (seg & gs & -> & _ & _ & Hgs); [by split|done|done|done|done|].
  by exists gs.
Qed.

Lemma segment_db_holds tables durable registry :
  Forall (λ t, storable t ∧ is_ok (encode_versions t SegmentRowGroupBudget_default PolicyNone) = true
    ∧ Forall (λ r : row, 0 ≤ sequence r.2 ≤ durable) (flat t)) tables →
  Z.of_nat (length tables) < u64_max → db_holds (segment_db tables durable registry) (map flat tables).
Proof.
  intros Hall Hfew. constructor; cbn [segment_db segments memtable durable_sequence point_index].
  - apply Forall2_fmap. apply Forall_Forall2_diag. eapply Forall_impl; [exact Hall|]. intros t (Hs & He & _).
    destruct (encode_versions t _ _) as [enc|] eqn:E; [|done]. by eapply written_segment_holds.
  - by rewrite length_map.
  - split; [constructor|]. intros k. constructor.
  - intros rows k v w _ _ Hw. by apply not_elem_of_nil in Hw.
  - intros rows r (t & -> & Ht)%list_elem_of_fmap Hr. rewrite Forall_forall in Hall. destruct (Hall t Ht) as (_ & _ & Hb).
    rewrite Forall_forall in Hb. by apply Hb.
  - by rewrite length_map.
  - done.
Qed.

Definition merge_db : Database :=
  segment_db [older_rows; newer_rows] 7 (TransactionSnapshots_new 7 TransactionLimits_default).
Lemma merge_db_holds registry : db_holds (segment_db [older_rows; newer_rows] 7 registry) (map flat [older_rows; newer_rows]).
Proof.
  apply segment_db_holds; [|done].
  constructor; [split_and!; [apply older_storable|vm_compute; reflexivity|]|constructor; [split_and!; [apply newer_storable|vm_compute; reflexivity|]|constructor]];
    repeat (constructor; [cbn; lia|]); constructor.
Qed.
Lemma merge_db_coherent k : coherent (published (map flat [older_rows; newer_rows]) k).
Proof.
  intros v w Hv Hw E. apply published_elem in Hv as (rows & Hr & Hv), Hw as (rows' & Hr' & Hw).
  assert (∀ rows r, rows ∈ map flat [older_rows; newer_rows] → r ∈ rows → r ∈ flat older_rows ++ flat newer_rows) as Hall.
  { intros l r [->|[->|Hl%not_elem_of_nil]%elem_of_cons]%elem_of_cons Hin; [apply elem_of_app; by left|apply elem_of_app; by right|done]. }
  specialize (Hall _ _ Hr Hv) as Hv'. specialize (Hall _ _ Hr' Hw) as Hw'. clear -Hv' Hw' E.
  assert (NoDup (map (λ r : row, sequence r.2) (flat older_rows ++ flat newer_rows))) as Hnd by (apply (bool_decide_unpack _); vm_compute; exact I).
  apply list_elem_of_lookup in Hv' as [i Hi], Hw' as [j Hj].
  assert (i = j) as ->; [|congruence]. eapply NoDup_lookup; [exact Hnd|by rewrite list_lookup_fmap, Hi|by rewrite list_lookup_fmap, Hj; cbn; rewrite E].
Qed.

(** * The claims *)

(** C17: compaction preserves reads.  Whatever candidate is selected, whichever versions are
    pruned, and whether it is refused, fails half-way or installs its output, the database
    after compaction is well formed with the same memtable and durable sequence, and every
    read at a sequence that had to stay readable, namely any sequence from the durable one on,
    any protected one, the snapshot of any live transaction, or any at all when every version
    is retained, answers as before.  The segment writer is any that stores its table. *)
Theorem compaction_preserves_reads `{LayoutLaws} write_segment `{!SegmentWriter write_segment} ready publish db contents protected force retain_all :
  db_holds db contents → (∀ k, coherent (published contents k)) → durable_sequence db < 2 ^ 64 →
  Z.of_nat (length (segments db)) + Z.max 0 (output_segments (compaction_limits db)) < u64_max →
  let db' := (compact_segments write_segment ready publish db protected force retain_all).1 in
  ∃ contents', db_holds db' contents' ∧ (∀ k, coherent (published contents' k)) ∧ memtable db' = memtable db
    ∧ durable_sequence db' = durable_sequence db
    ∧ ∀ k s, stays_readable db protected retain_all s → db_get db' k s = db_get db k s.
Proof.
  intros Hh Hc Hd Hfew. destruct (compact_spec write_segment ready publish db contents protected force retain_all Hh Hc Hd Hfew)
    as (contents' & Hh' & Hc' & Hm & Hdur & Hreads). exists contents'. split_and!; [done..|]. intros k s Hs.
  rewrite (db_get_spec _ contents') , (db_get_spec _ contents) by done. by rewrite Hreads.
Qed.
Lemma compaction_preserves_reads_witness :
  let '(db', outcome) := compact_segments sample_write (Ok tt) (λ _, Ok tt) merge_db [3] true false in
  (∃ contents', db_holds db' contents') ∧ db_get db' (str_bytes "pear") 3 = db_get merge_db (str_bytes "pear") 3
  ∧ db_get db' (str_bytes "pear") 3 = Ok (Some (str_bytes "green"))
  ∧ match outcome with Ok (Some o) => outcome_input_versions o = 7 ∧ outcome_output_versions o = 4 | _ => False end.
Proof.
  destruct (compaction_preserves_reads sample_write (Ok tt) (λ _, Ok tt) merge_db _ [3] true false
    (merge_db_holds _) merge_db_coherent) as (contents' & Hh & _ & _ & _ & Hreads); [vm_compute; reflexivity|vm_compute; reflexivity|].
  destruct (compact_segments sample_write (Ok tt) (λ _, Ok tt) merge_db [3] true false) as [db' outcome] eqn:E.
  split; [by exists contents'|]. split; [apply Hreads; right; right; left; by left|].
  assert (db' = (compact_segments sample_write (Ok tt) (λ _, Ok tt) merge_db [3] true false).1) as -> by (by rewrite E).
  assert (outcome = (compact_segments sample_write (Ok tt) (λ _, Ok tt) merge_db [3] true false).2) as -> by (by rewrite E).
  split; [vm_compute; reflexivity|]. vm_compute. split; reflexivity.
Defined.

(** A transaction that begins at sequence 4 holds a pin on it. *)
Definition pinned_registry : TransactionSnapshots :=
  match acquire (TransactionSnapshots_new 7 TransactionLimits_default) 4 with
  | Ok registry => registry
  | Err _ => TransactionSnapshots_new 7 TransactionLimits_default
  end.

