(* ===== verification/Manifest.v ===== *)
(** Manifests ([rrd-lsm]: manifest.rs, the immutable physical state and its control records).

    A manifest names the live segments and the sequences the log starts from; its digest is
    its identity.  [serde_json] is not part of this repository: it is the class [Serde], with
    the round trip that crate documents as [SerdeLaws].

    Theorems: a constructed manifest validates, in the order of its levels; a validated one
    names distinct segments within the durable sequence whose ranges are disjoint on every
    level above zero; and its identity binds all of its fields. *)

From S2P Require Import Prelude Machine BTree Ident Digest LsmError Batch RecoveryBudget Wal Memtable Versions SegmentFormat Segment SegmentFile PointIndex.
Open Scope Z_scope.

(** The JSON codec of a type: [serde_json::to_vec] and [from_slice]. *)
Class Serde (A : Type) := { to_vec : A → list byte; from_slice : list byte → result Error A }.
(** Documented behaviour: what is written is read back. *)
Class SerdeLaws (A : Type) `{Serde A} : Prop := { serde_round_trip : ∀ x : A, from_slice (to_vec x) = Ok x }.

(** * Descriptors *)

#[export] Instance descriptor_eq_dec : EqDecision SegmentDescriptor.
Proof. solve_decision. Defined.

(** lsm/manifest.rs:13-14 the format versions *)
Definition MANIFEST_FORMAT_VERSION : Z := 3.
Definition MANIFEST_CONTROL_FORMAT_VERSION : Z := 1.

Definition is_ascii_hexdigit (b : byte) : bool :=
  let n := u8_val b in (((48 <=? n) && (n <=? 57)) || ((65 <=? n) && (n <=? 70)) || ((97 <=? n) && (n <=? 102)))%bool.
(** lsm/manifest.rs:302-304 is_sha256 *)
Definition is_sha256 (value : string) : bool :=
  ((len (str_bytes value) =? 64) && forallb is_ascii_hexdigit (str_bytes value))%bool.

(** lsm/manifest.rs:42-99 SegmentDescriptor::validate *)
Definition descriptor_validate (self : SegmentDescriptor) : result Error unit :=
  if (negb (is_sha256 (segment_id self)) || negb (is_sha256 (segment_checksum self)))%bool
  then Err (InvalidManifest "segment identity and checksum must be content-addressed SHA-256 values")
  else if negb (format_version self =? SEGMENT_FORMAT_VERSION)
  then Err (InvalidManifest ("segment " +:+ segment_id self +:+ " uses unsupported physical format " +:+ pretty (format_version self)))
  else
    do? try_each (λ '(name, actual, expected),
      if (negb (is_sha256 actual) || negb (bool_decide (actual = expected)))%bool
      then Err (InvalidManifest ("segment " +:+ segment_id self +:+ " has an unknown " +:+ name +:+ " digest")) else Ok tt)
      [("schema", schema_digest self, SEGMENT_SCHEMA_DIGEST); ("key codec", key_codec_digest self, SEGMENT_KEY_CODEC_DIGEST);
       ("page format", page_format_digest self, SEGMENT_PAGE_FORMAT_DIGEST)] in
    if ltb (last_key self) (first_key self)
    then Err (InvalidManifest ("segment " +:+ segment_id self +:+ " has an inverted key range"))
    else if ((minimum_sequence self =? 0) || (maximum_segment_sequence self <? minimum_sequence self))%bool
    then Err (InvalidManifest ("segment " +:+ segment_id self +:+ " has an invalid sequence range"))
    else if ((entries self =? 0) || (segment_bytes self =? 0))%bool
    then Err (InvalidManifest ("segment " +:+ segment_id self +:+ " must contain entries and bytes"))
    else Ok tt.

(** * Manifests *)

(** lsm/manifest.rs:280-290 Manifest::bytes_without_digest, Content *)
Record Content := {
  manifest_format_version : Z; application_format : option Z; generation : Z; manifest_parent : option string;
  manifest_created_at : Z; manifest_durable_sequence : Z; wal_start_sequence : Z; manifest_segments : list SegmentDescriptor
}.
(** lsm/manifest.rs:103-114 Manifest: its fields and the digest of the others *)
Record Manifest := { content : Content; manifest_id : string }.
#[export] Instance content_eq_dec : EqDecision Content.
Proof. solve_decision. Defined.
#[export] Instance manifest_eq_dec : EqDecision Manifest.
Proof. solve_decision. Defined.

(** lsm/manifest.rs:242-271 Manifest::validate_components, one segment *)
Definition validate_segment (durable : Z) (st : list (string * unit) * list (Z * key)) (segment : SegmentDescriptor)
    : result Error (list (string * unit) * list (Z * key)) :=
  let '(identities, level_last_keys) := st in
  do? descriptor_validate segment in
  match bt_get (segment_id segment) identities with
  | Some _ => Err (InvalidManifest ("segment " +:+ segment_id segment +:+ " appears more than once"))
  | None =>
    let identities := bt_insert (segment_id segment) tt identities in
    if durable <? maximum_segment_sequence segment
    then Err (InvalidManifest ("segment " +:+ segment_id segment +:+ " extends beyond the durable sequence"))
    else if segment_level segment =? 0 then Ok (identities, level_last_keys)
    else if match bt_get (segment_level segment) level_last_keys with Some last_key => leb (first_key segment) last_key | None => false end
    then Err (InvalidManifest ("level " +:+ pretty (segment_level segment) +:+ " contains overlapping or unordered segment ranges"))
    else Ok (identities, bt_insert (segment_level segment) (last_key segment) level_last_keys)
  end.

(** lsm/manifest.rs:215-275 Manifest::validate_components *)
Definition validate_components (self : Content) : result Error unit :=
  if generation self =? 0 then Err (InvalidManifest "manifest generation must be greater than zero")
  else if saturating_add 64 (manifest_durable_sequence self) 1 <? wal_start_sequence self
  then Err (InvalidManifest "WAL start cannot skip beyond the durable sequence")
  else if ((generation self =? 1) && match manifest_parent self with Some _ => true | None => false end)%bool
  then Err (InvalidManifest "the first manifest cannot name a parent")
  else if ((1 <? generation self) && match manifest_parent self with Some parent => bool_decide (parent = "") | None => true end)%bool
  then Err (InvalidManifest "later manifests require a parent digest")
  else if match manifest_parent self with Some parent => negb (is_sha256 parent) | None => false end
  then Err (InvalidManifest "manifest parent must be a SHA-256 digest")
  else let? _ := try_fold (validate_segment (manifest_durable_sequence self)) ([], []) (manifest_segments self) in Ok tt.

Section Manifest.
Context `{Sha2} `{Serde Content}.

(** lsm/manifest.rs:277-299 Manifest::bytes_without_digest *)
Definition bytes_without_digest (self : Content) : list byte := to_vec self.

(** lsm/manifest.rs:171-176 Manifest::new_inner, the order of the segments *)
Definition segment_order (l r : SegmentDescriptor) : comparison :=
  then_ (Z.compare (segment_level l) (segment_level r)) (then_ (cmp (first_key l) (first_key r)) (cmp (segment_id l) (segment_id r))).

(** lsm/manifest.rs:162-191 Manifest::new_inner *)
Definition manifest_new_inner (generation : Z) (parent : option string) (created_at durable_sequence wal_start : Z)
    (segments : list SegmentDescriptor) (application : option Z) : result Error Manifest :=
  let fields := {| manifest_format_version := MANIFEST_FORMAT_VERSION; application_format := application; generation := generation;
    manifest_parent := parent; manifest_created_at := created_at; manifest_durable_sequence := durable_sequence;
    wal_start_sequence := wal_start; manifest_segments := sort_by segment_order segments |} in
  do? validate_components fields in
  Ok {| content := fields; manifest_id := sha256_hex (bytes_without_digest fields) |}.

(** lsm/manifest.rs:118-135 Manifest::new *)
Definition manifest_new (generation : Z) (parent : option string) (created_at durable_sequence wal_start : Z)
    (segments : list SegmentDescriptor) : result Error Manifest :=
  manifest_new_inner generation parent created_at durable_sequence wal_start segments None.
(** lsm/manifest.rs:137-160 Manifest::new_with_application_format *)
Definition manifest_new_with_application_format (generation : Z) (parent : option string) (created_at durable_sequence wal_start : Z)
    (segments : list SegmentDescriptor) (application : Z) : result Error Manifest :=
  if application =? 0 then Err (InvalidManifest "application format identity must be non-zero")
  else manifest_new_inner generation parent created_at durable_sequence wal_start segments (Some application).

(** lsm/manifest.rs:193-213 Manifest::validate *)
Definition manifest_validate (self : Manifest) : result Error unit :=
  let fields := content self in
  if negb (manifest_format_version fields =? MANIFEST_FORMAT_VERSION)
  then Err (UnsupportedVersion "manifest" (manifest_format_version fields))
  else if bool_decide (application_format fields = Some 0)
  then Err (InvalidManifest "application format identity must be non-zero")
  else
    do? validate_components fields in
    if negb (bool_decide (manifest_id self = sha256_hex (bytes_without_digest fields)))
    then Err (InvalidManifest "manifest digest does not match its fields") else Ok tt.

(** * Control records *)

(** lsm/manifest.rs:306-312 CurrentPointer *)
Record CurrentPointer := { pointer_format_version : Z; pointer_generation : Z; pointer_manifest : string; pointer_checksum : string }.
(** lsm/manifest.rs:403-410 CurrentPointer::expected_checksum *)
Definition pointer_expected_checksum (self : CurrentPointer) : string :=
  sha256_hex (str_bytes "rrflow-current-v1" ++ [x00] ++ be_bytes 2 (pointer_format_version self) ++ be_bytes 8 (pointer_generation self)
    ++ str_bytes (pointer_manifest self)).
(** lsm/manifest.rs:372-381 CurrentPointer::new *)
Definition pointer_new (manifest : Manifest) : CurrentPointer :=
  let pointer := {| pointer_format_version := MANIFEST_CONTROL_FORMAT_VERSION; pointer_generation := generation (content manifest);
    pointer_manifest := manifest_id manifest; pointer_checksum := "" |} in
  {| pointer_format_version := pointer_format_version pointer; pointer_generation := pointer_generation pointer;
     pointer_manifest := pointer_manifest pointer; pointer_checksum := pointer_expected_checksum pointer |}.
(** lsm/manifest.rs:383-401 CurrentPointer::validate *)
Definition pointer_validate (self : CurrentPointer) : result Error unit :=
  if negb (pointer_format_version self =? MANIFEST_CONTROL_FORMAT_VERSION)
  then Err (UnsupportedVersion "CURRENT pointer" (pointer_format_version self))
  else if ((pointer_generation self =? 0) || negb (is_sha256 (pointer_manifest self)) || negb (is_sha256 (pointer_checksum self)))%bool
  then Err (InvalidManifest "invalid CURRENT pointer fields")
  else if negb (bool_decide (pointer_checksum self = pointer_expected_checksum self))
  then Err (InvalidManifest "CURRENT pointer checksum mismatch") else Ok tt.

(** lsm/manifest.rs:314-322 Checkpoint *)
Record Checkpoint := {
  checkpoint_format_version : Z; checkpoint_name : string; checkpoint_manifest : string; checkpoint_generation : Z;
  checkpoint_created_at : Z; checkpoint_checksum : string
}.
#[export] Instance checkpoint_eq_dec : EqDecision Checkpoint.
Proof. solve_decision. Defined.

Definition is_checkpoint_byte (b : byte) : bool :=
  let n := u8_val b in
  (((48 <=? n) && (n <=? 57)) || ((65 <=? n) && (n <=? 90)) || ((97 <=? n) && (n <=? 122)) || (n =? 45) || (n =? 95) || (n =? 46))%bool.
(** lsm/manifest.rs:940-952 validate_checkpoint_name; the message quotes the name. *)
Definition validate_checkpoint_name (name : string) : result Error unit :=
  if (bool_decide (name = "") || (128 <? len (str_bytes name)) || negb (forallb is_checkpoint_byte (str_bytes name)))%bool
  then Err (InvalidManifest ("invalid checkpoint name " +:+ name)) else Ok tt.

(** lsm/manifest.rs:359-368 Checkpoint::expected_checksum *)
Definition checkpoint_expected_checksum (self : Checkpoint) : string :=
  sha256_hex (str_bytes "rrflow-checkpoint-v1" ++ [x00] ++ be_bytes 2 (checkpoint_format_version self) ++ str_bytes (checkpoint_name self) ++ [x00]
    ++ str_bytes (checkpoint_manifest self) ++ be_bytes 8 (checkpoint_generation self) ++ be_bytes 8 (checkpoint_created_at self)).
(** lsm/manifest.rs:325-337 Checkpoint::new *)
Definition checkpoint_new (name : string) (manifest : Manifest) (created_at : Z) : result Error Checkpoint :=
  do? validate_checkpoint_name name in
  let checkpoint := {| checkpoint_format_version := MANIFEST_CONTROL_FORMAT_VERSION; checkpoint_name := name;
    checkpoint_manifest := manifest_id manifest; checkpoint_generation := generation (content manifest);
    checkpoint_created_at := created_at; checkpoint_checksum := "" |} in
  Ok {| checkpoint_format_version := checkpoint_format_version checkpoint; checkpoint_name := name;
    checkpoint_manifest := checkpoint_manifest checkpoint; checkpoint_generation := checkpoint_generation checkpoint;
    checkpoint_created_at := created_at; checkpoint_checksum := checkpoint_expected_checksum checkpoint |}.
(** lsm/manifest.rs:339-357 Checkpoint::validate *)
Definition checkpoint_validate (self : Checkpoint) : result Error unit :=
  if negb (checkpoint_format_version self =? MANIFEST_CONTROL_FORMAT_VERSION)
  then Err (UnsupportedVersion "checkpoint" (checkpoint_format_version self))
  else
    do? validate_checkpoint_name (checkpoint_name self) in
    if (negb (is_sha256 (checkpoint_manifest self)) || negb (is_sha256 (checkpoint_checksum self)) || (checkpoint_generation self =? 0)
        || negb (bool_decide (checkpoint_checksum self = checkpoint_expected_checksum self)))%bool
    then Err (InvalidManifest "invalid checkpoint identity or checksum") else Ok tt.
End Manifest.

(** * What validation admits *)

(** On a level above zero the ranges follow one another. *)
Definition levels_apart (segments : list SegmentDescriptor) : Prop :=
  ∀ i j a b, (i < j)%nat → segments !! i = Some a → segments !! j = Some b → segment_level a = segment_level b → segment_level a ≠ 0 →
  ltb (last_key a) (first_key b) = true.

Record segments_ok (durable : Z) (segments : list SegmentDescriptor) : Prop := {
  segments_valid : Forall (λ s, descriptor_validate s = Ok tt) segments;
  segments_durable : Forall (λ s, maximum_segment_sequence s ≤ durable) segments;
  segments_once : NoDup (map segment_id segments);
  segments_apart : levels_apart segments
}.

Definition on_level (level : Z) (segments : list SegmentDescriptor) : list SegmentDescriptor :=
  List.filter (λ s, segment_level s =? level) segments.

(** The state of the loop describes the segments before. *)
Definition tracks (st : list (string * unit) * list (Z * key)) (prior : list SegmentDescriptor) : Prop :=
  (∀ id, bt_get id st.1 = Some tt ↔ id ∈ map segment_id prior)
  ∧ ∀ level, level ≠ 0 → bt_get level st.2 = last_key <$> last (on_level level prior).

Lemma on_level_snoc level prior s : on_level level (prior ++ [s]) = on_level level prior ++ if segment_level s =? level then [s] else [].
Proof. unfold on_level. by rewrite List.filter_app. Qed.

Lemma descriptor_range s : descriptor_validate s = Ok tt → leb (first_key s) (last_key s) = true.
Proof.
  unfold descriptor_validate. intros H. destruct_matches_in H; try done.
  match goal with E : ltb (last_key s) (first_key s) = false |- _ => by rewrite leb_ltb, E end.
Qed.

(** A level keeps the order of the list. *)
Lemma on_level_order level p m1 m2 x y :
  on_level level p !! m1 = Some x → on_level level p !! m2 = Some y → (m1 < m2)%nat → ∃ i j, (i < j)%nat ∧ p !! i = Some x ∧ p !! j = Some y.
Proof.
  revert m1 m2. induction p as [|w p IH]; intros m1 m2 H1 H2 Hlt; [done|]. unfold on_level in *. cbn [List.filter] in *.
  destruct (segment_level w =? level) eqn:E.
  - destruct m1 as [|m1], m2 as [|m2]; try lia; cbn in H1, H2.
    + simplify_eq. apply list_elem_of_lookup_2, list_elem_of_In, filter_In in H2 as [H2 _]. apply list_elem_of_In, list_elem_of_lookup in H2 as [j Hj].
      exists 0%nat, (S j). split_and!; [lia|done|done].
    + destruct (IH m1 m2 H1 H2 ltac:(lia)) as (i & j & Hij & Hi & Hj). exists (S i), (S j). split_and!; [lia|done|done].
  - destruct (IH m1 m2 H1 H2 Hlt) as (i & j & Hij & Hi & Hj). exists (S i), (S j). split_and!; [lia|done|done].
Qed.

(** What one more segment adds to a list that is in order. *)
Lemma segments_ok_snoc durable prior s :
  segments_ok durable (prior ++ [s]) ↔
  segments_ok durable prior ∧ descriptor_validate s = Ok tt ∧ maximum_segment_sequence s ≤ durable ∧ (segment_id s ∉ map segment_id prior)
  ∧ (segment_level s ≠ 0 → ∀ z, last (on_level (segment_level s) prior) = Some z → ltb (last_key z) (first_key s) = true).
Proof.
  split.
  - intros [Hv Hd Ho Ha]. apply Forall_app in Hv as [Hv [Hs _]%Forall_cons]. apply Forall_app in Hd as [Hd [Hm _]%Forall_cons].
    rewrite map_app in Ho. apply NoDup_app in Ho as (Ho & Hdis & _). split_and!; [constructor; try done|done|done| |].
    + intros i j a b Hij Hi Hj. apply (Ha i j); [done|by apply lookup_app_l_Some..].
    + intros Hin. apply (Hdis _ Hin). by left.
    + intros Hl z Hz. apply last_Some in Hz as [l Hz].
      assert (z ∈ on_level (segment_level s) prior) as Hin by (rewrite Hz; apply elem_of_app; right; by left).
      apply list_elem_of_In, filter_In in Hin as [Hin El%Z.eqb_eq]. apply list_elem_of_In, list_elem_of_lookup in Hin as [i Hi].
      eapply (Ha i (length prior) z s); [by eapply lookup_lt_Some|by apply lookup_app_l_Some|by rewrite lookup_app_r, Nat.sub_diag|done|congruence].
  - intros ([Hv Hd Ho Ha] & Hs & Hm & Hid & Hlast). constructor.
    + apply Forall_app; split; [done|by repeat constructor].
    + apply Forall_app; split; [done|by repeat constructor].
    + rewrite map_app. apply NoDup_app. split_and!; [done| |apply NoDup_singleton]. intros x Hx ->%list_elem_of_singleton. done.
    + intros i j a b Hij Hi Hj El Hl. destruct (decide (j < length prior)%nat) as [Hjp|Hjp].
      { rewrite lookup_app_l in Hi, Hj by lia. by apply (Ha i j). }
      assert (j = length prior) as -> by (apply lookup_lt_Some in Hj; rewrite length_app in Hj; cbn in Hj; lia).
      rewrite lookup_app_r, Nat.sub_diag in Hj by lia. injection Hj as <-. rewrite lookup_app_l in Hi by done.
      assert (a ∈ on_level (segment_level s) prior) as Hin.
      { apply list_elem_of_In, filter_In. split; [apply list_elem_of_In; by eapply list_elem_of_lookup_2|by apply Z.eqb_eq]. }
      destruct (last (on_level (segment_level s) prior)) as [z|] eqn:Ez; [|apply last_None in Ez; rewrite Ez in Hin; by apply not_elem_of_nil in Hin].
      specialize (Hlast ltac:(congruence) z eq_refl). destruct (decide (a = z)) as [->|Hne]; [done|].
      apply last_Some in Ez as [l Ez].
      assert (z ∈ on_level (segment_level s) prior) as Hz by (rewrite Ez; apply elem_of_app; right; by left).
      apply list_elem_of_In, filter_In in Hz as [Hz Elz%Z.eqb_eq]. apply list_elem_of_In in Hz.
      eapply ltb_trans; [|exact Hlast].
      cut (ltb (last_key a) (first_key z) = true).
      { intros Hlt. eapply ltb_leb_trans; [exact Hlt|]. apply descriptor_range. by eapply Forall_forall in Hv. }
      rewrite Ez in Hin. apply elem_of_app in Hin as [Hin| ->%list_elem_of_singleton]; [|done]. clear Hz Hlast Hne.
      apply list_elem_of_lookup in Hin as [n Hn].
      assert (on_level (segment_level s) prior !! n = Some a ∧ on_level (segment_level s) prior !! length l = Some z ∧ (n < length l)%nat) as (Hn1 & Hn2 & Hlt).
      { rewrite Ez. split_and!; [by apply lookup_app_l_Some|by rewrite lookup_app_r, Nat.sub_diag by lia|by eapply lookup_lt_Some]. }
      clear Ez Hn. revert Ha. clear -Hn1 Hn2 Hlt El Hl Elz. intros Ha.
      destruct (on_level_order _ _ _ _ _ _ Hn1 Hn2 Hlt) as (i' & j' & Hij' & Hi' & Hj'). apply (Ha i' j' a z Hij' Hi' Hj'); congruence.
Qed.

Lemma validate_segment_spec durable st prior s :
  tracks st prior → segments_ok durable prior →
  match validate_segment durable st s with
  | Ok st' => segments_ok durable (prior ++ [s]) ∧ tracks st' (prior ++ [s])
  | Err _ => ¬ segments_ok durable (prior ++ [s])
  end.
Proof.
  destruct st as [identities keys]. intros [Hid Hkeys] Hok. cbn [fst snd] in *. unfold validate_segment.
  destruct (descriptor_validate s) as [[]|e] eqn:Ev; [|intros (_ & ? & _)%segments_ok_snoc; congruence].
  assert (bt_get (segment_id s) identities = None ↔ segment_id s ∉ map segment_id prior) as Hfresh.
  { destruct (bt_get (segment_id s) identities) as [[]|] eqn:E; split; try done.
    - intros Hn. destruct Hn. by apply Hid.
    - intros _ Hin%Hid. congruence. }
  destruct (bt_get (segment_id s) identities) as [[]|] eqn:Ei; [intros (_ & _ & _ & ? & _)%segments_ok_snoc; naive_solver|]. pose proof (proj1 Hfresh eq_refl) as Hnew.
  destruct (Z.ltb_spec durable (maximum_segment_sequence s)) as [Hd|Hd]; [intros (_ & _ & ? & _)%segments_ok_snoc; lia|].
  assert (∀ id, bt_get id (bt_insert (segment_id s) tt identities) = Some tt ↔ id ∈ map segment_id (prior ++ [s])) as Hid'.
  { intros id. rewrite bt_get_insert, map_app, elem_of_app. rewrite <-(Hid id). cbn [map]. rewrite list_elem_of_singleton. destruct (decide (segment_id s = id)); naive_solver. }
  destruct (Z.eqb_spec (segment_level s) 0) as [El|El].
  { split; [apply segments_ok_snoc; by split_and!|]. split; [done|]. intros level Hl. cbn [snd]. rewrite Hkeys, on_level_snoc by done. rewrite (proj2 (Z.eqb_neq _ _)) by congruence. by rewrite app_nil_r. }
  rewrite Hkeys by done. destruct (last (on_level (segment_level s) prior)) as [z|] eqn:Ez; cbn [fmap option_fmap option_map].
  - rewrite leb_ltb. destruct (ltb (last_key z) (first_key s)) eqn:Elt; cbn [negb].
    + split; [apply segments_ok_snoc; split_and!; naive_solver|]. split; [done|]. intros level Hl. cbn [snd]. rewrite bt_get_insert, on_level_snoc, Hkeys by done.
      destruct (Z.eqb_spec (segment_level s) level) as [->|Hne]; [by rewrite decide_True, last_snoc|by rewrite decide_False, app_nil_r].
    + intros (_ & _ & _ & _ & Hlast)%segments_ok_snoc. specialize (Hlast El z Ez). congruence.
  - split; [apply segments_ok_snoc; split_and!; naive_solver|]. split; [done|]. intros level Hl. cbn [snd]. rewrite bt_get_insert, on_level_snoc, Hkeys by done.
    destruct (Z.eqb_spec (segment_level s) level) as [->|Hne]; [by rewrite decide_True, last_snoc|by rewrite decide_False, app_nil_r].
Qed.

Lemma segments_ok_app durable l r : segments_ok durable (l ++ r) → segments_ok durable l.
Proof.
  induction r as [|x r IH] using rev_ind; [by rewrite app_nil_r|]. rewrite app_assoc, segments_ok_snoc. intros [H _]. by apply IH.
Qed.

Lemma validate_segments_spec durable todo st prior :
  tracks st prior → segments_ok durable prior →
  match try_fold (validate_segment durable) st todo with Ok _ => segments_ok durable (prior ++ todo) | Err _ => ¬ segments_ok durable (prior ++ todo) end.
Proof.
  revert st prior. induction todo as [|s todo IH]; intros st prior Ht Hok; cbn [try_fold]; [by rewrite app_nil_r|].
  pose proof (validate_segment_spec durable st prior s Ht Hok) as Hs. replace (prior ++ s :: todo) with ((prior ++ [s]) ++ todo) by (by rewrite <-app_assoc).
  destruct (validate_segment durable st s) as [st'|e]; [destruct Hs; by apply IH|]. intros H%segments_ok_app. done.
Qed.

(** The contract of the fields of a manifest. *)
Record content_ok (c : Content) : Prop := {
  ok_generation : generation c ≠ 0;
  ok_start : wal_start_sequence c ≤ Z.min (manifest_durable_sequence c + 1) (2 ^ 64 - 1);
  ok_first : generation c = 1 → manifest_parent c = None;
  ok_later : 1 < generation c → is_Some (manifest_parent c);
  ok_parent : ∀ parent, manifest_parent c = Some parent → is_sha256 parent = true;
  ok_segments : segments_ok (manifest_durable_sequence c) (manifest_segments c)
}.

Lemma is_sha256_empty : is_sha256 "" = false.
Proof. done. Qed.

(** Validating the fields of a manifest is exact: it succeeds precisely when the generation
    is not zero, the log starts at most one past the durable sequence, the first generation has
    no parent and every later one names a SHA-256 digest, and the segments validate, are named
    once each, end at or before the durable sequence and have ranges that follow one another
    on every level above zero. *)
Theorem manifest_components_exact c : validate_components c = Ok tt ↔ content_ok c.
Proof.
  unfold validate_components.
  pose proof (validate_segments_spec (manifest_durable_sequence c) (manifest_segments c) ([], []) []) as Hsegs. cbn [app] in Hsegs.
  assert (match try_fold (validate_segment (manifest_durable_sequence c)) ([], []) (manifest_segments c) with
    | Ok _ => segments_ok (manifest_durable_sequence c) (manifest_segments c) | Err _ => ¬ segments_ok (manifest_durable_sequence c) (manifest_segments c) end) as Hs.
  { apply Hsegs; [|constructor; try done; constructor]. split; [|done]. intros id. split; [done|by intros ?%not_elem_of_nil]. }
  clear Hsegs. unfold saturating_add. split.
  - intros H. destruct (Z.eqb_spec (generation c) 0); [done|]. destruct (Z.ltb_spec (Z.min (manifest_durable_sequence c + 1) (2 ^ 64 - 1)) (wal_start_sequence c)); [done|].
    destruct (Z.eqb_spec (generation c) 1); destruct (Z.ltb_spec 1 (generation c)); try lia; destruct (manifest_parent c) as [p|] eqn:Ep; cbn [andb] in H; try done.
    all: repeat match type of H with context [if ?b then _ else _] => destruct b eqn:?; [done|] end.
    all: destruct (try_fold _ _ _); [|done]; constructor; try done; try congruence; try lia; rewrite ?Ep; try (by eexists); intros ? [= <-]; by apply negb_false_iff.
  - intros [Hg Hst Hf Hl Hp Hok]. rewrite (proj2 (Z.eqb_neq _ _)) by done. rewrite (proj2 (Z.ltb_ge _ _)) by lia.
    destruct (try_fold _ _ _); [|done]. destruct (Z.eqb_spec (generation c) 1) as [E|E].
    + rewrite (Hf E). cbn [andb]. by rewrite (proj2 (Z.ltb_ge _ _)) by lia.
    + cbn [andb]. destruct (manifest_parent c) as [p|] eqn:Ep.
      * specialize (Hp p eq_refl). rewrite bool_decide_eq_false_2; [by rewrite andb_false_r, Hp|]. intros ->. done.
      * destruct (Z.ltb_spec 1 (generation c)); [|done]. destruct (Hl ltac:(done)). done.
Qed.

Section ManifestFacts.
Context `{Sha2} `{Serde Content}.

Definition placed_before (a b : SegmentDescriptor) : Prop :=
  segment_level a < segment_level b ∨ (segment_level a = segment_level b ∧ leb (first_key a) (first_key b) = true).

Lemma segment_order_before a b : (segment_order a b ≠ Gt → placed_before a b) ∧ (segment_order a b = Gt → placed_before b a).
Proof.
  unfold segment_order, placed_before, then_, leb. rewrite (cmp_antisym (first_key a) (first_key b)).
  destruct (Z.compare_spec (segment_level a) (segment_level b)) as [E|E|E]; [|by split; [left|]|by split; [|left]].
  destruct (cmp (first_key a) (first_key b)); cbn; (split; [intros ?; try done; right; by split|intros ?; try done; right; by split]).
Qed.

Lemma new_inner_valid g p t d w segments a m :
  a ≠ Some 0 → manifest_new_inner g p t d w segments a = Ok m →
  manifest_validate m = Ok tt ∧ manifest_segments (content m) ≡ₚ segments ∧ StronglySorted placed_before (manifest_segments (content m))
  ∧ generation (content m) = g ∧ manifest_parent (content m) = p ∧ manifest_durable_sequence (content m) = d ∧ wal_start_sequence (content m) = w.
Proof.
  intros Ha. unfold manifest_new_inner. set (fields := {| generation := g |}). destruct (validate_components fields) as [[]|] eqn:Ev; [|done]. intros [= <-].
  split_and!; try done.
  - unfold manifest_validate. cbn [content manifest_id]. rewrite Z.eqb_refl. cbn [negb]. rewrite bool_decide_eq_false_2 by done. rewrite Ev.
    by rewrite bool_decide_eq_true_2.
  - apply sort_by_perm.
  - apply (sort_by_sorted segment_order); [apply segment_order_before|apply segment_order_before|].
    intros x y z [?|[? ?]] [?|[? ?]]; unfold placed_before; [left; lia|left; lia|left; lia|right; split; [lia|by eapply leb_trans]].
Qed.

(** What [Manifest::new] and [Manifest::new_with_application_format] return validates; it
    has the fields it was given and exactly the given segments, ordered by level and then by
    first key. *)
Theorem manifest_constructed_valid g p t d w segments a m :
  manifest_new g p t d w segments = Ok m ∨ manifest_new_with_application_format g p t d w segments a = Ok m →
  manifest_validate m = Ok tt ∧ manifest_segments (content m) ≡ₚ segments ∧ StronglySorted placed_before (manifest_segments (content m))
  ∧ generation (content m) = g ∧ manifest_parent (content m) = p ∧ manifest_durable_sequence (content m) = d ∧ wal_start_sequence (content m) = w.
Proof.
  intros [Hm|Hm]; [by apply (new_inner_valid g p t d w segments None)|]. unfold manifest_new_with_application_format in Hm. destruct (Z.eqb_spec a 0) as [|Ha]; [done|].
  eapply new_inner_valid; [|exact Hm]. congruence.
Qed.

Lemma manifest_valid_id m : manifest_validate m = Ok tt → manifest_id m = sha256_hex (to_vec (content m)).
Proof. unfold manifest_validate. intros Hm. destruct_matches_in Hm; try done. by match goal with E : negb (bool_decide _) = false |- _ => apply negb_false_iff, bool_decide_eq_true_1 in E end. Qed.

(** The identity of a manifest binds all of it: two validated manifests with the same digest
    are the same manifest, fields and segments included, or their encodings are a SHA-256
    collision. *)
Theorem manifest_identity_binds `{!Sha2Laws} `{!SerdeLaws Content} a b :
  manifest_validate a = Ok tt → manifest_validate b = Ok tt → manifest_id a = manifest_id b →
  a = b ∨ collide (bytes_without_digest (content a)) (bytes_without_digest (content b)).
Proof.
  intros Ha%manifest_valid_id Hb%manifest_valid_id E. rewrite Ha, Hb in E. destruct (sha256_hex_binds _ _ E) as [Ec|]; [left|by right].
  pose proof (serde_round_trip (content a)) as Hr. rewrite Ec, serde_round_trip in Hr. injection Hr as Hr.
  destruct a, b; cbn in *. subst. congruence.
Qed.
End ManifestFacts.

(** * A codec with the round trip

    Any countable type has one, so [SerdeLaws] can be satisfied. *)

Fixpoint positive_bytes (p : positive) : list byte :=
  match p with xH => [] | xO p => x00 :: positive_bytes p | xI p => x01 :: positive_bytes p end.
Fixpoint bytes_positive (l : list byte) : positive :=
  match l with [] => xH | x00 :: l => xO (bytes_positive l) | _ :: l => xI (bytes_positive l) end.
Lemma bytes_positive_bytes p : bytes_positive (positive_bytes p) = p.
Proof. induction p; cbn; congruence. Qed.

Definition countable_serde {A} `{Countable A} : Serde A :=
  {| to_vec x := positive_bytes (countable.encode x);
     from_slice l := match countable.decode (bytes_positive l) with Some x => Ok x | None => Err (InvalidManifest "decoding") end |}.
Lemma countable_serde_laws {A} `{Countable A} : @SerdeLaws A countable_serde.
Proof. constructor. intros x. cbn. by rewrite bytes_positive_bytes, decode_encode. Qed.

#[export] Instance byte_countable : Countable byte.
Proof. apply (inj_countable Byte.to_N Byte.of_N). by intros []. Defined.
#[export] Instance descriptor_countable : Countable SegmentDescriptor.
Proof.
  apply (inj_countable'
    (λ s, (segment_id s, segment_level s, format_version s, schema_digest s, key_codec_digest s, page_format_digest s,
           (first_key s, last_key s, minimum_sequence s, maximum_segment_sequence s, entries s, segment_bytes s, segment_checksum s)))
    (λ '(a, b, c, d, e, f, (g, h, i, j, k, l, m)), Build_SegmentDescriptor a b c d e f g h i j k l m)).
  by intros [].
Defined.
#[export] Instance content_countable : Countable Content.
Proof.
  apply (inj_countable'
    (λ c, (manifest_format_version c, application_format c, generation c, manifest_parent c, manifest_created_at c,
           (manifest_durable_sequence c, wal_start_sequence c, manifest_segments c)))
    (λ '(a, b, c, d, e, (f, g, h)), Build_Content a b c d e f g h)).
  by intros [].
Defined.

#[local] Definition digest_a : string := "aaaaaaaaaaaaaaaaaaaaaaaaaaaaaaaaaaaaaaaaaaaaaaaaaaaaaaaaaaaaaaaa".
#[local] Definition digest_b : string := "bbbbbbbbbbbbbbbbbbbbbbbbbbbbbbbbbbbbbbbbbbbbbbbbbbbbbbbbbbbbbbbb".
#[local] Definition level_one (id : string) (first last : key) : SegmentDescriptor :=
  {| segment_id := id; segment_level := 1; format_version := SEGMENT_FORMAT_VERSION; schema_digest := SEGMENT_SCHEMA_DIGEST;
     key_codec_digest := SEGMENT_KEY_CODEC_DIGEST; page_format_digest := SEGMENT_PAGE_FORMAT_DIGEST; first_key := first; last_key := last;
     minimum_sequence := 1; maximum_segment_sequence := 5; entries := 2; segment_bytes := 40; segment_checksum := id |}.
#[local] Definition later_first : list SegmentDescriptor := [level_one digest_b [x05] [x09]; level_one digest_a [x01] [x04]].
#[local] Definition sample_new : result Error Manifest := @manifest_new toy_sha2 countable_serde 1 None 100 5 6 later_first.

#[local] Definition sample_fields : Content :=
  {| manifest_format_version := MANIFEST_FORMAT_VERSION; application_format := None; generation := 1; manifest_parent := None;
     manifest_created_at := 100; manifest_durable_sequence := 5; wal_start_sequence := 6; manifest_segments := sort_by segment_order later_first |}.

Lemma manifest_constructed_valid_witness :
  ∃ m, sample_new = Ok m ∧ @manifest_validate toy_sha2 countable_serde m = Ok tt ∧ map segment_id (manifest_segments (content m)) = [digest_a; digest_b].
Proof.
  assert (validate_components sample_fields = Ok tt) as Ev by (vm_compute; reflexivity).
  assert (∃ id, sample_new = Ok {| content := sample_fields; manifest_id := id |}) as [id E].
  { unfold sample_new, manifest_new, manifest_new_inner. fold sample_fields. rewrite Ev. by eexists. }
  exists {| content := sample_fields; manifest_id := id |}. split; [exact E|]. split; [|vm_compute; reflexivity].
  apply (@manifest_constructed_valid toy_sha2 countable_serde 1 None 100 5 6 later_first 0). left. exact E.
Defined.

#[local] Definition toy_manifest : Manifest :=
  let fields := {| manifest_format_version := 3; application_format := None; generation := 1; manifest_parent := None; manifest_created_at := 0;
    manifest_durable_sequence := 0; wal_start_sequence := 1; manifest_segments := [] |} in
  {| content := fields; manifest_id := @sha256_hex toy_sha2 (@to_vec _ countable_serde fields) |}.
Lemma manifest_identity_binds_witness :
  toy_manifest = toy_manifest ∨ @collide toy_sha2 (@bytes_without_digest countable_serde (content toy_manifest)) (@bytes_without_digest countable_serde (content toy_manifest)).
Proof.
  apply (@manifest_identity_binds toy_sha2 countable_serde toy_sha2_laws countable_serde_laws toy_manifest toy_manifest); [vm_compute; reflexivity..|reflexivity].
Defined.
