(* ===== verification/Reader.v ===== *)
(** The projected reader ([rrd-lsm]: segment/reader.rs, segment/output.rs and
    [Database::begin_projected_read]).

    A projected read captures a memtable and the segments that can hold visible keys, merges
    them through a heap of run heads, newest version first, drops deleted keys, and hands out
    batches of copied columns.  Every version looked at, page requested and byte copied is
    charged to a budget before the work is done.

    The meter is the state of the reader's monad.  This file has the definitions; Cursors
    has the theorems. *)

From S2P Require Import Prelude Machine BTree LsmError Batch RecoveryBudget Wal Memtable Transaction Versions SegmentFormat Segment SegmentFile PointIndex Database.
Open Scope Z_scope.

(** * Requests *)

(** lsm/segment/reader.rs:18-28 the default limits *)
Definition DEFAULT_MAX_ACTIVE_READ_VIEWS : Z := 1024.
Definition DEFAULT_MAX_PROJECTED_READ_RANGES : Z := 1024.
Definition DEFAULT_MAX_PROJECTED_READ_RUNS : Z := 4096.
Definition DEFAULT_MAX_PINNED_READ_BYTES : Z := 4 * 1024 * 1024 * 1024.
Definition DEFAULT_MAX_VERSIONS_EXAMINED : Z := 16000000.
Definition DEFAULT_MAX_PAGE_REQUESTS : Z := 4000000.
Definition DEFAULT_MAX_PAGE_LOGICAL_BYTES : Z := 8 * 1024 * 1024 * 1024.
Definition DEFAULT_MAX_OUTPUT_ROWS : Z := 1000000.
Definition DEFAULT_MAX_OUTPUT_BUFFER_BYTES : Z := 1024 * 1024 * 1024.
Definition DEFAULT_MAX_BATCH_ROWS : Z := 8192.
Definition DEFAULT_MAX_BATCH_ALLOCATED_BYTES : Z := 64 * 1024 * 1024.

(** lsm/segment/reader.rs:72-77 ProjectedReadProjection *)
Inductive ProjectedReadProjection := Key | KeyValue.
#[export] Instance projection_eq_dec : EqDecision ProjectedReadProjection.
Proof. solve_decision. Defined.

(** lsm/segment/reader.rs:79-94 ProjectedReadBudget *)
Record ProjectedReadBudget := {
  max_active_views : Z; max_ranges : Z; max_runs : Z; max_pinned_bytes : Z; max_versions_examined : Z;
  max_page_requests : Z; max_page_logical_bytes : Z; max_output_rows : Z; max_output_buffer_bytes : Z;
  max_batch_rows : Z; max_batch_allocated_bytes : Z
}.

(** lsm/segment/reader.rs:96-112 Default for ProjectedReadBudget *)
Definition ProjectedReadBudget_default : ProjectedReadBudget :=
  {| max_active_views := DEFAULT_MAX_ACTIVE_READ_VIEWS; max_ranges := DEFAULT_MAX_PROJECTED_READ_RANGES;
     max_runs := DEFAULT_MAX_PROJECTED_READ_RUNS; max_pinned_bytes := DEFAULT_MAX_PINNED_READ_BYTES;
     max_versions_examined := DEFAULT_MAX_VERSIONS_EXAMINED; max_page_requests := DEFAULT_MAX_PAGE_REQUESTS;
     max_page_logical_bytes := DEFAULT_MAX_PAGE_LOGICAL_BYTES; max_output_rows := DEFAULT_MAX_OUTPUT_ROWS;
     max_output_buffer_bytes := DEFAULT_MAX_OUTPUT_BUFFER_BYTES; max_batch_rows := DEFAULT_MAX_BATCH_ROWS;
     max_batch_allocated_bytes := DEFAULT_MAX_BATCH_ALLOCATED_BYTES |}.

(** lsm/segment/reader.rs:114-153 ProjectedReadBudget::validate *)
Definition read_budget_validate (self : ProjectedReadBudget) : result Error ProjectedReadBudget :=
  do? try_each (λ '(resource, limit), if limit =? 0 then Err (InvalidProjectedReadBudget resource) else Ok tt)
    [(ActiveViews, max_active_views self); (Ranges, max_ranges self); (Runs, max_runs self);
     (BatchRows, max_batch_rows self); (BatchAllocatedBytes, max_batch_allocated_bytes self)] in
  do? try_each (λ '(resource, limit), if limit =? 0 then Err (InvalidProjectedReadBudget resource) else Ok tt)
    [(PinnedBytes, max_pinned_bytes self); (VersionsExamined, max_versions_examined self);
     (PageRequests, max_page_requests self); (PageLogicalBytes, max_page_logical_bytes self);
     (LsmError.OutputRows, max_output_rows self); (OutputBufferBytes, max_output_buffer_bytes self)] in
  Ok self.

(** lsm/segment/reader.rs:1770-1779 check_limit *)
Definition check_limit (resource : ProjectedReadResource) (limit observed : Z) : result Error unit :=
  if limit <? observed then Err (ProjectedReadLimit resource limit observed) else Ok tt.
Lemma check_limit_le r l o x : check_limit r l o = Ok x → o ≤ l.
Proof. unfold check_limit. by destruct (Z.ltb_spec l o). Qed.

(** lsm/segment/reader.rs:1781-1784 checked_add *)
Definition counted (left right : Z) (name : string) : result Error Z :=
  ok_or (checked_add 64 left right) (InvalidProjectedRead (name +:+ " overflow")).

(** lsm/segment/reader.rs:155-161 ProjectedReadRequest *)
Record ProjectedReadRequest := {
  request_ranges : list ProjectedReadRange; request_projection : ProjectedReadProjection;
  request_snapshot : Z; request_budget : ProjectedReadBudget
}.

(** lsm/segment/reader.rs:163-199 ProjectedReadRequest::validate *)
Definition request_validate (self : ProjectedReadRequest) (current_sequence : Z) : result Error unit :=
  let? _ := read_budget_validate (request_budget self) in
  if len (request_ranges self) =? 0
  then Err (InvalidProjectedRead "projected read requires at least one half-open range")
  else
    do? check_limit Ranges (max_ranges (request_budget self)) (len (request_ranges self)) in
    do? try_each range_validate (request_ranges self) in
    do? try_each (λ '(a, b),
      let? previous_end := ok_or (range_end a)
        (InvalidProjectedRead "an unbounded projected range must be the final range") in
      if ltb (range_start b) previous_end
      then Err (InvalidProjectedRead "projected read ranges must be sorted and disjoint") else Ok tt)
      (windows2 (request_ranges self)) in
    if current_sequence <? request_snapshot self
    then Err (InvalidProjectedRead ("snapshot sequence " +:+ pretty (request_snapshot self)
      +:+ " is newer than current sequence " +:+ pretty current_sequence))
    else Ok tt.

(** * The output pool *)

(** lsm/segment/output.rs:14-20 ProjectedOutputStats *)
Record ProjectedOutputStats := {
  limit_bytes : Z; reserved_bytes : Z; peak_reserved_bytes : Z; denied_batches : Z
}.

(** lsm/segment/output.rs:29-34 ProjectedOutputMemory::new *)
Definition output_new (limit : Z) : ProjectedOutputStats :=
  {| limit_bytes := limit; reserved_bytes := 0; peak_reserved_bytes := 0; denied_batches := 0 |}.

(** lsm/segment/output.rs:43-64 ProjectedOutputMemory::reserve; the reservation is its bytes. *)
Definition reserve (state : ProjectedOutputStats) (bytes : Z) : ProjectedOutputStats * result Error Z :=
  if limit_bytes state - reserved_bytes state <? bytes
  then ({| limit_bytes := limit_bytes state; reserved_bytes := reserved_bytes state;
           peak_reserved_bytes := peak_reserved_bytes state;
           denied_batches := saturating_add 64 (denied_batches state) 1 |},
        Err (ProjectedReadLimit RetainedOutputBytes (limit_bytes state) (saturating_add 64 (reserved_bytes state) bytes)))
  else
    let reserved := reserved_bytes state + bytes in
    ({| limit_bytes := limit_bytes state; reserved_bytes := reserved;
        peak_reserved_bytes := Z.max (peak_reserved_bytes state) reserved; denied_batches := denied_batches state |}, Ok bytes).

(** lsm/segment/output.rs:111-120 Drop for OutputReservation, and of the allocations that took
    over its bytes *)
Definition unreserve (state : ProjectedOutputStats) (bytes : Z) : ProjectedOutputStats :=
  {| limit_bytes := limit_bytes state; reserved_bytes := reserved_bytes state - bytes;
     peak_reserved_bytes := peak_reserved_bytes state; denied_batches := denied_batches state |}.

(** lsm/segment/output.rs:75-108 OutputReservation::wrap: what is left of the reservation; a
    buffer of [from_len_zeroed] has the capacity of its length. *)
Definition wrap (reservation : Z) (buffer : list byte) : result Error (Z * list byte) :=
  if reservation <? len buffer
  then Err (InvalidProjectedRead "projected output allocation differs from its reservation")
  else Ok (reservation - len buffer, buffer).

(** * The meter *)

(** lsm/segment/reader.rs:237-246 ProjectedReadOutcome *)
Inductive ProjectedReadOutcome := Creating | Running | Completed | Cancelled | Failed.
#[export] Instance ProjectedReadOutcome_eq_dec : EqDecision ProjectedReadOutcome.
Proof. solve_decision. Defined.

(** lsm/segment/reader.rs:248-288 ProjectedReadEvidence without the counters of cache and I/O *)
Record ProjectedReadEvidence := {
  manifest_digest : string; selected_row_groups : Z; versions_counted : Z; page_requests : Z; page_logical_bytes : Z;
  kind_requests : PageKind → Z; emitted_rows : Z; emitted_key_bytes : Z; emitted_value_bytes : Z;
  emitted_buffer_bytes : Z; emitted_batches : Z; peak_batch_rows : Z; peak_batch_allocated_bytes : Z;
  outcome : ProjectedReadOutcome
}.

(** lsm/segment/reader.rs:1582-1586 ProjectedReadMeter, with the output pool it shares *)
Record ProjectedReadMeter := {
  evidence : ProjectedReadEvidence; budget : ProjectedReadBudget; output_memory : ProjectedOutputStats
}.

(** The monad of the reader: a computation that may fail keeps what it has metered. *)
Definition metered (A : Type) : Type := ProjectedReadMeter → ProjectedReadMeter * result Error A.
Definition mret {A} (x : A) : metered A := λ m, (m, Ok x).
Definition mfail {A} (e : Error) : metered A := λ m, (m, Err e).
Definition lift {A} (r : result Error A) : metered A := λ m, (m, r).
Definition mbind {A B} (e : metered A) (k : A → metered B) : metered B :=
  λ m, match e m with (m, Ok x) => k x m | (m, Err err) => (m, Err err) end.
Notation "'let*' x ':=' e 'in' k" := (mbind e (λ x, k)) (at level 10, x pattern, e at level 100, k at level 200) : rust_scope.

Definition set_evidence (m : ProjectedReadMeter) (e : ProjectedReadEvidence) : ProjectedReadMeter :=
  {| evidence := e; budget := budget m; output_memory := output_memory m |}.
Definition set_output (m : ProjectedReadMeter) (o : ProjectedOutputStats) : ProjectedReadMeter :=
  {| evidence := evidence m; budget := budget m; output_memory := o |}.
Definition set_outcome (m : ProjectedReadMeter) (o : ProjectedReadOutcome) : ProjectedReadMeter :=
  let e := evidence m in
  set_evidence m {| manifest_digest := manifest_digest e; selected_row_groups := selected_row_groups e;
    versions_counted := versions_counted e; page_requests := page_requests e; page_logical_bytes := page_logical_bytes e;
    kind_requests := kind_requests e; emitted_rows := emitted_rows e; emitted_key_bytes := emitted_key_bytes e;
    emitted_value_bytes := emitted_value_bytes e; emitted_buffer_bytes := emitted_buffer_bytes e;
    emitted_batches := emitted_batches e; peak_batch_rows := peak_batch_rows e;
    peak_batch_allocated_bytes := peak_batch_allocated_bytes e; outcome := o |}.

(** lsm/segment/reader.rs:1589-1602 ProjectedReadMeter::record_versions *)
Definition record_versions (count : Z) : metered unit := λ m,
  let e := evidence m in
  match (let? observed := counted (versions_counted e) count "projected version counter" in
         do? check_limit VersionsExamined (max_versions_examined (budget m)) observed in Ok observed) with
  | Err err => (m, Err err)
  | Ok observed =>
    (set_evidence m {| manifest_digest := manifest_digest e; selected_row_groups := selected_row_groups e;
       versions_counted := observed; page_requests := page_requests e; page_logical_bytes := page_logical_bytes e;
       kind_requests := kind_requests e; emitted_rows := emitted_rows e; emitted_key_bytes := emitted_key_bytes e;
       emitted_value_bytes := emitted_value_bytes e; emitted_buffer_bytes := emitted_buffer_bytes e;
       emitted_batches := emitted_batches e; peak_batch_rows := peak_batch_rows e;
       peak_batch_allocated_bytes := peak_batch_allocated_bytes e; outcome := outcome e |}, Ok tt)
  end.

(** lsm/segment/reader.rs:1604-1611 ProjectedReadMeter::record_selected_row_group *)
Definition record_selected_row_group : metered unit := λ m,
  let e := evidence m in
  match counted (selected_row_groups e) 1 "selected row-group counter" with
  | Err err => (m, Err err)
  | Ok n =>
    (set_evidence m {| manifest_digest := manifest_digest e; selected_row_groups := n;
       versions_counted := versions_counted e; page_requests := page_requests e; page_logical_bytes := page_logical_bytes e;
       kind_requests := kind_requests e; emitted_rows := emitted_rows e; emitted_key_bytes := emitted_key_bytes e;
       emitted_value_bytes := emitted_value_bytes e; emitted_buffer_bytes := emitted_buffer_bytes e;
       emitted_batches := emitted_batches e; peak_batch_rows := peak_batch_rows e;
       peak_batch_allocated_bytes := peak_batch_allocated_bytes e; outcome := outcome e |}, Ok tt)
  end.

(** lsm/segment/reader.rs:1613-1642 ProjectedReadMeter::request_page *)
Definition request_page (kind : PageKind) (logical_bytes : Z) : metered unit := λ m,
  let e := evidence m in
  match (let? requests := counted (page_requests e) 1 "page request counter" in
         do? check_limit PageRequests (max_page_requests (budget m)) requests in
         let? bytes := counted (page_logical_bytes e) logical_bytes "page logical-byte counter" in
         do? check_limit PageLogicalBytes (max_page_logical_bytes (budget m)) bytes in Ok (requests, bytes)) with
  | Err err => (m, Err err)
  | Ok (requests, bytes) =>
    let paid kinds := set_evidence m {| manifest_digest := manifest_digest e; selected_row_groups := selected_row_groups e;
       versions_counted := versions_counted e; page_requests := requests; page_logical_bytes := bytes;
       kind_requests := kinds; emitted_rows := emitted_rows e; emitted_key_bytes := emitted_key_bytes e;
       emitted_value_bytes := emitted_value_bytes e; emitted_buffer_bytes := emitted_buffer_bytes e;
       emitted_batches := emitted_batches e; peak_batch_rows := peak_batch_rows e;
       peak_batch_allocated_bytes := peak_batch_allocated_bytes e; outcome := outcome e |} in
    match counted (kind_requests e kind) 1 "page-family request counter" with
    | Err err => (paid (kind_requests e), Err err)
    | Ok n => (paid (λ k, if decide (k = kind) then n else kind_requests e k), Ok tt)
    end
  end.

(** lsm/segment/reader.rs:1718-1737 ProjectedReadMeter::record_batch_allocation, the limit and
    the peak *)
Definition record_batch_allocation (bytes : Z) : metered unit := λ m,
  let e := evidence m in
  match check_limit BatchAllocatedBytes (max_batch_allocated_bytes (budget m)) bytes with
  | Err err => (m, Err err)
  | Ok _ =>
    (set_evidence m {| manifest_digest := manifest_digest e; selected_row_groups := selected_row_groups e;
       versions_counted := versions_counted e; page_requests := page_requests e; page_logical_bytes := page_logical_bytes e;
       kind_requests := kind_requests e; emitted_rows := emitted_rows e; emitted_key_bytes := emitted_key_bytes e;
       emitted_value_bytes := emitted_value_bytes e; emitted_buffer_bytes := emitted_buffer_bytes e;
       emitted_batches := emitted_batches e; peak_batch_rows := peak_batch_rows e;
       peak_batch_allocated_bytes := Z.max (peak_batch_allocated_bytes e) bytes; outcome := outcome e |}, Ok tt)
  end.

(** lsm/segment/reader.rs:1739-1767 ProjectedReadMeter::record_emitted_batch; when a counter
    overflows, the ones before it are not kept. *)
Definition record_emitted_batch (rows key_bytes value_bytes buffer_bytes : Z) : metered unit := λ m,
  let e := evidence m in
  match (let? r := counted (emitted_rows e) rows "emitted row counter" in
         let? k := counted (emitted_key_bytes e) key_bytes "emitted key-byte counter" in
         let? v := counted (emitted_value_bytes e) value_bytes "emitted value-byte counter" in
         let? b := counted (emitted_buffer_bytes e) buffer_bytes "emitted buffer-byte counter" in
         let? n := counted (emitted_batches e) 1 "emitted batch counter" in Ok (r, k, v, b, n)) with
  | Err err => (m, Err err)
  | Ok (r, k, v, b, n) =>
    (set_evidence m {| manifest_digest := manifest_digest e; selected_row_groups := selected_row_groups e;
       versions_counted := versions_counted e; page_requests := page_requests e; page_logical_bytes := page_logical_bytes e;
       kind_requests := kind_requests e; emitted_rows := r; emitted_key_bytes := k; emitted_value_bytes := v;
       emitted_buffer_bytes := b; emitted_batches := n; peak_batch_rows := Z.max (peak_batch_rows e) rows;
       peak_batch_allocated_bytes := peak_batch_allocated_bytes e; outcome := outcome e |}, Ok tt)
  end.

(** * Cursors *)

(** lsm/segment/reader.rs:1534-1543 ProjectedLocation *)
Inductive ProjectedLocation :=
| InMemtable
| InSegment (row_group row : nat) (value_start value_end : option Z).
(** lsm/segment/reader.rs:1527-1532 ProjectedEntry *)
Record ProjectedEntry := { entry_key : key; entry_sequence : Z; entry_location : ProjectedLocation }.
(** lsm/segment/reader.rs:1545-1551 PreparedRow *)
Record PreparedRow := { prepared_run : nat; prepared_key : key; value_len : Z; prepared_location : ProjectedLocation }.
(** lsm/segment/reader.rs:1553-1559 RawSegmentRow *)
Record RawSegmentRow := { raw_key : key; raw_sequence : Z; raw_group : nat; raw_row : nat }.

(** lsm/segment/reader.rs:1145-1151 MemtableProjectedCursor *)
Record MemtableProjectedCursor := {
  mc_table : Memtable; mc_ranges : list ProjectedReadRange; mc_read_sequence : Z; mc_after : option key
}.

(** lsm/segment/reader.rs:1154-1170 MemtableProjectedCursor::next_candidate; the inner [None] of
    the seek is the panic of an inverted range, which a valid request does not have. *)
Definition memtable_next_candidate (self : MemtableProjectedCursor)
    : metered (MemtableProjectedCursor * option ProjectedEntry) :=
  let* seek := lift (match seek_visible_after (mc_table self) (mc_ranges self) (mc_after self) (mc_read_sequence self) with
    | Some seek => seek
    | None => Err (InvalidProjectedRead "inverted range")
    end) in
  let* _ := record_versions (versions_examined seek) in
  match next seek with
  | None => mret (self, None)
  | Some (k, s) =>
    mret ({| mc_table := mc_table self; mc_ranges := mc_ranges self; mc_read_sequence := mc_read_sequence self; mc_after := Some k |},
          Some {| entry_key := k; entry_sequence := s; entry_location := InMemtable |})
  end.

(** lsm/segment/reader.rs:1172-1199 MemtableProjectedCursor::prepare_value *)
Definition memtable_prepare_value (self : MemtableProjectedCursor) (entry : ProjectedEntry) (projection : ProjectedReadProjection)
    : result Error (option PreparedRow) :=
  match get_version (mc_table self) (entry_key entry) (mc_read_sequence self) with
  | Some version =>
    if sequence version =? entry_sequence entry then
      match value version with
      | None => Ok None
      | Some v =>
        Ok (Some {| prepared_run := 0; prepared_key := entry_key entry;
                    value_len := if decide (projection = KeyValue) then len v else 0; prepared_location := InMemtable |})
      end
    else Err (InvalidProjectedRead "captured memtable no longer contains its projected version")
  | None => Err (InvalidProjectedRead "captured memtable no longer contains its projected version")
  end.

(** lsm/segment/reader.rs:1201-1218 MemtableProjectedCursor::copy_value *)
Definition memtable_copy_value (self : MemtableProjectedCursor) (r : PreparedRow) : result Error (list byte) :=
  match get_version (mc_table self) (prepared_key r) (mc_read_sequence self) ≫= value with
  | Some v => if len v =? value_len r then Ok v else Err (InvalidProjectedRead "captured memtable value differs from its projected length")
  | None => Err (InvalidProjectedRead "captured memtable value differs from its projected length")
  end.

(** lsm/segment/reader.rs:1221-1237 SegmentProjectedCursor *)
Record SegmentProjectedCursor := {
  sc_segment : Segment; sc_ranges : list ProjectedReadRange; sc_read_sequence : Z; sc_group : nat; sc_row : nat;
  sc_spine : option KeySpine; charged_validity : option nat; charged_offsets : option nat; charged_data : option nat;
  sc_lookahead : option RawSegmentRow
}.

Definition sc_at (c : SegmentProjectedCursor) (group row : nat) (s : option KeySpine) : SegmentProjectedCursor :=
  {| sc_segment := sc_segment c; sc_ranges := sc_ranges c; sc_read_sequence := sc_read_sequence c; sc_group := group; sc_row := row;
     sc_spine := s; charged_validity := charged_validity c; charged_offsets := charged_offsets c; charged_data := charged_data c;
     sc_lookahead := sc_lookahead c |}.
Definition sc_ahead (c : SegmentProjectedCursor) (r : option RawSegmentRow) : SegmentProjectedCursor :=
  {| sc_segment := sc_segment c; sc_ranges := sc_ranges c; sc_read_sequence := sc_read_sequence c; sc_group := sc_group c;
     sc_row := sc_row c; sc_spine := sc_spine c; charged_validity := charged_validity c; charged_offsets := charged_offsets c;
     charged_data := charged_data c; sc_lookahead := r |}.
Definition sc_charge (c : SegmentProjectedCursor) (validity offsets data : option nat) : SegmentProjectedCursor :=
  {| sc_segment := sc_segment c; sc_ranges := sc_ranges c; sc_read_sequence := sc_read_sequence c; sc_group := sc_group c;
     sc_row := sc_row c; sc_spine := sc_spine c; charged_validity := validity; charged_offsets := offsets;
     charged_data := data; sc_lookahead := sc_lookahead c |}.

(** lsm/segment/reader.rs:1240-1262 SegmentProjectedCursor::new; a request has a first range. *)
Definition segment_cursor_new (segment : Segment) (ranges : list ProjectedReadRange) (read_sequence : Z) : SegmentProjectedCursor :=
  let start := match ranges with range :: _ => range_start range | [] => [] end in
  {| sc_segment := segment; sc_ranges := ranges; sc_read_sequence := read_sequence;
     sc_group := partition_point (λ group, ltb (group_last_key group) start) (row_groups segment); sc_row := 0;
     sc_spine := None; charged_validity := None; charged_offsets := None; charged_data := None; sc_lookahead := None |}.

(** lsm/segment/reader.rs:1502-1524 Segment::load_metered_page without the counters of cache and
    I/O *)
Definition load_metered_page (self : Segment) (group : nat) (kind : PageKind) (charge_bytes : bool) : metered (list byte) :=
  let* descriptor := lift (ok_or (row_groups self !! group) (InvalidSegment "row-group index is outside the segment")) in
  let* _ := request_page kind (if charge_bytes then logical_bytes (page descriptor kind) else 0) in
  lift (load_page self group kind).

(** lsm/segment/reader.rs:1479-1490 Segment::load_projected_value_page *)
Definition load_projected_value_page (self : Segment) (charged : option nat) (group : nat) (kind : PageKind)
    : metered (option nat * list byte) :=
  let* bytes := load_metered_page self group kind (negb (bool_decide (charged = Some group))) in
  mret (Some group, bytes).

(** lsm/segment/reader.rs:1456-1477 Segment::load_projected_key_spine, with load_projected_page
    (1492-1500) *)
Definition load_projected_key_spine (self : Segment) (group : nat) : metered KeySpine :=
  let* offsets := load_metered_page self group KeyOffsets true in
  let* data := load_metered_page self group KeyData true in
  let* sequences := load_metered_page self group SequenceValues true in
  mret {| spine_offsets := offsets; spine_data := data; spine_sequences := sequences |}.

Definition in_read_ranges (ranges : list ProjectedReadRange) (k : key) : bool := existsb (λ range, range_contains range k) ranges.

(** Where a loop has used up the passes it can have; no theorem meets it. *)
Definition exhausted {A} : metered A := mfail (InvalidProjectedRead "loop bound").

(** lsm/segment/reader.rs:1309-1358 SegmentProjectedCursor::read_row; every pass takes a row or
    a group. *)
Fixpoint read_row_loop (fuel : nat) (self : SegmentProjectedCursor)
    : metered (SegmentProjectedCursor * option RawSegmentRow) :=
  match fuel with
  | O => exhausted
  | S fuel =>
    match row_groups (sc_segment self) !! sc_group self with
    | None => mret (self, None)
    | Some group =>
      let selected := existsb (λ range, range_overlaps range (group_first_key group) (group_last_key group)) (sc_ranges self) in
      let sequence_selected := statistic_min (page group SequenceValues) <=? sc_read_sequence self in
      if (negb selected || negb sequence_selected)%bool then read_row_loop fuel (sc_at self (S (sc_group self)) 0 None)
      else
        let* (self, s) :=
          match sc_spine self with
          | Some s => mret (self, s)
          | None =>
            let* s := load_projected_key_spine (sc_segment self) (sc_group self) in
            let* _ := record_selected_row_group in
            mret (sc_at self (sc_group self) 0 (Some s), s)
          end in
        if group_row_count group <=? Z.of_nat (sc_row self) then read_row_loop fuel (sc_at self (S (sc_group self)) 0 None)
        else
          let* _ := record_versions 1 in
          let row := sc_row self in
          let self := sc_at self (sc_group self) (S row) (Some s) in
          let* k := lift (key_at s row) in
          if negb (in_read_ranges (sc_ranges self) k) then read_row_loop fuel self
          else
            let* seq := lift (sequence_at s row) in
            mret (self, Some {| raw_key := k; raw_sequence := seq; raw_group := sc_group self; raw_row := row |})
    end
  end.
Definition segment_passes (segment : Segment) : nat :=
  S (list_sum (map (λ g, S (Z.to_nat (group_row_count g))) (row_groups segment))).
Definition read_row (self : SegmentProjectedCursor) : metered (SegmentProjectedCursor * option RawSegmentRow) :=
  read_row_loop (segment_passes (sc_segment self)) self.

(** lsm/segment/reader.rs:1299-1307 SegmentProjectedCursor::take_or_read_row *)
Definition take_or_read_row (self : SegmentProjectedCursor) : metered (SegmentProjectedCursor * option RawSegmentRow) :=
  match sc_lookahead self with
  | Some r => mret (sc_ahead self None, Some r)
  | None => read_row self
  end.

(** lsm/segment/reader.rs:1271-1284 SegmentProjectedCursor::next_candidate, the rows that follow
    with the same key *)
Fixpoint same_key_loop (fuel : nat) (self : SegmentProjectedCursor) (k : key) (best : option RawSegmentRow)
    : metered (SegmentProjectedCursor * option RawSegmentRow) :=
  match fuel with
  | O => exhausted
  | S fuel =>
    let* (self, next) := read_row self in
    match next with
    | None => mret (self, best)
    | Some next =>
      if negb (bool_decide (raw_key next = k)) then mret (sc_ahead self (Some next), best)
      else
        same_key_loop fuel self k
          (if ((raw_sequence next <=? sc_read_sequence self)
               && match best with None => true | Some current => raw_sequence current <? raw_sequence next end)%bool
           then Some next else best)
    end
  end.

(** lsm/segment/reader.rs:1264-1297 SegmentProjectedCursor::next_candidate *)
Fixpoint next_candidate_loop (fuel : nat) (self : SegmentProjectedCursor)
    : metered (SegmentProjectedCursor * option ProjectedEntry) :=
  match fuel with
  | O => exhausted
  | S fuel =>
    let* (self, first) := take_or_read_row self in
    match first with
    | None => mret (self, None)
    | Some first =>
      let k := raw_key first in
      let* (self, best) := same_key_loop (segment_passes (sc_segment self)) self k
        (if raw_sequence first <=? sc_read_sequence self then Some first else None) in
      match best with
      | Some best =>
        mret (self, Some {| entry_key := k; entry_sequence := raw_sequence best;
                            entry_location := InSegment (raw_group best) (raw_row best) None None |})
      | None => next_candidate_loop fuel self
      end
    end
  end.
Definition segment_next_candidate (self : SegmentProjectedCursor) : metered (SegmentProjectedCursor * option ProjectedEntry) :=
  next_candidate_loop (segment_passes (sc_segment self)) self.

(** lsm/segment/reader.rs:1360-1414 SegmentProjectedCursor::prepare_value *)
Definition segment_prepare_value (self : SegmentProjectedCursor) (entry : ProjectedEntry) (projection : ProjectedReadProjection)
    : metered (SegmentProjectedCursor * option PreparedRow) :=
  match entry_location entry with
  | InMemtable => mfail (InvalidProjectedRead "segment cursor received a memtable locator")
  | InSegment group row start end_ =>
    let* (charged, validity) := load_projected_value_page (sc_segment self) (charged_validity self) group ValueValidity in
    let self := sc_charge self charged (charged_offsets self) (charged_data self) in
    let* valid := lift (valid_at validity row) in
    if negb valid then mret (self, None)
    else if decide (projection = KeyValue) then
      let* (charged, offsets) := load_projected_value_page (sc_segment self) (charged_offsets self) group ValueOffsets in
      let self := sc_charge self (charged_validity self) charged (charged_data self) in
      let* start := lift (offset_at offsets row) in
      let* end_ := lift (offset_at offsets (row + 1)) in
      if end_ <? start then mfail (InvalidSegment "projected value offsets are inverted")
      else mret (self, Some {| prepared_run := 0; prepared_key := entry_key entry; value_len := end_ - start;
                               prepared_location := InSegment group row (Some start) (Some end_) |})
    else mret (self, Some {| prepared_run := 0; prepared_key := entry_key entry; value_len := 0;
                             prepared_location := InSegment group row start end_ |})
  end.

(** lsm/segment/reader.rs:1416-1452 SegmentProjectedCursor::copy_value *)
Definition segment_copy_value (self : SegmentProjectedCursor) (r : PreparedRow) : metered (SegmentProjectedCursor * list byte) :=
  match prepared_location r with
  | InSegment group _ (Some start) (Some end_) =>
    let* (charged, data) := load_projected_value_page (sc_segment self) (charged_data self) group ValueData in
    let self := sc_charge self (charged_validity self) (charged_offsets self) charged in
    let* v := lift (ok_or (slice_get data start end_) (InvalidSegment "projected value range is absent")) in
    if negb (len v =? value_len r) then mfail (InvalidSegment "projected value length changed after authenticated offset read")
    else mret (self, v)
  | _ => mfail (InvalidProjectedRead "projected segment value has no authenticated byte range")
  end.

(** lsm/segment/reader.rs:1106-1110 RunCursor *)
Inductive RunCursor := MemtableRun (c : MemtableProjectedCursor) | SegmentRun (c : SegmentProjectedCursor).
(** lsm/segment/reader.rs:1113-1118 RunCursor::next_candidate *)
Definition run_next_candidate (self : RunCursor) : metered (RunCursor * option ProjectedEntry) :=
  match self with
  | MemtableRun c => let* (c, e) := memtable_next_candidate c in mret (MemtableRun c, e)
  | SegmentRun c => let* (c, e) := segment_next_candidate c in mret (SegmentRun c, e)
  end.
(** lsm/segment/reader.rs:1120-1130 RunCursor::prepare_value *)
Definition run_prepare_value (self : RunCursor) (entry : ProjectedEntry) (projection : ProjectedReadProjection)
    : metered (RunCursor * option PreparedRow) :=
  match self with
  | MemtableRun c => let* r := lift (memtable_prepare_value c entry projection) in mret (MemtableRun c, r)
  | SegmentRun c => let* (c, r) := segment_prepare_value c entry projection in mret (SegmentRun c, r)
  end.
(** lsm/segment/reader.rs:1132-1142 RunCursor::copy_value *)
Definition run_copy_value (self : RunCursor) (r : PreparedRow) : metered (RunCursor * list byte) :=
  match self with
  | MemtableRun c => let* v := lift (memtable_copy_value c r) in mret (MemtableRun c, v)
  | SegmentRun c => let* (c, v) := segment_copy_value c r in mret (SegmentRun c, v)
  end.

(** * The stream *)

(** lsm/segment/reader.rs:1561-1574 HeapItem with its order: the least key on top, the earlier
    run of equal keys first. *)
Definition HeapItem : Type := key * nat.
(** lsm/segment/reader.rs:1567-1574 Ord for HeapItem *)
Definition item_cmp (a b : HeapItem) : comparison := then_ (cmp a.1 b.1) (Nat.compare a.2 b.2).
(** [BinaryHeap]: its items in the order in which it returns them. *)
Fixpoint heap_push (item : HeapItem) (heap : list HeapItem) : list HeapItem :=
  match heap with
  | [] => [item]
  | top :: rest => match item_cmp item top with Gt => top :: heap_push item rest | _ => item :: heap end
  end.

(** lsm/segment/reader.rs:690-704 ProjectedReadStream; its meter is the state of the monad. *)
Record ProjectedReadStream := {
  st_projection : ProjectedReadProjection; st_cursors : list RunCursor; st_heads : list (option ProjectedEntry);
  st_heap : list HeapItem; st_unopened : list HeapItem; st_pending : option PreparedRow; st_initialized : bool;
  st_terminal : bool
}.
Definition st_runs (st : ProjectedReadStream) (cursors : list RunCursor) (heads : list (option ProjectedEntry))
    (heap unopened : list HeapItem) : ProjectedReadStream :=
  {| st_projection := st_projection st; st_cursors := cursors; st_heads := heads; st_heap := heap; st_unopened := unopened;
     st_pending := st_pending st; st_initialized := st_initialized st; st_terminal := st_terminal st |}.
Definition st_hold (st : ProjectedReadStream) (r : option PreparedRow) : ProjectedReadStream :=
  {| st_projection := st_projection st; st_cursors := st_cursors st; st_heads := st_heads st; st_heap := st_heap st;
     st_unopened := st_unopened st; st_pending := r; st_initialized := st_initialized st; st_terminal := st_terminal st |}.

(** lsm/segment/reader.rs:681-688 ReadView *)
Record ReadView := {
  view_sequence : Z; view_manifest : string; view_memtable : Memtable; view_segments : list Segment
}.

(** lsm/segment/reader.rs:706-764 ProjectedReadStream::new *)
Definition stream_new (view : ReadView) (ranges : list ProjectedReadRange) (projection : ProjectedReadProjection)
    : ProjectedReadStream :=
  let cursors :=
    (if version_count (view_memtable view) =? 0 then []
     else [MemtableRun {| mc_table := view_memtable view; mc_ranges := ranges; mc_read_sequence := view_sequence view; mc_after := None |}])
    ++ map (λ segment, SegmentRun (segment_cursor_new segment ranges (view_sequence view))) (view_segments view) in
  {| st_projection := projection; st_cursors := cursors; st_heads := map (λ _, None) cursors; st_heap := []; st_unopened := [];
     st_pending := None; st_initialized := false; st_terminal := false |}.
(** lsm/segment/reader.rs:739-749 ProjectedReadStream::new, the meter it starts with *)
Definition meter_new (view : ReadView) (limits : ProjectedReadBudget) (output : ProjectedOutputStats) : ProjectedReadMeter :=
  {| evidence := {| manifest_digest := view_manifest view; selected_row_groups := 0; versions_counted := 0; page_requests := 0;
       page_logical_bytes := 0; kind_requests := λ _, 0; emitted_rows := 0; emitted_key_bytes := 0; emitted_value_bytes := 0;
       emitted_buffer_bytes := 0; emitted_batches := 0; peak_batch_rows := 0; peak_batch_allocated_bytes := 0; outcome := Creating |};
     budget := limits; output_memory := output |}.

(** lsm/segment/reader.rs:924-934 ProjectedReadStream::advance *)
Definition advance (self : ProjectedReadStream) (run : nat) : metered ProjectedReadStream :=
  match st_cursors self !! run with
  | None => mfail (InvalidProjectedRead "run index")
  | Some cursor =>
    let* (cursor, entry) := run_next_candidate cursor in
    let cursors := <[run := cursor]> (st_cursors self) in
    match entry with
    | Some entry =>
      mret (st_runs self cursors (<[run := Some entry]> (st_heads self)) (heap_push (entry_key entry, run) (st_heap self)) (st_unopened self))
    | None => mret (st_runs self cursors (st_heads self) (st_heap self) (st_unopened self))
    end
  end.

(** lsm/segment/reader.rs:895-905 ProjectedReadStream::initialize, one run *)
Definition initialize_run (self : ProjectedReadStream) (run : nat) : metered ProjectedReadStream :=
  match st_cursors self !! run with
  | Some (MemtableRun _) => advance self run
  | Some (SegmentRun c) =>
    mret (st_runs self (st_cursors self) (st_heads self) (st_heap self)
      (heap_push (first_key (descriptor (sc_segment c)), run) (st_unopened self)))
  | None => mret self
  end.
(** A loop over a list whose body may fail. *)
Fixpoint mfold {A B} (f : A → B → metered A) (a : A) (l : list B) : metered A :=
  match l with [] => mret a | x :: l => let* a := f a x in mfold f a l end.
(** lsm/segment/reader.rs:890-907 ProjectedReadStream::initialize *)
Definition initialize (self : ProjectedReadStream) : metered ProjectedReadStream :=
  if st_initialized self then mret self
  else
    mfold initialize_run
      {| st_projection := st_projection self; st_cursors := st_cursors self; st_heads := st_heads self; st_heap := st_heap self;
         st_unopened := st_unopened self; st_pending := st_pending self; st_initialized := true; st_terminal := st_terminal self |}
      (seq 0 (length (st_cursors self))).

(** lsm/segment/reader.rs:909-922 ProjectedReadStream::open_competing_runs; each pass opens a
    run. *)
Fixpoint open_competing_loop (unopened : list HeapItem) (self : ProjectedReadStream) : metered ProjectedReadStream :=
  match unopened with
  | [] => mret self
  | candidate :: rest =>
    if match st_heap self with [] => true | top :: _ => leb candidate.1 top.1 end then
      let self := st_runs self (st_cursors self) (st_heads self) (st_heap self) rest in
      let* self := advance self candidate.2 in
      open_competing_loop rest self
    else mret self
  end.
Definition open_competing_runs (self : ProjectedReadStream) : metered ProjectedReadStream :=
  open_competing_loop (st_unopened self) self.

(** lsm/segment/reader.rs:944-946 ProjectedReadStream::next_row, the runs on top of the heap
    that have the key, and the heap without them *)
Fixpoint pop_key (k : key) (heap : list HeapItem) : list nat * list HeapItem :=
  match heap with
  | [] => ([], [])
  | top :: rest => if bool_decide (top.1 = k) then let '(runs, heap) := pop_key k rest in (top.2 :: runs, heap) else ([], heap)
  end.

(** lsm/segment/reader.rs:949-966 ProjectedReadStream::next_row, taking the heads of the runs *)
Fixpoint take_heads (manifest : string) (k : key) (runs : list nat) (heads : list (option ProjectedEntry)) (sequences : list (Z * nat))
    : result Error (list (nat * ProjectedEntry) * list (option ProjectedEntry)) :=
  match runs with
  | [] => Ok ([], heads)
  | run :: runs =>
    match heads !! run with
    | Some (Some entry) =>
      let heads := <[run := None]> heads in
      if negb (bool_decide (entry_key entry = k))
      then Err (InvalidProjectedRead "projected merge heap key differs from its run head")
      else match bt_get (entry_sequence entry) sequences with
      | Some _ => Err (DuplicateProjectedSequence manifest (entry_sequence entry))
      | None =>
        let? (entries, heads) := take_heads manifest k runs heads (bt_insert (entry_sequence entry) run sequences) in
        Ok ((run, entry) :: entries, heads)
      end
    | _ => Err (InvalidProjectedRead "projected merge heap lost its run head")
    end
  end.

(** [Iterator::max_by_key]: the last of the greatest. *)
Definition winner_of (entries : list (nat * ProjectedEntry)) : option (nat * ProjectedEntry) :=
  fold_left (λ best x, match best with
    | Some b => if entry_sequence x.2 <? entry_sequence b.2 then Some b else Some x
    | None => Some x end) entries None.

Definition run_bound (c : RunCursor) : nat :=
  match c with MemtableRun c => length (versions (mc_table c)) | SegmentRun c => segment_passes (sc_segment c) end.
Definition stream_passes (self : ProjectedReadStream) : nat := S (S (list_sum (map (λ c, S (run_bound c)) (st_cursors self)))).

(** lsm/segment/reader.rs:936-985 ProjectedReadStream::next_row; every pass takes a key of some
    run. *)
Fixpoint next_row_loop (fuel : nat) (self : ProjectedReadStream) : metered (ProjectedReadStream * option PreparedRow) :=
  match fuel with
  | O => exhausted
  | S fuel =>
    let* self := open_competing_runs self in
    match st_heap self with
    | [] => mret (self, None)
    | (k, _) :: _ =>
      let '(runs, heap) := pop_key k (st_heap self) in
      let* manifest := (λ m, (m, Ok (manifest_digest (evidence m)))) in
      let* (entries, heads) := lift (take_heads manifest k runs (st_heads self) []) in
      let self := st_runs self (st_cursors self) heads heap (st_unopened self) in
      match winner_of entries with
      | None => mfail (InvalidProjectedRead "one heap item creates one entry")
      | Some (winner, entry) =>
        match st_cursors self !! winner with
        | None => mfail (InvalidProjectedRead "run index")
        | Some cursor =>
          let* (cursor, prepared) := run_prepare_value cursor entry (st_projection self) in
          let self := st_runs self (<[winner := cursor]> (st_cursors self)) (st_heads self) (st_heap self) (st_unopened self) in
          let* self := mfold advance self runs in
          match prepared with
          | Some r => mret (self, Some {| prepared_run := winner; prepared_key := prepared_key r; value_len := value_len r;
                                          prepared_location := prepared_location r |})
          | None => next_row_loop fuel self
          end
        end
      end
    end
  end.
Definition next_row (self : ProjectedReadStream) : metered (ProjectedReadStream * option PreparedRow) :=
  next_row_loop (stream_passes self) self.

(** * Batches *)

(** lsm/segment/reader.rs:294-302 ProjectedReadBatch *)
Record ProjectedReadBatch := {
  batch_projection : ProjectedReadProjection; batch_rows : nat; key_offsets : list byte; key_data : list byte;
  value_offsets : option (list byte); value_data : option (list byte)
}.

(** lsm/segment/reader.rs:1836-1840 read_offset *)
Definition read_offset (offsets : list byte) (index : nat) : option Z :=
  match checked_mul 64 (Z.of_nat index) 8 with
  | None => None
  | Some start =>
    match slice_get offsets start (start + 8) with
    | None => None
    | Some bytes => let v := as_i64 (from_le bytes) in if v <? 0 then None else Some v
    end
  end.
(** lsm/segment/reader.rs:1820-1834 binary_value *)
Definition binary_value (offsets data : list byte) (row rows : nat) : option (list byte) :=
  if (rows <=? row)%nat then None
  else match read_offset offsets row, read_offset offsets (row + 1) with
  | Some start, Some end_ => if start <=? end_ then slice_get data start end_ else None
  | _, _ => None
  end.
(** lsm/segment/reader.rs:333-335 ProjectedReadBatch::key *)
Definition batch_key (self : ProjectedReadBatch) (row : nat) : option key :=
  binary_value (key_offsets self) (key_data self) row (batch_rows self).
(** lsm/segment/reader.rs:337-344 ProjectedReadBatch::value *)
Definition batch_value (self : ProjectedReadBatch) (row : nat) : option (list byte) :=
  match value_offsets self, value_data self with
  | Some offsets, Some data => binary_value offsets data row (batch_rows self)
  | _, _ => None
  end.
(** lsm/segment/reader.rs:346-352 ProjectedReadBatch::allocated_bytes *)
Definition allocated_bytes (self : ProjectedReadBatch) : Z :=
  let add := saturating_add 64 in
  add (add (add (len (key_offsets self)) (len (key_data self))) (match value_offsets self with Some b => len b | None => 0 end))
    (match value_data self with Some b => len b | None => 0 end).

(** lsm/segment/reader.rs:1786-1805 batch_allocation_bytes *)
Definition batch_allocation_bytes (rows key_bytes value_bytes : Z) (projection : ProjectedReadProjection) : result Error Z :=
  let? offsets := ok_or (match checked_add 64 rows 1 with Some count => checked_mul 64 count 8 | None => None end)
    (InvalidProjectedRead "projected offset bytes overflow") in
  let? k := ok_or (checked_add 64 offsets key_bytes) (InvalidProjectedRead "projected key buffers overflow") in
  if decide (projection = Key) then Ok k
  else ok_or (match checked_add 64 k offsets with Some bytes => checked_add 64 bytes value_bytes | None => None end)
         (InvalidProjectedRead "projected value buffers overflow").

(** lsm/segment/reader.rs:1807-1818 write_offset *)
Definition write_offset (output : list byte) (index : nat) (value : Z) : result Error (list byte) :=
  if 2 ^ 63 <=? value then Err (InvalidProjectedRead "projected offset exceeds i64")
  else
    let? offset := ok_or (checked_mul 64 (Z.of_nat index) 8) (InvalidProjectedRead "projected offset index overflow") in
    let? _ := ok_or (slice_get output offset (offset + 8)) (InvalidProjectedRead "projected offset output is absent") in
    Ok (overwrite output (Z.to_nat offset) (le_bytes 8 value)).

(** lsm/segment/reader.rs:998-1005 ProjectedReadStream::build_batch, its buffers and cursors *)
Record Building := {
  bd_key_offsets : list byte; bd_key_data : list byte; bd_value_offsets : option (list byte); bd_value_data : option (list byte);
  bd_key_cursor : Z; bd_value_cursor : Z
}.

(** lsm/segment/reader.rs:1010-1041 ProjectedReadStream::build_batch, one row *)
Definition build_row (st : ProjectedReadStream * Building * nat) (r : PreparedRow) : metered (ProjectedReadStream * Building * nat) :=
  let '(self, b, index) := st in
  let* key_end := lift (ok_or (checked_add 64 (bd_key_cursor b) (len (prepared_key r))) (InvalidProjectedRead "projected key output overflow")) in
  let key_data := overwrite (bd_key_data b) (Z.to_nat (bd_key_cursor b)) (prepared_key r) in
  let* key_offsets := lift (write_offset (bd_key_offsets b) (index + 1) key_end) in
  match bd_value_offsets b, bd_value_data b with
  | Some offsets, Some data =>
    let* value_end := lift (ok_or (checked_add 64 (bd_value_cursor b) (value_len r)) (InvalidProjectedRead "projected value output overflow")) in
    let* _ := lift (ok_or (slice_get data (bd_value_cursor b) value_end) (InvalidProjectedRead "projected value output is absent")) in
    match st_cursors self !! prepared_run r with
    | None => mfail (InvalidProjectedRead "run index")
    | Some cursor =>
      let* (cursor, v) := run_copy_value cursor r in
      let* offsets := lift (write_offset offsets (index + 1) value_end) in
      mret (st_runs self (<[prepared_run r := cursor]> (st_cursors self)) (st_heads self) (st_heap self) (st_unopened self),
            {| bd_key_offsets := key_offsets; bd_key_data := key_data; bd_value_offsets := Some offsets;
               bd_value_data := Some (overwrite data (Z.to_nat (bd_value_cursor b)) v); bd_key_cursor := key_end; bd_value_cursor := value_end |},
            S index)
    end
  | _, _ =>
    mret (self, {| bd_key_offsets := key_offsets; bd_key_data := key_data; bd_value_offsets := bd_value_offsets b;
                   bd_value_data := bd_value_data b; bd_key_cursor := key_end; bd_value_cursor := bd_value_cursor b |}, S index)
  end.

(** [buffer.map(|buffer| reservation.wrap(buffer)).transpose()] *)
Definition wrap_option (reservation : Z) (buffer : option (list byte)) : result Error (Z * option (list byte)) :=
  match buffer with
  | None => Ok (reservation, None)
  | Some b => let? (reservation, b) := wrap reservation b in Ok (reservation, Some b)
  end.

Definition zeroed (n : Z) : list byte := replicate (Z.to_nat n) x00.

(** lsm/segment/reader.rs:996-1058 ProjectedReadStream::build_batch, once the output is reserved *)
Definition fill_batch (self : ProjectedReadStream) (rows : list PreparedRow) (key_bytes value_bytes allocation : Z)
    : metered (ProjectedReadStream * ProjectedReadBatch) :=
  let* _ := record_batch_allocation allocation in
  let offsets := zeroed ((len rows + 1) * 8) in
  let* key_offsets := lift (write_offset offsets 0 0) in
  let* value_offsets := lift (if decide (st_projection self = KeyValue) then let? o := write_offset offsets 0 0 in Ok (Some o) else Ok None) in
  let value_data := if decide (st_projection self = KeyValue) then Some (zeroed value_bytes) else None in
  let* (self, b, _) := mfold build_row
    (self, {| bd_key_offsets := key_offsets; bd_key_data := zeroed key_bytes; bd_value_offsets := value_offsets;
              bd_value_data := value_data; bd_key_cursor := 0; bd_value_cursor := 0 |}, 0%nat) rows in
  let* (reservation, key_offsets) := lift (wrap allocation (bd_key_offsets b)) in
  let* (reservation, key_data) := lift (wrap reservation (bd_key_data b)) in
  let* (reservation, value_offsets) := lift (wrap_option reservation (bd_value_offsets b)) in
  let* (reservation, value_data) := lift (wrap_option reservation (bd_value_data b)) in
  let batch := {| batch_projection := st_projection self; batch_rows := length rows; key_offsets := key_offsets; key_data := key_data;
                  value_offsets := value_offsets; value_data := value_data |} in
  let* _ := record_emitted_batch (len rows) key_bytes value_bytes (allocated_bytes batch) in
  mret (self, batch).

(** lsm/segment/reader.rs:987-1059 ProjectedReadStream::build_batch; a failure drops the
    reservation and the buffers that took bytes of it.  What a wrapped batch leaves of the
    reservation is nothing. *)
Definition build_batch (self : ProjectedReadStream) (rows : list PreparedRow) (key_bytes value_bytes : Z)
    : metered (ProjectedReadStream * ProjectedReadBatch) :=
  let* allocation := lift (batch_allocation_bytes (len rows) key_bytes value_bytes (st_projection self)) in
  λ m, match reserve (output_memory m) allocation with
       | (o, Err e) => (set_output m o, Err e)
       | (o, Ok _) =>
         match fill_batch self rows key_bytes value_bytes allocation (set_output m o) with
         | (m, Ok x) => (m, Ok x)
         | (m, Err e) => (set_output m (unreserve (output_memory m) allocation), Err e)
         end
       end.

(** lsm/segment/reader.rs:801-884 ProjectedReadStream::next_batch_inner, the loop; each pass but
    the last takes a row. *)
Fixpoint batch_loop (fuel : nat) (self : ProjectedReadStream) (rows : list PreparedRow) (key_bytes value_bytes : Z)
    : metered (ProjectedReadStream * list PreparedRow * Z * Z) :=
  match fuel with
  | O => exhausted
  | S fuel =>
    let* (self, prepared) :=
      match st_pending self with
      | Some r => mret (st_hold self None, Some r)
      | None => next_row self
      end in
    match prepared with
    | None => mret (self, rows, key_bytes, value_bytes)
    | Some prepared =>
      let* next_rows := lift (ok_or (checked_add 64 (len rows) 1) (InvalidProjectedRead "projected batch row count overflow")) in
      let* next_key_bytes := lift (ok_or (checked_add 64 key_bytes (len (prepared_key prepared)))
        (InvalidProjectedRead "projected key byte count overflow")) in
      let* next_value_bytes := lift (ok_or (checked_add 64 value_bytes (value_len prepared))
        (InvalidProjectedRead "projected value byte count overflow")) in
      let* allocation := lift (batch_allocation_bytes next_rows next_key_bytes next_value_bytes (st_projection self)) in
      let* m := (λ m, (m, Ok m)) in
      if ((max_batch_rows (budget m) <? next_rows) || (max_batch_allocated_bytes (budget m) <? allocation))%bool then
        match rows with
        | [] =>
          mfail (if max_batch_rows (budget m) <? next_rows
                 then ProjectedReadLimit BatchRows (max_batch_rows (budget m)) next_rows
                 else ProjectedReadLimit BatchAllocatedBytes (max_batch_allocated_bytes (budget m)) allocation)
        | _ => mret (st_hold self (Some prepared), rows, key_bytes, value_bytes)
        end
      else
        let* projected_rows := lift (counted (emitted_rows (evidence m)) next_rows "projected output row count") in
        let* _ := lift (check_limit LsmError.OutputRows (max_output_rows (budget m)) projected_rows) in
        let* projected_bytes := lift (counted (emitted_buffer_bytes (evidence m)) allocation "projected output byte count") in
        let* _ := lift (check_limit OutputBufferBytes (max_output_buffer_bytes (budget m)) projected_bytes) in
        let rows := rows ++ [prepared] in
        if len rows =? max_batch_rows (budget m) then mret (self, rows, next_key_bytes, next_value_bytes)
        else batch_loop fuel self rows next_key_bytes next_value_bytes
    end
  end.

(** lsm/segment/reader.rs:796-888 ProjectedReadStream::next_batch_inner *)
Definition next_batch_inner (self : ProjectedReadStream) : metered (ProjectedReadStream * option ProjectedReadBatch) :=
  let* self := initialize self in
  let* (self, rows, key_bytes, value_bytes) := batch_loop (stream_passes self) self [] 0 0 in
  match rows with
  | [] => mret (self, None)
  | _ => let* (self, batch) := build_batch self rows key_bytes value_bytes in mret (self, Some batch)
  end.

(** Dropping the buffers of a batch gives their bytes back. *)
Definition drop_batch (batch : ProjectedReadBatch) (m : ProjectedReadMeter) : ProjectedReadMeter :=
  set_output m (unreserve (output_memory m) (allocated_bytes batch)).

(** lsm/database.rs:740-752 Database::begin_projected_read, the segments of the view *)
Definition selected_segments (self : Database) (request : ProjectedReadRequest) : list Segment :=
  List.filter (λ segment,
    ((minimum_sequence (descriptor segment) <=? request_snapshot request)
     && existsb (λ range, range_overlaps range (first_key (descriptor segment)) (last_key (descriptor segment))) (request_ranges request))%bool)
    (segments self).
