(* ===== verification/Cursors.v ===== *)
(** Correctness of the projected reader ([rrd-lsm]: segment/reader.rs).

    A small program logic for the reader's monad: a computation that meets its postcondition
    or stops with an error of the budget, and that leaves the meter within its limits.  The
    specification of a run is the ordered list of its newest visible versions; the merge
    refines the newest version over all runs, and the batches of a stream are exactly the
    live rows of the ranges, as the point reads of the database give them. *)

From S2P Require Import Prelude Machine BTree LsmError Batch RecoveryBudget Wal Memtable Transaction Versions SegmentFormat Segment SegmentFile SegmentWrite PointIndex Database Reader.
Open Scope Z_scope.

(** * The logic of the monad *)

(** The errors of a read that runs out of budget or of a counter that is full. *)
Definition budgeted (e : Error) : Prop :=
  (∃ r l o, e = ProjectedReadLimit r l o) ∨ (∃ s, e = InvalidProjectedRead (s +:+ " overflow")).
Lemma budgeted_limit r l o : budgeted (ProjectedReadLimit r l o).
Proof. left. by eexists _, _, _. Qed.
Lemma budgeted_overflow s : budgeted (InvalidProjectedRead (s +:+ " overflow")).
Proof. right. by eexists. Qed.

(** What the source side of a read has been charged is within the budget. *)
Definition source_within (m : ProjectedReadMeter) : Prop :=
  versions_counted (evidence m) ≤ max_versions_examined (budget m) ∧ page_requests (evidence m) ≤ max_page_requests (budget m)
  ∧ page_logical_bytes (evidence m) ≤ max_page_logical_bytes (budget m).

(** Work on the source side changes only its own counters, within the budget. *)
Record paid (m m' : ProjectedReadMeter) : Prop := {
  paid_budget : budget m' = budget m;
  paid_output : output_memory m' = output_memory m;
  paid_rows : emitted_rows (evidence m') = emitted_rows (evidence m);
  paid_bytes : emitted_buffer_bytes (evidence m') = emitted_buffer_bytes (evidence m);
  paid_within : source_within m → source_within m'
}.
Lemma paid_refl m : paid m m.
Proof. by constructor. Qed.
Lemma paid_trans m1 m2 m3 : paid m1 m2 → paid m2 m3 → paid m1 m3.
Proof. intros [] []. constructor; try congruence. tauto. Qed.

(** The computation pays for its work and returns a [Q], or is stopped by the budget. *)
Definition yields {A} (e : metered A) (Q : A → Prop) : Prop :=
  ∀ m, paid m (e m).1 ∧ match (e m).2 with Ok x => Q x | Err err => budgeted err end.

Lemma yields_ret {A} (x : A) (Q : A → Prop) : Q x → yields (mret x) Q.
Proof. intros HQ m. split; [apply paid_refl|done]. Qed.
Lemma yields_lift {A} (r : result Error A) x (Q : A → Prop) : r = Ok x → Q x → yields (lift r) Q.
Proof. intros -> HQ m. split; [apply paid_refl|done]. Qed.
Lemma yields_bind {A B} (e : metered A) (k : A → metered B) (Q : A → Prop) (R : B → Prop) :
  yields e Q → (∀ x, Q x → yields (k x) R) → yields (mbind e k) R.
Proof.
  intros He Hk m. destruct (He m) as [Hp HQ]. unfold mbind. destruct (e m) as [m' [x|err]]; cbn [fst snd] in *; [|done].
  destruct (Hk x HQ m') as [Hp' HR]. split; [by eapply paid_trans|done].
Qed.
Lemma yields_mono {A} (e : metered A) (Q R : A → Prop) : yields e Q → (∀ x, Q x → R x) → yields e R.
Proof. intros He HQR m. destruct (He m) as [Hp HQ]. split; [done|]. destruct (e m).2; auto. Qed.
Lemma yields_bind_lift {A B} (r : result Error A) (k : A → metered B) x (R : B → Prop) :
  r = Ok x → yields (k x) R → yields (mbind (lift r) k) R.
Proof. intros -> Hk. eapply (yields_bind _ _ (λ y, y = x)); [by apply (yields_lift _ x)|by intros ? ->]. Qed.

Lemma counted_cases left right name : (∃ n, counted left right name = Ok n ∧ n = left + right) ∨ (∃ e, counted left right name = Err e ∧ budgeted e).
Proof.
  unfold counted, checked_add. destruct (_ <? _); cbn [ok_or]; [left; by eexists|right]. eexists. split; [done|apply budgeted_overflow].
Qed.
Lemma check_limit_cases r l o : (check_limit r l o = Ok tt ∧ o ≤ l) ∨ (∃ e, check_limit r l o = Err e ∧ budgeted e).
Proof.
  unfold check_limit. destruct (Z.ltb_spec l o); [right|by left]. eexists. split; [done|apply budgeted_limit].
Qed.

Lemma record_versions_yields n : yields (record_versions n) (λ _, True).
Proof.
  intros m. unfold record_versions. destruct (counted_cases (versions_counted (evidence m)) n "projected version counter") as [(v & -> & ->)|(e & -> & He)];
    [|split; [apply paid_refl|done]].
  destruct (check_limit_cases VersionsExamined (max_versions_examined (budget m)) (versions_counted (evidence m) + n)) as [[-> Hle]|(e & -> & He)];
    [|split; [apply paid_refl|done]].
  split; [|done]. constructor; try done. intros (H1 & H2 & H3). by split_and!.
Qed.
Lemma record_group_yields : yields record_selected_row_group (λ _, True).
Proof.
  intros m. unfold record_selected_row_group. destruct (counted_cases (selected_row_groups (evidence m)) 1 "selected row-group counter") as [(v & -> & ->)|(e & -> & He)];
    [|split; [apply paid_refl|done]].
  split; [|done]. constructor; try done.
Qed.
Lemma request_page_yields kind bytes : yields (request_page kind bytes) (λ _, True).
Proof.
  intros m. unfold request_page. destruct (counted_cases (page_requests (evidence m)) 1 "page request counter") as [(v & -> & ->)|(e & -> & He)];
    [|split; [apply paid_refl|done]].
  destruct (check_limit_cases PageRequests (max_page_requests (budget m)) (page_requests (evidence m) + 1)) as [[-> Hle]|(e & -> & He)];
    [|split; [apply paid_refl|done]].
  destruct (counted_cases (page_logical_bytes (evidence m)) bytes "page logical-byte counter") as [(v & -> & ->)|(e & -> & He)];
    [|split; [apply paid_refl|done]].
  destruct (check_limit_cases PageLogicalBytes (max_page_logical_bytes (budget m)) (page_logical_bytes (evidence m) + bytes)) as [[-> Hle']|(e & -> & He)];
    [|split; [apply paid_refl|done]].
  destruct (counted_cases (kind_requests (evidence m) kind) 1 "page-family request counter") as [(v & -> & ->)|(e & -> & He)];
    (split; [|done]; constructor; try done; intros (H1 & H2 & H3); by split_and!).
Qed.

Lemma load_metered_page_yields seg group kind charge g bytes :
  row_groups seg !! group = Some g → load_page seg group kind = Ok bytes → yields (load_metered_page seg group kind charge) (λ b, b = bytes).
Proof.
  intros Hg Hl. unfold load_metered_page. eapply yields_bind_lift; [by rewrite Hg|].
  eapply yields_bind; [apply request_page_yields|]. intros _ _. by eapply yields_lift.
Qed.

(** * The segment cursor *)

Definition located : Type := nat * nat * row.
Fixpoint locate (i j : nat) (rs : list row) : list located :=
  match rs with [] => [] | r :: rs => (i, j, r) :: locate i (S j) rs end.
Fixpoint locate_all (i : nat) (gs : list (list row)) : list located :=
  match gs with [] => [] | rs :: gs => locate i 0 rs ++ locate_all (S i) gs end.
Definition located_from (gs : list (list row)) (i j : nat) : list located :=
  match drop i gs with [] => [] | rs :: gs => locate i j (drop j rs) ++ locate_all (S i) gs end.

Lemma located_start gs i : located_from gs i 0 = locate_all i (drop i gs).
Proof. unfold located_from. destruct (drop i gs) as [|rs l] eqn:E; [done|]. by rewrite drop_0. Qed.
Lemma located_none gs i j : gs !! i = None → located_from gs i j = [].
Proof. intros Hi%lookup_ge_None. unfold located_from. by rewrite drop_ge. Qed.
Lemma located_some gs i j rs :
  gs !! i = Some rs → located_from gs i j = locate i j (drop j rs) ++ located_from gs (S i) 0.
Proof. intros Hi. rewrite located_start. unfold located_from. by rewrite (drop_S _ _ _ Hi). Qed.
Lemma located_end gs i j rs : gs !! i = Some rs → (length rs ≤ j)%nat → located_from gs i j = located_from gs (S i) 0.
Proof. intros Hi Hj. by rewrite (located_some _ _ _ _ Hi), drop_ge. Qed.
Lemma located_step gs i j rs r :
  gs !! i = Some rs → rs !! j = Some r → located_from gs i j = (i, j, r) :: located_from gs i (S j).
Proof. intros Hi Hj. by rewrite !(located_some _ _ _ _ Hi), (drop_S _ _ _ Hj). Qed.
Lemma locate_group i j rs x : x ∈ locate i j rs → x.1.1 = i ∧ ∃ n, x.1.2 = (j + n)%nat ∧ rs !! n = Some x.2.
Proof.
  revert j. induction rs as [|r rs IH]; intros j; cbn [locate]; [by intros ?%not_elem_of_nil|].
  intros [->|Hx]%elem_of_cons; [split; [done|]; exists 0%nat; split; [cbn; lia|done]|].
  destruct (IH _ Hx) as (Hi & n & Hn & Hl). split; [done|]. exists (S n). split; [lia|done].
Qed.
Lemma locate_all_rows i gs : map snd (locate_all i gs) = concat gs.
Proof.
  revert i. induction gs as [|rs gs IH]; intros i; [done|]. cbn [locate_all concat]. rewrite map_app, IH. f_equal.
  generalize 0%nat. induction rs as [|r rs IHr]; intros j; [done|]. cbn. by rewrite IHr.
Qed.
Lemma locate_all_at i gs x : x ∈ locate_all i gs → ∃ n rs, x.1.1 = (i + n)%nat ∧ gs !! n = Some rs ∧ rs !! x.1.2 = Some x.2.
Proof.
  revert i. induction gs as [|rs gs IH]; intros i; cbn [locate_all]; [by intros ?%not_elem_of_nil|].
  intros [Hx|Hx]%elem_of_app.
  - apply locate_group in Hx as (Hi & n & Hn & Hl). exists 0%nat, rs. rewrite Nat.add_0_r. split_and!; [done|done|]. by rewrite Hn.
  - destruct (IH _ Hx) as (n & rs' & Hi & Hn & Hl). exists (S n), rs'. split_and!; [lia|done|done].
Qed.

(** The least key of a sorted map is its first. *)
Lemma bt_head {V} (rem : list (key * V)) k v :
  bt_sorted rem → bt_get k rem = Some v → (∀ p, p ∈ rem → leb k p.1 = true) →
  ∃ rem', rem = (k, v) :: rem' ∧ bt_sorted rem' ∧ ∀ k', bt_get k' rem' = if decide (k' = k) then None else bt_get k' rem.
Proof.
  intros Hs Hget Hle. destruct rem as [|[k0 v0] rem]; [done|]. pose proof (bt_get_elem _ _ _ Hget) as Hin.
  assert (k0 = k) as ->.
  { apply elem_of_cons in Hin as [[= -> ->]|Hin]; [done|]. apply (bt_sorted_app [(k0, v0)]) in Hs as (_ & _ & Hlt).
    specialize (Hlt (k0, v0) (k, v) ltac:(by left) Hin). cbn in Hlt. specialize (Hle (k0, v0) ltac:(by left)). cbn in Hle.
    rewrite leb_ltb, Hlt in Hle. done. }
  assert (bt_get k ((k, v0) :: rem) = Some v0) as Hv by (apply bt_elem_get; [done|by left]). assert (v0 = v) as -> by congruence.
  pose proof Hs as Hall. apply (bt_sorted_app [(k, v)]) in Hs as (_ & Hs & Hlt). exists rem. split_and!; [done|done|]. intros k'.
  destruct (decide (k' = k)) as [->|Hne].
  - destruct (bt_get k rem) as [w|] eqn:E; [|done]. apply bt_get_elem in E. specialize (Hlt (k, v) (k, w) ltac:(by left) E). cbn in Hlt.
    by rewrite ltb_irrefl in Hlt.
  - destruct (bt_get k' rem) as [w|] eqn:E.
    + symmetry. apply bt_elem_get; [done|right; by apply bt_get_elem].
    + symmetry. destruct (bt_get k' ((k, v) :: rem)) as [w|] eqn:E'; [|done]. apply bt_get_elem in E'.
      apply elem_of_cons in E' as [[= -> ->]|Hw]; [done|]. apply (bt_elem_get _ _ _ Hs) in Hw. congruence.
Qed.

Section SegmentCursor.
Context (seg : Segment) (gs : list (list row)) (ranges : list ProjectedReadRange) (q : Z).
Context (Hseg : segment_holds seg gs).

(** The groups the cursor reads, and the rows it returns of them. *)
Definition group_read (i : nat) : bool :=
  match row_groups seg !! i with
  | Some g => (existsb (λ range, range_overlaps range (group_first_key g) (group_last_key g)) ranges
               && (statistic_min (page g SequenceValues) <=? q))%bool
  | None => false
  end.
Definition row_read (x : located) : bool := (group_read x.1.1 && in_read_ranges ranges x.2.1)%bool.
Definition cursor_rows (c : SegmentProjectedCursor) : list located := List.filter row_read (located_from gs (sc_group c) (sc_row c)).

Record cursor_ok (c : SegmentProjectedCursor) : Prop := {
  ok_segment : sc_segment c = seg;
  ok_ranges : sc_ranges c = ranges;
  ok_sequence : sc_read_sequence c = q;
  ok_spine : match sc_spine c with
    | None => sc_row c = 0%nat
    | Some s => group_read (sc_group c) = true ∧ ∃ g, load_row_group seg (sc_group c) = Ok g ∧ s = spine g
    end;
  ok_row : ∀ rs, gs !! sc_group c = Some rs → (sc_row c ≤ length rs)%nat
}.
Definition passes_left (i j : nat) : nat := (list_sum (map (λ rs : list row, S (length rs)) (drop i gs)) - j)%nat.

Lemma passes_next i j rs : gs !! i = Some rs → (j ≤ length rs)%nat → (passes_left (S i) 0 < passes_left i j)%nat.
Proof. intros Hi Hj. unfold passes_left. rewrite (drop_S _ _ _ Hi). cbn [map list_sum foldr]. unfold list_sum. lia. Qed.
Lemma passes_row i j rs : gs !! i = Some rs → (j < length rs)%nat → (passes_left i (S j) < passes_left i j)%nat.
Proof. intros Hi Hj. unfold passes_left. rewrite (drop_S _ _ _ Hi). cbn [map list_sum foldr]. unfold list_sum. lia. Qed.

Lemma skipped_group i j : group_read i = false → ∀ rs, gs !! i = Some rs →
  List.filter row_read (located_from gs i j) = List.filter row_read (located_from gs (S i) 0).
Proof.
  intros Hno rs Hi. rewrite (located_some _ _ _ _ Hi), List.filter_app.
  assert (List.filter row_read (locate i j (drop j rs)) = []) as ->; [|done].
  generalize (drop j rs). intros l. revert j. induction l as [|r l IH]; intros j; [done|]. cbn [locate List.filter].
  unfold row_read at 1. cbn [fst snd]. rewrite Hno. apply IH.
Qed.

Definition raw_of (x : located) : RawSegmentRow :=
  {| raw_key := x.2.1; raw_sequence := sequence x.2.2; raw_group := x.1.1; raw_row := x.1.2 |}.

Definition reads_next (c : SegmentProjectedCursor) (r : SegmentProjectedCursor * option RawSegmentRow) : Prop :=
  cursor_ok r.1 ∧ sc_lookahead r.1 = sc_lookahead c ∧
  match cursor_rows c with
  | [] => r.2 = None ∧ cursor_rows r.1 = []
  | x :: rest => r.2 = Some (raw_of x) ∧ cursor_rows r.1 = rest
  end.

Lemma load_spine_yields i g : load_row_group seg i = Ok g → is_Some (row_groups seg !! i) →
  yields (load_projected_key_spine seg i) (λ s, s = spine g).
Proof.
  intros Hl [d Hd]. unfold load_row_group, load_key_spine in Hl. unfold load_projected_key_spine.
  destruct (load_page seg i KeyOffsets) as [o|] eqn:E1; [|done]. destruct (load_page seg i KeyData) as [da|] eqn:E2; [|done].
  destruct (load_page seg i SequenceValues) as [sv|] eqn:E3; [|done]. destruct (load_page seg i ValueValidity); [|done].
  destruct (load_page seg i ValueOffsets); [|done]. destruct (load_page seg i ValueData); [|done]. injection Hl as <-.
  eapply yields_bind; [by eapply load_metered_page_yields|]. intros ? ->.
  eapply yields_bind; [by eapply load_metered_page_yields|]. intros ? ->.
  eapply yields_bind; [by eapply load_metered_page_yields|]. intros ? ->. by apply yields_ret.
Qed.

Lemma read_row_yields fuel c :
  cursor_ok c → (passes_left (sc_group c) (sc_row c) < fuel)%nat → yields (read_row_loop fuel c) (reads_next c).
Proof.
  revert c. induction fuel as [|fuel IH]; intros c Hok Hfuel; [lia|]. cbn [read_row_loop]. pose proof Hok as [Hs Hr Hq Hspine Hrow].
  rewrite Hs. destruct (row_groups seg !! sc_group c) as [g|] eqn:Eg.
  2:{ apply yields_ret. split_and!; [done|done|]. unfold cursor_rows. cbn [fst snd]. rewrite located_none; [by split|].
      apply lookup_ge_None. rewrite (holds_length _ _ Hseg). by apply lookup_ge_None. }
  destruct (rows_at _ _ _ _ Hseg Eg) as [rs Ers]. specialize (Hrow rs Ers).
  assert (group_read (sc_group c) = (existsb (λ range, range_overlaps range (group_first_key g) (group_last_key g)) ranges
    && (statistic_min (page g SequenceValues) <=? q))%bool) as Hgr by (unfold group_read; by rewrite Eg).
  assert (∀ c', sc_segment c' = seg → sc_ranges c' = ranges → sc_read_sequence c' = q → cursor_ok (sc_at c' (S (sc_group c)) 0 None)) as Hnext.
  { intros c' H1 H2 H3. constructor; cbn [sc_at sc_segment sc_ranges sc_read_sequence sc_spine sc_row sc_group]; try done. intros; lia. }
  rewrite Hr, Hq. destruct (negb (existsb _ ranges) || negb _)%bool eqn:Esel.
  { eapply yields_mono; [apply IH; [by apply Hnext|cbn [sc_at sc_group sc_row]; pose proof (passes_next _ _ _ Ers Hrow); lia]|].
    intros r (Hok' & Hla & Hm). split_and!; [done|done|]. unfold cursor_rows in *. cbn [sc_at sc_group sc_row] in Hm.
    rewrite (skipped_group (sc_group c) (sc_row c)) with (rs := rs); [done| |done]. rewrite Hgr. rewrite <-negb_andb in Esel. by apply negb_true_iff in Esel. }
  assert (group_read (sc_group c) = true) as Hread.
  { rewrite Hgr. rewrite <-negb_andb in Esel. by apply negb_false_iff in Esel. }
  destruct (holds_groups _ _ Hseg _ _ _ Eg Ers) as [(lg & Hload & Hcol) Hcount _ _ _ _].
  (* the spine is loaded *)
  eapply (yields_bind _ _ (λ x, x = (sc_at c (sc_group c) (sc_row c) (Some (spine lg)), spine lg))).
  { destruct (sc_spine c) as [s|] eqn:Es.
    - destruct Hspine as [_ (lg' & Hload' & ->)]. assert (lg' = lg) as -> by congruence. apply yields_ret. f_equal. by destruct c; cbn in *; subst.
    - eapply yields_bind; [eapply load_spine_yields; [done|by eexists]|]. intros ? ->. eapply yields_bind; [apply record_group_yields|].
      intros _ _. apply yields_ret. by rewrite Hspine. }
  intros ? ->. cbn beta iota. cbn [sc_at sc_group sc_row sc_ranges]. rewrite Hcount.
  destruct (Z.leb_spec (len rs) (Z.of_nat (sc_row c))) as [Hge|Hlt].
  { eapply yields_mono; [apply IH; [by apply (Hnext (sc_at c _ _ _))|cbn [sc_at sc_group sc_row]; pose proof (passes_next _ _ _ Ers Hrow); lia]|].
    intros r (Hok' & Hla & Hm). split_and!; [done|done|]. unfold cursor_rows in *. cbn [sc_at sc_group sc_row] in Hm.
    rewrite (located_end _ _ _ rs); [done|done|]. unfold len in Hge. lia. }
  unfold len in Hlt. destruct (lookup_lt_is_Some_2 rs (sc_row c)) as [[k v] Hkv]; [lia|]. destruct (Hcol _ _ _ Hkv) as (Hk & Hsq & _).
  eapply yields_bind; [apply record_versions_yields|]. intros _ _. eapply yields_bind_lift; [exact Hk|].
  assert (cursor_ok (sc_at (sc_at c (sc_group c) (sc_row c) (Some (spine lg))) (sc_group c) (S (sc_row c)) (Some (spine lg)))) as Hok1.
  { constructor; cbn [sc_at sc_segment sc_ranges sc_read_sequence sc_spine sc_row sc_group]; try done.
    - split; [done|by exists lg].
    - intros rs' E. assert (rs' = rs) as -> by congruence. lia. }
  assert (cursor_rows c = (if in_read_ranges ranges k then [(sc_group c, sc_row c, (k, v))] else [])
    ++ cursor_rows (sc_at (sc_at c (sc_group c) (sc_row c) (Some (spine lg))) (sc_group c) (S (sc_row c)) (Some (spine lg)))) as Hrows.
  { unfold cursor_rows. cbn [sc_at sc_group sc_row]. rewrite (located_step _ _ _ _ _ Ers Hkv). cbn [List.filter]. unfold row_read at 1. cbn [fst snd].
    rewrite Hread. cbn [andb]. by destruct (in_read_ranges ranges k). }
  rewrite Hr. destruct (in_read_ranges ranges k) eqn:Ein; cbn [negb].
  - eapply yields_bind_lift; [exact Hsq|]. apply yields_ret. unfold reads_next. cbn [fst snd]. rewrite Hrows. by split_and!.
  - eapply yields_mono; [apply IH; [done|cbn [sc_at sc_group sc_row]; pose proof (passes_row _ (sc_row c) _ Ers ltac:(lia)); lia]|].
    intros r (Hok' & Hla & Hm). split_and!; [done|done|]. by rewrite Hrows.
Qed.

Lemma passes_enough i j : (passes_left i j < segment_passes seg)%nat.
Proof.
  unfold passes_left, segment_passes.
  assert (list_sum (map (λ rs : list row, S (length rs)) gs) = list_sum (map (λ g, S (Z.to_nat (group_row_count g))) (row_groups seg))) as <-.
  { pose proof (holds_length _ _ Hseg) as Hl.
    assert (∀ i g rs, row_groups seg !! i = Some g → gs !! i = Some rs → group_row_count g = len rs) as Hc.
    { intros i' g rs Hg Hrs. apply (holds_count _ _ _ _ (holds_groups _ _ Hseg i' g rs Hg Hrs)). }
    clear -Hl Hc. revert gs Hl Hc. generalize (row_groups seg). induction l as [|g l IH]; intros [|rs gs] Hl Hc; try done.
    cbn [map list_sum foldr]. rewrite (Hc 0%nat g rs) by done. unfold len. rewrite Nat2Z.id. f_equal. unfold list_sum in IH. apply IH; [by injection Hl|].
    intros i g' rs' Hg Hrs. by apply (Hc (S i)). }
  assert (∀ i, list_sum (map (λ rs : list row, S (length rs)) (drop i gs)) ≤ list_sum (map (λ rs : list row, S (length rs)) gs))%nat as Hle.
  { clear. induction gs as [|rs l IH]; intros [|i]; cbn [drop map list_sum foldr]; try lia. specialize (IH i). unfold list_sum in *. lia. }
  specialize (Hle i). lia.
Qed.
Lemma read_row_next c : cursor_ok c → yields (read_row c) (reads_next c).
Proof. intros Hok. unfold read_row. rewrite (ok_segment _ Hok). apply read_row_yields; [done|]. apply passes_enough. Qed.

(** ** Candidates *)

(** The rows the cursor has not yet used, the one it looked ahead at included. *)
Definition pending_at (c : SegmentProjectedCursor) (xs : list located) : Prop :=
  cursor_ok c ∧ match sc_lookahead c with
    | None => cursor_rows c = xs
    | Some r => ∃ x, r = raw_of x ∧ xs = x :: cursor_rows c
    end.

Lemma ahead_ok c r : cursor_ok c → cursor_ok (sc_ahead c r).
Proof. intros []. by constructor. Qed.

Lemma take_or_read_yields c xs :
  pending_at c xs → yields (take_or_read_row c) (λ r, cursor_ok r.1 ∧ sc_lookahead r.1 = None ∧
    match xs with [] => r.2 = None ∧ cursor_rows r.1 = [] | x :: rest => r.2 = Some (raw_of x) ∧ cursor_rows r.1 = rest end).
Proof.
  intros [Hok Hla]. unfold take_or_read_row. destruct (sc_lookahead c) as [r|] eqn:E.
  - destruct Hla as (x & -> & ->). apply yields_ret. split_and!; [by apply ahead_ok|done|done|done].
  - eapply yields_mono; [by apply read_row_next|]. intros r (Hok' & Hl' & Hm). rewrite Hla in Hm. split_and!; [done|congruence|done].
Qed.

Definition best_step (b : option located) (x : located) : option located :=
  if ((sequence x.2.2 <=? q) && match b with None => true | Some y => sequence y.2.2 <? sequence x.2.2 end)%bool then Some x else b.
Fixpoint split_key (k : key) (xs : list located) : list located * list located :=
  match xs with
  | [] => ([], [])
  | x :: rest => if decide (x.2.1 = k) then let '(same, others) := split_key k rest in (x :: same, others) else ([], xs)
  end.

Lemma same_key_yields fuel c k b xs :
  cursor_ok c → sc_lookahead c = None → cursor_rows c = xs → (length xs < fuel)%nat →
  yields (same_key_loop fuel c k (raw_of <$> b)) (λ r, pending_at r.1 (split_key k xs).2
    ∧ r.2 = raw_of <$> fold_left best_step (split_key k xs).1 b).
Proof.
  revert c b xs. induction fuel as [|fuel IH]; intros c b xs Hok Hla Hxs Hfuel; [lia|]. cbn [same_key_loop].
  eapply yields_bind; [by apply read_row_next|]. intros [c' out] (Hok' & Hla' & Hm). cbn [fst snd] in *. rewrite Hxs in Hm. rewrite Hla in Hla'.
  destruct xs as [|x rest]; destruct Hm as [-> Hrest]; cbn [split_key].
  { apply yields_ret. cbn [fst snd fold_left]. split; [|done]. split; [done|]. by rewrite Hla'. }
  cbn [raw_of raw_key]. destruct (decide (x.2.1 = k)) as [Hk|Hk].
  - rewrite bool_decide_eq_true_2 by done. cbn [negb]. rewrite (ok_sequence _ Hok').
    replace (if (_ : bool) then Some (raw_of x) else raw_of <$> b) with (raw_of <$> best_step b x).
    2:{ unfold best_step. cbn [raw_of raw_sequence]. by destruct b; cbn [fmap option_fmap option_map raw_of raw_sequence]; destruct (_ && _)%bool. }
    eapply yields_mono; [apply IH; [done|done|exact Hrest|cbn in Hfuel; lia]|]. intros r. destruct (split_key k rest). done.
  - rewrite bool_decide_eq_false_2 by done. cbn [negb]. apply yields_ret. cbn [fst snd fold_left]. split; [|done].
    split; [by apply ahead_ok|]. cbn [sc_ahead sc_lookahead]. exists x. by rewrite <-Hrest.
Qed.

Lemma split_key_app k xs : xs = (split_key k xs).1 ++ (split_key k xs).2 ∧ Forall (λ x : located, x.2.1 = k) (split_key k xs).1.
Proof.
  induction xs as [|x xs [IH1 IH2]]; [by split; [|constructor]|]. cbn [split_key]. destruct (decide (x.2.1 = k)); [|by split; [|constructor]].
  destruct (split_key k xs) as [same others]. cbn [fst snd app] in *. split; [by rewrite IH1 at 1|by constructor].
Qed.
Lemma best_fold l b : (λ x : located, x.2.2) <$> fold_left best_step l b = newer ((λ x : located, x.2.2) <$> b) (seen q (map (λ x : located, x.2.2) l)).
Proof.
  revert b. induction l as [|x l IH]; intros b; cbn [fold_left map]; [by rewrite seen_nil, newer_None_r|]. rewrite IH, seen_cons, newer_assoc. f_equal.
  unfold best_step. destruct (sequence x.2.2 <=? q); cbn [andb]; [|by rewrite newer_None_r].
  destruct b as [y|]; cbn; [|done]. by destruct (_ <? _).
Qed.

(** What is left of a run: its keys in order, each with its newest visible version. *)
Definition run_rest (rows : list row) (rem : list row) : Prop := bt_sorted rem ∧ ∀ k, bt_get k rem = seen q (versions_of k rows).


Lemma best_elem l b x : fold_left (best_step) l b = Some x → x ∈ l ∨ b = Some x.
Proof.
  revert b. induction l as [|y l IH]; intros b; cbn [fold_left]; [by right|]. intros [Hx|Hx]%IH; [left; by right|].
  unfold best_step in Hx. destruct (_ && _)%bool; [|by right]. simplify_eq. left. by left.
Qed.
Lemma versions_same k (xs : list located) :
  Forall (λ x : located, x.2.1 = k) xs → versions_of k (map snd xs) = map (λ x : located, x.2.2) xs.
Proof.
  induction 1 as [|x xs Hx _ IH]; [done|]. cbn [map]. rewrite versions_of_cons, IH. by rewrite decide_True.
Qed.
Lemma split_key_sorted k (x : located) xs :
  x.2.1 = k → rows_sorted (map snd (x :: xs)) → ∀ y, y ∈ (split_key k xs).2 → ltb k y.2.1 = true.
Proof.
  intros Hk [Hs Hx]%rows_sorted_cons. induction xs as [|z xs IH]; [by intros y ?%not_elem_of_nil|]. cbn [split_key].
  apply rows_sorted_cons in Hs as [Hs Hz]. destruct (decide (z.2.1 = k)) as [Hzk|Hzk].
  - destruct (split_key k xs) as [same others]. cbn [snd] in *. apply IH; [done|]. intros y Hy. apply Hx. by right.
  - assert (ltb k z.2.1 = true) as Hlt.
    { specialize (Hx z.2 ltac:(left)). unfold row_lt in Hx. rewrite Hk in Hx. destruct Hx as [?|[E _]]; [done|congruence]. }
    cbn [snd]. intros y [->|Hy]%elem_of_cons; [done|]. eapply ltb_leb_trans; [exact Hlt|]. apply row_lt_leb, Hz. apply list_elem_of_fmap. by exists y.
Qed.

(** A row where the segment has it. *)
Definition placed (group r : nat) (x : row) : Prop := ∃ rs, gs !! group = Some rs ∧ rs !! r = Some x.

(** The cursor has [rem] still to show. *)
Definition segment_at (c : SegmentProjectedCursor) (rem : list row) : Prop :=
  ∃ xs, pending_at c xs ∧ rows_sorted (map snd xs) ∧ run_rest (map snd xs) rem
    ∧ Forall (λ x : located, placed x.1.1 x.1.2 x.2) xs ∧ (length xs < segment_passes seg)%nat.

Definition segment_names (e : ProjectedEntry) (x : row) : Prop :=
  entry_key e = x.1 ∧ entry_sequence e = sequence x.2 ∧ ∃ i j, entry_location e = InSegment i j None None ∧ placed i j x.

Lemma split_versions k (x : located) xs :
  x.2.1 = k → rows_sorted (map snd (x :: xs)) →
  versions_of k (map snd (x :: xs)) = map (λ x : located, x.2.2) (x :: (split_key k xs).1)
  ∧ (∀ k', k' ≠ k → versions_of k' (map snd (x :: xs)) = versions_of k' (map snd (split_key k xs).2))
  ∧ versions_of k (map snd (split_key k xs).2) = []
  ∧ rows_sorted (map snd (split_key k xs).2).
Proof.
  intros Hk Hs. destruct (split_key_app k xs) as [Happ Hsame]. pose proof (split_key_sorted k x xs Hk Hs) as Hlt.
  destruct (split_key k xs) as [same others]. cbn [fst snd] in *. subst xs.
  assert (versions_of k (map snd others) = []) as Hno.
  { apply versions_of_nil. intros r (y & -> & Hy)%list_elem_of_fmap E. specialize (Hlt y Hy). rewrite E, ltb_irrefl in Hlt. done. }
  assert (Forall (λ y : located, y.2.1 = k) (x :: same)) as Hsame' by by constructor. rewrite app_comm_cons, map_app in *.
  apply rows_sorted_app in Hs as (_ & Hs & _). split_and!; [|..|done|done].
  - rewrite versions_of_app. etransitivity; [exact (f_equal (app _) Hno)|]. by rewrite app_nil_r, versions_same.
  - intros k' Hne. assert (versions_of k' (map snd (x :: same)) = []) as Hno'.
    { apply versions_of_nil. intros r (y & -> & Hy)%list_elem_of_fmap E. eapply Forall_forall in Hsame'; [|exact Hy]. cbn in Hsame'. congruence. }
    rewrite versions_of_app. by etransitivity; [exact (f_equal (λ l, app l _) Hno')|].
Qed.

Lemma run_rest_lower rows rem k :
  run_rest rows rem → (∀ r, r ∈ rows → leb k r.1 = true) → ∀ p, p ∈ rem → leb k p.1 = true.
Proof.
  intros [Hs Hget] Hle [k' v] Hp. apply (bt_elem_get _ _ _ Hs) in Hp. rewrite Hget in Hp. apply seen_elem in Hp as [Hv%versions_of_elem _].
  apply (Hle _ Hv).
Qed.

Lemma next_candidate_yields fuel c xs rem :
  pending_at c xs → rows_sorted (map snd xs) → run_rest (map snd xs) rem → Forall (λ x : located, placed x.1.1 x.1.2 x.2) xs →
  (length xs < fuel)%nat → (length xs < segment_passes seg)%nat →
  yields (next_candidate_loop fuel c) (λ r, match rem with
    | [] => r.2 = None ∧ segment_at r.1 []
    | x :: rem' => ∃ e, r.2 = Some e ∧ segment_names e x ∧ segment_at r.1 rem'
    end).
Proof.
  revert c xs. induction fuel as [|fuel IH]; intros c xs Hp Hs Hrest Hplaced Hf Hpass; [lia|]. cbn [next_candidate_loop].
  eapply yields_bind; [by apply take_or_read_yields|]. intros [c' out] (Hok & Hla & Hm). cbn [fst snd] in *.
  destruct xs as [|x xs]; destruct Hm as [-> Hrows].
  { apply yields_ret. cbn [fst snd]. destruct rem as [|[k v] rem].
    - split; [done|]. exists []. split; [split; [done|by rewrite Hla]|]. split_and!; [done|done|constructor|cbn; lia].
    - destruct Hrest as [Hrs Hget]. pose proof (bt_elem_get k v _ Hrs ltac:(by left)) as E. rewrite Hget in E. done. }
  set (k := x.2.1). destruct (split_versions k x xs eq_refl Hs) as (Hvk & Hvo & Hno & Hso).
  destruct (split_key_app k xs) as [Happ _].
  assert (length (split_key k xs).2 ≤ length xs)%nat as Hlen by (rewrite Happ at 2; rewrite length_app; lia).
  assert (Forall (λ x : located, placed x.1.1 x.1.2 x.2) (split_key k xs).2) as Hpo.
  { apply Forall_cons in Hplaced as [_ Hpl]. rewrite Happ in Hpl. by apply Forall_app in Hpl as [_ ?]. }
  change (if raw_sequence (raw_of x) <=? sc_read_sequence c' then Some (raw_of x) else None)
    with (if sequence x.2.2 <=? sc_read_sequence c' then Some (raw_of x) else None). rewrite (ok_sequence _ Hok), (ok_segment _ Hok).
  replace (if (_ : bool) then Some (raw_of x) else None) with (raw_of <$> best_step None x)
    by (unfold best_step; by destruct (_ <=? _)).
  eapply yields_bind; [apply same_key_yields; [done|done|exact Hrows|cbn in Hpass; lia]|]. intros [c2 best] [Hp2 Hb]. cbn [fst snd] in Hp2, Hb |- *. subst best.
  change (raw_key (raw_of x)) with k in Hp2 |- *. change (fold_left best_step (split_key k xs).1 (best_step None x)) with (fold_left best_step (x :: (split_key k xs).1) None).
  pose proof (best_fold (x :: (split_key k xs).1) None) as Hbest. rewrite <-Hvk in Hbest. cbn [fmap option_fmap option_map newer] in Hbest.
  destruct (fold_left best_step (x :: (split_key k xs).1) None) as [y|] eqn:Ey; cbn [fmap option_fmap option_map] in *.
  - assert (y ∈ x :: xs ∧ y.2.1 = k) as [Hyin Hyk].
    { apply best_elem in Ey as [Hy|?]; [|done]. apply elem_of_cons in Hy as [->|Hy]; [by split; [left|]|].
      split; [right; rewrite Happ; apply elem_of_app; by left|]. destruct (split_key_app k xs) as [_ Hall]. by eapply Forall_forall in Hall. }
    assert (∀ p, p ∈ rem → leb k p.1 = true) as Hlow.
    { apply (run_rest_lower (map snd (x :: xs))); [done|]. intros r [->|Hr]%elem_of_cons; [apply leb_refl|].
      apply rows_sorted_cons in Hs as [_ Hs]. by apply row_lt_leb, Hs. }
    destruct Hrest as [Hrs Hget]. assert (bt_get k rem = Some y.2.2) as Hhead by by rewrite Hget, <-Hbest.
    destruct (bt_head rem k y.2.2 Hrs Hhead Hlow) as (rem' & -> & Hrs' & Hget').
    apply yields_ret. cbn [fst snd]. eexists. split; [done|]. split.
    + split_and!; [done|done|]. exists y.1.1, y.1.2. split; [done|]. eapply Forall_forall in Hplaced; [|exact Hyin].
      replace (k, y.2.2) with y.2; [done|]. rewrite <-Hyk. by destruct y as [? [? ?]].
    + exists (split_key k xs).2. split_and!; [done|done| |done|cbn in Hpass; lia]. split; [done|]. intros k'. rewrite Hget'.
      destruct (decide (k' = k)) as [->|Hne]; [by rewrite Hno|]. by rewrite Hget, Hvo.
  - eapply (IH _ (split_key k xs).2); [done|done| |done|cbn in Hf; lia|cbn in Hpass; lia]. destruct Hrest as [Hrs Hget]. split; [done|].
    intros k'. rewrite Hget. destruct (decide (k' = k)) as [->|Hne]; [by rewrite Hno, <-Hbest|]. by rewrite Hvo.
Qed.

Lemma segment_next c rem :
  segment_at c rem → yields (segment_next_candidate c) (λ r, match rem with
    | [] => r.2 = None ∧ segment_at r.1 []
    | x :: rem' => ∃ e, r.2 = Some e ∧ segment_names e x ∧ segment_at r.1 rem'
    end).
Proof.
  intros (xs & Hp & Hs & Hrest & Hplaced & Hlen). unfold segment_next_candidate. rewrite (ok_segment _ (proj1 Hp)).
  by eapply next_candidate_yields.
Qed.

(** ** Where the cursor starts *)

Lemma select_read l :
  (∀ x : located, x ∈ l → in_read_ranges ranges x.2.1 = true → sequence x.2.2 ≤ q → row_read x = true) →
  select_rows (in_read_ranges ranges) q (map snd (List.filter row_read l)) = select_rows (in_read_ranges ranges) q (map snd l).
Proof.
  induction l as [|x l IH]; intros Hall; [done|]. cbn [List.filter map]. specialize (IH ltac:(intros; apply Hall; [by right|done..])).
  destruct (row_read x) eqn:E; unfold select_rows in *; cbn [map List.filter].
  - by rewrite IH.
  - rewrite IH. destruct (in_read_ranges ranges x.2.1) eqn:Ein; [|done]. cbn [andb]. destruct (Z.leb_spec (sequence x.2.2) q); [|done].
    rewrite Hall in E; [done|by left|done|done].
Qed.

Lemma placed_read x : placed x.1.1 x.1.2 x.2 → in_read_ranges ranges x.2.1 = true → sequence x.2.2 ≤ q → row_read x = true.
Proof.
  intros (rs & Hrs & Hx) Hin Hq. unfold row_read, group_read. rewrite Hin, andb_true_r. destruct (group_at _ _ _ _ Hseg Hrs) as [g Hg]. rewrite Hg.
  apply list_elem_of_lookup_2 in Hx. pose proof (holds_oldest _ _ _ _ (holds_groups _ _ Hseg _ _ _ Hg Hrs) _ Hx).
  destruct (group_bounds _ _ _ _ _ _ Hseg Hg Hrs Hx) as [Hf Hl].
  rewrite (proj2 (Z.leb_le _ _)) by lia. rewrite andb_true_r. unfold in_read_ranges in Hin. apply existsb_exists in Hin as (r & Hr & Hc).
  apply existsb_exists. exists r. split; [done|]. unfold range_contains in Hc. unfold range_overlaps. apply andb_true_iff in Hc as [Hs He].
  apply andb_true_iff. split; [by eapply leb_trans|]. destruct (range_end r); [|done]. by eapply leb_ltb_trans.
Qed.

Lemma located_placed i x : x ∈ located_from gs i 0 → placed x.1.1 x.1.2 x.2.
Proof.
  rewrite located_start. intros (n & rs & Hi & Hn & Hl)%locate_all_at. exists rs. split; [|done]. rewrite lookup_drop in Hn. by rewrite Hi.
Qed.

Lemma first_start_least r rest k :
  Forall valid_range (r :: rest) → StronglySorted before (r :: rest) → in_read_ranges (r :: rest) k = true → leb (range_start r) k = true.
Proof.
  intros Hv Hs Hin. apply existsb_exists in Hin as (r' & Hr & Hc). apply list_elem_of_In in Hr. unfold range_contains in Hc. apply andb_true_iff in Hc as [Hc _].
  apply elem_of_cons in Hr as [->|Hr]; [done|]. apply Forall_cons in Hv as [Hv _]. inversion Hs as [|? ? _ Hb]; subst. eapply Forall_forall in Hb; [|exact Hr].
  unfold before in Hb. unfold valid_range, range_validate in Hv. destruct (range_end r) as [e|]; [|done]. destruct (leb e (range_start r)) eqn:E; [done|].
  rewrite leb_ltb, negb_false_iff in E. eapply leb_trans; [|exact Hc]. eapply leb_trans; [by apply ltb_leb|done].
Qed.

(** The newest visible version of each key in the ranges. *)
Definition shown_rows (rows rem : list row) : Prop :=
  bt_sorted rem ∧ ∀ k, bt_get k rem = if in_read_ranges ranges k then seen q (versions_of k rows) else None.

Lemma select_shown rows rows' rem :
  select_rows (in_read_ranges ranges) q rows = select_rows (in_read_ranges ranges) q rows' →
  (∀ r, r ∈ rows → in_read_ranges ranges r.1 = true) → shown_rows rows' rem → run_rest rows rem.
Proof.
  intros Hsel Hin [Hs Hget]. split; [done|]. intros k. rewrite Hget. pose proof (versions_of_select (in_read_ranges ranges) q k rows) as Hv.
  rewrite Hsel, versions_of_select in Hv. destruct (in_read_ranges ranges k) eqn:E.
  - unfold seen. by rewrite Hv.
  - rewrite versions_of_nil; [done|]. intros r Hr <-. apply Hin in Hr. congruence.
Qed.

Lemma passes_length : (length (concat gs) < segment_passes seg)%nat.
Proof.
  eapply Nat.le_lt_trans; [|apply (passes_enough 0 0)]. unfold passes_left. rewrite drop_0, Nat.sub_0_r. clear.
  induction gs as [|rs l IH]; [done|]. cbn [concat map]. rewrite length_app. unfold list_sum in *. cbn [foldr]. lia.
Qed.

Lemma filter_sorted (f : located → bool) l : rows_sorted (map snd l) → rows_sorted (map snd (List.filter f l)).
Proof.
  induction l as [|x l IH]; [done|]. cbn [map List.filter]. intros [Hs Hx]%rows_sorted_cons. destruct (f x); [|by apply IH].
  cbn [map]. apply rows_sorted_cons. split; [by apply IH|]. intros r (y & -> & Hy)%list_elem_of_fmap. apply Hx. apply list_elem_of_fmap. exists y.
  split; [done|]. apply list_elem_of_In in Hy. apply filter_In in Hy as [Hy _]. by apply list_elem_of_In.
Qed.

Lemma segment_starts rem :
  Forall valid_range ranges → StronglySorted before ranges → ranges ≠ [] → shown_rows (concat gs) rem →
  segment_at (segment_cursor_new seg ranges q) rem.
Proof.
  intros Hv Hb Hne Hrem. set (c := segment_cursor_new seg ranges q). exists (cursor_rows c).
  assert (∀ x, x ∈ cursor_rows c → x ∈ located_from gs (sc_group c) 0 ∧ row_read x = true) as Hin.
  { intros x Hx. apply list_elem_of_In in Hx. apply filter_In in Hx as [Hx Hr]. split; [by apply list_elem_of_In|done]. }
  assert (map snd (located_from gs (sc_group c) 0) = concat (drop (sc_group c) gs)) as Hrows by (rewrite located_start; apply locate_all_rows).
  assert (concat gs = concat (take (sc_group c) gs) ++ concat (drop (sc_group c) gs)) as Hsplit by (by rewrite <-concat_app, take_drop).
  split; [split; [|done]|].
  { constructor; try done. intros; cbn; lia. }
  split_and!.
  - unfold cursor_rows. apply filter_sorted. pose proof (holds_sorted _ _ Hseg) as Hs. rewrite Hsplit in Hs.
    apply rows_sorted_app in Hs as (_ & Hs & _). by rewrite <-Hrows in Hs.
  - apply (select_shown _ (concat gs)); [| |done].
    + etransitivity; [apply select_read; intros x Hx; apply placed_read; by eapply located_placed|]. change (sc_row c) with 0%nat.
      etransitivity; [exact (f_equal (select_rows (in_read_ranges ranges) q) Hrows)|]. rewrite Hsplit, select_rows_app.
      rewrite (select_rows_nil _ _ (concat (take _ gs))); [done|]. intros r Hr. apply not_true_is_false. intros Hk.
      apply list_elem_of_In, in_concat in Hr as (rs & Hrs & Hr). apply list_elem_of_In, list_elem_of_lookup in Hrs as [i Hi].
      apply list_elem_of_In in Hr. apply lookup_take_Some in Hi as [Hi Hlt]. destruct (group_at _ _ _ _ Hseg Hi) as [g Hg].
      destruct (group_bounds _ _ _ _ _ _ Hseg Hg Hi Hr) as [_ Hlast]. unfold c, segment_cursor_new in Hlt. cbn [sc_group] in Hlt.
      pose proof (partition_point_before (λ g, ltb (group_last_key g) _) _ _ _ Hg Hlt) as Hp. cbn in Hp. clear -Hv Hb Hne Hk Hlast Hp.
      destruct ranges as [|r0 rest]; [done|]. pose proof (first_start_least _ _ _ Hv Hb Hk) as Hle.
      pose proof (leb_ltb_trans _ _ _ Hlast Hp) as Hlt. pose proof (ltb_leb_trans _ _ _ Hlt Hle) as E. by rewrite ltb_irrefl in E.
    + intros r (x & -> & Hx)%list_elem_of_fmap. apply Hin in Hx as [_ Hx]. unfold row_read in Hx. by apply andb_true_iff in Hx as [_ ?].
  - apply Forall_forall. intros x Hx%Hin. by eapply located_placed, Hx.
  - eapply Nat.le_lt_trans; [|apply passes_length]. unfold cursor_rows. etransitivity; [apply List.filter_length_le|].
    assert (length (located_from gs (sc_group c) 0) = length (concat (drop (sc_group c) gs))) as Hl by (rewrite <-Hrows; by rewrite length_map).
    unfold located in *. rewrite Hsplit, length_app. change (sc_row c) with 0%nat. lia.
Qed.

(** ** Values *)

Lemma value_page_yields charged i kind g bytes :
  row_groups seg !! i = Some g → load_page seg i kind = Ok bytes →
  yields (load_projected_value_page seg charged i kind) (λ r, r.2 = bytes).
Proof.
  intros Hg Hl. eapply yields_bind; [by eapply load_metered_page_yields|]. intros ? ->. by apply yields_ret.
Qed.

Definition segment_ready (projection : ProjectedReadProjection) (p : PreparedRow) (k : key) (b : list byte) : Prop :=
  prepared_key p = k ∧ match projection with
  | Key => value_len p = 0
  | KeyValue => value_len p = len b ∧ ∃ i j start end_ data, prepared_location p = InSegment i j (Some start) (Some end_)
      ∧ is_Some (row_groups seg !! i) ∧ load_page seg i ValueData = Ok data ∧ slice_get data start end_ = Some b
  end.

(** Charging pages does not move the cursor. *)
Lemma charge_at c rem a b d : segment_at c rem → segment_at (sc_charge c a b d) rem.
Proof. intros (xs & [[] Hla] & Hrest). exists xs. split; [|done]. by split; [constructor|]. Qed.

Lemma segment_prepares c rem e k v projection :
  segment_at c rem → segment_names e (k, v) → yields (segment_prepare_value c e projection) (λ r, (∀ rem, segment_at c rem → segment_at r.1 rem) ∧
    match value v with None => r.2 = None | Some b => ∃ p, r.2 = Some p ∧ segment_ready projection p k b end).
Proof.
  intros Hat (Hk & Hq & i & j & Hloc & rs & Hrs & Hx). unfold segment_prepare_value. rewrite Hloc.
  assert (sc_segment c = seg) as Hs by (destruct Hat as (xs & [[] _] & _); done). rewrite Hs.
  destruct (group_at _ _ _ _ Hseg Hrs) as [g Hg]. destruct (holds_groups _ _ Hseg _ _ _ Hg Hrs) as [(lg & Hload & Hcol) _ _ _ _ _].
  destruct (Hcol _ _ _ Hx) as (_ & _ & Hval). unfold load_row_group in Hload. destruct (load_key_spine seg i); [|done].
  destruct (load_page seg i ValueValidity) as [validity|] eqn:E1; [|done]. destruct (load_page seg i ValueOffsets) as [offsets|] eqn:E2; [|done].
  destruct (load_page seg i ValueData) as [data|] eqn:E3; [|done]. injection Hload as <-. unfold value_from_loaded in Hval.
  cbn [loaded_validity loaded_offsets loaded_values] in Hval.
  eapply yields_bind; [by eapply value_page_yields|]. intros [charged ?] E; cbn [snd] in E; subst. cbn beta iota.
  destruct (valid_at validity j) as [valid|]; [|done]. eapply yields_bind_lift; [done|].
  destruct valid; cbn [negb] in *; [|apply yields_ret; injection Hval as <-; split; [intros; by apply charge_at|done]].
  unfold binary_at in Hval. destruct (offset_at offsets j) as [start|] eqn:Es; [|done]. destruct (offset_at offsets (j + 1)) as [end_|] eqn:Ee; [|done].
  destruct (Z.ltb_spec end_ start); [done|]. destruct (Z.ltb_spec (len data) end_); [done|]. injection Hval as Hval. rewrite <-Hval.
  assert (0 ≤ start) as Hpos by (unfold offset_at in Es; destruct_matches_in Es; simplify_eq; by apply Z.ltb_ge).
  set (b := slice data (Z.to_nat start) (Z.to_nat end_)).
  assert (slice_get data start end_ = Some b ∧ len b = end_ - start) as [Hb Hlen].
  { unfold b, slice_get, slice. rewrite (proj2 (Z.leb_le _ _)), (proj2 (Z.leb_le end_ _)) by lia. cbn [andb].
    rewrite Z2Nat.inj_sub by lia. split; [done|]. unfold len in *. rewrite length_take, length_drop. lia. }
  destruct projection; cbn [decide_rel]; [rewrite decide_False by done|rewrite decide_True by done].
  - apply yields_ret. split; [intros; by apply charge_at|]. eexists. split; [done|]. by split.
  - cbn [sc_charge sc_segment charged_offsets charged_validity charged_data]. rewrite Hs. eapply yields_bind; [by eapply value_page_yields|].
    intros [charged' ?] E; cbn [snd] in E; subst. cbn beta iota. eapply yields_bind_lift; [exact Es|]. eapply yields_bind_lift; [exact Ee|].
    rewrite (proj2 (Z.ltb_ge _ _)) by lia. apply yields_ret. split; [intros; by apply charge_at, charge_at|]. eexists. split; [done|].
    split; [done|]. split; [done|]. exists i, j, start, end_, data. split_and!; [done|by rewrite Hg|done|done].
Qed.

Lemma segment_copies c rem p k b :
  segment_at c rem → segment_ready KeyValue p k b → yields (segment_copy_value c p) (λ r, (∀ rem, segment_at c rem → segment_at r.1 rem) ∧ r.2 = b).
Proof.
  intros Hat (Hk & Hlen & i & j & start & end_ & data & Hloc & [g Hg] & Hload & Hb). unfold segment_copy_value. rewrite Hloc.
  assert (sc_segment c = seg) as Hs by (destruct Hat as (xs & [[] _] & _); done). rewrite Hs.
  eapply yields_bind; [by eapply value_page_yields|]. intros [charged ?] E; cbn [snd] in E; subst. cbn beta iota.
  eapply yields_bind_lift; [by rewrite Hb|]. rewrite Hlen, Z.eqb_refl. apply yields_ret. split; [intros; by apply charge_at|done].
Qed.
End SegmentCursor.

(** * The memtable cursor *)

Section MemtableCursor.
Context (t : Memtable) (ranges : list ProjectedReadRange) (q : Z).
Context (Hsorted : bt_sorted (versions t)) (Hvalid : Forall valid_range ranges) (Hbefore : StronglySorted before ranges).
Context (Hfew : len ranges * total_versions (versions t) < 2 ^ 64).

Definition after_key (after : option key) (k : key) : bool := match after with Some a => ltb a k | None => true end.

Definition memtable_at (c : MemtableProjectedCursor) (rem : list row) : Prop :=
  mc_table c = t ∧ mc_ranges c = ranges ∧ mc_read_sequence c = q ∧ bt_sorted rem
  ∧ ∀ k, bt_get k rem = if (in_read_ranges ranges k && after_key (mc_after c) k)%bool then get_version t k q else None.
Definition memtable_names (e : ProjectedEntry) (x : row) : Prop :=
  entry_key e = x.1 ∧ entry_sequence e = sequence x.2 ∧ entry_location e = InMemtable ∧ get_version t x.1 q = Some x.2.
Definition memtable_ready (projection : ProjectedReadProjection) (p : PreparedRow) (k : key) (b : list byte) : Prop :=
  prepared_key p = k ∧ value_len p = (if decide (projection = KeyValue) then len b else 0) ∧ (get_version t k q ≫= value) = Some b.

Lemma candidate_rem c rem k s : memtable_at c rem → candidate t ranges (mc_after c) q k s ↔ ∃ v, bt_get k rem = Some v ∧ sequence v = s.
Proof.
  intros (_ & _ & _ & _ & Hget). rewrite Hget. unfold candidate.
  assert ((∃ r, r ∈ ranges ∧ range_contains r k = true) ↔ in_read_ranges ranges k = true) as ->.
  { unfold in_read_ranges. rewrite existsb_exists. by setoid_rewrite list_elem_of_In. }
  assert (match mc_after c with Some a => ltb a k = true | None => True end ↔ after_key (mc_after c) k = true) as -> by (by destruct (mc_after c)).
  destruct (in_read_ranges ranges k), (after_key (mc_after c) k); cbn [andb]; naive_solver.
Qed.

Lemma memtable_next c rem :
  memtable_at c rem → yields (memtable_next_candidate c) (λ r, match rem with
    | [] => r.2 = None ∧ memtable_at r.1 []
    | x :: rem' => ∃ e, r.2 = Some e ∧ memtable_names e x ∧ memtable_at r.1 rem'
    end).
Proof.
  intros Hat. pose proof Hat as (Ht & Hr & Hq & Hs & Hget). unfold memtable_next_candidate. rewrite Ht, Hr, Hq.
  assert (0 ≤ total_versions (versions t)) as Hpos by (apply bt_sum_nonneg, Forall_forall; intros; apply len_nonneg).
  destruct (seek_ranges_spec t ranges (mc_after c) q 0) as (found & ex & Hseek & _ & Hfound); [done..|lia|lia|done|].
  unfold seek_visible_after. rewrite Hseek. eapply yields_bind_lift; [done|]. eapply yields_bind; [apply record_versions_yields|]. intros _ _.
  cbn [next]. destruct found as [[k s]|].
  - destruct Hfound as [Hk Hleast]. apply (candidate_rem c rem _ _ Hat) in Hk as (v & Hv & <-).
    assert (∀ p, p ∈ rem → leb k p.1 = true) as Hlow.
    { intros [k' v'] Hp. apply (Hleast k' (sequence v')), (candidate_rem c rem _ _ Hat). exists v'. split; [by apply bt_elem_get|done]. }
    destruct (bt_head rem k v Hs Hv Hlow) as (rem' & -> & Hs' & Hget'). apply yields_ret. eexists. split; [done|].
    assert (in_read_ranges ranges k = true ∧ after_key (mc_after c) k = true ∧ get_version t k q = Some v) as (Hin & Ha & Hg).
    { rewrite Hget in Hv. by destruct (in_read_ranges ranges k), (after_key _ k). }
    split; [by split_and!|]. split_and!; [done..|]. intros k'. rewrite Hget', Hget. cbn [mc_after fst after_key].
    destruct (decide (k' = k)) as [->|Hne]; [by rewrite ltb_irrefl, andb_false_r|].
    destruct (in_read_ranges ranges k') eqn:Hin'; cbn [andb]; [|done].
    destruct (ltb k k') eqn:Elt.
    + replace (after_key (mc_after c) k') with true; [done|]. destruct (mc_after c); [|done]. cbn in *. symmetry. by eapply ltb_trans.
    + destruct (after_key (mc_after c) k') eqn:Ea; [|done]. destruct (get_version t k' q) as [w|] eqn:Ew; [|done]. exfalso.
      assert (leb k k' = true) as Hle.
      { apply (Hlow (k', w)). apply bt_get_elem. rewrite Hget, Hin', Ea. done. }
      apply Hne. symmetry. apply leb_antisym; [done|]. by rewrite leb_ltb, Elt.
  - apply yields_ret. destruct rem as [|[k v] rem]; [by split|]. exfalso. apply (Hfound k (sequence v)), (candidate_rem c _ _ _ Hat).
    exists v. split; [|done]. apply bt_elem_get; [done|by left].
Qed.

Lemma memtable_starts rem :
  bt_sorted rem → (∀ k, bt_get k rem = if in_read_ranges ranges k then get_version t k q else None) →
  memtable_at {| mc_table := t; mc_ranges := ranges; mc_read_sequence := q; mc_after := None |} rem.
Proof. intros Hs Hget. split_and!; [done..|]. intros k. cbn [mc_after after_key]. by rewrite andb_true_r, Hget. Qed.

Lemma memtable_prepares c rem e k v projection :
  memtable_at c rem → memtable_names e (k, v) → ∃ r, memtable_prepare_value c e projection = Ok r ∧
    match value v with None => r = None | Some b => ∃ p, r = Some p ∧ memtable_ready projection p k b end.
Proof.
  intros (Ht & _ & Hq & _) (Hk & Hs & _ & Hg). cbn [fst snd] in *. unfold memtable_prepare_value. rewrite Ht, Hq, Hk, Hg, Hs, Z.eqb_refl.
  destruct (value v) as [b|] eqn:Ev; [|by eexists]. eexists. split; [done|]. eexists. split; [done|]. split_and!; [done|done|].
  rewrite Hg. exact Ev.
Qed.
Lemma memtable_copies c rem p k b : memtable_at c rem → memtable_ready KeyValue p k b → memtable_copy_value c p = Ok b.
Proof.
  intros (Ht & _ & Hq & _) (Hk & Hl & Hg). unfold memtable_copy_value. rewrite Ht, Hq, Hk, Hg, Hl. by rewrite decide_True, Z.eqb_refl.
Qed.
End MemtableCursor.

(** * Runs *)

Lemma keys_length (rem : list row) (keys : list key) :
  bt_sorted rem → (∀ p, p ∈ rem → p.1 ∈ keys) → (length rem ≤ length keys)%nat.
Proof.
  intros Hs Hin. rewrite <-(length_map fst). apply submseteq_length, NoDup_submseteq.
  - apply NoDup_alt. intros i j k Hi Hj. rewrite list_lookup_fmap in Hi, Hj. destruct (rem !! i) eqn:Ei; [|done]. destruct (rem !! j) eqn:Ej; [|done].
    cbn in Hi, Hj. eapply (bt_sorted_inj rem i j); [done|exact Ei|exact Ej|congruence].
  - intros k (p & -> & Hp)%list_elem_of_fmap. by apply Hin.
Qed.

(** What the merge relies on: a run shows its rows in order, each with an entry that its own
    cursor can later prepare and copy. *)
Record Run := {
  run_at : RunCursor → list row → Prop;
  run_names : ProjectedEntry → row → Prop;
  run_ready : ProjectedReadProjection → PreparedRow → key → list byte → Prop;
  run_named : ∀ e x, run_names e x → entry_key e = x.1 ∧ entry_sequence e = sequence x.2;
  run_sized : ∀ projection p k b, run_ready projection p k b →
    prepared_key p = k ∧ value_len p = if decide (projection = KeyValue) then len b else 0;
  run_renumbered : ∀ projection p k b run, run_ready projection p k b →
    run_ready projection {| prepared_run := run; prepared_key := prepared_key p; value_len := value_len p; prepared_location := prepared_location p |} k b;
  run_bounded : ∀ c rem, run_at c rem → bt_sorted rem ∧ (length rem ≤ run_bound c)%nat;
  run_first : ∀ c rem p, run_at (SegmentRun c) rem → p ∈ rem → leb (first_key (descriptor (sc_segment c))) p.1 = true;
  run_nexts : ∀ c rem, run_at c rem → yields (run_next_candidate c) (λ r, match rem with
    | [] => r.2 = None ∧ run_at r.1 []
    | x :: rem' => ∃ e, r.2 = Some e ∧ run_names e x ∧ run_at r.1 rem' end);
  run_prepares : ∀ c rem e k v projection, run_at c rem → run_names e (k, v) →
    yields (run_prepare_value c e projection) (λ r, (∀ rem, run_at c rem → run_at r.1 rem) ∧
      match value v with None => r.2 = None | Some b => ∃ p, r.2 = Some p ∧ run_ready projection p k b end);
  run_copies : ∀ c rem p k b, run_at c rem → run_ready KeyValue p k b →
    yields (run_copy_value c p) (λ r, (∀ rem, run_at c rem → run_at r.1 rem) ∧ r.2 = b)
}.

Definition at_segment (seg : Segment) (gs : list (list row)) (ranges : list ProjectedReadRange) (q : Z) (c : RunCursor) (rem : list row) : Prop :=
  ∃ sc, c = SegmentRun sc ∧ segment_at seg gs ranges q sc rem.
Definition at_memtable (t : Memtable) (ranges : list ProjectedReadRange) (q : Z) (c : RunCursor) (rem : list row) : Prop :=
  ∃ mc, c = MemtableRun mc ∧ memtable_at t ranges q mc rem.

Lemma segment_bounded seg gs ranges q c rem : segment_at seg gs ranges q c rem → bt_sorted rem ∧ (length rem ≤ segment_passes (sc_segment c))%nat.
Proof.
  intros (xs & [[Hs _ _ _ _] _] & _ & [Hrs Hget] & _ & Hlen). split; [done|]. rewrite Hs. transitivity (length (map (λ x : located, x.2.1) xs)); [|rewrite length_map; lia].
  apply keys_length; [done|]. intros [k v] Hp. apply (bt_elem_get _ _ _ Hrs) in Hp. rewrite Hget in Hp. apply seen_elem in Hp as [Hv%versions_of_elem _].
  apply list_elem_of_fmap in Hv as (x & E & Hx). apply list_elem_of_fmap. exists x. split; [by rewrite <-E|done].
Qed.
Lemma segment_above seg gs ranges q c rem p :
  segment_holds seg gs → segment_at seg gs ranges q c rem → p ∈ rem → leb (first_key (descriptor (sc_segment c))) p.1 = true.
Proof.
  intros Hseg (xs & [[Hs _ _ _ _] _] & _ & [Hrs Hget] & Hplaced & _) Hp. rewrite Hs. destruct p as [k v]. apply (bt_elem_get _ _ _ Hrs) in Hp.
  rewrite Hget in Hp. apply seen_elem in Hp as [Hv%versions_of_elem _]. apply list_elem_of_fmap in Hv as (x & E & Hx).
  eapply Forall_forall in Hplaced; [|exact Hx]. destruct Hplaced as (rs & Hrs' & Hr). rewrite <-E in Hr.
  apply (holds_bounds _ _ Hseg (k, v)). apply list_elem_of_In, in_concat. exists rs. split; apply list_elem_of_In; by eapply list_elem_of_lookup_2.
Qed.
Lemma memtable_bounded t ranges q c rem : memtable_at t ranges q c rem → bt_sorted rem ∧ (length rem ≤ length (versions (mc_table c)))%nat.
Proof.
  intros (Ht & _ & _ & Hrs & Hget). split; [done|]. rewrite Ht, <-(length_map fst (versions t)). apply keys_length; [done|].
  intros [k v] Hp. apply (bt_elem_get _ _ _ Hrs) in Hp. rewrite Hget in Hp. destruct (_ && _)%bool; [|done]. unfold get_version in Hp.
  destruct (bt_get k (versions t)) as [ch|] eqn:E; [|done]. apply bt_get_elem in E. apply list_elem_of_fmap. by exists (k, ch).
Qed.

Program Definition segment_run (seg : Segment) (gs : list (list row)) (ranges : list ProjectedReadRange) (q : Z) (Hseg : segment_holds seg gs) : Run := {|
  run_at := at_segment seg gs ranges q;
  run_names := segment_names gs;
  run_ready := segment_ready seg
|}.
Next Obligation. intros seg gs ranges q Hseg e x (Hk & Hs & _). done. Qed.
Next Obligation. intros seg gs ranges q Hseg projection p k b [Hk Hp]. split; [done|]. destruct projection; [done|]. by destruct Hp as [-> _]. Qed.
Next Obligation. intros seg gs ranges q Hseg projection p k b run Hp. exact Hp. Qed.
Next Obligation. intros seg gs ranges q Hseg c rem (sc & -> & Hat). by eapply segment_bounded. Qed.
Next Obligation. intros seg gs ranges q Hseg c rem p (sc & [= ->] & Hat) Hp. by eapply segment_above. Qed.
Next Obligation.
  intros seg gs ranges q Hseg c rem (sc & -> & Hat). eapply yields_bind; [by apply segment_next|]. intros [c' e] Hr. apply yields_ret.
  cbn [fst snd] in *. destruct rem as [|x rem]; [destruct Hr as [-> Hr]; split; [done|by eexists]|].
  destruct Hr as (e' & -> & Hn & Hr). exists e'. split_and!; [done|done|by eexists].
Qed.
Next Obligation.
  intros seg gs ranges q Hseg c rem e k v projection (sc & -> & Hat) Hn. eapply yields_bind; [by eapply segment_prepares|]. intros [c' r] [Hr Hv]. apply yields_ret.
  split; [intros rem' (sc' & [= <-] & Hat'); eexists; by split; [|apply Hr]|done].
Qed.
Next Obligation.
  intros seg gs ranges q Hseg c rem p k b (sc & -> & Hat) Hp. eapply yields_bind; [by eapply segment_copies|]. intros [c' r] [Hr Hv]. apply yields_ret.
  split; [intros rem' (sc' & [= <-] & Hat'); eexists; by split; [|apply Hr]|done].
Qed.

Program Definition memtable_run (t : Memtable) (ranges : list ProjectedReadRange) (q : Z) (Hsorted : bt_sorted (versions t)) (Hvalid : Forall valid_range ranges)
    (Hbefore : StronglySorted before ranges) (Hfew : len ranges * total_versions (versions t) < 2 ^ 64) : Run := {|
  run_at := at_memtable t ranges q;
  run_names := memtable_names t q;
  run_ready := memtable_ready t q
|}.
Next Obligation. intros t ranges q ? ? ? ? e x (Hk & Hs & _). done. Qed.
Next Obligation. intros t ranges q ? ? ? ? projection p k b (Hk & Hs & _). done. Qed.
Next Obligation. intros t ranges q ? ? ? ? projection p k b run Hp. exact Hp. Qed.
Next Obligation. intros t ranges q ? ? ? ? c rem (mc & -> & Hat). by eapply memtable_bounded. Qed.
Next Obligation. intros t ranges q ? ? ? ? c rem p (mc & ? & Hat) Hp. done. Qed.
Next Obligation.
  intros t ranges q ? ? ? ? c rem (mc & -> & Hat). eapply yields_bind; [by eapply memtable_next|]. intros [c' e] Hr. apply yields_ret.
  cbn [fst snd] in *. destruct rem as [|x rem]; [destruct Hr as [-> Hr]; split; [done|by eexists]|].
  destruct Hr as (e' & -> & Hn & Hr). exists e'. split_and!; [done|done|by eexists].
Qed.
Next Obligation.
  intros t ranges q ? ? ? ? c rem e k v projection (mc & -> & Hat) Hn. destruct (memtable_prepares t ranges q mc rem e k v projection Hat Hn) as (r & E & Hr).
  eapply yields_bind_lift; [exact E|]. apply yields_ret. by split.
Qed.
Next Obligation.
  intros t ranges q ? ? ? ? c rem p k b (mc & -> & Hat) Hp. eapply yields_bind_lift; [by eapply memtable_copies|]. apply yields_ret. by split.
Qed.
