(* ===== verification/Merge.v ===== *)
(** The merge of the projected reader ([rrd-lsm]: segment/reader.rs,
    [ProjectedReadStream::initialize], [open_competing_runs], [advance] and [next_row]).

    The merge is proved against what a run promises ([Run] of Cursors): it returns the keys of
    all runs in ascending order, each once, with the value of its newest version, and leaves
    deleted keys out.  It stops early only when the budget does. *)

From S2P Require Import Prelude Machine BTree LsmError Batch RecoveryBudget Wal Memtable Transaction Versions SegmentFormat Segment SegmentFile SegmentWrite PointIndex Database Reader Cursors.
Open Scope Z_scope.

(** * The heap *)

Definition by_key (heap : list HeapItem) : Prop := StronglySorted (λ a b : HeapItem, leb a.1 b.1 = true) heap.

Lemma heap_push_perm item heap : heap_push item heap ≡ₚ item :: heap.
Proof.
  induction heap as [|top rest IH]; [done|]. cbn [heap_push]. destruct (item_cmp item top); [done|done|]. rewrite IH. by constructor.
Qed.
Lemma item_cmp_leb a b : item_cmp a b ≠ Gt → leb a.1 b.1 = true.
Proof. unfold item_cmp, leb, then_. by destruct (cmp a.1 b.1). Qed.
Lemma item_cmp_gt a b : item_cmp a b = Gt → leb b.1 a.1 = true.
Proof. unfold item_cmp, leb, then_. rewrite (cmp_antisym a.1 b.1). by destruct (cmp a.1 b.1). Qed.
Lemma heap_push_sorted item heap : by_key heap → by_key (heap_push item heap).
Proof.
  induction 1 as [|top rest Hs IH Hall]; cbn [heap_push]; [repeat constructor|].
  destruct (item_cmp item top) eqn:E.
  1,2: constructor; [by constructor|]; assert (leb item.1 top.1 = true) by (apply item_cmp_leb; congruence); constructor; [done|];
    eapply Forall_impl; [exact Hall|]; intros x Hx; by eapply leb_trans.
  constructor; [done|]. rewrite heap_push_perm. constructor; [by apply item_cmp_gt|done].
Qed.

Lemma pop_key_spec k heap :
  by_key heap → (∀ x, x ∈ heap → leb k x.1 = true) →
  heap = map (k,.) (pop_key k heap).1 ++ (pop_key k heap).2 ∧ by_key (pop_key k heap).2 ∧ ∀ x, x ∈ (pop_key k heap).2 → ltb k x.1 = true.
Proof.
  induction 1 as [|[k' i] rest Hs IH Hall]; intros Hk; cbn [pop_key]; [by split_and!; [|constructor|intros ? ?%not_elem_of_nil]|]. cbn [fst snd].
  destruct (bool_decide_reflect (k' = k)) as [->|Hne].
  - destruct IH as (IH1 & IH2 & IH3); [intros; apply Hk; by right|]. destruct (pop_key k rest) as [runs heap']. cbn [fst snd map app] in *. split_and!; [by rewrite IH1 at 1|done|done].
  - split_and!; [done|by constructor|]. cbn [snd].
    assert (ltb k k' = true) as Hlt.
    { destruct (ltb k k') eqn:E; [done|]. exfalso. apply Hne. apply leb_antisym; [by rewrite leb_ltb, E|]. apply (Hk (k', i)). by left. }
    intros x [->|Hx]%elem_of_cons; [done|]. eapply Forall_forall in Hall; [|exact Hx]. by eapply ltb_leb_trans.
Qed.

(** * Where the runs are *)

Section Merge.
Context (Rs : list Run).

(** What run [i] has still to show, given its head: it is not opened yet and nothing of it is
    below the key it waits under, or its head is on the heap, or it is exhausted, or it waits
    to be advanced. *)
Definition run_state (st : ProjectedReadStream) (loose : list nat) (i : nat) (R : Run) (c : RunCursor) (h : option ProjectedEntry) (rem : list row) : Prop :=
  (∃ fk, (fk, i) ∈ st_unopened st ∧ h = None ∧ run_at R c rem ∧ ∀ p, p ∈ rem → leb fk p.1 = true)
  ∨ (∃ e x rem', rem = x :: rem' ∧ h = Some e ∧ run_names R e x ∧ run_at R c rem' ∧ (x.1, i) ∈ st_heap st)
  ∨ (h = None ∧ rem = [] ∧ run_at R c [])
  ∨ (i ∈ loose ∧ h = None ∧ run_at R c rem).

Record stream_at (st : ProjectedReadStream) (loose : list nat) (rems : list (list row)) : Prop := {
  sa_cursors : length (st_cursors st) = length Rs;
  sa_heads : length (st_heads st) = length Rs;
  sa_rems : length rems = length Rs;
  sa_heap : by_key (st_heap st);
  sa_unopened : by_key (st_unopened st);
  sa_once : NoDup (map snd (st_unopened st));
  sa_distinct : NoDup (map snd (st_heap st));
  sa_loose : NoDup loose;
  sa_sorted : Forall bt_sorted rems;
  sa_runs : ∀ i R c h rem, Rs !! i = Some R → st_cursors st !! i = Some c → st_heads st !! i = Some h → rems !! i = Some rem →
    run_state st loose i R c h rem;
  sa_headed : ∀ k i, (k, i) ∈ st_heap st → ∃ e, st_heads st !! i = Some (Some e);
  sa_fresh : ∀ k i, (k, i) ∈ st_unopened st → st_heads st !! i = Some None ∧ i ∉ loose;
  sa_waiting : ∀ i, i ∈ loose → st_heads st !! i = Some None
}.

(** What the merge does not touch. *)
Definition same_frame (st st' : ProjectedReadStream) : Prop :=
  st_projection st' = st_projection st ∧ st_pending st' = st_pending st ∧ st_initialized st' = st_initialized st
  ∧ st_terminal st' = st_terminal st.
Lemma frame_refl st : same_frame st st.
Proof. done. Qed.
Lemma frame_trans a b c : same_frame a b → same_frame b c → same_frame a c.
Proof. intros (? & ? & ? & ?) (? & ? & ? & ?). repeat split; congruence. Qed.

Lemma stream_run st loose rems i : stream_at st loose rems → (i < length Rs)%nat →
  ∃ R c h rem, Rs !! i = Some R ∧ st_cursors st !! i = Some c ∧ st_heads st !! i = Some h ∧ rems !! i = Some rem ∧ run_state st loose i R c h rem.
Proof.
  intros Hst Hi. destruct (lookup_lt_is_Some_2 Rs i Hi) as [R HR]. destruct (lookup_lt_is_Some_2 (st_cursors st) i) as [c Hc]; [by rewrite (sa_cursors _ _ _ Hst)|].
  destruct (lookup_lt_is_Some_2 (st_heads st) i) as [h Hh]; [by rewrite (sa_heads _ _ _ Hst)|]. destruct (lookup_lt_is_Some_2 rems i) as [rem Hrem]; [by rewrite (sa_rems _ _ _ Hst)|].
  exists R, c, h, rem. split_and!; [done..|]. by eapply sa_runs.
Qed.
Lemma heads_bound st loose rems i h : stream_at st loose rems → st_heads st !! i = Some h → (i < length Rs)%nat.
Proof. intros Hst Hh. rewrite <-(sa_heads _ _ _ Hst). by eapply lookup_lt_Some. Qed.

(** A run that waits to be advanced has its cursor at its rest. *)
Lemma loose_run st l rems i :
  stream_at st (i :: l) rems → ∃ R c rem, Rs !! i = Some R ∧ st_cursors st !! i = Some c ∧ rems !! i = Some rem ∧ run_at R c rem.
Proof.
  intros Hst. pose proof (sa_waiting _ _ _ Hst i ltac:(by left)) as Hh. destruct (stream_run st (i :: l) rems i Hst) as (R & c & h & rem & HR & Hc & Hh' & Hrem & Hs);
    [by eapply heads_bound|]. rewrite Hh in Hh'. injection Hh' as <-. exists R, c, rem. split_and!; [done..|].
  destruct Hs as [(fk & Hin & _)|[(e & x & r & _ & ? & _)|[(_ & -> & ?)|(_ & _ & ?)]]]; try done.
  by destruct (sa_fresh _ _ _ Hst _ _ Hin) as [_ []]; left.
Qed.

(** * Advancing and opening runs *)

(** The state of a run is kept when it is kept on the heap, among the unopened and among the waiting. *)
Lemma run_state_mono st st' loose loose' i R c h rem :
  (∀ k, (k, i) ∈ st_unopened st → (k, i) ∈ st_unopened st' ∨ i ∈ loose') → (∀ k, (k, i) ∈ st_heap st → (k, i) ∈ st_heap st') → (i ∈ loose → i ∈ loose') →
  run_state st loose i R c h rem → run_state st' loose' i R c h rem.
Proof.
  intros Hu Hh Hl [(fk & Hin & -> & Hat & Hle)|[(e & x & r & -> & -> & Hn & Hat & Hin)|[?|(? & ? & ?)]]].
  - destruct (Hu _ Hin) as [Hin'|Hloose]; [left; by exists fk|by right; right; right].
  - right; left. exists e, x, r. by split_and!; [..|apply Hh].
  - by right; right; left.
  - right; right; right. by split_and!; [apply Hl|..].
Qed.

Lemma advance_at st l rems i :
  stream_at st (i :: l) rems →
  yields (advance st i) (λ st', stream_at st' l rems ∧ same_frame st st' ∧ st_unopened st' = st_unopened st).
Proof.
  intros Hst. destruct (loose_run _ _ _ _ Hst) as (R & c & rem & HR & Hc & Hrem & Hat). unfold advance. rewrite Hc.
  pose proof (sa_waiting _ _ _ Hst i ltac:(by left)) as Hhead.
  pose proof (sa_loose _ _ _ Hst) as Hloose. apply NoDup_cons in Hloose as [Hnew Hnd].
  assert (∀ k, (k, i) ∉ st_heap st) as Hnot.
  { intros k Hin. destruct (sa_headed _ _ _ Hst _ _ Hin) as [e He]. congruence. }
  eapply yields_bind; [by apply run_nexts|]. intros [c' entry] Hnext. cbn [fst snd] in Hnext.
  destruct rem as [|x rem].
  - destruct Hnext as [-> Hat']. apply yields_ret. split; [|by split]. destruct Hst. constructor; cbn [st_runs st_cursors st_heads st_heap st_unopened]; try done.
    + by rewrite length_insert.
    + intros j R' c1 h1 rem1 HR' Hc1 Hh1 Hrem1. destruct (decide (j = i)) as [->|Hne].
      * right; right; left. rewrite list_lookup_insert_eq in Hc1 by (by eapply lookup_lt_Some). simplify_eq. done.
      * rewrite list_lookup_insert_ne in Hc1 by done. eapply (run_state_mono st); [..|by eauto]; cbn [st_runs st_heap st_unopened]; [auto|done|].
        by intros [->|?]%elem_of_cons.
    + intros k j Hin. destruct (sa_fresh0 k j Hin) as [? Hf]. split; [done|]. intros ?. apply Hf. by right.
    + intros j Hj. apply sa_waiting0. by right.
  - destruct Hnext as (e & -> & Hn & Hat'). destruct (run_named _ _ _ Hn) as [Hk _]. apply yields_ret. split; [|by split].
    assert (i < length (st_heads st))%nat as Hi by (by eapply lookup_lt_Some).
    destruct Hst. constructor; cbn [st_runs st_cursors st_heads st_heap st_unopened]; try done.
    + by rewrite length_insert.
    + by rewrite length_insert.
    + by apply heap_push_sorted.
    + rewrite heap_push_perm. cbn [map snd]. apply NoDup_cons. split; [|done]. intros ([k j] & -> & Hin)%list_elem_of_fmap. by apply (Hnot k).
    + intros j R' c1 h1 rem1 HR' Hc1 Hh1 Hrem1. destruct (decide (j = i)) as [->|Hne].
      * right; left. rewrite list_lookup_insert_eq in Hc1 by (by eapply lookup_lt_Some). rewrite list_lookup_insert_eq in Hh1 by done. simplify_eq.
        exists e, x, rem. split_and!; [done..|]. cbn [st_runs st_heap]. rewrite heap_push_perm, Hk. by left.
      * rewrite list_lookup_insert_ne in Hc1 by done. rewrite list_lookup_insert_ne in Hh1 by done. eapply (run_state_mono st); [..|by eauto]; cbn [st_runs st_heap st_unopened]; [auto| |].
        -- intros k Hin. rewrite heap_push_perm. by right.
        -- by intros [->|?]%elem_of_cons.
    + intros k j Hin. rewrite heap_push_perm in Hin. destruct (decide (j = i)) as [->|Hne]; [rewrite list_lookup_insert_eq by done; by eexists|].
      rewrite list_lookup_insert_ne by done. apply elem_of_cons in Hin as [[=]|Hin]; [done|by eauto].
    + intros k j Hin. destruct (sa_fresh0 k j Hin) as [Hj Hf]. assert (j ≠ i) by (intros ->; apply Hf; by left).
      rewrite list_lookup_insert_ne by done. split; [done|]. intros ?. apply Hf. by right.
    + intros j Hj. rewrite list_lookup_insert_ne by (by intros ->). apply sa_waiting0. by right.
Qed.

Lemma advance_all st l rems :
  stream_at st l rems → yields (mfold advance st l) (λ st', stream_at st' [] rems ∧ same_frame st st' ∧ st_unopened st' = st_unopened st).
Proof.
  revert st. induction l as [|i l IH]; intros st Hst; cbn [mfold]; [by apply yields_ret|].
  eapply yields_bind; [by apply advance_at|]. intros st1 (Hst1 & Hf1 & Hu1). eapply yields_mono; [by apply IH|].
  intros st2 (Hst2 & Hf2 & Hu2). split_and!; [done|by eapply frame_trans|congruence].
Qed.

(** No run still closed could have a key at or below the top of the heap. *)
Definition settled (st : ProjectedReadStream) : Prop :=
  match st_heap st with [] => st_unopened st = [] | top :: _ => ∀ x, x ∈ st_unopened st → ltb top.1 x.1 = true end.

Lemma open_run st rems item rest :
  stream_at st [] rems → st_unopened st = item :: rest →
  stream_at (st_runs st (st_cursors st) (st_heads st) (st_heap st) rest) [item.2] rems.
Proof.
  destruct item as [k i]. intros Hst Hu. destruct (sa_fresh _ _ _ Hst k i) as [Hi _]; [rewrite Hu; by left|].
  destruct Hst. rewrite Hu in *. cbn [map snd] in *. apply NoDup_cons in sa_once0 as [Hnew Hnd].
  constructor; cbn [st_runs st_cursors st_heads st_heap st_unopened snd]; try done.
  - by inversion sa_unopened0.
  - apply NoDup_singleton.
  - intros j R c h rem HR Hc Hh Hrem. eapply (run_state_mono st); [..|by eauto]; cbn [st_runs st_heap st_unopened]; [|done|by intros ?%not_elem_of_nil].
    intros k'. rewrite Hu. intros [[= -> ->]|?]%elem_of_cons; [right; by left|by left].
  - intros k' j Hin. destruct (sa_fresh0 k' j) as [Hj _]; [by right|]. split; [done|]. intros ->%list_elem_of_singleton.
    apply Hnew. apply list_elem_of_fmap. by exists (k', i).
  - by intros j ->%list_elem_of_singleton.
Qed.

Lemma open_competing_at l st rems :
  stream_at st [] rems → st_unopened st = l →
  yields (open_competing_loop l st) (λ st', stream_at st' [] rems ∧ same_frame st st' ∧ settled st').
Proof.
  revert st. induction l as [|item rest IH]; intros st Hst Hu; cbn [open_competing_loop].
  { apply yields_ret. split_and!; [done|done|]. unfold settled. rewrite Hu. destruct (st_heap st); [done|]. by intros x ?%not_elem_of_nil. }
  destruct (match st_heap st with [] => true | top :: _ => leb item.1 top.1 end) eqn:E.
  - eapply yields_bind; [apply advance_at; by apply open_run|]. intros st1 (Hst1 & Hf1 & Hu1). eapply yields_mono; [by apply IH|].
    intros st2 (Hst2 & Hf2 & Hs2). split_and!; [done| |done]. by eapply frame_trans.
  - apply yields_ret. split_and!; [done|done|]. unfold settled. destruct (st_heap st) as [|top heap]; [done|]. rewrite leb_ltb, negb_false_iff in E.
    pose proof (sa_unopened _ _ _ Hst) as Hs. rewrite Hu in *. intros x [->|Hx]%elem_of_cons; [done|].
    inversion Hs as [|? ? _ Hall]; subst. eapply Forall_forall in Hall; [|exact Hx]. by eapply ltb_leb_trans.
Qed.

(** * One row of the merge *)

(** The newest version of a key over what the runs have left, the rows that are alive, and
    that no two runs have the same version of a key. *)
Definition latest (rems : list (list row)) (k : key) : option VersionedValue := newest (omap (bt_get k) rems).
Definition live (rems : list (list row)) (out : list (key * list byte)) : Prop :=
  bt_sorted out ∧ ∀ k, bt_get k out = latest rems k ≫= value.
Definition distinct_runs (rems : list (list row)) : Prop :=
  ∀ i j ri rj k v w, rems !! i = Some ri → rems !! j = Some rj → i ≠ j → bt_get k ri = Some v → bt_get k rj = Some w → sequence v ≠ sequence w.

(** What is left of a run once the key is taken. *)
Definition behind (k : key) (rem : list row) : list row :=
  match rem with x :: rest => if decide (x.1 = k) then rest else rem | [] => [] end.

Lemma behind_get k rem k' :
  bt_sorted rem → (∀ p, p ∈ rem → leb k p.1 = true) →
  bt_sorted (behind k rem) ∧ bt_get k' (behind k rem) = if decide (k' = k) then None else bt_get k' rem.
Proof.
  intros Hs Hle. destruct (bt_get k rem) as [v|] eqn:E.
  - destruct (bt_head rem k v Hs E Hle) as (rest & -> & Hs' & Hget). cbn [behind fst]. rewrite decide_True by done. by split.
  - assert (behind k rem = rem) as ->.
    { destruct rem as [|[k0 v0] rest]; [done|]. cbn [behind fst]. rewrite decide_False; [done|]. intros ->.
      rewrite (bt_elem_get k v0 _ Hs) in E; [done|by left]. }
    split; [done|]. by destruct (decide (k' = k)) as [->|].
Qed.
Lemma behind_latest k rems k' :
  Forall bt_sorted rems → (∀ rem p, rem ∈ rems → p ∈ rem → leb k p.1 = true) →
  latest (map (behind k) rems) k' = if decide (k' = k) then None else latest rems k'.
Proof.
  intros Hs Hle. unfold latest. assert (omap (bt_get k') (map (behind k) rems) = if decide (k' = k) then [] else omap (bt_get k') rems) as ->;
    [|by destruct (decide (k' = k))].
  induction Hs as [|rem rems Hr Hs IH]; [by destruct (decide (k' = k))|]. specialize (IH ltac:(intros; eapply Hle; [by right|done])).
  destruct (behind_get k rem k' Hr) as [_ E]; [intros; eapply Hle; [by left|done]|]. cbn [map].
  assert (∀ (r : list row) l, omap (bt_get k') (r :: l) = match bt_get k' r with Some v => v :: omap (bt_get k') l | None => omap (bt_get k') l end) as Hc by done.
  rewrite !Hc, E, IH. by destruct (decide (k' = k)).
Qed.
Lemma behind_distinct k rems :
  Forall bt_sorted rems → (∀ rem p, rem ∈ rems → p ∈ rem → leb k p.1 = true) → distinct_runs rems → distinct_runs (map (behind k) rems).
Proof.
  intros Hs Hle Hd i j ri rj k' v w Hi Hj Hne Hv Hw. rewrite list_lookup_fmap in Hi, Hj.
  destruct (rems !! i) as [ri'|] eqn:Ei; [|done]. destruct (rems !! j) as [rj'|] eqn:Ej; [|done]. cbn in Hi, Hj. injection Hi as <-. injection Hj as <-.
  assert (∀ r, r ∈ rems → ∀ x, bt_get k' (behind k r) = Some x → bt_get k' r = Some x) as Hb.
  { intros r Hr x Hx. destruct (behind_get k r k') as [_ E]; [by eapply Forall_forall in Hs|by intros; eapply Hle|]. rewrite E in Hx. by destruct (decide (k' = k)). }
  eapply (Hd i j); [exact Ei|exact Ej|done|apply Hb; [by eapply list_elem_of_lookup_2|exact Hv]|apply Hb; [by eapply list_elem_of_lookup_2|exact Hw]].
Qed.

Lemma top_least st rems top heap rem p :
  stream_at st [] rems → settled st → st_heap st = top :: heap → rem ∈ rems → p ∈ rem → leb top.1 p.1 = true.
Proof.
  intros Hst Hset Htop Hrem Hp. apply list_elem_of_lookup in Hrem as [i Hi].
  assert (i < length Rs)%nat as Hlt by (rewrite <-(sa_rems _ _ _ Hst); by eapply lookup_lt_Some).
  destruct (stream_run _ _ _ _ Hst Hlt) as (R & c & h & rem' & HR & Hc & Hh & Hrem' & Hs). simplify_eq.
  destruct Hs as [(fk & Hin & _ & _ & Hle)|[(e & x & r & -> & _ & _ & _ & Hin)|[(_ & -> & _)|(?%not_elem_of_nil & _)]]]; [..|by apply not_elem_of_nil in Hp|done].
  - unfold settled in Hset. rewrite Htop in Hset. apply ltb_leb. eapply ltb_leb_trans; [exact (Hset _ Hin)|by apply Hle].
  - pose proof (sa_heap _ _ _ Hst) as Hb. rewrite Htop in Hb, Hin. inversion Hb as [|? ? _ Hall]; subst.
    assert (leb top.1 x.1 = true) as Htx.
    { apply elem_of_cons in Hin as [<-|Hin]; [apply leb_refl|]. eapply Forall_forall in Hall; [|exact Hin]. done. }
    apply elem_of_cons in Hp as [->|Hp]; [done|]. eapply leb_trans; [exact Htx|]. apply ltb_leb.
    pose proof (sa_sorted _ _ _ Hst) as Hso. eapply Forall_forall in Hso; [|by eapply list_elem_of_lookup_2]. apply (bt_sorted_app [x]) in Hso as (_ & _ & Hlt').
    apply Hlt'; [by left|done].
Qed.

Lemma take_heads_spec manifest k runs heads sequences :
  NoDup runs → (∀ i, i ∈ runs → ∃ e, heads !! i = Some (Some e) ∧ entry_key e = k ∧ bt_get (entry_sequence e) sequences = None) →
  (∀ i j e e', i ∈ runs → j ∈ runs → i ≠ j → heads !! i = Some (Some e) → heads !! j = Some (Some e') → entry_sequence e ≠ entry_sequence e') →
  ∃ entries heads', take_heads manifest k runs heads sequences = Ok (entries, heads') ∧ length heads' = length heads
    ∧ (∀ j, heads' !! j = if decide (j ∈ runs) then Some None else heads !! j)
    ∧ (∀ i e, (i, e) ∈ entries ↔ i ∈ runs ∧ heads !! i = Some (Some e)).
Proof.
  intros Hnd. revert heads sequences. induction Hnd as [|i runs Hnew Hnd IH]; intros heads sequences Hruns Hdist; cbn [take_heads].
  { exists [], heads. split_and!; [done|done|intros j; by rewrite decide_False by apply not_elem_of_nil|]. intros i e. split; [by intros ?%not_elem_of_nil|by intros [?%not_elem_of_nil _]]. }
  destruct (Hruns i ltac:(by left)) as (e & He & Hk & Hseq). rewrite He, bool_decide_eq_true_2 by done. cbn [negb]. rewrite Hseq.
  assert (∀ j, j ∈ runs → <[i:=None]> heads !! j = heads !! j) as Hkeep by (intros j Hj; apply list_lookup_insert_ne; by intros ->).
  destruct (IH (<[i := None]> heads) (bt_insert (entry_sequence e) i sequences)) as (entries & heads' & -> & Hlen & Hheads & Hentries).
  { intros j Hj. destruct (Hruns j ltac:(by right)) as (e' & He' & Hk' & Hseq'). exists e'. rewrite Hkeep by done. split_and!; [done..|].
    rewrite bt_get_insert_ne; [done|]. eapply (Hdist i j); [by left|by right|by intros ->|done|done]. }
  { intros j j' e1 e2 Hj Hj' Hne. rewrite !Hkeep by done. apply Hdist; [by right|by right|done]. }
  eexists _, heads'. split; [done|]. rewrite length_insert in Hlen. split; [done|]. split.
  - intros j. rewrite Hheads. destruct (decide (j ∈ runs)) as [Hj|Hj]; [by rewrite decide_True by (by right)|].
    destruct (decide (j = i)) as [->|Hne].
    + rewrite decide_True by (by left). apply list_lookup_insert_eq. by eapply lookup_lt_Some.
    + rewrite decide_False by (intros [?|?]%elem_of_cons; done). by apply list_lookup_insert_ne.
  - intros j e'. rewrite !elem_of_cons, Hentries. split.
    + intros [[= -> ->]|[Hj Hh]]; [by split; [left|]|]. split; [by right|]. by rewrite <-Hkeep.
    + intros [[->|Hj] Hh]; [left; congruence|right]. split; [done|]. by rewrite Hkeep.
Qed.

Lemma winner_spec entries :
  entries ≠ [] → ∃ x, winner_of entries = Some x ∧ x ∈ entries ∧ ∀ y, y ∈ entries → entry_sequence y.2 ≤ entry_sequence x.2.
Proof.
  unfold winner_of. intros Hne. destruct entries as [|x0 l]; [done|]. clear Hne. cbn [fold_left].
  assert (∀ b, ∃ x, fold_left (λ best (x : nat * ProjectedEntry), match best with
    | Some b => if entry_sequence x.2 <? entry_sequence b.2 then Some b else Some x | None => Some x end) l (Some b) = Some x
    ∧ (x = b ∨ x ∈ l) ∧ entry_sequence b.2 ≤ entry_sequence x.2 ∧ ∀ y, y ∈ l → entry_sequence y.2 ≤ entry_sequence x.2) as H.
  { induction l as [|y l IH]; intros b; cbn [fold_left].
    - exists b. split_and!; [done|by left|done|by intros ? ?%not_elem_of_nil].
    - destruct (Z.ltb_spec (entry_sequence y.2) (entry_sequence b.2)) as [Hlt|Hge].
      + destruct (IH b) as (x & -> & Hx & Hb & Hall). exists x. split_and!; [done|destruct Hx; [by left|right; by right]|done|].
        intros z [->|Hz]%elem_of_cons; [lia|auto].
      + destruct (IH y) as (x & -> & Hx & Hb & Hall). exists x. split_and!; [done|right; destruct Hx as [->|]; [by left|by right]|lia|].
        intros z [->|Hz]%elem_of_cons; [lia|auto]. }
  destruct (H x0) as (x & -> & Hx & Hb & Hall). exists x. split_and!; [done|destruct Hx as [->|]; [by left|by right]|].
  intros y [->|Hy]%elem_of_cons; auto.
Qed.

Lemma headed_run st loose rems k i :
  stream_at st loose rems → (k, i) ∈ st_heap st →
  ∃ R c e v rem, Rs !! i = Some R ∧ st_cursors st !! i = Some c ∧ st_heads st !! i = Some (Some e) ∧ rems !! i = Some ((k, v) :: rem)
    ∧ run_names R e (k, v) ∧ run_at R c rem.
Proof.
  intros Hst Hin. destruct (sa_headed _ _ _ Hst _ _ Hin) as [e He]. destruct (stream_run st loose rems i Hst) as (R & c & h & rem & HR & Hc & Hh & Hrem & Hs);
    [by eapply heads_bound|]. rewrite He in Hh. injection Hh as <-.
  destruct Hs as [(? & _ & ? & _)|[(e' & [k' v] & r & -> & [= <-] & Hn & Hat & Hin')|[(? & _)|(_ & ? & _)]]]; try done.
  assert (k' = k) as ->.
  { pose proof (sa_distinct _ _ _ Hst) as Hnd. apply list_elem_of_lookup in Hin as [a Ha], Hin' as [b Hb].
    assert (a = b) as ->; [|cbn in Hb; congruence]. rewrite NoDup_alt in Hnd. apply (Hnd a b i); by rewrite list_lookup_fmap, ?Ha, ?Hb. }
  by exists R, c, e, v, r.
Qed.

(** A run that shows the least key has it on top of the heap. *)
Lemma key_on_heap st rems k i rem v heap :
  stream_at st [] rems → settled st → st_heap st = heap → fst <$> head heap = Some k → rems !! i = Some rem → bt_get k rem = Some v →
  (∀ p, p ∈ rem → leb k p.1 = true) → (k, i) ∈ heap.
Proof.
  intros Hst Hset <- Htop Hi Hv Hle. assert (i < length Rs)%nat as Hlt by (rewrite <-(sa_rems _ _ _ Hst); by eapply lookup_lt_Some).
  destruct (stream_run _ _ _ _ Hst Hlt) as (R & c & h & rem' & HR & Hc & Hh & Hrem' & Hs). simplify_eq. pose proof (bt_get_elem _ _ _ Hv) as Hin.
  destruct Hs as [(fk & Hu & _ & _ & Hf)|[(e & x & r & -> & _ & _ & _ & Hx)|[(_ & -> & _)|(?%not_elem_of_nil & _)]]]; [..|by apply not_elem_of_nil in Hin|done].
  - specialize (Hf _ Hin). cbn in Hf. unfold settled in Hset. destruct (st_heap st) as [|top heap]; [done|]. cbn in Htop. injection Htop as <-.
    specialize (Hset _ Hu). cbn in Hset. pose proof (ltb_leb_trans _ _ _ Hset Hf) as E. by rewrite ltb_irrefl in E.
  - pose proof (sa_sorted _ _ _ Hst) as Hso. eapply Forall_forall in Hso; [|by eapply list_elem_of_lookup_2].
    destruct (bt_head _ _ _ Hso Hv Hle) as (r' & [= -> ->] & _). done.
Qed.

Lemma popped st rems k heap :
  stream_at st [] rems → fst <$> head (st_heap st) = Some k → (∀ rem p, rem ∈ rems → p ∈ rem → leb k p.1 = true) → pop_key k (st_heap st) = heap →
  NoDup heap.1 ∧ (∀ i, i ∈ heap.1 ↔ (k, i) ∈ st_heap st) ∧ by_key heap.2
  ∧ (∀ x, x ∈ heap.2 ↔ x ∈ st_heap st ∧ x.2 ∉ heap.1) ∧ NoDup (map snd heap.2).
Proof.
  intros Hst Htop Hle <-. destruct (pop_key_spec k (st_heap st)) as (Hsplit & Hs & Hgt); [apply Hst|..].
  { intros [k' j] Hin. destruct (headed_run _ _ _ _ _ Hst Hin) as (R & c & e & v & rem & _ & _ & _ & Hrem & _). apply (Hle _ (k', v) (list_elem_of_lookup_2 _ _ _ Hrem)). by left. }
  destruct (pop_key k (st_heap st)) as [runs rest]. cbn [fst snd] in *. pose proof (sa_distinct _ _ _ Hst) as Hnd. rewrite Hsplit, map_app, map_map in Hnd. cbn in Hnd.
  rewrite map_id in Hnd. apply NoDup_app in Hnd as (Hnd1 & Hdis & Hnd2). split_and!; [done| |done| |done].
  - intros i. rewrite Hsplit, elem_of_app. split.
    + intros Hi. left. apply list_elem_of_fmap. by exists i.
    + intros [(j & [= ->] & Hj)%list_elem_of_fmap|Hin]; [done|]. apply Hgt in Hin. cbn in Hin. by rewrite ltb_irrefl in Hin.
  - intros x. rewrite Hsplit, elem_of_app. split.
    + intros Hx. split; [by right|]. intros Hin. apply (Hdis _ Hin). apply list_elem_of_fmap. by exists x.
    + intros [[(j & -> & Hj)%list_elem_of_fmap|Hx] Hn]; [by destruct Hn|done].
Qed.

Lemma taken st rems k runs heap heads' :
  stream_at st [] rems → settled st → fst <$> head (st_heap st) = Some k → (∀ rem p, rem ∈ rems → p ∈ rem → leb k p.1 = true) →
  pop_key k (st_heap st) = (runs, heap) → length heads' = length (st_heads st) →
  (∀ j, heads' !! j = if decide (j ∈ runs) then Some None else st_heads st !! j) →
  stream_at (st_runs st (st_cursors st) heads' heap (st_unopened st)) runs (map (behind k) rems).
Proof.
  intros Hst Hset Htop Hle Hpop Hlen Hheads. destruct (popped st rems k _ Hst Htop Hle Hpop) as (Hnd & Hruns & Hs & Hheap & Hnd2). cbn [fst snd] in *.
  assert (∀ k' j, (k', j) ∈ st_unopened st → j ∉ runs) as Hfresh.
  { intros k' j Hin Hj. apply Hruns in Hj. destruct (sa_headed _ _ _ Hst _ _ Hj) as [e He]. destruct (sa_fresh _ _ _ Hst _ _ Hin) as [He' _]. congruence. }
  pose proof Hst as Hst0. destruct Hst. constructor; cbn [st_runs st_cursors st_heads st_heap st_unopened]; try done.
  - congruence.
  - by rewrite length_map.
  - apply Forall_map, Forall_forall. intros rem Hrem. apply (behind_get k rem k); [by eapply Forall_forall in sa_sorted0|intros; by eapply Hle].
  - intros i R c h rem HR Hc Hh Hrem. rewrite list_lookup_fmap in Hrem. destruct (rems !! i) as [rem0|] eqn:Erem; [|done]. injection Hrem as <-.
    rewrite Hheads in Hh. destruct (decide (i ∈ runs)) as [Hi|Hi].
    + injection Hh as <-. right; right; right. apply Hruns in Hi as Hin. destruct (headed_run _ _ _ _ _ Hst0 Hin) as (R' & c' & e & v & rem & HR' & Hc' & _ & Hrem & _ & Hat).
      simplify_eq. split_and!; [done|done|]. cbn [behind fst]. by rewrite decide_True.
    + assert (behind k rem0 = rem0) as ->.
      { destruct rem0 as [|[k0 v0] rest]; [done|]. cbn [behind fst]. rewrite decide_False; [done|]. intros ->. apply Hi, Hruns.
        eapply (key_on_heap st rems k i _ v0); [done..| |].
        - apply bt_elem_get; [|by left]. eapply Forall_forall in sa_sorted0; [done|by eapply list_elem_of_lookup_2].
        - intros; eapply Hle; [by eapply list_elem_of_lookup_2|done]. }
      eapply (run_state_mono st _ []); [..|by eauto]; cbn [st_runs st_heap st_unopened]; [by auto| |by intros ?%not_elem_of_nil].
      intros k' Hin. by apply Hheap.
  - intros k' j [Hin Hj]%Hheap. cbn in Hj. rewrite Hheads, decide_False by done. eauto.
  - intros k' j Hin. destruct (sa_fresh0 k' j Hin) as [Hj _]. pose proof (Hfresh _ _ Hin). by rewrite Hheads, decide_False.
  - intros j Hj. by rewrite Hheads, decide_True.
Qed.

(** The winner among the heads of a key is its newest version. *)
Lemma winner_latest st rems k runs heap entries :
  stream_at st [] rems → settled st → fst <$> head (st_heap st) = Some k → (∀ rem p, rem ∈ rems → p ∈ rem → leb k p.1 = true) → distinct_runs rems →
  pop_key k (st_heap st) = (runs, heap) → (∀ i e, (i, e) ∈ entries ↔ i ∈ runs ∧ st_heads st !! i = Some (Some e)) →
  ∃ i e R v, winner_of entries = Some (i, e) ∧ i ∈ runs ∧ Rs !! i = Some R ∧ run_names R e (k, v) ∧ latest rems k = Some v.
Proof.
  intros Hst Hset Htop Hle Hd Hpop Hentries. destruct (popped st rems k _ Hst Htop Hle Hpop) as (Hnd & Hruns & _). cbn [fst snd] in *.
  assert (entries ≠ []) as Hne.
  { destruct (st_heap st) as [|[k0 i0] h0] eqn:Eh; [done|]. cbn in Htop. injection Htop as ->. destruct (sa_headed _ _ _ Hst k i0) as [e He]; [rewrite Eh; by left|].
    intros ->. apply (not_elem_of_nil (i0, e)). apply Hentries. split; [apply Hruns; by left|done]. }
  destruct (winner_spec entries Hne) as ([i e] & Hw & Hin & Hmax). apply Hentries in Hin as [Hi He]. apply Hruns in Hi as Hh.
  destruct (headed_run _ _ _ _ _ Hst Hh) as (R & c & e' & v & rem & HR & Hc & He' & Hrem & Hn & _). assert (e' = e) as -> by congruence.
  exists i, e, R, v. split_and!; [done..|]. pose proof (sa_sorted _ _ _ Hst) as Hso.
  assert (bt_get k ((k, v) :: rem) = Some v) as Hv by (apply bt_elem_get; [eapply Forall_forall in Hso; [done|by eapply list_elem_of_lookup_2]|by left]).
  apply newest_unique.
  - apply list_elem_of_omap. exists ((k, v) :: rem). split; [by eapply list_elem_of_lookup_2|done].
  - intros w (rj & Hrj & Hw')%list_elem_of_omap. apply list_elem_of_lookup in Hrj as [j Hj]. destruct (decide (j = i)) as [->|Hji]; [left; congruence|right].
    assert ((k, j) ∈ st_heap st) as Hjh.
    { eapply (key_on_heap st rems k j rj w); [done..|]. intros; eapply Hle; [by eapply list_elem_of_lookup_2|done]. }
    destruct (headed_run _ _ _ _ _ Hst Hjh) as (R' & c' & e' & w' & rem' & _ & _ & He2 & Hrem' & Hn' & _). simplify_eq.
    assert (w' = w) as ->.
    { eapply Forall_forall in Hso; [|by eapply list_elem_of_lookup_2, Hj]. rewrite (bt_elem_get k w' _ Hso) in Hw'; [congruence|by left]. }
    destruct (run_named _ _ _ Hn) as [_ Hs1], (run_named _ _ _ Hn') as [_ Hs2]. cbn in Hs1, Hs2.
    pose proof (Hmax (j, e') (proj2 (Hentries j e') (conj (proj2 (Hruns j) Hjh) He2))) as Hm. cbn in Hm.
    pose proof (Hd i j _ _ k v w Hrem Hj ltac:(done) Hv Hw'). lia.
Qed.

(** The heads of different runs have different sequences. *)
Lemma heads_distinct st rems k i j e e' :
  stream_at st [] rems → distinct_runs rems → (k, i) ∈ st_heap st → (k, j) ∈ st_heap st → i ≠ j →
  st_heads st !! i = Some (Some e) → st_heads st !! j = Some (Some e') → entry_sequence e ≠ entry_sequence e'.
Proof.
  intros Hst Hd Hi Hj Hne He He'. destruct (headed_run _ _ _ _ _ Hst Hi) as (R & c & e1 & v & rem & _ & _ & E1 & Hrem & Hn & _).
  destruct (headed_run _ _ _ _ _ Hst Hj) as (R' & c' & e2 & v' & rem' & _ & _ & E2 & Hrem' & Hn' & _). simplify_eq.
  destruct (run_named _ _ _ Hn) as [_ ->], (run_named _ _ _ Hn') as [_ ->]. pose proof (sa_sorted _ _ _ Hst) as Hso.
  eapply (Hd i j); [done..| |]; (apply bt_elem_get; [eapply Forall_forall in Hso; [done|by eapply list_elem_of_lookup_2]|by left]).
Qed.

Definition size (rems : list (list row)) : nat := list_sum (map length rems).

Lemma behind_size k rems i v rest : rems !! i = Some ((k, v) :: rest) → (size (map (behind k) rems) < size rems)%nat.
Proof.
  unfold size, list_sum. assert (∀ r, length (behind k r) ≤ length r)%nat as Hle by (intros [|x r]; cbn [behind]; [done|]; destruct (decide _); cbn; lia).
  assert (∀ l, foldr Nat.add 0 (map length (map (behind k) l)) ≤ foldr Nat.add 0 (map length l))%nat as Hall.
  { induction l as [|r l IH]; [done|]. cbn [map foldr]. specialize (Hle r). lia. }
  revert i. induction rems as [|r rems IH]; intros i Hi; [done|]. cbn [map foldr]. destruct i as [|i]; cbn in Hi.
  - injection Hi as ->. cbn [behind fst]. rewrite decide_True by done. specialize (Hall rems). cbn [length]. lia.
  - specialize (IH i Hi). specialize (Hle r). lia.
Qed.

(** A row the stream has prepared. *)
Definition ready_at (projection : ProjectedReadProjection) (p : PreparedRow) (k : key) (b : list byte) : Prop :=
  ∃ R, Rs !! prepared_run p = Some R ∧ run_ready R projection p k b.

Definition delivers (st : ProjectedReadStream) (rems : list (list row)) (out : list (key * list byte)) (r : ProjectedReadStream * option PreparedRow) : Prop :=
  same_frame st r.1 ∧ ∃ rems', stream_at r.1 [] rems' ∧ distinct_runs rems' ∧ (size rems' ≤ size rems)%nat ∧
  match out with
  | [] => r.2 = None ∧ live rems' []
  | (k, b) :: rest => ∃ p, r.2 = Some p ∧ ready_at (st_projection st) p k b ∧ live rems' rest ∧ (size rems' < size rems)%nat
  end.

Lemma latest_None rems k : latest rems k = None → ∀ rem, rem ∈ rems → bt_get k rem = None.
Proof.
  unfold latest. rewrite newest_None. intros H rem Hrem. destruct (bt_get k rem) as [v|] eqn:E; [|done].
  assert (v ∈ omap (bt_get k) rems) as Hv by (apply list_elem_of_omap; by exists rem). rewrite H in Hv. by apply not_elem_of_nil in Hv.
Qed.

(** With nothing on the heap, nothing is left. *)
Lemma heap_empty st rems : stream_at st [] rems → settled st → st_heap st = [] → ∀ rem, rem ∈ rems → rem = [].
Proof.
  intros Hst Hset He rem Hrem. apply list_elem_of_lookup in Hrem as [i Hi].
  assert (i < length Rs)%nat as Hlt by (rewrite <-(sa_rems _ _ _ Hst); by eapply lookup_lt_Some).
  destruct (stream_run _ _ _ _ Hst Hlt) as (R & c & h & rem' & HR & Hc & Hh & Hrem' & Hs). simplify_eq. unfold settled in Hset. rewrite He in *.
  destruct Hs as [(fk & Hu & _)|[(e & x & r & _ & _ & _ & _ & Hx)|[(_ & -> & _)|(?%not_elem_of_nil & _)]]]; try done.
  - rewrite Hset in Hu. by apply not_elem_of_nil in Hu.
  - rewrite He in Hx. by apply not_elem_of_nil in Hx.
Qed.

(** A cursor that has changed without moving keeps the stream where it is. *)
Lemma cursor_kept st loose rems i R c c' :
  stream_at st loose rems → Rs !! i = Some R → st_cursors st !! i = Some c →
  (∀ rem, run_at R c rem → run_at R c' rem) →
  stream_at (st_runs st (<[i := c']> (st_cursors st)) (st_heads st) (st_heap st) (st_unopened st)) loose rems.
Proof.
  intros [] HR Hc Hkeep. constructor; cbn [st_runs st_cursors st_heads st_heap st_unopened]; try done; [by rewrite length_insert|].
  intros j R' c1 h1 rem1 HR' Hc1 Hh1 Hrem1. destruct (decide (j = i)) as [->|Hne].
  - rewrite list_lookup_insert_eq in Hc1 by (by eapply lookup_lt_Some). simplify_eq.
    destruct (sa_runs0 i R c h1 rem1 HR Hc Hh1 Hrem1) as [(fk & ? & ? & ? & ?)|[(e & x & r & ? & ? & ? & ? & ?)|[(? & ? & ?)|(? & ? & ?)]]].
    + left. exists fk. auto.
    + right; left. exists e, x, r. auto 10.
    + right; right; left. auto.
    + right; right; right. auto.
  - rewrite list_lookup_insert_ne in Hc1 by done. eapply (run_state_mono st _ loose); [..|by eauto]; auto.
Qed.

Lemma yields_get {A B} (f : ProjectedReadMeter → A) (k : A → metered B) (Q : B → Prop) :
  (∀ x, yields (k x) Q) → yields (mbind (λ m, (m, Ok (f m))) k) Q.
Proof. intros Hk m. apply Hk. Qed.

Lemma live_behind k rems out :
  Forall bt_sorted rems → (∀ rem p, rem ∈ rems → p ∈ rem → leb k p.1 = true) → live rems out →
  match latest rems k ≫= value with
  | None => live (map (behind k) rems) out
  | Some b => ∃ rest, out = (k, b) :: rest ∧ live (map (behind k) rems) rest
  end.
Proof.
  intros Hs Hle [Hso Hget]. destruct (latest rems k ≫= value) as [b|] eqn:E.
  - assert (∀ p, p ∈ out → leb k p.1 = true) as Hlow.
    { intros [k' b'] Hp. apply (bt_elem_get _ _ _ Hso) in Hp. rewrite Hget in Hp. destruct (latest rems k') as [v|] eqn:Ev; [|done].
      apply newest_elem, list_elem_of_omap in Ev as (rem & Hrem & Hv). apply bt_get_elem in Hv. exact (Hle _ _ Hrem Hv). }
    assert (bt_get k out = Some b) as Hb by by rewrite Hget.
    destruct (bt_head out k b Hso Hb Hlow) as (rest & -> & Hs' & Hget'). exists rest. split; [done|]. split; [done|].
    intros k'. rewrite Hget', (behind_latest k rems k' Hs Hle), Hget. by destruct (decide (k' = k)).
  - split; [done|]. intros k'. rewrite Hget, (behind_latest k rems k' Hs Hle). destruct (decide (k' = k)) as [->|]; done.
Qed.

Lemma next_row_yields fuel st rems out :
  stream_at st [] rems → live rems out → distinct_runs rems → (size rems < fuel)%nat → yields (next_row_loop fuel st) (delivers st rems out).
Proof.
  revert st rems. induction fuel as [|fuel IH]; intros st rems Hst Hlive Hd Hfuel; [lia|]. cbn [next_row_loop].
  eapply yields_bind; [by apply open_competing_at|]. intros st1 (Hst1 & Hf1 & Hset). destruct (st_heap st1) as [|[k i0] heap0] eqn:Eh.
  { apply yields_ret. split; [done|]. exists rems. split_and!; [done|done|done|]. assert (out = []) as ->; [|done].
    destruct out as [|[k b] rest]; [done|]. destruct Hlive as [Hs Hget]. pose proof (bt_elem_get k b _ Hs ltac:(by left)) as E. rewrite Hget in E.
    destruct (latest rems k) as [v|] eqn:Ev; [|done]. apply newest_elem, list_elem_of_omap in Ev as (rem & Hrem & Hv).
    by rewrite (heap_empty _ _ Hst1 Hset Eh rem Hrem) in Hv. }
  pose proof (λ rem p, top_least st1 rems (k, i0) heap0 rem p Hst1 Hset Eh) as Hle. cbn [fst] in Hle.
  assert (fst <$> head (st_heap st1) = Some k) as Htop by by rewrite Eh.
  rewrite <-Eh. destruct (pop_key k (st_heap st1)) as [runs heap] eqn:Epop.
  destruct (popped st1 rems k _ Hst1 Htop Hle Epop) as (Hnd & Hruns & _). cbn [fst] in Hnd, Hruns.
  apply yields_get. intros manifest.
  destruct (take_heads_spec manifest k runs (st_heads st1) []) as (entries & heads' & Etake & Hlen & Hheads & Hentries); [done|..].
  { intros i Hi%Hruns. destruct (headed_run _ _ _ _ _ Hst1 Hi) as (R & c & e & v & rem & _ & _ & He & _ & Hn & _). exists e.
    split_and!; [done|by apply (run_named _ _ _ Hn)|done]. }
  { intros i j e e' Hi%Hruns Hj%Hruns. by eapply heads_distinct. }
  eapply yields_bind_lift; [exact Etake|]. cbn beta iota.
  destruct (winner_latest st1 rems k runs heap entries Hst1 Hset Htop Hle Hd Epop Hentries) as (i & e & R & v & -> & Hi & HR & Hn & Hlatest).
  pose proof (taken st1 rems k runs heap heads' Hst1 Hset Htop Hle Epop Hlen Hheads) as Hst2.
  set (st2 := st_runs st1 (st_cursors st1) heads' heap (st_unopened st1)) in *.
  apply Hruns in Hi as Hin. destruct (headed_run _ _ _ _ _ Hst1 Hin) as (R' & c & e' & v' & rem & HR' & Hc & _ & Hrem & _ & Hat).
  assert (R' = R) as -> by congruence. change (st_cursors st2) with (st_cursors st1). rewrite Hc.
  eapply yields_bind; [by eapply run_prepares|]. intros [c' prepared] [Hkeep Hprep]. cbn [fst snd] in Hkeep, Hprep. cbn beta iota.
  eapply yields_bind; [apply advance_all; by eapply (cursor_kept st2)|]. intros st3 (Hst3 & Hf3 & _).
  pose proof (live_behind k rems out (sa_sorted _ _ _ Hst1) Hle Hlive) as Hbehind. rewrite Hlatest in Hbehind. cbn in Hbehind.
  pose proof (behind_size k rems i v' rem Hrem) as Hsize. pose proof (behind_distinct k rems (sa_sorted _ _ _ Hst1) Hle Hd) as Hd'.
  assert (same_frame st st3) as Hframe by (eapply frame_trans; [exact Hf1|exact Hf3]).
  destruct (value v) as [b|].
  - destruct Hbehind as (rest & -> & Hlive'). destruct Hprep as (p & -> & Hp). apply yields_ret. split; [done|]. exists (map (behind k) rems).
    split_and!; [done|done|lia|]. eexists. split; [done|]. split_and!; [|done|lia]. exists R. split; [done|]. cbn [prepared_run].
    apply run_renumbered. destruct Hf1 as [<- _]. exact Hp.
  - rewrite Hprep. eapply yields_mono; [apply IH; [done|exact Hbehind|done|lia]|]. intros r (Hf & rems' & Hat' & Hd2 & Hsz & Hout). split; [by eapply frame_trans|].
    exists rems'. split_and!; [done|done|lia|]. destruct Hframe as [Hproj _]. destruct out as [|[k' b'] rest]; [done|].
    destruct Hout as (p & -> & Hp & Hl & Hlt). exists p. rewrite Hproj in Hp. split_and!; [done|done|done|lia].
Qed.

(** * Starting the merge *)

Lemma passes_cover st rems : stream_at st [] rems → (S (size rems) < stream_passes st)%nat.
Proof.
  intros Hst. unfold stream_passes, size. cut (list_sum (map length rems) ≤ list_sum (map (λ c, S (run_bound c)) (st_cursors st)))%nat; [lia|].
  assert (length rems = length (st_cursors st)) as Hlen by (rewrite (sa_rems _ _ _ Hst), (sa_cursors _ _ _ Hst); done).
  assert (∀ i rem c, rems !! i = Some rem → st_cursors st !! i = Some c → length rem ≤ S (run_bound c))%nat as Hall.
  { intros i rem c Hrem Hc. assert (i < length Rs)%nat as Hi by (rewrite <-(sa_rems _ _ _ Hst); by eapply lookup_lt_Some).
    destruct (stream_run _ _ _ _ Hst Hi) as (R & c' & h & rem' & HR & Hc' & Hh & Hrem' & Hs). simplify_eq.
    destruct Hs as [(fk & _ & _ & Hat & _)|[(e & x & r & -> & _ & _ & Hat & _)|[(_ & -> & _)|(?%not_elem_of_nil & _)]]]; try done;
      [apply run_bounded in Hat as [_ ?]; lia|apply run_bounded in Hat as [_ ?]; cbn; lia|cbn; lia]. }
  revert Hlen Hall. generalize (st_cursors st). clear. induction rems as [|r rems IH]; intros [|c cs] Hlen Hall; try done.
  pose proof (Hall 0%nat r c eq_refl eq_refl). specialize (IH cs ltac:(by injection Hlen) (λ i, Hall (S i))). unfold list_sum in *. cbn [map foldr]. lia.
Qed.

Lemma initialize_run_at st l rems i :
  stream_at st (i :: l) rems → yields (initialize_run st i) (λ st', stream_at st' l rems ∧ same_frame st st').
Proof.
  intros Hst. destruct (loose_run _ _ _ _ Hst) as (R & c & rem & HR & Hc & Hrem & Hat). unfold initialize_run. rewrite Hc. destruct c as [mc|sc].
  { eapply yields_mono; [by apply advance_at|]. by intros st' (? & ? & _). }
  apply yields_ret. split; [|done]. pose proof (sa_waiting _ _ _ Hst i ltac:(by left)) as Hhead.
  assert (∀ k, (k, i) ∉ st_unopened st) as Hnot by (intros k Hin; destruct (sa_fresh _ _ _ Hst _ _ Hin) as [_ []]; by left).
  destruct Hst. apply NoDup_cons in sa_loose0 as [Hnew Hnd].
  constructor; cbn [st_runs st_cursors st_heads st_heap st_unopened]; try done.
  - by apply heap_push_sorted.
  - rewrite heap_push_perm. cbn [map snd]. apply NoDup_cons. split; [|done]. intros ([k j] & -> & Hin)%list_elem_of_fmap. by apply (Hnot k).
  - intros j R' c1 h1 rem1 HR' Hc1 Hh1 Hrem1. destruct (decide (j = i)) as [->|Hne].
    + left. simplify_eq. eexists. split; [cbn [st_runs st_unopened]; rewrite heap_push_perm; by left|]. split_and!; [done|done|]. intros p. by eapply run_first.
    + eapply (run_state_mono st); [..|by eauto]; cbn [st_runs st_heap st_unopened]; [|done|by intros [->|?]%elem_of_cons].
      intros k Hin. left. rewrite heap_push_perm. by right.
  - intros k j Hin. rewrite heap_push_perm in Hin. apply elem_of_cons in Hin as [[= -> ->]|Hin]; [by split|].
    destruct (sa_fresh0 k j Hin) as [? Hf]. split; [done|]. intros ?. apply Hf. by right.
  - intros j Hj. apply sa_waiting0. by right.
Qed.

Lemma initialize_at st rems :
  stream_at st (seq 0 (length (st_cursors st))) rems → st_initialized st = false →
  yields (initialize st) (λ st', stream_at st' [] rems ∧ st_projection st' = st_projection st ∧ st_pending st' = st_pending st
    ∧ st_initialized st' = true ∧ st_terminal st' = st_terminal st).
Proof.
  intros Hst Hi. unfold initialize. rewrite Hi. set (st0 := {| st_projection := _ |}).
  assert (stream_at st0 (seq 0 (length (st_cursors st))) rems) as Hst0 by (by destruct Hst; constructor).
  assert (∀ l s, stream_at s l rems → yields (mfold initialize_run s l) (λ s', stream_at s' [] rems ∧ same_frame s s')) as Hfold.
  { induction l as [|i l IH]; intros s Hs; cbn [mfold]; [by apply yields_ret|]. eapply yields_bind; [by apply initialize_run_at|].
    intros s1 [Hs1 Hf1]. eapply yields_mono; [by apply IH|]. intros s2 [Hs2 Hf2]. split; [done|by eapply frame_trans]. }
  eapply yields_mono; [by apply Hfold|]. intros s' [Hs' (Hp & Hq & Hn & Ht)]. by split_and!.
Qed.
End Merge.
