(* ===== verification/ReadBatches.v ===== *)
(** Batches of the projected reader ([rrd-lsm]: segment/reader.rs,
    [ProjectedReadStream::next_batch] and [build_batch], and segment/output.rs).

    A batch holds its rows in Arrow columns, offsets and bytes, that [key] and [value] read
    back.  Theorems: draining a stream gives exactly the live rows of its ranges, in order, or
    a prefix of them before an error of the budget; what has been read, emitted and reserved
    stays within the budget and the pool. *)

From S2P Require Import Prelude Machine BTree LsmError Batch RecoveryBudget Wal Memtable Transaction Versions SegmentFormat Segment SegmentFile SegmentWrite PointIndex Database Reader Cursors Merge.
Open Scope Z_scope.

(** * Columns *)

Lemma overwrite_zeros (a b : list byte) z :
  (length b ≤ z)%nat → overwrite (a ++ replicate z x00) (length a) b = (a ++ b) ++ replicate (z - length b) x00.
Proof.
  intros Hz. unfold overwrite. rewrite take_app_length, <-app_assoc. do 2 f_equal. rewrite drop_app_ge by lia.
  replace (length a + length b - length a)%nat with (length b) by lia. by rewrite drop_replicate.
Qed.
Lemma offsets_of_length start items : length (offsets_of start items) = S (length items).
Proof. revert start. induction items as [|x items IH]; intros start; [done|]. cbn [offsets_of length]. by rewrite IH. Qed.
Lemma encode_i64_length l : length (encode_i64_values l) = (8 * length l)%nat.
Proof. unfold encode_i64_values. induction l as [|v l IH]; [done|]. cbn [map concat length]. rewrite length_app, IH, length_le_bytes. lia. Qed.

(** The buffers of a column of [n] items and [total] bytes, with the first items written. *)
Definition offsets_hold (n : nat) (items : list (list byte)) (offsets : list byte) : Prop :=
  offsets = encode_i64_values (offsets_of 0 items) ++ replicate (8 * (n - length items)) x00.
Definition data_holds (total : nat) (items : list (list byte)) (data : list byte) : Prop :=
  data = concat items ++ replicate (total - length (concat items)) x00.

Lemma write_offset_at (a : list byte) z index value :
  length a = (8 * index)%nat → (8 ≤ z)%nat → 0 ≤ value < 2 ^ 63 → Z.of_nat index * 8 < 2 ^ 64 →
  write_offset (a ++ replicate z x00) index value = Ok ((a ++ le_bytes 8 value) ++ replicate (z - 8) x00).
Proof.
  intros Ha Hz Hv Hi. unfold write_offset. rewrite (proj2 (Z.leb_gt _ _)) by lia. unfold checked_mul.
  rewrite (proj2 (Z.ltb_lt _ _)) by lia. cbn [ok_or]. unfold slice_get.
  rewrite (proj2 (Z.leb_le _ _)) by lia. rewrite (proj2 (Z.leb_le _ _)) by (rewrite len_app; unfold len; rewrite length_replicate; lia). cbn [andb ok_or].
  f_equal. replace (Z.to_nat (Z.of_nat index * 8)) with (length a) by lia. rewrite overwrite_zeros by (rewrite length_le_bytes; lia). by rewrite length_le_bytes.
Qed.

Lemma offsets_start n : Z.of_nat n * 8 + 8 < 2 ^ 64 → ∃ o, write_offset (zeroed ((Z.of_nat n + 1) * 8)) 0 0 = Ok o ∧ offsets_hold n [] o.
Proof.
  intros Hn. eexists. unfold zeroed. split; [apply (write_offset_at [] _ 0 0); [done|lia|lia|lia]|]. unfold offsets_hold. cbn [app length]. f_equal. f_equal. lia.
Qed.

Lemma offsets_write n items x o :
  offsets_hold n items o → (length items < n)%nat → len (concat items) + len x < 2 ^ 63 → Z.of_nat n * 8 + 8 < 2 ^ 64 →
  ∃ o', write_offset o (length items + 1) (len (concat items) + len x) = Ok o' ∧ offsets_hold n (items ++ [x]) o'.
Proof.
  intros -> Hlt Hv Hn. pose proof (len_nonneg (concat items)). pose proof (len_nonneg x). eexists. split.
  - apply write_offset_at; [rewrite encode_i64_length, offsets_of_length; lia|lia|lia|lia].
  - unfold offsets_hold. rewrite offsets_of_snoc. unfold encode_i64_values. rewrite map_app, concat_app. cbn [map concat]. rewrite app_nil_r, Z.add_0_l, Z.mod_small by lia.
    f_equal. f_equal. rewrite length_app. cbn [length]. lia.
Qed.

Lemma data_write total items x d :
  data_holds total items d → (length (concat items) + length x ≤ total)%nat →
  data_holds total (items ++ [x]) (overwrite d (length (concat items)) x).
Proof.
  intros -> Hle. rewrite overwrite_zeros by lia. unfold data_holds. rewrite concat_app. cbn [concat]. rewrite app_nil_r. f_equal. rewrite length_app. f_equal. lia.
Qed.

(** Reading back. *)
Lemma read_offset_at offsets index : read_offset offsets index = match offset_at offsets index with Ok v => Some v | Err _ => None end.
Proof.
  unfold read_offset, offset_at. destruct (checked_mul 64 (Z.of_nat index) 8) as [start|]; [|done]. cbn [ok_or]. destruct (slice_get offsets start (start + 8)); [|done].
  cbn [ok_or]. by destruct (_ <? _).
Qed.
Lemma binary_value_at offsets data row rows x :
  (row < rows)%nat → binary_at offsets data row = Ok x → (∀ z, offset_at offsets row = Ok z → 0 ≤ z) → binary_value offsets data row rows = Some x.
Proof.
  intros Hrow Hb Hpos. unfold binary_value. rewrite (proj2 (Nat.leb_gt _ _)) by done. rewrite !read_offset_at. unfold binary_at in Hb.
  destruct (offset_at offsets row) as [start|]; [|done]. destruct (offset_at offsets (row + 1)) as [end_|]; [|done]. specialize (Hpos start eq_refl).
  destruct (Z.ltb_spec end_ start); [done|]. destruct (Z.ltb_spec (len data) end_); [done|]. injection Hb as <-. rewrite (proj2 (Z.leb_le _ _)) by lia.
  unfold slice_get, slice. rewrite !(proj2 (Z.leb_le _ _)) by lia. cbn [andb]. do 2 f_equal. lia.
Qed.

Lemma column_read n items o d i x :
  offsets_hold n items o → data_holds (length (concat items)) items d → length items = n → items !! i = Some x →
  len (concat items) < 2 ^ 63 → Z.of_nat n * 8 + 8 < 2 ^ 64 → binary_value o d i n = Some x.
Proof.
  intros -> -> <- Hi Hlen Hn. rewrite !Nat.sub_diag, !app_nil_r. pose proof (lookup_lt_Some _ _ _ Hi). apply binary_value_at; [done|by apply binary_at_encoded; [..|lia]|].
  intros z Hz. unfold offset_at in Hz. destruct_matches_in Hz; simplify_eq. by apply Z.ltb_ge.
Qed.

(** * The logic of a batch *)

(** A step that emits nothing: it charges the source side and keeps the pool's balance. *)
Record kept (m m' : ProjectedReadMeter) : Prop := {
  kept_budget : budget m' = budget m;
  kept_reserved : reserved_bytes (output_memory m') = reserved_bytes (output_memory m);
  kept_limit : limit_bytes (output_memory m') = limit_bytes (output_memory m);
  kept_rows : emitted_rows (evidence m') = emitted_rows (evidence m);
  kept_bytes : emitted_buffer_bytes (evidence m') = emitted_buffer_bytes (evidence m);
  kept_within : source_within m → source_within m'
}.
Lemma paid_kept m m' : paid m m' → kept m m'.
Proof. intros [? Ho ? ? ?]. constructor; try done; by rewrite Ho. Qed.
Lemma kept_trans a b c : kept a b → kept b c → kept a c.
Proof. intros [] []. constructor; try congruence. tauto. Qed.

(** From [m] the computation returns a [Q], or the budget stops it with [E]. *)
Definition runs {A} (m : ProjectedReadMeter) (e : metered A) (Q : ProjectedReadMeter → A → Prop) (E : ProjectedReadMeter → Prop) : Prop :=
  match e m with (m', Ok x) => Q m' x | (m', Err err) => E m' ∧ budgeted err end.
Lemma runs_bind {A B} m (e : metered A) (k : A → metered B) P Q E :
  runs m e P E → (∀ x m', P m' x → runs m' (k x) Q E) → runs m (mbind e k) Q E.
Proof. unfold runs, mbind. destruct (e m) as [m' [x|err]]; intros He Hk; [by apply Hk|done]. Qed.
Lemma runs_mono {A} m (e : metered A) (Q Q' : ProjectedReadMeter → A → Prop) (E E' : ProjectedReadMeter → Prop) :
  runs m e Q E → (∀ m' x, Q m' x → Q' m' x) → (∀ m', E m' → E' m') → runs m e Q' E'.
Proof. unfold runs. destruct (e m) as [m' [x|err]]; intros H HQ HE; [by apply HQ|]. destruct H. by split; [apply HE|]. Qed.
Lemma runs_yields {A} m (e : metered A) (Q : A → Prop) (E : ProjectedReadMeter → Prop) :
  yields e Q → (∀ m', paid m m' → E m') → runs m e (λ m' x, paid m m' ∧ Q x) E.
Proof. intros He HE. destruct (He m) as [Hp Hq]. unfold runs. destruct (e m) as [m' [x|err]]; [by split|]. by split; [apply HE|]. Qed.
Lemma runs_check {A B} m (r : result Error A) (k : A → metered B) Q (E : ProjectedReadMeter → Prop) :
  (∀ e, r = Err e → budgeted e ∧ E m) → (∀ x, r = Ok x → runs m (k x) Q E) → runs m (mbind (lift r) k) Q E.
Proof. unfold runs, mbind, lift. intros Hr Hk. destruct r as [x|e]; [by apply Hk|]. destruct (Hr e eq_refl). done. Qed.
Lemma runs_get {A B} m (f : ProjectedReadMeter → A) (k : A → metered B) Q E : runs m (k (f m)) Q E → runs m (mbind (λ m, (m, Ok (f m))) k) Q E.
Proof. done. Qed.
Lemma runs_ret {A} m (x : A) Q E : Q m x → runs m (mret x) Q E.
Proof. done. Qed.

Lemma ok_or_overflow {A} (o : option A) s e : ok_or o (InvalidProjectedRead (s +:+ " overflow")) = Err e → budgeted e.
Proof. destruct o; [done|]. cbn. intros [= <-]. apply budgeted_overflow. Qed.
Lemma counted_budgeted a b s e : counted a b s = Err e → budgeted e.
Proof. apply ok_or_overflow. Qed.
Lemma check_limit_budgeted r l o e : check_limit r l o = Err e → budgeted e.
Proof. unfold check_limit. destruct (_ <? _); [|done]. intros [= <-]. apply budgeted_limit. Qed.

(** ** The bytes of a batch *)

Definition key_total (rows : list (key * list byte)) : Z := len (concat (map fst rows)).
Definition value_total (projection : ProjectedReadProjection) (rows : list (key * list byte)) : Z :=
  if decide (projection = KeyValue) then len (concat (map snd rows)) else 0.
Definition batch_bytes (projection : ProjectedReadProjection) (rows : list (key * list byte)) : Z :=
  (len rows + 1) * 8 + key_total rows + if decide (projection = KeyValue) then (len rows + 1) * 8 + value_total projection rows else 0.

Lemma key_total_snoc rows k b : key_total (rows ++ [(k, b)]) = key_total rows + len k.
Proof. unfold key_total. rewrite map_app, concat_app, len_app. cbn. by rewrite app_nil_r. Qed.
Lemma value_total_snoc projection rows k b :
  value_total projection (rows ++ [(k, b)]) = value_total projection rows + if decide (projection = KeyValue) then len b else 0.
Proof. unfold value_total. destruct (decide _); [|done]. rewrite map_app, concat_app, len_app. cbn. by rewrite app_nil_r. Qed.

Lemma batch_allocation_spec projection rows :
  match batch_allocation_bytes (len rows) (key_total rows) (value_total projection rows) projection with
  | Ok a => a = batch_bytes projection rows ∧ a < 2 ^ 64
  | Err e => budgeted e
  end.
Proof.
  unfold batch_allocation_bytes, checked_add, checked_mul, batch_bytes. pose proof (len_nonneg rows).
  assert (0 ≤ key_total rows) by apply len_nonneg. assert (0 ≤ value_total projection rows) by (unfold value_total; destruct (decide _); [apply len_nonneg|lia]).
  destruct (Z.ltb_spec (len rows + 1) (2 ^ 64)); [|exact (budgeted_overflow "projected offset bytes")].
  destruct (Z.ltb_spec ((len rows + 1) * 8) (2 ^ 64)); [|exact (budgeted_overflow "projected offset bytes")]. cbn [ok_or].
  destruct (Z.ltb_spec ((len rows + 1) * 8 + key_total rows) (2 ^ 64)); [|exact (budgeted_overflow "projected key buffers")]. cbn [ok_or].
  destruct projection; [rewrite decide_True, decide_False by done; split; lia|rewrite decide_False, decide_True by done].
  destruct (Z.ltb_spec ((len rows + 1) * 8 + key_total rows + (len rows + 1) * 8) (2 ^ 64)); [|exact (budgeted_overflow "projected value buffers")].
  destruct (Z.ltb_spec ((len rows + 1) * 8 + key_total rows + (len rows + 1) * 8 + value_total KeyValue rows) (2 ^ 64)); [|exact (budgeted_overflow "projected value buffers")].
  cbn [ok_or]. split; lia.
Qed.

(** A batch of [n] rows and [a] bytes fits what is left of the budget. *)
Definition fits (m : ProjectedReadMeter) (n a : Z) : Prop :=
  n ≤ max_batch_rows (budget m) ∧ a ≤ max_batch_allocated_bytes (budget m)
  ∧ emitted_rows (evidence m) + n ≤ max_output_rows (budget m) ∧ emitted_buffer_bytes (evidence m) + a ≤ max_output_buffer_bytes (budget m).
Lemma fits_paid m m' n a : paid m m' → fits m n a → fits m' n a.
Proof. intros [Hb _ Hr He _] (? & ? & ? & ?). unfold fits. by rewrite Hb, Hr, He. Qed.

(** * The rows of a batch *)

Section Flow.
Context (Rs : list Run).

(** The stream has [out] still to give: the row it holds back, if any, and then the merge. *)
Definition flow (st : ProjectedReadStream) (out : list (key * list byte)) : Prop :=
  ∃ rems, stream_at Rs st [] rems ∧ distinct_runs rems ∧
  match st_pending st with
  | None => live rems out
  | Some p => ∃ k b rest, out = (k, b) :: rest ∧ ready_at Rs (st_projection st) p k b ∧ live rems rest
  end.

Lemma stream_hold st r loose rems : stream_at Rs st loose rems → stream_at Rs (st_hold st r) loose rems.
Proof. intros []. by constructor. Qed.

Definition still (st st' : ProjectedReadStream) : Prop :=
  st_projection st' = st_projection st ∧ st_initialized st' = st_initialized st ∧ st_terminal st' = st_terminal st.

Lemma flow_next st out :
  flow st out →
  yields (match st_pending st with Some r => mret (st_hold st None, Some r) | None => next_row st end) (λ r,
    still st r.1 ∧ st_pending r.1 = None ∧ match out with
    | [] => r.2 = None ∧ flow r.1 []
    | (k, b) :: rest => ∃ p, r.2 = Some p ∧ ready_at Rs (st_projection st) p k b ∧ flow r.1 rest
    end).
Proof.
  intros (rems & Hst & Hd & Hp). destruct (st_pending st) as [p|] eqn:Ep.
  - apply yields_ret. destruct Hp as (k & b & rest & -> & Hr & Hl). split_and!; [done|done|]. exists p. split_and!; [done|done|].
    exists rems. split_and!; [by apply stream_hold|done|done].
  - unfold next_row. eapply yields_mono; [apply next_row_yields; [done|done|done|pose proof (passes_cover _ _ _ Hst); lia]|].
    intros [st' r] ((Hpr & Hpe & Hi & Ht) & rems' & Hst' & Hd' & _ & Hout). cbn [fst snd] in *. rewrite Ep in Hpe.
    split_and!; [done|done|]. destruct out as [|[k b] rest].
    + destruct Hout as [-> Hl]. split; [done|]. exists rems'. by rewrite Hpe.
    + destruct Hout as (p & -> & Hr & Hl & _). exists p. split_and!; [done|done|]. exists rems'. by rewrite Hpe.
Qed.

(** No more rows are left than the bound on the passes. *)
Lemma flow_passes st out : flow st out → (S (length out) < stream_passes st + 1)%nat.
Proof.
  intros (rems & Hst & _ & Hp). pose proof (passes_cover _ _ _ Hst) as Hc.
  assert (∀ out, live rems out → length out ≤ size rems)%nat as Hle.
  { clear. intros out [Hs Hget]. assert (length out ≤ length (map fst (concat rems)))%nat as H.
    { rewrite <-(length_map fst). apply submseteq_length, NoDup_submseteq.
      - apply NoDup_alt. intros i j k Hi Hj. rewrite list_lookup_fmap in Hi, Hj. destruct (out !! i) eqn:Ei; [|done]. destruct (out !! j) eqn:Ej; [|done].
        cbn in Hi, Hj. eapply (bt_sorted_inj out i j); [done|exact Ei|exact Ej|congruence].
      - intros k ([k' b] & -> & Hp)%list_elem_of_fmap. apply (bt_elem_get _ _ _ Hs) in Hp. rewrite Hget in Hp. cbn [fst].
        destruct (latest rems k') as [v|] eqn:Ev; [|done]. apply newest_elem, list_elem_of_omap in Ev as (rem & Hrem & Hv%bt_get_elem).
        apply list_elem_of_fmap. exists (k', v). split; [done|]. apply list_elem_of_In, in_concat. exists rem. by split; apply list_elem_of_In. }
    rewrite length_map in H. etransitivity; [exact H|]. unfold size, list_sum. clear. induction rems as [|r rems IH]; [done|]. cbn [concat map foldr]. rewrite length_app. lia. }
  destruct (st_pending st) as [p|].
  - destruct Hp as (k & b & rest & -> & _ & Hl). specialize (Hle rest Hl). cbn [length]. lia.
  - specialize (Hle out Hp). lia.
Qed.

Definition ready_rows (projection : ProjectedReadProjection) : list PreparedRow → list (key * list byte) → Prop :=
  Forall2 (λ p x, ready_at Rs projection p x.1 x.2).

Lemma ready_sizes projection p k b :
  ready_at Rs projection p k b → prepared_key p = k ∧ value_len p = if decide (projection = KeyValue) then len b else 0.
Proof. intros (R & _ & Hr). by eapply run_sized. Qed.

(** What a pass over the merge has put together. *)
Record gathered (m : ProjectedReadMeter) (st : ProjectedReadStream) (out : list (key * list byte))
    (r : ProjectedReadStream * list PreparedRow * Z * Z) (taken rest : list (key * list byte)) : Prop := {
  gathered_split : out = taken ++ rest;
  gathered_ready : ready_rows (st_projection st) r.1.1.2 taken;
  gathered_keys : r.1.2 = key_total taken;
  gathered_values : r.2 = value_total (st_projection st) taken;
  gathered_flow : flow r.1.1.1 rest;
  gathered_still : still st r.1.1.1;
  gathered_some : taken = [] → out = [];
  gathered_fits : taken ≠ [] → fits m (len taken) (batch_bytes (st_projection st) taken) ∧ batch_bytes (st_projection st) taken < 2 ^ 64
}.

Lemma still_trans a b c : still a b → still b c → still a c.
Proof. intros (? & ? & ?) (? & ? & ?). repeat split; congruence. Qed.

Lemma fits_back m m' n a : paid m m' → fits m' n a → fits m n a.
Proof. intros [Hb _ Hr He _] (? & ? & ? & ?). unfold fits. by rewrite <-Hb, <-Hr, <-He. Qed.

Lemma flow_hold st p k b rest : ready_at Rs (st_projection st) p k b → flow st rest → st_pending st = None → flow (st_hold st (Some p)) ((k, b) :: rest).
Proof. intros Hr (rems & Hst & Hd & Hp) E. rewrite E in Hp. exists rems. split_and!; [by apply stream_hold|done|]. cbn [st_hold st_pending st_projection]. by exists k, b, rest. Qed.

Lemma batch_loop_runs fuel m st prior out rows :
  flow st out → ready_rows (st_projection st) rows prior → (length out < fuel)%nat →
  (prior ≠ [] → fits m (len prior) (batch_bytes (st_projection st) prior) ∧ batch_bytes (st_projection st) prior < 2 ^ 64) →
  runs m (batch_loop fuel st rows (key_total prior) (value_total (st_projection st) prior))
    (λ m' r, paid m m' ∧ ∃ taken rest, gathered m st (prior ++ out) r taken rest) (paid m).
Proof.
  revert m st prior out rows. induction fuel as [|fuel IH]; intros m st prior out rows Hflow Hready Hfuel Hprior; [lia|]. cbn [batch_loop].
  eapply runs_bind; [apply runs_yields; [by apply flow_next|done]|]. intros [st1 prepared] m1 (Hpaid & Hstill & Hpend & Hout). cbn [fst snd] in *.
  pose proof Hstill as (Hproj & Hinit & Hterm).
  destruct out as [|[k b] out].
  { destruct Hout as [-> Hflow1]. apply runs_ret. split; [done|]. exists prior, []. constructor; cbn [fst snd]; try done. by intros ->. }
  destruct Hout as (p & -> & Hp & Hflow1). destruct (ready_sizes _ _ _ _ Hp) as [Hk Hv].
  apply runs_check; [intros e He; split; [by apply (ok_or_overflow _ "projected batch row count" _ He)|done]|]. intros next_rows Hn.
  apply runs_check; [intros e He; split; [by apply (ok_or_overflow _ "projected key byte count" _ He)|done]|]. intros next_keys Hnk.
  apply runs_check; [intros e He; split; [by apply (ok_or_overflow _ "projected value byte count" _ He)|done]|]. intros next_values Hnv.
  assert (next_rows = len (prior ++ [(k, b)]) ∧ next_keys = key_total (prior ++ [(k, b)]) ∧ next_values = value_total (st_projection st) (prior ++ [(k, b)])) as (-> & -> & ->).
  { rewrite key_total_snoc, value_total_snoc, <-Hk, <-Hv. unfold checked_add in Hn, Hnk, Hnv. apply Forall2_length in Hready. unfold len in *. rewrite length_app, <-Hready.
    cbn [length]. repeat match goal with H : ok_or (if ?c then _ else _) _ = Ok _ |- _ => destruct c; [|done]; injection H as <- end. split_and!; [lia|done|done]. }
  rewrite Hproj. set (more := prior ++ [(k, b)]). pose proof (batch_allocation_spec (st_projection st) more) as Ha.
  apply runs_check; [intros e He; rewrite He in Ha; done|]. intros allocation Ealloc. rewrite Ealloc in Ha. destruct Ha as [-> Halloc].
  apply (runs_get m1 (λ m, m)).
  destruct (_ || _)%bool eqn:Efull.
  - destruct rows as [|p0 rows].
    + split; [done|]. destruct (_ <? _); apply budgeted_limit.
    + apply runs_ret. split; [done|]. exists prior, ((k, b) :: out). constructor; cbn [fst snd]; try done.
      * apply flow_hold; [by rewrite Hproj|done|done].
      * intros ->. by apply Forall2_nil_inv_r in Hready.
  - apply orb_false_iff in Efull as [Er%Z.ltb_ge Eb%Z.ltb_ge].
    apply runs_check; [intros e He; split; [by eapply counted_budgeted|done]|]. intros projected_rows Hpr.
    apply runs_check; [intros e He; split; [by eapply check_limit_budgeted|done]|]. intros _u Hlr%check_limit_le.
    apply runs_check; [intros e He; split; [by eapply counted_budgeted|done]|]. intros projected_bytes Hpb.
    apply runs_check; [intros e He; split; [by eapply check_limit_budgeted|done]|]. intros _u' Hlb%check_limit_le.
    assert (fits m (len more) (batch_bytes (st_projection st) more)) as Hfits.
    { eapply fits_back; [exact Hpaid|]. unfold counted, checked_add in Hpr, Hpb. destruct (_ <? _) in Hpr; [|done]. destruct (_ <? _) in Hpb; [|done].
      injection Hpr as <-. injection Hpb as <-. by split_and!. }
    assert (ready_rows (st_projection st) (rows ++ [p]) more) as Hready'.
    { apply Forall2_app; [done|]. by repeat constructor. }
    replace (prior ++ (k, b) :: out) with (more ++ out) by (unfold more; by rewrite <-app_assoc).
    destruct (_ =? _).
    + apply runs_ret. split; [done|]. exists more, out. constructor; cbn [fst snd]; try done. unfold more. by destruct prior.
    + rewrite <-Hproj. eapply runs_mono; [apply (IH m1 st1 more out); [done|by rewrite Hproj|cbn in Hfuel; lia|]|..].
      * intros _. rewrite Hproj. split; [by eapply fits_paid|done].
      * intros m2 r [Hpaid2 (taken & rest & [H1 H2 H3 H4 H5 H6 H7 H8])]. split; [by eapply paid_trans|]. exists taken, rest.
        rewrite Hproj in *. constructor; try done; [by eapply still_trans|]. intros Ht. destruct (H8 Ht). split; [by eapply fits_back|done].
      * intros m2 Hpaid2. by eapply paid_trans.
Qed.

(** ** Filling the columns *)

Lemma stream_cursor st loose rems i R : stream_at Rs st loose rems → Rs !! i = Some R → ∃ c rem, st_cursors st !! i = Some c ∧ run_at R c rem.
Proof.
  intros Hst HR. destruct (stream_run Rs st loose rems i Hst) as (R' & c & h & rem & HR' & Hc & _ & _ & Hs); [by eapply lookup_lt_Some|]. simplify_eq. exists c.
  destruct Hs as [(fk & _ & _ & Hat & _)|[(e & x & r & -> & _ & _ & Hat & _)|[(_ & -> & Hat)|(_ & _ & Hat)]]]; by eexists.
Qed.

(** Copying a value charges its run and leaves the stream where it was. *)
Lemma copy_at st out p k b :
  flow st out → ready_at Rs KeyValue p k b → ∃ c, st_cursors st !! prepared_run p = Some c ∧
  yields (run_copy_value c p) (λ r, r.2 = b
    ∧ flow (st_runs st (<[prepared_run p := r.1]> (st_cursors st)) (st_heads st) (st_heap st) (st_unopened st)) out).
Proof.
  intros (rems & Hst & Hd & Hp) (R & HR & Hr). destruct (stream_cursor _ _ _ _ _ Hst HR) as (c & rem & Hc & Hat). exists c. split; [done|].
  eapply yields_mono; [by eapply run_copies|]. intros [c' v] [Hkeep Hv]. cbn [fst snd] in *. split; [done|]. exists rems. split; [by eapply cursor_kept|]. by split.
Qed.

(** The buffers of a batch of [n] rows with the rows [prior] written. *)
Record filled (projection : ProjectedReadProjection) (n key_size value_size : nat) (prior : list (key * list byte)) (b : Building) : Prop := {
  filled_offsets : offsets_hold n (map fst prior) (bd_key_offsets b);
  filled_keys : data_holds key_size (map fst prior) (bd_key_data b);
  filled_key : bd_key_cursor b = key_total prior;
  filled_value : bd_value_cursor b = value_total projection prior;
  filled_values : match projection with
    | Key => bd_value_offsets b = None ∧ bd_value_data b = None
    | KeyValue => ∃ o d, bd_value_offsets b = Some o ∧ bd_value_data b = Some d ∧ offsets_hold n (map snd prior) o ∧ data_holds value_size (map snd prior) d
    end
}.

Lemma total_app_le (f : key * list byte → list byte) (l r : list (key * list byte)) :
  len (concat (map f l)) + len (concat (map f r)) = len (concat (map f (l ++ r))).
Proof. by rewrite map_app, concat_app, len_app. Qed.

Lemma build_row_yields st b p prior k v n all :
  flow st all → ready_at Rs (st_projection st) p k v →
  ∀ key_size value_size, filled (st_projection st) n key_size value_size prior b →
  (length prior < n)%nat → Z.of_nat n * 8 + 8 < 2 ^ 64 →
  key_total (prior ++ [(k, v)]) ≤ Z.of_nat key_size → Z.of_nat key_size < 2 ^ 63 →
  value_total (st_projection st) (prior ++ [(k, v)]) ≤ Z.of_nat value_size → Z.of_nat value_size < 2 ^ 63 →
  yields (build_row (st, b, length prior) p) (λ r, flow r.1.1 all ∧ still st r.1.1 ∧ st_pending r.1.1 = st_pending st
    ∧ filled (st_projection st) n key_size value_size (prior ++ [(k, v)]) r.1.2 ∧ r.2 = length (prior ++ [(k, v)])).
Proof.
  intros Hflow Hp key_size value_size [Ho Hd Hc Hvc Hvals] Hlt Hn Hk Hks Hv Hvs. destruct (ready_sizes _ _ _ _ Hp) as [Ek Ev].
  rewrite key_total_snoc in Hk. rewrite value_total_snoc in Hv. assert (0 ≤ key_total prior) by apply len_nonneg. pose proof (len_nonneg k). pose proof (len_nonneg v).
  assert (length (prior ++ [(k, v)]) = S (length prior)) as Hlen by (rewrite length_app; cbn; lia).
  unfold build_row. rewrite Hc, Ek. eapply yields_bind_lift; [unfold checked_add; by rewrite (proj2 (Z.ltb_lt _ _)) by lia|].
  destruct (offsets_write n (map fst prior) k _ Ho) as (o' & Eo & Ho'); [by rewrite length_map|unfold key_total in *; lia|done|].
  rewrite length_map in Eo. eapply yields_bind_lift; [exact Eo|]. change (map fst prior ++ [k]) with (map fst prior ++ map fst [(k, v)]) in Ho'. rewrite <-map_app in Ho'.
  assert (data_holds key_size (map fst (prior ++ [(k, v)])) (overwrite (bd_key_data b) (Z.to_nat (key_total prior)) k)) as Hd'.
  { rewrite map_app. unfold key_total, len in *. rewrite Nat2Z.id. by apply data_write; [|lia]. }
  destruct (st_projection st) eqn:Eproj.
  - destruct Hvals as [Eo1 Ed1]. rewrite Eo1, Ed1. apply yields_ret. cbn [fst snd]. split_and!; [done|done|done| |by rewrite Hlen].
    constructor; cbn [bd_key_offsets bd_key_data bd_key_cursor bd_value_cursor bd_value_offsets bd_value_data]; [done|done|by rewrite key_total_snoc| |by split].
    rewrite value_total_snoc, Hvc. rewrite decide_False by done. lia.
  - rewrite decide_True in Ev, Hv by done. destruct Hvals as (o & d & Eo1 & Ed1 & Hvo & Hvd). rewrite Eo1, Ed1, Ev, Hvc.
    assert (0 ≤ value_total KeyValue prior) by (unfold value_total; rewrite decide_True by done; apply len_nonneg).
    assert (value_total KeyValue prior = len (concat (map snd prior))) as Evt by (unfold value_total; by rewrite decide_True).
    eapply yields_bind_lift; [unfold checked_add; by rewrite (proj2 (Z.ltb_lt _ _)) by lia|].
    assert (∃ s, slice_get d (value_total KeyValue prior) (value_total KeyValue prior + len v) = Some s) as [s Es].
    { eexists. unfold slice_get. rewrite (proj2 (Z.leb_le _ _)) by lia. rewrite (proj2 (Z.leb_le _ _)); [done|]. rewrite Hvd, len_app. unfold len. rewrite length_replicate.
      rewrite Evt in *. unfold len in *. lia. }
    eapply yields_bind_lift; [by rewrite Es|]. destruct (copy_at st all p k v Hflow) as (c & -> & Hcopy); [done|].
    eapply yields_bind; [exact Hcopy|]. intros [c' w] [Ew Hflow']. cbn [fst snd] in *. subst w.
    destruct (offsets_write n (map snd prior) v _ Hvo) as (ov & Eov & Hov); [by rewrite length_map|rewrite <-Evt; lia|done|].
    rewrite length_map, <-Evt in Eov. eapply yields_bind_lift; [exact Eov|]. apply yields_ret. cbn [fst snd]. split_and!; [done|done|done| |by rewrite Hlen].
    change (map snd prior ++ [v]) with (map snd prior ++ map snd [(k, v)]) in Hov. rewrite <-map_app in Hov.
    constructor; cbn [bd_key_offsets bd_key_data bd_key_cursor bd_value_cursor bd_value_offsets bd_value_data]; [done|done|by rewrite key_total_snoc| |].
    + rewrite value_total_snoc. by rewrite decide_True.
    + eexists _, _. split_and!; [done|done|done|]. rewrite map_app, Evt. unfold len in *. rewrite Nat2Z.id. apply data_write; [done|]. rewrite Evt in *. lia.
Qed.

Lemma totals_mono projection (l r : list (key * list byte)) :
  key_total l ≤ key_total (l ++ r) ∧ value_total projection l ≤ value_total projection (l ++ r).
Proof.
  unfold key_total, value_total. rewrite <-!(total_app_le _ l r). pose proof (len_nonneg (concat (map fst r))). pose proof (len_nonneg (concat (map snd r))).
  split; [lia|]. destruct (decide _); lia.
Qed.

Lemma build_rows_yields rows : ∀ st b prior todo n all key_size value_size,
  flow st all → ready_rows (st_projection st) rows todo → filled (st_projection st) n key_size value_size prior b →
  (length (prior ++ todo) ≤ n)%nat → Z.of_nat n * 8 + 8 < 2 ^ 64 →
  key_total (prior ++ todo) ≤ Z.of_nat key_size → Z.of_nat key_size < 2 ^ 63 →
  value_total (st_projection st) (prior ++ todo) ≤ Z.of_nat value_size → Z.of_nat value_size < 2 ^ 63 →
  yields (mfold build_row (st, b, length prior) rows) (λ r, flow r.1.1 all ∧ still st r.1.1 ∧ st_pending r.1.1 = st_pending st
    ∧ filled (st_projection st) n key_size value_size (prior ++ todo) r.1.2).
Proof.
  induction rows as [|p rows IH]; intros st b prior todo n all key_size value_size Hflow Hready Hfilled Hle Hn Hk Hks Hv Hvs; cbn [mfold].
  { apply Forall2_nil_inv_l in Hready as ->. apply yields_ret. by rewrite app_nil_r. }
  apply Forall2_cons_inv_l in Hready as ([k v] & todo' & Hp & Hready & ->). cbn [fst snd] in Hp.
  replace (prior ++ (k, v) :: todo') with ((prior ++ [(k, v)]) ++ todo') in * by (by rewrite <-app_assoc).
  pose proof (totals_mono (st_projection st) (prior ++ [(k, v)]) todo') as [Hk1 Hv1]. rewrite !length_app in Hle. cbn [length] in Hle.
  eapply yields_bind; [eapply (build_row_yields st b p prior k v n all); [done|done|exact Hfilled|lia|done|lia|done|lia|done]|].
  intros [[st1 b1] index] (Hflow1 & Hstill & Hpend & Hfilled1 & Ei). cbn [fst snd] in *. subst index. pose proof Hstill as (Hproj & _).
  eapply yields_mono; [apply (IH st1 b1 (prior ++ [(k, v)]) todo' n all key_size value_size); rewrite ?Hproj; try done; rewrite !length_app; cbn [length]; lia|].
  intros r (Hf & Hs & Hpe & Hfi). rewrite Hproj in Hfi. split_and!; [done|by eapply still_trans|congruence|done].
Qed.

(** The batch reads back its rows. *)
Definition batch_holds (batch : ProjectedReadBatch) (projection : ProjectedReadProjection) (rows : list (key * list byte)) : Prop :=
  batch_projection batch = projection ∧ batch_rows batch = length rows ∧
  ∀ i k v, rows !! i = Some (k, v) → batch_key batch i = Some k ∧ batch_value batch i = if decide (projection = KeyValue) then Some v else None.

(** A batch of [n] rows and [a] bytes has been emitted. *)
Record emitted (m m' : ProjectedReadMeter) (n a : Z) : Prop := {
  emitted_budget : budget m' = budget m;
  emitted_reserved : reserved_bytes (output_memory m') = reserved_bytes (output_memory m) + a;
  emitted_limit : limit_bytes (output_memory m') = limit_bytes (output_memory m);
  emitted_pool : reserved_bytes (output_memory m') ≤ limit_bytes (output_memory m');
  emitted_count : emitted_rows (evidence m') = emitted_rows (evidence m) + n;
  emitted_size : emitted_buffer_bytes (evidence m') = emitted_buffer_bytes (evidence m) + a;
  emitted_within : source_within m → source_within m'
}.

Lemma record_batch_yields m a : a ≤ max_batch_allocated_bytes (budget m) → runs m (record_batch_allocation a) (λ m' _, paid m m') (paid m).
Proof.
  intros Ha. unfold runs, record_batch_allocation, check_limit. rewrite (proj2 (Z.ltb_ge _ _)) by done. by constructor.
Qed.

Lemma record_emitted_runs m n k v a :
  runs m (record_emitted_batch n k v a) (λ m' _, budget m' = budget m ∧ output_memory m' = output_memory m
    ∧ emitted_rows (evidence m') = emitted_rows (evidence m) + n ∧ emitted_buffer_bytes (evidence m') = emitted_buffer_bytes (evidence m) + a
    ∧ (source_within m → source_within m')) (paid m).
Proof.
  unfold runs, record_emitted_batch.
  destruct (counted_cases (emitted_rows (evidence m)) n "emitted row counter") as [(? & -> & ->)|(e & -> & He)]; [|by split; [apply paid_refl|]].
  destruct (counted_cases (emitted_key_bytes (evidence m)) k "emitted key-byte counter") as [(? & -> & ->)|(e & -> & He)]; [|by split; [apply paid_refl|]].
  destruct (counted_cases (emitted_value_bytes (evidence m)) v "emitted value-byte counter") as [(? & -> & ->)|(e & -> & He)]; [|by split; [apply paid_refl|]].
  destruct (counted_cases (emitted_buffer_bytes (evidence m)) a "emitted buffer-byte counter") as [(? & -> & ->)|(e & -> & He)]; [|by split; [apply paid_refl|]].
  destruct (counted_cases (emitted_batches (evidence m)) 1 "emitted batch counter") as [(? & -> & ->)|(e & -> & He)]; [|by split; [apply paid_refl|]].
  by split_and!.
Qed.

Lemma offsets_len n items o : offsets_hold n items o → length items = n → len o = (Z.of_nat n + 1) * 8.
Proof. intros -> <-. rewrite Nat.sub_diag, app_nil_r. unfold len. rewrite encode_i64_length, offsets_of_length. lia. Qed.
Lemma data_len items d : data_holds (length (concat items)) items d → len d = len (concat items).
Proof. intros ->. by rewrite Nat.sub_diag, app_nil_r. Qed.
Lemma wrap_ok r b : len b ≤ r → wrap r b = Ok (r - len b, b).
Proof. intros Hb. unfold wrap. by rewrite (proj2 (Z.ltb_ge _ _)) by lia. Qed.

(** The buffers of a filled batch: what they hold, and that they take the allocation. *)
Lemma filled_batch projection n taken b :
  length taken = n → filled projection n (Z.to_nat (key_total taken)) (Z.to_nat (value_total projection taken)) taken b →
  batch_bytes projection taken < 2 ^ 63 →
  let batch := {| batch_projection := projection; batch_rows := n; key_offsets := bd_key_offsets b; key_data := bd_key_data b;
                  value_offsets := bd_value_offsets b; value_data := bd_value_data b |} in
  batch_holds batch projection taken ∧ allocated_bytes batch = batch_bytes projection taken
  ∧ len (bd_key_offsets b) = (len taken + 1) * 8 ∧ len (bd_key_data b) = key_total taken
  ∧ match projection with
    | Key => bd_value_offsets b = None ∧ bd_value_data b = None
    | KeyValue => ∃ o d, bd_value_offsets b = Some o ∧ bd_value_data b = Some d ∧ len o = (len taken + 1) * 8 ∧ len d = value_total KeyValue taken
    end.
Proof.
  intros Hn [Ho Hd _ _ Hv] Hb batch. subst batch. assert (Z.of_nat n = len taken) as Hlen by (unfold len; lia). rewrite <-Hlen.
  assert (∀ f : key * list byte → list byte, Z.to_nat (len (concat (map f taken))) = length (concat (map f taken))) as Hnat by (intros; unfold len; apply Nat2Z.id).
  unfold key_total in *. rewrite Hnat in Hd. unfold value_total in Hv. unfold batch_bytes, key_total, value_total in *.
  pose proof (len_nonneg (concat (map fst taken))). pose proof (len_nonneg (concat (map snd taken))).
  pose proof (offsets_len _ _ _ Ho ltac:(by rewrite length_map)) as Lo. pose proof (data_len _ _ Hd) as Ld.
  unfold allocated_bytes, saturating_add. cbn [key_offsets key_data value_offsets value_data]. destruct projection.
  - rewrite decide_False in Hb |- * by done. destruct Hv as [Eo Ed]. rewrite Eo, Ed in *. split_and!; [|rewrite Lo, Ld, Hlen; lia|done|done|done|done].
    split_and!; [done|done|]. intros i k v Hi. unfold batch_key, batch_value. cbn [key_offsets key_data value_offsets value_data batch_rows]. split; [|by rewrite decide_False].
    eapply column_read; [exact Ho|exact Hd|by rewrite length_map|by rewrite list_lookup_fmap, Hi|lia|lia].
  - rewrite decide_True in Hb, Hv |- * by done. rewrite decide_True in Hb |- * by done. rewrite Hnat in Hv. destruct Hv as (o & d & Eo & Ed & Hvo & Hvd). rewrite Eo, Ed.
    pose proof (offsets_len _ _ _ Hvo ltac:(by rewrite length_map)) as Lvo. pose proof (data_len _ _ Hvd) as Lvd.
    split_and!; [|rewrite Lo, Ld, Lvo, Lvd, Hlen; lia|done|done|by exists o, d].
    split_and!; [done|done|]. intros i k v Hi. unfold batch_key, batch_value. cbn [key_offsets key_data value_offsets value_data batch_rows]. rewrite decide_True by done.
    split; (eapply column_read; [done|done|by rewrite length_map|by rewrite list_lookup_fmap, Hi|lia|lia]).
Qed.

Lemma fill_batch_runs m st rows taken rest :
  let projection := st_projection st in let a := batch_bytes projection taken in
  flow st rest → ready_rows projection rows taken → a ≤ max_batch_allocated_bytes (budget m) → max_batch_allocated_bytes (budget m) < 2 ^ 63 →
  runs m (fill_batch st rows (key_total taken) (value_total projection taken) a) (λ m' r,
    (flow r.1 rest ∧ still st r.1 ∧ st_pending r.1 = st_pending st ∧ batch_holds r.2 projection taken ∧ allocated_bytes r.2 = a)
    ∧ budget m' = budget m ∧ output_memory m' = output_memory m ∧ emitted_rows (evidence m') = emitted_rows (evidence m) + len taken
    ∧ emitted_buffer_bytes (evidence m') = emitted_buffer_bytes (evidence m) + a ∧ (source_within m → source_within m')) (paid m).
Proof.
  intros projection a Hflow Hready Ha Hmax. unfold fill_batch. pose proof (Forall2_length _ _ _ Hready) as Hlen.
  assert (len rows = len taken) as Hl by (unfold len; lia). rewrite Hl.
  assert (0 ≤ key_total taken) as Hk0 by apply len_nonneg. assert (0 ≤ value_total projection taken) as Hv0 by (unfold value_total; destruct (decide _); [apply len_nonneg|lia]).
  pose proof (len_nonneg taken) as Hl0.
  assert ((len taken + 1) * 8 + key_total taken + value_total projection taken ≤ a) as Hsum.
  { unfold a, batch_bytes, value_total. destruct (decide _); [|lia]. pose proof (len_nonneg (concat (map snd taken))). lia. }
  eapply runs_bind; [by apply record_batch_yields|]. intros u m1 Hpaid1. cbn beta in Hpaid1.
  destruct (offsets_start (length taken)) as (o & Eo & Ho); [unfold len in *; lia|]. fold (len taken) in Eo.
  apply runs_check; [intros e He; congruence|]. intros o1 Eo1. rewrite Eo in Eo1. injection Eo1 as <-.
  apply runs_check; [intros e He; destruct (decide _); [rewrite Eo in He|]; congruence|]. intros vo Evo.
  fold projection. fold projection in Evo.
  set (b0 := {| bd_key_offsets := o |}).
  assert (filled projection (length taken) (Z.to_nat (key_total taken)) (Z.to_nat (value_total projection taken)) [] b0) as Hb0.
  { constructor; cbn [b0 bd_key_offsets bd_key_data bd_key_cursor bd_value_cursor bd_value_offsets bd_value_data map]; [done| |done| |].
    - unfold data_holds. cbn [concat app length]. by rewrite Nat.sub_0_r.
    - unfold value_total. by destruct (decide _).
    - destruct projection; [rewrite decide_False in Evo by done; injection Evo as <-; by rewrite decide_False|].
      rewrite decide_True in Evo by done. rewrite Eo in Evo. injection Evo as <-. rewrite decide_True by done. eexists _, _. split_and!; [done|done|done|].
      unfold data_holds. cbn [concat app length]. by rewrite Nat.sub_0_r. }
  eapply runs_bind; [apply (runs_yields m1 _ (λ r, flow r.1.1 rest ∧ still st r.1.1 ∧ st_pending r.1.1 = st_pending st
    ∧ filled projection (length taken) (Z.to_nat (key_total taken)) (Z.to_nat (value_total projection taken)) ([] ++ taken) r.1.2))|].
  { apply (build_rows_yields rows st b0 [] taken (length taken) rest); try done; cbn [app]; fold projection; unfold len in *; lia. }
  { intros m' Hp. by eapply paid_trans. }
  intros [[st1 b] index] m2 (Hpaid2 & Hflow1 & Hstill & Hpend & Hfilled). cbn [fst snd app] in *. pose proof Hstill as (Hproj & _).
  destruct (filled_batch projection (length taken) taken b eq_refl Hfilled ltac:(fold a; lia)) as (Hholds & Halloc & Lo & Ld & Hvals).
  apply runs_check; [intros e He; rewrite wrap_ok in He by lia; congruence|]. intros [r1 ko] E1. rewrite wrap_ok in E1 by lia. injection E1 as <- <-.
  apply runs_check; [intros e He; rewrite wrap_ok in He by lia; congruence|]. intros [r2 kd] E2. rewrite wrap_ok in E2 by lia. injection E2 as <- <-.
  rewrite Lo, Ld. rewrite Hproj. fold projection.
  assert (∃ r3 r4, wrap_option (a - (len taken + 1) * 8 - key_total taken) (bd_value_offsets b) = Ok (r3, bd_value_offsets b)
    ∧ wrap_option r3 (bd_value_data b) = Ok (r4, bd_value_data b)) as (r3 & r4 & E3 & E4).
  { unfold a, batch_bytes. destruct projection.
    - destruct Hvals as [-> ->]. eexists _, _. by split.
    - destruct Hvals as (vo' & vd & -> & -> & Lvo & Lvd). rewrite decide_True by done. unfold wrap_option. rewrite wrap_ok by lia. eexists _, _. split; [done|]. rewrite wrap_ok by lia. done. }
  apply runs_check; [intros e He; congruence|]. intros [r3' vo'] E3'. rewrite E3 in E3'. injection E3' as <- <-.
  apply runs_check; [intros e He; congruence|]. intros [r4' vd'] E4'. rewrite E4 in E4'. injection E4' as <- <-.
  rewrite Hlen, Halloc. eapply runs_bind; [eapply runs_mono; [apply record_emitted_runs|intros m' x H'; exact H'|]|].
  { intros m' Hp. eapply paid_trans; [exact Hpaid1|]. by eapply paid_trans. }
  intros u3 m3 (Eb & Eout & Er & Ebb & Hw). apply runs_ret. cbn [fst snd]. pose proof (paid_trans _ _ _ Hpaid1 Hpaid2) as [Pb Po Pr Pbb Pw].
  split; [by split_and!|]. split_and!; [congruence|congruence|congruence|rewrite Ebb, Pbb; done|tauto].
Qed.

Lemma kept_refl m : kept m m.
Proof. by constructor. Qed.

Lemma build_batch_runs m st rows taken rest :
  let projection := st_projection st in let a := batch_bytes projection taken in
  flow st rest → ready_rows projection rows taken → a ≤ max_batch_allocated_bytes (budget m) → max_batch_allocated_bytes (budget m) < 2 ^ 63 →
  runs m (build_batch st rows (key_total taken) (value_total projection taken)) (λ m' r,
    (flow r.1 rest ∧ still st r.1 ∧ st_pending r.1 = st_pending st ∧ batch_holds r.2 projection taken ∧ allocated_bytes r.2 = a) ∧ emitted m m' (len taken) a) (kept m).
Proof.
  intros projection a Hflow Hready Ha Hmax. unfold build_batch. pose proof (Forall2_length _ _ _ Hready) as Hlen.
  replace (len rows) with (len taken) by (unfold len; lia). fold projection. pose proof (batch_allocation_spec projection taken) as Hspec.
  apply runs_check; [intros e He; rewrite He in Hspec; by split; [|apply kept_refl]|]. intros a' Ea. rewrite Ea in Hspec. destruct Hspec as [-> _]. fold a.
  unfold runs, reserve. destruct (Z.ltb_spec (limit_bytes (output_memory m) - reserved_bytes (output_memory m)) a) as [Hfull|Hroom].
  { split; [by constructor|apply budgeted_limit]. }
  set (m1 := set_output m _). pose proof (fill_batch_runs m1 st rows taken rest Hflow Hready Ha Hmax) as Hfill. unfold runs in Hfill. fold projection in Hfill. fold a in Hfill.
  destruct (fill_batch _ _ _ _ _ _) as [m2 [x|e]].
  - destruct Hfill as [Hx (Eb & Eo & Er & Ebb & Hw)]. split; [done|]. constructor; rewrite ?Eo; try done. cbn. lia.
  - destruct Hfill as [[Pb Po Pr Pbb Pw] He]. split; [|done]. constructor; cbn [set_output budget output_memory evidence unreserve reserved_bytes limit_bytes]; try done.
    + rewrite Po. cbn. lia.
    + by rewrite Po.
Qed.

(** ** A batch of the stream *)

(** The stream has [out] still to give, whether its runs have been looked at or not. *)
Definition opened (st : ProjectedReadStream) (out : list (key * list byte)) : Prop :=
  if st_initialized st then flow st out
  else st_pending st = None ∧ ∃ rems, stream_at Rs st (seq 0 (length (st_cursors st))) rems ∧ distinct_runs rems ∧ live rems out.

Lemma initialize_opened st out :
  opened st out → yields (initialize st) (λ st', flow st' out ∧ st_initialized st' = true ∧ st_projection st' = st_projection st ∧ st_terminal st' = st_terminal st).
Proof.
  unfold opened. destruct (st_initialized st) eqn:Ei.
  - intros Hf. unfold initialize. rewrite Ei. by apply yields_ret.
  - intros (Hp & rems & Hst & Hd & Hl). eapply yields_mono; [by apply initialize_at|]. intros st' (Hst' & Hproj & Hpend & Hi & Ht). split_and!; [|done..].
    exists rems. split_and!; [done|done|]. by rewrite Hpend, Hp.
Qed.

(** What one call gives of [out]: the rows [taken] in a batch, or the end. *)
Definition gives (m : ProjectedReadMeter) (st : ProjectedReadStream) (out : list (key * list byte)) (m' : ProjectedReadMeter)
    (r : ProjectedReadStream * option ProjectedReadBatch) : Prop :=
  ∃ taken rest, out = taken ++ rest ∧ flow r.1 rest ∧ st_initialized r.1 = true ∧ st_projection r.1 = st_projection st ∧ st_terminal r.1 = st_terminal st ∧
  let a := batch_bytes (st_projection st) taken in
  match r.2 with
  | None => out = [] ∧ kept m m'
  | Some batch => taken ≠ [] ∧ batch_holds batch (st_projection st) taken ∧ allocated_bytes batch = a ∧ fits m (len taken) a ∧ emitted m m' (len taken) a
  end.

Lemma emitted_kept m m1 m2 n a : kept m m1 → emitted m1 m2 n a → emitted m m2 n a.
Proof. intros [] []. constructor; try congruence; try tauto; lia. Qed.

Lemma next_batch_runs m st out :
  opened st out → max_batch_allocated_bytes (budget m) < 2 ^ 63 → runs m (next_batch_inner st) (gives m st out) (kept m).
Proof.
  intros Hop Hmax. unfold next_batch_inner. eapply runs_bind; [apply runs_yields; [by apply initialize_opened|intros; by apply paid_kept]|].
  intros st1 m1 (Hpaid1 & Hflow & Hi & Hproj & Hterm).
  assert (value_total (st_projection st1) [] = 0) as Ev by (unfold value_total; by destruct (decide _)).
  pose proof (batch_loop_runs (stream_passes st1) m1 st1 [] out [] Hflow) as Hloop. rewrite Ev in Hloop.
  eapply runs_bind; [eapply runs_mono; [apply Hloop; [constructor|pose proof (flow_passes _ _ Hflow); lia|done]|intros m' x H'; exact H'|intros m' Hp; apply paid_kept; by eapply paid_trans]|].
  intros [[[st2 rows] kb] vb] m2 (Hpaid2 & taken & rest & [Hsplit Hready Hkb Hvb Hflow2 Hstill Hsome Hfits]). cbn [fst snd app] in *. subst kb vb.
  pose proof Hstill as (Hproj2 & Hi2 & Hterm2). destruct rows as [|p rows].
  { apply Forall2_nil_inv_l in Hready as ->. apply runs_ret. exists [], rest. cbn [fst snd app] in *. split_and!; [done|done|congruence|congruence|congruence|by apply Hsome|].
    apply paid_kept. by eapply paid_trans. }
  assert (taken ≠ []) as Hne by (intros ->; by inversion Hready). destruct (Hfits Hne) as [Hf1 Halloc].
  pose proof (fits_paid _ _ _ _ Hpaid2 Hf1) as Hf2. pose proof (paid_trans _ _ _ Hpaid1 Hpaid2) as Hpaid. rewrite <-Hproj2 in *.
  eapply runs_bind; [eapply runs_mono; [apply (build_batch_runs m2 st2 (p :: rows) taken rest); [done|done|apply Hf2|by rewrite (paid_budget _ _ Hpaid)]|
    intros m' x H'; exact H'|intros m' Hk; eapply kept_trans; [by apply paid_kept|done]]|].
  intros [st3 batch] m3 ((Hflow3 & Hstill3 & Hpend & Hholds & Ha) & Hem). cbn [fst snd] in *. pose proof Hstill3 as (Hproj3 & Hi3 & Hterm3).
  apply runs_ret. exists taken, rest. cbn [fst snd]. rewrite Hproj2, Hproj in *.
  split_and!; [done|done|congruence|congruence|congruence|done|done|done|by eapply fits_back|eapply emitted_kept; [by apply paid_kept|done]].
Qed.
End Flow.
