(* ===== verification/ReadViews.v ===== *)
(** The registry of read views ([rrd-lsm]: segment/reader.rs, [ActiveReadViews] and
    [ReadViewLease], and [Database::begin_projected_read]).

    A projected read leases the manifest, the segments and the memtable generation it
    captures.  The registry counts the leases of each and charges every pinned object once.

    Its specification is the list of the leases that are out: acquiring adds one, releasing
    removes one and always succeeds, the counts are those of the list, and a registry with no
    lease is empty.  A lock that no holder panics under is not poisoned. *)

From S2P Require Import Prelude Machine BTree Ident Digest LsmError Batch RecoveryBudget Wal Memtable Transaction Versions SegmentFormat Segment SegmentFile PointIndex Database Manifest Reader.
Open Scope Z_scope.

(** * Operations *)

(** [Arc<MutableGeneration>]: its address and what it points to *)
Record MutableGeneration := { address : Z; table : Memtable }.
(** lsm/segment/reader.rs:364-368 ActiveManifest *)
Record ActiveManifest := { active_manifest : Manifest; manifest_references : Z }.
(** lsm/segment/reader.rs:370-374 ActiveSegment *)
Record ActiveSegment := { active_descriptor : SegmentDescriptor; segment_references : Z }.
(** lsm/segment/reader.rs:386-392 ActiveMemtable *)
Record ActiveMemtable := { active_generation : MutableGeneration; memtable_references : Z; memtable_bytes : Z }.
(** lsm/segment/reader.rs:356-362 ActiveReadViews *)
Record ActiveReadViews := {
  views_active : Z; views_pinned : Z; views_manifests : list (string * ActiveManifest);
  views_segments : list (string * ActiveSegment); views_memtables : list (Z * ActiveMemtable)
}.
Definition ActiveReadViews_default : ActiveReadViews :=
  {| views_active := 0; views_pinned := 0; views_manifests := []; views_segments := []; views_memtables := [] |}.

(** lsm/segment/reader.rs:377-384 same_segment_file *)
Definition same_segment_file (first second : SegmentDescriptor) : bool :=
  (bool_decide (first = second) ||
   bool_decide (first =
     {| segment_id := segment_id second; segment_level := segment_level first; format_version := format_version second;
        schema_digest := schema_digest second; key_codec_digest := key_codec_digest second;
        page_format_digest := page_format_digest second; first_key := first_key second; last_key := last_key second;
        minimum_sequence := minimum_sequence second; maximum_segment_sequence := maximum_segment_sequence second;
        entries := entries second; segment_bytes := segment_bytes second; segment_checksum := segment_checksum second |}))%bool.

(** lsm/segment/reader.rs:395-400 ActiveReadViews::ownership *)
Definition views_ownership (views : ActiveReadViews) : Z * Z := (views_active views, views_pinned views).

(** lsm/segment/reader.rs:569-576 ReadViewLease *)
Record ReadViewLease := {
  lease_manifest : string; lease_segments : list string; lease_memtable : option Z; lease_released : bool
}.

Definition poisoned {A} : result Error A := Err PoisonedReadViewRegistry.

(** lsm/segment/reader.rs:438-461 ActiveReadViews::acquire, one segment: its references and what
    it adds to the charge *)
Definition acquire_segment (views : ActiveReadViews) (st : list (SegmentDescriptor * Z) * list (string * unit) * Z) (descriptor : SegmentDescriptor)
    : result Error (list (SegmentDescriptor * Z) * list (string * unit) * Z) :=
  let '(next_segments, identities, charge) := st in
  match bt_get (segment_id descriptor) identities with
  | Some _ => poisoned
  | None =>
    let identities := bt_insert (segment_id descriptor) tt identities in
    match bt_get (segment_id descriptor) (views_segments views) with
    | Some entry =>
      if negb (same_segment_file (active_descriptor entry) descriptor) then poisoned
      else
        let? references := ok_or (checked_add 64 (segment_references entry) 1) PoisonedReadViewRegistry in
        Ok (next_segments ++ [(descriptor, references)], identities, charge)
    | None =>
      let? charge := ok_or (checked_add 64 charge (segment_bytes descriptor)) PoisonedReadViewRegistry in
      Ok (next_segments ++ [(descriptor, 1)], identities, charge)
    end
  end.

(** lsm/segment/reader.rs:462-488 ActiveReadViews::acquire, the mutable generation: its key, its
    references and its charge *)
Definition acquire_memtable (views : ActiveReadViews) (memtable : option MutableGeneration) (bytes : Z)
    : result Error (option (Z * MutableGeneration * Z * Z)) :=
  if bytes =? 0 then Ok None
  else
    let? generation := ok_or memtable PoisonedReadViewRegistry in
    if negb (approximate_bytes (table generation) =? bytes) then poisoned
    else
      let key := address generation in
      match bt_get key (views_memtables views) with
      | Some entry =>
        if (negb (address (active_generation entry) =? key) || negb (memtable_bytes entry =? bytes))%bool then poisoned
        else
          let? references := ok_or (checked_add 64 (memtable_references entry) 1) PoisonedReadViewRegistry in
          Ok (Some (key, generation, references, 0))
      | None => Ok (Some (key, generation, 1, bytes))
      end.

(** lsm/segment/reader.rs:500-511 ActiveReadViews::acquire, the manifest's entry *)
Definition put_manifest (manifests : list (string * ActiveManifest)) (manifest : Manifest) (references : Z) : list (string * ActiveManifest) :=
  let kept := match bt_get (manifest_id manifest) manifests with Some entry => active_manifest entry | None => manifest end in
  bt_insert (manifest_id manifest) {| active_manifest := kept; manifest_references := references |} manifests.
(** lsm/segment/reader.rs:512-527 ActiveReadViews::acquire, a segment's entry *)
Definition put_segment (segments : list (string * ActiveSegment)) (next : SegmentDescriptor * Z) : list (string * ActiveSegment) :=
  let '(descriptor, references) := next in
  let kept := match bt_get (segment_id descriptor) segments with Some entry => active_descriptor entry | None => descriptor end in
  bt_insert (segment_id descriptor) {| active_descriptor := kept; segment_references := references |} segments.
(** lsm/segment/reader.rs:528-543 ActiveReadViews::acquire, the generation's entry *)
Definition put_memtable (memtables : list (Z * ActiveMemtable)) (key : Z) (generation : MutableGeneration) (references bytes : Z)
    : list (Z * ActiveMemtable) :=
  match bt_get key memtables with
  | Some entry => bt_insert key {| active_generation := active_generation entry; memtable_references := references; memtable_bytes := memtable_bytes entry |} memtables
  | None => bt_insert key {| active_generation := generation; memtable_references := references; memtable_bytes := bytes |} memtables
  end.

(** lsm/segment/reader.rs:402-553 ActiveReadViews::acquire; it fails before it changes anything. *)
Definition acquire (views : ActiveReadViews) (manifest : Manifest) (memtable : option MutableGeneration) (bytes : Z)
    (segments : list SegmentDescriptor) (limits : ProjectedReadBudget) : result Error (ActiveReadViews * ReadViewLease) :=
  let? next_active := ok_or (checked_add 64 (views_active views) 1) PoisonedReadViewRegistry in
  do? check_limit ActiveViews (max_active_views limits) next_active in
  let? next_manifest_refs :=
    match bt_get (manifest_id manifest) (views_manifests views) with
    | Some entry =>
      if negb (bool_decide (active_manifest entry = manifest)) then poisoned
      else ok_or (checked_add 64 (manifest_references entry) 1) PoisonedReadViewRegistry
    | None => Ok 1
    end in
  let? (next_segments, _, segment_charge) := try_fold (acquire_segment views) ([], [], 0) segments in
  let? mutable := acquire_memtable views memtable bytes in
  let memtable_charge := match mutable with Some (_, _, _, charge) => charge | None => 0 end in
  let? next_pinned := ok_or (match checked_add 64 (views_pinned views) memtable_charge with
    | Some bytes => checked_add 64 bytes segment_charge | None => None end) PoisonedReadViewRegistry in
  do? check_limit PinnedBytes (max_pinned_bytes limits) next_pinned in
  Ok ({| views_active := next_active; views_pinned := next_pinned;
         views_manifests := put_manifest (views_manifests views) manifest next_manifest_refs;
         views_segments := fold_left put_segment next_segments (views_segments views);
         views_memtables := match mutable with
           | Some (key, generation, references, _) => put_memtable (views_memtables views) key generation references bytes
           | None => views_memtables views end |},
      {| lease_manifest := manifest_id manifest; lease_segments := map (λ next, segment_id next.1) next_segments;
         lease_memtable := match mutable with Some (key, _, _, _) => Some key | None => None end; lease_released := false |}).

(** lsm/segment/reader.rs:555-566 ActiveReadViews::visit_segments *)
Definition visit_segments {S} (views : ActiveReadViews) (visit : S → SegmentDescriptor → result Error S) (st : S) : result Error S :=
  try_fold (λ st entry, visit st (active_descriptor entry.2)) st (views_segments views).

(** lsm/segment/reader.rs:601-616 ReadViewLease::release, one segment *)
Definition release_segment (views : ActiveReadViews) (st : list (string * Z) * Z) (id : string) : result Error (list (string * Z) * Z) :=
  let '(next_segments, charge) := st in
  let? entry := ok_or (bt_get id (views_segments views)) PoisonedReadViewRegistry in
  let? refs := ok_or (checked_sub (segment_references entry) 1) PoisonedReadViewRegistry in
  let? charge := if refs =? 0 then ok_or (checked_add 64 charge (segment_bytes (active_descriptor entry))) PoisonedReadViewRegistry else Ok charge in
  Ok (next_segments ++ [(id, refs)], charge).

(** lsm/segment/reader.rs:646-656 ReadViewLease::release, a segment's entry *)
Definition drop_segment (segments : list (string * ActiveSegment)) (next : string * Z) : list (string * ActiveSegment) :=
  let '(id, refs) := next in
  if refs =? 0 then bt_remove id segments
  else match bt_get id segments with
       | Some entry => bt_insert id {| active_descriptor := active_descriptor entry; segment_references := refs |} segments
       | None => segments
       end.

(** lsm/segment/reader.rs:617-630 ReadViewLease::release, the mutable generation *)
Definition release_memtable (views : ActiveReadViews) (key : option Z) : result Error (option (Z * ActiveMemtable * Z * Z)) :=
  match key with
  | Some key =>
    let? entry := ok_or (bt_get key (views_memtables views)) PoisonedReadViewRegistry in
    let? refs := ok_or (checked_sub (memtable_references entry) 1) PoisonedReadViewRegistry in
    Ok (Some (key, entry, refs, if refs =? 0 then memtable_bytes entry else 0))
  | None => Ok None
  end.
(** lsm/segment/reader.rs:657-667 ReadViewLease::release, the generation's entry *)
Definition drop_memtable (memtables : list (Z * ActiveMemtable)) (mutable : option (Z * ActiveMemtable * Z * Z)) : list (Z * ActiveMemtable) :=
  match mutable with
  | Some (key, entry, refs, _) =>
    if refs =? 0 then bt_remove key memtables
    else bt_insert key {| active_generation := active_generation entry; memtable_references := refs; memtable_bytes := memtable_bytes entry |} memtables
  | None => memtables
  end.

(** lsm/segment/reader.rs:579-672 ReadViewLease::release; it fails before it changes anything. *)
Definition release (views : ActiveReadViews) (self : ReadViewLease) : result Error (ActiveReadViews * ReadViewLease) :=
  if lease_released self then Ok (views, self)
  else
    let? next_active := ok_or (checked_sub (views_active views) 1) PoisonedReadViewRegistry in
    let? manifest := ok_or (bt_get (lease_manifest self) (views_manifests views)) PoisonedReadViewRegistry in
    let? next_manifest_refs := ok_or (checked_sub (manifest_references manifest) 1) PoisonedReadViewRegistry in
    let? (next_segments, segment_charge) := try_fold (release_segment views) ([], 0) (lease_segments self) in
    let? mutable := release_memtable views (lease_memtable self) in
    let mutable_charge := match mutable with Some (_, _, _, charge) => charge | None => 0 end in
    let? next_pinned := ok_or (match checked_sub (views_pinned views) mutable_charge with
      | Some bytes => checked_sub bytes segment_charge | None => None end) PoisonedReadViewRegistry in
    Ok ({| views_active := next_active; views_pinned := next_pinned;
           views_manifests := if next_manifest_refs =? 0 then bt_remove (lease_manifest self) (views_manifests views)
             else bt_insert (lease_manifest self) {| active_manifest := active_manifest manifest; manifest_references := next_manifest_refs |} (views_manifests views);
           views_segments := fold_left drop_segment next_segments (views_segments views);
           views_memtables := drop_memtable (views_memtables views) mutable |},
        {| lease_manifest := lease_manifest self; lease_segments := lease_segments self; lease_memtable := lease_memtable self; lease_released := true |}).

(** lsm/database.rs:388-391 Database, the state projected reads use beside the runs *)
Record ReadContext := {
  read_views : ActiveReadViews; active_read_view_limit : Z; pinned_read_byte_limit : Z; db_manifest : Manifest;
  generation_address : Z; projected_output : ProjectedOutputStats
}.

(** lsm/database.rs:729-736 Database::begin_projected_read, the limits of the open database *)
Definition capped_budget (ctx : ReadContext) (limits : ProjectedReadBudget) : ProjectedReadBudget :=
  {| max_active_views := Z.min (max_active_views limits) (active_read_view_limit ctx); max_ranges := max_ranges limits; max_runs := max_runs limits;
     max_pinned_bytes := Z.min (max_pinned_bytes limits) (pinned_read_byte_limit ctx); max_versions_examined := max_versions_examined limits;
     max_page_requests := max_page_requests limits; max_page_logical_bytes := max_page_logical_bytes limits;
     max_output_rows := max_output_rows limits; max_output_buffer_bytes := max_output_buffer_bytes limits;
     max_batch_rows := max_batch_rows limits; max_batch_allocated_bytes := max_batch_allocated_bytes limits |}.

(** lsm/database.rs:723-800 Database::begin_projected_read without the identity of its cache
    accesses: the stream, its meter and its lease *)
Definition begin_projected_read (self : Database) (ctx : ReadContext) (request : ProjectedReadRequest)
    : result Error (ReadContext * ProjectedReadStream * ProjectedReadMeter * ReadViewLease) :=
  do? request_validate request (db_snapshot self) in
  let limits := capped_budget ctx (request_budget request) in
  let segs := selected_segments self request in
  let? run_count := ok_or (checked_add 64 (len segs) (if version_count (memtable self) =? 0 then 0 else 1))
    (InvalidProjectedRead "projected run count overflow") in
  if max_runs limits <? run_count then Err (ProjectedReadLimit Runs (max_runs limits) run_count)
  else
    let bytes := approximate_bytes (memtable self) in
    let? segment_bytes := try_fold (λ total segment, ok_or (checked_add 64 total (segment_bytes (descriptor segment)))
      (InvalidProjectedRead "pinned read-view bytes overflow")) 0 segs in
    let? _ := ok_or (checked_add 64 bytes segment_bytes) (InvalidProjectedRead "pinned read-view bytes overflow") in
    let? (views, lease) := acquire (read_views ctx) (db_manifest ctx) (Some {| address := generation_address ctx; table := memtable self |}) bytes
      (map descriptor segs) limits in
    let view := {| view_sequence := request_snapshot request; view_manifest := manifest_id (db_manifest ctx); view_memtable := memtable self;
                   view_segments := segs |} in
    Ok ({| read_views := views; active_read_view_limit := active_read_view_limit ctx; pinned_read_byte_limit := pinned_read_byte_limit ctx;
           db_manifest := db_manifest ctx; generation_address := generation_address ctx; projected_output := projected_output ctx |},
        stream_new view (request_ranges request) (request_projection request), meter_new view limits (projected_output ctx), lease).

(** * The specification: the leases that are out *)

Definition held (P : ReadViewLease → bool) (leases : list ReadViewLease) : Z := len (List.filter P leases).
Definition of_manifest (digest : string) (l : ReadViewLease) : bool := bool_decide (lease_manifest l = digest).
Definition of_segment (id : string) (l : ReadViewLease) : bool := bool_decide (id ∈ lease_segments l).
Definition of_memtable (key : Z) (l : ReadViewLease) : bool := bool_decide (lease_memtable l = Some key).

(** An entry counts its leases, and there is one exactly when there are leases. *)
Definition counts (references : option Z) (n : Z) : Prop := match references with Some r => r = n ∧ 0 < n | None => n = 0 end.

Definition segment_charge (e : string * ActiveSegment) : Z := segment_bytes (active_descriptor e.2).
Definition memtable_charge (e : Z * ActiveMemtable) : Z := memtable_bytes e.2.

Record leased (views : ActiveReadViews) (leases : list ReadViewLease) : Prop := {
  ls_open : Forall (λ l, lease_released l = false ∧ NoDup (lease_segments l)) leases;
  ls_active : views_active views = len leases;
  ls_sorted : bt_sorted (views_manifests views) ∧ bt_sorted (views_segments views) ∧ bt_sorted (views_memtables views);
  ls_manifests : ∀ d, counts (manifest_references <$> bt_get d (views_manifests views)) (held (of_manifest d) leases);
  ls_segments : ∀ id, counts (segment_references <$> bt_get id (views_segments views)) (held (of_segment id) leases);
  ls_memtables : ∀ k, counts (memtable_references <$> bt_get k (views_memtables views)) (held (of_memtable k) leases);
  ls_charges : (∀ e, e ∈ views_segments views → 0 ≤ segment_charge e) ∧ (∀ e, e ∈ views_memtables views → 0 ≤ memtable_charge e);
  ls_pinned : views_pinned views = bt_sum segment_charge (views_segments views) + bt_sum memtable_charge (views_memtables views);
  ls_word : views_pinned views < 2 ^ 64
}.

Lemma held_cons P l leases : held P (l :: leases) = (if P l then 1 else 0) + held P leases.
Proof. unfold held. cbn [List.filter]. destruct (P l); [rewrite len_cons|]; lia. Qed.
Lemma held_nonneg P leases : 0 ≤ held P leases.
Proof. apply len_nonneg. Qed.
Lemma held_perm P l1 l2 : l1 ≡ₚ l2 → held P l1 = held P l2.
Proof.
  induction 1 as [|x l1 l2 _ IH|x y l|l1 l2 l3 _ IH1 _ IH2]; [done|rewrite !held_cons; lia|rewrite !held_cons; lia|congruence].
Qed.
Lemma leased_perm views l1 l2 : l1 ≡ₚ l2 → leased views l1 → leased views l2.
Proof.
  intros Hp [Ho Ha Hs Hm Hg Ht Hc Hpin Hw]. constructor; try done.
  - by rewrite <-Hp.
  - rewrite Ha. unfold len. by rewrite Hp.
  - intros d. by rewrite <-(held_perm _ _ _ Hp).
  - intros d. by rewrite <-(held_perm _ _ _ Hp).
  - intros d. by rewrite <-(held_perm _ _ _ Hp).
Qed.

Lemma default_leased : leased ActiveReadViews_default [].
Proof. constructor; try done; [by split_and!; constructor|by split; intros e ?%not_elem_of_nil]. Qed.

(** ** Acquiring *)

Definition next_refs (views : ActiveReadViews) (d : SegmentDescriptor) : Z :=
  match bt_get (segment_id d) (views_segments views) with Some e => segment_references e + 1 | None => 1 end.
Definition next_charge (views : ActiveReadViews) (d : SegmentDescriptor) : Z :=
  match bt_get (segment_id d) (views_segments views) with Some _ => 0 | None => segment_bytes d end.
Definition sum (l : list Z) : Z := fold_right Z.add 0 l.

Lemma acquire_segments_ok views segs acc ids ch next ids' ch' :
  try_fold (acquire_segment views) (acc, ids, ch) segs = Ok (next, ids', ch') →
  next = acc ++ map (λ d, (d, next_refs views d)) segs ∧ ch' = ch + sum (map (next_charge views) segs)
  ∧ NoDup (map segment_id segs) ∧ ∀ d, d ∈ segs → bt_get (segment_id d) ids = None.
Proof.
  revert acc ids ch. induction segs as [|d segs IH]; intros acc ids ch; cbn [try_fold].
  { intros [= <- <- <-]. cbn [map sum fold_right]. split_and!; [by rewrite app_nil_r|lia|constructor|by intros ? ?%not_elem_of_nil]. }
  unfold acquire_segment at 1. destruct (bt_get (segment_id d) ids) eqn:Eid; [done|].
  assert (∃ r ch1, (match bt_get (segment_id d) (views_segments views) with Some e => segment_references e + 1 | None => 1 end) = r
    ∧ ch1 = ch + next_charge views d ∧ (try_fold (acquire_segment views) (acc ++ [(d, r)], bt_insert (segment_id d) tt ids, ch1) segs = Ok (next, ids', ch') →
      next = acc ++ map (λ d, (d, next_refs views d)) (d :: segs) ∧ ch' = ch + sum (map (next_charge views) (d :: segs))
      ∧ NoDup (map segment_id (d :: segs)) ∧ ∀ d', d' ∈ d :: segs → bt_get (segment_id d') ids = None)) as (r & ch1 & Er & Ech & Hrest).
  { eexists _, _. split; [done|]. split; [done|]. intros (-> & -> & Hnd & Hids)%IH. cbn [map sum fold_right]. split_and!.
    - by rewrite <-app_assoc.
    - unfold sum. lia.
    - apply NoDup_cons. split; [|done]. intros (d' & E & Hd')%list_elem_of_fmap. specialize (Hids d' Hd'). rewrite <-E, bt_get_insert_eq in Hids. done.
    - intros d' [->|Hd']%elem_of_cons; [done|]. specialize (Hids d' Hd'). rewrite bt_get_insert in Hids. by destruct (decide _). }
  unfold next_charge in Ech. destruct (bt_get (segment_id d) (views_segments views)) as [e|] eqn:Eg.
  - destruct (same_segment_file _ _); cbn [negb]; [|done]. unfold checked_add. destruct (_ <? _); [|done]. cbn [ok_or]. subst r ch1. rewrite Z.add_0_r in Hrest. done.
  - unfold checked_add. destruct (_ <? _); [|done]. cbn [ok_or]. subst r ch1. done.
Qed.

Lemma put_segments_ok views segs m :
  bt_sorted m → NoDup (map segment_id segs) → (∀ d, d ∈ segs → bt_get (segment_id d) m = bt_get (segment_id d) (views_segments views)) →
  Forall (λ d, 0 ≤ segment_bytes d) segs → (∀ e, e ∈ m → 0 ≤ segment_charge e) →
  let m' := fold_left put_segment (map (λ d, (d, next_refs views d)) segs) m in
  bt_sorted m' ∧ (∀ e, e ∈ m' → 0 ≤ segment_charge e) ∧ bt_sum segment_charge m' = bt_sum segment_charge m + sum (map (next_charge views) segs)
  ∧ ∀ id, segment_references <$> bt_get id m'
      = if decide (id ∈ map segment_id segs) then Some (match bt_get id (views_segments views) with Some e => segment_references e + 1 | None => 1 end)
        else segment_references <$> bt_get id m.
Proof.
  revert m. induction segs as [|d segs IH]; intros m Hs Hnd Hget Hpos Hch; cbn [map fold_left sum fold_right].
  { split_and!; [done|done|lia|]. intros id. by rewrite decide_False by apply not_elem_of_nil. }
  apply NoDup_cons in Hnd as [Hnew Hnd]. apply Forall_cons in Hpos as [Hd Hpos]. pose proof (Hget d ltac:(by left)) as Hgd.
  set (m1 := put_segment m (d, next_refs views d)).
  assert (bt_sorted m1 ∧ (∀ e, e ∈ m1 → 0 ≤ segment_charge e) ∧ bt_sum segment_charge m1 = bt_sum segment_charge m + next_charge views d
    ∧ ∀ id, segment_references <$> bt_get id m1 = if decide (segment_id d = id) then Some (next_refs views d) else segment_references <$> bt_get id m) as (Hs1 & Hc1 & Hsum1 & Hg1).
  { unfold m1, put_segment. split_and!; [by apply bt_insert_sorted| | |].
    - intros e [->|He]%bt_insert_elem; [|by apply Hch]. unfold segment_charge. cbn [snd active_descriptor].
      destruct (bt_get (segment_id d) m) as [e|] eqn:E; [|done]. apply bt_get_elem in E. apply (Hch _ E).
    - rewrite bt_sum_insert by done. unfold next_charge. rewrite <-Hgd. unfold segment_charge. cbn [snd active_descriptor].
      destruct (bt_get (segment_id d) m) as [e|]; cbn [active_descriptor snd]; lia.
    - intros id. rewrite bt_get_insert. by destruct (decide (segment_id d = id)). }
  destruct (IH m1) as (Hs' & Hc' & Hsum' & Hg'); [done|done| |done|done|].
  { intros d' Hd'. rewrite <-Hget by (by right). unfold m1, put_segment. rewrite bt_get_insert_ne; [done|]. intros E. apply Hnew. rewrite E.
    apply list_elem_of_fmap. by exists d'. }
  split_and!; [done|done|unfold sum in *; lia|]. intros id. rewrite Hg', Hg1. destruct (decide (id ∈ map segment_id segs)) as [Hin|Hin].
  - by rewrite decide_True by (by right).
  - destruct (decide (segment_id d = id)) as [<-|Hne]; [by rewrite decide_True by (by left)|]. rewrite decide_False; [done|].
    intros [->|?]%elem_of_cons; done.
Qed.

Lemma counts_add o n : counts o n → counts (Some (match o with Some r => r + 1 | None => 1 end)) (n + 1).
Proof. destruct o; cbn; lia. Qed.
Lemma fmap_refs {A} (f : A → Z) (o : option A) : match o with Some e => f e + 1 | None => 1 end = match f <$> o with Some r => r + 1 | None => 1 end.
Proof. by destruct o. Qed.

Lemma acquire_memtable_ok views memtable bytes r :
  acquire_memtable views memtable bytes = Ok r →
  match r with
  | None => bytes = 0
  | Some (key, generation, references, charge) => references = match memtable_references <$> bt_get key (views_memtables views) with Some r => r + 1 | None => 1 end
      ∧ charge = match bt_get key (views_memtables views) with Some _ => 0 | None => bytes end
      ∧ match bt_get key (views_memtables views) with Some e => memtable_bytes e = bytes | None => True end
  end.
Proof.
  unfold acquire_memtable. destruct (Z.eqb_spec bytes 0) as [->|]; [by intros [= <-]|]. destruct memtable as [g|]; [|done]. cbn [ok_or].
  destruct (_ =? _); cbn [negb]; [|done]. destruct (bt_get (address g) (views_memtables views)) as [e|] eqn:E.
  - destruct (_ =? _); cbn [negb orb]; [|done]. destruct (Z.eqb_spec (memtable_bytes e) bytes); cbn [negb]; [|done]. unfold checked_add. destruct (_ <? _); [|done].
    cbn [ok_or]. intros [= <-]. rewrite E. by split_and!.
  - intros [= <-]. rewrite E. by split_and!.
Qed.

Lemma put_memtable_ok m key generation references bytes :
  bt_sorted m → 0 ≤ bytes → (∀ e, e ∈ m → 0 ≤ memtable_charge e) →
  let m' := put_memtable m key generation references bytes in
  bt_sorted m' ∧ (∀ e, e ∈ m' → 0 ≤ memtable_charge e)
  ∧ bt_sum memtable_charge m' = bt_sum memtable_charge m + match bt_get key m with Some _ => 0 | None => bytes end
  ∧ ∀ k, memtable_references <$> bt_get k m' = if decide (key = k) then Some references else memtable_references <$> bt_get k m.
Proof.
  intros Hs Hb Hch. unfold put_memtable. destruct (bt_get key m) as [e|] eqn:E; cbn beta iota zeta; split_and!; try by apply bt_insert_sorted.
  - intros x [->|Hx]%bt_insert_elem; [|by apply Hch]. apply bt_get_elem in E. apply (Hch _ E).
  - rewrite bt_sum_insert, E by done. unfold memtable_charge. cbn [snd memtable_bytes]. lia.
  - intros k. rewrite bt_get_insert. by destruct (decide _).
  - intros x [->|Hx]%bt_insert_elem; [done|by apply Hch].
  - rewrite bt_sum_insert, E by done. unfold memtable_charge. cbn [snd memtable_bytes]. lia.
  - intros k. rewrite bt_get_insert. by destruct (decide _).
Qed.

(** What acquiring needs of its arguments: byte counts. *)
Lemma acquire_leased views leases manifest memtable bytes segs limits views' lease :
  leased views leases → 0 ≤ bytes → Forall (λ d, 0 ≤ segment_bytes d) segs →
  acquire views manifest memtable bytes segs limits = Ok (views', lease) →
  leased views' (lease :: leases) ∧ lease_segments lease = map segment_id segs ∧ lease_manifest lease = manifest_id manifest
  ∧ views_active views' ≤ max_active_views limits ∧ views_pinned views' ≤ max_pinned_bytes limits.
Proof.
  intros [Ho Ha (Hsm & Hss & Hst) Hm Hg Ht [Hcs Hct] Hpin Hw] Hbytes Hpos. unfold acquire.
  destruct (checked_add 64 (views_active views) 1) as [active|] eqn:Eact; [|done]. cbn [ok_or].
  destruct (check_limit ActiveViews _ active) as [[]|] eqn:Elim; [|done]. apply check_limit_le in Elim.
  destruct (match bt_get (manifest_id manifest) (views_manifests views) with Some _ => _ | None => _ end) as [refs|] eqn:Erefs; [|done].
  destruct (try_fold (acquire_segment views) ([], [], 0) segs) as [[[next ids] charge]|] eqn:Esegs; [|done].
  destruct (acquire_memtable views memtable bytes) as [mutable|] eqn:Emut; [|done].
  destruct (match checked_add 64 (views_pinned views) _ with Some b => checked_add 64 b charge | None => None end) as [pinned|] eqn:Epin; [|done]. cbn [ok_or].
  destruct (check_limit PinnedBytes _ pinned) as [[]|] eqn:Elim2; [|done]. apply check_limit_le in Elim2. intros [= <- <-].
  apply acquire_segments_ok in Esegs as (-> & -> & Hnd & _). cbn [app] in *. rewrite map_map. cbn [fst]. rewrite map_ext with (g := segment_id) by done.
  destruct (put_segments_ok views segs (views_segments views) Hss Hnd ltac:(done) Hpos Hcs) as (Hss' & Hcs' & Hsum & Hget).
  apply acquire_memtable_ok in Emut.
  assert (refs = match manifest_references <$> bt_get (manifest_id manifest) (views_manifests views) with Some r => r + 1 | None => 1 end) as Erefs'.
  { destruct (bt_get (manifest_id manifest) (views_manifests views)) as [e|]; [|by simplify_eq]. destruct (negb _); [done|]. unfold checked_add in Erefs. destruct (_ <? _); [|done].
    by injection Erefs as <-. }
  assert (let m' := match mutable with Some (key, generation, references, _) => put_memtable (views_memtables views) key generation references bytes | None => views_memtables views end in
    bt_sorted m' ∧ (∀ e, e ∈ m' → 0 ≤ memtable_charge e)
    ∧ bt_sum memtable_charge m' = bt_sum memtable_charge (views_memtables views) + match mutable with Some (_, _, _, charge) => charge | None => 0 end
    ∧ ∀ k, counts (memtable_references <$> bt_get k m') ((if bool_decide (match mutable with Some (key, _, _, _) => Some key | None => None end = Some k) then 1 else 0) + held (of_memtable k) leases))
    as (Hst' & Hct' & Hsumt & Hgett).
  { destruct mutable as [[[[key generation] references] ch]|].
    - destruct Emut as (-> & -> & _). destruct (put_memtable_ok (views_memtables views) key generation
        (match memtable_references <$> bt_get key (views_memtables views) with Some r => r + 1 | None => 1 end) bytes Hst Hbytes Hct) as (H1 & H2 & H3 & H4).
      split_and!; [done|done|by rewrite H3|]. intros k. rewrite H4. destruct (decide (key = k)) as [->|Hne].
      + rewrite bool_decide_eq_true_2 by done. rewrite Z.add_comm. by apply counts_add.
      + rewrite bool_decide_eq_false_2 by congruence. apply Ht.
    - split_and!; [done|done|lia|]. intros k. rewrite bool_decide_eq_false_2 by done. apply Ht. }
  assert (views_active views + 1 = active) as Eact' by (unfold checked_add in Eact; destruct (_ <? _); congruence).
  assert (pinned = views_pinned views + match mutable with Some (_, _, _, charge) => charge | None => 0 end + sum (map (next_charge views) segs) ∧ pinned < 2 ^ 64) as [Epin' Hpinw].
  { unfold checked_add in Epin. destruct (Z.ltb_spec (views_pinned views + match mutable with Some (_, _, _, charge) => charge | None => 0 end) (2 ^ 64)); [|done].
    destruct (Z.ltb_spec (views_pinned views + match mutable with Some (_, _, _, charge) => charge | None => 0 end + (0 + sum (map (next_charge views) segs))) (2 ^ 64)); [|done].
    injection Epin as <-. split; lia. }
  split_and!; [|done|done|cbn; lia|cbn; lia].
  constructor; cbn [views_active views_pinned views_manifests views_segments views_memtables].
  - apply Forall_cons. split; [by split|done].
  - rewrite len_cons. lia.
  - split_and!; [by apply bt_insert_sorted|done|done].
  - intros d. rewrite held_cons. unfold put_manifest. rewrite bt_get_insert. unfold of_manifest at 1. cbn [lease_manifest].
    destruct (decide (manifest_id manifest = d)) as [<-|Hne].
    + rewrite bool_decide_eq_true_2 by done. rewrite Z.add_comm. cbn [fmap option_fmap option_map manifest_references]. rewrite Erefs'. apply counts_add, Hm.
    + rewrite bool_decide_eq_false_2 by done. apply Hm.
  - intros id. rewrite held_cons, Hget. unfold of_segment at 1. cbn [lease_segments]. destruct (decide (id ∈ map segment_id segs)) as [Hin|Hin].
    + rewrite bool_decide_eq_true_2 by done. rewrite Z.add_comm, fmap_refs. apply counts_add, Hg.
    + rewrite bool_decide_eq_false_2 by done. apply Hg.
  - intros k. rewrite held_cons. unfold of_memtable at 1. cbn [lease_memtable]. apply Hgett.
  - by split.
  - lia.
  - lia.
Qed.

(** ** Releasing *)

(** What giving back a segment takes from the charge. *)
Definition freed (m : list (string * ActiveSegment)) (id : string) : Z :=
  match bt_get id m with Some e => if segment_references e =? 1 then segment_bytes (active_descriptor e) else 0 | None => 0 end.
Definition refs_of (m : list (string * ActiveSegment)) (id : string) : Z :=
  match bt_get id m with Some e => segment_references e | None => 0 end.

Lemma release_segments_ok views ids acc ch :
  (∀ id, id ∈ ids → is_Some (bt_get id (views_segments views)) ∧ 1 ≤ refs_of (views_segments views) id) →
  (∀ id, id ∈ ids → 0 ≤ freed (views_segments views) id) → ch + sum (map (freed (views_segments views)) ids) < 2 ^ 64 →
  try_fold (release_segment views) (acc, ch) ids
  = Ok (acc ++ map (λ id, (id, refs_of (views_segments views) id - 1)) ids, ch + sum (map (freed (views_segments views)) ids)).
Proof.
  revert acc ch. induction ids as [|id ids IH]; intros acc ch Hin Hpos Hw; cbn [try_fold map sum fold_right].
  { by rewrite app_nil_r, Z.add_0_r. }
  cbn [map sum fold_right] in Hw. fold (sum (map (freed (views_segments views)) ids)) in *.
  assert (0 ≤ sum (map (freed (views_segments views)) ids)) as Hrest.
  { assert (∀ x, x ∈ ids → 0 ≤ freed (views_segments views) x) as Hall by (intros; apply Hpos; by right). clear -Hall.
    induction ids as [|x ids IH]; [done|]. cbn [map sum fold_right]. pose proof (Hall x ltac:(by left)). specialize (IH ltac:(intros; apply Hall; by right)). unfold sum in IH. lia. }
  pose proof (Hpos id ltac:(by left)) as Hf. destruct (Hin id ltac:(by left)) as [[e He] Hr]. unfold release_segment at 1. rewrite He. cbn [ok_or].
  unfold refs_of in Hr. rewrite He in Hr. unfold checked_sub. rewrite (proj2 (Z.leb_le _ _)) by lia. cbn [ok_or].
  assert ((if segment_references e - 1 =? 0 then ok_or (checked_add 64 ch (segment_bytes (active_descriptor e))) PoisonedReadViewRegistry else Ok ch)
    = Ok (ch + freed (views_segments views) id)) as ->.
  { unfold freed in *. rewrite He in *. destruct (Z.eqb_spec (segment_references e - 1) 0), (Z.eqb_spec (segment_references e) 1); try lia; [|by rewrite Z.add_0_r].
    unfold checked_add. by rewrite (proj2 (Z.ltb_lt _ _)) by lia. }
  rewrite IH; [|intros; apply Hin; by right|intros; apply Hpos; by right|lia]. unfold refs_of at 2. rewrite He, <-app_assoc. cbn [app]. do 2 f_equal. lia.
Qed.

Lemma drop_segments_ok views ids m :
  bt_sorted m → NoDup ids → (∀ id, id ∈ ids → bt_get id m = bt_get id (views_segments views)) →
  (∀ id, id ∈ ids → is_Some (bt_get id (views_segments views)) ∧ 1 ≤ refs_of (views_segments views) id) →
  let m' := fold_left drop_segment (map (λ id, (id, refs_of (views_segments views) id - 1)) ids) m in
  bt_sorted m' ∧ (∀ e, e ∈ m' → segment_charge e ∈ map segment_charge m) ∧ bt_sum segment_charge m' = bt_sum segment_charge m - sum (map (freed (views_segments views)) ids)
  ∧ ∀ id, segment_references <$> bt_get id m'
      = if decide (id ∈ ids) then (if refs_of (views_segments views) id - 1 =? 0 then None else Some (refs_of (views_segments views) id - 1))
        else segment_references <$> bt_get id m.
Proof.
  revert m. induction ids as [|id ids IH]; intros m Hs Hnd Hget Hin; cbn [map fold_left sum fold_right].
  { split_and!; [done|intros e He; apply list_elem_of_fmap; by exists e|lia|]. intros id. by rewrite decide_False by apply not_elem_of_nil. }
  fold (sum (map (freed (views_segments views)) ids)). apply NoDup_cons in Hnd as [Hnew Hnd]. pose proof (Hget id ltac:(by left)) as Hgi.
  destruct (Hin id ltac:(by left)) as [[e He] Hr]. rewrite He in Hgi. set (r := refs_of (views_segments views) id - 1).
  assert (r = segment_references e - 1) as Er by (unfold r, refs_of; by rewrite He).
  set (m1 := drop_segment m (id, r)).
  assert (bt_sorted m1 ∧ (∀ x, x ∈ m1 → segment_charge x ∈ map segment_charge m) ∧ bt_sum segment_charge m1 = bt_sum segment_charge m - freed (views_segments views) id
    ∧ (∀ x, x ≠ id → bt_get x m1 = bt_get x m) ∧ segment_references <$> bt_get id m1 = if r =? 0 then None else Some r) as (Hs1 & Hc1 & Hsum1 & Hne1 & Heq1).
  { unfold m1, drop_segment, freed. rewrite He. destruct (Z.eqb_spec r 0) as [E0|E0].
    - split_and!; [by apply bt_remove_sorted| | |intros x Hx; by apply bt_get_remove_ne|by rewrite bt_get_remove_eq].
      + intros x Hx%bt_remove_elem. apply list_elem_of_fmap. by exists x.
      + rewrite bt_sum_remove, Hgi by done. rewrite (proj2 (Z.eqb_eq _ _)) by lia. done.
    - rewrite Hgi. split_and!; [by apply bt_insert_sorted| | |intros x Hx; by apply bt_get_insert_ne|by rewrite bt_get_insert_eq].
      + intros x [->|Hx]%bt_insert_elem; apply list_elem_of_fmap; [exists (id, e); split; [done|by apply bt_get_elem]|by exists x].
      + rewrite bt_sum_insert, Hgi by done. rewrite (proj2 (Z.eqb_neq _ _)) by lia. unfold segment_charge. cbn [snd active_descriptor]. lia. }
  destruct (IH m1) as (Hs' & Hc' & Hsum' & Hg'); [done|done| |intros; apply Hin; by right|].
  { intros x Hx. rewrite Hne1 by (by intros ->). apply Hget. by right. }
  split_and!; [done| |lia|].
  - intros x Hx%Hc'. apply list_elem_of_fmap in Hx as (y & -> & Hy). by apply Hc1.
  - intros x. rewrite Hg'. destruct (decide (x ∈ ids)) as [Hx|Hx]; [by rewrite decide_True by (by right)|].
    destruct (decide (x = id)) as [->|Hne]; [by rewrite decide_True, Heq1 by (by left)|]. rewrite Hne1 by done. rewrite decide_False; [done|]. by intros [?|?]%elem_of_cons.
Qed.

Lemma counts_sub o n : counts o (1 + n) → 0 ≤ n → ∃ r, o = Some r ∧ 1 ≤ r ∧ counts (if r - 1 =? 0 then None else Some (r - 1)) n.
Proof.
  destruct o as [r|]; cbn; [|lia]. intros [-> _] Hn. eexists. split; [done|]. split; [lia|]. destruct (Z.eqb_spec (1 + n - 1) 0); cbn; lia.
Qed.

Definition charge_of (mutable : option (Z * ActiveMemtable * Z * Z)) : Z := match mutable with Some (_, _, _, charge) => charge | None => 0 end.

Lemma release_memtable_ok views lease leases :
  leased views (lease :: leases) →
  ∃ mutable, release_memtable views (lease_memtable lease) = Ok mutable ∧ 0 ≤ charge_of mutable
    ∧ let m' := drop_memtable (views_memtables views) mutable in
      bt_sorted m' ∧ (∀ e, e ∈ m' → 0 ≤ memtable_charge e) ∧ bt_sum memtable_charge m' = bt_sum memtable_charge (views_memtables views) - charge_of mutable
      ∧ ∀ k, counts (memtable_references <$> bt_get k m') (held (of_memtable k) leases).
Proof.
  intros [_ _ (_ & _ & Hst) _ _ Ht [_ Hct] _ _].
  assert (∀ k, lease_memtable lease ≠ Some k → counts (memtable_references <$> bt_get k (views_memtables views)) (held (of_memtable k) leases)) as Hother.
  { intros k Hk. pose proof (Ht k) as Htk. rewrite held_cons in Htk. unfold of_memtable in Htk at 1. by rewrite bool_decide_eq_false_2 in Htk by done. }
  unfold release_memtable. destruct (lease_memtable lease) as [key|] eqn:Ekey.
  2:{ exists None. split; [done|]. split; [done|]. unfold drop_memtable, charge_of. cbn zeta. split_and!; [done|done|by rewrite Z.sub_0_r|]. intros k. by apply Hother. }
  pose proof (Ht key) as Htk. rewrite held_cons in Htk. unfold of_memtable in Htk at 1. rewrite bool_decide_eq_true_2 in Htk by done.
  apply counts_sub in Htk as (r & Er & Hr & Hc); [|apply held_nonneg]. destruct (bt_get key (views_memtables views)) as [e|] eqn:Ee; [|done]. injection Er as <-.
  pose proof (Hct _ (bt_get_elem _ _ _ Ee)) as Hbytes. unfold memtable_charge in Hbytes. cbn [snd] in Hbytes.
  cbn [ok_or]. unfold checked_sub. rewrite (proj2 (Z.leb_le _ _)) by lia. cbn [ok_or]. eexists. split; [done|]. unfold charge_of, drop_memtable.
  destruct (memtable_references e - 1 =? 0) eqn:E0; (split; [done|]); cbn beta iota zeta.
  - split_and!; [by apply bt_remove_sorted|intros x Hx%bt_remove_elem; by apply Hct|by rewrite bt_sum_remove, Ee by done|]. intros k.
    destruct (decide (k = key)) as [->|Hne]; [by rewrite bt_get_remove_eq|]. rewrite bt_get_remove_ne by done. apply Hother. congruence.
  - split_and!; [by apply bt_insert_sorted| |rewrite bt_sum_insert, Ee by done; unfold memtable_charge; cbn [snd memtable_bytes]; lia|].
    + by intros x [->|Hx]%bt_insert_elem; [|apply Hct].
    + intros k. destruct (decide (k = key)) as [->|Hne]; [by rewrite bt_get_insert_eq|]. rewrite bt_get_insert_ne by done. apply Hother. congruence.
Qed.

Lemma leased_segment views lease leases id :
  leased views (lease :: leases) → id ∈ lease_segments lease →
  is_Some (bt_get id (views_segments views)) ∧ 1 ≤ refs_of (views_segments views) id
  ∧ counts (if refs_of (views_segments views) id - 1 =? 0 then None else Some (refs_of (views_segments views) id - 1)) (held (of_segment id) leases).
Proof.
  intros Hl Hid. pose proof (ls_segments _ _ Hl id) as Hgi. rewrite held_cons in Hgi. unfold of_segment in Hgi at 1. rewrite bool_decide_eq_true_2 in Hgi by done.
  apply counts_sub in Hgi as (r & Er & Hr & Hc); [|apply held_nonneg]. unfold refs_of. destruct (bt_get id (views_segments views)) as [e|]; [|done]. injection Er as <-. by split_and!.
Qed.
Lemma freed_nonneg views leases id : leased views leases → 0 ≤ freed (views_segments views) id.
Proof.
  intros Hl. unfold freed. destruct (bt_get id (views_segments views)) as [e|] eqn:E; [|done]. destruct (_ =? 1); [|done]. apply bt_get_elem in E.
  apply (proj1 (ls_charges _ _ Hl) _ E).
Qed.
Lemma freed_sum_nonneg views leases ids : leased views leases → 0 ≤ sum (map (freed (views_segments views)) ids).
Proof. intros Hl. induction ids as [|x l IH]; [done|]. cbn [map sum fold_right]. pose proof (freed_nonneg _ _ x Hl). unfold sum in IH. lia. Qed.

Lemma release_leased views lease leases :
  leased views (lease :: leases) →
  ∃ views' lease', release views lease = Ok (views', lease') ∧ leased views' leases ∧ lease_released lease' = true.
Proof.
  intros Hl. destruct (release_memtable_ok _ _ _ Hl) as (mutable & Emut & Hch & Hst' & Hct' & Hsumt & Hgett). pose proof (freed_sum_nonneg _ _ (lease_segments lease) Hl) as Hf0.
  pose proof (λ id, leased_segment _ _ _ id Hl) as Hids. pose proof (λ id, freed_nonneg _ _ id Hl) as Hfreed.
  destruct Hl as [Ho Ha (Hsm & Hss & Hst) Hm Hg Ht [Hcs Hct] Hpin Hw]. apply Forall_cons in Ho as [[Hopen Hnd] Ho]. rewrite len_cons in Ha.
  pose proof (len_nonneg leases) as Hlen. unfold release. rewrite Hopen. unfold checked_sub at 1. rewrite (proj2 (Z.leb_le _ _)) by lia. cbn [ok_or].
  pose proof (Hm (lease_manifest lease)) as Hm0. rewrite held_cons in Hm0. unfold of_manifest in Hm0 at 1. rewrite bool_decide_eq_true_2 in Hm0 by done.
  apply counts_sub in Hm0 as (mr & Emr & Hmr & Hm0); [|apply held_nonneg].
  destruct (bt_get (lease_manifest lease) (views_manifests views)) as [me|] eqn:Eme; [|done]. injection Emr as <-. cbn [ok_or].
  unfold checked_sub at 1. rewrite (proj2 (Z.leb_le _ _)) by lia. cbn [ok_or].
  destruct (drop_segments_ok views (lease_segments lease) (views_segments views) Hss Hnd ltac:(done)) as (Hss' & Hcs' & Hsum & Hget);
    [intros id Hid; by destruct (Hids id Hid) as (? & ? & _)|].
  set (dropped := fold_left drop_segment _ (views_segments views)) in *.
  assert (∀ e, e ∈ dropped → 0 ≤ segment_charge e) as Hpos' by (intros e He%Hcs'; apply list_elem_of_fmap in He as (y & -> & Hy); by apply Hcs).
  assert (0 ≤ bt_sum segment_charge dropped) by (apply bt_sum_nonneg, Forall_forall, Hpos').
  assert (0 ≤ bt_sum memtable_charge (views_memtables views)) by (apply bt_sum_nonneg, Forall_forall, Hct).
  assert (0 ≤ bt_sum memtable_charge (drop_memtable (views_memtables views) mutable)) by (apply bt_sum_nonneg, Forall_forall, Hct').
  rewrite release_segments_ok; [|intros id Hid; by destruct (Hids id Hid) as (? & ? & _)|intros; apply Hfreed|lia]. cbn [app]. rewrite Z.add_0_l. fold dropped.
  rewrite Emut. fold (charge_of mutable). unfold checked_sub.
  rewrite (proj2 (Z.leb_le (charge_of mutable) _)) by lia. rewrite (proj2 (Z.leb_le _ (views_pinned views - charge_of mutable))) by lia. cbn [ok_or].
  eexists _, _. split; [done|]. split; [|done]. constructor; cbn [views_active views_pinned views_manifests views_segments views_memtables]; try done.
  - lia.
  - split_and!; [|done|done]. destruct (_ =? 0); [by apply bt_remove_sorted|by apply bt_insert_sorted].
  - intros d. destruct (decide (d = lease_manifest lease)) as [->|Hne].
    + destruct (manifest_references me - 1 =? 0); [by rewrite bt_get_remove_eq|by rewrite bt_get_insert_eq].
    + pose proof (Hm d) as Hmd. rewrite held_cons in Hmd. unfold of_manifest in Hmd at 1. rewrite bool_decide_eq_false_2 in Hmd by done.
      destruct (_ =? 0); [by rewrite bt_get_remove_ne|by rewrite bt_get_insert_ne].
  - intros id. rewrite Hget. destruct (decide (id ∈ lease_segments lease)) as [Hin|Hin]; [by apply Hids|].
    pose proof (Hg id) as Hgi. rewrite held_cons in Hgi. unfold of_segment in Hgi at 1. by rewrite bool_decide_eq_false_2 in Hgi by done.
  - lia.
  - lia.
Qed.

(** The states of a registry under any interleaving of acquiring and releasing. *)
Inductive registry_run : ActiveReadViews → list ReadViewLease → Prop :=
| run_start : registry_run ActiveReadViews_default []
| run_acquire views leases manifest memtable bytes segs limits views' lease :
    registry_run views leases → 0 ≤ bytes → Forall (λ d, 0 ≤ segment_bytes d) segs →
    acquire views manifest memtable bytes segs limits = Ok (views', lease) → registry_run views' (lease :: leases)
| run_release views before lease after views' lease' :
    registry_run views (before ++ lease :: after) → release views lease = Ok (views', lease') → registry_run views' (before ++ after).

Lemma registry_run_leased views leases : registry_run views leases → leased views leases.
Proof.
  induction 1 as [|v L m t b segs limits v' l _ IH Hb Hs Ha|v L1 l L2 v' l' _ IH Hr]; [apply default_leased|by eapply acquire_leased|].
  eapply (leased_perm _ _ (l :: L1 ++ L2)) in IH; [|symmetry; apply Permutation_middle].
  destruct (release_leased _ _ _ IH) as (v1 & l1 & E & Hl & _). congruence.
Qed.

Lemma bt_empty {K V} `{OrdLaws K} (m : list (K * V)) : bt_sorted m → (∀ k, bt_get k m = None) → m = [].
Proof. destruct m as [|[k v] m]; [done|]. intros Hs Hn. specialize (Hn k). rewrite (bt_elem_get k v) in Hn; [done|done|by left]. Qed.

Lemma counts_zero {A} (f : A → Z) o P : counts (f <$> o) (held P []) → o = None.
Proof. change (held P []) with 0. destruct o; cbn; [lia|done]. Qed.
Lemma leased_empty views : leased views [] → views = ActiveReadViews_default.
Proof.
  intros [_ Ha (Hsm & Hss & Hst) Hm Hg Ht _ Hpin _].
  assert (views_manifests views = []) as Em by (apply bt_empty; [done|]; intros d; by eapply counts_zero, Hm).
  assert (views_segments views = []) as Es by (apply bt_empty; [done|]; intros d; by eapply counts_zero, Hg).
  assert (views_memtables views = []) as Et by (apply bt_empty; [done|]; intros d; by eapply counts_zero, Ht).
  destruct views; cbn in *. subst. done.
Qed.

(** C33: the registry refines the list of its leases: however acquiring and releasing
    interleave, it counts exactly the leases of every manifest, segment and generation, charges
    each pinned object once, lets every lease be released, and is empty when none is left. *)
Theorem read_view_registry_exact views leases :
  registry_run views leases →
  leased views leases ∧ (∀ lease, lease ∈ leases → ∃ views' lease', release views lease = Ok (views', lease') ∧ lease_released lease' = true)
  ∧ (leases = [] → views = ActiveReadViews_default).
Proof.
  intros Hrun. pose proof (registry_run_leased _ _ Hrun) as Hl. split_and!; [done| |intros ->; by apply leased_empty].
  intros lease (l1 & l2 & ->)%list_elem_of_split.
  eapply (leased_perm _ _ (lease :: l1 ++ l2)) in Hl; [|symmetry; apply Permutation_middle]. destruct (release_leased _ _ _ Hl) as (v' & l' & E & _ & Hr). by exists v', l'.
Qed.

#[local] Definition sample_manifest : Manifest :=
  {| content := {| manifest_format_version := 3; application_format := None; generation := 1; manifest_parent := None; manifest_created_at := 0;
       manifest_durable_sequence := 5; wal_start_sequence := 6; manifest_segments := [] |}; manifest_id := "m" |}.
#[local] Definition sample_segment_descriptor : SegmentDescriptor :=
  {| segment_id := "s"; segment_level := 0; format_version := 6; schema_digest := ""; key_codec_digest := ""; page_format_digest := "";
     first_key := [x01]; last_key := [x02]; minimum_sequence := 1; maximum_segment_sequence := 5; entries := 2; segment_bytes := 40; segment_checksum := "" |}.
#[local] Definition views_after (r : result Error (ActiveReadViews * ReadViewLease)) : ActiveReadViews :=
  match r with Ok (v, _) => v | Err _ => ActiveReadViews_default end.
#[local] Definition lease_after (r : result Error (ActiveReadViews * ReadViewLease)) : ReadViewLease :=
  match r with Ok (_, l) => l | Err _ => {| lease_manifest := ""; lease_segments := []; lease_memtable := None; lease_released := true |} end.
#[local] Definition taken_once := acquire ActiveReadViews_default sample_manifest None 0 [sample_segment_descriptor] ProjectedReadBudget_default.
#[local] Definition taken_twice := acquire (views_after taken_once) sample_manifest None 0 [sample_segment_descriptor] ProjectedReadBudget_default.

Lemma read_view_registry_exact_witness :
  leased (views_after taken_twice) [lease_after taken_twice; lease_after taken_once] ∧ views_pinned (views_after taken_twice) = 40.
Proof.
  split; [|reflexivity]. apply (read_view_registry_exact (views_after taken_twice) [lease_after taken_twice; lease_after taken_once]).
  apply (run_acquire (views_after taken_once) [lease_after taken_once] sample_manifest None 0 [sample_segment_descriptor] ProjectedReadBudget_default);
    [|done|by repeat constructor|vm_compute; reflexivity].
  apply (run_acquire ActiveReadViews_default [] sample_manifest None 0 [sample_segment_descriptor] ProjectedReadBudget_default);
    [apply run_start|done|by repeat constructor|vm_compute; reflexivity].
Defined.
