(* ===== verification/ProjectedRead.v ===== *)
(** Projected reads of the database ([rrd-lsm]: [Database::begin_projected_read] and
    [ProjectedReadStream], whole reads).

    Theorems: draining the stream of a projected read gives, batch by batch, exactly the live
    rows of the requested ranges as point reads at its snapshot give them, or a prefix of them
    before an error of the budget; and in every session of taking, dropping and cancelling,
    what is read, emitted and reserved stays within its limits. *)

From S2P Require Import Prelude Machine BTree Ident Digest LsmError Batch RecoveryBudget Wal Memtable Transaction Versions SegmentFormat Segment SegmentFile SegmentWrite PointIndex Database Manifest Reader Cursors Merge ReadBatches ReadViews.
Open Scope Z_scope.

(** * Requests *)

Lemma ranges_sorted ranges :
  Forall valid_range ranges →
  (∀ i a b, ranges !! i = Some a → ranges !! S i = Some b → before a b) → StronglySorted before ranges.
Proof.
  induction 1 as [|a ranges Ha Hv IH]; intros Hadj; [constructor|]. specialize (IH (λ i, Hadj (S i))). constructor; [done|].
  destruct ranges as [|b rest]; [constructor|]. pose proof (Hadj 0%nat a b eq_refl eq_refl) as Hab. constructor; [done|].
  inversion IH as [|? ? _ Hb]; subst. eapply Forall_impl; [exact Hb|]. intros c Hc. apply Forall_cons in Hv as [Hvb _].
  unfold before, valid_range, range_validate in *. destruct (range_end a) as [ea|]; [|done]. destruct (range_end b) as [eb|]; [|done].
  destruct (leb eb (range_start b)) eqn:E; [done|]. rewrite leb_ltb, negb_false_iff in E. eapply leb_trans; [exact Hab|]. eapply leb_trans; [by apply ltb_leb|done].
Qed.

Lemma windows2_lookup {A} (l : list A) i a b : l !! i = Some a → l !! S i = Some b → windows2 l !! i = Some (a, b).
Proof.
  revert i. induction l as [|x l IH]; intros i Ha Hb; [done|]. destruct l as [|y l]; [by destruct i|].
  change (windows2 (x :: y :: l)) with ((x, y) :: windows2 (y :: l)). destruct i as [|i]; cbn in Ha, Hb; [by simplify_eq|]. by apply IH.
Qed.

Lemma request_validated request s :
  request_validate request s = Ok tt →
  Forall valid_range (request_ranges request) ∧ StronglySorted before (request_ranges request) ∧ request_ranges request ≠ [] ∧ request_snapshot request ≤ s.
Proof.
  unfold request_validate. destruct (read_budget_validate _); [|done]. destruct (Z.eqb_spec (len (request_ranges request)) 0) as [|Hne]; [done|].
  destruct (check_limit _ _ _) as [[]|]; [|done]. destruct (try_each range_validate (request_ranges request)) as [[]|] eqn:Ev; [|done].
  destruct (try_each _ (windows2 _)) as [[]|] eqn:Ew; [|done]. destruct (Z.ltb_spec s (request_snapshot request)); [done|]. intros _.
  assert (Forall valid_range (request_ranges request)) as Hv by (by apply try_each_ok).
  split_and!; [done| |intros E; by rewrite E in Hne|done]. apply ranges_sorted; [done|]. intros i a b Ha Hb.
  apply try_each_ok in Ew. pose proof (proj1 (Forall_lookup _ _) Ew i (a, b) (windows2_lookup _ _ _ _ Ha Hb)) as Hw. clear Ew. rename Hw into Ew. cbn in Ew. unfold before. destruct (range_end a) as [e|]; [|done]. cbn in Ew.
  rewrite leb_ltb. by destruct (ltb (range_start b) e).
Qed.

(** * The runs of a read *)

(** A function of finite support is a sorted map. *)
Lemma sorted_map_exists {V} (f : key → option V) (support : list key) :
  (∀ k, f k ≠ None → k ∈ support) → ∃ m, bt_sorted m ∧ ∀ k, bt_get k m = f k.
Proof.
  revert f. induction support as [|x support IH]; intros f Hf.
  { exists []. split; [constructor|]. intros k. destruct (f k) as [v|] eqn:E; [|done]. exfalso. apply (not_elem_of_nil k), Hf. congruence. }
  destruct (IH (λ k, if decide (k = x) then None else f k)) as (m & Hs & Hget).
  { intros k Hk. destruct (decide (k = x)); [done|]. specialize (Hf k Hk). by apply elem_of_cons in Hf as [?|?]. }
  destruct (f x) as [v|] eqn:E.
  - exists (bt_insert x v m). split; [by apply bt_insert_sorted|]. intros k. rewrite bt_get_insert. destruct (decide (x = k)) as [->|Hne]; [done|].
    rewrite Hget. by rewrite decide_False.
  - exists m. split; [done|]. intros k. rewrite Hget. by destruct (decide (k = x)) as [->|].
Qed.

Section View.
Context (ranges : list ProjectedReadRange) (q : Z).

Definition in_ranges_only {V} (f : key → option V) (k : key) : option V := if in_read_ranges ranges k then f k else None.

(** The cursor is a run that shows [f] on the ranges. *)
Definition shows_run (c : RunCursor) (f : key → option VersionedValue) : Prop :=
  ∃ R rem, run_at R c rem ∧ bt_sorted rem ∧ ∀ k, bt_get k rem = in_ranges_only f k.

Definition apart (f g : key → option VersionedValue) : Prop := ∀ k v w, f k = Some v → g k = Some w → sequence v ≠ sequence w.

Lemma runs_exist (cursors : list RunCursor) (fs : list (key → option VersionedValue)) :
  Forall2 shows_run cursors fs → ∃ (Rs : list Run) (rems : list (list row)), length Rs = length cursors ∧ length rems = length cursors ∧ Forall bt_sorted rems
    ∧ (∀ (i : nat) R c rem, Rs !! i = Some R → cursors !! i = Some c → rems !! i = Some rem → run_at R c rem)
    ∧ (∀ (i : nat) f rem, fs !! i = Some f → rems !! i = Some rem → ∀ k, bt_get k rem = in_ranges_only f k).
Proof.
  induction 1 as [|c f cursors fs (R & rem & Hat & Hs & Hget) _ (Rs & rems & HR & Hr & Hso & Hruns & Hgets)].
  { exists [], []. split_and!; [done|done|constructor|done|done]. }
  exists (R :: Rs), (rem :: rems). split_and!; [cbn; lia|cbn; lia|by constructor| |].
  - intros [|i]; cbn; [naive_solver|apply Hruns].
  - intros [|i]; cbn; [naive_solver|apply Hgets].
Qed.

Lemma latest_runs (fs : list (key → option VersionedValue)) (rems : list (list row)) k :
  length rems = length fs → (∀ (i : nat) f rem, fs !! i = Some f → rems !! i = Some rem → ∀ k, bt_get k rem = in_ranges_only f k) →
  latest rems k = if in_read_ranges ranges k then newest (omap (λ f : key → option VersionedValue, f k) fs) else None.
Proof.
  intros Hlen Hget. unfold latest.
  assert (omap (bt_get k) rems = if in_read_ranges ranges k then omap (λ f : key → option VersionedValue, f k) fs else []) as ->; [|by destruct (in_read_ranges ranges k)].
  revert rems Hlen Hget. induction fs as [|f fs IH]; intros [|rem rems] Hlen Hget; try done; [by destruct (in_read_ranges ranges k)|].
  pose proof (Hget 0%nat f rem eq_refl eq_refl k) as H0. specialize (IH rems ltac:(by injection Hlen) (λ i, Hget (S i))).
  assert (∀ (r : list row) l, omap (bt_get k) (r :: l) = match bt_get k r with Some v => v :: omap (bt_get k) l | None => omap (bt_get k) l end) as Hc by done.
  assert (∀ (g : key → option VersionedValue) l, omap (λ f : key → option VersionedValue, f k) (g :: l)
    = match g k with Some v => v :: omap (λ f : key → option VersionedValue, f k) l | None => omap (λ f : key → option VersionedValue, f k) l end) as Hc' by done.
  rewrite Hc, Hc', H0, IH. unfold in_ranges_only. by destruct (in_read_ranges ranges k); [destruct (f k)|].
Qed.

Lemma apart_runs (fs : list (key → option VersionedValue)) (rems : list (list row)) :
  length rems = length fs → (∀ (i : nat) f rem, fs !! i = Some f → rems !! i = Some rem → ∀ k, bt_get k rem = in_ranges_only f k) →
  (∀ (i j : nat) f g, i ≠ j → fs !! i = Some f → fs !! j = Some g → apart f g) → distinct_runs rems.
Proof.
  intros Hlen Hget Hap i j ri rj k v w Hi Hj Hne Hv Hw.
  destruct (lookup_lt_is_Some_2 fs i) as [f Hf]; [rewrite <-Hlen; by eapply lookup_lt_Some|].
  destruct (lookup_lt_is_Some_2 fs j) as [g Hg]; [rewrite <-Hlen; by eapply lookup_lt_Some|].
  rewrite (Hget i f ri Hf Hi) in Hv. rewrite (Hget j g rj Hg Hj) in Hw. unfold in_ranges_only in Hv, Hw. destruct (in_read_ranges ranges k); [|done].
  by eapply (Hap i j f g Hne Hf Hg k).
Qed.

(** The stream over such cursors has their newest live rows to give. *)
Lemma stream_opens (cursors : list RunCursor) (fs : list (key → option VersionedValue)) projection :
  Forall2 shows_run cursors fs → (∀ (i j : nat) f g, i ≠ j → fs !! i = Some f → fs !! j = Some g → apart f g) →
  let st := {| st_projection := projection; st_cursors := cursors; st_heads := map (λ _, None) cursors; st_heap := []; st_unopened := [];
               st_pending := None; st_initialized := false; st_terminal := false |} in
  ∃ Rs out, opened Rs st out ∧ bt_sorted out
    ∧ ∀ k, bt_get k out = if in_read_ranges ranges k then newest (omap (λ f : key → option VersionedValue, f k) fs) ≫= value else None.
Proof.
  intros Hruns Hap st. destruct (runs_exist _ _ Hruns) as (Rs & rems & HR & Hr & Hso & Hat & Hget).
  pose proof (Forall2_length _ _ _ Hruns) as Hlen.
  assert (∀ k, latest rems k = if in_read_ranges ranges k then newest (omap (λ f : key → option VersionedValue, f k) fs) else None) as Hlatest
    by (intros; apply latest_runs; [congruence|done]).
  destruct (sorted_map_exists (λ k, latest rems k ≫= value) (map fst (concat rems))) as (out & Hout & Hgo).
  { intros k Hk. destruct (latest rems k) as [v|] eqn:E; [|done]. apply newest_elem, list_elem_of_omap in E as (rem & Hrem & Hv%bt_get_elem).
    apply list_elem_of_fmap. exists (k, v). split; [done|]. apply list_elem_of_In, in_concat. exists rem. by split; apply list_elem_of_In. }
  exists Rs, out. split_and!; [|done|].
  - unfold opened. cbn [st st_initialized st_pending]. split; [done|]. exists rems. split_and!; [|apply (apart_runs fs); [congruence|done|done]|by split].
    constructor; cbn [st st_cursors st_heads st_heap st_unopened]; try done; try congruence.
    + by rewrite length_map.
    + constructor.
    + constructor.
    + constructor.
    + constructor.
    + apply NoDup_ListNoDup, seq_NoDup.
    + intros i R c h rem HRi Hc Hh Hrem. rewrite list_lookup_fmap in Hh. rewrite Hc in Hh. injection Hh as <-. right; right; right. split_and!; [|done|by eapply Hat].
      apply elem_of_seq. apply lookup_lt_Some in Hc. lia.
    + by intros k i Hin%not_elem_of_nil.
    + by intros k i Hin%not_elem_of_nil.
    + intros i Hi%elem_of_seq. rewrite list_lookup_fmap. destruct (lookup_lt_is_Some_2 cursors i) as [c ->]; [lia|done].
  - intros k. rewrite Hgo, Hlatest. by destruct (in_read_ranges ranges k).
Qed.
End View.

(** * The view of a database *)

(** No version of a key is in two segments. *)
Definition versions_distinct (contents : list (list row)) : Prop :=
  ∀ i j rows rows' k v w, i ≠ j → contents !! i = Some rows → contents !! j = Some rows' → (k, v) ∈ rows → (k, w) ∈ rows' → sequence v ≠ sequence w.
Definition rows_apart (r r' : list row) : Prop := ∀ k v w, (k, v) ∈ r → (k, w) ∈ r' → sequence v ≠ sequence w.

Lemma versions_distinct_cons r contents :
  versions_distinct (r :: contents) ↔ versions_distinct contents ∧ ∀ r', r' ∈ contents → rows_apart r r'.
Proof.
  split.
  - intros H. split.
    + intros i j rows rows' k v w Hne Hi Hj Hv Hw. apply (H (S i) (S j) rows rows' k v w); [lia|exact Hi|exact Hj|done|done].
    + intros r' [j Hj]%list_elem_of_lookup k v w Hv Hw. apply (H 0%nat (S j) r r' k v w); [lia|done|exact Hj|done|done].
  - intros [H Hr] [|i] [|j] rows rows' k v w Hne Hi Hj Hv Hw; cbn in Hi, Hj; [by destruct Hne| | |]; simplify_eq.
    + eapply Hr; [by eapply list_elem_of_lookup_2|done|done].
    + intros E. symmetry in E. revert E. eapply Hr; [by eapply list_elem_of_lookup_2|done|done].
    + apply (H i j rows rows' k); [lia|done..].
Qed.

Section Database.
Context (ranges : list ProjectedReadRange) (q : Z).
Context (Hvalid : Forall valid_range ranges) (Hbefore : StronglySorted before ranges) (Hnonempty : ranges ≠ []).

Definition newest_in (rows : list row) (k : key) : option VersionedValue := seen q (versions_of k rows).

Lemma segment_shows seg gs : segment_holds seg gs → shows_run ranges (SegmentRun (segment_cursor_new seg ranges q)) (newest_in (concat gs)).
Proof.
  intros Hseg. destruct (sorted_map_exists (in_ranges_only ranges (newest_in (concat gs))) (map fst (concat gs))) as (rem & Hs & Hget).
  { intros k Hk. unfold in_ranges_only, newest_in in Hk. destruct (in_read_ranges ranges k); [|done]. destruct (seen _ _) as [v|] eqn:E; [|done].
    apply seen_elem in E as [Hv%versions_of_elem _]. apply list_elem_of_fmap. by exists (k, v). }
  exists (segment_run seg gs ranges q Hseg), rem. split; [|by split]. exists (segment_cursor_new seg ranges q). split; [done|]. by apply segment_starts.
Qed.

Lemma memtable_shows t :
  bt_sorted (versions t) → len ranges * total_versions (versions t) < 2 ^ 64 →
  shows_run ranges (MemtableRun {| mc_table := t; mc_ranges := ranges; mc_read_sequence := q; mc_after := None |}) (λ k, get_version t k q).
Proof.
  intros Hs Hfew. destruct (sorted_map_exists (in_ranges_only ranges (λ k, get_version t k q)) (map fst (versions t))) as (rem & Hso & Hget).
  { intros k Hk. unfold in_ranges_only in Hk. destruct (in_read_ranges ranges k); [|done]. unfold get_version in Hk. destruct (bt_get k (versions t)) as [c|] eqn:E; [|done].
    apply bt_get_elem in E. apply list_elem_of_fmap. by exists (k, c). }
  exists (memtable_run t ranges q Hs Hvalid Hbefore Hfew), rem. split; [|by split]. eexists. split; [done|]. by apply memtable_starts.
Qed.

Definition selects (seg : Segment) : bool :=
  ((minimum_sequence (descriptor seg) <=? q) && existsb (λ range, range_overlaps range (first_key (descriptor seg)) (last_key (descriptor seg))) ranges)%bool.

(** A segment the read leaves out has nothing to show. *)
Lemma unselected_shows_nothing seg gs k :
  segment_holds seg gs → selects seg = false → in_read_ranges ranges k = true → newest_in (concat gs) k = None.
Proof.
  intros Hseg Hsel Hk. apply seen_None. intros v Hv%versions_of_elem. destruct (holds_bounds _ _ Hseg _ Hv) as (Hf & Hl & Hs). cbn in Hf, Hl, Hs.
  apply andb_false_iff in Hsel as [Hsel%Z.leb_gt|Hsel]; [lia|]. exfalso. apply existsb_exists in Hk as (r & Hr & Hc).
  assert (existsb (λ range, range_overlaps range (first_key (descriptor seg)) (last_key (descriptor seg))) ranges = true) as E; [|congruence].
  apply existsb_exists. exists r. split; [done|]. unfold range_contains in Hc. unfold range_overlaps. apply andb_true_iff in Hc as [Ha Hb].
  apply andb_true_iff. split; [by eapply leb_trans|]. destruct (range_end r); [|done]. by eapply leb_ltb_trans.
Qed.

Lemma selected_shown segs contents :
  Forall2 (λ seg rows, ∃ gs, segment_holds seg gs ∧ concat gs = rows) segs contents →
  ∃ chosen, Forall2 (shows_run ranges) (map (λ seg, SegmentRun (segment_cursor_new seg ranges q)) (List.filter selects segs)) (map newest_in chosen)
    ∧ (∀ k, in_read_ranges ranges k = true → newest (omap (λ f : key → option VersionedValue, f k) (map newest_in chosen)) = seen q (published contents k))
    ∧ (∀ rows, rows ∈ chosen → rows ∈ contents) ∧ (versions_distinct contents → versions_distinct chosen).
Proof.
  induction 1 as [|seg rows segs contents (gs & Hgs & <-) _ (chosen & Hruns & Hnewest & Hsub & Hdist)].
  { exists []. split_and!; [constructor|done|done|done]. }
  assert (∀ k, seen q (published (concat gs :: contents) k) = newer (newest_in (concat gs) k) (seen q (published contents k))) as Hpub.
  { intros k. unfold published. cbn [map concat]. by rewrite seen_app. }
  cbn [List.filter]. destruct (selects seg) eqn:Esel.
  - exists (concat gs :: chosen). cbn [map]. split_and!.
    + constructor; [by apply segment_shows|done].
    + intros k Hk. rewrite Hpub, <-(Hnewest k Hk).
      assert (∀ (g : key → option VersionedValue) l, omap (λ f : key → option VersionedValue, f k) (g :: l)
        = match g k with Some v => v :: omap (λ f : key → option VersionedValue, f k) l | None => omap (λ f : key → option VersionedValue, f k) l end) as Hc by done.
      rewrite Hc. destruct (newest_in (concat gs) k) as [v|]; [apply newest_cons|done].
    + intros rows [->|Hr]%elem_of_cons; [by left|right; by apply Hsub].
    + intros [Hd Hr]%versions_distinct_cons. apply versions_distinct_cons. split; [by apply Hdist|]. intros r' Hr'. by apply Hr, Hsub.
  - exists chosen. split_and!; [done| |intros rows Hr; right; by apply Hsub|].
    + intros k Hk. rewrite Hpub, (unselected_shows_nothing seg gs k Hgs Esel Hk). by apply Hnewest.
    + intros [Hd _]%versions_distinct_cons. by apply Hdist.
Qed.
End Database.

(** A read of a database in order opens with the rows its point reads give. *)
Lemma view_opens db contents request manifest :
  db_holds db contents → versions_distinct contents → Forall valid_range (request_ranges request) → StronglySorted before (request_ranges request) → request_ranges request ≠ [] →
  len (request_ranges request) * total_versions (versions (memtable db)) < 2 ^ 64 →
  let view := {| view_sequence := request_snapshot request; view_manifest := manifest; view_memtable := memtable db; view_segments := selected_segments db request |} in
  ∃ Rs out, opened Rs (stream_new view (request_ranges request) (request_projection request)) out ∧ bt_sorted out
    ∧ ∀ k, bt_get k out = if in_read_ranges (request_ranges request) k then reads db contents k (request_snapshot request) else None.
Proof.
  intros H Hd Hv Hb Hn Hfew view. set (ranges := request_ranges request) in *. set (q := request_snapshot request).
  destruct (selected_shown ranges q Hv Hb Hn (segments db) contents (holds_segments _ _ H)) as (chosen & Hruns & Hnewest & Hsub & Hdist). specialize (Hdist Hd).
  assert (∀ (i j : nat) f g, i ≠ j → map (newest_in q) chosen !! i = Some f → map (newest_in q) chosen !! j = Some g → apart f g) as Hap.
  { intros i j f g Hne Hi Hj k v w Ev Ew. rewrite list_lookup_fmap in Hi, Hj. destruct (chosen !! i) as [r|] eqn:Er; [|done]. destruct (chosen !! j) as [r'|] eqn:Er'; [|done].
    injection Hi as <-. injection Hj as <-. apply seen_elem in Ev as [Ev%versions_of_elem _]. apply seen_elem in Ew as [Ew%versions_of_elem _].
    by apply (Hdist i j r r' k v w). }
  unfold stream_new, view. cbn [view_memtable view_segments view_sequence]. fold q.
  destruct (Z.eqb_spec (version_count (memtable db)) 0) as [E0|_]; cbn [app].
  - destruct (stream_opens ranges _ _ (request_projection request) Hruns Hap) as (Rs & out & Hop & Hs & Hget).
    exists Rs, out. split_and!; [exact Hop|done|]. intros k. rewrite Hget. destruct (in_read_ranges ranges k) eqn:Ek; [|done]. rewrite (Hnewest k Ek). unfold reads.
    rewrite (seen_stored db contents) by done. unfold get_version. by rewrite (holds_empty _ _ H E0).
  - destruct (stream_opens ranges (MemtableRun {| mc_table := memtable db; mc_ranges := ranges; mc_read_sequence := q; mc_after := None |}
        :: map (λ seg, SegmentRun (segment_cursor_new seg ranges q)) (List.filter (selects ranges q) (segments db)))
      ((λ k, get_version (memtable db) k q) :: map (newest_in q) chosen) (request_projection request)) as (Rs & out & Hop & Hs & Hget).
    + constructor; [|exact Hruns]. by apply memtable_shows; [..|apply H|].
    + assert (∀ r k v w, r ∈ chosen → newest_in q r k = Some v → get_version (memtable db) k q = Some w → sequence v < sequence w) as Hless.
      { intros r k v w Hr Ev Ew. apply seen_elem in Ev as [Ev%versions_of_elem _]. rewrite (get_version_seen db contents) in Ew by done. apply seen_elem in Ew as [Ew _].
        by apply (holds_newer _ _ H r k v w); [apply Hsub|..]. }
      intros [|i] [|j] f g Hne Hi Hj; [by destruct Hne| | |by apply (Hap i j); [lia|..]]; intros k v w Ev Ew.
      * injection Hi as <-. change (map (newest_in q) chosen !! j = Some g) in Hj. rewrite list_lookup_fmap in Hj. destruct (chosen !! j) as [r|] eqn:Er; [|done]. injection Hj as <-.
        pose proof (Hless r k w v ltac:(by eapply list_elem_of_lookup_2) Ew Ev). lia.
      * injection Hj as <-. change (map (newest_in q) chosen !! i = Some f) in Hi. rewrite list_lookup_fmap in Hi. destruct (chosen !! i) as [r|] eqn:Er; [|done]. injection Hi as <-.
        pose proof (Hless r k v w ltac:(by eapply list_elem_of_lookup_2) Ev Ew). lia.
    + exists Rs, out. split_and!; [exact Hop|done|]. intros k. rewrite Hget. destruct (in_read_ranges ranges k) eqn:Ek; [|done]. unfold reads. f_equal.
      rewrite (seen_stored db contents) by done. rewrite <-(Hnewest k Ek).
      assert (∀ l : list (key → option VersionedValue), omap (λ f : key → option VersionedValue, f k) ((λ k, get_version (memtable db) k q) :: l)
        = match get_version (memtable db) k q with Some v => v :: omap (λ f : key → option VersionedValue, f k) l | None => omap (λ f : key → option VersionedValue, f k) l end) as Hc by done.
      rewrite Hc. destruct (get_version (memtable db) k q) as [w|] eqn:Ew; [|done]. rewrite newest_cons, (Hnewest k Ek). destruct (seen q (published contents k)) as [v|] eqn:Ev; [|done].
      apply seen_elem in Ev as [Ev _]. apply published_elem in Ev as (r & Hr & Ev). rewrite (get_version_seen db contents) in Ew by done. apply seen_elem in Ew as [Ew _].
      pose proof (holds_newer _ _ H r k v w Hr Ev Ew). cbn. by rewrite (proj2 (Z.ltb_ge _ _)) by lia.
Qed.

(** * Sessions *)

(** lsm/segment/reader.rs:690-704 ProjectedReadStream: the stream with its meter and its lease,
    and the registry the lease is of *)
Record ReadSession := {
  rs_stream : ProjectedReadStream; rs_meter : ProjectedReadMeter; rs_lease : option ReadViewLease; rs_views : ActiveReadViews
}.
Definition rs_terminal (s : ReadSession) : bool := st_terminal (rs_stream s).
Definition rs_outcome (s : ReadSession) : ProjectedReadOutcome := outcome (evidence (rs_meter s)).

(** lsm/segment/reader.rs:1061-1095 ProjectedReadStream::finish: the sources go first, then the
    pin *)
Definition finish (self : ReadSession) (o : ProjectedReadOutcome) : ReadSession * result Error unit :=
  if rs_terminal self then (self, Ok tt)
  else
    let st := {| st_projection := st_projection (rs_stream self); st_cursors := []; st_heads := []; st_heap := []; st_unopened := []; st_pending := None;
                 st_initialized := st_initialized (rs_stream self); st_terminal := true |} in
    let '(views, released) := match rs_lease self with
      | None => (rs_views self, Ok tt)
      | Some lease => match release (rs_views self) lease with Ok (views, _) => (views, Ok tt) | Err e => (rs_views self, Err e) end
      end in
    ({| rs_stream := st; rs_meter := set_outcome (rs_meter self) o; rs_lease := None; rs_views := views |}, released).

(** lsm/segment/reader.rs:777-794 ProjectedReadStream::next_batch *)
Definition next_batch (self : ReadSession) : ReadSession * result Error (option ProjectedReadBatch) :=
  if rs_terminal self then (self, Ok None)
  else
    let self_with st m := {| rs_stream := st; rs_meter := m; rs_lease := rs_lease self; rs_views := rs_views self |} in
    match next_batch_inner (rs_stream self) (set_outcome (rs_meter self) Running) with
    | (m, Ok (st, Some batch)) => (self_with st m, Ok (Some batch))
    | (m, Ok (st, None)) =>
      match finish (self_with st m) Completed with (self, Ok _) => (self, Ok None) | (self, Err e) => (self, Err e) end
    | (m, Err e) => ((finish (self_with (rs_stream self) m) Failed).1, Err e)
    end.

(** lsm/segment/reader.rs:770-775 ProjectedReadStream::cancel, and its [Drop] (1098-1104) *)
Definition cancel (self : ReadSession) : ReadSession * result Error unit :=
  if rs_terminal self then (self, Ok tt) else finish self Cancelled.

(** lsm/database.rs:723-800 Database::begin_projected_read, the stream it returns *)
Definition open_projected_read (db : Database) (ctx : ReadContext) (request : ProjectedReadRequest) : result Error ReadSession :=
  let? (ctx', st, m, lease) := begin_projected_read db ctx request in
  Ok {| rs_stream := st; rs_meter := m; rs_lease := Some lease; rs_views := read_views ctx' |}.

(** Taking batches until the stream ends. *)
Fixpoint drain (fuel : nat) (s : ReadSession) (given : list ProjectedReadBatch) : option (ReadSession * list ProjectedReadBatch * result Error unit) :=
  match fuel with
  | O => None
  | S fuel =>
    match next_batch s with
    | (s, Ok (Some batch)) => drain fuel s (given ++ [batch])
    | (s, Ok None) => Some (s, given, Ok tt)
    | (s, Err e) => Some (s, given, Err e)
    end
  end.

(** What a client reads from a batch. *)
Definition batch_contents (batch : ProjectedReadBatch) : list (option key * option (list byte)) :=
  map (λ i, (batch_key batch i, batch_value batch i)) (seq 0 (batch_rows batch)).
Definition shown (projection : ProjectedReadProjection) (r : key * list byte) : option key * option (list byte) :=
  (Some r.1, if decide (projection = KeyValue) then Some r.2 else None).

Definition pool (m : ProjectedReadMeter) (reserved : Z) : ProjectedReadMeter :=
  set_output m {| limit_bytes := limit_bytes (output_memory m); reserved_bytes := reserved;
    peak_reserved_bytes := peak_reserved_bytes (output_memory m); denied_batches := denied_batches (output_memory m) |}.
Definition taken (r : result Error (option ProjectedReadBatch)) : list ProjectedReadBatch := match r with Ok (Some b) => [b] | _ => [] end.
Definition pins (s : ReadSession) (others : list ReadViewLease) : list ReadViewLease := match rs_lease s with Some l => l :: others | None => others end.
Definition size_of (batches : list ProjectedReadBatch) : Z := sum (map allocated_bytes batches).

(** The states of a read: batches are taken and dropped, the stream is cancelled, and in
    between other readers ([others], with [base] bytes of the output pool) come and go.  [given]
    are the batches taken, [held_batches] those not yet dropped. *)
Inductive session (db : Database) (ctx : ReadContext) (request : ProjectedReadRequest)
    : ReadSession → list ProjectedReadBatch → list ProjectedReadBatch → list ReadViewLease → Z → Prop :=
| session_open s others :
    leased (read_views ctx) others → reserved_bytes (projected_output ctx) ≤ limit_bytes (projected_output ctx) →
    open_projected_read db ctx request = Ok s → session db ctx request s [] [] others (reserved_bytes (projected_output ctx))
| session_next s given held_batches others base s' r :
    session db ctx request s given held_batches others base → next_batch s = (s', r) →
    session db ctx request s' (given ++ taken r) (taken r ++ held_batches) others base
| session_cancel s given held_batches others base s' r :
    session db ctx request s given held_batches others base → cancel s = (s', r) → session db ctx request s' given held_batches others base
| session_drop s given before batch after others base :
    session db ctx request s given (before ++ batch :: after) others base →
    session db ctx request {| rs_stream := rs_stream s; rs_meter := drop_batch batch (rs_meter s); rs_lease := rs_lease s; rs_views := rs_views s |}
      given (before ++ after) others base
| session_others s given held_batches others base views' others' base' :
    session db ctx request s given held_batches others base → leased views' (pins s others') →
    base' + size_of held_batches ≤ limit_bytes (output_memory (rs_meter s)) →
    session db ctx request {| rs_stream := rs_stream s; rs_meter := pool (rs_meter s) (base' + size_of held_batches); rs_lease := rs_lease s; rs_views := views' |}
      given held_batches others' base'.

(** What the database and the request must be: the database in order, its sizes words, no
    version in two segments, and a batch of a possible size. *)
Record readable (db : Database) (contents : list (list row)) (request : ProjectedReadRequest) : Prop := {
  readable_holds : db_holds db contents;
  readable_distinct : versions_distinct contents;
  readable_table : 0 ≤ approximate_bytes (memtable db);
  readable_segments : Forall (λ seg, 0 ≤ segment_bytes (descriptor seg)) (segments db);
  readable_few : len (request_ranges request) * total_versions (versions (memtable db)) < 2 ^ 64;
  readable_batch : max_batch_allocated_bytes (request_budget request) < 2 ^ 63;
  readable_budget : 0 ≤ max_versions_examined (request_budget request) ∧ 0 ≤ max_page_requests (request_budget request)
    ∧ 0 ≤ max_page_logical_bytes (request_budget request) ∧ 0 ≤ max_output_rows (request_budget request) ∧ 0 ≤ max_output_buffer_bytes (request_budget request)
}.

Lemma batch_contents_holds batch projection rows : batch_holds batch projection rows → batch_contents batch = map (shown projection) rows.
Proof.
  intros (_ & Hn & Hrows). apply list_eq. intros i. unfold batch_contents. rewrite !list_lookup_fmap, Hn. destruct (rows !! i) as [[k v]|] eqn:E.
  - rewrite lookup_seq_lt by (by eapply lookup_lt_Some). cbn. by destruct (Hrows i k v E) as [-> ->].
  - rewrite lookup_seq_ge by (by apply lookup_ge_None). done.
Qed.

Section Session.
Context (limits : ProjectedReadBudget) (projection : ProjectedReadProjection) (limit : Z) (out : list (key * list byte)).
Context (Hmax : max_batch_allocated_bytes limits < 2 ^ 63).

Definition batch_within (b : ProjectedReadBatch) : Prop :=
  (0 < batch_rows b)%nat ∧ Z.of_nat (batch_rows b) ≤ max_batch_rows limits ∧ allocated_bytes b ≤ max_batch_allocated_bytes limits.
Definition rows_of (batches : list ProjectedReadBatch) : Z := sum (map (λ b, Z.of_nat (batch_rows b)) batches).

Record session_ok (s : ReadSession) (given held_batches : list ProjectedReadBatch) (others : list ReadViewLease) (base : Z) : Prop := {
  ok_rows : ∃ rows rest, out = rows ++ rest ∧ concat (map batch_contents given) = map (shown projection) rows
    ∧ (rs_terminal s = false → ∃ Rs, opened Rs (rs_stream s) rest ∧ st_projection (rs_stream s) = projection)
    ∧ (rs_terminal s = true → rs_outcome s = Completed → rest = []);
  ok_given : Forall batch_within given;
  ok_leased : leased (rs_views s) (pins s others);
  ok_lease : is_Some (rs_lease s) ↔ rs_terminal s = false;
  ok_budget : budget (rs_meter s) = limits;
  ok_limit : limit_bytes (output_memory (rs_meter s)) = limit;
  ok_pool : reserved_bytes (output_memory (rs_meter s)) = base + size_of held_batches ∧ base + size_of held_batches ≤ limit;
  ok_emitted : emitted_rows (evidence (rs_meter s)) = rows_of given ∧ rows_of given ≤ max_output_rows limits;
  ok_emitted_bytes : emitted_buffer_bytes (evidence (rs_meter s)) = size_of given ∧ size_of given ≤ max_output_buffer_bytes limits;
  ok_source : source_within (rs_meter s)
}.

Lemma sum_snoc l x : sum (l ++ [x]) = sum l + x.
Proof. induction l as [|y l IH]; cbn; [lia|]. unfold sum in IH. lia. Qed.
Lemma size_of_app l k : size_of (l ++ k) = size_of l + size_of k.
Proof. induction l as [|y l IH]; [done|]. unfold size_of, sum in *. cbn. lia. Qed.

(** Ending a live session releases its lease and keeps the rest. *)
Lemma finish_ok s given held_batches others base o :
  session_ok s given held_batches others base → rs_terminal s = false →
  (o = Completed → ∃ rows, out = rows ∧ concat (map batch_contents given) = map (shown projection) rows) →
  ∃ s', finish s o = (s', Ok tt) ∧ session_ok s' given held_batches others base ∧ rs_terminal s' = true ∧ rs_outcome s' = o.
Proof.
  intros [(rows & rest & Hout & Hgiven & _ & _) Hg Hl Hlease Hb Hlim Hp He Heb Hs] Ht Hc. unfold finish. rewrite Ht.
  destruct (proj2 Hlease Ht) as [lease El]. rewrite El in *. unfold pins in Hl. rewrite El in Hl.
  destruct (release_leased _ _ _ Hl) as (views' & lease' & -> & Hl' & _). eexists. split; [done|]. split; [|done].
  constructor; cbn [rs_stream rs_meter rs_lease rs_views]; try done.
  - unfold rs_outcome. cbn. destruct (decide (o = Completed)) as [E|E].
    + destruct (Hc E) as (rows' & -> & Hg'). exists rows', []. by rewrite app_nil_r.
    + exists rows, rest. split_and!; done.
Qed.

(** The meter may pay for work that gives nothing. *)
Lemma session_kept s given held_batches others base st m :
  session_ok s given held_batches others base → kept (set_outcome (rs_meter s) Running) m → rs_terminal s = false → st_terminal st = false →
  (∃ Rs rows rest, out = rows ++ rest ∧ concat (map batch_contents given) = map (shown projection) rows ∧ opened Rs st rest ∧ st_projection st = projection) →
  session_ok {| rs_stream := st; rs_meter := m; rs_lease := rs_lease s; rs_views := rs_views s |} given held_batches others base.
Proof.
  intros [_ Hg Hl Hlease Hb Hlim Hp He Heb Hs] [K1 K2 K3 K4 K5 K6] Ht Ht' (Rs & rows & rest & Hout & Hgiven & Hop & Hproj).
  constructor; unfold rs_terminal, rs_outcome; cbn [rs_stream rs_meter rs_lease rs_views]; try done.
  - exists rows, rest. split_and!; [done|done|by intros _; exists Rs|by rewrite Ht'].
  - by rewrite Hlease, Ht, Ht'.
  - by rewrite K1.
  - by rewrite K3.
  - by rewrite K2.
  - by rewrite K4.
  - by rewrite K5.
  - by apply K6.
Qed.

Lemma next_batch_ok s given held_batches others base :
  session_ok s given held_batches others base →
  let '(s', r) := next_batch s in
  session_ok s' (given ++ taken r) (taken r ++ held_batches) others base
  ∧ (rs_terminal s = false → match r with
     | Ok (Some b) => rs_terminal s' = false
     | Ok None => rs_terminal s' = true ∧ rs_outcome s' = Completed
     | Err e => budgeted e ∧ rs_terminal s' = true ∧ rs_outcome s' = Failed end).
Proof.
  intros Hok. unfold next_batch. destruct (rs_terminal s) eqn:Ht; [by rewrite app_nil_r|].
  pose proof Hok as [(rows & rest & Hout & Hgiven & Hopen & _) Hg Hl Hlease Hb Hlim Hp He Heb Hs]. destruct (Hopen Ht) as (Rs & Hop & Hproj).
  set (m0 := set_outcome (rs_meter s) Running). change (budget m0) with (budget (rs_meter s)) in *.
  pose proof (next_batch_runs Rs m0 (rs_stream s) rest Hop ltac:(by change (budget m0) with (budget (rs_meter s)); rewrite Hb)) as Hrun.
  unfold runs in Hrun. destruct (next_batch_inner (rs_stream s) m0) as [m [[st [batch|]]|e]].
  - destruct Hrun as (tk & rest' & -> & Hflow & Hi & Hpj & Hterm & Hne & Hholds & Ha & (F1 & F2 & F3 & F4) & [E1 E2 E3 E4 E5 E6 E7]). cbn [fst snd] in *.
    change (budget m0) with (budget (rs_meter s)) in *. change (output_memory m0) with (output_memory (rs_meter s)) in *.
    change (emitted_rows (evidence m0)) with (emitted_rows (evidence (rs_meter s))) in *. change (emitted_buffer_bytes (evidence m0)) with (emitted_buffer_bytes (evidence (rs_meter s))) in *.
    rewrite Hproj in *. pose proof Hholds as (_ & Hn & _). assert (0 < length tk)%nat by (destruct tk; [done|cbn; lia]).
    assert (Z.of_nat (batch_rows batch) = len tk) as Hn' by (unfold len; lia). rewrite Hb in *.
    split; [|intros _; unfold rs_terminal in *; cbn; congruence]. constructor; unfold rs_terminal, rs_outcome; cbn [rs_stream rs_meter rs_lease rs_views taken]; try done.
    + exists (rows ++ tk), rest'. split_and!; [by rewrite <-app_assoc| | |].
      * rewrite map_app, concat_app, Hgiven, map_app. cbn. by rewrite app_nil_r, (batch_contents_holds _ _ _ Hholds).
      * intros _. exists Rs. split; [unfold opened; by rewrite Hi|congruence].
      * by rewrite Hterm; unfold rs_terminal in Ht; rewrite Ht.
    + apply Forall_app. split; [done|]. constructor; [|constructor]. unfold batch_within. rewrite Hn', Ha. split; [lia|done].
    + by rewrite Hterm.
    + congruence.
    + rewrite size_of_app. unfold size_of at 1. cbn. split; lia.
    + unfold rows_of. rewrite map_app. cbn [map]. rewrite sum_snoc. fold (rows_of given). lia.
    + unfold size_of. rewrite map_app. cbn [map]. rewrite sum_snoc. fold (size_of given). lia.
    + by apply E7.
  - destruct Hrun as (tk & rest' & -> & Hflow & Hi & Hpj & Hterm & Hend & Hkept). cbn [fst snd] in *.
    apply app_eq_nil in Hend as [-> ->]. cbn [app] in *.
    set (s1 := {| rs_stream := st |}). destruct (finish_ok s1 given held_batches others base Completed) as (s' & -> & Hok' & Ht' & Ho').
    + apply session_kept; [done|done|done|unfold rs_terminal in Ht; congruence|]. exists Rs, rows, [].
      split_and!; [done|done|unfold opened; by rewrite Hi|congruence].
    + unfold rs_terminal in *. cbn. congruence.
    + intros _. exists rows. split; [|done]. by rewrite Hout, app_nil_r.
    + rewrite app_nil_r. split; [exact Hok'|]. by split.
  - destruct Hrun as [Hkept He']. set (s1 := {| rs_stream := rs_stream s; rs_meter := m |}). destruct (finish_ok s1 given held_batches others base Failed) as (s' & -> & Hok' & Ht' & Ho').
    + apply session_kept; [done|done|done|done|]. by exists Rs, rows, rest.
    + done.
    + done.
    + rewrite app_nil_r. split; [exact Hok'|]. by split.
Qed.

Lemma cancel_ok s given held_batches others base s' r :
  session_ok s given held_batches others base → cancel s = (s', r) → session_ok s' given held_batches others base.
Proof.
  intros Hok. unfold cancel. destruct (rs_terminal s) eqn:Ht; [by intros [= <- _]|].
  destruct (finish_ok s given held_batches others base Cancelled Hok Ht) as (s1 & -> & Hok1 & _); [done|]. by intros [= <- _].
Qed.

Lemma drop_ok s given before batch after others base :
  session_ok s given (before ++ batch :: after) others base → 0 ≤ allocated_bytes batch →
  session_ok {| rs_stream := rs_stream s; rs_meter := drop_batch batch (rs_meter s); rs_lease := rs_lease s; rs_views := rs_views s |} given (before ++ after) others base.
Proof.
  intros [Hr Hg Hl Hlease Hb Hlim Hp He Heb Hs] Ha. constructor; try done. cbn. rewrite !size_of_app in *. unfold size_of in Hp at 2 4. cbn [map sum fold_right] in Hp.
  fold (sum (map allocated_bytes after)) in Hp. fold (size_of after) in Hp. lia.
Qed.

Lemma others_ok s given held_batches others base views' others' base' :
  session_ok s given held_batches others base → leased views' (pins s others') → base' + size_of held_batches ≤ limit_bytes (output_memory (rs_meter s)) →
  session_ok {| rs_stream := rs_stream s; rs_meter := pool (rs_meter s) (base' + size_of held_batches); rs_lease := rs_lease s; rs_views := views' |}
    given held_batches others' base'.
Proof. intros [Hr Hg Hl Hlease Hb Hlim Hp He Heb Hs] Hl' Hroom. constructor; try done. split; [done|]. by rewrite <-Hlim. Qed.

Lemma session_prefix s given held_batches others base :
  session_ok s given held_batches others base →
  concat (map batch_contents given) `prefix_of` map (shown projection) out
  ∧ (rs_terminal s = true → rs_outcome s = Completed → concat (map batch_contents given) = map (shown projection) out).
Proof.
  intros [(rows & rest & -> & -> & _ & Hall) _ _ _ _ _ _ _ _ _]. split; [eexists; by rewrite map_app|]. intros Ht Ho. by rewrite (Hall Ht Ho), app_nil_r.
Qed.

(** Every call gives at least one more row, so draining ends. *)
Lemma drain_ok fuel : ∀ s given held_batches others base,
  session_ok s given held_batches others base → rs_terminal s = false → (length out < length (concat (map batch_contents given)) + fuel)%nat →
  ∃ s' given' held_batches' r, drain fuel s given = Some (s', given', r) ∧ session_ok s' given' held_batches' others base ∧ rs_terminal s' = true
    ∧ match r with Ok _ => rs_outcome s' = Completed | Err e => budgeted e end.
Proof.
  induction fuel as [|fuel IH]; intros s given held_batches others base Hok Ht Hfuel.
  { destruct (ok_rows _ _ _ _ _ Hok) as (rows & rest & Hout & Hgiven & _). rewrite Hgiven, length_map in Hfuel. rewrite Hout, length_app in Hfuel. lia. }
  cbn [drain]. pose proof (next_batch_ok s given held_batches others base Hok) as Hn. destruct (next_batch s) as [s1 r]. destruct Hn as [Hok1 Hr]. specialize (Hr Ht).
  destruct r as [[b|]|e].
  - apply (IH s1 (given ++ [b]) (taken (Ok (Some b)) ++ held_batches) others base); [exact Hok1|done|].
    assert (0 < batch_rows b)%nat by (destruct (proj1 (Forall_app _ _ _) (ok_given _ _ _ _ _ Hok1)) as [_ [[H _] _]%Forall_cons]; done).
    rewrite map_app, concat_app, length_app. cbn. rewrite app_nil_r. unfold batch_contents at 2. rewrite length_map, length_seq. lia.
  - cbn [taken app] in Hok1. rewrite app_nil_r in Hok1. exists s1, given, held_batches, (Ok tt). by destruct Hr.
  - cbn [taken app] in Hok1. rewrite app_nil_r in Hok1. exists s1, given, held_batches, (Err e). by destruct Hr as (? & ? & _).
Qed.
End Session.

(** ** Every session keeps the invariant *)

Lemma saturating_add_nonneg x y : 0 ≤ x → 0 ≤ y → 0 ≤ saturating_add 64 x y.
Proof. unfold saturating_add. lia. Qed.
Lemma allocated_nonneg b : 0 ≤ allocated_bytes b.
Proof.
  unfold allocated_bytes. repeat apply saturating_add_nonneg; try apply len_nonneg; [destruct (value_offsets b)|destruct (value_data b)]; first [apply len_nonneg|done].
Qed.

Lemma open_ok db contents ctx request others s :
  readable db contents request → leased (read_views ctx) others → reserved_bytes (projected_output ctx) ≤ limit_bytes (projected_output ctx) →
  open_projected_read db ctx request = Ok s →
  ∃ out, bt_sorted out ∧ (∀ k, bt_get k out = if in_read_ranges (request_ranges request) k then reads db contents k (request_snapshot request) else None)
    ∧ rs_terminal s = false
    ∧ session_ok (capped_budget ctx (request_budget request)) (request_projection request) (limit_bytes (projected_output ctx)) out s [] [] others (reserved_bytes (projected_output ctx)).
Proof.
  intros [Hh Hd Ht Hs Hfew Hmax (B1 & B2 & B3 & B4 & B5)] Hl Hroom. unfold open_projected_read, begin_projected_read.
  destruct (request_validate request (db_snapshot db)) as [[]|] eqn:Ev; [|done]. apply request_validated in Ev as (Hv & Hb & Hne & Hsnap).
  destruct (ok_or _ _) as [count|]; [|done]. destruct (max_runs _ <? count); [done|]. destruct (try_fold _ 0 (selected_segments db request)) as [bytes|]; [|done].
  destruct (ok_or _ _) as [total|]; [|done].
  destruct (acquire _ _ _ _ _ _) as [[views lease]|] eqn:Ea; [|done]. intros [= <-].
  apply (acquire_leased _ others) in Ea as (Hl' & _); [|done|done|].
  2:{ apply Forall_map. unfold selected_segments. apply Forall_forall. intros seg Hseg%list_elem_of_In%filter_In. rewrite Forall_forall in Hs. apply Hs. apply list_elem_of_In, Hseg. }
  destruct (view_opens db contents request (manifest_id (db_manifest ctx)) Hh Hd Hv Hb Hne Hfew) as (Rs & out & Hop & Hso & Hget).
  exists out. split_and!; [done|done|done|]. constructor; cbn [rs_stream rs_meter rs_lease rs_views]; try done.
  - exists [], out. split_and!; [done|done|intros _; by exists Rs|done].
  - cbn. lia.
Qed.

Lemma session_keeps db contents ctx request s given held_batches others base :
  readable db contents request → session db ctx request s given held_batches others base →
  ∃ out, bt_sorted out ∧ (∀ k, bt_get k out = if in_read_ranges (request_ranges request) k then reads db contents k (request_snapshot request) else None)
    ∧ session_ok (capped_budget ctx (request_budget request)) (request_projection request) (limit_bytes (projected_output ctx)) out s given held_batches others base.
Proof.
  intros Hr. induction 1 as [s others Hl Hroom Ho|s given held_batches others base s' r _ (out & Hs & Hget & Hok) Hn|s given held_batches others base s' r _ (out & Hs & Hget & Hok) Hc
    |s given before batch after others base _ (out & Hs & Hget & Hok)|s given held_batches others base views' others' base' _ (out & Hs & Hget & Hok) Hl Hroom].
  - destruct (open_ok _ _ _ _ _ _ Hr Hl Hroom Ho) as (out & Hs & Hget & _ & Hok). by exists out.
  - exists out. split_and!; [done|done|]. pose proof (next_batch_ok (capped_budget ctx (request_budget request)) _ _ _ (readable_batch _ _ _ Hr) s given held_batches others base Hok) as Hnext.
    rewrite Hn in Hnext. apply Hnext.
  - exists out. split_and!; [done|done|]. by eapply cancel_ok.
  - exists out. split_and!; [done|done|]. apply drop_ok; [done|apply allocated_nonneg].
  - exists out. split_and!; [done|done|]. by eapply others_ok.
Qed.

(** * The claims *)

(** C7: a projected read gives exactly the live rows of its ranges.  However taking batches,
    dropping them, cancelling and other readers interleave, the batches taken so far read back
    as a prefix of the rows that point reads at the snapshot of the request give inside its
    ranges, in key order, and as all of them once the stream has completed.  Draining an open
    stream ends: with all the rows, or with a prefix and an error of the budget. *)
Theorem projected_read_exact db contents ctx request s given held_batches others base :
  readable db contents request → session db ctx request s given held_batches others base →
  ∃ out, bt_sorted out
    ∧ (∀ k, bt_get k out = if in_read_ranges (request_ranges request) k then reads db contents k (request_snapshot request) else None)
    ∧ concat (map batch_contents given) `prefix_of` map (shown (request_projection request)) out
    ∧ (rs_terminal s = true → rs_outcome s = Completed → concat (map batch_contents given) = map (shown (request_projection request)) out)
    ∧ (rs_terminal s = false → ∀ fuel, (length out < fuel)%nat →
         ∃ s' given' r, drain fuel s given = Some (s', given', r) ∧ rs_terminal s' = true
           ∧ match r with
             | Ok _ => concat (map batch_contents given') = map (shown (request_projection request)) out
             | Err e => budgeted e ∧ concat (map batch_contents given') `prefix_of` map (shown (request_projection request)) out
             end).
Proof.
  intros Hr Hsession. destruct (session_keeps _ _ _ _ _ _ _ _ _ Hr Hsession) as (out & Hs & Hget & Hok). exists out. split_and!; [done|done| | |].
  - by destruct (session_prefix _ _ _ _ _ _ _ _ _ Hok).
  - intros Ht Ho. by destruct (session_prefix _ _ _ _ _ _ _ _ _ Hok) as [_ H]; apply H.
  - intros Ht fuel Hfuel. destruct (drain_ok (capped_budget ctx (request_budget request)) _ _ _ (readable_batch _ _ _ Hr) fuel s given held_batches others base Hok Ht ltac:(lia)) as (s' & given' & held' & r & E & Hok' & Ht' & Ho').
    exists s', given', r. split_and!; [done|done|]. destruct (session_prefix _ _ _ _ _ _ _ _ _ Hok') as [Hp Hall]. destruct r as [u|e]; [by apply Hall|by split].
Qed.

(** C32: a projected read stays within its limits.  In every session, with other readers coming
    and going, the versions, pages and page bytes read, the rows and bytes emitted and the size
    of every batch are within the budget, the shared output pool holds exactly what the other
    readers and the batches not yet dropped take, within its limit, and the registry holds the
    lease of the stream until it ends and no longer. *)
Theorem projected_read_bounded db contents ctx request s given held_batches others base :
  readable db contents request → session db ctx request s given held_batches others base →
  source_within (rs_meter s) ∧ budget (rs_meter s) = capped_budget ctx (request_budget request)
  ∧ Forall (batch_within (request_budget request)) given
  ∧ rows_of given ≤ max_output_rows (request_budget request) ∧ size_of given ≤ max_output_buffer_bytes (request_budget request)
  ∧ reserved_bytes (output_memory (rs_meter s)) = base + size_of held_batches
  ∧ base + size_of held_batches ≤ limit_bytes (projected_output ctx)
  ∧ leased (rs_views s) (pins s others) ∧ (is_Some (rs_lease s) ↔ rs_terminal s = false).
Proof.
  intros Hr Hsession. destruct (session_keeps _ _ _ _ _ _ _ _ _ Hr Hsession) as (out & _ & _ & [Hrows Hg Hl Hlease Hb Hlim Hp He Heb Hs]).
  split_and!; [done|done|exact Hg|apply He|apply Heb|apply Hp|apply Hp|done|done].
Qed.

(** ** A concrete read: the sample database, its whole key space at sequence 6 *)

Definition sample_context : ReadContext :=
  {| read_views := ActiveReadViews_default; active_read_view_limit := 4; pinned_read_byte_limit := 1000;
     db_manifest := {| content := {| manifest_format_version := 3; application_format := None; generation := 1; manifest_parent := None; manifest_created_at := 0;
       manifest_durable_sequence := 5; wal_start_sequence := 6; manifest_segments := [] |}; manifest_id := "m" |};
     generation_address := 16; projected_output := {| limit_bytes := 4096; reserved_bytes := 0; peak_reserved_bytes := 0; denied_batches := 0 |} |}.
Definition sample_request : ProjectedReadRequest :=
  {| request_ranges := [{| range_start := []; range_end := None |}]; request_projection := KeyValue; request_snapshot := 6;
     request_budget := ProjectedReadBudget_default |}.
Definition no_session : ReadSession :=
  {| rs_stream := {| st_projection := Key; st_cursors := []; st_heads := []; st_heap := []; st_unopened := []; st_pending := None; st_initialized := false; st_terminal := true |};
     rs_meter := {| evidence := evidence (meter_new {| view_sequence := 0; view_manifest := ""; view_memtable := sample_memtable; view_segments := [] |} ProjectedReadBudget_default (projected_output sample_context));
       budget := ProjectedReadBudget_default; output_memory := projected_output sample_context |};
     rs_lease := None; rs_views := ActiveReadViews_default |}.
Definition sample_opened : ReadSession := match open_projected_read sample_db sample_context sample_request with Ok s => s | Err _ => no_session end.
Definition sample_first : ReadSession * result Error (option ProjectedReadBatch) := next_batch sample_opened.
Definition sample_second : ReadSession * result Error (option ProjectedReadBatch) := next_batch sample_first.1.

Lemma sample_readable : ∃ contents, readable sample_db contents sample_request.
Proof.
  destruct sample_db_holds as [contents H]. exists contents. constructor; [done| |done|by repeat constructor|vm_compute; reflexivity|vm_compute; reflexivity|by vm_compute].
  pose proof (Forall2_length _ _ _ (holds_segments _ _ H)) as Hlen. change (length (segments sample_db)) with 1%nat in Hlen.
  intros i j rows rows' k v w Hne Hi%lookup_lt_Some Hj%lookup_lt_Some. lia.
Qed.
Lemma session_twice db ctx request s others base :
  session db ctx request s [] [] others base → taken (next_batch (next_batch s).1).2 = [] →
  session db ctx request (next_batch (next_batch s).1).1 (taken (next_batch s).2) (taken (next_batch s).2) others base.
Proof.
  intros Hs. destruct (next_batch s) as [s1 r1] eqn:E1. cbn [fst snd]. destruct (next_batch s1) as [s2 r2] eqn:E2. cbn [fst snd]. intros Er.
  pose proof (session_next _ _ _ _ _ _ _ _ _ _ (session_next _ _ _ _ _ _ _ _ _ _ Hs E1) E2) as H. by rewrite Er, !app_nil_r in H.
Qed.
Lemma sample_opens : session sample_db sample_context sample_request sample_opened [] [] [] 0.
Proof.
  assert (match open_projected_read sample_db sample_context sample_request with Ok _ => true | Err _ => false end = true) as E by (vm_compute; reflexivity).
  unfold sample_opened. destruct (open_projected_read sample_db sample_context sample_request) as [s|] eqn:Eo; [|discriminate E].
  exact (session_open sample_db sample_context sample_request s [] default_leased ltac:(done) Eo).
Qed.

Lemma projected_read_exact_witness :
  ∃ contents out, (∀ k, bt_get k out = if in_read_ranges (request_ranges sample_request) k then reads sample_db contents k 6 else None)
    ∧ map (shown KeyValue) out = concat (map batch_contents (taken sample_first.2))
    ∧ concat (map batch_contents (taken sample_first.2)) = [(Some (str_bytes "fig"), Some []); (Some (str_bytes "pear"), Some (str_bytes "old"))].
Proof.
  destruct sample_readable as [contents Hr]. exists contents.
  destruct (projected_read_exact sample_db contents sample_context sample_request sample_second.1 (taken sample_first.2) (taken sample_first.2) [] 0 Hr) as (out & _ & Hget & _ & Hall & _).
  { apply session_twice; [apply sample_opens|vm_compute; reflexivity]. }
  exists out. split; [exact Hget|]. split; [symmetry; apply Hall; vm_compute; reflexivity|vm_compute; reflexivity].
Defined.

Lemma projected_read_bounded_witness :
  source_within (rs_meter sample_second.1) ∧ size_of (taken sample_first.2) ≤ 4096 ∧ leased (rs_views sample_second.1) [].
Proof.
  destruct sample_readable as [contents Hr].
  destruct (projected_read_bounded sample_db contents sample_context sample_request sample_second.1 (taken sample_first.2) (taken sample_first.2) [] 0 Hr)
    as (Hs & _ & _ & _ & _ & _ & Hp & Hl & _).
  { apply session_twice; [apply sample_opens|vm_compute; reflexivity]. }
  split; [exact Hs|]. split; [rewrite Z.add_0_l in Hp; exact Hp|].
  assert (rs_lease sample_second.1 = None) as E by (vm_compute; reflexivity). unfold pins in Hl. rewrite E in Hl. exact Hl.
Defined.
