(* ===== verification/ManifestStore.v ===== *)
(** Publication of manifests and checkpoints ([rrd-lsm]: manifest.rs, [ManifestStore]).

    The store publishes a manifest under its digest and then the [CURRENT] pointer that selects
    it, each as a temporary file that is synced and renamed, and refuses to publish again once
    a publication has failed in a way that leaves open which pointer a power loss would find.
    Opening an existing store syncs the directories before anything depends on what it sees.

    The specification is the chain of the manifests selected so far, and of the disk that it
    stands for the chain: every pointer a power loss can leave selects the newest manifest of the
    chain or the one whose publication was under way, and both are whole.  Theorem: publishing is
    a compare-and-swap of the chain.  History has what every sequence of operations keeps.

    Creating the namespace is not modelled; the operating system's lock is an input. *)

From S2P Require Import Prelude Machine BTree Ident Digest LsmError Batch RecoveryBudget Wal Memtable Versions SegmentFormat Segment SegmentFile PointIndex Manifest Filesystem Reclamation.
Open Scope Z_scope.

(** * Names *)

(** lsm/manifest.rs:15-18 the names of the namespace *)
Definition CURRENT_FILE : Path := (Root, "CURRENT").
Definition MANIFEST_DIRECTORY : Path := (Root, "manifests").
Definition CHECKPOINT_DIRECTORY : Path := (Root, "checkpoints").
Definition MANIFEST_LOCK_FILE : Path := (Root, "MANIFEST.LOCK").
Definition manifest_path (digest : string) : Path := (Manifests, digest +:+ ".json").
Definition checkpoint_path (name : string) : Path := (Checkpoints, name +:+ ".json").
(** lsm/manifest.rs:11 DEFAULT_CHECKPOINT_ENTRIES *)
Definition DEFAULT_CHECKPOINT_ENTRIES : Z := 1024.

(** lsm/manifest.rs:414-422 ManifestStore; the flag of an uncertain publication is in the
    [World], and the lock and the gate are held by whoever calls *)
Record ManifestStore := {
  root_path : string; recovery_reserve : Z; temporary_nonce : string; checkpoint_entries : Z; checkpoint_budget : ReclamationLimits
}.
Definition diagnostic_path (self : ManifestStore) (p : Path) : string :=
  root_path self +:+ (match p.1 with Root => "/" | Manifests => "/manifests/" | Checkpoints => "/checkpoints/" | Segments => "/segments/" | Wals => "/wal/" end) +:+ p.2.

(** The next of the process's temporary names. *)
Definition temporary_name (self : ManifestStore) (stem : string) : io Error string := λ w,
  ({| disk := disk w; replies := replies w; spaces := spaces w; temporary_id := wrapping_add 64 (temporary_id w) 1; publication_uncertain := publication_uncertain w |},
   Some (Ok ("." +:+ stem +:+ "." +:+ temporary_nonce self +:+ "." +:+ pretty (temporary_id w) +:+ ".tmp"))).

(** * Opening *)

Inductive LockReply := Locked | WouldBlock | LockFails (reason : string).

(** lsm/manifest.rs:512-582 ManifestStore::acquire_writer, of an existing store; [entropy] is the
    random nonce in hexadecimal and [lock] what the operating system answers *)
Definition acquire_writer (root : string) (reserve : Z) (entropy : option string) (lock : LockReply) : io Error ManifestStore :=
  let path := (root +:+ "/MANIFEST.LOCK") in
  let! entry := context "validating existing manifest lock" path (metadata MANIFEST_LOCK_FILE) in
  match entry with
  | RegularFile _ =>
    let! nonce := io_lift (ok_or entropy (Io "manifest writer entropy unavailable")) in
    let! _ := context "opening manifest lock" path (metadata MANIFEST_LOCK_FILE) in
    match lock with
    | WouldBlock => io_fail (DatabaseWriterLock path)
    | LockFails reason => io_fail (IoContext "acquiring manifest lock" path reason)
    | Locked =>
      let! _ := question (sync_directory Root) in
      let! _ := question (sync_directory Checkpoints) in
      io_ret {| root_path := root; recovery_reserve := reserve; temporary_nonce := nonce;
                checkpoint_entries := DEFAULT_CHECKPOINT_ENTRIES; checkpoint_budget := ReclamationLimits_default |}
    end
  | _ => io_fail (InvalidManifest "manifest lock is not a regular non-symlink file")
  end.

(** lsm/manifest.rs:465-484 ManifestStore::open_existing_anchored *)
Definition open_existing (root : string) (reserve : Z) (entropy : option string) (lock : LockReply) : io Error ManifestStore :=
  let check operation (p : Path) : io Error unit :=
    let path := (root +:+ "/" +:+ p.2) in
    let! entry := context operation path (metadata p) in
    match entry with SubDirectory => io_ret tt | _ => io_fail (InvalidManifest (path +:+ " is not a non-symlink directory")) end in
  let! _ := check "opening manifest directory" MANIFEST_DIRECTORY in
  let! _ := check "opening checkpoint directory" CHECKPOINT_DIRECTORY in
  acquire_writer root reserve entropy lock.

(** lsm/manifest.rs:723-737 ManifestStore::with_checkpoint_limits *)
Definition with_checkpoint_limits (self : ManifestStore) (entries : Z) (metadata : ReclamationLimits) : result Error ManifestStore :=
  if ((entries =? 0) || (65536 <? entries))%bool then Err (InvalidConfiguration "checkpoint entries must be in 1..=65536")
  else
    do? reclamation_limits_validate metadata in
    Ok {| root_path := root_path self; recovery_reserve := recovery_reserve self; temporary_nonce := temporary_nonce self;
          checkpoint_entries := entries; checkpoint_budget := metadata |}.

(** * Publication *)

(** lsm/manifest.rs:584-591 ManifestStore::ensure_publication_ready *)
Definition ensure_publication_ready : io Error unit := λ w,
  (w, Some (if publication_uncertain w then Err (RecoveryRequired "uncertain manifest publication") else Ok tt)).
(** lsm/manifest.rs:593-600 ManifestStore::publication_result *)
Definition publication_result {A} (m : io Error A) : io Error A :=
  let! r := attempt m in
  match r with
  | Ok x => io_ret x
  | Err (DiskAdmission a b c) => io_fail (DiskAdmission a b c)
  | Err e => λ w, (set_uncertain w, Some (Err e))
  end.

Section Store.
Context `{Sha2} `{Serde Content} `{Serde Manifest} `{Serde CurrentPointer} `{Serde Checkpoint}.
Context (self : ManifestStore).

(** lsm/manifest.rs:658-689 ManifestStore::load_using *)
Definition load_using {S} (read : S → Path → io Error (list byte * S)) (s : S) (digest : string) : io Error (Manifest * S) :=
  if negb (is_sha256 digest) then io_fail (InvalidManifest "manifest lookup requires a SHA-256 identity")
  else
    let path := manifest_path digest in
    let! entry := context "validating manifest file" (diagnostic_path self path) (metadata path) in
    match entry with
    | RegularFile _ =>
      let! (content, s) := read s path in
      let! manifest := io_lift (from_slice content) in
      let! _ := io_lift (manifest_validate manifest) in
      if negb (bool_decide (manifest_id manifest = digest)) then io_fail (InvalidManifest "manifest filename differs from its content identity")
      else io_ret (manifest, s)
    | _ => io_fail (InvalidManifest "manifest is not a regular non-symlink file")
    end.

(** lsm/manifest.rs:613-644 ManifestStore::current_using *)
Definition current_using {S} (read : S → Path → io Error (list byte * S)) (s : S) : io Error (option (CurrentPointer * Manifest) * S) :=
  let! entry := attempt (metadata CURRENT_FILE) in
  match entry with
  | Ok (RegularFile _) =>
    let! (content, s) := read s CURRENT_FILE in
    let! pointer := io_lift (from_slice content) in
    let! _ := io_lift (pointer_validate pointer) in
    let! (manifest, s) := load_using read s (pointer_manifest pointer) in
    if negb (generation (Manifest.content manifest) =? pointer_generation pointer)
    then io_fail (InvalidManifest "CURRENT generation differs from its manifest")
    else io_ret (Some (pointer, manifest), s)
  | Ok _ => io_fail (InvalidManifest "CURRENT is not a regular non-symlink file")
  | Err NotFound => io_ret (None, s)
  | Err e => io_fail (IoContext "validating CURRENT" (diagnostic_path self CURRENT_FILE) (io_text e))
  end.

Definition read_plain (s : unit) (p : Path) : io Error (list byte * unit) := let! content := question (read p) in io_ret (content, s).
(** lsm/manifest.rs:602-604 ManifestStore::current *)
Definition current : io Error (option (CurrentPointer * Manifest)) := let! (r, _) := current_using read_plain tt in io_ret r.
(** lsm/manifest.rs:646-648 ManifestStore::load *)
Definition load (digest : string) : io Error Manifest := let! (m, _) := load_using read_plain tt digest in io_ret m.

(** lsm/recovery_budget.rs:148-182 RecoveryBudget::metadata *)
Definition read_recovery (elapsed : nat → Z) (budget : RecoveryBudget) (p : Path) : io Error (list byte * RecoveryBudget) :=
  match tick elapsed budget with
  | Err e => io_fail e
  | Ok _ =>
    let! entry := question (metadata p) in
    let! content := match entry with RegularFile _ => question (read p) | _ => io_ret [] end in
    io_lift (charge_metadata elapsed budget (match entry with RegularFile _ => true | _ => false end) (len content) content)
  end.
(** lsm/manifest.rs:606-611 ManifestStore::current_bounded *)
Definition current_bounded (elapsed : nat → Z) (budget : RecoveryBudget) : io Error (option (CurrentPointer * Manifest) * RecoveryBudget) :=
  current_using (read_recovery elapsed) budget.

(** lsm/manifest.rs:954-962 persist_rename *)
Definition persist_rename (temporary target : Path) (content : list byte) : io Error unit :=
  let! _ := admit_disk (recovery_reserve self) (len content) true in
  question (persist_rename_file temporary target content).

(** lsm/manifest.rs:892-927 ManifestStore::persist_manifest *)
Definition persist_manifest (manifest : Manifest) : io Error unit :=
  let path := manifest_path (manifest_id manifest) in
  let content := to_vec manifest in
  let! entry := attempt (metadata path) in
  match entry with
  | Ok (RegularFile _) =>
    let! existing := question (read path) in
    if negb (bool_decide (existing = content)) then io_fail (InvalidManifest "existing manifest identity has different bytes")
    else question (sync_directory Manifests)
  | Ok _ => io_fail (InvalidManifest "existing manifest is not a regular non-symlink file")
  | Err NotFound =>
    let! temporary := temporary_name self (manifest_id manifest) in
    persist_rename (Manifests, temporary) path content
  | Err e => io_fail (IoContext "validating manifest destination" (diagnostic_path self path) (io_text e))
  end.

(** lsm/manifest.rs:929-937 ManifestStore::publish_pointer *)
Definition publish_pointer (pointer : CurrentPointer) : io Error unit :=
  let! temporary := temporary_name self "CURRENT" in
  persist_rename (Root, temporary) CURRENT_FILE (to_vec pointer).

(** lsm/manifest.rs:704-714 ManifestStore::publish, whether a manifest extends the current one *)
Definition extends (current : option (CurrentPointer * Manifest)) (manifest : Manifest) : bool :=
  let fields := Manifest.content manifest in
  match current with
  | None => ((generation fields =? 1) && bool_decide (manifest_parent fields = None))%bool
  | Some (pointer, _) => ((generation fields =? pointer_generation pointer + 1) && bool_decide (manifest_parent fields = Some (pointer_manifest pointer)))%bool
  end.

(** lsm/manifest.rs:691-719 ManifestStore::publish *)
Definition publish (manifest : Manifest) (expected : option string) : io Error CurrentPointer :=
  let! _ := ensure_publication_ready in
  let! _ := io_lift (manifest_validate manifest) in
  let! current := current in
  let actual := match current with Some (pointer, _) => Some (pointer_manifest pointer) | None => None end in
  if negb (bool_decide (actual = expected)) then io_fail (ManifestConflict expected actual)
  else if negb (extends current manifest) then io_fail (InvalidManifest "manifest generation/parent does not extend CURRENT")
  else
    let! _ := publication_result (persist_manifest manifest) in
    let pointer := pointer_new manifest in
    let! _ := publication_result (publish_pointer pointer) in
    io_ret pointer.

(** * Checkpoints *)

Section Checkpoints.
Context (elapsed : nat → Z).

(** lsm/reclamation.rs:125-159 ReclamationBudget::read_metadata *)
Definition read_metadata (budget : ReclamationBudget) (p : Path) : io Error (list byte * ReclamationBudget) :=
  match reclamation_tick elapsed budget with
  | Err e => io_fail e
  | Ok _ =>
    let! entry := question (metadata p) in
    let! content := match entry with RegularFile _ => question (read p) | _ => io_ret [] end in
    io_lift (read_reclamation_metadata elapsed budget (match entry with RegularFile _ => true | _ => false end) (len content) content)
  end.
(** lsm/manifest.rs:650-656 ManifestStore::load_bounded *)
Definition load_bounded (budget : ReclamationBudget) (digest : string) : io Error (Manifest * ReclamationBudget) := load_using read_metadata budget digest.

(** lsm/manifest.rs:739-756 ManifestStore::checkpoint_entry_count *)
Definition checkpoint_entry_count (budget : ReclamationBudget) : io Error (Z * ReclamationBudget) :=
  let! names := question (entries Filesystem.Checkpoints) in
  io_lift (try_fold (λ st (_ : string),
    let '(count, budget) := st in
    let? budget := charge_entry elapsed budget in
    if checkpoint_entries self <? count + 1 then Err (CheckpointLimit (checkpoint_entries self) (count + 1)) else Ok (count + 1, budget)) (0, budget) names).

(** lsm/manifest.rs:758-768 ManifestStore::checkpoint_ownership *)
Definition checkpoint_ownership : io Error (Z * Z) :=
  let! (count, _) := checkpoint_entry_count (ReclamationBudget_new (checkpoint_budget self)) in io_ret (count, checkpoint_entries self).

(** lsm/manifest.rs:770-812 ManifestStore::checkpoint *)
Definition checkpoint (name manifest_digest : string) (created_at : Z) : io Error Checkpoint :=
  let! _ := ensure_publication_ready in
  let! (manifest, budget) := load_bounded (ReclamationBudget_new (checkpoint_budget self)) manifest_digest in
  let! checkpoint := io_lift (checkpoint_new name manifest created_at) in
  let path := checkpoint_path name in
  let content := to_vec checkpoint in
  let! exists_ := question (try_exists path) in
  if exists_ : bool then
    let! (found, _) := read_metadata budget path in
    let! existing := io_lift (from_slice found) in
    let! _ := io_lift (checkpoint_validate existing) in
    if bool_decide (existing = checkpoint) then
      let! _ := publication_result (question (sync_directory Checkpoints)) in
      io_ret existing
    else io_fail (InvalidManifest ("checkpoint " +:+ name +:+ " already pins another manifest or instant"))
  else
    let! (count, _) := checkpoint_entry_count budget in
    if checkpoint_entries self <=? count then io_fail (CheckpointLimit (checkpoint_entries self) (count + 1))
    else
      let! temporary := temporary_name self name in
      let! _ := publication_result (persist_rename (Checkpoints, temporary) path content) in
      io_ret checkpoint.

(** lsm/manifest.rs:848-868 ManifestStore::checkpoints_inner, one entry *)
Definition checkpoint_at (st : list Checkpoint * ReclamationBudget) (name : string) : io Error (list Checkpoint * ReclamationBudget) :=
  let '(checkpoints, budget) := st in
  if negb (has_extension "json" name) then io_ret st
  else
    let! (content, budget) := read_metadata budget (Filesystem.Checkpoints, name) in
    let! checkpoint := io_lift (from_slice content) in
    let! _ := io_lift (checkpoint_validate checkpoint) in
    let! (manifest, budget) := load_bounded budget (checkpoint_manifest checkpoint) in
    if negb (generation (Manifest.content manifest) =? checkpoint_generation checkpoint)
    then io_fail (InvalidManifest ("checkpoint " +:+ checkpoint_name checkpoint +:+ " generation differs from its manifest"))
    else io_ret (checkpoints ++ [checkpoint], budget).
Fixpoint io_fold {A S} (f : S → A → io Error S) (s : S) (l : list A) : io Error S :=
  match l with [] => io_ret s | x :: l => let! s := f s x in io_fold f s l end.

(** lsm/manifest.rs:826-871 ManifestStore::checkpoints_inner *)
Definition checkpoints_inner (budget : ReclamationBudget) : io Error (list Checkpoint * ReclamationBudget) :=
  let! names := question (entries Filesystem.Checkpoints) in
  let! (entries, budget) := io_lift (try_fold (λ st name,
    let '(entries, budget) := st in
    let? budget := charge_entry elapsed budget in
    if checkpoint_entries self <=? len entries then Err (CheckpointLimit (checkpoint_entries self) (len entries + 1)) else Ok (entries ++ [name], budget))
    ([], budget) names) in
  let! (checkpoints, budget) := io_fold checkpoint_at ([], budget) (sort_by cmp entries) in
  io_ret (sort_by (λ l r, cmp (checkpoint_name l) (checkpoint_name r)) checkpoints, budget).
(** lsm/manifest.rs:814-817 ManifestStore::checkpoints *)
Definition checkpoints : io Error (list Checkpoint) :=
  let! (found, _) := checkpoints_inner (ReclamationBudget_new (checkpoint_budget self)) in io_ret found.

(** lsm/manifest.rs:819-824 ManifestStore::checkpoints_bounded *)
Definition checkpoints_bounded (budget : ReclamationBudget) : io Error (list Checkpoint * ReclamationBudget) := checkpoints_inner budget.

(** lsm/manifest.rs:873-890 ManifestStore::release_checkpoint *)
Definition release_checkpoint (name : string) : io Error bool :=
  let! _ := ensure_publication_ready in
  let! _ := io_lift (validate_checkpoint_name name) in
  let! r := attempt (remove_file (checkpoint_path name)) in
  match r with
  | Ok _ => let! _ := publication_result (question (sync_directory Filesystem.Checkpoints)) in io_ret true
  | Err NotFound => io_ret false
  | Err e => publication_result (io_fail (Io (io_text e)))
  end.
End Checkpoints.
End Store.

(** * The specification: the chain of selected manifests *)

Lemma str_bytes_append a b : str_bytes (a +:+ b) = str_bytes a ++ str_bytes b.
Proof. induction a as [|c a IH]; [done|]. change (str_bytes (String c a +:+ b)) with (Ascii.byte_of_ascii c :: str_bytes (a +:+ b)). by rewrite IH. Qed.
Lemma append_append (a b c : string) : (a +:+ b) +:+ c = a +:+ (b +:+ c).
Proof. apply str_bytes_inj. by rewrite !str_bytes_append, app_assoc. Qed.
Lemma json_not_temporary name : is_temporary (name +:+ ".json") = false.
Proof.
  unfold is_temporary. apply bool_decide_eq_false_2. rewrite str_bytes_append. intros [k E]. apply (f_equal last) in E.
  change (str_bytes ".json") with (str_bytes ".jso" ++ [x6e]) in E. change (str_bytes ".tmp") with (str_bytes ".tm" ++ [x70]) in E. rewrite !app_assoc, !last_snoc in E. done.
Qed.
Lemma temporary_suffix name : is_temporary (name +:+ ".tmp") = true.
Proof. unfold is_temporary. apply bool_decide_eq_true_2. rewrite str_bytes_append. by exists (str_bytes name). Qed.
#[export] Hint Resolve json_not_temporary temporary_suffix : fs.

(** ** Code that only looks *)

Definition looks {E A} (m : io E A) : Prop := ∀ w, disk (m w).1 = disk w ∧ publication_uncertain (m w).1 = publication_uncertain w.
Lemma looks_ret {E A} (x : A) : looks (E := E) (io_ret x).
Proof. by intros w. Qed.
Lemma looks_fail {E A} (e : E) : looks (A := A) (io_fail e).
Proof. by intros w. Qed.
Lemma looks_lift {E A} (r : result E A) : looks (io_lift r).
Proof. by intros w. Qed.
Lemma looks_bind {E A B} (m : io E A) (k : A → io E B) : looks m → (∀ x, looks (k x)) → looks (io_bind m k).
Proof.
  intros Hm Hk w. unfold io_bind. destruct (Hm w) as [Hd Hu]. destruct (m w) as [w' [[x|e]|]]; cbn [fst] in *; [|done|done].
  destruct (Hk x w') as [Hd' Hu']. split; congruence.
Qed.
Lemma looks_attempt {E F A} (m : io E A) : looks m → looks (attempt (F := F) m).
Proof. intros Hm w. unfold attempt. specialize (Hm w). by destruct (m w) as [w' [r|]]. Qed.
Lemma looks_map_err {E F A} (f : E → F) (m : io E A) : looks m → looks (map_err f m).
Proof. intros Hm. apply looks_bind; [by apply looks_attempt|]. intros [x|e]; [apply looks_ret|apply looks_fail]. Qed.
Lemma looks_observe {A} (f : Disk → result IoError A) : looks (observe f).
Proof. intros w. unfold observe. by destruct (replies w) as [|[] r]. Qed.
#[export] Hint Resolve looks_ret looks_fail looks_lift looks_bind looks_attempt looks_map_err looks_observe : fs.
Lemma looks_if {E A} (c : bool) (m k : io E A) : looks m → looks k → looks (if c then m else k).
Proof. by destruct c. Qed.
#[export] Hint Resolve looks_if : fs.

Lemma bind_ok {E A B} (m : io E A) (k : A → io E B) w w' x :
  io_bind m k w = (w', Some (Ok x)) → ∃ y w1, m w = (w1, Some (Ok y)) ∧ k y w1 = (w', Some (Ok x)).
Proof. unfold io_bind. destruct (m w) as [w1 [[y|e]|]]; [|done|done]. intros E'. by exists y, w1. Qed.
Lemma question_ok {A} (m : io IoError A) w w' x : question m w = (w', Some (Ok x)) → m w = (w', Some (Ok x)).
Proof. unfold question, map_err, io_bind, attempt. destruct (m w) as [w1 [[y|e]|]]; [|done|done]. by intros [= <- <-]. Qed.
Lemma context_ok {A} operation path (m : io IoError A) w w' x : context operation path m w = (w', Some (Ok x)) → m w = (w', Some (Ok x)).
Proof. unfold context, map_err, io_bind, attempt. destruct (m w) as [w1 [[y|e]|]]; [|done|done]. by intros [= <- <-]. Qed.
Lemma lift_ok {E A} (r : result E A) w w' x : io_lift r w = (w', Some (Ok x)) → r = Ok x ∧ w' = w.
Proof. by intros [= <- ->]. Qed.
Lemma observe_ok {A} (f : Disk → result IoError A) w w' x : observe f w = (w', Some (Ok x)) → f (disk w) = Ok x ∧ disk w' = disk w.
Proof. unfold observe. by destruct (replies w) as [|[] r]; intros [= <- ?]. Qed.

Section Facts.
Context `{Sha2Laws} `{Serde Content} `{SerdeLaws Manifest} `{SerdeLaws CurrentPointer} `{Serde Checkpoint} `{!SerdeLaws Checkpoint}.

Definition pointer_entry (m : Manifest) : option Entry := Some (file_of (to_vec (pointer_new m))).
Definition manifest_entry (m : Manifest) : option Entry := Some (file_of (to_vec m)).
(** What [CURRENT] holds when [m] is selected, or nothing is. *)
Definition selects (m : option Manifest) : option Entry := m ≫= pointer_entry.

(** A manifest follows the one before it, or is the first. *)
Definition follows (previous : option Manifest) (m : Manifest) : Prop :=
  let fields := Manifest.content m in
  match previous with
  | None => generation fields = 1 ∧ manifest_parent fields = None
  | Some p => generation fields = generation (Manifest.content p) + 1 ∧ manifest_parent fields = Some (manifest_id p)
  end.
Inductive linked : list Manifest → Prop :=
| linked_nil : linked []
| linked_snoc chain m : linked chain → follows (last chain) m → linked (chain ++ [m]).

(** The disk stands for a chain and the publication that may be under way: every state a power
    loss can leave selects the newest manifest of the chain or the pending one, both are whole
    on disk, and so are the pinned checkpoints and the manifests they name. *)
Record stands (chain : list Manifest) (pending : option Manifest) (pinned : list (string * Checkpoint)) (d : Disk) : Prop := {
  stands_current : ∀ e, may_hold d CURRENT_FILE e → e = selects (last chain) ∨ is_Some pending ∧ e = selects pending;
  stands_valid : ∀ m, m ∈ chain ∨ pending = Some m → manifest_validate m = Ok tt;
  stands_manifests : ∀ m, last chain = Some m ∨ pending = Some m → only (manifest_path (manifest_id m)) (manifest_entry m) d;
  stands_durable : ∀ p f, is_temporary p.2 = false → p.1 = Manifests ∨ p.1 = Checkpoints → may_hold d p (Some (RegularFile f)) → durable f = true;
  stands_links : linked chain;
  stands_pending : ∀ m, pending = Some m → follows (last chain) m;
  stands_pinned : ∀ name c, (name, c) ∈ pinned → ∀ e, may_hold d (checkpoint_path name) e → ∃ content, e = Some (file_of content) ∧ from_slice content = Ok c;
  stands_named : ∀ name c, (name, c) ∈ pinned → name ≠ "" ∧ ∃ m, m ∈ chain ∧ manifest_id m = checkpoint_manifest c
    ∧ generation (Manifest.content m) = checkpoint_generation c ∧ only (manifest_path (manifest_id m)) (manifest_entry m) d;
  stands_names : only MANIFEST_DIRECTORY (Some SubDirectory) d ∧ only CHECKPOINT_DIRECTORY (Some SubDirectory) d
    ∧ ∀ e, may_hold d MANIFEST_LOCK_FILE e → ∃ f, e = Some (RegularFile f)
}.

(** The names this rests on. *)
Definition relied (chain : list Manifest) (pending : option Manifest) (pinned : list (string * Checkpoint)) (p : Path) : Prop :=
  p.1 = Root ∨ (∃ m, (last chain = Some m ∨ pending = Some m) ∧ p = manifest_path (manifest_id m))
  ∨ ∃ name c, (name, c) ∈ pinned ∧ (p = checkpoint_path name ∨ p = manifest_path (checkpoint_manifest c)).

(** A disk that can hold nothing new under them stands as before. *)
Lemma stands_frame chain pending pinned d0 d :
  stands chain pending pinned d0 →
  (∀ p e, is_temporary p.2 = false → relied chain pending pinned p → may_hold d p e → may_hold d0 p e) →
  (∀ p f, is_temporary p.2 = false → p.1 = Manifests ∨ p.1 = Checkpoints → may_hold d p (Some (RegularFile f)) → durable f = true) →
  stands chain pending pinned d.
Proof.
  intros [Hc Hv Hm Hd Hl Hp Hpin Hpins (N1 & N2 & N3)] Hr Hdur.
  assert (∀ p e, is_temporary p.2 = false → p.1 = Root → may_hold d p e → may_hold d0 p e) as Hroot by (intros p e Ht Hp'; apply Hr; [done|by left]).
  constructor; [|done| |done|done|done| | |].
  - intros e He. by apply Hc, Hroot.
  - intros m Hin e He. apply (Hm m Hin), Hr; [apply json_not_temporary| |done]. right; left. by exists m.
  - intros name c Hin e He. apply (Hpin name c Hin), Hr; [apply json_not_temporary| |done]. right; right. exists name, c. by split; [|left].
  - intros name c Hin. destruct (Hpins name c Hin) as (Hne & m & Hm' & Eid & Eg & Ho). split; [done|]. exists m. split_and!; [done..|].
    intros e He. apply Ho, Hr; [apply json_not_temporary| |done]. right; right. exists name, c. split; [done|right]. by rewrite Eid.
  - split_and!; intros e He; [by apply N1, Hroot|by apply N2, Hroot|by apply N3, Hroot].
Qed.

(** A name that may be absent is not relied on. *)
Lemma relied_present chain pending pinned d p : stands chain pending pinned d → relied chain pending pinned p → p.1 ≠ Root → may_hold d p None → False.
Proof.
  intros Hs [?|[(m & Hm & ->)|(name & c & Hin & [->| ->])]] Hroot Hnone; [done|..].
  - by apply (stands_manifests _ _ _ _ Hs m Hm) in Hnone.
  - by destruct (stands_pinned _ _ _ _ Hs name c Hin None Hnone) as (? & ? & _).
  - destruct (stands_named _ _ _ _ Hs name c Hin) as (_ & m & _ & Eid & _ & Ho). rewrite <-Eid in Hnone. by apply Ho in Hnone.
Qed.

(** Only what the disk could hold already, or new names, may come to be held. *)
Lemma stands_grows chain pending pinned target content d0 d :
  stands chain pending pinned d0 → grows target (file_of content) d0 d → may_hold d0 target None → target.1 ≠ Root →
  stands chain pending pinned d.
Proof.
  intros Hs Hg Hnone Hroot. eapply stands_frame; [exact Hs| |].
  - intros p e Ht Hp He. destruct (Hg p e Ht He) as [?|[-> _]]; [done|]. by destruct (relied_present _ _ _ _ _ Hs Hp Hroot Hnone).
  - intros p f Ht Hdir Hf. destruct (Hg p _ Ht Hf) as [?|[-> [= ->]]]; [by eapply stands_durable|done].
Qed.

(** Fewer outcomes of a power loss leave the disk standing. *)
Lemma stands_shrinks chain pending pinned d0 d :
  stands chain pending pinned d0 → (∀ p e, is_temporary p.2 = false → may_hold d p e → may_hold d0 p e) → stands chain pending pinned d.
Proof.
  intros Hs Hd. eapply stands_frame; [exact Hs|auto|]. intros p f Ht Hdir Hf. by eapply stands_durable, Hd.
Qed.
Lemma stands_sync chain pending pinned directory d : stands chain pending pinned d → stands chain pending pinned (sync_entries directory d).
Proof. intros Hs. eapply stands_shrinks; [done|]. by intros p e _ [? _]%may_hold_sync. Qed.

(** A pointer under way. *)
Lemma stands_begins chain pinned m d0 d :
  stands chain None pinned d0 → grows CURRENT_FILE (file_of (to_vec (pointer_new m))) d0 d →
  manifest_validate m = Ok tt → only (manifest_path (manifest_id m)) (manifest_entry m) d0 → follows (last chain) m →
  stands chain (Some m) pinned d.
Proof.
  intros [Hc Hv' Hm Hd Hl Hp Hpin Hpins (N1 & N2 & N3)] Hg Hv Hmo Hf.
  assert (∀ p e, is_temporary p.2 = false → p ≠ CURRENT_FILE → may_hold d p e → may_hold d0 p e) as Hr by (intros p e Ht Hne He; by destruct (Hg p e Ht He) as [?|[? _]]).
  constructor; [| | | |done|by intros ? [= <-]| | |].
  - intros e He. destruct (Hg CURRENT_FILE _ eq_refl He) as [Hold|[_ ->]]; [|right; split; [by eexists|done]]. left. by destruct (Hc e Hold) as [?|[[? ?] _]].
  - intros m' [Hin|[= <-]]; [apply Hv'; by left|done].
  - intros m' [Hin|[= <-]] e He; [apply (Hm m' (or_introl Hin)), Hr|apply Hmo, Hr]; [apply json_not_temporary|done|done|apply json_not_temporary|done|done].
  - intros p f Ht Hdir Hf'. eapply Hd, Hr; [done|done|done|by intros ->; destruct Hdir|done].
  - intros name c Hin e He. eapply Hpin, Hr; [done|apply json_not_temporary|done|done].
  - intros name c Hin. destruct (Hpins name c Hin) as (Hne & m' & Hm' & Eid & Eg & Ho). split; [done|]. exists m'. split_and!; [done..|].
    intros e He. apply Ho, Hr; [apply json_not_temporary|done|done].
  - split_and!; intros e He; [by apply N1, Hr|by apply N2, Hr|by apply N3, Hr].
Qed.

(** The pointer is settled: the manifest is the newest of the chain, or never was. *)
Lemma stands_selected chain pinned m d : stands chain (Some m) pinned d → only CURRENT_FILE (pointer_entry m) d → stands (chain ++ [m]) None pinned d.
Proof.
  intros [Hc Hv Hm Hd Hl Hp Hpin Hpins HN] Ho. constructor; [| | |done|constructor; auto|done|done| |done].
  - intros e He. left. rewrite last_snoc. by apply Ho.
  - intros m' [[Hin| ->%list_elem_of_singleton]%elem_of_app|[=]]; apply Hv; [by left|by right].
  - intros m' [Hin|[=]]. rewrite last_snoc in Hin. injection Hin as ->. apply Hm. by right.
  - intros name c Hin. destruct (Hpins name c Hin) as (Hne & m' & Hm' & HX). split; [done|]. exists m'. split; [set_solver|done].
Qed.
Lemma stands_forgotten chain pending pinned d : stands chain pending pinned d → only CURRENT_FILE (selects (last chain)) d → stands chain None pinned d.
Proof.
  intros [Hc Hv Hm Hd Hl Hp Hpin Hpins HN] Ho. constructor; [|intros m [?|[=]]; apply Hv; by left|intros m [?|[=]]; apply Hm; by left|done..].
  intros e He. left. by apply Ho.
Qed.
(** Opening settles which. *)
Lemma stands_settles chain pending pinned d :
  stands chain pending pinned d → only CURRENT_FILE (live d !! CURRENT_FILE) d →
  ∃ chain', (chain' = chain ∨ ∃ m, pending = Some m ∧ chain' = chain ++ [m]) ∧ stands chain' None pinned d.
Proof.
  intros Hs Ho. destruct (stands_current _ _ _ _ Hs _ (may_hold_live d CURRENT_FILE)) as [E|[[m ->] E]].
  - exists chain. split; [by left|]. eapply stands_forgotten; [done|]. by rewrite <-E.
  - exists (chain ++ [m]). split; [right; by exists m|]. apply stands_selected; [done|]. by rewrite E in Ho.
Qed.

(** A power loss leaves the disk standing. *)
Lemma stands_survives chain pending pinned d d' : stands chain pending pinned d → survives d d' → stands chain pending pinned d'.
Proof.
  intros [Hc Hv Hm Hd Hl Hp Hpin Hpins (N1 & N2 & N3)] [Hst Hs].
  assert (∀ p e, may_hold d' p e → ∃ e0, may_hold d p e0 ∧ weathered e0 e) as Hback.
  { intros p e [<-|Hin]; [apply Hs|]. rewrite Hst in Hin. by apply not_elem_of_nil in Hin. }
  assert (∀ p x, only p (Some x) d → (x = SubDirectory ∨ ∃ c, x = file_of c) → only p (Some x) d') as Honly.
  { intros p x Ho Hx e (e0 & ->%Ho & Hw)%Hback. destruct Hx as [->|[c ->]]; [done|by apply weathered_file]. }
  constructor; [|done| | |done|done| | |].
  - intros e (e0 & He & Hw)%Hback. destruct (Hc e0 He) as [->|[Hsome ->]].
    + left. destruct (last chain); [by apply weathered_file|done].
    + right. split; [done|]. destruct Hsome as [m ->]. by apply weathered_file.
  - intros m Hin. apply Honly; [by apply Hm|right; by eexists].
  - intros p f Ht Hdir (e0 & He & Hw)%Hback. destruct e0 as [[f0| |]|]; [|done..]. destruct Hw as (f1 & [= ->] & ? & _). done.
  - intros name c Hin e (e0 & He & Hw)%Hback. destruct (Hpin name c Hin e0 He) as (content & -> & Hf). exists content. split; [by apply weathered_file|done].
  - intros name c Hin. destruct (Hpins name c Hin) as (Hne & m' & Hm' & Eid & Eg & Ho). split; [done|]. exists m'. split_and!; [done..|]. apply Honly; [done|right; by eexists].
  - split_and!; [apply Honly; [done|by left]|apply Honly; [done|by left]|]. intros e (e0 & He & Hw)%Hback. destruct (N3 e0 He) as [f ->]. destruct Hw as (f' & -> & _). by exists f'.
Qed.

(** ** Reading the control records *)

Lemma is_sha256_hex x : is_sha256 (sha256_hex x) = true.
Proof.
  unfold is_sha256. apply andb_true_iff. split.
  - apply Z.eqb_eq. unfold sha256_hex. fold (str_len (hex (sha256 x))). rewrite str_len_hex. unfold len. by rewrite length_sha256.
  - unfold sha256_hex, hex. rewrite str_bytes_str. generalize (sha256 x). intros l. induction l as [|b l IH]; [done|]. cbn [flat_map hex_byte app forallb].
    rewrite IH. by destruct b.
Qed.
Lemma valid_generation m : manifest_validate m = Ok tt → generation (Manifest.content m) ≠ 0.
Proof.
  unfold manifest_validate. intros E. destruct (negb _); [done|]. destruct (bool_decide _); [done|]. destruct (validate_components _) as [[]|] eqn:Ev; [|done].
  unfold validate_components in Ev. by destruct (Z.eqb_spec (generation (Manifest.content m)) 0).
Qed.
Lemma valid_sha256 m : manifest_validate m = Ok tt → is_sha256 (manifest_id m) = true.
Proof. intros ->%manifest_valid_id. apply is_sha256_hex. Qed.
Lemma pointer_new_valid m : manifest_validate m = Ok tt → pointer_validate (pointer_new m) = Ok tt.
Proof.
  intros Hv. unfold pointer_validate, pointer_new. cbn [pointer_format_version pointer_generation pointer_manifest pointer_checksum]. rewrite Z.eqb_refl. cbn [negb].
  rewrite (proj2 (Z.eqb_neq _ _)) by (by apply valid_generation). rewrite valid_sha256 by done. unfold pointer_expected_checksum at 1. rewrite is_sha256_hex. cbn [negb orb].
  by rewrite bool_decide_eq_true_2.
Qed.

Section Reading.
Context (store : ManifestStore) (b : Mode) (d0 : Disk).
Abbreviation fixed := (λ d, d = d0).
Abbreviation troubled := (λ d, d = d0 ∧ calm b = false).

Lemma metadata_triple p :
  triple (knows b fixed) (metadata p) (λ e, knows b (λ d, d = d0 ∧ live d0 !! p = Some e))
    (λ e, knows b (λ d, d = d0 ∧ (e = NotFound ∧ live d0 !! p = None ∨ (calm b = false ∨ live d0 !! p = Some Irregular) ∧ ∃ reason, e = OtherIo reason))) (knows b troubled).
Proof.
  eapply triple_mono; [apply (observe_triple b fixed)|done|..]; intros *; apply knows_mono; intros d [-> Hd]; [| |done].
  - split; [done|]. by destruct (live d0 !! p) as [[]|]; simplify_eq/=.
  - split; [done|]. destruct Hd as [Hd|[? ?]]; [|right; by split; [left|]]. destruct (live d0 !! p) as [[]|]; simplify_eq/=; eauto.
Qed.
Lemma read_triple p f :
  live d0 !! p = Some (RegularFile f) →
  triple (knows b fixed) (question (read p)) (λ l, knows b (λ d, d = d0 ∧ l = bytes f)) (λ _, knows b troubled) (knows b troubled).
Proof.
  intros Hp. apply triple_map_err. eapply triple_mono; [apply (observe_triple b fixed)|done|..]; intros *; apply knows_mono; intros d [-> Hd]; [| |done].
  - rewrite Hp in Hd. by simplify_eq.
  - rewrite Hp in Hd. destruct Hd as [?|[? _]]; done.
Qed.
(** Looking at a name whose entry is known. *)
Lemma context_triple operation path p e :
  live d0 !! p = Some e → e ≠ Irregular →
  triple (knows b fixed) (context operation path (metadata p)) (λ x, knows b (λ d, d = d0 ∧ x = e)) (λ _, knows b troubled) (knows b troubled).
Proof.
  intros Hp He. apply triple_map_err. eapply triple_mono; [apply metadata_triple|done|..]; intros *; apply knows_mono; [intros d [-> ?]; split; [done|congruence]| |done].
  intros d [-> [[_ ?]|[[?|?] _]]]; [congruence|done|congruence].
Qed.
Lemma lift_triple {A} (r : result Error A) x : r = Ok x → triple (knows b fixed) (io_lift r) (λ y, knows b (λ d, d = d0 ∧ y = x)) (λ _, knows b troubled) (knows b troubled).
Proof. intros ->. apply triple_lift. intros w. apply knows_mono. by intros d ->. Qed.
(** A step whose result is known. *)
Lemma known_bind {A B} (m : io Error A) (k : A → io Error B) x Q :
  triple (knows b fixed) m (λ y, knows b (λ d, d = d0 ∧ y = x)) (λ _, knows b troubled) (knows b troubled) →
  triple (knows b fixed) (k x) Q (λ _, knows b troubled) (knows b troubled) →
  triple (knows b fixed) (io_bind m k) Q (λ _, knows b troubled) (knows b troubled).
Proof.
  intros Hm Hk. eapply triple_bind; [exact Hm|]. intros y w [[Hd ->] Hb]. by apply Hk.
Qed.
Lemma known_ret {A} (x : A) : triple (E := Error) (knows b fixed) (io_ret x) (λ y, knows b (λ d, d = d0 ∧ y = x)) (λ _, knows b troubled) (knows b troubled).
Proof. apply triple_ret. intros w. apply knows_mono. by intros d ->. Qed.
Lemma read_plain_triple p f :
  live d0 !! p = Some (RegularFile f) →
  triple (knows b fixed) (read_plain tt p) (λ r, knows b (λ d, d = d0 ∧ r = (bytes f, tt))) (λ _, knows b troubled) (knows b troubled).
Proof. intros Hp. unfold read_plain. eapply known_bind; [by apply read_triple|]. apply known_ret. Qed.

Lemma load_triple {S} (read : S → Path → io Error (list byte * S)) (s s' : S) m :
  manifest_validate m = Ok tt → live d0 !! manifest_path (manifest_id m) = manifest_entry m →
  triple (knows b fixed) (read s (manifest_path (manifest_id m))) (λ r, knows b (λ d, d = d0 ∧ r = (to_vec m, s'))) (λ _, knows b troubled) (knows b troubled) →
  triple (knows b fixed) (load_using store read s (manifest_id m)) (λ r, knows b (λ d, d = d0 ∧ r = (m, s'))) (λ _, knows b troubled) (knows b troubled).
Proof.
  intros Hv Hl Hread. unfold load_using. rewrite valid_sha256 by done. cbn [negb]. eapply known_bind; [by eapply context_triple|]. cbn [file_of].
  eapply known_bind; [exact Hread|]. cbn beta iota. eapply known_bind; [apply lift_triple, serde_round_trip|]. eapply known_bind; [by apply lift_triple|].
  rewrite bool_decide_eq_true_2 by done. apply known_ret.
Qed.

(** [current] answers the manifest that [CURRENT] selects. *)
Lemma current_triple chain pending pinned :
  stands chain pending pinned d0 → ∃ o, (o = last chain ∨ is_Some pending ∧ o = pending) ∧ live d0 !! CURRENT_FILE = selects o ∧
  triple (knows b fixed) (current store) (λ r, knows b (λ d, d = d0 ∧ r = (λ m, (pointer_new m, m)) <$> o)) (λ _, knows b troubled) (knows b troubled).
Proof.
  intros Hs. pose proof (stands_current _ _ _ _ Hs _ (may_hold_live d0 CURRENT_FILE)) as Hc.
  assert (∃ o, (o = last chain ∨ is_Some pending ∧ o = pending) ∧ live d0 !! CURRENT_FILE = selects o) as (o & Ho & Hl) by (destruct Hc as [?|[? ?]]; eexists; split; eauto).
  exists o. split; [done|]. split; [done|]. unfold current, current_using. destruct o as [m|].
  - assert (manifest_validate m = Ok tt ∧ live d0 !! manifest_path (manifest_id m) = manifest_entry m) as [Hv Hlm].
    { split; [|apply (stands_manifests _ _ _ _ Hs m); [|apply may_hold_live]; by destruct Ho as [E|[_ E]]; [left|right]].
      apply (stands_valid _ _ _ _ Hs). destruct Ho as [E|[_ E]]; [left|by right]. symmetry in E. by apply last_Some_elem_of in E. }
    eapply (known_bind _ _ (Some (pointer_new m, m), tt)); [|apply known_ret]. eapply (triple_bind _ _ _ (λ r, knows b (λ d, d = d0 ∧ (r = Ok (file_of (to_vec (pointer_new m))) ∨ calm b = false ∧ ∃ reason, r = Err (OtherIo reason))))).
    { apply triple_attempt. eapply triple_mono; [apply metadata_triple|done|..]; intros *; apply knows_mono; [| |done].
      - intros d [-> E]. split; [done|left]. rewrite Hl in E. cbn in E. by injection E as <-.
      - intros d [-> [[_ E]|[[?|E] [reason ->]]]]; [by rewrite Hl in E| |by rewrite Hl in E]. split; [done|right]. split; [done|]. by eexists. }
    intros r w [[Hd [->|[Hcalm [reason ->]]]] Hb]; [|by split]. revert w Hd Hb. unfold file_of.
    assert (triple (knows b fixed) (let! (content, s) := read_plain tt CURRENT_FILE in
      let! pointer := io_lift (from_slice content) in let! _ := io_lift (pointer_validate pointer) in
      let! (manifest, s) := load_using store read_plain s (pointer_manifest pointer) in
      if negb (generation (Manifest.content manifest) =? pointer_generation pointer)
      then io_fail (InvalidManifest "CURRENT generation differs from its manifest") else io_ret (Some (pointer, manifest), s))
      (λ y, knows b (λ d, d = d0 ∧ y = (Some (pointer_new m, m), tt))) (λ _, knows b troubled) (knows b troubled)) as Htail.
    { eapply known_bind; [apply (read_plain_triple _ {| bytes := to_vec (pointer_new m); durable := true |}); exact Hl|]. cbn [bytes].
      eapply known_bind; [apply lift_triple, serde_round_trip|]. eapply known_bind; [by apply lift_triple, pointer_new_valid|].
      eapply known_bind; [apply load_triple; [done|done|apply (read_plain_triple _ {| bytes := to_vec m; durable := true |}); exact Hlm]|].
      cbn [pointer_new pointer_generation]. rewrite Z.eqb_refl. apply known_ret. }
    intros w Hd Hb. by apply Htail.
  - eapply (known_bind _ _ (None, tt)); [|apply known_ret]. eapply (triple_bind _ _ _ (λ r, knows b (λ d, d = d0 ∧ (r = Err NotFound ∨ calm b = false ∧ ∃ reason, r = Err (OtherIo reason))))).
    { apply triple_attempt. eapply triple_mono; [apply metadata_triple|done|..]; intros *; apply knows_mono; [| |done].
      - intros d [-> E]. by rewrite Hl in E.
      - intros d [-> [[-> _]|[[?|E] [reason ->]]]]; [split; [done|by left]|split; [done|right; by eauto]|by rewrite Hl in E]. }
    intros r w [[Hd [->|[Hcalm [reason ->]]]] Hb]; by split.
Qed.
End Reading.

(** ** Publication *)

Definition is_admission (e : Error) : bool := match e with DiskAdmission _ _ _ => true | _ => false end.
(** A failed publication leaves the store uncertain, unless it was not admitted. *)
Definition failed (b : Mode) (e : Error) : Mode := if is_admission e then b else {| calm := calm b; uncertain := true |}.

Lemma publication_triple {A} b P (m : io Error A) (Q : A → Disk → Prop) (X : Error → Disk → Prop) D :
  triple (knows b P) m (λ x, knows b (Q x)) (λ e, knows b (X e)) (knows b D) →
  triple (knows b P) (publication_result m) (λ x, knows b (Q x)) (λ e, knows (failed b e) (X e)) (knows b D).
Proof.
  intros Hm. unfold publication_result. eapply (triple_bind _ _ _ (λ r, knows b (λ d, match r with Ok x => Q x d | Err e => X e d end))).
  - apply triple_attempt. exact Hm.
  - intros [x|e]; [by apply triple_ret|]. destruct e; try (by apply triple_fail); intros w (Hx & _ & Hc); by split.
Qed.

Lemma temporary_triple store b P stem :
  triple (knows b P) (temporary_name store stem) (λ name, knows b (λ d, P d ∧ is_temporary name = true)) (λ _, knows b P) (knows b P).
Proof.
  intros w (Hw & Hb). unfold temporary_name. split; [|done]. split; [done|].
  pose proof (temporary_suffix ("." +:+ stem +:+ "." +:+ temporary_nonce store +:+ "." +:+ pretty (temporary_id w))) as Ht.
  rewrite !append_append in Ht. exact Ht.
Qed.

(** No file is being prepared. *)
Definition tidy (d : Disk) : Prop := ∀ p, is_temporary p.2 = true → live d !! p = None.
(** A working device with room for any file, and no file being prepared. *)
Definition healthy (store : ManifestStore) (b : Mode) (d : Disk) : Prop := calm b = true ∧ recovery_reserve store = 0 ∧ tidy d.

(** The crate's publication of a file; what is not admitted changes nothing. *)
Lemma persist_triple store b temporary target content d0 :
  is_temporary temporary.2 = true → is_temporary target.2 = false →
  triple (knows b (λ d, d = d0)) (persist_rename store temporary target content)
    (λ _, knows b (λ d, grows target (file_of content) d0 d ∧ only target (Some (file_of content)) d ∧ (tidy d0 → tidy d)))
    (λ e, knows b (λ d, grows target (file_of content) d0 d ∧ (is_admission e = true → d = d0) ∧ ¬ healthy store b d0))
    (knows b (λ d, grows target (file_of content) d0 d ∧ ¬ healthy store b d0)).
Proof.
  intros Ht Hn. unfold persist_rename. eapply (triple_bind _ _ _ (λ _, knows b (λ d, d = d0))).
  - intros w (Hw & Hb). unfold admit_disk. destruct (admit_space _ _ _ _) eqn:Ea; (split; [|done]); cbn; [done|]. split_and!; [rewrite Hw; apply grows_refl|done|].
    intros (_ & Hr & _). unfold admit_space in Ea. by rewrite Hr in Ea.
  - intros _. apply triple_map_err. eapply triple_mono; [by apply persist_rename_triple|done|..]; intros *; apply knows_mono.
    + intros d (Hg & Ho & Hst & Hnone). split_and!; [done|done|]. intros Htidy p Hp. destruct (decide (p = temporary)) as [->|Hne]; [done|]. rewrite Hst by done. by apply Htidy.
    + intros d [Hg Hc]. split_and!; [done|done|]. intros (Hcalm & _ & Htidy). destruct (Hc Hcalm) as [f Hf]. by rewrite Htidy in Hf.
    + intros d [Hg Hc]. split; [done|]. intros (Hcalm & _). congruence.
Qed.

(** A manifest file that is in the way. *)
Definition obstructed (m : Manifest) (d : Disk) : Prop :=
  is_Some (live d !! manifest_path (manifest_id m)) ∧ live d !! manifest_path (manifest_id m) ≠ manifest_entry m.

Section PersistManifest.
Context (store : ManifestStore) (b : Mode) (chain : list Manifest) (pinned : list (string * Checkpoint)) (m : Manifest) (d0 : Disk).
Context (Hs : stands chain None pinned d0).
Abbreviation path := (manifest_path (manifest_id m)).
Abbreviation persisted := (λ d, stands chain None pinned d ∧ only path (manifest_entry m) d ∧ (tidy d0 → tidy d)).
Abbreviation refused := (λ d, stands chain None pinned d ∧ (healthy store b d0 → obstructed m d0)).

(** The manifest is there already. *)
Lemma persist_again_triple f :
  live d0 !! path = Some (RegularFile f) →
  triple (knows b (λ d, d = d0)) (let! existing := question (read path) in
    if negb (bool_decide (existing = to_vec m)) then io_fail (InvalidManifest "existing manifest identity has different bytes") else question (sync_directory Manifests))
    (λ _, knows b persisted) (λ _, knows b refused) (knows b refused).
Proof.
  intros Hl. assert (durable f = true) as Ed by (apply (stands_durable _ _ _ _ Hs path f); [apply json_not_temporary|by left|by left]).
  eapply (triple_bind _ _ _ (λ l, knows b (λ d, d = d0 ∧ l = bytes f))).
  { eapply triple_mono; [by apply read_triple|done|done|..]; intros *; apply knows_mono; intros d [-> Hc]; split; [done|intros (? & _); congruence|done|intros (? & _); congruence]. }
  intros l. destruct (decide (l = to_vec m)) as [->|Hne].
  - rewrite bool_decide_eq_true_2 by done. cbn [negb]. apply triple_map_err.
    eapply triple_mono; [apply (sync_triple b (λ d, stands chain None pinned d ∧ live d !! path = manifest_entry m ∧ (tidy d0 → tidy d)))|..]; intros *; try apply knows_mono.
    + intros (Hd & Hl' & Ht). split_and!; [by apply stands_sync|done|done].
    + intros d [-> Eb]. split_and!; [done| |done]. rewrite Hl. unfold manifest_entry, file_of. destruct f. cbn in *. by subst.
    + intros d [(Hd & Hl' & Ht) Ho]. split_and!; [done| |done]. rewrite <-Hl'. by apply Ho.
    + intros d [(Hd & _) Hc]. split; [done|]. intros (? & _). congruence.
    + intros d [(Hd & _) Hc]. split; [done|]. intros (? & _). congruence.
  - rewrite bool_decide_eq_false_2 by done. apply triple_fail. intros w. apply knows_mono. intros d [-> ->]. split; [done|]. intros _. split; [by rewrite Hl|].
    rewrite Hl. intros [= E]. apply Hne. by rewrite E.
Qed.

(** It is not. *)
Lemma persist_new_triple :
  live d0 !! path = None →
  triple (knows b (λ d, d = d0)) (let! temporary := temporary_name store (manifest_id m) in persist_rename store (Manifests, temporary) path (to_vec m))
    (λ _, knows b persisted) (λ _, knows b refused) (knows b refused).
Proof.
  intros Hl. eapply (triple_bind _ _ _ (λ name, knows b (λ d, d = d0 ∧ is_temporary name = true))).
  { intros w Hw. pose proof (temporary_triple store b (λ d, d = d0) (manifest_id m) w Hw) as Ht. unfold temporary_name in *. exact Ht. }
  intros name w [[Hd Ht] Hb]. assert (∀ d, grows path (file_of (to_vec m)) d0 d → stands chain None pinned d) as Hgrow.
  { intros d Hg. eapply stands_grows; [done|done|by left|done]. }
  pose proof (persist_triple store b (Manifests, name) path (to_vec m) d0 Ht (json_not_temporary _) w ltac:(by split)) as Hp.
  destruct (persist_rename _ _ _ _ w) as [w' [[x|e]|]]; revert Hp; apply knows_mono; intros d.
  - intros (Hg & Ho & Hti). split_and!; [by apply Hgrow|done|done].
  - intros (Hg & _ & Hh). split; [by apply Hgrow|done].
  - intros (Hg & Hh). split; [by apply Hgrow|done].
Qed.

Lemma persist_manifest_triple : triple (knows b (λ d, d = d0)) (persist_manifest store m) (λ _, knows b persisted) (λ _, knows b refused) (knows b refused).
Proof.
  unfold persist_manifest.
  eapply (triple_bind _ _ _ (λ r, knows b (λ d, d = d0 ∧ match r with Ok e => live d0 !! path = Some e | Err NotFound => live d0 !! path = None | Err _ => calm b = false ∨ live d0 !! path = Some Irregular end))).
  { apply triple_attempt. eapply triple_mono; [apply metadata_triple|done|..]; intros *; apply knows_mono; [done| |].
    - intros d [-> [[-> ?]|[? [reason ->]]]]; by split.
    - intros d [-> Hc]. split; [done|]. intros (? & _). congruence. }
  intros [[f| |]|[|reason]] w [[Hd Hl] Hb].
  - by apply (persist_again_triple f Hl).
  - split; [|done]. rewrite Hd. split; [done|]. intros _. split; [by rewrite Hl|by rewrite Hl].
  - split; [|done]. rewrite Hd. split; [done|]. intros _. split; [by rewrite Hl|by rewrite Hl].
  - by apply (persist_new_triple Hl).
  - split; [|done]. rewrite Hd. split; [done|]. intros (? & _). destruct Hl as [?|Hl]; [congruence|]. split; by rewrite Hl.
Qed.
End PersistManifest.

Lemma publish_pointer_triple store b chain pinned m d0 :
  stands chain None pinned d0 → manifest_validate m = Ok tt → only (manifest_path (manifest_id m)) (manifest_entry m) d0 → follows (last chain) m →
  triple (knows b (λ d, d = d0)) (publish_pointer store (pointer_new m))
    (λ _, knows b (stands (chain ++ [m]) None pinned))
    (λ e, knows b (λ d, stands chain (Some m) pinned d ∧ (is_admission e = true → stands chain None pinned d) ∧ ¬ healthy store b d0))
    (knows b (λ d, stands chain (Some m) pinned d ∧ ¬ healthy store b d0)).
Proof.
  intros Hs Hv Ho Hf. assert (∀ d, grows CURRENT_FILE (file_of (to_vec (pointer_new m))) d0 d → stands chain (Some m) pinned d) as Hgrow.
  { intros d Hg. by eapply stands_begins. }
  unfold publish_pointer. eapply (triple_bind _ _ _ (λ name, knows b (λ d, d = d0 ∧ is_temporary name = true))).
  { intros w Hw. pose proof (temporary_triple store b (λ d, d = d0) "CURRENT" w Hw) as Ht. unfold temporary_name in *. exact Ht. }
  intros name w [[Hd Ht] Hb]. pose proof (persist_triple store b (Root, name) CURRENT_FILE (to_vec (pointer_new m)) d0 Ht eq_refl w ltac:(by split)) as Hp.
  destruct (persist_rename _ _ _ _ w) as [w' [[x|e]|]]; revert Hp; apply knows_mono; intros d.
  - intros (Hg & Hon & _). apply stands_selected; [by apply Hgrow|done].
  - intros (Hg & He & Hh). split_and!; [by apply Hgrow|by intros ->%He|done].
  - intros [Hg Hh]. split; [by apply Hgrow|done].
Qed.

(** A running store: while it is not uncertain, no publication is under way. *)
Definition world_ok (chain : list Manifest) (pinned : list (string * Checkpoint)) (w : World) : Prop :=
  ∃ pending, stands chain pending pinned (disk w) ∧ (publication_uncertain w = false → pending = None).

Lemma extends_follows (o : option Manifest) m : extends ((λ m, (pointer_new m, m)) <$> o) m = true ↔ follows o m.
Proof.
  unfold extends, follows. destruct o as [p|]; cbn [fmap option_fmap option_map pointer_new pointer_generation pointer_manifest];
    rewrite andb_true_iff, Z.eqb_eq, bool_decide_eq_true; done.
Qed.

Definition mode_of (w : World) : Mode := {| calm := false; uncertain := publication_uncertain w |}.
Lemma knows_of w : knows (mode_of w) (λ d, d = disk w) w.
Proof. by split. Qed.
Lemma knows_uncertain b (P : Disk → Prop) w : knows b P w → publication_uncertain w = uncertain b ∧ P (disk w).
Proof. by intros (? & ? & _). Qed.

Lemma publish_spec store m expected chain pinned w :
  world_ok chain pinned w →
  match publish store m expected w with
  | (w', Some (Ok pointer)) => pointer = pointer_new m ∧ expected = manifest_id <$> last chain ∧ follows (last chain) m
      ∧ world_ok (chain ++ [m]) pinned w' ∧ publication_uncertain w' = false
  | (w', Some (Err e)) => world_ok chain pinned w'
  | (w', None) => ∃ pending, stands chain pending pinned (disk w')
  end.
Proof.
  intros (pending & Hs & Hp). unfold publish, io_bind at 1, ensure_publication_ready. destruct (publication_uncertain w) eqn:Eu; [exists pending; split; [done|congruence]|].
  specialize (Hp eq_refl) as ->. unfold io_bind at 1, io_lift at 1. destruct (manifest_validate m) as [[]|] eqn:Ev; [|by exists None].
  set (b := {| calm := false; uncertain := false |}). assert (knows b (λ d, d = disk w) w) as Hk by (by split).
  unfold io_bind at 1. destruct (current_triple store b (disk w) chain None pinned Hs) as (o & Ho & _ & Hcur). specialize (Hcur w Hk).
  assert (o = last chain) as -> by (by destruct Ho as [?|[[? ?] _]]). clear Ho Hk.
  destruct (current store w) as [w1 [[r|e]|]]; [|destruct Hcur as ([Hd _] & _); exists None; by rewrite Hd|destruct Hcur as ([Hd _] & _); exists None; by rewrite Hd].
  destruct Hcur as ([Hd ->] & Hu & _).
  assert ((match (λ m, (pointer_new m, m)) <$> last chain with Some (pointer, _) => Some (pointer_manifest pointer) | None => None end) = manifest_id <$> last chain) as Eid
    by (by destruct (last chain)). rewrite Eid. clear Eid.
  assert (world_ok chain pinned w1) as Hw1 by (exists None; by rewrite Hd).
  destruct (bool_decide (manifest_id <$> last chain = expected)) eqn:Ee; [|done]. apply bool_decide_eq_true_1 in Ee as <-. cbn [negb].
  destruct (extends _ m) eqn:Ex; [|done]. apply extends_follows in Ex. cbn [negb].
  unfold io_bind at 1. pose proof (publication_triple b _ _ _ _ _ (persist_manifest_triple store b chain pinned m (disk w1) ltac:(by rewrite Hd)) w1 ltac:(by split)) as Hpm.
  destruct (publication_result (persist_manifest store m) w1) as [w2 [[[]|e]|]].
  2:{ destruct Hpm as ([Hst _] & _). exists None. by split. }
  2:{ destruct Hpm as ([Hst _] & _). by exists None. }
  destruct Hpm as ((Hst & Hon & _) & Hu2 & _). unfold io_bind.
  pose proof (publication_triple b _ _ _ _ _ (publish_pointer_triple store b chain pinned m (disk w2) Hst Ev Hon Ex) w2 ltac:(by split)) as Hpp.
  destruct (publication_result (publish_pointer store (pointer_new m)) w2) as [w3 [[[]|e]|]].
  - destruct Hpp as (Hst3 & Hu3 & _). split_and!; [done|done|done|by exists None|done].
  - destruct Hpp as ((Hst3 & Hadm & _) & Hu3 & _). unfold failed in Hu3. destruct (is_admission e); cbn in Hu3; [exists None; split; [by apply Hadm|done]|].
    exists (Some m). split; [done|]. by rewrite Hu3.
  - destruct Hpp as ([Hst3 _] & _). by exists (Some m).
Qed.

Lemma publish_progress store m chain pinned w :
  stands chain None pinned (disk w) → publication_uncertain w = false → replies w = [] → recovery_reserve store = 0 → tidy (disk w) →
  manifest_validate m = Ok tt → follows (last chain) m → ¬ obstructed m (disk w) → ∃ w', publish store m (manifest_id <$> last chain) w = (w', Some (Ok (pointer_new m))).
Proof.
  intros Hs Hu Hr Hres Ht Hv Hf Hob. set (b := {| calm := true; uncertain := false |}).
  unfold publish, io_bind at 1, ensure_publication_ready. rewrite Hu. unfold io_bind at 1, io_lift. rewrite Hv.
  unfold io_bind at 1. destruct (current_triple store b (disk w) chain None pinned Hs) as (o & Ho & _ & Hcur). specialize (Hcur w ltac:(by split)).
  assert (o = last chain) as -> by (by destruct Ho as [?|[[? ?] _]]). clear Ho.
  destruct (current store w) as [w1 [[r|e]|]]; [|by destruct Hcur as ([_ ?] & _)|by destruct Hcur as ([_ ?] & _)]. destruct Hcur as ([Hd ->] & Hk1).
  replace (match (λ m, (pointer_new m, m)) <$> last chain with Some (pointer, _) => Some (pointer_manifest pointer) | None => None end) with (manifest_id <$> last chain)
    by (by destruct (last chain)). rewrite bool_decide_eq_true_2 by done. rewrite (proj2 (extends_follows (last chain) m) Hf). cbn [negb].
  unfold io_bind at 1. pose proof (publication_triple b _ _ _ _ _ (persist_manifest_triple store b chain pinned m (disk w1) ltac:(by rewrite Hd)) w1 ltac:(by split)) as Hpm.
  assert (healthy store b (disk w1)) as Hh by (rewrite Hd; by split_and!). rewrite <-Hd in Hob, Ht.
  destruct (publication_result (persist_manifest store m) w1) as [w2 [[[]|e]|]]; [|by destruct Hpm as ([_ ?] & _); destruct Hob; auto|by destruct Hpm as ([_ ?] & _); destruct Hob; auto].
  destruct Hpm as ((Hst & Hon & Hti) & Hk2). unfold io_bind.
  pose proof (publication_triple b _ _ _ _ _ (publish_pointer_triple store b chain pinned m (disk w2) Hst Hv Hon Hf) w2 ltac:(by split)) as Hpp.
  assert (healthy store b (disk w2)) as Hh2 by (split_and!; [done|done|by apply Hti]).
  destruct (publication_result (publish_pointer store (pointer_new m)) w2) as [w3 [[[]|e]|]]; [by exists w3|by destruct Hpp as ((_ & _ & ?) & _)|by destruct Hpp as ([_ ?] & _)].
Qed.

(** ** Opening *)

Lemma open_triple b root reserve entropy lock chain pending pinned d0 :
  stands chain pending pinned d0 →
  triple (knows b (λ d, d = d0)) (open_existing root reserve entropy lock)
    (λ _, knows b (λ d, stands chain pending pinned d ∧ only CURRENT_FILE (live d !! CURRENT_FILE) d))
    (λ _, knows b (λ d, stands chain pending pinned d ∧ (lock = Locked → is_Some entropy → calm b = false)))
    (knows b (λ d, stands chain pending pinned d ∧ calm b = false)).
Proof.
  intros Hs. destruct (stands_names _ _ _ _ Hs) as (N1 & N2 & N3). destruct (N3 _ (may_hold_live d0 MANIFEST_LOCK_FILE)) as [f Hlock].
  pose proof (N1 _ (may_hold_live d0 _)) as Hm. pose proof (N2 _ (may_hold_live d0 _)) as Hc.
  set (X := λ (_ : Error), knows b (λ d, stands chain pending pinned d ∧ (lock = Locked → is_Some entropy → calm b = false))).
  set (D := knows b (λ d, stands chain pending pinned d ∧ calm b = false)).
  assert (∀ (A B : Type) (m : io Error A) (k : A → io Error B) x Q,
    triple (knows b (λ d, d = d0)) m (λ y, knows b (λ d, d = d0 ∧ y = x)) (λ _, knows b (λ d, d = d0 ∧ calm b = false)) (knows b (λ d, d = d0 ∧ calm b = false)) →
    triple (knows b (λ d, d = d0)) (k x) Q X D → triple (knows b (λ d, d = d0)) (io_bind m k) Q X D) as Hstep.
  { intros A B m k x Q Hm' Hk. eapply triple_bind; [eapply triple_mono; [exact Hm'|done|done|..]; intros *; apply knows_mono; by intros d [-> ?]|].
    intros y w [[Hd ->] Hb]. by apply Hk. }
  unfold open_existing, acquire_writer. eapply (Hstep _ _ _ _ tt).
  { eapply known_bind; [apply context_triple; [exact Hm|done]|]. apply known_ret. }
  eapply (Hstep _ _ _ _ tt).
  { eapply known_bind; [apply context_triple; [exact Hc|done]|]. apply known_ret. }
  eapply Hstep; [apply context_triple; [exact Hlock|done]|]. cbn beta iota.
  destruct entropy as [nonce|]; cbn [ok_or].
  2:{ intros w (Hw & Hb). split; [|done]. rewrite Hw. split; [done|]. by intros _ [? ?]. }
  eapply Hstep; [by apply lift_triple|]. eapply Hstep; [apply context_triple; [exact Hlock|done]|].
  destruct lock as [| |reason]; [|intros w (Hw & Hb); split; [|done]; rewrite Hw; by split|intros w (Hw & Hb); split; [|done]; rewrite Hw; by split].
  set (settled := λ d, stands chain pending pinned d ∧ only CURRENT_FILE (live d !! CURRENT_FILE) d).
  eapply (triple_bind _ _ _ (λ _, knows b settled)).
  - apply triple_map_err. eapply triple_mono; [apply (sync_triple b (stands chain pending pinned))|..].
    + intros d Hd. by apply stands_sync.
    + intros w. apply knows_mono. by intros d ->.
    + intros x w. apply knows_mono. intros d [Hd Ho]. split; [done|]. by apply Ho.
    + intros e w. apply knows_mono. by intros d [? ?].
    + intros w. apply knows_mono. by intros d [? ?].
  - intros _. eapply (triple_bind _ _ _ (λ _, knows b settled)); [|intros _; apply triple_ret; by intros w].
    apply triple_map_err. eapply triple_mono; [apply (sync_triple b settled)|done|..].
    + intros d [Hd Ho]. split; [by apply stands_sync|]. intros e [He _]%may_hold_sync. by apply Ho.
    + intros x w. apply knows_mono. by intros d [? _].
    + intros e w. apply knows_mono. by intros d [[? _] ?].
    + intros w. apply knows_mono. by intros d [[? _] ?].
Qed.

(** ** Checkpoints *)

Section CheckpointFacts.
Context (store : ManifestStore) (elapsed : nat → Z).

Lemma looks_read_metadata budget p : looks (read_metadata elapsed budget p).
Proof.
  unfold read_metadata. destruct (reclamation_tick _ _); [|apply looks_fail]. apply looks_bind; [unfold question, metadata; eauto with fs|]. intros entry.
  apply looks_bind; [destruct entry; unfold question, read; eauto with fs|]. eauto with fs.
Qed.
Lemma looks_load_bounded budget digest : looks (load_bounded store elapsed budget digest).
Proof.
  unfold load_bounded, load_using. apply looks_if; [apply looks_fail|]. apply looks_bind; [unfold context, metadata; eauto with fs|]. intros [f| |]; [|apply looks_fail..].
  apply looks_bind; [apply looks_read_metadata|]. intros [content s']. eauto with fs.
Qed.
Lemma looks_count budget : looks (checkpoint_entry_count store elapsed budget).
Proof. unfold checkpoint_entry_count, question, entries. eauto with fs. Qed.
Lemma looks_exists p : looks (try_exists p).
Proof. unfold try_exists, metadata. apply looks_bind; [eauto with fs|]. intros [e|[|r]]; eauto with fs. Qed.

Lemma read_metadata_ok budget p w w' l s :
  read_metadata elapsed budget p w = (w', Some (Ok (l, s))) → ∃ f, live (disk w) !! p = Some (RegularFile f) ∧ l = bytes f.
Proof.
  unfold read_metadata. destruct (reclamation_tick elapsed budget) as [t|] eqn:Et; [|done].
  intros (entry & w1 & [Hm Hd1]%question_ok%observe_ok & (content & w2 & Hr & Hl)%bind_ok)%bind_ok.
  assert (live (disk w) !! p = Some entry) as Hlive by (by destruct (live (disk w) !! p) as [[]|]; simplify_eq/=).
  apply lift_ok in Hl as [Hl _]. unfold read_reclamation_metadata in Hl. rewrite Et in Hl. destruct entry as [f| |]; [|done..]. cbn [negb] in Hl.
  apply question_ok, observe_ok in Hr as [Hr _]. rewrite Hd1, Hlive in Hr. injection Hr as <-. exists f. split; [done|].
  destruct (reclamation_check _ _ _); [|done]. destruct (reclamation_check _ _ (saturating_add _ _ (len _))); [|done].
  destruct (Z.eqb_spec (len (take (Z.to_nat (saturating_add 64 (reclaim_metadata_limit (reclamation_limits t) - scanned_metadata_bytes t) 1)) (bytes f))) (len (bytes f))) as [E|E]; [|done].
  cbn [negb] in Hl. match type of Hl with context [reclamation_tick ?a ?b] => destruct (reclamation_tick a b); [|done] end. injection Hl as <- <-. apply take_ge. unfold len in E. rewrite length_take in E. lia.
Qed.
Lemma load_bounded_ok budget digest w w' m s :
  load_bounded store elapsed budget digest w = (w', Some (Ok (m, s))) →
  manifest_id m = digest ∧ manifest_validate m = Ok tt ∧ ∃ f, live (disk w) !! manifest_path digest = Some (RegularFile f) ∧ from_slice (bytes f) = Ok m.
Proof.
  unfold load_bounded, load_using. destruct (negb (is_sha256 digest)); [done|]. intros (entry & w1 & [_ Hd1]%context_ok%observe_ok & Hk)%bind_ok. destruct entry as [f| |]; [|done..].
  apply bind_ok in Hk as ([content s'] & w2 & (f' & Hf & ->)%read_metadata_ok & (m' & w3 & [Hdec ->]%lift_ok & ([] & w4 & [Hv ->]%lift_ok & Hk)%bind_ok)%bind_ok).
  destruct (bool_decide (manifest_id m' = digest)) eqn:E; [|done]. apply bool_decide_eq_true_1 in E. injection Hk as <- <- <-. split_and!; [done|done|].
  exists f'. by rewrite Hd1 in Hf.
Qed.
Lemma exists_ok p w w' r : try_exists p w = (w', Some (Ok r)) → (r = false → live (disk w) !! p = None) ∧ disk w' = disk w.
Proof.
  intros Hx. split; [|pose proof (looks_exists p w) as [Hd _]; by rewrite Hx in Hd]. intros ->. unfold try_exists in Hx. apply bind_ok in Hx as (a & w1 & Ha & Hk).
  unfold attempt in Ha. destruct (metadata p w) as [w2 [r|]] eqn:Em; [|done]. injection Ha as <- <-. destruct r as [e|[|reason]]; [done| |done].
  unfold metadata, observe in Em. destruct (replies w) as [|[] rs]; simplify_eq/=; by destruct (live (disk w) !! p) as [[]|].
Qed.

Lemma stands_pins chain pending pinned name c m d :
  stands chain pending pinned d → (∀ e, may_hold d (checkpoint_path name) e → ∃ content, e = Some (file_of content) ∧ from_slice content = Ok c) →
  name ≠ "" → last chain = Some m → manifest_id m = checkpoint_manifest c → generation (Manifest.content m) = checkpoint_generation c →
  stands chain pending ((name, c) :: pinned) d.
Proof.
  intros [Hc Hv Hm Hd Hl Hp Hpin Hpins HN] Hnew Hne Hlast Eid Eg. constructor; try done.
  - by intros name' c' [[= -> ->]|Hin]%elem_of_cons; [|apply Hpin].
  - intros name' c' [[= -> ->]|Hin]%elem_of_cons; [|by apply Hpins]. split; [done|]. exists m. split_and!; [by apply last_Some_elem_of|done|done|]. apply Hm. by left.
Qed.

Definition unpinned (name : string) (pinned : list (string * Checkpoint)) : list (string * Checkpoint) := filter (λ x, x.1 ≠ name) pinned.
Lemma checkpoint_path_inj a c : checkpoint_path a = checkpoint_path c → a = c.
Proof. intros [= E]. apply (f_equal str_bytes) in E. rewrite !str_bytes_append in E. by apply app_inv_tail, str_bytes_inj in E. Qed.
Lemma stands_unpins chain pending pinned name d0 d :
  stands chain pending pinned d0 → (∀ p e, is_temporary p.2 = false → may_hold d p e → may_hold d0 p e ∨ (p = checkpoint_path name ∧ e = None)) →
  stands chain pending (unpinned name pinned) d.
Proof.
  intros [Hc Hv Hm Hd Hl Hp Hpin Hpins HN] Hs.
  assert (∀ name' c, (name', c) ∈ unpinned name pinned → name' ≠ name ∧ (name', c) ∈ pinned) as Hun by (intros name' c [? ?]%list_elem_of_filter; done).
  assert (stands chain pending (unpinned name pinned) d0) as Hs0 by (constructor; try done; intros name' c [_ Hin]%Hun; [by apply Hpin|by apply Hpins]).
  eapply stands_frame; [exact Hs0| |].
  - intros p e Ht Hrel He. destruct (Hs p e Ht He) as [?|[-> _]]; [done|].
    destruct Hrel as [?|[(m & _ & ?)|(name' & c & [Hne _]%Hun & [E%checkpoint_path_inj|?])]]; first [congruence|discriminate].
  - intros p f Ht Hdir Hf. destruct (Hs p _ Ht Hf) as [?|[_ [=]]]. by eapply Hd.
Qed.

(** How an operation that publishes nothing ends. *)
Definition ends {A} (chain : list Manifest) (pinned : list (string * Checkpoint)) (Q : A → World → Prop) (r : World * option (result Error A)) : Prop :=
  match r with
  | (w', Some (Ok x)) => Q x w'
  | (w', Some (Err _)) => world_ok chain pinned w'
  | (w', None) => ∃ pending, stands chain pending pinned (disk w')
  end.
Lemma ends_look {A B} chain pinned (m : io Error A) (k : A → io Error B) Q w :
  looks m → world_ok chain pinned w →
  (∀ x w', m w = (w', Some (Ok x)) → disk w' = disk w → publication_uncertain w' = publication_uncertain w → world_ok chain pinned w' → ends chain pinned Q (k x w')) →
  ends chain pinned Q (io_bind m k w).
Proof.
  intros Hm Hw Hk. unfold io_bind. destruct (Hm w) as [Hd Hu]. assert (world_ok chain pinned (m w).1) as Hw' by (destruct Hw as (pe & ? & ?); exists pe; by rewrite Hd, Hu).
  destruct (m w) as [w' [[x|e]|]]; cbn [fst] in *; [by apply Hk|done|]. destruct Hw' as (pe & ? & _). by exists pe.
Qed.
Definition certain : Mode := {| calm := false; uncertain := false |}.
(** A publication on a disk whose pointer is settled. *)
Lemma ends_publication {A B} chain pinned (m : io Error A) (k : A → io Error B) Q w :
  publication_uncertain w = false →
  triple (knows certain (λ d, d = disk w)) m (λ x, knows certain (λ d, ∀ w', disk w' = d → publication_uncertain w' = false → ends chain pinned Q (k x w')))
    (λ _, knows certain (stands chain None pinned)) (knows certain (stands chain None pinned)) →
  ends chain pinned Q (io_bind (publication_result m) k w).
Proof.
  intros Hu Hm. unfold io_bind. pose proof (publication_triple _ _ _ _ _ _ Hm w ltac:(by split)) as Hp.
  destruct (publication_result m w) as [w' [[x|e]|]].
  - destruct Hp as (Hx & Hu' & _). by apply Hx.
  - destruct Hp as (Hs & _). by exists None.
  - destruct Hp as (Hs & _). by exists None.
Qed.

Lemma checkpoint_new_ok name m created_at c :
  checkpoint_new name m created_at = Ok c → name ≠ "" ∧ checkpoint_name c = name ∧ manifest_id m = checkpoint_manifest c ∧ generation (Manifest.content m) = checkpoint_generation c.
Proof.
  unfold checkpoint_new, validate_checkpoint_name. destruct (bool_decide (name = "")) eqn:E; [done|]. apply bool_decide_eq_false_1 in E. destruct (_ || _)%bool; [done|]. by intros [= <-].
Qed.

Lemma checkpoint_spec name m created_at chain pinned w :
  world_ok chain pinned w → (publication_uncertain w = false → last chain = Some m) →
  ends chain pinned (λ c w', checkpoint_new name m created_at = Ok c ∧ publication_uncertain w' = publication_uncertain w ∧ world_ok chain ((name, c) :: pinned) w')
    (checkpoint store elapsed name (manifest_id m) created_at w).
Proof.
  intros Hw Hlast. unfold checkpoint, io_bind at 1, ensure_publication_ready. destruct (publication_uncertain w) eqn:Eu; [done|]. specialize (Hlast eq_refl).
  apply ends_look; [apply looks_load_bounded|done|]. intros [m' budget] w1 (_ & _ & f0 & Hf0 & Hdec0)%load_bounded_ok Hd1 Eu1 Hw1. cbn beta iota.
  assert (m' = m) as ->.
  { destruct Hw as (pe & Hs & _). pose proof (stands_manifests _ _ _ _ Hs m (or_introl Hlast) _ (may_hold_live _ _)) as Hl. rewrite Hf0 in Hl. injection Hl as ->.
    cbn [bytes] in Hdec0. rewrite serde_round_trip in Hdec0. by injection Hdec0. }
  apply ends_look; [apply looks_lift|done|]. intros c w2 [Hnew ->]%lift_ok _ _ _. pose proof (checkpoint_new_ok _ _ _ _ Hnew) as (Hne & Ecn & Ecm & Ecg).
  apply ends_look; [apply looks_map_err, looks_exists|done|]. intros found w3 Hex%question_ok Hd3 Eu3 Hw3. apply exists_ok in Hex as [Hex _].
  rewrite Eu1 in Eu3. rewrite Eu in Eu3. destruct Hw3 as (pending & Hst & Hp). specialize (Hp Eu3) as ->. destruct found.
  - apply ends_look; [apply looks_read_metadata|by exists None|]. intros [l s'] w4 (f & Hf & ->)%read_metadata_ok Hd4 Eu4 _. cbn beta iota.
    assert (world_ok chain pinned w4) as Hw4 by (exists None; by rewrite Hd4). apply ends_look; [apply looks_lift|done|]. intros existing w5 [Hdec ->]%lift_ok _ _ _.
    apply ends_look; [apply looks_lift|done|]. intros [] w5 [_ ->]%lift_ok _ _ _. destruct (bool_decide (existing = c)) eqn:E; [|done]. apply bool_decide_eq_true_1 in E as ->.
    apply ends_publication; [congruence|]. apply triple_map_err. rewrite Hd4.
    assert (durable f = true) as Edur by (apply (stands_durable _ _ _ _ Hst (checkpoint_path name) f); [apply json_not_temporary|by right|by left]).
    eapply triple_mono; [apply (sync_triple certain (λ d, stands chain None pinned d ∧ live d !! checkpoint_path name = Some (RegularFile f)))|..].
    + intros d [Hd Hl]. split; [by apply stands_sync|done].
    + intros w'. apply knows_mono. by intros d ->.
    + intros [] w'. apply knows_mono. intros d [[Hd Hl] Ho] w6 <- Hu6. split_and!; [done|done|]. exists None. split; [|done]. eapply stands_pins; [done| |done..].
      intros e He. exists (bytes f). split; [|done]. etransitivity; [exact (Ho (checkpoint_path name) eq_refl e He)|]. etransitivity; [exact Hl|]. destruct f. cbn in Edur. by subst.
    + intros e w'. apply knows_mono. by intros d [[? _] _].
    + intros w'. apply knows_mono. by intros d [[? _] _].
  - specialize (Hex eq_refl). rewrite <-Hd3 in Hex. apply ends_look; [apply looks_count|by exists None|]. intros [count s'] w4 _ Hd4 Eu4 Hw4. cbn beta iota.
    destruct (checkpoint_entries store <=? count); [done|].
    unfold io_bind at 1. pose proof (temporary_triple store certain (λ d, d = disk w4) name w4 ltac:(split; [done|split; [by rewrite Eu4, Eu3|done]])) as Ht.
    destruct (temporary_name store name w4) as [w5 [[t|e]|]] eqn:Et; [|done|done]. destruct Ht as ([Hd5 Ht] & Hu5 & _).
    assert (∀ d, grows (checkpoint_path name) (file_of (to_vec c)) (disk w5) d → stands chain None pinned d) as Hgrow.
    { intros d Hg. eapply stands_grows; [|exact Hg|left|done]; rewrite Hd5, Hd4; done. }
    apply ends_publication; [done|].
    eapply triple_mono; [apply (persist_triple store certain (Checkpoints, t) (checkpoint_path name) (to_vec c) (disk w5) Ht (json_not_temporary _))|done|..].
    + intros [] w'. apply knows_mono. intros d (Hg & Ho & _) w6 <- Hu6. split_and!; [done|done|]. exists None. split; [|done]. eapply stands_pins; [by apply Hgrow| |done..].
      intros e ->%Ho. exists (to_vec c). split; [done|]. apply serde_round_trip.
    + intros e w'. apply knows_mono. intros d [Hg _]. by apply Hgrow.
    + intros w'. apply knows_mono. intros d [Hg _]. by apply Hgrow.
Qed.

(** Removing a checkpoint may leave it or not; everything else stands. *)
Lemma remove_checkpoint_triple name chain pinned d0 :
  let b := certain in let P := stands chain None (unpinned name pinned) in
  stands chain None pinned d0 →
  triple (knows b (λ d, d = d0)) (remove_file (checkpoint_path name)) (λ _, knows b P) (λ _, knows b P) (knows b P).
Proof.
  intros b P Hs. assert (P d0) as Hkeep by (eapply stands_unpins; [exact Hs|intros p e _ He; by left]).
  assert (P (set_entry (checkpoint_path name) None d0)) as Hgone by (eapply stands_unpins; [exact Hs|intros p e _; apply may_hold_set]).
  unfold remove_file. eapply (triple_bind _ _ _ (λ _, knows b P)).
  - intros w Hw. destruct (live (disk w) !! checkpoint_path name).
    + apply (effect_triple b (λ d, d = d0) P P); [by intros d ->|intros n d _ ->; by apply whole_keeps|done].
    + revert Hw. apply knows_mono. by intros d ->.
  - intros _. eapply triple_mono; [apply (sync_triple b P); intros d; apply stands_sync|done|..]; intros *; apply knows_mono; by intros d [? _].
Qed.

Lemma world_unpinned name chain pinned w : world_ok chain pinned w → world_ok chain (unpinned name pinned) w.
Proof. intros (pe & Hs & Hp). exists pe. split; [|done]. eapply stands_unpins; [exact Hs|]. intros p e _ He. by left. Qed.

Lemma release_spec name chain pinned w :
  world_ok chain pinned w → ends chain (unpinned name pinned) (λ _ w', world_ok chain (unpinned name pinned) w') (release_checkpoint name w).
Proof.
  intros Hw. pose proof (world_unpinned name _ _ _ Hw) as Hw'. unfold release_checkpoint, io_bind at 1, ensure_publication_ready. destruct (publication_uncertain w) eqn:Eu; [done|].
  apply ends_look; [apply looks_lift|done|]. intros [] w1 [_ ->]%lift_ok _ _ _. destruct Hw as (pe & Hs & Hp). specialize (Hp Eu) as ->.
  pose proof (remove_checkpoint_triple name chain pinned (disk w) Hs w ltac:(by split)) as Hr. unfold io_bind at 1, attempt.
  destruct (remove_file (checkpoint_path name) w) as [w1 [[[]|e]|]]; cbn beta iota in Hr |- *.
  - destruct Hr as (Hs1 & Hu1 & _). apply ends_publication; [done|]. apply triple_map_err.
    eapply triple_mono; [apply (sync_triple certain (stands chain None (unpinned name pinned))); intros d; apply stands_sync|..].
    + intros w'. apply knows_mono. by intros d ->.
    + intros [] w'. apply knows_mono. intros d [Hd _] w2 <- Hu2. by exists None.
    + intros e w'. apply knows_mono. by intros d [? _].
    + intros w'. apply knows_mono. by intros d [? _].
  - destruct Hr as (Hs1 & Hu1 & _). destruct e as [|reason]; [by exists None|]. exists None. by split.
  - destruct Hr as (Hs1 & _). by exists None.
Qed.
End CheckpointFacts.

(** ** A new store *)

(** The namespace as it is created. *)
Definition created : Disk :=
  {| live := <[MANIFEST_DIRECTORY := SubDirectory]> (<[CHECKPOINT_DIRECTORY := SubDirectory]> (<[MANIFEST_LOCK_FILE := file_of []]> ∅)); stale := [] |}.

Lemma created_stands : stands [] None [] created.
Proof.
  assert (∀ p e, may_hold created p e → live created !! p = e) as Hlive by (by intros p e [?|?%not_elem_of_nil]).
  constructor; [| | | |constructor|done| | |].
  - intros e <-%Hlive. by left.
  - by intros m [?%not_elem_of_nil|[=]].
  - by intros m [[=]|[=]].
  - intros p f _ Hdir Hf%Hlive. unfold created in Hf. cbn in Hf. rewrite !lookup_insert_ne in Hf by (intros <-; by destruct Hdir). done.
  - by intros name c ?%not_elem_of_nil.
  - by intros name c ?%not_elem_of_nil.
  - split_and!; [intros e <-%Hlive; done|intros e <-%Hlive; done|]. intros e <-%Hlive. by eexists.
Qed.


End Facts.

(** * A concrete store *)

#[export] Instance manifest_countable : Countable Manifest.
Proof. apply (inj_countable' (λ m, (content m, manifest_id m)) (λ '(a, b), Build_Manifest a b)). by intros []. Defined.
#[export] Instance pointer_eq_dec : EqDecision CurrentPointer.
Proof. solve_decision. Defined.
#[export] Instance pointer_countable : Countable CurrentPointer.
Proof.
  apply (inj_countable' (λ p, (pointer_format_version p, pointer_generation p, pointer_manifest p, pointer_checksum p)) (λ '(a, b, c, d), Build_CurrentPointer a b c d)).
  by intros [].
Defined.
#[export] Instance checkpoint_countable : Countable Checkpoint.
Proof.
  apply (inj_countable' (λ c, (checkpoint_format_version c, checkpoint_name c, checkpoint_manifest c, checkpoint_generation c, checkpoint_created_at c, checkpoint_checksum c))
    (λ '(a, b, c, d, e, f), Build_Checkpoint a b c d e f)).
  by intros [].
Defined.

Module Sample.
#[export] Instance sha2 : Sha2 := toy_sha2.
#[export] Instance sha2_laws : Sha2Laws := toy_sha2_laws.
#[export] Instance content_serde : Serde Content := countable_serde.
#[export] Instance manifest_serde : Serde Manifest := countable_serde.
#[export] Instance manifest_laws : SerdeLaws Manifest := countable_serde_laws.
#[export] Instance pointer_serde : Serde CurrentPointer := countable_serde.
#[export] Instance pointer_laws : SerdeLaws CurrentPointer := countable_serde_laws.
#[export] Instance checkpoint_serde : Serde Checkpoint := countable_serde.
#[export] Instance checkpoint_laws : SerdeLaws Checkpoint := countable_serde_laws.

Definition first : Manifest :=
  let fields := {| manifest_format_version := 3; application_format := None; generation := 1; manifest_parent := None; manifest_created_at := 0;
    manifest_durable_sequence := 0; wal_start_sequence := 1; manifest_segments := [] |} in
  {| content := fields; manifest_id := sha256_hex (to_vec fields) |}.
Definition world (replies : list Reply) : World :=
  {| disk := created; replies := replies; spaces := []; temporary_id := 1; publication_uncertain := false |}.
Definition store : ManifestStore :=
  {| root_path := "db"; recovery_reserve := 0; temporary_nonce := "n"; checkpoint_entries := DEFAULT_CHECKPOINT_ENTRIES; checkpoint_budget := ReclamationLimits_default |}.
Definition opened (replies : list Reply) : World * option (result Error ManifestStore) := open_existing "db" 0 (Some "n") Locked (world replies).
Definition published (replies : list Reply) : World * option (result Error CurrentPointer) := publish store first None (opened replies).1.


End Sample.
