(* ===== verification/GarbageCollection.v ===== *)
(** Collecting unreachable files ([rrd-lsm]: database.rs, [Database::garbage_collect]).

    A collection retains what the current manifest, the manifests that checkpoints pin and the
    open projected reads refer to, checks that all of it is there, and only then deletes the
    other manifests, segments and logs, within a budget.

    Theorems: whatever the operating system replies and wherever the process dies, no file that
    is reachable changes, in any state a power loss can leave; a missing reachable file stops the
    collection before it deletes anything; and a collection that succeeds reports exactly what it
    retained and removed, and has removed every unreachable file when it says there is no more. *)

From S2P Require Import Prelude Machine BTree Ident Digest LsmError Batch RecoveryBudget Wal Memtable Versions SegmentFormat Segment SegmentFile PointIndex Manifest Filesystem Reclamation Reader ReadViews ManifestStore.
Open Scope Z_scope.

(** * Names *)

(** lsm/database.rs:25-26 the directories of segments and logs *)
Definition segment_path (id : string) : Path := (Segments, id +:+ ".seg").
Definition zeros (n : nat) : string := bytes_str (repeat x30 n).
(** [format!("{:020}.wal")] *)
Definition wal_name (sequence : Z) : string := zeros (20 - length (str_bytes (pretty sequence))) +:+ pretty sequence +:+ ".wal".
(** lsm/database.rs:2786-2789 wal_path *)
Definition wal_path (starting_sequence : Z) : Path := (Wals, wal_name starting_sequence).

(** lsm/database.rs:262-273 GarbageCollectionReport *)
Record GarbageCollectionReport := {
  retained_manifests : list string; retained_segments : list string; retained_wals : list string;
  removed_manifests : list string; removed_segments : list string; removed_wals : list string;
  examined_entries : Z; report_metadata_bytes : Z; removed_bytes : Z; has_more : bool
}.

(** lsm/database.rs:363-393 Database, the fields a collection reads *)
Record Collector := {
  gc_manifests : ManifestStore; gc_manifest : Manifest; gc_reclamation : ReclamationLimits;
  writer_requires_reopen : option string; active_read_views : ActiveReadViews
}.

(** What a collection retains: the identities of manifests, the lengths of segments by identity
    and the names of logs. *)
Record Retained := { kept_manifests : list (string * unit); kept_segments : list (string * Z); kept_wals : list (string * unit) }.
Definition retained_nothing : Retained := {| kept_manifests := []; kept_segments := []; kept_wals := [] |}.

Section Collection.
Context `{Sha2} `{Serde Content} `{Serde Manifest} `{Serde CurrentPointer} `{Serde Checkpoint}.
Context (elapsed : nat → Z) (self : Collector).

(** lsm/database.rs:1239-1245 Database::ensure_writer_ready *)
Definition ensure_writer_ready : io Error unit :=
  let! _ := ensure_publication_ready in
  match writer_requires_reopen self with Some boundary => io_fail (RecoveryRequired boundary) | None => io_ret tt end.

(** lsm/database.rs:2891-2898 retain_manifest, and 2351-2357 garbage_collect: a segment *)
Definition retain_segment (disagreement : string) (kept : Retained) (id : string) (size : Z) : result Error Retained :=
  let kept' := {| kept_manifests := kept_manifests kept; kept_segments := bt_insert id size (kept_segments kept); kept_wals := kept_wals kept |} in
  match bt_get id (kept_segments kept) with
  | Some previous => if negb (previous =? size) then Err (InvalidManifest disagreement) else Ok kept'
  | None => Ok kept'
  end.

(** lsm/database.rs:2875-2901 retain_manifest *)
Definition retain_manifest (st : Retained * ReclamationBudget) (manifest : Manifest) : result Error (Retained * ReclamationBudget) :=
  let '(kept, budget) := st in
  let? budget := charge_entry elapsed budget in
  if bs_mem (manifest_id manifest) (kept_manifests kept) then Ok (kept, budget)
  else
    let segments := manifest_segments (content manifest) in
    let? budget := charge_entries elapsed budget (len segments) in
    do? manifest_validate manifest in
    let kept := {| kept_manifests := bs_insert (manifest_id manifest) (kept_manifests kept); kept_segments := kept_segments kept;
                   kept_wals := bs_insert (wal_name (wal_start_sequence (content manifest))) (kept_wals kept) |} in
    try_fold (λ st segment,
      let '(kept, budget) := st in
      let? budget := reclamation_tick elapsed budget in
      let? kept := retain_segment "protected manifests disagree about segment length" kept (segment_id segment) (segment_bytes segment) in
      Ok (kept, budget)) (kept, budget) segments.

(** lsm/database.rs:2348-2358 garbage_collect: the segments of open projected reads *)
Definition retain_views (st : Retained * ReclamationBudget) : result Error (Retained * ReclamationBudget) :=
  visit_segments (active_read_views self) (λ st segment,
    let '(kept, budget) := st in
    let? budget := charge_entry elapsed budget in
    let? kept := retain_segment "protected segment pins disagree about length" kept (segment_id segment) (segment_bytes segment) in
    Ok (kept, budget)) st.

(** lsm/database.rs:2360-2370 garbage_collect: the manifest of a checkpoint *)
Definition retain_checkpoint (st : Retained * ReclamationBudget) (checkpoint : Checkpoint) : io Error (Retained * ReclamationBudget) :=
  let '(kept, budget) := st in
  if bs_mem (checkpoint_manifest checkpoint) (kept_manifests kept) then io_ret st
  else
    let! (manifest, budget) := load_bounded (gc_manifests self) elapsed budget (checkpoint_manifest checkpoint) in
    io_lift (retain_manifest (kept, budget) manifest).

(** lsm/database.rs:2335-2372 garbage_collect: what is retained *)
Definition retain_all : io Error (Retained * ReclamationBudget) :=
  let! st := io_lift (retain_manifest (retained_nothing, ReclamationBudget_new (gc_reclamation self)) (gc_manifest self)) in
  let! (kept, budget) := io_lift (retain_views st) in
  let! (checkpoints, budget) := checkpoints_bounded (gc_manifests self) elapsed budget in
  io_fold retain_checkpoint (kept, budget) checkpoints.

(** lsm/database.rs:2378-2380 garbage_collect: a retained manifest is there *)
Definition check_manifest (budget : ReclamationBudget) (entry : string * unit) : io Error ReclamationBudget :=
  let! (_, budget) := load_bounded (gc_manifests self) elapsed budget entry.1 in io_ret budget.
(** lsm/database.rs:2381-2389 garbage_collect: a retained segment is there *)
Definition check_segment (budget : ReclamationBudget) (entry : string * Z) : io Error ReclamationBudget :=
  let! budget := io_lift (charge_entry elapsed budget) in
  let! found := question (metadata (segment_path entry.1)) in
  let damage : io Error ReclamationBudget := io_fail (InvalidManifest "protected reclamation segment is missing, non-regular or has a different length") in
  match found with
  | RegularFile f => if negb (len (bytes f) =? entry.2) then damage else io_ret budget
  | _ => damage
  end.
(** lsm/database.rs:2390-2397 garbage_collect: a retained log is there *)
Definition check_wal (budget : ReclamationBudget) (entry : string * unit) : io Error ReclamationBudget :=
  let! budget := io_lift (charge_entry elapsed budget) in
  let! found := question (metadata (Wals, entry.1)) in
  match found with
  | RegularFile _ => io_ret budget
  | _ => io_fail (InvalidManifest "protected reclamation WAL is not a regular file")
  end.

(** lsm/database.rs:2910-2940 unreachable_files: one entry *)
Definition candidate_at (directory : Directory) (extension : string) (retained : list (string * unit)) (st : list (string * Z) * ReclamationBudget) (name : string)
    : io Error (list (string * Z) * ReclamationBudget) :=
  let '(candidates, budget) := st in
  let! budget := io_lift (charge_entry elapsed budget) in
  let! entry := question (metadata (directory, name)) in
  match entry with
  | RegularFile f =>
    if negb (has_extension extension name) then io_ret (candidates, budget)
    else
      let identity := file_stem extension name in
      if negb (utf8_valid (str_bytes identity)) then io_fail (InvalidManifest "non-UTF-8 storage object name")
      else if bs_mem (if bool_decide (extension = "wal") then name else identity) retained then io_ret (candidates, budget)
      else io_ret (candidates ++ [(name, len (bytes f))], budget)
  | _ => io_ret (candidates, budget)
  end.
(** lsm/database.rs:2903-2943 unreachable_files *)
Definition unreachable_files (directory : Directory) (extension : string) (retained : list (string * unit)) (budget : ReclamationBudget)
    : io Error (list (string * Z) * ReclamationBudget) :=
  let! names := question (Filesystem.entries directory) in
  let! (candidates, budget) := io_fold (candidate_at directory extension retained) ([], budget) names in
  io_ret (sort_by (λ l r : string * Z, cmp l.1 r.1) candidates, budget).

(** lsm/database.rs:2965-2974 remove_candidates: the deletions *)
Fixpoint remove_each (directory : Directory) (candidates : list (string * Z)) (removed : list string) (budget : ReclamationBudget)
    : io Error (result Error bool * list string * ReclamationBudget) :=
  match candidates with
  | [] => io_ret (Ok false, removed, budget)
  | (name, size) :: candidates =>
    match admit_delete elapsed budget size with
    | Err e => io_ret (Err e, removed, budget)
    | Ok (false, budget) => io_ret (Ok true, removed, budget)
    | Ok (true, budget) =>
      let! r := attempt (remove_file (directory, name)) in
      match r with
      | Err e => io_ret (Err (Io (io_text e)), removed, budget)
      | Ok _ => remove_each directory candidates (removed ++ [name]) budget
      end
    end
  end.
(** lsm/database.rs:2959-2991 remove_candidates *)
Definition remove_candidates (directory : Directory) (candidates : list (string * Z)) (budget : ReclamationBudget)
    : io Error (bool * list string * ReclamationBudget) :=
  let! (r, removed, budget) := remove_each directory candidates [] budget in
  let! sync := match removed with [] => io_ret (Ok tt) | _ => attempt (sync_directory directory) end in
  match r with
  | Err e => io_fail e
  | Ok more => match sync with Err e => io_fail (Io (io_text e)) | Ok _ => io_ret (more, removed, budget) end
  end.

Record Survey := {
  surveyed : Retained; manifest_candidates : list (string * Z); segment_candidates : list (string * Z); wal_candidates : list (string * Z);
  survey_budget : ReclamationBudget
}.
(** lsm/database.rs:2334-2409 garbage_collect: everything before the first deletion *)
Definition survey : io Error Survey :=
  let! _ := ensure_writer_ready in
  let! (kept, budget) := retain_all in
  let! budget := io_fold check_manifest budget (kept_manifests kept) in
  let! budget := io_fold check_segment budget (kept_segments kept) in
  let! budget := io_fold check_wal budget (kept_wals kept) in
  let segment_ids := map (λ entry : string * Z, (entry.1, tt)) (kept_segments kept) in
  let! (manifests, budget) := unreachable_files Manifests "json" (kept_manifests kept) budget in
  let! (segments, budget) := unreachable_files Segments "seg" segment_ids budget in
  let! (wals, budget) := unreachable_files Wals "wal" (kept_wals kept) budget in
  let! budget := io_lift (reclamation_tick elapsed budget) in
  io_ret {| surveyed := kept; manifest_candidates := manifests; segment_candidates := segments; wal_candidates := wals; survey_budget := budget |}.

(** lsm/database.rs:2333-2437 Database::garbage_collect *)
Definition garbage_collect : io Error GarbageCollectionReport :=
  let! found := survey in
  let! (more1, manifests, budget) := remove_candidates Manifests (manifest_candidates found) (survey_budget found) in
  let! (more2, segments, budget) := remove_candidates Segments (segment_candidates found) budget in
  let! (more3, wals, budget) := remove_candidates Wals (wal_candidates found) budget in
  io_ret {| retained_manifests := map fst (kept_manifests (surveyed found)); retained_segments := map fst (kept_segments (surveyed found));
            retained_wals := map fst (kept_wals (surveyed found)); removed_manifests := manifests; removed_segments := segments; removed_wals := wals;
            examined_entries := scanned_entries budget; report_metadata_bytes := scanned_metadata_bytes budget; removed_bytes := deleted_bytes budget;
            has_more := (more1 || more2 || more3)%bool |}.
End Collection.

(** * Loops that only look *)

Lemma looks_fold {A S} (f : S → A → io Error S) l : (∀ s x, looks (f s x)) → ∀ s, looks (io_fold f s l).
Proof. intros Hf. induction l as [|x l IH]; intros s; cbn [io_fold]; [apply looks_ret|]. apply looks_bind; [apply Hf|apply IH]. Qed.
#[export] Hint Resolve looks_fold : fs.

(** A relation between what a loop has passed and its state, kept by a body that only looks. *)
Lemma fold_ok {A S} (I : list A → S → Prop) (f : S → A → io Error S) (d : Disk) l s w w' s' :
  (∀ s x, looks (f s x)) → disk w = d → I [] s →
  (∀ passed x s w w' s', x ∈ l → disk w = d → I passed s → f s x w = (w', Some (Ok s')) → I (passed ++ [x]) s') →
  io_fold f s l w = (w', Some (Ok s')) → I l s' ∧ disk w' = d.
Proof.
  intros Hf Hd Hi Hstep. assert (∀ todo passed s w, passed ++ todo = l → disk w = d → I passed s →
    io_fold f s todo w = (w', Some (Ok s')) → I l s' ∧ disk w' = d) as Hgen; [|by apply (Hgen l [] s w)].
  clear s w Hd Hi. induction todo as [|x todo IH]; intros passed s w Hl Hd Hi; cbn [io_fold].
  - intros [= <- <-]. rewrite app_nil_r in Hl. by subst.
  - intros (s1 & w1 & E1 & E2)%bind_ok. apply (IH (passed ++ [x]) s1 w1); [by rewrite <-app_assoc| | |done].
    + destruct (Hf s x w) as [Hd1 _]. rewrite E1 in Hd1. cbn [fst] in Hd1. congruence.
    + eapply Hstep; [|done|done|exact E1]. rewrite <-Hl. set_solver.
Qed.
Lemma try_fold_passed {E A S} (I : list A → S → Prop) (f : S → A → result E S) l s s' :
  I [] s → (∀ passed x s s', x ∈ l → I passed s → f s x = Ok s' → I (passed ++ [x]) s') → try_fold f s l = Ok s' → I l s'.
Proof.
  intros Hi Hstep. assert (∀ todo passed s, passed ++ todo = l → I passed s → try_fold f s todo = Ok s' → I l s') as Hgen; [|by apply (Hgen l [] s)].
  clear s Hi. induction todo as [|x todo IH]; intros passed s Hl Hi; cbn [try_fold].
  - intros [= <-]. rewrite app_nil_r in Hl. by subst.
  - destruct (f s x) as [s1|] eqn:E1; [|done]. apply (IH (passed ++ [x]) s1); [by rewrite <-app_assoc|]. eapply Hstep; [|done|exact E1]. rewrite <-Hl. set_solver.
Qed.
(** What a step that only looks leaves. *)
Lemma looks_ok {A} (m : io Error A) w w' x : looks m → m w = (w', Some (Ok x)) → disk w' = disk w.
Proof. intros Hm E. destruct (Hm w) as [Hd _]. by rewrite E in Hd. Qed.

(** * Names *)

Lemma file_stem_append extension stem : file_stem extension (stem +:+ ("." +:+ extension)) = stem.
Proof.
  unfold file_stem. apply str_bytes_inj. rewrite str_bytes_str, (str_bytes_append stem), length_app.
  replace (length (str_bytes stem) + length (str_bytes ("." +:+ extension)) - length (str_bytes ("." +:+ extension)))%nat with (length (str_bytes stem)) by lia.
  by rewrite take_app_length.
Qed.
Lemma has_extension_stem extension name : has_extension extension name = true → name = file_stem extension name +:+ ("." +:+ extension).
Proof.
  unfold has_extension. intros [[k E]%bool_decide_eq_true_1 _]%andb_true_iff. apply str_bytes_inj. rewrite (str_bytes_append (file_stem _ _)). unfold file_stem. rewrite str_bytes_str.
  rewrite E at 1. f_equal. rewrite E, length_app. replace (length k + length (str_bytes ("." +:+ extension)) - length (str_bytes ("." +:+ extension)))%nat with (length k) by lia.
  by rewrite take_app_length.
Qed.
Lemma has_extension_append extension stem : stem ≠ "" → has_extension extension (stem +:+ ("." +:+ extension)) = true.
Proof.
  intros Hne. unfold has_extension. apply andb_true_iff. split.
  - apply bool_decide_eq_true_2. rewrite (str_bytes_append stem). by exists (str_bytes stem).
  - rewrite bool_decide_eq_false_2; [done|]. intros E. apply Hne, str_bytes_inj. apply (f_equal str_bytes) in E. rewrite (str_bytes_append stem) in E.
    apply (f_equal length) in E as E'. rewrite length_app in E'. destruct (str_bytes stem); [done|]. cbn in E'. lia.
Qed.
Lemma entries_ok directory w w' names :
  question (Filesystem.entries directory) w = (w', Some (Ok names)) →
  (∀ name, name ∈ names ↔ is_Some (live (disk w) !! (directory, name))) ∧ NoDup names ∧ disk w' = disk w.
Proof.
  intros [[= <-] Hd]%question_ok%observe_ok. split_and!; [| |done].
  - intros name. rewrite list_elem_of_omap. split.
    + intros ([[dir n] e] & He%elem_of_map_to_list & Hx). cbn in Hx. case_decide as Hdir; [|done]. injection Hx as <-. subst. by exists e.
    + intros [e He]. exists ((directory, name), e). rewrite elem_of_map_to_list. cbn. by rewrite decide_True.
  - pose proof (NoDup_fst_map_to_list (live (disk w))) as Hnd. revert Hnd. generalize (map_to_list (live (disk w))). intros l Hnd.
    induction l as [|[[dir n] e] l IH]; cbn; [constructor|]. cbn in Hnd. apply NoDup_cons in Hnd as [Hn Hnd]. specialize (IH Hnd). destruct (decide (dir = directory)) as [->|]; [|done].
    constructor; [|done]. intros ([[dir' n'] e'] & Hin & Hx)%list_elem_of_omap. cbn in Hx. case_decide; [|done]. injection Hx as <-. subst. apply Hn.
    apply list_elem_of_fmap. by exists ((directory, n'), e').
Qed.

(** * What is retained *)

(** The sets hold the identities and logs of [roots] and the segments [segs]. *)
Record retains (roots : list Manifest) (segs : list SegmentDescriptor) (kept : Retained) : Prop := {
  retains_manifests : ∀ id, bt_get id (kept_manifests kept) = Some tt ↔ ∃ m, m ∈ roots ∧ manifest_id m = id;
  retains_segments : ∀ id size, bt_get id (kept_segments kept) = Some size ↔ ∃ s, s ∈ segs ∧ segment_id s = id ∧ segment_bytes s = size;
  retains_wals : ∀ name, bt_get name (kept_wals kept) = Some tt ↔ ∃ m, m ∈ roots ∧ wal_name (wal_start_sequence (content m)) = name;
  retains_sorted : bt_sorted (kept_manifests kept) ∧ bt_sorted (kept_segments kept) ∧ bt_sorted (kept_wals kept)
}.

Lemma retains_nothing : retains [] [] retained_nothing.
Proof.
  constructor; cbn; [intros id|intros id size|intros name|split_and!; constructor]; (split; [done|]); intros (x & Hx & _); by apply not_elem_of_nil in Hx.
Qed.
Lemma bs_mem_get (id : string) s : bs_mem id s = true ↔ bt_get id s = Some tt.
Proof. unfold bs_mem, bt_mem. destruct (bt_get id s) as [[]|]; done. Qed.
Lemma bs_mem_false (id : string) s : bs_mem id s = false ↔ bt_get id s ≠ Some tt.
Proof. unfold bs_mem, bt_mem. destruct (bt_get id s) as [[]|]; naive_solver. Qed.

Lemma retain_segment_ok message roots segs kept s kept' :
  retains roots segs kept → retain_segment message kept (segment_id s) (segment_bytes s) = Ok kept' → retains roots (segs ++ [s]) kept'.
Proof.
  intros [Hm Hs Hw (S1 & S2 & S3)]. unfold retain_segment. intros E.
  assert (kept' = {| kept_manifests := kept_manifests kept; kept_segments := bt_insert (segment_id s) (segment_bytes s) (kept_segments kept); kept_wals := kept_wals kept |}
    ∧ (∀ size, bt_get (segment_id s) (kept_segments kept) = Some size → size = segment_bytes s)) as [-> Hold].
  { destruct (bt_get _ _) as [previous|]; [|by injection E as <-]. destruct (Z.eqb_spec previous (segment_bytes s)); [|done]. injection E as <-. split; [done|]. by intros ? [= <-]. }
  constructor; [done| |done|split_and!; [done|by apply bt_insert_sorted|done]]. cbn [kept_segments]. intros id size. rewrite bt_get_insert. case_decide as Hid.
  - subst id. split; [intros [= <-]; exists s; set_solver|]. intros (x & [Hx| ->%list_elem_of_singleton]%elem_of_app & Eid & <-); [|done].
    f_equal. symmetry. apply Hold. apply Hs. by exists x.
  - rewrite Hs. split; intros (x & Hx & Eid & Esz); exists x; [set_solver|]. apply elem_of_app in Hx as [?|?%list_elem_of_singleton]; [done|]. by subst.
Qed.

(** The manifests and logs grow by [m]. *)
Lemma retains_root roots segs kept m :
  retains roots segs kept →
  retains (roots ++ [m]) segs {| kept_manifests := bs_insert (manifest_id m) (kept_manifests kept); kept_segments := kept_segments kept;
    kept_wals := bs_insert (wal_name (wal_start_sequence (content m))) (kept_wals kept) |}.
Proof.
  intros [Hm Hs Hw (S1 & S2 & S3)].
  assert (∀ (key : Manifest → string) (k : list (string * unit)),
    (∀ id, bt_get id k = Some tt ↔ ∃ x, x ∈ roots ∧ key x = id) → ∀ id, bt_get id (bs_insert (key m) k) = Some tt ↔ ∃ x, x ∈ roots ++ [m] ∧ key x = id) as Hgrow.
  { intros key k Hk id. rewrite <-bs_mem_get, bs_mem_insert, orb_true_iff, bool_decide_eq_true, bs_mem_get, Hk. set_solver. }
  constructor; [apply Hgrow, Hm|done|apply (Hgrow (λ x, wal_name (wal_start_sequence (content x)))), Hw|split_and!; [by apply bt_insert_sorted|done|by apply bt_insert_sorted]].
Qed.

(** Deletions are charged by no one else. *)
Definition undeleted (b b' : ReclamationBudget) : Prop :=
  reclamation_limits b' = reclamation_limits b ∧ deleted_files b' = deleted_files b ∧ deleted_bytes b' = deleted_bytes b.
#[export] Instance undeleted_preorder : PreOrder undeleted.
Proof. split; [by intros b|]. intros a b c (? & ? & ?) (? & ? & ?). split_and!; congruence. Qed.

Section Facts.
Context `{Sha2Laws} `{Serde Content} `{SerdeLaws Manifest} `{SerdeLaws CurrentPointer} `{Serde Checkpoint} `{!SerdeLaws Checkpoint}.
Context (elapsed : nat → Z) (self : Collector).

Lemma tick_undeleted b b' : reclamation_tick elapsed b = Ok b' → undeleted b b'.
Proof. by intros ->%reclamation_tick_ok. Qed.
Lemma charge_undeleted b n b' : charge_entries elapsed b n = Ok b' → undeleted b b'.
Proof.
  unfold charge_entries. destruct (reclamation_tick elapsed b) as [b1|] eqn:Et; [|done]. apply tick_undeleted in Et. destruct (ok_or _ _); [|done]. destruct (reclamation_check _ _ _); [|done].
  by intros [= <-].
Qed.

Lemma retain_manifest_ok roots segs kept b m kept' b' :
  retains roots segs kept → retain_manifest elapsed (kept, b) m = Ok (kept', b') →
  undeleted b b' ∧ (bt_get (manifest_id m) (kept_manifests kept) = Some tt ∧ kept' = kept
  ∨ bt_get (manifest_id m) (kept_manifests kept) ≠ Some tt ∧ retains (roots ++ [m]) (segs ++ manifest_segments (content m)) kept').
Proof.
  intros Hk. unfold retain_manifest, charge_entry. destruct (charge_entries elapsed b 1) as [b1|] eqn:E1; [|done]. apply charge_undeleted in E1.
  destruct (bs_mem _ _) eqn:Em; [apply bs_mem_get in Em; intros [= <- <-]; by auto|]. apply bs_mem_false in Em.
  destruct (charge_entries elapsed b1 _) as [b2|] eqn:E2; [|done]. apply charge_undeleted in E2. destruct (manifest_validate m); [|done]. intros Hf. 
  apply (try_fold_passed (λ passed st, undeleted b st.2 ∧ retains (roots ++ [m]) (segs ++ passed) st.1)) in Hf as [Hb Hr]; [by auto| |].
  - split; [by rewrite E1|]. rewrite app_nil_r. by apply retains_root.
  - intros passed s [k1 b3] st' _ [Hb Hr]. cbn [fst snd] in *. destruct (reclamation_tick elapsed b3) as [b4|] eqn:E4; [|done]. apply tick_undeleted in E4.
    destruct (retain_segment _ _ _ _) as [k2|] eqn:E5; [|done]. intros [= <-]. cbn. split; [by rewrite Hb|]. rewrite app_assoc. by eapply retain_segment_ok.
Qed.

(** The segments pinned by open reads. *)
Definition view_segments : list SegmentDescriptor := map (λ entry, active_descriptor entry.2) (views_segments (active_read_views self)).
Lemma retain_views_ok roots segs kept b kept' b' :
  retains roots segs kept → retain_views elapsed self (kept, b) = Ok (kept', b') → undeleted b b' ∧ retains roots (segs ++ view_segments) kept'.
Proof.
  intros Hk Hf. unfold retain_views, visit_segments in Hf.
  apply (try_fold_passed (λ passed st, undeleted b st.2 ∧ retains roots (segs ++ map (λ entry : string * ActiveSegment, active_descriptor entry.2) passed) st.1)) in Hf; [done| |].
  - split; [done|]. by rewrite app_nil_r.
  - intros passed entry [k1 b1] st' _ [Hb Hr]. cbn [fst snd] in *. unfold charge_entry. destruct (charge_entries elapsed b1 1) as [b2|] eqn:E2; [|done]. apply charge_undeleted in E2.
    destruct (retain_segment _ _ _ _) as [k2|] eqn:E5; [|done]. intros [= <-]. cbn. split; [by rewrite Hb|]. rewrite map_app, app_assoc. by eapply retain_segment_ok.
Qed.

(** Reading and loading. *)
Lemma read_undeleted b p w w' l b' : read_metadata elapsed b p w = (w', Some (Ok (l, b'))) → undeleted b b'.
Proof.
  unfold read_metadata. destruct (reclamation_tick elapsed b) as [t|] eqn:Et; [|done]. intros (entry & w1 & _ & (found & w2 & _ & [Hl _]%lift_ok)%bind_ok)%bind_ok.
  unfold read_reclamation_metadata in Hl. rewrite Et in Hl. apply tick_undeleted in Et. destruct (negb _); [done|]. destruct (reclamation_check _ _ _); [|done].
  destruct (reclamation_check _ _ (saturating_add _ _ (len _))); [|done]. destruct (negb _); [done|].
  match type of Hl with context [reclamation_tick elapsed ?x] => destruct (reclamation_tick elapsed x) as [b2|] eqn:E2; [|done] end. apply tick_undeleted in E2. injection Hl as <- <-. by rewrite Et.
Qed.
Lemma load_undeleted store b digest w w' m b' : load_bounded store elapsed b digest w = (w', Some (Ok (m, b'))) → undeleted b b'.
Proof.
  unfold load_bounded, load_using. destruct (negb (is_sha256 digest)); [done|]. intros (entry & w1 & _ & Hk)%bind_ok. destruct entry as [f| |]; [|done..].
  apply bind_ok in Hk as ([found s'] & w2 & Hr%read_undeleted & (m' & w3 & _ & ([] & w4 & _ & Hk)%bind_ok)%bind_ok). destruct (negb _); [done|]. by injection Hk as <- <- <-.
Qed.

(** The checkpoints on disk. *)
Definition holds_checkpoint (d : Disk) (c : Checkpoint) : Prop :=
  ∃ name f, live d !! (Checkpoints, name) = Some (RegularFile f) ∧ has_extension "json" name = true ∧ from_slice (bytes f) = Ok c.

Lemma looks_checkpoint_at store st name : looks (checkpoint_at store elapsed st name).
Proof.
  unfold checkpoint_at. destruct st as [cs b]. apply looks_if; [apply looks_ret|]. apply looks_bind; [apply looks_read_metadata|]. intros [l b1].
  apply looks_bind; [apply looks_lift|]. intros c. apply looks_bind; [apply looks_lift|]. intros _. apply looks_bind; [apply looks_load_bounded|]. intros [m b2]. eauto with fs.
Qed.
Lemma looks_checkpoints store b : looks (checkpoints_bounded store elapsed b).
Proof.
  unfold checkpoints_bounded, checkpoints_inner, question, Filesystem.entries. apply looks_bind; [eauto with fs|]. intros names. apply looks_bind; [apply looks_lift|]. intros [l b1].
  apply looks_bind; [apply looks_fold, looks_checkpoint_at|]. intros [cs b2]. apply looks_ret.
Qed.
Definition found_checkpoints (d : Disk) (b : ReclamationBudget) (names : list string) (st : list Checkpoint * ReclamationBudget) : Prop :=
  undeleted b st.2 ∧ ∀ c, c ∈ st.1 ↔ ∃ name f, name ∈ names ∧ live d !! (Checkpoints, name) = Some (RegularFile f) ∧ has_extension "json" name = true ∧ from_slice (bytes f) = Ok c.
Lemma checkpoints_ok store b w w' cs b' :
  checkpoints_bounded store elapsed b w = (w', Some (Ok (cs, b'))) → (∀ c, c ∈ cs ↔ holds_checkpoint (disk w) c) ∧ undeleted b b'.
Proof.
  unfold checkpoints_bounded, checkpoints_inner. intros (names & w1 & (Hn & _ & Hd1)%entries_ok & ([found b1] & w2 & [Hf ->]%lift_ok & ([passed b2] & w3 & Hc & Hret)%bind_ok)%bind_ok)%bind_ok.
  injection Hret as _ <- <-.
  apply (try_fold_passed (λ passed st, st.1 = passed ∧ undeleted b st.2)) in Hf as [Ef Hb1]; [cbn [fst snd] in *; subst found|done|].
  2:{ intros passed' x [l b3] st' _ [El Hb]. cbn [fst snd] in *. subst l. unfold charge_entry. destruct (charge_entries elapsed b3 1) as [b4|] eqn:E4; [|done]. apply charge_undeleted in E4.
      destruct (_ <=? _); [done|]. intros [= <-]. cbn. split; [done|]. by rewrite Hb. }
  apply (fold_ok (found_checkpoints (disk w) b) _ (disk w)) in Hc as [[Hb2 Hcs] _]; [|apply looks_checkpoint_at|done| |].
  - split; [|done]. intros c. rewrite sort_by_perm, Hcs. unfold holds_checkpoint. cbn [fst].
    split; [intros (name & f & _ & Hl & Hx); by exists name, f|intros (name & f & Hl & Hx)]. exists name, f. split; [|done]. rewrite sort_by_perm. apply Hn. by rewrite Hl.
  - split; [done|]. intros c. split; [by intros ?%not_elem_of_nil|]. by intros (? & ? & ?%not_elem_of_nil & _).
  - intros passed' name [cs' b3] w4 w5 st' _ Hd4 [Hb Hi] Hat. cbn [fst snd] in *. unfold checkpoint_at in Hat. destruct (has_extension "json" name) eqn:Ex; cbn [negb] in Hat.
    + apply bind_ok in Hat as ([l b4] & w6 & Hr & (c & w7 & [Hdec ->]%lift_ok & ([] & w8 & [_ ->]%lift_ok & ([m b5] & w9 & Hload & Hat)%bind_ok)%bind_ok)%bind_ok).
      pose proof (read_undeleted _ _ _ _ _ _ Hr) as Hb4. apply load_undeleted in Hload. apply read_metadata_ok in Hr as (f & Hl & ->). rewrite Hd4 in Hl.
      destruct (negb _); [done|]. injection Hat as <- <-. unfold found_checkpoints. cbn [fst snd]. split; [by rewrite Hb, Hb4|]. intros c'. rewrite elem_of_app, list_elem_of_singleton, Hi. split.
      * intros [(n & f' & Hn' & HX)| ->]; [exists n, f'; set_solver|]. exists name, f. split; [set_solver|done].
      * intros (n & f' & [Hn'| ->%list_elem_of_singleton]%elem_of_app & Hl' & Hx' & Hdec'); [left; by exists n, f'|right].
        pose proof (eq_trans (eq_sym Hl) Hl') as [= <-]. congruence.
    + injection Hat as _ <-. unfold found_checkpoints. split; [done|]. intros c'. rewrite Hi. split.
      * intros (n & f' & Hn' & HX). exists n, f'. set_solver.
      * intros (n & f' & [Hn'| ->%list_elem_of_singleton]%elem_of_app & Hl' & Hx' & Hdec'); [by exists n, f'|congruence].
Qed.

(** ** The roots of a collection *)

(** The manifest that the disk holds under its digest. *)
Definition held (d : Disk) (digest : string) (m : Manifest) : Prop := ∃ f, live d !! manifest_path digest = Some (RegularFile f) ∧ from_slice (bytes f) = Ok m.
Lemma held_unique d digest m m' : held d digest m → held d digest m' → m = m'.
Proof. intros (f & Hf & Hm) (f' & Hf' & Hm'). rewrite Hf in Hf'. injection Hf' as <-. congruence. Qed.

(** The current manifest, and those of the checkpoints on disk. *)
Definition root (d : Disk) (m : Manifest) : Prop := m = gc_manifest self ∨ ∃ c, holds_checkpoint d c ∧ held d (checkpoint_manifest c) m.
(** The segments they and the open reads refer to. *)
Definition root_segment (d : Disk) (s : SegmentDescriptor) : Prop := (∃ m, root d m ∧ s ∈ manifest_segments (content m)) ∨ s ∈ view_segments.

Record gathered (d : Disk) (passed : list Checkpoint) (kept : Retained) (roots : list Manifest) (segs : list SegmentDescriptor) : Prop := {
  gathered_retains : retains roots segs kept;
  gathered_current : gc_manifest self ∈ roots;
  gathered_held : ∀ m, m ∈ roots → held d (manifest_id m) m;
  gathered_roots : ∀ m, m ∈ roots → root d m;
  gathered_passed : ∀ c, c ∈ passed → ∃ m, m ∈ roots ∧ manifest_id m = checkpoint_manifest c;
  gathered_segments : ∀ s, s ∈ segs ↔ (∃ m, m ∈ roots ∧ s ∈ manifest_segments (content m)) ∨ s ∈ view_segments
}.

Lemma looks_retain_checkpoint st c : looks (retain_checkpoint elapsed self st c).
Proof. unfold retain_checkpoint. destruct st as [kept b]. apply looks_if; [apply looks_ret|]. apply looks_bind; [apply looks_load_bounded|]. intros [m b1]. apply looks_lift. Qed.

Lemma retain_checkpoint_ok d passed kept roots segs b c w w' kept' b' :
  disk w = d → holds_checkpoint d c → gathered d passed kept roots segs → retain_checkpoint elapsed self (kept, b) c w = (w', Some (Ok (kept', b'))) →
  undeleted b b' ∧ ∃ roots' segs', gathered d (passed ++ [c]) kept' roots' segs'.
Proof.
  intros Hd Hc [Hr Hcur Hh Hroot Hp Hs]. unfold retain_checkpoint. destruct (bs_mem (checkpoint_manifest c) (kept_manifests kept)) eqn:Em.
  - apply bs_mem_get, (retains_manifests _ _ _ Hr) in Em. intros [= <- <- <-]. split; [done|]. exists roots, segs. constructor; try done.
    intros c' [?| ->%list_elem_of_singleton]%elem_of_app; [by apply Hp|done].
  - apply bs_mem_false in Em. intros ([m b1] & w1 & Hload & [Hk ->]%lift_ok)%bind_ok. pose proof (load_undeleted _ _ _ _ _ _ _ Hload) as Hb1.
    apply load_bounded_ok in Hload as (Eid & _ & f & Hf & Hdec). rewrite Hd in Hf. destruct (retain_manifest_ok _ _ _ _ _ _ _ Hr Hk) as [Hb2 [[Hin _]|[_ Hr']]]; [by rewrite Eid in Hin|].
    split; [by rewrite Hb1|]. exists (roots ++ [m]), (segs ++ manifest_segments (content m)). assert (held d (checkpoint_manifest c) m) as Hheld by (by exists f).
    constructor; [done|set_solver| | | |].
    + intros m' [?| ->%list_elem_of_singleton]%elem_of_app; [by apply Hh|by rewrite Eid].
    + intros m' [?| ->%list_elem_of_singleton]%elem_of_app; [by apply Hroot|right; by exists c].
    + intros c' [Hin| ->%list_elem_of_singleton]%elem_of_app; [destruct (Hp c' Hin) as (m' & ? & ?); exists m'; set_solver|]. exists m. set_solver.
    + intros s. rewrite elem_of_app, Hs. set_solver.
Qed.

Lemma retain_all_ok w w' kept b :
  live (disk w) !! manifest_path (manifest_id (gc_manifest self)) = manifest_entry (gc_manifest self) →
  retain_all elapsed self w = (w', Some (Ok (kept, b))) →
  undeleted (ReclamationBudget_new (gc_reclamation self)) b ∧ ∃ roots segs, retains roots segs kept ∧ (∀ m, m ∈ roots ↔ root (disk w) m) ∧ (∀ s, s ∈ segs ↔ root_segment (disk w) s).
Proof.
  intros Hcur. unfold retain_all. intros ([k1 b1] & w1 & [Q1 ->]%lift_ok & ([k2 b2] & w2 & [Q2 ->]%lift_ok & ([cs b3] & w3 & Q3 & Q4)%bind_ok)%bind_ok)%bind_ok.
  destruct (retain_manifest_ok _ _ _ _ _ _ _ retains_nothing Q1) as [Hb1 [[Hin _]|[_ Hr1]]]; [done|].
  destruct (retain_views_ok _ _ _ _ _ _ Hr1 Q2) as [Hb2 Hr2]. pose proof (looks_ok _ _ _ _ (looks_checkpoints _ _) Q3) as Hd3. apply checkpoints_ok in Q3 as [Hcs Hb3].
  set (d := disk w) in *. set (b0 := ReclamationBudget_new (gc_reclamation self)) in *.
  assert (held d (manifest_id (gc_manifest self)) (gc_manifest self)) as Hheld by (eexists; split; [exact Hcur|apply serde_round_trip]).
  apply (fold_ok (λ passed st, undeleted b0 st.2 ∧ ∃ roots segs, gathered d passed st.1 roots segs) _ d) in Q4 as [(Hb4 & roots & segs & [Hr Hc Hh Hroot Hp Hs]) _]; [|apply looks_retain_checkpoint|done| |].
  - split; [done|]. exists roots, segs. assert (∀ m, m ∈ roots ↔ root d m) as Hroots.
    { intros m. split; [apply Hroot|]. intros [->|(c & Hc' & Hm)]; [done|]. apply Hcs in Hc'. destruct (Hp c Hc') as (m' & Hin & Eid).
      specialize (Hh m' Hin). rewrite Eid in Hh. by rewrite (held_unique _ _ _ _ Hm Hh). }
    split_and!; [done|done|]. intros s. rewrite Hs. unfold root_segment. by setoid_rewrite Hroots.
  - split; [by rewrite Hb1, Hb2|]. eexists _, _. constructor; [exact Hr2|set_solver| | | |].
    + by intros m ->%list_elem_of_singleton.
    + intros m ->%list_elem_of_singleton. by left.
    + by intros c ?%not_elem_of_nil.
    + intros s. set_solver.
  - intros passed c [k b5] w4 w5 [k' b6] Hin%Hcs Hd4 (Hb & roots & segs & Hg) Hstep. cbn [fst snd] in *.
    destruct (retain_checkpoint_ok _ _ _ _ _ _ _ _ _ _ _ Hd4 Hin Hg Hstep) as (Hb' & Hex). split; [by rewrite Hb|done].
Qed.

(** ** The survey *)

(** Everything the roots refer to is there. *)
Definition intact (d : Disk) : Prop :=
  (∀ m, root d m → ∃ m', held d (manifest_id m) m')
  ∧ (∀ s, root_segment d s → ∃ f, live d !! segment_path (segment_id s) = Some (RegularFile f) ∧ len (bytes f) = segment_bytes s)
  ∧ ∀ m, root d m → ∃ f, live d !! wal_path (wal_start_sequence (content m)) = Some (RegularFile f).

(** The manifests, segments and logs nothing refers to. *)
Definition unreachable (d : Disk) (p : Path) : Prop :=
  (∃ f, live d !! p = Some (RegularFile f)) ∧
  match p.1 with
  | Manifests => has_extension "json" p.2 = true ∧ ¬ ∃ m, root d m ∧ p = manifest_path (manifest_id m)
  | Segments => has_extension "seg" p.2 = true ∧ ¬ ∃ s, root_segment d s ∧ p = segment_path (segment_id s)
  | Wals => has_extension "wal" p.2 = true ∧ ¬ ∃ m, root d m ∧ p = wal_path (wal_start_sequence (content m))
  | _ => False
  end.

Lemma check_all {A} (f : ReclamationBudget → A → io Error ReclamationBudget) (P : A → Prop) d l b w w' b' :
  (∀ b x, looks (f b x)) → disk w = d → (∀ b x w w' b', disk w = d → f b x w = (w', Some (Ok b')) → P x ∧ undeleted b b') →
  io_fold f b l w = (w', Some (Ok b')) → (∀ x, x ∈ l → P x) ∧ undeleted b b' ∧ disk w' = d.
Proof.
  intros Hl Hd Hf Hfold. apply (fold_ok (λ passed b', (∀ x, x ∈ passed → P x) ∧ undeleted b b') f d) in Hfold as [[HP Hb] Hd']; [done|done|done| |].
  - split; [|done]. by intros x ?%not_elem_of_nil.
  - intros passed x b1 w1 w2 b2 _ Hd1 [HP Hb] Hx. destruct (Hf _ _ _ _ _ Hd1 Hx) as [HPx Hb']. split; [|by rewrite Hb].
    by intros y [?| ->%list_elem_of_singleton]%elem_of_app; [apply HP|].
Qed.

Lemma looks_check_manifest b x : looks (check_manifest elapsed self b x).
Proof. unfold check_manifest. apply looks_bind; [apply looks_load_bounded|]. intros [m b1]. apply looks_ret. Qed.
Lemma looks_check_segment b x : looks (check_segment elapsed b x).
Proof. unfold check_segment, question, metadata. apply looks_bind; [apply looks_lift|]. intros b1. apply looks_bind; [eauto with fs|]. intros [f| |]; eauto with fs. Qed.
Lemma looks_check_wal b x : looks (check_wal elapsed b x).
Proof. unfold check_wal, question, metadata. apply looks_bind; [apply looks_lift|]. intros b1. apply looks_bind; [eauto with fs|]. intros [f| |]; eauto with fs. Qed.

Lemma metadata_ok p w w' e : question (metadata p) w = (w', Some (Ok e)) → live (disk w) !! p = Some e ∧ disk w' = disk w.
Proof. intros [Hm Hd]%question_ok%observe_ok. split; [|done]. by destruct (live (disk w) !! p) as [[]|]; simplify_eq/=. Qed.

Lemma check_manifest_ok d b x w w' b' :
  disk w = d → check_manifest elapsed self b x w = (w', Some (Ok b')) → (∃ m, held d x.1 m) ∧ undeleted b b'.
Proof.
  intros Hd ([m b1] & w1 & Hload & Hret)%bind_ok. injection Hret as <- <-. pose proof (load_undeleted _ _ _ _ _ _ _ Hload) as Hb.
  apply load_bounded_ok in Hload as (_ & _ & f & Hf & Hdec). rewrite Hd in Hf. split; [|done]. by exists m, f.
Qed.
Lemma check_segment_ok d b x w w' b' :
  disk w = d → check_segment elapsed b x w = (w', Some (Ok b')) → (∃ f, live d !! segment_path x.1 = Some (RegularFile f) ∧ len (bytes f) = x.2) ∧ undeleted b b'.
Proof.
  intros Hd (b1 & w1 & [Hb%charge_undeleted ->]%lift_ok & (e & w2 & [Hm _]%metadata_ok & Hk)%bind_ok)%bind_ok. rewrite Hd in Hm. destruct e as [f| |]; [|done..].
  destruct (Z.eqb_spec (len (bytes f)) x.2); [|done]. injection Hk as <- <-. split; [by exists f|done].
Qed.
Lemma check_wal_ok d b x w w' b' :
  disk w = d → check_wal elapsed b x w = (w', Some (Ok b')) → (∃ f, live d !! ((Wals, x.1) : Path) = Some (RegularFile f)) ∧ undeleted b b'.
Proof.
  intros Hd (b1 & w1 & [Hb%charge_undeleted ->]%lift_ok & (e & w2 & [Hm _]%metadata_ok & Hk)%bind_ok)%bind_ok. rewrite Hd in Hm. destruct e as [f| |]; [|done..].
  injection Hk as <- <-. split; [by exists f|done].
Qed.

(** The candidates of a directory. *)
Definition candidate (d : Disk) (directory : Directory) (extension : string) (retained : list (string * unit)) (name : string) (size : Z) : Prop :=
  ∃ f, live d !! ((directory, name) : Path) = Some (RegularFile f) ∧ has_extension extension name = true ∧ size = len (bytes f)
    ∧ bt_get (if bool_decide (extension = "wal") then name else file_stem extension name) retained ≠ Some tt.
Definition found_candidates (d : Disk) (directory : Directory) (extension : string) (retained : list (string * unit)) (b : ReclamationBudget)
    (passed : list string) (st : list (string * Z) * ReclamationBudget) : Prop :=
  undeleted b st.2 ∧ map fst st.1 `sublist_of` passed ∧ ∀ name size, (name, size) ∈ st.1 ↔ name ∈ passed ∧ candidate d directory extension retained name size.

Lemma looks_candidate directory extension retained st name : looks (candidate_at elapsed directory extension retained st name).
Proof.
  unfold candidate_at, question, metadata. destruct st as [l b]. apply looks_bind; [apply looks_lift|]. intros b1. apply looks_bind; [eauto with fs|]. intros [f| |]; eauto with fs.
Qed.
Lemma candidate_at_ok d directory extension retained b passed st name w w' st' :
  disk w = d → found_candidates d directory extension retained b passed st → candidate_at elapsed directory extension retained st name w = (w', Some (Ok st')) →
  found_candidates d directory extension retained b (passed ++ [name]) st'.
Proof.
  intros Hd (Hb & Hsub & Hc). unfold candidate_at. destruct st as [l b1]. cbn [fst snd] in *.
  intros (b2 & w1 & [Hb2%charge_undeleted ->]%lift_ok & (e & w2 & [Hm _]%metadata_ok & Hk)%bind_ok)%bind_ok. rewrite Hd in Hm.
  assert (∀ l' : list (string * Z), (l' = l ∧ (∀ size, ¬ candidate d directory extension retained name size) ∨ ∃ size, l' = l ++ [(name, size)] ∧ ∀ x, candidate d directory extension retained name x ↔ x = size) →
    found_candidates d directory extension retained b (passed ++ [name]) (l', b2)) as Hfound.
  { intros l' [[-> Hno]|(size & -> & Hyes)]; (split; [by rewrite Hb|]); cbn [fst snd]; (split; [rewrite ?map_app; by apply sublist_app||by apply sublist_inserts_r|]); intros n x.
    - rewrite Hc, elem_of_app, list_elem_of_singleton. split; [by intros [? ?]; auto|]. intros [[?| ->] Hx]; [done|]. by destruct (Hno x).
    - rewrite !elem_of_app, !list_elem_of_singleton, Hc. split.
      + intros [[? ?]|[= -> ->]]; [by auto|]. split; [by right|]. by apply Hyes.
      + intros [[?| ->] Hx]; [by left|right]. apply Hyes in Hx. by subst. }
  destruct e as [f| |]; [|injection Hk as <- <-; apply Hfound; left; split; [done|]; intros size (f & Hf & _); rewrite Hm in Hf; done..].
  destruct (has_extension extension name) eqn:Ex; cbn [negb] in Hk.
  - destruct (utf8_valid _); [|done]. cbn [negb] in Hk. destruct (bs_mem _ retained) eqn:Em; injection Hk as <- <-; apply Hfound.
    + left. split; [done|]. intros size (f' & _ & _ & _ & Hx). by apply bs_mem_get in Em.
    + right. exists (len (bytes f)). split; [done|]. apply bs_mem_false in Em. intros x. split.
      * intros (f' & Hf' & _ & -> & _). rewrite Hm in Hf'. by injection Hf' as <-.
      * intros ->. by exists f.
  - injection Hk as <- <-. apply Hfound. left. split; [done|]. intros size (f' & _ & Hx & _). congruence.
Qed.

Lemma looks_unreachable directory extension retained b : looks (unreachable_files elapsed directory extension retained b).
Proof.
  unfold unreachable_files, question, Filesystem.entries. apply looks_bind; [eauto with fs|]. intros names. apply looks_bind; [apply looks_fold, looks_candidate|]. intros [l b1]. apply looks_ret.
Qed.
Lemma unreachable_ok directory extension retained b w w' l b' :
  unreachable_files elapsed directory extension retained b w = (w', Some (Ok (l, b'))) →
  undeleted b b' ∧ NoDup (map fst l) ∧ ∀ name size, (name, size) ∈ l ↔ candidate (disk w) directory extension retained name size.
Proof.
  unfold unreachable_files. intros (names & w1 & (Hn & Hnd & Hd1)%entries_ok & ([found b1] & w2 & Hf & Hret)%bind_ok)%bind_ok. injection Hret as <- <- <-.
  apply (fold_ok (found_candidates (disk w) directory extension retained b) _ (disk w)) in Hf as [(Hb & Hsub & Hc) _]; [|apply looks_candidate|done| |].
  - split_and!; [done| |].
    + eapply sublist_NoDup in Hsub; [|done]. eapply NoDup_Permutation_proper; [|exact Hsub]. apply Permutation_map, sort_by_perm.
    + intros name size. rewrite sort_by_perm. cbn [fst] in Hc. rewrite Hc. split; [by intros [_ ?]|]. intros Hx. split; [|done]. apply Hn. destruct Hx as (f & Hf & _). by exists (RegularFile f).
  - split_and!; [done|done|]. intros name size. split; [by intros ?%not_elem_of_nil|]. by intros [?%not_elem_of_nil _].
  - intros passed name st w3 w4 st' _ Hd3 Hi Hat. by eapply candidate_at_ok.
Qed.

(** A list of exactly the unreachable files of a directory, with their lengths. *)
Definition lists (d : Disk) (directory : Directory) (l : list (string * Z)) : Prop :=
  NoDup (map fst l) ∧ ∀ name size, (name, size) ∈ l ↔ unreachable d (directory, name) ∧ ∃ f, live d !! ((directory, name) : Path) = Some (RegularFile f) ∧ size = len (bytes f).
Lemma lists_candidates d directory extension retained l :
  NoDup (map fst l) → (∀ name size, (name, size) ∈ l ↔ candidate d directory extension retained name size) →
  (∀ name f, live d !! ((directory, name) : Path) = Some (RegularFile f) →
    unreachable d (directory, name) ↔ has_extension extension name = true ∧ bt_get (if bool_decide (extension = "wal") then name else file_stem extension name) retained ≠ Some tt) →
  lists d directory l.
Proof.
  intros Hnd Hc Hu. split; [done|]. intros name size. rewrite Hc. unfold candidate. split.
  - intros (f & Hf & Hx & -> & Hr). split; [by apply (Hu name f)|by exists f].
  - intros [Hun (f & Hf & ->)]. apply (Hu name f Hf) in Hun as [Hx Hr]. by exists f.
Qed.

Lemma looks_ready : looks (ensure_writer_ready self).
Proof. unfold ensure_writer_ready. apply looks_bind; [by intros w|]. intros _. destruct (writer_requires_reopen self); eauto with fs. Qed.
Lemma looks_retain_all : looks (retain_all elapsed self).
Proof.
  unfold retain_all. apply looks_bind; [apply looks_lift|]. intros st. apply looks_bind; [apply looks_lift|]. intros [kept b]. apply looks_bind; [apply looks_checkpoints|].
  intros [cs b1]. apply looks_fold, looks_retain_checkpoint.
Qed.
Lemma looks_survey : looks (survey elapsed self).
Proof.
  unfold survey. apply looks_bind; [apply looks_ready|]. intros _. apply looks_bind; [apply looks_retain_all|].
  intros [kept b]. apply looks_bind; [apply looks_fold, looks_check_manifest|]. intros b1. apply looks_bind; [apply looks_fold, looks_check_segment|]. intros b2.
  apply looks_bind; [apply looks_fold, looks_check_wal|]. intros b3. apply looks_bind; [apply looks_unreachable|]. intros [l1 b4].
  apply looks_bind; [apply looks_unreachable|]. intros [l2 b5]. apply looks_bind; [apply looks_unreachable|]. intros [l3 b6]. eauto with fs.
Qed.

Lemma segment_ids_get id (l : list (string * Z)) : bt_get id (map (λ entry : string * Z, (entry.1, tt)) l) = Some tt ↔ ∃ size, bt_get id l = Some size.
Proof.
  induction l as [|[k size] l IH]; cbn [map bt_get]; [split; [done|by intros [? ?]]|]. cbn [fst]. destruct (cmp id k); [split; [by exists size|done]|done|done].
Qed.

Lemma survey_ok w w' found :
  live (disk w) !! manifest_path (manifest_id (gc_manifest self)) = manifest_entry (gc_manifest self) →
  survey elapsed self w = (w', Some (Ok found)) →
  (∃ roots segs, retains roots segs (surveyed found) ∧ (∀ m, m ∈ roots ↔ root (disk w) m) ∧ (∀ s, s ∈ segs ↔ root_segment (disk w) s))
  ∧ intact (disk w) ∧ lists (disk w) Manifests (manifest_candidates found) ∧ lists (disk w) Segments (segment_candidates found) ∧ lists (disk w) Wals (wal_candidates found)
  ∧ undeleted (ReclamationBudget_new (gc_reclamation self)) (survey_budget found).
Proof.
  intros Hcur. set (d := disk w) in *. unfold survey. intros ([] & w1 & Hready & Hk)%bind_ok.
  pose proof (looks_ok _ _ _ _ looks_ready Hready) as Hd1. fold d in Hd1. apply bind_ok in Hk as ([kept b] & w2 & Hall & Hk).
  pose proof (looks_ok _ _ _ _ looks_retain_all Hall) as Hd2. rewrite Hd1 in Hd2. apply retain_all_ok in Hall as (Hb & roots & segs & Hr & Hroots & Hsegs); [|by rewrite Hd1]. rewrite Hd1 in Hroots, Hsegs.
  apply bind_ok in Hk as (b1 & w3 & Hm & (b2 & w4 & Hs & (b3 & w5 & Hw & Hk)%bind_ok)%bind_ok).
  apply (check_all _ (λ x, ∃ m, held d x.1 m) d) in Hm as (Hm & Hb1 & Hd3); [|apply looks_check_manifest|done|intros *; apply check_manifest_ok].
  apply (check_all _ (λ x, ∃ f, live d !! segment_path x.1 = Some (RegularFile f) ∧ len (bytes f) = x.2) d) in Hs as (Hs & Hb2 & Hd4); [|apply looks_check_segment|done|intros *; apply check_segment_ok].
  apply (check_all _ (λ x, ∃ f, live d !! ((Wals, x.1) : Path) = Some (RegularFile f)) d) in Hw as (Hw & Hb3 & Hd5); [|apply looks_check_wal|done|intros *; apply check_wal_ok].
  apply bind_ok in Hk as ([l1 b4] & w6 & U1 & ([l2 b5] & w7 & U2 & ([l3 b6] & w8 & U3 & (b7 & w9 & [Ht%tick_undeleted ->]%lift_ok & Hret)%bind_ok)%bind_ok)%bind_ok).
  pose proof (looks_ok _ _ _ _ (looks_unreachable _ _ _ _) U1) as Hd6. pose proof (looks_ok _ _ _ _ (looks_unreachable _ _ _ _) U2) as Hd7.
  apply unreachable_ok in U1 as (Hb4 & N1 & C1), U2 as (Hb5 & N2 & C2), U3 as (Hb6 & N3 & C3). rewrite Hd5 in Hd6, C1. rewrite Hd6 in Hd7, C2. rewrite Hd7 in C3.
  injection Hret as _ <-. cbn [surveyed manifest_candidates segment_candidates wal_candidates survey_budget]. destruct Hr as [Rm Rs Rw Rsort].
  split; [by exists roots, segs|]. split; [|split; [|split; [|split; [|by rewrite Hb, Hb1, Hb2, Hb3, Hb4, Hb5, Hb6]]]].
  - split_and!.
    + intros m Hin%Hroots. apply (Hm (manifest_id m, tt)). apply bt_get_elem, Rm. by exists m.
    + intros s Hin%Hsegs. apply (Hs (segment_id s, segment_bytes s)). apply bt_get_elem, Rs. by exists s.
    + intros m Hin%Hroots. apply (Hw (wal_name (wal_start_sequence (content m)), tt)). apply bt_get_elem, Rw. by exists m.
  - eapply lists_candidates; [done|exact C1|]. intros name f Hf. rewrite Rm. unfold unreachable. cbn [fst snd]. split.
    + intros [_ [Hx Hno]]. split; [done|]. intros (m & Hin%Hroots & Eid). apply Hno. exists m. split; [done|]. unfold manifest_path. f_equal. rewrite Eid. by apply has_extension_stem in Hx.
    + intros [Hx Hno]. split_and!; [by exists f|done|]. intros (m & Hin%Hroots & [= Ename]). apply Hno. exists m. split; [done|]. rewrite Ename. symmetry. apply (file_stem_append "json").
  - eapply lists_candidates; [done|exact C2|]. intros name f Hf. rewrite segment_ids_get. setoid_rewrite Rs. unfold unreachable. cbn [fst snd]. split.
    + intros [_ [Hx Hno]]. split; [done|]. intros (size & s & Hin%Hsegs & Eid & _). apply Hno. exists s. split; [done|]. unfold segment_path. f_equal. rewrite Eid. by apply has_extension_stem in Hx.
    + intros [Hx Hno]. split_and!; [by exists f|done|]. intros (s & Hin%Hsegs & [= Ename]). apply Hno. exists (segment_bytes s), s. split_and!; [done| |done]. rewrite Ename. symmetry. apply (file_stem_append "seg").
  - eapply lists_candidates; [done|exact C3|]. intros name f Hf. rewrite Rw. unfold unreachable. cbn [fst snd]. split.
    + intros [_ [Hx Hno]]. split; [done|]. intros (m & Hin%Hroots & Eid). apply Hno. exists m. split; [done|]. unfold wal_path. by f_equal.
    + intros [Hx Hno]. split_and!; [by exists f|done|]. intros (m & Hin%Hroots & [= Ename]). apply Hno. by exists m.
Qed.

(** ** Deletion *)

(** Between the disks, some files of [ps] may have gone, and nothing else has changed. *)
Definition swept (ps : Path → Prop) (d0 d : Disk) : Prop :=
  (∀ p e, may_hold d p e → may_hold d0 p e ∨ ps p ∧ e = None) ∧ ∀ p, live d !! p = live d0 !! p ∨ ps p ∧ live d !! p = None.
Lemma swept_refl ps d : swept ps d d.
Proof. split; [by left|by left]. Qed.
Lemma swept_trans ps d0 d1 d2 : swept ps d0 d1 → swept ps d1 d2 → swept ps d0 d2.
Proof.
  intros [H1a H1b] [H2a H2b]. split.
  - intros p e [He|?]%H2a; [by apply H1a|by right].
  - intros p. destruct (H2b p) as [->|?]; [apply H1b|by right].
Qed.
Lemma swept_mono (ps qs : Path → Prop) d0 d : (∀ p, ps p → qs p) → swept ps d0 d → swept qs d0 d.
Proof. intros Hpq [Ha Hb]. split; [intros p e He; destruct (Ha p e He) as [?|[? ?]]; auto|intros p; destruct (Hb p) as [?|[? ?]]; auto]. Qed.
Lemma swept_remove p d : swept (λ q, q = p) d (set_entry p None d).
Proof.
  split.
  - by intros q e [?|[-> ->]]%may_hold_set; auto.
  - intros q. cbn. destruct (decide (q = p)) as [->|Hne]; [rewrite lookup_partial_alter_eq; by right|]. rewrite lookup_partial_alter_ne by done. by left.
Qed.
Lemma swept_sync ps directory d : swept ps d (sync_entries directory d).
Proof. split; [intros p e [? _]%may_hold_sync; by left|by left]. Qed.

Lemma sync_directory_cases directory w w' r :
  sync_directory directory w = (w', r) → publication_uncertain w' = publication_uncertain w ∧ (disk w' = disk w ∨ disk w' = sync_entries directory (disk w))
    ∧ (r = Some (Ok tt) → disk w' = sync_entries directory (disk w)).
Proof.
  unfold sync_directory, effect, whole. destruct (replies w) as [|[|reason n|n] rs]; intros [= <- <-]; cbn; try destruct (n =? 0)%nat; auto; (split_and!; [done|by auto|done]).
Qed.
Lemma remove_file_cases p w w' r :
  remove_file p w = (w', r) → publication_uncertain w' = publication_uncertain w ∧ swept (λ q, q = p) (disk w) (disk w')
    ∧ (r = Some (Ok tt) → disk w' = sync_entries p.1 (set_entry p None (disk w))).
Proof.
  unfold remove_file, io_bind. destruct (live (disk w) !! p); [|intros [= <- <-]; split_and!; [done|apply swept_refl|done]].
  assert (swept (λ q, q = p) (disk w) (set_entry p None (disk w))) as Hs by apply swept_remove.
  unfold effect at 1, whole. destruct (replies w) as [|[|reason n|n] rs]; cbn beta iota.
  1-2: intros (Hu & Hd & Hok)%sync_directory_cases; cbn in *; split_and!; [done| |done]; destruct Hd as [->| ->]; [done|]; eapply swept_trans; [done|apply swept_sync].
  all: intros [= <- <-]; cbn; (split_and!; [done| |done]); destruct (n =? 0)%nat; [apply swept_refl|done].
Qed.

(** What is left after the deletion of some names. *)
Definition without (directory : Directory) (names : list string) (d0 d : Disk) : Prop :=
  (∀ p, live d !! p = if decide (p.1 = directory ∧ p.2 ∈ names) then None else live d0 !! p) ∧ ∀ name, name ∈ names → only (directory, name) None d.
Lemma without_nil directory d : without directory [] d d.
Proof. split; [|by intros ? ?%not_elem_of_nil]. intros p. rewrite decide_False; [done|]. by intros [_ ?%not_elem_of_nil]. Qed.
Lemma without_snoc directory names name d0 d :
  without directory names d0 d → without directory (names ++ [name]) d0 (sync_entries directory (set_entry (directory, name) None d)).
Proof.
  intros [Hl Ho]. assert (∀ p, live (set_entry (directory, name) None d) !! p = if decide (p.1 = directory ∧ p.2 ∈ names ++ [name]) then None else live d0 !! p) as Hl'.
  { intros p. cbn. destruct (decide (p = (directory, name))) as [->|Hne].
    - rewrite lookup_partial_alter_eq, decide_True; [done|]. set_solver.
    - rewrite lookup_partial_alter_ne, Hl by done. destruct p as [dir n]. cbn. apply decide_ext. rewrite elem_of_app, list_elem_of_singleton. naive_solver. }
  split; [exact Hl'|]. intros n Hn e [He Hlive]%may_hold_sync. rewrite (Hlive eq_refl), Hl'. by rewrite decide_True.
Qed.
Lemma without_sync directory names d0 d : without directory names d0 d → without directory names d0 (sync_entries directory d).
Proof. intros [Hl Ho]. split; [exact Hl|]. intros name Hn e [He _]%may_hold_sync. by apply (Ho name). Qed.

Definition sizes (l : list (string * Z)) : Z := foldr (λ x total, x.2 + total) 0 l.
(** Deletions charged. *)
Definition charged (l : list (string * Z)) (b b' : ReclamationBudget) : Prop :=
  reclamation_limits b' = reclamation_limits b ∧ deleted_files b' = deleted_files b + len l ∧ deleted_bytes b' = deleted_bytes b + sizes l
  ∧ (deleted_files b ≤ delete_files_limit (reclamation_limits b) → deleted_files b' ≤ delete_files_limit (reclamation_limits b))
  ∧ (deleted_bytes b ≤ delete_bytes_limit (reclamation_limits b) → deleted_bytes b' ≤ delete_bytes_limit (reclamation_limits b)).
Lemma admit_charged b name size b' : admit_delete elapsed b size = Ok (true, b') → charged [(name, size)] b b'.
Proof.
  unfold admit_delete. destruct (reclamation_check _ _ _); [|done]. destruct (_ || _ || _)%bool eqn:E; [done|]. apply orb_false_iff in E as [[_ E1%Z.eqb_neq]%orb_false_iff E2%Z.ltb_ge].
  intros [= <-]. unfold charged, len, sizes. cbn. split_and!; first [lia|done].
Qed.
Lemma admit_refused b size b' : admit_delete elapsed b size = Ok (false, b') → charged [] b b'.
Proof.
  unfold admit_delete. destruct (reclamation_check _ _ _); [|done]. destruct (_ || _ || _)%bool; [|done]. intros [= <-]. unfold charged, len, sizes. cbn. split_and!; first [lia|done].
Qed.
Lemma charged_trans l k b b1 b2 : charged l b b1 → charged k b1 b2 → charged (l ++ k) b b2.
Proof.
  assert (sizes (l ++ k) = sizes l + sizes k) as Es by (unfold sizes; induction l; cbn; lia). intros (L1 & F1 & B1 & F1' & B1') (L2 & F2 & B2 & F2' & B2'). rewrite L1 in *.
  unfold charged. rewrite Es. unfold len in *. rewrite length_app. split_and!; [done|lia|lia|by auto|by auto].
Qed.
Lemma charged_refl b : charged [] b b.
Proof. unfold charged, len, sizes. cbn. split_and!; [done|lia|lia|done|done]. Qed.

Lemma remove_each_ok directory candidates removed b w w' r :
  remove_each elapsed directory candidates removed b w = (w', r) →
  publication_uncertain w' = publication_uncertain w ∧ swept (λ p, p.1 = directory ∧ p.2 ∈ map fst candidates) (disk w) (disk w')
  ∧ (∀ e, r ≠ Some (Err e))
  ∧ ∀ more removed' b', r = Some (Ok (Ok more, removed', b')) → ∃ taken rest, candidates = taken ++ rest ∧ removed' = removed ++ map fst taken
    ∧ (more = false → rest = []) ∧ charged taken b b' ∧ ∀ d0, without directory removed d0 (disk w) → without directory removed' d0 (disk w').
Proof.
  revert removed b w. induction candidates as [|[name size] candidates IH]; intros removed b w; cbn [remove_each].
  { intros [= <- <-]. split_and!; [done|apply swept_refl|done|]. intros more removed' b' [= <- <- <-]. exists [], []. cbn [map app]. rewrite app_nil_r. split_and!; [done|done|done|apply charged_refl|done]. }
  destruct (admit_delete elapsed b size) as [[[|] b1]|e] eqn:Ea.
  - intros E. unfold io_bind, attempt in E. destruct (remove_file (directory, name) w) as [w1 r1] eqn:Er. apply remove_file_cases in Er as (Hu & Hs & Hok).
    assert (swept (λ p, p.1 = directory ∧ p.2 ∈ map fst ((name, size) :: candidates)) (disk w) (disk w1)) as Hs' by (eapply swept_mono; [|exact Hs]; intros p ->; set_solver).
    destruct r1 as [[[]|e]|].
    + specialize (Hok eq_refl). apply IH in E as (Hu' & Hs2 & Hne & Hall). split_and!; [congruence| |done|].
      { eapply swept_trans; [exact Hs'|]. eapply swept_mono; [|exact Hs2]. intros p [? ?]. split; [done|]. set_solver. }
      intros more removed' b' Hr. destruct (Hall _ _ _ Hr) as (taken & rest & -> & -> & Hm & Hc & Hw). exists ((name, size) :: taken), rest. split_and!; [done|by rewrite <-app_assoc|done| |].
      * apply (charged_trans [(name, size)] taken b b1); [by apply admit_charged|done].
      * intros d0 Hd0. apply Hw. rewrite Hok. by apply without_snoc.
    + injection E as <- <-. split_and!; [done|done|done|]. by intros more removed' b' [=].
    + injection E as <- <-. by split_and!.
  - intros [= <- <-]. split_and!; [done|apply swept_refl|done|]. intros more removed' b' [= <- <- <-]. exists [], ((name, size) :: candidates). cbn [map app]. rewrite app_nil_r.
    split_and!; [done|done|done|by eapply admit_refused|done].
  - intros [= <- <-]. split_and!; [done|apply swept_refl|done|]. by intros more removed' b' [=].
Qed.

Lemma remove_candidates_ok directory candidates b w w' r :
  remove_candidates elapsed directory candidates b w = (w', r) →
  publication_uncertain w' = publication_uncertain w ∧ swept (λ p, p.1 = directory ∧ p.2 ∈ map fst candidates) (disk w) (disk w')
  ∧ ∀ more removed b', r = Some (Ok (more, removed, b')) → ∃ taken rest, candidates = taken ++ rest ∧ removed = map fst taken
    ∧ (more = false → rest = []) ∧ charged taken b b' ∧ without directory removed (disk w) (disk w').
Proof.
  unfold remove_candidates, io_bind. destruct (remove_each elapsed directory candidates [] b w) as [w1 r1] eqn:E. apply remove_each_ok in E as (Hu & Hs & Hne & Hall).
  destruct r1 as [[[[rm removed] b1]|e]|]; [|by destruct (Hne e)|intros [= <- <-]; by split_and!].
  assert (∀ w2 (sync : option (result IoError unit)), publication_uncertain w2 = publication_uncertain w1 → (disk w2 = disk w1 ∨ disk w2 = sync_entries directory (disk w1)) →
    match sync with Some s => match rm with Err e => (w2, Some (Err e)) | Ok more => match s with Err e => (w2, Some (Err (Io (io_text e)))) | Ok _ => (w2, Some (Ok (more, removed, b1))) end end
                  | None => (w2, None) end = (w', r) →
    publication_uncertain w' = publication_uncertain w ∧ swept (λ p, p.1 = directory ∧ p.2 ∈ map fst candidates) (disk w) (disk w')
    ∧ ∀ more removed' b', r = Some (Ok (more, removed', b')) → ∃ taken rest, candidates = taken ++ rest ∧ removed' = map fst taken
      ∧ (more = false → rest = []) ∧ charged taken b b' ∧ without directory removed' (disk w) (disk w')) as Hend.
  { intros w2 sync Hu2 Hd2 Heq. assert (w' = w2) as -> by (destruct sync as [[|]|], rm; by injection Heq as <- <-). split_and!; [congruence| |].
    - eapply swept_trans; [exact Hs|]. destruct Hd2 as [->| ->]; [apply swept_refl|apply swept_sync].
    - intros more removed' b' ->. destruct sync as [[x|e]|], rm as [more'|e']; try done. injection Heq as <- <- <-.
      destruct (Hall _ _ _ eq_refl) as (taken & rest & -> & -> & Hm & Hc & Hw). exists taken, rest. split_and!; [done|done|done|done|].
      specialize (Hw _ (without_nil _ _)). destruct Hd2 as [->| ->]; [done|by apply without_sync]. }
  destruct removed as [|n removed]; cbn beta iota.
  - intros Heq. apply (Hend w1 (Some (Ok tt))); [done|by left|]. destruct rm; done.
  - unfold attempt. destruct (sync_directory directory w1) as [w2 s2] eqn:Es. apply sync_directory_cases in Es as (Hu2 & Hd2 & _). intros Heq. apply (Hend w2 s2); [done|done|].
    destruct s2 as [[x|e]|], rm; done.
Qed.

(** ** Collections *)

(** The files a report says were removed. *)
Definition removed_paths (report : GarbageCollectionReport) : list Path :=
  map (pair Manifests) (removed_manifests report) ++ map (pair Segments) (removed_segments report) ++ map (pair Wals) (removed_wals report).
Definition file_length (d : Disk) (p : Path) : Z := match live d !! p with Some (RegularFile f) => len (bytes f) | _ => 0 end.
Definition total_length (d : Disk) (l : list Path) : Z := foldr (λ p total, file_length d p + total) 0 l.

Lemma only_swept ps p d d' : only p None d → swept ps d d' → only p None d'.
Proof. intros Ho [Hs _] e He. destruct (Hs p e He) as [?|[_ ->]]; [by apply Ho|done]. Qed.
Lemma total_length_app d l k : total_length d (l ++ k) = total_length d l + total_length d k.
Proof. unfold total_length. induction l; cbn; lia. Qed.
Lemma lists_sizes d directory l : (∀ name size, (name, size) ∈ l → ∃ f, live d !! ((directory, name) : Path) = Some (RegularFile f) ∧ size = len (bytes f)) →
  sizes l = total_length d (map (pair directory) (map fst l)).
Proof.
  induction l as [|[name size] l IH]; intros Hl; [done|].
  change (size + sizes l = file_length d (directory, name) + total_length d (map (pair directory) (map fst l))). rewrite <-IH by (intros n x Hx; apply Hl; set_solver).
  destruct (Hl name size ltac:(set_solver)) as (f & Hf & ->). unfold file_length. by rewrite Hf.
Qed.

(** A directory of which [taken] was removed, out of what was listed. *)
Lemma lists_taken d directory l taken rest :
  lists d directory l → l = taken ++ rest →
  (∀ name, name ∈ map fst taken → unreachable d (directory, name)) ∧ NoDup (map (pair directory) (map fst taken)) ∧ sizes taken = total_length d (map (pair directory) (map fst taken))
  ∧ (rest = [] → ∀ p, p.1 = directory → unreachable d p → p ∈ map (pair directory) (map fst taken)).
Proof.
  intros [Hnd Hl] ->. split_and!.
  - intros name ([n size] & -> & Hin)%list_elem_of_fmap. apply (Hl n size). set_solver.
  - rewrite map_app in Hnd. apply NoDup_app in Hnd as (Hnd & _). apply NoDup_fmap_2; [by intros ? ? [= ->]|done].
  - apply lists_sizes. intros name size Hin. apply (Hl name size). set_solver.
  - intros -> [dir name] Edir [[f Hf] Hu]. cbn in Edir. subst dir. apply list_elem_of_fmap. exists name. split; [done|]. apply list_elem_of_fmap. exists (name, len (bytes f)).
    split; [done|]. rewrite app_nil_r in Hl. apply Hl. split; [split; [by exists f|done]|by exists f].
Qed.

Lemma without_lookup directory names d0 d p : without directory names d0 d → live d !! p = if decide (p ∈ map (pair directory) names) then None else live d0 !! p.
Proof.
  intros [Hl _]. rewrite Hl. destruct p as [dir n]. apply decide_ext. cbn. split.
  - intros [-> Hn]. by apply list_elem_of_fmap_2.
  - by intros (n' & [= -> ->] & Hn)%list_elem_of_fmap.
Qed.

(** What a report says. *)
Record reports (d d' : Disk) (report : GarbageCollectionReport) : Prop := {
  reports_manifests : ∀ id, id ∈ retained_manifests report ↔ ∃ m, root d m ∧ manifest_id m = id;
  reports_segments : ∀ id, id ∈ retained_segments report ↔ ∃ s, root_segment d s ∧ segment_id s = id;
  reports_wals : ∀ name, name ∈ retained_wals report ↔ ∃ m, root d m ∧ wal_name (wal_start_sequence (content m)) = name;
  reports_live : ∀ p, live d' !! p = if decide (p ∈ removed_paths report) then None else live d !! p;
  reports_removed : ∀ p, p ∈ removed_paths report → unreachable d p ∧ only p None d';
  reports_once : NoDup (removed_paths report);
  reports_bytes : removed_bytes report = total_length d (removed_paths report);
  reports_bounded : 0 ≤ delete_files_limit (gc_reclamation self) → 0 ≤ delete_bytes_limit (gc_reclamation self) →
    len (removed_paths report) ≤ delete_files_limit (gc_reclamation self) ∧ removed_bytes report ≤ delete_bytes_limit (gc_reclamation self);
  reports_done : has_more report = false → ∀ p, unreachable d p → p ∈ removed_paths report
}.

Lemma map_fst_get {A} (k : list (string * A)) id : bt_sorted k → id ∈ map fst k ↔ ∃ x, bt_get id k = Some x.
Proof.
  intros Hs. rewrite list_elem_of_fmap. split.
  - intros ([i x] & -> & Hin). exists x. by apply bt_elem_get.
  - intros [x Hx]. exists (id, x). split; [done|]. by apply bt_get_elem.
Qed.

Lemma sweep_ok d found w1 w2 w3 w4 more1 more2 more3 rm rs rw b2 b3 b4 :
  disk w1 = d →
  (∃ roots segs, retains roots segs (surveyed found) ∧ (∀ m, m ∈ roots ↔ root d m) ∧ (∀ s, s ∈ segs ↔ root_segment d s)) →
  lists d Manifests (manifest_candidates found) → lists d Segments (segment_candidates found) → lists d Wals (wal_candidates found) →
  undeleted (ReclamationBudget_new (gc_reclamation self)) (survey_budget found) →
  remove_candidates elapsed Manifests (manifest_candidates found) (survey_budget found) w1 = (w2, Some (Ok (more1, rm, b2))) →
  remove_candidates elapsed Segments (segment_candidates found) b2 w2 = (w3, Some (Ok (more2, rs, b3))) →
  remove_candidates elapsed Wals (wal_candidates found) b3 w3 = (w4, Some (Ok (more3, rw, b4))) →
  reports d (disk w4) {| retained_manifests := map fst (kept_manifests (surveyed found)); retained_segments := map fst (kept_segments (surveyed found));
    retained_wals := map fst (kept_wals (surveyed found)); removed_manifests := rm; removed_segments := rs; removed_wals := rw;
    examined_entries := scanned_entries b4; report_metadata_bytes := scanned_metadata_bytes b4; removed_bytes := deleted_bytes b4; has_more := (more1 || more2 || more3)%bool |}.
Proof.
  intros Hd (roots & segs & [Rm Rs Rw (S1 & S2 & S3)] & Hroots & Hsegs) L1 L2 L3 (Hlim & Hf0 & Hb0) E1 E2 E3.
  apply remove_candidates_ok in E1 as (_ & _ & X1). destruct (X1 _ _ _ eq_refl) as (t1 & r1 & F1 & -> & M1 & C1 & W1). rewrite Hd in W1. clear X1.
  apply remove_candidates_ok in E2 as (_ & Sw2 & X2). destruct (X2 _ _ _ eq_refl) as (t2 & r2 & F2 & -> & M2 & C2 & W2). clear X2.
  apply remove_candidates_ok in E3 as (_ & Sw3 & X3). destruct (X3 _ _ _ eq_refl) as (t3 & r3 & F3 & -> & M3 & C3 & W3). clear X3.
  destruct (lists_taken _ _ _ _ _ L1 F1) as (U1 & N1 & T1 & D1), (lists_taken _ _ _ _ _ L2 F2) as (U2 & N2 & T2 & D2), (lists_taken _ _ _ _ _ L3 F3) as (U3 & N3 & T3 & D3).
  pose proof (charged_trans _ _ _ _ _ C1 (charged_trans _ _ _ _ _ C2 C3)) as (_ & Cf & Cb & Cfl & Cbl). rewrite Hlim, Hf0, Hb0 in *. cbn [ReclamationBudget_new reclamation_limits deleted_files deleted_bytes] in *.
  constructor; unfold removed_paths; cbn [retained_manifests retained_segments retained_wals removed_manifests removed_segments removed_wals removed_bytes has_more].
  - intros id. rewrite map_fst_get by done. setoid_rewrite <-Hroots. rewrite <-Rm. split; [by intros [[] ?]|by exists tt].
  - intros id. rewrite map_fst_get by done. setoid_rewrite Rs. setoid_rewrite <-Hsegs. naive_solver.
  - intros id. rewrite map_fst_get by done. setoid_rewrite <-Hroots. rewrite <-Rw. split; [by intros [[] ?]|by exists tt].
  - intros p. rewrite (without_lookup _ _ _ _ p W3), (without_lookup _ _ _ _ p W2), (without_lookup _ _ _ _ p W1). repeat case_decide; try done; rewrite !elem_of_app in *; tauto.
  - intros p [Hp|[Hp|Hp]%elem_of_app]%elem_of_app; apply list_elem_of_fmap in Hp as (name & -> & Hn).
    + split; [by apply U1|]. eapply only_swept; [|exact Sw3]. eapply only_swept; [|exact Sw2]. by apply W1.
    + split; [by apply U2|]. eapply only_swept; [|exact Sw3]. by apply W2.
    + split; [by apply U3|]. by apply W3.
  - apply NoDup_app. split_and!; [done| |apply NoDup_app; split_and!; [done| |done]]; intros p (n & -> & _)%list_elem_of_fmap; rewrite ?elem_of_app, !list_elem_of_fmap; naive_solver.
  - rewrite Cb, !total_length_app, <-T1, <-T2, <-T3. unfold sizes. rewrite !foldr_app. clear. induction t1 as [|x t1 IH]; cbn; [|lia]. induction t2 as [|x t2 IH]; cbn; lia.
  - intros Hf Hb. specialize (Cfl Hf). specialize (Cbl Hb). split; [|lia]. unfold len in *. rewrite !length_app in *. rewrite !length_map. lia.
  - intros [[Hm1 Hm2]%orb_false_iff Hm3]%orb_false_iff p Hu. rewrite !elem_of_app. destruct p as [[]n]; try by destruct Hu as [_ []].
    + left. by apply D1; [apply M1| |].
    + right; left. by apply D2; [apply M2| |].
    + right; right. by apply D3; [apply M3| |].
Qed.

Lemma collected w w' r :
  live (disk w) !! manifest_path (manifest_id (gc_manifest self)) = manifest_entry (gc_manifest self) → garbage_collect elapsed self w = (w', r) →
  publication_uncertain w' = publication_uncertain w ∧ swept (unreachable (disk w)) (disk w) (disk w')
  ∧ (disk w' = disk w ∧ (∀ report, r ≠ Some (Ok report)) ∨ intact (disk w)) ∧ (∀ report, r = Some (Ok report) → reports (disk w) (disk w') report).
Proof.
  intros Hcur. unfold garbage_collect, io_bind at 1. pose proof (looks_survey w) as [Hd Hu]. destruct (survey elapsed self w) as [w1 [[found|e]|]] eqn:Es; cbn [fst] in Hd, Hu.
  2-3: intros [= <- <-]; rewrite Hd; split_and!; [done|apply swept_refl|by left|done].
  apply survey_ok in Es as (Hk & Hi & L1 & L2 & L3 & Hb); [|done].
  assert (∀ directory l (w w' : World), lists (disk w) directory l → ∀ d, swept (λ p, p.1 = directory ∧ p.2 ∈ map fst l) d (disk w') → swept (unreachable (disk w)) d (disk w')) as Hweak.
  { intros directory l w2 w2' [_ Hl] d0. apply swept_mono. intros [dir n] [Edir ([n' size] & Hn' & Hin)%list_elem_of_fmap]. cbn in *. subst. by apply (Hl n' size). }
  unfold io_bind at 1. destruct (remove_candidates elapsed Manifests _ _ w1) as [w2 r2] eqn:E1. pose proof (remove_candidates_ok _ _ _ _ _ _ E1) as (Hu2 & Hs2 & _). rewrite Hd in Hs2.
  apply (Hweak _ _ w w2 L1) in Hs2. destruct r2 as [[[[more1 rm] b2]|e]|]; [|intros [= <- <-]; split_and!; [congruence|done|by right|done]..].
  unfold io_bind at 1. destruct (remove_candidates elapsed Segments _ _ w2) as [w3 r3] eqn:E2. pose proof (remove_candidates_ok _ _ _ _ _ _ E2) as (Hu3 & Hs3 & _).
  apply (Hweak _ _ w w3 L2) in Hs3. pose proof (swept_trans _ _ _ _ Hs2 Hs3) as Hs23. destruct r3 as [[[[more2 rs] b3]|e]|]; [|intros [= <- <-]; split_and!; [congruence|done|by right|done]..].
  unfold io_bind at 1. destruct (remove_candidates elapsed Wals _ _ w3) as [w4 r4] eqn:E3. pose proof (remove_candidates_ok _ _ _ _ _ _ E3) as (Hu4 & Hs4 & _).
  apply (Hweak _ _ w w4 L3) in Hs4. pose proof (swept_trans _ _ _ _ Hs23 Hs4) as Hs234. destruct r4 as [[[[more3 rw] b4]|e]|]; [|intros [= <- <-]; split_and!; [congruence|done|by right|done]..].
  intros [= <- <-]. split_and!; [congruence|done|by right|]. intros report [= <-]. by eapply sweep_ok.
Qed.

(** The files of the roots and of the open reads. *)
Definition reachable (d : Disk) (p : Path) : Prop :=
  (∃ m, root d m ∧ (p = manifest_path (manifest_id m) ∨ p = wal_path (wal_start_sequence (content m)))) ∨ ∃ s, root_segment d s ∧ p = segment_path (segment_id s).
Lemma reachable_kept d p : reachable d p ∨ p.1 = Root ∨ p.1 = Checkpoints → ¬ unreachable d p.
Proof.
  intros Hp [_ Hu]. destruct Hp as [[(m & Hm & [->| ->])|(s & Hs & ->)]|[E|E]]; [cbn in Hu; destruct Hu as [_ []]; by eauto..|by rewrite E in Hu|by rewrite E in Hu].
Qed.


(** C34: a collection that succeeds reports what it did.  The retained lists name exactly the
    manifests, segments and logs that are referred to; the removed lists name, once each, exactly
    the files that are gone, all of them unreachable and gone for good whatever power is lost;
    the bytes removed are theirs, within the limits on files and bytes; and when the report says
    there is no more, no unreachable file is left. *)
Theorem garbage_collect_exact w w' report :
  live (disk w) !! manifest_path (manifest_id (gc_manifest self)) = manifest_entry (gc_manifest self) →
  garbage_collect elapsed self w = (w', Some (Ok report)) → reports (disk w) (disk w') report.
Proof. intros Hcur E. apply collected in E as (_ & _ & _ & Hr); [by apply Hr|done]. Qed.
End Facts.

(** * A concrete collection *)

Module SampleCollection.
Import Sample.

(** A published manifest, its log, and a segment nothing refers to. *)
Definition littered : Disk :=
  {| live := <[manifest_path (manifest_id first) := file_of (to_vec first)]> (<[wal_path 1 := file_of []]> (<[segment_path "orphan" := file_of [x01; x02]]> (live created))); stale := [] |}.
Definition world_of (replies : list Reply) : World :=
  {| disk := littered; replies := replies; spaces := []; temporary_id := 1; publication_uncertain := false |}.
Definition small_limits : ReclamationLimits :=
  {| inventory_entries_limit := 64; reclaim_metadata_limit := 16384; delete_files_limit := 8; delete_bytes_limit := 4096; reclaim_elapsed_limit := 1000 |}.
Definition collector : Collector :=
  {| gc_manifests := store; gc_manifest := first; gc_reclamation := small_limits; writer_requires_reopen := None; active_read_views := ActiveReadViews_default |}.
Definition collection (replies : list Reply) : World * option (result Error GarbageCollectionReport) := garbage_collect (λ _, 0) collector (world_of replies).
Definition collection_report : GarbageCollectionReport :=
  {| retained_manifests := [manifest_id first]; retained_segments := []; retained_wals := [wal_name 1]; removed_manifests := []; removed_segments := ["orphan.seg"]; removed_wals := [];
     examined_entries := 5; report_metadata_bytes := len (to_vec first); removed_bytes := 2; has_more := false |}.
Lemma littered_current : live littered !! manifest_path (manifest_id first) = manifest_entry first.
Proof. unfold littered. cbn [live]. apply lookup_insert_eq. Qed.
Lemma collection_reports : (collection []).2 = Some (Ok collection_report).
Proof. vm_compute. reflexivity. Qed.

(** A process that dies while it deletes. *)
Definition cut_short : World * option (result Error GarbageCollectionReport) := collection (repeat Proceeds 11 ++ [Dies 1]).
Lemma cut_short_dies : cut_short.2 = None ∧ live (disk cut_short.1) !! segment_path "orphan" = None.
Proof. vm_compute. split; reflexivity. Qed.

(** The orphan is removed and nothing is left to do. *)
Lemma garbage_collect_exact_witness :
  reports collector littered (disk (collection []).1) collection_report ∧ removed_paths collection_report = [segment_path "orphan"].
Proof.
  split; [|reflexivity]. generalize (surjective_pairing (collection [])). rewrite collection_reports. intros E.
  exact (garbage_collect_exact (λ _, 0) collector (world_of []) (collection []).1 collection_report littered_current E).
Defined.
End SampleCollection.
