(* ===== verification/History.v ===== *)
(** Histories of a store ([rrd-lsm]: manifest.rs and database.rs, opening to collection).

    A database opens its store, publishes manifests, takes and releases checkpoints and collects
    garbage, while it writes segments and logs beside them; any call may fail half-way, the process
    may die at any of them, and power may be lost.

    Theorems: through every such history, every manifest that was acknowledged stays in a chain
    whose newest manifest is the one the next opening finds, whole; and every checkpoint that was
    acknowledged and not released is on disk with the manifest it names. *)

From S2P Require Import Prelude Machine BTree Ident Digest LsmError Batch RecoveryBudget Wal Memtable Versions SegmentFormat Segment SegmentFile PointIndex Manifest Filesystem Reclamation Reader ReadViews ManifestStore GarbageCollection.
Open Scope Z_scope.

Section Opening.
Context `{Sha2} `{Serde Content} `{Serde Manifest} `{Serde CurrentPointer} `{Serde Checkpoint}.

(** lsm/database.rs:541-545 Database::open_anchored: the store and its current manifest *)
Definition open_control (elapsed : nat → Z) (root : string) (reserve : Z) (entropy : option string) (lock : LockReply) (checkpoint_limit : Z) (reclamation : ReclamationLimits)
    (budget : RecoveryBudget) : io Error (ManifestStore * Manifest * RecoveryBudget) :=
  let! opened := open_existing root reserve entropy lock in
  let! store := io_lift (with_checkpoint_limits opened checkpoint_limit reclamation) in
  let! (found, budget) := current_bounded store elapsed budget in
  match found with
  | Some (_, manifest) => io_ret (store, manifest, budget)
  | None => io_fail (InvalidManifest "database has no CURRENT manifest")
  end.
End Opening.

(** * Opening finds the newest manifest *)

Section Facts.
Context `{Sha2Laws} `{Serde Content} `{SerdeLaws Manifest} `{SerdeLaws CurrentPointer} `{Serde Checkpoint} `{!SerdeLaws Checkpoint}.

Lemma looks_read_recovery elapsed b p : looks (read_recovery elapsed b p).
Proof.
  unfold read_recovery. destruct (tick _ _); [|apply looks_fail]. apply looks_bind; [unfold question, metadata; eauto with fs|]. intros entry.
  apply looks_bind; [destruct entry; unfold question, read; eauto with fs|]. eauto with fs.
Qed.
Lemma looks_load_using {S} store (read : S → Path → io Error (list byte * S)) s digest : (∀ s p, looks (read s p)) → looks (load_using store read s digest).
Proof.
  intros Hr. unfold load_using. apply looks_if; [apply looks_fail|]. apply looks_bind; [unfold context, metadata; eauto with fs|]. intros [f| |]; [|apply looks_fail..].
  apply looks_bind; [apply Hr|]. intros [l s']. eauto with fs.
Qed.
Lemma looks_current_bounded store elapsed b : looks (current_bounded store elapsed b).
Proof.
  unfold current_bounded, current_using. apply looks_bind; [unfold metadata; eauto with fs|]. intros [[f| |]|[|reason]]; [|apply looks_fail|apply looks_fail|apply looks_ret|apply looks_fail].
  apply looks_bind; [apply looks_read_recovery|]. intros [l s]. apply looks_bind; [apply looks_lift|]. intros pointer. apply looks_bind; [apply looks_lift|]. intros _.
  apply looks_bind; [apply looks_load_using, looks_read_recovery|]. intros [m s']. eauto with fs.
Qed.

Lemma read_recovery_ok elapsed b p w w' l b' : read_recovery elapsed b p w = (w', Some (Ok (l, b'))) → ∃ f, live (disk w) !! p = Some (RegularFile f) ∧ l = bytes f.
Proof.
  unfold read_recovery. destruct (tick elapsed b) as [t|] eqn:Et; [|done]. intros (entry & w1 & [Hm Hd1]%metadata_ok & (found & w2 & Hr & [Hl _]%lift_ok)%bind_ok)%bind_ok.
  unfold charge_metadata in Hl. rewrite Et in Hl. destruct entry as [f| |]; [|done..]. cbn [negb] in Hl.
  apply question_ok, observe_ok in Hr as [Hr _]. rewrite Hd1, Hm in Hr. injection Hr as <-. exists f. split; [done|].
  destruct (ok_or _ _); [|done]. destruct (budget_check _ _ _); [|done]. destruct (charge_file _ _ _); [|done].
  destruct (Z.eqb_spec (len (take (Z.to_nat (saturating_add 64 (len (bytes f)) 1)) (bytes f))) (len (bytes f))) as [E|E]; [|done]. cbn [negb] in Hl.
  match type of Hl with context [tick elapsed ?x] => destruct (tick elapsed x); [|done] end. injection Hl as <- <-. apply take_ge. unfold len in *. rewrite length_take in E. lia.
Qed.

(** What is loaded under the digest of a manifest that is whole on disk is that manifest. *)
Lemma load_using_ok elapsed store b m w w' m' b' :
  live (disk w) !! manifest_path (manifest_id m) = manifest_entry m → load_using store (read_recovery elapsed) b (manifest_id m) w = (w', Some (Ok (m', b'))) → m' = m.
Proof.
  intros Hl. unfold load_using. destruct (negb (is_sha256 _)); [done|]. intros (entry & w1 & [_ Hd1]%context_ok%observe_ok & Hk)%bind_ok. destruct entry as [f| |]; [|done..].
  apply bind_ok in Hk as ([l s'] & w2 & (f' & Hf & ->)%read_recovery_ok & (m1 & w3 & [Hdec ->]%lift_ok & ([] & w4 & _ & Hk)%bind_ok)%bind_ok).
  rewrite Hd1, Hl in Hf. injection Hf as <-. cbn [bytes] in Hdec. rewrite serde_round_trip in Hdec. injection Hdec as <-. destruct (negb _); [done|]. by injection Hk as <- <- <-.
Qed.
Lemma current_bounded_ok elapsed store b chain pinned w w' pointer m b' :
  stands chain None pinned (disk w) → current_bounded store elapsed b w = (w', Some (Ok (Some (pointer, m), b'))) → last chain = Some m.
Proof.
  intros Hs. unfold current_bounded, current_using. intros (r & w1 & Hm & Hk)%bind_ok.
  assert (disk w1 = disk w) as Hd1 by (eapply looks_ok; [|exact Hm]; unfold metadata; eauto with fs).
  destruct r as [[f| |]|[|reason]]; [|done|done|done|done].
  apply bind_ok in Hk as ([l s] & w2 & Hr & (p & w3 & [Hdec ->]%lift_ok & ([] & w4 & [_ ->]%lift_ok & ([m' s'] & w5 & Hload & Hk)%bind_ok)%bind_ok)%bind_ok).
  pose proof (looks_ok _ _ _ _ (looks_read_recovery _ _ _) Hr) as Hd2. apply read_recovery_ok in Hr as (f' & Hf & ->). rewrite Hd1 in Hf, Hd2.
  destruct (stands_current _ _ _ _ Hs _ (may_hold_live _ CURRENT_FILE)) as [E|[[? ?] _]]; [|done]. rewrite Hf in E. destruct (last chain) as [n|] eqn:El; [|done].
  injection E as ->. cbn [bytes] in Hdec. rewrite serde_round_trip in Hdec. injection Hdec as <-. cbn [pointer_new pointer_manifest] in Hload.
  apply load_using_ok in Hload as ->; [|rewrite Hd2; apply (stands_manifests _ _ _ _ Hs n (or_introl El)), may_hold_live]. destruct (negb _); [done|]. by injection Hk as _ _ <- _.
Qed.

(** * Histories *)

(** A database that runs, with the manifest it has in memory, or a disk whose process is gone. *)
Inductive State := Running (store : ManifestStore) (memory : option Manifest) (w : World) | Down (d : Disk).
Definition disk_of (s : State) : Disk := match s with Running _ _ w => disk w | Down d => d end.
Definition after {A} (store : ManifestStore) (memory : option Manifest) (w : World) (r : option A) : State :=
  match r with Some _ => Running store memory w | None => Down (disk w) end.
(** Between the disks only segments and logs have changed. *)
Definition beside (d d' : Disk) : Prop := ∀ p e, p.1 ≠ Segments → p.1 ≠ Wals → may_hold d' p e → may_hold d p e.

(** Every history: a store is opened for its first manifest or with its current one, and while it
    runs there are publications, checkpoints, releases, collections and writes to segments and logs,
    with any replies of the operating system; at any time the process may end, and then power be
    lost.  The lists are the manifests acknowledged and the checkpoints acknowledged and not since
    released. *)
Inductive reaches (elapsed : nat → Z) : State → list Manifest → list (string * Checkpoint) → Prop :=
| reach_created : reaches elapsed (Down created) [] []
| reach_first d acked pinned w root reserve entropy lock w' r :
    reaches elapsed (Down d) acked pinned → disk w = d → publication_uncertain w = false → open_existing root reserve entropy lock w = (w', r) →
    reaches elapsed (match r with Some (Ok store) => Running store None w' | _ => Down (disk w') end) acked pinned
| reach_open d acked pinned w root reserve entropy lock limit reclamation budget w' r :
    reaches elapsed (Down d) acked pinned → disk w = d → publication_uncertain w = false →
    open_control elapsed root reserve entropy lock limit reclamation budget w = (w', r) →
    reaches elapsed (match r with Some (Ok (store, m, _)) => Running store (Some m) w' | _ => Down (disk w') end) acked pinned
| reach_publish store memory w acked pinned m expected w' r :
    reaches elapsed (Running store memory w) acked pinned → publish store m expected w = (w', r) →
    reaches elapsed (match r with Some (Ok _) => Running store (Some m) w' | _ => after store memory w' r end) (match r with Some (Ok _) => acked ++ [m] | _ => acked end) pinned
| reach_checkpoint store m w acked pinned name created_at w' r :
    reaches elapsed (Running store (Some m) w) acked pinned → checkpoint store elapsed name (manifest_id m) created_at w = (w', r) →
    reaches elapsed (after store (Some m) w' r) acked (match r with Some (Ok c) => (name, c) :: pinned | _ => pinned end)
| reach_release store memory w acked pinned name w' r :
    reaches elapsed (Running store memory w) acked pinned → release_checkpoint name w = (w', r) → reaches elapsed (after store memory w' r) acked (unpinned name pinned)
| reach_collect store m w acked pinned reclamation reopen views w' r :
    reaches elapsed (Running store (Some m) w) acked pinned →
    garbage_collect elapsed {| gc_manifests := store; gc_manifest := m; gc_reclamation := reclamation; writer_requires_reopen := reopen; active_read_views := views |} w = (w', r) →
    reaches elapsed (after store (Some m) w' r) acked pinned
| reach_objects store memory w acked pinned w' :
    reaches elapsed (Running store memory w) acked pinned → beside (disk w) (disk w') → publication_uncertain w' = publication_uncertain w →
    reaches elapsed (Running store memory w') acked pinned
| reach_killed store memory w acked pinned : reaches elapsed (Running store memory w) acked pinned → reaches elapsed (Down (disk w)) acked pinned
| reach_power_loss d acked pinned d' : reaches elapsed (Down d) acked pinned → survives d d' → reaches elapsed (Down d') acked pinned.

(** What a state stands for. *)
Definition state_ok (chain : list Manifest) (pinned : list (string * Checkpoint)) (s : State) : Prop :=
  match s with
  | Running _ memory w => world_ok chain pinned w ∧ (publication_uncertain w = false → ∀ m, memory = Some m → last chain = Some m)
  | Down d => ∃ pending, stands chain pending pinned d
  end.
Lemma state_stands chain pinned s : state_ok chain pinned s → ∃ pending, stands chain pending pinned (disk_of s).
Proof. destruct s; [|done]. intros [(pe & Hs & _) _]. by exists pe. Qed.

(** Segments and logs are not relied on. *)
Lemma stands_beside chain pending pinned d d' : stands chain pending pinned d → beside d d' → stands chain pending pinned d'.
Proof.
  intros Hs Hb. eapply stands_frame; [exact Hs| |].
  - intros p e _ Hp He. assert (p.1 ≠ Segments ∧ p.1 ≠ Wals) as [? ?]; [|by apply Hb].
    destruct Hp as [->|[(m & _ & ->)|(name & c & _ & [->| ->])]]; done.
  - intros p f Ht Hdir Hf. eapply stands_durable; [exact Hs|done|done|]. apply Hb; [by destruct Hdir as [->| ->]..|done].
Qed.

(** A collection keeps what is relied on. *)
Lemma stands_collected self chain pinned d d' :
  stands chain None pinned d → last chain = Some (gc_manifest self) → swept (unreachable self d) d d' → stands chain None pinned d'.
Proof.
  intros Hs Hlast [Hsw _]. eapply stands_frame; [exact Hs| |].
  - intros p e _ Hp He. assert (¬ unreachable self d p) as Hno; [|by destruct (Hsw p e He) as [?|[? _]]]. apply reachable_kept.
    destruct Hp as [?|[(m & [Hm|[=]] & ->)|(name & c & Hin & [->| ->])]]; [by auto| |by auto|].
    + left; left. exists m. split; [left; congruence|by left].
    + destruct (stands_named _ _ _ _ Hs name c Hin) as (Hne & m & _ & Eid & _ & Ho). left; left. exists m. split; [right|left; by rewrite Eid]. exists c. split.
      * destruct (stands_pinned _ _ _ _ Hs name c Hin _ (may_hold_live _ _)) as (content & Hl & Hdec). exists (name +:+ ".json"), {| bytes := content; durable := true |}.
        split_and!; [exact Hl|by apply (has_extension_append "json")|done].
      * rewrite <-Eid. eexists. split; [apply (Ho _ (may_hold_live _ _))|apply serde_round_trip].
  - intros p f Ht Hdir Hf. eapply stands_durable; [exact Hs|done|done|]. by destruct (Hsw p _ Hf) as [?|[_ [=]]].
Qed.
Lemma collect_stands elapsed self chain pinned w w' r :
  world_ok chain pinned w → (publication_uncertain w = false → last chain = Some (gc_manifest self)) → garbage_collect elapsed self w = (w', r) →
  world_ok chain pinned w' ∧ publication_uncertain w' = publication_uncertain w.
Proof.
  intros (pending & Hs & Hp) Hlast E. destruct (publication_uncertain w) eqn:Eu.
  - assert (w' = w) as ->; [|split; [by exists pending; rewrite Eu|done]].
    revert E. unfold garbage_collect, survey, ensure_writer_ready, ensure_publication_ready, io_bind. rewrite Eu. by intros [= <- _].
  - specialize (Hp eq_refl) as ->. specialize (Hlast eq_refl). apply collected in E as (Hu & Hsw & _); [|by apply (stands_manifests _ _ _ _ Hs _ (or_introl Hlast)), may_hold_live].
    split; [|congruence]. exists None. split; [|done]. by eapply stands_collected.
Qed.

Lemma open_existing_ok root reserve entropy lock chain pending pinned w w' r :
  stands chain pending pinned (disk w) → publication_uncertain w = false → open_existing root reserve entropy lock w = (w', r) →
  publication_uncertain w' = false ∧ ∃ chain', (chain' = chain ∨ ∃ m, chain' = chain ++ [m]) ∧
  match r with Some (Ok _) => stands chain' None pinned (disk w') | _ => ∃ pending, stands chain' pending pinned (disk w') end.
Proof.
  intros Hs Hu Ho. pose proof (open_triple certain root reserve entropy lock chain pending pinned (disk w) Hs w ltac:(by split)) as Hopen. rewrite Ho in Hopen.
  destruct r as [[store|e]|].
  - destruct Hopen as ([Hst Hon] & Hu' & _). split; [done|]. destruct (stands_settles _ _ _ _ Hst Hon) as (chain' & Hch & Hs'). exists chain'. split; [|done].
    destruct Hch as [?|(m & _ & ?)]; [by left|right; by exists m].
  - destruct Hopen as ([Hst _] & Hu' & _). split; [done|]. exists chain. split; [by left|]. by exists pending.
  - destruct Hopen as ([Hst _] & Hu' & _). split; [done|]. exists chain. split; [by left|]. by exists pending.
Qed.

Lemma open_control_ok elapsed root reserve entropy lock limit reclamation budget chain pending pinned w w' r :
  stands chain pending pinned (disk w) → publication_uncertain w = false → open_control elapsed root reserve entropy lock limit reclamation budget w = (w', r) →
  publication_uncertain w' = false ∧ ∃ chain', (chain' = chain ∨ ∃ m, chain' = chain ++ [m]) ∧
  match r with Some (Ok (_, m, _)) => stands chain' None pinned (disk w') ∧ last chain' = Some m | _ => ∃ pending, stands chain' pending pinned (disk w') end.
Proof.
  intros Hs Hu. unfold open_control, io_bind at 1. destruct (open_existing root reserve entropy lock w) as [w1 r1] eqn:Eo.
  destruct (open_existing_ok _ _ _ _ _ _ _ _ _ _ Hs Hu Eo) as (Hu1 & chain' & Hch & Hs1).
  destruct r1 as [[opened|e]|]; [|intros [= <- <-]; split; [done|]; by exists chain'..].
  unfold io_bind at 1, io_lift. destruct (with_checkpoint_limits opened limit reclamation) as [store|e]; [|intros [= <- <-]; split; [done|]; exists chain'; split; [done|by exists None]].
  unfold io_bind. destruct (looks_current_bounded store elapsed budget w1) as [Hd2 Hu2]. destruct (current_bounded store elapsed budget w1) as [w2 r2] eqn:Ec. cbn [fst] in Hd2, Hu2.
  destruct r2 as [[[[[pointer m]|] b2]|e]|]; intros [= <- <-]; rewrite Hu2; (split; [done|]); exists chain'; (split; [done|]); rewrite Hd2; try (by exists None).
  split; [done|]. by eapply current_bounded_ok.
Qed.

(** An uncertain store changes nothing until it is opened again. *)
Lemma guarded_certain {A} (k : io Error A) w w' r : io_bind ensure_publication_ready (λ _, k) w = (w', r) → publication_uncertain w' = false → publication_uncertain w = false.
Proof. unfold io_bind, ensure_publication_ready. destruct (publication_uncertain w) eqn:E; [|done]. intros [= <- _]. congruence. Qed.

Lemma sublist_grows {A} (l chain chain' : list A) : l `sublist_of` chain → (chain' = chain ∨ ∃ m, chain' = chain ++ [m]) → l `sublist_of` chain'.
Proof. intros Hl [->|[m ->]]; [done|by apply sublist_inserts_r]. Qed.

Lemma reaches_ok elapsed s acked pinned : reaches elapsed s acked pinned → ∃ chain, acked `sublist_of` chain ∧ state_ok chain pinned s.
Proof.
  induction 1 as [|d acked pinned w root reserve entropy lock w' r _ (chain & Hsub & pending & Hs) Hd Hu Ho
    |d acked pinned w root reserve entropy lock limit reclamation budget w' r _ (chain & Hsub & pending & Hs) Hd Hu Ho
    |store memory w acked pinned m expected w' r _ (chain & Hsub & Hw & Hmem) Hr|store m w acked pinned name created_at w' r _ (chain & Hsub & Hw & Hmem) Hr
    |store memory w acked pinned name w' r _ (chain & Hsub & Hw & Hmem) Hr|store m w acked pinned reclamation reopen views w' r _ (chain & Hsub & Hw & Hmem) Hr
    |store memory w acked pinned w' _ (chain & Hsub & (pending & Hs & Hp) & Hmem) Hb Hu|store memory w acked pinned _ (chain & Hsub & (pending & Hs & _) & _)
    |d acked pinned d' _ (chain & Hsub & pending & Hs) Hd].
  - exists []. split; [done|]. exists None. apply created_stands.
  - subst d. destruct (open_existing_ok _ _ _ _ _ _ _ _ _ _ Hs Hu Ho) as (Hu' & chain' & Hch & Hs'). exists chain'. split; [by eapply sublist_grows|].
    destruct r as [[store|e]|]; [|done|done]. split; [by exists None|done].
  - subst d. destruct (open_control_ok _ _ _ _ _ _ _ _ _ _ _ _ _ _ Hs Hu Ho) as (Hu' & chain' & Hch & Hs'). exists chain'. split; [by eapply sublist_grows|].
    destruct r as [[[[store m] b]|e]|]; [|done|done]. destruct Hs' as [Hs' Hlast]. split; [by exists None|]. by intros _ ? [= <-].
  - pose proof (publish_spec store m expected chain pinned w Hw) as Hp. rewrite Hr in Hp. destruct r as [[pointer|e]|].
    + destruct Hp as (_ & _ & _ & Hw' & _). exists (chain ++ [m]). split; [by apply sublist_app|]. split; [done|]. intros _ ? [= <-]. apply last_snoc.
    + exists chain. split; [done|]. split; [done|]. intros Hu. apply Hmem. by eapply guarded_certain.
    + by exists chain.
  - assert (publication_uncertain w = false → last chain = Some m) as Hlast by (intros Hu; by apply Hmem).
    pose proof (checkpoint_spec store elapsed name m created_at chain pinned w Hw Hlast) as Hp. rewrite Hr in Hp. exists chain. split; [done|].
    assert (publication_uncertain w' = false → ∀ m', Some m = Some m' → last chain = Some m') as Hmem' by (intros Hu; apply Hmem; by eapply guarded_certain).
    destruct r as [[c|e]|]; [|done|done]. by destruct Hp as (_ & _ & Hw').
  - pose proof (release_spec name chain pinned w Hw) as Hp. rewrite Hr in Hp. exists chain. split; [done|].
    assert (publication_uncertain w' = false → ∀ m', memory = Some m' → last chain = Some m') as Hmem' by (intros Hu; apply Hmem; by eapply guarded_certain).
    by destruct r as [[x|e]|].
  - apply (collect_stands _ _ chain pinned) in Hr as [Hw' Hu]; [|done|intros Hu; by apply Hmem]. exists chain. split; [done|].
    destruct r as [x|]; [split; [done|]; by rewrite Hu|]. by destruct Hw' as (pe & ? & _); exists pe.
  - exists chain. split; [done|]. split; [|by rewrite Hu]. exists pending. rewrite Hu. split; [by eapply stands_beside|done].
  - exists chain. split; [done|]. by exists pending.
  - exists chain. split; [done|]. exists pending. by eapply stands_survives.
Qed.

(** C2: publication is crash-safe.  Through any history of openings, publications, checkpoints
    and releases, with calls that fail half-way, processes that die and power losses, there is a
    chain in which every manifest names its predecessor and which holds every acknowledged
    manifest in order; after one more power loss, or none, the store opens on a working device,
    and [current] returns the newest manifest of the chain, whole and validated, or of the chain
    with the one manifest more that was being published. *)
Theorem manifest_publication_crash_safe elapsed s acked pinned d w root reserve nonce :
  reaches elapsed s acked pinned → survives (disk_of s) d ∨ d = disk_of s → disk w = d → replies w = [] → publication_uncertain w = false →
  ∃ chain store w1 w2, acked `sublist_of` chain ∧ linked chain
    ∧ open_existing root reserve (Some nonce) Locked w = (w1, Some (Ok store))
    ∧ current store w1 = (w2, Some (Ok ((λ m, (pointer_new m, m)) <$> last chain)))
    ∧ ∀ m, m ∈ chain → manifest_validate m = Ok tt.
Proof.
  intros (chain & Hsub & Hok)%reaches_ok Hd Hw Hr Hu. destruct (state_stands _ _ _ Hok) as [pending Hs].
  assert (stands chain pending pinned d) as Hs' by (destruct Hd as [?| ->]; [by eapply stands_survives|done]). clear Hs Hok Hd s. subst d.
  set (b := {| calm := true; uncertain := false |}).
  pose proof (open_triple b root reserve (Some nonce) Locked chain pending pinned (disk w) Hs' w ltac:(by split)) as Hopen.
  destruct (open_existing root reserve (Some nonce) Locked w) as [w1 [[store|e]|]].
  2:{ destruct Hopen as ([_ Hc] & _). discriminate (Hc eq_refl ltac:(by eexists)). }
  2:{ by destruct Hopen as ([_ Hc] & _). }
  destruct Hopen as ([Hst Hon] & Hu' & Hr'). destruct (stands_settles _ _ _ _ Hst Hon) as (chain' & Hch & Hst').
  destruct (current_triple store b (disk w1) chain' None pinned Hst') as (o & Ho & _ & Hcur). specialize (Hcur w1 ltac:(by split)).
  assert (o = last chain') as -> by (by destruct Ho as [?|[[? ?] _]]). exists chain', store, w1.
  destruct (current store w1) as [w2 [[r|e]|]]; [|by destruct Hcur as ([_ Hc] & _)|by destruct Hcur as ([_ Hc] & _)]. destruct Hcur as ([_ ->] & _).
  exists w2. split_and!; [|apply Hst'|done|done|intros m Hm; by apply Hst'; left].
  destruct Hch as [->|(m & _ & ->)]; [done|]. by apply sublist_inserts_r.
Qed.

(** C37: checkpoints are kept.  Every checkpoint that was acknowledged and not since released is
    whole on disk under its name, in every state a power loss can leave, and so is the manifest it
    names, whatever was collected meanwhile. *)
Theorem checkpoint_kept elapsed s acked pinned name c d :
  reaches elapsed s acked pinned → (name, c) ∈ pinned → survives (disk_of s) d ∨ d = disk_of s →
  (∃ content, live d !! checkpoint_path name = Some (file_of content) ∧ from_slice content = Ok c)
  ∧ ∃ m, live d !! manifest_path (checkpoint_manifest c) = Some (file_of (to_vec m)) ∧ manifest_validate m = Ok tt
      ∧ manifest_id m = checkpoint_manifest c ∧ generation (content m) = checkpoint_generation c.
Proof.
  intros (chain & _ & Hok)%reaches_ok Hin Hd. destruct (state_stands _ _ _ Hok) as [pending Hs].
  assert (stands chain pending pinned d) as Hs' by (destruct Hd as [?| ->]; [by eapply stands_survives|done]). split.
  - apply (stands_pinned _ _ _ _ Hs' name c Hin), may_hold_live.
  - destruct (stands_named _ _ _ _ Hs' name c Hin) as (_ & m & Hm & Eid & Eg & Ho). exists m. rewrite <-Eid. split_and!; [apply Ho, may_hold_live| |done|done].
    apply (stands_valid _ _ _ _ Hs'). by left.
Qed.
End Facts.

(** * A concrete history *)

(** A first manifest is published, a log and an orphan segment are written beside it, the process
    ends, the database opens again, takes a checkpoint and collects. *)
Module SampleHistory.
Import Sample SampleCollection.

Definition begun (w : World) (d : Disk) : World := {| disk := d; replies := []; spaces := []; temporary_id := 1; publication_uncertain := publication_uncertain w |}.
Definition written : World :=
  begun (published []).1 (set_entry (wal_path 1) (Some (file_of [])) (set_entry (segment_path "orphan") (Some (file_of [x01; x02])) (disk (published []).1))).
Definition recovery : RecoveryBudget :=
  {| limits := {| files_limit := 16; read_bytes_limit := 65536; metadata_bytes_limit := 65536; wal_bytes_limit := 65536; wal_frames_limit := 16; elapsed_ms_limit := 1000 |};
     files := 0; read_bytes := 0; metadata_bytes := 0; frames := 0; readings := 0 |}.
Definition reopened : World * option (result Error (ManifestStore * Manifest * RecoveryBudget)) :=
  open_control (λ _, 0) "db" 0 (Some "n") Locked 4 small_limits recovery written.
Definition small_store : ManifestStore :=
  {| root_path := "db"; recovery_reserve := 0; temporary_nonce := "n"; checkpoint_entries := 4; checkpoint_budget := small_limits |}.
Definition pinned_at : World * option (result Error Checkpoint) := checkpoint small_store (λ _, 0) "cp" (manifest_id first) 7 reopened.1.
Definition collected_at : World * option (result Error GarbageCollectionReport) :=
  garbage_collect (λ _, 0) {| gc_manifests := small_store; gc_manifest := first; gc_reclamation := small_limits; writer_requires_reopen := None; active_read_views := ActiveReadViews_default |}
    pinned_at.1.
Definition sample_checkpoint : Checkpoint :=
  {| checkpoint_format_version := MANIFEST_CONTROL_FORMAT_VERSION; checkpoint_name := "cp"; checkpoint_manifest := manifest_id first; checkpoint_generation := 1;
     checkpoint_created_at := 7; checkpoint_checksum := match pinned_at.2 with Some (Ok c) => checkpoint_checksum c | _ => "" end |}.

Lemma opened_well : (opened []).2 = Some (Ok store).
Proof. vm_compute. reflexivity. Qed.
Lemma published_well : ∃ pointer, (published []).2 = Some (Ok pointer).
Proof. vm_compute. eexists. reflexivity. Qed.
Lemma reopened_well : ∃ b, reopened.2 = Some (Ok (small_store, first, b)).
Proof. vm_compute. eexists. reflexivity. Qed.
Lemma pinned_well : pinned_at.2 = Some (Ok sample_checkpoint).
Proof. vm_compute. reflexivity. Qed.
Lemma collected_well : ∃ report, collected_at.2 = Some (Ok report) ∧ removed_segments report = ["orphan.seg"] ∧ has_more report = false.
Proof. vm_compute. eexists. split; [reflexivity|]. split; reflexivity. Qed.

(** A step of a history from what it returns. *)
Lemma published_reaches : reaches (λ _, 0) (Running store (Some first) (published []).1) [first] [].
Proof.
  assert (reaches (λ _, 0) (Running store None (opened []).1) [] []) as Hr.
  { pose proof (reach_first (λ _, 0) created [] [] (world []) "db" 0 (Some "n") Locked (opened []).1 (opened []).2 (reach_created _) eq_refl eq_refl (surjective_pairing _)) as Hr.
    by rewrite opened_well in Hr. }
  pose proof (reach_publish (λ _, 0) store None (opened []).1 [] [] first None (published []).1 (published []).2 Hr (surjective_pairing _)) as Hp.
  destruct published_well as [pointer E]. by rewrite E in Hp.
Qed.
Lemma objects_reach store memory w d acked pinned :
  reaches (λ _, 0) (Running store memory w) acked pinned → beside (disk w) d → reaches (λ _, 0) (Down d) acked pinned.
Proof. intros Hr Hb. eapply (reach_killed _ store memory (begun w d)), reach_objects; [exact Hr|exact Hb|reflexivity]. Qed.
Lemma written_reaches : reaches (λ _, 0) (Down (disk written)) [first] [].
Proof.
  unfold written. cbn [disk begun]. generalize published_reaches. generalize (published []).1. intros w Hr. apply (objects_reach _ _ _ _ _ _ Hr).
  intros p e Hs Hw Hp. apply may_hold_set in Hp as [Hp|[-> _]]; [|done]. by apply may_hold_set in Hp as [Hp|[-> _]].
Qed.
Lemma pinned_reaches : reaches (λ _, 0) (Running small_store (Some first) pinned_at.1) [first] [("cp", sample_checkpoint)].
Proof.
  pose proof (reach_open (λ _, 0) _ _ _ written "db" 0 (Some "n") Locked 4 small_limits recovery reopened.1 reopened.2 written_reaches eq_refl eq_refl (surjective_pairing _)) as Hr.
  destruct reopened_well as [b E]. rewrite E in Hr.
  pose proof (reach_checkpoint (λ _, 0) small_store first reopened.1 [first] [] "cp" 7 pinned_at.1 pinned_at.2 Hr (surjective_pairing _)) as Hp. by rewrite pinned_well in Hp.
Qed.
Lemma collected_reaches : reaches (λ _, 0) (Running small_store (Some first) collected_at.1) [first] [("cp", sample_checkpoint)].
Proof.
  pose proof (reach_collect (λ _, 0) small_store first pinned_at.1 [first] _ small_limits None ActiveReadViews_default collected_at.1 collected_at.2 pinned_reaches (surjective_pairing _)) as Hc.
  destruct collected_well as (report & E & _). by rewrite E in Hc.
Qed.

(** The process is killed after the collection; the store opens again with the manifest. *)
Lemma manifest_publication_crash_safe_witness :
  let w := begun (world []) (disk collected_at.1) in
  ∃ chain s w1 w2, [first] `sublist_of` chain ∧ open_existing "db" 0 (Some "x") Locked w = (w1, Some (Ok s))
    ∧ current s w1 = (w2, Some (Ok ((λ m, (pointer_new m, m)) <$> last chain))).
Proof.
  generalize (reach_killed _ _ _ _ _ _ collected_reaches). generalize (disk collected_at.1). intros d Hr w.
  destruct (manifest_publication_crash_safe (λ _, 0) (Down d) [first] [("cp", sample_checkpoint)] d w "db" 0 "x" Hr (or_intror eq_refl) eq_refl eq_refl eq_refl)
    as (chain & s & w1 & w2 & Hsub & _ & Ho & Hc & _).
  exists chain, s, w1, w2. split; [exact Hsub|]. split; [exact Ho|exact Hc].
Defined.

Lemma checkpoint_kept_witness :
  (∃ content, live (disk collected_at.1) !! checkpoint_path "cp" = Some (file_of content) ∧ from_slice content = Ok sample_checkpoint)
  ∧ ∃ m : Manifest, live (disk collected_at.1) !! manifest_path (manifest_id first) = Some (file_of (to_vec m)).
Proof.
  generalize collected_reaches. generalize collected_at.1. intros w Hr.
  destruct (checkpoint_kept (λ _, 0) (Running small_store (Some first) w) [first] [("cp", sample_checkpoint)] "cp" sample_checkpoint (disk w) Hr
    (proj2 (list_elem_of_singleton _ _) eq_refl) (or_intror eq_refl)) as [Hc (m & Hm & _)].
  split; [exact Hc|]. exists m. exact Hm.
Defined.
End SampleHistory.
