(* ===== verification/SegmentStore.v ===== *)
(** Segment files on the disk ([rrd-lsm]: segment/mod.rs, the writing of a segment, and
    database.rs, compaction down to the files it writes).

    A segment is written under the digest of its contents: an existing file of that name is
    opened and checked, and its name made durable; otherwise the file is prepared under a
    temporary name, synced and renamed.  Compaction writes its partitions this way, one after
    the other, while it merges.

    Lemmas: whatever the operating system replies, writing changes nothing but the name of the
    segment, and when it succeeds that name holds the encoded file for good, or two byte strings
    are an explicit collision of the digest; and a merge that succeeds on the disk is the merge
    of Compaction with the encoder as its writer. *)

From S2P Require Import Prelude Machine BTree Ident Digest LsmError Batch RecoveryBudget Wal Memtable Transaction Versions SegmentFormat Segment SegmentFile SegmentWrite SegmentOpen PointIndex Database Compaction Manifest Filesystem Reclamation Reader ReadViews ManifestStore GarbageCollection.
Open Scope Z_scope.

(** What the database gives every segment it writes. *)
Record SegmentWriting := {
  writing_reserve : Z; process_id : string; row_group_budget : SegmentRowGroupBudget; compression_policy : SegmentCompressionPolicy
}.

Section Writing.
Context `{Ring} `{Lz4}.
(** Whether a page can be held, and the identity of an opened segment. *)
Context (probe_ : bool → result Error unit) (address_of : string → Z).
Context (self : SegmentWriting).

(** lsm/segment/mod.rs:858-863 Segment::write_encoded_with_cache: the next temporary name *)
Definition segment_temporary (checksum : string) : io Error string := λ w,
  ({| disk := disk w; replies := replies w; spaces := spaces w; temporary_id := wrapping_add 64 (temporary_id w) 1; publication_uncertain := publication_uncertain w |},
   Some (Ok ("." +:+ checksum +:+ "." +:+ process_id self +:+ "." +:+ pretty (temporary_id w) +:+ ".tmp"))).

(** lsm/segment/mod.rs:909-961 Segment::open_with_cache_and_io, of a name *)
Definition open_at_path (path : Path) (checksum : string) : io Error Segment :=
  let! content := question (Filesystem.read path) in
  io_lift (open_segment content probe_ (address_of checksum)).

(** lsm/segment/mod.rs:822-899 Segment::write_encoded_with_cache; the directory exists *)
Definition write_encoded (encoded : EncodedSegment) : io Error Segment :=
  let checksum := encoded_checksum encoded in
  let path := segment_path checksum in
  let! exists_ := question (try_exists path) in
  if exists_ : bool then
    let! segment := open_at_path path checksum in
    if negb (bool_decide (segment_id (descriptor segment) = checksum))
    then io_fail (InvalidSegment "existing content-addressed segment has another identity")
    else
      let! _ := question (sync_directory Segments) in
      io_ret segment
  else
    let! temporary := segment_temporary checksum in
    let! _ := admit_disk (writing_reserve self) (len (encoded_segment encoded)) true in
    let! _ := question (persist_rename_file (Segments, temporary) path (encoded_segment encoded)) in
    open_at_path path checksum.

(** lsm/segment/mod.rs:805-820 Segment::write_from_versions_with_cache *)
Definition write_from_versions (versions : list (key * list VersionedValue)) : io Error Segment :=
  let! encoded := io_lift (encode_versions versions (row_group_budget self) (compression_policy self)) in
  write_encoded encoded.

(** The writer of Compaction that encodes and opens without a disk. *)
Definition encoder (versions : list (key * list VersionedValue)) : result Error Segment :=
  let? encoded := encode_versions versions (row_group_budget self) (compression_policy self) in
  open_segment (encoded_segment encoded) probe_ (address_of (encoded_checksum encoded)).

(** ** Compaction, writing its partitions *)

Context {layout : Layout}.

(** lsm/database.rs:2300-2317 Database::write_compaction_partition, on the disk *)
Definition write_partition_on (versions : list (key * list VersionedValue)) (durable level : Z) : io Error Segment :=
  let! table := io_lift (from_versions (map (λ '(k, vs), (k, (vs, len vs))) versions) durable) in
  let! segment := write_from_versions (all_versions table) in
  io_ret (with_level segment level).

(** lsm/database.rs:2262-2276 Database::merge_compaction_candidate, closing a partition on the disk *)
Definition close_partition_on (db : Database) (durable level : Z) (st : MergeState) : io Error MergeState :=
  let! _ := io_lift (compaction_check (compaction_limits db) OutputSegments (len (compacted_segments st) + 1)) in
  let! segment := write_partition_on (buffered st) durable level in
  io_ret {| buffered := []; buffered_bytes := 0; peak_buffer_bytes := peak_buffer_bytes st;
            compacted_segments := compacted_segments st ++ [segment]; kept_versions := kept_versions st;
            merged_bytes := saturating_add 64 (merged_bytes st) (segment_bytes (descriptor segment)) |}.

(** lsm/database.rs:2247-2282 Database::merge_compaction_candidate, a key on the disk *)
Definition settle_key_on (db : Database) (selected : list nat) (durable level : Z) (protected : list Z) (retain_all_versions : bool)
    (st : MergeState) (k : key) (vs : list (Z * option (list byte))) : io Error MergeState :=
  let retained := retained_versions vs protected retain_all_versions in
  let shadows := existsb (λ i, negb (existsb (Nat.eqb i) selected) && covers (descriptor_of (segments db)) k i)%bool
                   (seq 0 (length (segments db))) in
  if negb (retain_compacted_key retained retain_all_versions shadows) then io_ret st
  else
    let group_bytes := version_group_bytes k retained in
    let! st :=
      if (negb (len (buffered st) =? 0)
          && (target_segment_bytes (compaction db) <? saturating_add 64 (buffered_bytes st) group_bytes))%bool
      then close_partition_on db durable level st else io_ret st in
    let bytes := saturating_add 64 (buffered_bytes st) group_bytes in
    io_ret {| buffered := bt_insert k retained (buffered st); buffered_bytes := bytes;
              peak_buffer_bytes := Z.max (peak_buffer_bytes st) bytes; compacted_segments := compacted_segments st;
              kept_versions := saturating_add 64 (kept_versions st) (len retained); merged_bytes := merged_bytes st |}.

(** lsm/database.rs:2200-2282 Database::merge_compaction_candidate, the loop over the keys on the disk *)
Fixpoint merge_keys_on (fuel : nat) (db : Database) (selected : list nat) (durable level : Z) (protected : list Z)
    (retain_all_versions : bool) (heads : list head_record) (st : MergeState) (n : Z) : io Error (MergeState * Z) :=
  match minimum_key (omap (λ at_ : head_record, record_key <$> at_.2) heads) with
  | None => io_ret (st, n)
  | Some k =>
    match fuel with
    | O => io_lift (invalid_segment "unreachable")
    | S fuel' =>
      let! (heads, vs, n) := io_lift (take_key_all fuel k heads [] n) in
      let! st := settle_key_on db selected durable level protected retain_all_versions st k vs in
      merge_keys_on fuel' db selected durable level protected retain_all_versions heads st n
    end
  end.

(** lsm/database.rs:2172-2298 Database::merge_compaction_candidate, on the disk *)
Definition merge_candidate_on (db : Database) (candidate : CompactionCandidate) (durable : Z) (protected : list Z)
    (retain_all_versions : bool) : io Error (MergeState * Z) :=
  let inputs := omap (λ i, segments db !! i) (indices candidate) in
  let! heads := io_lift (try_map (λ segment, next_record (record_cursor segment)) inputs) in
  let! (st, n) := merge_keys_on (S (list_sum (map row_total inputs))) db (indices candidate) durable (target_level candidate)
    protected retain_all_versions heads
    {| buffered := []; buffered_bytes := 0; peak_buffer_bytes := 0; compacted_segments := []; kept_versions := 0; merged_bytes := 0 |} 0 in
  if len (buffered st) =? 0 then io_ret (st, n)
  else let! st := close_partition_on db durable (target_level candidate) st in io_ret (st, n).
End Writing.

(** * What writing leaves on the disk *)

(** Names of segments may have been taken by whole files; nothing else has changed but files
    being prepared. *)
Definition adds (d d' : Disk) : Prop :=
  ∀ p e, is_temporary p.2 = false → may_hold d' p e →
    may_hold d p e ∨ p.1 = Segments ∧ may_hold d p None ∧ ∃ content, e = Some (Filesystem.file_of content).
(** Every segment that can be found is synced. *)
Definition segments_durable (d : Disk) : Prop :=
  ∀ p f, p.1 = Segments → is_temporary p.2 = false → may_hold d p (Some (RegularFile f)) → Filesystem.durable f = true.

Lemma adds_refl d : adds d d.
Proof. intros p e _ He. by left. Qed.
Lemma adds_trans d1 d2 d3 : adds d1 d2 → adds d2 d3 → adds d1 d3.
Proof.
  intros H1 H2 p e Ht He. destruct (H2 p e Ht He) as [He'|(Hp & Hnone & Hc)]; [by apply H1|]. right. split; [done|]. split; [|done].
  destruct (H1 p None Ht Hnone) as [?|(_ & _ & content & [=])]. done.
Qed.
Lemma adds_sync directory d : adds d (sync_entries directory d).
Proof. intros p e _ [He _]%may_hold_sync. by left. Qed.
Lemma adds_grows c content d d' : grows (segment_path c) (Filesystem.file_of content) d d' → may_hold d (segment_path c) None → adds d d'.
Proof. intros Hg Hnone p e Ht He. destruct (Hg p e Ht He) as [?|[-> ->]]; [by left|right]. split; [done|]. split; [done|by eexists]. Qed.
Lemma adds_only d d' p e : adds d d' → is_temporary p.2 = false → only p (Some e) d → only p (Some e) d'.
Proof. intros Ha Ht Ho x Hx. destruct (Ha p x Ht Hx) as [?|(_ & Hnone & _)]; [by apply Ho|]. by apply Ho in Hnone. Qed.
Lemma adds_durable d d' : adds d d' → segments_durable d → segments_durable d'.
Proof. intros Ha Hd p f Hp Ht Hf. destruct (Ha p _ Ht Hf) as [?|(_ & _ & content & [= ->])]; [by apply (Hd p)|done]. Qed.
#[export] Hint Resolve adds_refl adds_sync : fs.

Lemma seg_not_temporary name : is_temporary (name +:+ ".seg") = false.
Proof.
  unfold is_temporary. apply bool_decide_eq_false_2. rewrite str_bytes_append. intros [k E]. apply (f_equal last) in E.
  change (str_bytes ".seg") with (str_bytes ".se" ++ [x67]) in E. change (str_bytes ".tmp") with (str_bytes ".tm" ++ [x70]) in E. rewrite !app_assoc, !last_snoc in E. done.
Qed.
#[export] Hint Resolve seg_not_temporary : fs.

Section Facts.
Context `{RingLaws} `{Lz4Laws}.

(** Two byte strings with one digest. *)
Definition ring_collision : Prop := ∃ x y, x ≠ y ∧ ring_sha256 x = ring_sha256 y.

Lemma verify_file_digest_ok file n checksum :
  verify_file_digest file n = Ok checksum → n = len file → ∃ body, file = body ++ str_bytes checksum ∧ checksum = encode_digest (ring_sha256 body).
Proof.
  intros Hv ->. unfold verify_file_digest, checked_sub in Hv. destruct (Z.leb_spec FOOTER_BYTES (len file)) as [Hle|]; [|done]. cbn [ok_or] in Hv.
  unfold read_at, slice_get in Hv. destruct (_ && _)%bool; [|done]. cbn [ok_or] in Hv.
  destruct (from_utf8 _) as [expected|] eqn:Eu; [|done]. cbn [ok_or] in Hv. apply from_utf8_Some in Eu as [Eu _].
  match type of Hv with (if negb (bool_decide ?P) then _ else _) = _ => destruct (decide P) as [->|Hno]; [|by rewrite bool_decide_eq_false_2 in Hv by done] end.
  rewrite bool_decide_eq_true_2 in Hv by done. injection Hv as <-. eexists. split; [|reflexivity]. rewrite Eu.
  rewrite (take_ge (drop _ _)); [by rewrite take_drop|]. rewrite length_drop. unfold len, FOOTER_BYTES in *. lia.
Qed.
Lemma open_segment_file file probe_ id seg :
  open_segment file probe_ id = Ok seg → ∃ body, file = body ++ str_bytes (segment_id (descriptor seg)) ∧ segment_id (descriptor seg) = encode_digest (ring_sha256 body).
Proof.
  unfold open_segment. destruct (validate_physical_file file) as [n|] eqn:En; [|done].
  assert (n = len file) as -> by (unfold validate_physical_file in En; destruct_matches_in En; by simplify_eq).
  destruct (verify_file_digest file _) as [checksum|] eqn:Ev; [|done]. destruct (parse_metadata _ _ _) as [metadata|] eqn:Ep; [|done].
  destruct (validate_all_pages _); [|done]. intros [= <-]. cbn [descriptor build_segment].
  assert (segment_id (parsed_descriptor metadata) = checksum) as -> by (unfold parse_metadata in Ep; destruct_matches_in Ep; by simplify_eq).
  by eapply verify_file_digest_ok.
Qed.
Lemma encode_versions_file versions budget policy enc :
  encode_versions versions budget policy = Ok enc → ∃ body, encoded_segment enc = body ++ str_bytes (encoded_checksum enc) ∧ encoded_checksum enc = encode_digest (ring_sha256 body).
Proof. unfold encode_versions. intros He. destruct_matches_in He; try done. simplify_eq/=. by eexists. Qed.

Lemma encode_digest_inj x y : encode_digest (ring_sha256 x) = encode_digest (ring_sha256 y) → ring_sha256 x = ring_sha256 y.
Proof.
  change (hex (ring_sha256 x) = hex (ring_sha256 y) → ring_sha256 x = ring_sha256 y). intros E.
  pose proof (from_hex_hex (ring_sha256 x) (ring_length x)) as Hx. rewrite E, from_hex_hex in Hx by apply ring_length. by injection Hx.
Qed.

(** A file that opens under the digest of an encoded segment is that segment. *)
Lemma addressed versions budget policy enc file probe_ id seg :
  encode_versions versions budget policy = Ok enc → open_segment file probe_ id = Ok seg → segment_id (descriptor seg) = encoded_checksum enc →
  file = encoded_segment enc ∨ ring_collision.
Proof.
  intros (b1 & Eb1 & Ec1)%encode_versions_file (b2 & Eb2 & Ec2)%open_segment_file E. rewrite Eb1, Eb2, E.
  destruct (decide (b2 = b1)) as [->|Hne]; [by left|right]. exists b2, b1. split; [done|]. apply encode_digest_inj. congruence.
Qed.

(** ** Writing one segment *)

Section Write.
Context (probe_ : bool → result Error unit) (address_of : string → Z) (self : SegmentWriting).

Lemma try_exists_ok p w w' b : question (try_exists p) w = (w', Some (Ok b)) → disk w' = disk w ∧ (b = false → live (disk w) !! p = None).
Proof.
  intros Hq%question_ok. unfold try_exists, io_bind, attempt, metadata, observe, io_ret, io_fail in Hq.
  destruct (replies w) as [|[|reason n|n] rs]; [| | |done]; destruct (live (disk w) !! p) as [[]|]; simplify_eq/=; done.
Qed.
Lemma looks_try_exists p : looks (question (try_exists p)).
Proof. unfold question, try_exists, metadata. apply looks_map_err, looks_bind; [eauto with fs|]. intros [e|[|reason]]; eauto with fs. Qed.
Lemma looks_open_at path checksum : looks (open_at_path probe_ address_of path checksum).
Proof. unfold open_at_path, question, Filesystem.read. apply looks_bind; [eauto with fs|]. intros content. eauto with fs. Qed.
Lemma open_at_path_ok path checksum w w' seg :
  open_at_path probe_ address_of path checksum w = (w', Some (Ok seg)) →
  ∃ f, live (disk w) !! path = Some (RegularFile f) ∧ open_segment (Filesystem.bytes f) probe_ (address_of checksum) = Ok seg.
Proof.
  intros (content & w1 & [Hr _]%question_ok%observe_ok & [Ho _]%lift_ok)%bind_ok. destruct (live (disk w) !! path) as [[f| |]|]; simplify_eq. by exists f.
Qed.
Lemma looks_disk {A} (m : io Error A) w w' r : looks m → m w = (w', r) → disk w' = disk w ∧ publication_uncertain w' = publication_uncertain w.
Proof. intros Hm E. specialize (Hm w). by rewrite E in Hm. Qed.

(** Whether it succeeds or not, writing only adds the segment, and when it succeeds the name
    holds the encoded file for good. *)
Definition wrote (enc : EncodedSegment) (w w' : World) (r : option (result Error Segment)) : Prop :=
  adds (disk w) (disk w') ∧ publication_uncertain w' = publication_uncertain w
  ∧ ∀ seg, r = Some (Ok seg) →
      (only (segment_path (encoded_checksum enc)) (Some (Filesystem.file_of (encoded_segment enc))) (disk w')
       ∧ open_segment (encoded_segment enc) probe_ (address_of (encoded_checksum enc)) = Ok seg) ∨ ring_collision.

Lemma write_again versions budget policy enc w w' r :
  encode_versions versions budget policy = Ok enc → segments_durable (disk w) →
  (let! segment := open_at_path probe_ address_of (segment_path (encoded_checksum enc)) (encoded_checksum enc) in
   if negb (bool_decide (segment_id (descriptor segment) = encoded_checksum enc))
   then io_fail (InvalidSegment "existing content-addressed segment has another identity")
   else let! _ := question (sync_directory Segments) in io_ret segment) w = (w', r) →
  wrote enc w w' r.
Proof.
  intros He Hdur. unfold io_bind at 1. destruct (open_at_path _ _ _ _ w) as [w1 r1] eqn:E1.
  destruct (looks_disk _ _ _ _ (looks_open_at _ _) E1) as [Hd1 Hu1].
  assert (∀ r, wrote enc w w1 (match r with Some (Ok _) => None | r => r end)) as Hno.
  { intros r0. unfold wrote. rewrite Hd1. split_and!; [apply adds_refl|done|by destruct r0 as [[]|]]. }
  destruct r1 as [[seg|e]|]; [|intros [= <- <-]; apply (Hno (Some (Err e)))|intros [= <- <-]; apply (Hno None)].
  apply open_at_path_ok in E1 as (f & Hf & Ho). case_bool_decide as Hid; cbn [negb]; [|intros [= <- <-]; apply (Hno (Some (Err _)))].
  unfold io_bind. destruct (question (sync_directory Segments) w1) as [w2 r2] eqn:E2.
  assert (publication_uncertain w2 = publication_uncertain w1 ∧ (disk w2 = disk w1 ∨ disk w2 = sync_entries Segments (disk w1)) ∧ (r2 = Some (Ok tt) → disk w2 = sync_entries Segments (disk w1))) as (Hu2 & Hd2 & Hs).
  { unfold question, map_err, io_bind, attempt in E2. destruct (sync_directory Segments w1) as [w3 r3] eqn:E3. pose proof (sync_directory_cases _ _ _ _ E3) as (? & ? & Hok).
    destruct r3 as [[[]|e]|]; injection E2 as <- <-; (split_and!; [done|done|]); done || (intros _; by apply Hok). }
  assert (adds (disk w) (disk w2)) as Ha by (destruct Hd2 as [->| ->]; rewrite Hd1; [apply adds_refl|apply adds_sync]).
  destruct r2 as [[[]|e]|]; intros [= <- <-]; (split_and!; [done|congruence|]); try done.
  intros seg' [= <-]. destruct (addressed _ _ _ _ _ _ _ _ He Ho Hid) as [E|]; [left|by right].
  assert (Filesystem.durable f = true) as Ed by (apply (Hdur (segment_path (encoded_checksum enc)) f); [done|apply seg_not_temporary|by left]).
  split; [|by rewrite <-E]. rewrite Hs by done. intros x [_ Hx]%may_hold_sync. rewrite (Hx eq_refl), Hd1, Hf. destruct f. cbn in *. by subst.
Qed.

Lemma write_anew versions budget policy enc w w' r :
  encode_versions versions budget policy = Ok enc → live (disk w) !! segment_path (encoded_checksum enc) = None →
  (let! temporary := segment_temporary self (encoded_checksum enc) in
   let! _ := admit_disk (writing_reserve self) (len (encoded_segment enc)) true in
   let! _ := question (persist_rename_file (Segments, temporary) (segment_path (encoded_checksum enc)) (encoded_segment enc)) in
   open_at_path probe_ address_of (segment_path (encoded_checksum enc)) (encoded_checksum enc)) w = (w', r) →
  wrote enc w w' r.
Proof.
  intros He Hnone. unfold segment_temporary. unfold io_bind at 1. cbv zeta.
  set (temporary := "." +:+ _). set (w1 := {| disk := disk w; replies := _; spaces := _; temporary_id := _; publication_uncertain := _ |}).
  assert (is_temporary temporary = true) as Ht.
  { pose proof (temporary_suffix ("." +:+ encoded_checksum enc +:+ "." +:+ process_id self +:+ "." +:+ pretty (temporary_id w))) as Ht. rewrite !append_append in Ht. exact Ht. }
  unfold admit_disk. unfold io_bind at 1. cbv zeta. set (w2 := {| disk := disk w1; replies := _; spaces := _; temporary_id := _; publication_uncertain := _ |}).
  destruct (admit_space _ _ _ _) as [[]|e]; [|intros [= <- <-]; split_and!; [apply adds_refl|done|done]].
  unfold io_bind at 1. pose proof (persist_rename_triple (mode_of w2) (Segments, temporary) (segment_path (encoded_checksum enc)) (encoded_segment enc) (disk w2) Ht (seg_not_temporary _) w2 (knows_of w2)) as Hp.
  destruct (question (persist_rename_file _ _ _) w2) as [w3 r3] eqn:E3.
  unfold question, map_err, io_bind, attempt in E3. destruct (persist_rename_file _ _ _ w2) as [w4 r4] eqn:E4.
  assert (w3 = w4 ∧ (∀ u, r3 = Some (Ok u) → ∃ v, r4 = Some (Ok v))) as [-> Hr] by (destruct r4 as [[[]|e]|]; injection E3 as <- <-; split; [done|by eauto|done|done|done|done]). clear E3.
  assert (grows (segment_path (encoded_checksum enc)) (Filesystem.file_of (encoded_segment enc)) (disk w2) (disk w4) ∧ publication_uncertain w4 = publication_uncertain w) as [Hg Hu].
  { destruct r4 as [[[]|e]|]; destruct Hp as (HP & Hu & _); (split; [apply HP|done]). }
  assert (adds (disk w) (disk w4)) as Ha by (eapply adds_grows; [exact Hg|by left]).
  destruct r3 as [[[]|e]|]; [|intros [= <- <-]; by split_and!..]. destruct (Hr () eq_refl) as [v ->]. destruct Hp as ((_ & Ho & _) & _ & _).
  intros E5. destruct (looks_disk _ _ _ _ (looks_open_at _ _) E5) as [Hd5 Hu5]. split_and!; [by rewrite Hd5|congruence|].
  intros seg ->. left. apply open_at_path_ok in E5 as (f & Hf & Hopen). rewrite Hd5. split; [done|].
  assert (Some (RegularFile f) = Some (Filesystem.file_of (encoded_segment enc))) as [= ->] by (rewrite <-Hf; apply Ho, may_hold_live). done.
Qed.

Lemma write_spec versions w w' r :
  segments_durable (disk w) → write_from_versions probe_ address_of self versions w = (w', r) →
  adds (disk w) (disk w') ∧ publication_uncertain w' = publication_uncertain w
  ∧ ∀ seg, r = Some (Ok seg) → ring_collision ∨ ∃ enc, encode_versions versions (row_group_budget self) (compression_policy self) = Ok enc
      ∧ only (segment_path (encoded_checksum enc)) (Some (Filesystem.file_of (encoded_segment enc))) (disk w')
      ∧ open_segment (encoded_segment enc) probe_ (address_of (encoded_checksum enc)) = Ok seg.
Proof.
  intros Hdur. unfold write_from_versions. unfold io_bind at 1, io_lift. destruct (encode_versions _ _ _) as [enc|e] eqn:He; [|intros [= <- <-]; split_and!; [apply adds_refl|done|done]].
  unfold write_encoded. unfold io_bind at 1. destruct (question (try_exists _) w) as [w1 r1] eqn:E1.
  destruct (looks_disk _ _ _ _ (looks_try_exists _) E1) as [Hd1 Hu1].
  destruct r1 as [[[|]|e]|]; [| |intros [= <- <-]; rewrite Hd1; split_and!; [apply adds_refl|done|done]..].
  - intros (Ha & Hu & Hok)%(write_again versions (row_group_budget self) (compression_policy self)); [|done|by rewrite Hd1]. rewrite Hd1 in Ha. split_and!; [done|congruence|].
    intros seg [[? ?]|]%Hok; [right; by exists enc|by left].
  - apply try_exists_ok in E1 as [_ Hnone]. intros (Ha & Hu & Hok)%(write_anew versions (row_group_budget self) (compression_policy self)); [|done|rewrite Hd1; by apply Hnone].
    rewrite Hd1 in Ha. split_and!; [done|congruence|]. intros seg [[? ?]|]%Hok; [right; by exists enc|by left].
Qed.

(** ** Merging on the disk *)

(** What is opened can be opened again against its descriptor, at any level. *)
Lemma open_again file id seg level :
  open_segment file probe_ id = Ok seg → open_expected file (at_level (descriptor seg) level) probe_ id = Ok (with_level seg level).
Proof.
  unfold open_segment, open_expected. destruct (validate_physical_file file) as [n|] eqn:En; [|done].
  destruct (verify_file_digest file n) as [checksum|] eqn:Ev; [|done]. destruct (parse_metadata _ _ _) as [metadata|] eqn:Ep; [|done].
  destruct (validate_all_pages _); [|done]. intros [= <-]. cbn [descriptor build_segment].
  assert (segment_id (parsed_descriptor metadata) = checksum ∧ segment_checksum (parsed_descriptor metadata) = checksum ∧ segment_bytes (parsed_descriptor metadata) = n) as (E1 & E2 & E3)
    by (unfold parse_metadata in Ep; destruct_matches_in Ep; by simplify_eq).
  cbn [at_level segment_bytes segment_checksum segment_id segment_level]. rewrite E1, E2, E3, Z.eqb_refl, !bool_decide_eq_true_2 by done. done.
Qed.

(** The file of a segment is on the disk for good, and opens as the segment. *)
Definition stored (d : Disk) (seg : Segment) : Prop :=
  ∃ content, only (segment_path (segment_id (descriptor seg))) (Some (Filesystem.file_of content)) d
    ∧ open_expected content (descriptor seg) probe_ (address_of (segment_id (descriptor seg))) = Ok seg.
Lemma stored_adds d d' seg : adds d d' → stored d seg → stored d' seg.
Proof. intros Ha (content & Ho & He). exists content. split; [|done]. eapply adds_only; [done|apply seg_not_temporary|done]. Qed.

(** Code that only adds segments, and follows code without a disk. *)
Definition quiet {A} (m : io Error A) : Prop :=
  ∀ w w' r, segments_durable (disk w) → m w = (w', r) → adds (disk w) (disk w') ∧ publication_uncertain w' = publication_uncertain w.
Definition tracks {A} (P : Disk → Prop) (m : io Error A) (p : result Error A) (Q : A → Disk → Prop) : Prop :=
  quiet m ∧ ∀ w w' x, segments_durable (disk w) → P (disk w) → m w = (w', Some (Ok x)) → ring_collision ∨ p = Ok x ∧ Q x (disk w').

Lemma quiet_looks {A} (m : io Error A) : looks m → quiet m.
Proof. intros Hm w w' r _ E. destruct (looks_disk _ _ _ _ Hm E) as [-> ->]. split; [apply adds_refl|done]. Qed.
Lemma quiet_bind {A B} (m : io Error A) (k : A → io Error B) : quiet m → (∀ x, quiet (k x)) → quiet (io_bind m k).
Proof.
  intros Hm Hk w w' r Hd. unfold io_bind. destruct (m w) as [w1 r1] eqn:E1. destruct (Hm w w1 r1 Hd E1) as [Ha Hu].
  destruct r1 as [[x|e]|]; [|intros [= <- <-]; by split..]. intros E2. destruct (Hk x w1 w' r (adds_durable _ _ Ha Hd) E2) as [Ha2 Hu2].
  split; [by eapply adds_trans|congruence].
Qed.
Lemma tracks_lift {A} (P : Disk → Prop) (r : result Error A) (Q : A → Disk → Prop) : (∀ d x, P d → r = Ok x → Q x d) → tracks P (io_lift r) r Q.
Proof. intros HQ. split; [apply quiet_looks, looks_lift|]. intros w w' x _ HP [= <- ->]. right. split; [done|by apply HQ]. Qed.
Lemma tracks_ret {A} (P : Disk → Prop) (x : A) (Q : A → Disk → Prop) : (∀ d, P d → Q x d) → tracks P (io_ret x) (Ok x) Q.
Proof. intros HQ. apply (tracks_lift P (Ok x)). by intros d y HP [= <-]; apply HQ. Qed.
Lemma tracks_bind {A B} (P : Disk → Prop) (m : io Error A) p Q (k : A → io Error B) (pk : A → result Error B) R :
  tracks P m p Q → (∀ x, tracks (Q x) (k x) (pk x) R) → tracks P (io_bind m k) (let? x := p in pk x) R.
Proof.
  intros [Hq Hm] Hk. split; [apply quiet_bind; [done|apply Hk]|]. intros w w' y Hd HP (x & w1 & E1 & E2)%bind_ok.
  destruct (Hm w w1 x Hd HP E1) as [|[-> HQ]]; [by left|]. eapply Hk; [|exact HQ|exact E2]. eapply adds_durable; [|done]. by eapply Hq.
Qed.

Context (Hbudget : budget_wf (row_group_budget self)) (Hpolicy : policy_wf (compression_policy self)) (Hprobe : ∀ b, probe_ b = Ok tt).
Context {layout : Layout}.

#[export] Instance encoder_writer : SegmentWriter (encoder probe_ address_of self).
Proof.
  intros versions seg Hs. unfold encoder. destruct (encode_versions versions _ _) as [enc|] eqn:E; [|done].
  destruct (write_holds _ _ probe_ (address_of (encoded_checksum enc)) _ _ Hbudget Hpolicy Hprobe Hs E) as (seg' & gs & Ho & _ & _ & Hh & Hc). rewrite Ho. intros [= <-]. by exists gs.
Qed.

(** The segments collected so far are on the disk. *)
Definition merged (st : MergeState) (d : Disk) : Prop := Forall (stored d) (compacted_segments st).

Lemma write_tracks (P : Disk → Prop) versions :
  (∀ d d', adds d d' → P d → P d') →
  tracks P (write_from_versions probe_ address_of self versions) (encoder probe_ address_of self versions) (λ seg d, P d ∧ ∀ level, stored d (with_level seg level)).
Proof.
  intros HP. split; [intros w w' r Hd E; by destruct (write_spec _ _ _ _ Hd E) as (? & ? & _)|].
  intros w w' seg Hd Hp E. destruct (write_spec _ _ _ _ Hd E) as (Ha & _ & Hok). destruct (Hok seg eq_refl) as [|(enc & He & Ho & Hopen)]; [by left|right].
  unfold encoder. rewrite He. split; [done|]. split; [by eapply HP|]. intros level. exists (encoded_segment enc).
  assert (segment_id (descriptor seg) = encoded_checksum enc) as Eid.
  { destruct (open_segment_file _ _ _ _ Hopen) as (b1 & E1 & Ec1). destruct (encode_versions_file _ _ _ _ He) as (b2 & E2 & Ec2).
    assert (length (str_bytes (encoded_checksum enc)) = 64%nat ∧ length (str_bytes (segment_id (descriptor seg))) = 64%nat) as [L1 L2] by (rewrite Ec1, Ec2; split; apply checksum_length).
    rewrite E2 in E1. apply app_inj_2 in E1 as [_ E1]; [|by rewrite L1, L2]. symmetry. by apply str_bytes_inj. }
  change (segment_id (descriptor (with_level seg level))) with (segment_id (descriptor seg)). rewrite Eid. split; [done|]. by apply open_again.
Qed.

Lemma close_tracks db durable level st :
  tracks (merged st) (close_partition_on probe_ address_of self db durable level st) (close_partition (encoder probe_ address_of self) db durable level st) merged.
Proof.
  unfold close_partition_on, close_partition, write_partition_on, write_compaction_partition.
  eapply (tracks_bind _ _ _ (λ _, merged st)); [by apply tracks_lift|]. intros _.
  eapply (tracks_bind _ _ _ (λ seg d, merged st d ∧ stored d seg)).
  - eapply (tracks_bind _ _ _ (λ _, merged st)); [by apply tracks_lift|]. intros table.
    eapply (tracks_bind _ _ _ (λ seg d, merged st d ∧ ∀ level, stored d (with_level seg level))).
    + apply write_tracks. intros d d' Ha Hm. eapply Forall_impl; [exact Hm|]. intros seg. by apply stored_adds.
    + intros seg. apply tracks_ret. intros d [Hm Hs]. split; [done|apply Hs].
  - intros seg. apply tracks_ret. intros d [Hm Hs]. apply Forall_app. split; [done|]. by constructor.
Qed.
Lemma settle_tracks db selected durable level protected retain_all st k vs :
  tracks (merged st) (settle_key_on probe_ address_of self db selected durable level protected retain_all st k vs)
    (settle_key (encoder probe_ address_of self) db selected durable level protected retain_all st k vs) merged.
Proof.
  unfold settle_key_on, settle_key. destruct (negb _); [by apply tracks_ret|]. eapply (tracks_bind _ _ _ merged).
  - destruct (_ && _)%bool; [apply close_tracks|by apply tracks_ret].
  - intros st'. by apply tracks_ret.
Qed.
Lemma merge_keys_tracks fuel db selected durable level protected retain_all heads st n :
  tracks (merged st) (merge_keys_on probe_ address_of self fuel db selected durable level protected retain_all heads st n)
    (merge_keys (encoder probe_ address_of self) fuel db selected durable level protected retain_all heads st n) (λ out, merged out.1).
Proof.
  revert heads st n. induction fuel as [|fuel IH]; intros heads st n; cbn [merge_keys_on merge_keys]; (destruct (minimum_key _) as [k|]; [|by apply tracks_ret]); [by apply tracks_lift|].
  eapply (tracks_bind _ _ _ (λ _, merged st)); [by apply tracks_lift|]. intros [[heads' vs] n'].
  eapply (tracks_bind _ _ _ merged); [apply settle_tracks|]. intros st'. apply IH.
Qed.
(** A merge that succeeds on the disk is the merge with the encoder, and its segments are there. *)
Lemma merge_candidate_tracks db candidate durable protected retain_all :
  tracks (λ _, True) (merge_candidate_on probe_ address_of self db candidate durable protected retain_all)
    (merge_compaction_candidate (encoder probe_ address_of self) db candidate durable protected retain_all) (λ out, merged out.1).
Proof.
  unfold merge_candidate_on, merge_compaction_candidate. eapply (tracks_bind _ _ _ (λ _ _, True)); [by apply tracks_lift|]. intros heads.
  eapply (tracks_bind _ _ _ (λ out, merged out.1)).
  - destruct (merge_keys_tracks (S (list_sum (map row_total (omap (λ i, segments db !! i) (indices candidate))))) db (indices candidate) durable (target_level candidate) protected retain_all heads
      {| buffered := []; buffered_bytes := 0; peak_buffer_bytes := 0; compacted_segments := []; kept_versions := 0; merged_bytes := 0 |} 0) as [Hq Ht].
    split; [done|]. intros w w' x Hd _. apply Ht; [done|]. by constructor.
  - intros [st n]. destruct (_ =? 0); [by apply tracks_ret|]. eapply (tracks_bind _ _ _ merged); [apply close_tracks|]. intros st'. by apply tracks_ret.
Qed.
End Write.
End Facts.


(** * A concrete merge *)

Module SampleStore.
#[local] Existing Instances run_codec run_codec_laws sum_ring sum_ring_laws layout64.

Definition writing : SegmentWriting :=
  {| writing_reserve := 0; process_id := "7"; row_group_budget := SegmentRowGroupBudget_default; compression_policy := PolicyNone |}.
(** An empty disk. *)
Definition world (replies : list Reply) : World :=
  {| disk := {| live := ∅; stale := [] |}; replies := replies; spaces := []; temporary_id := 1; publication_uncertain := false |}.
Definition both : CompactionCandidate := {| indices := [0%nat; 1%nat]; source_level := 0; target_level := 1 |}.
Definition merging (replies : list Reply) : World * option (result Error (MergeState * Z)) :=
  merge_candidate_on (λ _, Ok tt) (λ _, 9) writing merge_db both 7 [3; 7] false (world replies).

Lemma empty_durable replies : segments_durable (disk (world replies)).
Proof. intros p f _ _ [Hl|Hs%not_elem_of_nil]; [|done]. cbn in Hl. by rewrite lookup_empty in Hl. Qed.

Lemma merging_result : match (merging []).2 with Some (Ok (st, n)) => (n, kept_versions st, length (compacted_segments st)) = (7, 4, 1%nat) | _ => False end.
Proof. vm_compute. reflexivity. Qed.


End SampleStore.
